(* ===== verification/_CoqProject ===== *)
-Q . S2P
Prelude.v
Bytes.v
Utf8.v
ForwardTypes.v
ForwardCodec.v
ForwardFrames.v
ForwardSafety.v
ForwardTheorems.v
ChunkTransport.v
ResultCodec.v
ReplayWindow.v
Session.v
SessionTheorems.v
PipelineStream.v
Floats.v
CreditLedger.v
Escrow.v
EscrowRace.v
DraftTree.v
SpecWalk.v
FlowTree.v
GrownTree.v
ForwardStreams.v
NgramLookup.v
SlotTable.v
KvSessions.v
Retained.v
RangeWeights.v
Candidate.v
Allocator.v
RouteCost.v
RoutePass.v
RouteSearch.v
RouteTheorems.v
RouteGuarantees.v
FlowNetwork.v
LayersCarried.v
SeqCache.v
LayerCache.v
KvBudget.v
RecurrentState.v
KvStore.v
PrefixSnapshot.v
SnapshotWire.v
PrefixCache.v
RelaySeal.v
HopForwards.v
UploadPacer.v
