(* ===== verification/Prelude.v ===== *)
(** * SwarmLLM: a verification of its wire, sessions, relays, credits, speculation, caches and routes

    SwarmLLM runs one language model over many computers: a coordinator splits a
    model's layers into segments, each held by a node, along a route it searches for,
    and pushes activations through them.  A [LayerForward] carries a segment's input over the network, a
    [LayerResult] its answer; both cross links sealed with pairwise session keys;
    serving earns credits, asking spends them, and a request's cost sits in escrow
    while it runs; guesses at the next tokens travel as trees of rows that the nodes
    check together, over streams of forwards that must run in order; on each node a
    worker batches the requests it decodes in a slot table, keeps what it computed of
    each conversation in caches within a memory budget, saves the prompts it has read
    for requests that open the same way, and remembers which conversations it can
    resume; a node that another cannot reach is reached through a relay.

    ** How the files correspond to the code

    - [Prelude], [Bytes], [Utf8]: the outcome of a Rust call ([Ok], [Err] or
      [Panic], with its monad), the tactics and hints, machine integers as Z with
      their wrap or saturation, byte slices whose indexing panics out of range,
      little-endian words, UTF-8 validation and lossy decoding.  Fuel: both UTF-8
      walks run with the length of the string, and every step consumes a byte.
    - [ForwardTypes]: the wire records of [crates/swarmllm-types/src/inference.rs],
      f32 as bit patterns, stream numbers, and [clamp_peer_sampling] of
      [src/api/mod.rs].
    - [ForwardCodec]: [src/network/protocol/layer_forward.rs] and [encrypted.rs],
      one definition per appended trailer, reader, encoder, decoder and the
      additional authenticated data.  A reader takes the bytes from the cursor on
      and returns the rest, in place of [&mut cursor].
      [ForwardFrames] proves each reader the inverse of its writer and that it
      passes over every other trailer; [ForwardSafety] that no reader panics and
      that what it returns is in bounds; [ForwardTheorems] assembles them.
    - [ResultCodec]: [src/network/protocol/layer_result.rs].  [serde_json] is a
      parameter; its round trip on finite numbers is a hypothesis.
    - [ReplayWindow], [Session], [SessionTheorems]: [src/crypto/session.rs].  The
      X25519, HKDF and ChaCha20-Poly1305 crates are parameters; what is assumed of
      them (commutative Diffie-Hellman, opening what was sealed) is stated as
      hypotheses of the section that needs it and met by a toy cipher in the
      witnesses.  Clocks are arguments, in nanoseconds.
    - [ChunkTransport]: splitting a large forward ([src/network/pipeline_stream.rs])
      and the table that reassembles it ([src/daemon/state/mod.rs]).
    - [PipelineStream]: the rest of [pipeline_stream.rs]: sealing for a peer, framing
      on a stream, the inbound handler and its refusals.  What it needs of the session
      layer is the interface [SecureChannel], which the sessions of [Session] meet
      ([session_channel]).  Fuel: the handler runs with the length of the stream, and
      every frame takes at least five bytes ([serve_enough]).
    - [Floats]: f64 and f32 values as [SpecFloat] numbers, f32 bit patterns, casts.
    - [CreditLedger]: [src/credit/ledger.rs] and [crates/swarmllm-types/src/credits.rs].
      A write to the database succeeds or fails by an argument; f64 amounts are
      [SpecFloat] binary64; Ed25519 verification is a parameter.
    - [Escrow]: the operations of [src/credit/escrow.rs] one at a time, over the
      in-memory map, the tree on disk and the ledger.  [EscrowRace]: the same
      operations cut at their lock boundaries into a step relation, interleaved.
    - [DraftTree], [FlowTree], [GrownTree]: [src/inference/draft_tree.rs]: trees of
      guesses and what each row reads, trees that grow while their rows are in
      flight, and which rated rows are worth checking.  [SpecWalk]: the walks of
      [src/inference/sampling.rs] that keep the guesses the model agrees with; the
      sampler is a parameter.  Fuel: climbs and walks run with the number of rows,
      and every row's parent comes before it.
      [NgramLookup]: [src/inference/ngram_lookup.rs], guesses copied from earlier
      text; its loops run over the positions and sizes left.
    - [Retained]: [src/daemon/state/retained_activations.rs], the inputs kept for a
      stand-in, as sequences of calls.
    - [ForwardStreams]: [src/daemon/state/forward_streams.rs], one definition per
      locked section and a step relation that interleaves them over any number of
      forwards.  Fuel: [advance_loop] runs with the refusals held plus two, and each
      round consumes one.
    - [SlotTable]: [src/inference/slot_table.rs].  Fuel: the removal loops run with
      the number of slots, and each iteration removes a slot or moves past one.
    - [KvSessions]: [src/inference/kv_cache.rs].  The iteration order of a
      [HashMap] is a parameter that permutes its entries.
    - [RangeWeights]: what layers weigh, from [src/inference/process_pool.rs] and
      [split/gguf_meta.rs].  [Candidate]: the scheduler's view of a machine
      ([scheduler/mod.rs]).  [Allocator]: the recommended pipelines
      ([scheduler/parallax_allocator.rs]).  [RouteCost], [RoutePass], [RouteSearch]: the prices, one
      pass of the search and the whole of it ([scheduler/parallax.rs]); the pass is
      written over the interface [CostOps], which f32 implements.  [RouteTheorems]
      proves the search sound, [RouteGuarantees] states its contract.  Fuel: the walk from sink to
      source runs with one more than the number of vertices, and no vertex repeats.
      The u32 sum of this node's layers in the last check is a sum in Z; where its
      figure is below 2^32 - 1 the two agree.
    - [FlowNetwork], [LayersCarried]: the maximum flow behind the room figures
      ([scheduler/mod.rs]).  Fuel: augmenting runs with the capacity out of the source
      and every round sends one unit at least; a search runs with the number of nodes.
    - [SeqCache], [LayerCache]: one layer's keys and values, what it is to stand for rows
      ([layer_at]) and the histories that keep it so ([layer_run]) ([split/kv_cache.rs]); candle's tensors are rows along the sequence, the
      class [Candle].  Fuel: growing runs with the positions needed, and every step
      adds one at least.  [RecurrentState]: the running state of a DeltaNet layer
      ([layers/mod.rs], [layers/qwen35.rs]); the arithmetic of a row is the class
      [DeltaNet].  [KvBudget]: prices and admission ([split/kv_budget.rs]).
      [KvStore]: every conversation's caches on a worker, and the room they claim.
    - [PrefixSnapshot], [SnapshotWire], [PrefixCache]: [split/prefix_cache.rs]: saving,
      narrowing and restoring a prompt; its bytes and block hashes, and what a node
      does with those of a peer ([daemon/background.rs]); the cache of saved prompts,
      with the evictor the worker installs in [KvStore] ([model_worker.rs]).  Fuel:
      letting go of the oldest runs with the number of entries.
    - [RelaySeal]: [src/crypto/relay_seal.rs], the handlers of
      [network/manager/relay.rs] and the frame of a relayed tensor
      ([network/protocol/mod.rs]); Ed25519 and BLAKE3 are parameters.
      [HopForwards]: [network/manager/hop_forwards.rs], what a hop owes its
      coordinator.  [UploadPacer]: [network/manager/upload_pacer.rs].

    ** What the theorems show

    - Codecs: a forward or result within the limits survives encoding and decoding,
      plain and sealed; no bytes from a peer make a decoder panic; what decodes is
      within every limit; the authenticated data of a sealed frame determines every
      travelling field of the forward, one flag excepted.
    - Sessions: the two-word bitmap is exactly the sliding-window specification, so
      no nonce is accepted twice; no nonce is sealed twice within a session; peers
      agree on static and on ephemeral keys; a rekey keeps in-flight messages
      readable; a failed open changes no key material.
    - Transport: a forward that is split, sealed, framed, read, opened and reassembled
      is dispatched once and whole; chunks may arrive in any order; no bytes make the
      handler panic or spoil the reassembly table; what does not open is refused once,
      with an answer its sender can read.
    - Credits: every movement keeps the books; failed writes leave no trace; the
      pending flush, hosting income and decay conserve or recover exactly; gossip
      stays bounded to one plausible entry per peer.
    - Escrow: over any history, with any writes failing and restarts in between,
      credits are never minted; under any interleaving no escrow is paid twice; a
      settled escrow stays settled.
    - Speculation: walking a chain or a tree of guesses gives the tokens drawing one
      by one would; a row reads its own path and nothing else; a tree that moved
      under its rows in flight keeps every live row and its place; the rows chosen
      for checking are the best tree of their size.  A copied guess goes on from an
      earlier occurrence of the text it follows, the longest that occurs, as far as
      the occurrences agree.
    - Failover: a stand-in is replayed all of a segment's inputs or none; the store's
      figures are the bytes it keeps, within its budgets.
    - Streams: turns of a stream run one at a time and in order, whatever the
      interleaving; a turn built on a refused guess never runs; a missing turn is
      waited for; every turn is run, refused or held.
    - Routes: a route serves every layer once, on machines that hold it and have the
      room for it; an encrypted route begins and ends here; a distrusted machine
      reads the prompt only where no trusted one serves; the checks after the search
      refuse nothing it found; merging neighbours moves no layer; a segment's weight is that of its
      tensors; pipelines are recommended exactly when the peers can host the model.
    - Decode pool: a prompt is read once, in order, stopping on its save point; the
      table keeps its capacity and its layer range; draining splits it exactly.
    - Conversations: a turn resumes exactly when it may; tables stay bounded over
      restarts; saving and restoring is a round trip that keeps idle time.
    - Room: the flow returned is the largest any flow has, and the layers carried are
      the most that can each be given to one computer holding it.
    - Caches: a layer reads the newest rows of its conversation, a windowed one never
      fewer than its window, and the kernel's mirror is the whole history rounded,
      unless an append of a windowed layer fails between its keys and its values; a
      recurrent state is the state its rows lead to, whatever steps, replays and steps
      back led there; a cut back is made of every layer or of none, and a step that
      failed is put back whole; a claim is refused only when nothing that is over is
      left to let go, and what is let in keeps to the budget.
    - Saved prompts: a request served from a saved prompt is where reading it would
      have left it; the longest usable opening is found; what a user asked to keep on
      this computer is never announced under its own entry, nor what extends it while
      room is made before the copy; letting go takes the oldest
      first, keeps the caps and tells the store exactly what it freed.  A snapshot
      survives its bytes, a block a node announces is one its peers accept, and no
      bytes of a peer make the reader panic.
    - Relays: what a node takes from a relay was signed for it by its origin and is
      taken once, while its clock does not step back, in bounded memory; a forward
      sealed for a node out of reach arrives there as it was sent.  A chain hop passes
      on each failure once, to the coordinator it handed the forward on for, and does
      when it comes while its record is kept.  Uploads share one limit: no two answers
      at once, each with the time its bytes take, no network more than its share, and a wait named is a wait that is
      enough.
    - Thirteen theorems record behaviour that differs from what the code says it does:
      [reconnect_reuses_nonce], [reconnect_accepts_replay], [walk_flag_not_bound],
      [oversized_cache_hides_tree], [truncated_activations_accepted],
      [expiry_breaks_books], [snapshot_kept_over_budget],
      [failed_replay_spoils_the_state], [failed_slide_parts_keys_and_values],
      [evicted_before_the_copy], [covered_prompt_is_announced], [stand_in_is_accepted]
      and [clock_stepping_back_readmits].

    ** What is not modelled

    Tensor arithmetic and GPU kernels, sockets and libp2p behaviours, HTTP handlers,
    the database engine (its trees are maps whose writes may fail), configuration,
    command line and frontends: input and output, or third-party code.  The text of
    an error that quotes another error or a request id is cut before the quotation.  Logging
    has no effect in the model.

    ** Plan

    Next: choosing a relay to send through and the registry of peers it reads
    ([network/manager/relay.rs], [daemon/state/relay.rs]), the part requests around
    [UploadPacer] and [HopForwards]' callers, the scheduler's assembly of pipelines
    above the route search, pool invites and credit forwarding, version comparison of
    updates, and the sampler over [Floats]. *)
From stdpp Require Export base list gmap strings pretty numbers.
From Stdlib Require Export ZArith Lia ZifyBool.

#[global] Open Scope Z_scope.
Declare Scope swarm_scope.
Delimit Scope swarm_scope with swarm.

(** ** Error values and the outcome of a Rust call *)

(** A node's identity: the 32 bytes of its Ed25519 public key. *)
Definition NodeId : Type := list Z.

(** The variants of [SwarmError] the modelled code returns. *)
Inductive SwarmError : Type :=
| Network (msg : string)
| PipelineError (msg : string)
| CreditError (msg : string)
| Database (msg : string)
| InvalidSignature
| NoSession (peer : NodeId)
| DecryptionFailed
| NonceOverflow
| Encryption (msg : string)
| Internal (msg : string).

(** What a Rust call may do: return, return [Err], or panic (an index or a
    slice out of range).  Most calls fail with a [SwarmError]; some with a text. *)
Inductive call (E A : Type) : Type :=
| Ok (a : A)
| Err (e : E)
| Panic.
Arguments Ok {E A} a.
Arguments Err {E A} e.
Arguments Panic {E A}.
Abbreviation outcome := (call SwarmError).

#[global] Instance outcome_ret {E} : MRet (call E) := fun A a => Ok a.
#[global] Instance outcome_bind {E} : MBind (call E) := fun A B k m =>
  match m with Ok a => k a | Err e => Err e | Panic => Panic end.

(** [?] on an [Option] whose [None] becomes the given error. *)
Definition ok_or {E A} (o : option A) (e : E) : call E A :=
  match o with Some a => Ok a | None => Err e end.

Lemma outcome_bind_assoc {E A B C} (m : call E A) (f : A -> call E B) (g : B -> call E C) :
  ((m ≫= f) ≫= g) = (m ≫= fun a => f a ≫= g).
Proof. by destruct m. Qed.

Definition safe {E A} (m : call E A) : Prop := m <> Panic.
Definition returns {E A} (m : call E A) : Prop := exists a, m = Ok a.

Lemma safe_ret {E A} (a : A) : safe (E := E) (Ok a).
Proof. done. Qed.
Lemma safe_fail {E A} (e : E) : safe (A := A) (Err e).
Proof. done. Qed.
Lemma safe_bind {E A B} (m : call E A) (k : A -> call E B) :
  safe m -> (forall a, m = Ok a -> safe (k a)) -> safe (m ≫= k).
Proof. destruct m; cbn; [intros _ H; by apply H | done | done]. Qed.
Lemma bind_ret_inv {E A B} (m : call E A) (k : A -> call E B) b :
  (m ≫= k) = Ok b -> exists a, m = Ok a /\ k a = Ok b.
Proof. destruct m; cbn; eauto; discriminate. Qed.

Create HintDb swarm.
#[export] Hint Resolve safe_ret safe_fail : swarm.

(** Invert a chain of successful binds in hypothesis [H]. *)
Ltac inv_bind H :=
  let a := fresh "a" in let E := fresh "E" in
  apply bind_ret_inv in H as (a & E & H).

(** [go] closes arithmetic side conditions after the common unfolding. *)
Ltac zsimp := repeat match goal with
  | H : (_ && _)%bool = true |- _ => apply andb_true_iff in H as [? ?]
  | H : (_ || _)%bool = false |- _ => apply orb_false_iff in H as [? ?]
  | H : negb _ = true |- _ => apply negb_true_iff in H
  | H : negb _ = false |- _ => apply negb_false_iff in H
  | H : (_ <? _) = true |- _ => apply Z.ltb_lt in H
  | H : (_ <? _) = false |- _ => apply Z.ltb_ge in H
  | H : (_ <=? _) = true |- _ => apply Z.leb_le in H
  | H : (_ <=? _) = false |- _ => apply Z.leb_gt in H
  | H : (_ =? _) = true |- _ => apply Z.eqb_eq in H
  | H : (_ =? _) = false |- _ => apply Z.eqb_neq in H
  end.

(** Case on every boolean comparison the goal branches on. *)
Ltac case_if :=
  match goal with
  | |- context [if ?b then _ else _] => destruct b eqn:?
  end.

(** ** Machine integers: Z values with the width's wrap and saturation *)

Definition u8_max : Z := 255.
Definition u16_max : Z := 65535.
Definition u32_max : Z := 4294967295.
Definition u64_max : Z := 18446744073709551615.
Definition usize_max : Z := u64_max.
Definition i64_min : Z := -9223372036854775808.
Definition i64_max : Z := 9223372036854775807.

Definition is_u8 (z : Z) : Prop := 0 <= z <= u8_max.
Definition is_u16 (z : Z) : Prop := 0 <= z <= u16_max.
Definition is_u32 (z : Z) : Prop := 0 <= z <= u32_max.
Definition is_u64 (z : Z) : Prop := 0 <= z <= u64_max.
Definition is_i64 (z : Z) : Prop := i64_min <= z <= i64_max.

Definition clamp (lo hi z : Z) : Z := Z.max lo (Z.min hi z).
Definition i64_saturating_add (a b : Z) : Z := clamp i64_min i64_max (a + b).
Definition i64_saturating_sub (a b : Z) : Z := clamp i64_min i64_max (a - b).
Definition i64_saturating_mul (a b : Z) : Z := clamp i64_min i64_max (a * b).
Definition i64_saturating_neg (a : Z) : Z := clamp i64_min i64_max (- a).
Definition i64_saturating_abs (a : Z) : Z := clamp i64_min i64_max (Z.abs a).
Definition i64_unsigned_abs (a : Z) : Z := Z.abs a.
Definition u64_saturating_add (a b : Z) : Z := clamp 0 u64_max (a + b).
Definition u64_saturating_sub (a b : Z) : Z := clamp 0 u64_max (a - b).
Definition u64_saturating_mul (a b : Z) : Z := clamp 0 u64_max (a * b).


(** Arithmetic over the machine-integer vocabulary. *)
Ltac ints :=
  unfold is_u8, is_u16, is_u32, is_u64, is_i64, i64_saturating_add, i64_saturating_sub,
    i64_saturating_mul, i64_saturating_neg, i64_saturating_abs, i64_unsigned_abs,
    u64_saturating_add, u64_saturating_sub, clamp, u8_max, u16_max, u32_max, u64_max,
    i64_min, i64_max in *; lia.

Lemma i64_saturating_add_range a b : is_i64 (i64_saturating_add a b).
Proof. ints. Qed.
Lemma i64_saturating_sub_range a b : is_i64 (i64_saturating_sub a b).
Proof. ints. Qed.
Lemma u64_saturating_add_range a b : is_u64 (u64_saturating_add a b).
Proof. ints. Qed.
Lemma u64_saturating_sub_range a b : is_u64 (u64_saturating_sub a b).
Proof. ints. Qed.
Lemma i64_saturating_add_exact a b : is_i64 (a + b) -> i64_saturating_add a b = a + b.
Proof. ints. Qed.
Lemma u64_saturating_add_exact a b : is_u64 (a + b) -> u64_saturating_add a b = a + b.
Proof. ints. Qed.
#[export] Hint Resolve i64_saturating_add_range i64_saturating_sub_range
  u64_saturating_add_range u64_saturating_sub_range : swarm.

(** A high part shifted past a low part of [n] bits does not overlap it. *)
Lemma lor_shiftl_low a t n : 0 <= n -> 0 <= t < 2 ^ n -> Z.lor (Z.shiftl a n) t = a * 2 ^ n + t.
Proof.
  intros Hn Ht. rewrite <- Z.shiftl_mul_pow2 by done.
  rewrite <- Z.add_lor_land. replace (Z.land (Z.shiftl a n) t) with 0; [lia |].
  symmetry. apply Z.bits_inj'. intros i Hi. rewrite Z.land_spec, Z.bits_0.
  destruct (Z.lt_ge_cases i n).
  - by rewrite Z.shiftl_spec_low.
  - rewrite <- (Z.mod_small t (2 ^ n)) by done. rewrite Z.mod_pow2_bits_high by lia. apply andb_false_r.
Qed.

(** A filtered association list keeps distinct keys distinct. *)
Lemma nodup_fst_filter {A B} (P : A * B -> Prop) `{!forall x, Decision (P x)} (l : list (A * B)) :
  NoDup (map fst l) -> NoDup (map fst (filter P l)).
Proof.
  induction l as [|x l IH]; [constructor |]. cbn [map]. intros [Hx Hl]%list.NoDup_cons.
  rewrite filter_cons. case_decide; [|by apply IH]. cbn [map]. constructor; [|by apply IH].
  intros (y & Hy & Hin)%list_elem_of_fmap. apply Hx. apply list_elem_of_fmap. exists y.
  by apply list_elem_of_filter in Hin as [_ ?].
Qed.

(** Filters that keep everything, or nothing. *)
Lemma filter_keeps_all {A} (P : A -> Prop) `{!forall x, Decision (P x)} (l : list A) :
  Forall P l -> filter P l = l.
Proof. induction 1; [done |]. rewrite filter_cons_True by done. by f_equal. Qed.
Lemma filter_drops_all {A} (P : A -> Prop) `{!forall x, Decision (P x)} (l : list A) :
  Forall (fun x => ~ P x) l -> filter P l = [].
Proof. induction 1; [done |]. by rewrite filter_cons_False. Qed.

(** ** Sums over a map *)

Section map_sum.
Context `{Countable K} {A : Type} (f : A -> Z).

Definition map_sum (m : gmap K A) : Z := map_fold (fun _ x acc => f x + acc) 0 m.

Lemma map_sum_insert_new (m : gmap K A) k x : m !! k = None -> map_sum (<[k := x]> m) = f x + map_sum m.
Proof. intros Hk. unfold map_sum. rewrite (map_fold_insert_L (fun (_ : K) (x : A) (acc : Z) => f x + acc)); [done|intros; lia|done]. Qed.

Lemma map_sum_delete (m : gmap K A) k x : m !! k = Some x -> map_sum (delete k m) = map_sum m - f x.
Proof.
  intros Hk. rewrite <- (insert_delete_id m k x Hk) at 2. rewrite map_sum_insert_new by apply lookup_delete_eq. lia.
Qed.

Lemma map_sum_insert (m : gmap K A) k y :
  map_sum (<[k := y]> m) = map_sum m - match m !! k with Some x => f x | None => 0 end + f y.
Proof.
  rewrite <- insert_delete_eq. rewrite map_sum_insert_new by apply lookup_delete_eq.
  destruct (m !! k) as [x|] eqn:Hk; [rewrite (map_sum_delete m k x Hk); lia|rewrite delete_id by done; lia].
Qed.

Lemma map_sum_empty : map_sum (∅ : gmap K A) = 0.
Proof. apply map_fold_empty. Qed.

Lemma map_sum_elem (m : gmap K A) k x :
  (forall j y, m !! j = Some y -> 0 <= f y) -> m !! k = Some x -> f x <= map_sum m.
Proof.
  intros Hf Hk. enough (0 <= map_sum (delete k m)) by (rewrite (map_sum_delete m k x Hk) in *; lia).
  assert (Hd : forall j y, delete k m !! j = Some y -> 0 <= f y).
  { intros j y [? ?]%lookup_delete_Some. by eapply Hf. }
  revert Hd. generalize (delete k m). clear. intros m. induction m as [|j y m Hj IH] using map_ind; intros Hd.
  - by rewrite map_sum_empty.
  - rewrite map_sum_insert_new by done. assert (0 <= f y) by (apply (Hd j); by rewrite lookup_insert_eq).
    enough (0 <= map_sum m) by lia. apply IH. intros i z Hi. apply (Hd i). rewrite lookup_insert_ne by congruence. done.
Qed.
End map_sum.

(** ** Sums over a list *)

Fixpoint sum_list (l : list Z) : Z := match l with [] => 0 | x :: l => x + sum_list l end.

Lemma sum_list_app xs ys : sum_list (xs ++ ys) = sum_list xs + sum_list ys.
Proof. induction xs as [|x xs IH]; cbn; [lia|]. lia. Qed.

Lemma sum_map_add {A} (g h : A -> Z) xs :
  sum_list (map (fun x => g x + h x) xs) = sum_list (map g xs) + sum_list (map h xs).
Proof. induction xs as [|x xs IH]; cbn in *; [done|]. lia. Qed.
Lemma sum_map_sub {A} (g h : A -> Z) xs :
  sum_list (map (fun x => g x - h x) xs) = sum_list (map g xs) - sum_list (map h xs).
Proof. induction xs as [|x xs IH]; cbn in *; [done|]. lia. Qed.
Lemma sum_map_ext {A} (g h : A -> Z) xs : (forall x, x ∈ xs -> g x = h x) -> sum_list (map g xs) = sum_list (map h xs).
Proof. induction xs as [|x xs IH]; cbn; [done|]. intros H. rewrite (H x) by left. f_equal. apply IH. intros y ?. apply H. by right. Qed.
Lemma sum_map_zero {A} (g : A -> Z) xs : (forall x, x ∈ xs -> g x = 0) -> sum_list (map g xs) = 0.
Proof. induction xs as [|x xs IH]; cbn; [done|]. intros H. rewrite (H x) by left. rewrite IH; [done|]. intros y ?. apply H. by right. Qed.

Lemma sum_map_at (a : nat) f xs : NoDup xs ->
  sum_list (map (fun x => if decide (a = x) then f else 0) xs) = if decide (a ∈ xs) then f else 0.
Proof.
  induction 1 as [|x xs Hx Hnd IH]; [done|]. cbn [map sum_list]. rewrite IH.
  destruct (decide (a = x)) as [->|Hne].
  - rewrite (decide_False (P := x ∈ xs)) by done. rewrite decide_True by left. lia.
  - destruct (decide (a ∈ xs)) as [Hin|Hin]; [rewrite decide_True; [lia|by right]|].
    rewrite decide_False; [lia|]. by intros [?|?]%elem_of_cons.
Qed.

(** ** Reading an index and computing on u32: what is out of range panics *)

Definition index {E A} (l : list A) (i : nat) : call E A :=
  match l !! i with Some a => Ok a | None => Panic end.
Definition u32_add {E} (a b : Z) : call E Z := if a + b <=? u32_max then Ok (a + b) else Panic.
Definition u32_sub {E} (a b : Z) : call E Z := if b <=? a then Ok (a - b) else Panic.
Definition u32_saturating_add (a b : Z) : Z := Z.min u32_max (a + b).

Lemma index_ok {E A} (l : list A) i a : l !! i = Some a -> index (E := E) l i = Ok a.
Proof. unfold index. by intros ->. Qed.
Lemma u32_add_ok {E} a b : a + b <= u32_max -> u32_add (E := E) a b = Ok (a + b).
Proof. unfold u32_add. intros. destruct (Z.leb_spec (a + b) u32_max); [done|lia]. Qed.
Lemma u32_sub_ok {E} a b : b <= a -> u32_sub (E := E) a b = Ok (a - b).
Proof. unfold u32_sub. intros. destruct (Z.leb_spec b a); [done|lia]. Qed.

(** ** A loop with a binary count of rounds

    [iter_until p step s] makes at most [p] rounds of [step], which goes on with a
    state ([inl]) or returns ([inr]).  The count is a binary number, so that the bound
    may be large: once a round returns no more are made. *)

Fixpoint iter_until {S R} (p : positive) (step : S -> S + R) (s : S) : S + R :=
  match p with
  | xH => step s
  | xO p => match iter_until p step s with inl s => iter_until p step s | inr r => inr r end
  | xI p => match step s with
            | inl s => match iter_until p step s with inl s => iter_until p step s | inr r => inr r end
            | inr r => inr r
            end
  end.

Section iter_until.
Context {S R : Type} (step : S -> S + R) (I : S -> Prop) (measure : S -> Z).
Hypothesis round : forall s s', I s -> step s = inl s' -> I s' /\ measure s' < measure s.

Lemma iter_until_spec p s : I s ->
  match iter_until p step s with
  | inl s' => I s' /\ measure s' + Zpos p <= measure s
  | inr r => exists s', I s' /\ step s' = inr r
  end.
Proof.
  revert s. induction p as [p IH|p IH|]; intros s Hs; cbn.
  - destruct (step s) as [s1|] eqn:E1; [|eauto]. destruct (round s s1 Hs E1) as [H1 M1].
    pose proof (IH s1 H1) as H2. destruct (iter_until p step s1) as [s2|]; [|done]. destruct H2 as [H2 M2].
    pose proof (IH s2 H2) as H3. destruct (iter_until p step s2) as [s3|]; [|done]. split; [tauto|lia].
  - pose proof (IH s Hs) as H2. destruct (iter_until p step s) as [s2|]; [|done]. destruct H2 as [H2 M2].
    pose proof (IH s2 H2) as H3. destruct (iter_until p step s2) as [s3|]; [|done]. split; [tauto|lia].
  - destruct (step s) as [s1|] eqn:E1; [|eauto]. destruct (round s s1 Hs E1). split; [done|lia].
Qed.

(** Where a measure that never goes below zero falls each round, as many rounds as it
    starts from are enough, and the result is that of a round of a reached state. *)
Lemma iter_until_returns p s : (forall s, I s -> 0 <= measure s) -> I s -> measure s < Zpos p ->
  exists r s', iter_until p step s = inr r /\ I s' /\ step s' = inr r.
Proof.
  intros Hm Hs Hp. pose proof (iter_until_spec p s Hs) as H.
  destruct (iter_until p step s) as [s'|r].
  - destruct H as [H ?]. pose proof (Hm s' H). lia.
  - destruct H as (s' & ? & ?). eauto.
Qed.
End iter_until.
