(* ===== verification/Bytes.v ===== *)
(** * Byte buffers: indexing that can panic, little-endian integers, UTF-8

    A [Vec<u8>] or [&[u8]] is a list of Z.  Reading past the end of a slice is a
    Rust panic, so [idx] and [slice] return [Panic] there: a decoder that is
    proved [safe] never indexes out of range on any input.  The mutable
    [cursor] the decoders thread is modelled by the slice that starts at it
    ([&data[cursor..]]), so [data.len() < cursor + n] is [blen d < n]. *)
From S2P Require Import Prelude.

Abbreviation bytes := (list Z).

Definition blen {A} (d : list A) : Z := Z.of_nat (length d).
Definition is_byte (b : Z) : Prop := 0 <= b < 256.
Definition is_bytes (d : bytes) : Prop := Forall is_byte d.

(** ** Indexing and slicing *)

(** [data[i]]. *)
Definition idx (d : bytes) (i : nat) : outcome Z :=
  match d !! i with Some b => Ok b | None => Panic end.

(** [&data[i..i + n]]. *)
Definition slice (d : bytes) (i n : nat) : outcome bytes :=
  if (i + n <=? length d)%nat then Ok (take n (drop i d)) else Panic.

(** ** Little-endian integers: [to_le_bytes] and [from_le_bytes] *)

Fixpoint le_bytes (n : nat) (z : Z) : bytes :=
  match n with
  | O => []
  | S n => z mod 256 :: le_bytes n (z / 256)
  end.

Fixpoint le_val (d : bytes) : Z :=
  match d with
  | [] => 0
  | b :: d => b + 256 * le_val d
  end.

(** [uN::from_le_bytes(data[i..i + n])]. *)
Definition le_at (n : nat) (d : bytes) (i : nat) : outcome Z :=
  s ← slice d i n; Ok (le_val s).

Abbreviation u16_at := (le_at 2).
Abbreviation u32_at := (le_at 4).
Abbreviation u64_at := (le_at 8).

(** The test every trailer reader opens with:
    [data.len() < cursor + need || data[cursor] != marker] is false. *)
Definition at_marker (d : bytes) (need marker : Z) : outcome bool :=
  if blen d <? need then Ok false
  else m ← idx d 0; Ok (m =? marker).

(** [(0..n).map(|i| u32_at(4 * i))] and its 2-byte form. *)
Fixpoint read_les (w n : nat) (d : bytes) : outcome (list Z) :=
  match n with
  | O => Ok []
  | S n => x ← le_at w d 0; xs ← read_les w n (drop w d); Ok (x :: xs)
  end.

(** [data.as_chunks::<w>().0] on a slice of [n * w] bytes. *)
Fixpoint read_chunks (w n : nat) (d : bytes) : outcome (list bytes) :=
  match n with
  | O => Ok []
  | S n => x ← slice d 0 w; xs ← read_chunks w n (drop w d); Ok (x :: xs)
  end.

(** ** Lemmas *)

Lemma blen_app {A} (a b : list A) : blen (a ++ b) = blen a + blen b.
Proof. unfold blen. rewrite length_app. lia. Qed.
Lemma blen_cons {A} (a : A) (b : list A) : blen (a :: b) = 1 + blen b.
Proof. unfold blen. cbn. lia. Qed.
Lemma blen_nonneg {A} (a : list A) : 0 <= blen a.
Proof. unfold blen. lia. Qed.

Lemma length_le_bytes n z : length (le_bytes n z) = n.
Proof. revert z; induction n; cbn; intros; [done | by rewrite IHn]. Qed.

Lemma le_val_le_bytes n z : 0 <= z < 256 ^ Z.of_nat n -> le_val (le_bytes n z) = z.
Proof.
  revert z. induction n as [|n IH]; intros z Hz; [cbn in *; lia |].
  cbn [le_bytes le_val]. rewrite Nat2Z.inj_succ, Z.pow_succ_r in Hz by lia.
  rewrite IH; [pose proof (Z.div_mod z 256); lia |].
  split; [apply Z.div_pos; lia | apply Z.div_lt_upper_bound; lia].
Qed.

Lemma le_val_range d : is_bytes d -> 0 <= le_val d < 256 ^ blen d.
Proof.
  unfold is_bytes, blen. induction 1 as [|b d Hb _ IH]; [cbn; lia |].
  cbn [le_val length]. rewrite Nat2Z.inj_succ, Z.pow_succ_r by lia.
  unfold is_byte in Hb. lia.
Qed.

Lemma le_bytes_le_val d : is_bytes d -> le_bytes (length d) (le_val d) = d.
Proof.
  induction 1 as [|b d Hb _ IH]; [done |]. unfold is_byte in Hb. cbn [le_val length le_bytes].
  f_equal.
  - rewrite Z.mul_comm, Z.mod_add by lia. by apply Z.mod_small.
  - rewrite Z.mul_comm, Z.div_add, Z.div_small by lia. by rewrite Z.add_0_l.
Qed.

Lemma le_bytes_is_bytes n z : is_bytes (le_bytes n z).
Proof.
  revert z. induction n as [|n IH]; intros z; [constructor |]. constructor; [|apply IH].
  split; [apply Z.mod_pos_bound | apply Z.mod_pos_bound]; lia.
Qed.
#[export] Hint Resolve le_bytes_is_bytes : swarm.

Lemma le_bytes_inj n x y :
  0 <= x < 256 ^ Z.of_nat n -> 0 <= y < 256 ^ Z.of_nat n -> le_bytes n x = le_bytes n y -> x = y.
Proof.
  intros Hx Hy E. apply (f_equal le_val) in E. by rewrite !le_val_le_bytes in E.
Qed.

(** Reading at an offset past a prefix. *)
Lemma slice_app_l d e i n : (i + n <= length d)%nat -> slice (d ++ e) i n = slice d i n.
Proof.
  intros H. unfold slice. rewrite length_app.
  destruct (Nat.leb_spec (i + n) (length d)); [|lia].
  destruct (Nat.leb_spec (i + n) (length d + length e)); [|lia].
  rewrite drop_app_le, take_app_le; [done | rewrite length_drop; lia | lia].
Qed.

Lemma slice_prefix d e : slice (d ++ e) 0 (length d) = Ok d.
Proof.
  unfold slice. rewrite length_app. destruct (Nat.leb_spec (0 + length d) (length d + length e)); [|lia].
  by rewrite drop_0, take_app_length.
Qed.

Lemma slice_prefix' d e n : length d = n -> slice (d ++ e) 0 n = Ok d.
Proof. intros <-. apply slice_prefix. Qed.

Lemma slice_skip a d i n : slice (a ++ d) (length a + i) n = slice d i n.
Proof.
  unfold slice. rewrite length_app, <- Nat.add_assoc.
  rewrite drop_app_add'.
  - destruct (Nat.leb_spec (i + n) (length d)), (Nat.leb_spec (length a + (i + n)) (length a + length d));
      try lia; done.
  - done.
Qed.

Lemma le_at_cons w b d i : le_at w (b :: d) (S i) = le_at w d i.
Proof. apply (f_equal (fun m => m ≫= fun s => Ok (le_val s)) (slice_skip [b] d i w)). Qed.

Lemma le_at_skip w a d i : le_at w (a ++ d) (length a + i) = le_at w d i.
Proof. unfold le_at. by rewrite slice_skip. Qed.

Lemma le_at_head w z d : 0 <= z < 256 ^ Z.of_nat w -> le_at w (le_bytes w z ++ d) 0 = Ok z.
Proof.
  intros Hz. unfold le_at. rewrite slice_prefix' by apply length_le_bytes. cbn.
  by rewrite le_val_le_bytes.
Qed.

Lemma at_marker_cons b d need marker :
  need <= blen (b :: d) -> at_marker (b :: d) need marker = Ok (b =? marker).
Proof. intros H. unfold at_marker. destruct (Z.ltb_spec (blen (b :: d)) need); [lia | done]. Qed.

Lemma at_marker_true d need marker :
  at_marker d need marker = Ok true -> need <= blen d /\ d !! 0%nat = Some marker.
Proof.
  unfold at_marker, idx. destruct (Z.ltb_spec (blen d) need); [done |].
  destruct (d !! 0%nat) as [m|]; [|done]. cbn. intros [= E]. zsimp. by subst.
Qed.

Lemma at_marker_safe d need marker : 0 < need -> safe (at_marker d need marker).
Proof.
  intros Hn. unfold at_marker, idx. destruct (Z.ltb_spec (blen d) need); [done |].
  destruct d; [unfold blen in *; cbn in *; lia | done].
Qed.

Lemma idx_safe d i : Z.of_nat i < blen d -> safe (idx d i).
Proof.
  unfold idx, blen. intros H. destruct (lookup_lt_is_Some_2 d i) as [x ->]; [lia | done].
Qed.

Lemma slice_safe d i n : Z.of_nat i + Z.of_nat n <= blen d -> safe (slice d i n).
Proof. unfold slice, blen. intros H. destruct (Nat.leb_spec (i + n) (length d)); [done | lia]. Qed.

Lemma le_at_safe w d i : Z.of_nat i + Z.of_nat w <= blen d -> safe (le_at w d i).
Proof. intros. unfold le_at. apply safe_bind; [by apply slice_safe | by intros]. Qed.

Lemma slice_is_bytes d i n s : is_bytes d -> slice d i n = Ok s -> is_bytes s /\ length s = n.
Proof.
  unfold slice. destruct (Nat.leb_spec (i + n) (length d)); [|done]. intros Hd [= <-].
  split; [by apply Forall_take, Forall_drop |]. rewrite length_take, length_drop. lia.
Qed.

Lemma le_at_range w d i z : is_bytes d -> le_at w d i = Ok z -> 0 <= z < 256 ^ Z.of_nat w.
Proof.
  intros Hd H. inv_bind H. apply slice_is_bytes in E as [Hs Hl]; [|done].
  injection H as <-. pose proof (le_val_range a Hs). unfold blen in *. by rewrite Hl in *.
Qed.

Lemma blen_drop {A} n (d : list A) : Z.of_nat n <= blen d -> blen (drop n d) = blen d - Z.of_nat n.
Proof. unfold blen. rewrite length_drop. lia. Qed.

Lemma read_les_safe w n d : Z.of_nat n * Z.of_nat w <= blen d -> safe (read_les w n d).
Proof.
  revert d. induction n as [|n IH]; intros d H; [done |]. cbn [read_les].
  apply safe_bind; [apply le_at_safe; lia | intros].
  apply safe_bind; [apply IH; rewrite blen_drop; lia | by intros].
Qed.

Lemma read_chunks_safe w n d : Z.of_nat n * Z.of_nat w <= blen d -> safe (read_chunks w n d).
Proof.
  revert d. induction n as [|n IH]; intros d H; [done |]. cbn [read_chunks].
  apply safe_bind; [apply slice_safe; lia | intros].
  apply safe_bind; [apply IH; rewrite blen_drop; lia | by intros].
Qed.

Lemma read_les_encode w xs d :
  Forall (fun x => 0 <= x < 256 ^ Z.of_nat w) xs ->
  read_les w (length xs) (concat (map (le_bytes w) xs) ++ d) = Ok xs.
Proof.
  induction 1 as [|x xs Hx _ IH]; [done |]. cbn [concat map read_les length].
  rewrite <- app_assoc, le_at_head by done. cbn.
  rewrite drop_app_length' by (by rewrite length_le_bytes). by rewrite IH.
Qed.

Lemma read_chunks_encode w xs d :
  Forall (fun x => length x = w) xs ->
  read_chunks w (length xs) (concat xs ++ d) = Ok xs.
Proof.
  induction 1 as [|x xs Hx _ IH]; [done |]. cbn [concat read_chunks length].
  rewrite <- app_assoc. subst w. rewrite slice_prefix. cbn.
  rewrite drop_app_length' by done. by rewrite IH.
Qed.

Lemma length_concat_le_bytes w xs : length (concat (map (le_bytes w) xs)) = (length xs * w)%nat.
Proof. induction xs; cbn; [done |]. rewrite length_app, length_le_bytes, IHxs. lia. Qed.

Lemma length_concat_chunks w (xs : list bytes) :
  Forall (fun x => length x = w) xs -> length (concat xs) = (length xs * w)%nat.
Proof. induction 1; cbn; [done |]. rewrite length_app. lia. Qed.

Lemma read_les_inv w n d xs :
  is_bytes d -> read_les w n d = Ok xs ->
  length xs = n /\ Forall (fun x => 0 <= x < 256 ^ Z.of_nat w) xs.
Proof.
  revert d xs. induction n as [|n IH]; intros d xs Hd H; cbn in H; [by injection H as <- |].
  inv_bind H. inv_bind H. injection H as <-.
  apply IH in E0 as [? ?]; [|by apply Forall_drop].
  split; [cbn; lia |]. constructor; [by eapply le_at_range | done].
Qed.

Lemma read_chunks_inv w n d xs :
  is_bytes d -> read_chunks w n d = Ok xs ->
  length xs = n /\ Forall (fun x => length x = w /\ is_bytes x) xs.
Proof.
  revert d xs. induction n as [|n IH]; intros d xs Hd H; cbn in H; [by injection H as <- |].
  inv_bind H. inv_bind H. injection H as <-.
  apply IH in E0 as [? ?]; [|by apply Forall_drop].
  apply slice_is_bytes in E as [? ?]; [|done]. split; [cbn; lia | by constructor].
Qed.

#[export] Hint Resolve idx_safe slice_safe le_at_safe read_les_safe read_chunks_safe : swarm.
