(* ===== verification/Utf8.v ===== *)
(** * UTF-8 as the Rust standard library checks it

    A Rust [String] is its bytes.  [utf8_step] reads one character the way
    [core::str::validations] does (Unicode table 3-7): whether it is well formed
    and how many bytes it takes, or, when it is not, how many bytes the maximal
    ill-formed prefix has.  [from_utf8] accepts exactly the sequences of
    well-formed characters, [from_utf8_lossy] replaces each ill-formed prefix by
    U+FFFD, and [is_char_boundary] is [str::is_char_boundary]. *)
From S2P Require Import Prelude Bytes.

Definition between (lo hi b : Z) : bool := (lo <=? b) && (b <=? hi).
Definition is_cont (b : Z) : bool := between 128 191 b.
(** A byte past the end reads as 0, which is no continuation byte. *)
Definition byte_or_0 (d : bytes) (i : nat) : Z := nth i d 0.

(** The second byte a three-byte lead admits. *)
Definition second_of_three (b0 b1 : Z) : bool :=
  if b0 =? 224 then between 160 191 b1
  else if b0 =? 237 then between 128 159 b1
  else is_cont b1.

(** The second byte a four-byte lead admits. *)
Definition second_of_four (b0 b1 : Z) : bool :=
  if b0 =? 240 then between 144 191 b1
  else if b0 =? 244 then between 128 143 b1
  else is_cont b1.

Definition utf8_step (b0 : Z) (r : bytes) : bool * nat :=
  if b0 <? 128 then (true, 1%nat)
  else if between 194 223 b0 then
    if is_cont (byte_or_0 r 0) then (true, 2%nat) else (false, 1%nat)
  else if between 224 239 b0 then
    if negb (second_of_three b0 (byte_or_0 r 0)) then (false, 1%nat)
    else if is_cont (byte_or_0 r 1) then (true, 3%nat) else (false, 2%nat)
  else if between 240 244 b0 then
    if negb (second_of_four b0 (byte_or_0 r 0)) then (false, 1%nat)
    else if negb (is_cont (byte_or_0 r 1)) then (false, 2%nat)
    else if is_cont (byte_or_0 r 2) then (true, 4%nat) else (false, 3%nat)
  else (false, 1%nat).

Fixpoint valid_utf8_fuel (fuel : nat) (d : bytes) : bool :=
  match fuel, d with
  | _, [] => true
  | O, _ => false
  | S fuel, b0 :: r =>
      let '(ok, n) := utf8_step b0 r in
      ok && valid_utf8_fuel fuel (drop n d)
  end.

(** [std::str::from_utf8(d).is_ok()].  A step eats at least one byte, so the
    length is enough fuel. *)
Definition from_utf8 (d : bytes) : bool := valid_utf8_fuel (length d) d.

Definition replacement : bytes := [239; 191; 189].

Fixpoint lossy_fuel (fuel : nat) (d : bytes) : bytes :=
  match fuel, d with
  | _, [] => []
  | O, _ => []
  | S fuel, b0 :: r =>
      let '(ok, n) := utf8_step b0 r in
      (if ok then take n d else replacement) ++ lossy_fuel fuel (drop n d)
  end.

(** [String::from_utf8_lossy(d)]. *)
Definition from_utf8_lossy (d : bytes) : bytes := lossy_fuel (length d) d.

(** [s.is_char_boundary(i)]: an end, or a byte that is not a continuation byte. *)
Definition is_char_boundary (d : bytes) (i : nat) : bool :=
  (i =? 0)%nat || (i =? length d)%nat ||
  match d !! i with Some b => negb (is_cont b) | None => false end.

(** ** Lemmas *)

Lemma utf8_step_pos b0 r : (1 <= snd (utf8_step b0 r))%nat.
Proof. unfold utf8_step. repeat (case_if; cbn; try lia). Qed.

(** A well-formed character of n bytes: n - 1 continuation bytes after the lead,
    all present. *)
Lemma utf8_step_tail b0 r n :
  utf8_step b0 r = (true, n) ->
  (n <= S (length r))%nat /\ forall i, (i < n - 1)%nat -> exists b, r !! i = Some b /\ is_cont b = true.
Proof.
  assert (Hc : forall k, is_cont (byte_or_0 r k) = true -> exists b, r !! k = Some b /\ is_cont b = true).
  { intros k. unfold byte_or_0. destruct (r !! k) as [b|] eqn:E.
    - apply nth_lookup_Some with (d := 0) in E as ->. eauto.
    - rewrite nth_lookup, E. done. }
  assert (Hl : forall k b, r !! k = Some b -> (k < length r)%nat).
  { intros k b E. by eapply lookup_lt_Some. }
  assert (H3 : second_of_three b0 (byte_or_0 r 0) = true -> is_cont (byte_or_0 r 0) = true).
  { unfold second_of_three, is_cont, between. repeat case_if; intros; zsimp; apply andb_true_iff; lia. }
  assert (H4 : second_of_four b0 (byte_or_0 r 0) = true -> is_cont (byte_or_0 r 0) = true).
  { unfold second_of_four, is_cont, between. repeat case_if; intros; zsimp; apply andb_true_iff; lia. }
  unfold utf8_step.
  repeat case_if; intros [= <-]; zsimp;
    repeat match goal with
    | H : is_cont (byte_or_0 r ?k) = true |- _ => destruct (Hc k H) as (? & ? & ?); clear H
    | H : second_of_three _ _ = true |- _ => apply H3 in H
    | H : second_of_four _ _ = true |- _ => apply H4 in H
    end;
    (split;
     [ repeat match goal with H : r !! _ = Some _ |- _ => apply Hl in H end; lia
     | intros i Hi; destruct i as [|[|[|i]]]; try lia; eauto ]).
Qed.

Lemma valid_fuel_irrel fuel fuel' d :
  (length d <= fuel)%nat -> (length d <= fuel')%nat -> valid_utf8_fuel fuel d = valid_utf8_fuel fuel' d.
Proof.
  revert fuel' d. induction fuel as [|fuel IH]; intros [|fuel'] [|b0 r] H H'; cbn in *; try done; try lia.
  destruct (utf8_step b0 r) as [ok n] eqn:E. pose proof (utf8_step_pos b0 r) as Hp. rewrite E in Hp. cbn in Hp.
  f_equal. apply IH; rewrite length_drop; cbn; lia.
Qed.

Lemma lossy_fuel_valid fuel d :
  (length d <= fuel)%nat -> valid_utf8_fuel fuel d = true -> lossy_fuel fuel d = d.
Proof.
  revert d. induction fuel as [|fuel IH]; intros [|b0 r] Hl H; cbn in *; try done.
  destruct (utf8_step b0 r) as [ok n] eqn:E. zsimp. subst ok.
  pose proof (utf8_step_pos b0 r) as Hp. rewrite E in Hp. cbn in Hp.
  rewrite IH by (rewrite ?length_drop; cbn; auto; lia). apply take_drop.
Qed.

(** Decoding valid UTF-8 loses nothing. *)
Lemma from_utf8_lossy_valid d : from_utf8 d = true -> from_utf8_lossy d = d.
Proof. apply lossy_fuel_valid. done. Qed.

Lemma boundary_shift n d k :
  (n <= k)%nat -> (k <= length d)%nat -> is_char_boundary d k = true -> is_char_boundary (drop n d) (k - n) = true.
Proof.
  unfold is_char_boundary. intros Hn Hk H. rewrite lookup_drop, length_drop.
  replace (n + (k - n))%nat with k by lia.
  destruct (Nat.eqb_spec (k - n) 0), (Nat.eqb_spec (k - n) (length d - n)); cbn; try done.
  destruct (Nat.eqb_spec k 0), (Nat.eqb_spec k (length d)); cbn in *; try lia; exact H.
Qed.

Lemma take_step b0 r n k :
  utf8_step b0 r = (true, n) -> (n <= k)%nat -> utf8_step b0 (take (k - 1) r) = (true, n).
Proof.
  intros E Hk.
  assert (Hb : forall i, (i < n - 1)%nat -> byte_or_0 (take (k - 1) r) i = byte_or_0 r i).
  { intros i Hi. unfold byte_or_0. rewrite !nth_lookup, lookup_take by lia. case_decide; [done | lia]. }
  revert E Hb. unfold utf8_step at 1.
  repeat case_if; intros [= <-] Hb; unfold utf8_step;
    try rewrite (Hb 0%nat) by lia; try rewrite (Hb 1%nat) by lia; try rewrite (Hb 2%nat) by lia;
    repeat match goal with H : ?b = _ |- context [if ?b then _ else _] => rewrite H; clear H end; done.
Qed.

Lemma valid_take fuel d k :
  (length d <= fuel)%nat -> valid_utf8_fuel fuel d = true -> (k <= length d)%nat ->
  is_char_boundary d k = true -> valid_utf8_fuel fuel (take k d) = true.
Proof.
  revert d k. induction fuel as [|fuel IH]; intros [|b0 r] k Hl H Hk Hb; cbn in Hl; try lia.
  { by rewrite take_nil. }
  { by rewrite take_nil. }
  destruct k as [|k]; [done |].
  cbn [valid_utf8_fuel take] in *. destruct (utf8_step b0 r) as [ok n] eqn:E. zsimp. subst ok.
  pose proof (utf8_step_pos b0 r) as Hp. rewrite E in Hp. cbn [snd] in Hp.
  destruct (utf8_step_tail _ _ _ E) as [Hn Ht].
  destruct (Nat.le_gt_cases n (S k)) as [Hle|Hgt].
  - pose proof (take_step _ _ _ (S k) E Hle) as E'. replace (S k - 1)%nat with k in E' by lia.
    rewrite E'. cbn [andb].
    replace (drop n (b0 :: take k r)) with (take (S k - n) (drop n (b0 :: r))).
    + apply IH; [rewrite length_drop; cbn in *; lia | done | rewrite length_drop; cbn in *; lia |].
      apply boundary_shift; done.
    + change (b0 :: take k r) with (take (S k) (b0 :: r)). by rewrite skipn_firstn_comm.
  - exfalso. destruct (Ht k) as (b & Hr & Hc); [lia |].
    assert (Hr' : (b0 :: r) !! S k = Some b) by done. pose proof (lookup_lt_Some _ _ _ Hr).
    unfold is_char_boundary in Hb. rewrite Hr', Hc in Hb. cbn [length] in Hb.
    destruct (Nat.eqb_spec (S k) (S (length r))); [lia | done].
Qed.

(** Cutting valid UTF-8 at a character boundary leaves valid UTF-8. *)
Lemma from_utf8_take d k :
  from_utf8 d = true -> (k <= length d)%nat -> is_char_boundary d k = true -> from_utf8 (take k d) = true.
Proof.
  intros H Hk Hb. unfold from_utf8 in *.
  rewrite (valid_fuel_irrel _ (length d)) by (rewrite ?length_take; lia). by apply valid_take.
Qed.
