(* ===== verification/ForwardTypes.v ===== *)
(** * The pipeline's wire data types and the sampling clamp

    The records of [crates/swarmllm-types/src/inference.rs] that cross the wire
    between pipeline segments, [f32] values as their 32-bit patterns, and
    [clamp_peer_sampling] ([src/api/mod.rs]), which every peer's sampling
    parameters pass through.  Field names carry a record prefix because Rocq's
    projections are global ([lf_] LayerForward, [sm_] SamplingParams, ...). *)
From S2P Require Import Prelude Bytes Utf8.

(** ** f32 as bit patterns *)
Module F32.
(** [v.is_finite()]: the exponent is not all ones. *)
Definition is_finite (b : Z) : bool := negb (Z.land (Z.shiftr b 23) 255 =? 255).
(** An integer ordered like the non-NaN floats: sign and magnitude, the two zeros equal. *)
Definition key (b : Z) : Z := if b <? 2147483648 then b else - (b - 2147483648).
Definition lt (a b : Z) : bool := key a <? key b.
(** [x.clamp(lo, hi)]. *)
Definition clamp (lo hi x : Z) : Z :=
  let x := if lt x lo then lo else x in
  if lt hi x then hi else x.

Definition zero : Z := 0.
Definition one : Z := 1065353216.
Definition two : Z := 1073741824.
Definition minus_two : Z := 3221225472.
Definition epsilon : Z := 872415232.
Definition v0_7 : Z := 1060320051.
Definition v0_9 : Z := 1063675494.
End F32.

(** ** Data *)

Inductive TensorFormat : Type := FP16 | FP32 | INT8.
Inductive TpPhase : Type := Full | AttnOnly | FfnOnly | EmbedOnly.

Record TensorParallelMeta : Type := {
  tp_rank : Z; tp_size : Z; single_layer : Z; phase : TpPhase }.

Record ChainHop : Type := { hop_node_id : NodeId; hop_layer_range : Z * Z }.
Record ChunkMeta : Type := { chunk_idx : Z; total_chunks : Z }.
Record PromptSpan : Type := { span_start : Z; span_end : Z }.
Record PromptCacheHint : Type := { block_tokens : Z; keys : list bytes; resume_at : Z }.

Inductive StreamBranch : Type :=
| Spare (spare_of kept token : Z)
| AfterSpare (spare : Z).

(** [schema] is the JSON value as text. *)
Record ReplyGrammar : Type := { schema : bytes; written : bytes }.

Record SamplingParams : Type := {
  sm_temperature : Z; sm_top_p : Z; sm_top_k : Z; sm_max_tokens : Z;
  sm_max_tokens_explicit : bool; sm_stop : list bytes;
  sm_frequency_penalty : Z; sm_presence_penalty : Z;
  sm_logprobs : bool; sm_top_logprobs : Z; sm_reply_grammar : option ReplyGrammar }.

Definition DEFAULT_REPLY_BUDGET : Z := 2048.

(** [SamplingParams::default()]. *)
Definition SamplingParams_default : SamplingParams := {|
  sm_temperature := F32.v0_7; sm_top_p := F32.v0_9; sm_top_k := 40;
  sm_max_tokens := DEFAULT_REPLY_BUDGET; sm_max_tokens_explicit := false; sm_stop := [];
  sm_frequency_penalty := F32.zero; sm_presence_penalty := F32.zero;
  sm_logprobs := false; sm_top_logprobs := 0; sm_reply_grammar := None |}.

Record LayerForward : Type := {
  lf_request_id : bytes;
  lf_sequence_num : Z;
  lf_index_pos : Z;
  lf_activations : bytes;
  lf_format : TensorFormat;
  lf_model_id : bytes;
  lf_layer_range : Z * Z;
  lf_tp_meta : option TensorParallelMeta;
  lf_vision_embeddings : option bytes;
  lf_chain : list ChainHop;
  lf_sender_peer_bytes : option bytes;
  lf_requester_node_id : option bytes;
  lf_pre_embedded : bool;
  lf_generated_ids : list Z;
  lf_sampling : option SamplingParams;
  lf_adapter_id : option bytes;
  lf_draft_tokens : list Z;
  lf_spec_logits_requested : bool;
  lf_spec_walk_at_tail : bool;
  lf_coupling_seed : option Z;
  lf_stream_seq : option Z;
  lf_truncate_kv_to : option Z;
  lf_prompt_cache : option PromptCacheHint;
  lf_chunk_meta : option ChunkMeta;
  lf_prompt_span : option PromptSpan;
  lf_image_spans : list PromptSpan;
  lf_draft_parents : list Z;
  lf_draft_tree_from : option Z;
  lf_stream_lookahead : option Z;
  lf_stream_branch : option StreamBranch }.

Inductive NetworkFinishReason : Type := Stop | MaxTokens | FinishError (msg : bytes).
Inductive ForwardRefusal : Type := Undecryptable.
Record ResultStep : Type := { st_index_pos : Z; st_layer_range : Z * Z; st_stream_seq : option Z }.
Record TokenLogProbEntry : Type := { tl_token : bytes; tl_logprob : Z; tl_top_logprobs : list (bytes * Z) }.

Record LayerResult : Type := {
  lr_request_id : bytes;
  lr_token_ids : list Z;
  lr_finish_reason : option NetworkFinishReason;
  lr_activations : bytes;
  lr_sealed_token_ids : option bytes;
  lr_spec_logits : list (list Z);
  lr_matched_stop_sequence : option bytes;
  lr_token_logprobs : list TokenLogProbEntry;
  lr_locally_constructed : bool;
  lr_refusal : option ForwardRefusal;
  lr_answers_step : option ResultStep;
  lr_prompt_blocks_stored : option Z;
  lr_served_us : option Z }.

(** [LayerForward::step]. *)
Definition step (f : LayerForward) : ResultStep := {|
  st_index_pos := lf_index_pos f; st_layer_range := lf_layer_range f;
  st_stream_seq := lf_stream_seq f |}.

Definition wire_code (r : ForwardRefusal) : Z := match r with Undecryptable => 1 end.
Definition from_wire_code (code : Z) : option ForwardRefusal :=
  if code =? 1 then Some Undecryptable else None.

(** ** The numbering of a streamed verify: attempt in the high bits, turn in the low 20 *)
Module StreamSeq.
Definition TURN_BITS : Z := 20.
Definition MAX_TURN : Z := Z.shiftl 1 TURN_BITS - 1.
Definition MAX_ATTEMPT : Z := Z.shiftr u32_max TURN_BITS.
Definition compose (attempt turn : Z) : option Z :=
  if (attempt <=? MAX_ATTEMPT) && (turn <=? MAX_TURN)
  then Some (Z.lor (Z.shiftl attempt TURN_BITS) turn) else None.
Definition attempt (seq : Z) : Z := Z.shiftr seq TURN_BITS.
Definition turn (seq : Z) : Z := Z.land seq MAX_TURN.
End StreamSeq.

(** ** [clamp_peer_sampling] *)
Definition MAX_STOP_SEQUENCES : nat := 16.
Definition DEFAULT_MAX_TOKENS : Z := 32768.

Definition finite_or (v fallback : Z) : Z := if F32.is_finite v then v else fallback.

Definition clamp_peer_sampling (s : SamplingParams) : SamplingParams := {|
  sm_temperature := F32.clamp F32.zero F32.two (finite_or (sm_temperature s) F32.one);
  sm_top_p := F32.clamp F32.epsilon F32.one (finite_or (sm_top_p s) F32.one);
  sm_top_k := sm_top_k s;
  sm_max_tokens := clamp 1 DEFAULT_MAX_TOKENS (sm_max_tokens s);
  sm_max_tokens_explicit := sm_max_tokens_explicit s;
  sm_stop := if (MAX_STOP_SEQUENCES <? length (sm_stop s))%nat
             then take MAX_STOP_SEQUENCES (sm_stop s) else sm_stop s;
  sm_frequency_penalty := F32.clamp F32.minus_two F32.two (finite_or (sm_frequency_penalty s) F32.zero);
  sm_presence_penalty := F32.clamp F32.minus_two F32.two (finite_or (sm_presence_penalty s) F32.zero);
  sm_logprobs := sm_logprobs s;
  sm_top_logprobs := Z.min (sm_top_logprobs s) 20;
  sm_reply_grammar := sm_reply_grammar s |}.

(** What a clamped parameter set satisfies. *)
Definition f32_between (lo hi v : Z) : Prop :=
  F32.is_finite v = true /\ F32.key lo <= F32.key v <= F32.key hi.

Definition sampling_in_range (s : SamplingParams) : Prop :=
  f32_between F32.zero F32.two (sm_temperature s) /\
  f32_between F32.epsilon F32.one (sm_top_p s) /\
  f32_between F32.minus_two F32.two (sm_frequency_penalty s) /\
  f32_between F32.minus_two F32.two (sm_presence_penalty s) /\
  1 <= sm_max_tokens s <= DEFAULT_MAX_TOKENS /\
  sm_top_logprobs s <= 20 /\ (length (sm_stop s) <= MAX_STOP_SEQUENCES)%nat.

(** ** Lemmas *)

Lemma clamp_between lo hi v :
  F32.is_finite lo = true -> F32.is_finite hi = true -> F32.is_finite v = true ->
  F32.key lo <= F32.key hi -> f32_between lo hi (F32.clamp lo hi v).
Proof.
  intros Hlo Hhi Hv Hle. unfold f32_between, F32.clamp, F32.lt.
  destruct (Z.ltb_spec (F32.key v) (F32.key lo)).
  - destruct (Z.ltb_spec (F32.key hi) (F32.key lo)); [lia | split; [done | lia]].
  - destruct (Z.ltb_spec (F32.key hi) (F32.key v)); (split; [done | lia]).
Qed.

Lemma finite_or_finite v w : F32.is_finite w = true -> F32.is_finite (finite_or v w) = true.
Proof. unfold finite_or. by destruct (F32.is_finite v) eqn:E. Qed.

Lemma clamp_between_id lo hi v : f32_between lo hi v -> F32.clamp lo hi v = v.
Proof.
  intros [_ H]. unfold F32.clamp, F32.lt.
  destruct (Z.ltb_spec (F32.key v) (F32.key lo)); [lia |].
  destruct (Z.ltb_spec (F32.key hi) (F32.key v)); [lia | done].
Qed.

Lemma clamped_in_range s : sampling_in_range (clamp_peer_sampling s).
Proof.
  unfold sampling_in_range. cbn [clamp_peer_sampling sm_temperature sm_top_p sm_frequency_penalty
    sm_presence_penalty sm_max_tokens sm_top_logprobs sm_stop].
  repeat split_and; try (apply clamp_between; [done | done | by apply finite_or_finite | done]);
    try (unfold clamp, DEFAULT_MAX_TOKENS; lia).
  destruct (Nat.ltb_spec MAX_STOP_SEQUENCES (length (sm_stop s))); [rewrite length_take; lia | lia].
Qed.

(** Parameters already in range are left as they are. *)
Lemma clamp_peer_sampling_id s : sampling_in_range s -> clamp_peer_sampling s = s.
Proof.
  intros (Ht & Hp & Hf & Hq & Hm & Hl & Hs). destruct s; cbn in *. unfold clamp_peer_sampling; cbn.
  unfold finite_or. rewrite (proj1 Ht), (proj1 Hp), (proj1 Hf), (proj1 Hq).
  rewrite !clamp_between_id by done. f_equal.
  - unfold clamp, DEFAULT_MAX_TOKENS in *. lia.
  - case_if; [by apply take_ge | done].
  - lia.
Qed.

Lemma StreamSeq_bounds : StreamSeq.MAX_TURN = 1048575 /\ StreamSeq.MAX_ATTEMPT = 4095.
Proof. done. Qed.

Lemma stream_seq_compose a t n :
  0 <= a -> 0 <= t -> StreamSeq.compose a t = Some n ->
  is_u32 n /\ StreamSeq.attempt n = a /\ StreamSeq.turn n = t.
Proof.
  intros Ha Ht. unfold StreamSeq.compose, StreamSeq.attempt, StreamSeq.turn.
  destruct StreamSeq_bounds as [E1 E2]. rewrite E1, E2. unfold StreamSeq.TURN_BITS.
  destruct (_ && _) eqn:E; [|done]. intros [= <-]. zsimp.
  rewrite lor_shiftl_low by lia. change (2 ^ 20) with 1048576.
  change 1048575 with (Z.ones 20). rewrite Z.land_ones, Z.shiftr_div_pow2 by lia.
  change (2 ^ 20) with 1048576. split; [ints |]. split.
  - rewrite Z.div_add_l by lia. rewrite Z.div_small by lia. lia.
  - rewrite Z.add_comm, Z.mod_add by lia. by apply Z.mod_small; lia.
Qed.
