(* ===== verification/ForwardCodec.v ===== *)
(** * The LayerForward wire format: trailers, plaintext frame, sealed frame, AAD

    [src/network/protocol/layer_forward.rs] and
    [src/network/protocol/encrypted.rs].  Every [append_*] writes at the end of
    the buffer it is given, every [read_*] takes the slice at the cursor and
    returns what it read with the slice at the new cursor.  The optional
    tp/spec/kv/chunk blocks, which both encoders and both decoders write out
    twice with the same text, are one definition each. *)
From S2P Require Import Prelude Bytes Utf8 ForwardTypes.

(** ** Constants *)
Definition TENSOR_TAG_FORWARD : Z := 0x01.
Definition TENSOR_TAG_RESULT : Z := 0x02.
Definition TENSOR_TAG_ENCRYPTED : Z := 0x10.
Definition MAX_ACTIVATION_SIZE : Z := 134217728.
Definition MAX_RESULT_TOKENS : Z := 65536.
Definition MAX_TREE_ROWS : Z := 512.
Definition MAX_DRAFT_TOKENS : Z := MAX_TREE_ROWS.
Definition MAX_SPEC_LOGITS_POSITIONS : Z := 32.
Definition MAX_IMAGE_SPANS : Z := 256.
Definition MAX_KEYS : Z := 8192.
Definition SPEC_FLAG_LOGITS : Z := 0x01.
Definition SPEC_FLAG_WALK_AT_TAIL : Z := 0x02.

(** [a.checked_mul(b)] and [a.checked_add(b)] on a 64-bit usize. *)
Definition usize_checked (z : Z) : option Z := if z <=? u64_max then Some z else None.

Definition format_tag (f : TensorFormat) : Z :=
  match f with FP16 => 0 | FP32 => 1 | INT8 => 2 end.
Definition format_of_tag (t : Z) : outcome TensorFormat :=
  if t =? 0 then Ok FP16 else if t =? 1 then Ok FP32 else if t =? 2 then Ok INT8
  else Err (Network ("Unknown tensor format tag: " +:+ pretty t)).

Definition phase_byte (p : TpPhase) : Z :=
  match p with Full => 0 | AttnOnly => 1 | FfnOnly => 2 | EmbedOnly => 3 end.
Definition phase_of_byte (b : Z) : TpPhase :=
  if b =? 1 then AttnOnly else if b =? 2 then FfnOnly else if b =? 3 then EmbedOnly else Full.

Definition bool_byte (b : bool) : Z := if b then 1 else 0.

(** ** Writers *)

(** Marker 0x02: rank, size, layer, phase, pre-embedded. *)
Definition append_tp_trailer (buf : bytes) (f : LayerForward) : bytes :=
  match lf_tp_meta f with
  | None => buf
  | Some tp =>
      buf ++ [0x02; tp_rank tp; tp_size tp] ++ le_bytes 4 (single_layer tp)
          ++ [phase_byte (phase tp); bool_byte (lf_pre_embedded f)]
  end.

Definition spec_trailer_flags (f : LayerForward) : Z :=
  let flags := if lf_spec_logits_requested f then Z.lor 0 SPEC_FLAG_LOGITS else 0 in
  if lf_spec_walk_at_tail f then Z.lor flags SPEC_FLAG_WALK_AT_TAIL else flags.

(** The gate both encoders and the AAD share for the 0x03 trailer. *)
Definition has_spec_trailer (f : LayerForward) : bool :=
  negb (bool_decide (lf_draft_tokens f = [])) || lf_spec_logits_requested f.

Definition append_spec_trailer (buf : bytes) (f : LayerForward) : outcome bytes :=
  if has_spec_trailer f then
    if u16_max <? blen (lf_draft_tokens f)
    then Err (Network ("draft_tokens too long: " +:+ pretty (blen (lf_draft_tokens f)) +:+ " > 65535"))
    else Ok (buf ++ [0x03; spec_trailer_flags f] ++ le_bytes 2 (blen (lf_draft_tokens f))
                 ++ concat (map (le_bytes 4) (lf_draft_tokens f)))
  else Ok buf.

Definition append_kv_trailer (buf : bytes) (f : LayerForward) : bytes :=
  match lf_truncate_kv_to f with
  | None => buf
  | Some n => buf ++ [0x04] ++ le_bytes 4 n
  end.

Definition append_chunk_trailer (buf : bytes) (f : LayerForward) : bytes :=
  match lf_chunk_meta f with
  | None => buf
  | Some cm => buf ++ [0x05] ++ le_bytes 4 (chunk_idx cm) ++ le_bytes 4 (total_chunks cm)
  end.

Definition hop_bytes (h : ChainHop) : bytes :=
  hop_node_id h ++ le_bytes 4 (fst (hop_layer_range h)) ++ le_bytes 4 (snd (hop_layer_range h)).

Definition append_chain_trailers (buf : bytes) (f : LayerForward) : bytes :=
  let buf :=
    match lf_chain f with
    | [] => buf
    | _ =>
        let n := Nat.min (length (lf_chain f)) 255 in
        buf ++ [0x06; Z.of_nat n] ++ concat (map hop_bytes (take n (lf_chain f)))
    end in
  match lf_requester_node_id f with
  | None => buf
  | Some reply_to => buf ++ [0x07] ++ reply_to
  end.

Definition append_generated_ids_trailer (buf : bytes) (f : LayerForward) : bytes :=
  match lf_generated_ids f with
  | [] => buf
  | _ =>
      let n := Z.min (blen (lf_generated_ids f)) u16_max in
      buf ++ [0x08] ++ le_bytes 2 n
          ++ concat (map (le_bytes 4) (take (Z.to_nat n) (lf_generated_ids f)))
  end.

Definition append_pre_embedded_trailer (buf : bytes) (f : LayerForward) : bytes :=
  if negb (lf_pre_embedded f) || bool_decide (is_Some (lf_tp_meta f)) then buf
  else buf ++ [0x09; 0x01].

Definition append_sampling_trailer (buf : bytes) (f : LayerForward) : bytes :=
  match lf_sampling f with
  | None => buf
  | Some s =>
      buf ++ [0x0A] ++ le_bytes 4 (sm_temperature s) ++ le_bytes 4 (sm_top_p s)
          ++ le_bytes 4 (sm_top_k s) ++ le_bytes 4 (sm_frequency_penalty s)
          ++ le_bytes 4 (sm_presence_penalty s)
          ++ [bool_byte (sm_logprobs s); Z.min (sm_top_logprobs s) u8_max]
  end.

Definition append_coupling_trailer (buf : bytes) (f : LayerForward) : bytes :=
  match lf_coupling_seed f with
  | None => buf
  | Some seed => buf ++ [0x0B] ++ le_bytes 8 seed
  end.

Definition append_stream_trailer (buf : bytes) (f : LayerForward) : bytes :=
  match lf_stream_seq f with
  | None => buf
  | Some seq => buf ++ [0x0C] ++ le_bytes 4 seq
  end.

Definition append_prompt_cache_trailer (buf : bytes) (f : LayerForward) : bytes :=
  match lf_prompt_cache f with
  | None => buf
  | Some h =>
      buf ++ [0x0D] ++ le_bytes 4 (block_tokens h) ++ le_bytes 4 (resume_at h)
          ++ le_bytes 4 (blen (keys h)) ++ concat (keys h)
  end.

Definition span_bytes (s : PromptSpan) : bytes :=
  le_bytes 4 (span_start s) ++ le_bytes 4 (span_end s).

Definition append_prompt_span_trailer (buf : bytes) (f : LayerForward) : bytes :=
  match lf_prompt_span f with
  | None => buf
  | Some s => buf ++ [0x0E] ++ span_bytes s
  end.

Definition append_image_spans_trailer (buf : bytes) (f : LayerForward) : bytes :=
  match lf_image_spans f with
  | [] => buf
  | _ =>
      let n := Z.min (blen (lf_image_spans f)) MAX_IMAGE_SPANS in
      buf ++ [0x0F] ++ le_bytes 2 n
          ++ concat (map span_bytes (take (Z.to_nat n) (lf_image_spans f)))
  end.

Definition append_draft_tree_trailer (buf : bytes) (f : LayerForward) : bytes :=
  match lf_draft_parents f with
  | [] => buf
  | _ =>
      let n := Z.min (blen (lf_draft_parents f)) MAX_TREE_ROWS in
      buf ++ [0x10] ++ le_bytes 2 n
          ++ concat (map (le_bytes 2) (take (Z.to_nat n) (lf_draft_parents f)))
  end.

Definition append_draft_tree_flow_trailer (buf : bytes) (f : LayerForward) : bytes :=
  match lf_draft_tree_from f with
  | None => buf
  | Some from =>
      match lf_draft_parents f with
      | [] => buf
      | _ => buf ++ [0x11] ++ le_bytes 4 from
      end
  end.

Definition append_stream_lookahead_trailer (buf : bytes) (f : LayerForward) : bytes :=
  match lf_stream_lookahead f with
  | None => buf
  | Some token => buf ++ [0x12] ++ le_bytes 4 token
  end.

Definition append_stream_branch_trailer (buf : bytes) (f : LayerForward) : bytes :=
  match lf_stream_branch f with
  | None => buf
  | Some (Spare of_ kept token) =>
      buf ++ [0x13] ++ [0] ++ le_bytes 4 of_ ++ le_bytes 4 kept ++ le_bytes 4 token
  | Some (AfterSpare spare) => buf ++ [0x13] ++ [1] ++ le_bytes 4 spare
  end.

(** The trailers both encoders and the AAD write, in this order, after 0x05. *)
Definition append_late_trailers (buf : bytes) (f : LayerForward) : bytes :=
  let buf := append_chain_trailers buf f in
  let buf := append_generated_ids_trailer buf f in
  let buf := append_pre_embedded_trailer buf f in
  let buf := append_sampling_trailer buf f in
  let buf := append_coupling_trailer buf f in
  let buf := append_stream_trailer buf f in
  let buf := append_prompt_cache_trailer buf f in
  let buf := append_prompt_span_trailer buf f in
  let buf := append_image_spans_trailer buf f in
  let buf := append_draft_tree_trailer buf f in
  let buf := append_draft_tree_flow_trailer buf f in
  let buf := append_stream_lookahead_trailer buf f in
  append_stream_branch_trailer buf f.

Definition model_id_too_long (f : LayerForward) : SwarmError :=
  Network ("Model ID too long: " +:+ pretty (blen (lf_model_id f)) +:+ " bytes (max 65535)").

(** [encode_layer_forward]. *)
Definition encode_layer_forward (f : LayerForward) : outcome bytes :=
  let data_len := blen (lf_activations f) in
  if u16_max <? blen (lf_model_id f) then Err (model_id_too_long f)
  else if u32_max <? data_len
  then Err (Network "Activation payload exceeds 4GiB wire format limit")
  else
    let buf := [TENSOR_TAG_FORWARD] ++ lf_request_id f ++ le_bytes 4 (lf_sequence_num f)
      ++ le_bytes 4 (lf_index_pos f) ++ [format_tag (lf_format f)]
      ++ le_bytes 4 data_len ++ lf_activations f
      ++ [0x01] ++ le_bytes 4 (fst (lf_layer_range f)) ++ le_bytes 4 (snd (lf_layer_range f))
      ++ le_bytes 2 (blen (lf_model_id f)) ++ lf_model_id f in
    let buf := append_tp_trailer buf f in
    buf ← append_spec_trailer buf f;
    let buf := append_kv_trailer buf f in
    let buf := append_chunk_trailer buf f in
    Ok (append_late_trailers buf f).

(** [encode_layer_forward_encrypted]. *)
Definition encode_layer_forward_encrypted (f : LayerForward) (sealed : bytes) : outcome bytes :=
  if u16_max <? blen (lf_model_id f) then Err (model_id_too_long f)
  else
    let buf := [TENSOR_TAG_ENCRYPTED] ++ lf_request_id f ++ le_bytes 4 (lf_sequence_num f)
      ++ le_bytes 4 (lf_index_pos f) ++ [format_tag (lf_format f)]
      ++ le_bytes 4 (fst (lf_layer_range f)) ++ le_bytes 4 (snd (lf_layer_range f))
      ++ le_bytes 2 (blen (lf_model_id f)) ++ lf_model_id f
      ++ le_bytes 4 (blen sealed) ++ sealed in
    let buf := append_tp_trailer buf f in
    buf ← append_spec_trailer buf f;
    let buf := append_kv_trailer buf f in
    let buf := append_chunk_trailer buf f in
    Ok (append_late_trailers buf f).

(** The AAD's 0x03 block: no error, the count saturates. *)
Definition aad_spec_trailer (aad : bytes) (f : LayerForward) : bytes :=
  if has_spec_trailer f then
    aad ++ [0x03; spec_trailer_flags f] ++ le_bytes 2 (Z.min (blen (lf_draft_tokens f)) u16_max)
        ++ concat (map (le_bytes 4) (lf_draft_tokens f))
  else aad.

(** [build_layer_forward_aad]. *)
Definition build_layer_forward_aad (f : LayerForward) : bytes :=
  let aad := lf_request_id f ++ le_bytes 4 (lf_sequence_num f) ++ le_bytes 4 (lf_index_pos f)
    ++ [format_tag (lf_format f)]
    ++ le_bytes 4 (fst (lf_layer_range f)) ++ le_bytes 4 (snd (lf_layer_range f))
    ++ le_bytes 2 (blen (lf_model_id f)) ++ lf_model_id f in
  let aad := append_tp_trailer aad f in
  let aad := aad_spec_trailer aad f in
  let aad := append_kv_trailer aad f in
  let aad := append_chunk_trailer aad f in
  append_late_trailers aad f.

(** ** Readers *)

Definition read_tp_trailer (d : bytes) : outcome (option TensorParallelMeta * bool * bytes) :=
  here ← at_marker d 9 0x02;
  if (here : bool) then
    rank ← idx d 1; size ← idx d 2; layer ← u32_at d 3; p ← idx d 7; pre ← idx d 8;
    Ok (Some {| tp_rank := rank; tp_size := size; single_layer := layer; phase := phase_of_byte p |},
        negb (pre =? 0), drop 9 d)
  else Ok (None, false, d).

Definition read_spec_trailer (d : bytes) : outcome (list Z * bool * bool * bytes) :=
  here ← at_marker d 4 0x03;
  if (here : bool) then
    flags ← idx d 1; num_drafts ← u16_at d 2;
    let d := drop 4 d in
    if MAX_DRAFT_TOKENS <? num_drafts
    then Err (Network ("num_drafts " +:+ pretty num_drafts +:+ " > 512"))
    else if blen d <? num_drafts * 4 then Err (Network "draft_tokens truncated")
    else
      drafts ← read_les 4 (Z.to_nat num_drafts) d;
      Ok (drafts, negb (Z.land flags SPEC_FLAG_LOGITS =? 0),
          negb (Z.land flags SPEC_FLAG_WALK_AT_TAIL =? 0), drop (Z.to_nat (num_drafts * 4)) d)
  else Ok ([], false, false, d).

Definition read_kv_trailer (d : bytes) : outcome (option Z * bytes) :=
  here ← at_marker d 5 0x04;
  if (here : bool) then n ← u32_at d 1; Ok (Some n, drop 5 d) else Ok (None, d).

Definition read_chunk_trailer (d : bytes) : outcome (option ChunkMeta * bytes) :=
  here ← at_marker d 9 0x05;
  if (here : bool) then
    ci ← u32_at d 1; tc ← u32_at d 5;
    if (tc =? 0) || (tc <=? ci)
    then Err (Network ("Invalid chunk_meta: chunk_idx=" +:+ pretty ci +:+ ", total_chunks=" +:+ pretty tc))
    else Ok (Some {| chunk_idx := ci; total_chunks := tc |}, drop 9 d)
  else Ok (None, d).

(** [None] is the early return on a range that cannot be served. *)
Fixpoint read_hops (n : nat) (d : bytes) : outcome (option (list ChainHop)) :=
  match n with
  | O => Ok (Some [])
  | S n =>
      id ← slice d 0 32; start ← u32_at d 32; stop ← u32_at d 36;
      if stop <=? start then Ok None
      else
        rest ← read_hops n (drop 40 d);
        Ok (match rest with
            | None => None
            | Some hops => Some ({| hop_node_id := id; hop_layer_range := (start, stop) |} :: hops)
            end)
  end.

Definition read_chain_trailer (d : bytes) : outcome (list ChainHop * bytes) :=
  here ← at_marker d 2 0x06;
  if (here : bool) then
    count ← idx d 1;
    let need := 2 + count * 40 in
    if (count =? 0) || (blen d <? need) then Ok ([], d)
    else
      hops ← read_hops (Z.to_nat count) (drop 2 d);
      Ok (match hops with None => ([], d) | Some hops => (hops, drop (Z.to_nat need) d) end)
  else Ok ([], d).

Definition read_reply_to_trailer (d : bytes) : outcome (option bytes * bytes) :=
  here ← at_marker d 33 0x07;
  if (here : bool) then id ← slice d 1 32; Ok (Some id, drop 33 d) else Ok (None, d).

Definition read_generated_ids_trailer (d : bytes) : outcome (list Z * bytes) :=
  here ← at_marker d 3 0x08;
  if (here : bool) then
    n ← u16_at d 1;
    let need := 3 + n * 4 in
    if (n =? 0) || (blen d <? need) then Ok ([], d)
    else
      ids ← read_les 4 (Z.to_nat n) (drop 3 d);
      Ok (ids, drop (Z.to_nat need) d)
  else Ok ([], d).

Definition read_pre_embedded_trailer (d : bytes) : outcome (bool * bytes) :=
  here ← at_marker d 2 0x09;
  if (here : bool) then b ← idx d 1; Ok (negb (Z.land b 1 =? 0), drop 2 d) else Ok (false, d).

Definition SAMPLING_TRAILER_LEN : Z := 23.

Definition read_sampling_trailer (d : bytes) : outcome (option SamplingParams * bytes) :=
  here ← at_marker d SAMPLING_TRAILER_LEN 0x0A;
  if (here : bool) then
    t ← u32_at d 1; p ← u32_at d 5; k ← u32_at d 9; fp ← u32_at d 13; pp ← u32_at d 17;
    lp ← idx d 21; tl ← idx d 22;
    let dflt := SamplingParams_default in
    Ok (Some {| sm_temperature := t; sm_top_p := p; sm_top_k := k;
                sm_max_tokens := sm_max_tokens dflt;
                sm_max_tokens_explicit := sm_max_tokens_explicit dflt; sm_stop := sm_stop dflt;
                sm_frequency_penalty := fp; sm_presence_penalty := pp;
                sm_logprobs := negb (Z.land lp 1 =? 0); sm_top_logprobs := tl;
                sm_reply_grammar := sm_reply_grammar dflt |}, drop 23 d)
  else Ok (None, d).

Definition COUPLING_TRAILER_LEN : Z := 9.

Definition read_coupling_trailer (d : bytes) : outcome (option Z * bytes) :=
  here ← at_marker d COUPLING_TRAILER_LEN 0x0B;
  if (here : bool) then seed ← u64_at d 1; Ok (Some seed, drop 9 d) else Ok (None, d).

Definition STREAM_TRAILER_LEN : Z := 5.

Definition read_stream_trailer (d : bytes) : outcome (option Z * bytes) :=
  here ← at_marker d STREAM_TRAILER_LEN 0x0C;
  if (here : bool) then seq ← u32_at d 1; Ok (Some seq, drop 5 d) else Ok (None, d).

Definition read_prompt_cache_trailer (d : bytes) : outcome (option PromptCacheHint * bytes) :=
  here ← at_marker d 13 0x0D;
  if (here : bool) then
    bt ← u32_at d 1; ra ← u32_at d 5; n ← u32_at d 9;
    match usize_checked (n * 32) ≫= fun m => usize_checked (13 + m) with
    | None => Ok (None, d)
    | Some stop =>
        if (MAX_KEYS <? n) || (blen d <? stop) then Ok (None, d)
        else
          ks ← read_chunks 32 (Z.to_nat n) (drop 13 d);
          Ok (Some {| block_tokens := bt; keys := ks; resume_at := ra |}, drop (Z.to_nat stop) d)
    end
  else Ok (None, d).

Definition PROMPT_SPAN_TRAILER_LEN : Z := 9.

Definition read_span (d : bytes) (i : nat) : outcome PromptSpan :=
  s ← u32_at d i; e ← u32_at d (i + 4); Ok {| span_start := s; span_end := e |}.

Definition read_prompt_span_trailer (d : bytes) : outcome (option PromptSpan * bytes) :=
  here ← at_marker d PROMPT_SPAN_TRAILER_LEN 0x0E;
  if (here : bool) then s ← read_span d 1; Ok (Some s, drop 9 d) else Ok (None, d).

Fixpoint read_spans (n : nat) (d : bytes) : outcome (list PromptSpan) :=
  match n with
  | O => Ok []
  | S n => s ← read_span d 0; ss ← read_spans n (drop 8 d); Ok (s :: ss)
  end.

Definition read_image_spans_trailer (d : bytes) : outcome (list PromptSpan * bytes) :=
  here ← at_marker d 3 0x0F;
  if (here : bool) then
    n ← u16_at d 1;
    if (MAX_IMAGE_SPANS <? n) || (blen d <? 3 + 8 * n) then Ok ([], d)
    else
      spans ← read_spans (Z.to_nat n) (drop 3 d);
      Ok (spans, drop (Z.to_nat (3 + 8 * n)) d)
  else Ok ([], d).

Definition read_draft_tree_trailer (d : bytes) : outcome (list Z * bytes) :=
  here ← at_marker d 1 0x10;
  if (here : bool) then
    if blen d <? 3 then Err (Network "draft-tree trailer truncated")
    else
      n ← u16_at d 1;
      if (n =? 0) || (MAX_TREE_ROWS <? n) || (blen d <? 3 + 2 * n)
      then Err (Network ("draft-tree trailer of " +:+ pretty n +:+ " rows refused"))
      else
        parents ← read_les 2 (Z.to_nat n) (drop 3 d);
        Ok (parents, drop (Z.to_nat (3 + 2 * n)) d)
  else Ok ([], d).

Definition DRAFT_TREE_FLOW_TRAILER_LEN : Z := 5.

Definition read_draft_tree_flow_trailer (d : bytes) (has_tree : bool) : outcome (option Z * bytes) :=
  here ← at_marker d 1 0x11;
  if (here : bool) then
    if blen d <? DRAFT_TREE_FLOW_TRAILER_LEN then Err (Network "tree-flow trailer truncated")
    else if negb has_tree then Err (Network "tree-flow trailer with no tree beside it refused")
    else from ← u32_at d 1; Ok (Some from, drop 5 d)
  else Ok (None, d).

Definition STREAM_LOOKAHEAD_TRAILER_LEN : Z := 5.

Definition read_stream_lookahead_trailer (d : bytes) : outcome (option Z * bytes) :=
  here ← at_marker d 1 0x12;
  if (here : bool) then
    if blen d <? STREAM_LOOKAHEAD_TRAILER_LEN then Err (Network "look-ahead trailer truncated")
    else token ← u32_at d 1; Ok (Some token, drop 5 d)
  else Ok (None, d).

Definition STREAM_SPARE_TRAILER_LEN : Z := 14.
Definition STREAM_AFTER_SPARE_TRAILER_LEN : Z := 6.

Definition read_stream_branch_trailer (d : bytes) : outcome (option StreamBranch * bytes) :=
  here ← at_marker d 1 0x13;
  if (here : bool) then
    match d !! 1%nat with
    | Some kind =>
        if (kind =? 0) && (STREAM_SPARE_TRAILER_LEN <=? blen d) then
          of_ ← u32_at d 2; kept ← u32_at d 6; token ← u32_at d 10;
          Ok (Some (Spare of_ kept token), drop 14 d)
        else if (kind =? 1) && (STREAM_AFTER_SPARE_TRAILER_LEN <=? blen d) then
          spare ← u32_at d 2; Ok (Some (AfterSpare spare), drop 6 d)
        else if (kind =? 0) || (kind =? 1) then Err (Network "branch trailer truncated")
        else Err (Network ("branch trailer of unknown kind " +:+ pretty kind +:+ " refused"))
    | None => Err (Network "branch trailer truncated")
    end
  else Ok (None, d).

(** ** Decoders *)

(** What the optional trailers said, in wire order. *)
Record Trailers : Type := {
  t_tp_meta : option TensorParallelMeta; t_tp_pre_embedded : bool;
  t_draft_tokens : list Z; t_spec_logits : bool; t_spec_walk : bool;
  t_truncate_kv_to : option Z; t_chunk_meta : option ChunkMeta;
  t_chain : list ChainHop; t_requester : option bytes; t_generated_ids : list Z;
  t_pre_embedded : bool; t_sampling : option SamplingParams;
  t_coupling_seed : option Z; t_stream_seq : option Z;
  t_prompt_cache : option PromptCacheHint; t_prompt_span : option PromptSpan;
  t_image_spans : list PromptSpan; t_draft_parents : list Z;
  t_draft_tree_from : option Z; t_stream_lookahead : option Z;
  t_stream_branch : option StreamBranch }.

(** The optional trailers in the order both decoders read them; the sampling
    parameters as sent, before any clamp. *)
Definition read_trailers (d : bytes) : outcome Trailers :=
  '(tp_meta, tp_pre, d) ← read_tp_trailer d;
  '(drafts, logits, walk, d) ← read_spec_trailer d;
  '(kv, d) ← read_kv_trailer d;
  '(chunk, d) ← read_chunk_trailer d;
  '(chain, d) ← read_chain_trailer d;
  '(requester, d) ← read_reply_to_trailer d;
  '(ids, d) ← read_generated_ids_trailer d;
  '(pre, d) ← read_pre_embedded_trailer d;
  '(sampling, d) ← read_sampling_trailer d;
  '(coupling, d) ← read_coupling_trailer d;
  '(seq, d) ← read_stream_trailer d;
  '(cache, d) ← read_prompt_cache_trailer d;
  '(span, d) ← read_prompt_span_trailer d;
  '(spans, d) ← read_image_spans_trailer d;
  '(parents, d) ← read_draft_tree_trailer d;
  '(from, d) ← read_draft_tree_flow_trailer d (negb (bool_decide (parents = [])));
  '(ahead, d) ← read_stream_lookahead_trailer d;
  '(branch, d) ← read_stream_branch_trailer d;
  Ok {| t_tp_meta := tp_meta; t_tp_pre_embedded := tp_pre;
        t_draft_tokens := drafts; t_spec_logits := logits; t_spec_walk := walk;
        t_truncate_kv_to := kv; t_chunk_meta := chunk; t_chain := chain;
        t_requester := requester; t_generated_ids := ids; t_pre_embedded := pre;
        t_sampling := sampling; t_coupling_seed := coupling; t_stream_seq := seq;
        t_prompt_cache := cache; t_prompt_span := span; t_image_spans := spans;
        t_draft_parents := parents; t_draft_tree_from := from;
        t_stream_lookahead := ahead; t_stream_branch := branch |}.

(** The fields of the fixed header. *)
Record Header : Type := {
  h_request_id : bytes; h_sequence_num : Z; h_index_pos : Z; h_format : TensorFormat;
  h_layer_range : Z * Z; h_model_id : bytes }.

(** The record both decoders build at their end. *)
Definition assemble (h : Header) (activations : bytes) (t : Trailers)
  (sampling : option SamplingParams) : LayerForward := {|
  lf_request_id := h_request_id h; lf_sequence_num := h_sequence_num h;
  lf_index_pos := h_index_pos h; lf_activations := activations; lf_format := h_format h;
  lf_model_id := h_model_id h; lf_layer_range := h_layer_range h;
  lf_tp_meta := t_tp_meta t; lf_vision_embeddings := None; lf_chain := t_chain t;
  lf_sender_peer_bytes := None; lf_requester_node_id := t_requester t;
  lf_pre_embedded := t_tp_pre_embedded t || t_pre_embedded t;
  lf_generated_ids := t_generated_ids t; lf_sampling := sampling; lf_adapter_id := None;
  lf_draft_tokens := t_draft_tokens t; lf_spec_logits_requested := t_spec_logits t;
  lf_spec_walk_at_tail := t_spec_walk t; lf_coupling_seed := t_coupling_seed t;
  lf_stream_seq := t_stream_seq t; lf_truncate_kv_to := t_truncate_kv_to t;
  lf_prompt_cache := t_prompt_cache t; lf_chunk_meta := t_chunk_meta t;
  lf_prompt_span := t_prompt_span t; lf_image_spans := t_image_spans t;
  lf_draft_parents := t_draft_parents t; lf_draft_tree_from := t_draft_tree_from t;
  lf_stream_lookahead := t_stream_lookahead t; lf_stream_branch := t_stream_branch t |}.

(** [if !data.is_empty() && data[0] == tag { &data[1..] } else { data }]. *)
Definition strip_tag (tag : Z) (d : bytes) : bytes :=
  match d with b :: d' => if b =? tag then d' else d | [] => d end.

(** [decode_layer_forward]. *)
Definition decode_layer_forward (data : bytes) : outcome LayerForward :=
  let d := strip_tag TENSOR_TAG_FORWARD data in
  if blen d <? 29 then Err (Network "Tensor envelope too short")
  else
    request_id ← slice d 0 16; sequence_num ← u32_at d 16; index_pos ← u32_at d 20;
    tag ← idx d 24; format ← format_of_tag tag; data_len ← u32_at d 25;
    if MAX_ACTIVATION_SIZE <? data_len
    then Err (Network ("LayerForward activation too large: " +:+ pretty data_len +:+ " bytes (max "
                       +:+ pretty MAX_ACTIVATION_SIZE +:+ ")"))
    else if blen d <? 29 + data_len
    then Err (Network ("Tensor data truncated: expected " +:+ pretty data_len +:+ " bytes, got "
                       +:+ pretty (blen d - 29)))
    else
      activations ← slice d 29 (Z.to_nat data_len);
      let d := drop (29 + Z.to_nat data_len) d in
      here ← at_marker d 9 0x01;
      if negb here
      then Err (Network "LayerForward missing required layer_range/model_id trailer")
      else
        ls ← u32_at d 1; le ← u32_at d 5;
        if blen d <? 11 then Err (Network "LayerForward missing model_id length")
        else
          mid_len ← u16_at d 9;
          if blen d <? 11 + mid_len then Err (Network "LayerForward model_id truncated")
          else
            mid ← slice d 11 (Z.to_nat mid_len);
            if negb (from_utf8 mid) then Err (Network "Invalid model_id UTF-8")
            else
              t ← read_trailers (drop (11 + Z.to_nat mid_len) d);
              let h := {| h_request_id := request_id; h_sequence_num := sequence_num;
                          h_index_pos := index_pos; h_format := format;
                          h_layer_range := (ls, le); h_model_id := mid |} in
              Ok (assemble h activations t (option_map clamp_peer_sampling (t_sampling t))).

(** [forward.sampling.as_mut()] clamped in place. *)
Definition clamp_forward (f : LayerForward) : LayerForward := {|
  lf_request_id := lf_request_id f; lf_sequence_num := lf_sequence_num f;
  lf_index_pos := lf_index_pos f; lf_activations := lf_activations f; lf_format := lf_format f;
  lf_model_id := lf_model_id f; lf_layer_range := lf_layer_range f; lf_tp_meta := lf_tp_meta f;
  lf_vision_embeddings := lf_vision_embeddings f; lf_chain := lf_chain f;
  lf_sender_peer_bytes := lf_sender_peer_bytes f; lf_requester_node_id := lf_requester_node_id f;
  lf_pre_embedded := lf_pre_embedded f; lf_generated_ids := lf_generated_ids f;
  lf_sampling := option_map clamp_peer_sampling (lf_sampling f);
  lf_adapter_id := lf_adapter_id f; lf_draft_tokens := lf_draft_tokens f;
  lf_spec_logits_requested := lf_spec_logits_requested f;
  lf_spec_walk_at_tail := lf_spec_walk_at_tail f; lf_coupling_seed := lf_coupling_seed f;
  lf_stream_seq := lf_stream_seq f; lf_truncate_kv_to := lf_truncate_kv_to f;
  lf_prompt_cache := lf_prompt_cache f; lf_chunk_meta := lf_chunk_meta f;
  lf_prompt_span := lf_prompt_span f; lf_image_spans := lf_image_spans f;
  lf_draft_parents := lf_draft_parents f; lf_draft_tree_from := lf_draft_tree_from f;
  lf_stream_lookahead := lf_stream_lookahead f; lf_stream_branch := lf_stream_branch f |}.

(** [decode_layer_forward_encrypted]: the forward with empty activations, the
    sealed payload and the AAD rebuilt from the parsed forward. *)
Definition decode_layer_forward_encrypted (data : bytes) : outcome (LayerForward * bytes * bytes) :=
  let d := strip_tag TENSOR_TAG_ENCRYPTED data in
  if blen d <? 35 then Err (Network "Encrypted tensor envelope too short")
  else
    request_id ← slice d 0 16; sequence_num ← u32_at d 16; index_pos ← u32_at d 20;
    tag ← idx d 24; format ← format_of_tag tag;
    layer_start ← u32_at d 25; layer_end ← u32_at d 29; mid_len ← u16_at d 33;
    if blen d <? 35 + mid_len + 4 then Err (Network "Encrypted tensor model_id/sealed truncated")
    else
      mid ← slice d 35 (Z.to_nat mid_len);
      if negb (from_utf8 mid) then Err (Network "Invalid model_id UTF-8")
      else
        let d := drop (35 + Z.to_nat mid_len) d in
        sealed_len ← u32_at d 0;
        if blen d <? 4 + sealed_len then Err (Network "Encrypted tensor data truncated")
        else
          sealed ← slice d 4 (Z.to_nat sealed_len);
          t ← read_trailers (drop (4 + Z.to_nat sealed_len) d);
          let h := {| h_request_id := request_id; h_sequence_num := sequence_num;
                      h_index_pos := index_pos; h_format := format;
                      h_layer_range := (layer_start, layer_end); h_model_id := mid |} in
          let forward := assemble h [] t (t_sampling t) in
          let aad := build_layer_forward_aad forward in
          Ok (clamp_forward forward, sealed, aad).
