(* ===== verification/ForwardFrames.v ===== *)
(** * What a LayerForward frame carries: round trip, no panic, authentication

    Theorems on [ForwardCodec].  A forward is sent as a fixed header and up to
    eighteen optional trailers whose markers strictly increase; each trailer's
    writer emits nothing or bytes that start with its own marker, so a reader
    that finds a larger marker knows its trailer is absent ([rest_above]). *)
From S2P Require Import Prelude Bytes Utf8 ForwardTypes ForwardCodec.

#[global] Arguments le_bytes : simpl never.
#[global] Arguments le_at : simpl never.
#[global] Arguments idx : simpl never.
#[global] Arguments slice : simpl never.
#[global] Arguments read_les : simpl never.
#[global] Arguments read_chunks : simpl never.

(** ** What a forward's fields are in Rust, and the wire's own limits *)

Definition is_key (k : bytes) : Prop := length k = 32%nat /\ is_bytes k.
Definition is_span (s : PromptSpan) : Prop := is_u32 (span_start s) /\ is_u32 (span_end s).
Definition is_hop (h : ChainHop) : Prop :=
  is_key (hop_node_id h) /\ is_u32 (fst (hop_layer_range h)) /\ is_u32 (snd (hop_layer_range h)).
Definition is_branch (b : StreamBranch) : Prop :=
  match b with
  | Spare of_ kept token => is_u32 of_ /\ is_u32 kept /\ is_u32 token
  | AfterSpare spare => is_u32 spare
  end.
Definition opt {A} (P : A -> Prop) (o : option A) : Prop :=
  match o with Some a => P a | None => True end.

Record typed_sampling (s : SamplingParams) : Prop := {
  ty_temperature : is_u32 (sm_temperature s);
  ty_top_p : is_u32 (sm_top_p s);
  ty_top_k : is_u32 (sm_top_k s);
  ty_frequency : is_u32 (sm_frequency_penalty s);
  ty_presence : is_u32 (sm_presence_penalty s);
  ty_top_logprobs : is_u32 (sm_top_logprobs s) }.

(** Each field has its Rust type (bytes are bytes, a u32 fits 32 bits). *)
Record typed_forward (f : LayerForward) : Prop := {
  ty_request_id : length (lf_request_id f) = 16%nat /\ is_bytes (lf_request_id f);
  ty_sequence_num : is_u32 (lf_sequence_num f);
  ty_index_pos : is_u32 (lf_index_pos f);
  ty_activations : is_bytes (lf_activations f);
  ty_model_id : is_bytes (lf_model_id f) /\ from_utf8 (lf_model_id f) = true;
  ty_layer_range : is_u32 (fst (lf_layer_range f)) /\ is_u32 (snd (lf_layer_range f));
  ty_tp_meta : opt (fun tp => is_u8 (tp_rank tp) /\ is_u8 (tp_size tp) /\ is_u32 (single_layer tp))
                   (lf_tp_meta f);
  ty_chain : Forall is_hop (lf_chain f);
  ty_requester : opt is_key (lf_requester_node_id f);
  ty_generated_ids : Forall is_u32 (lf_generated_ids f);
  ty_sampling : opt typed_sampling (lf_sampling f);
  ty_draft_tokens : Forall is_u32 (lf_draft_tokens f);
  ty_coupling : opt is_u64 (lf_coupling_seed f);
  ty_stream_seq : opt is_u32 (lf_stream_seq f);
  ty_truncate : opt is_u32 (lf_truncate_kv_to f);
  ty_prompt_cache : opt (fun h => is_u32 (block_tokens h) /\ is_u32 (resume_at h) /\
                                  Forall is_key (keys h)) (lf_prompt_cache f);
  ty_chunk : opt (fun c => is_u32 (chunk_idx c) /\ is_u32 (total_chunks c)) (lf_chunk_meta f);
  ty_prompt_span : opt is_span (lf_prompt_span f);
  ty_image_spans : Forall is_span (lf_image_spans f);
  ty_draft_parents : Forall is_u16 (lf_draft_parents f);
  ty_draft_tree_from : opt is_u32 (lf_draft_tree_from f);
  ty_lookahead : opt is_u32 (lf_stream_lookahead f);
  ty_branch : opt is_branch (lf_stream_branch f) }.

(** The sizes and self-consistency the receiver insists on. *)
Record within_limits (f : LayerForward) : Prop := {
  lim_model_id : blen (lf_model_id f) <= u16_max;
  lim_drafts : blen (lf_draft_tokens f) <= MAX_DRAFT_TOKENS;
  lim_chunk : opt (fun c => chunk_idx c < total_chunks c) (lf_chunk_meta f);
  lim_chain : (length (lf_chain f) <= 255)%nat /\
              Forall (fun h => fst (hop_layer_range h) < snd (hop_layer_range h)) (lf_chain f);
  lim_generated : blen (lf_generated_ids f) <= u16_max;
  lim_cache : opt (fun h => blen (keys h) <= MAX_KEYS) (lf_prompt_cache f);
  lim_images : blen (lf_image_spans f) <= MAX_IMAGE_SPANS;
  lim_tree : blen (lf_draft_parents f) <= MAX_TREE_ROWS }.

(** ** What the receiver is told *)

(** The sampling fields the 0x0A trailer carries; the rest are the defaults. *)
Definition sent_sampling (s : SamplingParams) : SamplingParams := {|
  sm_temperature := sm_temperature s; sm_top_p := sm_top_p s; sm_top_k := sm_top_k s;
  sm_max_tokens := DEFAULT_REPLY_BUDGET; sm_max_tokens_explicit := false; sm_stop := [];
  sm_frequency_penalty := sm_frequency_penalty s; sm_presence_penalty := sm_presence_penalty s;
  sm_logprobs := sm_logprobs s; sm_top_logprobs := Z.min (sm_top_logprobs s) u8_max;
  sm_reply_grammar := None |}.

Definition header_of (f : LayerForward) : Header := {|
  h_request_id := lf_request_id f; h_sequence_num := lf_sequence_num f;
  h_index_pos := lf_index_pos f; h_format := lf_format f;
  h_layer_range := lf_layer_range f; h_model_id := lf_model_id f |}.

Definition trailers_of (f : LayerForward) : Trailers := {|
  t_tp_meta := lf_tp_meta f;
  t_tp_pre_embedded := match lf_tp_meta f with Some _ => lf_pre_embedded f | None => false end;
  t_draft_tokens := lf_draft_tokens f; t_spec_logits := lf_spec_logits_requested f;
  t_spec_walk := has_spec_trailer f && lf_spec_walk_at_tail f;
  t_truncate_kv_to := lf_truncate_kv_to f; t_chunk_meta := lf_chunk_meta f;
  t_chain := lf_chain f; t_requester := lf_requester_node_id f;
  t_generated_ids := lf_generated_ids f;
  t_pre_embedded := match lf_tp_meta f with Some _ => false | None => lf_pre_embedded f end;
  t_sampling := option_map sent_sampling (lf_sampling f);
  t_coupling_seed := lf_coupling_seed f; t_stream_seq := lf_stream_seq f;
  t_prompt_cache := lf_prompt_cache f; t_prompt_span := lf_prompt_span f;
  t_image_spans := lf_image_spans f; t_draft_parents := lf_draft_parents f;
  t_draft_tree_from := match lf_draft_parents f with [] => None | _ => lf_draft_tree_from f end;
  t_stream_lookahead := lf_stream_lookahead f; t_stream_branch := lf_stream_branch f |}.

(** The forward as a receiver of an untouched frame sees it: vision embeddings,
    the sender's peer bytes and the adapter do not travel, sampling is the sent
    part clamped to the API's limits. *)
Definition received (f : LayerForward) : LayerForward :=
  assemble (header_of f) (lf_activations f) (trailers_of f)
    (option_map clamp_peer_sampling (option_map sent_sampling (lf_sampling f))).

(** ** Reading past a trailer that is absent, and reading one that is there *)

Definition rest_above (k : Z) (d : bytes) : Prop :=
  match d with [] => True | b :: _ => k < b end.

Lemma at_marker_above d need k : 0 < need -> rest_above k d -> at_marker d need k = Ok false.
Proof.
  intros Hn H. unfold at_marker. destruct (Z.ltb_spec (blen d) need); [done |].
  destruct d as [|b d]; [unfold blen in *; cbn in *; lia |].
  change (idx (b :: d) 0) with (Ok b : outcome Z). cbn in H |- *. f_equal. lia.
Qed.

Lemma rest_above_le j k d : j <= k -> rest_above k d -> rest_above j d.
Proof. destruct d; cbn; [done | lia]. Qed.

Lemma at_marker_here b d need : need <= blen (b :: d) -> at_marker (b :: d) need b = Ok true.
Proof. intros. rewrite at_marker_cons by done. by rewrite Z.eqb_refl. Qed.

Lemma idx_cons_0 b d : idx (b :: d) 0 = Ok b.
Proof. done. Qed.
Lemma idx_cons_S b d i : idx (b :: d) (S i) = idx d i.
Proof. done. Qed.
Lemma idx_skip4 z d i : idx (le_bytes 4 z ++ d) (S (S (S (S i)))) = idx d i.
Proof. done. Qed.
Lemma le_at_skip4 w z d i : le_at w (le_bytes 4 z ++ d) (S (S (S (S i)))) = le_at w d i.
Proof. apply (le_at_skip w (le_bytes 4 z)). Qed.
Lemma le_at_skip2 w z d i : le_at w (le_bytes 2 z ++ d) (S (S i)) = le_at w d i.
Proof. apply (le_at_skip w (le_bytes 2 z)). Qed.
Lemma drop_cons_S (b : Z) d i : drop (S i) (b :: d) = drop i d.
Proof. done. Qed.
Lemma drop_skip2 z d i : drop (S (S i)) (le_bytes 2 z ++ d) = drop i d.
Proof. done. Qed.
Lemma drop_skip4 z d i : drop (S (S (S (S i)))) (le_bytes 4 z ++ d) = drop i d.
Proof. done. Qed.
Lemma drop_skip8 z d i : drop (S (S (S (S (S (S (S (S i)))))))) (le_bytes 8 z ++ d) = drop i d.
Proof. done. Qed.

Lemma blen_le_bytes n z : blen (le_bytes n z) = Z.of_nat n.
Proof. unfold blen. by rewrite length_le_bytes. Qed.

Create Rewrite HintDb blen.
#[export] Hint Rewrite @blen_app @blen_cons blen_le_bytes : blen.

(** Arithmetic on the length of a frame written out. *)
Ltac blens := autorewrite with blen; repeat match goal with
  | |- context [@blen Z ?d] => lazymatch goal with
      | _ : 0 <= @blen Z d |- _ => fail
      | _ => pose proof (@blen_nonneg Z d) end
  end; try ints.

(** Run a reader down a frame that is written out. *)
Ltac rd := repeat first
  [ rewrite idx_cons_0 | rewrite idx_cons_S | rewrite idx_skip4
  | rewrite le_at_cons | rewrite le_at_skip4 | rewrite le_at_skip2
  | rewrite le_at_head by (change (256 ^ Z.of_nat 4) with 4294967296;
      change (256 ^ Z.of_nat 2) with 65536; change (256 ^ Z.of_nat 8) with 18446744073709551616; ints)
  | rewrite drop_cons_S | rewrite drop_skip2 | rewrite drop_skip4 | rewrite drop_skip8 | rewrite drop_0
  | progress cbn [mbind outcome_bind] ].

(** Enter a trailer that is there. *)
Ltac here := rewrite <-?app_assoc; cbn [app]; rewrite <-?app_assoc; rewrite at_marker_here by (blens; ints); cbn [mbind outcome_bind].
(** Pass a trailer that is absent. *)
Ltac absent H := rewrite at_marker_above by (first [done | exact H]); done.


(** ** Each trailer: its reader undoes its writer *)

Lemma read_tp_written f rest :
  typed_forward f -> rest_above 0x02 rest ->
  read_tp_trailer (append_tp_trailer [] f ++ rest) =
  Ok (lf_tp_meta f, t_tp_pre_embedded (trailers_of f), rest).
Proof.
  intros Hf Hr. apply ty_tp_meta in Hf. unfold read_tp_trailer, append_tp_trailer.
  cbn [trailers_of t_tp_pre_embedded].
  destruct (lf_tp_meta f) as [[r s l p]|]; cbn in Hf |- *; [|absent Hr].
  destruct Hf as (? & ? & ?). here. rd. by destruct p, (lf_pre_embedded f).
Qed.

Lemma read_spec_written f rest :
  typed_forward f -> within_limits f -> rest_above 0x03 rest ->
  read_spec_trailer (aad_spec_trailer [] f ++ rest) =
  Ok (lf_draft_tokens f, lf_spec_logits_requested f, t_spec_walk (trailers_of f), rest).
Proof.
  intros Hf Hl Hr. pose proof (ty_draft_tokens f Hf) as Ht. pose proof (lim_drafts f Hl) as Hm.
  unfold read_spec_trailer, aad_spec_trailer. cbn [trailers_of t_spec_walk].
  destruct (has_spec_trailer f) eqn:Hs; cbn [andb].
  2:{ unfold has_spec_trailer in Hs. zsimp. case_bool_decide; [|done].
      cbn [app]. rewrite at_marker_above by (done || exact Hr). cbn. congruence. }
  unfold MAX_DRAFT_TOKENS, MAX_TREE_ROWS in *.
  pose proof (blen_nonneg (lf_draft_tokens f)).
  rewrite Z.min_l by ints. here. rd.
  destruct (Z.ltb_spec 512 (blen (lf_draft_tokens f))); [lia |].
  rewrite blen_app. unfold blen at 1. rewrite length_concat_le_bytes.
  destruct (Z.ltb_spec (Z.of_nat (length (lf_draft_tokens f) * 4) + blen rest)
    (blen (lf_draft_tokens f) * 4)) as [Hlt|_]; [pose proof (blen_nonneg rest); unfold blen in *; lia |].
  unfold blen. rewrite Nat2Z.id, read_les_encode. 2:{ revert Ht. apply Forall_impl. intros; ints. }
  cbn [mbind outcome_bind]. rewrite drop_app_length'.
  2:{ rewrite length_concat_le_bytes. lia. }
  unfold spec_trailer_flags. by destruct (lf_spec_logits_requested f), (lf_spec_walk_at_tail f).
Qed.

Lemma read_kv_written f rest :
  typed_forward f -> rest_above 0x04 rest ->
  read_kv_trailer (append_kv_trailer [] f ++ rest) = Ok (lf_truncate_kv_to f, rest).
Proof.
  intros Hf Hr. apply ty_truncate in Hf. unfold read_kv_trailer, append_kv_trailer.
  destruct (lf_truncate_kv_to f); cbn in Hf |- *; [here; rd; done | absent Hr].
Qed.

Lemma read_chunk_written f rest :
  typed_forward f -> within_limits f -> rest_above 0x05 rest ->
  read_chunk_trailer (append_chunk_trailer [] f ++ rest) = Ok (lf_chunk_meta f, rest).
Proof.
  intros Hf Hl Hr. apply ty_chunk in Hf. apply lim_chunk in Hl.
  unfold read_chunk_trailer, append_chunk_trailer.
  destruct (lf_chunk_meta f) as [[i t]|]; cbn in Hf, Hl |- *; [|absent Hr].
  destruct Hf. here. rd. destruct (Z.eqb_spec t 0), (Z.leb_spec t i); try ints. done.
Qed.

(** [append_chain_trailers] writes two trailers: the hops and the reply-to. *)
Definition chain_part (f : LayerForward) : bytes :=
  match lf_chain f with
  | [] => []
  | _ =>
      let n := Nat.min (length (lf_chain f)) 255 in
      [0x06; Z.of_nat n] ++ concat (map hop_bytes (take n (lf_chain f)))
  end.
Definition reply_part (f : LayerForward) : bytes :=
  match lf_requester_node_id f with None => [] | Some id => [0x07] ++ id end.

Lemma append_chain_parts buf f : append_chain_trailers buf f = buf ++ chain_part f ++ reply_part f.
Proof.
  unfold append_chain_trailers, chain_part, reply_part.
  destruct (lf_chain f), (lf_requester_node_id f); by rewrite ?app_nil_r, <-?app_assoc, ?app_nil_r.
Qed.

Lemma hop_bytes_length h : is_hop h -> length (hop_bytes h) = 40%nat.
Proof. intros [[H _] _]. unfold hop_bytes. rewrite !length_app, !length_le_bytes. lia. Qed.

Lemma hop_reads h d : is_hop h ->
  slice (hop_bytes h ++ d) 0 32 = Ok (hop_node_id h) /\
  u32_at (hop_bytes h ++ d) 32 = Ok (fst (hop_layer_range h)) /\
  u32_at (hop_bytes h ++ d) 36 = Ok (snd (hop_layer_range h)).
Proof.
  intros ([Hid _] & ? & ?). unfold hop_bytes. rewrite <- !app_assoc. split_and!.
  - by apply slice_prefix'.
  - replace 32%nat with (length (hop_node_id h) + 0)%nat by lia. rewrite le_at_skip. by rd.
  - replace 36%nat with (length (hop_node_id h) + 4)%nat by lia. rewrite le_at_skip. by rd.
Qed.

Lemma read_hops_written hops rest :
  Forall is_hop hops -> Forall (fun h => fst (hop_layer_range h) < snd (hop_layer_range h)) hops ->
  read_hops (length hops) (concat (map hop_bytes hops) ++ rest) = Ok (Some hops).
Proof.
  induction 1 as [|h hops Hh _ IH]; intros Hlt; [done |].
  apply Forall_cons_1 in Hlt as [Hs Hlt]. cbn [length concat map read_hops].
  rewrite <- app_assoc. destruct (hop_reads h (concat (map hop_bytes hops) ++ rest) Hh) as (-> & -> & ->).
  cbn [mbind outcome_bind]. destruct (Z.leb_spec (snd (hop_layer_range h)) (fst (hop_layer_range h))); [lia |].
  rewrite drop_app_length' by (by rewrite hop_bytes_length). rewrite IH by done. by destruct h as [? []].
Qed.

Lemma length_concat_hops hops :
  Forall is_hop hops -> length (concat (map hop_bytes hops)) = (length hops * 40)%nat.
Proof.
  induction 1 as [|h hops Hh _ IH]; [done |]. cbn [map concat length].
  rewrite length_app, (hop_bytes_length h Hh), IH. lia.
Qed.

Lemma read_chain_written f rest :
  typed_forward f -> within_limits f -> rest_above 0x06 rest ->
  read_chain_trailer (chain_part f ++ rest) = Ok (lf_chain f, rest).
Proof.
  intros Hf Hl Hr. apply ty_chain in Hf. apply lim_chain in Hl as [Hn Hlt].
  unfold read_chain_trailer, chain_part. destruct (lf_chain f) as [|h t]; [absent Hr |].
  remember (h :: t) as hops eqn:E. assert (0 < length hops)%nat by (subst; cbn; lia). clear E.
  rewrite Nat.min_l, firstn_all by lia. here. rd.
  pose proof (length_concat_hops hops Hf) as Hlen. pose proof (blen_nonneg rest).
  rewrite Nat2Z.id.
  match goal with |- context [?a || ?b] => replace (a || b) with false end.
  2:{ rewrite !blen_cons, blen_app. unfold blen in *. rewrite Hlen. lia. }
  rewrite read_hops_written by done. cbn [mbind outcome_bind].
  replace (Z.to_nat (2 + Z.of_nat (length hops) * 40)) with (S (S (length hops * 40))) by lia.
  rd. by rewrite drop_app_length' by done.
Qed.

Lemma read_reply_written f rest :
  typed_forward f -> rest_above 0x07 rest ->
  read_reply_to_trailer (reply_part f ++ rest) = Ok (lf_requester_node_id f, rest).
Proof.
  intros Hf Hr. apply ty_requester in Hf. unfold read_reply_to_trailer, reply_part.
  destruct (lf_requester_node_id f) as [id|]; cbn in Hf |- *; [|absent Hr]. destruct Hf as [Hid _].
  rewrite at_marker_here; [|blens; unfold blen; lia]. cbn [mbind outcome_bind].
  rewrite (slice_skip [7] (id ++ rest) 0 32 : slice (7 :: id ++ rest) 1 32 = _).
  rewrite slice_prefix' by done. cbn [mbind outcome_bind].
  rd. by rewrite drop_app_length' by done.
Qed.

(** A counted list of little-endian integers: the arithmetic of its frame. *)
Lemma counted_written w k n xs rest :
  n = length xs -> Forall (fun x => 0 <= x < 256 ^ Z.of_nat w) xs ->
  read_les w n (drop 3 (k :: le_bytes 2 (Z.of_nat n) ++ concat (map (le_bytes w) xs) ++ rest)) = Ok xs /\
  drop (3 + n * w) (k :: le_bytes 2 (Z.of_nat n) ++ concat (map (le_bytes w) xs) ++ rest) = rest /\
  3 + Z.of_nat w * Z.of_nat n <= blen (k :: le_bytes 2 (Z.of_nat n) ++ concat (map (le_bytes w) xs) ++ rest).
Proof.
  intros -> Hx. rd. split_and!.
  - by apply read_les_encode.
  - cbn [Nat.add]. rd. rewrite drop_app_length'; [done |]. by rewrite length_concat_le_bytes.
  - autorewrite with blen. unfold blen. rewrite length_concat_le_bytes. lia.
Qed.

Lemma read_generated_written f rest :
  typed_forward f -> within_limits f -> rest_above 0x08 rest ->
  read_generated_ids_trailer (append_generated_ids_trailer [] f ++ rest) = Ok (lf_generated_ids f, rest).
Proof.
  intros Hf Hl Hr. apply ty_generated_ids in Hf. apply lim_generated in Hl.
  unfold read_generated_ids_trailer, append_generated_ids_trailer.
  destruct (lf_generated_ids f) as [|x t]; [absent Hr |].
  remember (x :: t) as xs eqn:E. assert (0 < blen xs) by (subst; unfold blen; cbn; lia). clear E.
  rewrite Z.min_l by done. unfold blen in Hl, H |- *. rewrite Nat2Z.id, firstn_all. here.
  rewrite le_at_cons, le_at_head by (change (256 ^ Z.of_nat 2) with 65536; ints).
  cbn [mbind outcome_bind].
  edestruct (counted_written 4 8 (length xs) xs rest) as (H1 & H2 & H3); [done | revert Hf; apply Forall_impl; intros; ints |].
  match goal with |- context [?a || ?b] => replace (a || b) with false by (unfold blen in *; lia) end.
  rewrite Nat2Z.id. cbn [app] in *. rewrite H1. cbn [mbind outcome_bind].
  replace (Z.to_nat (3 + Z.of_nat (length xs) * 4)) with (3 + length xs * 4)%nat by lia. by rewrite H2.
Qed.

Lemma read_pre_embedded_written f rest :
  rest_above 0x09 rest ->
  read_pre_embedded_trailer (append_pre_embedded_trailer [] f ++ rest) =
  Ok (t_pre_embedded (trailers_of f), rest).
Proof.
  intros Hr. unfold read_pre_embedded_trailer, append_pre_embedded_trailer.
  cbn [trailers_of t_pre_embedded].
  destruct (lf_pre_embedded f), (lf_tp_meta f); cbn [negb orb];
    try (rewrite bool_decide_true by done); try (rewrite bool_decide_false by (by intros []));
    first [absent Hr | here; rd; done].
Qed.

Lemma read_sampling_written f rest :
  typed_forward f -> rest_above 0x0A rest ->
  read_sampling_trailer (append_sampling_trailer [] f ++ rest) =
  Ok (option_map sent_sampling (lf_sampling f), rest).
Proof.
  intros Hf Hr. apply ty_sampling in Hf. unfold read_sampling_trailer, append_sampling_trailer.
  destruct (lf_sampling f) as [s|]; cbn in Hf |- *; [|absent Hr]. destruct Hf.
  unfold SAMPLING_TRAILER_LEN. here. rd. unfold sent_sampling.
  by destruct (sm_logprobs s).
Qed.

Lemma read_coupling_written f rest :
  typed_forward f -> rest_above 0x0B rest ->
  read_coupling_trailer (append_coupling_trailer [] f ++ rest) = Ok (lf_coupling_seed f, rest).
Proof.
  intros Hf Hr. apply ty_coupling in Hf. unfold read_coupling_trailer, append_coupling_trailer.
  destruct (lf_coupling_seed f); cbn in Hf |- *; [unfold COUPLING_TRAILER_LEN; here; rd; done | absent Hr].
Qed.

Lemma read_stream_written f rest :
  typed_forward f -> rest_above 0x0C rest ->
  read_stream_trailer (append_stream_trailer [] f ++ rest) = Ok (lf_stream_seq f, rest).
Proof.
  intros Hf Hr. apply ty_stream_seq in Hf. unfold read_stream_trailer, append_stream_trailer.
  destruct (lf_stream_seq f); cbn in Hf |- *; [unfold STREAM_TRAILER_LEN; here; rd; done | absent Hr].
Qed.

Lemma read_prompt_cache_written f rest :
  typed_forward f -> within_limits f -> rest_above 0x0D rest ->
  read_prompt_cache_trailer (append_prompt_cache_trailer [] f ++ rest) = Ok (lf_prompt_cache f, rest).
Proof.
  intros Hf Hl Hr. apply ty_prompt_cache in Hf. apply lim_cache in Hl.
  unfold read_prompt_cache_trailer, append_prompt_cache_trailer.
  destruct (lf_prompt_cache f) as [[bt ks ra]|]; cbn in Hf, Hl |- *; [|absent Hr].
  destruct Hf as (? & ? & Hk). unfold MAX_KEYS in *. pose proof (blen_nonneg ks). here. rd.
  assert (Forall (fun x => length x = 32%nat) ks) as Hk' by (revert Hk; apply Forall_impl; by intros ? []).
  pose proof (length_concat_chunks 32 ks Hk') as Hlen.
  unfold usize_checked. rewrite (proj2 (Z.leb_le (blen ks * 32) _)) by ints. cbn [mbind option_bind].
  rewrite (proj2 (Z.leb_le (13 + _) _)) by ints.
  match goal with |- context [?a || ?b] => replace (a || b) with false end.
  2:{ autorewrite with blen. pose proof (blen_nonneg rest). unfold blen in *. lia. }
  unfold blen. rewrite Nat2Z.id, read_chunks_encode by done. cbn [mbind outcome_bind].
  replace (Z.to_nat (13 + Z.of_nat (length ks) * 32)) with (13 + length ks * 32)%nat by lia.
  cbn [Nat.add]. rd. by rewrite drop_app_length' by done.
Qed.

Lemma read_prompt_span_written f rest :
  typed_forward f -> rest_above 0x0E rest ->
  read_prompt_span_trailer (append_prompt_span_trailer [] f ++ rest) = Ok (lf_prompt_span f, rest).
Proof.
  intros Hf Hr. apply ty_prompt_span in Hf. unfold read_prompt_span_trailer, append_prompt_span_trailer.
  destruct (lf_prompt_span f) as [[a b]|]; cbn in Hf |- *; [|absent Hr].
  destruct Hf; cbn in *. unfold PROMPT_SPAN_TRAILER_LEN, span_bytes, read_span; cbn. here. rd. done.
Qed.

Lemma read_span_written s d : is_span s -> read_span (span_bytes s ++ d) 0 = Ok s.
Proof.
  intros []. destruct s; cbn in *. unfold read_span, span_bytes; cbn. rewrite <- app_assoc. by rd.
Qed.

Lemma read_spans_written spans rest :
  Forall is_span spans ->
  read_spans (length spans) (concat (map span_bytes spans) ++ rest) = Ok spans.
Proof.
  induction 1 as [|s spans Hs _ IH]; [done |]. cbn [length concat map read_spans].
  rewrite <- app_assoc, read_span_written by done. cbn [mbind outcome_bind].
  rewrite drop_app_length' by (unfold span_bytes; by rewrite length_app, !length_le_bytes).
  by rewrite IH.
Qed.

Lemma length_concat_spans spans : length (concat (map span_bytes spans)) = (length spans * 8)%nat.
Proof.
  induction spans as [|s spans IH]; [done |]. cbn [map concat length]. unfold span_bytes at 1.
  rewrite !length_app, !length_le_bytes, IH. lia.
Qed.

Lemma read_image_spans_written f rest :
  typed_forward f -> within_limits f -> rest_above 0x0F rest ->
  read_image_spans_trailer (append_image_spans_trailer [] f ++ rest) = Ok (lf_image_spans f, rest).
Proof.
  intros Hf Hl Hr. apply ty_image_spans in Hf. apply lim_images in Hl.
  unfold read_image_spans_trailer, append_image_spans_trailer.
  destruct (lf_image_spans f) as [|x t]; [absent Hr |].
  remember (x :: t) as xs eqn:E. clear E.
  unfold MAX_IMAGE_SPANS in *. rewrite Z.min_l by done. pose proof (length_concat_spans xs).
  pose proof (blen_nonneg rest). unfold blen in Hl |- *. rewrite Nat2Z.id, firstn_all. here. rd.
  match goal with |- context [?a || ?b] => replace (a || b) with false end.
  2:{ cbn [length]. rewrite !length_app, length_le_bytes. lia. }
  rewrite Nat2Z.id, read_spans_written by done. cbn [mbind outcome_bind].
  replace (Z.to_nat (3 + 8 * Z.of_nat (length xs))) with (3 + length xs * 8)%nat by lia.
  cbn [Nat.add]. rd. by rewrite drop_app_length' by done.
Qed.

Lemma read_draft_tree_written f rest :
  typed_forward f -> within_limits f -> rest_above 0x10 rest ->
  read_draft_tree_trailer (append_draft_tree_trailer [] f ++ rest) = Ok (lf_draft_parents f, rest).
Proof.
  intros Hf Hl Hr. apply ty_draft_parents in Hf. apply lim_tree in Hl.
  unfold read_draft_tree_trailer, append_draft_tree_trailer, MAX_TREE_ROWS in *.
  destruct (lf_draft_parents f) as [|x t]; [absent Hr |].
  remember (x :: t) as xs eqn:E. assert (0 < blen xs) by (subst; unfold blen; cbn; lia). clear E.
  rewrite Z.min_l by done. unfold blen in Hl, H |- *. rewrite Nat2Z.id, firstn_all. here.
  rewrite le_at_cons, le_at_head by (change (256 ^ Z.of_nat 2) with 65536; ints).
  cbn [mbind outcome_bind].
  edestruct (counted_written 2 16 (length xs) xs rest) as (H1 & H2 & H3);
    [done | revert Hf; apply Forall_impl; intros; ints |]. unfold blen in H3.
  destruct (Z.ltb_spec (Z.of_nat (length
    (16 :: le_bytes 2 (Z.of_nat (length xs)) ++ concat (map (le_bytes 2) xs) ++ rest))) 3); [lia |].
  match goal with |- context [?a || ?b || ?c] => replace (a || b || c) with false by lia end.
  rewrite Nat2Z.id, H1. cbn [mbind outcome_bind].
  replace (Z.to_nat (3 + 2 * Z.of_nat (length xs))) with (3 + length xs * 2)%nat by lia. by rewrite H2.
Qed.

Lemma read_draft_tree_flow_written f rest :
  typed_forward f -> rest_above 0x11 rest ->
  read_draft_tree_flow_trailer (append_draft_tree_flow_trailer [] f ++ rest)
    (negb (bool_decide (lf_draft_parents f = []))) = Ok (t_draft_tree_from (trailers_of f), rest).
Proof.
  intros Hf Hr. apply ty_draft_tree_from in Hf.
  unfold read_draft_tree_flow_trailer, append_draft_tree_flow_trailer, DRAFT_TREE_FLOW_TRAILER_LEN.
  cbn [trailers_of t_draft_tree_from].
  destruct (lf_draft_tree_from f), (lf_draft_parents f); cbn in Hf |- *; try absent Hr.
  here. rewrite (proj2 (Z.ltb_ge _ _)) by (blens; lia). by rd.
Qed.

Lemma read_stream_lookahead_written f rest :
  typed_forward f -> rest_above 0x12 rest ->
  read_stream_lookahead_trailer (append_stream_lookahead_trailer [] f ++ rest) =
  Ok (lf_stream_lookahead f, rest).
Proof.
  intros Hf Hr. apply ty_lookahead in Hf.
  unfold read_stream_lookahead_trailer, append_stream_lookahead_trailer, STREAM_LOOKAHEAD_TRAILER_LEN.
  destruct (lf_stream_lookahead f); cbn in Hf |- *; [|absent Hr].
  here. rewrite (proj2 (Z.ltb_ge _ _)) by (blens; lia). by rd.
Qed.

Lemma read_stream_branch_written f rest :
  typed_forward f -> rest_above 0x13 rest ->
  read_stream_branch_trailer (append_stream_branch_trailer [] f ++ rest) = Ok (lf_stream_branch f, rest).
Proof.
  intros Hf Hr. apply ty_branch in Hf.
  unfold read_stream_branch_trailer, append_stream_branch_trailer, STREAM_SPARE_TRAILER_LEN,
    STREAM_AFTER_SPARE_TRAILER_LEN.
  destruct (lf_stream_branch f) as [[o k t|s]|]; cbn in Hf |- *; [| |absent Hr].
  - destruct Hf as (? & ? & ?). here. rewrite (proj2 (Z.leb_le _ _)) by (blens; lia). cbn [andb Z.eqb]. by rd.
  - here. rewrite (proj2 (Z.leb_le 6 _)) by (blens; lia). cbn [andb Z.eqb]. by rd.
Qed.

(** ** All trailers together *)

(** The bytes after the payload, trailer by trailer. *)
Definition trailer_bytes (f : LayerForward) : bytes :=
  append_tp_trailer [] f ++ aad_spec_trailer [] f ++ append_kv_trailer [] f ++
  append_chunk_trailer [] f ++ chain_part f ++ reply_part f ++
  append_generated_ids_trailer [] f ++ append_pre_embedded_trailer [] f ++
  append_sampling_trailer [] f ++ append_coupling_trailer [] f ++ append_stream_trailer [] f ++
  append_prompt_cache_trailer [] f ++ append_prompt_span_trailer [] f ++
  append_image_spans_trailer [] f ++ append_draft_tree_trailer [] f ++
  append_draft_tree_flow_trailer [] f ++ append_stream_lookahead_trailer [] f ++
  append_stream_branch_trailer [] f ++ [].

(** Every writer appends. *)
Ltac appends := intros; match goal with |- ?h _ _ = _ => unfold h end;
  repeat (case_match || case_if); rewrite ?app_nil_r; done.

Lemma append_tp_app buf f : append_tp_trailer buf f = buf ++ append_tp_trailer [] f.
Proof. appends. Qed.
Lemma aad_spec_app buf f : aad_spec_trailer buf f = buf ++ aad_spec_trailer [] f.
Proof. appends. Qed.
Lemma append_kv_app buf f : append_kv_trailer buf f = buf ++ append_kv_trailer [] f.
Proof. appends. Qed.
Lemma append_chunk_app buf f : append_chunk_trailer buf f = buf ++ append_chunk_trailer [] f.
Proof. appends. Qed.
Lemma append_generated_app buf f :
  append_generated_ids_trailer buf f = buf ++ append_generated_ids_trailer [] f.
Proof. appends. Qed.
Lemma append_pre_embedded_app buf f :
  append_pre_embedded_trailer buf f = buf ++ append_pre_embedded_trailer [] f.
Proof. appends. Qed.
Lemma append_sampling_app buf f : append_sampling_trailer buf f = buf ++ append_sampling_trailer [] f.
Proof. appends. Qed.
Lemma append_coupling_app buf f : append_coupling_trailer buf f = buf ++ append_coupling_trailer [] f.
Proof. appends. Qed.
Lemma append_stream_app buf f : append_stream_trailer buf f = buf ++ append_stream_trailer [] f.
Proof. appends. Qed.
Lemma append_prompt_cache_app buf f :
  append_prompt_cache_trailer buf f = buf ++ append_prompt_cache_trailer [] f.
Proof. appends. Qed.
Lemma append_prompt_span_app buf f :
  append_prompt_span_trailer buf f = buf ++ append_prompt_span_trailer [] f.
Proof. appends. Qed.
Lemma append_image_spans_app buf f :
  append_image_spans_trailer buf f = buf ++ append_image_spans_trailer [] f.
Proof. appends. Qed.
Lemma append_draft_tree_app buf f :
  append_draft_tree_trailer buf f = buf ++ append_draft_tree_trailer [] f.
Proof. appends. Qed.
Lemma append_draft_tree_flow_app buf f :
  append_draft_tree_flow_trailer buf f = buf ++ append_draft_tree_flow_trailer [] f.
Proof. appends. Qed.
Lemma append_lookahead_app buf f :
  append_stream_lookahead_trailer buf f = buf ++ append_stream_lookahead_trailer [] f.
Proof. appends. Qed.
Lemma append_branch_app buf f :
  append_stream_branch_trailer buf f = buf ++ append_stream_branch_trailer [] f.
Proof. appends. Qed.

Lemma append_all_trailers buf f :
  append_late_trailers (append_chunk_trailer (append_kv_trailer
    (aad_spec_trailer (append_tp_trailer buf f) f) f) f) f = buf ++ trailer_bytes f.
Proof.
  unfold append_late_trailers, trailer_bytes.
  rewrite append_branch_app, append_lookahead_app, append_draft_tree_flow_app,
    append_draft_tree_app, append_image_spans_app, append_prompt_span_app, append_prompt_cache_app,
    append_stream_app, append_coupling_app, append_sampling_app, append_pre_embedded_app,
    append_generated_app, append_chain_parts, append_chunk_app, append_kv_app, aad_spec_app,
    append_tp_app, app_nil_r.
  by rewrite <- !app_assoc.
Qed.

Lemma append_spec_within buf f :
  within_limits f -> append_spec_trailer buf f = Ok (aad_spec_trailer buf f).
Proof.
  intros Hl. apply lim_drafts in Hl. unfold MAX_DRAFT_TOKENS, MAX_TREE_ROWS in *.
  unfold append_spec_trailer, aad_spec_trailer. destruct (has_spec_trailer f); [|done].
  rewrite Z.min_l by ints. destruct (Z.ltb_spec u16_max (blen (lf_draft_tokens f))); [ints | done].
Qed.

(** A trailer's bytes are none, or start with its marker. *)
Definition headed (k : Z) (p : bytes) : Prop := match p with [] => True | b :: _ => b = k end.

Lemma rest_above_app j k p rest : headed k p -> j < k -> rest_above k rest -> rest_above j (p ++ rest).
Proof. destruct p; cbn; [intros _ ?; apply rest_above_le; lia | by intros -> ? _]. Qed.

(** What follows a trailer is above it. *)
Ltac above := repeat first [done | eapply rest_above_app; [eassumption | lia |]].

Lemma headed_pieces f :
  headed 0x03 (aad_spec_trailer [] f) /\ headed 0x04 (append_kv_trailer [] f) /\
  headed 0x05 (append_chunk_trailer [] f) /\ headed 0x06 (chain_part f) /\
  headed 0x07 (reply_part f) /\ headed 0x08 (append_generated_ids_trailer [] f) /\
  headed 0x09 (append_pre_embedded_trailer [] f) /\ headed 0x0A (append_sampling_trailer [] f) /\
  headed 0x0B (append_coupling_trailer [] f) /\ headed 0x0C (append_stream_trailer [] f) /\
  headed 0x0D (append_prompt_cache_trailer [] f) /\ headed 0x0E (append_prompt_span_trailer [] f) /\
  headed 0x0F (append_image_spans_trailer [] f) /\ headed 0x10 (append_draft_tree_trailer [] f) /\
  headed 0x11 (append_draft_tree_flow_trailer [] f) /\
  headed 0x12 (append_stream_lookahead_trailer [] f) /\
  headed 0x13 (append_stream_branch_trailer [] f).
Proof.
  unfold aad_spec_trailer, append_kv_trailer, append_chunk_trailer, chain_part, reply_part,
    append_generated_ids_trailer, append_pre_embedded_trailer, append_sampling_trailer,
    append_coupling_trailer, append_stream_trailer, append_prompt_cache_trailer,
    append_prompt_span_trailer, append_image_spans_trailer, append_draft_tree_trailer,
    append_draft_tree_flow_trailer, append_stream_lookahead_trailer, append_stream_branch_trailer.
  split_and!; repeat (case_match || case_if); done.
Qed.

Lemma read_trailers_written f :
  typed_forward f -> within_limits f -> read_trailers (trailer_bytes f) = Ok (trailers_of f).
Proof.
  intros Hf Hl. unfold read_trailers, trailer_bytes.
  destruct (headed_pieces f) as (?&?&?&?&?&?&?&?&?&?&?&?&?&?&?&?&?).
  rewrite read_tp_written; [|done|above]; cbn [mbind outcome_bind].
  rewrite read_spec_written; [|done|done|above]; cbn [mbind outcome_bind].
  rewrite read_kv_written; [|done|above]; cbn [mbind outcome_bind].
  rewrite read_chunk_written; [|done|done|above]; cbn [mbind outcome_bind].
  rewrite read_chain_written; [|done|done|above]; cbn [mbind outcome_bind].
  rewrite read_reply_written; [|done|above]; cbn [mbind outcome_bind].
  rewrite read_generated_written; [|done|done|above]; cbn [mbind outcome_bind].
  rewrite read_pre_embedded_written; [|above]. cbn [mbind outcome_bind].
  rewrite read_sampling_written; [|done|above]; cbn [mbind outcome_bind].
  rewrite read_coupling_written; [|done|above]; cbn [mbind outcome_bind].
  rewrite read_stream_written; [|done|above]; cbn [mbind outcome_bind].
  rewrite read_prompt_cache_written; [|done|done|above]; cbn [mbind outcome_bind].
  rewrite read_prompt_span_written; [|done|above]; cbn [mbind outcome_bind].
  rewrite read_image_spans_written; [|done|done|above]; cbn [mbind outcome_bind].
  rewrite read_draft_tree_written; [|done|done|above]; cbn [mbind outcome_bind].
  rewrite read_draft_tree_flow_written; [|done|above]; cbn [mbind outcome_bind].
  rewrite read_stream_lookahead_written; [|done|above]; cbn [mbind outcome_bind].
  rewrite read_stream_branch_written by done. done.
Qed.

(** ** The two frames *)

Lemma idx_skip a d i : idx (a ++ d) (length a + i) = idx d i.
Proof. unfold idx. by rewrite lookup_app_r, Nat.add_comm, Nat.add_sub by lia. Qed.

Lemma format_tag_roundtrip t : format_of_tag (format_tag t) = Ok t.
Proof. by destruct t. Qed.

(** The 25 bytes both frames and the AAD open with. *)
Definition head_bytes (f : LayerForward) (d : bytes) : bytes :=
  lf_request_id f ++ le_bytes 4 (lf_sequence_num f) ++ le_bytes 4 (lf_index_pos f)
    ++ format_tag (lf_format f) :: d.

Lemma head_reads f d : typed_forward f ->
  slice (head_bytes f d) 0 16 = Ok (lf_request_id f) /\
  u32_at (head_bytes f d) 16 = Ok (lf_sequence_num f) /\
  u32_at (head_bytes f d) 20 = Ok (lf_index_pos f) /\
  idx (head_bytes f d) 24 = Ok (format_tag (lf_format f)).
Proof.
  intros Hf. pose proof (ty_sequence_num f Hf). pose proof (ty_index_pos f Hf).
  apply ty_request_id in Hf as [Hid _]. unfold head_bytes. split_and!.
  - by apply slice_prefix'.
  - change 16%nat with (16 + 0)%nat. rewrite <- Hid, le_at_skip. by rd.
  - change 20%nat with (16 + 4)%nat. rewrite <- Hid, le_at_skip. by rd.
  - change 24%nat with (16 + 8)%nat. rewrite <- Hid, idx_skip. by rd.
Qed.

Lemma head_drop f d i : typed_forward f -> drop (25 + i) (head_bytes f d) = drop i d.
Proof.
  intros Hf. apply ty_request_id in Hf as [Hid _]. unfold head_bytes.
  change (25 + i)%nat with (16 + (9 + i))%nat. rewrite <- Hid, drop_app_add'; [|done]. cbn [Nat.add]. by rd.
Qed.

Lemma head_le_at f d w i : typed_forward f -> le_at w (head_bytes f d) (25 + i) = le_at w d i.
Proof.
  intros Hf. apply ty_request_id in Hf as [Hid _]. unfold head_bytes.
  change (25 + i)%nat with (16 + (9 + i))%nat. rewrite <- Hid, le_at_skip. cbn [Nat.add]. by rd.
Qed.

Lemma head_slice f d i n : typed_forward f -> slice (head_bytes f d) (25 + i) n = slice d i n.
Proof.
  intros Hf. apply ty_request_id in Hf as [Hid _]. unfold head_bytes.
  change (25 + i)%nat with (16 + (9 + i))%nat. rewrite <- Hid, slice_skip.
  rewrite !app_assoc, <- (slice_skip ((le_bytes 4 (lf_sequence_num f) ++ le_bytes 4 (lf_index_pos f))
    ++ [format_tag (lf_format f)]) d i n).
  rewrite <- !app_assoc. cbn [app]. f_equal.
Qed.

Lemma head_blen f d : typed_forward f -> blen (head_bytes f d) = 25 + blen d.
Proof.
  intros Hf. apply ty_request_id in Hf as [Hid _]. unfold head_bytes.
  autorewrite with blen. unfold blen at 1. rewrite Hid. lia.
Qed.

Lemma slice_skip4 z d i n : slice (le_bytes 4 z ++ d) (4 + i) n = slice d i n.
Proof. apply (slice_skip (le_bytes 4 z)). Qed.

Lemma encode_frame f :
  typed_forward f -> within_limits f -> blen (lf_activations f) <= MAX_ACTIVATION_SIZE ->
  encode_layer_forward f = Ok (TENSOR_TAG_FORWARD :: head_bytes f
    (le_bytes 4 (blen (lf_activations f)) ++ lf_activations f ++
     0x01 :: le_bytes 4 (fst (lf_layer_range f)) ++ le_bytes 4 (snd (lf_layer_range f)) ++
     le_bytes 2 (blen (lf_model_id f)) ++ lf_model_id f ++ trailer_bytes f)).
Proof.
  intros Hf Hl Ha. unfold encode_layer_forward, MAX_ACTIVATION_SIZE in *.
  rewrite (proj2 (Z.ltb_ge u16_max _)) by apply (lim_model_id f Hl).
  rewrite (proj2 (Z.ltb_ge u32_max _)) by ints.
  rewrite append_spec_within by done. cbn [mbind outcome_bind].
  rewrite append_all_trailers. unfold head_bytes. rewrite <- !app_assoc. cbn [app]. by rewrite <- ?app_assoc.
Qed.

Lemma encode_sealed_frame f sealed :
  within_limits f ->
  encode_layer_forward_encrypted f sealed = Ok (TENSOR_TAG_ENCRYPTED :: head_bytes f
    (le_bytes 4 (fst (lf_layer_range f)) ++ le_bytes 4 (snd (lf_layer_range f)) ++
     le_bytes 2 (blen (lf_model_id f)) ++ lf_model_id f ++
     le_bytes 4 (blen sealed) ++ sealed ++ trailer_bytes f)).
Proof.
  intros Hl. unfold encode_layer_forward_encrypted.
  rewrite (proj2 (Z.ltb_ge u16_max _)) by apply (lim_model_id f Hl).
  rewrite append_spec_within by done. cbn [mbind outcome_bind].
  rewrite append_all_trailers. unfold head_bytes. rewrite <- !app_assoc. cbn [app]. by rewrite <- ?app_assoc.
Qed.

Lemma aad_frame f :
  build_layer_forward_aad f = head_bytes f
    (le_bytes 4 (fst (lf_layer_range f)) ++ le_bytes 4 (snd (lf_layer_range f)) ++
     le_bytes 2 (blen (lf_model_id f)) ++ lf_model_id f ++ trailer_bytes f).
Proof.
  unfold build_layer_forward_aad. rewrite append_all_trailers. unfold head_bytes.
  rewrite <- !app_assoc. cbn [app]. by rewrite <- ?app_assoc.
Qed.

(** The required trailer: layer range and model id. *)
Definition range_bytes (f : LayerForward) (d : bytes) : bytes :=
  le_bytes 4 (fst (lf_layer_range f)) ++ le_bytes 4 (snd (lf_layer_range f)) ++
  le_bytes 2 (blen (lf_model_id f)) ++ lf_model_id f ++ d.

Lemma range_reads f d : typed_forward f -> within_limits f ->
  u32_at (range_bytes f d) 0 = Ok (fst (lf_layer_range f)) /\
  u32_at (range_bytes f d) 4 = Ok (snd (lf_layer_range f)) /\
  u16_at (range_bytes f d) 8 = Ok (blen (lf_model_id f)) /\
  slice (range_bytes f d) 10 (Z.to_nat (blen (lf_model_id f))) = Ok (lf_model_id f) /\
  drop (10 + Z.to_nat (blen (lf_model_id f))) (range_bytes f d) = d /\
  blen (range_bytes f d) = 10 + blen (lf_model_id f) + blen d.
Proof.
  intros Hf Hl. apply ty_layer_range in Hf as [? ?]. apply lim_model_id in Hl.
  pose proof (blen_nonneg (lf_model_id f)). unfold range_bytes. split_and!; try (by rd).
  - unfold blen. rewrite Nat2Z.id. etrans; [apply (slice_skip (le_bytes 4 _))|].
    etrans; [apply (slice_skip (le_bytes 4 _))|]. etrans; [apply (slice_skip (le_bytes 2 _))|].
    apply slice_prefix.
  - cbn [Nat.add]. rd. apply drop_app_length'. unfold blen. lia.
  - autorewrite with blen. lia.
Qed.

Lemma decode_frame f :
  typed_forward f -> within_limits f -> blen (lf_activations f) <= MAX_ACTIVATION_SIZE ->
  (encode_layer_forward f ≫= decode_layer_forward) = Ok (received f).
Proof.
  intros Hf Hl Ha. rewrite encode_frame by done. cbn [mbind outcome_bind].
  fold (range_bytes f (trailer_bytes f)).
  set (tail := range_bytes f (trailer_bytes f)). set (a := lf_activations f) in *.
  unfold decode_layer_forward, strip_tag. rewrite Z.eqb_refl.
  set (d := head_bytes f _). pose proof (blen_nonneg a) as Hna. pose proof (blen_nonneg tail) as Hnt.
  assert (blen d = 30 + blen a + blen tail) as Hd.
  { unfold d. rewrite head_blen by done. autorewrite with blen. lia. }
  destruct (head_reads f (le_bytes 4 (blen a) ++ a ++ 1 :: tail) Hf) as (R1 & R2 & R3 & R4).
  fold d in R1, R2, R3, R4.
  rewrite (proj2 (Z.ltb_ge (blen d) 29)), R1, R2, R3, R4 by lia. cbn [mbind outcome_bind].
  rewrite format_tag_roundtrip. cbn [mbind outcome_bind].
  rewrite (head_le_at f _ 4 0 Hf : u32_at d 25 = _). unfold MAX_ACTIVATION_SIZE in *. rd.
  rewrite (proj2 (Z.ltb_ge _ (blen a))), (proj2 (Z.ltb_ge (blen d) _)) by lia.
  rewrite (head_slice f _ 4 _ Hf : slice d 29 _ = _), (slice_skip4 _ _ 0).
  rewrite slice_prefix' by (unfold blen; lia). cbn [mbind outcome_bind].
  change (29 + Z.to_nat (blen a))%nat with (25 + (4 + Z.to_nat (blen a)))%nat.
  unfold d. rewrite head_drop by done. cbn [Nat.add]. rewrite drop_skip4, drop_app_length' by (unfold blen; lia).
  destruct (range_reads f (trailer_bytes f) Hf Hl) as (S1 & S2 & S3 & S4 & S5 & S6).
  fold tail in S1, S2, S3, S4, S5, S6. pose proof (blen_nonneg (lf_model_id f)). pose proof (blen_nonneg (trailer_bytes f)).
  rewrite at_marker_here by (rewrite blen_cons; lia). cbn [mbind outcome_bind negb].
  rewrite !le_at_cons, S1, S2, S3. cbn [mbind outcome_bind].
  rewrite !blen_cons, (proj2 (Z.ltb_ge _ 11)), (proj2 (Z.ltb_ge _ (11 + _))) by lia.
  rewrite (slice_skip [1] tail 10 _ : slice (1 :: tail) 11 _ = _), S4. cbn [mbind outcome_bind].
  rewrite (proj2 (ty_model_id f Hf)). cbn [negb].
  cbn [Nat.add] in S5 |- *. rewrite drop_cons_S, S5, read_trailers_written by done.
  unfold received, header_of. by destruct (lf_layer_range f).
Qed.

Lemma decode_sealed_frame f sealed :
  typed_forward f -> within_limits f -> blen sealed <= u32_max ->
  (encode_layer_forward_encrypted f sealed ≫= decode_layer_forward_encrypted) =
  Ok (clamp_forward (assemble (header_of f) [] (trailers_of f) (t_sampling (trailers_of f))), sealed,
      build_layer_forward_aad (assemble (header_of f) [] (trailers_of f) (t_sampling (trailers_of f)))).
Proof.
  intros Hf Hl Hs. rewrite encode_sealed_frame by done. cbn [mbind outcome_bind].
  set (rest := le_bytes 4 (blen sealed) ++ sealed ++ trailer_bytes f).
  fold (range_bytes f rest). set (tail := range_bytes f rest).
  unfold decode_layer_forward_encrypted, strip_tag. rewrite Z.eqb_refl.
  set (d := head_bytes f tail). pose proof (blen_nonneg sealed). pose proof (blen_nonneg (trailer_bytes f)).
  assert (blen rest = 4 + blen sealed + blen (trailer_bytes f)) as Hr.
  { unfold rest. autorewrite with blen. lia. }
  destruct (range_reads f rest Hf Hl) as (S1 & S2 & S3 & S4 & S5 & S6).
  fold tail in S1, S2, S3, S4, S5, S6. pose proof (blen_nonneg (lf_model_id f)).
  assert (blen d = 25 + blen tail) as Hd by (by apply head_blen).
  destruct (head_reads f tail Hf) as (R1 & R2 & R3 & R4). fold d in R1, R2, R3, R4.
  rewrite (proj2 (Z.ltb_ge (blen d) 35)), R1, R2, R3, R4 by lia. cbn [mbind outcome_bind].
  rewrite format_tag_roundtrip. cbn [mbind outcome_bind].
  rewrite (head_le_at f _ 4 0 Hf : u32_at d 25 = _), (head_le_at f _ 4 4 Hf : u32_at d 29 = _),
    (head_le_at f _ 2 8 Hf : u16_at d 33 = _), S1, S2, S3. cbn [mbind outcome_bind].
  rewrite (proj2 (Z.ltb_ge (blen d) _)) by lia.
  rewrite (head_slice f _ 10 _ Hf : slice d 35 _ = _), S4. cbn [mbind outcome_bind].
  rewrite (proj2 (ty_model_id f Hf)). cbn [negb].
  change (35 + Z.to_nat (blen (lf_model_id f)))%nat with (25 + (10 + Z.to_nat (blen (lf_model_id f))))%nat.
  unfold d. rewrite head_drop, S5 by done.
  assert (u32_at rest 0 = Ok (blen sealed)) as -> by (unfold rest; by rd). cbn [mbind outcome_bind].
  rewrite (proj2 (Z.ltb_ge (blen rest) _)) by lia. unfold rest.
  rewrite (slice_skip4 _ _ 0), slice_prefix' by (unfold blen; lia). cbn [mbind outcome_bind Nat.add].
  rewrite drop_skip4, drop_app_length' by (unfold blen; lia).
  rewrite read_trailers_written by done. unfold header_of. by destruct (lf_layer_range f).
Qed.
