(* ===== verification/ForwardSafety.v ===== *)
(** * The LayerForward decoders on arbitrary bytes

    No input makes a decoder panic, and whatever a decoder accepts is a forward
    within the wire's types and limits.  The bytes are a peer's, so both facts
    are stated for every byte string. *)
From S2P Require Import Prelude Bytes Utf8 ForwardTypes ForwardCodec ForwardFrames.

(** ** No panic *)

(** Discharge the [safe] goals of a reader: markers give the length the later
    reads need. *)
Ltac len := zsimp; unfold MAX_KEYS, MAX_IMAGE_SPANS, MAX_TREE_ROWS, MAX_DRAFT_TOKENS,
  SAMPLING_TRAILER_LEN, COUPLING_TRAILER_LEN, STREAM_TRAILER_LEN, PROMPT_SPAN_TRAILER_LEN,
  DRAFT_TREE_FLOW_TRAILER_LEN, STREAM_LOOKAHEAD_TRAILER_LEN, STREAM_SPARE_TRAILER_LEN,
  STREAM_AFTER_SPARE_TRAILER_LEN in *;
  repeat match goal with |- context [@blen ?A ?d] => lazymatch goal with
    | _ : 0 <= @blen A d |- _ => fail | _ => pose proof (@blen_nonneg A d) end end;
  first [lia | rewrite ?blen_drop by lia; lia].
Ltac safely := repeat first
  [ apply safe_ret | apply safe_fail
  | apply safe_bind;
    [ first [ apply at_marker_safe; len | apply idx_safe; len | apply le_at_safe; len
            | apply slice_safe; len | apply read_les_safe; len | apply read_chunks_safe; len
            | eassumption ]
    | intros ? ? ]
  | match goal with
    | H : at_marker _ _ _ = Ok true |- _ => apply at_marker_true in H as [? ?]
    | |- safe (if ?b then _ else _) => destruct b eqn:?
    | |- safe (match ?b with _ => _ end) => destruct b eqn:?
    end ].

Lemma read_hops_safe n d : Z.of_nat n * 40 <= blen d -> safe (read_hops n d).
Proof.
  revert d. induction n as [|n IH]; intros d H; [done |]. cbn [read_hops]. safely.
  apply safe_bind; [apply IH; len | by intros].
Qed.

Lemma read_span_safe d i : Z.of_nat i + 8 <= blen d -> safe (read_span d i).
Proof. unfold read_span. intros. safely. Qed.

Lemma read_spans_safe n d : Z.of_nat n * 8 <= blen d -> safe (read_spans n d).
Proof.
  revert d. induction n as [|n IH]; intros d H; [done |]. cbn [read_spans].
  apply safe_bind; [apply read_span_safe; lia | intros].
  apply safe_bind; [apply IH; len | by intros].
Qed.

Lemma read_tp_safe d : safe (read_tp_trailer d).
Proof. unfold read_tp_trailer. safely. Qed.
Lemma read_spec_safe d : safe (read_spec_trailer d).
Proof. unfold read_spec_trailer. safely. Qed.
Lemma read_kv_safe d : safe (read_kv_trailer d).
Proof. unfold read_kv_trailer. safely. Qed.
Lemma read_chunk_safe d : safe (read_chunk_trailer d).
Proof. unfold read_chunk_trailer. safely. Qed.
Lemma read_chain_safe d : safe (read_chain_trailer d).
Proof.
  unfold read_chain_trailer. safely.
  apply safe_bind; [apply read_hops_safe; len | intros; safely].
Qed.
Lemma read_reply_to_safe d : safe (read_reply_to_trailer d).
Proof. unfold read_reply_to_trailer. safely. Qed.
Lemma read_generated_ids_safe d : safe (read_generated_ids_trailer d).
Proof. unfold read_generated_ids_trailer. safely. Qed.
Lemma read_pre_embedded_safe d : safe (read_pre_embedded_trailer d).
Proof. unfold read_pre_embedded_trailer. safely. Qed.
Lemma read_sampling_safe d : safe (read_sampling_trailer d).
Proof. unfold read_sampling_trailer. safely. Qed.
Lemma read_coupling_safe d : safe (read_coupling_trailer d).
Proof. unfold read_coupling_trailer. safely. Qed.
Lemma read_stream_safe d : safe (read_stream_trailer d).
Proof. unfold read_stream_trailer. safely. Qed.
Lemma read_prompt_cache_safe d : safe (read_prompt_cache_trailer d).
Proof.
  unfold read_prompt_cache_trailer, usize_checked. safely.
  all: repeat match goal with H : context [if ?b then Some _ else None] |- _ => destruct b; cbn in H; [|done] end.
  simplify_eq. apply safe_bind; [apply read_chunks_safe; len | by intros].
Qed.
Lemma read_prompt_span_safe d : safe (read_prompt_span_trailer d).
Proof. unfold read_prompt_span_trailer, read_span. safely. apply safe_bind; [safely | by intros]. Qed.
Lemma read_image_spans_safe d : safe (read_image_spans_trailer d).
Proof.
  unfold read_image_spans_trailer. safely.
  apply safe_bind; [apply read_spans_safe; len | by intros].
Qed.
Lemma read_draft_tree_safe d : safe (read_draft_tree_trailer d).
Proof. unfold read_draft_tree_trailer. safely. Qed.
Lemma read_draft_tree_flow_safe d b : safe (read_draft_tree_flow_trailer d b).
Proof. unfold read_draft_tree_flow_trailer. safely. Qed.
Lemma read_stream_lookahead_safe d : safe (read_stream_lookahead_trailer d).
Proof. unfold read_stream_lookahead_trailer. safely. Qed.
Lemma read_stream_branch_safe d : safe (read_stream_branch_trailer d).
Proof. unfold read_stream_branch_trailer. safely. Qed.

#[export] Hint Resolve read_tp_safe read_spec_safe read_kv_safe read_chunk_safe read_chain_safe
  read_reply_to_safe read_generated_ids_safe read_pre_embedded_safe read_sampling_safe
  read_coupling_safe read_stream_safe read_prompt_cache_safe read_prompt_span_safe
  read_image_spans_safe read_draft_tree_safe read_draft_tree_flow_safe
  read_stream_lookahead_safe read_stream_branch_safe : swarm.

Lemma read_trailers_safe d : safe (read_trailers d).
Proof.
  unfold read_trailers.
  repeat (apply safe_bind; [auto with swarm | intros ? ?; repeat case_match]). done.
Qed.
#[export] Hint Resolve read_trailers_safe : swarm.

Lemma format_of_tag_safe t : safe (format_of_tag t).
Proof. unfold format_of_tag. safely. Qed.
#[export] Hint Resolve format_of_tag_safe : swarm.

Lemma decode_safe data : safe (decode_layer_forward data).
Proof.
  unfold decode_layer_forward. set (d := strip_tag _ _). clearbody d. safely.
  apply safe_bind; [auto with swarm | intros ? ?]. safely.
  apply negb_false_iff in Heqb2. subst a6. apply at_marker_true in H6 as [? _].
  set (d' := drop (29 + Z.to_nat a4) d) in *. clearbody d'. safely.
  apply safe_bind; [auto with swarm | by intros].
Qed.

(** ** What a reader returns is typed and within the limits *)

Lemma idx_range d i z : is_bytes d -> idx d i = Ok z -> is_u8 z.
Proof.
  unfold idx. destruct (d !! i) as [b|] eqn:E; [|done]. intros Hd [= <-].
  pose proof (Forall_lookup_1 _ _ _ _ Hd E) as Hb. unfold is_byte in Hb. ints.
Qed.
Lemma u32_range d i z : is_bytes d -> u32_at d i = Ok z -> is_u32 z.
Proof. intros Hd H. apply le_at_range in H; [|done]. change (256 ^ Z.of_nat 4) with 4294967296 in H. ints. Qed.
Lemma u16_range d i z : is_bytes d -> u16_at d i = Ok z -> is_u16 z.
Proof. intros Hd H. apply le_at_range in H; [|done]. change (256 ^ Z.of_nat 2) with 65536 in H. ints. Qed.
Lemma u64_range d i z : is_bytes d -> u64_at d i = Ok z -> is_u64 z.
Proof.
  intros Hd H. apply le_at_range in H; [|done].
  change (256 ^ Z.of_nat 8) with 18446744073709551616 in H. ints.
Qed.
Lemma read_les_u32 n d xs : is_bytes d -> read_les 4 n d = Ok xs -> blen xs = Z.of_nat n /\ Forall is_u32 xs.
Proof.
  intros Hd [Hn Hx]%read_les_inv; [|done]. split; [unfold blen; lia |]. revert Hx. apply Forall_impl.
  intros x. change (256 ^ Z.of_nat 4) with 4294967296. ints.
Qed.
Lemma read_les_u16 n d xs : is_bytes d -> read_les 2 n d = Ok xs -> blen xs = Z.of_nat n /\ Forall is_u16 xs.
Proof.
  intros Hd [Hn Hx]%read_les_inv; [|done]. split; [unfold blen; lia |]. revert Hx. apply Forall_impl.
  intros x. change (256 ^ Z.of_nat 2) with 65536. ints.
Qed.
Lemma read_keys n d xs : is_bytes d -> read_chunks 32 n d = Ok xs -> blen xs = Z.of_nat n /\ Forall is_key xs.
Proof. intros Hd [Hn Hx]%read_chunks_inv; [|done]. split; [unfold blen; lia | done]. Qed.
Lemma drop_is_bytes n d : is_bytes d -> is_bytes (drop n d).
Proof. apply Forall_drop. Qed.
#[export] Hint Resolve drop_is_bytes : swarm.

Lemma strip_tag_is_bytes tag d : is_bytes d -> is_bytes (strip_tag tag d).
Proof. destruct d; cbn; [done |]. intros H. case_if; [by inversion H | done]. Qed.

Lemma decode_encrypted_safe data : is_bytes data -> safe (decode_layer_forward_encrypted data).
Proof.
  intros Hd%(strip_tag_is_bytes TENSOR_TAG_ENCRYPTED).
  unfold decode_layer_forward_encrypted. set (d := strip_tag _ _) in *. clearbody d. safely.
  apply safe_bind; [auto with swarm | intros ? ?]. safely.
  pose proof (u16_range _ _ _ Hd H6) as Hr.
  assert (4 <= blen (drop (35 + Z.to_nat a6) d)) by (zsimp; rewrite blen_drop; ints).
  set (d' := drop (35 + Z.to_nat a6) d) in *. clearbody d'. safely.
  apply safe_bind; [auto with swarm | by intros].
Qed.

(** Invert a reader's result down to its reads, with the range of each. *)
Ltac ranges Hd := repeat match goal with
  | H : u32_at _ _ = Ok _ |- _ => apply u32_range in H; [|auto using drop_is_bytes]
  | H : u16_at _ _ = Ok _ |- _ => apply u16_range in H; [|auto using drop_is_bytes]
  | H : u64_at _ _ = Ok _ |- _ => apply u64_range in H; [|auto using drop_is_bytes]
  | H : idx _ _ = Ok _ |- _ => apply idx_range in H; [|auto using drop_is_bytes]
  | H : slice _ _ _ = Ok _ |- _ => apply slice_is_bytes in H; [|auto using drop_is_bytes]
  | H : read_chunks 32 _ _ = Ok _ |- _ => apply read_keys in H; [|auto using drop_is_bytes]
  | H : read_les 4 _ _ = Ok _ |- _ => apply read_les_u32 in H; [|auto using drop_is_bytes]
  | H : read_les 2 _ _ = Ok _ |- _ => apply read_les_u16 in H; [|auto using drop_is_bytes]
  end.
Ltac invert H := repeat first
  [ progress cbn beta iota zeta in H
  | match type of H with
    | Ok (match ?b with _ => _ end) = Ok _ => is_var b; destruct b
    | (_ ≫= _) = Ok _ => inv_bind H
    | (if ?b then _ else _) = Ok _ => destruct b eqn:?; [try done|]
    | (match ?b with _ => _ end) = Ok _ => destruct b eqn:?; try done
    | Ok _ = Ok _ => inversion H; subst; clear H
    end ].

(** The usual end of a reader's typing proof. *)
Ltac typed Hd H := invert H; ranges Hd; destruct_and?; cbn; split_and?;
  try (intros; discriminate); auto using drop_is_bytes; try done; try (cbn; ints); try (unfold is_u8, is_u16, is_u32, u8_max, u16_max, u32_max in *; cbn; len).

Definition typed_tp (tp : TensorParallelMeta) : Prop :=
  is_u8 (tp_rank tp) /\ is_u8 (tp_size tp) /\ is_u32 (single_layer tp).
Definition is_chunk (c : ChunkMeta) : Prop :=
  (is_u32 (chunk_idx c) /\ is_u32 (total_chunks c)) /\ chunk_idx c < total_chunks c.
Definition is_route (h : ChainHop) : Prop :=
  is_hop h /\ fst (hop_layer_range h) < snd (hop_layer_range h).
Definition is_hint (h : PromptCacheHint) : Prop :=
  (is_u32 (block_tokens h) /\ is_u32 (resume_at h) /\ Forall is_key (keys h)) /\ blen (keys h) <= MAX_KEYS.
(** Sampling as the 0x0A trailer delivers it. *)
Definition is_sent_sampling (s : SamplingParams) : Prop := typed_sampling s /\ sent_sampling s = s.

Lemma read_tp_typed d v b d' :
  is_bytes d -> read_tp_trailer d = Ok (v, b, d') ->
  opt typed_tp v /\ (v = None -> b = false) /\ is_bytes d'.
Proof. intros Hd H. unfold read_tp_trailer in H. typed Hd H. Qed.

Lemma read_spec_typed d v l w d' :
  is_bytes d -> read_spec_trailer d = Ok (v, l, w, d') ->
  (Forall is_u32 v /\ blen v <= MAX_DRAFT_TOKENS) /\ is_bytes d'.
Proof.
  intros Hd H. unfold read_spec_trailer in H. typed Hd H.
Qed.

Lemma read_kv_typed d v d' :
  is_bytes d -> read_kv_trailer d = Ok (v, d') -> opt is_u32 v /\ is_bytes d'.
Proof. intros Hd H. unfold read_kv_trailer in H. typed Hd H. Qed.

Lemma read_chunk_typed d v d' :
  is_bytes d -> read_chunk_trailer d = Ok (v, d') -> opt is_chunk v /\ is_bytes d'.
Proof. intros Hd H. unfold read_chunk_trailer in H. unfold is_chunk. typed Hd H. Qed.

Lemma read_hops_typed n d hops :
  is_bytes d -> read_hops n d = Ok (Some hops) -> length hops = n /\ Forall is_route hops.
Proof.
  revert d hops. induction n as [|n IH]; intros d hops Hd H; cbn [read_hops] in H; [by simplify_eq |].
  invert H. apply IH in E2 as [? ?]; [|by apply drop_is_bytes]. ranges Hd. zsimp.
  split; [cbn; lia |]. constructor; [|done]. unfold is_route, is_hop, is_key; cbn. destruct_and?. auto.
Qed.

Lemma read_chain_typed d v d' :
  is_bytes d -> read_chain_trailer d = Ok (v, d') ->
  (Forall is_route v /\ (length v <= 255)%nat) /\ is_bytes d'.
Proof.
  intros Hd H. unfold read_chain_trailer in H. invert H; cbn; try (split_and!; [done | lia | done]).
  apply read_hops_typed in E1 as [Hn Hh]; [|by apply drop_is_bytes]. ranges Hd.
  split_and!; [done | ints | by apply drop_is_bytes].
Qed.

Lemma read_reply_to_typed d v d' :
  is_bytes d -> read_reply_to_trailer d = Ok (v, d') -> opt is_key v /\ is_bytes d'.
Proof. intros Hd H. unfold read_reply_to_trailer in H. unfold is_key. typed Hd H. Qed.

Lemma read_generated_ids_typed d v d' :
  is_bytes d -> read_generated_ids_trailer d = Ok (v, d') ->
  (Forall is_u32 v /\ blen v <= u16_max) /\ is_bytes d'.
Proof. intros Hd H. unfold read_generated_ids_trailer in H. typed Hd H. Qed.

Lemma read_pre_embedded_typed d v d' :
  is_bytes d -> read_pre_embedded_trailer d = Ok (v, d') -> is_bytes d'.
Proof. intros Hd H. unfold read_pre_embedded_trailer in H. typed Hd H. Qed.

Lemma read_sampling_typed d v d' :
  is_bytes d -> read_sampling_trailer d = Ok (v, d') -> opt is_sent_sampling v /\ is_bytes d'.
Proof.
  intros Hd H. unfold read_sampling_trailer in H. invert H; cbn; ranges Hd; split; auto using drop_is_bytes.
  split; [constructor; cbn; ints |]. unfold sent_sampling; cbn. f_equal. ints.
Qed.

Lemma read_coupling_typed d v d' :
  is_bytes d -> read_coupling_trailer d = Ok (v, d') -> opt is_u64 v /\ is_bytes d'.
Proof. intros Hd H. unfold read_coupling_trailer in H. typed Hd H. Qed.

Lemma read_stream_typed d v d' :
  is_bytes d -> read_stream_trailer d = Ok (v, d') -> opt is_u32 v /\ is_bytes d'.
Proof. intros Hd H. unfold read_stream_trailer in H. typed Hd H. Qed.

Lemma read_prompt_cache_typed d v d' :
  is_bytes d -> read_prompt_cache_trailer d = Ok (v, d') -> opt is_hint v /\ is_bytes d'.
Proof. intros Hd H. unfold read_prompt_cache_trailer in H. unfold is_hint. typed Hd H. Qed.

Lemma read_span_typed d i s : is_bytes d -> read_span d i = Ok s -> is_span s.
Proof. intros Hd H. unfold read_span in H. unfold is_span. typed Hd H. Qed.

Lemma read_prompt_span_typed d v d' :
  is_bytes d -> read_prompt_span_trailer d = Ok (v, d') -> opt is_span v /\ is_bytes d'.
Proof.
  intros Hd H. unfold read_prompt_span_trailer in H. invert H; cbn; eauto using drop_is_bytes, read_span_typed.
Qed.

Lemma read_spans_typed n d spans :
  is_bytes d -> read_spans n d = Ok spans -> blen spans = Z.of_nat n /\ Forall is_span spans.
Proof.
  revert d spans. induction n as [|n IH]; intros d spans Hd H; cbn [read_spans] in H; [by simplify_eq |].
  invert H. apply IH in E0 as [? ?]; [|by apply drop_is_bytes].
  split; [rewrite blen_cons; lia | eauto using read_span_typed].
Qed.

Lemma read_image_spans_typed d v d' :
  is_bytes d -> read_image_spans_trailer d = Ok (v, d') ->
  (Forall is_span v /\ blen v <= MAX_IMAGE_SPANS) /\ is_bytes d'.
Proof.
  intros Hd H. unfold read_image_spans_trailer in H. invert H; try done.
  apply read_spans_typed in E1 as [? ?]; [|by apply drop_is_bytes]. ranges Hd. zsimp.
  split_and!; [done | ints | by apply drop_is_bytes].
Qed.

Lemma read_draft_tree_typed d v d' :
  is_bytes d -> read_draft_tree_trailer d = Ok (v, d') ->
  (Forall is_u16 v /\ blen v <= MAX_TREE_ROWS) /\ is_bytes d'.
Proof. intros Hd H. unfold read_draft_tree_trailer in H. typed Hd H. Qed.

Lemma read_draft_tree_flow_typed d b v d' :
  is_bytes d -> read_draft_tree_flow_trailer d b = Ok (v, d') ->
  (opt is_u32 v /\ (b = false -> v = None)) /\ is_bytes d'.
Proof. intros Hd H. unfold read_draft_tree_flow_trailer in H. typed Hd H. Qed.

Lemma read_stream_lookahead_typed d v d' :
  is_bytes d -> read_stream_lookahead_trailer d = Ok (v, d') -> opt is_u32 v /\ is_bytes d'.
Proof. intros Hd H. unfold read_stream_lookahead_trailer in H. typed Hd H. Qed.

Lemma read_stream_branch_typed d v d' :
  is_bytes d -> read_stream_branch_trailer d = Ok (v, d') -> opt is_branch v /\ is_bytes d'.
Proof. intros Hd H. unfold read_stream_branch_trailer in H. typed Hd H. Qed.

(** The trailers a decoder returns, as a whole. *)
Record typed_trailers (t : Trailers) : Prop := {
  tt_tp : opt typed_tp (t_tp_meta t) /\ (t_tp_meta t = None -> t_tp_pre_embedded t = false);
  tt_drafts : Forall is_u32 (t_draft_tokens t) /\ blen (t_draft_tokens t) <= MAX_DRAFT_TOKENS;
  tt_kv : opt is_u32 (t_truncate_kv_to t);
  tt_chunk : opt is_chunk (t_chunk_meta t);
  tt_chain : Forall is_route (t_chain t) /\ (length (t_chain t) <= 255)%nat;
  tt_requester : opt is_key (t_requester t);
  tt_ids : Forall is_u32 (t_generated_ids t) /\ blen (t_generated_ids t) <= u16_max;
  tt_sampling : opt is_sent_sampling (t_sampling t);
  tt_coupling : opt is_u64 (t_coupling_seed t);
  tt_seq : opt is_u32 (t_stream_seq t);
  tt_cache : opt is_hint (t_prompt_cache t);
  tt_span : opt is_span (t_prompt_span t);
  tt_spans : Forall is_span (t_image_spans t) /\ blen (t_image_spans t) <= MAX_IMAGE_SPANS;
  tt_tree : Forall is_u16 (t_draft_parents t) /\ blen (t_draft_parents t) <= MAX_TREE_ROWS;
  tt_from : opt is_u32 (t_draft_tree_from t) /\ (t_draft_parents t = [] -> t_draft_tree_from t = None);
  tt_ahead : opt is_u32 (t_stream_lookahead t);
  tt_branch : opt is_branch (t_stream_branch t) }.

(** Open one reader of the chain and keep its typing. *)
Ltac next H L := let E := fresh "E" in
  apply bind_ret_inv in H as (? & E & H); repeat match type of H with
    (match ?p with _ => _ end) = Ok _ => destruct p end;
  apply L in E; [destruct_and? | assumption].

Lemma read_trailers_typed d t : is_bytes d -> read_trailers d = Ok t -> typed_trailers t.
Proof.
  intros Hd H. unfold read_trailers in H.
  next H read_tp_typed. next H read_spec_typed. next H read_kv_typed. next H read_chunk_typed.
  next H read_chain_typed. next H read_reply_to_typed. next H read_generated_ids_typed.
  next H read_pre_embedded_typed. next H read_sampling_typed. next H read_coupling_typed.
  next H read_stream_typed. next H read_prompt_cache_typed. next H read_prompt_span_typed.
  next H read_image_spans_typed. next H read_draft_tree_typed. next H read_draft_tree_flow_typed.
  next H read_stream_lookahead_typed. next H read_stream_branch_typed.
  injection H as <-. constructor; cbn; split_and?; auto.
  intros ->. match goal with H : negb _ = false -> _ |- _ => apply H end. by rewrite bool_decide_true.
Qed.

Record typed_header (h : Header) : Prop := {
  th_request_id : length (h_request_id h) = 16%nat /\ is_bytes (h_request_id h);
  th_sequence_num : is_u32 (h_sequence_num h);
  th_index_pos : is_u32 (h_index_pos h);
  th_layer_range : is_u32 (fst (h_layer_range h)) /\ is_u32 (snd (h_layer_range h));
  th_model_id : is_bytes (h_model_id h) /\ from_utf8 (h_model_id h) = true /\ blen (h_model_id h) <= u16_max }.

Lemma route_hops hops : Forall is_route hops ->
  Forall is_hop hops /\ Forall (fun h => fst (hop_layer_range h) < snd (hop_layer_range h)) hops.
Proof. induction 1 as [|h hops [] _ []]; auto. Qed.

Lemma opt_impl {A} (P Q : A -> Prop) o : (forall a, P a -> Q a) -> opt P o -> opt Q o.
Proof. destruct o; cbn; auto. Qed.

Lemma assemble_typed h a t s :
  typed_header h -> is_bytes a -> typed_trailers t -> opt typed_sampling s ->
  typed_forward (assemble h a t s) /\ within_limits (assemble h a t s).
Proof.
  intros [] Ha [] Hs. destruct_and?. destruct (route_hops _ ltac:(eassumption)).
  split; constructor; cbn; auto.
  all: eapply opt_impl; [|eassumption]; unfold is_hint, is_chunk; cbn; intuition.
Qed.

(** A sealed frame that decodes does so to a typed forward within the limits,
    clamped after its AAD was rebuilt. *)
Lemma decode_encrypted_typed data g sealed aad :
  is_bytes data -> decode_layer_forward_encrypted data = Ok (g, sealed, aad) ->
  exists h t, g = clamp_forward (assemble h [] t (t_sampling t)) /\
    aad = build_layer_forward_aad (assemble h [] t (t_sampling t)) /\
    typed_header h /\ typed_trailers t.
Proof.
  intros Hd%(strip_tag_is_bytes TENSOR_TAG_ENCRYPTED) H. unfold decode_layer_forward_encrypted in H.
  set (d := strip_tag _ _) in *. clearbody d. invert H.
  all: apply read_trailers_typed in E10; [|by apply drop_is_bytes, drop_is_bytes].
  all: ranges Hd; eexists _, _; split_and!; [done | done | | done].
  all: unfold blen in *; destruct_and?; zsimp; constructor; cbn; auto; unfold blen; split_and!; auto; ints.
Qed.
