(* ===== verification/ForwardTheorems.v ===== *)
(** * LayerForward frames: the theorems

    Round trips of the plaintext and the sealed frame, absence of panics, the
    bounds on whatever a decoder accepts, and what the AAD of a sealed frame
    authenticates. *)
From S2P Require Import Prelude Bytes Utf8 ForwardTypes ForwardCodec ForwardFrames ForwardSafety.

(** ** The AAD *)

(** The trailers with another walk-at-tail flag. *)
Definition set_walk (t : Trailers) (w : bool) : Trailers := {|
  t_tp_meta := t_tp_meta t; t_tp_pre_embedded := t_tp_pre_embedded t;
  t_draft_tokens := t_draft_tokens t; t_spec_logits := t_spec_logits t; t_spec_walk := w;
  t_truncate_kv_to := t_truncate_kv_to t; t_chunk_meta := t_chunk_meta t; t_chain := t_chain t;
  t_requester := t_requester t; t_generated_ids := t_generated_ids t;
  t_pre_embedded := t_pre_embedded t; t_sampling := t_sampling t;
  t_coupling_seed := t_coupling_seed t; t_stream_seq := t_stream_seq t;
  t_prompt_cache := t_prompt_cache t; t_prompt_span := t_prompt_span t;
  t_image_spans := t_image_spans t; t_draft_parents := t_draft_parents t;
  t_draft_tree_from := t_draft_tree_from t; t_stream_lookahead := t_stream_lookahead t;
  t_stream_branch := t_stream_branch t |}.

(** The forward a receiver of a sealed frame gets before it opens the payload,
    with the walk-at-tail flag it read. *)
Definition received_sealed (f : LayerForward) (walk : bool) : LayerForward :=
  clamp_forward (assemble (header_of f) [] (set_walk (trailers_of f) walk) (t_sampling (trailers_of f))).

(** What the receiver parses seals to the same AAD as what was sent. *)
Lemma aad_received f :
  build_layer_forward_aad (assemble (header_of f) [] (trailers_of f) (t_sampling (trailers_of f))) =
  build_layer_forward_aad f.
Proof.
  rewrite !aad_frame. set (raw := assemble _ _ _ _). unfold trailer_bytes.
  assert (append_tp_trailer [] raw = append_tp_trailer [] f) as ->.
  { unfold append_tp_trailer, raw; cbn. destruct (lf_tp_meta f); [|done]. by rewrite orb_false_r. }
  assert (aad_spec_trailer [] raw = aad_spec_trailer [] f) as ->.
  { unfold aad_spec_trailer, spec_trailer_flags. change (has_spec_trailer raw) with (has_spec_trailer f).
    unfold raw; cbn. by destruct (has_spec_trailer f). }
  assert (append_pre_embedded_trailer [] raw = append_pre_embedded_trailer [] f) as ->.
  { unfold append_pre_embedded_trailer, raw; cbn. by destruct (lf_tp_meta f), (lf_pre_embedded f). }
  assert (append_sampling_trailer [] raw = append_sampling_trailer [] f) as ->.
  { unfold append_sampling_trailer, raw; cbn. destruct (lf_sampling f); cbn; [|done].
    by rewrite <- Z.min_assoc. }
  assert (append_draft_tree_flow_trailer [] raw = append_draft_tree_flow_trailer [] f) as ->.
  { unfold append_draft_tree_flow_trailer, raw; cbn. by destruct (lf_draft_parents f), (lf_draft_tree_from f). }
  done.
Qed.

Lemma aad_inj f g :
  typed_forward f -> within_limits f -> typed_forward g -> within_limits g ->
  build_layer_forward_aad f = build_layer_forward_aad g ->
  header_of f = header_of g /\ trailers_of f = trailers_of g.
Proof.
  intros Hf Lf Hg Lg. rewrite !aad_frame.
  fold (range_bytes f (trailer_bytes f)) (range_bytes g (trailer_bytes g)).
  set (rf := range_bytes f _). set (rg := range_bytes g _). intros E.
  destruct (head_reads f rf Hf) as (F1 & F2 & F3 & F4), (head_reads g rg Hg) as (G1 & G2 & G3 & G4).
  rewrite E in F1, F2, F3, F4.
  pose proof (head_drop f rf 0 Hf) as Ff. rewrite E, (head_drop g rg 0 Hg), !drop_0 in Ff.
  destruct (range_reads f (trailer_bytes f) Hf Lf) as (S1 & S2 & S3 & S4 & S5 & _),
    (range_reads g (trailer_bytes g) Hg Lg) as (T1 & T2 & T3 & T4 & T5 & _).
  fold rf in S1, S2, S3, S4, S5. fold rg in T1, T2, T3, T4, T5. rewrite <- Ff in S1, S2, S3, S4, S5.
  rewrite S3 in T3. injection T3 as Em. rewrite <- Em, S4 in T4. rewrite <- Em, S5 in T5.
  split.
  - unfold header_of. f_equal; try congruence.
    + destruct (lf_format f), (lf_format g); cbn in *; congruence.
    + destruct (lf_layer_range f), (lf_layer_range g); cbn in *; congruence.
  - pose proof (read_trailers_written f Hf Lf) as R. rewrite T5, read_trailers_written in R by done.
    congruence.
Qed.

Lemma reassemble h t :
  typed_trailers t ->
  let raw := assemble h [] t (t_sampling t) in
  raw = assemble (header_of raw) [] (set_walk (trailers_of raw) (t_spec_walk t)) (t_sampling (trailers_of raw)).
Proof.
  intros []. destruct_and?. destruct h, t; unfold assemble; cbn in *. f_equal.
  - destruct t_tp_meta; cbn; [by rewrite orb_false_r |]. match goal with H : None = None -> _ |- _ => by rewrite H end.
  - destruct t_sampling as [s|]; cbn in *; [|done]. by rewrite (proj2 tt_sampling).
  - destruct t_draft_parents; [auto | done].
Qed.

(** ** Plaintext frame *)

(** C1: whatever forward fits the wire's types and limits, encoding it succeeds
    and decoding the bytes gives back every field that travels: header, payload
    and all eighteen optional trailers; the sampling parameters arrive clamped to
    the API's limits, and a tree-flow origin without a tree does not travel. *)
Theorem forward_roundtrip f :
  typed_forward f -> within_limits f -> blen (lf_activations f) <= MAX_ACTIVATION_SIZE ->
  (encode_layer_forward f ≫= decode_layer_forward) = Ok (received f).
Proof. apply decode_frame. Qed.

(** A forward that carries fifteen trailers at once. *)
Definition busy_forward : LayerForward := {|
  lf_request_id := replicate 16 7; lf_sequence_num := 3; lf_index_pos := 11;
  lf_activations := [1; 2; 3; 4]; lf_format := FP32; lf_model_id := [113; 119];
  lf_layer_range := (4, 12);
  lf_tp_meta := Some {| tp_rank := 1; tp_size := 2; single_layer := 5; phase := AttnOnly |};
  lf_vision_embeddings := None;
  lf_chain := [{| hop_node_id := replicate 32 9; hop_layer_range := (12, 20) |}];
  lf_sender_peer_bytes := None; lf_requester_node_id := Some (replicate 32 8);
  lf_pre_embedded := true; lf_generated_ids := [17; 65536];
  lf_sampling := Some SamplingParams_default; lf_adapter_id := None;
  lf_draft_tokens := [5; 6]; lf_spec_logits_requested := true; lf_spec_walk_at_tail := true;
  lf_coupling_seed := Some 99; lf_stream_seq := Some 1048576; lf_truncate_kv_to := Some 10;
  lf_prompt_cache := Some {| block_tokens := 16; keys := [replicate 32 1]; resume_at := 16 |};
  lf_chunk_meta := Some {| chunk_idx := 0; total_chunks := 2 |};
  lf_prompt_span := Some {| span_start := 0; span_end := 8 |};
  lf_image_spans := [{| span_start := 1; span_end := 4 |}];
  lf_draft_parents := [65535; 0]; lf_draft_tree_from := Some 2;
  lf_stream_lookahead := Some 42; lf_stream_branch := Some (AfterSpare 3) |}.

Ltac concrete := constructor; cbn; unfold is_hop, is_key, is_span, is_branch, is_bytes, is_byte; cbn;
  repeat first [split | constructor | done | ints | lia].

Lemma busy_typed : typed_forward busy_forward.
Proof. concrete. Qed.
Lemma busy_within : within_limits busy_forward.
Proof. constructor; vm_compute; repeat split; try done; repeat constructor; done. Qed.

Lemma forward_roundtrip_witness :
  (encode_layer_forward busy_forward ≫= decode_layer_forward) = Ok (received busy_forward).
Proof. apply forward_roundtrip; [apply busy_typed | apply busy_within | by vm_compute]. Defined.

(** neither decoder panics, whatever bytes a peer sends. *)
Theorem decoders_never_panic data :
  is_bytes data -> safe (decode_layer_forward data) /\ safe (decode_layer_forward_encrypted data).
Proof. intros H. split; [apply decode_safe | by apply decode_encrypted_safe]. Qed.

Lemma decoders_never_panic_witness : safe (decode_layer_forward (replicate 30 1)).
Proof. apply (decoders_never_panic (replicate 30 1)). repeat constructor; done. Defined.

(** Clamping keeps the parameters typed. *)
Lemma clamp_typed s : typed_sampling s -> typed_sampling (clamp_peer_sampling s).
Proof.
  assert (forall lo hi v w, is_u32 lo -> is_u32 hi -> is_u32 v -> is_u32 w ->
    is_u32 (F32.clamp lo hi (finite_or v w))) as Hc.
  { intros. unfold F32.clamp, finite_or. repeat case_if; done. }
  intros []. constructor; cbn; try (apply Hc; first [done | by vm_compute]); try done. ints.
Qed.

Lemma decode_typed data f :
  is_bytes data -> decode_layer_forward data = Ok f ->
  exists h a t, f = assemble h a t (option_map clamp_peer_sampling (t_sampling t)) /\
    typed_header h /\ is_bytes a /\ blen a <= MAX_ACTIVATION_SIZE /\ typed_trailers t.
Proof.
  intros Hd%(strip_tag_is_bytes TENSOR_TAG_FORWARD) H. unfold decode_layer_forward in H.
  set (d := strip_tag _ _) in *. clearbody d. invert H.
  all: apply read_trailers_typed in E11; [|by apply drop_is_bytes, drop_is_bytes].
  all: ranges Hd; destruct_and?; zsimp; eexists _, _, _; split_and!; [done | | done | | done].
  all: unfold blen in *; try (constructor; cbn; auto; unfold blen; split_and!; auto); ints.
Qed.

(** a plaintext frame that decodes, whoever wrote it, gives a forward within
    every limit of the wire: at most 128 MiB of activations, 512 drafts, 255
    hops each with a non-empty layer range, a chunk index below its total, and
    sampling parameters that are finite and inside the API's ranges. *)
Theorem decoded_forward_in_bounds data f :
  is_bytes data -> decode_layer_forward data = Ok f ->
  typed_forward f /\ within_limits f /\ blen (lf_activations f) <= MAX_ACTIVATION_SIZE /\
  opt sampling_in_range (lf_sampling f).
Proof.
  intros Hd H. apply decode_typed in H as (h & a & t & -> & Hh & Ha & Hl & Ht); [|done].
  pose proof (tt_sampling t Ht) as Hs.
  assert (opt typed_sampling (option_map clamp_peer_sampling (t_sampling t))) as Hc.
  { destruct (t_sampling t); cbn in *; [|done]. apply clamp_typed, Hs. }
  destruct (assemble_typed h a t _ Hh Ha Ht Hc) as [? ?]. split_and!; [done | done | done |].
  cbn. destruct (t_sampling t); cbn; [apply clamped_in_range | done].
Qed.

Definition busy_bytes : bytes :=
  match encode_layer_forward busy_forward with Ok b => b | _ => [] end.

Lemma decoded_forward_in_bounds_witness :
  within_limits (received busy_forward).
Proof.
  apply (decoded_forward_in_bounds busy_bytes).
  - unfold is_bytes, is_byte. repeat (constructor; [done|]). constructor.
  - by vm_compute.
Defined.

Lemma read_oversized_cache bt ra n d :
  is_u32 bt -> is_u32 ra -> MAX_KEYS < n <= u32_max ->
  let frame := 0x0D :: le_bytes 4 bt ++ le_bytes 4 ra ++ le_bytes 4 n ++ d in
  read_prompt_cache_trailer frame = Ok (None, frame).
Proof.
  unfold MAX_KEYS. intros Hb Hr Hn. cbv zeta. unfold read_prompt_cache_trailer, usize_checked, MAX_KEYS.
  here. rd. rewrite (proj2 (Z.leb_le (n * 32) _)), (proj2 (Z.ltb_lt 8192 n)) by ints.
  cbn [mbind option_bind]. by case_if.
Qed.

(** a frame whose prompt-cache trailer names more keys than the limit still
    decodes, with every trailer from 0x0D on taken as absent; in particular a
    draft tree behind it is read as no tree. *)
Theorem oversized_cache_hides_tree bt ra n d :
  is_u32 bt -> is_u32 ra -> MAX_KEYS < n <= u32_max ->
  let frame := 0x0D :: le_bytes 4 bt ++ le_bytes 4 ra ++ le_bytes 4 n ++ d in
  exists t, read_trailers frame = Ok t /\ t_prompt_cache t = None /\ t_draft_parents t = [] /\
    t_stream_branch t = None.
Proof.
  intros Hb Hr Hn frame. assert (rest_above 0x0C frame) as Ha by (unfold frame; cbn; lia).
  assert (forall k, k < 0x0D -> rest_above k frame) as Hlow by (intros; eapply rest_above_le; [|done]; lia).
  assert (forall need k, 0 < need -> 0x0D < k -> at_marker frame need k = Ok false) as Hhigh.
  { intros need k H0 Hk. unfold at_marker. destruct (blen frame <? need); [done |].
    unfold frame. rewrite idx_cons_0. cbn -[Z.eqb]. by rewrite (proj2 (Z.eqb_neq 13 k)) by lia. }
  unfold read_trailers, read_tp_trailer, read_spec_trailer, read_kv_trailer, read_chunk_trailer,
    read_chain_trailer, read_reply_to_trailer, read_generated_ids_trailer, read_pre_embedded_trailer,
    read_sampling_trailer, read_coupling_trailer, read_stream_trailer.
  repeat (rewrite at_marker_above by (done || (apply Hlow; lia)); cbn [mbind outcome_bind]).
  rewrite (read_oversized_cache bt ra n d Hb Hr Hn : read_prompt_cache_trailer frame = _).
  cbn [mbind outcome_bind].
  unfold read_prompt_span_trailer, read_image_spans_trailer, read_draft_tree_trailer,
    read_draft_tree_flow_trailer, read_stream_lookahead_trailer, read_stream_branch_trailer.
  repeat (rewrite Hhigh by done; cbn [mbind outcome_bind]).
  eexists. by split_and!.
Qed.

Lemma oversized_cache_hides_tree_witness :
  exists t, read_trailers (0x0D :: le_bytes 4 16 ++ le_bytes 4 0 ++ le_bytes 4 9000 ++ [0x10; 1; 0; 255; 255]) = Ok t
    /\ t_prompt_cache t = None /\ t_draft_parents t = [] /\ t_stream_branch t = None.
Proof. apply oversized_cache_hides_tree; by vm_compute. Defined.

(** ** Sealed frame *)

(** a sealed frame of any forward within the limits decodes to the sealed
    payload untouched, the forward's travelling fields, and the very AAD the
    sender sealed with, so an untouched frame always opens. *)
Theorem sealed_roundtrip f sealed :
  typed_forward f -> within_limits f -> blen sealed <= u32_max ->
  (encode_layer_forward_encrypted f sealed ≫= decode_layer_forward_encrypted) =
  Ok (received_sealed f (t_spec_walk (trailers_of f)), sealed, build_layer_forward_aad f).
Proof. intros Hf Hl Hs. rewrite decode_sealed_frame by done. by rewrite aad_received. Qed.

Lemma sealed_roundtrip_witness :
  (encode_layer_forward_encrypted busy_forward [1; 2; 3] ≫= decode_layer_forward_encrypted) =
  Ok (received_sealed busy_forward true, [1; 2; 3], build_layer_forward_aad busy_forward).
Proof. apply (sealed_roundtrip busy_forward [1; 2; 3]); [apply busy_typed | apply busy_within | by vm_compute]. Defined.

(** C35: what the AAD authenticates.  If any bytes at all decode to a sealed frame
    whose rebuilt AAD is the one the sender sealed with, the receiver's forward
    is the sender's in every travelling field; only the walk-at-tail flag of a
    forward that has no speculative trailer may differ. *)
Theorem sealed_aad_binds f data g sealed :
  typed_forward f -> within_limits f -> is_bytes data ->
  decode_layer_forward_encrypted data = Ok (g, sealed, build_layer_forward_aad f) ->
  exists walk, g = received_sealed f walk /\
    (has_spec_trailer f = true -> walk = lf_spec_walk_at_tail f).
Proof.
  intros Hf Lf Hd H. apply decode_encrypted_typed in H as (h & t & -> & E & Hh & Ht); [|done].
  assert (opt typed_sampling (t_sampling t)) as Hs.
  { pose proof (tt_sampling t Ht). destruct (t_sampling t); cbn in *; [by destruct H | done]. }
  destruct (assemble_typed h [] t _ Hh ltac:(constructor) Ht Hs) as [Hr Lr].
  destruct (aad_inj _ _ Hf Lf Hr Lr E) as [Eh Et].
  exists (t_spec_walk t). split.
  - unfold received_sealed. rewrite Eh, Et. f_equal. by apply reassemble.
  - intros Hspec. apply (f_equal t_spec_walk) in Et as Ew. cbn in Ew.
    assert (has_spec_trailer (assemble h [] t (t_sampling t)) = has_spec_trailer f) as Es.
    { unfold has_spec_trailer. apply (f_equal t_draft_tokens) in Et as Ed.
      apply (f_equal t_spec_logits) in Et as El. cbn in Ed, El |- *. by rewrite Ed, El. }
    rewrite Es, Hspec in Ew. by cbn in Ew.
Qed.

Definition busy_sealed : bytes :=
  match encode_layer_forward_encrypted busy_forward [1; 2; 3] with Ok b => b | _ => [] end.

Lemma sealed_aad_binds_witness :
  exists walk, received_sealed busy_forward true = received_sealed busy_forward walk /\
    (has_spec_trailer busy_forward = true -> walk = lf_spec_walk_at_tail busy_forward).
Proof.
  apply (sealed_aad_binds busy_forward busy_sealed _ [1; 2; 3]); [apply busy_typed | apply busy_within | |].
  - unfold is_bytes, is_byte. repeat (constructor; [done|]). constructor.
  - by vm_compute.
Defined.

(** A one-token forward with no optional trailer. *)
Definition plain_forward : LayerForward := {|
  lf_request_id := replicate 16 7; lf_sequence_num := 3; lf_index_pos := 11;
  lf_activations := []; lf_format := FP32; lf_model_id := [113; 119]; lf_layer_range := (4, 12);
  lf_tp_meta := None; lf_vision_embeddings := None; lf_chain := []; lf_sender_peer_bytes := None;
  lf_requester_node_id := None; lf_pre_embedded := false; lf_generated_ids := [];
  lf_sampling := None; lf_adapter_id := None; lf_draft_tokens := [];
  lf_spec_logits_requested := false; lf_spec_walk_at_tail := false; lf_coupling_seed := None;
  lf_stream_seq := None; lf_truncate_kv_to := None; lf_prompt_cache := None; lf_chunk_meta := None;
  lf_prompt_span := None; lf_image_spans := []; lf_draft_parents := []; lf_draft_tree_from := None;
  lf_stream_lookahead := None; lf_stream_branch := None |}.

(** the exception is real.  Four bytes appended to a sealed frame in transit
    turn the walk-at-tail flag on while the rebuilt AAD stays the sender's. *)
Theorem walk_flag_not_bound :
  exists frame g, encode_layer_forward_encrypted plain_forward [1; 2; 3] = Ok frame /\
    decode_layer_forward_encrypted (frame ++ [0x03; SPEC_FLAG_WALK_AT_TAIL; 0; 0]) =
      Ok (g, [1; 2; 3], build_layer_forward_aad plain_forward) /\
    lf_spec_walk_at_tail plain_forward = false /\ lf_spec_walk_at_tail g = true.
Proof. eexists _, _. split; [vm_compute; reflexivity |]. split; [vm_compute; reflexivity |]. by vm_compute. Qed.
