(* ===== verification/ChunkTransport.v ===== *)
(** * Chunked forwards: splitting and reassembly

    A large activation crosses a pipeline stream as several frames.
    [chunk_layer_forward] ([src/network/pipeline_stream.rs]) splits it;
    [try_assemble_chunked_forward] ([src/daemon/state/mod.rs]) files the chunks of
    each request in a [ChunkAssemblyState] ([crates/swarmllm-types/src/inference.rs])
    and hands out the forward when the last one is in.  The table is the [DashMap]
    [pending_activation_chunks], each call one locked step. *)
From S2P Require Import Prelude Bytes ForwardTypes.

Definition MAX_TOTAL_CHUNKS : Z := 4096.

(** The clone of a forward with its payload, chunk trailer and sender replaced. *)
Definition with_transport (f : LayerForward) (acts : bytes) (cm : option ChunkMeta) (sender : option bytes)
  : LayerForward := {|
  lf_request_id := lf_request_id f; lf_sequence_num := lf_sequence_num f;
  lf_index_pos := lf_index_pos f; lf_activations := acts; lf_format := lf_format f;
  lf_model_id := lf_model_id f; lf_layer_range := lf_layer_range f; lf_tp_meta := lf_tp_meta f;
  lf_vision_embeddings := lf_vision_embeddings f; lf_chain := lf_chain f;
  lf_sender_peer_bytes := sender; lf_requester_node_id := lf_requester_node_id f;
  lf_pre_embedded := lf_pre_embedded f; lf_generated_ids := lf_generated_ids f;
  lf_sampling := lf_sampling f; lf_adapter_id := lf_adapter_id f; lf_draft_tokens := lf_draft_tokens f;
  lf_spec_logits_requested := lf_spec_logits_requested f;
  lf_spec_walk_at_tail := lf_spec_walk_at_tail f; lf_coupling_seed := lf_coupling_seed f;
  lf_stream_seq := lf_stream_seq f; lf_truncate_kv_to := lf_truncate_kv_to f;
  lf_prompt_cache := lf_prompt_cache f; lf_chunk_meta := cm;
  lf_prompt_span := lf_prompt_span f; lf_image_spans := lf_image_spans f;
  lf_draft_parents := lf_draft_parents f; lf_draft_tree_from := lf_draft_tree_from f;
  lf_stream_lookahead := lf_stream_lookahead f; lf_stream_branch := lf_stream_branch f |}.

(** ** Sender *)

Definition div_ceil (a b : Z) : Z := (a + b - 1) / b.

(** [activations[start..end]] of chunk [idx]; the range is inside the buffer. *)
Definition chunk_payload (acts : bytes) (size : Z) (idx : nat) : bytes :=
  let start := Z.of_nat idx * size in
  let stop := Z.min ((Z.of_nat idx + 1) * size) (blen acts) in
  take (Z.to_nat (stop - start)) (drop (Z.to_nat start) acts).

Definition chunk_layer_forward (f : LayerForward) (chunk_size_bytes : Z) : list LayerForward :=
  let total := blen (lf_activations f) in
  let size := Z.max chunk_size_bytes 1 in
  if total <=? size then [f]
  else
    let n := Z.min (div_ceil total size) u32_max in
    map (fun idx => with_transport f (chunk_payload (lf_activations f) size idx)
                      (Some {| chunk_idx := Z.of_nat idx; total_chunks := n |}) (lf_sender_peer_bytes f))
        (seq 0 (Z.to_nat n)).

(** ** Receiver *)

Record ChunkAssemblyState : Type := {
  ca_received : list (option bytes); ca_total_chunks : Z; ca_template : LayerForward;
  ca_sender : bytes; ca_last_update_at : Z; ca_filled : Z }.

Definition assembly_new (total : Z) (template : LayerForward) (sender : bytes) (now : Z) : ChunkAssemblyState :=
  {| ca_received := replicate (Z.to_nat total) None; ca_total_chunks := total; ca_template := template;
     ca_sender := sender; ca_last_update_at := now; ca_filled := 0 |}.

Definition is_complete (s : ChunkAssemblyState) : bool := ca_filled s =? ca_total_chunks s.

(** [ChunkAssemblyState::assemble]. *)
Definition assemble_chunks (s : ChunkAssemblyState) : bytes := concat (omap id (ca_received s)).

(** [state.received[chunk_idx] = Some(..); state.filled = filled]. *)
Definition put_chunk (s : ChunkAssemblyState) (idx : nat) (acts : bytes) (filled now : Z) : ChunkAssemblyState :=
  {| ca_received := <[idx := Some acts]> (ca_received s); ca_total_chunks := ca_total_chunks s;
     ca_template := ca_template s; ca_sender := ca_sender s; ca_last_update_at := now; ca_filled := filled |}.

Abbreviation Assemblies := (gmap bytes ChunkAssemblyState).

(** The entry's [and_modify .. or_insert_with]. *)
Definition file_chunk (f : LayerForward) (cm : ChunkMeta) (sender : bytes) (now : Z) (m : Assemblies)
  : outcome Assemblies :=
  let idx := Z.to_nat (chunk_idx cm) in
  match m !! lf_request_id f with
  | Some s =>
      if negb (ca_total_chunks s =? total_chunks cm)
      then Err (Network ("chunk total_chunks mismatch: stored=" +:+ pretty (ca_total_chunks s) +:+ ", got="
                         +:+ pretty (total_chunks cm)))
      else if bool_decide (ca_sender s <> sender) then Err (Network "chunk sender peer changed mid-transfer")
      else match ca_received s !! idx with
           | None => Panic
           | Some (Some _) => Err (Network ("duplicate chunk_idx=" +:+ pretty (chunk_idx cm)))
           | Some None => Ok (<[lf_request_id f := put_chunk s idx (lf_activations f) (ca_filled s + 1) now]> m)
           end
  | None =>
      let template := with_transport f [] None (lf_sender_peer_bytes f) in
      let s := assembly_new (total_chunks cm) template sender now in
      match ca_received s !! idx with
      | None => Panic
      | Some _ => Ok (<[lf_request_id f := put_chunk s idx (lf_activations f) 1 now]> m)
      end
  end.

Definition try_assemble_chunked_forward (f : LayerForward) (sender : bytes) (now : Z) (m : Assemblies)
  : Assemblies * outcome (option LayerForward) :=
  match lf_chunk_meta f with
  | None => (m, Err (Network "chunked assembly called without chunk_meta"))
  | Some cm =>
      if (total_chunks cm =? 0) || (total_chunks cm <=? chunk_idx cm)
      then (m, Err (Network ("Invalid chunk_meta: chunk_idx=" +:+ pretty (chunk_idx cm) +:+ ", total_chunks="
                             +:+ pretty (total_chunks cm))))
      else if MAX_TOTAL_CHUNKS <? total_chunks cm
      then (m, Err (Network ("total_chunks=" +:+ pretty (total_chunks cm) +:+ " exceeds cap "
                             +:+ pretty MAX_TOTAL_CHUNKS)))
      else
        match file_chunk f cm sender now m with
        | Err e => (m, Err e)
        | Panic => (m, Panic)
        | Ok m =>
            match m !! lf_request_id f with
            | Some s =>
                if is_complete s
                then (delete (lf_request_id f) m,
                      Ok (Some (with_transport (ca_template s) (assemble_chunks s) (lf_chunk_meta (ca_template s))
                                  (Some (ca_sender s)))))
                else (m, Ok None)
            | None => (m, Ok None)
            end
        end
  end.

(** [sweep_stale_chunk_assemblies]; [floor] is the earliest instant the platform represents. *)
Definition sweep_stale_chunk_assemblies (floor ttl now : Z) (m : Assemblies) : Assemblies * Z :=
  let cutoff := if now - ttl <? floor then now else now - ttl in
  let kept := filter (fun '(_, s) => cutoff <= ca_last_update_at s) m in
  (kept, Z.of_nat (size m) - Z.of_nat (size kept)).

(** Frames of one or more transfers arriving from [sender], one after another. *)
Fixpoint receive_all (frames : list (Z * LayerForward)) (sender : bytes) (m : Assemblies)
  : Assemblies * list (outcome (option LayerForward)) :=
  match frames with
  | [] => (m, [])
  | (now, f) :: frames =>
      let '(m, r) := try_assemble_chunked_forward f sender now m in
      let '(m, rs) := receive_all frames sender m in (m, r :: rs)
  end.

(** An assembly has a slot per chunk, counts its filled ones, and its template
    carries no chunk trailer; a pending one waits for a chunk. *)
Definition assembly_wf (s : ChunkAssemblyState) : Prop :=
  Z.of_nat (length (ca_received s)) = ca_total_chunks s /\ ca_total_chunks s <= MAX_TOTAL_CHUNKS /\
  ca_filled s = Z.of_nat (length (omap id (ca_received s))) /\ lf_chunk_meta (ca_template s) = None.
Definition assembly_ok (s : ChunkAssemblyState) : Prop := assembly_wf s /\ ca_filled s < ca_total_chunks s.
Definition assemblies_ok (m : Assemblies) : Prop := map_Forall (fun _ s => assembly_ok s) m.

(** ** Splitting *)

Lemma chunk_payload_nat acts (s idx : nat) :
  chunk_payload acts (Z.of_nat s) idx = take s (drop (idx * s) acts).
Proof.
  unfold chunk_payload, blen. replace (Z.to_nat (Z.of_nat idx * Z.of_nat s)) with (idx * s)%nat by lia.
  destruct (Z.le_gt_cases ((Z.of_nat idx + 1) * Z.of_nat s) (Z.of_nat (length acts))).
  - f_equal. lia.
  - rewrite !take_ge; [done | rewrite length_drop; lia | rewrite length_drop; lia].
Qed.

Lemma concat_payloads acts (s j k : nat) :
  concat (map (chunk_payload acts (Z.of_nat s)) (seq j k)) = take (k * s) (drop (j * s) acts).
Proof.
  revert j. induction k as [|k IH]; intros j; [done |]. cbn [seq map concat].
  rewrite IH, chunk_payload_nat. replace (S k * s)%nat with (s + k * s)%nat by lia.
  rewrite <- take_take_drop, drop_drop. do 2 f_equal. f_equal. lia.
Qed.

(** ** One transfer *)

Section transfer.
Context (f : LayerForward) (sender : bytes) (ps : list bytes).
Abbreviation rid := (lf_request_id f).
Abbreviation cnt := (length ps).

Definition frame (i : nat) : LayerForward :=
  with_transport f (ps !!! i) (Some {| chunk_idx := Z.of_nat i; total_chunks := Z.of_nat cnt |}) (lf_sender_peer_bytes f).

Definition slots_of (S : list nat) : list (option bytes) :=
  imap (fun i a => if bool_decide (i ∈ S) then Some a else None) ps.

Definition state_of (t : Z) (S : list nat) : ChunkAssemblyState := {|
  ca_received := slots_of S; ca_total_chunks := Z.of_nat cnt;
  ca_template := with_transport f [] None (lf_sender_peer_bytes f); ca_sender := sender;
  ca_last_update_at := t; ca_filled := Z.of_nat (length S) |}.

(** The table holds the chunks numbered [S] of this transfer, on top of [m0]. *)
Definition pending (m0 : Assemblies) (S : list nat) (m : Assemblies) : Prop :=
  match S with [] => m = m0 | _ => exists t, m = <[rid := state_of t S]> m0 end.

Lemma slots_lookup S i : slots_of S !! i = (fun a => if bool_decide (i ∈ S) then Some a else None) <$> ps !! i.
Proof. unfold slots_of. by rewrite list_lookup_imap. Qed.

Lemma slots_nil : slots_of [] = replicate cnt None.
Proof.
  apply list_eq. intros i. rewrite slots_lookup. destruct (ps !! i) eqn:E; cbn.
  - symmetry. apply lookup_replicate_2. by apply lookup_lt_Some in E.
  - symmetry. apply lookup_replicate_None. by apply lookup_ge_None in E.
Qed.

Lemma slots_put S i : (i < cnt)%nat -> <[i := Some (ps !!! i)]> (slots_of S) = slots_of (i :: S).
Proof.
  intros Hi. apply list_eq. intros j. rewrite slots_lookup.
  assert (Hl : length (slots_of S) = cnt) by apply length_imap.
  destruct (decide (i = j)) as [->|Hne].
  - rewrite list_lookup_insert_eq by lia. destruct (lookup_lt_is_Some_2 ps j Hi) as [a Ha]. rewrite Ha. cbn.
    rewrite bool_decide_true by left. by rewrite (list_lookup_total_correct _ _ _ Ha).
  - rewrite list_lookup_insert_ne, slots_lookup by done. destruct (ps !! j); [|done]. cbn.
    rewrite (bool_decide_ext (j ∈ i :: S) (j ∈ S)); [done |]. rewrite elem_of_cons. intuition congruence.
Qed.

Lemma slots_free S i : (i < cnt)%nat -> i ∉ S -> slots_of S !! i = Some None.
Proof.
  intros Hi HS. rewrite slots_lookup. destruct (lookup_lt_is_Some_2 ps i Hi) as [a ->]. cbn.
  by rewrite bool_decide_false.
Qed.

(** As many distinct numbers as there are chunks are all of them. *)
Lemma all_numbers S : NoDup S -> (forall i, i ∈ S -> i < cnt)%nat -> length S = cnt -> forall i, (i < cnt)%nat -> i ∈ S.
Proof.
  intros Hnd Hb Hl i Hi. assert (Hp : S ≡ₚ seq 0 cnt).
  { apply submseteq_length_Permutation; [|rewrite length_seq; lia]. apply NoDup_submseteq; [done |].
    intros j Hj. apply elem_of_seq. specialize (Hb j Hj). lia. }
  rewrite Hp. apply elem_of_seq. lia.
Qed.

Lemma slots_full S : (forall i, (i < cnt)%nat -> i ∈ S) -> omap id (slots_of S) = ps.
Proof.
  intros HS. assert (E : slots_of S = Some <$> ps).
  { apply list_eq. intros i. rewrite slots_lookup, list_lookup_fmap. destruct (ps !! i) eqn:E; [|done]. cbn.
    by rewrite bool_decide_true by (apply HS; by apply lookup_lt_Some in E). }
  rewrite E. clear. induction ps as [|a l IH]; [done |]. cbn. by f_equal.
Qed.

Lemma with_transport_twice g a c x a' c' x' :
  with_transport (with_transport g a c x) a' c' x' = with_transport g a' c' x'.
Proof. done. Qed.

(** Filing one more chunk completes the transfer, or leaves it pending. *)
Lemma assemble_step m0 S m i now :
  m0 !! rid = None -> pending m0 S m -> (0 < cnt <= Z.to_nat MAX_TOTAL_CHUNKS)%nat -> (i < cnt)%nat -> i ∉ S ->
  NoDup S -> (forall j, j ∈ S -> (j < cnt)%nat) ->
  exists m', (if decide (Datatypes.S (length S) = cnt)
     then m' = m0 /\ try_assemble_chunked_forward (frame i) sender now m =
            (m', Ok (Some (with_transport f (concat ps) None (Some sender))))
     else pending m0 (i :: S) m' /\ try_assemble_chunked_forward (frame i) sender now m = (m', Ok None)).
Proof.
  intros Hm0 Hp Hn Hi HS Hnd Hb. unfold try_assemble_chunked_forward, frame. cbn [lf_chunk_meta with_transport].
  cbn [chunk_idx total_chunks]. unfold MAX_TOTAL_CHUNKS in *.
  destruct (Z.eqb_spec (Z.of_nat cnt) 0); [lia |]. destruct (Z.leb_spec (Z.of_nat cnt) (Z.of_nat i)); [lia |].
  destruct (Z.ltb_spec 4096 (Z.of_nat cnt)); [lia |]. cbn [orb].
  assert (Hfile : file_chunk (frame i) {| chunk_idx := Z.of_nat i; total_chunks := Z.of_nat cnt |} sender now m
                  = Ok (<[rid := state_of now (i :: S)]> m0)).
  { unfold file_chunk, frame. cbn. rewrite Nat2Z.id. destruct S as [|j S].
    - cbn in Hp. subst m. rewrite Hm0, lookup_replicate_2 by lia. unfold put_chunk, state_of, assembly_new. cbn.
      rewrite Nat2Z.id, <- slots_put, slots_nil by done. done.
    - destruct Hp as [t ->]. rewrite lookup_insert_eq. cbn. rewrite Z.eqb_refl. cbn [negb].
      rewrite bool_decide_false by (intros H'; by apply H'). rewrite slots_free by done.
      rewrite insert_insert_eq. unfold put_chunk, state_of. cbn. rewrite slots_put by done. do 4 f_equal. lia. }
  unfold frame in Hfile. rewrite Hfile. cbn [lf_request_id with_transport]. rewrite lookup_insert_eq.
  unfold is_complete. cbn [ca_filled ca_total_chunks state_of length]. case_decide as Hd.
  - rewrite (proj2 (Z.eqb_eq _ _)) by lia. exists m0. split; [done |].
    rewrite delete_insert_id by done. unfold assemble_chunks. cbn [ca_received state_of ca_template ca_sender lf_chunk_meta with_transport].
    rewrite slots_full; [done |]. apply all_numbers; [by constructor | | cbn; lia].
    intros j [->|?]%elem_of_cons; [done | by apply Hb].
  - rewrite (proj2 (Z.eqb_neq _ _)) by lia. eexists. split; [|done]. by exists now.
Qed.

(** Feeding the rest of a transfer, in any order. *)
Lemma receive_rest m0 S m (order : list (Z * nat)) :
  m0 !! rid = None -> pending m0 S m -> (0 < cnt <= Z.to_nat MAX_TOTAL_CHUNKS)%nat ->
  S ++ order.*2 ≡ₚ seq 0 cnt -> order <> [] ->
  receive_all (map (fun p => (p.1, frame p.2)) order) sender m =
    (m0, replicate (length order - 1) (Ok None) ++ [Ok (Some (with_transport f (concat ps) None (Some sender)))]).
Proof.
  intros Hm0 Hp Hn. revert S m Hp. induction order as [|[t i] order IH]; intros S m Hp Hall Hne; [done |].
  assert (Hnd : NoDup (S ++ i :: order.*2)) by (rewrite Hall; apply NoDup_seq).
  assert (Hb : forall j, j ∈ S ++ i :: order.*2 -> (j < cnt)%nat) by (intros j; rewrite Hall, elem_of_seq; lia).
  pose proof (Permutation_length Hall) as Hlen. cbn in Hlen. rewrite length_app, length_seq in Hlen. cbn in Hlen.
  rewrite length_fmap in Hlen.
  destruct (assemble_step m0 S m i t) as (m' & Hs); [done | done | done | | | | |].
  - apply Hb, elem_of_app. right. by left.
  - apply list.NoDup_app in Hnd as (_ & Hd & _). intros HS. apply (Hd i HS). by left.
  - by apply list.NoDup_app in Hnd as (? & _).
  - intros j Hj. apply Hb, elem_of_app. by left.
  - cbn [map receive_all fst snd]. case_decide as Hd; destruct Hs as [Hm' ->].
    + subst m'. destruct order; [done | cbn in Hlen; lia].
    + destruct order as [|q order]; [cbn in Hlen; lia |].
      rewrite (IH (i :: S) m'); [cbn; by rewrite Nat.sub_0_r | done | | done].
      rewrite <- Hall. cbn. apply Permutation_middle.
Qed.
End transfer.

(** The chunks of a forward are the frames of one transfer. *)
Lemma chunk_layer_forward_frames f size :
  Z.max size 1 < blen (lf_activations f) -> div_ceil (blen (lf_activations f)) (Z.max size 1) <= MAX_TOTAL_CHUNKS ->
  exists ps, concat ps = lf_activations f /\ (0 < length ps <= Z.to_nat MAX_TOTAL_CHUNKS)%nat /\
    chunk_layer_forward f size = map (frame f ps) (seq 0 (length ps)).
Proof.
  intros Hlt Hmax. set (sz := Z.max size 1) in *. set (n := div_ceil (blen (lf_activations f)) sz) in *.
  assert (Hsz : 1 <= sz) by lia.
  assert (Hn : 1 <= n /\ blen (lf_activations f) <= n * sz).
  { unfold n, div_ceil. pose proof (Z.mod_pos_bound (blen (lf_activations f) + sz - 1) sz ltac:(lia)).
    pose proof (Z.div_mod (blen (lf_activations f) + sz - 1) sz ltac:(lia)). nia. }
  exists (map (chunk_payload (lf_activations f) sz) (seq 0 (Z.to_nat n))).
  rewrite length_map, length_seq. split; [|split].
  - rewrite <- (Z2Nat.id sz) by lia. rewrite concat_payloads. cbn. apply take_ge. unfold blen in *. nia.
  - unfold MAX_TOTAL_CHUNKS in *. lia.
  - unfold chunk_layer_forward. fold sz. rewrite (proj2 (Z.leb_gt _ _)) by lia. fold n.
    rewrite Z.min_l by (unfold MAX_TOTAL_CHUNKS, u32_max in *; lia).
    apply list.Forall_fmap_ext_1, list.Forall_forall. intros i Hi. apply elem_of_seq in Hi. unfold frame.
    rewrite length_map, length_seq, Z2Nat.id by lia. f_equal.
    symmetry. apply list_lookup_total_correct. rewrite list_lookup_fmap, lookup_seq_lt by lia. done.
Qed.

(** *** The pending table *)

Lemma omap_insert_none (l : list (option bytes)) i a :
  l !! i = Some None -> length (omap id (<[i := Some a]> l)) = S (length (omap id l)).
Proof.
  revert i. induction l as [|x l IH]; intros i; [done |]. destruct i as [|i]; cbn.
  - intros [= ->]. done.
  - intros H. destruct x; cbn; by rewrite IH.
Qed.

Lemma omap_length_le (l : list (option bytes)) : (length (omap id l) <= length l)%nat.
Proof. induction l as [|[?|] l IH]; cbn; lia. Qed.

Lemma omap_replicate_none n : omap id (replicate n (@None bytes)) = [].
Proof. by induction n. Qed.

Lemma assembly_put s i acts now :
  assembly_wf s -> ca_received s !! i = Some None ->
  let s' := put_chunk s i acts (ca_filled s + 1) now in assembly_wf s' /\ ca_filled s' <= ca_total_chunks s'.
Proof.
  intros (H1 & H2 & H3 & H4) Hi. unfold assembly_wf. cbn. rewrite length_insert, omap_insert_none, H3 by done.
  split_and!; [lia | lia | lia | done |].
  assert (H : (length (omap id (<[i := Some acts]> (ca_received s))) <= length (ca_received s))%nat).
  { etrans; [apply omap_length_le |]. by rewrite length_insert. }
  rewrite omap_insert_none in H by done. lia.
Qed.

Lemma file_chunk_ok f cm sender now m :
  assemblies_ok m -> 0 <= chunk_idx cm < total_chunks cm -> total_chunks cm <= MAX_TOTAL_CHUNKS ->
  match file_chunk f cm sender now m with
  | Panic => False
  | Err _ => True
  | Ok m' => exists s, m' = <[lf_request_id f := s]> m /\ assembly_wf s /\ ca_filled s <= ca_total_chunks s /\
      ca_sender s = sender
  end.
Proof.
  intros Hm Hi Hmax. unfold file_chunk. destruct (m !! lf_request_id f) as [s|] eqn:E.
  - destruct (Hm _ _ E) as [Hw _]. destruct (Z.eqb_spec (ca_total_chunks s) (total_chunks cm)); [|done].
    cbn [negb]. case_bool_decide as Hs; [done |].
    destruct (ca_received s !! Z.to_nat (chunk_idx cm)) as [[?|]|] eqn:Er; [done | |].
    + eexists. split; [done |]. destruct (assembly_put s _ (lf_activations f) now Hw Er). done.
    + destruct Hw as (H1 & _). apply lookup_ge_None in Er. lia.
  - set (s := assembly_new _ _ _ _). assert (Er : ca_received s !! Z.to_nat (chunk_idx cm) = Some None).
    { cbn. apply lookup_replicate_2. lia. }
    assert (Hw : assembly_wf s).
    { unfold assembly_wf. cbn. rewrite length_replicate, omap_replicate_none. split_and!; [lia | done..]. }
    rewrite Er. eexists. split; [done |]. change 1 with (ca_filled s + 1).
    destruct (assembly_put s _ (lf_activations f) now Hw Er). done.
Qed.

(** Whatever chunk arrives, filing it never panics and keeps the table sound; a
    refused chunk leaves the table as it was, only the entry of its own request can
    change, and what is handed out is whole, stamped with its sender, and gone. *)
Lemma assembly_stays_sound f sender now m :
  assemblies_ok m -> (forall cm, lf_chunk_meta f = Some cm -> 0 <= chunk_idx cm) ->
  let '(m', r) := try_assemble_chunked_forward f sender now m in
  safe r /\ assemblies_ok m' /\ (forall e, r = Err e -> m' = m) /\
  (forall id, id <> lf_request_id f -> m' !! id = m !! id) /\
  (forall g, r = Ok (Some g) -> m' !! lf_request_id f = None /\ lf_chunk_meta g = None /\
     lf_sender_peer_bytes g = Some sender).
Proof.
  intros Hm Hi. unfold try_assemble_chunked_forward. destruct (lf_chunk_meta f) as [cm|]; [|by split_and!].
  specialize (Hi cm eq_refl). destruct (_ || _) eqn:Eb; [by split_and! |].
  destruct (Z.ltb_spec MAX_TOTAL_CHUNKS (total_chunks cm)); [by split_and! |].
  pose proof (file_chunk_ok f cm sender now m Hm ltac:(lia) ltac:(lia)) as Hf.
  destruct (file_chunk f cm sender now m) as [m1|e|]; [|by split_and! | done].
  destruct Hf as (s & -> & Hw & Hle & Hs). rewrite lookup_insert_eq. unfold is_complete.
  destruct (Z.eqb_spec (ca_filled s) (ca_total_chunks s)) as [Hc|Hc].
  - rewrite delete_insert_eq. split_and!; [done | by apply map_Forall_delete | done | |].
    + intros id Hid. by apply lookup_delete_ne.
    + intros g [= <-]. cbn. split_and!; [apply lookup_delete_eq | by destruct Hw as (_ & _ & _ & ?) | by rewrite Hs].
  - split_and!; [done | | done | | done].
    + apply map_Forall_insert_2; [|done]. split; [done | lia].
    + intros id Hid. by apply lookup_insert_ne.
Qed.

(** The sweep keeps the table sound, and keeps exactly the fresh transfers. *)
Lemma sweep_keeps_sound (m : Assemblies) floor ttl now :
  assemblies_ok m -> floor <= now - ttl ->
  let m' := (sweep_stale_chunk_assemblies floor ttl now m).1 in
  assemblies_ok m' /\ forall id s, m' !! id = Some s <-> m !! id = Some s /\ now - ca_last_update_at s <= ttl.
Proof.
  intros Hm Hf. unfold sweep_stale_chunk_assemblies. rewrite (proj2 (Z.ltb_ge _ _)) by lia. cbn. split.
  - intros id s [Hs _]%map_lookup_filter_Some. exact (Hm id s Hs).
  - intros id s. rewrite map_lookup_filter_Some. split; intros [? ?]; (split; [done | lia]).
Qed.

(** A chunked activation arrives whole.  The chunks [chunk_layer_forward] makes,
    received in any order and at any times, are all held back but the last, which
    hands out the forward with exactly the activations that were split, and the
    table is left as it was. *)
Theorem chunks_assemble_in_any_order f size sender m frames :
  Z.max size 1 < blen (lf_activations f) ->
  div_ceil (blen (lf_activations f)) (Z.max size 1) <= MAX_TOTAL_CHUNKS ->
  m !! lf_request_id f = None -> frames.*2 ≡ₚ chunk_layer_forward f size ->
  receive_all frames sender m =
    (m, replicate (length frames - 1) (Ok None) ++
        [Ok (Some (with_transport f (lf_activations f) None (Some sender)))]).
Proof.
  intros Hlt Hmax Hm Hp. destruct (chunk_layer_forward_frames f size Hlt Hmax) as (ps & Hc & Hn & E).
  rewrite E in Hp. assert (exists order, frames = map (fun p => (p.1, frame f ps p.2)) order /\
    order.*2 ≡ₚ seq 0 (length ps)) as (order & -> & Ho).
  { apply Permutation_map_inv in Hp as (l & Hl & Hpl).
    exists (zip frames.*1 l). assert (Hlen : length l = length frames).
    { apply (f_equal length) in Hl. by rewrite !length_map in Hl. }
    split.
    - rewrite <- (zip_fst_snd frames) at 1. rewrite Hl. clear. revert l.
      induction frames as [|[t g] frames IH]; intros [|i l]; cbn; [done.. |]. f_equal. apply IH.
    - rewrite snd_zip by (rewrite length_fmap; lia). by symmetry. }
  rewrite length_map, <- Hc. apply receive_rest with (S := []); [done | done | done | done |].
  intros ->. apply Permutation_length in Ho. rewrite length_seq in Ho. cbn in Ho. lia.
Qed.

(** ** Witnesses *)

Definition chunk_sample : LayerForward := {|
  lf_request_id := replicate 16 7; lf_sequence_num := 3; lf_index_pos := 11;
  lf_activations := [1; 2; 3; 4; 5]; lf_format := FP32; lf_model_id := [113; 119]; lf_layer_range := (4, 12);
  lf_tp_meta := None; lf_vision_embeddings := None; lf_chain := []; lf_sender_peer_bytes := None;
  lf_requester_node_id := None; lf_pre_embedded := false; lf_generated_ids := [];
  lf_sampling := None; lf_adapter_id := None; lf_draft_tokens := [];
  lf_spec_logits_requested := false; lf_spec_walk_at_tail := false; lf_coupling_seed := None;
  lf_stream_seq := None; lf_truncate_kv_to := None; lf_prompt_cache := None; lf_chunk_meta := None;
  lf_prompt_span := None; lf_image_spans := []; lf_draft_parents := []; lf_draft_tree_from := None;
  lf_stream_lookahead := None; lf_stream_branch := None |}.

(** Three chunks of two bytes, the last one first. *)
Definition sample_frames : list (Z * LayerForward) :=
  zip [10; 20; 30] (reverse (chunk_layer_forward chunk_sample 2)).

Example sample_chunk_payloads :
  map lf_activations (chunk_layer_forward chunk_sample 2) = [[1; 2]; [3; 4]; [5]].
Proof. reflexivity. Qed.

Lemma chunks_assemble_in_any_order_witness :
  receive_all sample_frames [42] ∅ =
    (∅, [Ok None; Ok None; Ok (Some (with_transport chunk_sample [1; 2; 3; 4; 5] None (Some [42])))]).
Proof.
  apply (chunks_assemble_in_any_order chunk_sample 2 [42] ∅ sample_frames).
  - reflexivity.
  - vm_compute. discriminate.
  - reflexivity.
  - apply (reverse_Permutation (chunk_layer_forward chunk_sample 2)).
Defined.
