(* ===== verification/ResultCodec.v ===== *)
(** * The LayerResult wire format

    [src/network/protocol/layer_result.rs].  [serde_json] is not part of the
    repository: the two functions the code calls on token logprobs are
    parameters of the section, with the round trip serde documents for finite
    numbers as a hypothesis of the theorems that need it. *)
From S2P Require Import Prelude Bytes Utf8 ForwardTypes ForwardCodec ForwardFrames ForwardSafety.

Definition MAX_LOGPROBS_JSON_BYTES : Z := 4194304.
Definition MAX_SPEC_LOGITS_VOCAB : Z := 512000.

(** [while end > 0 && !s.is_char_boundary(end) { end -= 1 }]. *)
Fixpoint boundary_below (s : bytes) (stop : nat) : nat :=
  match stop with
  | O => O
  | S n => if is_char_boundary s stop then stop else boundary_below s n
  end.

Definition cap_utf8_to_bytes (s : bytes) (max : nat) : bytes :=
  take (boundary_below s (Nat.min (length s) max)) s.

(** A length-prefixed run of bytes. *)
Definition with_len (b : bytes) : bytes := le_bytes 4 (blen b) ++ b.

Definition logits_bytes (logits : list Z) : bytes :=
  le_bytes 4 (blen logits) ++ concat (map (le_bytes 4) logits).

Section serde.
Context (to_json : list TokenLogProbEntry -> option bytes).
Context (from_json : bytes -> option (list TokenLogProbEntry)).

(** ** Encoder *)

Definition finish_bytes (r : option NetworkFinishReason) : bytes :=
  match r with
  | None => [0]
  | Some Stop => [1]
  | Some MaxTokens => [2]
  | Some (FinishError msg) => 3 :: with_len (cap_utf8_to_bytes msg 4096)
  end.

Definition append_spec_logits (buf : bytes) (r : LayerResult) : outcome bytes :=
  match lr_spec_logits r with
  | [] => Ok buf
  | rows =>
      if u16_max <? blen rows
      then Err (Network ("spec_logits too many positions: " +:+ pretty (blen rows)))
      else if existsb (fun logits => u32_max <? blen logits) rows
      then Err (Network "spec_logits vocab too large")
      else Ok (buf ++ 0x03 :: le_bytes 2 (blen rows) ++ concat (map logits_bytes rows))
  end.

Definition append_stop (buf : bytes) (r : LayerResult) : bytes :=
  match lr_matched_stop_sequence r with
  | None => buf
  | Some matched => buf ++ 0x04 :: with_len (cap_utf8_to_bytes matched 4096)
  end.

Definition append_logprobs (buf : bytes) (r : LayerResult) : outcome bytes :=
  match lr_token_logprobs r with
  | [] => Ok buf
  | entries =>
      json ← ok_or (to_json entries) (Network "token_logprobs serialization failed");
      if MAX_LOGPROBS_JSON_BYTES <? blen json
      then Err (Network ("token_logprobs payload too large: " +:+ pretty (blen json) +:+ " > "
                         +:+ pretty MAX_LOGPROBS_JSON_BYTES))
      else Ok (buf ++ 0x05 :: with_len json)
  end.

Definition append_refusal (buf : bytes) (r : LayerResult) : bytes :=
  match lr_refusal r with None => buf | Some c => buf ++ [0x06; wire_code c] end.

Definition append_step (buf : bytes) (r : LayerResult) : bytes :=
  match lr_answers_step r with
  | None => buf
  | Some st =>
      let buf := buf ++ 0x07 :: le_bytes 4 (st_index_pos st) ++ le_bytes 4 (fst (st_layer_range st))
                     ++ le_bytes 4 (snd (st_layer_range st)) in
      match st_stream_seq st with None => buf | Some seq => buf ++ 0x08 :: le_bytes 4 seq end
  end.

Definition append_stored (buf : bytes) (r : LayerResult) : bytes :=
  match lr_prompt_blocks_stored r with None => buf | Some n => buf ++ 0x09 :: le_bytes 4 n end.

Definition append_served (buf : bytes) (r : LayerResult) : bytes :=
  match lr_served_us r with None => buf | Some us => buf ++ 0x0A :: le_bytes 4 us end.

(** [encode_layer_result]. *)
Definition encode_layer_result (r : LayerResult) : outcome bytes :=
  let num_tokens := blen (lr_token_ids r) in
  if MAX_RESULT_TOKENS <? num_tokens
  then Err (Network ("LayerResult token_ids too large: " +:+ pretty num_tokens +:+ " > "
                     +:+ pretty MAX_RESULT_TOKENS))
  else if MAX_ACTIVATION_SIZE <? blen (lr_activations r)
  then Err (Network ("LayerResult activations too large: " +:+ pretty (blen (lr_activations r))
                     +:+ " > " +:+ pretty MAX_ACTIVATION_SIZE))
  else
    let buf := TENSOR_TAG_RESULT :: lr_request_id r ++ le_bytes 4 num_tokens
      ++ concat (map (le_bytes 4) (lr_token_ids r)) ++ finish_bytes (lr_finish_reason r)
      ++ with_len (lr_activations r) in
    buf ← append_spec_logits buf r;
    let buf := append_stop buf r in
    buf ← append_logprobs buf r;
    let buf := append_refusal buf r in
    let buf := append_step buf r in
    let buf := append_stored buf r in
    Ok (append_served buf r).

(** ** Decoder *)

(** The finish reason and the slice after it. *)
Definition read_finish (d : bytes) : outcome (option NetworkFinishReason * bytes) :=
  tag ← idx d 0;
  let d := drop 1 d in
  if tag =? 0 then Ok (None, d)
  else if tag =? 1 then Ok (Some Stop, d)
  else if tag =? 2 then Ok (Some MaxTokens, d)
  else if tag =? 3 then
    if 4 <=? blen d then
      msg_len ← u32_at d 0;
      let d := drop 4 d in
      let capped_len := Z.min (Z.min msg_len 4096) (blen d) in
      raw ← slice d 0 (Z.to_nat capped_len);
      Ok (Some (FinishError (from_utf8_lossy raw)), drop (Z.to_nat (Z.min msg_len (blen d))) d)
    else Ok (Some (FinishError []), d)
  else Err (Network ("Unknown finish reason tag: " +:+ pretty tag)).

Definition read_activations (d : bytes) : outcome (bytes * bytes) :=
  if 4 <=? blen d then
    act_len ← u32_at d 0;
    let d := drop 4 d in
    if MAX_ACTIVATION_SIZE <? act_len
    then Err (Network ("Activation data too large: " +:+ pretty act_len +:+ " bytes"))
    else if (0 <? act_len) && (act_len <=? blen d) then
      v ← slice d 0 (Z.to_nat act_len);
      Ok (v, drop (Z.to_nat act_len) d)
    else Ok ([], d)
  else Ok ([], d).

Fixpoint read_f32s (n : nat) (d : bytes) : outcome (list Z) :=
  match n with
  | O => Ok []
  | S n =>
      v ← u32_at d 0;
      if negb (F32.is_finite v)
      then Err (Network "spec_logits contains non-finite f32 (NaN/Inf rejected)")
      else vs ← read_f32s n (drop 4 d); Ok (v :: vs)
  end.

Fixpoint read_rows (n : nat) (d : bytes) : outcome (list (list Z) * bytes) :=
  match n with
  | O => Ok ([], d)
  | S n =>
      if blen d <? 4 then Err (Network "spec_logits vocab_len truncated")
      else
        vocab_len ← u32_at d 0;
        let d := drop 4 d in
        if MAX_SPEC_LOGITS_VOCAB <? vocab_len
        then Err (Network ("spec_logits vocab_len " +:+ pretty vocab_len +:+ " > "
                           +:+ pretty MAX_SPEC_LOGITS_VOCAB))
        else if blen d <? vocab_len * 4 then Err (Network "spec_logits payload truncated")
        else
          v ← read_f32s (Z.to_nat vocab_len) d;
          '(rows, d) ← read_rows n (drop (Z.to_nat (vocab_len * 4)) d);
          Ok (v :: rows, d)
  end.

Definition read_spec_logits (d : bytes) : outcome (list (list Z) * bytes) :=
  here ← at_marker d 1 0x03;
  if (here : bool) then
    let d := drop 1 d in
    if blen d <? 2 then Err (Network "spec_logits header truncated")
    else
      num_positions ← u16_at d 0;
      if MAX_SPEC_LOGITS_POSITIONS <? num_positions
      then Err (Network ("spec_logits num_positions " +:+ pretty num_positions +:+ " > "
                         +:+ pretty MAX_SPEC_LOGITS_POSITIONS))
      else read_rows (Z.to_nat num_positions) (drop 2 d)
  else Ok ([], d).

(** The length-prefixed body of trailers 0x04 and 0x05. *)
Definition read_body (d : bytes) (max : Z) (hdr big short : string) : outcome (bytes * bytes) :=
  if blen d <? 4 then Err (Network hdr)
  else
    len ← u32_at d 0;
    let d := drop 4 d in
    if max <? len then Err (Network (big +:+ pretty len))
    else if blen d <? len then Err (Network short)
    else b ← slice d 0 (Z.to_nat len); Ok (b, drop (Z.to_nat len) d).

Definition read_stop (d : bytes) : outcome (option bytes * bytes) :=
  here ← at_marker d 1 0x04;
  if (here : bool) then
    '(b, d) ← read_body (drop 1 d) 4096 "matched_stop_sequence header truncated"
      "matched_stop_sequence too long: " "matched_stop_sequence payload truncated";
    Ok (Some (from_utf8_lossy b), d)
  else Ok (None, d).

Definition read_logprobs (d : bytes) : outcome (list TokenLogProbEntry * bytes) :=
  here ← at_marker d 1 0x05;
  if (here : bool) then
    '(b, d) ← read_body (drop 1 d) MAX_LOGPROBS_JSON_BYTES "token_logprobs header truncated"
      "token_logprobs payload too large: " "token_logprobs payload truncated";
    entries ← ok_or (from_json b) (Network "token_logprobs deserialization failed");
    Ok (entries, d)
  else Ok ([], d).

Definition read_refusal (d : bytes) : outcome (option ForwardRefusal * bytes) :=
  here ← at_marker d 1 0x06;
  if (here : bool) then
    match d !! 1%nat with
    | None => Err (Network "refusal trailer truncated")
    | Some code => Ok (from_wire_code code, drop 2 d)
    end
  else Ok (None, d).

Definition read_word_trailer (marker : Z) (short : string) (d : bytes) : outcome (option Z * bytes) :=
  here ← at_marker d 1 marker;
  if (here : bool) then
    if blen d <? 5 then Err (Network short) else n ← u32_at d 1; Ok (Some n, drop 5 d)
  else Ok (None, d).

Definition read_step (d : bytes) : outcome (option ResultStep * bytes) :=
  here ← at_marker d 1 0x07;
  if (here : bool) then
    if blen d <? 13 then Err (Network "step trailer truncated")
    else
      ip ← u32_at d 1; ls ← u32_at d 5; le ← u32_at d 9;
      '(seq, d) ← read_word_trailer 0x08 "stream trailer truncated" (drop 13 d);
      Ok (Some {| st_index_pos := ip; st_layer_range := (ls, le); st_stream_seq := seq |}, d)
  else Ok (None, d).

Definition read_stored := read_word_trailer 0x09 "prompt-cache trailer truncated".
Definition read_served := read_word_trailer 0x0A "served-time trailer truncated".

(** [decode_layer_result]. *)
Definition decode_layer_result (data : bytes) : outcome LayerResult :=
  let d := strip_tag TENSOR_TAG_RESULT data in
  if blen d <? 21 then Err (Network "LayerResult envelope too short")
  else
    request_id ← slice d 0 16; num_tokens ← u32_at d 16;
    if MAX_RESULT_TOKENS <? num_tokens
    then Err (Network ("num_tokens exceeds maximum (" +:+ pretty MAX_RESULT_TOKENS +:+ ")"))
    else if blen d <? 20 + num_tokens * 4 + 1 then Err (Network "LayerResult truncated")
    else
      token_ids ← read_les 4 (Z.to_nat num_tokens) (drop 20 d);
      '(finish, d) ← read_finish (drop (20 + Z.to_nat num_tokens * 4) d);
      '(activations, d) ← read_activations d;
      '(logits, d) ← read_spec_logits d;
      '(stop, d) ← read_stop d;
      '(logprobs, d) ← read_logprobs d;
      '(refusal, d) ← read_refusal d;
      '(st, d) ← read_step d;
      '(stored, d) ← read_stored d;
      '(served, d) ← read_served d;
      Ok {| lr_request_id := request_id; lr_token_ids := token_ids; lr_finish_reason := finish;
            lr_activations := activations; lr_sealed_token_ids := None; lr_spec_logits := logits;
            lr_matched_stop_sequence := stop; lr_token_logprobs := logprobs;
            lr_locally_constructed := false; lr_refusal := refusal; lr_answers_step := st;
            lr_prompt_blocks_stored := stored; lr_served_us := served |}.
End serde.

(** ** Cutting a string at a character boundary *)

Lemma boundary_below_spec s n : (boundary_below s n <= n)%nat /\ is_char_boundary s (boundary_below s n) = true.
Proof.
  induction n as [|n [IH1 IH2]]; cbn [boundary_below]; [by split |].
  destruct (is_char_boundary s (S n)) eqn:E; [by split | split; [lia | done]].
Qed.

Lemma cap_utf8_valid s max : from_utf8 s = true -> from_utf8 (cap_utf8_to_bytes s max) = true.
Proof.
  intros H. destruct (boundary_below_spec s (Nat.min (length s) max)) as [Hl Hb].
  apply from_utf8_take; [done | lia | done].
Qed.

Lemma cap_utf8_length s max : (length (cap_utf8_to_bytes s max) <= max)%nat.
Proof.
  unfold cap_utf8_to_bytes. rewrite length_take.
  destruct (boundary_below_spec s (Nat.min (length s) max)). lia.
Qed.

Lemma cap_utf8_short s max : (length s <= max)%nat -> cap_utf8_to_bytes s max = s.
Proof.
  intros H. unfold cap_utf8_to_bytes. rewrite Nat.min_l by done.
  assert (boundary_below s (length s) = length s) as ->; [|by rewrite firstn_all].
  destruct (length s) as [|n] eqn:E; [done |]. cbn [boundary_below].
  unfold is_char_boundary. rewrite E, Nat.eqb_refl, orb_true_r. done.
Qed.

(** ** What a result's fields are, and what survives the wire *)

Record typed_result (r : LayerResult) : Prop := {
  tr_request_id : length (lr_request_id r) = 16%nat /\ is_bytes (lr_request_id r);
  tr_tokens : Forall is_u32 (lr_token_ids r);
  tr_error : match lr_finish_reason r with Some (FinishError m) => from_utf8 m = true | _ => True end;
  tr_logits : Forall (Forall is_u32) (lr_spec_logits r);
  tr_stop : opt (fun s => from_utf8 s = true) (lr_matched_stop_sequence r);
  tr_step : opt (fun s => is_u32 (st_index_pos s) /\ is_u32 (fst (st_layer_range s)) /\
              is_u32 (snd (st_layer_range s)) /\ opt is_u32 (st_stream_seq s)) (lr_answers_step r);
  tr_stored : opt is_u32 (lr_prompt_blocks_stored r);
  tr_served : opt is_u32 (lr_served_us r) }.

(** The sizes the receiver insists on, and finite logits. *)
Record result_limits (r : LayerResult) : Prop := {
  rl_tokens : blen (lr_token_ids r) <= MAX_RESULT_TOKENS;
  rl_activations : blen (lr_activations r) <= MAX_ACTIVATION_SIZE;
  rl_positions : blen (lr_spec_logits r) <= MAX_SPEC_LOGITS_POSITIONS;
  rl_vocab : Forall (fun row => blen row <= MAX_SPEC_LOGITS_VOCAB) (lr_spec_logits r);
  rl_finite : Forall (Forall (fun v => F32.is_finite v = true)) (lr_spec_logits r) }.

Definition capped_finish (o : option NetworkFinishReason) : option NetworkFinishReason :=
  match o with Some (FinishError m) => Some (FinishError (cap_utf8_to_bytes m 4096)) | o => o end.

(** A result as the receiver of an untouched frame sees it. *)
Definition received_result (r : LayerResult) : LayerResult := {|
  lr_request_id := lr_request_id r; lr_token_ids := lr_token_ids r;
  lr_finish_reason := capped_finish (lr_finish_reason r);
  lr_activations := lr_activations r; lr_sealed_token_ids := None;
  lr_spec_logits := lr_spec_logits r;
  lr_matched_stop_sequence := option_map (fun s => cap_utf8_to_bytes s 4096) (lr_matched_stop_sequence r);
  lr_token_logprobs := lr_token_logprobs r; lr_locally_constructed := false;
  lr_refusal := lr_refusal r; lr_answers_step := lr_answers_step r;
  lr_prompt_blocks_stored := lr_prompt_blocks_stored r; lr_served_us := lr_served_us r |}.

(** ** Each part: its reader undoes its writer *)

Lemma capped_len m rest : let s := cap_utf8_to_bytes m 4096 in
  0 <= blen s <= 4096 /\ blen s <= blen (s ++ rest).
Proof.
  pose proof (cap_utf8_length m 4096). cbv zeta. rewrite blen_app. unfold blen. lia.
Qed.

Lemma read_finish_written r rest :
  match r with Some (FinishError m) => from_utf8 m = true | _ => True end ->
  read_finish (finish_bytes r ++ rest) = Ok (capped_finish r, rest).
Proof.
  destruct r as [[| |m]|]; intros Hm; try done. unfold read_finish. cbn [finish_bytes app].
  rewrite idx_cons_0, drop_cons_S. cbn [mbind outcome_bind Z.eqb Pos.eqb].
  unfold with_len. rewrite <- app_assoc, drop_0. set (s := cap_utf8_to_bytes m 4096).
  destruct (capped_len m rest) as [Hs Hs']. fold s in Hs, Hs'.
  rewrite (proj2 (Z.leb_le 4 _)) by (rewrite blen_app, blen_le_bytes; lia).
  rewrite le_at_head by (change (256 ^ Z.of_nat 4) with 4294967296; lia). cbn [mbind outcome_bind].
  rewrite drop_skip4, drop_0. rewrite (Z.min_l (blen s) 4096), (Z.min_l (blen s) (blen _)) by lia.
  rewrite slice_prefix', drop_app_length' by (unfold blen; lia). cbn [mbind outcome_bind capped_finish].
  by rewrite from_utf8_lossy_valid by (by apply cap_utf8_valid).
Qed.

Lemma read_activations_written a rest :
  blen a <= MAX_ACTIVATION_SIZE -> read_activations (with_len a ++ rest) = Ok (a, rest).
Proof.
  intros Ha. unfold read_activations, with_len, MAX_ACTIVATION_SIZE in *. rewrite <- app_assoc.
  pose proof (blen_nonneg a). pose proof (blen_nonneg rest).
  rewrite (proj2 (Z.leb_le 4 _)) by (rewrite !blen_app, blen_le_bytes; lia).
  rewrite le_at_head by (change (256 ^ Z.of_nat 4) with 4294967296; lia). cbn [mbind outcome_bind].
  rewrite drop_skip4, drop_0, (proj2 (Z.ltb_ge _ _)) by lia.
  rewrite blen_app, (proj2 (Z.leb_le (blen a) _)), andb_true_r by lia.
  destruct (Z.ltb_spec 0 (blen a)).
  - rewrite slice_prefix', drop_app_length' by (unfold blen; lia). done.
  - destruct a; [done |]. unfold blen in *; cbn in *; lia.
Qed.

Lemma read_f32s_written vs rest :
  Forall is_u32 vs -> Forall (fun v => F32.is_finite v = true) vs ->
  read_f32s (length vs) (concat (map (le_bytes 4) vs) ++ rest) = Ok vs.
Proof.
  induction 1 as [|v vs Hv _ IH]; intros Hf; [done |]. apply Forall_cons_1 in Hf as [Hfin Hf].
  cbn [length concat map read_f32s]. rewrite <- app_assoc. rd. rewrite Hfin. cbn [negb].
  by rewrite IH.
Qed.

Lemma logits_bytes_length row : length (logits_bytes row) = (4 + length row * 4)%nat.
Proof. unfold logits_bytes. by rewrite length_app, length_le_bytes, length_concat_le_bytes. Qed.

Lemma read_rows_written rows rest :
  Forall (Forall is_u32) rows -> Forall (Forall (fun v => F32.is_finite v = true)) rows ->
  Forall (fun row => blen row <= MAX_SPEC_LOGITS_VOCAB) rows ->
  read_rows (length rows) (concat (map logits_bytes rows) ++ rest) = Ok (rows, rest).
Proof.
  unfold MAX_SPEC_LOGITS_VOCAB.
  induction 1 as [|row rows Hr _ IH]; intros Hf Hv; [done |].
  apply Forall_cons_1 in Hf as [Hf Hfs]. apply Forall_cons_1 in Hv as [Hv Hvs].
  cbn [length concat map read_rows]. rewrite <- app_assoc.
  set (tail := concat (map logits_bytes rows) ++ rest) in *. unfold logits_bytes. rewrite <- app_assoc.
  pose proof (blen_nonneg row). pose proof (blen_nonneg tail).
  assert (blen (concat (map (le_bytes 4) row)) = blen row * 4) as Hc.
  { unfold blen. rewrite length_concat_le_bytes. lia. }
  rewrite (proj2 (Z.ltb_ge _ 4)) by (rewrite !blen_app, blen_le_bytes; lia). rd.
  unfold MAX_SPEC_LOGITS_VOCAB. rewrite (proj2 (Z.ltb_ge 512000 _)) by lia.
  rewrite (proj2 (Z.ltb_ge _ (blen row * 4))) by (rewrite blen_app; lia).
  replace (Z.to_nat (blen row)) with (length row) by (unfold blen; lia).
  rewrite read_f32s_written by done. cbn [mbind outcome_bind].
  rewrite drop_app_length' by (unfold blen in *; lia). by rewrite IH.
Qed.

Lemma above_head_absent k d : rest_above k d -> at_marker d 1 k = Ok false.
Proof. by apply at_marker_above. Qed.

(** The trailers of a result. *)
Definition spec_part (r : LayerResult) : bytes :=
  match lr_spec_logits r with
  | [] => []
  | rows => 0x03 :: le_bytes 2 (blen rows) ++ concat (map logits_bytes rows)
  end.

Lemma append_spec_logits_app buf r :
  result_limits r -> append_spec_logits buf r = Ok (buf ++ spec_part r).
Proof.
  intros Hl. pose proof (rl_positions r Hl) as Hp. pose proof (rl_vocab r Hl) as Hv.
  unfold append_spec_logits, spec_part. destruct (lr_spec_logits r) as [|row rows]; [by rewrite app_nil_r |].
  unfold MAX_SPEC_LOGITS_POSITIONS, MAX_SPEC_LOGITS_VOCAB in *.
  rewrite (proj2 (Z.ltb_ge u16_max _)) by ints.
  destruct (existsb _ _) eqn:E; [|done]. exfalso. apply existsb_exists in E as (x & Hin & Hx).
  rewrite List.Forall_forall in Hv. specialize (Hv x Hin). zsimp. ints.
Qed.

Lemma read_spec_logits_written r rest :
  typed_result r -> result_limits r -> rest_above 0x03 rest ->
  read_spec_logits (spec_part r ++ rest) = Ok (lr_spec_logits r, rest).
Proof.
  intros Hr Hl Ha. pose proof (rl_positions r Hl) as Hp. pose proof (tr_logits r Hr) as Ht.
  pose proof (rl_vocab r Hl) as Hv. pose proof (rl_finite r Hl) as Hf.
  unfold read_spec_logits, spec_part. destruct (lr_spec_logits r) as [|row rows]; [absent Ha |].
  remember (row :: rows) as all eqn:E. clear E row rows. unfold MAX_SPEC_LOGITS_POSITIONS in *.
  pose proof (blen_nonneg all). here. rd. rewrite (proj2 (Z.ltb_ge _ 2)).
  2:{ rewrite !blen_app, blen_le_bytes. pose proof (blen_nonneg (concat (map logits_bytes all))).
      pose proof (blen_nonneg rest). lia. }
  rd.
  rewrite (proj2 (Z.ltb_ge 32 _)) by lia.
  replace (Z.to_nat (blen all)) with (length all) by (unfold blen; lia). by apply read_rows_written.
Qed.

Lemma read_body_written b rest max h1 h2 h3 :
  blen b <= max -> max <= u32_max -> read_body (with_len b ++ rest) max h1 h2 h3 = Ok (b, rest).
Proof.
  intros Hb Hm. unfold read_body, with_len. rewrite <- app_assoc.
  pose proof (blen_nonneg b). pose proof (blen_nonneg rest).
  rewrite (proj2 (Z.ltb_ge _ 4)) by (rewrite !blen_app, blen_le_bytes; lia). rd.
  rewrite (proj2 (Z.ltb_ge max _)), (proj2 (Z.ltb_ge _ (blen b))) by (rewrite ?blen_app; lia).
  by rewrite slice_prefix', drop_app_length' by (unfold blen; lia).
Qed.

Lemma read_stop_written r rest :
  typed_result r -> rest_above 0x04 rest ->
  read_stop (append_stop [] r ++ rest) =
  Ok (option_map (fun s => cap_utf8_to_bytes s 4096) (lr_matched_stop_sequence r), rest).
Proof.
  intros Hr Ha. apply tr_stop in Hr. unfold read_stop, append_stop.
  destruct (lr_matched_stop_sequence r) as [s|]; cbn in Hr |- *; [|absent Ha].
  rewrite at_marker_here by (rewrite blen_cons; pose proof (blen_nonneg (with_len (cap_utf8_to_bytes s 4096) ++ rest)); lia).
  cbn [mbind outcome_bind]. rewrite ?drop_cons_S, ?drop_0.
  destruct (capped_len s rest). rewrite read_body_written by ints. cbn [mbind outcome_bind].
  by rewrite from_utf8_lossy_valid by (by apply cap_utf8_valid).
Qed.

Lemma read_refusal_written r rest :
  rest_above 0x06 rest -> read_refusal (append_refusal [] r ++ rest) = Ok (lr_refusal r, rest).
Proof.
  intros Ha. unfold read_refusal, append_refusal. destruct (lr_refusal r) as [[]|]; [|absent Ha].
  here. by rewrite !drop_cons_S.
Qed.

Lemma read_word_written marker short n rest :
  is_u32 n -> read_word_trailer marker short (marker :: le_bytes 4 n ++ rest) = Ok (Some n, rest).
Proof.
  intros Hn. unfold read_word_trailer. here. rewrite (proj2 (Z.ltb_ge _ 5)) by (blens; lia). by rd.
Qed.

Lemma read_step_written r rest :
  typed_result r -> rest_above 0x08 rest -> read_step (append_step [] r ++ rest) = Ok (lr_answers_step r, rest).
Proof.
  intros Hr Ha. apply tr_step in Hr. unfold read_step, append_step.
  destruct (lr_answers_step r) as [[ip [ls le] [seq|]]|]; cbn in Hr |- *.
  - destruct Hr as (? & ? & ? & ?). here. rewrite (proj2 (Z.ltb_ge _ 13)) by (blens; lia). rd.
    by rewrite read_word_written.
  - destruct Hr as (? & ? & ? & _). here. rewrite (proj2 (Z.ltb_ge _ 13)) by (blens; lia). rd.
    unfold read_word_trailer. by rewrite at_marker_above by done.
  - rewrite at_marker_above; [done | done |]. eapply rest_above_le; [|done]. lia.
Qed.

Lemma read_stored_written r rest :
  typed_result r -> rest_above 0x09 rest ->
  read_stored (append_stored [] r ++ rest) = Ok (lr_prompt_blocks_stored r, rest).
Proof.
  intros Hr Ha. apply tr_stored in Hr. unfold read_stored, append_stored.
  destruct (lr_prompt_blocks_stored r); cbn in Hr |- *; [by apply read_word_written |].
  unfold read_word_trailer. absent Ha.
Qed.

Lemma read_served_written r rest :
  typed_result r -> rest_above 0x0A rest ->
  read_served (append_served [] r ++ rest) = Ok (lr_served_us r, rest).
Proof.
  intros Hr Ha. apply tr_served in Hr. unfold read_served, append_served.
  destruct (lr_served_us r); cbn in Hr |- *; [by apply read_word_written |].
  unfold read_word_trailer. absent Ha.
Qed.

(** ** The frame *)

(** An entry serde_json can carry: JSON has no NaN and no infinity. *)
Definition finite_entry (e : TokenLogProbEntry) : Prop :=
  F32.is_finite (tl_logprob e) = true /\ Forall (fun p => F32.is_finite (snd p) = true) (tl_top_logprobs e).

Section frame.
Context (to_json : list TokenLogProbEntry -> option bytes).
Context (from_json : bytes -> option (list TokenLogProbEntry)).

(** The logprobs, if there are any, serialize to a payload within the cap. *)
Definition logprobs_fit (r : LayerResult) : Prop :=
  Forall finite_entry (lr_token_logprobs r) /\
  (lr_token_logprobs r <> [] ->
   exists json, to_json (lr_token_logprobs r) = Some json /\ blen json <= MAX_LOGPROBS_JSON_BYTES).

Definition json_part (r : LayerResult) : bytes :=
  match lr_token_logprobs r with
  | [] => []
  | entries => 0x05 :: with_len (default [] (to_json entries))
  end.

Lemma append_logprobs_app buf r : logprobs_fit r -> append_logprobs to_json buf r = Ok (buf ++ json_part r).
Proof.
  intros [_ Hfit]. unfold append_logprobs, json_part.
  destruct (lr_token_logprobs r); [by rewrite app_nil_r |]. destruct (Hfit ltac:(done)) as (json & E & Hj). rewrite E. cbn [ok_or mbind outcome_bind default].
  by rewrite (proj2 (Z.ltb_ge _ _)).
Qed.

Definition result_trailers (r : LayerResult) : bytes :=
  spec_part r ++ append_stop [] r ++ json_part r ++ append_refusal [] r ++ append_step [] r ++
  append_stored [] r ++ append_served [] r ++ [].

Lemma append_stop_app buf r : append_stop buf r = buf ++ append_stop [] r.
Proof. appends. Qed.
Lemma append_refusal_app buf r : append_refusal buf r = buf ++ append_refusal [] r.
Proof. appends. Qed.
Lemma append_stored_app buf r : append_stored buf r = buf ++ append_stored [] r.
Proof. appends. Qed.
Lemma append_served_app buf r : append_served buf r = buf ++ append_served [] r.
Proof. appends. Qed.
Lemma append_step_app buf r : append_step buf r = buf ++ append_step [] r.
Proof. unfold append_step. repeat case_match; rewrite ?app_nil_r, <-?app_assoc; done. Qed.

Definition result_head (r : LayerResult) : bytes :=
  lr_request_id r ++ le_bytes 4 (blen (lr_token_ids r)) ++ concat (map (le_bytes 4) (lr_token_ids r)).

Lemma encode_result_frame r :
  result_limits r -> logprobs_fit r ->
  encode_layer_result to_json r = Ok (TENSOR_TAG_RESULT :: result_head r ++
    finish_bytes (lr_finish_reason r) ++ with_len (lr_activations r) ++ result_trailers r).
Proof.
  intros Hl Hj. unfold encode_layer_result.
  rewrite (proj2 (Z.ltb_ge _ _)) by apply (rl_tokens r Hl).
  rewrite (proj2 (Z.ltb_ge _ _)) by apply (rl_activations r Hl).
  rewrite append_spec_logits_app by done. cbn [mbind outcome_bind].
  rewrite append_stop_app, append_logprobs_app by done. cbn [mbind outcome_bind].
  rewrite append_served_app, append_stored_app, append_step_app, append_refusal_app.
  unfold result_trailers, result_head. rewrite app_nil_r. cbn [app]. by rewrite <- !app_assoc.
Qed.

Lemma headed_result r :
  headed 0x04 (append_stop [] r) /\ headed 0x05 (json_part r) /\ headed 0x06 (append_refusal [] r) /\
  headed 0x07 (append_step [] r) /\ headed 0x09 (append_stored [] r) /\ headed 0x0A (append_served [] r).
Proof.
  unfold append_stop, json_part, append_refusal, append_step, append_stored, append_served.
  split_and!; repeat case_match; done.
Qed.

Hypothesis json_roundtrip : forall l json,
  Forall finite_entry l -> to_json l = Some json -> from_json json = Some l.

Lemma read_logprobs_written r rest :
  logprobs_fit r -> rest_above 0x05 rest ->
  read_logprobs from_json (json_part r ++ rest) = Ok (lr_token_logprobs r, rest).
Proof.
  intros (Hf & Hfit) Ha. unfold read_logprobs, json_part.
  destruct (lr_token_logprobs r) as [|e l]; [absent Ha |]. destruct (Hfit ltac:(done)) as (json & E & Hj). rewrite E.
  change (default [] (Some json)) with json. cbn [app].
  rewrite at_marker_here by (rewrite blen_cons; pose proof (blen_nonneg (with_len json ++ rest)); lia).
  cbn [mbind outcome_bind]. rewrite drop_cons_S, drop_0.
  rewrite read_body_written; [|done|done]. cbn [mbind outcome_bind].
  by rewrite (json_roundtrip _ _ Hf E).
Qed.

Lemma result_head_reads r d : typed_result r -> result_limits r ->
  slice (result_head r ++ d) 0 16 = Ok (lr_request_id r) /\
  u32_at (result_head r ++ d) 16 = Ok (blen (lr_token_ids r)) /\
  read_les 4 (Z.to_nat (blen (lr_token_ids r))) (drop 20 (result_head r ++ d)) = Ok (lr_token_ids r) /\
  drop (20 + Z.to_nat (blen (lr_token_ids r)) * 4) (result_head r ++ d) = d /\
  blen (result_head r ++ d) = 20 + blen (lr_token_ids r) * 4 + blen d.
Proof.
  intros Hr Hl. pose proof (tr_tokens r Hr) as Ht. apply rl_tokens in Hl. apply tr_request_id in Hr as [Hid _].
  unfold MAX_RESULT_TOKENS in *. pose proof (blen_nonneg (lr_token_ids r)). unfold result_head.
  rewrite <- !app_assoc. replace (Z.to_nat (blen (lr_token_ids r))) with (length (lr_token_ids r)) by (unfold blen; lia).
  split_and!.
  - by apply slice_prefix'.
  - change 16%nat with (16 + 0)%nat. rewrite <- Hid, le_at_skip. by rd.
  - change 20%nat with (16 + 4)%nat. rewrite <- Hid, drop_app_add' by done. rd.
    apply read_les_encode. revert Ht. apply Forall_impl. intros. ints.
  - change (20 + length (lr_token_ids r) * 4)%nat with (16 + (4 + length (lr_token_ids r) * 4))%nat.
    rewrite <- Hid, drop_app_add' by done. cbn [Nat.add]. rd. apply drop_app_length'.
    by rewrite length_concat_le_bytes.
  - autorewrite with blen. unfold blen. rewrite Hid, length_concat_le_bytes. lia.
Qed.

Lemma finish_bytes_pos o : 1 <= blen (finish_bytes o).
Proof. destruct o as [[]|]; unfold blen; cbn; lia. Qed.

Lemma decode_result_frame r :
  typed_result r -> result_limits r -> logprobs_fit r ->
  (encode_layer_result to_json r ≫= decode_layer_result from_json) = Ok (received_result r).
Proof.
  intros Hr Hl Hj. rewrite encode_result_frame by done. cbn [mbind outcome_bind].
  set (d := finish_bytes _ ++ with_len _ ++ result_trailers r).
  unfold decode_layer_result, strip_tag. rewrite Z.eqb_refl.
  destruct (result_head_reads r d Hr Hl) as (R1 & R2 & R3 & R4 & R5).
  pose proof (blen_nonneg (lr_token_ids r)).
  assert (1 <= blen d).
  { unfold d. rewrite blen_app. pose proof (blen_nonneg (with_len (lr_activations r) ++ result_trailers r)).
    pose proof (finish_bytes_pos (lr_finish_reason r)). lia. }
  rewrite (proj2 (Z.ltb_ge _ 21)), R1, R2 by lia. cbn [mbind outcome_bind].
  rewrite (proj2 (Z.ltb_ge MAX_RESULT_TOKENS _)) by apply (rl_tokens r Hl).
  rewrite (proj2 (Z.ltb_ge _ (20 + _ + 1))), R3, R4 by lia. cbn [mbind outcome_bind].
  unfold d, result_trailers. destruct (headed_result r) as (?&?&?&?&?&?).
  rewrite read_finish_written by apply (tr_error r Hr). cbn [mbind outcome_bind].
  rewrite read_activations_written by apply (rl_activations r Hl). cbn [mbind outcome_bind].
  rewrite read_spec_logits_written; [|done|done|above]; cbn [mbind outcome_bind].
  rewrite read_stop_written; [|done|above]; cbn [mbind outcome_bind].
  rewrite read_logprobs_written; [|done|above]; cbn [mbind outcome_bind].
  rewrite read_refusal_written; [|above]; cbn [mbind outcome_bind].
  rewrite read_step_written; [|done|above]; cbn [mbind outcome_bind].
  rewrite read_stored_written; [|done|above]; cbn [mbind outcome_bind].
  by rewrite read_served_written by done.
Qed.
End frame.

(** ** No panic *)

Lemma read_finish_safe d : 1 <= blen d -> safe (read_finish d).
Proof.
  intros H. unfold read_finish. safely.
Qed.

Lemma read_activations_safe d : safe (read_activations d).
Proof. unfold read_activations. safely. Qed.

Lemma read_f32s_safe n d : Z.of_nat n * 4 <= blen d -> safe (read_f32s n d).
Proof.
  revert d. induction n as [|n IH]; intros d H; [done |]. cbn [read_f32s]. safely.
  apply safe_bind; [apply IH; len | by intros].
Qed.

Lemma read_rows_safe n d : safe (read_rows n d).
Proof.
  revert d. induction n as [|n IH]; intros d; [done |]. cbn [read_rows]. safely.
  apply safe_bind; [apply read_f32s_safe; len | intros].
  apply safe_bind; [apply IH | by intros [? ?] _].
Qed.

Lemma read_spec_logits_safe d : safe (read_spec_logits d).
Proof. unfold read_spec_logits. safely. apply read_rows_safe. Qed.

Lemma read_body_safe d max a b c : safe (read_body d max a b c).
Proof. unfold read_body. safely. Qed.

Lemma read_stop_safe d : safe (read_stop d).
Proof. unfold read_stop. safely. apply safe_bind; [apply read_body_safe | by intros [? ?] _]. Qed.

Lemma read_logprobs_safe from_json d : safe (read_logprobs from_json d).
Proof.
  unfold read_logprobs. safely. apply safe_bind; [apply read_body_safe | intros [] _].
  apply safe_bind; [unfold ok_or; by case_match | by intros].
Qed.

Lemma read_refusal_safe d : safe (read_refusal d).
Proof. unfold read_refusal. safely. Qed.
Lemma read_word_safe m s d : safe (read_word_trailer m s d).
Proof. unfold read_word_trailer. safely. Qed.
Lemma read_step_safe d : safe (read_step d).
Proof. unfold read_step. safely. apply safe_bind; [apply read_word_safe | by intros [? ?] _]. Qed.

#[export] Hint Resolve read_activations_safe read_spec_logits_safe read_stop_safe read_logprobs_safe
  read_refusal_safe read_word_safe read_step_safe : swarm.

(** A result without logprobs needs no JSON at all. *)
Lemma encode_plain_result to_json to_json' r :
  lr_token_logprobs r = [] -> encode_layer_result to_json r = encode_layer_result to_json' r.
Proof. intros E. unfold encode_layer_result, append_logprobs. by rewrite E. Qed.

Lemma decode_plain_result to_json from_json r :
  typed_result r -> result_limits r -> lr_token_logprobs r = [] ->
  exists frame, encode_layer_result to_json r = Ok frame /\
    decode_layer_result from_json frame = Ok (received_result r) /\
    frame = TENSOR_TAG_RESULT :: result_head r ++ finish_bytes (lr_finish_reason r) ++
      with_len (lr_activations r) ++ result_trailers to_json r.
Proof.
  intros Hr Hl E. rewrite (encode_plain_result to_json (fun _ => None) r E).
  assert (Hj : logprobs_fit (fun _ => None) r) by (unfold logprobs_fit; rewrite E; split; [constructor | done]).
  pose proof (decode_result_frame (fun _ => None) from_json ltac:(done) r Hr Hl Hj) as D.
  rewrite (encode_result_frame _ r Hl Hj) in D |- *. eexists. split_and!; [done | exact D |].
  unfold result_trailers, json_part. by rewrite E.
Qed.

(** ** The theorems *)

(** a result within the receiver's limits survives the wire: token ids,
    activations, speculative logits, logprobs, refusal, step, stored blocks and
    serving time come back as sent; an error message or stop string comes back
    cut to 4096 bytes at a character boundary, and stays valid UTF-8. *)
Theorem result_roundtrip to_json from_json r :
  (forall l json, Forall finite_entry l -> to_json l = Some json -> from_json json = Some l) ->
  typed_result r -> result_limits r -> logprobs_fit to_json r ->
  (encode_layer_result to_json r ≫= decode_layer_result from_json) = Ok (received_result r).
Proof. intros Hj. by apply decode_result_frame. Qed.

#[global] Instance entry_eq_dec : EqDecision TokenLogProbEntry.
Proof. solve_decision. Defined.

Definition one_entry : list TokenLogProbEntry :=
  [{| tl_token := [104]; tl_logprob := F32.zero; tl_top_logprobs := [([104], F32.zero)] |}].
Definition table_to_json (l : list TokenLogProbEntry) : option bytes :=
  if decide (l = []) then Some [91; 93] else if decide (l = one_entry) then Some [91; 49; 93] else None.
Definition table_from_json (b : bytes) : option (list TokenLogProbEntry) :=
  if decide (b = [91; 93]) then Some [] else if decide (b = [91; 49; 93]) then Some one_entry else None.

Definition busy_result : LayerResult := {|
  lr_request_id := replicate 16 7; lr_token_ids := [5; 70000];
  lr_finish_reason := Some (FinishError [110; 111]); lr_activations := [1; 2; 3];
  lr_sealed_token_ids := None; lr_spec_logits := [[F32.one; F32.zero]; []];
  lr_matched_stop_sequence := Some [226; 130; 172]; lr_token_logprobs := one_entry;
  lr_locally_constructed := true; lr_refusal := Some Undecryptable;
  lr_answers_step := Some {| st_index_pos := 9; st_layer_range := (4, 12); st_stream_seq := Some 3 |};
  lr_prompt_blocks_stored := Some 2; lr_served_us := Some 1500 |}.

Lemma result_roundtrip_witness :
  (encode_layer_result table_to_json busy_result ≫= decode_layer_result table_from_json)
  = Ok (received_result busy_result).
Proof.
  apply result_roundtrip.
  - intros l json _. unfold table_to_json. repeat case_decide; intros; simplify_eq; done.
  - constructor; cbn; unfold is_bytes, is_byte; repeat first [split | constructor | done | ints].
  - constructor; cbn; repeat first [constructor | done].
  - split; [repeat constructor; done |]. intros _. by exists [91; 49; 93].
Defined.

(** the result decoder never panics, whatever bytes a peer sends and
    whatever the JSON parser answers. *)
Theorem result_decoder_never_panics from_json data : safe (decode_layer_result from_json data).
Proof.
  unfold decode_layer_result. set (d := strip_tag _ _). clearbody d. safely.
  pose proof (blen_nonneg d). zsimp. apply safe_bind; [apply read_finish_safe |].
  { rewrite blen_drop; lia. }
  intros [? ?] _. repeat (apply safe_bind; [unfold read_stored, read_served; auto with swarm | intros [? ?] _]). done.
Qed.

(** A result frame cut inside its activations is not refused: it decodes,
    with no activations, and the bytes that are left are read as trailers. *)
Theorem truncated_activations_accepted from_json :
  exists frame r, encode_layer_result table_to_json
      {| lr_request_id := replicate 16 7; lr_token_ids := []; lr_finish_reason := None;
         lr_activations := [0x06; 0x01; 3; 4]; lr_sealed_token_ids := None; lr_spec_logits := [];
         lr_matched_stop_sequence := None; lr_token_logprobs := []; lr_locally_constructed := false;
         lr_refusal := None; lr_answers_step := None; lr_prompt_blocks_stored := None;
         lr_served_us := None |} = Ok frame /\
    decode_layer_result from_json (take (length frame - 1) frame) = Ok r /\
    lr_activations r = [] /\ lr_refusal r = Some Undecryptable.
Proof. eexists _, _. split; [vm_compute; reflexivity |]. split; [vm_compute; reflexivity |]. done. Qed.
