(* ===== verification/ReplayWindow.v ===== *)
(** * The anti-replay window of a session key ([src/crypto/session.rs], lines 19-124)

    [ReplayWindow] keeps the highest nonce that opened and a 128-bit bitmap in
    two u64 words; bit [i] says whether nonce [top - i] was seen.  The word
    loops of [shift_bitmap] run in place, so they are folds over the word
    vector.  The specification is the list of nonces recorded so far. *)
From S2P Require Import Prelude.

Definition REPLAY_WINDOW_SIZE : Z := 128.
Definition REPLAY_BITMAP_WORDS : nat := 2.

Record ReplayWindow : Type := { top : Z; bitmap : list Z }.

Definition zero_bitmap : list Z := replicate REPLAY_BITMAP_WORDS 0.
Definition window_new : ReplayWindow := {| top := 0; bitmap := zero_bitmap |}.

(** [self.top == 0 && self.bitmap == [0; REPLAY_BITMAP_WORDS]]. *)
Definition is_fresh (w : ReplayWindow) : bool := (top w =? 0) && bool_decide (bitmap w = zero_bitmap).

(** [bitmap[i]] and the u64 shift left. *)
Definition word (b : list Z) (i : nat) : Z := nth i b 0.
Definition u64_shl (x n : Z) : Z := Z.shiftl x n mod 2 ^ 64.

Definition check (w : ReplayWindow) (nonce : Z) : bool :=
  if is_fresh w then nonce <? REPLAY_WINDOW_SIZE
  else if top w <? nonce then true
  else
    let diff := top w - nonce in
    if REPLAY_WINDOW_SIZE <=? diff then false
    else Z.land (Z.shiftr (word (bitmap w) (Z.to_nat (diff / 64))) (diff mod 64)) 1 =? 0.

(** One step of each in-place loop of [shift_bitmap]. *)
Definition shift_word (word_shift : nat) (b : list Z) (i : nat) : list Z :=
  <[i := word b (i - word_shift)]> b.
Definition clear_word (b : list Z) (i : nat) : list Z := <[i := 0]> b.
Definition shift_bits (word_shift : nat) (bit_shift : Z) (b : list Z) (i : nat) : list Z :=
  let lo := if (word_shift <=? i)%nat then u64_shl (word b (i - word_shift)) bit_shift else 0 in
  let hi := if (word_shift <? i)%nat then Z.shiftr (word b (i - word_shift - 1)) (64 - bit_shift) else 0 in
  <[i := Z.lor lo hi]> b.

Definition shift_bitmap (b : list Z) (shift : Z) : list Z :=
  if REPLAY_WINDOW_SIZE <=? shift then zero_bitmap
  else
    let word_shift := Z.to_nat (shift / 64) in
    let bit_shift := shift mod 64 in
    if bit_shift =? 0 then
      let b := foldl (shift_word word_shift) b (rev (seq word_shift (REPLAY_BITMAP_WORDS - word_shift))) in
      foldl clear_word b (seq 0 word_shift)
    else foldl (shift_bits word_shift bit_shift) b (rev (seq 0 REPLAY_BITMAP_WORDS)).

Definition record (w : ReplayWindow) (nonce : Z) : ReplayWindow :=
  if is_fresh w then {| top := nonce; bitmap := <[0%nat := 1]> (bitmap w) |}
  else if top w <? nonce then
    let b := shift_bitmap (bitmap w) (nonce - top w) in
    {| top := nonce; bitmap := <[0%nat := Z.lor (word b 0) 1]> b |}
  else
    let diff := top w - nonce in
    if diff <? REPLAY_WINDOW_SIZE then
      let i := Z.to_nat (diff / 64) in
      {| top := top w; bitmap := <[i := Z.lor (word (bitmap w) i) (u64_shl 1 (diff mod 64))]> (bitmap w) |}
    else w.

(** ** The bitmap as one 128-bit number *)

Definition bits (b : list Z) : Z := Z.lor (word b 0) (Z.shiftl (word b 1) 64).
Definition is_words (b : list Z) : Prop := length b = REPLAY_BITMAP_WORDS /\ Forall (fun x => 0 <= x < 2 ^ 64) b.

Lemma words_inv b : is_words b -> exists x y, b = [x; y] /\ 0 <= x < 2 ^ 64 /\ 0 <= y < 2 ^ 64.
Proof.
  intros [Hl Hf]. unfold REPLAY_BITMAP_WORDS in Hl. destruct b as [|x [|y [|]]]; cbn in Hl; try lia. exists x, y.
  repeat match goal with H : Forall _ (_ :: _) |- _ => apply Forall_cons_1 in H as [? ?] end. auto.
Qed.

Lemma two_words x y : 0 <= x < 2 ^ 64 -> 0 <= y < 2 ^ 64 -> is_words [x; y].
Proof. intros Hx Hy. split; [done |]. apply Forall_cons_2; [done |]. apply Forall_cons_2; [done | constructor]. Qed.

Lemma testbit_small x n i : 0 <= x < 2 ^ n -> n <= i -> Z.testbit x i = false.
Proof.
  intros Hx Hi. destruct (Z.eq_dec x 0) as [->|]; [apply Z.bits_0 |].
  apply Z.bits_above_log2; [lia |]. enough (Z.log2 x < n) by lia. apply Z.log2_lt_pow2; lia.
Qed.

Lemma bits_testbit x y i : 0 <= x < 2 ^ 64 -> 0 <= i ->
  Z.testbit (bits [x; y]) i = if i <? 64 then Z.testbit x i else Z.testbit y (i - 64).
Proof.
  intros Hx Hi. unfold bits, word; cbn [nth]. rewrite Z.lor_spec, Z.shiftl_spec by done.
  destruct (Z.ltb_spec i 64).
  - rewrite (Z.testbit_neg_r y) by lia. apply orb_false_r.
  - by rewrite (testbit_small x 64).
Qed.

Lemma u64_shl_testbit x n i : 0 <= n -> 0 <= i ->
  Z.testbit (u64_shl x n) i = (i <? 64) && Z.testbit x (i - n).
Proof.
  intros Hn Hi. unfold u64_shl. destruct (Z.ltb_spec i 64).
  - rewrite Z.mod_pow2_bits_low by lia. by rewrite Z.shiftl_spec.
  - by rewrite Z.mod_pow2_bits_high by lia.
Qed.

Lemma u64_shl_range x n : 0 <= u64_shl x n < 2 ^ 64.
Proof. apply Z.mod_pos_bound. lia. Qed.

(** Reading the bitmap is reading the 128-bit number. *)
Lemma word_bit b d : is_words b -> 0 <= d < 128 ->
  (Z.land (Z.shiftr (word b (Z.to_nat (d / 64))) (d mod 64)) 1 =? 0) = negb (Z.testbit (bits b) d).
Proof.
  intros Hb Hd. apply words_inv in Hb as (x & y & -> & Hx & Hy). rewrite bits_testbit by lia.
  assert (forall z k, 0 <= k -> (Z.land (Z.shiftr z k) 1 =? 0) = negb (Z.testbit z k)) as Hbit.
  { intros z k Hk. change 1 with (Z.ones 1). rewrite Z.land_ones by lia. change (2 ^ 1) with 2.
    rewrite <- (Z.add_0_l k) at 2. rewrite <- Z.shiftr_spec by lia.
    rewrite <- Z.bit0_mod. by destruct (Z.testbit (Z.shiftr z k) 0). }
  destruct (Z.ltb_spec d 64).
  - rewrite Z.div_small, Z.mod_small by lia. apply Hbit. lia.
  - assert (d / 64 = 1) as -> by (symmetry; apply (Z.div_unique d 64 1 (d - 64)); lia).
    assert (d mod 64 = d - 64) as -> by (symmetry; apply (Z.mod_unique d 64 1); lia).
    apply Hbit. lia.
Qed.

(** ** Shifting and setting *)

Lemma zero_words : is_words zero_bitmap.
Proof. apply two_words; lia. Qed.

Lemma lor_range x y n : 0 <= n -> 0 <= x < 2 ^ n -> 0 <= y < 2 ^ n -> 0 <= Z.lor x y < 2 ^ n.
Proof.
  intros Hn Hx Hy. split; [apply Z.lor_nonneg; lia |].
  destruct (Z.eq_dec (Z.lor x y) 0) as [->|Hz]; [lia |].
  apply Z.log2_lt_pow2; [pose proof (proj2 (Z.lor_nonneg x y)); lia |].
  rewrite Z.log2_lor by lia. destruct (Z.eq_dec n 0) as [->|]; [cbn in *; exfalso; apply Hz; by replace x with 0 by lia; replace y with 0 by lia|].
  apply Z.max_lub_lt.
  - destruct (Z.eq_dec x 0) as [->|]; [cbn; lia | apply Z.log2_lt_pow2; lia].
  - destruct (Z.eq_dec y 0) as [->|]; [cbn; lia | apply Z.log2_lt_pow2; lia].
Qed.

Lemma shiftr_range x n : 0 <= n -> 0 <= x < 2 ^ 64 -> 0 <= Z.shiftr x n < 2 ^ 64.
Proof.
  intros Hn Hx. rewrite Z.shiftr_div_pow2 by done. split; [apply Z.div_pos; lia |].
  apply Z.div_lt_upper_bound; [lia |]. nia.
Qed.

(** [shift_bitmap] is the shift of the 128-bit number. *)
Lemma shift_bitmap_spec b s : is_words b -> 0 < s ->
  is_words (shift_bitmap b s) /\
  forall i, 0 <= i < 128 -> Z.testbit (bits (shift_bitmap b s)) i = (s <=? i) && Z.testbit (bits b) (i - s).
Proof.
  intros Hb Hs. apply words_inv in Hb as (x & y & -> & Hx & Hy). unfold shift_bitmap, REPLAY_WINDOW_SIZE.
  destruct (Z.leb_spec 128 s) as [Hbig|Hsm].
  { split; [apply zero_words |]. intros i Hi. rewrite (proj2 (Z.leb_gt s i)) by lia.
    change (bits zero_bitmap) with 0. by rewrite Z.bits_0. }
  destruct (Z.lt_trichotomy s 64) as [H64|[->|H64]].
  - rewrite (Z.div_small s 64), (Z.mod_small s 64), (proj2 (Z.eqb_neq s 0)) by lia.
    change (Z.to_nat 0) with 0%nat. cbn -[u64_shl Z.lor Z.shiftr Z.sub bits Z.pow]. rewrite Z.lor_0_r.
    pose proof (u64_shl_range x s). pose proof (u64_shl_range y s). pose proof (shiftr_range x (64 - s) ltac:(lia) Hx).
    split; [apply two_words; try apply lor_range; lia |].
    intros i Hi. rewrite bits_testbit by lia. destruct (Z.ltb_spec i 64).
    + rewrite u64_shl_testbit, (proj2 (Z.ltb_lt i 64)) by lia. cbn [andb]. destruct (Z.leb_spec s i); cbn [andb]; [|by rewrite Z.testbit_neg_r by lia].
      rewrite bits_testbit by lia. by rewrite (proj2 (Z.ltb_lt (i - s) 64)) by lia.
    + rewrite Z.lor_spec, u64_shl_testbit, Z.shiftr_spec by lia.
      rewrite (proj2 (Z.ltb_lt (i - 64) 64)), (proj2 (Z.leb_le s i)) by lia. cbn [andb].
      rewrite bits_testbit by lia. destruct (Z.ltb_spec (i - s) 64).
      * rewrite (Z.testbit_neg_r y) by lia. cbn [orb]. f_equal. lia.
      * rewrite (testbit_small x 64 (i - 64 + (64 - s))) by lia. rewrite orb_false_r. f_equal. lia.
  - change (Z.to_nat (64 / 64)) with 1%nat. change (64 mod 64 =? 0) with true. cbn -[bits Z.pow]. split; [apply two_words; lia |].
    intros i Hi. rewrite (bits_testbit 0 x i) by lia. rewrite Z.bits_0.
    destruct (Z.ltb_spec i 64); [by rewrite (proj2 (Z.leb_gt 64 i)) by lia |].
    rewrite (proj2 (Z.leb_le 64 i)), bits_testbit by lia. cbn [andb].
    by rewrite (proj2 (Z.ltb_lt (i - 64) 64)) by lia.
  - assert (s / 64 = 1) as -> by (symmetry; apply (Z.div_unique s 64 1 (s - 64)); lia).
    assert (s mod 64 = s - 64) as -> by (symmetry; apply (Z.mod_unique s 64 1); lia).
    rewrite (proj2 (Z.eqb_neq (s - 64) 0)) by lia.
    change (Z.to_nat 1) with 1%nat. cbn -[u64_shl Z.lor Z.shiftr Z.sub bits Z.pow]. rewrite !Z.lor_0_r.
    pose proof (u64_shl_range x (s - 64)).
    split; [apply two_words; lia |].
    intros i Hi. rewrite bits_testbit by lia. rewrite Z.bits_0.
    destruct (Z.ltb_spec i 64); [by rewrite (proj2 (Z.leb_gt s i)) by lia |].
    rewrite u64_shl_testbit, (proj2 (Z.ltb_lt (i - 64) 64)) by lia. cbn [andb].
    destruct (Z.leb_spec s i); cbn [andb]; [|by rewrite Z.testbit_neg_r by lia].
    rewrite bits_testbit by lia. rewrite (proj2 (Z.ltb_lt (i - s) 64)) by lia. f_equal. lia.
Qed.

(** Setting bit [d]. *)
Lemma set_bit_spec b d : is_words b -> 0 <= d < 128 ->
  let i := Z.to_nat (d / 64) in
  let b' := <[i := Z.lor (word b i) (u64_shl 1 (d mod 64))]> b in
  is_words b' /\
  forall k, 0 <= k < 128 -> Z.testbit (bits b') k = (k =? d) || Z.testbit (bits b) k.
Proof.
  intros Hb Hd. apply words_inv in Hb as (x & y & -> & Hx & Hy). cbv zeta.
  assert (forall z k m, 0 <= m < 64 -> 0 <= k < 64 ->
    Z.testbit (Z.lor z (u64_shl 1 m)) k = (k =? m) || Z.testbit z k) as Hset.
  { intros z k m Hm Hk. rewrite Z.lor_spec, u64_shl_testbit by lia.
    rewrite (proj2 (Z.ltb_lt k 64)) by lia. cbn [andb]. rewrite orb_comm. f_equal.
    destruct (Z.eqb_spec k m) as [->|]; [by rewrite Z.sub_diag |].
    destruct (Z.lt_ge_cases k m); [by rewrite Z.testbit_neg_r by lia |].
    apply (testbit_small 1 1); lia. }
  destruct (Z.lt_ge_cases d 64) as [H|H].
  - rewrite Z.div_small, Z.mod_small by lia. pose proof (u64_shl_range 1 d). change (Z.to_nat 0) with 0%nat.
    cbn -[u64_shl Z.lor bits Z.pow]. split; [apply two_words; try apply lor_range; lia |].
    intros k Hk. assert (0 <= Z.lor x (u64_shl 1 d) < 2 ^ 64) by (apply lor_range; lia).
    rewrite !bits_testbit by lia.
    destruct (Z.ltb_spec k 64); [by rewrite Hset by lia |]. by rewrite (proj2 (Z.eqb_neq k d)) by lia.
  - assert (d / 64 = 1) as -> by (symmetry; apply (Z.div_unique d 64 1 (d - 64)); lia).
    assert (d mod 64 = d - 64) as -> by (symmetry; apply (Z.mod_unique d 64 1); lia).
    pose proof (u64_shl_range 1 (d - 64)). change (Z.to_nat 1) with 1%nat.
    cbn -[u64_shl Z.lor bits Z.pow Z.sub]. split; [apply two_words; try apply lor_range; lia |].
    intros k Hk. rewrite !bits_testbit by lia.
    destruct (Z.ltb_spec k 64); [by rewrite (proj2 (Z.eqb_neq k d)) by lia |].
    rewrite Hset by lia. f_equal. lia.
Qed.

(** ** The window represents the nonces recorded so far *)

Record represents (w : ReplayWindow) (seen : list Z) : Prop := {
  rep_words : is_words (bitmap w);
  rep_nonneg : Forall (fun n => 0 <= n) seen;
  rep_empty : seen = [] -> w = window_new;
  rep_top : seen <> [] -> top w ∈ seen /\ forall n, n ∈ seen -> n <= top w;
  rep_bits : seen <> [] -> forall d, 0 <= d < REPLAY_WINDOW_SIZE ->
    Z.testbit (bits (bitmap w)) d = bool_decide (top w - d ∈ seen) }.

Lemma represents_new : represents window_new [].
Proof. split; [apply zero_words | constructor | done | done | done]. Qed.

Lemma represents_fresh w seen : represents w seen -> is_fresh w = bool_decide (seen = []).
Proof.
  intros []. destruct seen as [|n seen].
  - rewrite rep_empty0 by done. done.
  - rewrite (bool_decide_false (_ :: _ = [])) by done. unfold is_fresh. apply andb_false_iff. right.
    apply bool_decide_false. intros E. destruct rep_top0 as [Ht _]; [done |].
    specialize (rep_bits0 ltac:(done) 0 ltac:(done)). rewrite E, Z.sub_0_r, bool_decide_true in rep_bits0 by done.
    by change (bits zero_bitmap) with 0 in rep_bits0.
Qed.

(** The specification of acceptance: the first message must be among the first
    128 nonces; afterwards a nonce is accepted when it is above everything seen,
    or within 128 of the highest and not seen. *)
Definition acceptable (seen : list Z) (top n : Z) : Prop :=
  match seen with
  | [] => n < REPLAY_WINDOW_SIZE
  | _ => top < n \/ (top - n < REPLAY_WINDOW_SIZE /\ n ∉ seen)
  end.

Lemma check_correct w seen n :
  represents w seen -> 0 <= n -> check w n = true <-> acceptable seen (top w) n.
Proof.
  intros Hr Hn. unfold check. rewrite (represents_fresh w seen Hr). destruct seen as [|m seen].
  { rewrite bool_decide_true by done. cbn. apply Z.ltb_lt. }
  rewrite bool_decide_false by done. destruct Hr. unfold acceptable, REPLAY_WINDOW_SIZE in *.
  destruct (Z.ltb_spec (top w) n); [by split; [left |] |].
  destruct (Z.leb_spec 128 (top w - n)); [split; [done | lia] |].
  rewrite word_bit by (done || lia). rewrite rep_bits0 by (done || lia).
  replace (top w - (top w - n)) with n by lia. case_bool_decide; cbn; split; try done.
  - intros [?|[_ ?]]; [lia | done].
  - by right.
Qed.

Lemma record_first w n :
  represents w [] -> 0 <= n -> represents (record w n) [n].
Proof.
  intros Hr Hn. pose proof (rep_empty _ _ Hr eq_refl) as ->. unfold record.
  change (is_fresh window_new) with true. cbv iota. change (<[0%nat := 1]> (bitmap window_new)) with [1; 0].
  split; cbn -[bits Z.pow]; try done.
  - apply two_words; lia.
  - by repeat constructor.
  - intros _. split; [rewrite elem_of_cons; by left |]. intros m ->%list_elem_of_singleton. lia.
  - intros _ d Hd. unfold REPLAY_WINDOW_SIZE in Hd. rewrite bits_testbit by lia. rewrite Z.bits_0.
    case_bool_decide as Hin; rewrite list_elem_of_singleton in Hin.
    + by replace d with 0 by lia.
    + destruct (Z.ltb_spec d 64); [|done]. apply (testbit_small 1 1); lia.
Qed.

Lemma record_above w seen n :
  represents w seen -> seen <> [] -> top w < n -> represents (record w n) (n :: seen).
Proof.
  intros Hr Hs Hn. unfold record. rewrite (represents_fresh w seen Hr), bool_decide_false by done.
  rewrite (proj2 (Z.ltb_lt _ _)) by done. destruct Hr as [rep_words0 rep_nonneg0 _ rep_top0 rep_bits0]. destruct (rep_top0 Hs) as [Htop Hmax].
  destruct (shift_bitmap_spec (bitmap w) (n - top w)) as [Hw Hb]; [done | lia |].
  set (b := shift_bitmap _ _) in *. destruct (set_bit_spec b 0 Hw) as [Hw' Hb']; [lia |].
  change (Z.to_nat (0 / 64)) with 0%nat in *. change (u64_shl 1 (0 mod 64)) with 1 in *.
  assert (0 <= top w) by (rewrite list.Forall_forall in rep_nonneg0; by apply rep_nonneg0).
  split; cbn [top bitmap]; try done.
  - constructor; [lia | done].
  - intros _. split; [rewrite elem_of_cons; by left |]. intros m [->|Hm]%elem_of_cons; [lia |]. specialize (Hmax m Hm). lia.
  - intros _ d Hd. unfold REPLAY_WINDOW_SIZE in *. rewrite Hb', Hb by done.
    destruct (Z.eqb_spec d 0) as [->|Hd0]; cbn [orb].
    { rewrite bool_decide_true; [done |]. rewrite Z.sub_0_r. rewrite elem_of_cons; by left. }
    destruct (Z.leb_spec (n - top w) d); cbn [andb].
    + rewrite rep_bits0 by (done || lia). replace (top w - (d - (n - top w))) with (n - d) by lia.
      apply bool_decide_ext. rewrite elem_of_cons. split; [by right | intros [?|?]; [lia | done]].
    + rewrite bool_decide_false; [done |]. intros [?|Hin]%elem_of_cons; [lia |].
      specialize (Hmax _ Hin). lia.
Qed.

Lemma record_within w seen n :
  represents w seen -> seen <> [] -> 0 <= n <= top w -> top w - n < REPLAY_WINDOW_SIZE ->
  represents (record w n) (n :: seen).
Proof.
  intros Hr Hs Hn Hlt. unfold record. rewrite (represents_fresh w seen Hr), bool_decide_false by done.
  rewrite (proj2 (Z.ltb_ge _ _)), (proj2 (Z.ltb_lt _ _)) by lia. destruct Hr as [rep_words0 rep_nonneg0 _ rep_top0 rep_bits0]. destruct (rep_top0 Hs) as [Htop Hmax].
  unfold REPLAY_WINDOW_SIZE in *.
  destruct (set_bit_spec (bitmap w) (top w - n) rep_words0) as [Hw Hb]; [lia |].
  split; cbn [top bitmap]; try done.
  - constructor; [lia | done].
  - intros _. split; [rewrite elem_of_cons; by right |]. intros m [->|Hm]%elem_of_cons; [lia | by apply Hmax].
  - intros _ d Hd. unfold REPLAY_WINDOW_SIZE in Hd. rewrite Hb, rep_bits0 by (done || lia).
    destruct (Z.eqb_spec d (top w - n)) as [->|Hd0]; cbn [orb].
    + rewrite bool_decide_true; [done |]. replace (top w - (top w - n)) with n by lia. rewrite elem_of_cons; by left.
    + apply bool_decide_ext. rewrite elem_of_cons. split; [by right | intros [?|?]; [lia | done]].
Qed.

(** Recording an accepted nonce keeps the representation. *)
Lemma record_represents w seen n :
  represents w seen -> 0 <= n -> check w n = true -> represents (record w n) (n :: seen).
Proof.
  intros Hr Hn Hc. apply (check_correct w seen n Hr Hn) in Hc. destruct seen as [|m seen].
  - by apply record_first.
  - destruct (Z.lt_ge_cases (top w) n); [by apply record_above |].
    destruct Hc as [?|[? _]]; [lia |]. by apply record_within.
Qed.

(** ** Runs of the window *)

(** One authentic message: accepted and recorded, or rejected. *)
Definition feed1 (st : ReplayWindow * list Z) (n : Z) : ReplayWindow * list Z :=
  let '(w, seen) := st in if check w n then (record w n, n :: seen) else (w, seen).
Definition feed (ns : list Z) : ReplayWindow * list Z := foldl feed1 (window_new, []) ns.

Lemma feed1_inv w seen n :
  represents w seen -> NoDup seen -> 0 <= n ->
  represents (fst (feed1 (w, seen) n)) (snd (feed1 (w, seen) n)) /\ NoDup (snd (feed1 (w, seen) n)).
Proof.
  intros Hr Hd Hn. cbn. destruct (check w n) eqn:Hc; [|done]. cbn.
  split; [by apply record_represents |]. constructor; [|done].
  apply (check_correct w seen n Hr Hn) in Hc. destruct seen as [|m seen]; [apply not_elem_of_nil |].
  destruct Hc as [Hlt|[_ ?]]; [|done]. intros Hin.
  apply (rep_top _ _ Hr) in Hin; [lia | done].
Qed.

Lemma feed_inv ns :
  Forall (fun n => 0 <= n) ns -> represents (fst (feed ns)) (snd (feed ns)) /\ NoDup (snd (feed ns)).
Proof.
  unfold feed. assert (represents (fst (window_new, @nil Z)) (snd (window_new, @nil Z)) /\
    NoDup (snd (window_new, @nil Z))) as H by (split; [apply represents_new | constructor]).
  revert H. generalize (window_new, @nil Z). intros st Hst Hns. revert st Hst.
  induction Hns as [|n ns Hn _ IH]; intros [w seen] [Hr Hd]; [done |].
  cbn [foldl]. apply IH. by apply feed1_inv.
Qed.

(** whatever sequence of nonces arrives under one key, no nonce is accepted
    twice. *)
Theorem replay_never_twice ns : Forall (fun n => 0 <= n) ns -> NoDup (snd (feed ns)).
Proof. intros H. by apply feed_inv. Qed.

Lemma replay_never_twice_witness : NoDup (snd (feed [5; 5; 300; 5; 299; 300; 172; 173; 299])).
Proof. apply replay_never_twice. repeat constructor; done. Defined.

(** C36: the two-word bitmap implements the sliding-window specification exactly:
    after any history, [check] accepts a nonce if and only if it is above every
    accepted one, or less than 128 below the highest and not accepted before;
    before any message, if and only if it is below 128. *)
Theorem replay_window_exact ns n :
  Forall (fun n => 0 <= n) ns -> 0 <= n ->
  check (fst (feed ns)) n = true <-> acceptable (snd (feed ns)) (foldr Z.max 0 (snd (feed ns))) n.
Proof.
  intros Hns Hn. destruct (feed_inv ns Hns) as [Hr _]. destruct (feed ns) as [w seen]. cbn [fst snd] in *.
  rewrite (check_correct w seen n Hr Hn). destruct seen as [|m seen]; [done |].
  replace (foldr Z.max 0 (m :: seen)) with (top w); [done |].
  destruct (rep_top _ _ Hr) as [Ht Hm]; [done |]. pose proof (rep_nonneg _ _ Hr) as Hp.
  remember (m :: seen) as l eqn:El. clear El Hr. apply Z.le_antisymm.
  - clear Hm Hp. induction l as [|x l IH]; [by apply not_elem_of_nil in Ht |].
    apply elem_of_cons in Ht as [->|Ht]; cbn; [lia | specialize (IH Ht); lia].
  - assert (0 <= top w) as H0 by (rewrite list.Forall_forall in Hp; by apply Hp). clear Ht Hp.
    induction l as [|x l IH]; cbn; [done |].
    specialize (Hm x ltac:(rewrite elem_of_cons; by left)) as Hx.
    specialize (IH ltac:(intros k Hk; apply Hm; rewrite elem_of_cons; by right)). lia.
Qed.

Lemma replay_window_exact_witness :
  check (fst (feed [5; 300; 299])) 173 = true <-> acceptable (snd (feed [5; 300; 299])) 300 173.
Proof. apply (replay_window_exact [5; 300; 299] 173); [repeat constructor; done | done]. Defined.
