(* ===== verification/Session.v ===== *)
(** * Pairwise encryption sessions ([src/crypto/session.rs])

    [SessionManager] holds, per peer, the live session, a key derived while
    answering an exchange and not yet confirmed, a key retired by a disconnect,
    and the exchanges and repair requests in progress.  Its maps are gmaps from
    [NodeId]; every operation takes the state and the clock and returns the new
    state.  Curve, KDF and AEAD are the crates x25519-dalek, hkdf and
    chacha20poly1305: parameters here, with the properties they document as
    hypotheses of the theorems that need them.  Times are nanoseconds. *)
From S2P Require Import Prelude Bytes ReplayWindow.

Definition seconds (s : Z) : Z := s * 1000000000.
Definition PENDING_EPHEMERAL_TTL : Z := seconds 60.
Definition PREVIOUS_KEY_GRACE : Z := seconds 180.
Definition REKEY_REQUEST_MIN_INTERVAL : Z := seconds 15.

Definition Key : Type := bytes.
Definition PublicKey : Type := bytes.

Record PreviousKey : Type := {
  pk_cipher_key : Key; pk_replay_window : ReplayWindow; pk_retired_at : Z }.
Record UnconfirmedKey : Type := {
  uk_cipher_key : Key; uk_replay_window : ReplayWindow; uk_derived_at : Z }.
Record CachedSession : Type := {
  cs_cipher_key : Key; cs_send_nonce : Z; cs_replay_window : ReplayWindow;
  cs_created_at : Z; cs_previous : option PreviousKey }.
Record RekeyRequest : Type := { rr_armed_at : Z; rr_pending : bool }.

Inductive KeyAdoption : Type := OnConfirmation | Immediately.

(** ["swarmllm-session-key-confirm-v1"]. *)
Definition SESSION_CONFIRM_MARKER : bytes :=
  [115; 119; 97; 114; 109; 108; 108; 109; 45; 115; 101; 115; 115; 105; 111; 110; 45; 107; 101; 121;
   45; 99; 111; 110; 102; 105; 114; 109; 45; 118; 49].

Definition CachedSession_new (k : Key) (now : Z) : CachedSession := {|
  cs_cipher_key := k; cs_send_nonce := 0; cs_replay_window := window_new;
  cs_created_at := now; cs_previous := None |}.

Definition nonce_bytes (counter : Z) : bytes := replicate 4 0 ++ le_bytes 8 counter.

(** [next_nonce]: the session with its counter moved, and the nonce. *)
Definition next_nonce (s : CachedSession) : CachedSession * outcome bytes :=
  let counter := cs_send_nonce s in
  let set n := {| cs_cipher_key := cs_cipher_key s; cs_send_nonce := n;
                  cs_replay_window := cs_replay_window s; cs_created_at := cs_created_at s;
                  cs_previous := cs_previous s |} in
  if u64_max - 1 <=? counter then (set (u64_max - 1), Err NonceOverflow)
  else (set (counter + 1), Ok (nonce_bytes counter)).

(** Byte order of public keys: the order of [[u8; 32]]. *)
Fixpoint bytes_ltb (a b : bytes) : bool :=
  match a, b with
  | [], [] => false
  | [], _ :: _ => true
  | _ :: _, [] => false
  | x :: a, y :: b => if x =? y then bytes_ltb a b else x <? y
  end.

Section session.
Context {Secret : Type}.
Context (dh : Secret -> PublicKey -> bytes) (public_of : Secret -> PublicKey).
(** [hkdf_sha256_derive_32(shared, Some(salt), "swarmllm-session-v1")]. *)
Context (hkdf : bytes -> bytes -> Key).
(** ChaCha20-Poly1305: key, 12-byte nonce, AAD, message. *)
Context (aead_encrypt aead_decrypt : Key -> bytes -> bytes -> bytes -> option bytes).

Record PendingEphemeral : Type := { pe_secret : Secret; pe_created_at : Z }.

Record SessionManager : Type := {
  local_secret : Secret;
  local_public : PublicKey;
  sessions : gmap NodeId CachedSession;
  pending_ephemeral : gmap NodeId PendingEphemeral;
  pending_ephemeral_pub : gmap NodeId bytes;
  retired : gmap NodeId PreviousKey;
  unconfirmed : gmap NodeId UnconfirmedKey;
  rekey_requests : gmap NodeId RekeyRequest }.

Definition set_sessions f (m : SessionManager) : SessionManager := {|
  local_secret := local_secret m; local_public := local_public m; sessions := f (sessions m);
  pending_ephemeral := pending_ephemeral m; pending_ephemeral_pub := pending_ephemeral_pub m;
  retired := retired m; unconfirmed := unconfirmed m; rekey_requests := rekey_requests m |}.
Definition set_pending f g (m : SessionManager) : SessionManager := {|
  local_secret := local_secret m; local_public := local_public m; sessions := sessions m;
  pending_ephemeral := f (pending_ephemeral m); pending_ephemeral_pub := g (pending_ephemeral_pub m);
  retired := retired m; unconfirmed := unconfirmed m; rekey_requests := rekey_requests m |}.
Definition set_retired f (m : SessionManager) : SessionManager := {|
  local_secret := local_secret m; local_public := local_public m; sessions := sessions m;
  pending_ephemeral := pending_ephemeral m; pending_ephemeral_pub := pending_ephemeral_pub m;
  retired := f (retired m); unconfirmed := unconfirmed m; rekey_requests := rekey_requests m |}.
Definition set_unconfirmed f (m : SessionManager) : SessionManager := {|
  local_secret := local_secret m; local_public := local_public m; sessions := sessions m;
  pending_ephemeral := pending_ephemeral m; pending_ephemeral_pub := pending_ephemeral_pub m;
  retired := retired m; unconfirmed := f (unconfirmed m); rekey_requests := rekey_requests m |}.
Definition set_rekey f (m : SessionManager) : SessionManager := {|
  local_secret := local_secret m; local_public := local_public m; sessions := sessions m;
  pending_ephemeral := pending_ephemeral m; pending_ephemeral_pub := pending_ephemeral_pub m;
  retired := retired m; unconfirmed := unconfirmed m; rekey_requests := f (rekey_requests m) |}.

(** [from_ed25519_key], from the converted secret on. *)
Definition manager_new (secret : Secret) : SessionManager := {|
  local_secret := secret; local_public := public_of secret; sessions := ∅;
  pending_ephemeral := ∅; pending_ephemeral_pub := ∅; retired := ∅; unconfirmed := ∅;
  rekey_requests := ∅ |}.

(** The salt is the two public keys in byte order, so both ends derive one key. *)
Definition derive_cipher_key (shared : bytes) (pub_a pub_b : PublicKey) : Key :=
  hkdf shared (if bytes_ltb pub_a pub_b then pub_a ++ pub_b else pub_b ++ pub_a).

(** [try_open_with]: the window after the attempt and the plaintext. *)
Definition try_open_with (k : Key) (w : ReplayWindow) (sealed aad : bytes) (recv_nonce : Z)
  : option (bytes * ReplayWindow) :=
  if negb (check w recv_nonce) then None
  else
    match aead_decrypt k (take 12 sealed) aad (drop 12 sealed) with
    | None => None
    | Some plaintext => Some (plaintext, record w recv_nonce)
    end.

Definition install_with_window (m : SessionManager) (now : Z) (peer : NodeId) (k : Key)
  (w : ReplayWindow) : SessionManager :=
  let s :=
    match sessions m !! peer with
    | Some s => {|
        cs_cipher_key := k; cs_send_nonce := 0; cs_replay_window := w; cs_created_at := now;
        cs_previous := Some {| pk_cipher_key := cs_cipher_key s;
                               pk_replay_window := cs_replay_window s; pk_retired_at := now |} |}
    | None => {| cs_cipher_key := k; cs_send_nonce := 0; cs_replay_window := w;
                 cs_created_at := now; cs_previous := None |}
    end in
  set_sessions <[peer := s]> m.

Definition install_session (m : SessionManager) (now : Z) (peer : NodeId) (k : Key) : SessionManager :=
  install_with_window m now peer k window_new.

Definition has_session (m : SessionManager) (peer : NodeId) : bool :=
  bool_decide (is_Some (sessions m !! peer)).

Definition establish_session (m : SessionManager) (now : Z) (peer : NodeId) (peer_pub : PublicKey)
  : SessionManager * bool :=
  let k := derive_cipher_key (dh (local_secret m) peer_pub) (local_public m) peer_pub in
  if has_session m peer then (m, false) else (install_session m now peer k, true).

(** [secret] is the keypair drawn from the OS generator. *)
Definition initiate_ephemeral_exchange (m : SessionManager) (now : Z) (peer : NodeId) (secret : Secret)
  : SessionManager * bytes :=
  (set_pending <[peer := {| pe_secret := secret; pe_created_at := now |}]>
               <[peer := public_of secret]> m, public_of secret).

(** [seal]: the nonce is spent even when encryption fails. *)
Definition seal (m : SessionManager) (peer : NodeId) (plaintext aad : bytes)
  : SessionManager * outcome bytes :=
  match sessions m !! peer with
  | None => (m, Err (NoSession peer))
  | Some s =>
      let '(s', r) := next_nonce s in
      let m' := set_sessions <[peer := s']> m in
      match r with
      | Ok nonce =>
          match aead_encrypt (cs_cipher_key s) nonce aad plaintext with
          | Some ct => (m', Ok (nonce ++ ct))
          | None => (m', Err (Encryption "Seal failed"))
          end
      | Err e => (m', Err e)
      | Panic => (m', Panic)
      end
  end.

Definition complete_ephemeral_session (m : SessionManager) (now : Z) (peer : NodeId) (peer_pub : bytes)
  : SessionManager * option bytes :=
  match pending_ephemeral m !! peer with
  | None => (m, None)
  | Some p =>
      let m := set_pending (delete peer) id m in
      match pending_ephemeral_pub m !! peer with
      | None => (m, None)
      | Some our_pub =>
          let m := set_pending id (delete peer) m in
          let k := derive_cipher_key (dh (pe_secret p) peer_pub) our_pub peer_pub in
          let m := install_session m now peer k in
          let '(m, r) := seal m peer SESSION_CONFIRM_MARKER SESSION_CONFIRM_MARKER in
          (m, match r with Ok sealed => Some sealed | _ => None end)
      end
  end.

Definition accept_ephemeral_exchange (m : SessionManager) (now : Z) (peer : NodeId) (peer_pub : bytes)
  (adopt : KeyAdoption) (secret : Secret) : SessionManager * bytes :=
  let our_pub := public_of secret in
  let k := derive_cipher_key (dh secret peer_pub) our_pub peer_pub in
  if match adopt with Immediately => true | OnConfirmation => false end || negb (has_session m peer)
  then (install_session m now peer k, our_pub)
  else
    let m :=
      match pending_ephemeral m !! peer with
      | Some _ => set_pending (delete peer) (delete peer) m
      | None => m
      end in
    (set_unconfirmed <[peer := {| uk_cipher_key := k; uk_replay_window := window_new;
                                  uk_derived_at := now |}]> m, our_pub).

(** A session's key and window as a decrypt-only key. *)
Definition retire (s : CachedSession) (now : Z) : PreviousKey := {|
  pk_cipher_key := cs_cipher_key s; pk_replay_window := cs_replay_window s; pk_retired_at := now |}.

Definition remove_session (m : SessionManager) (now : Z) (peer : NodeId) : SessionManager :=
  let m :=
    match sessions m !! peer with
    | Some s => set_retired <[peer := retire s now]> (set_sessions (delete peer) m)
    | None => m
    end in
  set_unconfirmed (delete peer) (set_pending (delete peer) (delete peer) m).

Definition rekeyed_since (m : SessionManager) (peer : NodeId) (t : Z) : bool :=
  match sessions m !! peer with Some s => t <? cs_created_at s | None => false end.

Definition request_rekey (m : SessionManager) (now : Z) (peer : NodeId) : SessionManager * bool :=
  let armed := {| rr_armed_at := now; rr_pending := true |} in
  match rekey_requests m !! peer with
  | Some r =>
      if now - rr_armed_at r <? REKEY_REQUEST_MIN_INTERVAL then (m, false)
      else (set_rekey <[peer := armed]> m, true)
  | None => (set_rekey <[peer := armed]> m, true)
  end.

Definition take_rekey_requests (m : SessionManager) : SessionManager * list NodeId :=
  (set_rekey (fmap (fun r => {| rr_armed_at := rr_armed_at r; rr_pending := false |})) m,
   map fst (filter (fun p => rr_pending (snd p) = true) (map_to_list (rekey_requests m)))).

Definition open_live (m : SessionManager) (peer : NodeId) (sealed aad : bytes) (n : Z)
  : option (bytes * SessionManager) :=
  match sessions m !! peer with
  | None => None
  | Some s =>
      match try_open_with (cs_cipher_key s) (cs_replay_window s) sealed aad n with
      | None => None
      | Some (plaintext, w) =>
          Some (plaintext, set_sessions <[peer := {|
            cs_cipher_key := cs_cipher_key s; cs_send_nonce := cs_send_nonce s;
            cs_replay_window := w; cs_created_at := cs_created_at s;
            cs_previous := cs_previous s |}]> m)
      end
  end.

Definition open_with_unconfirmed (m : SessionManager) (now : Z) (peer : NodeId) (sealed aad : bytes) (n : Z)
  : option (bytes * SessionManager) :=
  match unconfirmed m !! peer with
  | None => None
  | Some u =>
      match try_open_with (uk_cipher_key u) (uk_replay_window u) sealed aad n with
      | None => None
      | Some (plaintext, w) =>
          Some (plaintext, install_with_window (set_unconfirmed (delete peer) m) now peer (uk_cipher_key u) w)
      end
  end.

Definition touch (p : PreviousKey) (w : ReplayWindow) : PreviousKey := {|
  pk_cipher_key := pk_cipher_key p; pk_replay_window := w; pk_retired_at := pk_retired_at p |}.

Definition open_previous (m : SessionManager) (now : Z) (peer : NodeId) (sealed aad : bytes) (n : Z)
  : option (bytes * SessionManager) :=
  match sessions m !! peer with
  | None => None
  | Some s =>
      match cs_previous s with
      | None => None
      | Some p =>
          if now - pk_retired_at p <=? PREVIOUS_KEY_GRACE then
            match try_open_with (pk_cipher_key p) (pk_replay_window p) sealed aad n with
            | None => None
            | Some (plaintext, w) =>
                Some (plaintext, set_sessions <[peer := {|
                  cs_cipher_key := cs_cipher_key s; cs_send_nonce := cs_send_nonce s;
                  cs_replay_window := cs_replay_window s; cs_created_at := cs_created_at s;
                  cs_previous := Some (touch p w) |}]> m)
            end
          else None
      end
  end.

Definition open_with_retired (m : SessionManager) (now : Z) (peer : NodeId) (sealed aad : bytes) (n : Z)
  : option (bytes * SessionManager) :=
  match retired m !! peer with
  | None => None
  | Some p =>
      if PREVIOUS_KEY_GRACE <? now - pk_retired_at p then None
      else
        match try_open_with (pk_cipher_key p) (pk_replay_window p) sealed aad n with
        | None => None
        | Some (plaintext, w) => Some (plaintext, set_retired <[peer := touch p w]> m)
        end
  end.

(** [open]: live key, unconfirmed key (adopted if it opens), previous key,
    retired key; when none opens, a repair is armed. *)
Definition open (m : SessionManager) (now : Z) (peer : NodeId) (sealed aad : bytes)
  : SessionManager * outcome bytes :=
  if blen sealed <? 12 then (m, Err DecryptionFailed)
  else
    let n := le_val (take 8 (drop 4 sealed)) in
    let had_session := has_session m peer in
    match open_live m peer sealed aad n with
    | Some (plaintext, m) => (m, Ok plaintext)
    | None =>
        match open_with_unconfirmed m now peer sealed aad n with
        | Some (plaintext, m) => (m, Ok plaintext)
        | None =>
            match open_previous m now peer sealed aad n with
            | Some (plaintext, m) => (m, Ok plaintext)
            | None =>
                match open_with_retired m now peer sealed aad n with
                | Some (plaintext, m) => (m, Ok plaintext)
                | None =>
                    (fst (request_rekey m now peer),
                     Err (if had_session then DecryptionFailed else NoSession peer))
                end
            end
        end
    end.

(** [evict_stale]: the state and the peers whose session aged out. *)
Definition evict_stale (m : SessionManager) (now max_age : Z) : SessionManager * list NodeId :=
  let aged := filter (fun p => max_age <= now - cs_created_at (snd p)) (sessions m) in
  let fresh := filter (fun p => ~ max_age <= now - cs_created_at (snd p)) (sessions m) in
  let m := set_sessions (fun _ => fresh) m in
  let m := set_retired (fun r => filter (fun p => now - pk_retired_at (snd p) <= PREVIOUS_KEY_GRACE)
             (((fun s => retire s now) <$> aged) ∪ r)) m in
  let m := set_unconfirmed (filter (fun p => now - uk_derived_at (snd p) < max_age)) m in
  let kept := filter (fun p => now - pe_created_at (snd p) < PENDING_EPHEMERAL_TTL) (pending_ephemeral m) in
  let evicted := (size (pending_ephemeral m) - size kept)%nat in
  let m := set_pending (fun _ => kept)
    (fun pubs => if (0 <? evicted)%nat then filter (fun p => is_Some (kept !! fst p)) pubs else pubs) m in
  (m, map fst (map_to_list aged)).

Definition session_count (m : SessionManager) : nat := size (sessions m).
Definition active_peers (m : SessionManager) : list NodeId := map fst (map_to_list (sessions m)).

(** One-shot sealing under an ephemeral key, nonce zero. *)
Definition ephemeral_seal (secret : Secret) (recipient : PublicKey) (plaintext aad : bytes)
  : outcome (bytes * bytes) :=
  let k := derive_cipher_key (dh secret recipient) (public_of secret) recipient in
  match aead_encrypt k (replicate 12 0) aad plaintext with
  | Some ct => Ok (public_of secret, ct)
  | None => Err (Encryption "Ephemeral seal failed")
  end.

Definition ephemeral_open (secret : Secret) (ephemeral_pub ct aad : bytes) : outcome bytes :=
  let k := derive_cipher_key (dh secret ephemeral_pub) ephemeral_pub (public_of secret) in
  ok_or (aead_decrypt k (replicate 12 0) aad ct) DecryptionFailed.
End session.
