(* ===== verification/SessionTheorems.v ===== *)
(** * Sessions: key agreement, delivery, replay, rekey and disconnect

    Theorems on [Session].  The hypotheses on the cryptography are the two the
    code relies on: X25519 agreement (both ends compute one shared secret) and
    that an AEAD ciphertext opens under its own key, nonce and AAD. *)
From S2P Require Import Prelude Bytes ReplayWindow Session.

(** ** Keys are derived symmetrically *)

Lemma bytes_ltb_asym a b : bytes_ltb a b = true -> bytes_ltb b a = false.
Proof.
  revert b. induction a as [|x a IH]; intros [|y b]; cbn; try done.
  rewrite (Z.eqb_sym y x). destruct (Z.eqb_spec x y); [apply IH | lia].
Qed.

Lemma bytes_ltb_total a b : bytes_ltb a b = false -> bytes_ltb b a = false -> a = b.
Proof.
  revert b. induction a as [|x a IH]; intros [|y b]; cbn; try done.
  rewrite (Z.eqb_sym y x). destruct (Z.eqb_spec x y); [intros; f_equal; auto | lia].
Qed.

Lemma derive_sym hkdf s a b : derive_cipher_key hkdf s a b = derive_cipher_key hkdf s b a.
Proof.
  unfold derive_cipher_key. f_equal. destruct (bytes_ltb a b) eqn:E1.
  - by rewrite (bytes_ltb_asym _ _ E1).
  - destruct (bytes_ltb b a) eqn:E2; [done |]. by rewrite (bytes_ltb_total _ _ E1 E2).
Qed.

(** ** The nonce of a sealed message *)

Lemma nonce_length n : length (nonce_bytes n) = 12%nat.
Proof. unfold nonce_bytes. by rewrite length_app, length_replicate, length_le_bytes. Qed.

Lemma sealed_nonce n ct : is_u64 n -> le_val (take 8 (drop 4 (nonce_bytes n ++ ct))) = n.
Proof.
  intros Hn. unfold nonce_bytes. rewrite <- app_assoc, drop_app_length' by done.
  rewrite take_app_length' by (by rewrite length_le_bytes).
  apply le_val_le_bytes. change (256 ^ Z.of_nat 8) with 18446744073709551616. ints.
Qed.

Lemma sealed_split n ct : take 12 (nonce_bytes n ++ ct) = nonce_bytes n /\ drop 12 (nonce_bytes n ++ ct) = ct.
Proof.
  split; [apply take_app_length' | apply drop_app_length']; by rewrite nonce_length.
Qed.

Lemma sealed_blen n ct : (blen (nonce_bytes n ++ ct) <? 12) = false.
Proof. rewrite blen_app. unfold blen at 1. rewrite nonce_length. pose proof (blen_nonneg ct). lia. Qed.

Lemma nonce_bytes_inj a b : is_u64 a -> is_u64 b -> nonce_bytes a = nonce_bytes b -> a = b.
Proof.
  intros Ha Hb E. apply app_inj_1 in E as [_ E]; [|done].
  apply le_bytes_inj in E; [done | |]; change (256 ^ Z.of_nat 8) with 18446744073709551616; ints.
Qed.

Section theorems.
Context {Secret : Type}.
Context (dh : Secret -> PublicKey -> bytes) (public_of : Secret -> PublicKey).
Context (hkdf : bytes -> bytes -> Key).
Context (aead_encrypt aead_decrypt : Key -> bytes -> bytes -> bytes -> option bytes).

Abbreviation seal := (Session.seal aead_encrypt).
Abbreviation open := (Session.open aead_decrypt).
Abbreviation manager := (@SessionManager Secret).

(** ** Sealing *)

Lemma seal_ok (m : manager) peer s msg aad :
  sessions m !! peer = Some s -> 0 <= cs_send_nonce s < u64_max - 1 ->
  seal m peer msg aad =
    (set_sessions <[peer := {| cs_cipher_key := cs_cipher_key s; cs_send_nonce := cs_send_nonce s + 1;
        cs_replay_window := cs_replay_window s; cs_created_at := cs_created_at s;
        cs_previous := cs_previous s |}]> m,
     match aead_encrypt (cs_cipher_key s) (nonce_bytes (cs_send_nonce s)) aad msg with
     | Some ct => Ok (nonce_bytes (cs_send_nonce s) ++ ct)
     | None => Err (Encryption "Seal failed")
     end).
Proof.
  intros E Hn. unfold Session.seal, next_nonce. rewrite E.
  rewrite (proj2 (Z.leb_gt _ _)) by lia. by destruct (aead_encrypt _ _ _ _).
Qed.

Lemma seal_overflow (m : manager) peer s msg aad :
  sessions m !! peer = Some s -> u64_max - 1 <= cs_send_nonce s ->
  exists m', seal m peer msg aad = (m', Err NonceOverflow) /\
    exists s', sessions m' !! peer = Some s' /\ cs_send_nonce s' = u64_max - 1.
Proof.
  intros E Hn. unfold Session.seal, next_nonce. rewrite E, (proj2 (Z.leb_le _ _)) by lia.
  eexists. split; [done |]. cbn. rewrite lookup_insert_eq. eauto.
Qed.

(** Seal a run of messages to one peer. *)
Fixpoint seal_all (m : manager) (peer : NodeId) (msgs : list (bytes * bytes))
  : manager * list (outcome bytes) :=
  match msgs with
  | [] => (m, [])
  | (msg, aad) :: msgs =>
      let '(m, r) := seal m peer msg aad in
      let '(m, rs) := seal_all m peer msgs in (m, r :: rs)
  end.

Definition nonce_of (r : outcome bytes) : option bytes :=
  match r with Ok sealed => Some (take 12 sealed) | _ => None end.

Lemma seal_all_nonces (m : manager) peer s msgs :
  sessions m !! peer = Some s -> is_u64 (cs_send_nonce s) ->
  forall i sealed, snd (seal_all m peer msgs) !! i = Some (Ok sealed) ->
    cs_send_nonce s + Z.of_nat i < u64_max - 1 /\
    take 12 sealed = nonce_bytes (cs_send_nonce s + Z.of_nat i).
Proof.
  revert m s. induction msgs as [|[msg aad] msgs IH]; intros m s E Hn i sealed Hi; [done |].
  cbn [seal_all] in Hi. destruct (Z.lt_ge_cases (cs_send_nonce s) (u64_max - 1)) as [Hlt|Hge].
  - rewrite (seal_ok m peer s msg aad E) in Hi by ints.
    set (m' := set_sessions _ m) in Hi. destruct (seal_all m' peer msgs) as [m'' rs] eqn:Er.
    cbn [snd] in Hi. destruct i as [|i].
    + cbn in Hi. destruct (aead_encrypt _ _ _ _); [|done]. injection Hi as <-.
      rewrite Z.add_0_r. split; [done |]. apply sealed_split.
    + cbn in Hi. specialize (IH m' _ (lookup_insert_eq _ _ _)). cbn [cs_send_nonce] in IH.
      specialize (IH ltac:(ints) i sealed). rewrite Er in IH. destruct (IH Hi) as [? ->].
      split; [lia |]. by replace (cs_send_nonce s + Z.of_nat (S i)) with (cs_send_nonce s + 1 + Z.of_nat i) by lia.
  - destruct (seal_overflow m peer s msg aad E Hge) as (m' & Em & s' & Es & En). rewrite Em in Hi.
    destruct (seal_all m' peer msgs) as [m'' rs] eqn:Er. cbn [snd] in Hi. destruct i as [|i]; [done |].
    cbn in Hi. specialize (IH m' s' Es ltac:(rewrite En; ints) i sealed). rewrite Er in IH.
    destruct (IH Hi). lia.
Qed.

(** within one session no nonce is ever used twice: in any run of seals, two
    successful outputs at different positions carry different nonces, also across
    the point where the counter saturates and sealing starts to fail. *)
Theorem seal_nonces_unique (m : manager) peer s msgs i j a b :
  sessions m !! peer = Some s -> is_u64 (cs_send_nonce s) -> i <> j ->
  snd (seal_all m peer msgs) !! i = Some (Ok a) -> snd (seal_all m peer msgs) !! j = Some (Ok b) ->
  take 12 a <> take 12 b.
Proof.
  intros E Hn Hij Ha Hb. destruct (seal_all_nonces m peer s msgs E Hn i a Ha) as [Hi ->].
  destruct (seal_all_nonces m peer s msgs E Hn j b Hb) as [Hj ->].
  intros H. apply nonce_bytes_inj in H; [lia | ints | ints].
Qed.

(** ** Opening *)

Lemma try_open_sealed k w n aad msg ct :
  (forall k n a m c, aead_encrypt k n a m = Some c -> aead_decrypt k n a c = Some m) ->
  aead_encrypt k (nonce_bytes n) aad msg = Some ct -> check w n = true ->
  try_open_with aead_decrypt k w (nonce_bytes n ++ ct) aad n = Some (msg, record w n).
Proof.
  intros Hc E Hw. unfold try_open_with. rewrite Hw. cbn [negb].
  destruct (sealed_split n ct) as [-> ->]. by rewrite (Hc _ _ _ _ _ E).
Qed.

(** A failed open leaves every key and window as it was; it can only arm a
    repair. *)
Lemma open_failed (m m' : manager) now peer sealed aad e :
  open m now peer sealed aad = (m', Err e) ->
  (m' = m /\ blen sealed < 12) \/ (m' = fst (request_rekey m now peer) /\ 12 <= blen sealed).
Proof.
  unfold Session.open. destruct (Z.ltb_spec (blen sealed) 12); [intros; simplify_eq; auto |].
  destruct (open_live _ _ _ _ _ _) as [[]|]; [done |].
  destruct (open_with_unconfirmed _ _ _ _ _ _ _) as [[]|]; [done |].
  destruct (open_previous _ _ _ _ _ _ _) as [[]|]; [done |].
  destruct (open_with_retired _ _ _ _ _ _ _) as [[]|]; [done |].
  intros; simplify_eq. auto.
Qed.

(** a message that does not open under any key held for the peer, forged or
    stale, changes no key, no counter and no replay window; it leaves exactly a
    repair request behind. *)
Theorem failed_open_is_inert (m m' : manager) now peer sealed aad e :
  open m now peer sealed aad = (m', Err e) ->
  sessions m' = sessions m /\ unconfirmed m' = unconfirmed m /\ retired m' = retired m /\
  pending_ephemeral m' = pending_ephemeral m /\
  (12 <= blen sealed -> is_Some (rekey_requests m' !! peer)).
Proof.
  intros H. apply open_failed in H as [[-> ?]|[-> ?]]; [split_and!; try done; lia |].
  unfold request_rekey. destruct (rekey_requests m !! peer) eqn:E; [case_if|]; cbn;
    split_and!; try done; intros _; rewrite ?lookup_insert_eq; eauto.
Qed.

(** ** Delivery *)

Hypothesis dh_comm : forall a b, dh a (public_of b) = dh b (public_of a).
Hypothesis aead_correct : forall k n a m c, aead_encrypt k n a m = Some c -> aead_decrypt k n a c = Some m.

(** Seal at [A] for [b], open at [B] from [a], message by message. *)
Fixpoint deliver_all (A B : manager) (a b : NodeId) (now : Z) (msgs : list (bytes * bytes))
  : list (outcome bytes) :=
  match msgs with
  | [] => []
  | (msg, aad) :: msgs =>
      let '(A, r) := seal A b msg aad in
      match r with
      | Ok sealed =>
          let '(B, out) := open B now a sealed aad in out :: deliver_all A B a b now msgs
      | r => r :: deliver_all A B a b now msgs
      end
  end.

Lemma open_live_ok (B : manager) now a sb sealed aad n msg w :
  sessions B !! a = Some sb -> (blen sealed <? 12) = false -> le_val (take 8 (drop 4 sealed)) = n ->
  try_open_with aead_decrypt (cs_cipher_key sb) (cs_replay_window sb) sealed aad n = Some (msg, w) ->
  open B now a sealed aad = (set_sessions <[a := {|
    cs_cipher_key := cs_cipher_key sb; cs_send_nonce := cs_send_nonce sb; cs_replay_window := w;
    cs_created_at := cs_created_at sb; cs_previous := cs_previous sb |}]> B, Ok msg).
Proof. intros E Hl <- Ht. unfold Session.open, open_live. by rewrite Hl, E, Ht. Qed.

Lemma deliver_in_order (A B : manager) a b now sa sb seen msgs :
  sessions A !! b = Some sa -> sessions B !! a = Some sb -> cs_cipher_key sa = cs_cipher_key sb ->
  represents (cs_replay_window sb) seen -> (forall n, n ∈ seen -> n < cs_send_nonce sa) ->
  (seen = [] -> cs_send_nonce sa < REPLAY_WINDOW_SIZE) ->
  0 <= cs_send_nonce sa -> cs_send_nonce sa + blen msgs < u64_max ->
  (forall n p, p ∈ msgs -> is_Some (aead_encrypt (cs_cipher_key sa) n (snd p) (fst p))) ->
  deliver_all A B a b now msgs = map (fun p => Ok (fst p)) msgs.
Proof.
  revert A B sa sb seen.
  induction msgs as [|[msg aad] msgs IH]; intros A B sa sb seen EA EB Hk Hr Hlt H0 Hn Hm Henc; [done |].
  rewrite blen_cons in Hm. pose proof (blen_nonneg msgs). cbn [deliver_all map fst].
  rewrite (seal_ok A b sa msg aad EA) by lia.
  destruct (Henc (nonce_bytes (cs_send_nonce sa)) (msg, aad)) as [ct Ect]; [rewrite elem_of_cons; by left |].
  cbn [fst snd] in Ect. rewrite Ect.
  assert (check (cs_replay_window sb) (cs_send_nonce sa) = true) as Hck.
  { apply (check_correct _ seen _ Hr Hn). destruct seen as [|x seen]; [by apply H0 |]. left.
    apply Hlt. by apply (rep_top _ _ Hr). }
  rewrite Hk in Ect. assert (is_u64 (cs_send_nonce sa)) as Hu by ints.
  rewrite (open_live_ok B now a sb _ aad (cs_send_nonce sa) msg _ EB (sealed_blen _ _)
    (sealed_nonce _ _ Hu) (try_open_sealed _ _ _ _ _ _ aead_correct Ect Hck)).
  f_equal. eapply IH with (seen := cs_send_nonce sa :: seen);
    [apply lookup_insert_eq | apply lookup_insert_eq | done | | | done | | |]; cbn.
  - by apply record_represents.
  - intros n [->|Hin]%elem_of_cons; [lia | specialize (Hlt n Hin); lia].
  - lia.
  - lia.
  - intros n p Hp. apply Henc. rewrite elem_of_cons. by right.
Qed.

(** The static session two nodes build from their long-term keys. *)
Definition static_key (sA sB : Secret) : Key :=
  derive_cipher_key hkdf (dh sA (public_of sB)) (public_of sA) (public_of sB).

Lemma establish_vacant (m : manager) now peer pub :
  sessions m !! peer = None ->
  establish_session dh hkdf m now peer pub =
  (set_sessions <[peer := CachedSession_new
     (derive_cipher_key hkdf (dh (local_secret m) pub) (local_public m) pub) now]> m, true).
Proof.
  intros E. unfold establish_session, has_session. rewrite E, bool_decide_false by (by intros []).
  unfold install_session, install_with_window. by rewrite E.
Qed.

Lemma establish_fresh sA peer now pub :
  sessions (fst (establish_session dh hkdf (manager_new public_of sA) now peer pub)) !! peer =
  Some (CachedSession_new (derive_cipher_key hkdf (dh sA pub) (public_of sA) pub) now).
Proof.
  rewrite establish_vacant by apply lookup_empty. cbn. by rewrite lookup_insert_eq.
Qed.

(** two nodes that establish a session from each other's public keys agree on
    the key, and every message one seals, in order, the other opens to the same
    plaintext, for any number of messages up to the counter's limit. *)
Theorem static_session_delivers sA sB a b now msgs :
  blen msgs < u64_max ->
  (forall k n p, p ∈ msgs -> is_Some (aead_encrypt k n (snd p) (fst p))) ->
  let A := fst (establish_session dh hkdf (manager_new public_of sA) now b (public_of sB)) in
  let B := fst (establish_session dh hkdf (manager_new public_of sB) now a (public_of sA)) in
  deliver_all A B a b now msgs = map (fun p => Ok (fst p)) msgs.
Proof.
  intros Hm Henc A B. eapply deliver_in_order with (seen := []);
    [apply establish_fresh | apply establish_fresh | | apply represents_new | | | | |]; cbn; try done.
  - rewrite (dh_comm sA sB). apply derive_sym.
  - by intros n ?%not_elem_of_nil.
  - intros n p Hp. by apply Henc.
Qed.

(** ** Rekeying *)

(** The key an ephemeral exchange between [eA] and [eB] derives. *)
Definition exchange_key (eA eB : Secret) : Key :=
  derive_cipher_key hkdf (dh eA (public_of eB)) (public_of eA) (public_of eB).

Lemma complete_exchange (A : manager) b now eA pubB sa k :
  sessions A !! b = Some sa -> k = derive_cipher_key hkdf (dh eA pubB) (public_of eA) pubB ->
  is_Some (aead_encrypt k (nonce_bytes 0) SESSION_CONFIRM_MARKER SESSION_CONFIRM_MARKER) ->
  exists ct, aead_encrypt k (nonce_bytes 0) SESSION_CONFIRM_MARKER SESSION_CONFIRM_MARKER = Some ct /\
    exists A', complete_ephemeral_session dh hkdf aead_encrypt
      (fst (initiate_ephemeral_exchange public_of A now b eA)) now b pubB
      = (A', Some (nonce_bytes 0 ++ ct)) /\
    sessions A' !! b = Some {| cs_cipher_key := k; cs_send_nonce := 1; cs_replay_window := window_new;
      cs_created_at := now; cs_previous := Some (retire sa now) |}.
Proof.
  intros E -> [ct Hct]. exists ct. split; [done |].
  unfold complete_ephemeral_session, initiate_ephemeral_exchange. cbn [fst pending_ephemeral set_pending].
  rewrite lookup_insert_eq. cbn [pending_ephemeral_pub set_pending id]. rewrite lookup_insert_eq.
  cbn [pe_secret]. unfold install_session, install_with_window. cbn [set_pending sessions]. rewrite E.
  erewrite seal_ok; [|apply lookup_insert_eq | cbn; ints]. cbn [cs_cipher_key cs_send_nonce].
  rewrite Hct. eexists. split; [done |]. cbn. by rewrite lookup_insert_eq.
Qed.

(** a complete rekey.  [A] initiates, [B] answers waiting for confirmation,
    [A] installs and seals the confirmation, [B] opens it.  Until then [B] still
    seals with the old key; afterwards both seal with the same new key, both keep
    the old one as decrypt-only previous key, and [B]'s window has consumed the
    confirmation so it cannot be replayed. *)
Theorem rekey_agrees (A B : manager) a b now sa sb eA eB :
  sessions A !! b = Some sa -> sessions B !! a = Some sb ->
  let k := exchange_key eA eB in
  is_Some (aead_encrypt k (nonce_bytes 0) SESSION_CONFIRM_MARKER SESSION_CONFIRM_MARKER) ->
  (forall ct, aead_encrypt k (nonce_bytes 0) SESSION_CONFIRM_MARKER SESSION_CONFIRM_MARKER = Some ct ->
    aead_decrypt (cs_cipher_key sb) (nonce_bytes 0) SESSION_CONFIRM_MARKER ct = None) ->
  let '(A1, pubA) := initiate_ephemeral_exchange public_of A now b eA in
  let '(B1, pubB) := accept_ephemeral_exchange dh public_of hkdf B now a pubA OnConfirmation eB in
  exists A2 confirm B2,
    complete_ephemeral_session dh hkdf aead_encrypt A1 now b pubB = (A2, Some confirm) /\
    open B1 now a confirm SESSION_CONFIRM_MARKER = (B2, Ok SESSION_CONFIRM_MARKER) /\
    sessions B1 !! a = Some sb /\
    exists s2a s2b, sessions A2 !! b = Some s2a /\ sessions B2 !! a = Some s2b /\
      cs_cipher_key s2a = k /\ cs_cipher_key s2b = k /\
      cs_previous s2a = Some (retire sa now) /\ cs_previous s2b = Some (retire sb now) /\
      check (cs_replay_window s2b) 0 = false.
Proof.
  intros EA EB k Henc Hold. cbn [initiate_ephemeral_exchange fst].
  unfold accept_ephemeral_exchange, has_session.
  rewrite EB, bool_decide_true by eauto. cbn [negb orb].
  destruct (complete_exchange A b now eA (public_of eB) sa k EA eq_refl Henc)
    as (ct & Ect & A2 & Hc & EA2).
  set (B0 := match pending_ephemeral B !! a with Some _ => _ | None => B end).
  assert (sessions B0 !! a = Some sb) as EB0 by (unfold B0; by destruct (pending_ephemeral B !! a)).
  rewrite (dh_comm eB eA), (derive_sym hkdf _ (public_of eB)). fold (exchange_key eA eB). fold k.
  eexists A2, (nonce_bytes 0 ++ ct), _. split; [exact Hc |]. split; [|split; [done|]].
  - unfold Session.open. rewrite sealed_blen, sealed_nonce by ints.
    unfold open_live. cbn [sessions set_unconfirmed]. rewrite EB0.
    unfold try_open_with at 1. destruct (sealed_split 0 ct) as [-> ->]. rewrite (Hold ct Ect).
    assert (forall (b : bool), (if b then @None (bytes * ReplayWindow) else None) = None) as -> by by intros [].
    unfold open_with_unconfirmed. cbn [unconfirmed set_unconfirmed]. rewrite lookup_insert_eq.
    cbn [uk_cipher_key uk_replay_window].
    rewrite (try_open_sealed k window_new 0 _ SESSION_CONFIRM_MARKER ct aead_correct Ect eq_refl). done.
  - eexists _, _. split; [exact EA2 |]. unfold install_with_window. cbn [sessions set_sessions set_unconfirmed].
    rewrite EB0, lookup_insert_eq. split; [done |]. cbn. done.
Qed.

(** ** Disconnect and reconnect *)

(** a message sealed under the live key just before the peer disconnected
    still opens, within the grace period, after the session is removed, and it
    opens to the same plaintext. *)
Theorem in_flight_opens_after_disconnect (m : manager) peer s t now sealed aad msg w :
  sessions m !! peer = Some s -> t <= now <= t + PREVIOUS_KEY_GRACE -> 12 <= blen sealed ->
  try_open_with aead_decrypt (cs_cipher_key s) (cs_replay_window s) sealed aad
    (le_val (take 8 (drop 4 sealed))) = Some (msg, w) ->
  exists m', open (remove_session m t peer) now peer sealed aad = (m', Ok msg) /\
    sessions m' !! peer = None /\ retired m' !! peer = Some (touch (retire s t) w).
Proof.
  intros E Hnow Hlen Ht. unfold Session.open. rewrite (proj2 (Z.ltb_ge _ _)) by done.
  unfold remove_session. rewrite E.
  unfold open_live, open_with_unconfirmed, open_previous, open_with_retired.
  cbn [sessions set_unconfirmed set_pending set_retired set_sessions unconfirmed retired].
  rewrite !lookup_delete_eq, lookup_insert_eq. cbn [retire pk_retired_at pk_cipher_key pk_replay_window].
  rewrite (proj2 (Z.ltb_ge _ _)) by lia. rewrite Ht. eexists. split; [done |].
  cbn. by rewrite lookup_delete_eq, lookup_insert_eq.
Qed.

(** reconnecting reuses nonces.  The key of [establish_session] depends only on
    the two long-term keys, so after [remove_session] it installs the same key
    again with the counter at zero: the first message sealed before the
    disconnect and the first sealed after it are two encryptions under one key
    and one nonce. *)
Theorem reconnect_reuses_nonce (m : manager) peer pub t0 t1 t2 msg1 aad1 msg2 aad2 :
  sessions m !! peer = None ->
  let k := derive_cipher_key hkdf (dh (local_secret m) pub) (local_public m) pub in
  let '(m1, out1) := seal (fst (establish_session dh hkdf m t0 peer pub)) peer msg1 aad1 in
  let '(_, out2) := seal (fst (establish_session dh hkdf (remove_session m1 t1 peer) t2 peer pub)) peer msg2 aad2 in
  let result aad msg := match aead_encrypt k (nonce_bytes 0) aad msg with
    | Some ct => Ok (nonce_bytes 0 ++ ct) | None => Err (Encryption "Seal failed") end in
  out1 = result aad1 msg1 /\ out2 = result aad2 msg2.
Proof.
  intros E k. rewrite establish_vacant by done. cbn [fst].
  erewrite seal_ok; [|apply lookup_insert_eq | cbn; ints]. unfold remove_session.
  cbn [sessions set_sessions]. rewrite lookup_insert_eq.
  rewrite establish_vacant by (cbn; by rewrite lookup_delete_eq). cbn [fst].
  erewrite seal_ok; [|apply lookup_insert_eq | cbn; ints]. done.
Qed.

(** and it accepts replays.  A message the live static session has opened
    opens a second time after a disconnect and a reconnect, because the new
    session has the same key and an empty replay window. *)
Theorem reconnect_accepts_replay (m m1 : manager) peer pub t0 t1 t2 t3 n ct aad msg :
  sessions m !! peer = None -> 0 <= n < REPLAY_WINDOW_SIZE ->
  open (fst (establish_session dh hkdf m t0 peer pub)) t1 peer (nonce_bytes n ++ ct) aad = (m1, Ok msg) ->
  unconfirmed m !! peer = None -> retired m !! peer = None ->
  exists m2, open (fst (establish_session dh hkdf (remove_session m1 t2 peer) t2 peer pub)) t3 peer
    (nonce_bytes n ++ ct) aad = (m2, Ok msg).
Proof.
  intros E Hn Ho Eu Er. rewrite establish_vacant in Ho by done. cbn [fst] in Ho.
  unfold REPLAY_WINDOW_SIZE in Hn.
  set (k := derive_cipher_key hkdf (dh (local_secret m) pub) (local_public m) pub) in Ho.
  unfold Session.open in Ho. rewrite sealed_blen, sealed_nonce in Ho by ints.
  unfold open_live in Ho. cbn [sessions set_sessions] in Ho. rewrite lookup_insert_eq in Ho.
  cbn [CachedSession_new cs_cipher_key cs_replay_window] in Ho.
  destruct (try_open_with aead_decrypt k window_new (nonce_bytes n ++ ct) aad n) as [[p w]|] eqn:Et.
  - simplify_eq. rewrite establish_vacant.
    2:{ unfold remove_session. cbn. rewrite lookup_insert_eq. cbn. by rewrite lookup_delete_eq. }
    cbn [fst]. eexists. unfold remove_session. cbn [sessions set_sessions]. rewrite lookup_insert_eq.
    eapply open_live_ok; [apply lookup_insert_eq | apply sealed_blen | apply sealed_nonce; ints | exact Et].
  - exfalso. revert Ho. unfold open_with_unconfirmed, open_previous, open_with_retired.
    cbn [unconfirmed retired sessions set_sessions]. rewrite Eu, Er, lookup_insert_eq. done.
Qed.
End theorems.

(** ** Repair requests and eviction *)

Section housekeeping.
Context {Secret : Type}.
Abbreviation manager := (@SessionManager Secret).

(** Repairs are rate limited and handed out once.  A peer armed at [t] is not
    armed again before 15 seconds have passed, and the rotation task receives it
    in one batch only, without duplicates. *)
Theorem repair_once_per_interval (m m1 : manager) t t' peer :
  request_rekey m t peer = (m1, true) -> t' < t + REKEY_REQUEST_MIN_INTERVAL ->
  request_rekey m1 t' peer = (m1, false) /\
  peer ∈ snd (take_rekey_requests m1) /\ NoDup (snd (take_rekey_requests m1)) /\
  snd (take_rekey_requests (fst (take_rekey_requests m1))) = [] /\
  request_rekey (fst (take_rekey_requests m1)) t' peer = (fst (take_rekey_requests m1), false).
Proof.
  intros H Ht.
  assert (rekey_requests m1 !! peer = Some {| rr_armed_at := t; rr_pending := true |}) as E.
  { unfold request_rekey in H. repeat case_match; simplify_eq; cbn;
      by rewrite lookup_insert_eq. }
  unfold REKEY_REQUEST_MIN_INTERVAL in *. split_and!.
  - unfold request_rekey. rewrite E. cbn. unfold REKEY_REQUEST_MIN_INTERVAL. by rewrite (proj2 (Z.ltb_lt _ _)) by lia.
  - cbn. apply list_elem_of_fmap. exists (peer, {| rr_armed_at := t; rr_pending := true |}). split; [done |].
    apply list_elem_of_filter. split; [done |]. by apply elem_of_map_to_list.
  - apply nodup_fst_filter, NoDup_fst_map_to_list.
  - cbn. destruct (filter _ _) as [|x l] eqn:F; [done |]. exfalso.
    assert (x ∈ x :: l) as Hin by (rewrite elem_of_cons; by left). rewrite <- F in Hin.
    apply list_elem_of_filter in Hin as [Hp Hin]. destruct x as [q r]. apply elem_of_map_to_list in Hin.
    apply lookup_fmap_Some in Hin as (r' & <- & _). done.
  - unfold request_rekey. cbn [rekey_requests take_rekey_requests fst set_rekey]. rewrite lookup_fmap, E. cbn.
    unfold REKEY_REQUEST_MIN_INTERVAL. by rewrite (proj2 (Z.ltb_lt _ _)) by lia.
Qed.

(** [evict_stale] keeps exactly the sessions younger than the limit, and every
    session it ends stays openable, with its own key and window, as a key
    retired now; the peers it returns are exactly those. *)
Theorem evict_stale_retires (m : manager) now max_age peer s :
  sessions m !! peer = Some s ->
  let '(m', peers) := evict_stale m now max_age in
  if max_age <=? now - cs_created_at s
  then sessions m' !! peer = None /\ retired m' !! peer = Some (retire s now) /\ peer ∈ peers
  else sessions m' !! peer = Some s /\ peer ∉ peers.
Proof.
  intros E. cbn [evict_stale]. destruct (Z.leb_spec max_age (now - cs_created_at s)) as [H|H];
    cbn [sessions retired set_pending set_unconfirmed set_retired set_sessions].
  - split_and!.
    + apply map_lookup_filter_None. right. intros s' E'. cbn. simplify_eq. auto.
    + apply map_lookup_filter_Some. cbn. split.
      * apply lookup_union_Some_l, lookup_fmap_Some. exists s. split; [done |].
        by apply map_lookup_filter_Some.
      * unfold PREVIOUS_KEY_GRACE, seconds. lia.
    + apply list_elem_of_fmap. exists (peer, s). split; [done |]. apply elem_of_map_to_list.
      by apply map_lookup_filter_Some.
  - split.
    + apply map_lookup_filter_Some. split; [done |]. cbn. lia.
    + intros ([p s'] & Hp & Hin)%list_elem_of_fmap. cbn in Hp. subst p. apply elem_of_map_to_list in Hin.
      apply map_lookup_filter_Some in Hin as [E' Hle]. cbn in Hle. simplify_eq. lia.
Qed.
End housekeeping.

(** ** A concrete instance of the cryptography *)

Definition toy_public (s : Z) : PublicKey := [s].
Definition toy_dh (s : Z) (p : PublicKey) : bytes := match p with [b] => [s * b] | _ => [] end.
Definition toy_hkdf (shared salt : bytes) : Key := shared ++ salt.
Definition toy_head (k n a : bytes) : bytes := k ++ n ++ a.
Definition toy_encrypt (k n a msg : bytes) : option bytes := Some (toy_head k n a ++ msg).
Definition toy_decrypt (k n a ct : bytes) : option bytes :=
  let h := toy_head k n a in
  if decide (take (length h) ct = h) then Some (drop (length h) ct) else None.

Lemma toy_dh_comm a b : toy_dh a (toy_public b) = toy_dh b (toy_public a).
Proof. cbn. by rewrite Z.mul_comm. Qed.
Lemma toy_correct k n a m c : toy_encrypt k n a m = Some c -> toy_decrypt k n a c = Some m.
Proof.
  intros [= <-]. unfold toy_decrypt. rewrite take_app_length, decide_True by done. by rewrite drop_app_length.
Qed.

Definition node_a : NodeId := [1].
Definition node_b : NodeId := [2].
Definition toy_A : SessionManager :=
  fst (establish_session toy_dh toy_hkdf (manager_new toy_public 11) 0 node_b (toy_public 13)).
Definition toy_B : SessionManager :=
  fst (establish_session toy_dh toy_hkdf (manager_new toy_public 13) 0 node_a (toy_public 11)).
Definition toy_session : CachedSession := CachedSession_new ([143] ++ [11] ++ [13]) 0.

Lemma seal_nonces_unique_witness :
  take 12 (nonce_bytes 0 ++ toy_head [143; 11; 13] (nonce_bytes 0) [] ++ [5]) <>
  take 12 (nonce_bytes 1 ++ toy_head [143; 11; 13] (nonce_bytes 1) [] ++ [6]).
Proof.
  apply (seal_nonces_unique toy_encrypt toy_A node_b toy_session [([5], []); ([6], [])] 0 1);
    [by vm_compute | by vm_compute | done | by vm_compute | by vm_compute].
Defined.

Lemma failed_open_is_inert_witness :
  sessions (fst (Session.open toy_decrypt toy_B 0 node_a (replicate 20 3) [])) = sessions toy_B.
Proof.
  refine (proj1 (failed_open_is_inert toy_decrypt toy_B _ 0 node_a (replicate 20 3) [] DecryptionFailed _)).
  by vm_compute.
Defined.

Lemma static_session_delivers_witness :
  deliver_all toy_encrypt toy_decrypt toy_A toy_B node_a node_b 0 [([5], [1]); ([6], [2])] = [Ok [5]; Ok [6]].
Proof.
  apply (static_session_delivers toy_dh toy_public toy_hkdf toy_encrypt toy_decrypt toy_dh_comm toy_correct
    11 13 node_a node_b 0 [([5], [1]); ([6], [2])]); [by vm_compute | by eexists].
Defined.

Lemma rekey_agrees_witness :
  exists A2 confirm, complete_ephemeral_session toy_dh toy_hkdf toy_encrypt
    (fst (initiate_ephemeral_exchange toy_public toy_A 7 node_b 17)) 7 node_b (toy_public 19) = (A2, Some confirm).
Proof.
  destruct (rekey_agrees toy_dh toy_public toy_hkdf toy_encrypt toy_decrypt toy_dh_comm toy_correct
    toy_A toy_B node_a node_b 7 toy_session toy_session 17 19) as (A2 & c & _ & H & _);
    [by vm_compute | by vm_compute | by eexists | |].
  - intros ct. unfold toy_encrypt. intros [= <-]. by vm_compute.
  - eauto.
Defined.

Lemma in_flight_opens_after_disconnect_witness :
  exists m', Session.open toy_decrypt (remove_session toy_B 5 node_a) 6 node_a
    (nonce_bytes 0 ++ toy_head [143; 11; 13] (nonce_bytes 0) [] ++ [9]) [] = (m', Ok [9]).
Proof.
  destruct (in_flight_opens_after_disconnect toy_decrypt toy_B node_a toy_session 5 6
    (nonce_bytes 0 ++ toy_head [143; 11; 13] (nonce_bytes 0) [] ++ [9]) [] [9] (record window_new 0))
    as (m' & H & _); [by vm_compute | by vm_compute | by vm_compute | by vm_compute | eauto].
Defined.

Lemma reconnect_reuses_nonce_witness :
  let '(m1, out1) := Session.seal toy_encrypt toy_A node_b [1] [] in
  let '(_, out2) := Session.seal toy_encrypt (fst (establish_session toy_dh toy_hkdf
    (remove_session m1 1 node_b) 2 node_b (toy_public 13))) node_b [2] [] in
  let result aad msg := match toy_encrypt (derive_cipher_key toy_hkdf [143] [11] [13]) (nonce_bytes 0) aad msg with
    | Some ct => Ok (nonce_bytes 0 ++ ct) | None => Err (Encryption "Seal failed") end in
  out1 = result [] [1] /\ out2 = result [] [2].
Proof.
  refine (reconnect_reuses_nonce toy_dh toy_hkdf toy_encrypt (manager_new toy_public 11) node_b (toy_public 13)
    0 1 2 [1] [] [2] [] _). by vm_compute.
Defined.

Lemma reconnect_accepts_replay_witness :
  let sealed := nonce_bytes 3 ++ toy_head [143; 11; 13] (nonce_bytes 3) [] ++ [9] in
  let m1 := fst (Session.open toy_decrypt toy_B 1 node_a sealed []) in
  exists m2, Session.open toy_decrypt (fst (establish_session toy_dh toy_hkdf
    (remove_session m1 2 node_a) 2 node_a (toy_public 11))) 3 node_a sealed [] = (m2, Ok [9]).
Proof.
  apply (reconnect_accepts_replay toy_dh toy_hkdf toy_decrypt (manager_new toy_public 13)
    _ node_a (toy_public 11) 0 1 2 3 3); by vm_compute.
Defined.

Lemma repair_once_per_interval_witness :
  node_b ∈ snd (take_rekey_requests (fst (request_rekey toy_A 0 node_b))).
Proof. apply (repair_once_per_interval toy_A _ 0 1 node_b); by vm_compute. Defined.

Lemma evict_stale_retires_witness :
  sessions (fst (evict_stale toy_A 100 50)) !! node_b = None.
Proof. apply (evict_stale_retires toy_A 100 50 node_b toy_session). by vm_compute. Defined.
