(* ===== verification/PipelineStream.v ===== *)
(** * Forwards over a pipeline stream ([src/network/pipeline_stream.rs])

    The path a forward takes from one node to the next: split into chunks, sealed
    for the peer, framed by length on a stream; read back, opened, reassembled and
    dispatched, or answered with a refusal when the seal does not open.  What this
    needs of the session layer is the interface [SecureChannel]; [session_channel]
    discharges it with the sessions of [Session].  The peer's identity is what
    [transport::peer_id_to_node_id] and the peer registry answer, given as an
    argument; the wait for the worker's result after a dispatch is not modelled. *)
From S2P Require Import Prelude Bytes Utf8 ForwardTypes ForwardCodec ForwardFrames ForwardSafety ForwardTheorems.
From S2P Require Import ChunkTransport ResultCodec ReplayWindow Session SessionTheorems.

(** 16 MiB. *)
Definition MAX_FRAME_LEN : Z := 16777216.

(** ** What a session layer promises: opening never panics, and what [A] seals for
    [b], linked [B] opens from [a]. *)
Class SecureChannel (M : Type) := {
  ch_seal : M -> NodeId -> bytes -> bytes -> M * outcome bytes;
  ch_open : M -> NodeId -> bytes -> bytes -> M * outcome bytes;
  ch_linked : M -> NodeId -> M -> NodeId -> Prop;
  ch_open_safe : forall m n sealed aad, safe (ch_open m n sealed aad).2;
  ch_delivers : forall A b B a msg aad A' sealed,
    ch_linked A b B a -> ch_seal A b msg aad = (A', Ok sealed) ->
    exists B', ch_open B a sealed aad = (B', Ok msg) /\ ch_linked A' b B' a }.

Definition bytes_of_string (s : string) : bytes :=
  map (fun c => Z.of_N (Ascii.N_of_ascii c)) (String.list_ascii_of_string s).

(** ** Results a serving node makes itself *)

Definition LayerResult_error (request_id : bytes) (reason : string) : LayerResult := {|
  lr_request_id := request_id; lr_token_ids := []; lr_finish_reason := Some (FinishError (bytes_of_string reason));
  lr_activations := []; lr_sealed_token_ids := None; lr_spec_logits := []; lr_matched_stop_sequence := None;
  lr_token_logprobs := []; lr_locally_constructed := true; lr_refusal := None; lr_answers_step := None;
  lr_prompt_blocks_stored := None; lr_served_us := None |}.

(** [answering_step] and [with_refusal]. *)
Definition with_answer (st : option ResultStep) (ref : option ForwardRefusal) (r : LayerResult) : LayerResult := {|
  lr_request_id := lr_request_id r; lr_token_ids := lr_token_ids r; lr_finish_reason := lr_finish_reason r;
  lr_activations := lr_activations r; lr_sealed_token_ids := lr_sealed_token_ids r;
  lr_spec_logits := lr_spec_logits r; lr_matched_stop_sequence := lr_matched_stop_sequence r;
  lr_token_logprobs := lr_token_logprobs r; lr_locally_constructed := lr_locally_constructed r;
  lr_refusal := ref; lr_answers_step := st;
  lr_prompt_blocks_stored := lr_prompt_blocks_stored r; lr_served_us := lr_served_us r |}.
Definition answering_step (st : ResultStep) (r : LayerResult) : LayerResult := with_answer (Some st) (lr_refusal r) r.
Definition with_refusal (ref : ForwardRefusal) (r : LayerResult) : LayerResult := with_answer (lr_answers_step r) (Some ref) r.

Definition refusal_for_undecryptable (f : LayerForward) (sender_reads_reason : bool) : option LayerResult :=
  if match lf_chunk_meta f with Some m => negb (chunk_idx m =? 0) | None => false end then None
  else
    let refusal := answering_step (step f) (LayerResult_error (lf_request_id f) "Could not decrypt forward") in
    Some (if sender_reads_reason then with_refusal Undecryptable refusal else refusal).

(** ** Frames on a stream *)

Definition write_frame (payload : bytes) : outcome bytes :=
  if MAX_FRAME_LEN <? blen payload then Err (Network ("frame too large: " +:+ pretty (blen payload)))
  else Ok (le_bytes 4 (blen payload) ++ payload).

(** [read_frame]: the payload and the rest of the stream; [None] ends the stream,
    at its end or at an invalid length. *)
Definition read_frame (s : bytes) : option (bytes * bytes) :=
  if blen s <? 4 then None
  else
    let len := le_val (take 4 s) in
    if (len =? 0) || (MAX_FRAME_LEN <? len) then None
    else if blen s - 4 <? len then None
    else Some (take (Z.to_nat len) (drop 4 s), drop (Z.to_nat len) (drop 4 s)).

(** ** Framing *)

Lemma read_written p rest :
  0 < blen p <= MAX_FRAME_LEN -> read_frame (le_bytes 4 (blen p) ++ p ++ rest) = Some (p, rest).
Proof.
  intros Hp. unfold read_frame. pose proof (blen_nonneg rest). unfold MAX_FRAME_LEN in *.
  rewrite !blen_app. assert (Hl : blen (le_bytes 4 (blen p)) = 4) by (unfold blen at 1; by rewrite length_le_bytes).
  rewrite Hl. destruct (Z.ltb_spec (4 + (blen p + blen rest)) 4); [lia |].
  rewrite take_app_length' by (by rewrite length_le_bytes).
  rewrite drop_app_length' by (by rewrite length_le_bytes). rewrite le_val_le_bytes by (cbn; lia).
  destruct (Z.eqb_spec (blen p) 0); [lia |]. destruct (Z.ltb_spec 16777216 (blen p)); [lia |]. cbn [orb].
  destruct (Z.ltb_spec (4 + (blen p + blen rest) - 4) (blen p)); [lia |].
  rewrite take_app_length', drop_app_length' by (unfold blen; lia). done.
Qed.

(** ** Frames of one forward differ in transport only *)

Lemma received_with_transport f a c x a' c' x' :
  with_transport (received (with_transport f a c x)) a' c' x' = with_transport (received f) a' c' x'.
Proof. done. Qed.

Lemma received_unsealed f a c x :
  with_transport (clamp_forward (assemble (header_of f) [] (trailers_of f) (t_sampling (trailers_of f)))) a c x =
  with_transport (received f) a c x.
Proof. done. Qed.

Lemma frame_typed f a c x :
  typed_forward f -> is_bytes a -> opt (fun c => is_u32 (chunk_idx c) /\ is_u32 (total_chunks c)) c ->
  typed_forward (with_transport f a c x).
Proof. by intros []; constructor. Qed.

Lemma frame_limits f a c x :
  within_limits f -> opt (fun c => chunk_idx c < total_chunks c) c -> within_limits (with_transport f a c x).
Proof. by intros []; constructor. Qed.

Lemma sealed_frame_length f sealed frame :
  within_limits f -> encode_layer_forward_encrypted f sealed = Ok frame ->
  blen sealed <= blen frame /\ 0 < blen frame /\ exists rest, frame = TENSOR_TAG_ENCRYPTED :: rest.
Proof.
  intros Hl. rewrite encode_sealed_frame by done. intros [= <-].
  pose proof (blen_nonneg sealed). pose proof (blen_nonneg (lf_request_id f)).
  pose proof (blen_nonneg (lf_model_id f)). pose proof (blen_nonneg (trailer_bytes f)).
  unfold head_bytes. autorewrite with blen. split_and!; [lia | lia | eauto].
Qed.

Section stream.
Context {M : Type} `{SecureChannel M}.
Context (to_json : list TokenLogProbEntry -> option bytes).

(** [seal_for]: [node] is what [peer_id_to_node_id] derives from the peer's id. *)
Definition seal_for (enable_encryption : bool) (node : option NodeId) : outcome (option NodeId) :=
  if negb enable_encryption then Ok None
  else match node with
       | Some n => Ok (Some n)
       | None => Err (Network "the peer's id carries no key a session can be made with, so the forward cannot be sealed for it")
       end.

(** [.map_err(|e| SwarmError::Network(..))]. *)
Definition map_err {A} (what : string) (r : outcome A) : outcome A :=
  match r with Err _ => Err (Network what) | r => r end.

Definition encode_forward_for_wire (enable_encryption : bool) (node : option NodeId) (f : LayerForward) (m : M)
  : M * outcome bytes :=
  match seal_for enable_encryption node with
  | Ok (Some n) =>
      let aad := build_layer_forward_aad f in
      match ch_seal m n (lf_activations f) aad with
      | (m, Ok sealed) => (m, map_err "encrypted encode" (encode_layer_forward_encrypted f sealed))
      | (m, Err _) => (m, Err (Network "seal failed"))
      | (m, Panic) => (m, Panic)
      end
  | Ok None => (m, map_err "forward encode" (encode_layer_forward f))
  | Err e => (m, Err e)
  | Panic => (m, Panic)
  end.

(** The send loop over a forward's frames: the bytes put on the stream. *)
Fixpoint send_frames (enable_encryption : bool) (node : option NodeId) (fs : list LayerForward) (m : M)
  : M * outcome bytes :=
  match fs with
  | [] => (m, Ok [])
  | f :: fs =>
      match encode_forward_for_wire enable_encryption node f m with
      | (m, Ok payload) =>
          match write_frame payload with
          | Ok bytes => let '(m, r) := send_frames enable_encryption node fs m in (m, r ≫= fun rest => Ok (bytes ++ rest))
          | Err e => (m, Err e)
          | Panic => (m, Panic)
          end
      | (m, Err e) => (m, Err e)
      | (m, Panic) => (m, Panic)
      end
  end.

Inductive InboundForward : Type :=
| Decoded (forward : LayerForward) (request_id : bytes)
| UndecryptableForward (forward : LayerForward) (node_id : NodeId)
| Dropped.

(** [decode_inbound_forward]: [node] is the registry's answer for the peer. *)
Definition decode_inbound_forward (frame : bytes) (tag : Z) (peer_bytes : bytes) (node : option NodeId) (m : M)
  : M * outcome InboundForward :=
  if tag =? TENSOR_TAG_FORWARD then
    (m, match decode_layer_forward frame with
        | Ok f => Ok (Decoded (with_transport f (lf_activations f) (lf_chunk_meta f) (Some peer_bytes)) (lf_request_id f))
        | Err _ => Ok Dropped
        | Panic => Panic
        end)
  else if tag =? TENSOR_TAG_ENCRYPTED then
    match decode_layer_forward_encrypted frame with
    | Ok (f, sealed, aad) =>
        match node with
        | None => (m, Ok Dropped)
        | Some n =>
            match ch_open m n sealed aad with
            | (m, Ok plaintext) =>
                (m, Ok (Decoded (with_transport f plaintext (lf_chunk_meta f) (Some peer_bytes)) (lf_request_id f)))
            | (m, Err _) => (m, Ok (UndecryptableForward f n))
            | (m, Panic) => (m, Panic)
            end
        end
    | Err _ => (m, Ok Dropped)
    | Panic => (m, Panic)
    end
  else (m, Ok Dropped).

(** What one frame makes the handler do: hand a forward to the worker, write a
    refusal frame, close the stream because the write failed, or read on. *)
Inductive StreamAction : Type :=
| Dispatch (forward : LayerForward)
| Answer (written : bytes)
| Close
| Nothing.

Abbreviation Receiver := (M * Assemblies)%type.

Definition assembled_action (r : outcome (option LayerForward)) : outcome StreamAction :=
  match r with Ok (Some g) => Ok (Dispatch g) | Ok None => Ok Nothing | Err _ => Ok Nothing | Panic => Panic end.

Definition write_refusal (refusal : LayerResult) : outcome StreamAction :=
  match encode_layer_result to_json refusal with
  | Ok bytes => match write_frame bytes with Ok w => Ok (Answer w) | Err _ => Ok Close | Panic => Panic end
  | Err _ => Ok Nothing
  | Panic => Panic
  end.

Definition handle_frame (peer_bytes : bytes) (node : option NodeId) (reads_reason : bool) (now : Z)
    (frame : bytes) (st : Receiver) : Receiver * outcome StreamAction :=
  let '(m, asm) := st in
  let tag := match frame with b :: _ => b | [] => 0 end in
  match decode_inbound_forward frame tag peer_bytes node m with
  | (m, Ok (Decoded f _)) =>
      match lf_chunk_meta f with
      | Some _ => let '(asm, r) := try_assemble_chunked_forward f peer_bytes now asm in ((m, asm), assembled_action r)
      | None => ((m, asm), Ok (Dispatch f))
      end
  | (m, Ok (UndecryptableForward f _)) =>
      match refusal_for_undecryptable f reads_reason with
      | Some refusal => ((m, delete (lf_request_id f) asm), write_refusal refusal)
      | None => ((m, asm), Ok Nothing)
      end
  | (m, Ok Dropped) => ((m, asm), Ok Nothing)
  | (m, Err e) => ((m, asm), Err e)
  | (m, Panic) => ((m, asm), Panic)
  end.

(** The loop of [handle_inbound_stream] over the bytes of a stream; a frame takes
    at least five bytes, so the stream's length is fuel enough ([serve_enough]). *)
Fixpoint serve (peer_bytes : bytes) (node : option NodeId) (reads_reason : bool) (now : Z) (fuel : nat)
    (s : bytes) (st : Receiver) : Receiver * list (outcome StreamAction) :=
  match fuel with
  | O => (st, [])
  | S fuel =>
      match read_frame s with
      | None => (st, [])
      | Some (frame, rest) =>
          let '(st, r) := handle_frame peer_bytes node reads_reason now frame st in
          match r with
          | Ok Close | Panic => (st, [r])
          | _ => let '(st, rs) := serve peer_bytes node reads_reason now fuel rest st in (st, r :: rs)
          end
      end
  end.

Definition handle_inbound_stream (peer_bytes : bytes) (node : option NodeId) (reads_reason : bool) (now : Z)
    (s : bytes) (st : Receiver) : Receiver * list (outcome StreamAction) :=
  match node with
  | None => (st, [])
  | Some _ => serve peer_bytes node reads_reason now (length s) s st
  end.

(** ** Refusals *)

Lemma error_limits rid reason st ref : result_limits (with_answer st ref (LayerResult_error rid reason)).
Proof. constructor; cbn; try done; constructor. Qed.

(** Every refusal fits a frame, and its reader gets it whole. *)
Lemma refusal_written f reads refusal :
  length (lf_request_id f) = 16%nat -> is_bytes (lf_request_id f) -> is_u32 (lf_index_pos f) ->
  is_u32 (fst (lf_layer_range f)) -> is_u32 (snd (lf_layer_range f)) -> opt is_u32 (lf_stream_seq f) ->
  refusal_for_undecryptable f reads = Some refusal ->
  exists p, write_refusal refusal = Ok (Answer (le_bytes 4 (blen p) ++ p)) /\ 0 < blen p <= MAX_FRAME_LEN /\
    forall from_json, decode_layer_result from_json p = Ok (received_result refusal).
Proof.
  intros Hlen Hb Hi Ha Hz Hs. unfold refusal_for_undecryptable. destruct (match _ with Some _ => _ | None => _ end); [done |].
  intros E. assert (exists st ref, refusal = with_answer (Some st) ref
    (LayerResult_error (lf_request_id f) "Could not decrypt forward") /\ st = step f) as (st & ref & -> & ->).
  { injection E as <-. destruct reads; do 2 eexists; split; done. }
  clear E. set (r := with_answer _ _ _).
  assert (Hr : typed_result r) by (constructor; cbn; split_and?; first [done | constructor]).
  assert (Hsmall : forall frame, frame = TENSOR_TAG_RESULT :: result_head r ++ finish_bytes (lr_finish_reason r) ++
      with_len (lr_activations r) ++ result_trailers to_json r -> 0 < blen frame <= 16777216).
  { intros frame ->. unfold result_head, result_trailers, append_refusal, append_step, with_len, blen. cbn.
    unfold with_len. repeat (rewrite ?length_app, ?length_le_bytes; cbn [length]).
    rewrite Hlen. destruct ref, (lf_stream_seq f); cbn [opt]; repeat (rewrite ?length_app, ?length_le_bytes; cbn [length app]); lia. }
  destruct (decode_plain_result to_json (fun _ => None) r Hr (error_limits _ _ _ _) eq_refl) as (p & He & _ & Hp).
  specialize (Hsmall p Hp). exists p. unfold write_refusal, write_frame. rewrite He.
  rewrite (proj2 (Z.ltb_ge _ _)) by apply Hsmall. split_and!; [done | apply Hsmall | apply Hsmall |].
  intros from_json.
  destruct (decode_plain_result to_json from_json r Hr (error_limits _ _ _ _) eq_refl) as (p' & He' & Hd & _). congruence.
Qed.

Lemma read_frame_shrinks s frame rest :
  read_frame s = Some (frame, rest) -> (length rest < length s)%nat /\ (is_bytes s -> is_bytes frame /\ is_bytes rest).
Proof.
  unfold read_frame. destruct (Z.ltb_spec (blen s) 4); [done |]. destruct (_ || _); [done |].
  destruct (_ <? _); [done |]. intros [= <- <-]. unfold blen in *. rewrite !length_drop. split; [lia |].
  intros Hs. unfold is_bytes in *. auto using Forall_take, Forall_drop.
Qed.

Lemma serve_enough peer_bytes node reads now s st fuel :
  (length s <= fuel)%nat ->
  serve peer_bytes node reads now fuel s st = serve peer_bytes node reads now (length s) s st.
Proof.
  assert (G : forall n fuel s st, (length s <= n)%nat -> (n <= fuel)%nat ->
    serve peer_bytes node reads now fuel s st = serve peer_bytes node reads now n s st).
  { clear. induction n as [|n IH]; intros fuel s st Hn Hf.
    { destruct s; [|cbn in Hn; lia]. by destruct fuel. }
    destruct fuel as [|fuel]; [lia |]. cbn [serve].
    destruct (read_frame s) as [[frame rest]|] eqn:E; [|done]. apply read_frame_shrinks in E as [E _].
    destruct (handle_frame _ _ _ _ _ _) as [st' r]. rewrite (IH fuel rest st') by lia. done. }
  intros. by apply G.
Qed.

(** ** One sealed frame *)

Lemma sealed_frame_arrives A b B a f A' frame peer_bytes :
  typed_forward f -> within_limits f -> ch_linked A b B a -> blen frame <= MAX_FRAME_LEN ->
  encode_forward_for_wire true (Some b) f A = (A', Ok frame) ->
  exists B', decode_inbound_forward frame (match frame with t :: _ => t | [] => 0 end) peer_bytes (Some a) B =
      (B', Ok (Decoded (with_transport (received f) (lf_activations f) (lf_chunk_meta f) (Some peer_bytes))
                 (lf_request_id f))) /\
    ch_linked A' b B' a /\ 0 < blen frame.
Proof.
  intros Hf Hl Hlink Hlen. unfold encode_forward_for_wire. cbn [seal_for negb].
  destruct (ch_seal A b (lf_activations f) (build_layer_forward_aad f)) as [A1 [sealed|e|]] eqn:Es; try done.
  destruct (encode_layer_forward_encrypted f sealed) as [fr|e|] eqn:Ee; try done. intros [= <- <-].
  destruct (sealed_frame_length f sealed fr Hl Ee) as (Hs & H0 & rest & Hr).
  destruct (ch_delivers A b B a _ _ _ _ Hlink Es) as (B' & Ho & Hlink'). exists B'.
  split_and!; [|done | done]. subst fr. cbn [decode_inbound_forward]. unfold decode_inbound_forward.
  change (TENSOR_TAG_ENCRYPTED =? TENSOR_TAG_FORWARD) with false. rewrite Z.eqb_refl.
  assert (Hd : decode_layer_forward_encrypted (TENSOR_TAG_ENCRYPTED :: rest) = Ok (clamp_forward (assemble (header_of f) []
             (trailers_of f) (t_sampling (trailers_of f))), sealed, build_layer_forward_aad f)).
  { pose proof (decode_sealed_frame f sealed Hf Hl) as D. rewrite Ee in D. cbn [mbind outcome_bind] in D.
    rewrite D, aad_received; [done |]. unfold MAX_FRAME_LEN in *. ints. }
  rewrite Hd, Ho, received_unsealed. done.
Qed.

Definition arrived (peer_bytes : bytes) (f : LayerForward) : LayerForward :=
  with_transport (received f) (lf_activations f) (lf_chunk_meta f) (Some peer_bytes).

(** ** A stream of chunk frames *)

Lemma serve_chunks A b B a fs A' s peer_bytes reads now fuel asm asm' rs :
  Forall (fun f => typed_forward f /\ within_limits f /\ is_Some (lf_chunk_meta f)) fs -> ch_linked A b B a ->
  send_frames true (Some b) fs A = (A', Ok s) -> (length fs < fuel)%nat ->
  receive_all (map (fun f => (now, arrived peer_bytes f)) fs) peer_bytes asm = (asm', rs) -> Forall safe rs ->
  exists B', serve peer_bytes (Some a) reads now fuel s (B, asm) = ((B', asm'), map assembled_action rs) /\
    ch_linked A' b B' a.
Proof.
  intros Hfs. revert A B s fuel asm asm' rs. induction Hfs as [|f fs (Hf & Hl & cm & Hc) _ IH];
    intros A B s fuel asm asm' rs Hlink; cbn [send_frames map receive_all].
  { intros [= <- <-] Hfuel [= <- <-] _. exists B. destruct fuel; [lia |]. done. }
  destruct (encode_forward_for_wire true (Some b) f A) as [A1 [payload|e|]] eqn:Ee; try done.
  unfold write_frame. destruct (Z.ltb_spec MAX_FRAME_LEN (blen payload)); [done |].
  destruct (send_frames true (Some b) fs A1) as [A2 [rest|e|]] eqn:Er; try done. intros [= <- <-] Hfuel.
  destruct (sealed_frame_arrives A b B a f A1 payload peer_bytes) as (B1 & Hd & Hlink1 & Hpos); [done.. |].
  destruct (try_assemble_chunked_forward (arrived peer_bytes f) peer_bytes now asm) as [asm1 r1] eqn:Et.
  destruct (receive_all _ peer_bytes asm1) as [asm2 rs1] eqn:Ea. intros [= <- <-] [Hsafe Hsafes]%list.Forall_cons.
  destruct fuel as [|fuel]; [cbn in Hfuel; lia |]. cbn [length] in Hfuel.
  destruct (IH A1 B1 rest fuel asm1 asm2 rs1 Hlink1 Er ltac:(lia) Ea Hsafes) as (B' & Hs & Hlink').
  exists B'. split; [|done]. cbn [serve].
  match goal with |- context [read_frame ?x] => change x with (le_bytes 4 (blen payload) ++ payload ++ rest) end.
  rewrite read_written by lia.
  unfold handle_frame. rewrite Hd.
  cbn [lf_chunk_meta with_transport]. rewrite Hc. unfold arrived in Et. rewrite Hc in Et. rewrite Et. cbn iota beta. rewrite Hs.
  by destruct r1 as [[g|]|e|].
Qed.

(** A forward in one frame is dispatched at once. *)
Lemma serve_single (asm : Assemblies) A b B a f A' s peer_bytes reads now :
  typed_forward f -> within_limits f -> lf_chunk_meta f = None -> ch_linked A b B a ->
  send_frames true (Some b) [f] A = (A', Ok s) ->
  exists B', serve peer_bytes (Some a) reads now (length s) s (B, asm) =
    ((B', asm), [Ok (Dispatch (with_transport (received f) (lf_activations f) None (Some peer_bytes)))]) /\
    ch_linked A' b B' a.
Proof.
  intros Hf Hl Hc Hlink. cbn [send_frames].
  destruct (encode_forward_for_wire true (Some b) f A) as [A1 [payload|e|]] eqn:Ee; try done.
  unfold write_frame. destruct (Z.ltb_spec MAX_FRAME_LEN (blen payload)); [done |].
  cbn [mbind outcome_bind]. intros [= <- <-].
  destruct (sealed_frame_arrives A b B a f A1 payload peer_bytes) as (B1 & Hd & Hlink1 & Hpos); [done.. |].
  exists B1. split; [|done]. cbn [length serve].
  match goal with |- context [read_frame ?x] => change x with (le_bytes 4 (blen payload) ++ payload ++ []) end.
  rewrite read_written by lia. unfold handle_frame. rewrite Hd. cbn [lf_chunk_meta with_transport]. rewrite Hc. done.
Qed.

(** Every frame takes more than one byte of the stream. *)
Lemma send_frames_length enc node fs A A' s :
  send_frames enc node fs A = (A', Ok s) -> (fs = [] \/ length fs < length s)%nat.
Proof.
  revert A s. induction fs as [|f fs IH]; intros A s; cbn [send_frames]; [by left |].
  destruct (encode_forward_for_wire _ _ _ _) as [A1 [payload|e|]]; try done. unfold write_frame.
  destruct (Z.ltb_spec MAX_FRAME_LEN (blen payload)); [done |].
  destruct (send_frames enc node fs A1) as [A2 [rest|e|]] eqn:Er; try done. intros [= <- <-]. right.
  apply IH in Er as [-> | Hlt]; cbn [length]; rewrite ?length_app; cbn [length]; lia.
Qed.

(** The chunks of a typed forward are typed frames, and arrive as the frames of
    the received forward. *)
Lemma chunk_frames_ok f ps :
  typed_forward f -> within_limits f -> concat ps = lf_activations f ->
  (0 < length ps <= Z.to_nat MAX_TOTAL_CHUNKS)%nat ->
  Forall (fun g => typed_forward g /\ within_limits g /\ is_Some (lf_chunk_meta g)) (map (frame f ps) (seq 0 (length ps))).
Proof.
  intros Hf Hl Hc Hn. apply list.Forall_forall. intros g (i & -> & Hi)%list_elem_of_fmap. apply elem_of_seq in Hi.
  assert (Hb : Forall is_bytes ps).
  { pose proof (ty_activations f Hf) as Ha. rewrite <- Hc in Ha. clear -Ha.
    induction ps as [|p ps IH]; [constructor |]. cbn in Ha. apply Forall_app in Ha as [? ?]. constructor; auto. }
  unfold MAX_TOTAL_CHUNKS in Hn. unfold frame. split_and!; [apply frame_typed | apply frame_limits | by eexists];
    try done; cbn; try (split; ints); try lia.
  destruct (lookup_lt_is_Some_2 ps i ltac:(lia)) as [q Hq]. rewrite (list_lookup_total_correct _ _ _ Hq).
  by eapply Forall_lookup_1.
Qed.

(** C2: End to end, a sealed forward arrives as it was sent.  Split into chunks of
    any size (at most 4096), each sealed and framed onto one stream, and served by
    a receiver whose session is linked to the sender's, the stream makes the
    receiver dispatch exactly one forward, after its last frame: every travelling
    field as decoded from an untouched frame, the activations whole, and the
    sender stamped on it.  The reassembly table is left as it was and the two ends
    stay linked for what is sent next. *)
Theorem forward_travels_end_to_end A b B a f size A' s peer_bytes reads now asm :
  typed_forward f -> within_limits f -> lf_chunk_meta f = None ->
  div_ceil (blen (lf_activations f)) (Z.max size 1) <= MAX_TOTAL_CHUNKS ->
  ch_linked A b B a -> asm !! lf_request_id f = None ->
  send_frames true (Some b) (chunk_layer_forward f size) A = (A', Ok s) ->
  exists B', handle_inbound_stream peer_bytes (Some a) reads now s (B, asm) =
    ((B', asm), replicate (length (chunk_layer_forward f size) - 1) (Ok Nothing) ++
       [Ok (Dispatch (with_transport (received f) (lf_activations f) None (Some peer_bytes)))]) /\
    ch_linked A' b B' a.
Proof.
  intros Hf Hl Hcm Hmax Hlink Hasm Hsend. cbn [handle_inbound_stream].
  destruct (Z.le_gt_cases (blen (lf_activations f)) (Z.max size 1)) as [Hsmall|Hbig].
  - assert (Ec : chunk_layer_forward f size = [f]) by (unfold chunk_layer_forward; by rewrite (proj2 (Z.leb_le _ _))).
    rewrite Ec in *. by apply (serve_single asm A b B a f A' s).
  - destruct (chunk_layer_forward_frames f size Hbig Hmax) as (ps & Hc & Hn & E). rewrite E in *.
    set (g := with_transport (received f) (lf_activations f) None (Some peer_bytes)).
    destruct (serve_chunks A b B a _ A' s peer_bytes reads now (length s) asm asm
      (replicate (length ps - 1) (Ok None) ++ [Ok (Some (with_transport g (concat ps) None (Some peer_bytes)))])
      (chunk_frames_ok f ps Hf Hl Hc Hn) Hlink Hsend) as (B' & Hs & Hlink').
    + apply send_frames_length in Hsend as [E0|Hlt]; [|done]. apply (f_equal length) in E0.
      rewrite length_map, length_seq in E0. cbn in E0. lia.
    + pose proof (receive_rest g peer_bytes ps asm [] asm (map (pair now) (seq 0 (length ps))) Hasm eq_refl Hn) as Hr.
      rewrite length_map, length_seq, !map_map in Hr. rewrite map_map. apply Hr.
      * cbn. by rewrite map_id.
      * destruct (length ps); [lia | done].
    + apply Forall_app. split; [by apply Forall_replicate | by repeat constructor].
    + exists B'. split; [|done]. rewrite Hs, length_map, length_seq, map_app, fmap_replicate, Hc. done.
Qed.

(** ** Whatever arrives *)

(** The first, or only, frame of a forward answers for it. *)
Definition answers_for (f : LayerForward) : bool :=
  match lf_chunk_meta f with Some c => chunk_idx c =? 0 | None => true end.

Lemma undecryptable_written frame f sealed aad reads :
  is_bytes frame -> decode_layer_forward_encrypted frame = Ok (f, sealed, aad) ->
  match refusal_for_undecryptable f reads with
  | None => answers_for f = false
  | Some refusal => answers_for f = true /\
      refusal = (if reads then with_refusal Undecryptable else id)
        (answering_step (step f) (LayerResult_error (lf_request_id f) "Could not decrypt forward")) /\
      exists p, write_refusal refusal = Ok (Answer (le_bytes 4 (blen p) ++ p)) /\ 0 < blen p <= MAX_FRAME_LEN /\
        forall from_json, decode_layer_result from_json p = Ok (received_result refusal)
  end.
Proof.
  intros Hb Hd. apply decode_encrypted_typed in Hd as (h & t & -> & _ & Hh & Ht); [|done].
  destruct (refusal_for_undecryptable _ reads) as [refusal|] eqn:E.
  - pose proof E as E'. unfold refusal_for_undecryptable, answers_for in E' |- *.
    destruct (lf_chunk_meta _) as [c|]; [destruct (chunk_idx c =? 0); [|done]|];
      (split; [done |]; split; [injection E' as <-; by destruct reads |]; destruct Hh, Ht; destruct_and?;
       eapply refusal_written; [.. | exact E]; done).
  - unfold refusal_for_undecryptable, answers_for in *.
    destruct (lf_chunk_meta _) as [c|]; [by destruct (chunk_idx c =? 0) | done].
Qed.

(** A sealed forward that does not open is refused once, by name.  The first (or
    only) frame of it drops what was assembled for the request and writes back one
    frame, which the sender reads as an error for this request and this very step,
    typed as undecryptable exactly for a sender that reads the reason; its other
    chunks are silent and change no assembly. *)
Theorem undecryptable_is_refused_once (asm : Assemblies) frame f sealed aad peer_bytes n reads now m m' e :
  is_bytes frame -> head frame = Some TENSOR_TAG_ENCRYPTED ->
  decode_layer_forward_encrypted frame = Ok (f, sealed, aad) -> ch_open m n sealed aad = (m', Err e) ->
  if answers_for f
  then exists p r,
    handle_frame peer_bytes (Some n) reads now frame (m, asm) =
      ((m', delete (lf_request_id f) asm), Ok (Answer (le_bytes 4 (blen p) ++ p))) /\
    (forall rest, read_frame (le_bytes 4 (blen p) ++ p ++ rest) = Some (p, rest)) /\
    (forall from_json, decode_layer_result from_json p = Ok r) /\
    lr_request_id r = lf_request_id f /\ lr_answers_step r = Some (step f) /\
    lr_refusal r = (if reads then Some Undecryptable else None) /\
    (exists reason, lr_finish_reason r = Some (FinishError reason))
  else handle_frame peer_bytes (Some n) reads now frame (m, asm) = ((m', asm), Ok Nothing).
Proof.
  intros Hb Ht Hd Ho. pose proof (undecryptable_written frame f sealed aad reads Hb Hd) as Hr.
  destruct frame as [|b frame]; [done |]. injection Ht as ->.
  unfold handle_frame, decode_inbound_forward. change (TENSOR_TAG_ENCRYPTED =? TENSOR_TAG_FORWARD) with false.
  rewrite Z.eqb_refl, Hd, Ho. destruct (refusal_for_undecryptable f reads) as [refusal|]; [|by rewrite Hr].
  destruct Hr as (-> & -> & p & Hw & Hp & Hdec). rewrite Hw. exists p. eexists. split; [done |].
  split; [intros rest; by apply read_written |]. split; [exact Hdec |].
  destruct reads; cbn; split_and!; try done; by eexists.
Qed.

(** What the handler may hand on. *)
Definition action_ok (peer_bytes : bytes) (r : outcome StreamAction) : Prop :=
  exists a, r = Ok a /\ a <> Close /\
    forall f, a = Dispatch f -> lf_chunk_meta f = None /\ lf_sender_peer_bytes f = Some peer_bytes.

Lemma decoded_chunk_meta frame tag peer_bytes node m m' f rid :
  is_bytes frame -> decode_inbound_forward frame tag peer_bytes node m = (m', Ok (Decoded f rid)) ->
  opt is_chunk (lf_chunk_meta f) /\ lf_sender_peer_bytes f = Some peer_bytes.
Proof.
  intros Hb. unfold decode_inbound_forward. destruct (tag =? TENSOR_TAG_FORWARD).
  { destruct (decode_layer_forward frame) as [g|e|] eqn:E; try done. intros [= <- <- <-].
    apply decode_typed in E as (h & a & t & -> & _ & _ & _ & Ht); [|done]. split; [apply (tt_chunk t Ht) | done]. }
  destruct (tag =? TENSOR_TAG_ENCRYPTED); [|done].
  destruct (decode_layer_forward_encrypted frame) as [[[g sealed] aad]|e|] eqn:E; try done.
  destruct node as [n|]; [|done]. destruct (ch_open m n sealed aad) as [m1 [pt|e|]]; try done.
  intros [= <- <- <-]. apply decode_encrypted_typed in E as (h & t & -> & _ & _ & Ht); [|done].
  split; [apply (tt_chunk t Ht) | done].
Qed.

Lemma decode_inbound_ok frame tag peer_bytes node m :
  is_bytes frame -> exists m' i, decode_inbound_forward frame tag peer_bytes node m = (m', Ok i).
Proof.
  intros Hb. unfold decode_inbound_forward. pose proof (decode_safe frame) as Hs.
  pose proof (decode_encrypted_safe frame Hb) as Hse.
  destruct (tag =? TENSOR_TAG_FORWARD); [destruct (decode_layer_forward frame); eauto; done |].
  destruct (tag =? TENSOR_TAG_ENCRYPTED); [|eauto].
  destruct (decode_layer_forward_encrypted frame) as [[[g sealed] aad]|e|]; [|eauto|done].
  destruct node as [n|]; [|eauto]. pose proof (ch_open_safe m n sealed aad) as Ho.
  destruct (ch_open m n sealed aad) as [m1 [pt|e|]]; eauto; done.
Qed.

Lemma handle_frame_ok (asm : Assemblies) peer_bytes n reads now frame m st' r :
  is_bytes frame -> assemblies_ok asm ->
  handle_frame peer_bytes (Some n) reads now frame (m, asm) = (st', r) ->
  action_ok peer_bytes r /\ assemblies_ok st'.2.
Proof.
  intros Hb Ha. unfold handle_frame. set (tag := match frame with b :: _ => b | [] => 0 end). clearbody tag.
  destruct (decode_inbound_ok frame tag peer_bytes (Some n) m Hb) as (m' & i & E). rewrite E.
  destruct i as [f rid|f node|].
  - destruct (decoded_chunk_meta _ _ _ _ _ _ _ _ Hb E) as [Hc Hs].
    destruct (lf_chunk_meta f) as [cm|] eqn:Ec.
    2: { intros [= <- <-]. split; [|done]. eexists. split_and!; [done | done |]. by intros g [= <-]. }
    pose proof (assembly_stays_sound f peer_bytes now asm Ha) as Hsound.
    destruct (try_assemble_chunked_forward f peer_bytes now asm) as [asm' ra]. intros [= <- <-].
    destruct Hsound as (Hsafe & Ha' & _ & _ & Hg); [intros c Hc'; rewrite Ec in Hc'; injection Hc' as <-; destruct Hc; ints |].
    split; [|done]. destruct ra as [[g|]|e|]; [| | | done]; (eexists; split_and!; [done | done |]); [|done..].
    intros g' [= <-]. by apply (Hg g eq_refl).
  - unfold decode_inbound_forward in E. destruct (tag =? TENSOR_TAG_FORWARD); [by destruct (decode_layer_forward frame) |].
    destruct (tag =? TENSOR_TAG_ENCRYPTED); [|done].
    destruct (decode_layer_forward_encrypted frame) as [[[g sealed] aad]|e|] eqn:Ed; try done.
    destruct (ch_open m n sealed aad) as [m1 [pt|e|]]; try done. injection E as <- <- <-.
    pose proof (undecryptable_written frame g sealed aad reads Hb Ed) as Hr.
    destruct (refusal_for_undecryptable g reads) as [refusal|].
    + destruct Hr as (_ & _ & p & -> & _). intros [= <- <-]. split; [by eexists | by apply map_Forall_delete].
    + intros [= <- <-]. split; [by eexists | done].
  - intros [= <- <-]. split; [by eexists | done].
Qed.

(** No peer can break the stream handler.  Whatever bytes arrive, every frame
    is handled without a panic and without the handler closing on an answer of its
    own; what it hands to the worker is a whole forward stamped with the peer it
    came from; and the reassembly table stays sound, each entry a transfer of at
    most 4096 chunks that counts exactly the slots it holds and still waits for one. *)
Theorem stream_handler_robust (asm : Assemblies) peer_bytes node reads now s m st' rs :
  is_bytes s -> assemblies_ok asm ->
  handle_inbound_stream peer_bytes node reads now s (m, asm) = (st', rs) ->
  Forall (action_ok peer_bytes) rs /\ assemblies_ok st'.2.
Proof.
  intros Hs Ha. destruct node as [n|]; [|by intros [= <- <-]]. cbn [handle_inbound_stream].
  generalize (length s). intros fuel. revert s m asm st' rs Hs Ha.
  induction fuel as [|fuel IH]; intros s m asm st' rs Hs Ha; cbn [serve]; [by intros [= <- <-] |].
  destruct (read_frame s) as [[frame rest]|] eqn:E; [|by intros [= <- <-]].
  apply read_frame_shrinks in E as [_ Hb]. destruct (Hb Hs) as [Hf Hr].
  destruct (handle_frame peer_bytes (Some n) reads now frame (m, asm)) as [[m1 asm1] r] eqn:Eh.
  destruct (handle_frame_ok asm peer_bytes n reads now frame m _ r Hf Ha Eh) as [Hok Ha1].
  destruct (serve peer_bytes (Some n) reads now fuel rest (m1, asm1)) as [st2 rs2] eqn:Es.
  destruct (IH rest m1 asm1 st2 rs2 Hr Ha1 Es) as [Hoks Ha2].
  destruct Hok as (act & -> & Hc & Hd). destruct act; try done; intros [= <- <-]; (split; [|done]);
    (constructor; [|done]); by eexists.
Qed.
End stream.

(** ** The sessions of [Session] are such a channel *)

Section sessions.
Context {Secret : Type}.
Context (aead_encrypt aead_decrypt : Key -> bytes -> bytes -> bytes -> option bytes) (now : Z).
Hypothesis aead_correct : forall k n a m c, aead_encrypt k n a m = Some c -> aead_decrypt k n a c = Some m.

(** Both ends hold one key, and [B] has seen no nonce [A] has not used. *)
Definition session_linked (A : @SessionManager Secret) (b : NodeId) (B : @SessionManager Secret) (a : NodeId) : Prop :=
  exists sa sb seen, sessions A !! b = Some sa /\ sessions B !! a = Some sb /\
    cs_cipher_key sa = cs_cipher_key sb /\ represents (cs_replay_window sb) seen /\
    (forall n, n ∈ seen -> n < cs_send_nonce sa) /\ (seen = [] -> cs_send_nonce sa < REPLAY_WINDOW_SIZE) /\
    0 <= cs_send_nonce sa.

Lemma session_delivers A b B a msg aad A' sealed :
  session_linked A b B a -> Session.seal aead_encrypt A b msg aad = (A', Ok sealed) ->
  exists B', Session.open aead_decrypt B now a sealed aad = (B', Ok msg) /\ session_linked A' b B' a.
Proof.
  intros (sa & sb & seen & EA & EB & Hk & Hr & Hlt & H0 & Hn) Hseal.
  destruct (Z.lt_ge_cases (cs_send_nonce sa) (u64_max - 1)) as [Hu|Hu].
  2: { destruct (seal_overflow aead_encrypt A b sa msg aad EA Hu) as (? & E & _). congruence. }
  rewrite (seal_ok aead_encrypt A b sa msg aad EA) in Hseal by lia.
  destruct (aead_encrypt _ _ _ _) as [ct|] eqn:Ect; [|done]. rewrite Hk in Ect.
  assert (Hck : check (cs_replay_window sb) (cs_send_nonce sa) = true).
  { apply (check_correct _ seen _ Hr Hn). destruct seen as [|x seen]; [by apply H0 |]. left.
    apply Hlt. by apply (rep_top _ _ Hr). }
  injection Hseal as <- <-. eexists. split.
  { apply (open_live_ok aead_decrypt B now a sb _ aad (cs_send_nonce sa)); [done | apply sealed_blen | |
      by apply (try_open_sealed aead_encrypt aead_decrypt)]. apply sealed_nonce. ints. }
  eexists _, _, (cs_send_nonce sa :: seen). split_and!; [apply lookup_insert_eq | apply lookup_insert_eq | done | | | done | cbn; lia].
  - by apply record_represents.
  - cbn. intros n [->|Hin]%elem_of_cons; [lia | specialize (Hlt n Hin); lia].
Qed.

Lemma session_open_safe (m : @SessionManager Secret) n sealed aad : safe (Session.open aead_decrypt m now n sealed aad).2.
Proof. unfold Session.open. repeat case_match; done. Qed.

Definition session_channel : SecureChannel (@SessionManager Secret) := {|
  ch_seal := Session.seal aead_encrypt;
  ch_open := fun m => Session.open aead_decrypt m now;
  ch_linked := session_linked; ch_open_safe := session_open_safe; ch_delivers := session_delivers |}.
End sessions.

(** ** Witnesses *)

#[local] Instance toy_channel : SecureChannel (@SessionManager Z) :=
  session_channel toy_encrypt toy_decrypt 5 toy_correct.

Lemma toy_linked : session_linked toy_A node_b toy_B node_a.
Proof.
  exists toy_session, toy_session, []. split_and!; [by vm_compute | by vm_compute | done | apply represents_new | | done | done].
  by intros n ?%not_elem_of_nil.
Qed.

Lemma chunk_sample_typed : typed_forward chunk_sample.
Proof. concrete. Qed.
Lemma chunk_sample_within : within_limits chunk_sample.
Proof. constructor; vm_compute; repeat split; try done; repeat constructor; done. Qed.

Definition toy_stream : bytes :=
  match (send_frames true (Some node_b) (chunk_layer_forward chunk_sample 2) toy_A).2 with Ok s => s | _ => [] end.

Lemma forward_travels_end_to_end_witness :
  exists B', handle_inbound_stream (fun _ => None) [42] (Some node_a) true 7 toy_stream (toy_B, ∅) =
    ((B', ∅), [Ok Nothing; Ok Nothing;
       Ok (Dispatch (with_transport (received chunk_sample) [1; 2; 3; 4; 5] None (Some [42])))]).
Proof.
  destruct (forward_travels_end_to_end (fun _ => None) toy_A node_b toy_B node_a chunk_sample 2
    (send_frames true (Some node_b) (chunk_layer_forward chunk_sample 2) toy_A).1 toy_stream [42] true 7 ∅)
    as (B' & HB & _).
  - exact chunk_sample_typed.
  - exact chunk_sample_within.
  - reflexivity.
  - vm_compute. discriminate.
  - exact toy_linked.
  - reflexivity.
  - vm_compute. reflexivity.
  - exists B'. exact HB.
Defined.

(** The frame of the unsplit sample. *)
Definition toy_frame : bytes :=
  match (encode_forward_for_wire true (Some node_b) chunk_sample toy_A).2 with Ok p => p | _ => [] end.
Definition toy_decoded : LayerForward * bytes * bytes :=
  match decode_layer_forward_encrypted toy_frame with Ok d => d | _ => (chunk_sample, [], []) end.

(** [toy_A] has no session with [node_a]: it refuses the frame. *)
Lemma undecryptable_is_refused_once_witness :
  exists p r, handle_frame (fun _ => None) [42] (Some node_a) true 7 toy_frame (toy_A, ∅) =
      (((ch_open toy_A node_a toy_decoded.1.2 toy_decoded.2).1, delete (lf_request_id toy_decoded.1.1) ∅),
       Ok (Answer (le_bytes 4 (blen p) ++ p))) /\
    (forall from_json, decode_layer_result from_json p = Ok r) /\ lr_refusal r = Some Undecryptable.
Proof.
  destruct (undecryptable_is_refused_once (fun _ => None) ∅ toy_frame toy_decoded.1.1 toy_decoded.1.2 toy_decoded.2
    [42] node_a true 7 toy_A (ch_open toy_A node_a toy_decoded.1.2 toy_decoded.2).1 (NoSession node_a))
    as (p & r & Hh & _ & Hd & _ & _ & Hr & _).
  - vm_compute. repeat constructor; discriminate.
  - vm_compute. reflexivity.
  - vm_compute. reflexivity.
  - vm_compute. reflexivity.
  - exists p, r. split; [exact Hh | split; [exact Hd | exact Hr]].
Defined.

(** A stream with a malformed frame before the sample's chunks. *)
Lemma stream_handler_robust_witness :
  Forall (action_ok [42])
    (handle_inbound_stream (fun _ => None) [42] (Some node_a) true 7 ([3; 0; 0; 0; 1; 2; 3] ++ toy_stream) (toy_B, ∅)).2.
Proof.
  assert (Hb : is_bytes ([3; 0; 0; 0; 1; 2; 3] ++ toy_stream)) by (vm_compute; repeat constructor; discriminate).
  destruct (handle_inbound_stream (fun _ => None) [42] (Some node_a) true 7 ([3; 0; 0; 0; 1; 2; 3] ++ toy_stream)
    (toy_B, ∅)) as [st rs] eqn:E.
  exact (proj1 (stream_handler_robust (fun _ => None) ∅ [42] (Some node_a) true 7 _ toy_B st rs Hb
    (map_Forall_empty _) E)).
Defined.
