(* ===== verification/Floats.v ===== *)
(** * Floating point

    The f32 and f64 of the source as the Standard Library's executable IEEE 754
    ([SpecFloat]): round to nearest, ties to even.  [F64] and [F32v] compute on
    values, [Float] on the bit patterns the wire and the samplers carry. *)
From Stdlib Require Import Floats.SpecFloat.
From S2P Require Import Prelude Bytes ForwardTypes.
#[local] Open Scope Z_scope.

(** ** f64 *)
Module F64.
Definition prec : Z := 53.
Definition emax : Z := 1024.
(** [z as f64]: rounded to nearest, ties to even. *)
Definition of_Z (z : Z) : spec_float := binary_normalize prec emax z 0 false.
Definition mul := SFmul prec emax.
Definition div := SFdiv prec emax.
Definition is_finite (x : spec_float) : bool :=
  match x with S754_zero _ | S754_finite _ _ _ => true | _ => false end.
(** [x.min(y)] on non-NaN values. *)
Definition min (x y : spec_float) : spec_float := if SFltb y x then y else x.
Definition zero : spec_float := S754_zero false.
(** The value as a fraction of Z: numerator and binary exponent. *)
Definition frac (x : spec_float) : Z * Z :=
  match x with S754_finite s m e => ((if s then Z.neg m else Z.pos m), e) | _ => (0, 0) end.
(** Truncation, ceiling and rounding half away from zero, to an integer. *)
Definition trunc (x : spec_float) : Z :=
  let '(m, e) := frac x in if 0 <=? e then m * 2 ^ e else Z.quot m (2 ^ (- e)).
Definition ceil (x : spec_float) : Z :=
  let '(m, e) := frac x in if 0 <=? e then m * 2 ^ e else - ((- m) / 2 ^ (- e)).
Definition round (x : spec_float) : Z :=
  let '(m, e) := frac x in
  if 0 <=? e then m * 2 ^ e else Z.sgn m * ((2 * Z.abs m + 2 ^ (- e)) / (2 * 2 ^ (- e))).
(** [as i64] of an integral value: saturating. *)
Definition to_i64 (z : Z) : Z := clamp i64_min i64_max z.
End F64.

(** ** f32 bit patterns *)

Module Float.
Definition is_nan (b : Z) : bool := 2139095040 <? Z.land b 2147483647.
(** [partial_cmp]. *)
Definition partial_cmp (a b : Z) : option comparison :=
  if is_nan a || is_nan b then None else Some (F32.key a ?= F32.key b).
(** The integer [total_cmp] compares. *)
Definition total_key (b : Z) : Z := if b <? 2147483648 then b else - 1 - (b - 2147483648).

Definition of_bits (b : Z) : spec_float :=
  let s := 2147483648 <=? b in
  let e := Z.land (Z.shiftr b 23) 255 in
  let m := Z.land b 8388607 in
  if e =? 255 then (if m =? 0 then S754_infinity s else S754_nan)
  else if e =? 0 then match m with Zpos p => S754_finite s p (-149) | _ => S754_zero s end
  else match m + 8388608 with Zpos p => S754_finite s p (e - 150) | _ => S754_nan end.
Definition to_bits (x : spec_float) : Z :=
  let sign (s : bool) := if s then 2147483648 else 0 in
  match x with
  | S754_zero s => sign s
  | S754_infinity s => sign s + 2139095040
  | S754_nan => 2143289344
  | S754_finite s m e => if Zpos m <? 8388608 then sign s + Zpos m else sign s + (e + 150) * 8388608 + (Zpos m - 8388608)
  end.
(** [a - b] on f32. *)
Definition sub (a b : Z) : Z := to_bits (SFsub 24 128 (of_bits a) (of_bits b)).
(** [f64::from]. *)
Definition to_f64 (b : Z) : spec_float :=
  match of_bits b with
  | S754_finite s m e => binary_normalize F64.prec F64.emax (if s then Zneg m else Zpos m) e s
  | x => x
  end.
Definition add := SFadd F64.prec F64.emax.
(** [x.clamp(0.0, 1.0)] and [x.max(y)]. *)
Definition clamp01 (x : spec_float) : spec_float :=
  let x := if SFltb x F64.zero then F64.zero else x in if SFltb (F64.of_Z 1) x then F64.of_Z 1 else x.
Definition max (x y : spec_float) : spec_float :=
  match x with S754_nan => y | _ => if SFltb x y then y else x end.
Definition MIN_POSITIVE : spec_float := S754_finite false 4503599627370496 (-1074).
End Float.

(** ** f32 values *)

Module F32v.
Definition prec : Z := 24.
Definition emax : Z := 128.
Definition of_Z (z : Z) : spec_float := binary_normalize prec emax z 0 false.
(** The literal [m * 2^e]. *)
Definition lit (m e : Z) : spec_float := binary_normalize prec emax m e false.
Definition add := SFadd prec emax.
Definition sub := SFsub prec emax.
Definition mul := SFmul prec emax.
Definition div := SFdiv prec emax.
Definition sqrt := SFsqrt prec emax.
Definition zero : spec_float := S754_zero false.
Definition infinity : spec_float := S754_infinity false.
Definition is_finite (x : spec_float) : bool := F64.is_finite x.
Definition lt := SFltb.
Definition le := SFleb.
(** [x.max(y)], [x.min(y)]: the other one when one is a NaN. *)
Definition max (x y : spec_float) : spec_float :=
  match x, y with S754_nan, _ => y | _, S754_nan => x | _, _ => if SFltb x y then y else x end.
Definition min (x y : spec_float) : spec_float :=
  match x, y with S754_nan, _ => y | _, S754_nan => x | _, _ => if SFltb y x then y else x end.
(** [x as f32] of an f64. *)
Definition of_f64 (x : spec_float) : spec_float :=
  match x with S754_finite s m e => binary_normalize prec emax (if s then Zneg m else Zpos m) e s | x => x end.
End F32v.
