(* ===== verification/CreditLedger.v ===== *)
(** * The credit ledger ([src/credit/ledger.rs], [crates/swarmllm-types/src/credits.rs])

    A node's balance with its three lifetime counters, the movements that change
    it, persistence that can fail, and the signed balance gossip.  The redb
    store is a cell that holds the last balance written; whether one write
    succeeds is an argument of the operation that makes it.  Credits computed in
    f64 are computed here in the Standard Library's IEEE 754 binary64. *)
From Stdlib Require Import Floats.SpecFloat.
From S2P Require Import Prelude Bytes Floats.

(** ** The balance *)

Record CreditBalance : Type := {
  node_id : NodeId; balance : Z; lifetime_earned : Z; lifetime_spent : Z;
  lifetime_refunded : Z; last_updated : Z }.

Definition net_spent (b : CreditBalance) : Z := u64_saturating_sub (lifetime_spent b) (lifetime_refunded b).
Definition books_balance (b : CreditBalance) : bool :=
  lifetime_earned b - lifetime_spent b + lifetime_refunded b =? balance b.

(** What the field types say. *)
Definition typed_balance (b : CreditBalance) : Prop :=
  is_i64 (balance b) /\ is_u64 (lifetime_earned b) /\ is_u64 (lifetime_spent b) /\ is_u64 (lifetime_refunded b).

Inductive CreditDelta : Type := Earning | Spending | Refund.

(** The mutation of [apply_credit] and of [apply_credit_direct_noted]. *)
Definition apply_credit (b : CreditBalance) (delta : Z) (kind : CreditDelta) (now : Z) : CreditBalance := {|
  node_id := node_id b; balance := i64_saturating_add (balance b) delta;
  lifetime_earned := match kind with
    | Earning => u64_saturating_add (lifetime_earned b) (i64_unsigned_abs delta) | _ => lifetime_earned b end;
  lifetime_spent := match kind with
    | Spending => u64_saturating_add (lifetime_spent b) (i64_unsigned_abs delta) | _ => lifetime_spent b end;
  lifetime_refunded := match kind with
    | Refund => u64_saturating_add (lifetime_refunded b) (i64_unsigned_abs delta) | _ => lifetime_refunded b end;
  last_updated := now |}.

(** The in-memory revert after a failed write; [last_updated] is left. *)
Definition revert_credit (b : CreditBalance) (delta : Z) (kind : CreditDelta) : CreditBalance := {|
  node_id := node_id b; balance := i64_saturating_sub (balance b) delta;
  lifetime_earned := match kind with
    | Earning => u64_saturating_sub (lifetime_earned b) (i64_unsigned_abs delta) | _ => lifetime_earned b end;
  lifetime_spent := match kind with
    | Spending => u64_saturating_sub (lifetime_spent b) (i64_unsigned_abs delta) | _ => lifetime_spent b end;
  lifetime_refunded := match kind with
    | Refund => u64_saturating_sub (lifetime_refunded b) (i64_unsigned_abs delta) | _ => lifetime_refunded b end;
  last_updated := last_updated b |}.

(** One line of the audit log. *)
Record LogLine : Type := { l_delta : Z; l_kind : CreditDelta; l_note : string; l_balance_after : Z }.

(** The shared balance, the stored record and the audit log. *)
Record LedgerState : Type := {
  mem : CreditBalance; stored : option CreditBalance; log : list LogLine }.

(** [db.put_json(TREE_CREDITS, KEY_BALANCE, ..)]: [ok] says whether the write succeeds. *)
Definition db_error : SwarmError := Database "put_json failed".

Definition apply_credit_direct_noted (st : LedgerState) (delta : Z) (kind : CreditDelta)
  (note : string) (now : Z) (ok : bool) : LedgerState * outcome unit :=
  let snapshot := apply_credit (mem st) delta kind now in
  if ok then
    ({| mem := snapshot; stored := Some snapshot;
        log := {| l_delta := delta; l_kind := kind; l_note := note;
                  l_balance_after := balance snapshot |} :: log st |}, Ok tt)
  else
    ({| mem := revert_credit snapshot delta kind; stored := stored st; log := log st |}, Err db_error).

Definition apply_credit_direct (st : LedgerState) (delta : Z) (kind : CreditDelta) (now : Z) (ok : bool) :=
  apply_credit_direct_noted st delta kind "unspecified" now ok.

(** [persist_balance]. *)
Definition persist_balance (st : LedgerState) (ok : bool) : LedgerState * outcome unit :=
  if ok then ({| mem := mem st; stored := Some (mem st); log := log st |}, Ok tt) else (st, Err db_error).

(** [self.apply_credit(..).await?; self.persist_balance().await?]: no revert. *)
Definition apply_and_persist (st : LedgerState) (delta : Z) (kind : CreditDelta) (now : Z) (ok : bool)
  : LedgerState * outcome unit :=
  persist_balance {| mem := apply_credit (mem st) delta kind now; stored := stored st; log := log st |} ok.

(** ** Loading *)

Definition backfill_historical_refunds (b : CreditBalance) : CreditBalance :=
  let gap := balance b - lifetime_earned b + lifetime_spent b - lifetime_refunded b in
  if gap <=? 0 then b
  else {|
    node_id := node_id b; balance := balance b; lifetime_earned := lifetime_earned b;
    lifetime_spent := lifetime_spent b;
    lifetime_refunded := u64_saturating_add (lifetime_refunded b) (Z.min gap u64_max);
    last_updated := last_updated b |}.

(** [CreditLedger::new]: the balance the ledger starts with, from the record read. *)
Definition restore_balance (me : NodeId) (initial : CreditBalance) (record : option CreditBalance) : CreditBalance :=
  match record with
  | Some r => if bool_decide (node_id r = me) then backfill_historical_refunds r else initial
  | None => initial
  end.

(** ** Earning and spending *)

Definition MAX_PER_CALL : spec_float := F64.of_Z 1000000.

Definition safe_f64_credits (raw max : spec_float) : Z :=
  if F64.is_finite raw && SFleb F64.zero raw then F64.to_i64 (F64.trunc (F64.min raw max)) else 0.

(** [earn_inference]: [forward] is what [forward_credits_to_owner] answers, the
    share this node keeps ([None]: no shared state). *)
Definition earn_inference (st : LedgerState) (rate tokens : Z) (forward : option (outcome Z)) (now : Z) (ok : bool)
  : LedgerState * outcome Z :=
  let amount := i64_saturating_mul rate tokens in
  let local_credit := match forward with Some (Ok l) => l | _ => amount end in
  if 0 <? local_credit then
    let '(st, r) := apply_and_persist st local_credit Earning now ok in (st, r ≫= fun _ => Ok local_credit)
  else (st, Ok local_credit).

Definition spend_inference (st : LedgerState) (rate tokens now : Z) (ok : bool) : LedgerState * outcome Z :=
  let amount := i64_saturating_mul rate tokens in
  let '(st, r) := apply_and_persist st (- amount) Spending now ok in (st, r ≫= fun _ => Ok amount).

(** A capped amount paid at once: [earn_shard_seeding], [earn_relay_forwarding]
    and [earn_relay_service] from their [raw] on. *)
Definition earn_capped (st : LedgerState) (raw : spec_float) (now : Z) (ok : bool) : LedgerState * outcome Z :=
  let amount := safe_f64_credits raw MAX_PER_CALL in
  if 0 <? amount then
    let '(st, r) := apply_and_persist st amount Earning now ok in (st, r ≫= fun _ => Ok amount)
  else (st, Ok amount).

Definition gb_of_bytes (n : Z) : spec_float := F64.div (F64.of_Z n) (F64.of_Z 1073741824).
Definition earn_shard_seeding (st : LedgerState) (rate bytes_transferred now : Z) (ok : bool) :=
  earn_capped st (F64.mul (F64.of_Z rate) (gb_of_bytes bytes_transferred)) now ok.
Definition earn_relay_forwarding (st : LedgerState) (rate bytes_forwarded now : Z) (ok : bool) :=
  earn_capped st (F64.mul (F64.of_Z rate) (gb_of_bytes bytes_forwarded)) now ok.
Definition earn_relay_service (st : LedgerState) (rate duration_seconds now : Z) (ok : bool) :=
  earn_capped st (F64.mul (F64.of_Z rate) (F64.div (F64.of_Z duration_seconds) (F64.of_Z 3600))) now ok.

(** [earn_shard_hosting_total] on [total_gb] and [hours], both as f64; the carry is
    millionths of a credit. *)
Definition MICRO : Z := 1000000.

Definition hosting_micro (rate : Z) (total_gb hours : spec_float) : option Z :=
  let raw := F64.mul (F64.mul (F64.of_Z rate) total_gb) hours in
  if negb (F64.is_finite raw) || SFltb raw F64.zero then None
  else Some (F64.to_i64 (F64.round (F64.mul (F64.min raw MAX_PER_CALL) (F64.of_Z MICRO)))).

Definition earn_shard_hosting_total (st : LedgerState) (carried rate : Z) (total_gb hours : spec_float)
  (now : Z) (ok : bool) : LedgerState * Z * outcome Z :=
  match hosting_micro rate total_gb hours with
  | None => (st, carried, Ok 0)
  | Some micro =>
      let total_micro := i64_saturating_add micro carried in
      let amount := Z.quot total_micro MICRO in
      let carry := Z.rem total_micro MICRO in
      if 0 <? amount then
        let '(st, r) := apply_and_persist st amount Earning now ok in (st, carry, r ≫= fun _ => Ok amount)
      else (st, carry, Ok amount)
  end.

(** ** Ticks of the background task *)

Definition NEGATIVE_BALANCE_DECAY_FLOOR : Z := 500.
(** 0.05 as binary64: 3602879701896397 / 2^56. *)
Definition NEGATIVE_BALANCE_DECAY_FRACTION : spec_float := binary_normalize F64.prec F64.emax 3602879701896397 (-56) false.

Definition negative_balance_decay_amount (bal : Z) : Z :=
  if 0 <=? bal then 0
  else
    let deficit := i64_saturating_neg bal in
    let pct := F64.to_i64 (F64.ceil (F64.mul (F64.of_Z deficit) NEGATIVE_BALANCE_DECAY_FRACTION)) in
    Z.min (Z.max pct NEGATIVE_BALANCE_DECAY_FLOOR) deficit.

(** The decay tick. *)
Definition decay_tick (st : LedgerState) (now : Z) (ok : bool) : LedgerState :=
  let forgiven := negative_balance_decay_amount (balance (mem st)) in
  if 0 <? forgiven then fst (apply_credit_direct st forgiven Refund now ok) else st.

(** The persist tick: flush the pending earnings, restore them when the write
    fails ([meanwhile] is what a concurrent earner added during the write), then
    persist. *)
Definition persist_tick (st : LedgerState) (pending meanwhile now : Z) (ok ok' : bool) : LedgerState * Z :=
  let '(st, pending') :=
    if pending =? 0 then (st, meanwhile)
    else
      let kind := if 0 <? pending then Earning else Spending in
      match apply_credit_direct_noted st pending kind "inference_serve_earning" now ok with
      | (st, Ok _) => (st, meanwhile)
      | (st, _) => (st, if meanwhile =? 0 then pending else meanwhile + pending)
      end in
  (fst (persist_balance st ok'), pending').

(** ** Balance gossip *)

Record CreditGossip : Type := { g_node_id : NodeId; g_balance_bucket : Z; g_timestamp : Z; g_signature : bytes }.

Definition BALANCE_REPORT_MAX_AGE_SECS : Z := 300.
Definition CLOCK_SKEW_TOLERANCE_SECS : Z := 30.

(** [check_signed_freshness] from the age in whole seconds. *)
Definition check_signed_freshness (age skew max_age : Z) (kind : string) : outcome unit :=
  if age <? - skew
  then Err (CreditError ("Future-dated " +:+ kind +:+ ": " +:+ pretty (i64_saturating_neg age)
                         +:+ "s ahead (skew tolerance " +:+ pretty skew +:+ "s)"))
  else if max_age <? age
  then Err (CreditError ("Stale " +:+ kind +:+ ": " +:+ pretty age +:+ "s old (max " +:+ pretty max_age +:+ "s)"))
  else Ok tt.

(** ["swarmllm-balance-v1"]. *)
Definition balance_domain : bytes :=
  [115; 119; 97; 114; 109; 108; 108; 109; 45; 98; 97; 108; 97; 110; 99; 101; 45; 118; 49].

Definition build_balance_report_payload (id : NodeId) (bucket timestamp_secs : Z) : bytes :=
  balance_domain ++ id ++ le_bytes 8 bucket ++ le_bytes 8 timestamp_secs.

Definition NANOS : Z := 1000000000.

Definition bucket_balance (b : Z) : Z := b / 100 * 100.

Section gossip.
(** Ed25519: whether the 32 bytes are a verifying key, and signature checking. *)
Context (valid_key : NodeId -> bool) (verify_sig : bytes -> bytes -> NodeId -> bool).

(** [now] and timestamps in nanoseconds; an age counts whole seconds, towards zero. *)
Definition verify_balance_report (now : Z) (g : CreditGossip) : outcome unit :=
  if bool_decide (g_signature g = []) then Err InvalidSignature
  else
    _ ← check_signed_freshness (Z.quot (now - g_timestamp g) NANOS) CLOCK_SKEW_TOLERANCE_SECS
          BALANCE_REPORT_MAX_AGE_SECS "balance report";
    if negb (valid_key (g_node_id g)) then Err InvalidSignature
    else
      let payload := build_balance_report_payload (g_node_id g) (g_balance_bucket g) (g_timestamp g / NANOS) in
      if verify_sig (g_signature g) payload (g_node_id g) then Ok tt else Err InvalidSignature.

Definition MAX_PLAUSIBLE_BALANCE : Z := 100000000.
Definition MAX_PEERS : Z := 10000.

(** [process_balance_gossip] with the deduplicating map: the map and the snapshot
    of its values. *)
Definition process_balance_gossip (now : Z) (g : CreditGossip) (map : gmap NodeId Z) (snapshot : list Z)
  : gmap NodeId Z * list Z :=
  if MAX_PLAUSIBLE_BALANCE <? i64_saturating_abs (g_balance_bucket g) then (map, snapshot)
  else
    match verify_balance_report now g with
    | Ok _ =>
        let map :=
          if (Z.of_nat (size map) <? MAX_PEERS) || bool_decide (is_Some (map !! g_node_id g))
          then <[g_node_id g := g_balance_bucket g]> map else map in
        (map, (map_to_list map).*2)
    | _ => (map, snapshot)
    end.
End gossip.

(** ** Movements *)

(** The kind and the sign agree: only a spend takes credits away. *)
Definition sign_ok (kind : CreditDelta) (delta : Z) : Prop :=
  match kind with Spending => delta <= 0 | _ => 0 <= delta end.

Definition counter (kind : CreditDelta) (b : CreditBalance) : Z :=
  match kind with Earning => lifetime_earned b | Spending => lifetime_spent b | Refund => lifetime_refunded b end.

(** No bound is hit: the balance and the counter the movement adds to have room. *)
Definition credit_fits (b : CreditBalance) (delta : Z) (kind : CreditDelta) : Prop :=
  is_i64 delta /\ is_i64 (balance b + delta) /\ counter kind b + Z.abs delta <= u64_max.

(** What [balance] is above [earned - spent + refunded]; the books close at 0. *)
Definition gap (b : CreditBalance) : Z :=
  balance b - (lifetime_earned b - lifetime_spent b + lifetime_refunded b).

Lemma books_gap b : books_balance b = (gap b =? 0).
Proof. unfold books_balance, gap. lia. Qed.

(** The numbers of two balances agree (everything but the timestamp). *)
Definition same_numbers (a b : CreditBalance) : Prop :=
  node_id a = node_id b /\ balance a = balance b /\ lifetime_earned a = lifetime_earned b /\
  lifetime_spent a = lifetime_spent b /\ lifetime_refunded a = lifetime_refunded b.

Ltac ledger := unfold credit_fits, typed_balance, sign_ok, counter, gap, same_numbers in *; cbn in *;
  split_and?; destruct_and?; try done; try ints.

Lemma apply_typed b delta kind now : typed_balance b -> typed_balance (apply_credit b delta kind now).
Proof. intros H. destruct kind; unfold typed_balance in *; cbn; split_and!; ints. Qed.

Lemma apply_exact b delta kind now :
  typed_balance b -> credit_fits b delta kind ->
  balance (apply_credit b delta kind now) = balance b + delta /\
  forall k, counter k (apply_credit b delta kind now) =
    counter k b + match kind, k with
                  | Earning, Earning | Spending, Spending | Refund, Refund => Z.abs delta
                  | _, _ => 0 end.
Proof. intros Ht Hf. split; [destruct kind; ledger |]. intros k. destruct kind, k; ledger. Qed.

Lemma apply_gap b delta kind now :
  typed_balance b -> credit_fits b delta kind -> sign_ok kind delta -> gap (apply_credit b delta kind now) = gap b.
Proof.
  intros Ht Hf Hs. destruct (apply_exact b delta kind now Ht Hf) as [Eb Ec].
  unfold gap. rewrite Eb. pose proof (Ec Earning) as E1. pose proof (Ec Spending) as E2.
  pose proof (Ec Refund) as E3. unfold counter in E1, E2, E3. rewrite E1, E2, E3.
  destruct kind; cbn in Hs; lia.
Qed.

(** a credit movement whose sign matches its kind keeps the books as they
    are: [earned - spent + refunded] and [balance] move by the same amount, for
    earnings, spends and refunds alike, as long as no 64-bit bound is hit. *)
Theorem movement_keeps_books b delta kind now :
  typed_balance b -> credit_fits b delta kind -> sign_ok kind delta ->
  books_balance (apply_credit b delta kind now) = books_balance b.
Proof. intros. rewrite !books_gap. by rewrite apply_gap. Qed.

Definition sample_balance : CreditBalance := {|
  node_id := [1]; balance := 40; lifetime_earned := 100; lifetime_spent := 80;
  lifetime_refunded := 20; last_updated := 0 |}.

Lemma movement_keeps_books_witness :
  books_balance (apply_credit sample_balance (-30) Spending 5) = true.
Proof. rewrite (movement_keeps_books sample_balance (-30) Spending 5); [done | ledger | ledger | ledger]. Defined.

(** A run of movements, each of which fits where it is applied. *)
Fixpoint apply_all (b : CreditBalance) (ops : list (Z * CreditDelta * Z)) : CreditBalance :=
  match ops with [] => b | (delta, kind, now) :: ops => apply_all (apply_credit b delta kind now) ops end.
Fixpoint fits_all (b : CreditBalance) (ops : list (Z * CreditDelta * Z)) : Prop :=
  match ops with
  | [] => True
  | (delta, kind, now) :: ops => credit_fits b delta kind /\ fits_all (apply_credit b delta kind now) ops
  end.

(** [b] is [a] with the movement [delta], [kind] applied. *)
Definition shifted (delta : Z) (kind : CreditDelta) (a b : CreditBalance) : Prop :=
  node_id b = node_id a /\ balance b = balance a + delta /\
  forall k, counter k b = counter k a + match kind, k with
    | Earning, Earning | Spending, Spending | Refund, Refund => Z.abs delta | _, _ => 0 end.

Lemma shifted_all delta kind a b ops :
  typed_balance a -> typed_balance b -> shifted delta kind a b -> fits_all a ops -> fits_all b ops ->
  shifted delta kind (apply_all a ops) (apply_all b ops) /\
  typed_balance (apply_all a ops) /\ typed_balance (apply_all b ops).
Proof.
  revert a b. induction ops as [|[[d k] t] ops IH]; intros a b Ha Hb Hs Fa Fb; [done |].
  destruct Fa as [Fa Fas], Fb as [Fb Fbs]. cbn [apply_all].
  apply IH; [by apply apply_typed | by apply apply_typed | | done | done].
  destruct (apply_exact a d k t Ha Fa) as [Ea Ca], (apply_exact b d k t Hb Fb) as [Eb Cb], Hs as (Hid & Hbal & Hc).
  split_and!; [done | lia |]. intros j. rewrite Ca, Cb, Hc. lia.
Qed.

Lemma revert_shifted delta kind a b :
  typed_balance a -> typed_balance b -> is_i64 delta -> shifted delta kind a b ->
  same_numbers (revert_credit b delta kind) a.
Proof.
  intros Ha Hb Hd (Hid & Hbal & Hc). pose proof (Hc Earning) as C1. pose proof (Hc Spending) as C2.
  pose proof (Hc Refund) as C3. destruct kind; ledger.
Qed.

(** a movement whose write fails leaves no trace.  The in-memory change is
    visible while the write is in progress, and other movements may land in
    between; after the revert the balance and all counters are exactly what
    those other movements alone would have made them. *)
Theorem failed_write_leaves_no_trace b delta kind now ops :
  typed_balance b -> credit_fits b delta kind -> fits_all b ops ->
  fits_all (apply_credit b delta kind now) ops ->
  same_numbers (revert_credit (apply_all (apply_credit b delta kind now) ops) delta kind) (apply_all b ops).
Proof.
  intros Hb Hf Fa Fb.
  destruct (shifted_all delta kind b (apply_credit b delta kind now) ops) as (Hs & Ha & Hb');
    [done | by apply apply_typed | | done | done |].
  - destruct (apply_exact b delta kind now Hb Hf). done.
  - apply revert_shifted; [done | done | apply Hf | done].
Qed.

Lemma failed_write_leaves_no_trace_witness :
  same_numbers (revert_credit (apply_all (apply_credit sample_balance 25 Earning 1)
    [(-10, Spending, 2); (7, Refund, 3)]) 25 Earning) (apply_all sample_balance [(-10, Spending, 2); (7, Refund, 3)]).
Proof. apply failed_write_leaves_no_trace; cbn; ledger. Defined.

(** ** Loading an old record *)

(** the backfill on load closes the books when the balance is above what the
    counters explain, leaves a record whose books close or whose balance is below
    untouched, never changes the balance itself, and is idempotent. *)
Theorem backfill_closes_books b :
  typed_balance b -> balance b - lifetime_earned b + lifetime_spent b <= u64_max ->
  (0 <= gap b -> books_balance (backfill_historical_refunds b) = true) /\
  (gap b <= 0 -> backfill_historical_refunds b = b) /\
  balance (backfill_historical_refunds b) = balance b /\
  backfill_historical_refunds (backfill_historical_refunds b) = backfill_historical_refunds b.
Proof.
  intros Ht Hmax. unfold backfill_historical_refunds at 1 2 3 5 6.
  assert (balance b - lifetime_earned b + lifetime_spent b - lifetime_refunded b = gap b) as Eg
    by (unfold gap; lia).
  rewrite Eg. destruct (Z.leb_spec (gap b) 0) as [Hle|Hgt].
  - split_and!; try done; [intros; rewrite books_gap; lia |].
    unfold backfill_historical_refunds. rewrite Eg, (proj2 (Z.leb_le _ _)) by done. done.
  - assert (u64_saturating_add (lifetime_refunded b) (Z.min (gap b) u64_max) = lifetime_refunded b + gap b) as Er
      by (unfold gap in *; ledger).
    rewrite Er. split_and!; [intros _; rewrite books_gap; unfold gap; cbn; lia | lia | done |].
    unfold backfill_historical_refunds. cbn.
    rewrite (proj2 (Z.leb_le _ 0)) by (unfold gap; lia). done.
Qed.

Definition old_record : CreditBalance := {|
  node_id := [1]; balance := 700; lifetime_earned := 100; lifetime_spent := 80;
  lifetime_refunded := 20; last_updated := 0 |}.

Lemma backfill_closes_books_witness : books_balance (backfill_historical_refunds old_record) = true.
Proof. apply (backfill_closes_books old_record); [ledger | by vm_compute | by vm_compute]. Defined.

(** ** Decay of a negative balance *)

Lemma decay_amount_bounds bal :
  is_i64 bal -> bal < 0 ->
  Z.min 500 (i64_saturating_neg bal) <= negative_balance_decay_amount bal <= i64_saturating_neg bal.
Proof.
  intros Hb Hn. unfold negative_balance_decay_amount, NEGATIVE_BALANCE_DECAY_FLOOR.
  rewrite (proj2 (Z.leb_gt _ _)) by done. lia.
Qed.

Lemma decay_amount_nonneg bal : 0 <= bal -> negative_balance_decay_amount bal = 0.
Proof. intros H. unfold negative_balance_decay_amount. by rewrite (proj2 (Z.leb_le _ _)) by done. Qed.

Lemma decay_tick_balance st now :
  is_i64 (balance (mem st)) ->
  balance (mem (decay_tick st now true)) = balance (mem st) + negative_balance_decay_amount (balance (mem st)).
Proof.
  intros Hb. unfold decay_tick. destruct (Z.lt_ge_cases (balance (mem st)) 0) as [Hn|Hp].
  - pose proof (decay_amount_bounds _ Hb Hn). destruct (Z.ltb_spec 0 (negative_balance_decay_amount (balance (mem st)))).
    + cbn. ints.
    + assert (negative_balance_decay_amount (balance (mem st)) = 0) as -> by ints. lia.
  - rewrite decay_amount_nonneg by done. cbn. lia.
Qed.

Fixpoint decay_ticks (n : nat) (st : LedgerState) (now : Z) : LedgerState :=
  match n with O => st | S n => decay_ticks n (decay_tick st now true) now end.

(** decay recovers a negative balance and mints nothing.  While writes
    succeed, [n] ticks bring any deficit of at most [500 n] credits to exactly
    zero, and no tick ever takes the balance above zero; a non-negative balance is
    never touched. *)
Theorem decay_reaches_zero n st now :
  is_i64 (balance (mem st)) -> - balance (mem st) <= 500 * Z.of_nat n ->
  balance (mem (decay_ticks n st now)) = Z.max 0 (balance (mem st)).
Proof.
  revert st. induction n as [|n IH]; intros st Hb Hn; [cbn; lia |]. cbn [decay_ticks].
  pose proof (decay_tick_balance st now Hb) as Ed.
  destruct (Z.lt_ge_cases (balance (mem st)) 0) as [Hneg|Hpos].
  - pose proof (decay_amount_bounds _ Hb Hneg) as Hd. rewrite IH; rewrite Ed; ints.
  - rewrite decay_amount_nonneg, Z.add_0_r in Ed by done. rewrite IH; rewrite Ed; [done | done | lia].
Qed.

Definition deficit_state : LedgerState := {|
  mem := {| node_id := [1]; balance := -1200; lifetime_earned := 0; lifetime_spent := 1200;
            lifetime_refunded := 0; last_updated := 0 |}; stored := None; log := [] |}.

Lemma decay_reaches_zero_witness : balance (mem (decay_ticks 3 deficit_state 9)) = 0.
Proof. apply (decay_reaches_zero 3 deficit_state 9); [by vm_compute | by vm_compute]. Defined.

(** ** Sub-credit accrual and the pending accumulator *)

(** hosting income is never rounded away: credits paid and the carried
    remainder add up to exactly what was accrued, and the remainder stays below
    one credit. *)
Theorem hosting_conserves_fractions st carried rate gb hours micro now ok st' carry r :
  0 <= carried < MICRO -> hosting_micro rate gb hours = Some micro -> 0 <= micro <= i64_max - MICRO ->
  earn_shard_hosting_total st carried rate gb hours now ok = (st', carry, r) ->
  0 <= carry < MICRO /\
  exists amount, 0 <= amount /\ amount * MICRO + carry = micro + carried /\
    (r = Ok amount \/ (ok = false /\ r = Err db_error)).
Proof.
  intros Hc Em Hm. unfold earn_shard_hosting_total. rewrite Em, i64_saturating_add_exact by (unfold MICRO in *; ints).
  assert (0 <= micro + carried) as Ht by lia. unfold MICRO in *.
  pose proof (Z.quot_rem' (micro + carried) 1000000) as Eq. pose proof (Z.rem_bound_pos (micro + carried) 1000000 Ht ltac:(lia)) as Hr.
  pose proof (Z.quot_pos (micro + carried) 1000000 Ht ltac:(lia)) as Hq.
  unfold apply_and_persist, persist_balance.
  repeat case_match; intros; simplify_eq; (split; [done |]); eexists (Z.quot (micro + carried) 1000000);
    cbn in *; (split; [lia |]); (split; [lia |]); auto.
Qed.

Lemma hosting_conserves_fractions_witness :
  exists amount, 0 <= amount /\ amount * MICRO + 100000 = 500000 + 600000.
Proof.
  destruct (hosting_conserves_fractions deficit_state 600000 1 (gb_of_bytes 536870912) (F64.of_Z 1) 500000 4 true
    (fst (apply_and_persist deficit_state 1 Earning 4 true)) 100000 (Ok 1)) as (_ & amount & ? & ? & _);
    [by vm_compute | by vm_compute | by vm_compute | by vm_compute | eauto].
Defined.

(** the flush of pending earnings loses and duplicates nothing: whether or not
    its writes succeed, and whatever is earned meanwhile, the balance plus what
    is still pending grows by exactly what was earned meanwhile. *)
Theorem flush_conserves_pending st pending meanwhile now ok ok' st' pending' :
  typed_balance (mem st) ->
  credit_fits (mem st) pending (if 0 <? pending then Earning else Spending) ->
  persist_tick st pending meanwhile now ok ok' = (st', pending') ->
  balance (mem st') + pending' = balance (mem st) + pending + meanwhile.
Proof.
  intros Ht Hf. unfold persist_tick. destruct (Z.eqb_spec pending 0) as [->|Hp].
  - intros [= <- <-]. unfold persist_balance. destruct ok'; cbn; lia.
  - set (kind := if 0 <? pending then Earning else Spending) in *.
    destruct (apply_exact (mem st) pending kind now Ht Hf) as [Eb _].
    destruct Hf as (Hd & Hsum & _). destruct Ht as [Hbal _]. unfold apply_credit_direct_noted, persist_balance.
    destruct ok, ok'; intros [= <- <-]; cbn [fst mem]; rewrite ?Eb; try lia;
      unfold revert_credit; cbn [balance] in *; rewrite Eb;
      (replace (i64_saturating_sub (balance (mem st) + pending) pending) with (balance (mem st)) by ints);
      destruct (Z.eqb_spec meanwhile 0); lia.
Qed.

Lemma flush_conserves_pending_witness :
  let '(st', pending') := persist_tick deficit_state 440 10 4 false true in
  balance (mem st') + pending' = -1200 + 440 + 10.
Proof. refine (flush_conserves_pending deficit_state 440 10 4 false true _ _ _ _ eq_refl); ledger. Defined.

(** ** Gossip *)

Lemma le_val_le_bytes_mod n z : le_val (le_bytes n z) = z mod 256 ^ Z.of_nat n.
Proof.
  revert z. induction n as [|n IH]; intros z; [by rewrite Z.mod_1_r |]. cbn [le_bytes le_val].
  rewrite IH, Nat2Z.inj_succ, Z.pow_succ_r by lia.
  rewrite Z.rem_mul_r by lia. lia.
Qed.

Lemma le_bytes8_inj_i64 x y : is_i64 x -> is_i64 y -> le_bytes 8 x = le_bytes 8 y -> x = y.
Proof.
  intros Hx Hy E. apply (f_equal le_val) in E. rewrite !le_val_le_bytes_mod in E.
  change (256 ^ Z.of_nat 8) with 18446744073709551616 in E.
  pose proof (Z.div_mod x 18446744073709551616 ltac:(lia)). pose proof (Z.div_mod y 18446744073709551616 ltac:(lia)).
  assert (x / 18446744073709551616 = -1 \/ x / 18446744073709551616 = 0) by
    (pose proof (Z.mod_pos_bound x 18446744073709551616 ltac:(lia)); ints).
  assert (y / 18446744073709551616 = -1 \/ y / 18446744073709551616 = 0) by
    (pose proof (Z.mod_pos_bound y 18446744073709551616 ltac:(lia)); ints).
  ints.
Qed.

(** The bytes a balance report signs determine the node, the bucket and the
    second: no two reports share a payload. *)
Theorem balance_payload_injective id id' bucket bucket' ts ts' :
  length id = 32%nat -> length id' = 32%nat -> is_i64 bucket -> is_i64 bucket' -> is_i64 ts -> is_i64 ts' ->
  build_balance_report_payload id bucket ts = build_balance_report_payload id' bucket' ts' ->
  id = id' /\ bucket = bucket' /\ ts = ts'.
Proof.
  intros Hi Hi' Hb Hb' Ht Ht' E. unfold build_balance_report_payload in E.
  apply app_inj_1 in E as [_ E]; [|done]. apply app_inj_1 in E as [-> E]; [|lia].
  apply app_inj_1 in E as [Eb Et]; [|by rewrite !length_le_bytes].
  auto using le_bytes8_inj_i64.
Qed.

Lemma balance_payload_injective_witness : (-100 : Z) = -100 /\ (5 : Z) = 5.
Proof.
  apply (balance_payload_injective (replicate 32 1) (replicate 32 1) (-100) (-100) 5 5);
    try reflexivity; by vm_compute.
Defined.

Section gossip_theorems.
Context (valid_key : NodeId -> bool) (verify_sig : bytes -> bytes -> NodeId -> bool).
Abbreviation process := (process_balance_gossip valid_key verify_sig).

(** The map within its limits, the snapshot its values. *)
Definition gossip_ok (st : gmap NodeId Z * list Z) : Prop :=
  Z.of_nat (size (fst st)) <= MAX_PEERS /\
  (forall p v, fst st !! p = Some v -> Z.abs v <= MAX_PLAUSIBLE_BALANCE) /\
  Permutation (snd st) (map_to_list (fst st)).*2.

(** percentile stuffing is bounded.  Whatever reports arrive, the snapshot used
    for percentiles holds exactly one value per known peer, at most 10 000 of
    them, each within the plausible range; and a report changes the entry of no
    peer but its signer, and only if it is signed, fresh and plausible. *)
Theorem gossip_one_entry_per_peer st now g :
  gossip_ok st -> is_i64 (g_balance_bucket g) ->
  gossip_ok (process now g (fst st) (snd st)) /\
  (forall p, p <> g_node_id g -> fst (process now g (fst st) (snd st)) !! p = fst st !! p) /\
  (verify_balance_report valid_key verify_sig now g <> Ok tt -> process now g (fst st) (snd st) = st).
Proof.
  intros (Hsize & Hplaus & Hperm) Hb.
  destruct st as [m snap]; cbn [fst snd] in *.
  unfold process_balance_gossip. destruct (Z.ltb_spec MAX_PLAUSIBLE_BALANCE (i64_saturating_abs (g_balance_bucket g))).
  { split_and!; done. }
  destruct (verify_balance_report valid_key verify_sig now g) as [[]| |]; [|split_and!; done..].
  match goal with |- context [(?x, _.*2)] => set (m' := x) end.
  split; [split; [|split]|split]; cbn [fst snd]; [| |done | |done].
  - unfold m'. case_if; [|done]. destruct (m !! g_node_id g) eqn:E.
    + rewrite map_size_insert_Some; [done | eauto].
    + rewrite map_size_insert_None by done. unfold MAX_PEERS in *. zsimp.
      apply orb_true_iff in Heqb as [?|Hs]; [lia |]. apply bool_decide_eq_true in Hs as [? ?]. congruence.
  - unfold m'. intros p v. case_if; [|apply Hplaus]. destruct (decide (p = g_node_id g)) as [->|Hne].
    + rewrite lookup_insert_eq. intros [= <-]. unfold MAX_PLAUSIBLE_BALANCE in *. ints.
    + rewrite lookup_insert_ne by done. apply Hplaus.
  - intros p Hne. unfold m'. case_if; [|done]. by rewrite lookup_insert_ne.
Qed.
End gossip_theorems.

Definition accept_key (_ : NodeId) : bool := true.
Definition accept_sig (_ _ : bytes) (_ : NodeId) : bool := true.

Lemma gossip_one_entry_per_peer_witness :
  gossip_ok (process_balance_gossip accept_key accept_sig 0
    {| g_node_id := [2]; g_balance_bucket := 300; g_timestamp := 0; g_signature := [1] |} ∅ []).
Proof.
  apply (gossip_one_entry_per_peer accept_key accept_sig (∅, [])).
  - split_and!; [by vm_compute | intros p v; cbn; by rewrite lookup_empty | done].
  - by vm_compute.
Defined.
