(* ===== verification/Escrow.v ===== *)
(** * Credit escrow ([src/credit/escrow.rs])

    Credits held while a request runs.  The state is the in-memory map, the redb
    tree of entries and the ledger; an operation takes, for every write it makes,
    whether the write succeeds.  Ids and request ids are uuids, taken as numbers;
    a new id comes from the generator and is an argument. *)
From S2P Require Import Prelude CreditLedger.

Definition DEFAULT_ESCROW_THRESHOLD : Z := 10.
Definition ERR_NOT_FOUND : string := "Escrow not found".
(** 600 seconds, in nanoseconds. *)
Definition ESCROW_TTL : Z := 600 * NANOS.

Inductive EscrowStatus : Type := Pending | Released | Refunded | Expired.
#[global] Instance status_eq_dec : EqDecision EscrowStatus.
Proof. solve_decision. Defined.

Record EscrowEntry : Type := {
  e_id : Z; e_request_id : Z; e_amount : Z; e_from : NodeId; e_to : option NodeId;
  e_created_at : Z; e_status : EscrowStatus }.

(** The escrow manager, its tree on disk, and the ledger it moves. *)
Record World : Type := { entries : gmap Z EscrowEntry; tree : gmap Z EscrowEntry; ledger : LedgerState }.

(** [{:?}] of a status. *)
Definition status_name (s : EscrowStatus) : string :=
  match s with Pending => "Pending" | Released => "Released" | Refunded => "Refunded" | Expired => "Expired" end.

Definition not_pending (id : Z) (s : EscrowStatus) : SwarmError :=
  CreditError ("Escrow " +:+ pretty id +:+ " is " +:+ status_name s +:+ ", not Pending").

Definition already_settled (e : SwarmError) : bool :=
  match e with
  | CreditError m =>
      bool_decide (m = ERR_NOT_FOUND) ||
      (String.prefix "Escrow " m && bool_decide (is_Some (String.index 0 ", not Pending" m)))
  | _ => false
  end.

(** [EscrowManager::new]: pending entries come back from disk. *)
Definition manager_entries (tree : gmap Z EscrowEntry) : gmap Z EscrowEntry :=
  filter (fun p => e_status (snd p) = Pending) tree.

Definition needs_escrow (threshold estimated_cost : Z) : bool := threshold <? estimated_cost.

Definition set_status (s : EscrowStatus) (to : option NodeId) (e : EscrowEntry) : EscrowEntry := {|
  e_id := e_id e; e_request_id := e_request_id e; e_amount := e_amount e; e_from := e_from e;
  e_to := to; e_created_at := e_created_at e; e_status := s |}.

(** [create_escrow]: the balance write, then the entry write. *)
Definition create_escrow (w : World) (id request_id amount : Z) (from : NodeId) (now : Z) (ok_balance ok_entry : bool)
  : World * outcome Z :=
  if amount <=? 0 then (w, Err (CreditError ("Escrow amount must be positive, got " +:+ pretty amount)))
  else
    let entry := {| e_id := id; e_request_id := request_id; e_amount := amount; e_from := from;
                    e_to := None; e_created_at := now; e_status := Pending |} in
    match apply_credit_direct_noted (ledger w) (- amount) Spending "escrow_reserve" now ok_balance with
    | (l, Ok _) =>
        if ok_entry
        then ({| entries := <[id := entry]> (entries w); tree := <[id := entry]> (tree w); ledger := l |}, Ok id)
        else ({| entries := entries w; tree := tree w; ledger := l |}, Err (CreditError "Failed to persist escrow"))
    | (l, _) =>
        ({| entries := entries w; tree := tree w; ledger := l |}, Err (CreditError "Failed to persist balance"))
    end.

(** The settlement of [release_escrow] and [refund_escrow]: claim the entry,
    write its new status, and on failure put it back. *)
Definition claim (w : World) (id : Z) : outcome EscrowEntry :=
  match entries w !! id with
  | None => Err (CreditError ERR_NOT_FOUND)
  | Some e => if decide (e_status e = Pending) then Ok e else Err (not_pending id (e_status e))
  end.

Definition release_escrow (w : World) (id : Z) (to_node : NodeId) (actual_cost now : Z) (ok_entry ok_balance : bool)
  : World * outcome Z :=
  match claim w id with
  | Ok e =>
      let snapshot := set_status Released (Some to_node) e in
      if ok_entry then
        let actual := Z.max actual_cost 0 in
        let delta := e_amount e - actual in
        let l :=
          if 0 <? delta then fst (apply_credit_direct_noted (ledger w) delta Refund "escrow_settle" now ok_balance)
          else if delta <? 0
          then fst (apply_credit_direct_noted (ledger w) delta Spending "escrow_settle_adjust" now ok_balance)
          else ledger w in
        ({| entries := delete id (entries w); tree := <[id := snapshot]> (tree w); ledger := l |}, Ok actual)
      else
        ({| entries := <[id := set_status Pending (e_to e) e]> (entries w); tree := tree w; ledger := ledger w |},
         Err (Database "Failed to persist escrow release"))
  | Err e => (w, Err e)
  | Panic => (w, Panic)
  end.

Definition refund_escrow (w : World) (id now : Z) (ok_entry ok_balance : bool) : World * outcome Z :=
  match claim w id with
  | Ok e =>
      let snapshot := set_status Refunded (e_to e) e in
      if ok_entry then
        let l := fst (apply_credit_direct_noted (ledger w) (e_amount e) Refund "escrow_refund" now ok_balance) in
        ({| entries := delete id (entries w); tree := <[id := snapshot]> (tree w); ledger := l |}, Ok (e_amount e))
      else
        ({| entries := <[id := set_status Pending (e_to e) e]> (entries w); tree := tree w; ledger := ledger w |},
         Err (Database "Failed to persist escrow refund"))
  | Err e => (w, Err e)
  | Panic => (w, Panic)
  end.

Definition get_escrow (w : World) (id : Z) : option EscrowEntry := entries w !! id.
Definition get_by_request_id (w : World) (request_id : Z) : option EscrowEntry :=
  snd <$> list_find (fun e => e_request_id e = request_id) (map_to_list (entries w)).*2.

(** The refund of an expired entry: the balance alone, no counter. *)
Definition credit_expired (l : LedgerState) (amount now : Z) : CreditBalance := {|
  node_id := node_id (mem l); balance := i64_saturating_add (balance (mem l)) amount;
  lifetime_earned := lifetime_earned (mem l); lifetime_spent := lifetime_spent (mem l);
  lifetime_refunded := lifetime_refunded (mem l); last_updated := now |}.
Definition uncredit_expired (l : LedgerState) (now : Z) : CreditBalance := {|
  node_id := node_id (mem l); balance := balance (mem l);
  lifetime_earned := lifetime_earned (mem l); lifetime_spent := lifetime_spent (mem l);
  lifetime_refunded := lifetime_refunded (mem l); last_updated := now |}.

(** One entry of [cleanup_expired]: the status write, the balance write, and the
    write that puts the status back when the balance write fails. *)
Definition cleanup_one (now : Z) (writes : Z -> bool * bool * bool) (wc : World * nat) (id : Z) : World * nat :=
  let '(w, count) := wc in
  let '(ok_entry, ok_balance, ok_revert) := writes id in
  match entries w !! id with
  | None => (w, count)
  | Some e =>
      if decide (e_status e = Pending) then
        let expired := set_status Expired (e_to e) e in
        if negb ok_entry then (w, count)
        else if ok_balance then
          let bal := credit_expired (ledger w) (e_amount e) now in
          ({| entries := delete id (entries w); tree := <[id := expired]> (tree w);
              ledger := {| mem := bal; stored := Some bal; log := log (ledger w) |} |}, S count)
        else
          let back := set_status Pending (e_to e) e in
          ({| entries := <[id := back]> (entries w);
              tree := if ok_revert then <[id := back]> (<[id := expired]> (tree w)) else <[id := expired]> (tree w);
              ledger := {| mem := uncredit_expired (ledger w) now; stored := stored (ledger w);
                           log := log (ledger w) |} |}, count)
      else (w, count)
  end.

Definition expired_ids (w : World) (now : Z) : list Z :=
  map (fun p => e_id (snd p)) (filter (fun p => e_status (snd p) = Pending /\ ESCROW_TTL < now - e_created_at (snd p))
    (map_to_list (entries w))).

Definition cleanup_expired (w : World) (now : Z) (writes : Z -> bool * bool * bool) : World * nat :=
  foldl (cleanup_one now writes) (w, O) (expired_ids w now).

Definition pending_count (w : World) : nat :=
  length (filter (fun p => e_status (snd p) = Pending) (map_to_list (entries w))).

(** The sum over pending entries, as the map's fold. *)
Definition add_pending (_ : Z) (e : EscrowEntry) (acc : Z) : Z :=
  if decide (e_status e = Pending) then e_amount e + acc else acc.
Definition pending_sum (m : gmap Z EscrowEntry) : Z := map_fold add_pending 0 m.
Definition pending_total (w : World) : Z := pending_sum (entries w).

(** The node restarts: entries and balance are read back from disk. *)
Definition restart (w : World) (initial : CreditBalance) : World :=
  {| entries := manager_entries (tree w); tree := tree w;
     ledger := {| mem := restore_balance (node_id initial) initial (stored (ledger w));
                  stored := stored (ledger w); log := log (ledger w) |} |}.

(** ** Sums over the map *)

Lemma add_pending_comm (m : gmap Z EscrowEntry) (i : Z) (x : EscrowEntry) :
  forall (j1 j2 : Z) (z1 z2 : EscrowEntry) (y : Z), j1 <> j2 ->
    <[i := x]> m !! j1 = Some z1 -> <[i := x]> m !! j2 = Some z2 ->
    add_pending j1 z1 (add_pending j2 z2 y) = add_pending j2 z2 (add_pending j1 z1 y).
Proof. intros. unfold add_pending. repeat case_decide; lia. Qed.

Lemma pending_sum_insert m id e :
  m !! id = None -> pending_sum (<[id := e]> m) = add_pending id e (pending_sum m).
Proof. intros H. unfold pending_sum. apply map_fold_insert_L; [apply add_pending_comm | done]. Qed.

Lemma pending_sum_delete m id e :
  m !! id = Some e -> pending_sum m = add_pending id e (pending_sum (delete id m)).
Proof.
  intros H. rewrite <- (insert_delete_id m id e H) at 1. apply pending_sum_insert. apply lookup_delete_eq.
Qed.

(** The pending entries of a map, all positive, weigh at least those of a part of it. *)
Lemma pending_sum_mono (m n : gmap Z EscrowEntry) :
  (forall id e, m !! id = Some e -> e_status e = Pending -> n !! id = Some e) ->
  (forall id e, n !! id = Some e -> 0 <= e_amount e) ->
  pending_sum m <= pending_sum n.
Proof.
  revert n. induction m as [|id e m Hid IH] using map_ind; intros n Hsub Hpos.
  - unfold pending_sum at 1. rewrite map_fold_empty. revert Hpos. clear.
    induction n as [|id e n Hid IH] using map_ind; intros Hpos; [done |].
    rewrite pending_sum_insert by done. unfold add_pending. case_decide; [|apply IH].
    + pose proof (Hpos id e (lookup_insert_eq _ _ _)).
      enough (0 <= pending_sum n) by lia. apply IH. intros j f Hj. eapply Hpos.
      rewrite lookup_insert_ne; [done |]. congruence.
    + intros j f Hj. eapply Hpos. rewrite lookup_insert_ne; [done |]. congruence.
  - rewrite pending_sum_insert by done. unfold add_pending. case_decide as Hp.
    + pose proof (Hsub id e (lookup_insert_eq _ _ _) Hp) as Hn.
      rewrite (pending_sum_delete n id e Hn). unfold add_pending. rewrite decide_True by done.
      enough (pending_sum m <= pending_sum (delete id n)) by lia. apply IH.
      * intros j f Hj Hfp. rewrite lookup_delete_ne by congruence. apply Hsub; [|done].
        rewrite lookup_insert_ne; [done | congruence].
      * intros j f Hj. apply lookup_delete_Some in Hj as [_ Hj]. by eapply Hpos.
    + apply IH; [|done]. intros j f Hj Hfp. apply Hsub; [|done].
      destruct (decide (j = id)) as [->|]; [congruence |]. by rewrite lookup_insert_ne.
Qed.

(** ** What the operations keep *)

(** The credits a node has: its balance and what escrow holds for it. *)
Definition credits (w : World) : Z := balance (mem (ledger w)) + pending_total w.

Record consistent (w : World) : Prop := {
  c_entries : forall id e, entries w !! id = Some e -> e_status e = Pending /\ 0 < e_amount e /\ e_id e = id;
  c_tree : forall id e, tree w !! id = Some e -> e_status e = Pending -> entries w !! id = Some e;
  c_stored : exists s, stored (ledger w) = Some s /\ balance s = balance (mem (ledger w));
  c_range : is_i64 (balance (mem (ledger w))) }.

Inductive Event : Type :=
| EvCreate (id request_id amount : Z) (from : NodeId) (now : Z) (ok_balance ok_entry : bool)
| EvRelease (id : Z) (to_node : NodeId) (actual_cost now : Z) (ok_entry ok_balance : bool)
| EvRefund (id now : Z) (ok_entry ok_balance : bool)
| EvCleanup (now : Z) (writes : Z -> bool * bool * bool)
| EvRestart (initial : CreditBalance).

Definition perform (w : World) (ev : Event) : World :=
  match ev with
  | EvCreate id rid amount from now o1 o2 => fst (create_escrow w id rid amount from now o1 o2)
  | EvRelease id to_node cost now o1 o2 => fst (release_escrow w id to_node cost now o1 o2)
  | EvRefund id now o1 o2 => fst (refund_escrow w id now o1 o2)
  | EvCleanup now writes => fst (cleanup_expired w now writes)
  | EvRestart initial => restart w initial
  end.

Definition opt_entry (o : option EscrowEntry) (P : EscrowEntry -> Prop) : Prop :=
  match o with Some e => P e | None => True end.

(** The event is possible: a new id is new, a restart is the same node's, and no
    movement runs the balance into the end of i64. *)
Definition room (w : World) (ev : Event) : Prop :=
  let bal := balance (mem (ledger w)) in
  match ev with
  | EvCreate id _ amount _ _ _ _ => entries w !! id = None /\ tree w !! id = None /\ is_i64 (bal - amount)
  | EvRelease id _ cost _ _ _ =>
      opt_entry (entries w !! id) (fun e => is_i64 (bal + (e_amount e - Z.max cost 0)))
  | EvRefund id _ _ _ => opt_entry (entries w !! id) (fun e => is_i64 (bal + e_amount e))
  | EvCleanup _ _ => True
  | EvRestart initial => forall s, stored (ledger w) = Some s -> node_id s = node_id initial
  end.

Lemma direct_balance l delta kind note now ok :
  is_i64 (balance (mem l)) -> is_i64 (balance (mem l) + delta) ->
  (exists s, stored l = Some s /\ balance s = balance (mem l)) ->
  let l' := fst (apply_credit_direct_noted l delta kind note now ok) in
  balance (mem l') = balance (mem l) + (if ok then delta else 0) /\
  (exists s, stored l' = Some s /\ balance s = balance (mem l')).
Proof.
  intros Hb Hd (s & Es & Eb). unfold apply_credit_direct_noted. destruct ok; cbn [fst mem stored].
  - split; [cbn; ints | eauto].
  - split; [cbn; ints |]. exists s. split; [done |]. cbn. ints.
Qed.

Lemma claim_ok w id e : consistent w -> claim w id = Ok e ->
  entries w !! id = Some e /\ e_status e = Pending /\ 0 < e_amount e /\ e_id e = id.
Proof.
  intros Hc. unfold claim. destruct (entries w !! id) as [e'|] eqn:E; [|done].
  case_decide; [|done]. intros [= <-]. pose proof (c_entries w Hc id e' E). tauto.
Qed.

Lemma put_back e : e_status e = Pending -> set_status Pending (e_to e) e = e.
Proof. destruct e; cbn. by intros ->. Qed.

(** Taking a settled entry out of the map and off the pending part of the tree. *)
Lemma settle_consistent w id e s l :
  consistent w -> entries w !! id = Some e -> e_status s <> Pending ->
  is_i64 (balance (mem l)) -> (exists b, stored l = Some b /\ balance b = balance (mem l)) ->
  let w' := {| entries := delete id (entries w); tree := <[id := s]> (tree w); ledger := l |} in
  consistent w' /\ pending_total w = e_amount e + pending_total w'.
Proof.
  intros Hc E Hs Hr Hst w'. split; [split; cbn|].
  - intros j f Hj. apply lookup_delete_Some in Hj as [_ Hj]. by apply (c_entries w Hc).
  - intros j f Hj Hp. destruct (decide (j = id)) as [->|Hne].
    + rewrite lookup_insert_eq in Hj. congruence.
    + rewrite lookup_insert_ne in Hj by done. rewrite lookup_delete_ne by done. by apply (c_tree w Hc).
  - done.
  - done.
  - unfold pending_total. cbn. rewrite (pending_sum_delete _ id e E). unfold add_pending.
    destruct (c_entries w Hc id e E) as [Hp _]. by rewrite decide_True.
Qed.

Lemma apply_in_range l delta kind note now ok :
  is_i64 (balance (mem (fst (apply_credit_direct_noted l delta kind note now ok)))).
Proof. unfold apply_credit_direct_noted. destruct ok; cbn; ints. Qed.

Lemma same_world w : {| entries := entries w; tree := tree w; ledger := ledger w |} = w.
Proof. by destruct w. Qed.

Lemma create_keeps w id rid amount from now o1 o2 :
  consistent w -> room w (EvCreate id rid amount from now o1 o2) ->
  let w' := fst (create_escrow w id rid amount from now o1 o2) in
  consistent w' /\ credits w' <= credits w /\ (o1 = true -> o2 = true -> credits w' = credits w).
Proof.
  intros Hc (En & Tn & Hr). unfold create_escrow. destruct (Z.leb_spec amount 0) as [|Hpos]; [done |].
  destruct Hc as [C1 C2 C3 C4].
  destruct (direct_balance (ledger w) (- amount) Spending "escrow_reserve" now o1 C4) as [Hb Hs];
    [by rewrite Z.add_opp_r | done |].
  pose proof (apply_in_range (ledger w) (- amount) Spending "escrow_reserve" now o1) as Hi.
  assert (snd (apply_credit_direct_noted (ledger w) (- amount) Spending "escrow_reserve" now o1) =
    if o1 then Ok tt else Err db_error) as Hres by (by destruct o1).
  destruct (apply_credit_direct_noted _ _ _ _ _ _) as [l r]. cbn [fst snd] in *. subst r.
  destruct o1, o2; cbn [fst]; unfold credits, pending_total; cbn [entries tree ledger].
  - split; [|rewrite pending_sum_insert by done; unfold add_pending; rewrite decide_True by done; cbn; split; [lia | intros; lia]].
    split; cbn; [| |done|done].
    + intros j e. destruct (decide (j = id)) as [->|]; [rewrite lookup_insert_eq; by intros [= <-] |].
      rewrite lookup_insert_ne by done. apply C1.
    + intros j e. destruct (decide (j = id)) as [->|]; [by rewrite !lookup_insert_eq |].
      rewrite !lookup_insert_ne by done. apply C2.
  - split; [by split | split; [lia | done]].
  - split; [by split | split; [lia | done]].
  - split; [by split | split; [lia | done]].
Qed.

(** A claim that fails changes nothing; a status write that fails puts the entry
    back as it was. *)
Lemma release_keeps w id to_node cost now o1 o2 :
  consistent w -> room w (EvRelease id to_node cost now o1 o2) ->
  let w' := fst (release_escrow w id to_node cost now o1 o2) in
  consistent w' /\ credits w' <= credits w /\
  (o1 = false -> w' = w) /\
  (o1 = true -> o2 = true -> is_Some (entries w !! id) -> credits w' = credits w - Z.max cost 0).
Proof.
  intros Hc Hr. unfold release_escrow. destruct (claim w id) as [e|er|] eqn:Ec.
  2:{ split_and!; try done. intros _ _ [e E]. unfold claim in Ec. rewrite E in Ec.
      destruct (c_entries w Hc id e E) as [Hp _]. by rewrite decide_True in Ec. }
  2:{ unfold claim in Ec. repeat case_match; done. }
  apply claim_ok in Ec as (E & Hp & Hpos & Hid); [|done]. cbn in Hr. rewrite E in Hr. cbn in Hr.
  destruct o1.
  2:{ cbn [fst]. rewrite put_back, insert_id, same_world by done. split_and!; try done. }
  cbn [fst]. set (delta := e_amount e - Z.max cost 0) in *.
  assert (exists l, l = (if 0 <? delta
      then fst (apply_credit_direct_noted (ledger w) delta Refund "escrow_settle" now o2)
      else if delta <? 0
        then fst (apply_credit_direct_noted (ledger w) delta Spending "escrow_settle_adjust" now o2)
        else ledger w) /\
    balance (mem l) = balance (mem (ledger w)) + (if o2 then delta else 0) /\ is_i64 (balance (mem l)) /\
    exists b, stored l = Some b /\ balance b = balance (mem l)) as (l & <- & Hb & Hi & Hst).
  { eexists. split; [done |]. pose proof (c_range w Hc) as C4. pose proof (c_stored w Hc) as C3.
    destruct (Z.ltb_spec 0 delta) as [|Hnp]; [|destruct (Z.ltb_spec delta 0)].
    - destruct (direct_balance (ledger w) delta Refund "escrow_settle" now o2 C4 Hr C3).
      split_and!; [done | apply apply_in_range | done].
    - destruct (direct_balance (ledger w) delta Spending "escrow_settle_adjust" now o2 C4 Hr C3).
      split_and!; [done | apply apply_in_range | done].
    - replace delta with 0 by lia. split_and!; [destruct o2; lia | done | done]. }
  destruct (settle_consistent w id e (set_status Released (Some to_node) e) l Hc E) as [Hcons Hsum]; [done.. |].
  split; [done |]. unfold credits. cbn [ledger]. rewrite Hsum, Hb.
  destruct o2; split_and!; try done; lia.
Qed.

Lemma refund_keeps w id now o1 o2 :
  consistent w -> room w (EvRefund id now o1 o2) ->
  let w' := fst (refund_escrow w id now o1 o2) in
  consistent w' /\ credits w' <= credits w /\
  (o1 = false -> w' = w) /\ (o1 = true -> o2 = true -> credits w' = credits w).
Proof.
  intros Hc Hr. unfold refund_escrow. destruct (claim w id) as [e|er|] eqn:Ec; [|done|done].
  apply claim_ok in Ec as (E & Hp & Hpos & Hid); [|done]. cbn in Hr. rewrite E in Hr. cbn in Hr.
  destruct o1; [|cbn [fst]; rewrite put_back, insert_id, same_world by done; done].
  pose proof (c_range w Hc) as C4. pose proof (c_stored w Hc) as C3.
  destruct (direct_balance (ledger w) (e_amount e) Refund "escrow_refund" now o2 C4 Hr C3) as [Hb Hst].
  cbn [fst]. destruct (settle_consistent w id e (set_status Refunded (e_to e) e) _ Hc E ltac:(done)
    (apply_in_range (ledger w) (e_amount e) Refund "escrow_refund" now o2) Hst) as [Hcons Hsum].
  split; [done |]. unfold credits. cbn [ledger]. rewrite Hsum, Hb. destruct o2; split_and!; try done; lia.
Qed.

Lemma cleanup_one_keeps now writes w c id :
  consistent w ->
  consistent (fst (cleanup_one now writes (w, c) id)) /\ credits (fst (cleanup_one now writes (w, c) id)) <= credits w.
Proof.
  intros Hc. unfold cleanup_one. destruct (writes id) as [[o1 o2] o3].
  destruct (entries w !! id) as [e|] eqn:E; [|done].
  destruct (c_entries w Hc id e E) as (Hp & Hpos & Hid). rewrite decide_True by done.
  pose proof (c_range w Hc) as C4. pose proof (c_stored w Hc) as (s & Es & Eb).
  destruct o1; [|done]. cbn [negb]. destruct o2.
  - cbn [fst]. destruct (settle_consistent w id e (set_status Expired (e_to e) e)
      {| mem := credit_expired (ledger w) (e_amount e) now;
         stored := Some (credit_expired (ledger w) (e_amount e) now); log := log (ledger w) |} Hc E)
      as [Hcons Hsum]; [done | cbn; ints | by eexists |].
    split; [done |]. unfold credits. rewrite Hsum. cbn [ledger mem credit_expired balance]. ints.
  - cbn [fst]. rewrite put_back, (insert_id (entries w)) by done. split; [|done].
    split; cbn [entries tree ledger mem stored].
    + apply (c_entries w Hc).
    + intros j f. destruct (decide (j = id)) as [->|Hne].
      * destruct o3; rewrite lookup_insert_eq; intros [= <-]; [done |]. done.
      * destruct o3; rewrite !lookup_insert_ne by done; apply (c_tree w Hc).
    + exists s. by split.
    + done.
Qed.

Lemma cleanup_keeps w now writes :
  consistent w ->
  consistent (fst (cleanup_expired w now writes)) /\ credits (fst (cleanup_expired w now writes)) <= credits w.
Proof.
  unfold cleanup_expired. generalize (expired_ids w now) as ids. intros ids. revert w. generalize O.
  induction ids as [|id ids IH]; intros c w Hc; [done |]. cbn [foldl].
  destruct (cleanup_one_keeps now writes w c id Hc) as [Hc' Hle].
  destruct (cleanup_one now writes (w, c) id) as [w' c'] eqn:Ew. cbn [fst] in *.
  destruct (IH c' w' Hc') as [? ?]. split; [done | lia].
Qed.

Lemma restart_keeps w initial :
  consistent w -> room w (EvRestart initial) ->
  consistent (restart w initial) /\ credits (restart w initial) <= credits w.
Proof.
  intros Hc Hr. destruct (c_stored w Hc) as (s & Es & Eb). cbn in Hr. specialize (Hr s Es).
  assert (balance (restore_balance (node_id initial) initial (stored (ledger w))) = balance s) as Hb.
  { rewrite Es. unfold restore_balance. rewrite bool_decide_true by done.
    unfold backfill_historical_refunds. by case_if. }
  split; [split; cbn [restart entries tree ledger mem stored]|].
  - intros id e He. apply map_lookup_filter_Some in He as [Ht Hp]. cbn in Hp.
    apply (c_entries w Hc). by apply (c_tree w Hc).
  - intros id e Ht Hp. by apply map_lookup_filter_Some.
  - exists s. by rewrite Hb.
  - rewrite Hb, Eb. apply (c_range w Hc).
  - unfold credits, pending_total. cbn [restart entries ledger mem]. rewrite Hb, Eb.
    enough (pending_sum (manager_entries (tree w)) <= pending_sum (entries w)) by lia.
    apply pending_sum_mono.
    + intros id e He Hp. apply map_lookup_filter_Some in He as [Ht _]. by apply (c_tree w Hc).
    + intros id e He. pose proof (c_entries w Hc id e He). lia.
Qed.

Lemma perform_keeps w ev :
  consistent w -> room w ev -> consistent (perform w ev) /\ credits (perform w ev) <= credits w.
Proof.
  intros Hc Hr. destruct ev; cbn [perform].
  - destruct (create_keeps w id request_id amount from now ok_balance ok_entry Hc Hr) as (? & ? & _). done.
  - destruct (release_keeps w id to_node actual_cost now ok_entry ok_balance Hc Hr) as (? & ? & _). done.
  - destruct (refund_keeps w id now ok_entry ok_balance Hc Hr) as (? & ? & _). done.
  - by apply cleanup_keeps.
  - by apply restart_keeps.
Qed.

(** ** The theorems *)

Fixpoint rooms (w : World) (evs : list Event) : Prop :=
  match evs with [] => True | ev :: evs => room w ev /\ rooms (perform w ev) evs end.
Definition run (w : World) (evs : list Event) : World := foldl perform w evs.

(** C37: escrow never mints credits.  Over any sequence of reservations, releases,
    refunds, expiry sweeps and restarts, with any of their writes failing, what
    the node has (its balance plus what escrow holds) never grows. *)
Theorem escrow_never_mints w evs :
  consistent w -> rooms w evs -> consistent (run w evs) /\ credits (run w evs) <= credits w.
Proof.
  revert w. induction evs as [|ev evs IH]; intros w Hc Hr; [done |]. destruct Hr as [Hr Hrs].
  destruct (perform_keeps w ev Hc Hr) as [Hc' Hle]. cbn. destruct (IH _ Hc' Hrs) as [? ?].
  split; [done |]. change (foldl perform (perform w ev) evs) with (run (perform w ev) evs). lia.
Qed.

Definition start_balance : CreditBalance := {|
  node_id := [1]; balance := 500; lifetime_earned := 500; lifetime_spent := 0;
  lifetime_refunded := 0; last_updated := 0 |}.
Definition start_world : World := {|
  entries := ∅; tree := ∅; ledger := {| mem := start_balance; stored := Some start_balance; log := [] |} |}.

Lemma start_consistent : consistent start_world.
Proof.
  split; cbn; [intros id e; by rewrite lookup_empty | intros id e; by rewrite lookup_empty | by eexists | ints].
Qed.

Lemma escrow_never_mints_witness :
  credits (run start_world [EvCreate 7 70 300 [1] 0 true true; EvRestart start_balance;
    EvRelease 7 [2] 40 5 false true; EvRelease 7 [2] 40 6 true true]) <= 500.
Proof.
  apply (escrow_never_mints start_world); [apply start_consistent |].
  repeat split; try (by vm_compute); cbn; intros; simplify_eq; done.
Defined.

(** one request's life.  Reserving [amount] and settling at [cost] costs the
    requester exactly [max cost 0], and after that every further settlement of
    the same escrow, also after a restart, is refused as already settled and
    changes nothing. *)
Theorem escrow_settles_once w id rid amount from now to_node cost now' to2 cost2 o1 o2 :
  consistent w -> 0 < amount -> room w (EvCreate id rid amount from now true true) ->
  is_i64 (balance (mem (ledger w)) - amount + (amount - Z.max cost 0)) ->
  let '(w1, created) := create_escrow w id rid amount from now true true in
  let '(w2, released) := release_escrow w1 id to_node cost now' true true in
  created = Ok id /\ released = Ok (Z.max cost 0) /\ credits w2 = credits w - Z.max cost 0 /\
  (exists e, release_escrow w2 id to2 cost2 now' o1 o2 = (w2, Err e) /\ already_settled e = true) /\
  (exists e, refund_escrow w2 id now' o1 o2 = (w2, Err e) /\ already_settled e = true) /\
  (forall initial, exists e,
    refund_escrow (restart w2 initial) id now' o1 o2 = (restart w2 initial, Err e) /\ already_settled e = true).
Proof.
  intros Hc Hpos Hroom Hr.
  destruct (create_keeps w id rid amount from now true true Hc Hroom) as (Hc1 & _ & Hcr).
  destruct (create_escrow w id rid amount from now true true) as [w1 r1] eqn:E1. cbn [fst] in *.
  assert (r1 = Ok id /\ exists e, entries w1 !! id = Some e /\ e_amount e = amount /\
    balance (mem (ledger w1)) = balance (mem (ledger w)) - amount) as (-> & e & Ee & Ea & Eb).
  { unfold create_escrow in E1. rewrite (proj2 (Z.leb_gt _ _)) in E1 by done. cbn -[i64_saturating_add] in E1.
    injection E1 as <- <-. split; [done |]. eexists. cbn. rewrite lookup_insert_eq. split_and!; [done | done |].
    destruct Hroom as (_ & _ & ?). pose proof (c_range w Hc). ints. }
  assert (room w1 (EvRelease id to_node cost now' true true)) as Hroom1.
  { cbn. rewrite Ee. cbn. by rewrite Ea, Eb. }
  destruct (release_keeps w1 id to_node cost now' true true Hc1 Hroom1) as (Hc2 & _ & _ & Hex).
  destruct (release_escrow w1 id to_node cost now' true true) as [w2 r2] eqn:E2. cbn [fst] in *.
  unfold release_escrow, claim in E2. rewrite Ee in E2.
  destruct (c_entries w1 Hc1 id e Ee) as (Hp & _). rewrite decide_True in E2 by done.
  injection E2 as Ew2 <-.
  assert (entries w2 !! id = None) as En2 by (rewrite <- Ew2; apply lookup_delete_eq).
  assert (claim w2 id = Err (CreditError ERR_NOT_FOUND)) as Hcl by (unfold claim; by rewrite En2).
  split_and!; [done | done | rewrite Hex by eauto; rewrite Hcr by done; done | | |].
  - exists (CreditError ERR_NOT_FOUND). unfold release_escrow. by rewrite Hcl.
  - exists (CreditError ERR_NOT_FOUND). unfold refund_escrow. by rewrite Hcl.
  - intros initial. exists (CreditError ERR_NOT_FOUND). unfold refund_escrow, claim.
    assert (entries (restart w2 initial) !! id = None) as ->; [|done].
    cbn. apply map_lookup_filter_None. right. intros f Hf. rewrite <- Ew2 in Hf. cbn in Hf.
    rewrite lookup_insert_eq in Hf. injection Hf as <-. done.
Qed.

Lemma escrow_settles_once_witness :
  let '(w1, created) := create_escrow start_world 7 70 300 [1] 0 true true in
  let '(w2, released) := release_escrow w1 7 [2] 40 5 true true in credits w2 = 460.
Proof.
  pose proof (escrow_settles_once start_world 7 70 300 [1] 0 [2] 40 5 [3] 10 true true start_consistent
    ltac:(done) ltac:(repeat split; by vm_compute) ltac:(by vm_compute)) as H.
  destruct (create_escrow start_world 7 70 300 [1] 0 true true) as [w1 c].
  destruct (release_escrow w1 7 [2] 40 5 true true) as [w2 r].
  destruct H as (_ & _ & H & _). by rewrite H.
Defined.

(** a settlement that cannot be written down has not happened: when the status
    write fails, release and refund return an error and leave memory, disk and
    balance exactly as they were, so the settlement can be retried. *)
Theorem failed_settlement_changes_nothing w id to_node cost now ok :
  consistent w -> is_Some (entries w !! id) ->
  release_escrow w id to_node cost now false ok = (w, Err (Database "Failed to persist escrow release")) /\
  refund_escrow w id now false ok = (w, Err (Database "Failed to persist escrow refund")).
Proof.
  intros Hc [e E]. destruct (c_entries w Hc id e E) as (Hp & _).
  unfold release_escrow, refund_escrow, claim. rewrite E, decide_True by done.
  by rewrite put_back, insert_id, same_world.
Qed.

Definition held_world : World := fst (create_escrow start_world 7 70 300 [1] 0 true true).

Lemma held_consistent : consistent held_world.
Proof. apply (create_keeps start_world 7 70 300 [1] 0 true true start_consistent). repeat split; by vm_compute. Qed.

Lemma failed_settlement_changes_nothing_witness :
  refund_escrow held_world 7 5 false true = (held_world, Err (Database "Failed to persist escrow refund")).
Proof.
  apply (failed_settlement_changes_nothing held_world 7 [2] 0 5 true held_consistent). by eexists.
Defined.

(** the expiry sweep breaks the books.  It returns the reservation to the
    balance without counting a refund, so from books that close the sweep of one
    expired escrow leaves books that are off by exactly its amount. *)
Theorem expiry_breaks_books w id e now writes :
  consistent w -> entries w = {[ id := e ]} -> ESCROW_TTL < now - e_created_at e ->
  (forall i, writes i = (true, true, true)) ->
  is_i64 (balance (mem (ledger w)) + e_amount e) ->
  books_balance (mem (ledger w)) = true ->
  let w' := fst (cleanup_expired w now writes) in
  gap (mem (ledger w')) = e_amount e /\ books_balance (mem (ledger w')) = false.
Proof.
  intros Hc Ee Httl Hw Hr Hb.
  destruct (c_entries w Hc id e ltac:(by rewrite Ee, lookup_singleton_eq)) as (Hp & Hpos & Hid).
  assert (expired_ids w now = [id]) as Ex.
  { unfold expired_ids. rewrite Ee, map_to_list_singleton, filter_cons_True by done. cbn. by rewrite Hid. }
  unfold cleanup_expired. rewrite Ex. cbn [foldl]. unfold cleanup_one. rewrite Hw, Ee, lookup_singleton_eq.
  rewrite decide_True by done. cbn [negb fst ledger mem]. rewrite books_gap in Hb. rewrite books_gap.
  unfold gap in *. cbn. pose proof (c_range w Hc). ints.
Qed.

Lemma expiry_breaks_books_witness :
  books_balance (mem (ledger (fst (cleanup_expired held_world (700 * NANOS) (fun _ => (true, true, true)))))) = false.
Proof.
  eapply (expiry_breaks_books held_world 7); [apply held_consistent | by vm_compute | by vm_compute | done | by vm_compute | by vm_compute].
Defined.
