(* ===== verification/EscrowRace.v ===== *)
(** * Concurrent settlement of one escrow ([src/credit/escrow.rs])

    [release_escrow], [refund_escrow] and [cleanup_expired] run concurrently: each
    holds the map's lock only while it claims the entry, and drops it before its
    disk and balance writes.  Here every stretch between two locks is one step,
    the steps of all callers interleave freely, and any write may fail.  The
    status field is what keeps two callers from paying the same escrow. *)
From S2P Require Import Prelude CreditLedger Escrow.

(** Where a caller is between its locked sections. *)
Inductive Task : Type :=
| Settling (id : Z) (previous_to : option NodeId)  (** release or refund: claimed, status not yet written *)
| Crediting (id : Z)                               (** written and removed from the map, balance not yet changed *)
| Expiring (id : Z)                                (** sweep: claimed and written, balance not yet changed *)
| Removing (id : Z).                               (** sweep: balance changed, entry still in the map *)

Record RState : Type := {
  r_map : gmap Z EscrowEntry; r_tasks : list Task; r_paid : list Z; r_used : gset Z }.

Definition restore_pending (m : gmap Z EscrowEntry) (id : Z) (to : EscrowEntry -> option NodeId)
  : gmap Z EscrowEntry :=
  match m !! id with Some e => <[id := set_status Pending (to e) e]> m | None => m end.

Inductive rstep : RState -> RState -> Prop :=
| r_create m ts p u id e : id ∉ u -> e_status e = Pending ->
    rstep {| r_map := m; r_tasks := ts; r_paid := p; r_used := u |}
          {| r_map := <[id := e]> m; r_tasks := ts; r_paid := p; r_used := {[ id ]} ∪ u |}
| r_claim m ts p u id e s to : m !! id = Some e -> e_status e = Pending -> s = Released \/ s = Refunded ->
    rstep {| r_map := m; r_tasks := ts; r_paid := p; r_used := u |}
          {| r_map := <[id := set_status s to e]> m; r_tasks := Settling id (e_to e) :: ts; r_paid := p; r_used := u |}
| r_write_fails m ts1 ts2 p u id to :
    rstep {| r_map := m; r_tasks := ts1 ++ Settling id to :: ts2; r_paid := p; r_used := u |}
          {| r_map := restore_pending m id (fun _ => to); r_tasks := ts1 ++ ts2; r_paid := p; r_used := u |}
| r_write_ok m ts1 ts2 p u id to :
    rstep {| r_map := m; r_tasks := ts1 ++ Settling id to :: ts2; r_paid := p; r_used := u |}
          {| r_map := delete id m; r_tasks := ts1 ++ Crediting id :: ts2; r_paid := p; r_used := u |}
| r_credit m ts1 ts2 p u id :
    rstep {| r_map := m; r_tasks := ts1 ++ Crediting id :: ts2; r_paid := p; r_used := u |}
          {| r_map := m; r_tasks := ts1 ++ ts2; r_paid := id :: p; r_used := u |}
| r_expire m ts p u id e : m !! id = Some e -> e_status e = Pending ->
    rstep {| r_map := m; r_tasks := ts; r_paid := p; r_used := u |}
          {| r_map := <[id := set_status Expired (e_to e) e]> m; r_tasks := Expiring id :: ts; r_paid := p; r_used := u |}
| r_expire_credit m ts1 ts2 p u id :
    rstep {| r_map := m; r_tasks := ts1 ++ Expiring id :: ts2; r_paid := p; r_used := u |}
          {| r_map := m; r_tasks := ts1 ++ Removing id :: ts2; r_paid := id :: p; r_used := u |}
| r_expire_fails m ts1 ts2 p u id :
    rstep {| r_map := m; r_tasks := ts1 ++ Expiring id :: ts2; r_paid := p; r_used := u |}
          {| r_map := restore_pending m id e_to; r_tasks := ts1 ++ ts2; r_paid := p; r_used := u |}
| r_remove m ts1 ts2 p u id :
    rstep {| r_map := m; r_tasks := ts1 ++ Removing id :: ts2; r_paid := p; r_used := u |}
          {| r_map := delete id m; r_tasks := ts1 ++ ts2; r_paid := p; r_used := u |}.

Definition r_init : RState := {| r_map := ∅; r_tasks := []; r_paid := []; r_used := ∅ |}.

(** ** One token per escrow *)

(** The right to pay [id] is held by its pending entry, by one task, or spent. *)
Definition holds (id : Z) (t : Task) : nat :=
  match t with
  | Settling j _ | Crediting j | Expiring j => if decide (j = id) then 1 else 0
  | Removing _ => 0
  end%nat.
Definition in_map (id : Z) (m : gmap Z EscrowEntry) : nat :=
  match m !! id with Some e => if decide (e_status e = Pending) then 1 else 0 | None => 0 end%nat.
Definition in_tasks (id : Z) (ts : list Task) : nat := foldr (fun t n => (holds id t + n)%nat) 0%nat ts.
Definition in_paid (id : Z) (p : list Z) : nat :=
  foldr (fun j n => ((if decide (j = id) then 1 else 0) + n)%nat) 0%nat p.
Definition token (id : Z) (s : RState) : nat :=
  (in_map id (r_map s) + in_tasks id (r_tasks s) + in_paid id (r_paid s))%nat.

Definition race_inv (s : RState) : Prop :=
  forall id, (token id s <= 1)%nat /\ (id ∉ r_used s -> token id s = 0%nat).

Lemma in_tasks_app id a b : in_tasks id (a ++ b) = (in_tasks id a + in_tasks id b)%nat.
Proof. unfold in_tasks. induction a as [|t a IH]; cbn; [done | lia]. Qed.

Lemma in_map_insert id j e m :
  in_map id (<[j := e]> m) =
  if decide (j = id) then (if decide (e_status e = Pending) then 1 else 0)%nat else in_map id m.
Proof.
  unfold in_map. destruct (decide (j = id)) as [->|]; [by rewrite lookup_insert_eq | by rewrite lookup_insert_ne].
Qed.

Lemma in_map_delete id j m : (in_map id (delete j m) <= in_map id m)%nat.
Proof.
  unfold in_map. destruct (decide (j = id)) as [->|]; [rewrite lookup_delete_eq; lia | by rewrite lookup_delete_ne].
Qed.

Lemma in_map_restore id j to m :
  (in_map id (restore_pending m j to) <= in_map id m + (if decide (j = id) then 1 else 0))%nat.
Proof.
  unfold restore_pending. destruct (m !! j) eqn:E; [|lia]. rewrite in_map_insert. cbn.
  destruct (decide (j = id)); [|lia]. destruct (decide (Pending = Pending)); lia.
Qed.

Lemma in_map_pending id m e : m !! id = Some e -> e_status e = Pending -> in_map id m = 1%nat.
Proof. intros E Hp. unfold in_map. by rewrite E, decide_True. Qed.

Lemma race_step s s' : race_inv s -> rstep s s' -> race_inv s'.
Proof.
  intros Hinv Hs id. specialize (Hinv id) as [Hle Hfresh]. unfold token in *.
  destruct Hs; cbn [r_map r_tasks r_paid r_used] in *; rewrite ?in_tasks_app in *; cbn [in_tasks foldr holds in_paid] in *;
    rewrite ?in_map_insert in *; cbn [e_status set_status] in *.
  - rewrite (decide_True (P := e_status e = Pending)) by done. destruct (decide (id0 = id)) as [->|].
    + specialize (Hfresh ltac:(done)). split; [lia | set_solver].
    + split; [done |]. intros Hn. apply Hfresh. set_solver.
  - destruct (decide (id0 = id)) as [->|]; [|by split].
    rewrite (in_map_pending id m e) in * by done. rewrite decide_False by (destruct H1; congruence).
    fold (in_tasks id ts) in *. split; [lia |]. intros Hn. specialize (Hfresh Hn). lia.
  - pose proof (in_map_restore id id0 (fun _ => to) m). fold (in_tasks id ts2) in *. split; [lia |].
    intros Hn. specialize (Hfresh Hn). lia.
  - pose proof (in_map_delete id id0 m). fold (in_tasks id ts2) in *. split; [lia |]. intros Hn. specialize (Hfresh Hn). lia.
  - fold (in_tasks id ts2) (in_paid id p) in *. split; [lia |]. intros Hn. specialize (Hfresh Hn). lia.
  - destruct (decide (id0 = id)) as [->|]; [|by split].
    rewrite (in_map_pending id m e) in * by done. rewrite decide_False by done.
    fold (in_tasks id ts) in *. split; [lia |]. intros Hn. specialize (Hfresh Hn). lia.
  - fold (in_tasks id ts2) (in_paid id p) in *. split; [lia |]. intros Hn. specialize (Hfresh Hn). lia.
  - pose proof (in_map_restore id id0 e_to m). fold (in_tasks id ts2) in *. split; [lia |].
    intros Hn. specialize (Hfresh Hn). lia.
  - pose proof (in_map_delete id id0 m). fold (in_tasks id ts2) in *. split; [lia |]. intros Hn. specialize (Hfresh Hn). lia.
Qed.

Lemma in_paid_pos id p : id ∈ p -> (1 <= in_paid id p)%nat.
Proof.
  unfold in_paid. induction p as [|j p IH]; [by intros ?%not_elem_of_nil |]. intros [->|H]%elem_of_cons; cbn.
  - rewrite decide_True by done. lia.
  - specialize (IH H). lia.
Qed.

Lemma in_paid_nodup p : (forall id, (in_paid id p <= 1)%nat) -> NoDup p.
Proof.
  induction p as [|j p IH]; intros H; [constructor |]. constructor.
  - intros Hin%in_paid_pos. specialize (H j). unfold in_paid in *. cbn in H. rewrite decide_True in H by done. lia.
  - apply IH. intros id. specialize (H id). unfold in_paid in *. cbn in H. lia.
Qed.

Lemma race_reachable s : rtc rstep r_init s -> race_inv s.
Proof.
  intros H. assert (race_inv r_init) as H0 by (intros id; unfold token, in_map; cbn; rewrite lookup_empty; split; [lia | done]).
  revert H0. induction H as [|s1 s2 s3 Hs _ IH]; [done |]. intros Hi. apply IH. by eapply race_step.
Qed.

(** C38: no interleaving pays an escrow twice.  However release, refund and expiry
    sweeps of the same or different escrows overlap, and whichever of their
    writes fail and are retried, each escrow's reservation is paid out at most
    once. *)
Theorem escrow_paid_once s : rtc rstep r_init s -> NoDup (r_paid s).
Proof.
  intros H%race_reachable. apply in_paid_nodup. intros id. destruct (H id) as [Hle _]. unfold token in Hle. lia.
Qed.

Definition race_entry : EscrowEntry := {|
  e_id := 1; e_request_id := 2; e_amount := 30; e_from := [1]; e_to := None; e_created_at := 0;
  e_status := Pending |}.

Lemma escrow_paid_once_witness :
  NoDup (r_paid {| r_map := delete 1 (<[1 := set_status Refunded None race_entry]> (<[1 := race_entry]> ∅));
                   r_tasks := []; r_paid := [1]; r_used := {[ 1 ]} ∪ ∅ |}).
Proof.
  apply escrow_paid_once.
  eapply rtc_l; [apply (r_create ∅ [] [] ∅ 1 race_entry); [set_solver | done] |].
  eapply rtc_l; [apply (r_claim _ [] [] _ 1 race_entry Refunded None); [by vm_compute | done | by right] |].
  eapply rtc_l; [apply (r_write_ok _ [] [] [] _ 1 None) |].
  eapply rtc_l; [apply (r_credit _ [] [] [] _ 1) |]. apply rtc_refl.
Defined.
