(* ===== verification/DraftTree.v ===== *)
(** * Trees of guesses ([src/inference/draft_tree.rs])

    A check carries a tree of guessed tokens, laid out as rows: each row names an
    earlier row as its parent, or none.  [DraftTree] is that shape; [RowVisibility]
    the packed bits that say which keys a row reads.  Row numbers and cache
    positions ([usize]) are nat; a parent is a [u16], whose casts are [as_u16].
    A tree indexes its own rows only inside their range (they come with the
    invariant [tree_ok]), so those lookups are total; a row number or a vector
    that comes from outside is looked up with the panic written out. *)
From S2P Require Import Prelude Bytes ForwardTypes ForwardCodec.

Definition VISIBILITY_WORDS : nat := 16.

(** [n as u16]. *)
Definition as_u16 (n : nat) : nat := Z.to_nat (Z.of_nat n mod 65536).

Definition at_index {E A} (l : list A) (i : nat) : call E A :=
  match l !! i with Some a => Ok a | None => Panic end.

(** ** What a row reads *)

Record RowVisibility : Type := { rv_base : nat; rv_kv_len : nat; rv_words : list Z }.

Definition rv_rows (v : RowVisibility) : nat := (length (rv_words v) / VISIBILITY_WORDS)%nat.

Definition sees (v : RowVisibility) (q key : nat) : call string bool :=
  if (key <? rv_base v)%nat then Ok true
  else
    let j := (key - rv_base v)%nat in
    w ← at_index (rv_words v) (q * VISIBILITY_WORDS + j / 32)%nat;
    Ok (Z.land (Z.shiftr w (Z.of_nat (j mod 32))) 1 =? 1).

Definition NEG_INFINITY : Z := 0xFF800000.

(** [mask]: the additive mask as f32 bit patterns, row after row. *)
Definition mask (v : RowVisibility) : call string (list Z) :=
  rows ← mapM (fun q => mapM (fun key => s ← sees v q key; Ok (if (s : bool) then F32.zero else NEG_INFINITY))
                          (seq 0 (rv_kv_len v)))
           (seq 0 (rv_rows v));
  Ok (concat rows).

(** ** The tree *)

Record DraftTree : Type := {
  dt_base : nat; dt_parents : list (option nat); dt_depths : list nat }.

Definition dt_len (t : DraftTree) : nat := length (dt_parents t).
Definition parent (t : DraftTree) (row : nat) : option nat := mjoin (dt_parents t !! row).
Definition depth (t : DraftTree) (row : nat) : nat := dt_depths t !!! row.

Definition parent_error {A} (row p : nat) : call string A :=
  Err ("row " +:+ pretty row +:+ " of a tree names row " +:+ pretty p +:+ " as its parent").

(** The loop of [new]: row [i]'s depth from the depths before it. *)
Fixpoint depths_of (i : nat) (parents : list (option nat)) (depths : list nat) : call string (list nat) :=
  match parents with
  | [] => Ok depths
  | par :: parents =>
      d ← match par with
          | None => Ok 0%nat
          | Some p => if (p <? i)%nat then d ← at_index depths p; Ok (d + 1)%nat else parent_error i p
          end;
      depths_of (S i) parents (depths ++ [d])
  end.

Definition tree_new (base : nat) (parents : list (option nat)) : call string DraftTree :=
  if (base =? 0)%nat then Err "a tree of guesses must follow at least one position"
  else if MAX_TREE_ROWS <? blen parents
  then Err ("a tree of " +:+ pretty (length parents) +:+ " rows is past the " +:+ pretty MAX_TREE_ROWS
            +:+ " one check may hold")
  else
    depths ← depths_of 0 parents [];
    Ok {| dt_base := base; dt_parents := parents; dt_depths := depths |}.

(** [w.checked_sub(1)]. *)
Definition parent_of_wire (w : Z) : option nat := if w =? 0 then None else Some (Z.to_nat (w - 1)).

Definition from_wire (base : nat) (wire : list Z) : call string DraftTree :=
  tree_new base (map parent_of_wire wire).

Definition wire_of_parent (p : option nat) : Z :=
  match p with None => 0 | Some p => (Z.of_nat p + 1) mod 65536 end.
Definition to_wire (t : DraftTree) : list Z := map wire_of_parent (dt_parents t).

(** [DraftTree::push]: the tree and the new row's number. *)
Definition tree_push (t : DraftTree) (par : option nat) : call string (DraftTree * nat) :=
  let row := dt_len t in
  if MAX_TREE_ROWS <=? Z.of_nat row then Err ("a tree may hold " +:+ pretty MAX_TREE_ROWS +:+ " rows")
  else
    d ← match par with
        | None => Ok 0%nat
        | Some p => if (p <? row)%nat then d ← at_index (dt_depths t) p; Ok (d + 1)%nat else parent_error row p
        end;
    Ok ({| dt_base := dt_base t; dt_parents := dt_parents t ++ [as_u16 <$> par];
           dt_depths := dt_depths t ++ [d] |}, row).

Definition is_chain (t : DraftTree) : bool :=
  forallb (fun i => bool_decide (parent t i = match i with O => None | S q => Some (as_u16 q) end))
    (seq 0 (dt_len t)).

(** [ancestors_and_self]: [successors(Some(row), parent)].  A parent is an earlier
    row, so [row] steps are enough ([ancestors_step]). *)
Fixpoint climb_from (t : DraftTree) (fuel row : nat) : list nat :=
  row :: match parent t row, fuel with
         | Some p, S fuel => climb_from t fuel p
         | _, _ => []
         end.
Definition ancestors_and_self (t : DraftTree) (row : nat) : list nat := climb_from t row row.

(** [line[seen / 32] |= 1 << (seen % 32)]. *)
Definition set_seen (line : list Z) (seen : nat) : list Z :=
  alter (fun w => Z.lor w (Z.shiftl 1 (Z.of_nat (seen mod 32)))) (seen / 32)%nat line.
Definition visibility_line (t : DraftTree) (row : nat) : list Z :=
  fold_left set_seen (ancestors_and_self t row) (replicate VISIBILITY_WORDS 0).

(** The positions, as [u32], and the visibility of the tree's last [seq_len] rows. *)
Definition rows_for (t : DraftTree) (kv_offset seq_len : nat) : call string (list Z * RowVisibility) :=
  if (kv_offset <? dt_base t)%nat
  then Err ("a tree from position " +:+ pretty (dt_base t) +:+ " read after only " +:+ pretty kv_offset
            +:+ " cached positions")
  else
    let before := (kv_offset - dt_base t)%nat in
    if negb (before + seq_len =? dt_len t)%nat
    then Err ("a forward of " +:+ pretty seq_len +:+ " rows after " +:+ pretty before +:+ " of a tree of "
              +:+ pretty (dt_len t) +:+ " rows")
    else
      let rows := seq before seq_len in
      Ok (map (fun row => Z.of_nat (dt_base t + depth t row) mod 4294967296) rows,
          {| rv_base := dt_base t; rv_kv_len := (kv_offset + seq_len)%nat;
             rv_words := concat (map (visibility_line t) rows) |}).

(** [children(row)], in row order. *)
Definition children (t : DraftTree) (row : option nat) : list nat :=
  filter (fun i => dt_parents t !! i = Some (as_u16 <$> row)) (seq 0 (dt_len t)).

(** ** The invariant *)

(** A row's parent comes before it, and its depth is one more. *)
Definition row_ok (parents : list (option nat)) (depths : list nat) (i : nat) : Prop :=
  match parents !! i with
  | Some (Some p) => (p < i)%nat /\ depths !!! i = S (depths !!! p)
  | Some None => depths !!! i = O
  | None => True
  end.

Record tree_ok (t : DraftTree) : Prop := {
  ok_base : (0 < dt_base t)%nat;
  ok_len : Z.of_nat (dt_len t) <= MAX_TREE_ROWS;
  ok_depths : length (dt_depths t) = dt_len t;
  ok_rows : forall i, row_ok (dt_parents t) (dt_depths t) i }.

(** Every parent is an earlier row. *)
Definition parents_before (parents : list (option nat)) : Prop :=
  forall i p, parents !! i = Some (Some p) -> (p < i)%nat.

Lemma as_u16_small n : Z.of_nat n < 65536 -> as_u16 n = n.
Proof. intros. unfold as_u16. rewrite Z.mod_small by lia. lia. Qed.

Lemma row_ok_snoc parents depths i x d :
  length depths = length parents -> (i < length parents)%nat ->
  row_ok parents depths i -> row_ok (parents ++ [x]) (depths ++ [d]) i.
Proof.
  intros Hl Hi. unfold row_ok. rewrite lookup_app_l by done.
  destruct (parents !! i) as [[p|]|] eqn:E; [|by rewrite lookup_total_app_l by lia|done].
  intros [Hp Hd]. rewrite !lookup_total_app_l by lia. done.
Qed.

(** Appending one row keeps the invariant, when the depth is the right one. *)
Definition depth_after (depths : list nat) (par : option nat) : nat :=
  match par with None => O | Some p => S (depths !!! p) end.

Lemma rows_ok_snoc parents depths par :
  length depths = length parents -> (forall p, par = Some p -> p < length parents)%nat ->
  (forall i, row_ok parents depths i) ->
  forall i, row_ok (parents ++ [par]) (depths ++ [depth_after depths par]) i.
Proof.
  intros Hl Hp Hok i. destruct (lt_eq_lt_dec i (length parents)) as [[Hi| ->]|Hi].
  - by apply row_ok_snoc.
  - unfold row_ok. rewrite list_lookup_middle by done. destruct par as [p|]; cbn.
    + specialize (Hp p eq_refl). rewrite lookup_total_app_r, (lookup_total_app_l _ _ p) by lia.
      by rewrite Hl, Nat.sub_diag.
    + rewrite lookup_total_app_r by lia. by rewrite Hl, Nat.sub_diag.
  - unfold row_ok. rewrite lookup_ge_None_2; [done | rewrite length_app; cbn; lia].
Qed.

Lemma at_index_total {E A} `{!Inhabited A} (l : list A) i :
  (i < length l)%nat -> at_index (E := E) l i = Ok (l !!! i).
Proof. intros Hi. unfold at_index. by rewrite list_lookup_lookup_total_lt. Qed.

Lemma depths_of_ok parents : forall done depths,
  length depths = length done -> (forall i, row_ok done depths i) ->
  match depths_of (length done) parents depths with
  | Ok ds => length ds = length (done ++ parents) /\ (forall i, row_ok (done ++ parents) ds i)
  | Err _ => ~ parents_before (done ++ parents)
  | Panic => False
  end.
Proof.
  induction parents as [|par parents IH]; intros dn depths Hl Hok; cbn [depths_of].
  { by rewrite app_nil_r. }
  assert (Hnext : (forall p, par = Some p -> p < length dn)%nat ->
    match depths_of (S (length dn)) parents (depths ++ [depth_after depths par]) with
    | Ok ds => length ds = length (dn ++ par :: parents) /\ (forall i, row_ok (dn ++ par :: parents) ds i)
    | Err _ => ~ parents_before (dn ++ par :: parents)
    | Panic => False
    end).
  { intros Hp. specialize (IH (dn ++ [par]) (depths ++ [depth_after depths par])).
    replace (length (dn ++ [par])) with (S (length dn)) in IH by (rewrite length_app; cbn; lia).
    rewrite <- app_assoc in IH. cbn [app] in IH.
    apply IH; [rewrite length_app; cbn; lia | by apply rows_ok_snoc]. }
  destruct par as [p|]; cbn [mbind outcome_bind].
  - destruct (Nat.ltb_spec p (length dn)) as [Hp|Hp].
    + rewrite at_index_total by lia. cbn [mbind outcome_bind]. rewrite Nat.add_1_r.
      apply Hnext. intros ? [= <-]. done.
    + cbn. intros Hb. specialize (Hb (length dn) p). rewrite list_lookup_middle in Hb by done.
      specialize (Hb eq_refl). lia.
  - apply Hnext. done.
Qed.

(** [new] accepts exactly the trees a cache written in row order can hold. *)
Lemma tree_new_spec base parents :
  match tree_new base parents with
  | Ok t => tree_ok t /\ dt_base t = base /\ dt_parents t = parents
  | Err _ => base = O \/ MAX_TREE_ROWS < blen parents \/ ~ parents_before parents
  | Panic => False
  end.
Proof.
  unfold tree_new. destruct (Nat.eqb_spec base 0); [by left |].
  destruct (Z.ltb_spec MAX_TREE_ROWS (blen parents)); [by right; left |].
  pose proof (depths_of_ok parents [] [] eq_refl) as Hd. cbn [app length] in Hd.
  destruct (depths_of 0 parents []) as [ds|e|]; cbn [mbind outcome_bind].
  - destruct Hd as [Hl Hok]; [intros i; by unfold row_ok; rewrite lookup_nil |].
    split_and!; [|done|done]. constructor; cbn; [lia | done | done | done].
  - right; right. apply Hd. intros i. unfold row_ok. by rewrite lookup_nil.
  - apply Hd. intros i. unfold row_ok. by rewrite lookup_nil.
Qed.

Lemma tree_new_ok base parents :
  (0 < base)%nat -> blen parents <= MAX_TREE_ROWS -> parents_before parents ->
  exists t, tree_new base parents = Ok t /\ tree_ok t /\ dt_base t = base /\ dt_parents t = parents.
Proof.
  intros Hb Hl Hp. pose proof (tree_new_spec base parents) as H.
  destruct (tree_new base parents) as [t|e|]; [|destruct H as [?|[?|?]]; [lia | lia | done] | done].
  eauto.
Qed.

Lemma tree_ok_before t : tree_ok t -> parents_before (dt_parents t).
Proof. intros H i p Hi. pose proof (ok_rows t H i) as Hr. unfold row_ok in Hr. rewrite Hi in Hr. by destruct Hr. Qed.

Lemma parent_lookup t r p : parent t r = Some p <-> dt_parents t !! r = Some (Some p).
Proof. unfold parent. destruct (dt_parents t !! r) as [[q|]|]; cbn; split; congruence. Qed.

Lemma parent_spec t r p :
  tree_ok t -> parent t r = Some p -> (p < r)%nat /\ (r < dt_len t)%nat /\ depth t r = S (depth t p).
Proof.
  intros Ht Hp. apply parent_lookup in Hp. pose proof (ok_rows t Ht r) as Hr. unfold row_ok in Hr.
  rewrite Hp in Hr. split_and!; [apply Hr | by apply lookup_lt_Some in Hp | apply Hr].
Qed.

Lemma root_depth t r : tree_ok t -> (r < dt_len t)%nat -> parent t r = None -> depth t r = O.
Proof.
  intros Ht Hr Hp. pose proof (ok_rows t Ht r) as H. unfold row_ok in H. unfold parent in Hp.
  destruct (lookup_lt_is_Some_2 (dt_parents t) r Hr) as [x E]. rewrite E in H, Hp. by destruct x.
Qed.

(** A depth is what determines the invariant: two trees with the same base and
    parents are one. *)
Lemma tree_ok_ext t t' :
  tree_ok t -> tree_ok t' -> dt_base t = dt_base t' -> dt_parents t = dt_parents t' -> t = t'.
Proof.
  intros Ht Ht' Eb Ep. destruct t as [b ps ds], t' as [b' ps' ds']. cbn in *. subst b' ps'. f_equal.
  pose proof (ok_depths _ Ht) as Hl. pose proof (ok_depths _ Ht') as Hl'. unfold dt_len in *. cbn in *.
  assert (Hd : forall n i, (i < n)%nat -> (i < length ps)%nat -> ds !!! i = ds' !!! i).
  { induction n as [|n IH]; intros i Hn Hi; [lia |].
    pose proof (ok_rows _ Ht i) as Hr. pose proof (ok_rows _ Ht' i) as Hr'. unfold row_ok in *. cbn in *.
    destruct (lookup_lt_is_Some_2 ps i Hi) as [x E]. rewrite E in Hr, Hr'.
    destruct x as [p|]; [|congruence]. destruct Hr as [Hp ->], Hr' as [_ ->]. f_equal. apply IH; lia. }
  apply list_eq_same_length with (n := length ps); [done | done |].
  intros i x y Hi Hx Hy. rewrite <- (list_lookup_total_correct _ _ _ Hx), <- (list_lookup_total_correct _ _ _ Hy).
  by apply (Hd (S i)); [lia |].
Qed.

(** ** Ancestors *)

Lemma climb_enough t fuel row : tree_ok t -> (row <= fuel)%nat -> climb_from t fuel row = climb_from t row row.
Proof.
  intros Ht. revert row. induction (lt_wf fuel) as [fuel _ IH]. intros row Hle.
  destruct (parent t row) as [p|] eqn:E.
  - destruct (parent_spec t row p Ht E) as (Hp & _). destruct fuel as [|fuel], row as [|row]; try lia.
    cbn [climb_from]. rewrite E. f_equal. rewrite (IH fuel), <- (IH row) by lia. done.
  - destruct fuel, row; cbn [climb_from]; by rewrite E.
Qed.

Lemma ancestors_step t row :
  tree_ok t ->
  ancestors_and_self t row = row :: match parent t row with Some p => ancestors_and_self t p | None => [] end.
Proof.
  intros Ht. unfold ancestors_and_self. destruct (parent t row) as [p|] eqn:E.
  - destruct (parent_spec t row p Ht E) as (Hp & _). destruct row as [|row]; [lia |].
    cbn [climb_from]. rewrite E. f_equal. apply climb_enough; [done | lia].
  - destruct row; cbn [climb_from]; by rewrite E.
Qed.

(** Induction along the parents of a row. *)
Lemma row_ind (t : DraftTree) (P : nat -> Prop) :
  tree_ok t -> (forall r, (forall p, parent t r = Some p -> P p) -> P r) -> forall r, P r.
Proof.
  intros Ht Hstep r. induction (lt_wf r) as [r _ IH]. apply Hstep. intros p Hp. apply IH.
  by apply (parent_spec t r p Ht).
Qed.

Lemma ancestors_bound t row r : tree_ok t -> r ∈ ancestors_and_self t row -> (r <= row)%nat.
Proof.
  intros Ht. revert row. apply (row_ind t (fun row => r ∈ ancestors_and_self t row -> (r <= row)%nat) Ht).
  intros row IH. rewrite ancestors_step by done. intros [->|H]%elem_of_cons; [done |].
  destruct (parent t row) as [p|] eqn:E; [|by apply not_elem_of_nil in H].
  destruct (parent_spec t row p Ht E). specialize (IH p eq_refl H). lia.
Qed.

Lemma ancestors_length t row :
  tree_ok t -> (row < dt_len t)%nat -> length (ancestors_and_self t row) = S (depth t row).
Proof.
  intros Ht. revert row.
  apply (row_ind t (fun row => (row < dt_len t)%nat -> length (ancestors_and_self t row) = S (depth t row)) Ht).
  intros row IH Hr. rewrite ancestors_step by done. cbn [length]. f_equal.
  destruct (parent t row) as [p|] eqn:E; [|by rewrite root_depth].
  destruct (parent_spec t row p Ht E) as (? & ? & ->). apply IH; [done | lia].
Qed.

(** ** Growing and shipping a tree *)

Lemma push_ok t par :
  tree_ok t ->
  match tree_push t par with
  | Ok (t', row) => row = dt_len t /\ tree_ok t' /\ dt_base t' = dt_base t /\ dt_parents t' = dt_parents t ++ [par]
  | Err _ => MAX_TREE_ROWS <= Z.of_nat (dt_len t) \/ exists p, par = Some p /\ (dt_len t <= p)%nat
  | Panic => False
  end.
Proof.
  intros Ht. unfold tree_push. destruct (Z.leb_spec MAX_TREE_ROWS (Z.of_nat (dt_len t))) as [?|Hlt]; [by left |].
  unfold MAX_TREE_ROWS in *.
  assert (G : forall d, d = depth_after (dt_depths t) par -> (forall p, par = Some p -> p < dt_len t)%nat ->
    tree_ok {| dt_base := dt_base t; dt_parents := dt_parents t ++ [as_u16 <$> par]; dt_depths := dt_depths t ++ [d] |}
    /\ as_u16 <$> par = par).
  { intros d -> Hp. assert (E : as_u16 <$> par = par).
    { destruct par as [p|]; [|done]. cbn. rewrite as_u16_small; [done |]. specialize (Hp p eq_refl). lia. }
    split; [|done]. rewrite E. pose proof (ok_depths t Ht) as Hd. constructor; unfold dt_len, MAX_TREE_ROWS in *; cbn.
    - apply Ht.
    - rewrite length_app. cbn. lia.
    - rewrite !length_app. cbn. lia.
    - apply rows_ok_snoc; [done | done | apply Ht]. }
  destruct par as [p|]; cbn [mbind outcome_bind].
  - destruct (Nat.ltb_spec p (dt_len t)) as [Hp|Hp]; cbn [mbind outcome_bind parent_error]; [|right; eauto].
    rewrite at_index_total by (rewrite ok_depths by done; done). cbn [mbind outcome_bind].
    destruct (G (dt_depths t !!! p + 1)%nat) as [? E]; [cbn; lia | by intros ? [= <-] |].
    split_and!; try done. cbn [dt_parents]. by rewrite E.
  - destruct (G O) as [? E]; [done.. |]. split_and!; done.
Qed.

Lemma wire_roundtrip t : tree_ok t -> from_wire (dt_base t) (to_wire t) = Ok t.
Proof.
  intros Ht. unfold from_wire, to_wire. rewrite map_map.
  assert (E : map (fun p => parent_of_wire (wire_of_parent p)) (dt_parents t) = dt_parents t).
  { apply list_eq. intros i. rewrite list_lookup_fmap. destruct (dt_parents t !! i) as [[p|]|] eqn:E; [|done|done].
    cbn. pose proof (tree_ok_before t Ht i p E). apply lookup_lt_Some in E. pose proof (ok_len t Ht) as Hl.
    unfold MAX_TREE_ROWS, dt_len in *. rewrite Z.mod_small by lia. unfold parent_of_wire.
    destruct (Z.eqb_spec (Z.of_nat p + 1) 0); [lia |]. do 2 f_equal. lia. }
  rewrite E. destruct (tree_new_ok (dt_base t) (dt_parents t)) as (t' & -> & Ht' & Eb & Ep);
    [apply Ht | apply Ht | by apply tree_ok_before |].
  f_equal. by apply tree_ok_ext.
Qed.

(** The rows following a row are those that name it as their parent. *)
Lemma elem_of_children t row c :
  tree_ok t -> (forall r, row = Some r -> r < dt_len t)%nat ->
  c ∈ children t row <-> (c < dt_len t)%nat /\ parent t c = row.
Proof.
  intros Ht Hrow. unfold children. rewrite list_elem_of_filter, elem_of_seq.
  assert (E : as_u16 <$> row = row).
  { destruct row as [r|]; [|done]. cbn. rewrite as_u16_small; [done |]. specialize (Hrow r eq_refl).
    pose proof (ok_len t Ht). unfold MAX_TREE_ROWS in *. lia. }
  rewrite E. unfold parent. split.
  - intros [H1 H2]. rewrite H1. cbn. split; [lia | done].
  - intros [H1 H2]. destruct (lookup_lt_is_Some_2 (dt_parents t) c H1) as [x Ex]. rewrite Ex in H2 |- *.
    cbn in H2. subst. split; [done | lia].
Qed.

Lemma child_after t r c : tree_ok t -> (r < dt_len t)%nat -> c ∈ children t (Some r) -> (r < c < dt_len t)%nat.
Proof.
  intros Ht Hr Hc. apply elem_of_children in Hc as [Hc Hp]; [|done | by intros ? [= <-]].
  destruct (parent_spec t c r Ht Hp). lia.
Qed.

(** ** The packed bits *)

Definition bit_at (line : list Z) (j : nat) : bool := Z.testbit (line !!! (j / 32)%nat) (Z.of_nat (j mod 32)).

Lemma set_seen_length line seen : length (set_seen line seen) = length line.
Proof. apply length_alter. Qed.

Lemma set_seen_bit line seen j :
  (seen / 32 < length line)%nat -> bit_at (set_seen line seen) j = bit_at line j || (seen =? j)%nat.
Proof.
  intros Hs. unfold bit_at, set_seen. pose proof (Nat.div_mod_eq seen 32) as E1.
  pose proof (Nat.div_mod_eq j 32) as E2. pose proof (Nat.mod_upper_bound seen 32 ltac:(lia)) as B1.
  pose proof (Nat.mod_upper_bound j 32 ltac:(lia)) as B2.
  destruct (decide (seen / 32 = j / 32)%nat) as [E|E].
  - rewrite <- E, list_lookup_total_alter_eq by done. rewrite Z.lor_spec. f_equal.
    rewrite Z.shiftl_spec by lia. destruct (Nat.eqb_spec seen j) as [->|Hn].
    + by rewrite Z.sub_diag.
    + apply not_true_is_false. intros Hb.
      destruct (Z.lt_ge_cases (Z.of_nat (j mod 32) - Z.of_nat (seen mod 32)) 0).
      * by rewrite Z.testbit_neg_r in Hb.
      * rewrite Z.bits_above_log2 in Hb; [done | lia | change (Z.log2 1) with 0; lia].
  - rewrite list_lookup_total_alter_ne by done. destruct (Nat.eqb_spec seen j) as [->|Hn]; [done |].
    by rewrite orb_false_r.
Qed.

Lemma fold_seen_bits rows : forall line j,
  Forall (fun r => r / 32 < length line)%nat rows ->
  length (fold_left set_seen rows line) = length line /\
  bit_at (fold_left set_seen rows line) j = bit_at line j || bool_decide (j ∈ rows).
Proof.
  induction rows as [|r rows IH]; intros line j Hr; cbn [fold_left].
  - rewrite bool_decide_false by apply not_elem_of_nil. by rewrite orb_false_r.
  - apply list.Forall_cons in Hr as [Hr Hrs]. destruct (IH (set_seen line r) j) as [Hl Hb].
    { by rewrite set_seen_length. }
    rewrite Hl, set_seen_length, Hb, set_seen_bit, <- orb_assoc by done. split; [done |]. f_equal.
    destruct (Nat.eqb_spec r j) as [->|Hne]; cbn [orb].
    + symmetry. apply bool_decide_true. by left.
    + apply bool_decide_ext. rewrite elem_of_cons. intuition congruence.
Qed.

Lemma visibility_line_spec t row j :
  tree_ok t -> (row < dt_len t)%nat -> (j / 32 < VISIBILITY_WORDS)%nat ->
  length (visibility_line t row) = VISIBILITY_WORDS /\
  bit_at (visibility_line t row) j = bool_decide (j ∈ ancestors_and_self t row).
Proof.
  intros Ht Hr Hj. unfold visibility_line.
  destruct (fold_seen_bits (ancestors_and_self t row) (replicate VISIBILITY_WORDS 0) j) as [Hl Hb].
  - apply list.Forall_forall. intros r Hin. apply ancestors_bound in Hin; [|done].
    rewrite length_replicate. unfold VISIBILITY_WORDS. pose proof (ok_len t Ht). unfold MAX_TREE_ROWS in *.
    apply Nat.Div0.div_lt_upper_bound. lia.
  - rewrite Hl, length_replicate, Hb. split; [done |]. unfold bit_at.
    rewrite lookup_total_replicate_2 by done. by rewrite Z.bits_0.
Qed.

(** A word of a row-major table is a word of its line. *)
Lemma concat_lines {A} (lines : list (list A)) n q i :
  Forall (fun l => length l = n) lines -> (i < n)%nat ->
  concat lines !! (q * n + i)%nat = lines !! q ≫= fun l => l !! i.
Proof.
  intros Hl Hi. revert q. induction Hl as [|l lines Hn _ IH]; intros q; [done |]. cbn [concat]. destruct q as [|q].
  - rewrite lookup_app_l by (cbn; lia). done.
  - rewrite lookup_app_r by lia. replace (S q * n + i - length l)%nat with (q * n + i)%nat by lia. apply IH.
Qed.

(** The keys a row is meant to read: the confirmed context, and of the tree's own
    rows itself and its ancestors. *)
Definition reads (t : DraftTree) (row key : nat) : Prop :=
  (key < dt_base t)%nat \/ (key - dt_base t)%nat ∈ ancestors_and_self t row.

#[global] Instance reads_dec t row key : Decision (reads t row key).
Proof. unfold reads. apply _. Defined.

Lemma testbit_land w i : 0 <= i -> (Z.land (Z.shiftr w i) 1 =? 1) = Z.testbit w i.
Proof.
  intros Hi. change 1 with (Z.ones 1) at 1. rewrite Z.land_ones by lia. rewrite Z.shiftr_div_pow2 by done.
  change (2 ^ 1) with 2. by rewrite Z.testbit_eqb.
Qed.

Lemma lines_ok t before n :
  tree_ok t -> (before + n = dt_len t)%nat ->
  Forall (fun l => length l = VISIBILITY_WORDS) (map (visibility_line t) (seq before n)).
Proof.
  intros Ht Hn. apply list.Forall_forall. intros l (r & -> & Hr)%list_elem_of_fmap. apply elem_of_seq in Hr.
  apply (visibility_line_spec t r 0); [done | lia | vm_compute; lia].
Qed.

Lemma sees_row t kv_offset n pos v q key :
  tree_ok t -> rows_for t kv_offset n = Ok (pos, v) -> (q < n)%nat -> (key < rv_kv_len v)%nat ->
  sees v q key = Ok (bool_decide (reads t (kv_offset - dt_base t + q) key)).
Proof.
  intros Ht. unfold rows_for. destruct (Nat.ltb_spec kv_offset (dt_base t)) as [?|Hoff]; [done |].
  destruct (Nat.eqb_spec (kv_offset - dt_base t + n) (dt_len t)) as [Hn|?]; [|done]. cbn [negb].
  intros [= <- <-] Hq. cbn [rv_kv_len]. intros Hk. unfold sees. cbn [rv_base rv_words].
  destruct (Nat.ltb_spec key (dt_base t)) as [Hb|Hb].
  { by rewrite bool_decide_true by (by left). }
  set (row := (kv_offset - dt_base t + q)%nat). set (j := (key - dt_base t)%nat).
  assert (Hj : (j / 32 < VISIBILITY_WORDS)%nat).
  { unfold VISIBILITY_WORDS. pose proof (ok_len t Ht). unfold MAX_TREE_ROWS in *.
    apply Nat.Div0.div_lt_upper_bound. unfold j. lia. }
  destruct (visibility_line_spec t row j Ht ltac:(unfold row; lia) Hj) as [Hl Hbit].
  unfold at_index. rewrite concat_lines by (done || by apply lines_ok).
  rewrite list_lookup_fmap, lookup_seq_lt by done. cbn [fmap option_fmap option_map mbind option_bind].
  fold row. rewrite list_lookup_lookup_total_lt by (by rewrite Hl). cbn [mbind outcome_bind].
  rewrite testbit_land by lia. f_equal. etrans; [exact Hbit |]. apply bool_decide_ext. unfold reads. fold j.
  split; [by right | intros [?|?]; [lia | done]].
Qed.

Lemma mapM_ok {E A B} (f : A -> call E B) (g : A -> B) l :
  (forall a, a ∈ l -> f a = Ok (g a)) -> mapM f l = Ok (map g l).
Proof.
  induction l as [|a l IH]; intros H; [done |]. cbn. rewrite H by (by left). cbn.
  rewrite IH by (intros; apply H; by right). done.
Qed.

Lemma rv_rows_for t kv_offset n pos v :
  tree_ok t -> rows_for t kv_offset n = Ok (pos, v) -> rv_rows v = n /\ rv_base v = dt_base t.
Proof.
  intros Ht. unfold rows_for. destruct (_ <? _)%nat; [done |].
  destruct (Nat.eqb_spec (kv_offset - dt_base t + n) (dt_len t)) as [Hn|?]; [|done]. intros [= <- <-].
  split; [|done]. unfold rv_rows. cbn [rv_words].
  assert (G : forall lines, Forall (fun l : list Z => length l = VISIBILITY_WORDS) lines ->
    length (concat lines) = (length lines * VISIBILITY_WORDS)%nat).
  { induction 1 as [|l lines Hl _ IH]; [done |]. cbn [concat length]. rewrite length_app. lia. }
  rewrite G by (by apply lines_ok). rewrite length_map, length_seq. by apply Nat.div_mul.
Qed.

(** C34: A row of a tree reads its own path, and nothing else.  For every forward of
    a tree's last rows, the packed bits answer, for every cached position, exactly
    whether it belongs to the confirmed context or to the row's own ancestors; the
    additive mask is zero there and minus infinity elsewhere; and the row's position
    is the base plus its depth. *)
Theorem rows_read_their_path t kv_offset n pos v :
  tree_ok t -> rows_for t kv_offset n = Ok (pos, v) ->
  exists m, mask v = Ok m /\ length pos = n /\
    forall q, (q < n)%nat ->
      let row := (kv_offset - dt_base t + q)%nat in
      pos !! q = Some (Z.of_nat (dt_base t + depth t row) mod 4294967296) /\
      forall key, (key < kv_offset + n)%nat ->
        sees v q key = Ok (bool_decide (reads t row key)) /\
        m !! (q * (kv_offset + n) + key)%nat = Some (if decide (reads t row key) then F32.zero else NEG_INFINITY).
Proof.
  intros Ht Hr. destruct (rv_rows_for t kv_offset n pos v Ht Hr) as [Hrows _].
  pose proof (sees_row t kv_offset n pos v) as Hsees.
  assert (Hkv : rv_kv_len v = (kv_offset + n)%nat /\ pos = map (fun row => Z.of_nat (dt_base t + depth t row) mod 4294967296)
    (seq (kv_offset - dt_base t) n)).
  { unfold rows_for in Hr. destruct (_ <? _)%nat; [done |]. destruct (negb _); [done |]. by injection Hr as <- <-. }
  destruct Hkv as [Hkv ->].
  set (cell q key := if decide (reads t (kv_offset - dt_base t + q) key) then F32.zero else NEG_INFINITY).
  exists (concat (map (fun q => map (cell q) (seq 0 (kv_offset + n))) (seq 0 n))). split_and!.
  - unfold mask. rewrite Hrows, Hkv. erewrite mapM_ok; [done |]. intros q Hq%elem_of_seq.
    apply (mapM_ok _ (cell q)). intros key Hkey%elem_of_seq. rewrite Hsees by (done || lia).
    cbn [mbind outcome_bind]. unfold cell. by repeat (case_decide || case_bool_decide).
  - by rewrite length_map, length_seq.
  - intros q Hq. split.
    + by rewrite list_lookup_fmap, lookup_seq_lt by done.
    + intros key Hkey. split; [apply Hsees; by rewrite ?Hkv |]. rewrite concat_lines.
      * rewrite list_lookup_fmap, lookup_seq_lt by done. cbn. by rewrite list_lookup_fmap, lookup_seq_lt by done.
      * apply list.Forall_forall. intros l (r & -> & _)%list_elem_of_fmap. by rewrite length_map, length_seq.
      * done.
Qed.

Lemma chain_parent t row :
  tree_ok t -> is_chain t = true -> (row < dt_len t)%nat ->
  parent t row = match row with O => None | S q => Some q end.
Proof.
  intros Ht Hc Hr. unfold is_chain in Hc. rewrite forallb_forall in Hc.
  specialize (Hc row (proj2 (in_seq (dt_len t) 0 row) ltac:(lia))). apply bool_decide_eq_true in Hc. rewrite Hc.
  destruct row as [|q]; [done |]. rewrite as_u16_small; [done |]. pose proof (ok_len t Ht). unfold MAX_TREE_ROWS in *. lia.
Qed.

Lemma chain_ancestors t row r :
  tree_ok t -> is_chain t = true -> (row < dt_len t)%nat -> r ∈ ancestors_and_self t row <-> (r <= row)%nat.
Proof.
  intros Ht Hc. induction row as [|row IH]; intros Hr; rewrite ancestors_step, chain_parent by done.
  - rewrite list_elem_of_singleton. lia.
  - rewrite elem_of_cons, IH by lia. lia.
Qed.

(** A chain is an ordinary forward.  A tree whose every row follows the row
    before it puts row [i] at position [base + i], and row [i] reads exactly the
    positions up to its own: the causal mask. *)
Theorem chain_reads_causally t row key :
  tree_ok t -> is_chain t = true -> (row < dt_len t)%nat ->
  depth t row = row /\ (reads t row key <-> (key <= dt_base t + row)%nat).
Proof.
  intros Ht Hc Hr. split.
  - apply Nat.succ_inj. rewrite <- ancestors_length by done. clear key. induction row as [|row IH];
      rewrite ancestors_step, chain_parent by done; [done |]. cbn [length]. rewrite IH by lia. done.
  - unfold reads. rewrite chain_ancestors by done. lia.
Qed.

(** ** Witnesses *)

(** A root, two rows after it, and one after the first of those. *)
Definition sample_tree : DraftTree :=
  {| dt_base := 5; dt_parents := [None; Some 0%nat; Some 0%nat; Some 1%nat]; dt_depths := [0; 1; 1; 2]%nat |}.

Example sample_tree_new : tree_new 5 [None; Some 0%nat; Some 0%nat; Some 1%nat] = Ok sample_tree.
Proof. reflexivity. Qed.

Lemma sample_tree_ok : tree_ok sample_tree.
Proof. apply (proj1 (tree_new_spec 5 [None; Some 0%nat; Some 0%nat; Some 1%nat])). Qed.

Definition sample_visibility : list Z * RowVisibility :=
  match rows_for sample_tree 7 2 with Ok r => r | _ => ([], {| rv_base := 0; rv_kv_len := 0; rv_words := [] |}) end.

Lemma rows_read_their_path_witness :
  sees sample_visibility.2 1 6 = Ok true /\ sees sample_visibility.2 1 7 = Ok false /\
  sample_visibility.1 = [6; 7].
Proof.
  destruct (rows_read_their_path sample_tree 7 2 sample_visibility.1 sample_visibility.2 sample_tree_ok eq_refl)
    as (m & _ & _ & H).
  destruct (H 1%nat ltac:(lia)) as [_ Hs]. split; [|split].
  - exact (proj1 (Hs 6%nat ltac:(lia))).
  - exact (proj1 (Hs 7%nat ltac:(lia))).
  - reflexivity.
Defined.

Definition sample_chain : DraftTree :=
  {| dt_base := 3; dt_parents := [None; Some 0%nat; Some 1%nat]; dt_depths := [0; 1; 2]%nat |}.
Lemma sample_chain_ok : tree_ok sample_chain.
Proof. apply (proj1 (tree_new_spec 3 [None; Some 0%nat; Some 1%nat])). Qed.

Lemma chain_reads_causally_witness : depth sample_chain 2 = 2%nat /\ (reads sample_chain 2 5 <-> (5 <= 3 + 2)%nat).
Proof. apply (chain_reads_causally sample_chain 2 5 sample_chain_ok); [reflexivity | cbn; lia]. Defined.
