(* ===== verification/SpecWalk.v ===== *)
(** * Checking guesses: the verify walks ([src/inference/sampling.rs])

    The last segment of a check reads one row of logits per guessed token and walks
    them: it draws at the last kept row, keeps the guess that carries the draw, draws
    there, and stops at a draw no guess carries.  [sampled_accept_reject] is the walk
    over a chain, [walk_verified_tree] over a tree, [argmax_walk_tree] the greedy one
    from each row's argmax; [kept_rows] of [draft_tree.rs] is how the coordinator
    reads the walk back, and [walk_draws] the walk over a tree that flows.

    A sampler is any function of the random state, the logits row, the history the
    penalties read and the row's depth, which keys shared noise: the theorems hold
    for every one.  A walk's row number grows, so the tree's length is fuel enough
    and running out of it, written [Panic], never happens. *)
From S2P Require Import Prelude Bytes ForwardTypes ForwardCodec DraftTree.

(** A row of logits: f32 bit patterns. *)
Abbreviation LogitsRow := (list Z).
Definition row_is_finite (row : LogitsRow) : bool := forallb F32.is_finite row.

(** [a > b] on f32: false when either is a NaN. *)
Definition f32_gt (a b : Z) : bool :=
  negb (2139095040 <? Z.land a 2147483647) && negb (2139095040 <? Z.land b 2147483647) && F32.lt b a.

(** [argmax]: the first of the highest. *)
Fixpoint argmax_from (row : LogitsRow) (i : Z) (best_idx best_val : Z) : Z :=
  match row with
  | [] => best_idx
  | v :: row => if f32_gt v best_val then argmax_from row (i + 1) i v else argmax_from row (i + 1) best_idx best_val
  end.
Definition argmax (row : LogitsRow) : Z := argmax_from row 0 0 NEG_INFINITY mod 4294967296.

(** [children(Some(at)).find(..)]. *)
Definition find_child (t : DraftTree) (at_row : nat) (carries : nat -> bool) : option nat :=
  List.find carries (children t (Some at_row)).

Definition token_is (tokens : list Z) (token : Z) (row : nat) : bool := bool_decide (tokens !! row = Some token).

(** [c >= guessed_from && drafts[c - guessed_from] == pick]. *)
Definition guess_is (guessed_from : nat) (drafts : list Z) (pick : Z) (c : nat) : bool :=
  (guessed_from <=? c)%nat && token_is drafts pick (c - guessed_from).

Definition tree_guesses_from (t : DraftTree) (drafts rows : nat) : call string nat :=
  if negb (rows =? dt_len t)%nat || (rows <=? drafts)%nat
  then Err ("spec walk: " +:+ pretty rows +:+ " positions verified for a tree of " +:+ pretty (dt_len t)
            +:+ " rows and " +:+ pretty drafts +:+ " guesses")
  else
    let guessed_from := (rows - drafts)%nat in
    if negb (forallb (fun r => bool_decide (parent t r = match r with O => None | S q => Some q end))
               (seq 0 guessed_from))
    then Err "spec walk: the kept rows of a tree are not a chain"
    else if existsb (fun r => match parent t r with None => true | Some p => (p + 1 <? guessed_from)%nat end)
              (seq guessed_from drafts)
    then Err "spec walk: a guess follows a row that is already kept"
    else Ok guessed_from.

Definition verify_rows_are_finite (n_drafts : nat) (rows : list LogitsRow) : bool :=
  forallb row_is_finite (take (n_drafts + 1) rows).

Section sampler.
Context {Rng : Type} (draw : Rng -> LogitsRow -> list Z -> nat -> Rng * Z).

(** The loop of [sampled_accept_reject]: the drafts kept, and the draw that parted
    from them. *)
Fixpoint accept_loop (drafts : list Z) (rows : list LogitsRow) (i : nat) (rng : Rng) (history accepted : list Z)
  : Rng * list Z * list Z * option Z :=
  match drafts with
  | [] => (rng, history, accepted, None)
  | q :: drafts =>
      let '(rng, pick) := draw rng (rows !!! i) history i in
      if pick =? q then accept_loop drafts rows (S i) rng (history ++ [q]) (accepted ++ [q])
      else (rng, history, accepted, Some pick)
  end.

(** The accepted drafts, the token after them, and whether all were accepted. *)
Definition sampled_accept_reject (drafts : list Z) (rows : list LogitsRow) (generated : list Z) (rng : Rng)
  : Rng * (list Z * Z * bool) :=
  if (length rows <? length drafts + 1)%nat || negb (verify_rows_are_finite (length drafts) rows)
  then (rng, ([], 0, false))
  else
    match accept_loop drafts rows 0 rng generated [] with
    | (rng, _, accepted, Some bonus) => (rng, (accepted, bonus, false))
    | (rng, history, accepted, None) =>
        let '(rng, bonus) := draw rng (rows !!! length drafts) history (length drafts) in
        (rng, (accepted, bonus, true))
    end.

Definition walk_verified_positions (drafts : list Z) (rows : list LogitsRow) (generated : list Z) (rng : Rng)
  : Rng * call string (list Z) :=
  if negb (length rows =? length drafts + 1)%nat
  then (rng, Err ("spec walk: " +:+ pretty (length rows) +:+ " positions verified for " +:+ pretty (length drafts)
                  +:+ " drafts"))
  else if negb (verify_rows_are_finite (length drafts) rows) then (rng, Err "spec walk: non-finite logits")
  else
    let '(rng, (kept, next, _)) := sampled_accept_reject drafts rows generated rng in
    (rng, Ok (kept ++ [next])).

Fixpoint walk_tree_loop (fuel : nat) (t : DraftTree) (guessed_from : nat) (drafts : list Z) (rows : list LogitsRow)
    (rng : Rng) (history walked : list Z) (at_row : nat) : Rng * call string (list Z) :=
  match fuel with
  | O => (rng, Panic)
  | S fuel =>
      match rows !! at_row with
      | None => (rng, Panic)
      | Some row =>
          if negb (row_is_finite row) then (rng, Err "spec walk: non-finite logits")
          else
            let '(rng, pick) := draw rng row history (depth t at_row) in
            let walked := walked ++ [pick] in
            match find_child t at_row (guess_is guessed_from drafts pick) with
            | Some next => walk_tree_loop fuel t guessed_from drafts rows rng (history ++ [pick]) walked next
            | None => (rng, Ok walked)
            end
      end
  end.

Definition walk_verified_tree (t : DraftTree) (drafts : list Z) (rows : list LogitsRow) (generated : list Z) (rng : Rng)
  : Rng * call string (list Z) :=
  match tree_guesses_from t (length drafts) (length rows) with
  | Ok guessed_from => walk_tree_loop (dt_len t) t guessed_from drafts rows rng generated [] (guessed_from - 1)
  | Err e => (rng, Err e)
  | Panic => (rng, Panic)
  end.
End sampler.

(** [argmax_walk_tree]: [picks] are the rows' argmaxes. *)
Fixpoint argmax_loop (fuel : nat) (t : DraftTree) (guessed_from : nat) (drafts picks walked : list Z) (at_row : nat)
  : call string (list Z) :=
  match fuel with
  | O => Panic
  | S fuel =>
      pick ← at_index picks at_row;
      let walked := walked ++ [pick] in
      match find_child t at_row (guess_is guessed_from drafts pick) with
      | Some next => argmax_loop fuel t guessed_from drafts picks walked next
      | None => Ok walked
      end
  end.

Definition argmax_walk_tree (t : DraftTree) (drafts picks : list Z) : call string (list Z) :=
  guessed_from ← tree_guesses_from t (length drafts) (length picks);
  argmax_loop (dt_len t) t guessed_from drafts picks [] (guessed_from - 1).

(** ** The coordinator's side *)

Fixpoint kept_loop (t : DraftTree) (guessed_from : nat) (tokens kept : list Z) (at_row : nat) : option (list nat) :=
  match kept with
  | [] => Some []
  | tok :: kept =>
      next ← find_child t at_row (fun c => (guessed_from <=? c)%nat && token_is tokens tok c);
      rows ← kept_loop t guessed_from tokens kept next;
      Some (next :: rows)
  end.

Definition kept_rows (t : DraftTree) (guessed_from : nat) (tokens kept : list Z) : option (list nat) :=
  match guessed_from with
  | O => None
  | S at_row => kept_loop t guessed_from tokens kept at_row
  end.

(** [draws_of_each_row]: one draw per row of the forward, keyed by its depth. *)
Definition draws_of_each_row {R} (draw_row : R -> nat -> call string Z) (t : DraftTree) (read_before : nat)
    (rows : list R) : call string (list Z) :=
  if negb (read_before + length rows =? dt_len t)%nat
  then Err ("spec draws: " +:+ pretty (length rows) +:+ " rows read after " +:+ pretty read_before
            +:+ " of a tree of " +:+ pretty (dt_len t) +:+ " rows")
  else mapM (fun '(q, row) => draw_row row (depth t (read_before + q)%nat)) (zip (seq 0 (length rows)) rows).

Inductive WalkEnd : Type :=
| Waiting (row : nat)
| Missed (row : nat) (token : Z).

(** [walk_draws]: the tokens emitted and where the walk stopped; [draws[at]] missing
    or unknown makes it wait. *)
Fixpoint walk_draws_loop (fuel : nat) (t : DraftTree) (tokens : list Z) (draws : list (option Z)) (at_row : nat)
  : list Z * WalkEnd :=
  match mjoin (draws !! at_row) with
  | None => ([], Waiting at_row)
  | Some d =>
      match find_child t at_row (token_is tokens d), fuel with
      | Some next, S fuel => let '(emitted, e) := walk_draws_loop fuel t tokens draws next in (d :: emitted, e)
      | _, _ => ([d], Missed at_row d)
      end
  end.
Definition walk_draws (t : DraftTree) (tokens : list Z) (draws : list (option Z)) (at_row : nat) : list Z * WalkEnd :=
  walk_draws_loop (dt_len t) t tokens draws at_row.

(** ** Paths *)

(** The tokens from the tree's base to a row, its own last. *)
Definition path_tokens (tokens : list Z) (t : DraftTree) (row : nat) : list Z :=
  map (fun r => tokens !!! r) (reverse (ancestors_and_self t row)).

Lemma path_child tokens t r c :
  tree_ok t -> parent t c = Some r -> path_tokens tokens t c = path_tokens tokens t r ++ [tokens !!! c].
Proof.
  intros Ht Hp. unfold path_tokens. rewrite (ancestors_step t c), Hp by done.
  by rewrite reverse_cons, map_app.
Qed.

Lemma find_child_some t r f c :
  tree_ok t -> (r < dt_len t)%nat -> find_child t r f = Some c ->
  (r < c < dt_len t)%nat /\ parent t c = Some r /\ depth t c = S (depth t r) /\ f c = true.
Proof.
  intros Ht Hr Hf. apply List.find_some in Hf as [Hin Hc]. apply list_elem_of_In in Hin.
  pose proof (child_after t r c Ht Hr Hin). apply elem_of_children in Hin as [_ Hp]; [|done | by intros ? [= <-]].
  destruct (parent_spec t c r Ht Hp) as (_ & _ & ?). done.
Qed.

Lemma find_child_none t r f c :
  tree_ok t -> (r < dt_len t)%nat -> find_child t r f = None -> (c < dt_len t)%nat -> parent t c = Some r -> f c = false.
Proof.
  intros Ht Hr Hf Hc Hp. apply (List.find_none _ _ Hf). apply list_elem_of_In.
  apply elem_of_children; [done | by intros ? [= <-] | done].
Qed.

Lemma token_is_spec tokens tok row : token_is tokens tok row = true <-> tokens !! row = Some tok.
Proof. apply bool_decide_eq_true. Qed.

(** The tokens a check carries: the kept ones, then the guesses. *)
Lemma guess_is_spec lead drafts pick c :
  guess_is (length lead) drafts pick c = true <->
  (length lead <= c)%nat /\ (lead ++ drafts) !! c = Some pick.
Proof.
  unfold guess_is. rewrite andb_true_iff, token_is_spec, Nat.leb_le. split; intros [? H]; (split; [done |]).
  - by rewrite lookup_app_r.
  - by rewrite lookup_app_r in H.
Qed.

(** What [tree_guesses_from] makes sure of. *)
Record honest_check (t : DraftTree) (guessed_from drafts : nat) : Prop := {
  hc_some : (0 < guessed_from)%nat;
  hc_len : (guessed_from + drafts = dt_len t)%nat;
  hc_chain : forall r, (r < guessed_from)%nat -> parent t r = match r with O => None | S q => Some q end;
  hc_guess : forall r, (guessed_from <= r < dt_len t)%nat -> exists p, parent t r = Some p /\ (guessed_from <= p + 1)%nat }.

Lemma tree_guesses_from_spec t drafts rows :
  match tree_guesses_from t drafts rows with
  | Ok guessed_from => honest_check t guessed_from drafts /\ rows = dt_len t
  | Err _ => ~ (exists guessed_from, honest_check t guessed_from drafts /\ rows = dt_len t)
  | Panic => False
  end.
Proof.
  unfold tree_guesses_from. destruct (Nat.eqb_spec rows (dt_len t)) as [->|Hne]; cbn [negb orb].
  2: { by intros (? & _ & ?). }
  destruct (Nat.leb_spec (dt_len t) drafts); [intros (g & [] & _); lia |].
  destruct (forallb _ _) eqn:Ef; cbn [negb].
  2: { intros (g & Hh & _). apply not_true_iff_false in Ef. apply Ef. apply forallb_forall. intros r Hr%in_seq.
       apply bool_decide_eq_true. apply (hc_chain t g drafts Hh). pose proof (hc_len _ _ _ Hh). lia. }
  destruct (existsb _ _) eqn:Ee.
  - intros (g & Hh & _). apply existsb_exists in Ee as (r & Hr%in_seq & Hp).
    pose proof (hc_len _ _ _ Hh). destruct (hc_guess _ _ _ Hh r) as (p & E & Hp'); [lia |]. rewrite E in Hp.
    apply Nat.ltb_lt in Hp. lia.
  - split; [|done]. constructor; [lia | lia | |].
    + intros r Hr. rewrite forallb_forall in Ef. specialize (Ef r (proj2 (in_seq (dt_len t - drafts) 0 r) ltac:(lia))).
      by apply bool_decide_eq_true in Ef.
    + intros r Hr. destruct (parent t r) as [p|] eqn:E.
      * exists p. split; [done |]. apply not_true_iff_false in Ee. apply Nat.nlt_ge. intros Hlt. apply Ee.
        apply existsb_exists. exists r. split; [apply in_seq; lia |]. rewrite E. apply Nat.ltb_lt. lia.
      * exfalso. apply not_true_iff_false in Ee. apply Ee. apply existsb_exists. exists r.
        split; [apply in_seq; lia |]. by rewrite E.
Qed.

(** ** Losslessness: a walk emits what the model would have written alone *)

Section lossless.
Context {Rng : Type} (draw : Rng -> LogitsRow -> list Z -> nat -> Rng * Z).
(** The model: the logits it gives after a path from the check's base. *)
Context (model : list Z -> LogitsRow).

(** Ordinary decoding, one token at a time, with the same sampler. *)
Fixpoint decode (n : nat) (rng : Rng) (history path : list Z) (i : nat) : Rng * list Z :=
  match n with
  | O => (rng, [])
  | S n =>
      let '(rng, tok) := draw rng (model path) history i in
      let '(rng, toks) := decode n rng (history ++ [tok]) (path ++ [tok]) (S i) in
      (rng, tok :: toks)
  end.

Context (t : DraftTree) (lead drafts : list Z) (rows : list LogitsRow).
Hypothesis Ht : tree_ok t.
Hypothesis Hlen : length rows = dt_len t.
Hypothesis Hmodel : forall r row, rows !! r = Some row -> row = model (path_tokens (lead ++ drafts) t r).
Abbreviation loop := (fun fuel => walk_tree_loop draw fuel t (length lead) drafts rows).

Lemma walk_loop_decodes fuel : forall rng history walked at_row rng' w,
  (at_row < dt_len t)%nat -> loop fuel rng history walked at_row = (rng', Ok w) ->
  exists ext, w = walked ++ ext /\ ext <> [] /\
    decode (length ext) rng history (path_tokens (lead ++ drafts) t at_row) (depth t at_row) = (rng', ext).
Proof.
  induction fuel as [|fuel IH]; intros rng history walked at_row rng' w Hat; cbn [walk_tree_loop]; [done |].
  destruct (rows !! at_row) as [row|] eqn:Er; [|done]. destruct (row_is_finite row); [|done]. cbn [negb].
  destruct (draw rng row history (depth t at_row)) as [rng1 pick] eqn:Ed.
  pose proof (Hmodel _ _ Er) as Em. destruct (find_child t at_row _) as [next|] eqn:Ef.
  - destruct (find_child_some _ _ _ _ Ht Hat Ef) as (Hn & Hp & Hdep & Hg). apply guess_is_spec in Hg as [_ Hg].
    intros Hw. apply IH in Hw as (ext & -> & _ & Hdec); [|lia]. exists (pick :: ext).
    rewrite <- app_assoc. split_and!; [done | done |]. cbn [length decode]. rewrite <- Em, Ed.
    rewrite (path_child _ t at_row next Ht Hp), (list_lookup_total_correct _ _ _ Hg), Hdep in Hdec. by rewrite Hdec.
  - intros [= <- <-]. exists [pick]. split_and!; [done | done |]. cbn [length decode]. by rewrite <- Em, Ed.
Qed.

Lemma walk_loop_returns fuel : forall rng history walked at_row,
  Forall (fun row => row_is_finite row = true) rows ->
  (at_row < dt_len t)%nat -> (dt_len t <= at_row + fuel)%nat ->
  exists rng' w, loop fuel rng history walked at_row = (rng', Ok w).
Proof.
  induction fuel as [|fuel IH]; intros rng history walked at_row Hfin Hat Hfuel; [lia |]. cbn [walk_tree_loop].
  destruct (lookup_lt_is_Some_2 rows at_row ltac:(lia)) as [row Er]. rewrite Er.
  rewrite (Forall_lookup_1 _ _ _ _ Hfin Er). cbn [negb]. destruct (draw _ _ _ _) as [rng1 pick].
  destruct (find_child t at_row _) as [next|] eqn:Ef; [|eauto].
  destruct (find_child_some _ _ _ _ Ht Hat Ef) as (Hn & _). apply IH; [done | lia | lia].
Qed.
End lossless.

(** C3: Checking a tree of guesses changes nothing.  When the tail's rows are the
    model's logits along each row's path, the walk over any honest tree returns, and
    the tokens it emits are exactly those the same sampler, from the same random
    state, would have written one at a time after the last kept token; at least one
    token is emitted whatever was guessed. *)
Theorem tree_walk_is_lossless {Rng} (draw : Rng -> LogitsRow -> list Z -> nat -> Rng * Z) model t lead drafts rows
    generated rng :
  tree_ok t -> honest_check t (length lead) (length drafts) -> length rows = dt_len t ->
  Forall (fun row => row_is_finite row = true) rows ->
  (forall r row, rows !! r = Some row -> row = model (path_tokens (lead ++ drafts) t r)) ->
  exists rng' walked, walk_verified_tree draw t drafts rows generated rng = (rng', Ok walked) /\ walked <> [] /\
    decode draw model (length walked) rng generated (path_tokens (lead ++ drafts) t (length lead - 1))
      (depth t (length lead - 1)) = (rng', walked).
Proof.
  intros Ht Hh Hlen Hfin Hm. unfold walk_verified_tree. pose proof (tree_guesses_from_spec t (length drafts) (length rows)) as Hg.
  pose proof (hc_some _ _ _ Hh). pose proof (hc_len _ _ _ Hh) as Hl.
  destruct (tree_guesses_from t (length drafts) (length rows)) as [g|e|]; [|destruct Hg; eauto|done].
  destruct Hg as [Hh' _]. pose proof (hc_len _ _ _ Hh'). replace g with (length lead) by lia.
  destruct (walk_loop_returns draw t lead drafts rows Ht Hlen (dt_len t) rng generated [] (length lead - 1))
    as (rng' & w & E); [done | lia | lia |].
  exists rng', w. split; [done |].
  destruct (walk_loop_decodes draw model t lead drafts rows Ht Hlen Hm (dt_len t) rng generated [] (length lead - 1)%nat rng' w ltac:(lia) E) as (ext & -> & ? & ?).
  done.
Qed.

(** ** A chain is a tree *)

Lemma chain_find t i f :
  tree_ok t -> is_chain t = true -> (i < dt_len t)%nat ->
  find_child t i f = if (S i <? dt_len t)%nat && f (S i) then Some (S i) else None.
Proof.
  intros Ht Hc Hi. destruct (find_child t i f) as [c|] eqn:E.
  - destruct (find_child_some _ _ _ _ Ht Hi E) as (Hc1 & Hp & _ & Hf). rewrite chain_parent in Hp by (done || lia).
    destruct c as [|c]; [done |]. injection Hp as ->. rewrite Hf. by destruct (Nat.ltb_spec (S i) (dt_len t)); [|lia].
  - destruct (Nat.ltb_spec (S i) (dt_len t)) as [Hlt|]; [|done]. cbn [andb].
    rewrite (find_child_none _ _ _ (S i) Ht Hi E Hlt); [done |]. by rewrite chain_parent.
Qed.

Lemma chain_depth t i : tree_ok t -> is_chain t = true -> (i < dt_len t)%nat -> depth t i = i.
Proof.
  intros Ht Hc. induction i as [|i IH]; intros Hi; pose proof (chain_parent t _ Ht Hc Hi) as Hp; cbn in Hp.
  - by apply root_depth.
  - destruct (parent_spec t (S i) i Ht Hp) as (_ & _ & ->). rewrite IH by lia. done.
Qed.

Section chain.
Context {Rng : Type} (draw : Rng -> LogitsRow -> list Z -> nat -> Rng * Z).
Context (t : DraftTree) (drafts : list Z) (rows : list LogitsRow).
Hypothesis Ht : tree_ok t.
Hypothesis Hc : is_chain t = true.
Hypothesis Hlen : dt_len t = S (length drafts).
Hypothesis Hrows : length rows = dt_len t.
Hypothesis Hfin : Forall (fun row => row_is_finite row = true) rows.

(** What [sampled_accept_reject] does after its loop. *)
Definition finish_accept (r : Rng * list Z * list Z * option Z) : Rng * list Z :=
  match r with
  | (rng, _, accepted, Some bonus) => (rng, accepted ++ [bonus])
  | (rng, history, accepted, None) =>
      let '(rng, bonus) := draw rng (rows !!! length drafts) history (length drafts) in (rng, accepted ++ [bonus])
  end.

Lemma chain_loops rest : forall dn fuel rng history accepted,
  drafts = dn ++ rest -> (length rest < fuel)%nat ->
  walk_tree_loop draw fuel t 1 drafts rows rng history accepted (length dn) =
  (let '(rng', w) := finish_accept (accept_loop draw rest rows (length dn) rng history accepted) in (rng', Ok w)).
Proof.
  induction rest as [|q rest IH]; intros dn fuel rng history accepted E Hfuel; (destruct fuel as [|fuel]; [lia |]);
    cbn [walk_tree_loop accept_loop finish_accept].
  - rewrite app_nil_r in E. subst dn. rewrite list_lookup_lookup_total_lt by lia.
    rewrite (Forall_lookup_1 _ _ _ _ Hfin (list_lookup_lookup_total_lt rows (length drafts) ltac:(lia))). cbn [negb].
    rewrite chain_depth by (done || lia). destruct (draw _ _ _ _) as [rng1 pick].
    rewrite chain_find by (done || lia). by destruct (Nat.ltb_spec (S (length drafts)) (dt_len t)); [lia |].
  - assert (Hl : (S (length dn) < dt_len t)%nat) by (rewrite Hlen, E, length_app; cbn; lia).
    rewrite list_lookup_lookup_total_lt by lia.
    rewrite (Forall_lookup_1 _ _ _ _ Hfin (list_lookup_lookup_total_lt rows (length dn) ltac:(lia))). cbn [negb].
    rewrite chain_depth by (done || lia). destruct (draw _ _ _ _) as [rng1 pick].
    rewrite chain_find by (done || lia). destruct (Nat.ltb_spec (S (length dn)) (dt_len t)); [|lia]. cbn [andb].
    assert (Eg : guess_is 1 drafts pick (S (length dn)) = (pick =? q)).
    { unfold guess_is, token_is. cbn [andb Nat.leb]. rewrite Nat.sub_succ, Nat.sub_0_r, E, list_lookup_middle by done.
      destruct (Z.eqb_spec pick q); [subst; by rewrite bool_decide_true | rewrite bool_decide_false by congruence; done]. }
    rewrite Eg. destruct (Z.eqb_spec pick q) as [->|Hne]; [|done].
    specialize (IH (dn ++ [q]) fuel rng1 (history ++ [q]) (accepted ++ [q])).
    rewrite length_app, Nat.add_1_r, <- app_assoc in IH. apply IH; [done | cbn in Hfuel; lia].
Qed.
End chain.

(** The chain rule is the tree rule.  On a chain of guesses, the tail's
    accept-reject loop over positions and its walk over the tree give the same tokens
    and leave the same random state. *)
Theorem chain_walk_is_tree_walk {Rng} (draw : Rng -> LogitsRow -> list Z -> nat -> Rng * Z) t drafts rows generated rng :
  tree_ok t -> is_chain t = true -> dt_len t = S (length drafts) -> length rows = dt_len t ->
  Forall (fun row => row_is_finite row = true) rows ->
  walk_verified_positions draw drafts rows generated rng = walk_verified_tree draw t drafts rows generated rng.
Proof.
  intros Ht Hc Hlen Hrows Hfin. unfold walk_verified_positions, walk_verified_tree, sampled_accept_reject.
  assert (Hh : honest_check t 1 (length drafts)).
  { constructor; [lia | lia | |].
    - intros r Hr. apply chain_parent; [done | done | lia].
    - intros r Hr. rewrite chain_parent by (done || lia). destruct r as [|r]; [lia |]. exists r. split; [done | lia]. }
  pose proof (tree_guesses_from_spec t (length drafts) (length rows)) as Hg.
  destruct (tree_guesses_from _ _ _) as [g|e|]; [|destruct Hg; eauto|done]. destruct Hg as [Hh' _].
  replace g with 1%nat by (pose proof (hc_len _ _ _ Hh'); lia). clear g Hh'.
  rewrite Hrows, Hlen, Nat.add_1_r, Nat.eqb_refl. cbn [negb]. rewrite Nat.ltb_irrefl. cbn [orb].
  assert (Hv : verify_rows_are_finite (length drafts) rows = true).
  { unfold verify_rows_are_finite. apply forallb_forall. intros row Hin%list_elem_of_In.
    pose proof (Forall_take _ (length drafts + 1) rows Hfin) as Htake. rewrite list.Forall_forall in Htake. by apply Htake. }
  rewrite Hv. cbn [negb]. pose proof (chain_loops draw t drafts rows Ht Hc Hlen Hrows Hfin drafts [] (S (length drafts))
    rng generated [] eq_refl ltac:(lia)) as E. cbn [length] in E. change (1 - 1)%nat with 0%nat. rewrite E. clear E.
  destruct (accept_loop draw drafts rows 0 rng generated []) as [[[rng1 h] acc] [bonus|]]; [done |].
  cbn [finish_accept]. by destruct (draw _ _ _ _).
Qed.

(** ** Greedy walks from the argmaxes alone *)

Definition greedy {Rng} (rng : Rng) (row : LogitsRow) (history : list Z) (i : nat) : Rng * Z := (rng, argmax row).

(** A greedy check needs only each row's argmax: the walk over the argmaxes a
    card answers is the walk over the whole rows. *)
Theorem argmax_walk_is_greedy_walk {Rng} t drafts rows generated (rng : Rng) :
  Forall (fun row => row_is_finite row = true) rows ->
  walk_verified_tree greedy t drafts rows generated rng = (rng, argmax_walk_tree t drafts (map argmax rows)).
Proof.
  intros Hfin. unfold walk_verified_tree, argmax_walk_tree. rewrite length_map.
  destruct (tree_guesses_from _ _ _) as [g|e|]; [|done|done]. cbn [mbind outcome_bind].
  generalize (@nil Z) as walked. generalize (g - 1)%nat as at_row. revert generated.
  induction (dt_len t) as [|fuel IH]; intros generated at_row walked; cbn [walk_tree_loop argmax_loop]; [done |].
  unfold at_index. rewrite list_lookup_fmap. destruct (rows !! at_row) as [row|] eqn:E; [|done].
  rewrite (Forall_lookup_1 _ _ _ _ Hfin E). cbn [negb greedy fmap option_fmap option_map mbind outcome_bind].
  destruct (find_child _ _ _); [apply IH | done].
Qed.

(** ** Reading a walk back *)

(** [rows] lead down the tree from [r], each the parent of the next. *)
Fixpoint path_from (t : DraftTree) (r : nat) (rows : list nat) : Prop :=
  match rows with
  | [] => True
  | c :: rows => parent t c = Some r /\ (c < dt_len t)%nat /\ path_from t c rows
  end.

(** The last row of a path, or where it starts. *)
Definition end_of (r : nat) (rows : list nat) : nat := fold_left (fun _ c => c) rows r.

Lemma path_from_tokens t tokens rows : forall r,
  tree_ok t -> path_from t r rows ->
  path_tokens tokens t (end_of r rows) = path_tokens tokens t r ++ map (fun c => tokens !!! c) rows.
Proof.
  induction rows as [|c rows IH]; intros r Ht Hp; cbn [path_from map] in *; [by rewrite app_nil_r |].
  destruct Hp as (Hp & _ & Hrest). change (end_of r (c :: rows)) with (end_of c rows). rewrite IH by done.
  rewrite (path_child tokens t r c Ht Hp), <- app_assoc. done.
Qed.

Section read_back.
Context {Rng : Type} (draw : Rng -> LogitsRow -> list Z -> nat -> Rng * Z).
Context (t : DraftTree) (lead drafts : list Z) (rows : list LogitsRow).
Hypothesis Ht : tree_ok t.

Lemma find_guess_ext r pick :
  find_child t r (fun c => (length lead <=? c)%nat && token_is (lead ++ drafts) pick c) =
  find_child t r (guess_is (length lead) drafts pick).
Proof.
  unfold find_child. induction (children t (Some r)) as [|c cs IH]; [done |]. cbn.
  assert (E : ((length lead <=? c)%nat && token_is (lead ++ drafts) pick c) = guess_is (length lead) drafts pick c).
  { apply eq_true_iff_eq. rewrite guess_is_spec, andb_true_iff, token_is_spec, Nat.leb_le. done. }
  by rewrite E, IH.
Qed.

Lemma walk_loop_kept fuel : forall rng history walked at_row rng' w,
  (at_row < dt_len t)%nat ->
  walk_tree_loop draw fuel t (length lead) drafts rows rng history walked at_row = (rng', Ok w) ->
  exists kept bonus path, w = walked ++ kept ++ [bonus] /\
    kept_loop t (length lead) (lead ++ drafts) kept at_row = Some path /\
    path_from t at_row path /\ map (fun c => (lead ++ drafts) !! c) path = map Some kept /\
    Forall (fun c => length lead <= c)%nat path /\
    find_child t (end_of at_row path) (guess_is (length lead) drafts bonus) = None.
Proof.
  induction fuel as [|fuel IH]; intros rng history walked at_row rng' w Hat; cbn [walk_tree_loop]; [done |].
  destruct (rows !! at_row) as [row|]; [|done]. destruct (row_is_finite row); [|done]. cbn [negb].
  destruct (draw rng row history (depth t at_row)) as [rng1 pick].
  destruct (find_child t at_row _) as [next|] eqn:Ef.
  - destruct (find_child_some _ _ _ _ Ht Hat Ef) as (Hn & Hp & _ & Hg). apply guess_is_spec in Hg as [Hge Hg].
    intros Hw. apply IH in Hw as (kept & bonus & path & -> & Hk & Hpath & Htok & Hfa & Hend); [|lia].
    exists (pick :: kept), bonus, (next :: path). cbn [kept_loop path_from map]. rewrite find_guess_ext, Ef.
    cbn [mbind option_bind]. rewrite Hk. cbn [mbind option_bind]. rewrite <- app_assoc, Hg, Htok. split_and!; try done.
    + lia.
    + by constructor.
  - intros [= <- <-]. exists [], pick, []. split_and!; done.
Qed.
End read_back.

(** The coordinator reads a check exactly as the tail walked it.  From the tokens
    the tail answered, [kept_rows] finds the very rows the walk went through: a path
    of guesses down the tree from the last kept row, carrying the kept tokens in
    order, ending where no guess carries the final draw. *)
Theorem kept_rows_read_the_walk {Rng} (draw : Rng -> LogitsRow -> list Z -> nat -> Rng * Z) t lead drafts rows
    generated rng rng' walked :
  tree_ok t -> honest_check t (length lead) (length drafts) ->
  walk_verified_tree draw t drafts rows generated rng = (rng', Ok walked) ->
  exists kept bonus path, walked = kept ++ [bonus] /\
    kept_rows t (length lead) (lead ++ drafts) kept = Some path /\
    path_from t (length lead - 1) path /\ map (fun c => (lead ++ drafts) !! c) path = map Some kept /\
    Forall (fun c => length lead <= c)%nat path /\
    (forall c, (c < dt_len t)%nat -> parent t c = Some (end_of (length lead - 1) path) ->
       guess_is (length lead) drafts bonus c = false).
Proof.
  intros Ht Hh. unfold walk_verified_tree. pose proof (hc_some _ _ _ Hh). pose proof (hc_len _ _ _ Hh).
  pose proof (tree_guesses_from_spec t (length drafts) (length rows)) as Hg.
  destruct (tree_guesses_from _ _ _) as [g|e|]; [|done|done]. destruct Hg as [Hh' _].
  replace g with (length lead) by (pose proof (hc_len _ _ _ Hh'); lia). intros Hw.
  apply walk_loop_kept in Hw as (kept & bonus & path & -> & Hk & Hpath & Htok & Hfa & Hend); [|done | lia].
  exists kept, bonus, path. split_and!; try done.
  - unfold kept_rows. destruct (length lead) as [|g'] eqn:E; [lia |]. rewrite Nat.sub_succ, Nat.sub_0_r in Hk. done.
  - intros c Hc Hp. apply (find_child_none t (end_of (length lead - 1) path)); try done.
    destruct (parent_spec t c _ Ht Hp). lia.
Qed.

(** ** The walk over a tree that flows *)

Lemma walk_draws_fuel t tokens draws fuel : forall fuel' at_row,
  tree_ok t -> (at_row < dt_len t)%nat -> (dt_len t <= S (at_row + fuel))%nat -> (fuel <= fuel')%nat ->
  walk_draws_loop fuel' t tokens draws at_row = walk_draws_loop fuel t tokens draws at_row.
Proof.
  induction fuel as [|fuel IH]; intros fuel' at_row Ht Hat Hlen Hle.
  - destruct fuel' as [|fuel']; [done |]. cbn [walk_draws_loop]. destruct (mjoin (draws !! at_row)) as [d|]; [|done].
    destruct (find_child t at_row _) as [next|] eqn:E; [|done].
    destruct (find_child_some _ _ _ _ Ht Hat E). lia.
  - destruct fuel' as [|fuel']; [lia |]. cbn [walk_draws_loop]. destruct (mjoin (draws !! at_row)) as [d|]; [|done].
    destruct (find_child t at_row _) as [next|] eqn:E; [|done].
    destruct (find_child_some _ _ _ _ Ht Hat E). rewrite (IH fuel') by (done || lia). done.
Qed.

Lemma walk_draws_step t tokens draws at_row :
  tree_ok t -> (at_row < dt_len t)%nat ->
  walk_draws t tokens draws at_row =
  match mjoin (draws !! at_row) with
  | None => ([], Waiting at_row)
  | Some d =>
      match find_child t at_row (token_is tokens d) with
      | Some next => let '(emitted, e) := walk_draws t tokens draws next in (d :: emitted, e)
      | None => ([d], Missed at_row d)
      end
  end.
Proof.
  intros Ht Hat. unfold walk_draws at 1. destruct (dt_len t) as [|n] eqn:En; [lia |]. cbn [walk_draws_loop].
  destruct (mjoin (draws !! at_row)) as [d|]; [|done].
  destruct (find_child t at_row _) as [next|] eqn:E; [|done].
  destruct (find_child_some t at_row _ _ Ht ltac:(lia) E). unfold walk_draws.
  rewrite (walk_draws_fuel t tokens draws n (dt_len t)) by (done || lia). done.
Qed.

(** Down the rows of a tree. *)
Lemma rows_below (t : DraftTree) (P : nat -> Prop) :
  tree_ok t -> (forall r, (r < dt_len t)%nat -> (forall c, (r < c < dt_len t)%nat -> P c) -> P r) ->
  forall r, (r < dt_len t)%nat -> P r.
Proof.
  intros Ht Hstep r. remember (dt_len t - r)%nat as n eqn:En. revert r En.
  induction (lt_wf n) as [n _ IH]. intros r En Hr. apply Hstep; [done |]. intros c Hc.
  apply (IH (dt_len t - c)%nat); lia.
Qed.

(** [n] draws of the model, each after the ones before it. *)
Fixpoint unroll (pick : list Z -> Z) (path : list Z) (n : nat) : list Z :=
  match n with O => [] | S n => pick path :: unroll pick (path ++ [pick path]) n end.

(** The walk over a flowing tree emits the model's own draws.  When every draw
    that has come back is the model's draw after its row's path, the tokens emitted
    are the model's successive draws after the row the walk started from, whatever
    rows were guessed; the walk ends on the row that follows them, whose draw is
    still out, or at a draw no following row carries. *)
Theorem flow_walk_is_lossless pick t tokens draws at_row emitted e :
  tree_ok t -> (at_row < dt_len t)%nat ->
  (forall r d, draws !! r = Some (Some d) -> d = pick (path_tokens tokens t r)) ->
  walk_draws t tokens draws at_row = (emitted, e) ->
  emitted = unroll pick (path_tokens tokens t at_row) (length emitted) /\
  match e with
  | Waiting row => (row < dt_len t)%nat /\ mjoin (draws !! row) = None /\
      path_tokens tokens t row = path_tokens tokens t at_row ++ emitted
  | Missed row tok => (row < dt_len t)%nat /\ draws !! row = Some (Some tok) /\
      path_tokens tokens t row ++ [tok] = path_tokens tokens t at_row ++ emitted /\
      forall c, (c < dt_len t)%nat -> parent t c = Some row -> tokens !! c <> Some tok
  end.
Proof.
  intros Ht Hat Hd. revert emitted e. pattern at_row. apply (rows_below t _ Ht); [|done]. clear at_row Hat.
  intros r Hr IH emitted e.
  rewrite walk_draws_step by done. destruct (draws !! r) as [[d|]|] eqn:Er; cbn [mjoin option_join].
  2, 3: intros [= <- <-]; split_and!; [done | done | by rewrite Er | by rewrite app_nil_r].
  pose proof (Hd r d Er) as Ed. destruct (find_child t r _) as [next|] eqn:Ef.
  - destruct (find_child_some _ _ _ _ Ht Hr Ef) as (Hn & Hp & _ & Htok). apply token_is_spec in Htok.
    destruct (walk_draws t tokens draws next) as [em x] eqn:Ew. intros [= <- <-].
    destruct (IH next Hn em x Ew) as [Hem Hx].
    assert (Epath : path_tokens tokens t next = path_tokens tokens t r ++ [d]).
    { by rewrite (path_child _ t r next Ht Hp), (list_lookup_total_correct _ _ _ Htok). }
    rewrite Epath in Hem, Hx. cbn [length unroll]. rewrite <- Ed. split; [by f_equal |].
    destruct x as [row|row tok]; rewrite <- app_assoc in Hx; apply Hx.
  - intros [= <- <-]. split; [cbn; by rewrite <- Ed |]. split_and!; try done. intros c Hc Hp Htok.
    apply token_is_spec in Htok. by rewrite (find_child_none _ _ _ c Ht Hr Ef Hc Hp) in Htok.
Qed.

(** Later draws continue a walk where it waits, and leave a finished one alone. *)
Lemma walk_draws_resumes t tokens draws draws' at_row :
  tree_ok t -> (at_row < dt_len t)%nat ->
  (forall r d, draws !! r = Some (Some d) -> draws' !! r = Some (Some d)) ->
  walk_draws t tokens draws' at_row =
  match walk_draws t tokens draws at_row with
  | (emitted, Waiting row) => let '(more, e) := walk_draws t tokens draws' row in (emitted ++ more, e)
  | done => done
  end.
Proof.
  intros Ht Hat Hext. pattern at_row. apply (rows_below t _ Ht); [|done]. clear at_row Hat. intros r Hr IH.
  rewrite (walk_draws_step t tokens draws) by done. destruct (draws !! r) as [[d|]|] eqn:Er; cbn [mjoin option_join].
  2, 3: by destruct (walk_draws t tokens draws' r).
  rewrite walk_draws_step by done. rewrite (Hext r d Er). cbn [mjoin option_join].
  destruct (find_child t r _) as [next|] eqn:Ef; [|done].
  destruct (find_child_some _ _ _ _ Ht Hr Ef) as (Hn & _). rewrite (IH next Hn).
  destruct (walk_draws t tokens draws next) as [em [row|row tok]]; [|done].
  by destruct (walk_draws t tokens draws' row).
Qed.

(** ** Witnesses *)

Definition one_hot (k : nat) : LogitsRow := map (fun i => if (i =? k)%nat then F32.one else F32.zero) (seq 0 10).

(** A model over the sample tree: the tokens it draws are 7, 9, 4. *)
Definition toy_model (path : list Z) : LogitsRow :=
  one_hot (match list.last path with Some 100 => 7%nat | Some 7 => 9%nat | Some 9 => 4%nat | _ => 5%nat end).
Definition toy_rows : list LogitsRow := map (fun r => toy_model (path_tokens [100; 7; 8; 9] sample_tree r)) (seq 0 4).

Lemma toy_rows_model r row : toy_rows !! r = Some row -> row = toy_model (path_tokens ([100] ++ [7; 8; 9]) sample_tree r).
Proof.
  unfold toy_rows. rewrite list_lookup_fmap. destruct (seq 0 4 !! r) as [x|] eqn:E; [|done].
  apply lookup_seq in E as [-> _]. by intros [= <-].
Qed.

Lemma sample_honest : honest_check sample_tree 1 3.
Proof. pose proof (tree_guesses_from_spec sample_tree 3 4) as H. vm_compute in H. apply H. Qed.

Lemma toy_rows_finite : Forall (fun row => row_is_finite row = true) toy_rows.
Proof. repeat constructor. Qed.

Lemma tree_walk_is_lossless_witness :
  exists walked, walk_verified_tree greedy sample_tree [7; 8; 9] toy_rows [] tt = (tt, Ok walked) /\
    decode greedy toy_model (length walked) tt [] [100] 0 = (tt, walked).
Proof.
  destruct (tree_walk_is_lossless greedy toy_model sample_tree [100] [7; 8; 9] toy_rows [] tt)
    as ([] & w & Hw & _ & Hd).
  - exact sample_tree_ok.
  - exact sample_honest.
  - reflexivity.
  - exact toy_rows_finite.
  - exact toy_rows_model.
  - exists w. split; [exact Hw | exact Hd].
Defined.

Example toy_walk : walk_verified_tree greedy sample_tree [7; 8; 9] toy_rows [] tt = (tt, Ok [7; 9; 4]).
Proof. reflexivity. Qed.

Lemma kept_rows_read_the_walk_witness :
  exists kept bonus path, [7; 9; 4] = kept ++ [bonus] /\ kept_rows sample_tree 1 [100; 7; 8; 9] kept = Some path.
Proof.
  destruct (kept_rows_read_the_walk greedy sample_tree [100] [7; 8; 9] toy_rows [] tt tt [7; 9; 4] sample_tree_ok
    sample_honest eq_refl) as (kept & bonus & path & H1 & H2 & _).
  exists kept, bonus, path. split; [exact H1 | exact H2].
Defined.

Lemma chain_walk_is_tree_walk_witness :
  walk_verified_positions greedy [7; 9] [one_hot 7; one_hot 8; one_hot 1] [] tt =
  walk_verified_tree greedy sample_chain [7; 9] [one_hot 7; one_hot 8; one_hot 1] [] tt.
Proof.
  apply (chain_walk_is_tree_walk greedy sample_chain [7; 9] [one_hot 7; one_hot 8; one_hot 1] [] tt);
    [exact sample_chain_ok | reflexivity | reflexivity | reflexivity | repeat constructor].
Defined.

Lemma argmax_walk_is_greedy_walk_witness :
  walk_verified_tree greedy sample_tree [7; 8; 9] toy_rows [] tt =
  (tt, argmax_walk_tree sample_tree [7; 8; 9] (map argmax toy_rows)).
Proof. apply (argmax_walk_is_greedy_walk sample_tree [7; 8; 9] toy_rows [] tt). exact toy_rows_finite. Defined.

(** The draws of rows 0 and 1 are back, row 3's is out. *)
Lemma flow_walk_is_lossless_witness :
  let pick := fun path : list Z => argmax (toy_model path) in
  walk_draws sample_tree [100; 7; 8; 9] [Some 7; Some 9; None; None] 0 = ([7; 9], Waiting 3) /\
  [7; 9] = unroll pick [100] 2.
Proof.
  cbn zeta. split; [reflexivity |].
  apply (flow_walk_is_lossless (fun path => argmax (toy_model path)) sample_tree [100; 7; 8; 9]
    [Some 7; Some 9; None; None] 0 [7; 9] (Waiting 3)).
  - exact sample_tree_ok.
  - cbn. lia.
  - intros [|[|[|[|r]]]] d; cbn; intros [= <-]; reflexivity.
  - reflexivity.
Defined.
