(* ===== verification/FlowTree.v ===== *)
(** * A tree that flows ([FlowTree] of [src/inference/draft_tree.rs])

    The requester and the drafter each hold the tree, its tokens and the row the
    walk stands on, and change it by the same operations: push a row, advance the
    walk, rebase to the live rows.  [rebase_forward] is the forward that reads a
    rebased tree into a segment whose cache was cut back.  A [usize] used as a row
    index table holds [usize::MAX] where nothing was written, so that table is in Z. *)
From S2P Require Import Prelude Bytes ForwardTypes ForwardCodec DraftTree SpecWalk.


(** [new_index[old] = new] over the rows of [order]; [usize::MAX] elsewhere. *)
Definition new_index (len : nat) (order : list nat) : list Z :=
  fold_left (fun v '(new, old) => <[old := Z.of_nat new]> v) (zip (seq 0 (length order)) order)
    (replicate len usize_max).

(** [new_index[p] as u16]. *)
Definition renumbered (idx : list Z) (p : nat) : nat := Z.to_nat ((idx !!! p) mod 65536).

Inductive FlowOp : Type :=
| OpPush (parent : nat) (token : Z)
| OpCopy (parent : nat) (token : Z)
| OpAdvance (row : nat)
| OpRebase.

Record Rebased : Type := { rb_old_base : nat; rb_path : list Z; rb_kept : list nat }.

Record FlowTree : Type := { ft_tree : DraftTree; ft_tokens : list Z; ft_at : nat }.

Definition flow_new (base : nat) (root : Z) : call string FlowTree :=
  t ← tree_new base [None]; Ok {| ft_tree := t; ft_tokens := [root]; ft_at := 0 |}.

Definition flow_len (f : FlowTree) : nat := length (ft_tokens f).

(** The loop of [is_live]: up to the depth of the walk's row. *)
Fixpoint climb_to (t : DraftTree) (floor fuel r : nat) : option nat :=
  if (floor <? depth t r)%nat then
    match parent t r, fuel with
    | Some p, S fuel => climb_to t floor fuel p
    | _, _ => None
    end
  else Some r.

Definition is_live (f : FlowTree) (row : nat) : bool :=
  if (flow_len f <=? row)%nat then false
  else match climb_to (ft_tree f) (depth (ft_tree f) (ft_at f)) row row with
       | Some r => (r =? ft_at f)%nat
       | None => false
       end.

(** The live rows, from the walk's row on. *)
Definition live_from (f : FlowTree) : list nat :=
  List.filter (is_live f) (seq (ft_at f) (flow_len f - ft_at f)).
Definition live_rows (f : FlowTree) : nat := length (live_from f).

Definition child_carrying (f : FlowTree) (par : nat) (token : Z) : option nat :=
  find_child (ft_tree f) par (token_is (ft_tokens f) token).
Definition has_child (f : FlowTree) (par : nat) (token : Z) : bool :=
  match child_carrying f par token with Some _ => true | None => false end.

Definition flow_push (f : FlowTree) (par : nat) (token : Z) : call string (FlowTree * nat) :=
  if (flow_len f <=? par)%nat
  then Err ("a row after row " +:+ pretty par +:+ " of a tree of " +:+ pretty (flow_len f) +:+ " rows")
  else if has_child f par token
  then Err ("row " +:+ pretty par +:+ " is followed by " +:+ pretty token +:+ " already")
  else
    '(t, row) ← tree_push (ft_tree f) (Some par);
    Ok ({| ft_tree := t; ft_tokens := ft_tokens f ++ [token]; ft_at := ft_at f |}, row).

Definition flow_advance (f : FlowTree) (row : nat) : call string FlowTree :=
  if negb (is_live f row)
  then Err ("the walk cannot move from row " +:+ pretty (ft_at f) +:+ " to row " +:+ pretty row)
  else Ok {| ft_tree := ft_tree f; ft_tokens := ft_tokens f; ft_at := row |}.

(** [successors(parent(at), parent)]. *)
Definition rows_above (t : DraftTree) (row : nat) : list nat :=
  match parent t row with Some p => ancestors_and_self t p | None => [] end.

Definition flow_rebase (f : FlowTree) : call string (FlowTree * Rebased) :=
  let t := ft_tree f in
  let old_base := dt_base t in
  let path := reverse (map (fun r => ft_tokens f !!! r) (rows_above t (ft_at f))) in
  let kept := live_from f in
  let idx := new_index (flow_len f) kept in
  let parents := map (fun old => if (old =? ft_at f)%nat then None else renumbered idx <$> parent t old) kept in
  let tokens := map (fun old => ft_tokens f !!! old) kept in
  t' ← tree_new (old_base + length path) parents;
  Ok ({| ft_tree := t'; ft_tokens := tokens; ft_at := 0 |},
      {| rb_old_base := old_base; rb_path := path; rb_kept := kept |}).

(** The tokens of the forward and its shape in wire form. *)
Definition rebase_forward (f : FlowTree) (rb : Rebased) : list Z * list Z :=
  let lead := length (rb_path rb) in
  let lead16 := Z.of_nat lead mod 65536 in
  (rb_path rb ++ ft_tokens f,
   map Z.of_nat (seq 0 (Z.to_nat lead16)) ++
   map (fun w => if w =? 0 then lead16 else (w + lead16) mod 65536) (to_wire (ft_tree f))).

(** [apply]: the tree, and what a rebase did. *)
Definition flow_apply (f : FlowTree) (op : FlowOp) : call string (FlowTree * option Rebased) :=
  match op with
  | OpPush par token | OpCopy par token => '(f, _) ← flow_push f par token; Ok (f, None)
  | OpAdvance row => f ← flow_advance f row; Ok (f, None)
  | OpRebase => '(f, rb) ← flow_rebase f; Ok (f, Some rb)
  end.

(** ** The invariant *)

Record flow_ok (f : FlowTree) : Prop := {
  fl_tree : tree_ok (ft_tree f);
  fl_tokens : flow_len f = dt_len (ft_tree f);
  fl_at : (ft_at f < flow_len f)%nat;
  (** One root, row 0. *)
  fl_root : parent (ft_tree f) 0 = None;
  fl_rooted : forall r, (0 < r < flow_len f)%nat -> is_Some (parent (ft_tree f) r);
  (** The rows following one row carry distinct tokens. *)
  fl_distinct : forall p c c', parent (ft_tree f) c = Some p -> parent (ft_tree f) c' = Some p ->
    ft_tokens f !! c = ft_tokens f !! c' -> c = c' }.

(** Rows below [at] in the tree: those [at] is an ancestor of, or is. *)
Lemma climb_to_spec t at_row fuel : forall r,
  tree_ok t -> (at_row < dt_len t)%nat -> (r < dt_len t)%nat -> (r <= fuel)%nat ->
  (climb_to t (depth t at_row) fuel r = Some at_row <-> at_row ∈ ancestors_and_self t r).
Proof.
  induction fuel as [|fuel IH]; intros r Ht Hat Hr Hle; (rewrite ancestors_step by done); rewrite elem_of_cons;
    cbn [climb_to]; destruct (parent t r) as [p|] eqn:Ep.
  all: try (destruct (parent_spec t r p Ht Ep) as (Hp & _ & Hdp)).
  - lia.
  - rewrite (root_depth t r) by done. destruct (Nat.ltb_spec (depth t at_row) 0); [lia |].
    split; [intros [= ->]; by left | intros [->|?%not_elem_of_nil]; done].
  - destruct (Nat.ltb_spec (depth t at_row) (depth t r)) as [Hlt|Hge].
    + rewrite IH by (done || lia). split; [by right |]. intros [->|?]; [lia | done].
    + split; [intros [= ->]; by left |]. intros [->|Hin]; [done |]. exfalso.
      assert (depth t at_row <= depth t p)%nat; [|lia].
      clear -Ht Hin. revert Hin. pattern p. apply (row_ind t _ Ht). intros q IHq Hin.
      rewrite ancestors_step in Hin by done. apply elem_of_cons in Hin as [->|Hin]; [done |].
      destruct (parent t q) as [q'|] eqn:Eq; [|by apply not_elem_of_nil in Hin].
      destruct (parent_spec t q q' Ht Eq) as (_ & _ & ->). specialize (IHq q' eq_refl Hin). lia.
  - rewrite (root_depth t r) by done. destruct (Nat.ltb_spec (depth t at_row) 0); [lia |].
    split; [intros [= ->]; by left | intros [->|?%not_elem_of_nil]; done].
Qed.

Lemma is_live_spec f row :
  flow_ok f -> is_live f row = true <-> (row < flow_len f)%nat /\ ft_at f ∈ ancestors_and_self (ft_tree f) row.
Proof.
  intros Hf. unfold is_live. destruct (Nat.leb_spec (flow_len f) row) as [?|Hr]; [split; [done | lia] |].
  pose proof (fl_at f Hf). pose proof (fl_tokens f Hf).
  rewrite <- (climb_to_spec (ft_tree f) (ft_at f) row row) by (apply Hf || lia).
  destruct (climb_to _ _ _ _) as [r|]; [rewrite Nat.eqb_eq |]; split; try done; [by intros -> | by intros [_ [= ->]] |by intros [_ ?]].
Qed.

(** ** Renumbering rows *)

Lemma new_index_fold order : forall k (v : list Z) o,
  NoDup order -> Forall (fun r => r < length v)%nat order ->
  let v' := fold_left (fun v '(new, old) => <[old := Z.of_nat new]> v) (zip (seq k (length order)) order) v in
  length v' = length v /\
  (forall i, order !! i = Some o -> v' !! o = Some (Z.of_nat (k + i))) /\ (o ∉ order -> v' !! o = v !! o).
Proof.
  induction order as [|x order IH]; intros k v o Hnd Hb; cbn.
  { split_and!; [done | intros i; by rewrite lookup_nil | done]. }
  apply list.NoDup_cons in Hnd as [Hx Hnd]. apply list.Forall_cons in Hb as [Hxb Hb].
  destruct (IH (S k) (<[x := Z.of_nat k]> v) o Hnd) as (Hl & H1 & H2); [by rewrite length_insert |].
  rewrite length_insert in Hl. split_and!; [done | |].
  - intros [|i]; cbn.
    + intros [= ->]. rewrite H2 by done. rewrite list_lookup_insert_eq by done. do 2 f_equal. lia.
    + intros Hi. rewrite (H1 i Hi). do 2 f_equal. lia.
  - rewrite not_elem_of_cons. intros [Hne Hin]. rewrite H2 by done. by rewrite list_lookup_insert_ne.
Qed.

Lemma renumbered_spec len order i o :
  NoDup order -> Forall (fun r => r < len)%nat order -> Z.of_nat (length order) <= MAX_TREE_ROWS ->
  order !! i = Some o -> renumbered (new_index len order) o = i.
Proof.
  intros Hnd Hb Hmax Hi. unfold renumbered, new_index.
  destruct (new_index_fold order 0 (replicate len usize_max) o Hnd) as (_ & H1 & _);
    [by rewrite length_replicate |].
  rewrite (list_lookup_total_correct _ _ _ (H1 i Hi)). apply lookup_lt_Some in Hi. unfold MAX_TREE_ROWS in *.
  rewrite Z.mod_small by lia. cbn. lia.
Qed.

(** ** Part of a tree, laid out anew

    [order] lists rows of [t]; [t'] has one row for each, and names parents as [t]
    does, or none where the row's own parent is left out. *)
Definition embeds (t t' : DraftTree) (order : list nat) : Prop :=
  length order = dt_len t' /\
  forall i o p, order !! i = Some o -> parent t' i = Some p ->
    exists q, order !! p = Some q /\ parent t o = Some q.

Lemma embeds_ancestors t t' order :
  tree_ok t -> tree_ok t' -> embeds t t' order ->
  forall i o, order !! i = Some o ->
  exists i0 o0, order !! i0 = Some o0 /\ parent t' i0 = None /\
    ancestors_and_self t o = map (fun r => order !!! r) (ancestors_and_self t' i) ++ rows_above t o0.
Proof.
  intros Ht Ht' [_ He] i. pattern i. apply (row_ind t' _ Ht'). clear i. intros i IH o Hi.
  rewrite (ancestors_step t' i) by done. destruct (parent t' i) as [p|] eqn:Ep.
  - destruct (He i o p Hi Ep) as (q & Hp & Hq). destruct (IH p eq_refl q Hp) as (i0 & o0 & H0 & H1 & H2).
    exists i0, o0. split_and!; [done | done |]. rewrite ancestors_step, Hq, H2 by done. cbn.
    by rewrite (list_lookup_total_correct _ _ _ Hi).
  - exists i, o. split_and!; [done | done |]. rewrite ancestors_step by done. cbn.
    rewrite (list_lookup_total_correct _ _ _ Hi). unfold rows_above. by destruct (parent t o).
Qed.

(** The tokens of a row's path, in both numberings. *)
Lemma embeds_path t t' order tokens :
  tree_ok t -> tree_ok t' -> embeds t t' order ->
  forall i o, order !! i = Some o ->
  exists i0 o0, order !! i0 = Some o0 /\ parent t' i0 = None /\
    path_tokens tokens t o = reverse (map (fun r => tokens !!! r) (rows_above t o0)) ++
      path_tokens (map (fun r => tokens !!! r) order) t' i.
Proof.
  intros Ht Ht' He i o Hi. destruct (embeds_ancestors t t' order Ht Ht' He i o Hi) as (i0 & o0 & H0 & H1 & E).
  exists i0, o0. split_and!; [done | done |]. unfold path_tokens. rewrite E, reverse_app, map_app, <- !fmap_reverse.
  f_equal. apply lookup_lt_Some in Hi. destruct He as [Hlen _].
  assert (Hb : Forall (fun r => r < length order)%nat (ancestors_and_self t' i)).
  { apply list.Forall_forall. intros r Hr%ancestors_bound; [lia | done]. }
  etrans; [apply map_map |]. apply map_ext_Forall. rewrite Forall_reverse. eapply list.Forall_impl; [exact Hb |].
  intros r Hr. destruct (lookup_lt_is_Some_2 order r Hr) as [x Hx].
  rewrite (list_lookup_total_correct _ _ _ Hx). symmetry. apply list_lookup_total_correct.
  by rewrite list_lookup_fmap, Hx.
Qed.

(** ** Filtered row ranges are increasing *)

Lemma filter_seq_mono (f : nat -> bool) k n : forall i j a b,
  List.filter f (seq k n) !! i = Some a -> List.filter f (seq k n) !! j = Some b -> (a < b)%nat -> (i < j)%nat.
Proof.
  revert k. induction n as [|n IH]; intros k i j a b; cbn; [done |].
  assert (Hge : forall i a, List.filter f (seq (S k) n) !! i = Some a -> (S k <= a)%nat).
  { intros i' a' Hl%list_elem_of_lookup_2. apply list_elem_of_In, List.filter_In in Hl as [Hl _].
    apply in_seq in Hl. lia. }
  destruct (f k); [|apply IH]. destruct i as [|i], j as [|j]; cbn; intros Ha Hb Hlt.
  - simplify_eq. lia.
  - lia.
  - simplify_eq. apply Hge in Ha. lia.
  - specialize (IH (S k) i j a b Ha Hb Hlt). lia.
Qed.

Lemma filter_seq_elem (f : nat -> bool) k n r : r ∈ List.filter f (seq k n) <-> (k <= r < k + n)%nat /\ f r = true.
Proof. by rewrite list_elem_of_In, List.filter_In, in_seq. Qed.

Lemma filter_seq_nodup (f : nat -> bool) k n : NoDup (List.filter f (seq k n)).
Proof. apply NoDup_ListNoDup, List.NoDup_filter, seq_NoDup. Qed.

(** ** Live rows *)

Lemma elem_of_live f r :
  flow_ok f -> r ∈ live_from f <-> (r < flow_len f)%nat /\ ft_at f ∈ ancestors_and_self (ft_tree f) r.
Proof.
  intros Hf. unfold live_from. rewrite filter_seq_elem, is_live_spec by done. split; [tauto |].
  intros [Hr Hin]. pose proof (ancestors_bound _ _ _ (fl_tree f Hf) Hin). pose proof (fl_at f Hf). split; [lia | done].
Qed.

Lemma live_head f : flow_ok f -> live_from f !! 0%nat = Some (ft_at f).
Proof.
  intros Hf. unfold live_from. pose proof (fl_at f Hf). destruct (flow_len f - ft_at f)%nat as [|n] eqn:E; [lia |]. cbn.
  assert (is_live f (ft_at f) = true) as ->; [|done]. apply is_live_spec; [done |]. split; [done |].
  rewrite ancestors_step by apply Hf. by left.
Qed.

(** The parent of a live row below the walk's is live. *)
Lemma live_parent f r :
  flow_ok f -> r ∈ live_from f -> r <> ft_at f -> exists q, parent (ft_tree f) r = Some q /\ q ∈ live_from f.
Proof.
  intros Hf Hr Hne. apply elem_of_live in Hr as [Hr Hin]; [|done]. rewrite ancestors_step in Hin by apply Hf.
  apply elem_of_cons in Hin as [?|Hin]; [done |].
  destruct (parent (ft_tree f) r) as [q|] eqn:E; [|by apply not_elem_of_nil in Hin].
  exists q. split; [done |]. apply elem_of_live; [done |]. destruct (parent_spec _ _ _ (fl_tree f Hf) E). split; [lia | done].
Qed.

Lemma live_bounds f :
  flow_ok f -> NoDup (live_from f) /\ Forall (fun r => r < flow_len f)%nat (live_from f) /\
    Z.of_nat (length (live_from f)) <= MAX_TREE_ROWS.
Proof.
  intros Hf. assert (Hb : Forall (fun r => r < flow_len f)%nat (live_from f)).
  { apply list.Forall_forall. intros r Hr. by apply elem_of_live in Hr as [? _]. }
  split_and!; [apply filter_seq_nodup | done |]. pose proof (ok_len _ (fl_tree f Hf)). rewrite <- (fl_tokens f Hf) in *.
  etrans; [|done]. unfold live_from. pose proof (List.filter_length_le (is_live f) (seq (ft_at f) (flow_len f - ft_at f))) as Hle.
  rewrite length_seq in Hle. lia.
Qed.

(** ** Rebasing *)

Definition rebased_parents (f : FlowTree) : list (option nat) :=
  map (fun old => if (old =? ft_at f)%nat then None
                  else renumbered (new_index (flow_len f) (live_from f)) <$> parent (ft_tree f) old) (live_from f).

Lemma rebased_parent f i o :
  flow_ok f -> live_from f !! i = Some o ->
  if (o =? ft_at f)%nat then i = O /\ rebased_parents f !! i = Some None
  else exists p q, parent (ft_tree f) o = Some q /\ live_from f !! p = Some q /\ rebased_parents f !! i = Some (Some p) /\ (p < i)%nat.
Proof.
  intros Hf Hi. destruct (live_bounds f Hf) as (Hnd & Hb & Hmax). unfold rebased_parents.
  rewrite list_lookup_fmap, Hi. cbn. destruct (Nat.eqb_spec o (ft_at f)) as [->|Hne].
  - split; [|done]. by apply (NoDup_lookup (live_from f) i 0 (ft_at f)); [| |apply live_head].
  - destruct (live_parent f o Hf) as (q & Hq & Hlive); [by apply list_elem_of_lookup_2 in Hi | done |].
    apply list_elem_of_lookup_1 in Hlive as [p Hp]. exists p, q. split_and!; [done | done | |].
    + rewrite Hq. cbn. by rewrite (renumbered_spec _ (live_from f) p q).
    + apply (filter_seq_mono _ _ _ p i q o Hp Hi). by apply (parent_spec _ _ _ (fl_tree f Hf) Hq).
Qed.

Lemma length_rows_above t r :
  tree_ok t -> (r < dt_len t)%nat -> length (rows_above t r) = depth t r.
Proof.
  intros Ht Hr. pose proof (ancestors_length t r Ht Hr) as H. rewrite ancestors_step in H by done.
  cbn in H. injection H as H. exact H.
Qed.

Lemma flow_rebase_spec f :
  flow_ok f -> exists t', tree_ok t' /\
    dt_base t' = (dt_base (ft_tree f) + depth (ft_tree f) (ft_at f))%nat /\ dt_parents t' = rebased_parents f /\
    flow_rebase f = Ok ({| ft_tree := t'; ft_tokens := map (fun o => ft_tokens f !!! o) (live_from f); ft_at := 0 |},
      {| rb_old_base := dt_base (ft_tree f);
         rb_path := reverse (map (fun r => ft_tokens f !!! r) (rows_above (ft_tree f) (ft_at f)));
         rb_kept := live_from f |}).
Proof.
  intros Hf. pose proof (fl_tree f Hf) as Ht. destruct (live_bounds f Hf) as (Hnd & Hb & Hmax).
  destruct (tree_new_ok (dt_base (ft_tree f) + depth (ft_tree f) (ft_at f)) (rebased_parents f)) as (t' & E & Ht' & Eb & Ep).
  - pose proof (ok_base _ Ht). lia.
  - unfold rebased_parents, blen. by rewrite length_map.
  - intros i p Hi. unfold rebased_parents in Hi. rewrite list_lookup_fmap in Hi.
    destruct (live_from f !! i) as [o|] eqn:Eo; [|done]. pose proof (rebased_parent f i o Hf Eo) as Hr.
    unfold rebased_parents in Hr. rewrite list_lookup_fmap, Eo in Hr. cbn in Hi, Hr. injection Hi as Hi. rewrite Hi in Hr.
    destruct (o =? ft_at f)%nat; [by destruct Hr as [_ ?] |]. destruct Hr as (p' & q & _ & _ & Hp' & ?). congruence.
  - exists t'. split_and!; [done | done | done |]. unfold flow_rebase. fold (rebased_parents f).
    rewrite length_reverse, length_map, length_rows_above; [|done | rewrite <- (fl_tokens f Hf); apply Hf].
    rewrite E. done.
Qed.

(** What a rebase leaves, row by row. *)
Lemma flow_rebase_embeds f t' :
  flow_ok f -> dt_parents t' = rebased_parents f -> embeds (ft_tree f) t' (live_from f) /\
    (forall i o, live_from f !! i = Some o -> parent t' i = None -> o = ft_at f) /\
    (forall i, (0 < i < dt_len t')%nat -> is_Some (parent t' i)) /\ parent t' 0 = None.
Proof.
  intros Hf Ep. assert (Hpar : forall i o, live_from f !! i = Some o ->
    parent t' i = mjoin (rebased_parents f !! i)) by (intros; unfold parent; by rewrite Ep).
  assert (Hlen : dt_len t' = length (live_from f)) by (unfold dt_len; rewrite Ep; unfold rebased_parents; by rewrite length_map).
  split_and!.
  - split; [done |]. intros i o p Hi Hp. rewrite (Hpar i o Hi) in Hp. pose proof (rebased_parent f i o Hf Hi) as Hr.
    destruct (o =? ft_at f)%nat; [destruct Hr as [_ Hr]; by rewrite Hr in Hp |].
    destruct Hr as (p' & q & Hq & Hp' & Hr & _). rewrite Hr in Hp. cbn in Hp. injection Hp as <-. eauto.
  - intros i o Hi Hp. rewrite (Hpar i o Hi) in Hp. pose proof (rebased_parent f i o Hf Hi) as Hr.
    destruct (Nat.eqb_spec o (ft_at f)); [done |]. destruct Hr as (p' & q & _ & _ & Hr & _). by rewrite Hr in Hp.
  - intros i Hi. rewrite Hlen in Hi. destruct (lookup_lt_is_Some_2 (live_from f) i ltac:(lia)) as [o Ho].
    rewrite (Hpar i o Ho). pose proof (rebased_parent f i o Hf Ho) as Hr.
    destruct (o =? ft_at f)%nat; [lia |]. destruct Hr as (p' & q & _ & _ & -> & _). by eexists.
  - rewrite (Hpar 0%nat _ (live_head f Hf)). pose proof (rebased_parent f 0 _ Hf (live_head f Hf)) as Hr.
    rewrite Nat.eqb_refl in Hr. by destruct Hr as [_ ->].
Qed.

Lemma flow_rebase_keeps_ok f f' rb : flow_ok f -> flow_rebase f = Ok (f', rb) -> flow_ok f'.
Proof.
  intros Hf E. destruct (flow_rebase_spec f Hf) as (t' & Ht' & Eb & Ep & E'). rewrite E' in E. injection E as <- <-.
  destruct (flow_rebase_embeds f t' Hf Ep) as ([Hlen He] & Hroot & Hsome & H0).
  assert (Hl : flow_len {| ft_tree := t'; ft_tokens := map (fun o => ft_tokens f !!! o) (live_from f); ft_at := 0 |} = dt_len t').
  { unfold flow_len. cbn [ft_tokens]. by rewrite length_map. }
  constructor; [done | done | | done | |]; rewrite ?Hl; cbn [ft_tree ft_tokens ft_at].
  - rewrite <- Hlen. pose proof (lookup_lt_Some _ _ _ (live_head f Hf)). done.
  - done.
  - intros p c c' Hc Hc' Htok. destruct (parent_spec t' c p Ht' Hc) as (_ & Hlt & _).
    destruct (parent_spec t' c' p Ht' Hc') as (_ & Hlt' & _). rewrite <- Hlen in Hlt, Hlt'.
    destruct (lookup_lt_is_Some_2 _ _ Hlt) as [o Ho]. destruct (lookup_lt_is_Some_2 _ _ Hlt') as [o' Ho'].
    destruct (He c o p Ho Hc) as (q & Hq & Hpo). destruct (He c' o' p Ho' Hc') as (q' & Hq' & Hpo').
    assert (q = q') as <- by congruence.
    rewrite !list_lookup_fmap, Ho, Ho' in Htok. cbn in Htok. injection Htok as Htok.
    assert (o = o'); [|subst; by apply (NoDup_lookup (live_from f) c c' o'); [apply live_bounds | |]].
    apply (fl_distinct f Hf q); [done | done |]. destruct (live_bounds f Hf) as (_ & Hb & _).
    rewrite !list_lookup_lookup_total_lt by (eapply (Forall_lookup_1 _ _ _ _ Hb); eassumption). by rewrite Htok.
Qed.

(** ** Every operation keeps the invariant *)

Lemma flow_new_ok base root : (0 < base)%nat -> exists f, flow_new base root = Ok f /\ flow_ok f.
Proof.
  intros Hb. unfold flow_new. destruct (tree_new_ok base [None]) as (t & -> & Ht & Eb & Ep);
    [done | by vm_compute | by intros [|[|i]] p |].
  eexists. split; [done |].
  constructor; cbn [ft_tree ft_tokens ft_at]; unfold flow_len, dt_len, parent; cbn [ft_tokens length];
    rewrite ?Ep; cbn; [done | done | lia | done | lia |].
  by intros p [|c] c'.
Qed.

Lemma flow_push_ok f par token f' row : flow_ok f -> flow_push f par token = Ok (f', row) -> flow_ok f' /\
  row = flow_len f /\ ft_tokens f' = ft_tokens f ++ [token] /\ parent (ft_tree f') row = Some par /\
  (forall r, (r < flow_len f)%nat -> parent (ft_tree f') r = parent (ft_tree f) r).
Proof.
  intros Hf. unfold flow_push. destruct (Nat.leb_spec (flow_len f) par) as [?|Hp]; [done |].
  unfold has_child, child_carrying. destruct (find_child _ _ _) as [?|] eqn:Ec; [done |].
  pose proof (push_ok (ft_tree f) (Some par) (fl_tree f Hf)) as Hpush.
  destruct (tree_push (ft_tree f) (Some par)) as [[t' r']|e|]; [|done|done]. intros [= <- <-].
  destruct Hpush as (-> & Ht' & Eb & Ep). pose proof (fl_tokens f Hf) as Hlen.
  assert (Hold : forall r, (r < flow_len f)%nat -> parent t' r = parent (ft_tree f) r).
  { intros r Hr. unfold parent. rewrite Ep, lookup_app_l; [done |]. unfold dt_len in Hlen. lia. }
  assert (Hnew : parent t' (dt_len (ft_tree f)) = Some par).
  { unfold parent. rewrite Ep. unfold dt_len. by rewrite list_lookup_middle. }
  split_and!; try done. constructor; cbn [ft_tree ft_tokens ft_at]; unfold flow_len, dt_len in *; cbn [ft_tokens];
    rewrite ?Ep, ?length_app; cbn [length].
  - done.
  - lia.
  - pose proof (fl_at f Hf). unfold flow_len in *. lia.
  - rewrite Hold by lia. apply Hf.
  - intros r Hr. destruct (decide (r = length (dt_parents (ft_tree f)))) as [->|Hne]; [by rewrite Hnew |].
    rewrite Hold by lia. apply (fl_rooted f Hf). unfold flow_len. lia.
  - assert (Hc : forall c, parent t' c = Some par -> (c < length (ft_tokens f))%nat -> ft_tokens f !! c <> Some token).
    { intros c Hpc Hlt Htok. rewrite Hold in Hpc by done. apply token_is_spec in Htok.
      assert (Hlt1 : (par < dt_len (ft_tree f))%nat) by (unfold dt_len; lia).
      assert (Hlt2 : (c < dt_len (ft_tree f))%nat) by (unfold dt_len; lia).
      by rewrite (find_child_none _ _ _ c (fl_tree f Hf) Hlt1 Ec Hlt2 Hpc) in Htok. }
    assert (Hb : forall c p, parent t' c = Some p -> (c <= length (ft_tokens f))%nat).
    { intros c p Hpc. destruct (parent_spec t' c p Ht' Hpc) as (_ & Hlt & _). unfold dt_len in Hlt.
      rewrite Ep, length_app in Hlt. cbn in Hlt. lia. }
    assert (Hn : parent t' (length (ft_tokens f)) = Some par) by (by rewrite Hlen).
    intros p c c' Hpc Hpc' Htok. pose proof (Hb c p Hpc). pose proof (Hb c' p Hpc').
    destruct (decide (c = length (ft_tokens f))) as [->|Hc1], (decide (c' = length (ft_tokens f))) as [->|Hc2]; [done | | |].
    + rewrite (list_lookup_middle _ _ _ (length (ft_tokens f))), lookup_app_l in Htok by (done || lia). exfalso.
      apply (Hc c'); [congruence | lia | done].
    + rewrite (list_lookup_middle _ _ _ (length (ft_tokens f))), lookup_app_l in Htok by (done || lia). exfalso.
      apply (Hc c); [congruence | lia | done].
    + rewrite !lookup_app_l in Htok by lia. rewrite Hold in Hpc by lia. rewrite Hold in Hpc' by lia.
      by apply (fl_distinct f Hf p).
Qed.

Lemma flow_advance_ok f row f' : flow_ok f -> flow_advance f row = Ok f' -> flow_ok f'.
Proof.
  intros Hf. unfold flow_advance. destruct (is_live f row) eqn:E; [|done]. intros [= <-].
  apply is_live_spec in E as [Hr _]; [|done]. destruct Hf. by constructor.
Qed.

Definition flow_step (f f' : FlowTree) : Prop := exists op rb, flow_apply f op = Ok (f', rb).

Lemma flow_apply_ok f op : flow_ok f -> safe (flow_apply f op) /\ forall f' rb, flow_apply f op = Ok (f', rb) -> flow_ok f'.
Proof.
  intros Hf. assert (Hpush : forall par token, safe ('(f, _) ← flow_push f par token; Ok (f, @None Rebased)) /\
    forall f' rb, ('(f, _) ← flow_push f par token; Ok (f, @None Rebased)) = Ok (f', rb) -> flow_ok f').
  { intros par token. destruct (flow_push f par token) as [[f1 row]|e|] eqn:E; cbn [mbind outcome_bind].
    - split; [done |]. intros f' rb [= <- <-]. by apply (flow_push_ok f par token f1 row).
    - done.
    - exfalso. unfold flow_push in E. destruct (_ <=? _)%nat; [done |]. destruct (has_child _ _ _); [done |].
      pose proof (push_ok (ft_tree f) (Some par) (fl_tree f Hf)) as Hp.
      by destruct (tree_push (ft_tree f) (Some par)) as [[? ?]|?|]. }
  destruct op as [par token|par token|row|]; cbn [flow_apply]; [apply Hpush | apply Hpush | |].
  - destruct (flow_advance f row) as [f1|e|] eqn:E; cbn [mbind outcome_bind].
    + split; [done |]. intros f' rb [= <- <-]. by apply (flow_advance_ok f row).
    + done.
    + unfold flow_advance in E. by destruct (is_live f row).
  - destruct (flow_rebase_spec f Hf) as (t' & _ & _ & _ & E). rewrite E. split; [done |].
    cbn [mbind outcome_bind]. intros f' rb [= <- <-]. by eapply flow_rebase_keeps_ok.
Qed.

(** A flowing tree stays sound.  Whatever pushes, copies, advances and rebases
    are applied, in any order, none panics and the tree keeps its invariant: parents
    before children, one root, one token per row, the walk on a row of the tree, and
    distinct tokens after every row. *)
Theorem flow_stays_sound base root f0 f :
  flow_new base root = Ok f0 -> rtc flow_step f0 f ->
  flow_ok f /\ forall op, safe (flow_apply f op).
Proof.
  intros H0 Hs. assert (Hf : flow_ok f).
  { assert (Hf0 : flow_ok f0).
    { destruct base as [|base]; [done |]. destruct (flow_new_ok (S base) root) as (f' & E & ?); [lia | congruence]. }
    clear H0. induction Hs as [|f1 f2 f3 (op & rb & Hop) _ IH]; [done |].
    apply IH. by apply (proj2 (flow_apply_ok f1 op Hf0) f2 rb). }
  split; [done |]. intros op. by apply flow_apply_ok.
Qed.

(** ** What a rebase keeps *)

Lemma path_split tokens t r :
  tree_ok t ->
  path_tokens tokens t r = reverse (map (fun x => tokens !!! x) (rows_above t r)) ++ [tokens !!! r].
Proof.
  intros Ht. unfold path_tokens, rows_above. rewrite ancestors_step by done. rewrite reverse_cons, map_app.
  f_equal. rewrite <- fmap_reverse. by destruct (parent t r).
Qed.

Lemma length_path tokens t r : tree_ok t -> (r < dt_len t)%nat -> length (path_tokens tokens t r) = S (depth t r).
Proof. intros Ht Hr. unfold path_tokens. by rewrite length_map, length_reverse, ancestors_length. Qed.

(** Kept rows keep their tokens' path and their cache position. *)
Lemma rebased_rows f f' rb :
  flow_ok f -> flow_rebase f = Ok (f', rb) ->
  forall i o, rb_kept rb !! i = Some o ->
    path_tokens (ft_tokens f) (ft_tree f) o = rb_path rb ++ path_tokens (ft_tokens f') (ft_tree f') i /\
    depth (ft_tree f) o = (length (rb_path rb) + depth (ft_tree f') i)%nat.
Proof.
  intros Hf E i o. destruct (flow_rebase_spec f Hf) as (t' & Ht' & Eb & Ep & E'). rewrite E' in E. injection E as <- <-.
  cbn [rb_kept rb_path ft_tokens ft_tree]. intros Hi. destruct (flow_rebase_embeds f t' Hf Ep) as (He & Hroot & _ & _).
  destruct (embeds_path (ft_tree f) t' (live_from f) (ft_tokens f) (fl_tree f Hf) Ht' He i o Hi) as (i0 & o0 & H0 & H1 & Epath).
  rewrite (Hroot i0 o0 H0 H1) in Epath. split; [done |].
  pose proof (f_equal length Epath) as Hl. rewrite length_app in Hl.
  destruct He as [Hlen _]. assert (Ho : (o < dt_len (ft_tree f))%nat).
  { rewrite <- (fl_tokens f Hf). destruct (live_bounds f Hf) as (_ & Hb & _). by apply (Forall_lookup_1 _ _ _ _ Hb Hi). }
  rewrite !length_path in Hl; [|done | by apply lookup_lt_Some in Hi; lia | apply Hf | done]. lia.
Qed.

(** Rebasing loses nothing that lives.  It always succeeds; the rows it keeps are
    exactly those the walk can still reach, in their order; and each keeps the cache
    position it had and the tokens leading to it, now the emitted path followed by
    its path in the new tree. *)
Theorem rebase_keeps_the_living f :
  flow_ok f -> exists f' rb, flow_rebase f = Ok (f', rb) /\ flow_ok f' /\
    rb_old_base rb = dt_base (ft_tree f) /\
    (forall r, r ∈ rb_kept rb <-> is_live f r = true) /\ NoDup (rb_kept rb) /\ rb_kept rb !! ft_at f' = Some (ft_at f) /\
    forall i o, rb_kept rb !! i = Some o ->
      path_tokens (ft_tokens f) (ft_tree f) o = rb_path rb ++ path_tokens (ft_tokens f') (ft_tree f') i /\
      (dt_base (ft_tree f') + depth (ft_tree f') i = dt_base (ft_tree f) + depth (ft_tree f) o)%nat.
Proof.
  intros Hf. destruct (flow_rebase_spec f Hf) as (t' & Ht' & Eb & Ep & E). do 2 eexists. split; [exact E |].
  split; [by eapply flow_rebase_keeps_ok |]. cbn [rb_old_base rb_kept ft_at ft_tree]. split_and!.
  - done.
  - intros r. rewrite elem_of_live, is_live_spec by done. done.
  - apply live_bounds. done.
  - by apply live_head.
  - intros i o Hi. destruct (rebased_rows f _ _ Hf E i o Hi) as [Hp Hd]. split; [exact Hp |]. cbn [rb_path] in Hd.
    rewrite length_reverse, length_map, length_rows_above in Hd;
      [|apply Hf | rewrite <- (fl_tokens f Hf); apply Hf]. cbn [ft_tree] in Hd. lia.
Qed.

(** ** The forward that reads a rebased tree again *)

Lemma depth_le_row t r : tree_ok t -> (r < dt_len t)%nat -> (depth t r <= r)%nat.
Proof.
  intros Ht. pattern r. apply (row_ind t _ Ht). intros q IH Hq. destruct (parent t q) as [p|] eqn:E.
  - destruct (parent_spec t q p Ht E) as (Hp & _ & ->). specialize (IH p eq_refl ltac:(lia)). lia.
  - rewrite root_depth by done. lia.
Qed.

(** A chain of [lead] rows with the tree [t'] hanging off its end. *)
Definition hung_parents (lead : nat) (t' : DraftTree) : list (option nat) :=
  map (fun i => match i with O => None | S q => Some q end) (seq 0 lead) ++
  map (fun p => match p with None => match lead with O => None | S q => Some q end | Some p => Some (lead + p)%nat end)
    (dt_parents t').

Lemma hung_chain lead t' i :
  (i < lead)%nat -> hung_parents lead t' !! i = Some (match i with O => None | S q => Some q end).
Proof.
  intros Hi. unfold hung_parents. rewrite lookup_app_l by (by rewrite length_map, length_seq).
  by rewrite list_lookup_fmap, lookup_seq_lt.
Qed.

Lemma hung_row lead t' i :
  hung_parents lead t' !! (lead + i)%nat =
  (fun p => match p with None => match lead with O => None | S q => Some q end | Some p => Some (lead + p)%nat end)
    <$> dt_parents t' !! i.
Proof.
  unfold hung_parents. rewrite lookup_app_r by (rewrite length_map, length_seq; lia).
  rewrite length_map, length_seq. replace (lead + i - lead)%nat with i by lia. by rewrite list_lookup_fmap.
Qed.

Lemma hung_before lead t' : tree_ok t' -> parents_before (hung_parents lead t').
Proof.
  intros Ht' i p. destruct (Nat.lt_ge_cases i lead) as [Hi|Hi].
  - rewrite hung_chain by done. destruct i; intros [= <-]. lia.
  - replace i with (lead + (i - lead))%nat by lia. rewrite hung_row.
    destruct (dt_parents t' !! (i - lead)%nat) as [[q|]|] eqn:E; cbn; [intros [= <-] | destruct lead; intros [= <-] |done].
    + pose proof (tree_ok_before t' Ht' _ _ E). lia.
    + lia.
Qed.

Lemma wire_hung (lead : nat) t' :
  tree_ok t' -> Z.of_nat (lead + dt_len t') <= MAX_TREE_ROWS ->
  let lead16 := Z.of_nat lead mod 65536 in
  map parent_of_wire (map Z.of_nat (seq 0 (Z.to_nat lead16)) ++
    map (fun w => if w =? 0 then lead16 else (w + lead16) mod 65536) (to_wire t')) = hung_parents lead t'.
Proof.
  intros Ht' Hmax. unfold MAX_TREE_ROWS in Hmax. cbn zeta. rewrite (Z.mod_small (Z.of_nat lead)), Nat2Z.id by lia.
  unfold hung_parents, to_wire. rewrite map_app, !map_map. f_equal.
  - apply map_ext. intros [|q]; [done |]. unfold parent_of_wire. destruct (Z.eqb_spec (Z.of_nat (S q)) 0); [lia |].
    f_equal. lia.
  - apply map_ext_in. intros p Hin%list_elem_of_In. apply list_elem_of_lookup_1 in Hin as [i Hi].
    destruct p as [p|]; cbn [wire_of_parent].
    + pose proof (tree_ok_before t' Ht' i p Hi). apply lookup_lt_Some in Hi. unfold dt_len in *.
      rewrite (Z.mod_small (Z.of_nat p + 1)) by lia. destruct (Z.eqb_spec (Z.of_nat p + 1) 0); [lia |].
      rewrite Z.mod_small by lia. unfold parent_of_wire. destruct (Z.eqb_spec (Z.of_nat p + 1 + Z.of_nat lead) 0); [lia |].
      f_equal. lia.
    + cbn. unfold parent_of_wire. destruct lead as [|q]; [done |]. destruct (Z.eqb_spec (Z.of_nat (S q)) 0); [lia |].
      f_equal. lia.
Qed.

Lemma hung_ancestors lead t' T :
  tree_ok t' -> tree_ok T -> dt_parents T = hung_parents lead t' ->
  forall i, (i < dt_len t')%nat ->
    ancestors_and_self T (lead + i) = map (Nat.add lead) (ancestors_and_self t' i) ++ reverse (seq 0 lead).
Proof.
  intros Ht' HT Ep.
  assert (Hchain : forall j, (j <= lead)%nat -> match j with O => [] | S q => ancestors_and_self T q end = reverse (seq 0 j)).
  { induction j as [|j IH]; intros Hj; [done |]. rewrite ancestors_step by done. unfold parent at 1.
    rewrite Ep, hung_chain by lia. cbn [mjoin option_join]. rewrite seq_S, reverse_snoc. cbn.
    destruct j as [|j]; [done |]. f_equal. apply IH. lia. }
  intros i. pattern i. apply (row_ind t' _ Ht'). clear i. intros i IH Hi.
  rewrite ancestors_step, (ancestors_step t') by done. cbn [map app]. f_equal.
  unfold parent at 1. rewrite Ep, hung_row. destruct (lookup_lt_is_Some_2 (dt_parents t') i Hi) as [x Ex].
  assert (Ex' : parent t' i = x) by (unfold parent; by rewrite Ex). rewrite Ex, Ex'. destruct x as [p|].
  - cbn. apply IH; [done |]. destruct (parent_spec t' i p Ht' Ex'). lia.
  - cbn. rewrite <- (Hchain lead) by lia. by destruct lead.
Qed.

(** The path and the kept rows are rows of the old tree: together they fit. *)
Lemma rebase_fits f f' rb :
  flow_ok f -> flow_rebase f = Ok (f', rb) ->
  Z.of_nat (length (rb_path rb) + dt_len (ft_tree f')) <= MAX_TREE_ROWS /\ (0 < rb_old_base rb)%nat /\
  length (rb_kept rb) = dt_len (ft_tree f').
Proof.
  intros Hf E. destruct (flow_rebase_spec f Hf) as (t' & _ & _ & Ep & E'). rewrite E' in E. injection E as <- <-.
  cbn [rb_path ft_tree rb_old_base rb_kept]. rewrite length_reverse, length_map.
  pose proof (fl_at f Hf) as Hat. rewrite (fl_tokens f Hf) in Hat.
  rewrite length_rows_above by (done || apply Hf). pose proof (depth_le_row _ _ (fl_tree f Hf) Hat).
  assert (Hl : dt_len t' = length (live_from f)) by (unfold dt_len; rewrite Ep; unfold rebased_parents; by rewrite length_map).
  pose proof (List.filter_length_le (is_live f) (seq (ft_at f) (flow_len f - ft_at f))) as Hle.
  rewrite length_seq in Hle. fold (live_from f) in Hle. pose proof (ok_len _ (fl_tree f Hf)).
  rewrite (fl_tokens f Hf) in Hle. pose proof (ok_base _ (fl_tree f Hf)). split_and!; [lia | lia | lia].
Qed.

(** The tokens leading to a hung row: the chain's, then the row's own. *)
Lemma hung_path path tokens t' T i :
  tree_ok t' -> tree_ok T -> dt_parents T = hung_parents (length path) t' -> (i < dt_len t')%nat ->
  path_tokens (path ++ tokens) T (length path + i) = path ++ path_tokens tokens t' i.
Proof.
  intros Ht' HT Ep Hi. unfold path_tokens. rewrite (hung_ancestors _ _ T Ht' HT Ep i Hi).
  rewrite reverse_app, reverse_involutive, map_app. f_equal.
  - apply list_eq. intros j. rewrite list_lookup_fmap. destruct (decide (j < length path)%nat) as [Hj|Hj].
    + rewrite lookup_seq_lt by done. cbn. rewrite lookup_total_app_l by done. symmetry. by apply list_lookup_lookup_total_lt.
    + rewrite lookup_seq_ge by lia. cbn. symmetry. apply lookup_ge_None_2. lia.
  - rewrite <- fmap_reverse. etrans; [apply map_map |]. apply map_ext. intros r.
    by rewrite lookup_total_app_r, Nat.add_comm, Nat.add_sub by lia.
Qed.

(** A segment reads a rebased tree back as it was.  The forward built after a
    rebase is a valid tree from the old base; its row for every kept row has the
    same tokens leading to it and the same depth, hence the same cache position, as
    that row had before the rebase. *)
Theorem rebase_forward_replays f f' rb :
  flow_ok f -> flow_rebase f = Ok (f', rb) ->
  let '(tokens, wire) := rebase_forward f' rb in
  exists T, from_wire (rb_old_base rb) wire = Ok T /\ tree_ok T /\ dt_len T = length tokens /\
    forall i o, rb_kept rb !! i = Some o ->
      path_tokens tokens T (length (rb_path rb) + i) = path_tokens (ft_tokens f) (ft_tree f) o /\
      depth T (length (rb_path rb) + i) = depth (ft_tree f) o.
Proof.
  intros Hf E. pose proof (flow_rebase_keeps_ok f f' rb Hf E) as Hf'. pose proof (rebased_rows f f' rb Hf E) as Hrows.
  pose proof (fl_tree f' Hf') as Ht'. cbn [rebase_forward]. set (lead := length (rb_path rb)).
  destruct (rebase_fits f f' rb Hf E) as (Hmax & Hbase & Hkl). unfold from_wire.
  rewrite (wire_hung lead (ft_tree f') Ht' Hmax).
  destruct (tree_new_ok (rb_old_base rb) (hung_parents lead (ft_tree f'))) as (T & -> & HT & _ & Ep).
  { done. } { unfold hung_parents, blen. rewrite length_app, !length_map, length_seq. exact Hmax. } { by apply hung_before. }
  exists T. split; [done |]. split; [done |]. split.
  { unfold dt_len. rewrite Ep. unfold hung_parents. rewrite !length_app, !length_map, length_seq.
    fold (flow_len f'). rewrite (fl_tokens f' Hf'). done. }
  intros i o Hi. pose proof (lookup_lt_Some _ _ _ Hi) as Hil. rewrite Hkl in Hil.
  destruct (Hrows i o Hi) as [Hp Hd].
  pose proof (hung_path (rb_path rb) (ft_tokens f') _ T i Ht' HT Ep Hil) as Epath. fold lead in Epath.
  split; [by rewrite Epath |]. rewrite Hd. apply Nat.succ_inj.
  assert (HTl : (lead + i < dt_len T)%nat).
  { unfold dt_len. rewrite Ep. unfold hung_parents. rewrite length_app, !length_map, length_seq. unfold dt_len in Hil. lia. }
  rewrite <- (length_path (rb_path rb ++ ft_tokens f') T (lead + i) HT HTl), Epath, length_app, length_path by done.
  unfold lead. lia.
Qed.

(** ** Witnesses *)

(** Row 0 carries 10; 20 and 21 follow it, 30 and 31 follow 20; the walk went to 20. *)
Definition sample_flow : FlowTree := {|
  ft_tree := {| dt_base := 4; dt_parents := [None; Some 0%nat; Some 0%nat; Some 1%nat; Some 1%nat];
                dt_depths := [0; 1; 1; 2; 2]%nat |};
  ft_tokens := [10; 20; 21; 30; 31]; ft_at := 1 |}.

Definition flow_ops : list FlowOp := [OpPush 0 20; OpPush 0 21; OpCopy 1 30; OpCopy 1 31; OpAdvance 1].
Definition run_ops (f : call string FlowTree) (ops : list FlowOp) : call string FlowTree :=
  fold_left (fun f op => f ← f; '(f, _) ← flow_apply f op; Ok f) ops f.

Example sample_flow_run : run_ops (flow_new 4 10) flow_ops = Ok sample_flow.
Proof. reflexivity. Qed.

Lemma sample_flow_steps : exists f0, flow_new 4 10 = Ok f0 /\ rtc flow_step f0 sample_flow.
Proof.
  eexists. split; [reflexivity |].
  eapply rtc_l. { exists (OpPush 0 20), None. reflexivity. }
  eapply rtc_l. { exists (OpPush 0 21), None. reflexivity. }
  eapply rtc_l. { exists (OpCopy 1 30), None. reflexivity. }
  eapply rtc_l. { exists (OpCopy 1 31), None. reflexivity. }
  eapply rtc_l. { exists (OpAdvance 1), None. reflexivity. }
  apply rtc_refl.
Qed.

Lemma flow_stays_sound_witness : flow_ok sample_flow.
Proof.
  destruct sample_flow_steps as (f0 & H0 & Hs). exact (proj1 (flow_stays_sound 4 10 f0 sample_flow H0 Hs)).
Defined.

Lemma sample_flow_ok : flow_ok sample_flow.
Proof.
  destruct sample_flow_steps as (f0 & H0 & Hs). destruct (flow_new_ok 4 10) as (f0' & H0' & Hf0); [lia |].
  rewrite H0 in H0'. injection H0' as <-. clear H0. induction Hs as [|f1 f2 f3 (op & rb & Hop) _ IH]; [done |].
  apply IH. by apply (proj2 (flow_apply_ok f1 op Hf0) f2 rb).
Qed.

Lemma rebase_keeps_the_living_witness :
  exists f' rb, flow_rebase sample_flow = Ok (f', rb) /\ flow_ok f' /\ NoDup (rb_kept rb).
Proof.
  destruct (rebase_keeps_the_living sample_flow sample_flow_ok) as (f' & rb & H1 & H2 & _ & _ & H3 & _).
  exists f', rb. split; [exact H1 | split; [exact H2 | exact H3]].
Defined.

Definition sample_rebased : FlowTree * Rebased :=
  match flow_rebase sample_flow with Ok r => r | _ => (sample_flow, {| rb_old_base := 0; rb_path := []; rb_kept := [] |}) end.

Example sample_rebased_is :
  rb_path sample_rebased.2 = [10] /\ rb_kept sample_rebased.2 = [1; 3; 4]%nat /\
  rebase_forward sample_rebased.1 sample_rebased.2 = ([10; 20; 30; 31], [0; 1; 2; 2]).
Proof. split_and!; reflexivity. Qed.

Lemma rebase_forward_replays_witness :
  exists T, from_wire 4 [0; 1; 2; 2] = Ok T /\ tree_ok T.
Proof.
  destruct (rebase_forward_replays sample_flow sample_rebased.1 sample_rebased.2 sample_flow_ok eq_refl)
    as (T & HT & Hok & _).
  exists T. split; [exact HT | exact Hok].
Defined.
