(* ===== verification/GrownTree.v ===== *)
(** * Laying out a drafter's tree ([src/inference/draft_tree.rs], its last part)

    A drafter's tree is laid out with its likeliest path first ([trunk_first],
    [reorder]); a check sends the guesses worth their place ([worth_checking],
    [keep_rows]); and the part of a tree that follows what a check kept becomes the
    next check's tree ([GrownTree::after]).  Ratings are f32 bit patterns; their
    subtraction and the f64 arithmetic of a check's price are [SpecFloat]'s, and
    [exp] is the platform's, an argument. *)
From S2P Require Import Prelude Bytes ForwardTypes ForwardCodec Floats DraftTree SpecWalk FlowTree.
From Stdlib Require Import SpecFloat.
From stdpp Require Import sorting.
#[local] Open Scope Z_scope.

(** ** The likeliest path first *)

(** The comparison of [trunk_first]: by rating, the earlier row on a tie. *)
Definition compare_rows (a b : nat) (score_a score_b : Z) : comparison :=
  match default Eq (Float.partial_cmp score_a score_b) with
  | Eq => Nat.compare b a
  | c => c
  end.

(** [max_by]: the later of two that compare equal. *)
Fixpoint best_of (scores : list Z) (best : nat) (rows : list nat) : call string nat :=
  match rows with
  | [] => Ok best
  | y :: rows =>
      sb ← at_index scores best;
      sy ← at_index scores y;
      best_of scores (match compare_rows best y sb sy with Gt => best | _ => y end) rows
  end.

(** The trunk: from no row, to the best row following it, and on.  A row is later
    than the one it follows, so the tree's length is fuel enough. *)
Fixpoint trunk_from (fuel : nat) (t : DraftTree) (scores : list Z) (at_row : option nat) : call string (list nat) :=
  match children t at_row, fuel with
  | c :: cs, S fuel =>
      best ← best_of scores c cs;
      rest ← trunk_from fuel t scores (Some best);
      Ok (best :: rest)
  | _, _ => Ok []
  end.

Definition trunk_first (t : DraftTree) (scores : list Z) : call string (list nat) :=
  trunk ← trunk_from (dt_len t) t scores None;
  Ok (trunk ++ List.filter (fun r => negb (bool_decide (r ∈ trunk))) (seq 0 (dt_len t))).

Definition reorder {A} (t : DraftTree) (values : list A) (order : list nat) : call string (DraftTree * list A) :=
  if forallb (fun old => old <? dt_len t)%nat order then
    let idx := new_index (dt_len t) order in
    let parents := map (fun old => renumbered idx <$> parent t old) order in
    values ← mapM (at_index values) order;
    t' ← tree_new (dt_base t) parents;
    Ok (t', values)
  else Panic.

(** ** Keeping some rows *)

(** [None] when a kept row is out of range, or its parent is not kept. *)
Definition keep_rows (parents : list (option nat)) (kept : list nat) : option (list (option nat)) :=
  if forallb (fun old => old <? length parents)%nat kept then
    let idx := fold_left (fun v '(new, old) => <[old := Some (as_u16 new)]> v) (zip (seq 0 (length kept)) kept)
                 (replicate (length parents) None) in
    mapM (fun old => match parents !!! old with
                     | None => Some None
                     | Some p => Some <$> mjoin (idx !! p)
                     end) kept
  else None.

Record CheckPrice : Type := { fixed_ms : spec_float; per_row_ms : spec_float }.

(** [rated[b].total_cmp(&rated[a]).then(a.cmp(&b))] is not [Greater]. *)
Definition rated_before (rated : list Z) (a b : nat) : Prop :=
  Float.total_key (rated !!! b) < Float.total_key (rated !!! a) \/
  (Float.total_key (rated !!! b) = Float.total_key (rated !!! a) /\ (a <= b)%nat).
#[global] Instance rated_before_dec rated a b : Decision (rated_before rated a b).
Proof. unfold rated_before. apply _. Defined.

Definition by_rating (rated : list Z) : list nat := merge_sort (rated_before rated) (seq 0 (length rated)).

Section price.
Context (exp : spec_float -> spec_float).

Definition check_cost (price : CheckPrice) (rows : nat) : spec_float :=
  Float.add (fixed_ms price) (F64.mul (F64.of_Z (Z.of_nat rows)) (per_row_ms price)).

(** The loop over the rows by rating: the best rate so far and its length. *)
Fixpoint best_length (path_logp : list Z) (lead_rows : nat) (price : CheckPrice) (calibration : spec_float)
    (rows : list nat) (n : nat) (expected : spec_float) (best : spec_float * nat) : spec_float * nat :=
  match rows with
  | [] => best
  | row :: rows =>
      let expected := Float.add expected
        (Float.clamp01 (F64.mul calibration (exp (Float.to_f64 (path_logp !!! row))))) in
      let cost := check_cost price (lead_rows + n + 1) in
      let rate := F64.div expected (Float.max cost Float.MIN_POSITIVE) in
      best_length path_logp lead_rows price calibration rows (S n) expected
        (if SFltb best.1 rate then (rate, S n) else best)
  end.

Definition worth_checking (path_logp : list Z) (lead_rows : nat) (price : CheckPrice) (calibration : spec_float)
    (most : nat) : list nat :=
  let by_rating := by_rating path_logp in
  let first := F64.div (F64.of_Z 1) (check_cost price lead_rows) in
  let best := best_length path_logp lead_rows price calibration (take most by_rating) 0 (F64.of_Z 1) (first, O) in
  merge_sort le (take best.2 by_rating).
End price.

(** ** What follows a check *)

Record GrownTree : Type := { gt_tokens : list Z; gt_parents : list (option nat); gt_path_logp : list Z }.

(** Down the tree along [tokens]; [None] is above its first rows. *)
Fixpoint descend (g : GrownTree) (tokens : list Z) (root : option nat) : option (option nat) :=
  match tokens with
  | [] => Some root
  | tok :: tokens =>
      i ← List.find (fun i => bool_decide (gt_parents g !!! i = root) && (gt_tokens g !!! i =? tok))
            (seq 0 (length (gt_tokens g)));
      descend g tokens (Some i)
  end.

(** The rows under [root], each with its parent among them. *)
Fixpoint rows_under (parents : list (option nat)) (root i : nat) (new_index : list (option nat))
    (under : list (nat * option nat)) : list (nat * option nat) :=
  match parents with
  | [] => under
  | par :: parents =>
      let parent := match par with
        | Some p => if (p =? root)%nat then Some None
                    else if (p <? i)%nat then (fun q => Some (as_u16 q)) <$> mjoin (new_index !! p)
                    else None
        | None => None
        end in
      match parent with
      | Some q => rows_under parents root (S i) (new_index ++ [Some (length under)]) (under ++ [(i, q)])
      | None => rows_under parents root (S i) (new_index ++ [None]) under
      end
  end.

(** The rows [best] of a tree of shape [parents], rated [rated], laid out with their
    likeliest path first; [None] where [DraftTree::new] or [reorder] refuses. *)
Definition lay_out (tokens : list Z) (parents : list (option nat)) (rated : list Z) : call string (option GrownTree) :=
  match tree_new 1 parents with
  | Ok t =>
      let own := map (fun r => Float.sub (rated !!! r) (match parent t r with Some p => rated !!! p | None => F32.zero end))
                   (seq 0 (dt_len t)) in
      match trunk_first t own with
      | Ok order =>
          match reorder t (zip tokens rated) order with
          | Ok (laid, values) =>
              Ok (Some {| gt_tokens := values.*1;
                          gt_parents := map (fun r => as_u16 <$> parent laid r) (seq 0 (dt_len laid));
                          gt_path_logp := values.*2 |})
          | Err _ => Ok None
          | Panic => Panic
          end
      | Err e => Err e
      | Panic => Panic
      end
  | Err _ => Ok None
  | Panic => Panic
  end.

Definition after (g : GrownTree) (kept : list Z) (next : Z) (most : nat) : call string (option GrownTree) :=
  let n := length (gt_tokens g) in
  if negb (length (gt_parents g) =? n)%nat || negb (length (gt_path_logp g) =? n)%nat then Ok None
  else match descend g (kept ++ [next]) None with
  | Some (Some root) =>
      let under := rows_under (gt_parents g) root 0 [] [] in
      let base := gt_path_logp g !!! root in
      let rated := map (fun '(i, _) => Float.sub (gt_path_logp g !!! i) base) under in
      let best := merge_sort le (take most (by_rating rated)) in
      match keep_rows under.*2 best with
      | None => Ok None
      | Some parents =>
          lay_out (map (fun r => gt_tokens g !!! (under !!! r).1) best) parents (map (fun r => rated !!! r) best)
      end
  | _ => Ok None
  end.

(** ** A new order of the rows *)

(** [order] lists every row once, each after the row it follows. *)
Record laid_out (t : DraftTree) (order : list nat) : Prop := {
  lo_nodup : NoDup order;
  lo_rows : forall r, r ∈ order <-> (r < dt_len t)%nat;
  lo_after : forall i o q, order !! i = Some o -> parent t o = Some q -> exists p, order !! p = Some q /\ (p < i)%nat }.

Lemma laid_out_length t order : laid_out t order -> length order = dt_len t.
Proof.
  intros Ho. assert (Hp : order ≡ₚ seq 0 (dt_len t)).
  { apply NoDup_Permutation; [apply Ho | apply NoDup_seq |]. intros r. rewrite (lo_rows t order Ho), elem_of_seq. lia. }
  by rewrite Hp, length_seq.
Qed.

Lemma mapM_at_index {E A} `{!Inhabited A} (values : list A) rows :
  Forall (fun r => r < length values)%nat rows ->
  mapM (M := call E) (at_index values) rows = Ok (map (fun r => values !!! r) rows).
Proof.
  intros Hr. apply mapM_ok. intros r Hin. rewrite list.Forall_forall in Hr. by apply at_index_total, Hr.
Qed.

Lemma reorder_ok {A} `{!Inhabited A} t (values : list A) order :
  tree_ok t -> laid_out t order -> length values = dt_len t ->
  exists t', reorder t values order = Ok (t', map (fun r => values !!! r) order) /\ tree_ok t' /\
    dt_base t' = dt_base t /\ embeds t t' order /\
    forall i o, order !! i = Some o ->
      match parent t o with
      | None => parent t' i = None
      | Some q => exists p, parent t' i = Some p /\ order !! p = Some q
      end.
Proof.
  intros Ht Ho Hv. pose proof (laid_out_length t order Ho) as Hlen. pose proof (ok_len t Ht) as Hmax.
  assert (Hb : Forall (fun r => r < dt_len t)%nat order).
  { apply list.Forall_forall. intros r. apply (lo_rows t order Ho). }
  unfold reorder.
  assert (forallb (fun old => old <? dt_len t)%nat order = true) as ->.
  { apply forallb_forall. intros r Hr%list_elem_of_In. apply Nat.ltb_lt. by apply (lo_rows t order Ho). }
  rewrite mapM_at_index by (by rewrite Hv). cbn [mbind outcome_bind].
  set (parents := map (fun old => renumbered (new_index (dt_len t) order) <$> parent t old) order).
  assert (Hpar : forall i o, order !! i = Some o ->
    match parent t o with
    | None => parents !! i = Some None
    | Some q => exists p, parents !! i = Some (Some p) /\ order !! p = Some q /\ (p < i)%nat
    end).
  { intros i o Hi. unfold parents. rewrite list_lookup_fmap, Hi. cbn. destruct (parent t o) as [q|] eqn:E; [|done].
    destruct (lo_after t order Ho i o q Hi E) as (p & Hp & Hlt). exists p. split_and!; [|done | done]. cbn.
    rewrite (renumbered_spec _ order p q) by (done || apply Ho || lia). done. }
  destruct (tree_new_ok (dt_base t) parents) as (t' & E & Ht' & Eb & Ep).
  { apply Ht. } { unfold blen, parents. rewrite length_map. lia. }
  { intros i p Hi. destruct (order !! i) as [o|] eqn:Eo.
    - specialize (Hpar i o Eo). destruct (parent t o); [|congruence]. destruct Hpar as (p' & ? & _ & ?). congruence.
    - unfold parents in Hi. by rewrite list_lookup_fmap, Eo in Hi. }
  exists t'. rewrite E. split_and!; [done | done | done | |].
  - split; [unfold dt_len; rewrite Ep; unfold parents; by rewrite length_map |].
    intros i o p Hi Hp. specialize (Hpar i o Hi). apply parent_lookup in Hp. rewrite Ep in Hp.
    destruct (parent t o) as [q|]; [|congruence]. destruct Hpar as (p' & Hp' & Hq & _). exists q. split; [congruence | done].
  - intros i o Hi. specialize (Hpar i o Hi). unfold parent at 2 3. rewrite Ep. destruct (parent t o) as [q|].
    + destruct Hpar as (p & -> & Hq & _). by exists p.
    + by rewrite Hpar.
Qed.

(** ** The trunk *)

Lemma best_of_ok scores rows : forall best,
  Forall (fun r => r < length scores)%nat (best :: rows) ->
  exists b, best_of scores best rows = Ok b /\ b ∈ best :: rows.
Proof.
  induction rows as [|y rows IH]; intros best Hb; cbn [best_of].
  { exists best. split; [done | by left]. }
  apply list.Forall_cons in Hb as [Hbest Hb]. apply list.Forall_cons in Hb as [Hy Hb].
  rewrite !at_index_total by done. cbn [mbind outcome_bind].
  destruct (IH (match compare_rows best y (scores !!! best) (scores !!! y) with Gt => best | _ => y end)) as (b & E & Hin).
  { constructor; [by destruct (compare_rows _ _ _ _) | done]. }
  exists b. split; [done |]. apply elem_of_cons in Hin as [->|Hin]; [|by right; right].
  destruct (compare_rows _ _ _ _); [by right; left | by right; left | by left].
Qed.

(** Each row of a trunk follows the row before it. *)
Fixpoint trunk_path (t : DraftTree) (at_row : option nat) (rows : list nat) : Prop :=
  match rows with
  | [] => True
  | r :: rows => parent t r = at_row /\ (r < dt_len t)%nat /\ trunk_path t (Some r) rows
  end.

Definition row_from (at_row : option nat) : nat := match at_row with None => O | Some r => S r end.

Lemma trunk_from_ok t scores fuel : forall at_row,
  tree_ok t -> length scores = dt_len t -> (forall r, at_row = Some r -> r < dt_len t)%nat ->
  exists trunk, trunk_from fuel t scores at_row = Ok trunk /\ trunk_path t at_row trunk.
Proof.
  induction fuel as [|fuel IH]; intros at_row Ht Hs Hat; cbn [trunk_from].
  { exists []. by destruct (children t at_row). }
  destruct (children t at_row) as [|c cs] eqn:Ec; [by exists [] |].
  assert (Hcs : forall r, r ∈ c :: cs -> parent t r = at_row /\ (r < dt_len t)%nat).
  { intros r Hr. rewrite <- Ec in Hr. apply elem_of_children in Hr as [? ?]; done. }
  destruct (best_of_ok scores cs c) as (b & -> & Hb).
  { apply list.Forall_forall. intros r Hr. rewrite Hs. by apply Hcs. }
  cbn [mbind outcome_bind]. destruct (Hcs b Hb) as [Hp Hlt].
  destruct (IH (Some b) Ht Hs) as (rest & -> & Hrest); [by intros ? [= <-] |].
  exists (b :: rest). done.
Qed.

(** A trunk's rows increase, and each but the first has its parent just before it. *)
Lemma trunk_path_spec t rows : forall at_row,
  tree_ok t -> trunk_path t at_row rows ->
  NoDup rows /\ Forall (fun r => row_from at_row <= r < dt_len t)%nat rows /\
  forall i o, rows !! i = Some o -> parent t o = match i with O => at_row | S j => rows !! j end.
Proof.
  induction rows as [|r rows IH]; intros at_row Ht Hp; cbn [trunk_path] in Hp.
  { split_and!; [constructor | constructor | done]. }
  destruct Hp as (Hp & Hr & Hrest). destruct (IH (Some r) Ht Hrest) as (Hnd & Hb & Hi). cbn [row_from] in Hb.
  split_and!.
  - constructor; [|done]. intros Hin. rewrite list.Forall_forall in Hb. apply Hb in Hin. lia.
  - assert (Hge : (row_from at_row <= r)%nat).
    { destruct at_row as [q|]; cbn; [|lia]. by destruct (parent_spec t r q Ht Hp). }
    constructor; [done |]. eapply list.Forall_impl; [exact Hb |]. cbn. lia.
  - intros [|i] o; cbn; [by intros [= <-] |]. intros Ho. rewrite (Hi i o Ho). by destruct i.
Qed.

Lemma trunk_first_ok t scores :
  tree_ok t -> length scores = dt_len t ->
  exists trunk order, trunk_first t scores = Ok order /\ trunk_path t None trunk /\ laid_out t order /\
    take (length trunk) order = trunk.
Proof.
  intros Ht Hs. unfold trunk_first. destruct (trunk_from_ok t scores (dt_len t) None Ht Hs) as (trunk & -> & Hp); [done |].
  cbn [mbind outcome_bind]. destruct (trunk_path_spec t trunk None Ht Hp) as (Hnd & Hb & Hi).
  set (others := List.filter _ _). exists trunk, (trunk ++ others). split_and!; [done | done | | by rewrite take_app_length].
  assert (Hoth : forall r, r ∈ others <-> (r < dt_len t)%nat /\ r ∉ trunk).
  { intros r. unfold others. rewrite filter_seq_elem, negb_true_iff, bool_decide_eq_false. split; intros [? ?]; split; (done || lia). }
  rewrite list.Forall_forall in Hb. constructor.
  - apply list.NoDup_app. split_and!; [done | | apply filter_seq_nodup]. intros r Hr Ho. by apply Hoth in Ho as [_ ?].
  - intros r. rewrite elem_of_app, Hoth. split.
    + intros [H|[? _]]; [|done]. by apply Hb in H as [_ ?].
    + intros Hr. destruct (decide (r ∈ trunk)); [by left | by right].
  - intros i o q Ho Hq. assert (Hql : (q < o)%nat /\ (q < dt_len t)%nat) by (destruct (parent_spec t o q Ht Hq); lia).
    apply lookup_app_Some in Ho as [Ho|[Hge Ho]].
    + pose proof (Hi i o Ho) as E. rewrite Hq in E. destruct i as [|j]; [done |]. exists j. split; [|lia].
      rewrite lookup_app_l; [done |]. apply lookup_lt_Some in Ho. lia.
    + destruct (decide (q ∈ trunk)) as [Hin|Hin].
      * apply list_elem_of_lookup_1 in Hin as [p Hp']. exists p. pose proof (lookup_lt_Some _ _ _ Hp').
        split; [by rewrite lookup_app_l | lia].
      * assert (Hq' : q ∈ others) by (apply Hoth; split; [lia | done]). apply list_elem_of_lookup_1 in Hq' as [p Hp'].
        exists (length trunk + p)%nat. split; [rewrite lookup_app_r by lia; by replace (length trunk + p - length trunk)%nat with p by lia |].
        pose proof (filter_seq_mono _ _ _ p (i - length trunk) q o Hp' Ho ltac:(lia)). lia.
Qed.

(** Laying a tree out likeliest path first is only a renumbering.  It always
    succeeds on one rating and one value per row; its first rows are a path from the
    base, each the row before's child; every row keeps its value, and its ancestors
    in the new tree are, renumbered, its ancestors in the old one. *)
Theorem trunk_layout_is_the_same_tree {A} `{!Inhabited A} t scores (values : list A) :
  tree_ok t -> length scores = dt_len t -> length values = dt_len t ->
  exists trunk order t' values',
    trunk_first t scores = Ok order /\ reorder t values order = Ok (t', values') /\ tree_ok t' /\
    take (length trunk) order = trunk /\ trunk_path t None trunk /\ Permutation order (seq 0 (dt_len t)) /\
    forall i o, order !! i = Some o ->
      values' !! i = values !! o /\
      ancestors_and_self t o = map (fun r => order !!! r) (ancestors_and_self t' i).
Proof.
  intros Ht Hs Hv. destruct (trunk_first_ok t scores Ht Hs) as (trunk & order & E & Hp & Ho & Htake).
  destruct (reorder_ok t values order Ht Ho Hv) as (t' & Er & Ht' & _ & He & Hpar).
  exists trunk, order, t', (map (fun r => values !!! r) order). split_and!; try done.
  - apply NoDup_Permutation; [apply Ho | apply NoDup_seq |]. intros r. rewrite (lo_rows t order Ho), elem_of_seq. lia.
  - intros i o Hi. split.
    + rewrite list_lookup_fmap, Hi. cbn. symmetry. apply list_lookup_lookup_total_lt. rewrite Hv.
      apply (lo_rows t order Ho). by apply list_elem_of_lookup_2 in Hi.
    + destruct (embeds_ancestors t t' order Ht Ht' He i o Hi) as (i0 & o0 & H0 & H1 & Ea). rewrite Ea.
      specialize (Hpar i0 o0 H0). unfold rows_above. destruct (parent t o0) as [q|]; [|by rewrite app_nil_r].
      destruct Hpar as (p & ? & _). congruence.
Qed.

(** ** Keeping rows *)

Lemma keep_fold kept : forall k (v : list (option nat)) o,
  NoDup kept -> Forall (fun r => r < length v)%nat kept ->
  let v' := fold_left (fun v '(new, old) => <[old := Some (as_u16 new)]> v) (zip (seq k (length kept)) kept) v in
  (forall i, kept !! i = Some o -> v' !! o = Some (Some (as_u16 (k + i)))) /\ (o ∉ kept -> v' !! o = v !! o).
Proof.
  induction kept as [|x kept IH]; intros k v o Hnd Hb; cbn.
  { split; [intros i; by rewrite lookup_nil | done]. }
  apply list.NoDup_cons in Hnd as [Hx Hnd]. apply list.Forall_cons in Hb as [Hxb Hb].
  destruct (IH (S k) (<[x := Some (as_u16 k)]> v) o Hnd) as (H1 & H2); [by rewrite length_insert |]. split.
  - intros [|i]; cbn.
    + intros [= ->]. rewrite H2 by done. rewrite list_lookup_insert_eq by done. by rewrite Nat.add_0_r.
    + intros Hi. rewrite (H1 i Hi). by rewrite Nat.add_succ_r.
  - rewrite not_elem_of_cons. intros [Hne Hin]. rewrite H2 by done. by rewrite list_lookup_insert_ne.
Qed.

Lemma mapM_option_ok {A B} (f : A -> option B) l :
  (forall a, a ∈ l -> is_Some (f a)) -> exists l', mapM f l = Some l'.
Proof.
  induction l as [|a l IH]; intros H; [by exists [] |]. destruct (H a) as [b Hb]; [by left |].
  destruct IH as [l' Hl']; [intros; apply H; by right |]. exists (b :: l'). cbn. by rewrite Hb; cbn; rewrite Hl'.
Qed.

(** An increasing list has distinct entries, in the order of their places. *)
Lemma sorted_lt_nodup l : StronglySorted lt l -> NoDup l.
Proof.
  induction 1 as [|a l _ IH Hl]; [constructor |]. constructor; [|done].
  intros Hin. rewrite list.Forall_forall in Hl. apply Hl in Hin. lia.
Qed.

Lemma sorted_lt_mono l i j a b :
  StronglySorted lt l -> l !! i = Some a -> l !! j = Some b -> (a < b)%nat -> (i < j)%nat.
Proof.
  intros Hsort. revert i j. induction Hsort as [|x l _ IH Hl]; intros i j; [done |].
  rewrite list.Forall_forall in Hl. destruct i as [|i], j as [|j]; cbn; intros Ha Hb Hlt; simplify_eq.
  - lia.
  - lia.
  - apply list_elem_of_lookup_2, Hl in Ha. lia.
  - specialize (IH i j Ha Hb Hlt). lia.
Qed.

(** Rows whose parents are kept too are a tree again. *)
Lemma keep_rows_ok parents kept :
  Forall (fun r => r < length parents)%nat kept -> StronglySorted lt kept -> parents_before parents ->
  Z.of_nat (length kept) <= 65536 ->
  (forall o p, o ∈ kept -> parents !! o = Some (Some p) -> p ∈ kept) ->
  exists ps, keep_rows parents kept = Some ps /\ length ps = length kept /\ parents_before ps /\
    forall i o, kept !! i = Some o ->
      match parents !!! o with
      | None => ps !! i = Some None
      | Some q => exists p, ps !! i = Some (Some p) /\ kept !! p = Some q
      end.
Proof.
  intros Hb Hsort Hbefore Hmax Hclosed.
  pose proof (sorted_lt_nodup kept Hsort) as Hnd.
  unfold keep_rows.
  assert (forallb (fun old => old <? length parents)%nat kept = true) as ->.
  { apply forallb_forall. intros r Hr%list_elem_of_In. apply Nat.ltb_lt. rewrite list.Forall_forall in Hb. by apply Hb. }
  set (idx := fold_left _ _ _). set (f := fun old => match parents !!! old with None => Some None | Some p => Some <$> mjoin (idx !! p) end).
  assert (Hidx : forall i o, kept !! i = Some o -> idx !! o = Some (Some i)).
  { intros i o Hi. destruct (keep_fold kept 0 (replicate (length parents) None) o Hnd) as [H1 _]; [by rewrite length_replicate |].
    unfold idx. rewrite (H1 i Hi). cbn. rewrite as_u16_small; [done |]. apply lookup_lt_Some in Hi. lia. }
  assert (Hf : forall o, o ∈ kept -> match parents !!! o with
    | None => f o = Some None | Some q => exists p, f o = Some (Some p) /\ kept !! p = Some q end).
  { intros o Ho. unfold f. destruct (parents !!! o) as [q|] eqn:E; [|done].
    assert (Hq : q ∈ kept). { apply (Hclosed o q Ho). rewrite list.Forall_forall in Hb. rewrite <- E.
      by apply list_lookup_lookup_total_lt, Hb. }
    apply list_elem_of_lookup_1 in Hq as [p Hp]. exists p. by rewrite (Hidx p q Hp). }
  destruct (mapM_option_ok f kept) as [ps Hps].
  { intros o Ho. specialize (Hf o Ho). destruct (parents !!! o); [destruct Hf as (p & -> & _) | rewrite Hf]; by eexists. }
  assert (Hlook : forall i o, kept !! i = Some o -> ps !! i = f o /\ o ∈ kept).
  { intros i o Hi. split; [|by apply list_elem_of_lookup_2 in Hi]. apply mapM_Some in Hps.
    destruct (Forall2_lookup_l _ _ _ _ _ Hps Hi) as (y & Hy & E). congruence. }
  assert (Hfull : forall i o, kept !! i = Some o -> match parents !!! o with
    | None => ps !! i = Some None | Some q => exists p, ps !! i = Some (Some p) /\ kept !! p = Some q end).
  { intros i o Hi. destruct (Hlook i o Hi) as [-> Ho]. apply (Hf o Ho). }
  exists ps. split_and!; [done | | | done].
  - apply mapM_Some in Hps. symmetry. by apply Forall2_length in Hps.
  - intros i p Hi. assert (Hil : (i < length kept)%nat).
    { apply mapM_Some in Hps. apply Forall2_length in Hps. apply lookup_lt_Some in Hi. lia. }
    destruct (lookup_lt_is_Some_2 kept i Hil) as [o Ho]. specialize (Hfull i o Ho).
    destruct (parents !!! o) as [q|] eqn:E; [|congruence]. destruct Hfull as (p' & Hp' & Hq).
    assert (p' = p) as -> by congruence. apply (sorted_lt_mono kept p i q o); [done.. |]. apply (Hbefore o q). rewrite <- E. apply list_lookup_lookup_total_lt.
    rewrite list.Forall_forall in Hb. apply Hb. by apply list_elem_of_lookup_2 in Ho.
Qed.

(** ** The best-rated rows *)

#[global] Instance rated_before_trans rated : Transitive (rated_before rated).
Proof. intros a b c. unfold rated_before. lia. Qed.
#[global] Instance rated_before_total rated : Total (rated_before rated).
Proof. intros a b. unfold rated_before. lia. Qed.
#[global] Instance rated_before_antisym rated : AntiSymm (=) (rated_before rated).
Proof. intros a b. unfold rated_before. lia. Qed.

Lemma by_rating_perm rated : by_rating rated ≡ₚ seq 0 (length rated).
Proof. apply merge_sort_Permutation. Qed.

Lemma ascending l : NoDup l -> StronglySorted lt (merge_sort le l) /\ forall r, r ∈ merge_sort le l <-> r ∈ l.
Proof.
  intros Hnd. pose proof (merge_sort_Permutation le l) as Hp. split; [|intros r; by rewrite Hp].
  pose proof (StronglySorted_merge_sort le l) as Hs. assert (Hnd' : NoDup (merge_sort le l)) by (by rewrite Hp).
  clear Hp. induction Hs as [|a l' _ IH Hl]; [constructor |]. apply list.NoDup_cons in Hnd' as [Ha Hnd'].
  constructor; [by apply IH |]. rewrite list.Forall_forall in Hl |- *. intros x Hx. pose proof (Hl x Hx).
  assert (a <> x) by (by intros ->). lia.
Qed.

(** The [n] best-rated rows of a tree whose ratings never rise along a path hold
    every kept row's parent. *)
Lemma best_rows rated n :
  let kept := merge_sort le (take n (by_rating rated)) in
  StronglySorted lt kept /\ Forall (fun r => r < length rated)%nat kept /\ (length kept <= n)%nat /\
  (length kept <= length rated)%nat /\
  (forall k r, k ∈ kept -> r ∉ kept -> (r < length rated)%nat -> rated_before rated k r) /\
  (forall o p, o ∈ kept -> (p < length rated)%nat -> rated_before rated p o -> p ∈ kept).
Proof.
  intros kept. pose proof (by_rating_perm rated) as Hperm.
  assert (Hnd : NoDup (by_rating rated)) by (rewrite Hperm; apply NoDup_seq).
  pose proof (StronglySorted_merge_sort (rated_before rated) (seq 0 (length rated))) as Hsort. fold (by_rating rated) in Hsort.
  rewrite <- (take_drop n (by_rating rated)) in Hnd, Hsort. apply list.NoDup_app in Hnd as (Hnd1 & Hdisj & Hnd2).
  destruct (ascending (take n (by_rating rated)) Hnd1) as [Hasc Hin]. fold kept in Hasc, Hin.
  assert (Hall : forall r, (r < length rated)%nat -> r ∈ take n (by_rating rated) \/ r ∈ drop n (by_rating rated)).
  { intros r Hr. apply elem_of_app. rewrite take_drop, Hperm. apply elem_of_seq. lia. }
  assert (Hlt : forall r, r ∈ take n (by_rating rated) -> (r < length rated)%nat).
  { intros r Hr. assert (H : r ∈ by_rating rated) by (rewrite <- (take_drop n); apply elem_of_app; by left).
    rewrite Hperm, elem_of_seq in H. lia. }
  assert (Hlen : length kept = length (take n (by_rating rated))) by apply Permutation_length, merge_sort_Permutation.
  assert (Hout : forall k r, k ∈ kept -> r ∉ kept -> (r < length rated)%nat -> rated_before rated k r).
  { intros k r Hk Hr Hrl. destruct (Hall r Hrl) as [?|Hd]; [by exfalso; apply Hr, Hin |].
    apply Hin in Hk. by apply (StronglySorted_app_1_elem_of (rated_before rated) _ _ k r Hsort). }
  split_and!; try done.
  - apply list.Forall_forall. intros r Hr. by apply Hlt, Hin.
  - rewrite Hlen, length_take. lia.
  - rewrite Hlen, length_take, Hperm, length_seq. lia.
  - intros o p Ho Hp Hpo. destruct (decide (p ∈ kept)) as [?|Hn]; [done |]. exfalso.
    pose proof (Hout o p Ho Hn Hp) as Hop. apply Hn. by rewrite (anti_symm (rated_before rated) p o Hpo Hop).
Qed.

(** Ratings never rise along a path. *)
Definition ratings_fall (parents : list (option nat)) (rated : list Z) : Prop :=
  forall i p, parents !! i = Some (Some p) -> Float.total_key (rated !!! i) <= Float.total_key (rated !!! p).

Lemma best_length_bound exp path_logp lead price calibration rows : forall n expected best,
  (best.2 <= n + length rows)%nat ->
  ((best_length exp path_logp lead price calibration rows n expected best).2 <= n + length rows)%nat.
Proof.
  induction rows as [|row rows IH]; intros n expected best Hb; cbn [best_length length] in *; [done |].
  replace (n + S (length rows))%nat with (S n + length rows)%nat in * by lia. apply IH. case_match; cbn; lia.
Qed.

(** What a check sends is the best of the tree, and a tree.  Whatever the price
    and the calibration, the rows [worth_checking] keeps are at most [most], in row
    order, no row left out is rated above one kept, and, as ratings never rise along
    a path, every kept row's parent is kept: [keep_rows] renumbers them into a valid
    shape in which each row follows the same row as before. *)
Theorem checked_rows_are_the_best_tree exp path_logp parents lead price calibration most :
  length parents = length path_logp -> parents_before parents -> ratings_fall parents path_logp ->
  Z.of_nat (length path_logp) <= 65536 ->
  let kept := worth_checking exp path_logp lead price calibration most in
  (length kept <= most)%nat /\ StronglySorted lt kept /\
  (forall k r, k ∈ kept -> r ∉ kept -> (r < length path_logp)%nat -> rated_before path_logp k r) /\
  exists ps, keep_rows parents kept = Some ps /\ length ps = length kept /\ parents_before ps /\
    forall i o, kept !! i = Some o ->
      match parents !!! o with
      | None => ps !! i = Some None
      | Some q => exists p, ps !! i = Some (Some p) /\ kept !! p = Some q
      end.
Proof.
  intros Hl Hbefore Hfall Hmax kept. unfold kept, worth_checking.
  set (best := best_length _ _ _ _ _ _ _ _ _). assert (Hbest : (best.2 <= most)%nat).
  { pose proof (best_length_bound exp path_logp lead price calibration (take most (by_rating path_logp)) 0
      (F64.of_Z 1) (F64.div (F64.of_Z 1) (check_cost price lead), O) ltac:(cbn; lia)) as H. fold best in H.
    rewrite length_take in H. cbn in H. lia. }
  destruct (best_rows path_logp best.2) as (Hsort & Hb & Hn & Hn' & Hout & Hclosed).
  split_and!; [lia | done | done |]. apply keep_rows_ok; [by rewrite Hl | done | done | lia |].
  intros o p Ho Hp. apply (Hclosed o p Ho).
  - rewrite <- Hl. pose proof (Hbefore o p Hp). apply lookup_lt_Some in Hp. lia.
  - unfold rated_before. pose proof (Hfall o p Hp). pose proof (Hbefore o p Hp). lia.
Qed.

(** ** The tree that follows a check *)

(** [tokens] lead down the tree from [from] to [to]. *)
Fixpoint leads (g : GrownTree) (from : option nat) (tokens : list Z) (to : option nat) : Prop :=
  match tokens with
  | [] => from = to
  | tok :: tokens => exists i, gt_parents g !! i = Some from /\ gt_tokens g !! i = Some tok /\ leads g (Some i) tokens to
  end.

Lemma descend_leads g tokens : forall from to,
  length (gt_parents g) = length (gt_tokens g) -> descend g tokens from = Some to -> leads g from tokens to.
Proof.
  induction tokens as [|tok tokens IH]; intros from to Hl; cbn; [by intros [= ->] |].
  destruct (List.find _ _) as [i|] eqn:E; [|done]. cbn. intros Hd. apply List.find_some in E as [Hi%in_seq Hc].
  apply andb_true_iff in Hc as [Hp Ht]. apply bool_decide_eq_true in Hp. apply Z.eqb_eq in Ht.
  exists i. split_and!; [| |by apply IH].
  - rewrite <- Hp. apply list_lookup_lookup_total_lt. lia.
  - rewrite <- Ht. apply list_lookup_lookup_total_lt. lia.
Qed.

(** Each collected row is under [root], its parent named by its place. *)
Definition under_ok (full : list (option nat)) (root : nat) (under : list (nat * option nat)) : Prop :=
  NoDup under.*1 /\ forall k j q, under !! k = Some (j, q) ->
    match q with
    | None => full !! j = Some (Some root)
    | Some p => (p < k)%nat /\ exists p0 q0, under !! p = Some (p0, q0) /\ full !! j = Some (Some p0)
    end.

Lemma under_ok_snoc full root under j q :
  under_ok full root under -> j ∉ under.*1 ->
  match q with
  | None => full !! j = Some (Some root)
  | Some p => exists p0 q0, under !! p = Some (p0, q0) /\ full !! j = Some (Some p0)
  end -> under_ok full root (under ++ [(j, q)]).
Proof.
  intros [Hnd Hu] Hj Hq. split.
  { rewrite fmap_app. cbn. apply list.NoDup_app. split_and!; [done | |constructor; [apply not_elem_of_nil | constructor]].
    intros x Hx ->%list_elem_of_singleton. done. }
  intros k j' q' Hk. apply lookup_app_Some in Hk as [Hk|[Hge Hk]].
  - specialize (Hu k j' q' Hk). destruct q' as [p|]; [|done]. destruct Hu as (Hlt & p0 & q0 & Hp & Hf).
    split; [done |]. exists p0, q0. by rewrite lookup_app_l by (apply lookup_lt_Some in Hp; lia).
  - apply list_lookup_singleton_Some in Hk as [Hk E]. injection E as <- <-. destruct q as [p|]; [|done].
    destruct Hq as (p0 & q0 & Hp & Hf). pose proof (lookup_lt_Some _ _ _ Hp). split; [lia |].
    exists p0, q0. by rewrite lookup_app_l by lia.
Qed.

Lemma rows_under_spec full root rest : forall pre idx under,
  full = pre ++ rest -> Z.of_nat (length full) <= 65536 -> length idx = length pre ->
  (forall j k, idx !! j = Some (Some k) -> exists q, under !! k = Some (j, q)) ->
  under_ok full root under -> Forall (fun p => p.1 < length pre)%nat under -> (length under <= length pre)%nat ->
  let out := rows_under rest root (length pre) idx under in
  under_ok full root out /\ (length out <= length full)%nat /\ Forall (fun p => p.1 < length full)%nat out.
Proof.
  induction rest as [|par rest IH]; intros pre idx under Hfull Hmax Hl Hidx Hok Hb Hlen; cbn [rows_under].
  { rewrite app_nil_r in Hfull. subst pre. done. }
  assert (Hhere : full !! length pre = Some par) by (by rewrite Hfull, list_lookup_middle).
  assert (Hfresh : length pre ∉ under.*1).
  { intros ((j, q) & E & Hin)%list_elem_of_fmap. rewrite list.Forall_forall in Hb. apply Hb in Hin. cbn in *. lia. }
  assert (Hlp : length (pre ++ [par]) = S (length pre)) by (rewrite length_app; cbn; lia).
  assert (Hskip : let out := rows_under rest root (S (length pre)) (idx ++ [None]) under in
    under_ok full root out /\ (length out <= length full)%nat /\ Forall (fun p => p.1 < length full)%nat out).
  { rewrite <- Hlp. apply IH; [by rewrite <- app_assoc | done | rewrite length_app; cbn; lia | | done | |lia].
    - intros j k Hj. apply lookup_app_Some in Hj as [Hj|[_ Hj]]; [by apply Hidx |].
      by apply list_lookup_singleton_Some in Hj as [_ ?].
    - eapply list.Forall_impl; [exact Hb |]. cbn. lia. }
  assert (Htake : forall q, match q with
      | None => full !! length pre = Some (Some root)
      | Some p => exists p0 q0, under !! p = Some (p0, q0) /\ full !! length pre = Some (Some p0)
      end ->
    let out := rows_under rest root (S (length pre)) (idx ++ [Some (length under)]) (under ++ [(length pre, q)]) in
    under_ok full root out /\ (length out <= length full)%nat /\ Forall (fun p => p.1 < length full)%nat out).
  { intros q Hq. rewrite <- Hlp. apply IH; [by rewrite <- app_assoc | done | rewrite length_app; cbn; lia | | | |].
    - intros j k Hj. apply lookup_app_Some in Hj as [Hj|[Hge Hj]].
      + destruct (Hidx j k Hj) as (q' & Hk). exists q'. by rewrite lookup_app_l by (apply lookup_lt_Some in Hk; lia).
      + apply list_lookup_singleton_Some in Hj as [Hj [= <-]]. exists q. rewrite list_lookup_middle by done.
        do 2 f_equal. lia.
    - by apply under_ok_snoc.
    - apply Forall_app. split; [eapply list.Forall_impl; [exact Hb |]; cbn; lia | repeat constructor; cbn; lia].
    - rewrite length_app. cbn. lia. }
  destruct par as [p|]; [|exact Hskip]. destruct (Nat.eqb_spec p root) as [->|Hne]; [by apply (Htake None) |].
  destruct (p <? length pre)%nat; [|exact Hskip]. destruct (idx !! p) as [[k|]|] eqn:Ei; [|exact Hskip | exact Hskip].
  cbn [mjoin option_join fmap option_fmap option_map]. destruct (Hidx p k Ei) as (q & Hk).
  assert (Hk' : as_u16 k = k).
  { apply as_u16_small. apply lookup_lt_Some in Hk. rewrite Hfull, length_app in Hmax. lia. }
  rewrite Hk'. apply (Htake (Some k)). exists p, q. done.
Qed.

(** Rows that were kept have their parents kept. *)
Lemma keep_rows_closed parents kept ps o p :
  StronglySorted lt kept -> keep_rows parents kept = Some ps ->
  o ∈ kept -> parents !! o = Some (Some p) -> p ∈ kept.
Proof.
  intros Hsort. unfold keep_rows. destruct (forallb _ _) eqn:Eb; [|done]. intros Hps Ho Hp.
  destruct (decide (p ∈ kept)) as [?|Hn]; [done |]. exfalso. apply mapM_Some in Hps.
  apply list_elem_of_lookup_1 in Ho as [i Hi]. destruct (Forall2_lookup_l _ _ _ _ _ Hps Hi) as (y & _ & E).
  rewrite (list_lookup_total_correct _ _ _ Hp) in E.
  destruct (keep_fold kept 0 (replicate (length parents) None) p (sorted_lt_nodup kept Hsort)) as [_ H2].
  { rewrite length_replicate. apply list.Forall_forall. intros r Hr%list_elem_of_In.
    rewrite forallb_forall in Eb. specialize (Eb r Hr). by apply Nat.ltb_lt. }
  rewrite H2 in E by done. destruct (replicate (length parents) None !! p) as [x|] eqn:Ex; [|done].
  by apply lookup_replicate_1 in Ex as [-> _].
Qed.

Lemma zip_lookup_total (tokens rated : list Z) o :
  (o < length tokens)%nat -> length tokens = length rated -> zip tokens rated !!! o = (tokens !!! o, rated !!! o).
Proof.
  intros Ho Hl. apply list_lookup_total_correct. apply lookup_zip_with_Some.
  exists (tokens !!! o), (rated !!! o). split_and!; [done | |]; apply list_lookup_lookup_total_lt; lia.
Qed.

(** Laying a shape out answers, and a laid-out tree is the same tree renumbered. *)
Lemma lay_out_ok tokens parents rated :
  length tokens = length parents -> length rated = length parents -> parents_before parents ->
  exists r, lay_out tokens parents rated = Ok r /\
    match r with
    | None => MAX_TREE_ROWS < blen parents
    | Some g => exists order, NoDup order /\ length order = length parents /\
        length (gt_tokens g) = length parents /\ length (gt_parents g) = length parents /\
        length (gt_path_logp g) = length parents /\ parents_before (gt_parents g) /\
        forall i o, order !! i = Some o ->
          (o < length parents)%nat /\ gt_tokens g !! i = tokens !! o /\
          match parents !!! o with
          | None => gt_parents g !! i = Some None
          | Some q => exists p, gt_parents g !! i = Some (Some p) /\ order !! p = Some q
          end
    end.
Proof.
  intros Ht Hr Hb. unfold lay_out. pose proof (tree_new_spec 1 parents) as Hn.
  destruct (tree_new 1 parents) as [t|e|]; [|exists None; split; [done |]; destruct Hn as [?|[?|?]]; [lia | done | done] | done].
  destruct Hn as (Hok & _ & Ep). assert (Hdl : dt_len t = length parents) by (unfold dt_len; by rewrite Ep).
  destruct (trunk_first_ok t (map (fun r => Float.sub (rated !!! r) (match parent t r with Some p => rated !!! p | None => F32.zero end))
    (seq 0 (dt_len t))) Hok) as (trunk & order & -> & _ & Ho & _); [by rewrite length_map, length_seq |].
  destruct (reorder_ok t (zip tokens rated) order Hok Ho) as (t' & -> & Hok' & _ & [Hel _] & Hpar);
    [rewrite length_zip_with; lia |].
  pose proof (laid_out_length t order Ho) as Hol.
  eexists. split; [done |]. exists order.
  assert (Hgp : map (fun r => as_u16 <$> parent t' r) (seq 0 (dt_len t')) = dt_parents t').
  { apply list_eq. intros i. rewrite list_lookup_fmap. destruct (decide (i < dt_len t')%nat) as [Hi|Hi].
    - rewrite lookup_seq_lt by done. cbn. destruct (lookup_lt_is_Some_2 (dt_parents t') i Hi) as [x Hx].
      unfold parent. rewrite Hx. cbn. destruct x as [p|]; [|done]. cbn. rewrite as_u16_small; [done |].
      pose proof (tree_ok_before t' Hok' i p Hx). pose proof (ok_len t' Hok'). unfold MAX_TREE_ROWS in *. lia.
    - rewrite lookup_seq_ge by lia. cbn. symmetry. apply lookup_ge_None_2. unfold dt_len in Hi. lia. }
  cbn [gt_tokens gt_parents gt_path_logp]. rewrite Hgp, !length_fmap. unfold dt_len in Hel.
  split_and!; [apply Ho | lia | lia | lia | lia | by apply tree_ok_before |].
  intros i o Hi. assert (Hoin : (o < length parents)%nat).
  { rewrite <- Hdl. apply (lo_rows t order Ho). by apply list_elem_of_lookup_2 in Hi. }
  split; [done |]. split.
  - rewrite list_lookup_fmap, list_lookup_fmap, Hi. cbn. rewrite zip_lookup_total by lia. cbn.
    symmetry. apply list_lookup_lookup_total_lt. lia.
  - specialize (Hpar i o Hi). unfold parent in Hpar. rewrite Ep, (list_lookup_lookup_total_lt parents o Hoin) in Hpar.
    cbn in Hpar. pose proof (lookup_lt_Some _ _ _ Hi) as Hil.
    destruct (lookup_lt_is_Some_2 (dt_parents t') i ltac:(lia)) as [x Hx]. rewrite Hx in Hpar |- *. cbn in Hpar.
    destruct (parents !!! o); [|by subst]. destruct Hpar as (p & -> & Hp). eauto.
Qed.

(** The chosen rows of a subtree, by their numbers in the whole tree. *)
Lemma chosen_rows full root under rated most parents :
  under_ok full root under -> length rated = length under -> Z.of_nat (length under) <= 65536 ->
  let best := merge_sort le (take most (by_rating rated)) in
  let rows := map (fun b => (under !!! b).1) best in
  keep_rows under.*2 best = Some parents ->
  length parents = length best /\ parents_before parents /\ (length best <= most)%nat /\ NoDup rows /\
  forall o s, rows !! o = Some s ->
    match parents !!! o with
    | None => full !! s = Some (Some root)
    | Some q => exists s', rows !! q = Some s' /\ full !! s = Some (Some s')
    end.
Proof.
  intros [Hund Hu] Hrl Hmax best rows Ek. destruct (best_rows rated most) as (Hsort & Hbb & Hbm & Hbr & _ & _).
  fold best in Hsort, Hbb, Hbm, Hbr. rewrite Hrl in Hbb, Hbr.
  assert (Hpb : parents_before under.*2).
  { intros k p Hk. rewrite list_lookup_fmap in Hk. destruct (under !! k) as [[j q]|] eqn:Eu; [|done].
    cbn in Hk. injection Hk as ->. by destruct (Hu k j (Some p) Eu). }
  destruct (keep_rows_ok under.*2 best) as (ps & Ek' & Hps & Hbefore & Hmap); [by rewrite length_fmap | done | done | lia | |].
  { intros o p Ho Hp. by apply (keep_rows_closed under.*2 best parents o p Hsort Ek). }
  rewrite Ek in Ek'. injection Ek' as <-.
  assert (Hin : forall b, b ∈ best -> under !! b = Some (under !!! b) /\ under.*2 !!! b = (under !!! b).2).
  { intros b Hb. rewrite list.Forall_forall in Hbb. pose proof (list_lookup_lookup_total_lt under b (Hbb b Hb)) as E.
    split; [done |]. apply list_lookup_total_correct. by rewrite list_lookup_fmap, E. }
  split_and!; [done | done | lia | |].
  - apply NoDup_fmap_2_strong; [|by apply sorted_lt_nodup]. intros b b' Hb Hb' E.
    apply (NoDup_lookup under.*1 b b' (under !!! b).1 Hund); rewrite list_lookup_fmap;
      [by rewrite (proj1 (Hin b Hb)) | by rewrite (proj1 (Hin b' Hb')), E].
  - intros o s Ho. unfold rows in Ho. rewrite list_lookup_fmap in Ho. destruct (best !! o) as [b|] eqn:Eb; [|done].
    cbn in Ho. injection Ho as <-. pose proof (list_elem_of_lookup_2 _ _ _ Eb) as Hb. destruct (Hin b Hb) as [Hub E2].
    specialize (Hmap o b Eb). rewrite E2 in Hmap. destruct (under !!! b) as [j q] eqn:Ej. cbn [fst snd] in *.
    specialize (Hu b j q Hub). destruct q as [q|].
    + destruct Hmap as (p & Hp & Hq). rewrite (list_lookup_total_correct _ _ _ Hp).
      destruct Hu as (_ & p0 & q0 & Hpq & Hfull). exists p0. split; [|done]. unfold rows. rewrite list_lookup_fmap, Hq. cbn.
      by rewrite (list_lookup_total_correct _ _ _ Hpq).
    + by rewrite (list_lookup_total_correct _ _ _ Hmap).
Qed.

(** The next check's tree is the part of this one that follows the walk.  It is
    answered without a panic; when it is given, its rows are distinct rows of the old
    tree, at most [most], with their tokens; a first row follows the row the kept
    tokens and the last draw lead to, and every other row follows the row it followed
    before, which comes before it. *)
Theorem after_is_the_subtree g kept next most :
  Z.of_nat (length (gt_tokens g)) <= 65536 ->
  exists r, after g kept next most = Ok r /\ forall g', r = Some g' ->
    exists root src, leads g None (kept ++ [next]) (Some root) /\
      NoDup src /\ (length src <= most)%nat /\ length (gt_tokens g') = length src /\
      length (gt_parents g') = length src /\ length (gt_path_logp g') = length src /\ parents_before (gt_parents g') /\
      forall i s, src !! i = Some s ->
        gt_tokens g' !! i = gt_tokens g !! s /\
        match gt_parents g' !!! i with
        | None => gt_parents g !! s = Some (Some root)
        | Some p => exists s', src !! p = Some s' /\ gt_parents g !! s = Some (Some s')
        end.
Proof.
  intros Hmax. unfold after. destruct (Nat.eqb_spec (length (gt_parents g)) (length (gt_tokens g))) as [Hl|]; [|by eexists].
  destruct (Nat.eqb_spec (length (gt_path_logp g)) (length (gt_tokens g))) as [Hl'|]; [|by eexists]. cbn [negb orb].
  destruct (descend g (kept ++ [next]) None) as [[root|]|] eqn:Ed; [|by eexists | by eexists].
  apply descend_leads in Ed; [|done]. set (under := rows_under _ _ _ _ _). set (rated := map _ under).
  destruct (rows_under_spec (gt_parents g) root (gt_parents g) [] [] []) as (Hu & Hul & Hub);
    [done | lia | done | done | by split; [constructor |] | constructor | cbn; lia |]. cbn [length] in Hu, Hul, Hub. fold under in Hu, Hul, Hub.
  set (best := merge_sort _ _). destruct (keep_rows under.*2 best) as [parents|] eqn:Ek; [|by eexists].
  destruct (chosen_rows (gt_parents g) root under rated most parents Hu (length_map _ _) ltac:(lia) Ek)
    as (Hpl & Hpb & Hbm & Hrnd & Hrows). fold best in Hpl, Hbm, Hrnd, Hrows.
  set (rows := map (fun b => (under !!! b).1) best) in *. assert (Hrl : length rows = length best) by apply length_map.
  destruct (lay_out_ok (map (fun r => gt_tokens g !!! (under !!! r).1) best) parents (map (fun r => rated !!! r) best))
    as (r & -> & Hr); [by rewrite length_map | by rewrite length_map | done |].
  exists r. split; [done |]. intros g' ->. destruct Hr as (order & Hnd & Hol & H1 & H2 & H3 & H4 & Hrow).
  exists root, (map (fun o => rows !!! o) order). rewrite !length_map.
  assert (Hin : forall o, o ∈ order -> rows !! o = Some (rows !!! o)).
  { intros o [i Hi]%list_elem_of_lookup_1. apply list_lookup_lookup_total_lt. destruct (Hrow i o Hi). lia. }
  split_and!; try done; try lia.
  - apply NoDup_fmap_2_strong; [|done]. intros o o' Ho Ho' E. apply (NoDup_lookup rows o o' (rows !!! o) Hrnd); [by apply Hin |].
    rewrite E. by apply Hin.
  - intros i s Hi. rewrite list_lookup_fmap in Hi. destruct (order !! i) as [o|] eqn:Eo; [|done]. cbn in Hi. injection Hi as <-.
    destruct (Hrow i o Eo) as (Ho & Htok & Hpar). pose proof (Hin o (list_elem_of_lookup_2 _ _ _ Eo)) as Hro.
    specialize (Hrows o _ Hro). split.
    + destruct (lookup_lt_is_Some_2 best o ltac:(lia)) as [b Eb].
      assert (E : rows !!! o = (under !!! b).1) by (apply list_lookup_total_correct; unfold rows; by rewrite list_lookup_fmap, Eb).
      rewrite Htok, E, list_lookup_fmap, Eb. cbn.
      symmetry. apply list_lookup_lookup_total_lt. rewrite <- Hl.
      destruct (best_rows rated most) as (_ & Hbb & _). fold best in Hbb.
      pose proof (Forall_lookup_1 _ _ _ _ Hbb Eb) as Hlt. cbn in Hlt. unfold rated in Hlt. rewrite length_map in Hlt.
      by apply (Forall_lookup_1 _ _ _ _ Hub (list_lookup_lookup_total_lt under b Hlt)).
    + destruct (parents !!! o) as [q|].
      * destruct Hpar as (p & Hp & Hq). rewrite (list_lookup_total_correct _ _ _ Hp). destruct Hrows as (s' & Hs' & Hf).
        exists s'. split; [|done]. rewrite list_lookup_fmap, Hq. cbn. by rewrite (list_lookup_total_correct _ _ _ Hs').
      * by rewrite (list_lookup_total_correct _ _ _ Hpar).
Qed.

(** ** Witnesses *)

Definition sample_scores : list Z := [F32.zero; F32.one; F32.two; F32.zero].

Lemma trunk_layout_is_the_same_tree_witness :
  exists order t' values', trunk_first sample_tree sample_scores = Ok order /\
    reorder sample_tree [100; 7; 8; 9] order = Ok (t', values') /\ tree_ok t'.
Proof.
  destruct (trunk_layout_is_the_same_tree sample_tree sample_scores [100; 7; 8; 9] sample_tree_ok eq_refl eq_refl)
    as (trunk & order & t' & values' & H1 & H2 & H3 & _).
  exists order, t', values'. split; [exact H1 | split; [exact H2 | exact H3]].
Defined.

(** A path of three guesses and one beside it, each rated below the one it follows. *)
Definition sample_grown : GrownTree := {|
  gt_tokens := [7; 9; 4; 8]; gt_parents := [None; Some 0%nat; Some 1%nat; Some 0%nat];
  gt_path_logp := [F32.two; F32.one; F32.zero; F32.zero] |}.

Lemma checked_rows_are_the_best_tree_witness :
  (length (worth_checking (fun x => x) (gt_path_logp sample_grown) 1
    {| fixed_ms := F64.of_Z 10; per_row_ms := F64.of_Z 1 |} (F64.of_Z 1) 3) <= 3)%nat.
Proof.
  apply (checked_rows_are_the_best_tree (fun x => x) (gt_path_logp sample_grown) (gt_parents sample_grown) 1
    {| fixed_ms := F64.of_Z 10; per_row_ms := F64.of_Z 1 |} (F64.of_Z 1) 3).
  - reflexivity.
  - intros [|[|[|[|i]]]] p; cbn; intros [= <-]; lia.
  - intros [|[|[|[|i]]]] p; cbn; intros [= <-]; vm_compute; discriminate.
  - vm_compute. discriminate.
Defined.

Example sample_after : after sample_grown [] 7 8 = Ok (Some {|
  gt_tokens := [9; 4; 8]; gt_parents := [None; Some 0%nat; None];
  gt_path_logp := [3212836864; 3221225472; 3221225472] |}).
Proof. vm_compute. reflexivity. Qed.

Lemma after_is_the_subtree_witness :
  exists root, leads sample_grown None [7] (Some root).
Proof.
  destruct (after_is_the_subtree sample_grown [] 7 8 ltac:(vm_compute; discriminate)) as (r & E & H).
  rewrite sample_after in E. injection E as <-. destruct (H _ eq_refl) as (root & _ & Hl & _). exists root. exact Hl.
Defined.
