(* ===== verification/ForwardStreams.v ===== *)
(** * The order of a streamed verify ([src/daemon/state/forward_streams.rs])

    Several forwards of one request may be in flight to a segment; they must run in
    the order of their turn numbers, whatever order the network delivers them in.
    [Stream] is the state one stream keeps; [advance_locked], [admit_turn], [claim_turn],
    [end_turn] and [refuse_on_arrival] are its critical sections.  A call of
    [ForwardStreams::turn] is a task that raises [skip_below] (a restart), advances,
    waits until its turn is due, claims it, and holds it until its forward ends;
    [stream_step] interleaves any number of tasks at the lock boundaries.  Turn
    numbers ([u32]) are Z; clocks are milliseconds, given. *)
From Stdlib Require Import Sorted.
From S2P Require Import Prelude Bytes ForwardTypes.

Definition MAX_STREAM_WINDOW : Z := 8.
Definition MAX_STREAM_CHUNKS_HERE : Z := 2 * MAX_STREAM_WINDOW.
Definition MAX_REFUSED_TURNS : nat := 64.
Definition STREAM_TURN_WAIT_SECS : Z := 60.

Record Refusal : Type := { rf_turn : Z; rf_kept : Z; rf_token : Z }.
Record TakenSpare : Type := { ts_spare : Z; ts_of : Z }.

#[global] Instance Refusal_eq_dec : EqDecision Refusal.
Proof. solve_decision. Defined.

Record Order : Type := {
  or_refused : gset Z; or_running : bool; or_refusal : option Refusal; or_taken : option TakenSpare }.

Record Stream : Type := { fs_next : Z; fs_skip_below : Z; fs_order : Order; fs_touched_ms : Z }.

Inductive TurnKind : Type :=
| Follows
| Restarts
| SpareTurn (of_turn kept token : Z)
| AfterSpareTurn (spare : Z).

Inductive TurnRefused : Type :=
| AlreadyRan (next : Z)
| Waited
| Skipped
| StoodOnARefusal (refused_at : Z)
| SpareNotNeeded (of_turn : Z)
| SpareMissing (spare : Z).

Definition supersedes (kind : TurnKind) : bool := match kind with Restarts => true | _ => false end.

(** [TurnKind::of]. *)
Definition turn_kind_of (seq index_pos : Z) (truncate_kv_to : option Z) (branch : option StreamBranch)
  : call string TurnKind :=
  let earlier named :=
    if (StreamSeq.attempt named =? StreamSeq.attempt seq) && (StreamSeq.turn named <? StreamSeq.turn seq)
    then Some (StreamSeq.turn named) else None in
  match branch with
  | None => Ok (match truncate_kv_to with Some _ => Restarts | None => Follows end)
  | Some (Spare of_seq kept token) =>
      if bool_decide (truncate_kv_to <> Some index_pos)
      then Err "a spare restart must cut the cache back to its own first row"
      else of_turn ← ok_or (earlier of_seq) "a spare restart must wait on an earlier check of its own stream";
           Ok (SpareTurn of_turn kept token)
  | Some (AfterSpare spare) =>
      if bool_decide (truncate_kv_to <> Some index_pos)
      then Err "a check built on a spare must cut the cache back to its own first row"
      else spare ← ok_or (earlier spare) "a check must be built on an earlier spare of its own stream";
           Ok (AfterSpareTurn spare)
  end.

(** [stood_on]: the refusal a following turn must be skipped for. *)
Definition stood_on (o : Order) (turn : Z) (tail_skip : bool) : option Refusal :=
  match or_refusal o with
  | Some r =>
      if (rf_turn r <? turn) &&
         (tail_skip || match or_taken o with Some t => ts_of t =? rf_turn r | None => false end)
      then Some r else None
  | None => None
  end.

Definition set_admitted (o : Order) (refusal : option Refusal) (taken : option TakenSpare) : Order := {|
  or_refused := or_refused o; or_running := or_running o; or_refusal := refusal; or_taken := taken |}.

Definition admit_turn (o : Order) (turn : Z) (kind : TurnKind) (tail_skip : bool) : Order * option TurnRefused :=
  match kind with
  | Follows =>
      match stood_on o turn tail_skip with
      | Some r => (o, Some (StoodOnARefusal (rf_turn r)))
      | None => (o, None)
      end
  | Restarts => (set_admitted o None None, None)
  | SpareTurn of_turn kept token =>
      let wanted := bool_decide (or_refusal o = Some {| rf_turn := of_turn; rf_kept := kept; rf_token := token |}) in
      let one_ran := match or_taken o with Some t => ts_of t =? of_turn | None => false end in
      if negb wanted || one_ran then (o, Some (SpareNotNeeded of_turn))
      else (set_admitted o (or_refusal o) (Some {| ts_spare := turn; ts_of := of_turn |}), None)
  | AfterSpareTurn spare =>
      match or_refusal o with
      | Some r =>
          if spare <=? rf_turn r then (o, Some (StoodOnARefusal (rf_turn r)))
          else if bool_decide (ts_spare <$> or_taken o = Some spare) then (set_admitted o None (or_taken o), None)
          else (o, Some (SpareMissing spare))
      | None =>
          if bool_decide (ts_spare <$> or_taken o = Some spare) then (set_admitted o None (or_taken o), None)
          else (o, Some (SpareMissing spare))
      end
  end.

Definition u32_succ (z : Z) : Z := Z.min (z + 1) u32_max.

(** The loop of [advance_locked]: every iteration drops a refused turn, or jumps to
    [skip_below] once, so the number of refused turns and two more are fuel enough. *)
Fixpoint advance_loop (fuel : nat) (refused : gset Z) (running : bool) (skip_below next : Z) : gset Z * Z :=
  match fuel with
  | O => (refused, next)
  | S fuel =>
      if decide (next ∈ refused) then advance_loop fuel (refused ∖ {[next]}) running skip_below (u32_succ next)
      else if negb running && (next <? skip_below) then advance_loop fuel refused running skip_below skip_below
      else (refused, next)
  end.

Definition advance_locked (s : Stream) (after : Z) : Stream :=
  let o := fs_order s in
  let '(refused, next) := advance_loop (size (or_refused o) + 2) (or_refused o) (or_running o) (fs_skip_below s)
                            (Z.max (fs_next s) after) in
  {| fs_next := next; fs_skip_below := fs_skip_below s; fs_touched_ms := fs_touched_ms s;
     fs_order := {| or_refused := filter (fun t => next <= t) refused; or_running := or_running o;
                    or_refusal := or_refusal o; or_taken := or_taken o |} |}.

Definition stream_new (now : Z) : Stream := {|
  fs_next := 0; fs_skip_below := 0; fs_touched_ms := now;
  fs_order := {| or_refused := ∅; or_running := false; or_refusal := None; or_taken := None |} |}.

Definition with_order (s : Stream) (o : Order) : Stream :=
  {| fs_next := fs_next s; fs_skip_below := fs_skip_below s; fs_order := o; fs_touched_ms := fs_touched_ms s |}.
Definition touch_stream (s : Stream) (now : Z) : Stream :=
  {| fs_next := fs_next s; fs_skip_below := fs_skip_below s; fs_order := fs_order s; fs_touched_ms := now |}.
(** [skip_below.fetch_max(turn)]. *)
Definition raise_skip (s : Stream) (turn : Z) : Stream :=
  {| fs_next := fs_next s; fs_skip_below := Z.max (fs_skip_below s) turn; fs_order := fs_order s;
     fs_touched_ms := fs_touched_ms s |}.
Definition set_running (o : Order) (b : bool) : Order :=
  {| or_refused := or_refused o; or_running := b; or_refusal := or_refusal o; or_taken := or_taken o |}.

(** The claim of [turn], once the stream has reached it: [None] when it runs. *)
Definition claim_turn (s : Stream) (turn : Z) (kind : TurnKind) (tail_skip : bool) : Stream * option TurnRefused :=
  let o := fs_order s in
  let superseded := turn <? fs_skip_below s in
  if (fs_next s =? turn) && negb (or_running o) then
    let '(o', refused) := if superseded then (o, Some Skipped) else admit_turn o turn kind tail_skip in
    match refused with
    | Some r => (advance_locked (with_order s o') (u32_succ turn), Some r)
    | None => (with_order s (set_running o' true), None)
    end
  else if superseded then (s, Some Skipped)
  else match (match kind with Follows => stood_on o turn tail_skip | _ => None end) with
       | Some r => (s, Some (StoodOnARefusal (rf_turn r)))
       | None => (s, Some (AlreadyRan (fs_next s)))
       end.

(** [Turn::refused_a_guess] and the drop of a [Turn]. *)
Definition refused_a_guess (s : Stream) (turn kept token : Z) : Stream :=
  let o := fs_order s in
  with_order s (set_admitted o (Some {| rf_turn := turn; rf_kept := kept; rf_token := token |}) (or_taken o)).
Definition end_turn (s : Stream) (turn now : Z) : Stream :=
  touch_stream (advance_locked (with_order s (set_running (fs_order s) false)) (u32_succ turn)) now.

(** The critical section of [refused_on_arrival]; whether the turn was recorded. *)
Definition refuse_on_arrival (s : Stream) (turn : Z) : Stream * bool :=
  let o := fs_order s in
  let copy_of_the_running_turn := (turn =? fs_next s) && or_running o in
  let record := (fs_next s <=? turn) && negb copy_of_the_running_turn && (size (or_refused o) <? MAX_REFUSED_TURNS)%nat in
  let o' := if record
            then {| or_refused := {[turn]} ∪ or_refused o; or_running := or_running o;
                    or_refusal := or_refusal o; or_taken := or_taken o |}
            else o in
  (advance_locked (with_order s o') 0, record).

(** What the coordinator is told, and whether it is logged as a skip. *)
Definition reason (r : TurnRefused) (seq : Z) : string :=
  let turn := pretty (StreamSeq.turn seq) in
  match r with
  | AlreadyRan next => "streamed check " +:+ turn +:+ " arrived after check " +:+ pretty next +:+ " had started — it already ran"
  | Waited => "streamed check " +:+ turn +:+ " waited " +:+ pretty STREAM_TURN_WAIT_SECS +:+ "s for the check before it, which never came"
  | Skipped => "streamed check " +:+ turn +:+ " was skipped — a later check restarted the stream"
  | StoodOnARefusal at_ => "streamed check " +:+ turn +:+ " was skipped — check " +:+ pretty at_ +:+ " refused a guess it was built on"
  | SpareNotNeeded of_turn => "streamed check " +:+ turn +:+ " was skipped — check " +:+ pretty of_turn +:+ " did not refuse the guess it is the restart for"
  | SpareMissing spare => "streamed check " +:+ turn +:+ " is built on spare restart " +:+ pretty spare +:+ ", which did not run here"
  end.
Definition is_a_skip (r : TurnRefused) : bool :=
  match r with Skipped | StoodOnARefusal _ | SpareNotNeeded _ => true | _ => false end.

(** ** The table of streams *)

Definition StreamKey : Type := bytes * (Z * Z) * Z.

(** [sweep]: [holders] counts the tasks that hold a stream besides the table. *)
Definition sweep (holders : StreamKey -> nat) (idle now : Z) (m : gmap StreamKey Stream) : gmap StreamKey Stream * Z :=
  let kept := filter (fun '(k, s) => (0 < holders k)%nat \/ u64_saturating_sub now (fs_touched_ms s) < idle) m in
  (kept, Z.of_nat (size m) - Z.of_nat (size kept)).

(** ** Interleaving *)

Inductive Phase : Type :=
| Arriving
| Raised
| Waits
| Holds
| ArrivingRefused
| RaisedRefused
| Ended (refused : option TurnRefused)
| TurnedAway (recorded : bool).

Record Task : Type := { tk_turn : Z; tk_kind : TurnKind; tk_phase : Phase }.
Definition in_phase (t : Task) (p : Phase) : Task := {| tk_turn := tk_turn t; tk_kind := tk_kind t; tk_phase := p |}.

(** What happened, latest first. *)
Inductive StreamEvent : Type :=
| Ran (turn : Z) (kind : TurnKind)
| Refused (r : Refusal).

Record StreamWorld : Type := { w_stream : Stream; w_tasks : gmap nat Task; w_log : list StreamEvent }.

Definition set_task (w : StreamWorld) (s : Stream) (id : nat) (t : Task) (log : list StreamEvent) : StreamWorld :=
  {| w_stream := s; w_tasks := <[id := t]> (w_tasks w); w_log := log |}.

Section interleaving.
Context (tail_skip : bool).

Inductive stream_step : StreamWorld -> StreamWorld -> Prop :=
| s_arrive w id turn kind phase now :
    w_tasks w !! id = None -> 0 <= turn <= StreamSeq.MAX_TURN -> phase = Arriving \/ phase = ArrivingRefused ->
    stream_step w (set_task w (touch_stream (w_stream w) now) id
      {| tk_turn := turn; tk_kind := kind; tk_phase := phase |} (w_log w))
| s_raise w id t :
    w_tasks w !! id = Some t -> tk_phase t = Arriving -> supersedes (tk_kind t) = true ->
    stream_step w (set_task w (raise_skip (w_stream w) (tk_turn t)) id (in_phase t Raised) (w_log w))
| s_pass w id t :
    w_tasks w !! id = Some t -> tk_phase t = Arriving -> supersedes (tk_kind t) = false ->
    stream_step w (set_task w (w_stream w) id (in_phase t Waits) (w_log w))
| s_jump w id t :
    w_tasks w !! id = Some t -> tk_phase t = Raised ->
    stream_step w (set_task w (advance_locked (w_stream w) 0) id (in_phase t Waits) (w_log w))
| s_claim w id t :
    w_tasks w !! id = Some t -> tk_phase t = Waits -> tk_turn t <= fs_next (w_stream w) ->
    stream_step w
      (let '(s, r) := claim_turn (w_stream w) (tk_turn t) (tk_kind t) tail_skip in
       match r with
       | None => set_task w s id (in_phase t Holds) (Ran (tk_turn t) (tk_kind t) :: w_log w)
       | Some _ => set_task w s id (in_phase t (Ended r)) (w_log w)
       end)
| s_timeout w id t :
    w_tasks w !! id = Some t -> tk_phase t = Waits ->
    stream_step w (set_task w (w_stream w) id (in_phase t (Ended (Some Waited))) (w_log w))
| s_refuse_guess w id t kept token :
    w_tasks w !! id = Some t -> tk_phase t = Holds ->
    stream_step w {| w_stream := refused_a_guess (w_stream w) (tk_turn t) kept token; w_tasks := w_tasks w;
      w_log := Refused {| rf_turn := tk_turn t; rf_kept := kept; rf_token := token |} :: w_log w |}
| s_end w id t now :
    w_tasks w !! id = Some t -> tk_phase t = Holds ->
    stream_step w (set_task w (end_turn (w_stream w) (tk_turn t) now) id (in_phase t (Ended None)) (w_log w))
| s_raise_refused w id t :
    w_tasks w !! id = Some t -> tk_phase t = ArrivingRefused ->
    stream_step w (set_task w (if supersedes (tk_kind t) then raise_skip (w_stream w) (tk_turn t) else w_stream w) id
      (in_phase t RaisedRefused) (w_log w))
| s_record w id t :
    w_tasks w !! id = Some t -> tk_phase t = RaisedRefused ->
    stream_step w (let '(s, recorded) := refuse_on_arrival (w_stream w) (tk_turn t) in
      set_task w s id (in_phase t (TurnedAway recorded)) (w_log w)).

Definition stream_start (now : Z) : StreamWorld := {| w_stream := stream_new now; w_tasks := ∅; w_log := [] |}.
Definition stream_reachable (w : StreamWorld) : Prop := exists now, rtc stream_step (stream_start now) w.
End interleaving.

(** ** The critical sections *)

(** A stream between two critical sections: [next] is never a recorded refusal. *)
Record stream_ok (s : Stream) : Prop := {
  so_next : 0 <= fs_next s <= StreamSeq.MAX_TURN + 1;
  so_skip : 0 <= fs_skip_below s <= StreamSeq.MAX_TURN;
  so_refused : forall t, t ∈ or_refused (fs_order s) -> fs_next s < t <= StreamSeq.MAX_TURN;
  so_few : (size (or_refused (fs_order s)) <= MAX_REFUSED_TURNS)%nat }.

Lemma u32_succ_turn t : 0 <= t <= StreamSeq.MAX_TURN -> u32_succ t = t + 1.
Proof. unfold u32_succ, u32_max. pose proof StreamSeq_bounds. lia. Qed.

(** What the loop of [advance_locked] stops at, given fuel for every refused turn and a jump. *)
Lemma advance_loop_spec fuel R run sk n R' n' :
  (forall t, t ∈ R -> 0 <= t <= StreamSeq.MAX_TURN) ->
  (size R + (if Z.ltb n sk then 1 else 0) < fuel)%nat ->
  advance_loop fuel R run sk n = (R', n') ->
  n <= n' /\ n' <= Z.max n (Z.max sk (StreamSeq.MAX_TURN + 1)) /\ R' ⊆ R /\ (n' ∉ R') /\ (run = false -> sk <= n') /\
  (forall t, t ∈ R -> n' <= t -> t ∈ R') /\ (forall t, n <= t < n' -> t ∈ R \/ (run = false /\ t < sk)).
Proof.
  revert R n. induction fuel as [|fuel IH]; intros R n HR Hf H; [lia|]. cbn [advance_loop] in H.
  case_decide as Hin.
  - rewrite (u32_succ_turn n) in H by auto.
    apply IH in H as (? & Hb & ? & ? & ? & Hk & Hs).
    + pose proof (HR n Hin). split_and!; [lia|lia|set_solver|done|done| |].
      * intros t Ht ?. apply Hk; [|done]. apply elem_of_difference. split; [done|].
        rewrite elem_of_singleton. lia.
      * intros t ?. destruct (decide (t = n)) as [->|]; [auto|].
        destruct (Hs t ltac:(lia)); [left; set_solver|auto].
    + set_solver.
    + rewrite size_difference, size_singleton by set_solver.
      pose proof (subseteq_size {[n]} R ltac:(set_solver)) as Hsz. rewrite size_singleton in Hsz.
      destruct (Z.ltb_spec (n + 1) sk), (Z.ltb_spec n sk); lia.
  - destruct (negb run && (n <? sk)) eqn:Hj.
    + apply andb_true_iff in Hj as [Hrun%negb_true_iff Hlt]. rewrite Hlt in Hf. apply Z.ltb_lt in Hlt.
      apply IH in H as (? & Hb & ? & ? & ? & Hk & Hs); [|done|rewrite Z.ltb_irrefl; lia].
      split_and!; [lia|lia|done|done|done|done|].
      intros t ?. destruct (decide (t < sk)); [auto|apply Hs; lia].
    + injection H as <- <-. split_and!; [lia|lia|done|done| |done|lia].
      intros ->. cbn in Hj. lia.
Qed.

Lemma advance_locked_spec s after :
  0 <= fs_next s <= StreamSeq.MAX_TURN + 1 -> 0 <= after <= StreamSeq.MAX_TURN + 1 ->
  0 <= fs_skip_below s <= StreamSeq.MAX_TURN ->
  (forall t, t ∈ or_refused (fs_order s) -> 0 <= t <= StreamSeq.MAX_TURN) ->
  (size (or_refused (fs_order s)) <= MAX_REFUSED_TURNS)%nat ->
  let s' := advance_locked s after in
  stream_ok s' /\ Z.max (fs_next s) after <= fs_next s' /\
  fs_skip_below s' = fs_skip_below s /\
  fs_order s' = {| or_refused := or_refused (fs_order s'); or_running := or_running (fs_order s);
                   or_refusal := or_refusal (fs_order s); or_taken := or_taken (fs_order s) |} /\
  (or_running (fs_order s) = false -> fs_skip_below s <= fs_next s') /\
  or_refused (fs_order s') ⊆ or_refused (fs_order s) /\
  (forall t, t ∈ or_refused (fs_order s) -> fs_next s' <= t -> t ∈ or_refused (fs_order s')) /\
  (forall t, Z.max (fs_next s) after <= t < fs_next s' ->
     t ∈ or_refused (fs_order s) \/ (or_running (fs_order s) = false /\ t < fs_skip_below s)).
Proof.
  intros Hn Ha Hk HR Hz. unfold advance_locked. cbn zeta.
  destruct (advance_loop _ _ _ _ _) as [R' n'] eqn:H.
  apply advance_loop_spec in H as (? & Hb & Hsub & Hni & Hsk & Hkeep & Hgap); [|done|case_match; lia].
  assert (Hsub' : filter (fun t => n' <= t) R' ⊆ or_refused (fs_order s)) by set_solver.
  cbn. split_and!; [|lia|done|done|done|done| |].
  - constructor; cbn; [lia|done| |].
    + intros t [Hle Ht]%elem_of_filter. pose proof (HR t ltac:(set_solver)).
      destruct (decide (t = n')) as [->|]; [done|lia].
    + apply subseteq_size in Hsub'. lia.
  - intros t Ht ?. apply elem_of_filter. auto.
  - intros t ?. apply Hgap. lia.
Qed.

(** ** What a stream has run

    The log says which refusal stands and which spare was taken, without the state
    of the stream: a refusal stands until a restart or a check built on a spare runs. *)

Fixpoint ran (log : list StreamEvent) : list Z :=
  match log with [] => [] | Ran t _ :: log => t :: ran log | Refused _ :: log => ran log end.

Fixpoint standing (log : list StreamEvent) : option Refusal :=
  match log with
  | [] => None
  | Refused r :: _ => Some r
  | Ran _ (Restarts | AfterSpareTurn _) :: _ => None
  | Ran _ _ :: log => standing log
  end.

Fixpoint taken_by (log : list StreamEvent) : option TakenSpare :=
  match log with
  | [] => None
  | Ran _ Restarts :: _ => None
  | Ran t (SpareTurn of_turn _ _) :: _ => Some {| ts_spare := t; ts_of := of_turn |}
  | _ :: log => taken_by log
  end.

Section line.
Context (tail_skip : bool).

(** Whether a turn of kind [kind] may run after [past]. *)
Definition may_run (past : list StreamEvent) (kind : TurnKind) : Prop :=
  match kind with
  | Follows => forall r, standing past = Some r ->
      tail_skip = false /\ forall t, taken_by past = Some t -> ts_of t <> rf_turn r
  | Restarts => True
  | SpareTurn of_turn kept token =>
      standing past = Some {| rf_turn := of_turn; rf_kept := kept; rf_token := token |} /\
      forall t, taken_by past = Some t -> ts_of t <> of_turn
  | AfterSpareTurn spare =>
      (exists of_turn, taken_by past = Some {| ts_spare := spare; ts_of := of_turn |}) /\
      forall r, standing past = Some r -> rf_turn r < spare
  end.

Fixpoint log_ok (log : list StreamEvent) : Prop :=
  match log with
  | [] => True
  | Ran t k :: log => may_run log k /\ Forall (fun t' => t' < t) (ran log) /\ log_ok log
  | Refused r :: log => head (ran log) = Some (rf_turn r) /\ log_ok log
  end.

Lemma standing_ran log r : log_ok log -> standing log = Some r -> rf_turn r ∈ ran log.
Proof.
  induction log as [|[t k|r'] log IH]; cbn; [done| |].
  - intros (_ & _ & H) Hs. destruct k; try done; right; auto.
  - intros [Hh _] [= <-]. apply head_Some in Hh as [l ->]. left.
Qed.

Lemma taken_by_ran log t : taken_by log = Some t -> ts_spare t ∈ ran log.
Proof.
  induction log as [|[t' k|r'] log IH]; cbn; [done| |auto].
  intros H. destruct k; simplify_eq; first [left | right; auto].
Qed.

(** [admit_turn] lets a turn run just where the log lets it, and keeps the mark of the log. *)
Lemma admit_runs o past turn kind o' :
  or_refusal o = standing past -> or_taken o = taken_by past -> log_ok past ->
  Forall (fun t => t < turn) (ran past) ->
  admit_turn o turn kind tail_skip = (o', None) ->
  may_run past kind /\ or_refusal o' = standing (Ran turn kind :: past) /\
  or_taken o' = taken_by (Ran turn kind :: past) /\ or_refused o' = or_refused o /\ or_running o' = or_running o.
Proof.
  intros Hr Ht Hok Hlt. unfold admit_turn, stood_on. destruct kind; cbn; rewrite ?Hr, ?Ht.
  - destruct (standing past) as [r|] eqn:Hs; [|intros [= <-]; naive_solver].
    assert (Hrt : rf_turn r < turn) by (rewrite list.Forall_forall in Hlt; apply Hlt, standing_ran; auto).
    rewrite (proj2 (Z.ltb_lt _ _) Hrt). cbn. destruct (_ || _) eqn:Hor; [done|].
    apply orb_false_iff in Hor as [-> Hts]. intros [= <-]. split_and!; try done.
    intros ? [= <-]. split; [done|]. intros t Ht'. rewrite Ht' in Hts. lia.
  - intros [= <-]. auto.
  - case_bool_decide as Hw; cbn; [|done]. intros H.
    repeat case_match; simplify_eq; cbn; split_and!; auto; intros ? [=]; subst; lia.
  - intros H. repeat case_match; try case_bool_decide; simplify_eq; cbn.
    all: match goal with H : ts_spare <$> taken_by _ = _ |- _ =>
           apply fmap_Some in H as ([sp of_] & Hts & ->) end.
    all: split_and!; eauto; intros ? [=]; subst; cbn in *; lia.
Qed.

Lemma admit_refuses o turn kind o' r :
  admit_turn o turn kind tail_skip = (o', Some r) -> o' = o /\ match r with AlreadyRan _ | Waited => False | _ => True end.
Proof. unfold admit_turn. intros H. repeat case_match; simplify_eq; done. Qed.

(** ** The invariant of the interleaving *)

Definition is_running (s : Stream) : bool := or_running (fs_order s).

(** The stream is past [turn], or runs it, or will step over it. *)
Definition behind (s : Stream) (turn : Z) : Prop :=
  turn < fs_next s \/ (is_running s = true /\ turn = fs_next s) \/ turn ∈ or_refused (fs_order s).

(** The turn was answered unrun when it came due, or refused on arrival and recorded. *)
Definition turned_down (t : Task) : Prop :=
  match tk_phase t with
  | TurnedAway recorded => recorded = true
  | Ended (Some (AlreadyRan _ | Waited)) => False
  | Ended (Some _) => True
  | _ => False
  end.

(** The turn is over: run, answered, or recorded; not given up on. *)
Definition settled (t : Task) : Prop :=
  match tk_phase t with
  | TurnedAway recorded => recorded = true
  | Ended r => r <> Some Waited
  | _ => False
  end.

Definition final (t : Task) : Prop :=
  match tk_phase t with TurnedAway _ | Ended _ => True | _ => False end.
(** A restart between raising [skip_below] and letting the stream past what it superseded. *)
Definition pending (t : Task) : Prop := tk_phase t = Raised \/ tk_phase t = RaisedRefused.

Definition task_ok (s : Stream) (log : list StreamEvent) (t : Task) : Prop :=
  0 <= tk_turn t <= StreamSeq.MAX_TURN /\
  (tk_phase t = Holds -> is_running s = true /\ tk_turn t = fs_next s /\ head (ran log) = Some (tk_turn t)) /\
  (settled t -> behind s (tk_turn t)).

Definition some_task (tasks : gmap nat Task) (P : Task -> Prop) : Prop :=
  exists id t, tasks !! id = Some t /\ P t.

Record world_ok (w : StreamWorld) : Prop := {
  wo_stream : stream_ok (w_stream w);
  wo_log : log_ok (w_log w);
  wo_past : Forall (fun t => t < fs_next (w_stream w) + Z.b2z (is_running (w_stream w))) (ran (w_log w));
  wo_refusal : or_refusal (fs_order (w_stream w)) = standing (w_log w);
  wo_taken : or_taken (fs_order (w_stream w)) = taken_by (w_log w);
  wo_tasks : map_Forall (fun _ t => task_ok (w_stream w) (w_log w) t) (w_tasks w);
  wo_one : forall id id' t t', w_tasks w !! id = Some t -> w_tasks w !! id' = Some t' ->
    tk_phase t = Holds -> tk_phase t' = Holds -> id = id';
  wo_held : is_running (w_stream w) = true -> some_task (w_tasks w) (fun t => tk_phase t = Holds);
  wo_passed : forall turn, 0 <= turn < fs_next (w_stream w) ->
    turn ∈ ran (w_log w) \/ turn < fs_skip_below (w_stream w) \/
    some_task (w_tasks w) (fun t => tk_turn t = turn /\ turned_down t);
  wo_recorded : forall turn, turn ∈ or_refused (fs_order (w_stream w)) ->
    some_task (w_tasks w) (fun t => tk_turn t = turn /\ tk_phase t = TurnedAway true);
  wo_jump : is_running (w_stream w) = false ->
    fs_skip_below (w_stream w) <= fs_next (w_stream w) \/ some_task (w_tasks w) pending }.

Lemma some_task_insert tasks P id t :
  some_task tasks P -> (forall t', tasks !! id = Some t' -> ~ P t') -> some_task (<[id:=t]> tasks) P.
Proof.
  intros (i & x & Hi & HP) Hno. exists i, x. split; [|done]. rewrite lookup_insert_ne; [done|].
  intros ->. by apply (Hno x).
Qed.
Lemma some_task_here tasks (P : Task -> Prop) id t : P t -> some_task (<[id:=t]> tasks) P.
Proof. intros. exists id, t. by rewrite lookup_insert_eq. Qed.
Lemma some_task_or tasks (P : Task -> Prop) id t :
  some_task tasks P -> (forall t', tasks !! id = Some t' -> P t' -> P t) -> some_task (<[id:=t]> tasks) P.
Proof.
  intros (i & x & Hi & HP) Hk. destruct (decide (i = id)) as [->|].
  - apply some_task_here. eauto.
  - exists i, x. by rewrite lookup_insert_ne.
Qed.

Lemma turned_down_settled t : turned_down t -> settled t.
Proof. unfold turned_down, settled. repeat case_match; naive_solver. Qed.
Lemma settled_final t : settled t -> final t.
Proof. unfold settled, final. repeat case_match; naive_solver. Qed.

Lemma task_ok_mono s s' log log' t :
  task_ok s log t ->
  (tk_phase t = Holds -> is_running s' = true /\ fs_next s' = fs_next s /\ head (ran log') = head (ran log)) ->
  (forall turn, behind s turn -> behind s' turn) -> task_ok s' log' t.
Proof. intros (? & Hh & Hs) Hk Hb. split; [done|]. split; [|auto]. intros Hp. destruct (Hh Hp) as (? & -> & <-), (Hk Hp) as (? & -> & ?). auto. Qed.

(** A step that starts and ends no forward. *)
Lemma quiet_step w s' id t' :
  world_ok w ->
  (forall t, w_tasks w !! id = Some t -> ~ final t /\ tk_phase t <> Holds) ->
  tk_phase t' <> Holds -> task_ok s' (w_log w) t' -> stream_ok s' ->
  is_running s' = is_running (w_stream w) ->
  or_refusal (fs_order s') = or_refusal (fs_order (w_stream w)) ->
  or_taken (fs_order s') = or_taken (fs_order (w_stream w)) ->
  fs_next (w_stream w) <= fs_next s' ->
  (is_running (w_stream w) = true -> fs_next s' = fs_next (w_stream w)) ->
  fs_skip_below (w_stream w) <= fs_skip_below s' ->
  (forall turn, behind (w_stream w) turn -> behind s' turn) ->
  (forall turn, fs_next (w_stream w) <= turn < fs_next s' ->
     turn < fs_skip_below s' \/ turn ∈ or_refused (fs_order (w_stream w)) \/ (turn = tk_turn t' /\ turned_down t')) ->
  (forall turn, turn ∈ or_refused (fs_order s') ->
     turn ∈ or_refused (fs_order (w_stream w)) \/ (turn = tk_turn t' /\ tk_phase t' = TurnedAway true)) ->
  (is_running s' = false -> fs_skip_below s' <= fs_next s' \/ pending t' \/
     (fs_skip_below s' = fs_skip_below (w_stream w) /\ forall t, w_tasks w !! id = Some t -> ~ pending t)) ->
  world_ok (set_task w s' id t' (w_log w)).
Proof.
  intros W Hold Hnew Htok Hs' Hrun Href Htk Hnx Hfix Hsk Hbe Hps Hrec Hj.
  assert (Hnf : forall t, w_tasks w !! id = Some t -> ~ turned_down t).
  { intros t Ht Hd. destruct (Hold t Ht) as [[] _]. by apply settled_final, turned_down_settled. }
  constructor; cbn.
  - done.
  - apply W.
  - eapply list.Forall_impl; [apply W|]. cbn. rewrite Hrun. lia.
  - rewrite Href. apply W.
  - rewrite Htk. apply W.
  - apply map_Forall_insert_2; [done|]. eapply map_Forall_impl; [apply W|]. cbn. intros i x Hx.
    eapply task_ok_mono; [done| |done]. intros Hp. destruct Hx as (_ & Hx & _).
    destruct (Hx Hp) as (Hr & _ & _). rewrite Hrun. auto.
  - intros i j x y [[<- <-]|[? Hx]]%lookup_insert_Some; [done|].
    intros [[<- <-]|[? Hy]]%lookup_insert_Some; [done|]. by eapply (wo_one w).
  - rewrite Hrun. intros Hr. apply some_task_insert; [by apply (wo_held w)|]. intros t Ht. by apply Hold.
  - intros turn Ht. destruct (decide (turn < fs_next (w_stream w))).
    + destruct (wo_passed w W turn ltac:(lia)) as [?|[?|?]]; [auto|right; left; lia|].
      right; right. apply some_task_insert; [done|]. naive_solver.
    + right. destruct (Hps turn ltac:(lia)) as [?|[?|[? ?]]]; [auto| |].
      * right. apply some_task_insert; [|naive_solver].
        destruct (wo_recorded w W turn ltac:(done)) as (i & x & ? & ? & Hx). exists i, x. split_and!; [done..|].
        unfold turned_down. by rewrite Hx.
      * right. by apply some_task_here.
  - intros turn [Ht|[? ?]]%Hrec; [|by apply some_task_here].
    apply some_task_insert; [by apply (wo_recorded w)|].
    intros t Ht' [_ Hp]. apply (Hnf t); [done|]. unfold turned_down. by rewrite Hp.
  - intros Hr. destruct (Hj Hr) as [?|[?|[He Hnp]]]; [auto|right; by apply some_task_here|].
    rewrite Hrun in Hr. destruct (wo_jump w W Hr) as [?|?]; [left; lia|].
    right. by apply some_task_insert.
Qed.

(** A stream about to be advanced: [next] may be a turn just refused, if nothing runs. *)
Record almost_ok (s : Stream) : Prop := {
  ao_next : 0 <= fs_next s <= StreamSeq.MAX_TURN + 1;
  ao_skip : 0 <= fs_skip_below s <= StreamSeq.MAX_TURN;
  ao_refused : forall t, t ∈ or_refused (fs_order s) -> fs_next s <= t <= StreamSeq.MAX_TURN;
  ao_running : is_running s = true -> fs_next s ∉ or_refused (fs_order s);
  ao_few : (size (or_refused (fs_order s)) <= MAX_REFUSED_TURNS)%nat }.

Lemma stream_almost_ok s : stream_ok s -> almost_ok s.
Proof. intros [? ? HR ?]. constructor; try done; [intros t Ht%HR; lia|intros _ Ht%HR; lia]. Qed.

(** What [advance_locked] does to it. *)
Lemma advance_ok s after :
  almost_ok s -> 0 <= after <= StreamSeq.MAX_TURN + 1 -> (is_running s = true -> after <= fs_next s) ->
  let s' := advance_locked s after in
  stream_ok s' /\ Z.max (fs_next s) after <= fs_next s' /\ fs_skip_below s' = fs_skip_below s /\
  is_running s' = is_running s /\ or_refusal (fs_order s') = or_refusal (fs_order s) /\
  or_taken (fs_order s') = or_taken (fs_order s) /\
  (is_running s = true -> fs_next s' = fs_next s) /\ (is_running s = false -> fs_skip_below s <= fs_next s') /\
  or_refused (fs_order s') ⊆ or_refused (fs_order s) /\
  (forall turn, behind s turn -> behind s' turn) /\
  (forall t, Z.max (fs_next s) after <= t < fs_next s' -> t < fs_skip_below s \/ t ∈ or_refused (fs_order s)).
Proof.
  intros [Hn Hk HR Hr0 Hz] Ha Hle. cbn zeta.
  destruct (advance_locked_spec s after Hn Ha Hk) as (Hok & Hmax & Hskip & Hord & Hj & Hsub & Hkeep & Hgap);
    [intros t Ht%HR; lia|done|].
  assert (Hfix : is_running s = true -> fs_next (advance_locked s after) = fs_next s).
  { intros Hr. specialize (Hle Hr). unfold is_running in Hr.
    destruct (decide (fs_next (advance_locked s after) = fs_next s)) as [|Hne]; [done|].
    destruct (Hgap (fs_next s) ltac:(lia)) as [Hin|[? _]]; [by apply Hr0 in Hin|congruence]. }
  assert (Hrun : is_running (advance_locked s after) = is_running s) by (unfold is_running; by rewrite Hord).
  split_and!; try done.
  - by rewrite Hord.
  - by rewrite Hord.
  - intros t [?|[[Hr ?]|Hin]].
    + left. lia.
    + right; left. rewrite Hrun, Hfix; done.
    + destruct (decide (t < fs_next (advance_locked s after))); [by left|right; right; apply Hkeep; [done|lia]].
  - intros t ?. destruct (Hgap t ltac:(done)) as [?|[_ ?]]; auto.
Qed.

Lemma stream_ok_touch s now : stream_ok s -> stream_ok (touch_stream s now).
Proof. by intros []. Qed.
Lemma stream_ok_raise s turn : stream_ok s -> 0 <= turn <= StreamSeq.MAX_TURN -> stream_ok (raise_skip s turn).
Proof. intros [] ?. constructor; cbn; [done|lia|done|done]. Qed.

Lemma start_ok now : world_ok (stream_start now).
Proof.
  pose proof StreamSeq_bounds. constructor; cbn; try done.
  - constructor; cbn; [lia|lia| |]; [set_solver|]. rewrite size_empty. lia.
  - lia.
  - by left.
Qed.

Lemma task_turn w id t : world_ok w -> w_tasks w !! id = Some t -> 0 <= tk_turn t <= StreamSeq.MAX_TURN.
Proof. intros W Ht. by destruct (wo_tasks w W id t Ht). Qed.

(** A task whose phase is neither settled nor the holder's asks nothing of the stream. *)
Lemma task_ok_moving s log t :
  0 <= tk_turn t <= StreamSeq.MAX_TURN -> tk_phase t <> Holds -> ~ settled t -> task_ok s log t.
Proof. intros. split_and!; try done; lia. Qed.

Lemma arrive_ok w id turn kind phase now :
  world_ok w -> w_tasks w !! id = None -> 0 <= turn <= StreamSeq.MAX_TURN -> phase = Arriving \/ phase = ArrivingRefused ->
  world_ok (set_task w (touch_stream (w_stream w) now) id
    {| tk_turn := turn; tk_kind := kind; tk_phase := phase |} (w_log w)).
Proof.
  intros W Hid Ht Hp. apply quiet_step; cbn; try done; try lia; auto using stream_ok_touch, wo_stream.
  - naive_solver.
  - destruct Hp; by subst.
  - apply task_ok_moving; cbn; [done|destruct Hp; by subst|]. unfold settled. cbn. destruct Hp; subst; naive_solver.
  - intros _. right; right. split; [done|]. naive_solver.
Qed.

Lemma same_stream_ok w id t phase :
  world_ok w -> w_tasks w !! id = Some t -> ~ final t -> tk_phase t <> Holds -> ~ pending t ->
  phase <> Holds -> ~ settled (in_phase t phase) ->
  world_ok (set_task w (w_stream w) id (in_phase t phase) (w_log w)).
Proof.
  intros W Hid Hf Hh Hp Hph Hs. apply quiet_step; cbn; try done; try lia; auto using wo_stream.
  - naive_solver.
  - apply task_ok_moving; cbn; eauto using task_turn.
  - intros _. right; right. split; [done|]. naive_solver.
Qed.

Lemma raise_ok w id t phase :
  world_ok w -> w_tasks w !! id = Some t -> ~ final t -> tk_phase t <> Holds ->
  phase = Raised \/ phase = RaisedRefused ->
  world_ok (set_task w (raise_skip (w_stream w) (tk_turn t)) id (in_phase t phase) (w_log w)).
Proof.
  intros W Hid Hf Hh Hph. assert (Ht := task_turn w id t W Hid).
  apply quiet_step; cbn; try done; try lia; auto using stream_ok_raise, wo_stream.
  - naive_solver.
  - naive_solver.
  - apply task_ok_moving; cbn; [done|naive_solver|]. unfold settled. cbn. destruct Hph; subst; naive_solver.
Qed.

Lemma jump_ok w id t :
  world_ok w -> w_tasks w !! id = Some t -> tk_phase t = Raised ->
  world_ok (set_task w (advance_locked (w_stream w) 0) id (in_phase t Waits) (w_log w)).
Proof.
  intros W Hid Hp. assert (Ht := task_turn w id t W Hid). pose proof StreamSeq_bounds.
  pose proof (so_next _ (wo_stream w W)).
  destruct (advance_ok (w_stream w) 0 (stream_almost_ok _ (wo_stream w W)) ltac:(lia) ltac:(lia))
    as (? & ? & ? & Hr & ? & ? & ? & Hj & Hsub & ? & Hgap).
  apply quiet_step; cbn [in_phase tk_phase tk_turn tk_kind]; try done; try lia.
  - unfold final. intros t' Ht'. simplify_eq. rewrite Hp. naive_solver.
  - intros u ?. destruct (Hgap u ltac:(lia)); [left; lia|auto].
  - intros u ?. left. auto.
Qed.

Lemma with_order_same s : with_order s (fs_order s) = s.
Proof. by destruct s. Qed.

(** What [refuse_on_arrival] hands [advance_locked]: the turn recorded, where that is sound. *)
Lemma arrival_spec s turn :
  stream_ok s -> 0 <= turn <= StreamSeq.MAX_TURN ->
  exists s0 recorded, refuse_on_arrival s turn = (advance_locked s0 0, recorded) /\ almost_ok s0 /\
    fs_next s0 = fs_next s /\ fs_skip_below s0 = fs_skip_below s /\ is_running s0 = is_running s /\
    or_refusal (fs_order s0) = or_refusal (fs_order s) /\ or_taken (fs_order s0) = or_taken (fs_order s) /\
    forall u, u ∈ or_refused (fs_order s0) <-> u ∈ or_refused (fs_order s) \/ (recorded = true /\ u = turn).
Proof.
  intros Hs Ht. unfold refuse_on_arrival. cbn zeta. set (record := (_ <=? _) && _ && _).
  eexists _, record. split; [reflexivity|]. pose proof (stream_almost_ok s Hs) as Ha.
  destruct record eqn:Hrec; cbn; [|rewrite with_order_same; split_and!; naive_solver].
  subst record. rewrite !andb_true_iff, negb_true_iff, andb_false_iff in Hrec.
  destruct Hrec as [[Hle Hc] Hsz%Nat.ltb_lt]. destruct Ha as [Hn Hk HR Hr0 Hz].
  split_and!; try done; [|set_solver].
  constructor; cbn; [done|done| | |].
  - intros u [->%elem_of_singleton|Hu%HR]%elem_of_union; lia.
  - intros Hr [Hu%elem_of_singleton|Hu]%elem_of_union; [|by apply Hr0 in Hu].
    unfold is_running in Hr. cbn in Hr. rewrite Hr in Hc. destruct Hc; [lia|done].
  - rewrite size_union_alt, size_singleton.
    pose proof (subseteq_size (or_refused (fs_order s) ∖ {[turn]}) (or_refused (fs_order s)) ltac:(set_solver)). lia.
Qed.

Lemma record_ok w id t :
  world_ok w -> w_tasks w !! id = Some t -> tk_phase t = RaisedRefused ->
  world_ok (let '(s, recorded) := refuse_on_arrival (w_stream w) (tk_turn t) in
            set_task w s id (in_phase t (TurnedAway recorded)) (w_log w)).
Proof.
  intros W Hid Hp. assert (Ht := task_turn w id t W Hid). pose proof StreamSeq_bounds.
  destruct (arrival_spec _ _ (wo_stream w W) Ht) as (s0 & recorded & -> & Hs0 & En & Ek & Er & Ef & Etk & Hin).
  destruct (advance_ok s0 0 Hs0 ltac:(lia) ltac:(intros _; apply Hs0))
    as (? & ? & ? & Hr & ? & ? & ? & Hj & Hsub & Hbe & Hgap).
  pose proof (ao_next s0 Hs0).
  assert (Hbe0 : forall u, behind (w_stream w) u \/ (recorded = true /\ u = tk_turn t) -> behind (advance_locked s0 0) u).
  { intros u Hu. apply Hbe. unfold behind. rewrite Er, En, Hin. destruct Hu as [[?|[?|?]]|?]; auto. }
  apply quiet_step; try done; try lia; cbn [in_phase tk_phase tk_turn]; try congruence.
  - unfold final. intros t' Ht'. simplify_eq. rewrite Hp. naive_solver.
  - split_and!; [apply Ht|apply Ht|done|]. unfold settled. cbn. auto.
  - auto.
  - intros u ?. destruct (Hgap u ltac:(lia)) as [?|[?|[Hrc ->]]%Hin]; [left; lia|auto|].
    right; right. unfold turned_down. cbn. auto.
  - intros u Hu%Hsub. apply Hin in Hu as [?|[-> ->]]; auto.
Qed.

(** A claim that is refused: stepped over when due, or passed already. *)
Lemma claim_refused_ok w id t s r :
  world_ok w -> w_tasks w !! id = Some t -> tk_phase t = Waits -> tk_turn t <= fs_next (w_stream w) ->
  claim_turn (w_stream w) (tk_turn t) (tk_kind t) tail_skip = (s, Some r) ->
  world_ok (set_task w s id (in_phase t (Ended (Some r))) (w_log w)).
Proof.
  intros W Hid Hp Hdue. assert (Ht := task_turn w id t W Hid).
  assert (Hold : forall t', w_tasks w !! id = Some t' -> ~ final t' /\ tk_phase t' <> Holds)
    by (unfold final; intros t' Ht'; simplify_eq; rewrite Hp; naive_solver).
  unfold claim_turn. cbn zeta. destruct (_ && _) eqn:Hnow.
  - apply andb_true_iff in Hnow as [Hn Hr%negb_true_iff]. apply Z.eqb_eq in Hn.
    destruct (if _ <? _ then (_, Some Skipped) else admit_turn _ _ _ _) as [o' [r'|]] eqn:Hadm; [|done].
    assert (o' = fs_order (w_stream w) /\ match r' with AlreadyRan _ | Waited => False | _ => True end) as [-> Hr'].
    { case_match; [by simplify_eq|by apply admit_refuses in Hadm]. }
    rewrite with_order_same, u32_succ_turn by done. intros [= <- <-].
    destruct (advance_ok (w_stream w) (tk_turn t + 1) (stream_almost_ok _ (wo_stream w W)) ltac:(lia))
      as (? & ? & ? & Hrun & ? & ? & ? & Hj & Hsub & ? & Hgap); [unfold is_running; congruence|].
    apply quiet_step; cbn [in_phase tk_phase tk_turn]; try done; try lia.
    + split_and!; [apply Ht|apply Ht|done|]. intros _. left. cbn. lia.
    + intros u ?. destruct (decide (u = tk_turn t)) as [->|].
      * right; right. split; [done|]. unfold turned_down. cbn. by destruct r'.
      * destruct (Hgap u ltac:(lia)); [left; lia|auto].
    + intros u ?. left. auto.
  - assert (Hbe : behind (w_stream w) (tk_turn t)).
    { unfold behind, is_running. apply andb_false_iff in Hnow as [?|?%negb_false_iff]; [left; lia|].
      destruct (decide (tk_turn t < fs_next (w_stream w))); [by left|right; left; split; [done|lia]]. }
    intros H. assert (s = w_stream w) as -> by (repeat case_match; congruence).
    apply quiet_step; cbn [in_phase tk_phase tk_turn]; try done; try lia; auto using wo_stream.
    + intros _. right; right. split; [done|]. intros t' Ht'. simplify_eq. unfold pending. rewrite Hp. naive_solver.
Qed.

Lemma claim_runs s turn kind s' :
  claim_turn s turn kind tail_skip = (s', None) ->
  fs_next s = turn /\ is_running s = false /\ fs_skip_below s <= turn /\
  exists o', admit_turn (fs_order s) turn kind tail_skip = (o', None) /\ s' = with_order s (set_running o' true).
Proof.
  unfold claim_turn. cbn zeta. destruct (_ && _) eqn:Hnow.
  - apply andb_true_iff in Hnow as [Hn%Z.eqb_eq Hr%negb_true_iff]. destruct (Z.ltb_spec turn (fs_skip_below s)); [done|].
    destruct (admit_turn _ _ _ _) as [o' [r|]]; [done|]. intros [= <-]. eauto 10.
  - intros H. repeat case_match; done.
Qed.

Lemma run_ok w id t s :
  world_ok w -> w_tasks w !! id = Some t -> tk_phase t = Waits ->
  claim_turn (w_stream w) (tk_turn t) (tk_kind t) tail_skip = (s, None) ->
  world_ok (set_task w s id (in_phase t Holds) (Ran (tk_turn t) (tk_kind t) :: w_log w)).
Proof.
  intros W Hid Hp (Hn & Hr & Hk & o' & Hadm & ->)%claim_runs. assert (Ht := task_turn w id t W Hid).
  assert (Hpast := wo_past w W). rewrite Hr, Hn, Z.add_0_r in Hpast.
  apply (admit_runs _ (w_log w)) in Hadm as (Hmay & Href & Htk & Hrd & _); [|apply W..|done].
  assert (Hnh : forall i x, w_tasks w !! i = Some x -> tk_phase x <> Holds).
  { intros i x Hx Hh. destruct (wo_tasks w W i x Hx) as (_ & Hx' & _). destruct (Hx' Hh). congruence. }
  destruct (wo_stream w W) as [? ? HR ?].
  constructor; cbn; rewrite ?Hrd.
  - constructor; cbn; rewrite ?Hrd; done.
  - split_and!; [done|done|apply W].
  - constructor; [lia|]. eapply list.Forall_impl; [exact Hpast|]. cbn. lia.
  - done.
  - done.
  - intros i x [[<- <-]|[Hne Hx]]%lookup_insert_Some.
    + split_and!; cbn; [lia|lia|done|]. by intros [].
    + eapply task_ok_mono; [by apply (wo_tasks w W i)| |].
      * intros Hpx. by destruct (Hnh i x Hx).
      * unfold behind. cbn. rewrite Hrd, Hr. unfold is_running. naive_solver.
  - intros i j x y [[<- <-]|[? Hx]]%lookup_insert_Some [[<- <-]|[? Hy]]%lookup_insert_Some Hpx Hpy; try done.
    + by apply Hnh in Hy.
    + by apply Hnh in Hx.
    + by apply Hnh in Hx.
  - intros _. by apply some_task_here.
  - intros u Hu. destruct (wo_passed w W u Hu) as [?|[?|?]]; [left; by right|auto|].
    right; right. apply some_task_insert; [done|]. intros t' Ht' [_ Hd]. simplify_eq.
    unfold turned_down in Hd. by rewrite Hp in Hd.
  - intros u Hu. apply some_task_insert; [by apply (wo_recorded w)|]. intros t' Ht' [_ Hd]. simplify_eq. congruence.
  - done.
Qed.

Lemma refuse_guess_ok w id t kept token :
  world_ok w -> w_tasks w !! id = Some t -> tk_phase t = Holds ->
  world_ok {| w_stream := refused_a_guess (w_stream w) (tk_turn t) kept token; w_tasks := w_tasks w;
    w_log := Refused {| rf_turn := tk_turn t; rf_kept := kept; rf_token := token |} :: w_log w |}.
Proof.
  intros W Hid Hp. destruct (wo_tasks w W id t Hid) as (_ & Hh & _). destruct (Hh Hp) as (Hr & Hn & Hhd).
  destruct W. constructor; cbn; try done. by destruct wo_stream0.
Qed.

Lemma end_ok w id t now :
  world_ok w -> w_tasks w !! id = Some t -> tk_phase t = Holds ->
  world_ok (set_task w (end_turn (w_stream w) (tk_turn t) now) id (in_phase t (Ended None)) (w_log w)).
Proof.
  intros W Hid Hp. destruct (wo_tasks w W id t Hid) as (Ht & Hh & _). destruct (Hh Hp) as (Hr & Hn & Hhd).
  unfold end_turn. rewrite u32_succ_turn by done. set (s0 := with_order _ _).
  assert (Hs0 : almost_ok s0) by (destruct (stream_almost_ok _ (wo_stream w W)); by constructor).
  destruct (advance_ok s0 (tk_turn t + 1) Hs0 ltac:(lia) ltac:(done))
    as (Hok & Hmax & Hk & Hrun & Href & Htk & _ & Hj & Hsub & Hbe & Hgap).
  specialize (Hj eq_refl). cbn in Hmax, Hk, Href, Htk, Hsub, Hj, Hgap.
  assert (Hrun' : is_running (advance_locked s0 (tk_turn t + 1)) = false) by done. clear Hrun.
  set (s1 := advance_locked _ _) in *.
  assert (Hother : forall i x, w_tasks w !! i = Some x -> i <> id -> tk_phase x <> Holds)
    by (intros i x Hx Hne Hhx; apply Hne; by eapply (wo_one w)).
  constructor; cbn; unfold is_running in *; cbn in *; rewrite ?Hrun'.
  - by apply stream_ok_touch.
  - apply W.
  - eapply list.Forall_impl; [apply W|]. cbn. unfold is_running. rewrite Hr. cbn. lia.
  - rewrite Href. apply W.
  - rewrite Htk. apply W.
  - intros i x [[<- <-]|[Hne Hx]]%lookup_insert_Some.
    + split_and!; cbn; [lia|lia|done|]. intros _. left. cbn. lia.
    + eapply task_ok_mono; [by apply (wo_tasks w W i)| |].
      * intros Hpx. by destruct (Hother i x Hx).
      * intros u Hu. change (behind s1 u). unfold behind in Hu. destruct Hu as [?|[[_ ->]|?]]; [apply Hbe; by left|left; cbn; lia|].
        apply Hbe. by right; right.
  - intros i j x y [[<- <-]|[? Hx]]%lookup_insert_Some; [done|].
    intros [[<- <-]|[? Hy]]%lookup_insert_Some; [done|]. by eapply (wo_one w).
  - done.
  - intros u Hu. rewrite Hk.
    assert (Hset : forall P, some_task (w_tasks w) P -> ~ P t -> some_task (<[id:=in_phase t (Ended None)]> (w_tasks w)) P)
      by (intros; apply some_task_insert; naive_solver).
    assert (Hnd : ~ turned_down t) by (unfold turned_down; rewrite Hp; tauto).
    destruct (decide (u < fs_next (w_stream w))).
    + destruct (wo_passed w W u ltac:(lia)) as [?|[?|?]]; [auto..|right; right; apply Hset; naive_solver].
    + destruct (decide (u = tk_turn t)) as [->|].
      * left. apply head_Some in Hhd as [l ->]. left.
      * right. destruct (Hgap u ltac:(lia)) as [?|Hin]; [auto|right].
        destruct (wo_recorded w W u Hin) as (i & x & Hx & Hxt & Hxp). apply Hset; [|naive_solver].
        exists i, x. split_and!; [done..|]. unfold turned_down. by rewrite Hxp.
  - intros u Hu%Hsub. apply some_task_insert; [by apply (wo_recorded w)|]. intros t' Ht' [_ Hd]. simplify_eq. congruence.
  - rewrite Hk. auto.
Qed.

Ltac by_phase Hp := unfold final, pending, settled; cbn; rewrite ?Hp; cbn; intuition congruence.

Lemma step_ok w w' : world_ok w -> stream_step tail_skip w w' -> world_ok w'.
Proof.
  intros W Hst. destruct Hst as [w id turn kind phase now|w id t ? Hp|w id t ? Hp|w id t|w id t|w id t ? Hp|w id t|w id t|w id t ? Hp|w id t].
  - by apply arrive_ok.
  - eapply raise_ok; eauto; by_phase Hp.
  - eapply same_stream_ok; eauto; by_phase Hp.
  - by apply jump_ok.
  - destruct (claim_turn _ _ _ _) as [s [r|]] eqn:Hc; [by eapply claim_refused_ok|by apply run_ok].
  - eapply same_stream_ok; eauto; by_phase Hp.
  - by eapply refuse_guess_ok.
  - by apply end_ok.
  - destruct (supersedes (tk_kind t)); [eapply raise_ok; eauto; by_phase Hp|].
    apply quiet_step; cbn; try done; try lia; auto using wo_stream.
    + intros t' Ht'. simplify_eq. by_phase Hp.
    + apply task_ok_moving; cbn; eauto using task_turn.
    + intros _. right; left. by right.
  - by apply record_ok.
Qed.

Lemma reachable_ok w : stream_reachable tail_skip w -> world_ok w.
Proof.
  intros [now Hr]. remember (stream_start now) as w0 eqn:H0.
  assert (W0 : world_ok w0) by (subst; apply start_ok). clear H0.
  induction Hr as [|w0 w1 w2 Hst _ IH]; eauto using step_ok.
Qed.

Lemma log_ok_suffix l1 l2 : log_ok (l1 ++ l2) -> log_ok l2.
Proof. induction l1 as [|[t k|r] l1 IH]; cbn; naive_solver. Qed.

Lemma ran_sorted log : log_ok log -> StronglySorted (fun a b => b < a) (ran log).
Proof. induction log as [|[t k|r] log IH]; cbn; [constructor| |naive_solver]. intros (_ & ? & ?). constructor; auto. Qed.

(** ** The line a turn runs on *)

(** After [past], a turn of kind [kind] stands on nothing a check walked here refused. *)
Definition on_its_line (past : list StreamEvent) (kind : TurnKind) : Prop :=
  match kind with
  | Restarts => True
  | Follows => tail_skip = true -> forall newer r older, past = newer ++ Refused r :: older ->
      exists t k, Ran t k ∈ newer /\ match k with Restarts | AfterSpareTurn _ => True | _ => False end
  | SpareTurn of_turn kept token => exists newer older,
      past = newer ++ Refused {| rf_turn := of_turn; rf_kept := kept; rf_token := token |} :: older /\
      forall e, e ∈ newer -> exists t, e = Ran t Follows
  | AfterSpareTurn spare => exists newer of_turn kept token older,
      past = newer ++ Ran spare (SpareTurn of_turn kept token) :: older /\
      forall e, e ∈ newer -> exists t, e = Ran t Follows \/ e = Ran t (AfterSpareTurn spare)
  end.

Lemma no_standing past : standing past = None -> forall newer r older, past = newer ++ Refused r :: older ->
  exists t k, Ran t k ∈ newer /\ match k with Restarts | AfterSpareTurn _ => True | _ => False end.
Proof.
  intros Hs newer r older ->. induction newer as [|[t k|r'] newer IH]; cbn in Hs; [done| |done].
  destruct k; try (destruct (IH Hs) as (t' & k' & ? & ?); exists t', k'; split; [by right|done]);
    eexists _, _; split; by first [left|done].
Qed.

Lemma standing_found past of_turn kept token :
  let r := {| rf_turn := of_turn; rf_kept := kept; rf_token := token |} in
  log_ok past -> standing past = Some r -> (forall t, taken_by past = Some t -> ts_of t <> of_turn) ->
  exists newer older, past = newer ++ Refused r :: older /\ forall e, e ∈ newer -> exists t, e = Ran t Follows.
Proof.
  cbn zeta. induction past as [|[t k|r'] past IH]; cbn; [done| |].
  - intros (Hm & _ & Hok) Hs Htk. destruct k; try done.
    + destruct (IH Hok Hs Htk) as (newer & older & -> & Hn). exists (Ran t Follows :: newer), older.
      split; [done|]. intros e [->|He]%elem_of_cons; eauto.
    + destruct Hm as [Hm _]. rewrite Hs in Hm. injection Hm as <- <- <-. by destruct (Htk _ eq_refl).
  - intros _ [= ->] _. exists [], past. split; [done|]. by intros e ?%elem_of_nil.
Qed.

Lemma taken_found past spare of_turn :
  log_ok past -> taken_by past = Some {| ts_spare := spare; ts_of := of_turn |} ->
  (forall r, standing past = Some r -> rf_turn r < spare) ->
  exists newer kept token older, past = newer ++ Ran spare (SpareTurn of_turn kept token) :: older /\
    forall e, e ∈ newer -> exists t, e = Ran t Follows \/ e = Ran t (AfterSpareTurn spare).
Proof.
  induction past as [|[t k|r'] past IH]; cbn; [done| |].
  - intros (Hm & _ & Hok) Htk Hs. destruct k as [| |o k tk|sp]; try done.
    + destruct (IH Hok Htk Hs) as (newer & k' & tk & older & -> & Hn). exists (Ran t Follows :: newer), k', tk, older.
      split; [done|]. intros e [->|He]%elem_of_cons; eauto.
    + injection Htk as -> ->. exists [], k, tk, past. split; [done|]. by intros e ?%elem_of_nil.
    + cbn in Hm. destruct Hm as [[o Ho] Hlt]. rewrite Htk in Ho. injection Ho as <- <-.
      destruct (IH Hok Htk Hlt) as (newer & k' & tk & older & -> & Hn).
      exists (Ran t (AfterSpareTurn spare) :: newer), k', tk, older.
      split; [done|]. intros e [->|He]%elem_of_cons; eauto.
  - intros [Hh Hok] Htk Hs. specialize (Hs _ eq_refl). apply taken_by_ran in Htk as Hin. cbn in Hin.
    pose proof (ran_sorted past Hok) as Hsort. apply head_Some in Hh as [l Hl]. rewrite Hl in Hin, Hsort.
    apply StronglySorted_inv in Hsort as [_ Hall]. rewrite list.Forall_forall in Hall.
    apply elem_of_cons in Hin as [?|Hin]; [lia|]. apply Hall in Hin. lia.
Qed.

Lemma may_run_on_its_line past kind : log_ok past -> may_run past kind -> on_its_line past kind.
Proof.
  intros Hok. destruct kind as [| |o k tk|sp]; cbn.
  - intros Hm Hts. apply no_standing. destruct (standing past) as [r|]; [|done]. destruct (Hm r eq_refl). congruence.
  - done.
  - intros [? ?]. by apply standing_found.
  - intros [[o Ho] ?]. destruct (taken_found past sp o) as (n & k & tk & l & ? & ?); eauto 10.
Qed.
End line.

(** ** Concrete runs *)

Inductive Move : Type :=
| Arrives (id : nat) (turn : Z) (kind : TurnKind) (capped : bool)
| Goes (id : nat)
| Refuses (id : nat) (kept token : Z).

(** The next critical section of a task; [None] when it cannot move. *)
Definition do_move (tail_skip : bool) (w : StreamWorld) (m : Move) : option StreamWorld :=
  match m with
  | Arrives id turn kind capped =>
      match w_tasks w !! id with
      | Some _ => None
      | None =>
          if (0 <=? turn) && (turn <=? StreamSeq.MAX_TURN)
          then Some (set_task w (touch_stream (w_stream w) 0) id
            {| tk_turn := turn; tk_kind := kind; tk_phase := if capped then ArrivingRefused else Arriving |} (w_log w))
          else None
      end
  | Refuses id kept token =>
      t ← w_tasks w !! id;
      match tk_phase t with
      | Holds => Some {| w_stream := refused_a_guess (w_stream w) (tk_turn t) kept token; w_tasks := w_tasks w;
                         w_log := Refused {| rf_turn := tk_turn t; rf_kept := kept; rf_token := token |} :: w_log w |}
      | _ => None
      end
  | Goes id =>
      t ← w_tasks w !! id;
      match tk_phase t with
      | Arriving =>
          Some (if supersedes (tk_kind t)
                then set_task w (raise_skip (w_stream w) (tk_turn t)) id (in_phase t Raised) (w_log w)
                else set_task w (w_stream w) id (in_phase t Waits) (w_log w))
      | Raised => Some (set_task w (advance_locked (w_stream w) 0) id (in_phase t Waits) (w_log w))
      | Waits =>
          if tk_turn t <=? fs_next (w_stream w)
          then Some (let '(s, r) := claim_turn (w_stream w) (tk_turn t) (tk_kind t) tail_skip in
                     match r with
                     | None => set_task w s id (in_phase t Holds) (Ran (tk_turn t) (tk_kind t) :: w_log w)
                     | Some _ => set_task w s id (in_phase t (Ended r)) (w_log w)
                     end)
          else None
      | Holds => Some (set_task w (end_turn (w_stream w) (tk_turn t) 0) id (in_phase t (Ended None)) (w_log w))
      | ArrivingRefused =>
          Some (set_task w (if supersedes (tk_kind t) then raise_skip (w_stream w) (tk_turn t) else w_stream w) id
                  (in_phase t RaisedRefused) (w_log w))
      | RaisedRefused =>
          Some (let '(s, recorded) := refuse_on_arrival (w_stream w) (tk_turn t) in
                set_task w s id (in_phase t (TurnedAway recorded)) (w_log w))
      | Ended _ | TurnedAway _ => None
      end
  end.

Fixpoint do_moves (tail_skip : bool) (w : StreamWorld) (ms : list Move) : option StreamWorld :=
  match ms with [] => Some w | m :: ms => w ← do_move tail_skip w m; do_moves tail_skip w ms end.

Lemma do_move_step tail_skip w m w' : do_move tail_skip w m = Some w' -> stream_step tail_skip w w'.
Proof.
  destruct m as [id turn kind capped|id|id kept token]; cbn.
  - destruct (w_tasks w !! id) eqn:Hid; [done|]. destruct (_ && _) eqn:Ht; [|done]. intros [= <-].
    apply s_arrive; [done|lia|destruct capped; auto].
  - destruct (w_tasks w !! id) as [t|] eqn:Hid; cbn; [|done]. destruct (tk_phase t) eqn:Hp; try done.
    + intros [= <-]. destruct (supersedes _) eqn:?; by constructor.
    + intros [= <-]. by constructor.
    + destruct (Z.leb_spec (tk_turn t) (fs_next (w_stream w))); [|done]. intros [= <-]. by constructor.
    + intros [= <-]. by constructor.
    + intros [= <-]. by constructor.
    + intros [= <-]. by constructor.
  - destruct (w_tasks w !! id) as [t|] eqn:Hid; cbn; [|done]. destruct (tk_phase t) eqn:Hp; try done.
    intros [= <-]. by econstructor.
Qed.

Lemma do_moves_reachable tail_skip ms w : do_moves tail_skip (stream_start 0) ms = Some w -> stream_reachable tail_skip w.
Proof.
  intros H. exists 0. revert H. generalize (stream_start 0). induction ms as [|m ms IH]; cbn; intros w0 H.
  - injection H as ->. constructor.
  - apply bind_Some in H as (w1 & Hm & H). eapply rtc_l; [by eapply do_move_step|auto].
Qed.

(** Turn 1 arrives before turn 0; turn 0 refuses a guess, which its spare (turn 2)
    restarts; turn 1 stood on the refusal, turn 3 is built on the spare, turn 4 was
    refused on arrival, turn 6 restarts the stream, past turn 5 which never came. *)
Definition a_run : list Move := [
  Arrives 1 1 Follows false; Goes 1; Arrives 0 0 Follows false; Goes 0; Goes 0;
  Arrives 2 2 (SpareTurn 0 1 77) false; Goes 2; Refuses 0 1 77; Goes 0; Goes 1; Goes 2;
  Arrives 4 4 Follows true; Goes 4; Goes 4; Arrives 3 3 (AfterSpareTurn 2) false; Goes 3; Goes 2; Goes 3; Goes 3;
  Arrives 6 6 Restarts false; Goes 6; Goes 6; Goes 6].

Definition a_world : StreamWorld := default (stream_start 0) (do_moves true (stream_start 0) a_run).

Example a_run_log : w_log a_world =
  [Ran 6 Restarts; Ran 3 (AfterSpareTurn 2); Ran 2 (SpareTurn 0 1 77); Refused {| rf_turn := 0; rf_kept := 1; rf_token := 77 |};
   Ran 0 Follows].
Proof. reflexivity. Qed.

Lemma a_run_reachable : stream_reachable true a_world.
Proof. apply (do_moves_reachable true a_run). reflexivity. Qed.

(** ** The order of the turns *)

(** C20: At most one turn of a stream runs at a time, and turns run in strictly increasing
    order of their numbers, whatever the order in which forwards arrive, are refused, skipped
    or end, and however their critical sections interleave; the turn that runs is the last
    one started. *)
Theorem turns_run_in_order tail_skip w :
  stream_reachable tail_skip w ->
  StronglySorted (fun later earlier => earlier < later) (ran (w_log w)) /\
  (forall id id' t t', w_tasks w !! id = Some t -> w_tasks w !! id' = Some t' ->
     tk_phase t = Holds -> tk_phase t' = Holds -> id = id') /\
  (forall id t, w_tasks w !! id = Some t -> tk_phase t = Holds -> head (ran (w_log w)) = Some (tk_turn t)).
Proof.
  intros W%reachable_ok. split_and!.
  - eapply ran_sorted, W.
  - apply W.
  - intros id t Hid Hp. destruct (wo_tasks _ w W id t Hid) as (_ & Hh & _). by apply Hh.
Qed.

Lemma turns_run_in_order_witness : ran (w_log a_world) = [6; 3; 2; 0] /\
  StronglySorted (fun later earlier => earlier < later) (ran (w_log a_world)).
Proof. split; [reflexivity|apply (turns_run_in_order true), a_run_reachable]. Defined.

(** A stream steps over no turn without cause: every turn below the one it waits for ran
    here, was superseded by a restart, or came and was answered unrun - refused on arrival, or
    skipped when it fell due. *)
Theorem every_turn_is_accounted_for tail_skip w turn :
  stream_reachable tail_skip w -> 0 <= turn < fs_next (w_stream w) ->
  turn ∈ ran (w_log w) \/ turn < fs_skip_below (w_stream w) \/
  exists id t, w_tasks w !! id = Some t /\ tk_turn t = turn /\ turned_down t.
Proof. intros W%reachable_ok. apply W. Qed.

Lemma every_turn_is_accounted_for_witness : fs_next (w_stream a_world) = 6 /\
  (5 ∈ ran (w_log a_world) \/ 5 < fs_skip_below (w_stream a_world) \/
   exists id t, w_tasks a_world !! id = Some t /\ tk_turn t = 5 /\ turned_down t).
Proof. split; [reflexivity|apply (every_turn_is_accounted_for true); [apply a_run_reachable|split; vm_compute; done]]. Defined.

(** C28: A stream that runs nothing, with no restart between its two critical sections, waits
    only for a turn that never came: it is past everything a restart superseded, the turn it
    waits for is that of no forward that ran, was skipped or was recorded as refused, and a
    forward waiting with that number either runs or is answered and stepped over. *)
Theorem idle_stream_waits_for_a_missing_turn tail_skip w :
  stream_reachable tail_skip w -> is_running (w_stream w) = false ->
  (forall id t, w_tasks w !! id = Some t -> ~ pending t) ->
  fs_skip_below (w_stream w) <= fs_next (w_stream w) /\
  (forall id t, w_tasks w !! id = Some t -> tk_turn t = fs_next (w_stream w) -> ~ settled t) /\
  (forall id t, w_tasks w !! id = Some t -> tk_turn t = fs_next (w_stream w) ->
     let '(s, r) := claim_turn (w_stream w) (tk_turn t) (tk_kind t) tail_skip in
     match r with None => is_running s = true | Some _ => fs_next (w_stream w) < fs_next s end).
Proof.
  intros W%reachable_ok Hr Hnp. split_and!.
  - destruct (wo_jump _ w W Hr) as [?|(id & t & Ht & Hpt)]; [done|]. by destruct (Hnp id t).
  - intros id t Hid Ht Hs. destruct (wo_tasks _ w W id t Hid) as (_ & _ & Hb).
    destruct (Hb Hs) as [?|[[? _]|Hin%(so_refused _ (wo_stream _ w W))]]; [lia|congruence|lia].
  - intros id t Hid Ht. assert (Hb := task_turn _ w id t W Hid).
    unfold claim_turn. cbn zeta. rewrite <- Ht, Z.eqb_refl. unfold is_running in Hr. rewrite Hr. cbn [negb andb].
    destruct (if _ <? _ then (_, Some Skipped) else admit_turn _ _ _ _) as [o' [r|]] eqn:Hadm; [|done].
    assert (o' = fs_order (w_stream w)) as -> by (case_match; [by simplify_eq|by apply admit_refuses in Hadm as [-> _]]).
    rewrite with_order_same, u32_succ_turn by done.
    destruct (advance_ok (w_stream w) (tk_turn t + 1) (stream_almost_ok _ (wo_stream _ w W)) ltac:(lia))
      as (_ & ? & _); [unfold is_running; congruence|lia].
Qed.

Definition an_idle_run : list Move := [
  Arrives 1 1 Follows false; Goes 1; Arrives 0 0 Follows false; Goes 0; Goes 0; Goes 0].
Definition an_idle_world : StreamWorld := default (stream_start 0) (do_moves true (stream_start 0) an_idle_run).

Lemma idle_stream_waits_for_a_missing_turn_witness :
  is_running (w_stream an_idle_world) = false /\ fs_next (w_stream an_idle_world) = 1 /\
  let '(s, r) := claim_turn (w_stream an_idle_world) 1 Follows true in
  match r with None => is_running s = true | Some _ => fs_next (w_stream an_idle_world) < fs_next s end.
Proof.
  split; [reflexivity|]. split; [reflexivity|].
  assert (H := idle_stream_waits_for_a_missing_turn true an_idle_world
    ltac:(apply (do_moves_reachable true an_idle_run); reflexivity) eq_refl).
  apply (proj2 (H ltac:(intros id t Ht%elem_of_map_to_list Hp; vm_compute in Ht; set_unfold; destruct Hp; naive_solver)))
    with (id := 1%nat) (t := {| tk_turn := 1; tk_kind := Follows; tk_phase := Waits |}); reflexivity.
Defined.

(** No turn runs on a guess that was refused here: a check that follows its predecessor
    runs only if every refusal before it was restarted since; a spare restart runs only for
    exactly the refusal it names - check, guesses kept and token - with nothing run since but
    checks of the same line, and no other spare; a check built on a spare runs only where that
    spare ran and nothing since refused a guess or restarted the stream. *)
Theorem turns_stay_on_their_line tail_skip w newer turn kind past :
  stream_reachable tail_skip w -> w_log w = newer ++ Ran turn kind :: past ->
  on_its_line tail_skip past kind.
Proof.
  intros W%reachable_ok Hl. assert (Hok := wo_log _ w W). rewrite Hl in Hok.
  apply log_ok_suffix in Hok as (? & _ & ?). by apply may_run_on_its_line.
Qed.

Lemma turns_stay_on_their_line_witness :
  let past := [Ran 2 (SpareTurn 0 1 77); Refused {| rf_turn := 0; rf_kept := 1; rf_token := 77 |}; Ran 0 Follows] in
  w_log a_world = [Ran 6 Restarts] ++ Ran 3 (AfterSpareTurn 2) :: past /\ on_its_line true past (AfterSpareTurn 2).
Proof.
  split; [exact a_run_log|].
  exact (turns_stay_on_their_line true a_world [Ran 6 Restarts] 3 _ _ a_run_reachable a_run_log).
Defined.

(** ** The table *)

(** [sweep] never forgets a stream a forward waits in or runs in, so a stream's order is
    never started over under it. *)
Lemma sweep_keeps_held (m : gmap StreamKey Stream) (holders : StreamKey -> nat) (idle now : Z) (k : StreamKey) (s : Stream) :
  m !! k = Some s -> (0 < holders k)%nat -> fst (sweep holders idle now m) !! k = Some s.
Proof. intros Hk Hh. cbn. apply map_lookup_filter_Some. auto. Qed.

(** The kind of a branch names an earlier turn of the same attempt, or the forward is refused. *)
Lemma turn_kind_names_earlier seq index_pos truncate_kv_to branch kind :
  turn_kind_of seq index_pos truncate_kv_to branch = Ok kind ->
  match kind with
  | Follows => truncate_kv_to = None
  | Restarts => truncate_kv_to <> None
  | SpareTurn named _ _ | AfterSpareTurn named => named < StreamSeq.turn seq /\ truncate_kv_to = Some index_pos
  end.
Proof.
  unfold turn_kind_of. intros H.
  destruct branch as [[named kept token|named]|]; [case_bool_decide as Hc; [done|]..|].
  1-2: destruct (_ && _) eqn:E; cbn in H; simplify_eq;
       apply andb_true_iff in E as [_ E]; split; [lia|done].
  destruct truncate_kv_to; by simplify_eq.
Qed.
