(* ===== verification/NgramLookup.v ===== *)
(** * Guesses copied from earlier text ([src/inference/ngram_lookup.rs])

    The last tokens of a context are looked up earlier in it; what followed them there
    is a guess at what follows here.  [find_occurrences] finds the most recent places
    of the longest n-gram that occurs, [agreed_run] walks them together while they
    agree, and [copied_run] tries the prompt and then the reply.  Tokens are Z,
    positions nat; whether agreement is weighed, an environment switch, is an
    argument. *)
From S2P Require Import Prelude Bytes.

Definition DEFAULT_MAX_NGRAM_SIZE : nat := 4.
Definition DEFAULT_MIN_NGRAM_SIZE : nat := 2.
Definition DEFAULT_NUM_PRED_TOKENS : nat := 10.
Definition OCCURRENCES_WEIGHED : nat := 32.
Definition AGREEING_PCT : nat := 67.
Definition MATCHED_MOST : nat := 64.

Record NgramLookupConfig : Type := { max_ngram_size : nat; min_ngram_size : nat; num_pred_tokens : nat }.
Definition NgramLookupConfig_default : NgramLookupConfig := {|
  max_ngram_size := DEFAULT_MAX_NGRAM_SIZE; min_ngram_size := DEFAULT_MIN_NGRAM_SIZE;
  num_pred_tokens := DEFAULT_NUM_PRED_TOKENS |}.

Inductive NgramHitSource : Type := FromPrompt | FromGeneration | FromEarlierReply | NoHit.
Record CopiedRun : Type := { cr_tokens : list Z; cr_matched : nat; cr_source : NgramHitSource }.

(** The inner loop, from the start below [k] down to 0. *)
Fixpoint scan_starts (needle searchable : list Z) (n most k : nat) (starts : list nat) : outcome (list nat) :=
  match k with
  | O => Ok starts
  | S start =>
      window ← slice searchable start n;
      if negb (bool_decide (window = needle)) then scan_starts needle searchable n most start starts
      else
        let candidate_start := (start + n)%nat in
        if (length searchable <=? candidate_start)%nat then scan_starts needle searchable n most start starts
        else
          let starts := starts ++ [candidate_start] in
          if (length starts =? most)%nat then Ok starts else scan_starts needle searchable n most start starts
  end.

(** The outer loop: [count] sizes of n-gram left, the next of them [n]. *)
Fixpoint longest_first (context searchable : list Z) (most n count : nat) : outcome (option (list nat * nat)) :=
  match count with
  | O => Ok None
  | S count =>
      needle ← slice context (length context - n) n;
      starts ← scan_starts needle searchable n most (S (length searchable - n)) [];
      if bool_decide (starts = []) then longest_first context searchable most (n - 1) count else Ok (Some (starts, n))
  end.

Definition find_occurrences (context searchable : list Z) (cfg : NgramLookupConfig) (most : nat)
  : outcome (option (list nat * nat)) :=
  if bool_decide (context = []) || bool_decide (searchable = []) || (most =? 0)%nat then Ok None
  else
    let max_n := Nat.min (Nat.min (max_ngram_size cfg) (length context)) (length searchable) in
    let min_n := Nat.max (min_ngram_size cfg) 1 in
    if (max_n <? min_n)%nat then Ok None else longest_first context searchable most max_n (S (max_n - min_n)).

Definition first_of (starts : list nat) : outcome nat := match starts with x :: _ => Ok x | [] => Panic end.

Definition find_candidate (context searchable : list Z) (cfg : NgramLookupConfig) : outcome (list Z) :=
  found ← find_occurrences context searchable cfg 1;
  match found with
  | Some (starts, _) =>
      from ← first_of starts;
      slice searchable from (Nat.min (from + num_pred_tokens cfg) (length searchable) - from)
  | None => Ok []
  end.

(** ** The agreed run *)

Section run.
Context (searchable : list Z).

Definition goes_on_with (token : Z) (at_ : nat) : bool := bool_decide (searchable !! at_ = Some token).

(** The token most of [following] continue with, the most recent on a tie, and its votes. *)
Fixpoint leader_from (following before rest : list nat) (leader : option (Z * nat)) : option (Z * nat) :=
  match rest with
  | [] => leader
  | at_ :: rest =>
      let leader := match searchable !! at_ with
        | None => leader
        | Some token =>
            if existsb (goes_on_with token) before then leader
            else
              let votes := length (List.filter (goes_on_with token) following) in
              match leader with
              | None => Some (token, votes)
              | Some (_, most_votes) => if (most_votes <? votes)%nat then Some (token, votes) else leader
              end
        end in
      leader_from following (before ++ [at_]) rest leader
  end.

(** [left] tokens may still be taken; [first] while none has been. *)
Fixpoint agreed_from (left : nat) (first : bool) (following : list nat) : list Z :=
  match left with
  | O => []
  | S left' =>
      match following with
      | [only] => take left (drop only searchable)
      | _ =>
          match leader_from following [] following None with
          | None => []
          | Some (token, votes) =>
              if negb first && (votes * 100 <? AGREEING_PCT * length following)%nat then []
              else token :: agreed_from left' false (map S (List.filter (goes_on_with token) following))
          end
      end
  end.

Definition agreed_run (starts : list nat) (most : nat) : list Z := agreed_from most true starts.
End run.

(** ** The cascade *)

(** How far back the match goes, measured from [matched]. *)
Fixpoint measure (fuel : nat) (context searchable : list Z) (from matched : nat) : outcome nat :=
  match fuel with
  | O => Ok matched
  | S fuel =>
      if (matched <? MATCHED_MOST)%nat && (matched <? from)%nat && (matched <? length context)%nat then
        a ← idx searchable (from - matched - 1);
        b ← idx context (length context - matched - 1);
        if a =? b then measure fuel context searchable from (S matched) else Ok matched
      else Ok matched
  end.

Definition lookup_in (context searchable : list Z) (cfg : NgramLookupConfig) (weighed most : nat) (source : NgramHitSource)
  : outcome (option CopiedRun) :=
  found ← find_occurrences context searchable cfg weighed;
  match found with
  | None => Ok None
  | Some (starts, n) =>
      from ← first_of starts;
      let tokens := agreed_run searchable starts most in
      if bool_decide (tokens = []) then Ok None
      else
        matched ← measure MATCHED_MOST context searchable from n;
        Ok (Some {| cr_tokens := tokens; cr_matched := matched; cr_source := source |})
  end.

Definition copied_run (copy_agreement_on : bool) (context : list Z) (prompt_len recent_gen_window : nat)
    (cfg : NgramLookupConfig) (most : nat) : outcome (option CopiedRun) :=
  let weighed := if copy_agreement_on then OCCURRENCES_WEIGHED else 1%nat in
  let gen_start := Nat.max (length context - recent_gen_window) prompt_len in
  in_prompt ← (if (0 <? prompt_len)%nat && (prompt_len <=? length context)%nat
               then s ← slice context 0 prompt_len; lookup_in context s cfg weighed most FromPrompt
               else Ok None);
  match in_prompt with
  | Some run => Ok (Some run)
  | None =>
      if (gen_start <? length context)%nat
      then s ← slice context gen_start (length context - gen_start); lookup_in context s cfg weighed most FromGeneration
      else Ok None
  end.

Definition cascade_find_candidate (copy_agreement_on : bool) (prompt_tokens : list Z) (prompt_len recent_gen_window : nat)
    (cfg : NgramLookupConfig) : outcome (list Z * NgramHitSource) :=
  run ← copied_run copy_agreement_on prompt_tokens prompt_len recent_gen_window cfg (num_pred_tokens cfg);
  Ok (match run with Some r => (cr_tokens r, cr_source r) | None => ([], NoHit) end).

(** ** What a lookup finds *)

(** Where the needle occurs with a token after it, the most recent first. *)
Definition occurs_at (needle searchable : list Z) (start : nat) : bool :=
  bool_decide (take (length needle) (drop start searchable) = needle) && (start + length needle <? length searchable)%nat.
Definition occurrences (needle searchable : list Z) : list nat :=
  map (fun start => start + length needle)%nat
    (List.filter (occurs_at needle searchable) (reverse (seq 0 (S (length searchable - length needle))))).

(** The last [n] tokens. *)
Definition tail_of (n : nat) (context : list Z) : list Z := drop (length context - n) context.

(** The longest of the n-grams allowed that occurs, and its occurrences. *)
Definition lookup_spec (context searchable : list Z) (cfg : NgramLookupConfig) (most : nat) : option (list nat * nat) :=
  let max_n := Nat.min (Nat.min (max_ngram_size cfg) (length context)) (length searchable) in
  let min_n := Nat.max (min_ngram_size cfg) 1 in
  let sizes := reverse (seq min_n (S max_n - min_n)) in
  n ← List.find (fun n => negb (bool_decide (occurrences (tail_of n context) searchable = []))) sizes;
  Some (take most (occurrences (tail_of n context) searchable), n).

Lemma slice_ok d i n : (i + n <= length d)%nat -> slice d i n = Ok (take n (drop i d)).
Proof. intros. unfold slice. by rewrite (proj2 (Nat.leb_le _ _)). Qed.

Lemma scan_starts_spec needle searchable most k starts :
  (k + length needle <= S (length searchable))%nat -> (length starts < most)%nat ->
  scan_starts needle searchable (length needle) most k starts =
  Ok (starts ++ take (most - length starts)
        (map (fun start => start + length needle)%nat (List.filter (occurs_at needle searchable) (reverse (seq 0 k))))).
Proof.
  revert starts. induction k as [|k IH]; intros starts Hk Hs; [cbn; by rewrite take_nil, app_nil_r|].
  rewrite seq_S, reverse_snoc. cbn [scan_starts Nat.add]. rewrite slice_ok by lia. cbn [mbind outcome_bind List.filter].
  unfold occurs_at at 1. destruct (bool_decide _); cbn [negb andb]; [|apply IH; lia].
  destruct (Nat.leb_spec (length searchable) (k + length needle)), (Nat.ltb_spec (k + length needle) (length searchable)); try lia;
    [apply IH; lia|]. cbn [map].
  destruct (most - length starts)%nat as [|m] eqn:Hm; [lia|]. cbn [take].
  destruct (Nat.eqb_spec (length (starts ++ [(k + length needle)%nat])) most) as [Hfull|Hroom]; rewrite length_app in *; cbn in *.
  - replace m with 0%nat by lia. cbn. done.
  - rewrite IH by (rewrite ?length_app; cbn; lia). rewrite length_app, <- (assoc (++)). cbn. do 3 f_equal. f_equal. lia.
Qed.

Lemma tail_length n context : (n <= length context)%nat -> length (tail_of n context) = n.
Proof. intros. unfold tail_of. rewrite length_drop. lia. Qed.

Lemma longest_first_spec context searchable most n count :
  (0 < most)%nat -> (count <= n)%nat -> (n <= length context)%nat -> (n <= length searchable)%nat ->
  longest_first context searchable most n count =
  Ok (n ← List.find (fun n => negb (bool_decide (occurrences (tail_of n context) searchable = []))) (reverse (seq (S n - count) count));
      Some (take most (occurrences (tail_of n context) searchable), n)).
Proof.
  intros Hm. revert n. induction count as [|count IH]; intros n Hc Hn Hs; [done|]. cbn [longest_first].
  assert (Hneedle : slice context (length context - n) n = Ok (tail_of n context)).
  { rewrite slice_ok by lia. f_equal. unfold tail_of. apply take_ge. rewrite length_drop. lia. }
  rewrite Hneedle. cbn [mbind outcome_bind]. pose proof (tail_length n context Hn) as Hl.
  assert (Hscan : scan_starts (tail_of n context) searchable n most (S (length searchable - n)) [] =
    Ok (take most (occurrences (tail_of n context) searchable))).
  { rewrite <- Hl at 2. rewrite scan_starts_spec by (rewrite ?Hl; cbn; lia). cbn [app length]. rewrite Nat.sub_0_r.
    unfold occurrences. by rewrite Hl. }
  rewrite Hscan. cbn [mbind outcome_bind]. replace (S n - S count)%nat with (n - count)%nat by lia.
  rewrite seq_S, reverse_snoc. cbn [List.find]. replace (n - count + count)%nat with n by lia.
  destruct most as [|m]; [lia|]. destruct (occurrences (tail_of n context) searchable) as [|o os] eqn:Ho.
  - cbn [take]. rewrite !bool_decide_true by done. cbn [negb]. rewrite IH by lia. by replace (S (n - 1) - count)%nat with (n - count)%nat by lia.
  - cbn [take]. rewrite !bool_decide_false by done. cbn [negb mbind option_bind]. by rewrite Ho.
Qed.

Lemma find_occurrences_spec context searchable cfg most :
  (0 < most)%nat -> find_occurrences context searchable cfg most = Ok (lookup_spec context searchable cfg most).
Proof.
  intros Hm. unfold find_occurrences, lookup_spec. cbn zeta.
  set (max_n := Nat.min _ (length searchable)). set (min_n := Nat.max _ 1).
  assert (Hnone : (max_n < min_n)%nat -> seq min_n (S max_n - min_n) = []) by (intros; by replace (S max_n - min_n)%nat with 0%nat by lia).
  destruct (bool_decide_reflect (context = [])) as [->|Hc]; [cbn; by rewrite Hnone by (unfold max_n, min_n; cbn; lia)|].
  destruct (bool_decide_reflect (searchable = [])) as [->|Hs]; [cbn; by rewrite Hnone by (unfold max_n, min_n; cbn; lia)|].
  destruct (Nat.eqb_spec most 0); [lia|]. cbn [orb]. destruct (Nat.ltb_spec max_n min_n); [by rewrite Hnone|].
  rewrite longest_first_spec by (unfold max_n, min_n in *; lia).
  by replace (S max_n - S (max_n - min_n))%nat with min_n by lia; replace (S (max_n - min_n)) with (S max_n - min_n)%nat by lia.
Qed.

(** ** What the occurrences agree on *)

Section agreed.
Context (searchable : list Z).

(** The places whose text goes on with [p]. *)
Definition follows (p : list Z) (at_ : nat) : bool := bool_decide (take (length p) (drop at_ searchable) = p).
Definition followers (p : list Z) (places : list nat) : list nat := List.filter (follows p) places.

Lemma follows_cons token p at_ : follows (token :: p) at_ = goes_on_with searchable token at_ && follows p (S at_).
Proof.
  unfold follows, goes_on_with. apply eq_iff_eq_true. rewrite andb_true_iff, !bool_decide_eq_true. cbn [length].
  destruct (searchable !! at_) as [x|] eqn:Hx.
  - rewrite (drop_S _ _ _ Hx). cbn [take]. split; [intros [= -> ?]; done|intros [[= ->] ->]; done].
  - rewrite (drop_ge searchable at_) by (by apply lookup_ge_None). split; [done|by intros [? _]].
Qed.

Lemma followers_cons token p places :
  length (followers (token :: p) places) = length (followers p (map S (List.filter (goes_on_with searchable token) places))).
Proof.
  unfold followers. induction places as [|x places IH]; [done|]. cbn [List.filter]. rewrite follows_cons.
  destruct (goes_on_with searchable token x); cbn [andb map List.filter]; [|done]. destruct (follows p (S x)); cbn; congruence.
Qed.

Lemma followers_nil places : followers [] places = places.
Proof. unfold followers. induction places as [|x places IH]; [done|]. cbn. by rewrite IH. Qed.

Lemma followers_one token places : length (followers [token] places) = length (List.filter (goes_on_with searchable token) places).
Proof. by rewrite followers_cons, followers_nil, length_map. Qed.

(** The leader's votes are its own, and no token seen has more. *)
Definition leads (following seen : list nat) (leader : option (Z * nat)) : Prop :=
  match leader with
  | None => forall x, x ∈ seen -> searchable !! x = None
  | Some (token, votes) =>
      votes = length (List.filter (goes_on_with searchable token) following) /\ (0 < votes)%nat /\
      forall x other, x ∈ seen -> searchable !! x = Some other ->
        (length (List.filter (goes_on_with searchable other) following) <= votes)%nat
  end.

Lemma votes_pos following x token :
  x ∈ following -> searchable !! x = Some token -> (0 < length (List.filter (goes_on_with searchable token) following))%nat.
Proof.
  intros Hx Ht. assert (Hin : In x (List.filter (goes_on_with searchable token) following)).
  { apply filter_In. split; [by apply list_elem_of_In|by apply bool_decide_eq_true]. }
  destruct (List.filter _ _); [done|cbn; lia].
Qed.

Lemma leader_leads following before rest leader :
  (forall x, x ∈ before ++ rest -> x ∈ following) -> leads following before leader ->
  leads following (before ++ rest) (leader_from searchable following before rest leader).
Proof.
  revert before leader. induction rest as [|x rest IH]; intros before leader Hin Hl; cbn [leader_from]; [by rewrite app_nil_r|].
  rewrite cons_middle, (assoc (++)). apply IH; [intros y; rewrite <- (assoc (++)); apply Hin|].
  destruct (searchable !! x) as [token|] eqn:Hx.
  2: { destruct leader as [[t v]|]; cbn in *.
       - destruct Hl as (? & ? & Hall). split_and!; [done..|]. intros y o [Hy| ->%list_elem_of_singleton]%elem_of_app; [eauto|congruence].
       - intros y [Hy| ->%list_elem_of_singleton]%elem_of_app; auto. }
  destruct (existsb (goes_on_with searchable token) before) eqn:Hex.
  - apply existsb_exists in Hex as (y & Hy%list_elem_of_In & Hyt%bool_decide_eq_true).
    destruct leader as [[t v]|]; cbn in *; [|by rewrite (Hl y Hy) in Hyt].
    destruct Hl as (? & ? & Hall). split_and!; [done..|]. intros z o [Hz| ->%list_elem_of_singleton]%elem_of_app; [eauto|].
    rewrite Hx. intros [= <-]. by eapply Hall.
  - pose proof (votes_pos following x token (Hin x ltac:(set_solver)) Hx) as Hpos.
    destruct leader as [[t v]|]; [case_match eqn:Hlt|]; cbn in *.
    + apply Nat.ltb_lt in Hlt. destruct Hl as (? & ? & Hall). split_and!; [done..|].
      intros z o [Hz| ->%list_elem_of_singleton]%elem_of_app Hzo; [specialize (Hall z o Hz Hzo); lia|by simplify_eq].
    + apply Nat.ltb_ge in Hlt. destruct Hl as (? & ? & Hall). split_and!; [done..|].
      intros z o [Hz| ->%list_elem_of_singleton]%elem_of_app Hzo; [eauto|by simplify_eq].
    + split_and!; [done..|]. intros z o [Hz| ->%list_elem_of_singleton]%elem_of_app Hzo; [by rewrite (Hl z Hz) in Hzo|by simplify_eq].
Qed.

Lemma leader_of following : leads following following (leader_from searchable following [] following None).
Proof. apply (leader_leads following [] following None); [done|by intros x ?%elem_of_nil]. Qed.

Lemma follows_take p j at_ : follows p at_ = true -> follows (take j p) at_ = true.
Proof.
  unfold follows. rewrite !bool_decide_eq_true. intros Hp. rewrite <- Hp at 2. rewrite take_take, length_take. f_equal; lia.
Qed.

Lemma follows_own n at_ : follows (take n (drop at_ searchable)) at_ = true.
Proof.
  unfold follows. apply bool_decide_eq_true. rewrite length_take.
  destruct (Nat.min_spec n (length (drop at_ searchable))) as [[_ ->]|[? ->]]; [done|]. by rewrite !take_ge.
Qed.

(** What a run of the loop returns: at most [left] tokens, a continuation of one of
    the places, every token but the first agreed on. *)
Lemma agreed_from_spec left first following :
  let run := agreed_from searchable left first following in
  (length run <= left)%nat /\
  (run <> [] -> exists at_, at_ ∈ following /\ follows run at_ = true) /\
  (forall j, (j < length run)%nat -> (0 < j)%nat \/ first = false ->
     (AGREEING_PCT * length (followers (take j run) following) <= 100 * length (followers (take (S j) run) following))%nat).
Proof.
  revert first following. induction left as [|left IH]; intros first following; cbn zeta; [cbn; split_and!; [lia|done|lia]|].
  assert ((exists only, following = [only]) \/ ~ exists only, following = [only]) as [[only ->]|Hmany].
  { destruct following as [|x [|y l]]; [right; by intros [? ?]|left; eauto|right; by intros [? ?]]. }
  { cbn [agreed_from]. rewrite length_take. split_and!; [lia| |].
    - intros _. exists only. split; [by apply list_elem_of_singleton|apply follows_own].
    - intros j _ _. unfold followers. cbn [List.filter]. rewrite !follows_take by apply follows_own. unfold AGREEING_PCT. cbn. lia. }
  assert (Hrun : agreed_from searchable (S left) first following =
    match leader_from searchable following [] following None with
    | None => []
    | Some (token, votes) =>
        if negb first && (votes * 100 <? AGREEING_PCT * length following)%nat then []
        else token :: agreed_from searchable left false (map S (List.filter (goes_on_with searchable token) following))
    end) by (destruct following as [|x [|y rest]]; [done|destruct Hmany; eauto|done]).
  rewrite Hrun. clear Hrun. pose proof (leader_of following) as Hl.
  destruct (leader_from _ _ _ _ _) as [[token votes]|]; [|cbn; split_and!; [lia|done|lia]].
  destruct (negb first && _) eqn:Hstop; [cbn; split_and!; [lia|done|lia]|]. destruct Hl as (Hv & Hpos & _).
  destruct (IH false (map S (List.filter (goes_on_with searchable token) following))) as (Hlen & Hcopy & Hagree).
  set (rest := agreed_from _ _ _ _) in *. split_and!.
  - cbn [length]. lia.
  - intros _. destruct (decide (rest = [])) as [->|Hne].
    + rewrite Hv in Hpos. destruct (List.filter _ following) as [|x l] eqn:Hf; [cbn in Hpos; lia|].
      assert (Hx : In x (List.filter (goes_on_with searchable token) following)) by (rewrite Hf; by left).
      apply filter_In in Hx as [Hx Ht]. exists x. split; [by apply list_elem_of_In|]. rewrite follows_cons, Ht. unfold follows. by cbn.
    + destruct (Hcopy Hne) as (y & Hy & Hfol). apply list_elem_of_fmap in Hy as (x & -> & Hx).
      apply list_elem_of_In, filter_In in Hx as [Hx Ht]. exists x. split; [by apply list_elem_of_In|]. by rewrite follows_cons, Ht.
  - intros [|j] Hj Hfirst.
    + destruct Hfirst as [?| ->]; [lia|]. cbn [negb andb] in Hstop. apply Nat.ltb_ge in Hstop.
      cbn [take]. rewrite followers_nil, followers_one, <- Hv. lia.
    + cbn [take]. rewrite !followers_cons. apply Hagree; [cbn in Hj; lia|by right].
Qed.

Lemma agreed_run_spec starts most :
  let run := agreed_run searchable starts most in
  (length run <= most)%nat /\
  (run <> [] -> exists at_, at_ ∈ starts /\ follows run at_ = true) /\
  (forall token, run !! O = Some token -> forall other, (length (followers [other] starts) <= length (followers [token] starts))%nat) /\
  (forall j, (0 < j < length run)%nat ->
     (AGREEING_PCT * length (followers (take j run) starts) <= 100 * length (followers (take (S j) run) starts))%nat).
Proof.
  cbn zeta. unfold agreed_run. destruct (agreed_from_spec most true starts) as (Hlen & Hcopy & Hagree). split_and!; [done|done| |].
  2: { intros j [? ?]. apply Hagree; [done|by left]. }
  clear. destruct most as [|most]; [done|]. intros token Ht other. rewrite !followers_one.
  assert (Hone : forall only, starts = [only] -> (length (List.filter (goes_on_with searchable other) starts) <=
    length (List.filter (goes_on_with searchable token) starts))%nat).
  { intros only ->. revert Ht. cbn [agreed_from]. rewrite lookup_take_lt, lookup_drop, Nat.add_0_r by lia. intros Ht. cbn [List.filter].
    unfold goes_on_with at 2. rewrite Ht, bool_decide_true by done. case_match; cbn; lia. }
  destruct starts as [|x [|y rest]]; [done|by eapply Hone|]. clear Hone. set (starts := x :: y :: rest) in *.
  cbn [agreed_from] in Ht. unfold starts at 1 in Ht. pose proof (leader_of starts) as Hl.
  destruct (leader_from _ _ _ _ _) as [[t v]|]; [|done]. cbn in Ht. injection Ht as ->. destruct Hl as (-> & _ & Hall).
  destruct (List.filter (goes_on_with searchable other) starts) as [|z l] eqn:Hf; [cbn; lia|]. rewrite <- Hf.
  assert (Hz : In z (List.filter (goes_on_with searchable other) starts)) by (rewrite Hf; by left).
  apply filter_In in Hz as [Hz%list_elem_of_In Ho%bool_decide_eq_true]. by eapply Hall.
Qed.
End agreed.

(** ** The copied run *)

Lemma occurrences_elem needle searchable at_ :
  at_ ∈ occurrences needle searchable ->
  (length needle <= at_ < length searchable)%nat /\
  take (length needle) (drop (at_ - length needle) searchable) = needle.
Proof.
  intros (start & -> & Hs)%list_elem_of_fmap. apply list_elem_of_In, filter_In in Hs as [_ Hs].
  apply andb_true_iff in Hs as [Hw%bool_decide_eq_true Hlt%Nat.ltb_lt]. rewrite Nat.add_sub. split; [lia|done].
Qed.

Lemma lookup_spec_some context searchable cfg most starts n :
  lookup_spec context searchable cfg most = Some (starts, n) ->
  (1 <= n <= length context)%nat /\ starts = take most (occurrences (tail_of n context) searchable) /\
  occurrences (tail_of n context) searchable <> [].
Proof.
  unfold lookup_spec. cbn zeta. intros (n' & Hn & [= <- <-])%bind_Some. apply List.find_some in Hn as [Hin Hocc].
  apply list_elem_of_In in Hin. rewrite elem_of_reverse, elem_of_seq in Hin. apply negb_true_iff, bool_decide_eq_false in Hocc.
  split_and!; [lia|lia|done|done].
Qed.

(** The last [m] tokens of the context are those before [from]. *)
Definition agrees_back (context searchable : list Z) (from m : nat) : Prop :=
  (m <= from)%nat /\ (m <= length context)%nat /\ take m (drop (from - m) searchable) = tail_of m context.

Lemma measure_spec fuel context searchable from matched :
  (from <= length searchable)%nat -> agrees_back context searchable from matched ->
  exists m, measure fuel context searchable from matched = Ok m /\ (matched <= m)%nat /\ agrees_back context searchable from m.
Proof.
  intros Hf. revert matched. induction fuel as [|fuel IH]; intros matched Hm; [by exists matched|]. cbn [measure].
  destruct (_ && _) eqn:Hgo; [|by exists matched]. apply andb_true_iff in Hgo as [[_ Hlt%Nat.ltb_lt]%andb_true_iff Hlc%Nat.ltb_lt].
  destruct (lookup_lt_is_Some_2 searchable (from - matched - 1)) as [a Ha]; [lia|].
  destruct (lookup_lt_is_Some_2 context (length context - matched - 1)) as [b Hb]; [lia|].
  unfold idx. rewrite Ha, Hb. cbn [mbind outcome_bind]. destruct (Z.eqb_spec a b) as [<-|]; [|by exists matched].
  destruct (IH (S matched)) as (m & Hmeas & Hle & Hback).
  - destruct Hm as (_ & _ & Hm). split_and!; [lia|lia|]. unfold tail_of in *.
    replace (from - S matched)%nat with (from - matched - 1)%nat by lia.
    replace (length context - S matched)%nat with (length context - matched - 1)%nat by lia.
    rewrite (drop_S _ _ _ Ha), (drop_S _ _ _ Hb). cbn [take].
    replace (S (from - matched - 1)) with (from - matched)%nat by lia.
    replace (S (length context - matched - 1)) with (length context - matched)%nat by lia. by rewrite Hm.
  - exists m. split_and!; [done|lia|done].
Qed.

(** What a lookup in one part of the context copies. *)
Definition copied_from (context searchable : list Z) (most : nat) (r : CopiedRun) : Prop :=
  cr_tokens r <> [] /\ (length (cr_tokens r) <= most)%nat /\
  exists n from at_, (1 <= n <= cr_matched r)%nat /\
    occurrences (tail_of n context) searchable !! O = Some from /\ agrees_back context searchable from (cr_matched r) /\
    at_ ∈ occurrences (tail_of n context) searchable /\ follows searchable (cr_tokens r) at_ = true.

Lemma lookup_in_spec context searchable cfg weighed most source :
  (0 < weighed)%nat ->
  exists r, lookup_in context searchable cfg weighed most source = Ok r /\
    forall run, r = Some run -> cr_source run = source /\ copied_from context searchable most run.
Proof.
  intros Hw. unfold lookup_in. rewrite find_occurrences_spec by done. cbn [mbind outcome_bind].
  destruct (lookup_spec _ _ _ _) as [[starts n]|] eqn:Hspec; [|by exists None].
  apply lookup_spec_some in Hspec as (Hn & -> & Hocc).
  destruct (occurrences (tail_of n context) searchable) as [|from os] eqn:Ho; [done|]. destruct weighed as [|weighed]; [lia|].
  cbn [take first_of mbind outcome_bind].
  destruct (agreed_run_spec searchable (take (S weighed) (from :: os)) most) as (Hlen & Hcopy & _). cbn [take] in *.
  case_bool_decide as Hempty; [by exists None|].
  assert (Hfrom : from ∈ occurrences (tail_of n context) searchable) by (rewrite Ho; left).
  apply occurrences_elem in Hfrom as [Hb Hw']. rewrite tail_length in * by lia.
  destruct (measure_spec MATCHED_MOST context searchable from n) as (m & -> & Hle & Hback); [lia|split_and!; [lia|lia|done]|].
  eexists. split; [done|]. intros run [= <-]. split; [done|]. split; [done|]. split; [done|]. cbn [cr_matched cr_tokens].
  destruct (Hcopy Hempty) as (at_ & Hat & Hfol). exists n, from, at_. rewrite Ho.
  split; [lia|]. split; [done|]. split; [done|]. split; [|done].
  apply elem_of_cons in Hat as [->|Hat]; [left|right].
  apply elem_of_take in Hat as (i & Hi & _). by eapply list_elem_of_lookup_2.
Qed.

(** The lookup finds the longest n-gram that occurs earlier, with its most recent
    occurrences that have a token after them; no index runs out of range. *)
Theorem lookup_finds_the_longest_match context searchable cfg most :
  (0 < most)%nat -> find_occurrences context searchable cfg most = Ok (lookup_spec context searchable cfg most).
Proof. apply find_occurrences_spec. Qed.

(** The run the occurrences agree on: it continues one of them token for token, is no
    longer than asked; its first token is one no other has more votes than; and every
    later one holds at least 67 in a hundred of the occurrences that agreed so far. *)
Theorem agreed_run_is_agreed searchable starts most :
  let run := agreed_run searchable starts most in
  (length run <= most)%nat /\
  (run <> [] -> exists at_, at_ ∈ starts /\ follows searchable run at_ = true) /\
  (forall token, run !! O = Some token -> forall other, (length (followers searchable [other] starts) <= length (followers searchable [token] starts))%nat) /\
  (forall j, (0 < j < length run)%nat ->
     (AGREEING_PCT * length (followers searchable (take j run) starts) <= 100 * length (followers searchable (take (S j) run) starts))%nat).
Proof. apply agreed_run_spec. Qed.

(** What is copied was read before: the run goes on from an earlier occurrence of the
    context's last tokens, in the prompt or in the reply; and the match it reports is
    one, measured back from the most recent occurrence.  No lookup panics. *)
Theorem copied_run_copies agreement context prompt_len window cfg most :
  exists r, copied_run agreement context prompt_len window cfg most = Ok r /\
    forall run, r = Some run -> exists searchable, copied_from context searchable most run /\
      (cr_source run = FromPrompt /\ searchable = take prompt_len context \/
       cr_source run = FromGeneration /\
       searchable = drop (Nat.max (length context - window) prompt_len) context).
Proof.
  unfold copied_run. cbn zeta. set (g := Nat.max _ prompt_len). set (w := if agreement then _ else _).
  assert (Hw : (0 < w)%nat) by (unfold w, OCCURRENCES_WEIGHED; destruct agreement; lia).
  assert (Hreply : exists r, (if (g <? length context)%nat
      then s ← slice context g (length context - g); lookup_in context s cfg w most FromGeneration else Ok None) = Ok r /\
    forall run, r = Some run -> copied_from context (drop g context) most run /\ cr_source run = FromGeneration).
  { destruct (Nat.ltb_spec g (length context)); [|by exists None]. rewrite slice_ok by lia. cbn [mbind outcome_bind].
    rewrite take_ge by (rewrite length_drop; lia).
    destruct (lookup_in_spec context (drop g context) cfg w most FromGeneration Hw) as (r & -> & Hr). exists r. split; [done|].
    intros run Hrun. destruct (Hr run Hrun). done. }
  destruct Hreply as (reply & Hreply & Hrun). destruct ((0 <? prompt_len)%nat && _) eqn:Hp.
  - apply andb_true_iff in Hp as [_ Hp%Nat.leb_le]. rewrite (slice_ok context 0) by lia. cbn [mbind outcome_bind].
    change (drop 0 context) with context.
    destruct (lookup_in_spec context (take prompt_len context) cfg w most FromPrompt Hw) as (r & -> & Hr). cbn [mbind outcome_bind].
    destruct r as [run|].
    + exists (Some run). split; [done|]. intros run' [= <-]. destruct (Hr run eq_refl). eauto 10.
    + exists reply. split; [done|]. intros run Hs. destruct (Hrun run Hs). eauto 10.
  - cbn [mbind outcome_bind]. exists reply. split; [done|]. intros run Hs. destruct (Hrun run Hs). eauto 10.
Qed.

(** ** On concrete text *)

Definition bigrams : NgramLookupConfig := {| max_ngram_size := 2; min_ngram_size := 2; num_pred_tokens := 1 |}.

Lemma lookup_finds_the_longest_match_witness :
  find_occurrences [100; 100; 1; 2] [1; 2; 99; 50; 60; 1; 2; 70; 80; 90] NgramLookupConfig_default 2 = Ok (Some ([7; 2]%nat, 2%nat)).
Proof.
  rewrite (lookup_finds_the_longest_match [100; 100; 1; 2] [1; 2; 99; 50; 60; 1; 2; 70; 80; 90] NgramLookupConfig_default 2) by lia.
  vm_compute. reflexivity.
Defined.

Example prompt_before_reply :
  cascade_find_candidate true [1; 2; 99; 50; 60; 7; 8; 9; 1; 2] 5 5 bigrams = Ok ([99], FromPrompt).
Proof. reflexivity. Qed.
Example reply_when_the_prompt_has_none :
  cascade_find_candidate true [100; 200; 300; 5; 6; 99; 5; 6] 3 5 bigrams = Ok ([99], FromGeneration).
Proof. reflexivity. Qed.
Example nearest_occurrence : find_candidate [999; 5; 6; 7] [5; 6; 7; 100; 8; 9; 10; 5; 6; 7; 200]
  {| max_ngram_size := 3; min_ngram_size := 3; num_pred_tokens := 1 |} = Ok [200].
Proof. reflexivity. Qed.
