(* ===== verification/SlotTable.v ===== *)
(** * The worker's slot table ([src/inference/slot_table.rs])

    A [Slot] is one generate request in the worker's batched decode pool: it
    reads its prompt in chunks ([Prefilling]), then decodes ([Decoding]), and
    keeps its first finish reason.  [SlotTable] holds the slots of one layer
    range.  [usize] values are Z; the removal loops run with the number of slots
    as fuel, and [drain_where_spec] shows that it is enough. *)
From S2P Require Import Prelude Bytes ForwardTypes.


Inductive SlotState : Type :=
| Prefilling (remaining_ids : list Z) (next_chunk_index_pos : Z)
| Decoding (last_token : Z) (last_token_logprob : option Z) (generated_count index_pos : Z).

Section slots.
(** The reply grammar's matcher and the owner's earlier replies ride along untouched. *)
Context {HeldReply EarlierReplies : Type}.

Record Slot : Type := {
  sl_request_id : bytes;
  sl_req_id_str : string;
  sl_model_key : string;
  sl_model_id : bytes;
  sl_layer_range : Z * Z;
  sl_state : SlotState;
  sl_max_tokens : Z;
  sl_use_logprobs : bool;
  sl_eos : list Z;
  sl_stop_sequences : list bytes;
  sl_accumulated_text : bytes;
  sl_utf8_carry : bytes;
  sl_sampling : SamplingParams;
  sl_prompt_tokens : Z;
  sl_prompt_ids : list Z;
  sl_generated_ids : list Z;
  sl_finish_reason : option string;
  sl_error_message : option string;
  sl_matched_stop_sequence : option bytes;
  sl_keep_here : bool;
  sl_save_at : Z;
  sl_save_when_done : bool;
  sl_held : option HeldReply;
  sl_earlier : option EarlierReplies }.

(** ** Field updates *)

Definition set_finish (why : string) (err : option string) (matched : option bytes) (s : Slot) : Slot := {|
  sl_request_id := sl_request_id s; sl_req_id_str := sl_req_id_str s; sl_model_key := sl_model_key s;
  sl_model_id := sl_model_id s; sl_layer_range := sl_layer_range s; sl_state := sl_state s;
  sl_max_tokens := sl_max_tokens s; sl_use_logprobs := sl_use_logprobs s; sl_eos := sl_eos s;
  sl_stop_sequences := sl_stop_sequences s; sl_accumulated_text := sl_accumulated_text s;
  sl_utf8_carry := sl_utf8_carry s; sl_sampling := sl_sampling s; sl_prompt_tokens := sl_prompt_tokens s;
  sl_prompt_ids := sl_prompt_ids s; sl_generated_ids := sl_generated_ids s;
  sl_finish_reason := Some why; sl_error_message := err; sl_matched_stop_sequence := matched;
  sl_keep_here := sl_keep_here s; sl_save_at := sl_save_at s; sl_save_when_done := sl_save_when_done s;
  sl_held := sl_held s; sl_earlier := sl_earlier s |}.

Definition set_progress (st : SlotState) (ids : list Z) (s : Slot) : Slot := {|
  sl_request_id := sl_request_id s; sl_req_id_str := sl_req_id_str s; sl_model_key := sl_model_key s;
  sl_model_id := sl_model_id s; sl_layer_range := sl_layer_range s; sl_state := st;
  sl_max_tokens := sl_max_tokens s; sl_use_logprobs := sl_use_logprobs s; sl_eos := sl_eos s;
  sl_stop_sequences := sl_stop_sequences s; sl_accumulated_text := sl_accumulated_text s;
  sl_utf8_carry := sl_utf8_carry s; sl_sampling := sl_sampling s; sl_prompt_tokens := sl_prompt_tokens s;
  sl_prompt_ids := sl_prompt_ids s; sl_generated_ids := ids;
  sl_finish_reason := sl_finish_reason s; sl_error_message := sl_error_message s;
  sl_matched_stop_sequence := sl_matched_stop_sequence s;
  sl_keep_here := sl_keep_here s; sl_save_at := sl_save_at s; sl_save_when_done := sl_save_when_done s;
  sl_held := sl_held s; sl_earlier := sl_earlier s |}.

(** ** One slot *)

Definition is_finished (s : Slot) : bool :=
  match sl_finish_reason s with Some _ => true | None => false end.

Definition finish_length (s : Slot) : Slot :=
  match sl_finish_reason s with
  | None => set_finish "length" (sl_error_message s) (sl_matched_stop_sequence s) s
  | Some _ => s
  end.

Definition finish_stop (s : Slot) : Slot :=
  match sl_finish_reason s with
  | None => set_finish "stop" (sl_error_message s) (sl_matched_stop_sequence s) s
  | Some _ => s
  end.

Definition finish_stop_with_match (matched : bytes) (s : Slot) : Slot :=
  match sl_finish_reason s with
  | None => set_finish "stop" (sl_error_message s) (Some matched) s
  | Some _ => s
  end.

Definition finish_error (message : string) (s : Slot) : Slot :=
  match sl_finish_reason s with
  | None => set_finish "error" (Some message) (sl_matched_stop_sequence s) s
  | Some _ => s
  end.

Definition is_prefilling (s : Slot) : bool :=
  match sl_state s with Prefilling _ _ => true | Decoding _ _ _ _ => false end.

Definition is_decoding (s : Slot) : bool :=
  match sl_state s with Prefilling _ _ => false | Decoding _ _ _ _ => true end.

Definition next_prefill_pos (s : Slot) : option Z :=
  match sl_state s with Prefilling _ pos => Some pos | Decoding _ _ _ _ => None end.

Definition slot_generated_count (s : Slot) : Z :=
  match sl_state s with Decoding _ _ n _ => n | Prefilling _ _ => 0 end.

(** [self.save_at.checked_sub(pos).filter(|&n| n > 0)]. *)
Definition to_save (save_at pos : Z) : option Z :=
  if save_at <? pos then None else if 0 <? save_at - pos then Some (save_at - pos) else None.

(** [take_prefill_chunk]: the chunk, its position, how many ids remain, and the slot left. *)
Definition take_prefill_chunk (chunk_size : Z) (s : Slot) : Slot * option (list Z * Z * Z) :=
  let chunk_size := Z.max chunk_size 1 in
  match sl_state s with
  | Prefilling [] _ => (s, None)
  | Prefilling ids pos =>
      let n := Z.min (Z.min chunk_size (Z.of_nat (length ids))) (default usize_max (to_save (sl_save_at s) pos)) in
      let rest := drop (Z.to_nat n) ids in
      (set_progress (Prefilling rest (pos + n)) (sl_generated_ids s) s,
       Some (take (Z.to_nat n) ids, pos, Z.of_nat (length rest)))
  | Decoding _ _ _ _ => (s, None)
  end.

Definition promote_to_decoding (first_token : Z) (first_logprob : option Z) (s : Slot) : Slot :=
  let new_index_pos := match sl_state s with
    | Prefilling _ pos => pos
    | Decoding _ _ _ pos => pos
    end in
  set_progress (Decoding first_token first_logprob 0 new_index_pos) [first_token] s.

(** ** The table *)

Record SlotTable : Type := { slots : list Slot; layer_range : option (Z * Z); capacity : Z }.

Definition table_new (cap : Z) : SlotTable :=
  {| slots := []; layer_range := None; capacity := Z.max cap 1 |}.

Definition table_len (t : SlotTable) : Z := Z.of_nat (length (slots t)).
Definition table_is_empty (t : SlotTable) : bool := match slots t with [] => true | _ => false end.
Definition is_full (t : SlotTable) : bool := capacity t <=? table_len t.

Definition can_admit (lr : Z * Z) (t : SlotTable) : bool :=
  if is_full t then false
  else match layer_range t with
       | None => true
       | Some existing => bool_decide (existing = lr)
       end.

Definition admit_slot (s : Slot) (t : SlotTable) : SlotTable :=
  {| slots := slots t ++ [s];
     layer_range := match layer_range t with None => Some (sl_layer_range s) | r => r end;
     capacity := capacity t |}.

(** [active]: the slots behind the mutable slice hold [l] afterwards. *)
Definition set_active (l : list Slot) (t : SlotTable) : SlotTable :=
  {| slots := l; layer_range := layer_range t; capacity := capacity t |}.

Definition into_active (t : SlotTable) : list Slot := slots t.

(** [Vec::swap_remove]: the last element takes the removed one's place; out of range panics. *)
Definition swap_remove (l : list Slot) (i : nat) : option (Slot * list Slot) :=
  match l !! i, list.last l with
  | Some x, Some y => Some (x, take (length l - 1) (<[i := y]> l))
  | _, _ => None
  end.

(** The removal loop both operations run; [None] is out of fuel (or a panic). *)
Fixpoint drain_where (pred : Slot -> bool) (fuel : nat) (l : list Slot) (i : nat) (out : list Slot)
  : option (list Slot * list Slot) :=
  match l !! i with
  | None => Some (l, out)
  | Some s =>
      match fuel with
      | O => None
      | S fuel =>
          if pred s
          then match swap_remove l i with
               | Some (x, l) => drain_where pred fuel l i (out ++ [x])
               | None => None
               end
          else drain_where pred fuel l (S i) out
      end
  end.

Definition drain_table (pred : Slot -> bool) (t : SlotTable) : option (list Slot * SlotTable) :=
  '(l, out) ← drain_where pred (length (slots t)) (slots t) 0 [];
  Some (out, {| slots := l; layer_range := match l with [] => None | _ => layer_range t end;
                capacity := capacity t |}).

Definition take_matching (pred : Slot -> bool) (t : SlotTable) : option (list Slot * SlotTable) :=
  drain_table pred t.

Definition drain_finished (t : SlotTable) : option (list Slot * SlotTable) :=
  drain_table is_finished t.

(** ** Reading a prompt: one chunk per decode tick, of whatever size the pacer asks *)

Fixpoint prefill_run (sizes : list Z) (s : Slot) : Slot * list (list Z * Z * Z) :=
  match sizes with
  | [] => (s, [])
  | c :: sizes =>
      match take_prefill_chunk c s with
      | (s, Some x) => let '(s, xs) := prefill_run sizes s in (s, x :: xs)
      | (s, None) => prefill_run sizes s
      end
  end.

(** Chunks follow each other from [pos], none empty, none across the save point. *)
Fixpoint laid_out (save_at pos left : Z) (xs : list (list Z * Z * Z)) : Prop :=
  match xs with
  | [] => True
  | (chunk, p, after) :: xs =>
      let n := Z.of_nat (length chunk) in
      p = pos /\ 0 < n /\ ~ (pos < save_at < pos + n) /\ after = left - n /\
      laid_out save_at (pos + n) after xs
  end.

Definition chunk_tokens (xs : list (list Z * Z * Z)) : list Z := concat (map (fun x => x.1.1) xs).

(** ** The steps a worker takes on its table *)

Inductive table_step : SlotTable -> SlotTable -> Prop :=
| ts_admit t s : can_admit (sl_layer_range s) t = true -> table_step t (admit_slot s t)
| ts_active t l : map sl_layer_range l = map sl_layer_range (slots t) -> table_step t (set_active l t)
| ts_take t pred out t' : take_matching pred t = Some (out, t') -> table_step t t'
| ts_drain t out t' : drain_finished t = Some (out, t') -> table_step t t'.

Definition table_ok (t : SlotTable) : Prop :=
  table_len t <= capacity t /\
  match layer_range t with
  | None => slots t = []
  | Some lr => slots t <> [] /\ Forall (fun s => sl_layer_range s = lr) (slots t)
  end.

(** ** Lemmas *)

Lemma take_prefill_chunk_step c s ids pos :
  sl_state s = Prefilling ids pos -> ids <> [] -> 0 <= pos ->
  exists chunk rest n, n = Z.of_nat (length chunk) /\ 0 < n /\ ids = chunk ++ rest /\
    ~ (pos < sl_save_at s < pos + n) /\
    take_prefill_chunk c s =
      (set_progress (Prefilling rest (pos + n)) (sl_generated_ids s) s,
       Some (chunk, pos, Z.of_nat (length rest))).
Proof.
  intros Hs Hne Hpos. unfold take_prefill_chunk. rewrite Hs. destruct ids as [|x ids]; [done |].
  set (n := Z.min _ _).
  assert (Hn : 0 < n <= Z.of_nat (length (x :: ids)) /\ ~ (pos < sl_save_at s < pos + n)).
  { subst n. unfold to_save, usize_max, u64_max. cbn [length].
    destruct (Z.ltb_spec (sl_save_at s) pos); cbn [from_option id]; [lia |].
    destruct (Z.ltb_spec 0 (sl_save_at s - pos)); cbn [from_option id]; lia. }
  exists (take (Z.to_nat n) (x :: ids)), (drop (Z.to_nat n) (x :: ids)), n.
  rewrite length_take, take_drop. split_and!; (done || lia).
Qed.

Lemma take_prefill_chunk_done c s pos :
  sl_state s = Prefilling [] pos -> take_prefill_chunk c s = (s, None).
Proof. unfold take_prefill_chunk. by intros ->. Qed.

Lemma prefill_run_spec sizes s ids pos :
  sl_state s = Prefilling ids pos -> 0 <= pos ->
  forall s' xs, prefill_run sizes s = (s', xs) ->
  exists rest, sl_state s' = Prefilling rest (pos + Z.of_nat (length (chunk_tokens xs))) /\
    ids = chunk_tokens xs ++ rest /\
    laid_out (sl_save_at s) pos (Z.of_nat (length ids)) xs /\
    (length ids <= length sizes -> rest = [])%nat.
Proof.
  revert s ids pos. induction sizes as [|c sizes IH]; cbn [prefill_run]; intros s ids pos Hs Hp s' xs.
  { intros [= <- <-]. exists ids. unfold chunk_tokens; cbn. rewrite Z.add_0_r. repeat split; [done |].
    intros. destruct ids; [done | cbn in *; lia]. }
  destruct ids as [|x ids].
  - rewrite (take_prefill_chunk_done _ _ pos) by done. intros E.
    destruct (IH _ _ _ Hs Hp _ _ E) as (rest & ? & ? & ? & ?). exists rest. repeat split; [done.. |].
    intros _. by destruct (chunk_tokens xs), rest.
  - destruct (take_prefill_chunk_step c s (x :: ids) pos) as (chunk & rest & n & -> & Hn & Hids & Hsave & E);
      [done | done | done |]. rewrite E.
    destruct (prefill_run sizes _) as [s1 xs1] eqn:E1. intros [= <- <-].
    destruct (IH (set_progress (Prefilling rest (pos + Z.of_nat (length chunk))) (sl_generated_ids s) s)
      rest _ eq_refl ltac:(lia) _ _ E1)
      as (rest1 & Hs1 & -> & Hl & Hr). exists rest1. unfold chunk_tokens in *. cbn [map concat fst].
    rewrite Hids, Hs1. rewrite !length_app in *. split; [f_equal; lia |]. split; [by rewrite app_assoc |].
    split.
    + cbn [laid_out]. repeat split; [lia | done | lia |]. cbn in Hl. eapply eq_ind; [exact Hl | f_equal; lia].
    + cbn [length]. intros. apply Hr. lia.
Qed.

(** Laid-out chunks that pass over the save point stop on it. *)
Lemma laid_out_stops save_at pos left xs :
  laid_out save_at pos left xs ->
  pos < save_at <= pos + Z.of_nat (length (chunk_tokens xs)) ->
  exists chunk p after, (chunk, p, after) ∈ xs /\ p + Z.of_nat (length chunk) = save_at.
Proof.
  revert pos left. induction xs as [|[[chunk p] after] xs IH]; cbn [laid_out]; intros pos left.
  - unfold chunk_tokens; cbn. lia.
  - intros (-> & Hn & Hc & -> & Hl). unfold chunk_tokens in *; cbn [map concat fst]. rewrite length_app.
    intros Hs. destruct (Z.eq_dec (pos + Z.of_nat (length chunk)) save_at) as [<-|].
    + eexists _, _, _. split; [by left | done].
    + edestruct IH as (c & q & a & ? & ?); [exact Hl | lia |]. eexists _, _, _. split; [by right | done].
Qed.

(** *** The removal loop *)

Lemma swap_remove_perm l i x :
  l !! i = Some x -> exists l', swap_remove l i = Some (x, l') /\ l ≡ₚ x :: l' /\ take i l' = take i l.
Proof.
  intros Hx. unfold swap_remove. rewrite Hx.
  destruct (list.last l) as [y|] eqn:Hy; [|apply last_None in Hy; by rewrite Hy in Hx].
  eexists; split; [done |]. apply last_Some in Hy as [k ->]. rewrite length_app. cbn [length].
  replace (length k + 1 - 1)%nat with (length k) by lia.
  destruct (decide (i < length k)%nat) as [Hi|Hi].
  - rewrite insert_app_l by done. rewrite take_app_length' by (by rewrite length_insert).
    rewrite lookup_app_l in Hx by done. split.
    + rewrite <- (take_drop_middle _ _ _ Hx) at 1.
      rewrite (insert_take_drop k i y) by done. solve_Permutation.
    + rewrite take_insert_ge by lia. by rewrite take_app_le by lia.
  - assert (i = length k) as ->.
    { apply lookup_lt_Some in Hx. rewrite length_app in Hx. cbn in Hx. lia. }
    rewrite list_lookup_middle in Hx by done. injection Hx as ->.
    rewrite insert_app_r_alt, Nat.sub_diag by lia. cbn. rewrite take_app_length.
    split; [symmetry; apply Permutation_cons_append | by rewrite firstn_all].
Qed.

Lemma drain_where_spec pred fuel l i out :
  (length l - i <= fuel)%nat -> Forall (fun s => pred s = false) (take i l) ->
  Forall (fun s => pred s = true) out ->
  exists l' out', drain_where pred fuel l i out = Some (l', out') /\ l' ++ out' ≡ₚ l ++ out /\
    Forall (fun s => pred s = false) l' /\ Forall (fun s => pred s = true) out'.
Proof.
  revert l i out. induction fuel as [|fuel IH]; intros l i out Hf Hl Ho; cbn [drain_where];
    destruct (l !! i) as [s|] eqn:E.
  - apply lookup_lt_Some in E. lia.
  - apply lookup_ge_None in E. rewrite take_ge in Hl by lia. eauto 10.
  - destruct (pred s) eqn:Es.
    + destruct (swap_remove_perm l i s E) as (k & -> & Hp & Ht).
      assert (Hk : length l = S (length k)) by (by rewrite Hp).
      destruct (IH k i (out ++ [s])) as (l' & out' & -> & Hp' & H1 & H2).
      * apply lookup_lt_Some in E. lia.
      * by rewrite Ht.
      * apply Forall_app; split; [done | by constructor].
      * eexists _, _. split; [done |]. split; [|done]. rewrite Hp', Hp. solve_Permutation.
    + destruct (IH l (S i) out) as (l' & out' & -> & ?); [lia | | done | eauto 10].
      rewrite (take_S_r _ _ s) by done. apply Forall_app; split; [done | by constructor].
  - apply lookup_ge_None in E. rewrite take_ge in Hl by lia. eauto 10.
Qed.

(** The slots kept and the slots handed out are the two halves of the table. *)
Lemma drain_table_spec pred t :
  exists l out, drain_table pred t =
      Some (out, {| slots := l; layer_range := match l with [] => None | _ => layer_range t end;
                    capacity := capacity t |}) /\
    l ≡ₚ filter (fun s => pred s = false) (slots t) /\ out ≡ₚ filter (fun s => pred s = true) (slots t).
Proof.
  destruct (drain_where_spec pred (length (slots t)) (slots t) 0 []) as (l & out & E & Hp & H1 & H2);
    [lia | constructor | constructor |].
  exists l, out. unfold drain_table. rewrite E. split; [done |]. rewrite app_nil_r in Hp. split.
  - rewrite <- Hp, list.filter_app, (filter_keeps_all _ l), (filter_drops_all _ out), app_nil_r; [done | |done].
    eapply list.Forall_impl; [exact H2 | cbn; congruence].
  - rewrite <- Hp, list.filter_app, (filter_drops_all _ l), (filter_keeps_all _ out); [done | done |].
    eapply list.Forall_impl; [exact H1 | cbn; congruence].
Qed.

Lemma table_ok_drain pred t out t' :
  table_ok t -> drain_table pred t = Some (out, t') -> table_ok t'.
Proof.
  intros [Hc Hr] E. destruct (drain_table_spec pred t) as (l & out' & E' & Hl & _).
  rewrite E' in E. injection E as <- <-. unfold table_ok, table_len in *. cbn.
  assert (Hsub : Forall (fun s => s ∈ slots t) l).
  { apply list.Forall_forall. intros s Hs. rewrite Hl in Hs. by apply list_elem_of_filter in Hs as [_ ?]. }
  split.
  - apply Z.le_trans with (Z.of_nat (length (slots t))); [|done]. rewrite Hl. apply inj_le, length_filter.
  - destruct l as [|s l]; [done |]. destruct (layer_range t) as [lr|].
    + split; [done |]. destruct Hr as [_ Hr]. eapply list.Forall_impl; [exact Hsub |].
      intros x Hx. by apply (proj1 (list.Forall_forall _ _) Hr).
    + rewrite Hr in Hsub. apply Forall_cons_1 in Hsub as [Hs _]. by apply not_elem_of_nil in Hs.
Qed.

Lemma table_ok_step t t' : table_ok t -> table_step t t' -> table_ok t'.
Proof.
  intros Hok Hstep. destruct Hstep as [t s Ha | t l Hl | t pred out t' E | t out t' E];
    [| | by eapply table_ok_drain | by eapply table_ok_drain]; destruct Hok as [Hc Hr].
  - unfold can_admit, is_full in Ha. destruct (Z.leb_spec (capacity t) (table_len t)); [done |].
    unfold table_ok, table_len in *. cbn. rewrite length_app. cbn [length]. split; [lia |].
    destruct (layer_range t) as [lr|].
    + destruct Hr as [_ Hr]. apply bool_decide_eq_true in Ha as ->.
      split; [by destruct (slots t) | apply Forall_app; split; [done | by constructor]].
    + rewrite Hr. split; [done | by constructor].
  - unfold table_ok, table_len in *. cbn. pose proof (f_equal length Hl) as Hn. rewrite !length_map in Hn.
    split; [lia |]. destruct (layer_range t) as [lr|].
    + destruct Hr as [Hne Hr]. split; [intros ->; by destruct (slots t) |].
      rewrite <- (Forall_map sl_layer_range (fun r => r = lr)) in Hr |- *. by rewrite Hl.
    + rewrite Hr in Hl. by destruct l.
Qed.

Lemma table_step_capacity t t' : table_step t t' -> capacity t' = capacity t.
Proof.
  assert (Hd : forall pred out u, drain_table pred t = Some (out, u) -> capacity u = capacity t).
  { intros pred out u E. destruct (drain_table_spec pred t) as (? & ? & E' & _).
    rewrite E' in E. by injection E as <- <-. }
  intros H. destruct H; [done | done | by eapply Hd | by eapply Hd].
Qed.

(** ** The slot table's properties *)

(** The prompt is read exactly once, in order.  Whatever chunk sizes the ticks
    ask for, the chunks taken so far followed by the ids still waiting are the
    prompt; they are laid end to end from the slot's position, none is empty and
    none crosses the save point; as many ticks as there are ids always finish the
    prompt, one chunk then ends exactly on the save point, and promotion starts
    decoding at the position just past the prompt. *)
Theorem prefill_reads_prompt_once sizes s ids pos s' xs tok lp :
  sl_state s = Prefilling ids pos -> 0 <= pos -> prefill_run sizes s = (s', xs) ->
  exists rest, sl_state s' = Prefilling rest (pos + Z.of_nat (length (chunk_tokens xs))) /\
    ids = chunk_tokens xs ++ rest /\
    laid_out (sl_save_at s) pos (Z.of_nat (length ids)) xs /\
    ((length ids <= length sizes)%nat ->
       rest = [] /\
       sl_state (promote_to_decoding tok lp s') = Decoding tok lp 0 (pos + Z.of_nat (length ids)) /\
       (pos < sl_save_at s <= pos + Z.of_nat (length ids) ->
        exists chunk p after, (chunk, p, after) ∈ xs /\ p + Z.of_nat (length chunk) = sl_save_at s)).
Proof.
  intros Hs Hp E. destruct (prefill_run_spec sizes s ids pos Hs Hp s' xs E) as (rest & Hs' & Hids & Hl & Hd).
  exists rest. split_and!; [done | done | done |]. intros Hlen. specialize (Hd Hlen) as ->.
  rewrite app_nil_r in Hids. subst ids. split_and!; [done | |].
  - unfold promote_to_decoding. by rewrite Hs'.
  - by apply laid_out_stops with (left := Z.of_nat (length (chunk_tokens xs))).
Qed.

(** [drain_finished] and [take_matching] always return, hand out exactly the
    matching slots and keep exactly the others (each as often as it was there),
    and clear the pinned layer range exactly when nothing is left. *)
Theorem draining_splits_the_table pred t :
  exists out t', take_matching pred t = Some (out, t') /\
    out ≡ₚ filter (fun s => pred s = true) (slots t) /\
    slots t' ≡ₚ filter (fun s => pred s = false) (slots t) /\
    capacity t' = capacity t /\
    layer_range t' = match slots t' with [] => None | _ => layer_range t end /\
    drain_finished t = take_matching is_finished t.
Proof.
  destruct (drain_table_spec pred t) as (l & out & E & Hl & Ho).
  by exists out, {| slots := l; layer_range := match l with [] => None | _ => layer_range t end;
                    capacity := capacity t |}.
Qed.

(** Whatever a worker does with its table, admitting only what [can_admit]
    allows, the table never holds more than its capacity, is pinned to a layer
    range exactly while it holds slots, and every slot in it has that range. *)
Theorem slot_table_invariant cap t :
  rtc table_step (table_new cap) t ->
  capacity t = Z.max cap 1 /\ table_len t <= Z.max cap 1 /\
  (layer_range t = None <-> slots t = []) /\
  (forall s, s ∈ slots t -> layer_range t = Some (sl_layer_range s)).
Proof.
  intros H. cut (table_ok t /\ capacity t = Z.max cap 1).
  { intros [[Hc Hr] Hcap]. rewrite <- Hcap. split_and!; [done | done | |].
    - destruct (layer_range t); [|done]. split; [done |]. intros E. by destruct Hr.
    - intros s Hs. destruct (layer_range t) as [lr|].
      + destruct Hr as [_ Hr]. f_equal. symmetry. by apply (proj1 (list.Forall_forall _ _) Hr).
      + rewrite Hr in Hs. by apply not_elem_of_nil in Hs. }
  enough (Hgen : forall t0, rtc table_step t0 t -> table_ok t0 -> table_ok t /\ capacity t = capacity t0).
  { apply (Hgen (table_new cap)); [done |]. split; [unfold table_len; cbn; lia | done]. }
  clear H. intros t0 H. induction H as [t0 | t0 t1 t Hs _ IH]; [done |]. intros Hok.
  destruct (IH (table_ok_step _ _ Hok Hs)) as [? ->]. split; [done | by apply table_step_capacity].
Qed.

End slots.

(** ** Witnesses *)

Arguments Slot : clear implicits.
Arguments SlotTable : clear implicits.

Definition sample_slot : Slot unit unit := {|
  sl_request_id := []; sl_req_id_str := ""; sl_model_key := "m"; sl_model_id := [109];
  sl_layer_range := (0, 4); sl_state := Prefilling [11; 12; 13; 14; 15] 2; sl_max_tokens := 8;
  sl_use_logprobs := false; sl_eos := [2]; sl_stop_sequences := []; sl_accumulated_text := [];
  sl_utf8_carry := []; sl_sampling := SamplingParams_default; sl_prompt_tokens := 7;
  sl_prompt_ids := [9; 10; 11; 12; 13; 14; 15]; sl_generated_ids := []; sl_finish_reason := None;
  sl_error_message := None; sl_matched_stop_sequence := None; sl_keep_here := false; sl_save_at := 5;
  sl_save_when_done := false; sl_held := None; sl_earlier := None |}.

(** With chunks of two, the second one stops short, on the save point. *)
Example sample_chunks : (prefill_run [2; 2; 2; 2; 2] sample_slot).2 =
  [([11; 12], 2, 3); ([13], 4, 2); ([14; 15], 5, 0)].
Proof. reflexivity. Qed.

Lemma prefill_reads_prompt_once_witness :
  exists rest, sl_state (prefill_run [2; 2; 2; 2; 2] sample_slot).1 = Prefilling rest 7 /\
    [11; 12; 13; 14; 15] = [11; 12; 13; 14; 15] ++ rest.
Proof.
  destruct (prefill_reads_prompt_once [2; 2; 2; 2; 2] sample_slot [11; 12; 13; 14; 15] 2
    (prefill_run [2; 2; 2; 2; 2] sample_slot).1 (prefill_run [2; 2; 2; 2; 2] sample_slot).2 7 None
    eq_refl ltac:(lia) eq_refl) as (rest & Hs & Hids & _).
  exists rest. split; [exact Hs | exact Hids].
Defined.

Lemma slot_table_invariant_witness :
  capacity (admit_slot sample_slot (table_new 2)) = 2 /\
  forall s, s ∈ slots (admit_slot sample_slot (table_new 2)) -> Some (0, 4) = Some (sl_layer_range s).
Proof.
  destruct (slot_table_invariant 2 (admit_slot sample_slot (table_new 2))) as (H1 & _ & _ & H2).
  - eapply rtc_l; [apply ts_admit; reflexivity | apply rtc_refl].
  - split; [exact H1 | exact H2].
Defined.
