(* ===== verification/KvSessions.v ===== *)
(** * KV-cache sessions of multi-turn conversations ([src/inference/kv_cache.rs])

    [KvCacheManager] remembers, per conversation, which nodes hold its KV cache
    and how many tokens of which prompt it covers; a later turn resumes there when
    its prompt extends the cached one.  Both tables are [HashMap]s: gmaps here,
    their iteration order a parameter [iter] that is some permutation of the
    entries.  A call reads each clock once ([Instant] and [SystemTime], in
    nanoseconds; the floors are the earliest values the platform represents).
    The database tree ["kv_sessions"] is a gmap whose writes may fail. *)
From S2P Require Import Prelude Bytes.

Definition MAX_MULTI_TURN_SESSIONS : Z := 10000.
Definition nanos (secs : Z) : Z := secs * 1000000000.

Record ShardId : Type := { sh_model_id : bytes; sh_index : Z }.
Record PipelineSegment : Type := { seg_node_id : NodeId; seg_shard_id : ShardId; seg_layer_range : Z * Z }.
Record TensorParallelGroup : Type := {
  tg_nodes : list NodeId; tg_layer_range : Z * Z; tg_shard_ids : list ShardId }.
Record PipelineAssignment : Type := {
  pa_request_id : bytes; pa_segments : list PipelineSegment; pa_standbys : list PipelineSegment;
  pa_tp_groups : list TensorParallelGroup; pa_supports_speculative : bool }.

Definition SessionId : Type := bytes.

Record KvCacheSession : Type := {
  session_id : SessionId; pipeline : PipelineAssignment; cached_tokens : Z; last_accessed : Z;
  holders : list NodeId; cached_prompt : bytes }.

Inductive CacheReuse : Type := Hit (start_pos : Z) | Miss.

Record KvCacheManager : Type := {
  sessions : gmap SessionId KvCacheSession; multi_turn_sessions : gmap bytes SessionId; ttl : Z }.

Record PersistedSession : Type := {
  ps_user_session_id : bytes; ps_internal_id : SessionId; ps_pipeline : PipelineAssignment;
  ps_cached_tokens : Z; ps_cache_holders : list NodeId; ps_cached_prompt : bytes;
  ps_last_accessed : Z; ps_ttl_secs : Z; ps_built_by : string }.

Definition kv_new (t : Z) : KvCacheManager := {| sessions := ∅; multi_turn_sessions := ∅; ttl := t |}.
Definition set_ttl (t : Z) (m : KvCacheManager) : KvCacheManager :=
  {| sessions := sessions m; multi_turn_sessions := multi_turn_sessions m; ttl := t |}.
Definition with_tables (s : gmap SessionId KvCacheSession) (mt : gmap bytes SessionId) (m : KvCacheManager)
  : KvCacheManager := {| sessions := s; multi_turn_sessions := mt; ttl := ttl m |}.

(** [Instant::elapsed] saturates at zero. *)
Definition elapsed (now at_ : Z) : Z := Z.max 0 (now - at_).
Definition cache_holders (p : PipelineAssignment) : list NodeId := map seg_node_id (pa_segments p).

Definition set_last_accessed (now : Z) (s : KvCacheSession) : KvCacheSession :=
  {| session_id := session_id s; pipeline := pipeline s; cached_tokens := cached_tokens s;
     last_accessed := now; holders := holders s; cached_prompt := cached_prompt s |}.

Definition register_session (id : SessionId) (p : PipelineAssignment) (tokens now : Z) (m : KvCacheManager)
  : KvCacheManager :=
  with_tables
    (<[id := {| session_id := id; pipeline := p; cached_tokens := tokens; last_accessed := now;
                holders := cache_holders p; cached_prompt := [] |}]> (sessions m))
    (multi_turn_sessions m) m.

(** [Option<Instant>]'s order: [None] first. *)
Definition opt_ltb (a b : option Z) : bool :=
  match a, b with
  | None, Some _ => true
  | Some x, Some y => x <? y
  | _, None => false
  end.

(** [Iterator::min_by_key]: the first of the least elements. *)
Fixpoint min_by_key {A} (key : A -> option Z) (l : list A) : option A :=
  match l with
  | [] => None
  | x :: l => match min_by_key key l with
              | Some y => if opt_ltb (key y) (key x) then Some y else Some x
              | None => Some x
              end
  end.

(** [new_prompt.starts_with(cached)]. *)
Fixpoint starts_with (new cached : bytes) {struct cached} : bool :=
  match cached, new with
  | [], _ => true
  | _ :: _, [] => false
  | c :: cached, n :: new => (c =? n) && starts_with new cached
  end.

Section manager.
Variable iter : gmap bytes SessionId -> list (bytes * SessionId).
Variable iter_db : gmap bytes PersistedSession -> list PersistedSession.
Variable instant_floor system_floor : Z.
Variable build_stamp : string.

(** Making room for one more conversation. *)
Definition evict_for_room (m : KvCacheManager) : KvCacheManager :=
  if MAX_MULTI_TURN_SESSIONS <=? Z.of_nat (size (multi_turn_sessions m)) then
    let mt := filter (fun '(_, id) => is_Some (sessions m !! id)) (multi_turn_sessions m) in
    if MAX_MULTI_TURN_SESSIONS <=? Z.of_nat (size mt) then
      match min_by_key (fun '(_, id) => last_accessed <$> sessions m !! id) (iter mt) with
      | Some (oldest_user_key, _) =>
          match mt !! oldest_user_key with
          | Some internal_id => with_tables (delete internal_id (sessions m)) (delete oldest_user_key mt) m
          | None => with_tables (sessions m) mt m
          end
      | None => with_tables (sessions m) mt m
      end
    else with_tables (sessions m) mt m
  else m.

Definition register_multi_turn (user : bytes) (id : SessionId) (p : PipelineAssignment) (tokens : Z)
    (prompt : bytes) (now : Z) (m : KvCacheManager) : KvCacheManager :=
  let entry := {| session_id := id; pipeline := p; cached_tokens := tokens; last_accessed := now;
                  holders := cache_holders p; cached_prompt := prompt |} in
  let m := evict_for_room m in
  let ss := match multi_turn_sessions m !! user with
            | Some old_internal_id => delete old_internal_id (sessions m)
            | None => sessions m
            end in
  with_tables (<[id := entry]> ss) (<[user := id]> (multi_turn_sessions m)) m.

(** Dropping a conversation the check found stale. *)
Definition forget (user : bytes) (id : SessionId) (m : KvCacheManager) : KvCacheManager :=
  with_tables (delete id (sessions m)) (delete user (multi_turn_sessions m)) m.

Definition check_multi_turn_reuse (user new_prompt : bytes) (active_peers : gset NodeId) (now : Z)
    (m : KvCacheManager) : KvCacheManager * CacheReuse :=
  match multi_turn_sessions m !! user with
  | None => (m, Miss)
  | Some id =>
      match sessions m !! id with
      | None => (with_tables (sessions m) (delete user (multi_turn_sessions m)) m, Miss)
      | Some s =>
          if ttl m <? elapsed now (last_accessed s) then (forget user id m, Miss)
          else
            let missing := filter (fun n => n ∉ active_peers) (holders s) in
            match missing with
            | _ :: _ => (forget user id m, Miss)
            | [] =>
                if bool_decide (cached_prompt s = []) then (m, Miss)
                else if negb (starts_with new_prompt (cached_prompt s)) then (forget user id m, Miss)
                else (with_tables (<[id := set_last_accessed now s]> (sessions m)) (multi_turn_sessions m) m,
                      Hit (cached_tokens s))
            end
      end
  end.

Definition get_internal_id (user : bytes) (m : KvCacheManager) : option SessionId :=
  multi_turn_sessions m !! user.

(** [multi_turn_sessions.retain(|_, id| id != session_id)]. *)
Definition retain_other (id : SessionId) (mt : gmap bytes SessionId) : gmap bytes SessionId :=
  filter (fun '(_, i) => i <> id) mt.

Definition get_session (id : SessionId) (now : Z) (m : KvCacheManager)
  : KvCacheManager * option KvCacheSession :=
  match sessions m !! id with
  | Some s => if ttl m <? elapsed now (last_accessed s)
              then (with_tables (delete id (sessions m)) (retain_other id (multi_turn_sessions m)) m, None)
              else (m, Some s)
  | None => (m, None)
  end.

Definition update_cached_tokens (id : SessionId) (new_total now : Z) (m : KvCacheManager) : KvCacheManager :=
  match sessions m !! id with
  | Some s => with_tables (<[id := {| session_id := session_id s; pipeline := pipeline s;
                cached_tokens := new_total; last_accessed := now; holders := holders s;
                cached_prompt := cached_prompt s |}]> (sessions m)) (multi_turn_sessions m) m
  | None => m
  end.

Definition update_cached_prompt (id : SessionId) (prompt : bytes) (now : Z) (m : KvCacheManager) : KvCacheManager :=
  match sessions m !! id with
  | Some s => with_tables (<[id := {| session_id := session_id s; pipeline := pipeline s;
                cached_tokens := cached_tokens s; last_accessed := now; holders := holders s;
                cached_prompt := prompt |}]> (sessions m)) (multi_turn_sessions m) m
  | None => m
  end.

Definition invalidate_session (id : SessionId) (m : KvCacheManager) : KvCacheManager :=
  with_tables (delete id (sessions m)) (retain_other id (multi_turn_sessions m)) m.

Definition kv_cleanup_expired (now : Z) (m : KvCacheManager) : KvCacheManager * Z :=
  let ss := filter (fun '(_, s) => elapsed now (last_accessed s) <= ttl m) (sessions m) in
  let expired := Z.of_nat (size (sessions m)) - Z.of_nat (size ss) in
  let mt := if 0 <? expired
            then filter (fun '(_, id) => is_Some (ss !! id)) (multi_turn_sessions m)
            else multi_turn_sessions m in
  (with_tables ss mt m, expired).

(** [checked_sub(elapsed).unwrap_or(now)]. *)
Definition earlier_or_now (floor now by_ : Z) : Z := if now - by_ <? floor then now else now - by_.

(** The record [save_to_db] writes for a session. *)
Definition persisted_of (privacy_mode : bool) (inow snow ttl_ : Z) (user : bytes) (s : KvCacheSession)
  : PersistedSession := {|
  ps_user_session_id := user; ps_internal_id := session_id s; ps_pipeline := pipeline s;
  ps_cached_tokens := cached_tokens s; ps_cache_holders := holders s;
  ps_cached_prompt := if privacy_mode then [] else cached_prompt s;
  ps_last_accessed := earlier_or_now system_floor snow (elapsed inow (last_accessed s));
  ps_ttl_secs := ttl_ / 1000000000; ps_built_by := build_stamp |}.

(** The loop: the tree, then [Ok saved] or the first failed write's error. *)
Fixpoint save_loop (privacy_mode : bool) (inow snow : Z) (put_ok : bytes -> bool) (m : KvCacheManager)
    (l : list (bytes * SessionId)) (db : gmap bytes PersistedSession) (saved : Z)
  : gmap bytes PersistedSession * outcome Z :=
  match l with
  | [] => (db, Ok saved)
  | (user, id) :: l =>
      match sessions m !! id with
      | None => save_loop privacy_mode inow snow put_ok m l db saved
      | Some s =>
          if ttl m <? elapsed inow (last_accessed s) then save_loop privacy_mode inow snow put_ok m l db saved
          else if put_ok user
          then save_loop privacy_mode inow snow put_ok m l
                 (<[user := persisted_of privacy_mode inow snow (ttl m) user s]> db) (saved + 1)
          else (db, Err (Database "put_json"))
      end
  end.

Definition save_to_db (privacy_mode : bool) (inow snow : Z) (clear_ok : bool) (put_ok : bytes -> bool)
    (m : KvCacheManager) (db : gmap bytes PersistedSession) : gmap bytes PersistedSession * outcome Z :=
  if clear_ok then save_loop privacy_mode inow snow put_ok m (iter (multi_turn_sessions m)) ∅ 0
  else (db, Err (Database "clear_tree")).

(** The session one record restores to; [None] is a record the loop skips. *)
Definition restore_one (inow snow : Z) (p : PersistedSession) : option KvCacheSession :=
  if bool_decide (ps_built_by p <> build_stamp) then None
  else
    let e := elapsed snow (ps_last_accessed p) in
    if nanos (ps_ttl_secs p) <? e then None
    else Some {| session_id := ps_internal_id p; pipeline := ps_pipeline p;
                 cached_tokens := ps_cached_tokens p; last_accessed := earlier_or_now instant_floor inow e;
                 holders := ps_cache_holders p; cached_prompt := ps_cached_prompt p |}.

Fixpoint restore_loop (inow snow : Z) (l : list PersistedSession) (m : KvCacheManager) (restored : Z)
  : KvCacheManager * Z :=
  match l with
  | [] => (m, restored)
  | p :: l =>
      match restore_one inow snow p with
      | None => restore_loop inow snow l m restored
      | Some s =>
          restore_loop inow snow l
            (with_tables (<[ps_internal_id p := s]> (sessions m))
               (<[ps_user_session_id p := ps_internal_id p]> (multi_turn_sessions m)) m) (restored + 1)
      end
  end.

Definition restore_from_db (inow snow : Z) (read_ok : bool) (db : gmap bytes PersistedSession)
    (m : KvCacheManager) : KvCacheManager * outcome Z :=
  if read_ok then let '(m, n) := restore_loop inow snow (iter_db db) m 0 in (m, Ok n)
  else (m, Err (Database "iter_json")).

(** ** A node's life: operations on the manager, saves at shutdown, restarts *)

Definition KvWorld : Type := KvCacheManager * gmap bytes PersistedSession.

Inductive kv_step : KvWorld -> KvWorld -> Prop :=
| ks_set_ttl m db t : kv_step (m, db) (set_ttl t m, db)
| ks_register m db id p tokens now : kv_step (m, db) (register_session id p tokens now m, db)
| ks_multi m db user id p tokens prompt now :
    kv_step (m, db) (register_multi_turn user id p tokens prompt now m, db)
| ks_check m db user prompt peers now : kv_step (m, db) ((check_multi_turn_reuse user prompt peers now m).1, db)
| ks_get m db id now : kv_step (m, db) ((get_session id now m).1, db)
| ks_tokens m db id n now : kv_step (m, db) (update_cached_tokens id n now m, db)
| ks_prompt m db id prompt now : kv_step (m, db) (update_cached_prompt id prompt now m, db)
| ks_invalidate m db id : kv_step (m, db) (invalidate_session id m, db)
| ks_cleanup m db now : kv_step (m, db) ((kv_cleanup_expired now m).1, db)
| ks_save m db privacy inow snow clear_ok put_ok :
    kv_step (m, db) (m, (save_to_db privacy inow snow clear_ok put_ok m db).1)
| ks_restart m db t inow snow read_ok :
    kv_step (m, db) ((restore_from_db inow snow read_ok db (kv_new t)).1, db).

(** Sessions are filed under their own id, and neither table outgrows the limit. *)
Definition keyed (m : KvCacheManager) : Prop :=
  forall id s, sessions m !! id = Some s -> session_id s = id.
Definition kv_inv (w : KvWorld) : Prop :=
  keyed w.1 /\ Z.of_nat (size (multi_turn_sessions w.1)) <= MAX_MULTI_TURN_SESSIONS /\
  Z.of_nat (size w.2) <= MAX_MULTI_TURN_SESSIONS.

(** ** Lemmas *)

Lemma starts_with_spec new cached : starts_with new cached = true <-> exists rest, new = cached ++ rest.
Proof.
  revert new. induction cached as [|c cached IH]; intros new; cbn.
  - split; [by exists new | done].
  - destruct new as [|n new]; [split; [done | by intros [? [=]]] |].
    rewrite andb_true_iff, Z.eqb_eq, IH. split.
    + intros [<- [rest ->]]. by exists rest.
    + intros [rest [= -> ->]]. split; [done | by exists rest].
Qed.

Lemma min_by_key_in {A} (key : A -> option Z) l :
  l <> [] -> exists x, min_by_key key l = Some x /\ x ∈ l.
Proof.
  induction l as [|x l IH]; [done |]. intros _. cbn. destruct l as [|y l].
  - exists x. split; [done | by left].
  - destruct IH as (z & -> & Hz); [done |]. case_if; eexists; (split; [done |]); [by right | by left].
Qed.

Lemma size_filter_le {A} (P : bytes * A -> Prop) `{!forall x, Decision (P x)} (m : gmap bytes A) :
  (size (filter P m) <= size m)%nat.
Proof. rewrite <- !size_dom. apply subseteq_size, dom_filter_subseteq. Qed.

Lemma size_insert_le {A} (m : gmap bytes A) k v : (size (<[k := v]> m) <= S (size m))%nat.
Proof. rewrite map_size_insert. destruct (m !! k); cbn; lia. Qed.

Lemma size_delete_le {A} (m : gmap bytes A) k : (size (delete k m) <= size m)%nat.
Proof. rewrite map_size_delete. destruct (m !! k); cbn; lia. Qed.

Hypothesis iter_perm : forall m, iter m ≡ₚ map_to_list m.
Hypothesis iter_db_perm : forall db, iter_db db ≡ₚ (map_to_list db).*2.

Lemma iter_length m : length (iter m) = size m.
Proof. by rewrite (Permutation_length (iter_perm m)), length_map_to_list. Qed.
Lemma iter_db_length db : length (iter_db db) = size db.
Proof. by rewrite (Permutation_length (iter_db_perm db)), length_fmap, length_map_to_list. Qed.

Lemma evict_for_room_size m :
  Z.of_nat (size (multi_turn_sessions m)) <= MAX_MULTI_TURN_SESSIONS ->
  Z.of_nat (size (multi_turn_sessions (evict_for_room m))) < MAX_MULTI_TURN_SESSIONS.
Proof.
  intros Hm. unfold evict_for_room. destruct (Z.leb_spec MAX_MULTI_TURN_SESSIONS (Z.of_nat (size (multi_turn_sessions m)))); [|lia].
  set (mt := filter _ _). assert (Hmt : (size mt <= size (multi_turn_sessions m))%nat) by apply size_filter_le.
  destruct (Z.leb_spec MAX_MULTI_TURN_SESSIONS (Z.of_nat (size mt))); [|cbn; lia].
  destruct (min_by_key_in (fun '(_, id) => last_accessed <$> sessions m !! id) (iter mt)) as ([k i] & -> & Hin).
  { intros E. pose proof (iter_perm mt) as Hp. rewrite E in Hp. apply Permutation_nil_l in Hp.
    symmetry in Hp. apply map_to_list_empty_iff in Hp. rewrite Hp, map_size_empty in *.
    unfold MAX_MULTI_TURN_SESSIONS in *. lia. }
  rewrite iter_perm in Hin. apply elem_of_map_to_list in Hin. rewrite Hin. cbn.
  rewrite map_size_delete_Some by eauto. unfold MAX_MULTI_TURN_SESSIONS in *. lia.
Qed.

Lemma evict_for_room_keyed m : keyed m -> keyed (evict_for_room m).
Proof.
  intros Hk. unfold evict_for_room. repeat case_if; try done.
  destruct (min_by_key _ _) as [[? ?]|]; [|done]. case_match; [|done].
  intros i x Hi. cbn in Hi. apply lookup_delete_Some in Hi as [_ Hi]. by apply Hk.
Qed.

(** *** Keyed tables *)

Lemma keyed_delete m id mt : keyed m -> keyed (with_tables (delete id (sessions m)) mt m).
Proof. intros Hk i x Hi. cbn in Hi. apply lookup_delete_Some in Hi as [_ Hi]. by apply Hk. Qed.

Lemma keyed_insert (m : KvCacheManager) ss mt id x :
  (forall i y, ss !! i = Some y -> session_id y = i) -> session_id x = id ->
  keyed (with_tables (<[id := x]> ss) mt m).
Proof. intros Hk Hx i y Hi. cbn in Hi. apply lookup_insert_Some in Hi as [[<- <-]|[_ Hi]]; [done | by apply Hk]. Qed.

Lemma register_multi_turn_keyed user id p tokens prompt now m :
  keyed m -> keyed (register_multi_turn user id p tokens prompt now m).
Proof.
  intros Hk%evict_for_room_keyed. unfold register_multi_turn. apply keyed_insert; [|done].
  intros i y. case_match; [rewrite lookup_delete_Some; intros [_ ?] | intros ?]; by apply Hk.
Qed.

Lemma check_keyed user prompt peers now m : keyed m -> keyed (check_multi_turn_reuse user prompt peers now m).1.
Proof.
  intros Hk. unfold check_multi_turn_reuse, forget.
  destruct (multi_turn_sessions m !! user) as [id|]; [|done].
  destruct (sessions m !! id) as [x|] eqn:E; [|done].
  repeat (case_if || case_match); cbn [fst]; try done; try (by apply keyed_delete).
  apply keyed_insert; [exact Hk | by apply Hk in E].
Qed.

Lemma update_keyed id m (f : KvCacheSession -> KvCacheSession) :
  (forall x, session_id (f x) = session_id x) -> keyed m ->
  keyed (match sessions m !! id with
         | Some x => with_tables (<[id := f x]> (sessions m)) (multi_turn_sessions m) m | None => m end).
Proof.
  intros Hf Hk. destruct (sessions m !! id) as [x|] eqn:E; [|done].
  apply keyed_insert; [exact Hk | rewrite Hf; by apply Hk].
Qed.

Lemma restore_loop_keyed inow snow l m n : keyed m -> keyed (restore_loop inow snow l m n).1.
Proof.
  revert m n. induction l as [|p l IH]; intros m n Hk; cbn [restore_loop]; [done |].
  destruct (restore_one inow snow p) as [x|] eqn:E; [|by apply IH]. apply IH, keyed_insert; [exact Hk |].
  unfold restore_one in E. repeat case_match; try done. by injection E as <-.
Qed.

(** *** Sizes *)

Lemma restore_loop_size inow snow l m n :
  (size (multi_turn_sessions (restore_loop inow snow l m n).1) <= size (multi_turn_sessions m) + length l)%nat.
Proof.
  revert m n. induction l as [|p l IH]; intros m n; cbn [restore_loop length fst]; [lia |].
  destruct (restore_one inow snow p) as [x|]; [|specialize (IH m n); lia].
  etrans; [apply IH |]. cbn [with_tables multi_turn_sessions].
  pose proof (size_insert_le (multi_turn_sessions m) (ps_user_session_id p) (ps_internal_id p)). lia.
Qed.

Lemma save_loop_size privacy inow snow put_ok m l db n :
  (size (save_loop privacy inow snow put_ok m l db n).1 <= size db + length l)%nat.
Proof.
  revert db n. induction l as [|[user id] l IH]; intros db n; cbn [save_loop length fst]; [lia |].
  destruct (sessions m !! id) as [x|]; [|specialize (IH db n); lia].
  case_if; [specialize (IH db n); lia |]. case_if; [|cbn; lia]. etrans; [apply IH |].
  pose proof (size_insert_le db user (persisted_of privacy inow snow (ttl m) user x)). lia.
Qed.

Lemma check_size user prompt peers now m :
  (size (multi_turn_sessions (check_multi_turn_reuse user prompt peers now m).1) <= size (multi_turn_sessions m))%nat.
Proof.
  unfold check_multi_turn_reuse, forget. repeat (case_if || case_match); cbn; (lia || apply size_delete_le).
Qed.

Lemma kv_inv_step w w' : kv_inv w -> kv_step w w' -> kv_inv w'.
Proof.
  intros (Hk & Hm & Hd) Hs. destruct Hs; unfold kv_inv in *; cbn [fst snd] in *.
  - done.
  - split_and!; [by apply keyed_insert | done | done].
  - split_and!; [by apply register_multi_turn_keyed | | done].
    pose proof (evict_for_room_size m Hm). unfold register_multi_turn. cbn [with_tables multi_turn_sessions].
    pose proof (size_insert_le (multi_turn_sessions (evict_for_room m)) user id). lia.
  - pose proof (check_size user prompt peers now m). split_and!; [by apply check_keyed | lia | done].
  - unfold get_session. destruct (sessions m !! id); [|done]. case_if; [|done].
    split_and!; [by apply keyed_delete | | done].
    cbn. pose proof (size_filter_le (fun '(_, i) => i <> id) (multi_turn_sessions m)). unfold retain_other. lia.
  - split_and!; [|unfold update_cached_tokens; by case_match | done].
    by apply (update_keyed id m (fun s => Build_KvCacheSession (session_id s) (pipeline s) n now (holders s) (cached_prompt s))).
  - split_and!; [|unfold update_cached_prompt; by case_match | done].
    by apply (update_keyed id m (fun s => Build_KvCacheSession (session_id s) (pipeline s) (cached_tokens s) now (holders s) prompt)).
  - split_and!; [by apply keyed_delete | | done].
    cbn. pose proof (size_filter_le (fun '(_, i) => i <> id) (multi_turn_sessions m)). unfold retain_other. lia.
  - unfold kv_cleanup_expired. cbn [fst]. split_and!; [| |done].
    + intros i x Hi. cbn in Hi. apply map_lookup_filter_Some in Hi as [Hi _]. by apply Hk.
    + cbn. case_if; [|done]. etrans; [apply inj_le, size_filter_le | done].
  - split_and!; [done | done |]. unfold save_to_db. destruct clear_ok; [|done].
    pose proof (save_loop_size privacy inow snow put_ok m (iter (multi_turn_sessions m)) ∅ 0) as Hl.
    rewrite iter_length, map_size_empty in Hl. cbn in *. lia.
  - unfold restore_from_db. destruct read_ok; [|split_and!; [done | done | done]].
    pose proof (restore_loop_size inow snow (iter_db db) (kv_new t) 0) as Hl.
    pose proof (restore_loop_keyed inow snow (iter_db db) (kv_new t) 0) as Hr.
    destruct (restore_loop _ _ _ _ _) as [m' n]. cbn in *. split_and!; [by apply Hr | | done].
    rewrite iter_db_length, map_size_empty in Hl. lia.
Qed.

(** *** What a save writes and a restore reads *)

(** Every record in the tree was there before, or is some live session's. *)
Lemma save_loop_records privacy inow snow put_ok m l db n u r :
  (save_loop privacy inow snow put_ok m l db n).1 !! u = Some r ->
  db !! u = Some r \/
  exists id x, (u, id) ∈ l /\ sessions m !! id = Some x /\ r = persisted_of privacy inow snow (ttl m) u x.
Proof.
  revert db n. induction l as [|[user id] l IH]; intros db n; cbn [save_loop fst]; [by left |].
  assert (Hw : (db !! u = Some r \/ exists i x, (u, i) ∈ l /\ sessions m !! i = Some x /\
             r = persisted_of privacy inow snow (ttl m) u x) ->
           db !! u = Some r \/ exists i x, (u, i) ∈ (user, id) :: l /\ sessions m !! i = Some x /\
             r = persisted_of privacy inow snow (ttl m) u x).
  { intros [?|(i & x & ? & ?)]; [by left | right; exists i, x; split; [by right | done]]. }
  destruct (sessions m !! id) as [x|] eqn:E; [|by intros ?%IH; apply Hw].
  case_if; [by intros ?%IH; apply Hw |]. case_if; [|by left].
  intros [Hi|(i & y & ? & ?)]%IH; [|right; exists i, y; split; [by right | done]].
  apply lookup_insert_Some in Hi as [[<- <-]|[_ Hi]]; [|by left].
  right. exists id, x. split; [by left | done].
Qed.

Lemma save_loop_other privacy inow snow put_ok m l db n u :
  u ∉ l.*1 -> (save_loop privacy inow snow put_ok m l db n).1 !! u = db !! u.
Proof.
  revert db n. induction l as [|[user id] l IH]; intros db n; cbn [save_loop fst fmap list_fmap]; [done |].
  intros [Hne Hl]%not_elem_of_cons. case_match; [|by apply IH]. case_if; [by apply IH |].
  case_if; [|done]. rewrite IH by done. by apply lookup_insert_ne.
Qed.

(** A live conversation's record is written when no write fails. *)
Lemma save_loop_writes privacy inow snow put_ok m l db n u id x :
  (forall k, put_ok k = true) -> NoDup l.*1 -> (u, id) ∈ l -> sessions m !! id = Some x ->
  elapsed inow (last_accessed x) <= ttl m ->
  (save_loop privacy inow snow put_ok m l db n).1 !! u = Some (persisted_of privacy inow snow (ttl m) u x).
Proof.
  intros Hput. revert db n. induction l as [|[user i] l IH]; intros db n; cbn [save_loop fmap list_fmap];
    [by intros _ ?%not_elem_of_nil |].
  intros [Hu Hnd]%list.NoDup_cons [[= <- <-]|Hin]%elem_of_cons Hx He.
  - rewrite Hx, Hput. destruct (Z.ltb_spec (ttl m) (elapsed inow (last_accessed x))); [lia |].
    rewrite save_loop_other by done. apply lookup_insert_eq.
  - rewrite Hput. case_match; [|by apply IH]. case_if; by apply IH.
Qed.

Lemma save_loop_ok privacy inow snow put_ok m l db n :
  (forall k, put_ok k = true) -> exists n', (save_loop privacy inow snow put_ok m l db n).2 = Ok n'.
Proof.
  intros Hput. revert db n. induction l as [|[user i] l IH]; intros db n; cbn [save_loop]; [by exists n |].
  rewrite Hput. case_match; [|by apply IH]. case_if; by apply IH.
Qed.

(** A restore leaves the value all its records agree on. *)
Lemma restore_loop_session inow snow l id v m n :
  (forall r x, r ∈ l -> ps_internal_id r = id -> restore_one inow snow r = Some x -> x = v) ->
  (sessions m !! id = Some v \/ exists r x, r ∈ l /\ ps_internal_id r = id /\ restore_one inow snow r = Some x) ->
  sessions (restore_loop inow snow l m n).1 !! id = Some v.
Proof.
  revert m n. induction l as [|r l IH]; intros m n Hv Hex; cbn [restore_loop].
  { by destruct Hex as [?|(? & ? & []%not_elem_of_nil & _)]. }
  destruct (restore_one inow snow r) as [x|] eqn:E; apply IH;
    try (intros r' x' Hr'; apply Hv; by right); cbn [with_tables sessions].
  - destruct (decide (ps_internal_id r = id)) as [<-|Hne].
    { left. rewrite lookup_insert_eq. f_equal. apply (Hv r); [by left | done | done]. }
    rewrite lookup_insert_ne by done. destruct Hex as [?|(r' & x' & [->|Hr']%elem_of_cons & ? & ?)]; [by left | done | eauto 6].
  - destruct Hex as [?|(r' & x' & [->|Hr']%elem_of_cons & ? & ?)]; [by left | congruence | eauto 6].
Qed.

Lemma restore_loop_user inow snow l u id m n :
  (forall r x, r ∈ l -> ps_user_session_id r = u -> restore_one inow snow r = Some x -> ps_internal_id r = id) ->
  (multi_turn_sessions m !! u = Some id \/
   exists r x, r ∈ l /\ ps_user_session_id r = u /\ restore_one inow snow r = Some x) ->
  multi_turn_sessions (restore_loop inow snow l m n).1 !! u = Some id.
Proof.
  revert m n. induction l as [|r l IH]; intros m n Hv Hex; cbn [restore_loop].
  { by destruct Hex as [?|(? & ? & []%not_elem_of_nil & _)]. }
  destruct (restore_one inow snow r) as [x|] eqn:E; apply IH;
    try (intros r' x' Hr'; eapply Hv; by right); cbn [with_tables multi_turn_sessions].
  - destruct (decide (ps_user_session_id r = u)) as [<-|Hne].
    { left. rewrite lookup_insert_eq. f_equal. apply (Hv r x); [by left | done | done]. }
    rewrite lookup_insert_ne by done. destruct Hex as [?|(r' & x' & [->|Hr']%elem_of_cons & ? & ?)]; [by left | done | eauto 6].
  - destruct Hex as [?|(r' & x' & [->|Hr']%elem_of_cons & ? & ?)]; [by left | congruence | eauto 6].
Qed.

(** What one saved session comes back as. *)
Definition resumed (privacy : bool) (since : Z) (x : KvCacheSession) : KvCacheSession := {|
  session_id := session_id x; pipeline := pipeline x; cached_tokens := cached_tokens x;
  last_accessed := since; holders := holders x;
  cached_prompt := if privacy then [] else cached_prompt x |}.

Lemma restore_one_persisted privacy i0 s0 i1 s1 t u x :
  let idle := elapsed i0 (last_accessed x) + (s1 - s0) in
  s0 <= s1 -> system_floor <= s0 - elapsed i0 (last_accessed x) -> instant_floor <= i1 - idle ->
  idle <= nanos (t / 1000000000) ->
  restore_one i1 s1 (persisted_of privacy i0 s0 t u x) = Some (resumed privacy (i1 - idle) x).
Proof.
  cbn zeta. unfold restore_one, persisted_of, resumed, earlier_or_now. cbn.
  assert (He : 0 <= elapsed i0 (last_accessed x)) by (unfold elapsed; lia).
  generalize dependent (elapsed i0 (last_accessed x)). intros e He Hs Hf1 Hf2 Ht.
  rewrite bool_decide_false by (intros H; by apply H).
  destruct (Z.ltb_spec (s0 - e) system_floor); [lia |].
  replace (elapsed s1 (s0 - e)) with (e + (s1 - s0)) by (unfold elapsed; lia).
  destruct (Z.ltb_spec (nanos (t / 1000000000)) (e + (s1 - s0))); [lia |].
  by destruct (Z.ltb_spec (i1 - (e + (s1 - s0))) instant_floor); [lia |].
Qed.

(** ** The session manager's properties *)

(** A turn resumes from the cache exactly when it may: the conversation is
    known, its session is within its time to live, every node holding the cache
    is reachable, and the new prompt extends the non-empty cached one; it then
    resumes at the cached token count and the only change is the access time.  A
    miss either changes nothing or forgets this conversation, and no other
    conversation's entry is ever touched. *)
Theorem reuse_exactly_when_resumable user new_prompt peers now m :
  let '(m', reuse) := check_multi_turn_reuse user new_prompt peers now m in
  (forall pos, reuse = Hit pos <->
     exists id x, multi_turn_sessions m !! user = Some id /\ sessions m !! id = Some x /\
       elapsed now (last_accessed x) <= ttl m /\ (forall h, h ∈ holders x -> h ∈ peers) /\
       cached_prompt x <> [] /\ (exists rest, new_prompt = cached_prompt x ++ rest) /\ pos = cached_tokens x) /\
  (forall u, u <> user -> multi_turn_sessions m' !! u = multi_turn_sessions m !! u) /\
  match reuse with
  | Hit _ => forall id x, multi_turn_sessions m !! user = Some id -> sessions m !! id = Some x ->
      m' = with_tables (<[id := set_last_accessed now x]> (sessions m)) (multi_turn_sessions m) m
  | Miss => m' = m \/ multi_turn_sessions m' !! user = None
  end.
Proof.
  unfold check_multi_turn_reuse, forget. destruct (multi_turn_sessions m !! user) as [id|] eqn:Eu.
  2: { split_and!; [|done | by left]. intros pos. split; [done | by intros (? & ? & ? & _)]. }
  destruct (sessions m !! id) as [x|] eqn:Ex.
  2: { split_and!; [| |right; apply lookup_delete_eq].
       - intros pos. split; [done | intros (? & ? & [= <-] & ? & _); congruence].
       - intros u Hu. by apply lookup_delete_ne. }
  assert (Hforget : forall P : Z -> Prop, (forall pos, P pos -> False) ->
    (forall pos, Miss = Hit pos <-> P pos) /\
    (forall u, u <> user -> delete user (multi_turn_sessions m) !! u = multi_turn_sessions m !! u) /\
    (with_tables (delete id (sessions m)) (delete user (multi_turn_sessions m)) m = m \/
     delete user (multi_turn_sessions m) !! user = None)).
  { intros P HP. split_and!; [intros pos; split; [done | by intros ?%HP] | | right; apply lookup_delete_eq].
    intros u Hu. by apply lookup_delete_ne. }
  destruct (Z.ltb_spec (ttl m) (elapsed now (last_accessed x))) as [He|He].
  { apply Hforget. intros pos (? & ? & [= <-] & ? & ? & _). simplify_eq. lia. }
  destruct (filter _ _) as [|h l] eqn:Ef.
  2: { apply Hforget. intros pos (? & ? & [= <-] & ? & ? & Hh & _). simplify_eq.
       assert (Hin : h ∈ h :: l) by left. rewrite <- Ef in Hin. apply list_elem_of_filter in Hin as [Hn Hin].
       by apply Hn, Hh. }
  case_bool_decide as Ep.
  { split_and!; [|done | by left]. intros pos. split; [done |]. intros (? & ? & [= <-] & ? & ? & _ & ? & _). by simplify_eq. }
  destruct (starts_with new_prompt (cached_prompt x)) eqn:Es; cbn [negb].
  - split_and!; [|done | intros ? ? [= <-] ?; by simplify_eq].
    intros pos. apply starts_with_spec in Es. split.
    + intros [= <-]. exists id, x. split_and!; [done.. | | done | done | done].
      intros h Hh. destruct (decide (h ∈ peers)); [done |].
      assert (Hin : h ∈ filter (fun n => n ∉ peers) (holders x)) by (by apply list_elem_of_filter).
      rewrite Ef in Hin. by apply not_elem_of_nil in Hin.
    + intros (? & ? & [= <-] & ? & _ & _ & _ & _ & ->). by simplify_eq.
  - apply Hforget. intros pos (? & ? & [= <-] & ? & _ & _ & _ & Hr & _). simplify_eq.
    apply starts_with_spec in Hr. congruence.
Qed.

(** Over a node's whole life, operations, saves (failed ones included) and
    restarts in any order, no more than [MAX_MULTI_TURN_SESSIONS] conversations
    are held in memory or on disk, and every session is filed under its own id. *)
Theorem conversations_stay_bounded t w :
  rtc kv_step (kv_new t, ∅) w ->
  Z.of_nat (size (multi_turn_sessions w.1)) <= MAX_MULTI_TURN_SESSIONS /\
  Z.of_nat (size w.2) <= MAX_MULTI_TURN_SESSIONS /\
  (forall id x, sessions w.1 !! id = Some x -> session_id x = id).
Proof.
  intros H. cut (kv_inv w); [by intros (? & ? & ?) |].
  enough (Hgen : forall w0, rtc kv_step w0 w -> kv_inv w0 -> kv_inv w) by (by apply (Hgen (kv_new t, ∅))).
  clear H. intros w0 H. induction H as [|w0 w1 w Hs _ IH]; [done |]. intros ?. by apply IH, (kv_inv_step w0).
Qed.

(** Conversations survive a restart.  A conversation live when the node saves
    comes back, when the same build restarts within its time to live, under the
    same id with the same pipeline, holders and token count, having been idle for
    exactly the time before the save plus the time the node was down; in privacy
    mode the prompt text is never written, and comes back empty. *)
Theorem save_restore_roundtrip privacy i0 s0 put_ok i1 s1 t m db u id x :
  let idle := elapsed i0 (last_accessed x) + (s1 - s0) in
  let '(db', saved) := save_to_db privacy i0 s0 true put_ok m db in
  let '(m', restored) := restore_from_db i1 s1 true db' (kv_new t) in
  keyed m -> (forall k, put_ok k = true) ->
  multi_turn_sessions m !! u = Some id -> sessions m !! id = Some x ->
  elapsed i0 (last_accessed x) <= ttl m -> s0 <= s1 -> idle <= nanos (ttl m / 1000000000) ->
  system_floor <= s0 - elapsed i0 (last_accessed x) -> instant_floor <= i1 - idle ->
  (exists n n', saved = Ok n /\ restored = Ok n') /\
  multi_turn_sessions m' !! u = Some id /\
  sessions m' !! id = Some (resumed privacy (i1 - idle) x) /\
  (privacy = true -> forall k r, db' !! k = Some r -> ps_cached_prompt r = []).
Proof.
  intros idle. unfold save_to_db, restore_from_db.
  destruct (save_loop _ _ _ _ _ _ _ _) as [db' saved] eqn:Esave.
  destruct (restore_loop _ _ _ _ _) as [m' n'] eqn:Erest.
  intros Hk Hput Hu Hx He Hs Hidle Hf1 Hf2.
  assert (Hrec : forall k r, db' !! k = Some r -> exists i y, multi_turn_sessions m !! k = Some i /\
             sessions m !! i = Some y /\ r = persisted_of privacy i0 s0 (ttl m) k y).
  { intros k r Hr. change db' with (db', saved).1 in Hr. rewrite <- Esave in Hr.
    apply save_loop_records in Hr as [Hr|(i & y & Hin & Hy & ->)]; [by rewrite lookup_empty in Hr |].
    rewrite iter_perm in Hin. apply elem_of_map_to_list in Hin. by exists i, y. }
  assert (Hin : persisted_of privacy i0 s0 (ttl m) u x ∈ iter_db db').
  { rewrite iter_db_perm. apply list_elem_of_fmap. exists (u, persisted_of privacy i0 s0 (ttl m) u x).
    split; [done |]. apply elem_of_map_to_list. change db' with (db', saved).1. rewrite <- Esave.
    apply save_loop_writes with id; [done | | | done | done].
    - rewrite iter_perm. apply NoDup_fst_map_to_list.
    - rewrite iter_perm. by apply elem_of_map_to_list. }
  assert (Hone : forall k, restore_one i1 s1 (persisted_of privacy i0 s0 (ttl m) k x) = Some (resumed privacy (i1 - idle) x))
    by (intros k; by apply restore_one_persisted).
  assert (Hall : forall r, r ∈ iter_db db' -> exists k i y, multi_turn_sessions m !! k = Some i /\
             sessions m !! i = Some y /\ r = persisted_of privacy i0 s0 (ttl m) k y).
  { intros r Hr. rewrite iter_db_perm in Hr. apply list_elem_of_fmap in Hr as ([k r'] & -> & Hr).
    apply elem_of_map_to_list in Hr. exists k. by apply Hrec. }
  pose proof (save_loop_ok privacy i0 s0 put_ok m (iter (multi_turn_sessions m)) ∅ 0 Hput) as [n Hn].
  rewrite Esave in Hn. change m' with (m', n').1. rewrite <- Erest. split_and!.
  - by exists n, n'.
  - apply restore_loop_user.
    + intros r y Hr Hur _. apply Hall in Hr as (k & i & z & Hk' & Hz & ->). cbn in *. subst k.
      rewrite Hu in Hk'. injection Hk' as <-. by apply Hk.
    + right. eexists _, _. split_and!; [exact Hin | done | apply Hone].
  - apply restore_loop_session.
    + intros r y Hr Hi Hy. apply Hall in Hr as (k & i & z & _ & Hz & ->). cbn in Hi.
      rewrite (Hk _ _ Hz) in Hi. subst i. rewrite Hx in Hz. injection Hz as <-. rewrite Hone in Hy. congruence.
    + right. eexists _, _. split_and!; [exact Hin | by apply Hk | apply Hone].
  - intros -> k r Hr. by apply Hrec in Hr as (i & y & _ & _ & ->).
Qed.
End manager.

(** ** Witnesses: the iteration orders are the maps' own *)

Definition iter0 (m : gmap bytes SessionId) : list (bytes * SessionId) := map_to_list m.
Definition iter_db0 (db : gmap bytes PersistedSession) : list PersistedSession := (map_to_list db).*2.

Definition sample_pipeline : PipelineAssignment := {|
  pa_request_id := [1];
  pa_segments := [{| seg_node_id := [7]; seg_shard_id := {| sh_model_id := [109]; sh_index := 0 |};
                     seg_layer_range := (0, 16) |}];
  pa_standbys := []; pa_tp_groups := []; pa_supports_speculative := false |}.

(** One conversation, ["hi"] read at time 5 s of a 600 s time to live. *)
Definition sample_manager : KvCacheManager :=
  register_multi_turn iter0 [117] [9] sample_pipeline 12 [104; 105] (nanos 5) (kv_new (nanos 600)).

Definition sample_session : KvCacheSession := {|
  session_id := [9]; pipeline := sample_pipeline; cached_tokens := 12; last_accessed := nanos 5;
  holders := [[7]]; cached_prompt := [104; 105] |}.

Example sample_reuse :
  (check_multi_turn_reuse [117] [104; 105; 33] {[ [7] ]} (nanos 9) sample_manager).2 = Hit 12.
Proof. vm_compute. reflexivity. Qed.
Example sample_reuse_degraded :
  (check_multi_turn_reuse [117] [104; 105; 33] ∅ (nanos 9) sample_manager).2 = Miss.
Proof. vm_compute. reflexivity. Qed.

Lemma conversations_stay_bounded_witness :
  Z.of_nat (size (multi_turn_sessions sample_manager)) <= MAX_MULTI_TURN_SESSIONS.
Proof.
  refine (proj1 (conversations_stay_bounded iter0 iter_db0 0 0 "v1" _ _ (nanos 600) (sample_manager, ∅) _)).
  - intros m. reflexivity.
  - intros db. reflexivity.
  - eapply rtc_l; [apply ks_multi | apply rtc_refl].
Defined.

(** Saved at 15 s, restarted 100 s later: idle for 110 s. *)
Lemma save_restore_roundtrip_witness :
  let db := (save_to_db iter0 0 "v1" false (nanos 15) (nanos 1000) true (fun _ => true) sample_manager ∅).1 in
  let m := (restore_from_db iter_db0 0 "v1" (nanos 200) (nanos 1100) true db (kv_new (nanos 600))).1 in
  sessions m !! [9] = Some (resumed false (nanos 90) sample_session).
Proof.
  pose proof (save_restore_roundtrip iter0 iter_db0 0 0 "v1" (fun m => reflexivity _) (fun db => reflexivity _)
    false (nanos 15) (nanos 1000) (fun _ => true) (nanos 200) (nanos 1100) (nanos 600) sample_manager ∅
    [117] [9] sample_session) as H.
  cbn zeta in H |- *.
  destruct (save_to_db iter0 0 "v1" _ _ _ _ _ _ _) as [db saved]. cbn [fst].
  destruct (restore_from_db iter_db0 0 "v1" _ _ _ db _) as [m restored]. cbn [fst].
  destruct H as (_ & _ & H & _).
  - apply register_multi_turn_keyed. intros i x Hi. cbn in Hi. by rewrite lookup_empty in Hi.
  - intros k. reflexivity.
  - vm_compute. reflexivity.
  - vm_compute. reflexivity.
  - vm_compute. discriminate.
  - vm_compute. discriminate.
  - vm_compute. discriminate.
  - vm_compute. discriminate.
  - vm_compute. discriminate.
  - exact H.
Defined.
