(* ===== verification/Retained.v ===== *)
(** * Retained activations ([src/daemon/state/retained_activations.rs])

    The coordinator keeps the inputs it sent to each segment of a request, so that a
    stand-in can be replayed them.  What the store promises is that a partial history
    is never replayed: a step that is lost, cannot be afforded or does not continue
    the one before it makes its segment unrestorable for good.  The clock is an
    argument; a request id is a Z; the iteration order of the [DashMap] is a
    parameter that permutes its entries. *)
From S2P Require Import Prelude Bytes KvSessions.

Definition MAX_RETAINED_REQUESTS : nat := 32.
Definition MAX_RETAINED_BYTES_PER_REQUEST : Z := 128 * 1024 * 1024.
Definition MAX_RETAINED_BYTES_TOTAL : Z := 512 * 1024 * 1024.

(** [tensor_util::activation_positions]: the second-to-last dimension of the header. *)
Definition activation_positions (d : bytes) : outcome (option Z) :=
  if blen d <? 4 then Ok None
  else
    ndim ← u32_at d 0;
    if (ndim <? 2) || (blen d <? 4 + ndim * 4) then Ok None
    else dim ← u32_at d (Z.to_nat (4 + (ndim - 2) * 4)); Ok (Some dim).

Record SegmentHistory : Type := {
  hi_steps : list bytes; hi_next_index_pos : Z; hi_contiguous : bool; hi_bytes : Z }.
Record RequestActivations : Type := {
  ra_segments : gmap (Z * Z) SegmentHistory; ra_bytes : Z; ra_last_activity : option Z }.
Record RetainedActivations : Type := { inner : gmap Z RequestActivations; total_bytes : Z }.

Definition retained_new : RetainedActivations := {| inner := ∅; total_bytes := 0 |}.
Definition no_request : RequestActivations := {| ra_segments := ∅; ra_bytes := 0; ra_last_activity := None |}.
(** [SegmentHistory::default], and the one [record] starts a segment with. *)
Definition no_history : SegmentHistory :=
  {| hi_steps := []; hi_next_index_pos := 0; hi_contiguous := false; hi_bytes := 0 |}.
Definition fresh_history : SegmentHistory :=
  {| hi_steps := []; hi_next_index_pos := 0; hi_contiguous := true; hi_bytes := 0 |}.

(** [AtomicUsize::fetch_sub]. *)
Definition usize_wrapping_sub (a b : Z) : Z := (a - b) mod (usize_max + 1).

(** Drop what a segment holds and close it. *)
Definition close_history (h : SegmentHistory) : SegmentHistory :=
  {| hi_steps := []; hi_next_index_pos := hi_next_index_pos h; hi_contiguous := false; hi_bytes := 0 |}.

Definition entry_of (st : RetainedActivations) (id : Z) : RequestActivations := default no_request (inner st !! id).

(** The store with a request's entry replaced. *)
Definition put_entry (st : RetainedActivations) (id : Z) (segments : gmap (Z * Z) SegmentHistory) (bytes now total : Z)
  : RetainedActivations :=
  {| inner := <[id := {| ra_segments := segments; ra_bytes := bytes; ra_last_activity := Some now |}]> (inner st);
     total_bytes := total |}.

Definition mark_unrestorable (st : RetainedActivations) (id : Z) (range : Z * Z) (now : Z) : RetainedActivations :=
  let entry := entry_of st id in
  let seg := default no_history (ra_segments entry !! range) in
  put_entry st id (<[range := close_history seg]> (ra_segments entry))
    (u64_saturating_sub (ra_bytes entry) (hi_bytes seg)) now (usize_wrapping_sub (total_bytes st) (hi_bytes seg)).

Definition release (st : RetainedActivations) (id : Z) : RetainedActivations :=
  match inner st !! id with
  | Some entry => {| inner := delete id (inner st); total_bytes := usize_wrapping_sub (total_bytes st) (ra_bytes entry) |}
  | None => st
  end.

Section order.
Variable iter : gmap Z RequestActivations -> list (Z * RequestActivations).

Definition evict_if_over_request_cap (st : RetainedActivations) (id : Z) : RetainedActivations :=
  if (size (inner st) <? MAX_RETAINED_REQUESTS)%nat || bool_decide (is_Some (inner st !! id)) then st
  else match min_by_key (fun e => ra_last_activity e.2) (iter (inner st)) with
       | Some (oldest, _) => release st oldest
       | None => st
       end.

Definition retained_record (st : RetainedActivations) (id : Z) (range : Z * Z) (index_pos : Z) (activations : bytes)
    (protect : bool) (now : Z) : outcome RetainedActivations :=
  span ← activation_positions activations;
  Ok (match span with
      | None => mark_unrestorable st id range now
      | Some span =>
          let len := blen activations in
          if negb protect then st
          else if MAX_RETAINED_BYTES_TOTAL <? total_bytes st + len then mark_unrestorable st id range now
          else
            let st := evict_if_over_request_cap st id in
            let entry := entry_of st id in
            let over_budget := MAX_RETAINED_BYTES_PER_REQUEST <? ra_bytes entry + len in
            let seg := default fresh_history (ra_segments entry !! range) in
            let put h := <[range := h]> (ra_segments entry) in
            if negb (hi_contiguous seg) then put_entry st id (put seg) (ra_bytes entry) now (total_bytes st)
            else if over_budget || negb (index_pos =? hi_next_index_pos seg) then
              put_entry st id (put (close_history seg)) (u64_saturating_sub (ra_bytes entry) (hi_bytes seg)) now
                (usize_wrapping_sub (total_bytes st) (hi_bytes seg))
            else
              put_entry st id
                (put {| hi_steps := hi_steps seg ++ [activations]; hi_next_index_pos := (index_pos + span) mod (u32_max + 1);
                        hi_contiguous := true; hi_bytes := hi_bytes seg + len |})
                (ra_bytes entry + len) now (total_bytes st + len)
      end).

Definition restorable_history (st : RetainedActivations) (id : Z) (range : Z * Z) (up_to_index_pos : Z)
  : option (list bytes) :=
  entry ← inner st !! id; seg ← ra_segments entry !! range;
  if negb (hi_contiguous seg) || bool_decide (hi_steps seg = []) || negb (hi_next_index_pos seg =? up_to_index_pos)
  then None else Some (hi_steps seg).

Definition sweep_stale (st : RetainedActivations) (ttl now : Z) : RetainedActivations :=
  fold_left release
    (map fst (List.filter (fun e =>
       match ra_last_activity e.2 with Some t => ttl <? now - t | None => true end) (iter (inner st)))) st.

Definition retained_bytes (st : RetainedActivations) : Z := total_bytes st.
Definition retained_requests (st : RetainedActivations) : nat := size (inner st).

(** ** Histories of calls *)

Inductive RetainCall : Type :=
| CallRecord (id : Z) (range : Z * Z) (index_pos : Z) (activations : bytes) (protect : bool) (now : Z)
| CallMark (id : Z) (range : Z * Z) (now : Z)
| CallRelease (id : Z)
| CallSweep (ttl now : Z).

Definition retain_call (st : RetainedActivations) (call : RetainCall) : outcome RetainedActivations :=
  match call with
  | CallRecord id range pos acts protect now => retained_record st id range pos acts protect now
  | CallMark id range now => Ok (mark_unrestorable st id range now)
  | CallRelease id => Ok (release st id)
  | CallSweep ttl now => Ok (sweep_stale st ttl now)
  end.

Inductive retained_after : list RetainCall -> RetainedActivations -> Prop :=
| ra_new : retained_after [] retained_new
| ra_call calls st call st' :
    retained_after calls st -> retain_call st call = Ok st' -> retained_after (calls ++ [call]) st'.

(** ** No partial replay *)

Lemma u32_at_total d i : Z.of_nat i + 4 <= blen d -> exists x, u32_at d i = Ok x.
Proof. intros Hi. unfold le_at, slice. rewrite (proj2 (Nat.leb_le _ _)) by (unfold blen in Hi; lia). cbn. eauto. Qed.

(** Any buffer has a readable header or none; the reader never runs past its end. *)
Lemma activation_positions_total d : exists x, activation_positions d = Ok x.
Proof.
  unfold activation_positions. destruct (Z.ltb_spec (blen d) 4); [eauto|].
  destruct (u32_at_total d 0) as [ndim ->]; [lia|]. cbn [mbind outcome_bind].
  destruct (Z.ltb_spec ndim 2), (Z.ltb_spec (blen d) (4 + ndim * 4)); cbn [orb]; eauto.
  destruct (u32_at_total d (Z.to_nat (4 + (ndim - 2) * 4))) as [dim ->]; [lia|]. cbn. eauto.
Qed.

(** What a request holds for a segment. *)
Definition seg_at (st : RetainedActivations) (id : Z) (range : Z * Z) : option SegmentHistory :=
  entry ← inner st !! id; ra_segments entry !! range.

Lemma seg_at_put st id segs b now t id' range :
  seg_at (put_entry st id segs b now t) id' range = if decide (id = id') then segs !! range else seg_at st id' range.
Proof.
  unfold seg_at, put_entry. cbn. destruct (decide (id = id')) as [->|].
  - by rewrite lookup_insert_eq.
  - by rewrite lookup_insert_ne.
Qed.

Lemma seg_at_release st x id range h : seg_at (release st x) id range = Some h -> seg_at st id range = Some h.
Proof.
  unfold release, seg_at. destruct (inner st !! x); [|done]. cbn. destruct (decide (x = id)) as [->|].
  - by rewrite lookup_delete_eq.
  - by rewrite lookup_delete_ne.
Qed.

Lemma seg_at_releases st xs id range h : seg_at (fold_left release xs st) id range = Some h -> seg_at st id range = Some h.
Proof. revert st. induction xs as [|x xs IH]; cbn; intros st; [done|]. intros H%IH. by eapply seg_at_release. Qed.

Lemma evict_keeps_entry st id : entry_of (evict_if_over_request_cap st id) id = entry_of st id.
Proof.
  unfold evict_if_over_request_cap, entry_of. destruct (_ || _) eqn:Hor; [done|].
  apply orb_false_iff in Hor as [_ Hn%bool_decide_eq_false]. destruct (inner st !! id) eqn:Hid; [by destruct Hn|].
  destruct (min_by_key _ _) as [[o e]|]; [|by rewrite Hid]. unfold release. destruct (inner st !! o) eqn:Ho; [|by rewrite Hid].
  cbn. by rewrite lookup_delete_ne, Hid by congruence.
Qed.

Lemma seg_at_evict st x id range h : seg_at (evict_if_over_request_cap st x) id range = Some h -> seg_at st id range = Some h.
Proof. unfold evict_if_over_request_cap. repeat case_match; try done. apply seg_at_release. Qed.

Lemma seg_at_entry st id range : seg_at st id range = ra_segments (entry_of st id) !! range.
Proof. unfold seg_at, entry_of. by destruct (inner st !! id). Qed.

(** The protected inputs of a segment among some calls, with their positions. *)
Definition recorded (id : Z) (range : Z * Z) (call : RetainCall) : option (Z * bytes) :=
  match call with
  | CallRecord id' range' pos acts true _ => if decide (id' = id /\ range' = range) then Some (pos, acts) else None
  | _ => None
  end.
(** A call that says a step of the segment is not with the coordinator. *)
Definition breaks (id : Z) (range : Z * Z) (call : RetainCall) : Prop :=
  match call with
  | CallRecord id' range' _ acts _ _ => id' = id /\ range' = range /\ activation_positions acts = Ok None
  | CallMark id' range' _ => id' = id /\ range' = range
  | _ => False
  end.

(** Inputs each of which begins where the one before it ended. *)
Fixpoint continues (from : Z) (steps : list (Z * bytes)) (to : Z) : Prop :=
  match steps with
  | [] => from = to
  | (pos, acts) :: steps =>
      pos = from /\ exists span, activation_positions acts = Ok (Some span) /\
                                 continues ((pos + span) mod (u32_max + 1)) steps to
  end.

Lemma continues_snoc from steps to acts span :
  continues from steps to -> activation_positions acts = Ok (Some span) ->
  continues from (steps ++ [(to, acts)]) ((to + span) mod (u32_max + 1)).
Proof.
  revert from. induction steps as [|[pos a] steps IH]; cbn; intros from.
  - intros -> Hs. split; [done|]. by exists span.
  - intros (-> & sp & Hsp & Hc) Hs. split; [done|]. exists sp. auto.
Qed.

(** How one call changes what a segment holds, where it stays restorable. *)
Inductive seg_step (id : Z) (range : Z * Z) (call : RetainCall) : option SegmentHistory -> SegmentHistory -> Prop :=
| ss_same h : recorded id range call = None -> ~ breaks id range call -> seg_step id range call (Some h) h
| ss_push seg pos acts span :
    recorded id range call = Some (pos, acts) -> activation_positions acts = Ok (Some span) ->
    (forall h, seg = Some h -> hi_contiguous h = true) -> pos = hi_next_index_pos (default fresh_history seg) ->
    seg_step id range call seg
      {| hi_steps := hi_steps (default fresh_history seg) ++ [acts]; hi_next_index_pos := (pos + span) mod (u32_max + 1);
         hi_contiguous := true; hi_bytes := hi_bytes (default fresh_history seg) + blen acts |}.

Lemma seg_at_mark st id' range' now id range h :
  seg_at (mark_unrestorable st id' range' now) id range = Some h -> hi_contiguous h = true ->
  ~ (id' = id /\ range' = range) /\ seg_at st id range = Some h.
Proof.
  unfold mark_unrestorable. rewrite seg_at_put. intros Hseg Hh.
  destruct (decide (id' = id)) as [->|]; [|split; [tauto|done]]. rewrite <- seg_at_entry in *.
  destruct (decide (range' = range)) as [->|Hr].
  - rewrite lookup_insert_eq in Hseg. by injection Hseg as <-.
  - rewrite lookup_insert_ne, <- seg_at_entry in Hseg by done. split; [tauto|done].
Qed.

Lemma other_record id' range' pos acts p now id range :
  ~ (id' = id /\ range' = range) ->
  recorded id range (CallRecord id' range' pos acts p now) = None /\ ~ breaks id range (CallRecord id' range' pos acts p now).
Proof. intros Hne. cbn. split; [|tauto]. destruct p; [by rewrite decide_False|done]. Qed.

Lemma record_step st id' range' pos acts p now st' id range h :
  retained_record st id' range' pos acts p now = Ok st' -> seg_at st' id range = Some h -> hi_contiguous h = true ->
  seg_step id range (CallRecord id' range' pos acts p now) (seg_at st id range) h.
Proof.
  unfold retained_record. destruct (activation_positions acts) as [[span|]| |] eqn:Hspan; cbn [mbind outcome_bind]; try done; intros [= <-].
  2: { intros Hseg Hh. destruct (seg_at_mark _ _ _ _ _ _ _ Hseg Hh) as [Hne ->].
       destruct (other_record id' range' pos acts p now id range Hne) as [? ?]. by apply ss_same. }
  destruct p; cbn [negb]; [|intros -> _; apply ss_same; cbn; [done|rewrite Hspan; naive_solver]].
  destruct (MAX_RETAINED_BYTES_TOTAL <? _).
  { intros Hseg Hh. destruct (seg_at_mark _ _ _ _ _ _ _ Hseg Hh) as [Hne ->].
       destruct (other_record id' range' pos acts true now id range Hne) as [? ?]. by apply ss_same. }
  rewrite evict_keeps_entry. intros Hseg Hh.
  destruct (decide (id' = id /\ range' = range)) as [[-> ->]|Hne].
  2: { destruct (other_record id' range' pos acts true now id range Hne) as [? ?].
       assert (Hput : forall hh b t, seg_at (put_entry (evict_if_over_request_cap st id') id'
         (<[range' := hh]> (ra_segments (entry_of st id'))) b now t) id range = Some h -> seg_at st id range = Some h).
       { intros hh b t. rewrite seg_at_put. case_decide as Hid; [subst id'|apply seg_at_evict].
         rewrite lookup_insert_ne by naive_solver. by rewrite seg_at_entry. }
       assert (seg_at st id range = Some h) as ->; [|by apply ss_same].
       destruct (negb _); [|destruct (_ || _)]; by eapply Hput. }
  rewrite seg_at_entry. revert Hseg. destruct (ra_segments (entry_of st id) !! range) as [g|] eqn:Hg; cbn [default from_option Datatypes.id].
  - destruct (hi_contiguous g) eqn:Hc; cbn [negb].
    + destruct (_ || _) eqn:Hor; rewrite seg_at_put, decide_True, lookup_insert_eq by done; intros [= <-]; [done|].
      apply orb_false_iff in Hor as [_ Hpos%negb_false_iff%Z.eqb_eq].
      eapply (ss_push id range _ (Some g)); cbn; [by rewrite decide_True|done|naive_solver|done].
    + rewrite seg_at_put, decide_True, lookup_insert_eq by done. intros [= <-]. congruence.
  - cbn [hi_contiguous fresh_history negb].
    destruct (_ || _) eqn:Hor; rewrite seg_at_put, decide_True, lookup_insert_eq by done; intros [= <-]; [done|].
    apply orb_false_iff in Hor as [_ Hpos%negb_false_iff%Z.eqb_eq].
    eapply (ss_push id range _ None); cbn; [by rewrite decide_True|done|naive_solver|done].
Qed.

Lemma call_step st call st' id range h :
  retain_call st call = Ok st' -> seg_at st' id range = Some h -> hi_contiguous h = true ->
  seg_step id range call (seg_at st id range) h.
Proof.
  destruct call as [id' range' pos acts p now|id' range' now|id'|ttl now]; cbn [retain_call].
  - apply record_step.
  - intros [= <-] Hseg Hh. destruct (seg_at_mark _ _ _ _ _ _ _ Hseg Hh) as [Hne ->]. by apply ss_same.
  - intros [= <-] ->%seg_at_release _. apply ss_same; cbn; tauto.
  - intros [= <-] ->%seg_at_releases _. apply ss_same; cbn; tauto.
Qed.

(** What a segment holds while it is restorable: the protected inputs of the calls
    since some moment, each continuing the last, none reported lost. *)
Lemma history_is_recorded calls st id range h :
  retained_after calls st -> seg_at st id range = Some h -> hi_contiguous h = true ->
  exists earlier since, calls = earlier ++ since /\ (forall call, call ∈ since -> ~ breaks id range call) /\
    map snd (omap (recorded id range) since) = hi_steps h /\
    continues 0 (omap (recorded id range) since) (hi_next_index_pos h).
Proof.
  intros Hr. revert h. induction Hr as [|calls st call st' Hr IH Hcall]; intros h Hseg Hh; [done|].
  pose proof (call_step _ _ _ _ _ _ Hcall Hseg Hh) as Hstep. inversion Hstep as [g Hnone Hok Hg Hgh|seg pos acts span Hrec Hspan Hcont Hpos Hg Hgh].
  - subst g. destruct (IH h (eq_sym Hg) Hh) as (earlier & since & -> & Hno & Hsteps & Hc).
    exists earlier, (since ++ [call]). split_and!; [by rewrite <- (assoc (++))| |..].
    + intros c [?| ->%list_elem_of_singleton]%elem_of_app; auto.
    + by rewrite omap_app; cbn; rewrite Hnone, app_nil_r.
    + by rewrite omap_app; cbn; rewrite Hnone, app_nil_r.
  - assert (Hnb : ~ breaks id range call).
    { destruct call as [id' range' pos' acts' [] now|?|?|?]; cbn in *; try done.
      case_decide; [|done]. injection Hrec as <- <-. intros (_ & _ & ?). congruence. }
    destruct (seg_at st id range) as [g|]; subst seg; cbn [default from_option Datatypes.id] in *.
    + destruct (IH g eq_refl (Hcont g eq_refl)) as (earlier & since & -> & Hno & Hsteps & Hc).
      exists earlier, (since ++ [call]). split_and!; [by rewrite <- (assoc (++))| |..]; cbn [hi_steps hi_next_index_pos].
      * intros c [?| ->%list_elem_of_singleton]%elem_of_app; auto.
      * by rewrite omap_app; cbn; rewrite Hrec, map_app; cbn; rewrite Hsteps.
      * rewrite omap_app. cbn. rewrite Hrec. subst pos. by apply continues_snoc.
    + exists calls, [call]. split_and!; [done| |..]; cbn.
      * by intros c ->%list_elem_of_singleton.
      * by rewrite Hrec.
      * rewrite Hrec. subst pos. cbn. split; [done|]. by exists span.
Qed.

(** C23: A partial history is never replayed: what a stand-in is given are all protected
    inputs of the segment since some moment, the first at position 0, each beginning
    where the one before it ended, the last ending where the takeover begins, and
    none of the calls since reported a step lost. *)
Theorem no_partial_replay calls st id range up_to steps :
  retained_after calls st -> restorable_history st id range up_to = Some steps ->
  steps <> [] /\
  exists earlier since, calls = earlier ++ since /\ (forall call, call ∈ since -> ~ breaks id range call) /\
    map snd (omap (recorded id range) since) = steps /\ continues 0 (omap (recorded id range) since) up_to.
Proof.
  intros Hr Hh. unfold restorable_history in Hh. apply bind_Some in Hh as (e & He & Hh). apply bind_Some in Hh as (h & Hs & Hh).
  destruct (_ || _) eqn:Hor in Hh; [done|]. injection Hh as <-. apply orb_false_iff in Hor as [[Hc Hn]%orb_false_iff Hp].
  apply negb_false_iff in Hc. apply bool_decide_eq_false in Hn. apply negb_false_iff, Z.eqb_eq in Hp. split; [done|].
  rewrite <- Hp. apply (history_is_recorded _ st); [done| |done]. unfold seg_at. by rewrite He.
Qed.

(** ** The books *)

Definition steps_bytes (steps : list bytes) : Z := fold_right (fun step acc => blen step + acc) 0 steps.

Definition history_ok (h : SegmentHistory) : Prop :=
  hi_bytes h = steps_bytes (hi_steps h) /\ (hi_contiguous h = false -> hi_steps h = []).
Definition entry_ok (e : RequestActivations) : Prop :=
  ra_bytes e = map_sum hi_bytes (ra_segments e) /\ ra_bytes e <= MAX_RETAINED_BYTES_PER_REQUEST /\
  forall range h, ra_segments e !! range = Some h -> history_ok h.
(** Every figure is the bytes of the steps kept, within both budgets. *)
Definition books (st : RetainedActivations) : Prop :=
  total_bytes st = map_sum ra_bytes (inner st) /\ total_bytes st <= MAX_RETAINED_BYTES_TOTAL /\
  forall id e, inner st !! id = Some e -> entry_ok e.

Lemma steps_bytes_nonneg steps : 0 <= steps_bytes steps.
Proof. induction steps as [|s steps IH]; [done|]. cbn. fold (steps_bytes steps). unfold blen. lia. Qed.
Lemma steps_bytes_snoc steps s : steps_bytes (steps ++ [s]) = steps_bytes steps + blen s.
Proof. unfold steps_bytes. induction steps as [|x steps IH]; cbn; [lia|]. rewrite IH. lia. Qed.

Lemma history_nonneg h : history_ok h -> 0 <= hi_bytes h.
Proof. intros [-> _]. apply steps_bytes_nonneg. Qed.

Lemma seg_within e range h : entry_ok e -> ra_segments e !! range = Some h -> 0 <= hi_bytes h <= ra_bytes e.
Proof.
  intros (Hsum & _ & Hok) Hh. split; [by eapply history_nonneg, Hok|]. rewrite Hsum. eapply map_sum_elem, Hh.
  intros j y Hj. by eapply history_nonneg, Hok.
Qed.

Lemma entry_nonneg e : entry_ok e -> 0 <= ra_bytes e.
Proof.
  intros He. destruct (decide (ra_segments e = ∅)) as [Hemp|(r & h & Hh)%map_choose].
  - destruct He as [-> _]. by rewrite Hemp, map_sum_empty.
  - pose proof (seg_within e r h He Hh). lia.
Qed.

Lemma no_request_ok : entry_ok no_request.
Proof. split_and!; cbn; [by rewrite map_sum_empty|unfold MAX_RETAINED_BYTES_PER_REQUEST; lia|]. by intros r h ?%lookup_empty_Some. Qed.

Lemma entry_of_ok st id : books st -> entry_ok (entry_of st id).
Proof. intros (_ & _ & Hok). unfold entry_of. destruct (inner st !! id) eqn:He; [by eapply Hok|apply no_request_ok]. Qed.

Lemma entry_within st id : books st -> 0 <= ra_bytes (entry_of st id) <= total_bytes st.
Proof.
  intros Hb. pose proof (entry_nonneg _ (entry_of_ok st id Hb)). split; [done|]. destruct Hb as (Hsum & Hmax & Hok).
  unfold entry_of in *. rewrite Hsum. assert (Hnn : forall j e, inner st !! j = Some e -> 0 <= ra_bytes e) by eauto using entry_nonneg.
  destruct (inner st !! id) as [e|] eqn:He; [by eapply map_sum_elem|]. cbn.
  destruct (decide (inner st = ∅)) as [Hemp|(j & x & Hj)%map_choose]; [by rewrite Hemp, map_sum_empty|].
  pose proof (map_sum_elem ra_bytes _ _ _ Hnn Hj). specialize (Hnn j x Hj). lia.
Qed.

Lemma put_books st id segs b now t :
  books st -> entry_ok {| ra_segments := segs; ra_bytes := b; ra_last_activity := Some now |} ->
  t = total_bytes st - ra_bytes (entry_of st id) + b -> t <= MAX_RETAINED_BYTES_TOTAL -> books (put_entry st id segs b now t).
Proof.
  intros (Hsum & Hmax & Hok) He -> Ht. unfold books, put_entry. cbn. split_and!; [|done|].
  - rewrite map_sum_insert. cbn. unfold entry_of. destruct (inner st !! id); cbn; lia.
  - intros j e [[-> <-]|[_ Hj]]%lookup_insert_Some; [done|by eapply Hok].
Qed.

(** One segment's history replaced by another. *)
Lemma entry_put e range h b last :
  entry_ok e -> history_ok h ->
  b = ra_bytes e - match ra_segments e !! range with Some g => hi_bytes g | None => 0 end + hi_bytes h ->
  b <= MAX_RETAINED_BYTES_PER_REQUEST ->
  entry_ok {| ra_segments := <[range := h]> (ra_segments e); ra_bytes := b; ra_last_activity := last |}.
Proof.
  intros (Hsum & _ & Hok) Hh -> Hb. split_and!; cbn; [|done|].
  - rewrite map_sum_insert. lia.
  - intros r g [[-> <-]|[_ Hg]]%lookup_insert_Some; [done|by eapply Hok].
Qed.

(** Closing a segment takes its bytes off every figure, without wrap. *)
Lemma close_books st id range now h0 :
  books st -> hi_bytes h0 = 0 ->
  let e := entry_of st id in let seg := default h0 (ra_segments e !! range) in
  books (put_entry st id (<[range := close_history seg]> (ra_segments e)) (u64_saturating_sub (ra_bytes e) (hi_bytes seg)) now
           (usize_wrapping_sub (total_bytes st) (hi_bytes seg))).
Proof.
  intros Hb H0 e seg. pose proof (entry_of_ok st id Hb) as He. pose proof (entry_within st id Hb) as Hin. fold e in He, Hin.
  assert (Hseg : 0 <= hi_bytes seg <= ra_bytes e /\
    match ra_segments e !! range with Some g => hi_bytes g | None => 0 end = hi_bytes seg).
  { unfold seg. destruct (ra_segments e !! range) as [g|] eqn:Hg; cbn; [|lia].
    pose proof (seg_within e range g He Hg). done. }
  destruct Hseg as [Hle Hfig]. pose proof Hb as (_ & Hmax & _).
  assert (Hbytes : u64_saturating_sub (ra_bytes e) (hi_bytes seg) = ra_bytes e - hi_bytes seg)
    by (unfold MAX_RETAINED_BYTES_TOTAL in *; ints).
  assert (Htot : usize_wrapping_sub (total_bytes st) (hi_bytes seg) = total_bytes st - hi_bytes seg).
  { unfold usize_wrapping_sub. apply Z.mod_small. unfold MAX_RETAINED_BYTES_TOTAL, usize_max, u64_max in *. lia. }
  rewrite Hbytes, Htot. apply put_books; [done| |fold e; lia|lia].
  apply entry_put; [done|by split|cbn; rewrite Hfig; lia|destruct He as (_ & ? & _); lia].
Qed.

Lemma mark_books st id range now : books st -> books (mark_unrestorable st id range now).
Proof. intros Hb. by apply (close_books st id range now no_history). Qed.

Lemma release_books st id : books st -> books (release st id).
Proof.
  intros Hb. unfold release. destruct (inner st !! id) as [e|] eqn:He; [|done].
  pose proof (entry_within st id Hb) as Hin. unfold entry_of in Hin. rewrite He in Hin. cbn in Hin.
  destruct Hb as (Hsum & Hmax & Hok).
  assert (Htot : usize_wrapping_sub (total_bytes st) (ra_bytes e) = total_bytes st - ra_bytes e).
  { unfold usize_wrapping_sub. apply Z.mod_small. unfold MAX_RETAINED_BYTES_TOTAL, usize_max, u64_max in *. lia. }
  rewrite Htot. split_and!; cbn; [|lia|].
  - rewrite (map_sum_delete _ _ _ _ He). lia.
  - intros j x [_ Hj]%lookup_delete_Some. by eapply Hok.
Qed.

Lemma releases_books ids st : books st -> books (fold_left release ids st).
Proof. revert st. induction ids as [|x ids IH]; cbn; intros st Hb; [done|]. by apply IH, release_books. Qed.

Lemma evict_books st id : books st -> books (evict_if_over_request_cap st id) /\
  total_bytes (evict_if_over_request_cap st id) <= total_bytes st.
Proof.
  intros Hb. unfold evict_if_over_request_cap. case_match; [done|]. destruct (min_by_key _ _) as [[o e]|]; [|done].
  pose proof (release_books st o Hb) as Hr. split; [done|]. unfold release in *. destruct (inner st !! o) as [x|] eqn:Ho; [|done].
  pose proof (entry_within st o Hb) as Hin. unfold entry_of in Hin. rewrite Ho in Hin. cbn in *. destruct Hb as (_ & Hmax & _).
  unfold usize_wrapping_sub. rewrite Z.mod_small; [lia|]. unfold MAX_RETAINED_BYTES_TOTAL, usize_max, u64_max in *. lia.
Qed.

Lemma record_books st id range pos acts p now st' :
  books st -> retained_record st id range pos acts p now = Ok st' -> books st'.
Proof.
  intros Hb. unfold retained_record. destruct (activation_positions acts) as [[span|]| |]; cbn [mbind outcome_bind]; try done; intros [= <-];
    [|by apply mark_books].
  destruct p; cbn [negb]; [|done]. destruct (Z.ltb_spec MAX_RETAINED_BYTES_TOTAL (total_bytes st + blen acts)); [by apply mark_books|].
  destruct (evict_books st id Hb) as [Hb' Htot]. revert Hb' Htot. generalize (evict_if_over_request_cap st id). intros st' Hb' Htot.
  pose proof (entry_of_ok st' id Hb') as He. pose proof (entry_within st' id Hb') as Hin.
  destruct (hi_contiguous (default fresh_history _)) eqn:Hc; cbn [negb].
  - destruct (Z.ltb_spec MAX_RETAINED_BYTES_PER_REQUEST (ra_bytes (entry_of st' id) + blen acts)); cbn [orb];
      [by apply close_books|]. destruct (negb _); [by apply close_books|].
    assert (Hh : history_ok (default fresh_history (ra_segments (entry_of st' id) !! range))).
    { destruct (ra_segments _ !! range) eqn:Hg; [|done]. by eapply He. }
    apply put_books; [done| |lia|lia]. apply entry_put; [done| | |lia]; cbn.
    + split; cbn; [|done]. rewrite steps_bytes_snoc. by destruct Hh as [-> _].
    + destruct (ra_segments _ !! range); cbn; lia.
  - assert (Hh : exists g, ra_segments (entry_of st' id) !! range = Some g) by (destruct (_ !! range); [eauto|done]).
    destruct Hh as [g Hg]. rewrite Hg in *. cbn in *. destruct Hb' as (Hsum & Hmax & Hok). apply put_books; [done| |lia|lia].
    apply entry_put; [done|by eapply He|rewrite Hg; lia|apply He].
Qed.

Lemma call_books st call st' : books st -> retain_call st call = Ok st' -> books st'.
Proof.
  destruct call; cbn [retain_call]; [apply record_books|..]; intros Hb [= <-];
    [by apply mark_books|by apply release_books|by apply releases_books].
Qed.

(** Whatever is recorded, marked, released and swept: the store's total is the bytes
    of the steps it keeps, so no subtraction wraps; it stays within its two budgets;
    a closed segment keeps nothing; and no call panics. *)
Theorem retention_books calls st :
  retained_after calls st ->
  books st /\ 0 <= retained_bytes st <= MAX_RETAINED_BYTES_TOTAL /\
  forall call, exists st', retain_call st call = Ok st'.
Proof.
  intros Hr. assert (Hb : books st).
  { induction Hr as [|calls st call st' Hr IH Hcall]; [|by eapply call_books].
    split_and!; cbn; [by rewrite map_sum_empty|unfold MAX_RETAINED_BYTES_TOTAL; lia|by intros ? ? ?%lookup_empty_Some]. }
  split_and!; [done|..].
  - pose proof (entry_within st 0 Hb). unfold retained_bytes. lia.
  - unfold retained_bytes. apply Hb.
  - intros [id range pos acts p now|id range now|id|ttl now]; cbn; [|eauto..]. unfold retained_record.
    destruct (activation_positions_total acts) as [x ->]. cbn. eauto.
Qed.

(** ** The request cap *)

Hypothesis iter_perm : forall m, iter m ≡ₚ map_to_list m.

Lemma evict_makes_room st id :
  (size (inner st) <= MAX_RETAINED_REQUESTS)%nat ->
  (size (inner (evict_if_over_request_cap st id)) < MAX_RETAINED_REQUESTS)%nat \/
  evict_if_over_request_cap st id = st /\ is_Some (inner st !! id).
Proof.
  intros Hs. unfold evict_if_over_request_cap. destruct (Nat.ltb_spec (size (inner st)) MAX_RETAINED_REQUESTS); cbn [orb]; [by left|].
  case_bool_decide as Hid; [by right|]. left.
  destruct (min_by_key_in (fun e : Z * RequestActivations => ra_last_activity e.2) (iter (inner st))) as ([o e] & -> & Hin).
  { intros Hnil. pose proof (iter_perm (inner st)) as Hp. rewrite Hnil in Hp. apply Permutation_nil_l in Hp.
    symmetry in Hp. apply map_to_list_empty_iff in Hp. rewrite Hp, map_size_empty in H. unfold MAX_RETAINED_REQUESTS in H. lia. }
  rewrite iter_perm in Hin. apply elem_of_map_to_list in Hin. unfold release. rewrite Hin. cbn.
  rewrite map_size_delete_Some by (by eexists). unfold MAX_RETAINED_REQUESTS in *. lia.
Qed.

(** A step that is kept, or not worth keeping, never takes the table past its cap:
    the least recently active request makes room. *)
Theorem record_keeps_the_request_cap st id range pos acts p now st' span :
  (retained_requests st <= MAX_RETAINED_REQUESTS)%nat ->
  activation_positions acts = Ok (Some span) -> total_bytes st + blen acts <= MAX_RETAINED_BYTES_TOTAL ->
  retained_record st id range pos acts p now = Ok st' -> (retained_requests st' <= MAX_RETAINED_REQUESTS)%nat.
Proof.
  unfold retained_requests, retained_record. intros Hs -> Htot. cbn [mbind outcome_bind]. intros [= <-]. destruct p; cbn [negb]; [|done].
  destruct (Z.ltb_spec MAX_RETAINED_BYTES_TOTAL (total_bytes st + blen acts)); [lia|].
  assert (Hput : forall segs b t, (size (inner (put_entry (evict_if_over_request_cap st id) id segs b now t)) <= MAX_RETAINED_REQUESTS)%nat).
  { intros segs b t. unfold put_entry. cbn. rewrite map_size_insert. destruct (evict_makes_room st id Hs) as [Hlt|[-> [e ->]]]; [|cbn; lia].
    destruct (_ !! id); cbn; lia. }
  destruct (negb _); [|destruct (_ || _)]; apply Hput.
Qed.
End order.

(** ** On concrete calls *)

(** The calls in a row, from an empty store. *)
Definition run_calls iter (calls : list RetainCall) : outcome RetainedActivations :=
  fold_left (fun st call => st ← st; retain_call iter st call) calls (Ok retained_new).

Lemma run_calls_after iter calls st : run_calls iter calls = Ok st -> retained_after iter calls st.
Proof.
  revert st. induction calls as [|call calls IH] using rev_ind; intros st; [intros [= <-]; constructor|].
  unfold run_calls. rewrite fold_left_app. cbn. fold (run_calls iter calls).
  destruct (run_calls iter calls) as [st0| |] eqn:Hr; cbn; try done. intros Hc. by eapply ra_call; [apply IH|].
Qed.

(** Marking has no cap: each request marked takes an entry of its own. *)
Definition many_marks : list RetainCall := map (fun i => CallMark (Z.of_nat i) (0, 4) 0) (seq 0 33).
Theorem marks_pass_the_request_cap :
  exists st, retained_after map_to_list many_marks st /\ (MAX_RETAINED_REQUESTS < retained_requests st)%nat.
Proof.
  assert (Hmany : match run_calls map_to_list many_marks with Ok st => MAX_RETAINED_REQUESTS <? retained_requests st | _ => false end%nat = true)
    by (vm_compute; reflexivity).
  destruct (run_calls map_to_list many_marks) as [st| |] eqn:Hr; [|done..].
  exists st. split; [by apply run_calls_after|by apply Nat.ltb_lt].
Qed.

(** A prompt of seven positions and one step after it. *)
Definition input (positions : Z) : bytes := le_bytes 4 2 ++ le_bytes 4 positions ++ le_bytes 4 1.
Definition prompt_and_step : list RetainCall :=
  [CallRecord 5 (4, 8) 0 (input 7) true 0; CallRecord 5 (4, 8) 7 (input 1) true 1].

Lemma no_partial_replay_witness :
  [input 7; input 1] <> [] /\
  exists earlier since, prompt_and_step = earlier ++ since /\ (forall call, call ∈ since -> ~ breaks 5 (4, 8) call) /\
    map snd (omap (recorded 5 (4, 8)) since) = [input 7; input 1] /\ continues 0 (omap (recorded 5 (4, 8)) since) 8.
Proof.
  destruct (run_calls map_to_list prompt_and_step) as [st| |] eqn:Hr; [|vm_compute in Hr; discriminate Hr..].
  apply (no_partial_replay map_to_list prompt_and_step st 5 (4, 8) 8 [input 7; input 1]).
  - apply run_calls_after. exact Hr.
  - vm_compute in Hr. injection Hr as <-. vm_compute. reflexivity.
Defined.

Lemma retention_books_witness :
  exists st, run_calls map_to_list prompt_and_step = Ok st /\ 0 <= retained_bytes st <= MAX_RETAINED_BYTES_TOTAL.
Proof.
  destruct (run_calls map_to_list prompt_and_step) as [st| |] eqn:Hr; [|vm_compute in Hr; discriminate Hr..].
  exists st. split; [reflexivity|].
  apply (retention_books map_to_list prompt_and_step st). apply run_calls_after. exact Hr.
Defined.

Lemma record_keeps_the_request_cap_witness :
  exists st', retained_record map_to_list retained_new 5 (4, 8) 0 (input 7) true 0 = Ok st' /\ (retained_requests st' <= 32)%nat.
Proof.
  destruct (retained_record map_to_list retained_new 5 (4, 8) 0 (input 7) true 0) as [st'| |] eqn:Hr; [|vm_compute in Hr; discriminate Hr..].
  exists st'. split; [reflexivity|].
  apply (record_keeps_the_request_cap map_to_list (fun _ => Permutation_refl _) retained_new 5 (4, 8) 0 (input 7) true 0 st' 7).
  - vm_compute. lia.
  - vm_compute. reflexivity.
  - vm_compute. discriminate.
  - exact Hr.
Defined.
