(* ===== verification/RangeWeights.v ===== *)
(** * What a layer range weighs ([src/inference/process_pool.rs], [split/gguf_meta.rs])

    A model's tensors are sorted once by the segment that loads them
    ([segment_tensor], [ModelWeights::of]); [segment_of] answers what layers
    [start, end) load, [layers_added_by] and [bytes_added_by] what a worker that
    already holds some ranges would add, and [excess_layers] how far a range is from
    the average layer a machine's bounds count in. *)
From Stdlib Require Import Floats.SpecFloat Ascii Sorted.
From S2P Require Import Prelude Bytes ForwardTypes Floats.
#[local] Open Scope Z_scope.

(** ** Which segment loads a tensor *)

Inductive SegmentTensor : Type :=
| Layer (idx : Z)
| Unplaced
| TokenTable
| OutputHead
| HostResident
| BesideEmbedding
| SharedTensor.

Definition PER_LAYER_TOKEN_TABLE : string := "per_layer_token_embd.weight".
Definition host_resident (name : string) : bool := String.eqb name PER_LAYER_TOKEN_TABLE.

(** [str::strip_prefix]. *)
Fixpoint strip_prefix (prefix s : string) : option string :=
  match prefix, s with
  | EmptyString, _ => Some s
  | String a prefix, String b s => if Ascii.eqb a b then strip_prefix prefix s else None
  | _, _ => None
  end.
(** The part of [s] before the first dot, if it has one ([split_once]). *)
Fixpoint before_dot (s : string) : option string :=
  match s with
  | EmptyString => None
  | String c s => if Ascii.eqb c "."%char then Some EmptyString else String c <$> before_dot s
  end.
(** [parse::<usize>]: an optional plus sign and at least one digit, no overflow. *)
Fixpoint digits (acc : Z) (s : string) : option Z :=
  match s with
  | EmptyString => Some acc
  | String c s =>
      let d := Z.of_nat (Ascii.nat_of_ascii c) - 48 in
      if (0 <=? d) && (d <=? 9) && (acc * 10 + d <=? usize_max) then digits (acc * 10 + d) s else None
  end.
Definition parse_usize (s : string) : option Z :=
  match (match s with String "+"%char s => s | _ => s end) with EmptyString => None | s => digits 0 s end.

Definition segment_tensor (name : string) : SegmentTensor :=
  match strip_prefix "blk." name with
  | Some rest => match before_dot rest ≫= parse_usize with Some n => Layer n | None => Unplaced end
  | None =>
      if String.eqb name "token_embd.weight" then TokenTable
      else if String.eqb name "output.weight" || String.eqb name "output_norm.weight" then OutputHead
      else if host_resident name then HostResident
      else match strip_prefix "per_layer_" name with Some _ => BesideEmbedding | None => SharedTensor end
  end.

(** ** A model's tensors, sorted *)

Record ModelWeights : Type := {
  mw_layers : list (Z * Z); mw_layer_sums : list Z; mw_token_table : Z; mw_output_head : Z;
  mw_host_resident : Z; mw_beside_embedding : Z; mw_shared : Z; mw_tied : bool }.

Record SegmentWeights : Type := { sw_total : Z; sw_host_resident : Z; sw_head : Z }.

(** [*by_layer.entry(idx).or_insert(0) += bytes], the map in key order. *)
Fixpoint add_layer (idx bytes : Z) (by_layer : list (Z * Z)) : list (Z * Z) :=
  match by_layer with
  | [] => [(idx, u64_saturating_add 0 bytes)]
  | (i, b) :: rest =>
      if idx <? i then (idx, u64_saturating_add 0 bytes) :: (i, b) :: rest
      else if idx =? i then (i, u64_saturating_add b bytes) :: rest
      else (i, b) :: add_layer idx bytes rest
  end.

Definition add_tensor (w : ModelWeights) (tensor : string * Z) : ModelWeights :=
  let '(name, bytes) := tensor in
  let up layers token head host beside shared := {|
    mw_layers := layers; mw_layer_sums := mw_layer_sums w; mw_token_table := token; mw_output_head := head;
    mw_host_resident := host; mw_beside_embedding := beside; mw_shared := shared; mw_tied := mw_tied w |} in
  let '(l, t, h, r, b, s) := (mw_layers w, mw_token_table w, mw_output_head w, mw_host_resident w,
                              mw_beside_embedding w, mw_shared w) in
  match segment_tensor name with
  | Layer idx => up (add_layer idx bytes l) t h r b s
  | Unplaced => w
  | TokenTable => up l (u64_saturating_add t bytes) h r b s
  | OutputHead => up l t (u64_saturating_add h bytes) r b s
  | HostResident => up l t h (u64_saturating_add r bytes) b s
  | BesideEmbedding => up l t h r (u64_saturating_add b bytes) s
  | SharedTensor => up l t h r b (u64_saturating_add s bytes)
  end.

(** [scan]: the sums of the prefixes. *)
Fixpoint sums_from (sum : Z) (layers : list (Z * Z)) : list Z :=
  match layers with
  | [] => []
  | (_, bytes) :: rest => let sum := u64_saturating_add sum bytes in sum :: sums_from sum rest
  end.

(** [ModelWeights::of]. *)
Definition weights_of (tensors : list (string * Z)) : option ModelWeights :=
  let empty := {| mw_layers := []; mw_layer_sums := []; mw_token_table := 0; mw_output_head := 0;
                  mw_host_resident := 0; mw_beside_embedding := 0; mw_shared := 0;
                  mw_tied := negb (existsb (fun t => String.eqb t.1 "output.weight") tensors) |} in
  let w := fold_left add_tensor tensors empty in
  match mw_layers w with
  | [] => None
  | _ => Some {| mw_layers := mw_layers w; mw_layer_sums := 0 :: sums_from 0 (mw_layers w);
                 mw_token_table := mw_token_table w; mw_output_head := mw_output_head w;
                 mw_host_resident := mw_host_resident w; mw_beside_embedding := mw_beside_embedding w;
                 mw_shared := mw_shared w; mw_tied := mw_tied w |}
  end.

(** [partition_point(|(idx, _)| idx < layer)]: the layers are in order. *)
Fixpoint layers_below (layer : Z) (layers : list (Z * Z)) : nat :=
  match layers with
  | (idx, _) :: rest => if idx <? layer then S (layers_below layer rest) else O
  | [] => O
  end.

Definition layer_bytes (w : ModelWeights) (start end_ : Z) : Z :=
  let at_layer l := layers_below l (mw_layers w) in
  let sum i := mw_layer_sums w !!! i in
  u64_saturating_sub (sum (at_layer (Z.max end_ start))) (sum (at_layer start)).

(** [ModelWeights::segment]. *)
Definition segment_of (w : ModelWeights) (range : Z * Z) (is_first is_last : bool) : SegmentWeights :=
  let token_table := if is_first || (is_last && mw_tied w) then mw_token_table w else 0 in
  let output_head := if is_last then mw_output_head w else 0 in
  let host := if is_first then mw_host_resident w else 0 in
  let beside := if is_first then mw_beside_embedding w else 0 in
  let head := u64_saturating_add token_table output_head in
  {| sw_total := u64_saturating_add (u64_saturating_add (u64_saturating_add (u64_saturating_add
                   (layer_bytes w range.1 range.2) (mw_shared w)) host) beside) head;
     sw_host_resident := host; sw_head := head |}.

(** ** Beside what a worker holds *)

Record HeldRange : Type := { h_range : Z * Z; h_releasable_layers : Z }.

(** [saturating_sub] on u32. *)
Definition u32_saturating_sub (a b : Z) : Z := Z.max 0 (a - b).

Definition strictly_subsumes (incoming held : Z * Z) : bool :=
  (incoming.1 <=? held.1) && (held.2 <=? incoming.2) && bool_decide (held <> incoming).

Definition layers_added_by (range : Z * Z) (held : list HeldRange) : Z :=
  if existsb (fun h => bool_decide (h_range h = range)) held then 0
  else
    let released := fold_left (fun acc h => u32_saturating_add acc (h_releasable_layers h))
                      (filter (fun h => strictly_subsumes range (h_range h) = true) held) 0 in
    u32_saturating_sub (u32_saturating_sub range.2 range.1) released.

(** The bytes a segment loads, on a card without what stays in host memory. *)
Definition loads (w : ModelWeights) (num_layers : Z) (on_card : bool) (range : Z * Z) : Z :=
  let s := segment_of w range (range.1 =? 0) (num_layers <=? range.2) in
  if on_card then u64_saturating_sub (sw_total s) (sw_host_resident s) else sw_total s.

Definition bytes_added_by (range : Z * Z) (held : list HeldRange) (w : ModelWeights) (num_layers : Z)
    (on_card : bool) : Z :=
  if existsb (fun h => bool_decide (h_range h = range)) held then 0
  else
    let released := fold_left (fun acc h =>
        let width := Z.max (u32_saturating_sub (h_range h).2 (h_range h).1) 1 in
        let share := Z.min (h_releasable_layers h) width in
        u64_saturating_add acc (u64_saturating_mul (loads w num_layers on_card (h_range h)) share / width))
      (filter (fun h => strictly_subsumes range (h_range h) = true) held) 0 in
    u64_saturating_sub (loads w num_layers on_card range) released.

(** ** Against the average layer *)

Record RangeWeights : Type := {
  rw_weights : ModelWeights; rw_num_layers : Z; rw_average_bytes : Z; rw_layer_price_bytes : Z; rw_on_card : bool }.

Definition excess_layers (r : RangeWeights) (range : Z * Z) (held : list HeldRange) : spec_float :=
  if rw_layer_price_bytes r =? 0 then F64.zero
  else
    let adds := bytes_added_by range held (rw_weights r) (rw_num_layers r) (rw_on_card r) in
    let averaged := u64_saturating_mul (layers_added_by range held) (rw_average_bytes r) in
    F64.div (SFsub F64.prec F64.emax (F64.of_Z adds) (F64.of_Z averaged)) (F64.of_Z (rw_layer_price_bytes r)).

(** [x.ceil().max(0.0) as u32] and [x.floor().max(0.0) as u32]: saturating, 0 for a NaN. *)
Definition as_u32 (x : spec_float) (rounded : Z) : Z :=
  match x with
  | S754_infinity s => if s then 0 else u32_max
  | _ => clamp 0 u32_max rounded
  end.
Definition floor64 (x : spec_float) : Z := - F64.ceil (SFopp x).

(** [RangeWeights::width_in_bound] and [ceiling_of_a_fit]. *)
Definition weighed_width (r : RangeWeights) (range : Z * Z) (held : list HeldRange) : Z :=
  let width := u32_saturating_sub range.2 range.1 in
  let x := Float.add (F64.of_Z width) (excess_layers r range held) in as_u32 x (F64.ceil x).
Definition ceiling_of_a_fit (r : RangeWeights) (from layers : Z) (held : list HeldRange) : Z :=
  let end_ := Z.min (u32_saturating_add from layers) (rw_num_layers r) in
  if end_ <=? from then 0
  else
    let x := Float.add (F64.of_Z (end_ - from)) (excess_layers r (from, end_) held) in as_u32 x (floor64 x).

(** ** The table against the tensors

    What a segment loads, read off the tensors one by one. *)
Definition loads_tensor (range : Z * Z) (is_first is_last tied : bool) (name : string) : bool :=
  match segment_tensor name with
  | Layer idx => (range.1 <=? idx) && (idx <? range.2)
  | Unplaced => false
  | TokenTable => is_first || (is_last && tied)
  | OutputHead => is_last
  | HostResident | BesideEmbedding => is_first
  | SharedTensor => true
  end.

(** The bytes of the tensors whose names satisfy [p]. *)
Definition sum_where (p : string -> bool) (tensors : list (string * Z)) : Z :=
  fold_left (fun sum t => if p t.1 then sum + t.2 else sum) tensors 0.

(** The bytes of the layers from [s] up to [e]. *)
Fixpoint sum_in (s e : Z) (layers : list (Z * Z)) : Z :=
  match layers with
  | [] => 0
  | (i, b) :: layers => (if (s <=? i) && (i <? e) then b else 0) + sum_in s e layers
  end.

Lemma sum_where_snoc p tensors t : sum_where p (tensors ++ [t]) = sum_where p tensors + (if p t.1 then t.2 else 0).
Proof. unfold sum_where. rewrite fold_left_app. cbn. destruct (p t.1); lia. Qed.

Lemma u64_add_exact a b : 0 <= a + b <= u64_max -> u64_saturating_add a b = a + b.
Proof. unfold u64_saturating_add, clamp. lia. Qed.
Lemma u64_sum_exact a b c d e f :
  0 <= a -> 0 <= b -> 0 <= c -> 0 <= d -> 0 <= e -> 0 <= f -> a + b + c + d + (e + f) <= u64_max ->
  u64_saturating_add (u64_saturating_add (u64_saturating_add (u64_saturating_add a b) c) d) (u64_saturating_add e f) =
  a + b + c + d + (e + f).
Proof.
  intros. rewrite (u64_add_exact e f), (u64_add_exact a b) by lia. rewrite (u64_add_exact (a + b) c) by lia.
  rewrite (u64_add_exact (a + b + c) d) by lia. apply u64_add_exact. lia.
Qed.
Lemma u64_add_nonneg a b : 0 <= u64_saturating_add a b.
Proof. unfold u64_saturating_add, clamp, u64_max. lia. Qed.

Definition all_nonneg {A} (l : list (A * Z)) : Prop := forall x, x ∈ l -> 0 <= x.2.

Lemma all_nonneg_snoc {A} (l : list (A * Z)) x : all_nonneg (l ++ [x]) -> all_nonneg l /\ 0 <= x.2.
Proof. intros Hl. split; [intros y ?|]; apply Hl, elem_of_app; [by left|right; by apply list_elem_of_singleton]. Qed.

Lemma sum_where_mono p q tensors :
  all_nonneg tensors -> (forall name, p name = true -> q name = true) -> 0 <= sum_where p tensors <= sum_where q tensors.
Proof.
  induction tensors as [|t tensors IH] using rev_ind; intros Hn Hpq; [done|]. apply all_nonneg_snoc in Hn as [Hn Ht].
  rewrite !sum_where_snoc. specialize (IH Hn Hpq). specialize (Hpq t.1). destruct (p t.1), (q t.1); try lia; by specialize (Hpq eq_refl).
Qed.

Lemma sum_in_nonneg s e layers : all_nonneg layers -> 0 <= sum_in s e layers.
Proof.
  induction layers as [|[i b] layers IH]; cbn; [done|]. intros Hn. assert (0 <= b) by (apply (Hn (i, b)); left).
  assert (0 <= sum_in s e layers) by (apply IH; intros x ?; apply Hn; by right). case_match; lia.
Qed.

Lemma add_layer_sum s e idx bytes layers :
  all_nonneg layers -> 0 <= bytes -> (forall s e, sum_in s e layers + bytes <= u64_max) ->
  sum_in s e (add_layer idx bytes layers) = sum_in s e layers + (if (s <=? idx) && (idx <? e) then bytes else 0).
Proof.
  intros Hn Hb. induction layers as [|[i b] layers IH]; intros Hmax.
  - cbn. specialize (Hmax 0 0). cbn in Hmax. rewrite u64_add_exact by lia. case_match; lia.
  - cbn [add_layer]. pose proof (Hmax i (i + 1)) as Hi. cbn in Hi. rewrite Z.leb_refl, (proj2 (Z.ltb_lt i (i + 1))) in Hi by lia. cbn in Hi.
    assert (0 <= b) by (apply (Hn (i, b)); left). assert (Hn' : all_nonneg layers) by (intros x ?; apply Hn; by right).
    pose proof (sum_in_nonneg i (i + 1) layers Hn').
    destruct (Z.ltb_spec idx i); [|destruct (Z.eqb_spec idx i) as [->|]]; cbn [sum_in].
    + rewrite u64_add_exact by lia. repeat case_match; lia.
    + rewrite u64_add_exact by lia. repeat case_match; lia.
    + rewrite IH; [lia|done|]. intros s' e'. specialize (Hmax s' e'). cbn in Hmax. case_match; lia.
Qed.

Lemma add_layer_keys idx bytes layers k : k ∈ map fst (add_layer idx bytes layers) <-> k = idx \/ k ∈ map fst layers.
Proof.
  induction layers as [|[i b] layers IH]; cbn; [set_solver|].
  destruct (idx <? i); [|destruct (Z.eqb_spec idx i) as [->|]]; cbn; set_solver.
Qed.

Lemma add_layer_sorted idx bytes layers :
  StronglySorted Z.lt (map fst layers) -> StronglySorted Z.lt (map fst (add_layer idx bytes layers)).
Proof.
  induction layers as [|[i b] layers IH]; cbn; [repeat constructor|]. intros [Hs Hi]%StronglySorted_inv.
  rewrite list.Forall_forall in Hi. destruct (Z.ltb_spec idx i); [|destruct (Z.eqb_spec idx i) as [->|]]; cbn.
  - constructor; [by constructor; [|apply list.Forall_forall]|]. apply list.Forall_forall.
    intros k [->|Hk%Hi]%elem_of_cons; lia.
  - by constructor; [|apply list.Forall_forall].
  - constructor; [auto|]. apply list.Forall_forall. intros k [->|Hk%Hi]%add_layer_keys; lia.
Qed.

Lemma add_layer_nonneg idx bytes layers : 0 <= bytes -> all_nonneg layers -> all_nonneg (add_layer idx bytes layers).
Proof.
  intros Hb. induction layers as [|[i b] layers IH]; cbn; intros Hn.
  - intros x ->%list_elem_of_singleton. apply u64_add_nonneg.
  - assert (0 <= b) by (apply (Hn (i, b)); left). assert (Hn' : all_nonneg layers) by (intros x ?; apply Hn; by right).
    repeat case_match; intros x [->|Hx]%elem_of_cons; cbn; auto using u64_add_nonneg; by apply IH.
Qed.

#[global] Instance SegmentTensor_eq_dec : EqDecision SegmentTensor.
Proof. solve_decision. Defined.

Definition in_layers (s e : Z) (name : string) : bool :=
  match segment_tensor name with Layer i => (s <=? i) && (i <? e) | _ => false end.
Definition of_kind (k : SegmentTensor) (name : string) : bool := bool_decide (segment_tensor name = k).

(** The table after some tensors: sorted layers, and every sum that of its tensors. *)
Definition tallied (tensors : list (string * Z)) (w : ModelWeights) : Prop :=
  all_nonneg (mw_layers w) /\ StronglySorted Z.lt (map fst (mw_layers w)) /\
  (forall s e, sum_in s e (mw_layers w) = sum_where (in_layers s e) tensors) /\
  mw_token_table w = sum_where (of_kind TokenTable) tensors /\ mw_output_head w = sum_where (of_kind OutputHead) tensors /\
  mw_host_resident w = sum_where (of_kind HostResident) tensors /\
  mw_beside_embedding w = sum_where (of_kind BesideEmbedding) tensors /\ mw_shared w = sum_where (of_kind SharedTensor) tensors.

Lemma sum_where_bound p tensors t :
  all_nonneg (tensors ++ [t]) -> sum_where (fun _ => true) (tensors ++ [t]) <= u64_max ->
  0 <= sum_where p tensors + t.2 <= u64_max.
Proof.
  rewrite sum_where_snoc. intros [Hn Ht]%all_nonneg_snoc Hmax.
  pose proof (sum_where_mono p (fun _ => true) tensors Hn (fun _ _ => eq_refl)). cbn in *. lia.
Qed.

Lemma add_tensor_tallied tensors t w :
  all_nonneg (tensors ++ [t]) -> sum_where (fun _ => true) (tensors ++ [t]) <= u64_max ->
  tallied tensors w -> tallied (tensors ++ [t]) (add_tensor w t).
Proof.
  intros Hn Hmax (Hpos & Hs & Hl & Htok & Hhead & Hhost & Hbes & Hsh). pose proof Hn as [_ Ht]%all_nonneg_snoc.
  assert (Hb : forall p, 0 <= sum_where p tensors + t.2 <= u64_max) by (intros p; by apply sum_where_bound).
  destruct t as [name bytes]. cbn in Ht, Hb.
  assert (Hkind : forall k, sum_where (of_kind k) (tensors ++ [(name, bytes)]) =
    sum_where (of_kind k) tensors + (if bool_decide (segment_tensor name = k) then bytes else 0)) by (intros; apply sum_where_snoc).
  assert (Hin : forall s e, sum_where (in_layers s e) (tensors ++ [(name, bytes)]) = sum_where (in_layers s e) tensors +
    match segment_tensor name with Layer i => if (s <=? i) && (i <? e) then bytes else 0 | _ => 0 end).
  { intros s e. rewrite sum_where_snoc. unfold in_layers at 2. cbn. by destruct (segment_tensor name). }
  unfold tallied, add_tensor. rewrite !Hkind. setoid_rewrite Hin. clear Hkind Hin.
  destruct (segment_tensor name) as [idx| | | | | |]; cbn;
    (split_and!; [try done; by apply add_layer_nonneg|try done; by apply add_layer_sorted|intros s e|..]);
    rewrite ?add_layer_sum, ?Hl, ?u64_add_exact; rewrite ?Htok, ?Hhead, ?Hhost, ?Hbes, ?Hsh; auto; try lia;
    repeat case_bool_decide; try done; try lia.
  intros s' e'. rewrite Hl. apply Hb.
Qed.

Lemma tensors_tallied tensors w0 :
  all_nonneg tensors -> sum_where (fun _ => true) tensors <= u64_max -> tallied [] w0 ->
  tallied tensors (fold_left add_tensor tensors w0).
Proof.
  intros Hn Hmax H0. induction tensors as [|t tensors IH] using rev_ind; [done|].
  pose proof Hn as [Hn' Ht]%all_nonneg_snoc. rewrite fold_left_app. cbn [fold_left]. apply add_tensor_tallied; [done..|].
  apply IH; [done|]. rewrite sum_where_snoc in Hmax. lia.
Qed.

(** *** Prefix sums *)

(** The bytes of the layers below [x]. *)
Fixpoint below (x : Z) (layers : list (Z * Z)) : Z :=
  match layers with [] => 0 | (i, b) :: layers => (if i <? x then b else 0) + below x layers end.

Lemma below_is_sum layers : exists lo, forall s x, s <= lo -> below x layers = sum_in s x layers.
Proof.
  induction layers as [|[i b] layers [lo IH]]; [by exists 0|]. exists (Z.min lo i). intros s x Hs. cbn.
  rewrite (IH s x) by lia. rewrite (proj2 (Z.leb_le s i)) by lia. done.
Qed.

Lemma below_minus s e layers : s <= e -> below e layers - below s layers = sum_in s e layers.
Proof. intros. induction layers as [|[i b] layers IH]; cbn; [done|]. repeat case_match; lia. Qed.

Lemma below_mono x y layers : all_nonneg layers -> x <= y -> 0 <= below x layers <= below y layers.
Proof.
  intros Hn Hxy. induction layers as [|[i b] layers IH]; cbn; [done|]. assert (0 <= b) by (apply (Hn (i, b)); left).
  assert (0 <= below x layers <= below y layers) by (apply IH; intros z ?; apply Hn; by right). repeat case_match; lia.
Qed.

Lemma below_none x layers : (forall i, i ∈ map fst layers -> x <= i) -> below x layers = 0.
Proof.
  induction layers as [|[i b] layers IH]; cbn; intros Hi; [done|]. rewrite IH by set_solver.
  specialize (Hi i ltac:(left)). case_match; lia.
Qed.

(** The table's prefix sum at a layer. *)
Lemma prefix_sum x layers acc :
  all_nonneg layers -> 0 <= acc -> StronglySorted Z.lt (map fst layers) -> (forall y, acc + below y layers <= u64_max) ->
  (acc :: sums_from acc layers) !!! layers_below x layers = acc + below x layers.
Proof.
  revert acc. induction layers as [|[i b] layers IH]; intros acc Hn Hacc Hs Hmax; [cbn; lia|].
  apply StronglySorted_inv in Hs as [Hs Hi]. rewrite list.Forall_forall in Hi. cbn [fst] in Hi.
  assert (0 <= b) by (apply (Hn (i, b)); left). assert (Hn' : all_nonneg layers) by (intros z ?; apply Hn; by right).
  assert (Hmax' : forall y, acc + b + below y layers <= u64_max).
  { intros y. pose proof (below_mono y (Z.max y (i + 1)) layers Hn'). specialize (Hmax (Z.max y (i + 1))). cbn in Hmax.
    rewrite (proj2 (Z.ltb_lt i (Z.max y (i + 1)))) in Hmax by lia. lia. }
  cbn [layers_below sums_from below]. destruct (Z.ltb_spec i x).
  - rewrite u64_add_exact by (specialize (Hmax' i); pose proof (below_mono i i layers Hn'); lia).
    change ((acc :: acc + b :: sums_from (acc + b) layers) !!! S (layers_below x layers))
      with ((acc + b :: sums_from (acc + b) layers) !!! layers_below x layers).
    rewrite IH by (try done; lia). lia.
  - rewrite below_none by (intros k Hk; specialize (Hi k Hk); lia). cbn. lia.
Qed.

Lemma layer_bytes_sum w s e :
  all_nonneg (mw_layers w) -> StronglySorted Z.lt (map fst (mw_layers w)) ->
  mw_layer_sums w = 0 :: sums_from 0 (mw_layers w) -> (forall s e, sum_in s e (mw_layers w) <= u64_max) ->
  layer_bytes w s e = sum_in s (Z.max e s) (mw_layers w).
Proof.
  intros Hn Hs Hsums Hmax. unfold layer_bytes. cbn zeta. rewrite Hsums.
  assert (Hb : forall y, 0 + below y (mw_layers w) <= u64_max).
  { intros y. destruct (below_is_sum (mw_layers w)) as [lo Hlo]. rewrite (Hlo lo y) by lia. specialize (Hmax lo y). lia. }
  rewrite !prefix_sum by done. rewrite <- below_minus by lia.
  pose proof (below_mono s (Z.max e s) (mw_layers w) Hn). specialize (Hb (Z.max e s)). pose proof (below_mono s s (mw_layers w) Hn). ints.
Qed.

(** *** A segment's weight *)

Lemma sum_where_split r f l tied tensors :
  sum_where (loads_tensor r f l tied) tensors =
  sum_where (in_layers r.1 r.2) tensors + sum_where (of_kind SharedTensor) tensors +
  (if f then sum_where (of_kind HostResident) tensors else 0) + (if f then sum_where (of_kind BesideEmbedding) tensors else 0) +
  ((if f || l && tied then sum_where (of_kind TokenTable) tensors else 0) +
   (if l then sum_where (of_kind OutputHead) tensors else 0)).
Proof.
  induction tensors as [|t tensors IH] using rev_ind; [by destruct f, l, tied|]. rewrite !sum_where_snoc, IH.
  unfold loads_tensor, in_layers, of_kind. cbn beta.
  destruct (segment_tensor t.1); repeat case_bool_decide; try done; destruct f, l, tied; cbn; lia.
Qed.

Lemma sum_in_empty s e layers : e <= s -> sum_in s e layers = 0.
Proof. intros. induction layers as [|[i b] layers IH]; cbn; [done|]. case_match; lia. Qed.

(** The planning table answers for any segment what adding up its tensors would:
    prefix sums over the layers plus what the ends of the model load beside them. *)
Theorem segment_weighs_its_tensors tensors w range is_first is_last :
  all_nonneg tensors -> sum_where (fun _ => true) tensors <= u64_max -> weights_of tensors = Some w ->
  sw_total (segment_of w range is_first is_last) =
  sum_where (loads_tensor range is_first is_last (mw_tied w)) tensors.
Proof.
  intros Hn Hmax Hw. unfold weights_of in Hw. cbn zeta in Hw.
  set (w0 := {| mw_layers := [] |}) in Hw.
  assert (H0 : tallied [] w0) by (unfold tallied; cbn; split_and!; try done; [by intros x ?%elem_of_nil|constructor]).
  pose proof (tensors_tallied tensors w0 Hn Hmax H0) as (Hpos & Hs & Hl & Htok & Hhead & Hhost & Hbes & Hsh).
  assert (Htied : mw_tied w = mw_tied (fold_left add_tensor tensors w0)) by (destruct (mw_layers _) in Hw; [done|by injection Hw as <-]).
  pose proof (sum_where_mono (loads_tensor range is_first is_last (mw_tied w)) (fun _ => true) tensors Hn (fun _ _ => eq_refl)) as Htotal.
  assert (Hle : forall p, 0 <= sum_where p tensors) by (intros p; pose proof (sum_where_mono p p tensors Hn (fun _ H => H)); lia).
  rewrite sum_where_split in Htotal |- *.
  assert (Hlay : layer_bytes w range.1 range.2 = sum_where (in_layers range.1 range.2) tensors).
  { destruct (mw_layers (fold_left _ _ _)) as [|x layers] eqn:Hcase; [done|]. injection Hw as <-.
    rewrite layer_bytes_sum; cbn [mw_layers mw_layer_sums]; rewrite ?Hcase; try done.
    - destruct (Z.max_spec range.2 range.1) as [[? ->]|[? ->]]; [|apply Hl].
      rewrite sum_in_empty by lia. rewrite <- Hl. by rewrite sum_in_empty by lia.
    - intros s e. rewrite Hl. pose proof (sum_where_mono (in_layers s e) (fun _ => true) tensors Hn (fun _ _ => eq_refl)). lia. }
  unfold segment_of. cbn [sw_total]. rewrite Hlay.
  destruct (mw_layers (fold_left _ _ _)) as [|x layers] eqn:Hcase; [done|]. injection Hw as <-.
  cbn [mw_token_table mw_output_head mw_host_resident mw_beside_embedding mw_shared mw_tied] in *.
  rewrite Htok, Hhead, Hhost, Hbes, Hsh.
  assert (Hif : forall (b : bool) p, 0 <= (if b then sum_where p tensors else 0)) by (intros [] p; [apply Hle|done]).
  apply u64_sum_exact; auto; lia.
Qed.

(** Two layers, a token table that is also the output head, and a shared tensor. *)
Definition small_model : list (string * Z) :=
  [("blk.0.attn_q.weight", 10); ("blk.1.attn_q.weight", 20); ("token_embd.weight", 5); ("rope_freqs.weight", 1)]%string.
Lemma segment_weighs_its_tensors_witness :
  exists w, weights_of small_model = Some w /\ sw_total (segment_of w (1, 2) false true) = 26.
Proof.
  destruct (weights_of small_model) as [w|] eqn:Hw; [|discriminate Hw]. exists w. split; [reflexivity|].
  rewrite (segment_weighs_its_tensors small_model w (1, 2) false true).
  - injection Hw as <-. reflexivity.
  - intros x Hx. unfold small_model in Hx. rewrite !elem_of_cons, elem_of_nil in Hx. destruct_or? Hx; subst; cbn; lia || done.
  - cbn. unfold u64_max. lia.
  - exact Hw.
Defined.
