(* ===== verification/Candidate.v ===== *)
(** * Route candidates ([NodeCandidate] of [src/inference/scheduler/mod.rs])

    What the scheduler knows of one machine that could run part of a model: the
    layers it holds, how fast it is, what memory it has, and the figures read off
    them - its price per layer, the passes a request takes, and what a layer range
    costs its memory bound.  f32 and f64 figures are [SpecFloat] values; layer
    numbers and counts (u32) are Z, and a subtraction the source writes without
    [saturating_sub] is one whose operands are in order wherever it is called. *)
From Stdlib Require Import Floats.SpecFloat.
From S2P Require Import Prelude Bytes ForwardTypes Floats RangeWeights KvSessions.
#[local] Open Scope Z_scope.

Inductive ReachTier : Type := Local | DirectMeasured | DirectUnmeasured | RelayedMeasured | RelayedUnmeasured.

Record NetworkCoord : Type := { co_x : spec_float; co_y : spec_float; co_height : spec_float; co_error : spec_float }.

Definition distance_ms (a b : NetworkCoord) : spec_float :=
  let dx := F32v.sub (co_x a) (co_x b) in
  let dy := F32v.sub (co_y a) (co_y b) in
  F32v.add (F32v.add (F32v.sqrt (F32v.add (F32v.mul dx dx) (F32v.mul dy dy))) (co_height a)) (co_height b).

Record RingFacts : Type := {
  request_may_be_led : bool; coord : option NetworkCoord; leads_splits : bool; chains_forwards : bool }.

Record PublishedRoom : Type := {
  new_layers : option spec_float; new_layers_at_face_value : option spec_float; reused_share : spec_float }.

Record NodeCandidate : Type := {
  nc_node_id : NodeId; nc_shard_id : ShardId; nc_available_ranges : list (Z * Z); nc_reach : ReachTier;
  nc_latency_ms : Z; nc_load : spec_float; nc_trust_score : spec_float; nc_can_be_first : bool; nc_can_be_last : bool;
  nc_region_score : spec_float; nc_est_tokens_per_sec : spec_float; nc_layer_work : spec_float;
  nc_stated_ms_per_layer : option spec_float; nc_observed_latency_ms_per_layer : option spec_float;
  nc_observed_delegated_ms_per_layer : option spec_float; nc_observed_fixed_ms_per_visit : option spec_float;
  nc_expected_attempts : spec_float; nc_goodput_bytes_per_sec : option Z; nc_is_pool_member : bool;
  nc_gpu_vram_available_mb : option Z; nc_max_hostable_layers : option Z;
  nc_max_hostable_layers_at_face_value : option Z; nc_max_hostable_layers_at_ceiling : option Z;
  nc_observed_prefill_ms_per_layer_byte : option spec_float; nc_has_gpu : bool; nc_held_ranges : list HeldRange;
  nc_published_room : option PublishedRoom; nc_cached_prefix_tokens : Z; nc_split_openings : list ((Z * Z) * Z);
  nc_cold_load_ms_per_layer : spec_float; nc_reply_tokens_at_most : option Z; nc_reply_tokens_expected : option Z;
  nc_split_tokens_per_round : option spec_float; nc_fresh_run_layers : option Z; nc_card_layers : option Z;
  nc_processor_tokens_per_sec : spec_float; nc_prompt_memory_refused : bool; nc_prompt_fit_counts_caches : bool;
  nc_memory_refused_this_request : bool; nc_ring : RingFacts; nc_range_weights : option RangeWeights }.

(** ** Prices *)

Definition BASELINE_LAYER_COUNT : spec_float := F32v.of_Z 32.
Definition UNKNOWN_COMPUTE_MS : spec_float := F32v.of_Z 25.
Definition ASSUMED_FORWARD_PASSES : spec_float := F32v.of_Z 64.
Definition UNMEASURED_LOAD_MS_PER_GIB : Z := 10000.
Definition STATED_DECODE_US_PER_LAYER_MAX : Z := 60000000.
Definition DELEGATE_MIN_TRUST : spec_float := F32v.lit 1 (-1).

Definition cold_load_ms_per_layer (ms_per_gib : option Z) (bytes_per_layer : Z) : spec_float :=
  let rate := F64.of_Z (default UNMEASURED_LOAD_MS_PER_GIB ms_per_gib) in
  F32v.of_f64 (F64.div (F64.mul rate (F64.of_Z bytes_per_layer)) (F64.of_Z 1073741824)).

Definition stated_decode_ms_per_layer (us_per_layer : option Z) : option spec_float :=
  match us_per_layer with
  | Some us => if 0 <? us then Some (F32v.div (F32v.of_Z (Z.min us STATED_DECODE_US_PER_LAYER_MAX)) (F32v.of_Z 1000))
               else None
  | None => None
  end.

Definition stated_layer_ms (tokens_per_sec_7b layer_work : spec_float) : spec_float :=
  let reference_layer_ms :=
    if F32v.lt F32v.zero tokens_per_sec_7b
    then F32v.div (F32v.div (F32v.of_Z 1000) tokens_per_sec_7b) BASELINE_LAYER_COUNT
    else UNKNOWN_COMPUTE_MS in
  F32v.mul reference_layer_ms layer_work.

Definition floor_of_timing (c : NodeCandidate) (stated_speed : spec_float) : spec_float :=
  match nc_stated_ms_per_layer c with Some timed => F32v.max timed stated_speed | None => stated_speed end.
Definition prior_ms_per_layer (c : NodeCandidate) : spec_float :=
  floor_of_timing c (stated_layer_ms (nc_est_tokens_per_sec c) (nc_layer_work c)).
Definition processor_prior_ms_per_layer (c : NodeCandidate) : spec_float :=
  floor_of_timing c (stated_layer_ms (nc_processor_tokens_per_sec c) (nc_layer_work c)).

Definition layers_by_device (c : NodeCandidate) (range : Z * Z) (ahead : Z) : Z * Z :=
  let width := u32_saturating_sub range.2 range.1 in
  match nc_card_layers c with
  | Some card => let on_card := Z.min width (u32_saturating_sub card ahead) in (on_card, width - on_card)
  | None => (width, 0)
  end.

Definition prior_ms_per_layer_over (c : NodeCandidate) (range : Z * Z) (ahead : Z) : spec_float :=
  let '(first, beside) := layers_by_device c range ahead in
  if beside =? 0 then prior_ms_per_layer c
  else F32v.div (F32v.add (F32v.mul (F32v.of_Z first) (prior_ms_per_layer c))
                          (F32v.mul (F32v.of_Z beside) (processor_prior_ms_per_layer c)))
                (F32v.of_Z (first + beside)).

Definition layers_it_would_add (c : NodeCandidate) (range : Z * Z) : Z := layers_added_by range (nc_held_ranges c).
Definition cold_load_ms (c : NodeCandidate) (range : Z * Z) : spec_float :=
  F32v.mul (nc_cold_load_ms_per_layer c) (F32v.of_Z (layers_it_would_add c range)).

Definition forward_passes (c : NodeCandidate) : spec_float :=
  let expected := match nc_reply_tokens_expected c with
                  | Some n => F32v.of_Z (Z.max n 1) | None => ASSUMED_FORWARD_PASSES end in
  match nc_reply_tokens_at_most c with Some most => F32v.min (F32v.of_Z (Z.max most 1)) expected | None => expected end.

Definition whole_model (range : Z * Z) (num_layers : Z) : bool := (range.1 =? 0) && (range.2 =? num_layers).

Definition rounds_entered (c : NodeCandidate) (range : Z * Z) (num_layers : Z) : spec_float :=
  let passes := forward_passes c in
  match nc_split_tokens_per_round c with
  | Some per_round =>
      if negb (whole_model range num_layers) && F32v.lt (F32v.of_Z 1) per_round
      then F32v.max (F32v.div passes per_round) (F32v.of_Z 1) else passes
  | None => passes
  end.

Definition prompt_tokens_held (c : NodeCandidate) (range : Z * Z) (num_layers : Z) : Z :=
  if whole_model range num_layers then nc_cached_prefix_tokens c
  else match List.find (fun '(held, _) => bool_decide (held = range)) (nc_split_openings c) with
       | Some (_, tokens) => tokens | None => 0 end.

(** ** Memory bounds *)

Definition clamp_to_ceiling (figure ceiling : option Z) : option Z :=
  match figure, ceiling with
  | Some f, Some c => Some (Z.min f c)
  | Some f, None => Some f
  | None, c => c
  end.
Definition clamp_room_to_ceiling (room : option spec_float) (ceiling : option Z) : option spec_float :=
  match room, F64.of_Z <$> ceiling with
  | Some r, Some c => Some (F32v.min r c)
  | Some r, None => Some r
  | None, c => c
  end.
Definition within_ceiling (c : NodeCandidate) (figure : option Z) : option Z :=
  clamp_to_ceiling figure (nc_max_hostable_layers_at_ceiling c).

Definition layers_charged (c : NodeCandidate) (range : Z * Z) : Z :=
  if nc_prompt_memory_refused c then u32_saturating_sub range.2 range.1 else layers_it_would_add c range.

Definition charged_at_least_its_width (c : NodeCandidate) : bool :=
  nc_prompt_memory_refused c && nc_prompt_fit_counts_caches c.

Definition capacity_charge (c : NodeCandidate) (range : Z * Z) : spec_float :=
  let charged := layers_charged c range in
  let base := match nc_published_room c with
    | Some room =>
        let reused := u32_saturating_sub (u32_saturating_sub range.2 range.1) charged in
        Float.add (F64.of_Z charged) (F64.mul (F64.of_Z reused) (reused_share room))
    | None => F64.of_Z charged
    end in
  let excess := match nc_range_weights c with Some w => excess_layers w range (nc_held_ranges c) | None => F64.zero end in
  if charged_at_least_its_width c then Float.add base (F32v.max excess F64.zero) else Float.add base excess.

Definition width_in_bound (c : NodeCandidate) (range : Z * Z) : Z :=
  let width := u32_saturating_sub range.2 range.1 in
  match nc_range_weights c with
  | Some w =>
      let weighed := weighed_width w range (nc_held_ranges c) in
      if charged_at_least_its_width c then Z.max weighed width else weighed
  | None => width
  end.

Definition charge_in_bound (c : NodeCandidate) (range : Z * Z) (local_node_id : NodeId) : Z :=
  if bool_decide (nc_node_id c = local_node_id) && negb (nc_prompt_memory_refused c)
  then layers_charged c range else width_in_bound c range.

(** [(lo..hi).find(ok)] and [(lo + 1..=hi).rev().find(ok)]. *)
Fixpoint find_up (fuel : nat) (lo : Z) (ok : Z -> bool) : option Z :=
  match fuel with O => None | S fuel => if ok lo then Some lo else find_up fuel (lo + 1) ok end.
Fixpoint find_down (fuel : nat) (hi : Z) (ok : Z -> bool) : option Z :=
  match fuel with O => None | S fuel => if ok hi then Some hi else find_down fuel (hi - 1) ok end.

Definition furthest_end_in_bound (c : NodeCandidate) (start end_ cap : Z) : Z :=
  default start (find_down (Z.to_nat (end_ - start)) end_ (fun e => width_in_bound c (start, e) <=? cap)).

Definition trusted_with_the_plaintext_prompt (c : NodeCandidate) (local_node_id : NodeId) : bool :=
  bool_decide (nc_node_id c = local_node_id) || F32v.le DELEGATE_MIN_TRUST (nc_trust_score c).

(** ** Whose bound a search honours *)

Inductive CapacityBound : Type := Everyone | PeersAtFaceValue | PeersAtCeiling | LocalUnbounded.

Definition binds_local (b : CapacityBound) : bool := match b with LocalUnbounded => false | _ => true end.

Definition peer_cap (b : CapacityBound) (c : NodeCandidate) : option spec_float :=
  let figure := match b, nc_published_room c with
    | Everyone, Some room => new_layers room
    | PeersAtFaceValue, Some room => new_layers_at_face_value room
    | Everyone, None => F64.of_Z <$> nc_max_hostable_layers c
    | PeersAtFaceValue, None => F64.of_Z <$> nc_max_hostable_layers_at_face_value c
    | (PeersAtCeiling | LocalUnbounded), _ => None
    end in
  clamp_room_to_ceiling figure (nc_max_hostable_layers_at_ceiling c).
