(* ===== verification/Allocator.v ===== *)
(** * The layer allocator ([src/inference/scheduler/parallax_allocator.rs])

    Given what each peer could host, propose [k] pipelines that each cover the model:
    peers are taken fastest first, each gives what it has left, and the [k] with the
    best throughput score wins.  Scores and latencies are f32; the sort is a stable
    insertion by the code's comparator. *)
From Stdlib Require Import Floats.SpecFloat.
From S2P Require Import Prelude Bytes ForwardTypes Floats KvSessions Candidate.
#[local] Open Scope Z_scope.

Record PeerCapacity : Type := {
  pc_node_id : NodeId; pc_layer_capacity : Z; pc_tokens_per_sec : spec_float; pc_latency_ms : Z }.
Record AllocationSegment : Type := { al_node_id : NodeId; al_layer_range : Z * Z }.
Record PipelineAllocation : Type := { pa_segments : list AllocationSegment; pa_est_pipeline_latency_ms : spec_float }.
Record AllocationPlan : Type := { ap_pipelines : list PipelineAllocation; ap_throughput_score : spec_float }.

(** The comparator says [a] does not go after [b]. *)
Definition goes_first (a b : PeerCapacity) : bool :=
  match SFcompare (pc_tokens_per_sec b) (pc_tokens_per_sec a) with
  | Some Lt => true
  | Some Gt => false
  | _ => pc_latency_ms a <=? pc_latency_ms b
  end.
Fixpoint insert_peer (p : PeerCapacity) (l : list PeerCapacity) : list PeerCapacity :=
  match l with [] => [p] | q :: l' => if goes_first p q then p :: l else q :: insert_peer p l' end.
Definition fastest_first (l : list PeerCapacity) : list PeerCapacity := fold_right insert_peer [] l.

Definition total_capacity (peers : list PeerCapacity) : Z := fold_right (fun p sum => pc_layer_capacity p + sum) 0 peers.

Definition segment_ms (p : PeerCapacity) (layers : Z) : spec_float :=
  let net_ms := F32v.mul (F32v.of_Z 2) (F32v.of_Z (pc_latency_ms p)) in
  let compute_ms :=
    if F32v.lt F32v.zero (pc_tokens_per_sec p)
    then F32v.mul (F32v.div (F32v.of_Z 1000) (pc_tokens_per_sec p)) (F32v.div (F32v.of_Z layers) BASELINE_LAYER_COUNT)
    else UNKNOWN_COMPUTE_MS in
  F32v.add net_ms compute_ms.

(** What a peer has left. *)
Definition left_of (remaining : gmap NodeId Z) (id : NodeId) : Z := default 0 (remaining !! id).

(** One pipeline: the peers in order, from layer [cursor] on. *)
Fixpoint fill (num_layers : Z) (ordered : list PeerCapacity) (remaining : gmap NodeId Z) (cursor : Z) (est : spec_float)
  : gmap NodeId Z * Z * list AllocationSegment * spec_float :=
  match ordered with
  | [] => (remaining, cursor, [], est)
  | p :: ordered =>
      if num_layers <=? cursor then (remaining, cursor, [], est)
      else
        let avail := left_of remaining (pc_node_id p) in
        if avail =? 0 then fill num_layers ordered remaining cursor est
        else
          let take := Z.min avail (num_layers - cursor) in
          if take =? 0 then fill num_layers ordered remaining cursor est
          else
            let '(remaining, cursor', rest, est) :=
              fill num_layers ordered (<[pc_node_id p := avail - take]> remaining) (cursor + take) (F32v.add est (segment_ms p take)) in
            (remaining, cursor', {| al_node_id := pc_node_id p; al_layer_range := (cursor, cursor + take) |} :: rest, est)
  end.

Fixpoint fill_pipelines (k : nat) (num_layers : Z) (ordered : list PeerCapacity) (remaining : gmap NodeId Z)
  : option (list PipelineAllocation) :=
  match k with
  | O => Some []
  | S k =>
      let '(remaining, cursor, segments, est) := fill num_layers ordered remaining 0 F32v.zero in
      if cursor <? num_layers then None
      else
        rest ← fill_pipelines k num_layers ordered remaining;
        Some ({| pa_segments := segments; pa_est_pipeline_latency_ms := est |} :: rest)
  end.

Definition throughput (k : Z) (pipelines : list PipelineAllocation) : spec_float :=
  let stages := fold_left (fun sum p => F32v.add sum (F32v.of_Z (Z.of_nat (length (pa_segments p))))) pipelines F32v.zero in
  let avg_stages := F32v.div stages (F32v.of_Z (Z.of_nat (length pipelines))) in
  if F32v.lt F32v.zero avg_stages then F32v.div (F32v.mul (F32v.of_Z k) (F32v.of_Z k)) avg_stages else F32v.zero.

Definition pack_k_pipelines (peers : list PeerCapacity) (num_layers k : Z) : option AllocationPlan :=
  if k =? 0 then None
  else
    let ordered := fastest_first (List.filter (fun p => 0 <? pc_layer_capacity p) peers) in
    if bool_decide (ordered = []) then None
    else if total_capacity ordered <? k * num_layers then None
    else
      let remaining := fold_left (fun m p => <[pc_node_id p := pc_layer_capacity p]> m) ordered ∅ in
      pipelines ← fill_pipelines (Z.to_nat k) num_layers ordered remaining;
      Some {| ap_pipelines := pipelines; ap_throughput_score := throughput k pipelines |}.

(** The better of the best so far and the plan for [k]. *)
Definition better (peers : list PeerCapacity) (num_layers : Z) (best : option AllocationPlan) (k : Z) : option AllocationPlan :=
  match pack_k_pipelines peers num_layers k with
  | Some plan =>
      match best with
      | Some cur => if F32v.lt (ap_throughput_score cur) (ap_throughput_score plan) then Some plan else best
      | None => Some plan
      end
  | None => best
  end.

Definition recommend_allocation (peers : list PeerCapacity) (num_layers max_pipelines : Z) : option AllocationPlan :=
  if (num_layers =? 0) || bool_decide (peers = []) then None
  else
    let total := total_capacity peers in
    if total <? num_layers then None
    else
      let feasible_k := Z.min (total / Z.max num_layers 1) u32_max in
      let max_k := Z.max (Z.min max_pipelines feasible_k) 1 in
      fold_left (better peers num_layers) (map Z.of_nat (seq 1 (Z.to_nat max_k))) None.

(** ** What a plan hands out *)

(** Ranges that cover the layers from [a] to [b], in order, none empty. *)
Fixpoint spans (a b : Z) (segments : list AllocationSegment) : Prop :=
  match segments with
  | [] => a = b
  | s :: segments => (al_layer_range s).1 = a /\ a < (al_layer_range s).2 /\ spans (al_layer_range s).2 b segments
  end.

(** The layers a peer is given. *)
Definition load (id : NodeId) (segments : list AllocationSegment) : Z :=
  fold_right (fun s sum => (if decide (al_node_id s = id) then (al_layer_range s).2 - (al_layer_range s).1 else 0) + sum) 0 segments.
Definition plan_load (id : NodeId) (pipelines : list PipelineAllocation) : Z :=
  fold_right (fun p sum => load id (pa_segments p) + sum) 0 pipelines.

(** What the peers have left between them. *)
Definition left_total (remaining : gmap NodeId Z) (peers : list PeerCapacity) : Z :=
  fold_right (fun p sum => left_of remaining (pc_node_id p) + sum) 0 peers.

Definition ids (peers : list PeerCapacity) : list NodeId := map pc_node_id peers.

Lemma left_of_insert remaining id v id' :
  left_of (<[id := v]> remaining) id' = if decide (id = id') then v else left_of remaining id'.
Proof. unfold left_of. case_decide; subst; [by rewrite lookup_insert_eq|by rewrite lookup_insert_ne]. Qed.

Lemma left_total_cons remaining p peers :
  left_total remaining (p :: peers) = left_of remaining (pc_node_id p) + left_total remaining peers.
Proof. reflexivity. Qed.
Lemma load_cons id s segments :
  load id (s :: segments) =
  (if decide (al_node_id s = id) then (al_layer_range s).2 - (al_layer_range s).1 else 0) + load id segments.
Proof. reflexivity. Qed.
Lemma load_other id segments : (forall s, s ∈ segments -> al_node_id s <> id) -> load id segments = 0.
Proof.
  induction segments as [|s segments IH]; intros Hne; [done|]. rewrite load_cons, decide_False by (apply Hne; left).
  apply IH. intros x ?. apply Hne. by right.
Qed.

Lemma left_total_other remaining id v peers : id ∉ ids peers -> left_total (<[id := v]> remaining) peers = left_total remaining peers.
Proof.
  unfold ids, left_total. induction peers as [|p peers IH]; cbn; [done|]. intros [Hne Hin]%not_elem_of_cons.
  rewrite left_of_insert, decide_False by congruence. by rewrite IH.
Qed.

Lemma left_total_nonneg remaining peers : (forall id, 0 <= left_of remaining id) -> 0 <= left_total remaining peers.
Proof.
  unfold left_total. intros Hpos. induction peers as [|p peers IH]; cbn; [done|]. specialize (Hpos (pc_node_id p)). lia.
Qed.

(** One pipeline: contiguous from the cursor, on the peers given, charged to them;
    it reaches the end or uses all they have. *)
Lemma fill_spec num_layers ordered remaining cursor est :
  NoDup (ids ordered) -> (forall id, 0 <= left_of remaining id) -> cursor <= num_layers ->
  let '(remaining', cursor', segments, _) := fill num_layers ordered remaining cursor est in
  spans cursor cursor' segments /\
  (forall id, left_of remaining' id = left_of remaining id - load id segments /\ 0 <= left_of remaining' id) /\
  (forall s, s ∈ segments -> al_node_id s ∈ ids ordered) /\
  cursor' = Z.min num_layers (cursor + left_total remaining ordered) /\
  left_total remaining' ordered = left_total remaining ordered - (cursor' - cursor).
Proof.
  revert remaining cursor est. induction ordered as [|p ordered IH]; intros remaining cursor est Hnd Hpos Hcur; cbn [fill].
  { split_and!; [done|intros; cbn; split; [lia|auto]|by intros s ?%elem_of_nil|cbn; lia|cbn; lia]. }
  apply list.NoDup_cons in Hnd as [Hp Hnd]. pose proof (left_total_nonneg remaining ordered Hpos) as Hnn.
  pose proof (Hpos (pc_node_id p)) as Hp0. rewrite !left_total_cons.
  destruct (Z.leb_spec num_layers cursor).
  { split_and!; [done|intros; cbn; split; [lia|auto]|by intros s ?%elem_of_nil|lia|rewrite ?left_total_cons; lia]. }
  destruct (Z.eqb_spec (left_of remaining (pc_node_id p)) 0) as [H0|H0].
  { specialize (IH remaining cursor est Hnd Hpos Hcur). destruct (fill _ _ _ _ _) as [[[r c] segs] e].
    destruct IH as (Hs & Hl & Hin & Hc & Ht). specialize (Hl (pc_node_id p)) as Hlp.
    assert (Hload : load (pc_node_id p) segs = 0) by (apply load_other; intros s ? Heq; apply Hp; rewrite <- Heq; by apply Hin).
    split_and!; [done|done|intros s Hs'; right; auto|lia|]. rewrite left_total_cons. lia. }
  destruct (Z.eqb_spec (Z.min (left_of remaining (pc_node_id p)) (num_layers - cursor)) 0); [lia|].
  set (take := Z.min _ _) in *. set (r1 := <[pc_node_id p := _]> remaining).
  assert (Hpos1 : forall id, 0 <= left_of r1 id) by (intros id; unfold r1; rewrite left_of_insert; case_decide; [lia|auto]).
  specialize (IH r1 (cursor + take) (F32v.add est (segment_ms p take)) Hnd Hpos1 ltac:(lia)).
  destruct (fill _ _ _ _ _) as [[[r c] segs] e]. destruct IH as (Hs & Hl & Hin & Hc & Ht).
  assert (Hload : load (pc_node_id p) segs = 0) by (apply load_other; intros s ? Heq; apply Hp; rewrite <- Heq; by apply Hin).
  unfold r1 in Hc, Ht. rewrite !left_total_other in Hc, Ht by done.
  assert (Hrp : left_of r (pc_node_id p) = left_of remaining (pc_node_id p) - take).
  { destruct (Hl (pc_node_id p)) as [-> _]. unfold r1. rewrite left_of_insert, decide_True by done. lia. }
  split_and!.
  - cbn. split_and!; [done|lia|done].
  - intros id. destruct (Hl id) as [Hid ?]. split; [|done]. rewrite Hid. unfold r1. rewrite left_of_insert. rewrite load_cons. cbn [al_node_id al_layer_range fst snd].
    case_decide as Heq; [subst id; lia|lia].
  - intros s [->|Hs']%elem_of_cons; [left|right; auto].
  - lia.
  - rewrite left_total_cons. lia.
Qed.

(** A pipeline over all layers, on some of the peers. *)
Definition serves_all (num_layers : Z) (peers : list PeerCapacity) (p : PipelineAllocation) : Prop :=
  spans 0 num_layers (pa_segments p) /\ forall s, s ∈ pa_segments p -> al_node_id s ∈ ids peers.

Lemma plan_load_cons id p pipelines : plan_load id (p :: pipelines) = load id (pa_segments p) + plan_load id pipelines.
Proof. reflexivity. Qed.

Lemma fill_pipelines_sound k num_layers ordered remaining pipelines :
  NoDup (ids ordered) -> (forall id, 0 <= left_of remaining id) -> 0 <= num_layers ->
  fill_pipelines k num_layers ordered remaining = Some pipelines ->
  length pipelines = k /\ (forall p, p ∈ pipelines -> serves_all num_layers ordered p) /\
  forall id, plan_load id pipelines <= left_of remaining id.
Proof.
  intros Hnd. revert remaining pipelines. induction k as [|k IH]; intros remaining pipelines Hpos Hnl; cbn [fill_pipelines].
  { intros [= <-]. split_and!; [done|by intros p ?%elem_of_nil|done]. }
  pose proof (fill_spec num_layers ordered remaining 0 F32v.zero Hnd Hpos Hnl) as Hfill.
  destruct (fill _ _ _ _ _) as [[[r c] segs] e]. destruct Hfill as (Hs & Hl & Hin & Hc & _).
  destruct (Z.ltb_spec c num_layers); [done|]. intros (rest & Hrest & [= <-])%bind_Some.
  destruct (IH r rest) as (Hlen & Hall & Hload); [intros id; apply Hl|done|done|]. split_and!.
  - cbn. by rewrite Hlen.
  - intros p [->|Hp]%elem_of_cons; [|auto]. split; [|done]. cbn. by replace num_layers with c by lia.
  - intros id. rewrite plan_load_cons. cbn [pa_segments]. specialize (Hload id). destruct (Hl id). lia.
Qed.

Lemma fill_pipelines_complete k num_layers ordered remaining :
  NoDup (ids ordered) -> (forall id, 0 <= left_of remaining id) -> 0 <= num_layers ->
  Z.of_nat k * num_layers <= left_total remaining ordered -> exists pipelines, fill_pipelines k num_layers ordered remaining = Some pipelines.
Proof.
  intros Hnd. revert remaining. induction k as [|k IH]; intros remaining Hpos Hnl Hk; cbn [fill_pipelines]; [eauto|].
  pose proof (fill_spec num_layers ordered remaining 0 F32v.zero Hnd Hpos Hnl) as Hfill.
  destruct (fill _ _ _ _ _) as [[[r c] segs] e]. destruct Hfill as (_ & Hl & _ & Hc & Ht).
  destruct (Z.ltb_spec c num_layers); [lia|]. destruct (IH r) as [rest ->]; [intros id; apply Hl|done|lia|]. cbn. eauto.
Qed.

(** *** The peers in order *)

Lemma insert_peer_perm p l : insert_peer p l ≡ₚ p :: l.
Proof. induction l as [|q l IH]; cbn; [done|]. destruct (goes_first p q); [done|]. rewrite IH. apply Permutation_swap. Qed.
Lemma fastest_first_perm l : fastest_first l ≡ₚ l.
Proof. induction l as [|p l IH]; [done|]. cbn. by rewrite insert_peer_perm, IH. Qed.

#[global] Instance total_capacity_proper : Proper ((≡ₚ) ==> (=)) total_capacity.
Proof. intros l l' Hp. unfold total_capacity. induction Hp; cbn in *; lia. Qed.

Lemma total_capacity_filter peers :
  (forall p, p ∈ peers -> 0 <= pc_layer_capacity p) ->
  total_capacity (List.filter (fun p => 0 <? pc_layer_capacity p) peers) = total_capacity peers.
Proof.
  unfold total_capacity. induction peers as [|p peers IH]; intros Hpos; [done|]. cbn. pose proof (Hpos p ltac:(left)).
  specialize (IH ltac:(intros; apply Hpos; by right)). destruct (Z.ltb_spec 0 (pc_layer_capacity p)); cbn; lia.
Qed.

Lemma initial_left ordered remaining id :
  left_of (fold_left (fun m p => <[pc_node_id p := pc_layer_capacity p]> m) ordered remaining) id =
  match List.find (fun p => bool_decide (pc_node_id p = id)) (reverse ordered) with
  | Some p => pc_layer_capacity p
  | None => left_of remaining id
  end.
Proof.
  revert remaining. induction ordered as [|p ordered IH]; intros remaining; [done|]. cbn [fold_left]. rewrite IH, reverse_cons.
  assert (Hfind : forall l q, List.find (fun p => bool_decide (pc_node_id p = id)) (l ++ [q]) =
    match List.find (fun p => bool_decide (pc_node_id p = id)) l with
    | Some x => Some x | None => if bool_decide (pc_node_id q = id) then Some q else None end).
  { induction l as [|x l IHl]; intros q; cbn; [done|]. by destruct (bool_decide _). }
  rewrite Hfind. destruct (List.find _ _); [done|]. rewrite left_of_insert. by case_decide; case_bool_decide.
Qed.

Lemma initial_left_peer ordered p :
  NoDup (ids ordered) -> p ∈ ordered ->
  left_of (fold_left (fun m p => <[pc_node_id p := pc_layer_capacity p]> m) ordered ∅) (pc_node_id p) = pc_layer_capacity p.
Proof.
  intros Hnd Hp. rewrite initial_left. destruct (List.find _ _) as [q|] eqn:Hf.
  - apply List.find_some in Hf as [Hq Heq%bool_decide_eq_true]. apply list_elem_of_In in Hq. rewrite elem_of_reverse in Hq.
    apply list_elem_of_lookup in Hp as [i Hi], Hq as [j Hj].
    assert (i = j) as ->; [|congruence].
    eapply (NoDup_lookup (pc_node_id <$> ordered)); [exact Hnd|..]; rewrite list_lookup_fmap; [by rewrite Hi|by rewrite Hj; cbn; rewrite Heq].
  - apply (List.find_none _ _) with (x := p) in Hf; [by rewrite bool_decide_true in Hf|].
    apply list_elem_of_In. by rewrite elem_of_reverse.
Qed.

Lemma initial_total ordered :
  NoDup (ids ordered) ->
  left_total (fold_left (fun m p => <[pc_node_id p := pc_layer_capacity p]> m) ordered ∅) ordered = total_capacity ordered.
Proof.
  intros Hnd. set (r := fold_left _ _ _).
  assert (Hall : forall p, p ∈ ordered -> left_of r (pc_node_id p) = pc_layer_capacity p) by (intros; by apply initial_left_peer).
  clearbody r. clear Hnd. induction ordered as [|p ordered IH]; [done|]. rewrite left_total_cons. unfold total_capacity. cbn [fold_right].
  fold (total_capacity ordered). rewrite (Hall p) by left. rewrite IH; [done|]. intros q ?. apply Hall. by right.
Qed.

(** ** Plans *)

Section plan.
Context (peers : list PeerCapacity) (num_layers : Z).
Hypothesis distinct : NoDup (ids peers).
Hypothesis capacities : forall p, p ∈ peers -> 0 <= pc_layer_capacity p.
Hypothesis layers : 0 < num_layers.

(** [k] pipelines that each serve the model, no peer given more than it can host. *)
Definition good_plan (k : Z) (plan : AllocationPlan) : Prop :=
  Z.of_nat (length (ap_pipelines plan)) = k /\
  (forall p, p ∈ ap_pipelines plan -> serves_all num_layers peers p) /\
  forall p, p ∈ peers -> plan_load (pc_node_id p) (ap_pipelines plan) <= pc_layer_capacity p.

Definition usable : list PeerCapacity := fastest_first (List.filter (fun p => 0 <? pc_layer_capacity p) peers).

Lemma usable_elem p : p ∈ usable <-> p ∈ peers /\ 0 < pc_layer_capacity p.
Proof.
  unfold usable. rewrite fastest_first_perm, list_elem_of_In, filter_In, <- list_elem_of_In, Z.ltb_lt. done.
Qed.

Lemma usable_distinct : NoDup (ids usable).
Proof.
  unfold ids, usable. rewrite fastest_first_perm. clear capacities. revert distinct. unfold ids.
  induction peers as [|p l IH]; cbn; [done|]. intros [Hp Hnd]%list.NoDup_cons. destruct (0 <? pc_layer_capacity p); [|auto].
  cbn. constructor; [|auto]. intros (q & Hq & Hin)%list_elem_of_fmap. apply Hp. rewrite Hq. apply list_elem_of_fmap. exists q. split; [done|].
  apply list_elem_of_In, filter_In in Hin as [? _]. by apply list_elem_of_In.
Qed.

Lemma usable_total : total_capacity usable = total_capacity peers.
Proof. unfold usable. rewrite fastest_first_perm. by apply total_capacity_filter. Qed.

Lemma pack_spec k :
  1 <= k ->
  match pack_k_pipelines peers num_layers k with
  | Some plan => k * num_layers <= total_capacity peers /\ good_plan k plan
  | None => total_capacity peers < k * num_layers
  end.
Proof.
  intros Hk. unfold pack_k_pipelines. destruct (Z.eqb_spec k 0); [lia|]. fold usable. cbn zeta. rewrite <- usable_total.
  case_bool_decide as Hempty; [rewrite Hempty; cbn; lia|].
  destruct (Z.ltb_spec (total_capacity usable) (k * num_layers)); [done|].
  set (r := fold_left _ _ _).
  assert (Hpos : forall id, 0 <= left_of r id).
  { intros id. unfold r. rewrite initial_left. destruct (List.find _ _) as [q|] eqn:Hf; [|done].
    apply List.find_some in Hf as [Hq _]. apply list_elem_of_In in Hq. rewrite elem_of_reverse in Hq.
    apply usable_elem in Hq. lia. }
  destruct (fill_pipelines_complete (Z.to_nat k) num_layers usable r usable_distinct Hpos) as [ps Hps]; [lia| |].
  { unfold r. rewrite initial_total by apply usable_distinct. rewrite Z2Nat.id by lia. done. }
  rewrite Hps. cbn. split; [done|].
  destruct (fill_pipelines_sound _ _ _ _ _ usable_distinct Hpos (Z.lt_le_incl _ _ layers) Hps) as (Hlen & Hall & Hload). split_and!; cbn.
  - rewrite Hlen. lia.
  - intros p Hp. destruct (Hall p Hp) as [? Hin]. split; [done|]. intros s Hs%Hin. apply list_elem_of_fmap in Hs as (q & -> & Hq).
    apply list_elem_of_fmap. exists q. split; [done|]. by apply usable_elem in Hq as [? _].
  - intros p Hp. specialize (Hload (pc_node_id p)). destruct (decide (0 < pc_layer_capacity p)) as [Hc|Hc].
    + unfold r in Hload. rewrite initial_left_peer in Hload; [done|apply usable_distinct|by apply usable_elem].
    + assert (Hz : left_of r (pc_node_id p) = 0).
      { unfold r. rewrite initial_left. destruct (List.find _ _) as [q|] eqn:Hf; [|done].
        apply List.find_some in Hf as [Hq Heq%bool_decide_eq_true]. apply list_elem_of_In in Hq. rewrite elem_of_reverse in Hq.
        apply usable_elem in Hq as [Hq Hqc]. apply list_elem_of_lookup in Hp as [i Hi], Hq as [j Hj].
        assert (i = j) as ->; [|simplify_eq; lia].
        eapply (NoDup_lookup (pc_node_id <$> peers)); [exact distinct|..]; rewrite list_lookup_fmap; [by rewrite Hi|by rewrite Hj; cbn; rewrite Heq]. }
      rewrite Hz in Hload. etransitivity; [exact Hload|by apply capacities].
Qed.

Lemma better_good best k :
  1 <= k -> (forall plan, best = Some plan -> exists j, 1 <= j <= k /\ good_plan j plan) ->
  (forall plan, better peers num_layers best k = Some plan -> exists j, 1 <= j <= k /\ good_plan j plan) /\
  (is_Some best \/ k * num_layers <= total_capacity peers -> is_Some (better peers num_layers best k)).
Proof.
  intros Hk Hbest. unfold better. pose proof (pack_spec k Hk) as Hp. destruct (pack_k_pipelines peers num_layers k) as [new|].
  - destruct Hp as [_ Hgood]. split.
    + intros plan. destruct best as [cur|]; [case_match|]; intros [= <-]; eauto; exists k; (split; [lia|done]).
    + intros _. destruct best; [case_match|]; by eexists.
  - split; [done|]. intros [?|?]; [done|lia].
Qed.

Lemma better_all m :
  let best := fold_left (better peers num_layers) (map Z.of_nat (seq 1 m)) None in
  (forall plan, best = Some plan -> exists j, 1 <= j <= Z.of_nat m /\ good_plan j plan) /\
  ((0 < m)%nat -> num_layers <= total_capacity peers -> is_Some best).
Proof.
  induction m as [|m IH]; cbn zeta; [split; [done|lia]|]. rewrite seq_S, map_app, fold_left_app. cbn [map fold_left].
  set (best := fold_left _ _ _) in *. destruct IH as [Hg Hs].
  destruct (better_good best (Z.of_nat (1 + m))) as [Hg' Hs']; [lia| |].
  - intros plan Hp. destruct (Hg plan Hp) as (j & ? & ?). exists j. split; [lia|done].
  - split.
    + intros plan Hp. destruct (Hg' plan Hp) as (j & ? & ?). exists j. split; [lia|done].
    + intros _ Ht. apply Hs'. destruct m as [|m]; [right; lia|left; apply Hs; [lia|done]].
Qed.
End plan.

(** C33: A plan is proposed exactly when the peers can host the model between them, and
    then it is one: as many pipelines as asked at most, each over every layer in
    order, no peer given more layers than it can host over all of them. *)
Theorem allocation_exactly_when_it_fits peers num_layers max_pipelines :
  NoDup (ids peers) -> (forall p, p ∈ peers -> 0 <= pc_layer_capacity p) -> 0 < num_layers ->
  match recommend_allocation peers num_layers max_pipelines with
  | Some plan =>
      num_layers <= total_capacity peers /\
      exists k, 1 <= k <= Z.max max_pipelines 1 /\ good_plan peers num_layers k plan
  | None => total_capacity peers < num_layers
  end.
Proof.
  intros Hd Hc Hl. unfold recommend_allocation. destruct (Z.eqb_spec num_layers 0); [lia|]. cbn [orb].
  case_bool_decide as He; [subst; cbn; lia|]. cbn zeta. destruct (Z.ltb_spec (total_capacity peers) num_layers); [done|].
  set (m := Z.max _ 1). destruct (better_all peers num_layers Hd Hc Hl (Z.to_nat m)) as [Hg Hs].
  destruct (fold_left _ _ _) as [plan|]; [|by destruct (Hs ltac:(lia) ltac:(done))].
  destruct (Hg plan eq_refl) as (k & ? & ?). split; [done|]. exists k. split; [lia|done].
Qed.

(** A fast peer with half the layers, a slow one with the other half. *)
Definition two_halves : list PeerCapacity := [
  {| pc_node_id := replicate 32 2; pc_layer_capacity := 16; pc_tokens_per_sec := F32v.of_Z 10; pc_latency_ms := 200 |};
  {| pc_node_id := replicate 32 1; pc_layer_capacity := 16; pc_tokens_per_sec := F32v.of_Z 100; pc_latency_ms := 10 |}].
Lemma allocation_exactly_when_it_fits_witness :
  match recommend_allocation two_halves 32 1 with
  | Some plan => 32 <= total_capacity two_halves /\ exists k, 1 <= k <= 1 /\ good_plan two_halves 32 k plan
  | None => total_capacity two_halves < 32
  end.
Proof.
  apply (allocation_exactly_when_it_fits two_halves 32 1).
  - apply (bool_decide_unpack _). vm_compute. exact I.
  - intros p Hp. unfold two_halves in Hp. rewrite !elem_of_cons, elem_of_nil in Hp. destruct_or? Hp; subst; cbn; lia || done.
  - lia.
Defined.
Example fast_peer_first :
  map (fun s => (hd 0 (al_node_id s), al_layer_range s)) <$> (pa_segments <$> (recommend_allocation two_halves 32 1 ≫= (fun plan => ap_pipelines plan !! O)))
  = Some [(1, (0, 16)); (2, (16, 32))].
Proof. vm_compute. reflexivity. Qed.
