(* ===== verification/RouteCost.v ===== *)
(** * What a chain of segments costs ([src/inference/scheduler/parallax.rs], its first half)

    [vertex_cost_as] prices one machine running one layer range, in milliseconds:
    network, compute, queue, prompt, transfer and load.  A chain this node drives is
    the sum of its segments; a chain its head leads also pays the hops between its
    machines ([led_hop_ms]). *)
From Stdlib Require Import Floats.SpecFloat.
From S2P Require Import Prelude Bytes ForwardTypes Floats RangeWeights KvSessions Candidate.
#[local] Open Scope Z_scope.

Record VertexCost : Type := {
  vc_network_ms : spec_float; vc_compute_ms : spec_float; vc_load_ms : spec_float;
  vc_prefill_ms : spec_float; vc_transfer_ms : spec_float; vc_cold_load_ms : spec_float }.

(** [VertexCost::total]: the terms in order. *)
Definition cost_total (v : VertexCost) : spec_float :=
  F32v.add (F32v.add (F32v.add (F32v.add (F32v.add (vc_network_ms v) (vc_compute_ms v)) (vc_load_ms v))
    (vc_prefill_ms v)) (vc_transfer_ms v)) (vc_cold_load_ms v).

Definition LOAD_COMPENSATOR_MS : spec_float := F32v.of_Z 25.
Definition PREFILL_SPEEDUP_GPU : spec_float := F32v.of_Z 40.
Definition PREFILL_SPEEDUP_CPU : spec_float := F32v.lit 9 (-1).
Definition ACTIVATION_BYTES_PER_TOKEN : Z := 4096 * 4.

Inductive ChainRole : Type := DrivenFromHere | LeadsTheChain | InLedChain.

Definition is_node (c : NodeCandidate) (local : NodeId) : bool := bool_decide (nc_node_id c = local).

Definition may_lead_a_chain (c : NodeCandidate) (local : NodeId) : bool :=
  negb (is_node c local) && request_may_be_led (nc_ring c) && leads_splits (nc_ring c) && chains_forwards (nc_ring c)
  && bool_decide (is_Some (coord (nc_ring c))).
Definition may_join_a_led_chain (c : NodeCandidate) (local : NodeId) : bool :=
  negb (is_node c local) && chains_forwards (nc_ring c) && bool_decide (is_Some (coord (nc_ring c))).

Definition candidate_of (candidates : list NodeCandidate) (id : NodeId) : option NodeCandidate :=
  List.find (fun c => is_node c id) candidates.

Definition chain_is_led_by_its_head (segments : list PipelineSegment) (candidates : list NodeCandidate) (local : NodeId)
  : bool :=
  match segments with
  | [] => false
  | head :: rest =>
      negb (bool_decide (rest = [])) && ((seg_layer_range head).1 =? 0)
      && (match candidate_of candidates (seg_node_id head) with Some c => may_lead_a_chain c local | None => false end)
      && forallb (fun s => match candidate_of candidates (seg_node_id s) with
                           | Some c => may_join_a_led_chain c local | None => false end) rest
  end.

Definition chain_tokens_per_round (segments : list PipelineSegment) (candidates : list NodeCandidate) (local : NodeId)
    (num_layers : Z) : option spec_float :=
  match segments with
  | first :: _ :: _ =>
      if chain_is_led_by_its_head segments candidates local then None
      else
        c ← candidate_of candidates (seg_node_id first);
        let passes := forward_passes c in
        let rounds := rounds_entered c (seg_layer_range first) num_layers in
        if F32v.lt rounds passes then Some (F32v.div passes rounds) else None
  | _ => None
  end.

Definition attempts (c : NodeCandidate) : spec_float :=
  if F32v.is_finite (nc_expected_attempts c) && F32v.le (F32v.of_Z 1) (nc_expected_attempts c)
  then nc_expected_attempts c else F32v.of_Z 1.

Definition hop_one_way_ms (from to : NetworkCoord) : spec_float := F32v.div (distance_ms from to) (F32v.of_Z 2).

Definition led_hop_ms (from to : NodeCandidate) : option spec_float :=
  one_way ← (if bool_decide (nc_node_id from = nc_node_id to) then Some F32v.zero
             else a ← coord (nc_ring from); b ← coord (nc_ring to); Some (hop_one_way_ms a b));
  Some (F32v.mul (F32v.mul one_way (forward_passes to)) (attempts to)).

Inductive DecodePrice : Type :=
| Measured (ms : spec_float)
| Prior (range : Z * Z) (ahead : Z).

Definition ms_per_layer (d : DecodePrice) (c : NodeCandidate) : spec_float :=
  match d with Measured ms => ms | Prior range ahead => prior_ms_per_layer_over c range ahead end.

Definition layers_ahead_in_run (same_machine_as_previous : bool) (run_before : Z) : Z :=
  if same_machine_as_previous then run_before else 0.

Definition prefill_ms_per_layer (c : NodeCandidate) (tokens : Z) (decode : DecodePrice) : spec_float :=
  let tokens32 := F32v.of_Z tokens in
  match nc_observed_prefill_ms_per_layer_byte c with
  | Some coeff => F32v.mul (F32v.mul coeff tokens32) (F32v.of_Z ACTIVATION_BYTES_PER_TOKEN)
  | None =>
      let first_speedup := if nc_has_gpu c then PREFILL_SPEEDUP_GPU else PREFILL_SPEEDUP_CPU in
      match decode with
      | Measured ms => F32v.div (F32v.mul ms tokens32) first_speedup
      | Prior range ahead =>
          let '(first, beside) := layers_by_device c range ahead in
          let width := F32v.of_Z (Z.max (first + beside) 1) in
          let per_token := F32v.add
            (F32v.div (F32v.mul (F32v.of_Z first) (prior_ms_per_layer c)) first_speedup)
            (F32v.div (F32v.mul (F32v.of_Z beside) (processor_prior_ms_per_layer c)) PREFILL_SPEEDUP_CPU) in
          F32v.div (F32v.mul per_token tokens32) width
      end
  end.

(** The transfer of the prompt pass's activations into a segment past the first. *)
Definition transfer_ms (c : NodeCandidate) (prompt_tokens : option Z) (enters : bool) (start : Z) : spec_float :=
  match prompt_tokens, nc_goodput_bytes_per_sec c with
  | Some tokens, Some bps =>
      if (0 <? tokens) && (0 <? bps) && enters && negb (start =? 0)
      then F32v.of_f64 (F64.mul (F64.div (F64.mul (F64.of_Z tokens) (F64.of_Z ACTIVATION_BYTES_PER_TOKEN)) (F64.of_Z bps))
                          (F64.of_Z 1000))
      else F32v.zero
  | _, _ => F32v.zero
  end.

Definition vertex_cost_as (c : NodeCandidate) (range : Z * Z) (local : NodeId) (num_layers : Z)
    (prompt_tokens : option Z) (role : ChainRole) (ahead : Z) : VertexCost :=
  let is_local := is_node c local in
  let layers := F32v.of_Z (range.2 - range.1) in
  let covers_whole_model := whole_model range num_layers in
  let '(delegated_whole_model, entered_per_token) := match role with
    | DrivenFromHere => (negb is_local && covers_whole_model, negb is_local && negb covers_whole_model)
    | LeadsTheChain => (true, false)
    | InLedChain => (false, false)
    end in
  let in_led_chain := match role with InLedChain => true | _ => false end in
  let observation :=
    if delegated_whole_model || in_led_chain
    then match nc_observed_delegated_ms_per_layer c with Some o => Some o | None => nc_observed_latency_ms_per_layer c end
    else nc_observed_latency_ms_per_layer c in
  let latency := F32v.of_Z (nc_latency_ms c) in
  let '(base_network_ms, per_layer_ms) := match observation with
    | Some obs_per_layer =>
        let fixed := default F32v.zero (nc_observed_fixed_ms_per_visit c) in
        (if in_led_chain then F32v.max (F32v.sub fixed latency) F32v.zero else fixed, obs_per_layer)
    | None =>
        (if is_local || in_led_chain then F32v.zero else latency, ms_per_layer (Prior range ahead) c)
    end in
  let decode_price := match observation with Some _ => Measured per_layer_ms | None => Prior range ahead end in
  let passes := match role with
    | DrivenFromHere => rounds_entered c range num_layers
    | LeadsTheChain | InLedChain => forward_passes c
    end in
  let compute_ms := F32v.mul (F32v.mul per_layer_ms layers) passes in
  let network_ms := if entered_per_token || in_led_chain then F32v.mul base_network_ms passes else base_network_ms in
  let load_ms := F32v.mul (nc_load c) LOAD_COMPENSATOR_MS in
  let prompt_tokens := (fun tokens => u32_saturating_sub tokens (prompt_tokens_held c range num_layers)) <$> prompt_tokens in
  let prefill_ms := match prompt_tokens with
    | None => F32v.zero
    | Some tokens => if tokens =? 0 then F32v.zero else F32v.mul (prefill_ms_per_layer c tokens decode_price) layers
    end in
  let transfer := transfer_ms c prompt_tokens (entered_per_token || in_led_chain) range.1 in
  let att := attempts c in
  {| vc_network_ms := F32v.mul network_ms att; vc_compute_ms := F32v.mul compute_ms att;
     vc_load_ms := F32v.mul load_ms att; vc_prefill_ms := F32v.mul prefill_ms att;
     vc_transfer_ms := F32v.mul transfer att; vc_cold_load_ms := cold_load_ms c range |}.

Definition vertex_cost (c : NodeCandidate) (range : Z * Z) (local : NodeId) (num_layers : Z) (prompt_tokens : option Z)
  : VertexCost := vertex_cost_as c range local num_layers prompt_tokens DrivenFromHere 0.

(** ** The price of a whole chain *)

Definition add_cost (a b : VertexCost) : VertexCost := {|
  vc_network_ms := F32v.add (vc_network_ms a) (vc_network_ms b);
  vc_compute_ms := F32v.add (vc_compute_ms a) (vc_compute_ms b);
  vc_load_ms := F32v.add (vc_load_ms a) (vc_load_ms b);
  vc_prefill_ms := F32v.add (vc_prefill_ms a) (vc_prefill_ms b);
  vc_transfer_ms := F32v.add (vc_transfer_ms a) (vc_transfer_ms b);
  vc_cold_load_ms := F32v.add (vc_cold_load_ms a) (vc_cold_load_ms b) |}.
Definition no_cost : VertexCost := {|
  vc_network_ms := F32v.zero; vc_compute_ms := F32v.zero; vc_load_ms := F32v.zero;
  vc_prefill_ms := F32v.zero; vc_transfer_ms := F32v.zero; vc_cold_load_ms := F32v.zero |}.

Section chain.
Context (candidates : list NodeCandidate) (local : NodeId) (num_layers : Z) (prompt_tokens : option Z) (led : bool).

Definition role_at (i : nat) : ChainRole :=
  match led, i with false, _ => DrivenFromHere | true, O => LeadsTheChain | true, _ => InLedChain end.

(** The fold over the segments: [previous] is the node before, [run_before] the
    width of its run. *)
Fixpoint chain_terms (i : nat) (previous : option NodeId) (run_before : Z) (segments : list PipelineSegment)
    (sum : VertexCost) : VertexCost :=
  match segments with
  | [] => sum
  | seg :: rest =>
      let same := bool_decide (previous = Some (seg_node_id seg)) in
      let ahead := layers_ahead_in_run same run_before in
      let width := u32_saturating_sub (seg_layer_range seg).2 (seg_layer_range seg).1 in
      let sum := match candidate_of candidates (seg_node_id seg) with
        | Some c => add_cost sum
                      (vertex_cost_as c (seg_layer_range seg) local num_layers prompt_tokens (role_at i) ahead)
        | None => sum
        end in
      chain_terms (S i) (Some (seg_node_id seg)) (ahead + width) rest sum
  end.

(** The hops round the ring: each machine to the next, the last to the first. *)
Definition ring_hops (ring : list NodeCandidate) : spec_float :=
  match ring with
  | [] => F32v.zero
  | head :: rest =>
      fold_left (fun sum '(from, to) => match led_hop_ms from to with Some h => F32v.add sum h | None => sum end)
        (zip ring (rest ++ [head])) F32v.zero
  end.
End chain.

Definition chain_cost_terms (segments : list PipelineSegment) (candidates : list NodeCandidate) (local : NodeId)
    (num_layers : Z) (prompt_tokens : option Z) : VertexCost :=
  let led := chain_is_led_by_its_head segments candidates local in
  let hops_ms := if led then ring_hops (omap (fun s => candidate_of candidates (seg_node_id s)) segments)
                 else F32v.zero in
  let terms := chain_terms candidates local num_layers prompt_tokens led 0 None 0 segments no_cost in
  {| vc_network_ms := F32v.add (vc_network_ms terms) hops_ms; vc_compute_ms := vc_compute_ms terms;
     vc_load_ms := vc_load_ms terms; vc_prefill_ms := vc_prefill_ms terms; vc_transfer_ms := vc_transfer_ms terms;
     vc_cold_load_ms := vc_cold_load_ms terms |}.

Definition chain_cost_ms (segments : list PipelineSegment) (candidates : list NodeCandidate) (local : NodeId)
    (num_layers : Z) (prompt_tokens : option Z) : spec_float :=
  cost_total (chain_cost_terms segments candidates local num_layers prompt_tokens).
