(* ===== verification/RoutePass.v ===== *)
(** * One pass of the route search ([run_pass] of [src/inference/scheduler/parallax.rs])

    A dynamic program over vertices (machine, layer range), in the order of their
    ranges: each cell keeps the cheapest way found to reach its vertex and, along
    it, the capped peers it uses and this node's share.  The pass is written over an
    interface of costs ([CostOps]), which the search instantiates with f32. *)
From Stdlib Require Import Floats.SpecFloat Sorted.
From S2P Require Import Prelude Floats RangeWeights RouteCost.
#[local] Open Scope Z_scope.

Class CostOps (C : Type) : Type := {
  c_add : C -> C -> C; c_lt : C -> C -> bool; c_infinity : C; c_finite : C -> bool }.

#[global] Instance f32_cost : CostOps spec_float := {|
  c_add := F32v.add; c_lt := F32v.lt; c_infinity := F32v.infinity; c_finite := F32v.is_finite |}.

(** This node's runs with one more of its ranges, joined to the last when adjacent. *)
Definition add_run (runs : list (Z * Z)) (r : Z * Z) : list (Z * Z) :=
  match reverse runs with
  | last :: earlier => if last.2 =? r.1 then reverse earlier ++ [(last.1, r.2)] else runs ++ [r]
  | [] => [r]
  end.

Lemma add_run_apart runs r : (forall x, x ∈ runs -> x.2 < r.1) -> add_run runs r = runs ++ [r].
Proof.
  unfold add_run. destruct runs as [|x runs _] using rev_ind; intros Hr; [done|]. rewrite reverse_snoc.
  destruct (Z.eqb_spec x.2 r.1); [|done]. specialize (Hr x ltac:(set_solver)). lia.
Qed.
Lemma add_run_joins runs a b r : b = r.1 -> add_run (runs ++ [(a, b)]) r = runs ++ [(a, r.2)].
Proof. intros ->. unfold add_run. rewrite reverse_snoc. cbn. by rewrite Z.eqb_refl, reverse_involutive. Qed.

(** What the state of the pass keeps for a vertex. *)
Record Cell (C : Type) : Type := {
  best_cost : C; parent : option nat; used_capped : Z; local_base : Z; local_run : option Z;
  local_runs : Z; closed_width : Z; run_width : Z }.
Arguments best_cost {C}. Arguments parent {C}. Arguments used_capped {C}. Arguments local_base {C}.
Arguments local_run {C}. Arguments local_runs {C}. Arguments closed_width {C}. Arguments run_width {C}.

Section pass.
Context {C : Type} `{CostOps C}.
Context (num_layers : Z) (n : nat).
(** A vertex's range, candidate, capped-peer bit, and whether it is this node's. *)
Context (range : nat -> Z * Z) (cand_idx : nat -> nat) (bit_of : nat -> Z) (is_local_vertex : nat -> bool).
(** What a local range adds, and this node's two allowances. *)
Context (local_added : Z * Z -> Z) (local_cap local_fresh_run : option Z).
(** Who may start and end a chain; what starting, extending and closing one costs. *)
Context (source_ok is_sink : nat -> bool) (seed_cost : nat -> option C).
Context (step_cost : nat -> nat -> Z -> option C) (sink_cost : C -> nat -> option C).

Definition local_total (base : Z) (run_start : option Z) (end_ : Z) : Z :=
  match run_start with Some s => u32_saturating_add base (local_added (s, end_)) | None => base end.

Definition local_fits (base : Z) (run : option Z) (end_ runs closed : Z) : bool :=
  if match local_cap with Some cap => local_total base run end_ <=? cap | None => true end then true
  else match local_fresh_run with
       | None => false
       | Some width =>
           match run with
           | Some start => (runs =? 1) && (end_ - start <=? width)
           | None => (runs =? 1) && (closed <=? width)
           end
       end.

Definition empty_cell : Cell C := {|
  best_cost := c_infinity; parent := None; used_capped := 0; local_base := 0; local_run := None;
  local_runs := 0; closed_width := 0; run_width := 0 |}.

Definition span (i : nat) : Z := (range i).2 - (range i).1.

(** What a source vertex starts with; [None] when it may not start a chain. *)
Definition seed (i : nat) : option (Cell C) :=
  if source_ok i then
    cost ← seed_cost i;
    let run := if is_local_vertex i then Some (range i).1 else None in
    let runs := if is_local_vertex i then 1 else 0 in
    if local_fits 0 run (range i).2 runs 0
    then Some {| best_cost := cost; parent := None; used_capped := bit_of i; local_base := 0; local_run := run;
                 local_runs := runs; closed_width := 0; run_width := span i |}
    else None
  else None.

(** This node's share after stepping from a cell of [v] onto [w]: what its closed runs
    added, where its current run began, how many runs, the width of its one closed run. *)
Definition local_share (cv : Cell C) (v w : nat) : Z * option Z * Z * Z :=
  let v_end := (range v).2 in
  match is_local_vertex w, local_run cv with
  | true, Some s => (local_base cv, Some s, local_runs cv, closed_width cv)
  | true, None => (local_base cv, Some (range w).1, Z.min (local_runs cv + 1) 2, closed_width cv)
  | false, Some s =>
      (local_total (local_base cv) (Some s) v_end, None, local_runs cv,
       if local_runs cv =? 1 then v_end - s else closed_width cv)
  | false, None => (local_base cv, None, local_runs cv, closed_width cv)
  end.

(** The cell [w] gets through [v], if stepping there is allowed. *)
Definition extend (cv : Cell C) (v w : nat) : option (Cell C) :=
  let w_bit := bit_of w in
  if negb (w_bit =? 0) && negb (Z.land (used_capped cv) w_bit =? 0) then None
  else
    let '(base, run, runs, closed) := local_share cv v w in
    if local_fits base run (range w).2 runs closed then
      let ahead := layers_ahead_in_run (cand_idx w =? cand_idx v)%nat (run_width cv) in
      step ← step_cost v w ahead;
      Some {| best_cost := c_add (best_cost cv) step; parent := Some v;
              used_capped := Z.lor (used_capped cv) w_bit; local_base := base; local_run := run;
              local_runs := runs; closed_width := closed; run_width := ahead + span w |}
    else None.

(** Relax the edge from [v] to [w]. *)
Definition relax (v : nat) (cells : list (Cell C)) (w : nat) : list (Cell C) :=
  if (range w).1 =? (range v).2 then
    match cells !! v, cells !! w with
    | Some cv, Some cw =>
        match extend cv v w with
        | Some new => if c_lt (best_cost new) (best_cost cw) then <[w := new]> cells else cells
        | None => cells
        end
    | _, _ => cells
    end
  else cells.

Definition visit (order : list nat) (cells : list (Cell C)) (v : nat) : list (Cell C) :=
  match cells !! v with
  | Some cv => if c_finite (best_cost cv) && ((range v).2 <? num_layers) then fold_left (relax v) order cells else cells
  | None => cells
  end.

Definition start_cells : list (Cell C) := map (fun i => default empty_cell (seed i)) (seq 0 n).

(** [min_by] with [partial_cmp]: the first of the cheapest. *)
Definition cheaper (a b : nat * C) : nat * C := if c_lt b.2 a.2 then b else a.
Definition min_sink (sinks : list (nat * C)) : option (nat * C) :=
  match sinks with [] => None | s :: sinks => Some (fold_left cheaper sinks s) end.

Definition run_cells (order : list nat) : list (Cell C) := fold_left (visit order) order start_cells.

Definition best_sink (cells : list (Cell C)) : option (nat * C) :=
  min_sink (omap (fun i => cell ← cells !! i;
                           if is_sink i then cost ← sink_cost (best_cost cell) i; Some (i, cost) else None) (seq 0 n)).

Definition run_pass (order : list nat) : option (list (option nat) * nat * C) :=
  let cells := run_cells order in
  '(i, cost) ← best_sink cells;
  if c_finite cost then Some (map parent cells, i, cost) else None.

(** The path reconstruction: from the sink to the source, then turned round. *)
Fixpoint walk_back (fuel : nat) (parents : list (option nat)) (cur : option nat) (chain : list nat) : option (list nat) :=
  match cur with
  | None => Some chain
  | Some i => match fuel with O => None | S fuel => walk_back fuel parents (parents !! i ≫= id) (i :: chain) end
  end.

(** ** Chains

    The chains the pass may build, last vertex first, with the cell each gives:
    a seeded source, then steps to a vertex that begins where the last one ends. *)
Inductive chain_cell : list nat -> Cell C -> Prop :=
| cc_seed i c : seed i = Some c -> chain_cell [i] c
| cc_step v path cv w cw :
    chain_cell (v :: path) cv -> c_finite (best_cost cv) = true -> (range v).2 < num_layers ->
    (range w).1 = (range v).2 -> extend cv v w = Some cw -> chain_cell (w :: v :: path) cw.

(** [parents] leads back along the path. *)
Fixpoint traced (parents : list (option nat)) (path : list nat) : Prop :=
  match path with
  | [] => False
  | [i] => parents !! i = Some None
  | i :: ((j :: _) as rest) => parents !! i = Some (Some j) /\ traced parents rest
  end.

Definition starts_first (a b : nat) : Prop := (range a).1 <= (range b).1.

(** What every cell the pass keeps stands for. *)
Definition cells_ok (done : list nat) (cells : list (Cell C)) : Prop :=
  length cells = n /\
  forall i c, cells !! i = Some c -> c_finite (best_cost c) = true ->
    exists path, chain_cell (i :: path) c /\ traced (map parent cells) (i :: path) /\ forall j, j ∈ path -> j ∈ done.

(** ** This node's share along a chain *)

Section share.
Hypothesis ranges_ok : forall i, (i < n)%nat -> (range i).1 < (range i).2.

(** This node's runs on a path, last vertex first. *)
Fixpoint runs_on (path : list nat) : list (Z * Z) :=
  match path with
  | [] => []
  | i :: path => if is_local_vertex i then add_run (runs_on path) (range i) else runs_on path
  end.

(** What runs that have ended added, as the pass sums it. *)
Definition closed_total (closed : list (Z * Z)) : Z :=
  fold_left (fun acc r => u32_saturating_add acc (local_added r)) closed 0.

Lemma closed_total_snoc closed r : closed_total (closed ++ [r]) = u32_saturating_add (closed_total closed) (local_added r).
Proof. unfold closed_total. by rewrite fold_left_app. Qed.

(** A cell's figures are those of this node's runs on the chain it stands for. *)
Definition share_of (v : nat) (runs : list (Z * Z)) (c : Cell C) : Prop :=
  (forall r, r ∈ runs -> r.2 <= (range v).2) /\ local_runs c = Z.min (Z.of_nat (length runs)) 2 /\
  match local_run c return Prop with
  | Some s => exists closed, runs = closed ++ [(s, (range v).2)] /\ local_base c = closed_total closed
  | None => (forall r, r ∈ runs -> r.2 <= (range v).1) /\ local_base c = closed_total runs /\
            forall a b, runs = [(a, b)] -> closed_width c = b - a
  end.

Lemma seed_share i c : seed i = Some c -> share_of i (runs_on [i]) c /\
  local_fits (local_base c) (local_run c) (range i).2 (local_runs c) (closed_width c) = true.
Proof.
  unfold seed. intros Hs. case_match; [|done]. apply bind_Some in Hs as (cost & _ & Hs). case_match; [|done].
  injection Hs as <-. unfold share_of. cbn [runs_on]. destruct (is_local_vertex i); cbn; (split; [|done]).
  - split_and!; [intros r ->%list_elem_of_singleton; lia|done|]. exists []. by destruct (range i).
  - split_and!; try done; by intros r ?%elem_of_nil.
Qed.

Lemma extend_share cv v w runs cw :
  (v < n)%nat -> (w < n)%nat -> (range w).1 = (range v).2 -> share_of v runs cv -> extend cv v w = Some cw ->
  share_of w (if is_local_vertex w then add_run runs (range w) else runs) cw /\
  local_fits (local_base cw) (local_run cw) (range w).2 (local_runs cw) (closed_width cw) = true.
Proof.
  intros Hv Hw Hedge (Hends & Hcount & Hrun) Hex. pose proof (ranges_ok v Hv). pose proof (ranges_ok w Hw).
  unfold extend in Hex. case_match; [done|]. unfold local_share in Hex.
  destruct (is_local_vertex w), (local_run cv) as [s|]; (case_match eqn:Hfit; [|done]);
    apply bind_Some in Hex as (st & _ & [= <-]); cbn; (split; [|done]); unfold share_of; cbn.
  - destruct Hrun as (closed & -> & ?). rewrite add_run_joins by done. split_and!.
    + intros r [Hr| ->%list_elem_of_singleton]%elem_of_app; [|cbn; lia]. specialize (Hends r ltac:(apply elem_of_app; by left)). lia.
    + by rewrite length_app in *.
    + by exists closed.
  - destruct Hrun as (Hend & ? & _). rewrite add_run_apart by (intros x Hx%Hend; lia). split_and!.
    + intros r [Hr%Hends| ->%list_elem_of_singleton]%elem_of_app; lia.
    + rewrite length_app. cbn. lia.
    + exists runs. by destruct (range w).
  - destruct Hrun as (closed & -> & Hbase). split_and!; [intros r Hr%Hends; lia|done|intros r Hr%Hends; lia| |].
    + by rewrite closed_total_snoc, <- Hbase.
    + intros a b Hab. destruct closed as [|? [|??]]; simplify_list_eq. by rewrite Hcount.
  - destruct Hrun as (Hend & ? & ?). split_and!; try done; intros r Hr%Hends; lia.
Qed.

(** A cell within this node's allowances: its runs add up within the bound, or are
    one run no wider than a fresh one. *)
Lemma share_within v runs c cap :
  share_of v runs c -> local_fits (local_base c) (local_run c) (range v).2 (local_runs c) (closed_width c) = true ->
  local_cap = Some cap ->
  closed_total runs <= cap \/ exists a b w, runs = [(a, b)] /\ local_fresh_run = Some w /\ b - a <= w.
Proof.
  intros (_ & Hcount & Hrun) Hfit Hcap. unfold local_fits in Hfit. rewrite Hcap in Hfit.
  assert (Htot : local_total (local_base c) (local_run c) (range v).2 = closed_total runs).
  { unfold local_total. destruct (local_run c) as [s|]; [|by destruct Hrun as (_ & ? & _)].
    destruct Hrun as (closed & -> & ->). by rewrite closed_total_snoc. }
  rewrite Htot in Hfit. destruct (Z.leb_spec (closed_total runs) cap); [by left|right].
  destruct local_fresh_run as [w|]; [|done].
  assert (Hone : local_runs c = 1 -> exists a b, runs = [(a, b)]).
  { intros Hr. rewrite Hr in Hcount. destruct runs as [|[a b] [|]]; cbn in Hcount; [lia|eauto|lia]. }
  destruct (local_run c) as [s|]; apply andb_true_iff in Hfit as [Hr%Z.eqb_eq Hw%Z.leb_le];
    destruct (Hone Hr) as (a & b & ->).
  - destruct Hrun as (closed & Heq & _). destruct closed as [|? [|??]]; simplify_list_eq. eauto 10.
  - destruct Hrun as (_ & _ & Hwidth). rewrite (Hwidth a b eq_refl) in Hw. eauto 10.
Qed.

Lemma chain_share v path c :
  chain_cell (v :: path) c -> (forall j, j ∈ v :: path -> (j < n)%nat) ->
  share_of v (runs_on (v :: path)) c /\
  local_fits (local_base c) (local_run c) (range v).2 (local_runs c) (closed_width c) = true.
Proof.
  intros Hch. remember (v :: path) as p eqn:Hp. revert v path Hp.
  induction Hch as [i c Hs|v path cv w cw Hch IH Hfv Hend Hedge Hex]; intros v' path' [= <- <-] Hn.
  - by apply seed_share.
  - eapply (extend_share cv v w); [apply Hn; right; left|apply Hn; left|done| |done].
    apply (IH v path); [done|]. intros j Hj. apply Hn. by right.
Qed.
End share.

Section sound.
Hypothesis infinity_not_finite : c_finite c_infinity = false.
Hypothesis ranges_ok : forall i, (i < n)%nat -> (range i).1 < (range i).2.

Lemma traced_insert parents path w p :
  w ∉ path -> traced parents path -> traced (<[w := p]> parents) path.
Proof.
  induction path as [|i [|j rest] IH]; cbn; [done| |]; intros [Hi Hr]%not_elem_of_cons.
  - intros ?. by rewrite list_lookup_insert_ne.
  - intros [? ?]. rewrite list_lookup_insert_ne by done. split; [done|exact (IH Hr H1)].
Qed.

Lemma chain_nonempty path c : chain_cell path c -> path <> [].
Proof. by destruct 1. Qed.

Lemma start_cells_lookup i c : start_cells !! i = Some c <-> (i < n)%nat /\ c = default empty_cell (seed i).
Proof.
  unfold start_cells. rewrite list_lookup_fmap, fmap_Some. split.
  - intros (j & [-> ?]%lookup_seq & ->). done.
  - intros [? ->]. exists i. by rewrite lookup_seq_lt.
Qed.

Lemma seed_parent i c : seed i = Some c -> parent c = None.
Proof. unfold seed. intros Hs. case_match; [|done]. apply bind_Some in Hs as (? & ? & Hs). by case_match; simplify_eq. Qed.

Lemma start_cells_ok : cells_ok [] start_cells.
Proof.
  split; [unfold start_cells; by rewrite length_map, length_seq|]. intros i c Hi Hf.
  pose proof Hi as [? Hc]%start_cells_lookup. destruct (seed i) as [c'|] eqn:Hs; cbn in Hc; subst c; [|cbn in Hf; congruence].
  exists []. split_and!; [by apply cc_seed| |set_solver].
  cbn. rewrite list_lookup_fmap, Hi. cbn. f_equal. by eapply seed_parent.
Qed.

Lemma relax_ok v done cells w :
  cells_ok done cells -> v ∈ done -> (v < n)%nat -> (forall j, j ∈ done -> starts_first j v) -> (range v).2 < num_layers ->
  (forall cv, cells !! v = Some cv -> c_finite (best_cost cv) = true) ->
  cells_ok done (relax v cells w).
Proof.
  intros [Hlen Hok] Hv Hvn Hsort Hend Hfin. unfold relax. destruct (Z.eqb_spec (range w).1 (range v).2) as [Hedge|]; [|done].
  destruct (cells !! v) as [cv|] eqn:Hcv; [|done]. destruct (cells !! w) as [cw|] eqn:Hcw; [|done].
  destruct (extend cv v w) as [new|] eqn:Hex; [|done]. destruct (c_lt _ _); [|done].
  assert (Hw : w ∉ done).
  { intros Hin. apply Hsort in Hin. unfold starts_first in Hin. pose proof (ranges_ok v Hvn). lia. }
  split; [by rewrite length_insert|]. intros i c Hi Hf.
  assert (Hpar : parent new = Some v) by (unfold extend in Hex; repeat case_match; simplify_option_eq; done).
  change (map parent (<[w:=new]> cells)) with (parent <$> <[w:=new]> cells). rewrite list_fmap_insert, Hpar.
  apply list_lookup_insert_Some in Hi as [(-> & <- & ?)|[Hne Hi]].
  - destruct (Hok v cv Hcv (Hfin cv eq_refl)) as (path & Hch & Htr & Hin). exists (v :: path). split_and!.
    + eapply cc_step; eauto.
    + split; [by rewrite list_lookup_insert_eq by (by rewrite length_map)|].
      apply (traced_insert _ (v :: path)); [|done]. intros [->|?%Hin]%elem_of_cons; by apply Hw.
    + intros j [->|?]%elem_of_cons; auto.
  - destruct (Hok i c Hi Hf) as (path & Hch & Htr & Hin). exists path. split_and!; [done| |done].
    apply traced_insert; [|done]. intros [->|?%Hin]%elem_of_cons; [done|by apply Hw].
Qed.

Lemma relax_keeps v cells w i : (range i).1 <> (range v).2 -> relax v cells w !! i = cells !! i.
Proof.
  intros Hne. unfold relax. destruct (Z.eqb_spec (range w).1 (range v).2); [|done].
  repeat case_match; try done. rewrite list_lookup_insert_ne; congruence.
Qed.

Lemma relaxes_keep v cells ws i : (range i).1 <> (range v).2 -> fold_left (relax v) ws cells !! i = cells !! i.
Proof. revert cells. induction ws as [|w ws IH]; cbn; intros cells Hne; [done|]. by rewrite IH, relax_keeps. Qed.

Lemma cells_ok_weaken done done' cells : (forall j, j ∈ done -> j ∈ done') -> cells_ok done cells -> cells_ok done' cells.
Proof. intros Hsub [? Hok]. split; [done|]. intros i c Hi Hf. destruct (Hok i c Hi Hf) as (p & ? & ? & ?). eauto 10. Qed.

Lemma visit_ok order done cells v :
  cells_ok done cells -> (v < n)%nat -> (forall j, j ∈ done -> starts_first j v) -> cells_ok (v :: done) (visit order cells v).
Proof.
  intros Hok Hv Hsort. apply (cells_ok_weaken _ (v :: done)) in Hok; [|set_solver]. unfold visit.
  destruct (cells !! v) as [cv|] eqn:Hcv; [|done]. destruct (_ && _) eqn:Hgo; [|done].
  apply andb_true_iff in Hgo as [Hf Hend%Z.ltb_lt]. pose proof (ranges_ok v Hv).
  assert (Hfin : forall (cells' : list (Cell C)), cells' !! v = Some cv ->
    forall cv', cells' !! v = Some cv' -> c_finite (best_cost cv') = true) by (intros cells' ? cv' ?; congruence).
  revert cells Hok Hcv. induction order as [|w order IH]; cbn; intros cells Hok Hcv; [done|]. apply IH.
  - apply relax_ok; eauto; [left|]. intros j [->|?]%elem_of_cons; [unfold starts_first; lia|auto].
  - rewrite relax_keeps by lia. done.
Qed.

Lemma pass_ok order :
  StronglySorted starts_first order -> (forall i, i ∈ order -> (i < n)%nat) -> cells_ok (reverse order) (run_cells order).
Proof.
  intros Hsort Hn. unfold run_cells.
  assert (Hgen : forall todo seen cells, cells_ok seen cells -> StronglySorted starts_first todo ->
    (forall i, i ∈ todo -> (i < n)%nat) -> (forall i j, i ∈ seen -> j ∈ todo -> starts_first i j) ->
    cells_ok (reverse todo ++ seen) (fold_left (visit order) todo cells)).
  { induction todo as [|v todo IH]; cbn [fold_left]; intros seen cells Hok Hs Hb Hd; [done|].
    apply StronglySorted_inv in Hs as [Hs Hv]. rewrite list.Forall_forall in Hv.
    rewrite reverse_cons, <- (assoc (++)). apply IH; [|done| |].
    - apply visit_ok; [done|apply Hb; left|]. intros j ?. apply Hd; [done|left].
    - intros i ?. apply Hb. by right.
    - intros i j [->|?]%elem_of_cons ?; [by apply Hv|apply Hd; [done|by right]]. }
  rewrite <- (app_nil_r (reverse order)). apply Hgen; [apply start_cells_ok|done|done|set_solver].
Qed.

(** *** What a chain is *)

(** Each vertex begins where the one before it ends, the last of the list at a source. *)
Fixpoint linked (path : list nat) : Prop :=
  match path with
  | [] => False
  | [i] => source_ok i = true
  | i :: ((j :: _) as rest) => (range i).1 = (range j).2 /\ linked rest
  end.

(** No two vertices of the list share a capped peer. *)
Definition bits_apart (path : list nat) : Prop :=
  forall a b i j, path !! a = Some i -> path !! b = Some j -> a <> b -> Z.land (bit_of i) (bit_of j) = 0.

Lemma extend_spec cv v w cw :
  extend cv v w = Some cw ->
  Z.land (used_capped cv) (bit_of w) = 0 /\ used_capped cw = Z.lor (used_capped cv) (bit_of w).
Proof.
  unfold extend. intros Hex. destruct (negb (bit_of w =? 0) && _) eqn:Hb; [done|].
  destruct (local_share cv v w) as [[[base run] runs] closed]. case_match; [|done].
  apply bind_Some in Hex as (st & _ & [= <-]). split; [|done].
  apply andb_false_iff in Hb as [Hz%negb_false_iff|Hz%negb_false_iff]; apply Z.eqb_eq in Hz; [|done].
  by rewrite Hz, Z.land_0_r.
Qed.

Lemma chain_linked path c : chain_cell path c -> linked path.
Proof.
  induction 1 as [i c Hs|v path cv w cw Hch IH ? ? ? ?]; [|by split].
  unfold seed in Hs. cbn. by case_match.
Qed.

Lemma chain_used path c j : chain_cell path c -> j ∈ path -> Z.land (used_capped c) (bit_of j) = bit_of j.
Proof.
  induction 1 as [i c Hs|v path cv w cw Hch IH ? ? ? Hex].
  - intros ->%list_elem_of_singleton. unfold seed in Hs. case_match; [|done].
    apply bind_Some in Hs as (? & ? & Hs). case_match; simplify_eq. cbn. apply Z.land_diag.
  - apply extend_spec in Hex as [_ ->]. rewrite Z.land_lor_distr_l. intros [->|Hj]%elem_of_cons.
    + rewrite Z.land_diag. apply Z.bits_inj'. intros b Hb. rewrite Z.lor_spec, Z.land_spec.
      destruct (Z.testbit (bit_of w) b); [by rewrite orb_true_r|by rewrite andb_false_r].
    + rewrite (IH Hj). apply Z.bits_inj'. intros b Hb. rewrite Z.lor_spec, Z.land_spec.
      destruct (Z.testbit (bit_of j) b); [done|by rewrite andb_false_r].
Qed.

Lemma chain_bits path c : chain_cell path c -> bits_apart path.
Proof.
  induction 1 as [i c Hs|v path cv w cw Hch IH ? ? ? Hex].
  - intros [|a] [|b] ? ?; cbn; try done; by rewrite ?lookup_nil.
  - apply extend_spec in Hex as [Hland _].
    assert (Hw : forall j, j ∈ v :: path -> Z.land (bit_of j) (bit_of w) = 0).
    { intros j Hj. rewrite <- (chain_used _ _ j Hch Hj), <- Z.land_assoc, (Z.land_comm (bit_of j)), Z.land_assoc, Hland.
      apply Z.land_0_l. }
    intros [|a] [|b] i j; cbn; try done.
    + intros [= <-] Hj _. rewrite Z.land_comm. apply Hw. by eapply list_elem_of_lookup_2.
    + intros Hi [= <-] _. apply Hw. by eapply list_elem_of_lookup_2.
    + intros Hi Hj Hne. apply (IH a b); auto.
Qed.

Lemma linked_starts i path :
  linked (i :: path) -> (forall j, j ∈ i :: path -> (j < n)%nat) -> forall j, j ∈ path -> (range j).1 < (range i).1.
Proof.
  revert i. induction path as [|k path IH]; intros i Hl Hn j; [by intros ?%elem_of_nil|].
  destruct Hl as [Hik Hl]. pose proof (ranges_ok k (Hn k ltac:(set_solver))). intros [->|Hj]%elem_of_cons; [lia|].
  specialize (IH k Hl ltac:(set_solver) j Hj). lia.
Qed.

Lemma linked_nodup path : linked path -> (forall j, j ∈ path -> (j < n)%nat) -> NoDup path.
Proof.
  induction path as [|i path IH]; intros Hl Hn; [constructor|]. apply list.NoDup_cons. split.
  - intros Hi. pose proof (linked_starts i path Hl Hn i Hi). lia.
  - destruct path as [|j path]; [constructor|]. apply IH; [apply Hl|]. intros k ?. apply Hn. by right.
Qed.

Lemma traced_bound parents path j : traced parents path -> j ∈ path -> (j < length parents)%nat.
Proof.
  induction path as [|i [|k rest] IH]; [done| |].
  - cbn. intros Hp ->%list_elem_of_singleton. by eapply lookup_lt_Some.
  - intros [Hp Ht] [->|Hj]%elem_of_cons; [by eapply lookup_lt_Some|by apply IH].
Qed.

(** The reconstruction follows a traced path to its source. *)
Lemma walk_back_traced parents i path fuel acc :
  traced parents (i :: path) -> (length path < fuel)%nat ->
  walk_back fuel parents (Some i) acc = Some (reverse (i :: path) ++ acc).
Proof.
  revert i fuel acc. induction path as [|j path IH]; intros i fuel acc Htr Hf; (destruct fuel as [|fuel]; [cbn in Hf; lia|]).
  - cbn in Htr. cbn [walk_back]. rewrite Htr. cbn [mbind option_bind id]. by destruct fuel.
  - destruct Htr as [Hp Htr]. cbn [walk_back]. rewrite Hp. cbn [mbind option_bind id].
    rewrite IH; [|done|cbn in Hf; lia]. by rewrite (reverse_cons (j :: path) i), <- (assoc (++)).
Qed.

Lemma fold_cheaper_in sinks s : fold_left cheaper sinks s ∈ s :: sinks.
Proof.
  revert s. induction sinks as [|x sinks IH]; intros s; [by left|]. cbn [fold_left]. unfold cheaper at 2.
  specialize (IH (if c_lt x.2 s.2 then x else s)). destruct (c_lt x.2 s.2); set_solver.
Qed.

Lemma best_sink_some cells i cost :
  best_sink cells = Some (i, cost) ->
  exists cell, cells !! i = Some cell /\ is_sink i = true /\ sink_cost (best_cost cell) i = Some cost.
Proof.
  unfold best_sink. destruct (omap _ _) as [|s sinks] eqn:Ho; [done|]. cbn [min_sink]. intros [= Hs].
  assert (Hin : (i, cost) ∈ s :: sinks) by (rewrite <- Hs; apply fold_cheaper_in).
  rewrite <- Ho in Hin. apply list_elem_of_omap in Hin as (j & _ & Hj).
  apply bind_Some in Hj as (cell & Hc & Hj). case_match; [|done]. apply bind_Some in Hj as (k & Hk & [= -> ->]). eauto.
Qed.

Hypothesis sink_finite : forall b i c, sink_cost b i = Some c -> c_finite c = true -> c_finite b = true.

(** The pass returns a chain from a source to a sink, which the reconstruction finds. *)
Lemma run_pass_sound order parents i cost :
  StronglySorted starts_first order -> (forall j, j ∈ order -> (j < n)%nat) ->
  run_pass order = Some (parents, i, cost) ->
  exists path cell, chain_cell (i :: path) cell /\ is_sink i = true /\ sink_cost (best_cost cell) i = Some cost /\
    c_finite cost = true /\ (forall j, j ∈ i :: path -> (j < n)%nat) /\
    walk_back (S n) parents (Some i) [] = Some (reverse (i :: path)).
Proof.
  intros Hs Hn Hrun. unfold run_pass in Hrun. cbn zeta in Hrun. apply bind_Some in Hrun as ([i' cost'] & Hb & Hr).
  destruct (c_finite cost') eqn:Hf; [|done]. injection Hr as <- <- <-.
  apply best_sink_some in Hb as (cell & Hc & Hsink & Hcost). destruct (pass_ok order Hs Hn) as [Hlen Hok].
  destruct (Hok i' cell Hc) as (path & Hch & Htr & _); [by eapply sink_finite|].
  assert (Hbound : forall j, j ∈ i' :: path -> (j < n)%nat).
  { intros j Hj. rewrite <- Hlen, <- (length_map parent). by eapply traced_bound. }
  exists path, cell. split_and!; [done..|]. rewrite (walk_back_traced _ _ path); [by rewrite app_nil_r|done|].
  pose proof (linked_nodup _ (chain_linked _ _ Hch) Hbound) as Hnd.
  assert (Hsub : i' :: path ⊆+ seq 0 n).
  { apply NoDup_submseteq; [done|]. intros j ?%Hbound. apply elem_of_seq. lia. }
  apply submseteq_length in Hsub. rewrite length_seq in Hsub. cbn in Hsub. lia.
Qed.
End sound.
End pass.
