(* ===== verification/RouteSearch.v ===== *)
(** * The route search ([route_over] and [route_shortest_path] of [src/inference/scheduler/parallax.rs])

    From the candidates' ranges and memory bounds to a chain of segments: the layers
    where a segment may begin or end ([split_points]), the vertices those cuts and
    bounds allow ([vertices]), the passes over them ([RoutePass]) - one driven from
    here and one per head that may lead - first with the prompt-trust bar and then
    without, and the checks on the chain found.  Logging is left out. *)
From Stdlib Require Import Floats.SpecFloat.
From stdpp Require Import sorting.
From S2P Require Import Prelude Bytes ForwardTypes Floats RangeWeights KvSessions Candidate RouteCost RoutePass.
#[local] Open Scope Z_scope.

Definition MAX_SUBRANGE_VERTICES : Z := 4096.

(** [sort_unstable] and [dedup]. *)
Fixpoint dedup (l : list Z) : list Z :=
  match l with
  | x :: ((y :: _) as rest) => if x =? y then dedup rest else x :: dedup rest
  | _ => l
  end.
Definition sort_dedup (l : list Z) : list Z := dedup (merge_sort Z.le l).

Definition subrange_cost (points : list Z) (clamped : list (nat * (Z * Z))) : Z :=
  fold_left (fun sum '(_, (lo, hi)) =>
    let k := Z.of_nat (length (filter (fun p => lo <= p <= hi) points)) in sum + k * Z.max (k - 1) 0 / 2) clamped 0.
Definition capacity_points_fit_budget (with_capacity : list Z) (clamped : list (nat * (Z * Z))) (cap : Z) : bool :=
  subrange_cost with_capacity clamped <=? cap.

Record Vertex : Type := { v_cand_idx : nat; v_range : Z * Z; v_cost_ms : spec_float; v_led_cost_ms : option spec_float }.

Section route.
Context (num_layers : Z) (candidates : list NodeCandidate) (local_node_id : NodeId)
  (encrypted_pipeline partial_ranges : bool) (capacity : CapacityBound) (prompt_tokens : option Z) (meet_held : bool).

Definition is_local (c : NodeCandidate) : bool := is_node c local_node_id.

(** ** Where a segment may begin or end *)

Definition range_ends (c : NodeCandidate) : list Z :=
  flat_map (fun '(a, b) => (if a <? num_layers then [a] else []) ++
                           (let b := Z.min b num_layers in if 0 <? b then [b] else [])) (nc_available_ranges c).

Definition boomerang_points : list Z :=
  if encrypted_pipeline && (3 <=? num_layers)
     && existsb (fun c => is_local c && existsb (fun '(a, b) => (a =? 0) && (num_layers <=? b)) (nc_available_ranges c))
          candidates
  then [1; num_layers - 1] else [].

Definition held_points : list Z :=
  sort_dedup (filter (fun p => 0 < p < num_layers)
    (flat_map (fun c => flat_map (fun h => [(h_range h).1; (h_range h).2]) (nc_held_ranges c)) candidates)).

Definition declared_points : list Z :=
  sort_dedup ([0; num_layers] ++ flat_map range_ends candidates ++ boomerang_points ++ held_points).

Definition indexed {A} (l : list A) : list (nat * A) := zip (seq 0 (length l)) l.

Definition clamped : list (nat * (Z * Z)) :=
  filter (fun '(_, (a, b)) => a < b)
    (flat_map (fun '(i, c) => map (fun '(a, b) => (i, (a, Z.min b num_layers))) (nc_available_ranges c))
      (indexed candidates)).

Definition vertex_cap (c : NodeCandidate) : option spec_float :=
  if is_local c then (if binds_local capacity then F64.of_Z <$> nc_max_hostable_layers c else None)
  else peer_cap capacity c.

Definition fresh_run_of (c : NodeCandidate) : option Z :=
  if is_local c && binds_local capacity then nc_fresh_run_layers c else None.

(** The ends of the widest prefix and suffix of a range that fit each bound: the
    first pass's figures, then this pass's. *)
Definition capacity_points (c : NodeCandidate) (a b : Z) : list Z * list Z :=
  let below := Z.to_nat (b - a) in
  let first_pass := match nc_max_hostable_layers c with
    | Some k => if 0 <? k then
        [furthest_end_in_bound c a b k; default b (find_up below a (fun s => width_in_bound c (s, b) <=? k))] else []
    | None => []
    end in
  let this_pass := match vertex_cap c with
    | Some k =>
        [default a (find_down below b (fun e => SFleb (capacity_charge c (a, e)) k));
         default b (find_up below a (fun s => SFleb (capacity_charge c (s, b)) k))]
    | None => []
    end ++ match fresh_run_of c with
    | Some w => if 0 <? w then [Z.min (u32_saturating_add a w) b; Z.max (u32_saturating_sub b w) a] else []
    | None => []
    end in
  let inside := filter (fun p => a < p < b /\ 0 < p < num_layers) in
  (inside first_pass, inside this_pass).

Definition all_capacity_points : list (list Z * list Z) :=
  flat_map (fun c => flat_map (fun '(a, b) => let b := Z.min b num_layers in if b <=? a then [] else [capacity_points c a b])
                       (nc_available_ranges c)) candidates.

Definition split_points : list Z :=
  let with_capacity := sort_dedup (declared_points ++ flat_map (fun '(f, t) => f ++ t) all_capacity_points) in
  let at_this_pass := sort_dedup (declared_points ++ flat_map snd all_capacity_points) in
  if (length declared_points <? length with_capacity)%nat then
    if capacity_points_fit_budget with_capacity clamped MAX_SUBRANGE_VERTICES then with_capacity
    else if (length declared_points <? length at_this_pass)%nat
            && capacity_points_fit_budget at_this_pass clamped MAX_SUBRANGE_VERTICES then at_this_pass
    else declared_points
  else declared_points.

Definition split_enabled : bool := partial_ranges && (subrange_cost split_points clamped <=? MAX_SUBRANGE_VERTICES).

(** ** The vertices *)

Definition fits (c : NodeCandidate) (range : Z * Z) : bool :=
  match vertex_cap c with None => true | Some k => SFleb (capacity_charge c range) k end
  || match fresh_run_of c with Some w => range.2 - range.1 <=? w | None => false end.

Definition push_vertex (cand_idx : nat) (c : NodeCandidate) (range : Z * Z) : list Vertex :=
  if fits c range then
    let led_role := if range.1 =? 0
      then (if may_lead_a_chain c local_node_id then Some LeadsTheChain else None)
      else (if may_join_a_led_chain c local_node_id then Some InLedChain else None) in
    [{| v_cand_idx := cand_idx; v_range := range;
        v_cost_ms := cost_total (vertex_cost c range local_node_id num_layers prompt_tokens);
        v_led_cost_ms := (fun role => cost_total (vertex_cost_as c range local_node_id num_layers prompt_tokens role 0))
                           <$> led_role |}]
  else [].

(** The points of [points] up to [hi], in order. *)
Fixpoint up_to (hi : Z) (points : list Z) : list Z :=
  match points with q :: points => if hi <? q then [] else q :: up_to hi points | [] => [] end.

(** Every sub-range of (lo, hi) between two of the points. *)
Fixpoint subranges (lo hi : Z) (points : list Z) : list (Z * Z) :=
  match points with
  | [] => []
  | p :: rest =>
      (if (p <? lo) || (hi <=? p) then [] else filter (fun r => r <> (lo, hi)) (map (pair p) (up_to hi rest)))
      ++ subranges lo hi rest
  end.

(** A candidate's own held ranges inside one of its ranges. *)
Definition own_held (c : NodeCandidate) (lo hi : Z) : list (Z * Z) :=
  filter (fun r => lo <= r.1 /\ r.2 <= hi /\ r.1 < r.2 /\ r <> (lo, hi))
    (map (fun h => ((h_range h).1, Z.min (h_range h).2 num_layers)) (nc_held_ranges c)).

Definition ranges_offered (c : NodeCandidate) (lo hi : Z) : list (Z * Z) :=
  (lo, hi) ::
  (if negb split_enabled && fits c (lo, hi)
   then own_held c lo hi ++
        (if meet_held then flat_map (fun p => [(lo, p); (p, hi)]) (filter (fun p => lo < p < hi) held_points) else [])
   else subranges lo hi split_points).

Definition vertices : list Vertex :=
  flat_map (fun '(i, (lo, hi)) =>
    match candidates !! i with
    | Some c => flat_map (push_vertex i c) (ranges_offered c lo hi)
    | None => []
    end) clamped.

(** ** Sources, sinks and order *)

Definition cand_of (v : Vertex) : option NodeCandidate := candidates !! v_cand_idx v.

Definition source_ok (v : Vertex) (apply_trust : bool) : bool :=
  match cand_of v with
  | Some c => ((v_range v).1 =? 0) && nc_can_be_first c && negb (encrypted_pipeline && negb (is_local c))
              && negb (apply_trust && negb (trusted_with_the_plaintext_prompt c local_node_id))
  | None => false
  end.

Definition is_sink (v : Vertex) : bool :=
  match cand_of v with
  | Some c => ((v_range v).2 =? num_layers) && nc_can_be_last c && negb (encrypted_pipeline && negb (is_local c))
  | None => false
  end.

(** [order.sort_by]: stable, so by start, end and then place. *)
Definition before (vs : list Vertex) (a b : nat) : Prop :=
  match vs !! a, vs !! b with
  | Some va, Some vb =>
      (v_range va).1 < (v_range vb).1 \/
      ((v_range va).1 = (v_range vb).1 /\ ((v_range va).2 < (v_range vb).2 \/ ((v_range va).2 = (v_range vb).2 /\ (a <= b)%nat)))
  | _, _ => (a <= b)%nat
  end.
#[export] Instance before_dec vs a b : Decision (before vs a b).
Proof. unfold before. repeat case_match; apply _. Defined.
Definition topological (vs : list Vertex) : list nat := merge_sort (before vs) (seq 0 (length vs)).

(** ** Bounds carried along a chain *)

(** The capped candidates, in order of appearance; none past 64. *)
Fixpoint capped_from (vs : list Vertex) (capped : list nat) : list nat :=
  match vs with
  | [] => capped
  | v :: vs =>
      match cand_of v with
      | Some c =>
          if negb (is_local c) && bool_decide (is_Some (peer_cap capacity c)) && bool_decide (v_cand_idx v ∉ capped)
          then (if (64 <=? length capped)%nat then [] else capped_from vs (capped ++ [v_cand_idx v]))
          else capped_from vs capped
      | None => capped_from vs capped
      end
  end.

Fixpoint place_of (x : nat) (l : list nat) : option nat :=
  match l with [] => None | y :: l => if (x =? y)%nat then Some O else S <$> place_of x l end.

(** [1u64 << b]. *)
Definition bit_of (capped : list nat) (v : Vertex) : Z :=
  match place_of (v_cand_idx v) capped with Some b => Z.shiftl 1 (Z.of_nat b) | None => 0 end.

Definition local_candidate : option NodeCandidate := List.find is_local candidates.
Definition local_cap : option Z :=
  if binds_local capacity then c ← local_candidate; (fun k => Z.max k 1) <$> nc_max_hostable_layers c else None.
Definition local_fresh_run : option Z :=
  if binds_local capacity then c ← local_candidate; nc_fresh_run_layers c else None.
Definition local_added (range : Z * Z) : Z :=
  match local_candidate with Some c => layers_charged c range | None => range.2 - range.1 end.

(** ** The passes *)

Section passes.
Context (vs : list Vertex) (apply_trust : bool) (led_by : option nat).

Definition of_vertex {A} (none : A) (f : Vertex -> A) (i : nat) : A :=
  match vs !! i with Some v => f v | None => none end.
Definition cand_at (i : nat) : option NodeCandidate := vs !! i ≫= cand_of.

(** A vertex's cost with [ahead] layers of its machine's run before it. *)
Definition cost_in_run (w : nat) (ahead : Z) (led : bool) : option spec_float :=
  v ← vs !! w;
  c ← cand_of v;
  let precomputed := if led then v_led_cost_ms v else Some (v_cost_ms v) in
  if (ahead =? 0) || bool_decide (nc_card_layers c = None) then precomputed
  else
    let role := if led then (if (v_range v).1 =? 0 then LeadsTheChain else InLedChain) else DrivenFromHere in
    (fun _ => cost_total (vertex_cost_as c (v_range v) local_node_id num_layers prompt_tokens role ahead)) <$> precomputed.

Definition seed_cost (i : nat) : option spec_float :=
  v ← vs !! i;
  match led_by with
  | None => Some (v_cost_ms v)
  | Some h => if (i =? h)%nat then v_led_cost_ms v else None
  end.

Definition hop_between (v w : nat) : option spec_float :=
  from ← cand_at v; to ← cand_at w; led_hop_ms from to.

Definition step_cost (v w : nat) (ahead : Z) : option spec_float :=
  match led_by with
  | None => cost_in_run w ahead false
  | Some _ => own ← cost_in_run w ahead true; hop ← hop_between v w; Some (F32v.add own hop)
  end.

Definition sink_cost (best : spec_float) (i : nat) : option spec_float :=
  match led_by with
  | None => Some best
  | Some h => if (i =? h)%nat then None else closing ← hop_between i h; Some (F32v.add best closing)
  end.

Definition route_pass : option (list (option nat) * nat * spec_float) :=
  run_pass num_layers (length vs) (of_vertex (0, 0) v_range) (of_vertex O v_cand_idx)
    (of_vertex 0 (bit_of (capped_from vs []))) (of_vertex false (fun v => match cand_of v with Some c => is_local c | None => false end))
    local_added local_cap local_fresh_run
    (of_vertex false (fun v => source_ok v apply_trust)) (of_vertex false is_sink) seed_cost step_cost sink_cost
    (topological vs).
End passes.

Definition led_heads (vs : list Vertex) : list nat :=
  List.filter (fun h => match vs !! h with
    | Some v => ((v_range v).1 =? 0) && bool_decide (is_Some (v_led_cost_ms v)) | None => false end) (seq 0 (length vs)).

(** Every pass for one trust setting, the cheapest winning. *)
Definition search (vs : list Vertex) (apply_trust : bool) : option (list (option nat) * nat * spec_float) :=
  fold_left (fun best h =>
    match route_pass vs apply_trust (Some h) with
    | Some led =>
        match best with
        | Some b => if F32v.lt led.2 b.2 then Some led else Some b
        | None => Some led
        end
    | None => best
    end) (led_heads vs) (route_pass vs apply_trust None).

(** ** The chain and its checks *)

Definition segment_at (vs : list Vertex) (i : nat) : option PipelineSegment :=
  v ← vs !! i; c ← cand_of v;
  Some {| seg_node_id := nc_node_id c; seg_shard_id := nc_shard_id c; seg_layer_range := v_range v |}.

(** This node's segments, adjacent ones joined ([add_run]). *)
Definition local_runs_of (segments : list PipelineSegment) : list (Z * Z) :=
  fold_left add_run (map seg_layer_range (filter (fun s => seg_node_id s = local_node_id) segments)) [].

Definition local_share_ok (segments : list PipelineSegment) : outcome unit :=
  if binds_local capacity then
    match c ← local_candidate; nc_max_hostable_layers c with
    | Some cap =>
        let runs := local_runs_of segments in
        let one_fresh_run := match runs with
          | [(start, end_)] => match local_fresh_run with Some w => end_ - start <=? w | None => false end
          | _ => false
          end in
        let ours := fold_left Z.add (map local_added runs) 0 in
        if (Z.max cap 1 <? ours) && negb one_fresh_run
        then Err (PipelineError ("parallax: this node would take " +:+ pretty ours +:+
               " layers across its segments, more than the " +:+ pretty cap +:+ " it can hold"))
        else Ok tt
    | None => Ok tt
    end
  else Ok tt.

Fixpoint contiguous_from (expect : Z) (segments : list PipelineSegment) : outcome unit :=
  match segments with
  | [] => if expect =? num_layers then Ok tt
          else Err (PipelineError ("parallax: chain ends at " +:+ pretty expect +:+ ", want " +:+ pretty num_layers))
  | s :: segments =>
      if (seg_layer_range s).1 =? expect then contiguous_from (seg_layer_range s).2 segments
      else Err (PipelineError ("parallax: non-contiguous chain at layer " +:+ pretty expect))
  end.

Definition route_over : outcome (list PipelineSegment) :=
  if num_layers =? 0 then Err (PipelineError "num_layers=0")
  else
    let vs := vertices in
    if bool_decide (vs = []) then Err (PipelineError "parallax: no candidate ranges")
    else if negb (existsb (fun v => source_ok v false) vs)
    then Err (PipelineError "parallax: no valid source vertex (starts at layer 0, can_be_first)")
    else if negb (existsb is_sink vs)
    then Err (PipelineError "parallax: no valid sink vertex (ends at num_layers, can_be_last)")
    else
      match (match search vs true with Some found => Some found | None => search vs false end) with
      | None => Err (PipelineError "parallax: no reachable source→sink path")
      | Some (parents, sink_idx, _) =>
          match walk_back (S (length vs)) parents (Some sink_idx) [] with
          | None => Panic
          | Some chain =>
              let segments := omap (segment_at vs) chain in
              _ ← local_share_ok segments;
              _ ← contiguous_from 0 segments;
              Ok segments
          end
      end.
End route.

Definition route_shortest_path (num_layers : Z) (candidates : list NodeCandidate) (local_node_id : NodeId)
    (encrypted_pipeline partial_ranges : bool) (capacity : CapacityBound) (prompt_tokens : option Z)
  : outcome (list PipelineSegment) :=
  let over := route_over num_layers candidates local_node_id encrypted_pipeline partial_ranges capacity prompt_tokens in
  match over false with
  | Err e =>
      if negb partial_ranges && existsb (fun c => negb (bool_decide (nc_held_ranges c = []))) candidates
      then match over true with Ok segments => Ok segments | Panic => Panic | Err _ => Err e end
      else Err e
  | r => r
  end.

(** [PipelineScheduler::merge_contiguous]. *)
Definition merge_one (merged : list PipelineSegment) (seg : PipelineSegment) : list PipelineSegment :=
  match reverse merged with
  | last :: earlier =>
      if bool_decide (seg_node_id last = seg_node_id seg) && ((seg_layer_range last).2 =? (seg_layer_range seg).1)
      then reverse earlier ++ [{| seg_node_id := seg_node_id last; seg_shard_id := seg_shard_id last;
                                  seg_layer_range := ((seg_layer_range last).1, (seg_layer_range seg).2) |}]
      else merged ++ [seg]
  | [] => [seg]
  end.
Definition merge_contiguous (segments : list PipelineSegment) : list PipelineSegment := fold_left merge_one segments [].
