(* ===== verification/RouteTheorems.v ===== *)
(** * The route search is sound

    Every chain [route_over] returns is a pipeline: it covers the model once, in
    order, with ranges its machines hold, starts and ends where prompt privacy and
    the shards allow, and keeps every machine to its memory bound; and the search
    ends with a chain or with the reason there is none. *)
From Stdlib Require Import Floats.SpecFloat Sorted.
From stdpp Require Import sorting.
From S2P Require Import Prelude Bytes ForwardTypes Floats RangeWeights KvSessions Candidate RouteCost RoutePass RouteSearch.
#[local] Open Scope Z_scope.

(** ** Sorted points *)

Lemma dedup_two y z l : dedup (y :: z :: l) = if y =? z then dedup (z :: l) else y :: dedup (z :: l).
Proof. reflexivity. Qed.

Lemma dedup_elem x l : x ∈ dedup l <-> x ∈ l.
Proof.
  induction l as [|y [|z l] IH]; [done|done|]. rewrite dedup_two. destruct (Z.eqb_spec y z) as [<-|].
  - rewrite IH. set_solver.
  - rewrite !(elem_of_cons _ x y), IH. done.
Qed.

Lemma dedup_sorted l : StronglySorted Z.le l -> StronglySorted Z.lt (dedup l).
Proof.
  induction l as [|y [|z l] IH]; intros Hs; [constructor|repeat constructor|]. rewrite dedup_two.
  pose proof Hs as [Hs' Hy]%StronglySorted_inv. destruct (Z.eqb_spec y z) as [<-|Hne]; [auto|].
  constructor; [auto|]. apply list.Forall_forall. intros x Hx%(proj1 (dedup_elem _ _)). rewrite list.Forall_forall in Hy.
  pose proof (Hy z ltac:(set_solver)). apply StronglySorted_inv in Hs' as [_ Hz]. rewrite list.Forall_forall in Hz.
  apply elem_of_cons in Hx as [->|Hx]; [lia|]. specialize (Hz x Hx). lia.
Qed.

Lemma sort_dedup_sorted l : StronglySorted Z.lt (sort_dedup l).
Proof. apply dedup_sorted, (StronglySorted_merge_sort Z.le). Qed.

Lemma split_points_sorted nl cs local enc cap : StronglySorted Z.lt (split_points nl cs local enc cap).
Proof. unfold split_points, declared_points. repeat case_match; apply sort_dedup_sorted. Qed.

Lemma up_to_elem hi l q : q ∈ up_to hi l -> q ∈ l /\ q <= hi.
Proof.
  induction l as [|x l IH]; cbn; [by intros ?%elem_of_nil|]. destruct (Z.ltb_spec hi x); [by intros ?%elem_of_nil|].
  intros [->|?%IH]%elem_of_cons; set_solver.
Qed.

Lemma subranges_inside lo hi points r :
  StronglySorted Z.lt points -> r ∈ subranges lo hi points -> lo <= r.1 /\ r.1 < r.2 /\ r.2 <= hi.
Proof.
  induction points as [|p rest IH]; cbn; [by intros _ ?%elem_of_nil|]. intros [Hs Hp]%StronglySorted_inv Hr.
  apply elem_of_app in Hr as [Hr|]; [|auto]. destruct ((p <? lo) || (hi <=? p)) eqn:Hb; [by apply elem_of_nil in Hr|].
  apply orb_false_iff in Hb as [? ?]. apply list_elem_of_filter in Hr as [_ Hr].
  apply list_elem_of_fmap in Hr as (q & -> & Hq). apply up_to_elem in Hq as [Hq ?].
  rewrite list.Forall_forall in Hp. specialize (Hp q Hq). cbn. lia.
Qed.

(** ** Order *)

Lemma sorted_impl {A} (R S : A -> A -> Prop) l :
  (forall x y, x ∈ l -> y ∈ l -> R x y -> S x y) -> StronglySorted R l -> StronglySorted S l.
Proof.
  induction l as [|x l IH]; intros HRS; [constructor|]. intros [Hl Hx]%StronglySorted_inv. constructor.
  - apply IH; [|done]. intros a b ? ?. apply HRS; by right.
  - rewrite list.Forall_forall in Hx |- *. intros y Hy. apply HRS; [left|by right|auto].
Qed.

Section order.
Context (vs : list Vertex).

#[local] Instance before_total : Total (before vs).
Proof. intros a b. unfold before. destruct (vs !! a), (vs !! b); lia. Qed.
#[local] Instance before_transitive : Transitive (before vs).
Proof.
  intros a b c. unfold before.
  destruct (vs !! a) eqn:Ha, (vs !! b) eqn:Hb, (vs !! c) eqn:Hc; try lia;
    repeat match goal with H : _ !! _ = Some _ |- _ => apply lookup_lt_Some in H
                      | H : _ !! _ = None |- _ => apply lookup_ge_None in H end; lia.
Qed.

Lemma topological_elem i : i ∈ topological vs <-> (i < length vs)%nat.
Proof. unfold topological. rewrite merge_sort_Permutation, elem_of_seq. lia. Qed.

(** The vertices in the order of their first layers. *)
Lemma topological_sorted : StronglySorted (starts_first (of_vertex vs (0, 0) v_range)) (topological vs).
Proof.
  eapply sorted_impl, StronglySorted_merge_sort; [|apply _..]. intros a b Ha Hb Hab.
  apply (proj1 (topological_elem _)), lookup_lt_is_Some_2 in Ha as [va Ha].
  apply (proj1 (topological_elem _)), lookup_lt_is_Some_2 in Hb as [vb Hb].
  unfold starts_first, of_vertex. unfold before in Hab. rewrite Ha, Hb in *. lia.
Qed.
End order.

(** ** f32 sums *)

Lemma f32_add_finite a b : F32v.is_finite (F32v.add a b) = true -> F32v.is_finite a = true.
Proof. by destruct a as [[]|[]| |[]], b as [[]|[]| |[]]. Qed.

(** ** Capped peers *)

Lemma place_of_elem x l : x ∈ l -> is_Some (place_of x l).
Proof.
  induction l as [|y l IH]; [by intros ?%elem_of_nil|]. cbn. destruct (Nat.eqb_spec x y); [by eexists|].
  intros [?|Hx]%elem_of_cons; [done|]. destruct (IH Hx) as [k ->]. by eexists.
Qed.

(** Distinct places of a list at which a predicate holds are no more than what it keeps. *)
Lemma NoDup_places_filter {A} (f : A -> bool) (l : list A) (places : list nat) :
  NoDup places -> (forall i, i ∈ places -> exists x, l !! i = Some x /\ f x = true) ->
  (length places <= length (filter (fun x => f x = true) l))%nat.
Proof.
  revert places. induction l as [|x l IH] using rev_ind; intros places Hnd Hat.
  { destruct places as [|i places]; [done|]. destruct (Hat i ltac:(left)) as (? & ? & _). done. }
  assert (Hbelow : forall i, i ∈ places -> i <> length l -> exists y, l !! i = Some y /\ f y = true).
  { intros i Hi Hne. destruct (Hat i Hi) as (y & Hy & Hf). exists y. split; [|done]. by apply lookup_snoc_Some in Hy as [[_ ?]|[? _]]. }
  rewrite list.filter_app, length_app. destruct (decide (length l ∈ places)) as [Hlast|Hlast].
  - destruct (elem_of_Permutation places (length l)) as [Hp _]. destruct (Hp Hlast) as [rest Hrest]. rewrite Hrest in Hnd |- *. apply list.NoDup_cons in Hnd as [Hnew Hnd].
    destruct (Hat _ Hlast) as (y & Hy & Hf). rewrite list_lookup_middle in Hy by done. injection Hy as ->. rewrite filter_cons, decide_True by done. cbn.
    assert (length rest <= length (filter (fun x => f x = true) l))%nat; [|lia]. apply (IH rest Hnd). intros i Hi. apply Hbelow; [rewrite Hrest; by right|congruence].
  - assert (length places <= length (filter (fun x => f x = true) l))%nat; [|lia]. apply (IH places Hnd). intros i Hi. apply Hbelow; [done|congruence].
Qed.

Section capped.
Context (candidates : list NodeCandidate) (local_node_id : NodeId) (capacity : CapacityBound).

(** A vertex of another machine with a bound of its own. *)
Definition of_capped_peer (v : Vertex) : bool :=
  match cand_of candidates v with
  | Some c => negb (is_local local_node_id c) && bool_decide (is_Some (peer_cap capacity c))
  | None => false
  end.

(** The other machines with a bound of their own. *)
Definition capped_peer (c : NodeCandidate) : bool := negb (is_local local_node_id c) && bool_decide (is_Some (peer_cap capacity c)).
Definition capped_peers : list NodeCandidate := filter (fun c => capped_peer c = true) candidates.
Definition capped_at (i : nat) : Prop := exists c, candidates !! i = Some c /\ capped_peer c = true.

Lemma capped_from_all vs acc :
  (length capped_peers <= 64)%nat -> NoDup acc -> (forall i, i ∈ acc -> capped_at i) ->
  (forall i, i ∈ acc -> i ∈ capped_from candidates local_node_id capacity vs acc) /\
  (forall v, v ∈ vs -> of_capped_peer v = true -> v_cand_idx v ∈ capped_from candidates local_node_id capacity vs acc).
Proof.
  intros H64. revert acc. induction vs as [|w vs IH]; intros acc Hnd Hacc; [split; [done|by intros v ?%elem_of_nil]|].
  cbn [capped_from]. unfold of_capped_peer at 1. destruct (cand_of candidates w) as [c|] eqn:Hc.
  2: { destruct (IH acc Hnd Hacc) as [H1 H2]. split; [done|]. intros v [->|Hv]%elem_of_cons; [by rewrite Hc|by apply H2]. }
  destruct (negb _ && _) eqn:Hpeer; cbn [andb].
  2: { destruct (IH acc Hnd Hacc) as [H1 H2]. split; [done|]. intros v [->|Hv]%elem_of_cons; [by rewrite Hc, Hpeer|by apply H2]. }
  destruct (decide (v_cand_idx w ∈ acc)) as [Hin|Hnew].
  { rewrite bool_decide_false by auto. destruct (IH acc Hnd Hacc) as [H1 H2]. split; [done|].
    intros v [->|Hv]%elem_of_cons; [auto|by apply H2]. }
  rewrite bool_decide_true by done.
  assert (Hnd' : NoDup (acc ++ [v_cand_idx w])) by (apply list.NoDup_app; repeat split; [done|set_solver|apply NoDup_singleton]).
  assert (Hacc' : forall i, i ∈ acc ++ [v_cand_idx w] -> capped_at i) by (intros i [?| ->%list_elem_of_singleton]%elem_of_app; [auto|by exists c]).
  assert (Hlen : (length (acc ++ [v_cand_idx w]) <= length capped_peers)%nat) by (apply NoDup_places_filter; [done|exact Hacc']).
  rewrite length_app in Hlen. cbn in Hlen. destruct (Nat.leb_spec 64 (length acc)); [lia|].
  destruct (IH _ Hnd' Hacc') as [H1 H2]. split; [intros i ?; apply H1; set_solver|].
  intros v [->|Hv]%elem_of_cons; [intros _; apply H1; set_solver|by apply H2].
Qed.

Lemma capped_bit vs v :
  (length capped_peers <= 64)%nat -> v ∈ vs -> of_capped_peer v = true ->
  bit_of (capped_from candidates local_node_id capacity vs []) v <> 0.
Proof.
  intros H64 Hv Hcap. destruct (capped_from_all vs [] H64) as [_ Hall]; [constructor|by intros ? ?%elem_of_nil|].
  destruct (place_of_elem _ _ (Hall v Hv Hcap)) as [b Hb]. unfold bit_of. rewrite Hb, Z.shiftl_mul_pow2 by lia. lia.
Qed.
End capped.

Section route.
Context (num_layers : Z) (candidates : list NodeCandidate) (local_node_id : NodeId)
  (encrypted_pipeline partial_ranges : bool) (capacity : CapacityBound) (prompt_tokens : option Z) (meet_held : bool).

Local Abbreviation vs := (vertices num_layers candidates local_node_id encrypted_pipeline partial_ranges capacity
                            prompt_tokens meet_held).
Local Abbreviation vertex_fits := (fits local_node_id capacity).

(** ** Vertices *)

(** A range inside one the candidate holds. *)
Definition holds_range (c : NodeCandidate) (r : Z * Z) : Prop :=
  exists a b, (a, b) ∈ nc_available_ranges c /\ a <= r.1 /\ r.1 < r.2 /\ r.2 <= b.

Lemma clamped_spec i lo hi :
  (i, (lo, hi)) ∈ clamped num_layers candidates ->
  lo < hi /\ hi <= num_layers /\ exists c b, candidates !! i = Some c /\ (lo, b) ∈ nc_available_ranges c /\ hi <= b.
Proof.
  unfold clamped. intros [Hlt Hin]%list_elem_of_filter. split; [done|].
  apply list_elem_of_In, in_flat_map in Hin as ([j c] & Hj & Hin%list_elem_of_In).
  apply list_elem_of_fmap in Hin as ([a b] & [= -> -> ->] & Hab). split; [lia|]. exists c, b. split_and!; [|done|lia].
  apply list_elem_of_In, list_elem_of_lookup in Hj as (k & Hk). unfold indexed in Hk.
  apply lookup_zip_Some in Hk as [[-> ?]%lookup_seq Hk]. done.
Qed.

Lemma ranges_offered_inside c lo hi r :
  lo < hi ->
  r ∈ ranges_offered num_layers candidates local_node_id encrypted_pipeline partial_ranges capacity meet_held c lo hi ->
  lo <= r.1 /\ r.1 < r.2 /\ r.2 <= hi.
Proof.
  unfold ranges_offered. intros Hlt [->|Hr]%elem_of_cons; [cbn; lia|].
  destruct (_ && _); [|by eapply subranges_inside, Hr; apply split_points_sorted].
  apply elem_of_app in Hr as [Hr|Hr]; [apply list_elem_of_filter in Hr as [? _]; lia|]. destruct meet_held; [|by apply elem_of_nil in Hr].
  apply list_elem_of_In, in_flat_map in Hr as (p & Hp & Hr). apply list_elem_of_In, list_elem_of_filter in Hp as [? _].
  apply list_elem_of_In in Hr.
  apply elem_of_cons in Hr as [->| ->%list_elem_of_singleton]; cbn; lia.
Qed.

Lemma vertex_spec v :
  v ∈ vs -> exists c, cand_of candidates v = Some c /\ vertex_fits c (v_range v) = true /\
    holds_range c (v_range v) /\ (v_range v).2 <= num_layers.
Proof.
  unfold vertices. intros ([i [lo hi]] & Hi & Hv)%list_elem_of_In%in_flat_map.
  apply list_elem_of_In, clamped_spec in Hi as (? & ? & c & b & Hc & Hb & ?). rewrite Hc in Hv.
  apply in_flat_map in Hv as (r & Hr & Hv). apply list_elem_of_In, ranges_offered_inside in Hr as (? & ? & ?); [|done].
  unfold push_vertex in Hv. destruct (fits _ _ c r) eqn:Hf; [|done]. destruct Hv as [<-|[]].
  exists c. unfold cand_of, holds_range. cbn. split_and!; [done..| |lia]. exists lo, b. split_and!; [done|lia..].
Qed.

(** ** The chain a search returns *)

Local Abbreviation range := (of_vertex vs (0, 0) v_range).
Local Abbreviation local_vertex :=
  (of_vertex vs false (fun v => match cand_of candidates v with Some c => is_local local_node_id c | None => false end)).
Local Abbreviation capped := (capped_from candidates local_node_id capacity vs []).
Local Abbreviation starts trust := (of_vertex vs false (fun v => source_ok candidates local_node_id encrypted_pipeline v trust)).
Local Abbreviation ends := (of_vertex vs false (is_sink num_layers candidates local_node_id encrypted_pipeline)).
Local Abbreviation chain_of trust led :=
  (chain_cell num_layers range (of_vertex vs O v_cand_idx) (of_vertex vs 0 (bit_of capped)) local_vertex
     (local_added candidates local_node_id) (local_cap candidates local_node_id capacity)
     (local_fresh_run candidates local_node_id capacity) (starts trust) (seed_cost vs led)
     (step_cost num_layers candidates local_node_id prompt_tokens vs led)).
Local Abbreviation searched trust :=
  (search num_layers candidates local_node_id encrypted_pipeline capacity prompt_tokens vs trust).
Local Abbreviation segment := (segment_at candidates vs).

Lemma vertex_ranges i : (i < length vs)%nat -> (range i).1 < (range i).2.
Proof.
  intros [v Hv]%lookup_lt_is_Some_2. unfold of_vertex. rewrite Hv.
  apply list_elem_of_lookup_2, vertex_spec in Hv as (c & _ & _ & (? & ? & _ & _ & ? & _) & _). done.
Qed.

Lemma sink_cost_finite led b i c :
  sink_cost candidates vs led b i = Some c -> c_finite c = true -> c_finite b = true.
Proof.
  unfold sink_cost. destruct led as [h|]; [|by intros [= ->]]. case_match; [done|].
  intros (k & _ & [= <-])%bind_Some. apply f32_add_finite.
Qed.

Lemma search_is_a_pass trust r :
  searched trust = Some r ->
  exists led, route_pass num_layers candidates local_node_id encrypted_pipeline capacity prompt_tokens vs trust led = Some r.
Proof.
  unfold search. generalize (led_heads vs).
  assert (Hgen : forall heads best,
    (forall r, best = Some r -> exists led, route_pass num_layers candidates local_node_id encrypted_pipeline capacity
       prompt_tokens vs trust led = Some r) ->
    forall r, fold_left (fun best h =>
      match route_pass num_layers candidates local_node_id encrypted_pipeline capacity prompt_tokens vs trust (Some h) with
      | Some led => match best with Some b => if F32v.lt led.2 b.2 then Some led else Some b | None => Some led end
      | None => best
      end) heads best = Some r ->
    exists led, route_pass num_layers candidates local_node_id encrypted_pipeline capacity prompt_tokens vs trust led = Some r).
  { induction heads as [|h heads IH]; cbn [fold_left]; intros best Hb r' Hr; [auto|]. eapply IH, Hr.
    intros r1. repeat case_match; intros; simplify_eq; eauto. }
  intros heads. apply Hgen. eauto.
Qed.

(** What a search finds is a chain from a source to a sink, and the reconstruction returns it. *)
Lemma search_sound trust parents i cost :
  searched trust = Some (parents, i, cost) ->
  exists led path cell, chain_of trust led (i :: path) cell /\ ends i = true /\
    (forall j, j ∈ i :: path -> (j < length vs)%nat) /\
    walk_back (S (length vs)) parents (Some i) [] = Some (reverse (i :: path)).
Proof.
  intros [led Hp]%search_is_a_pass. unfold route_pass in Hp.
  apply run_pass_sound in Hp as (path & cell & ? & ? & ? & ? & ? & ?).
  - eauto 10.
  - done.
  - apply vertex_ranges.
  - apply sink_cost_finite.
  - apply topological_sorted.
  - intros j. apply topological_elem.
Qed.

(** ** The segments of a chain *)

(** A segment given to a candidate that holds its layers and has room for them. *)
Definition serves (c : NodeCandidate) (s : PipelineSegment) : Prop :=
  c ∈ candidates /\ seg_node_id s = nc_node_id c /\ seg_shard_id s = nc_shard_id c /\
  holds_range c (seg_layer_range s) /\ vertex_fits c (seg_layer_range s) = true.

(** Segments that cover the layers from [a] to [b], in order and without overlap. *)
Fixpoint covers (a b : Z) (segments : list PipelineSegment) : Prop :=
  match segments with
  | [] => a = b
  | s :: segments => (seg_layer_range s).1 = a /\ a < (seg_layer_range s).2 /\ covers (seg_layer_range s).2 b segments
  end.

Lemma covers_app a b c l1 l2 : covers a b l1 -> covers b c l2 -> covers a c (l1 ++ l2).
Proof. revert a. induction l1 as [|s l1 IH]; cbn; [by intros a ->|]. intros a (? & ? & ?) ?. eauto. Qed.

Lemma segment_spec i :
  (i < length vs)%nat -> exists v c s, vs !! i = Some v /\ cand_of candidates v = Some c /\ segment i = Some s /\
    seg_layer_range s = v_range v /\ serves c s /\ (v_range v).2 <= num_layers.
Proof.
  intros [v Hv]%lookup_lt_is_Some_2. pose proof Hv as Hin%list_elem_of_lookup_2.
  apply vertex_spec in Hin as (c & Hc & Hfit & Hheld & Hend). unfold segment_at. rewrite Hv. cbn. rewrite Hc. cbn.
  eexists v, c, _. unfold serves. split_and!; try done. cbn. unfold cand_of in Hc. by eapply list_elem_of_lookup_2.
Qed.

Lemma linked_covers trust i path :
  linked range (starts trust) (i :: path) -> (forall j, j ∈ i :: path -> (j < length vs)%nat) ->
  covers 0 (range i).2 (omap segment (reverse (i :: path))).
Proof.
  revert i. induction path as [|k path IH]; intros i Hl Hn; pose proof (vertex_ranges i (Hn i ltac:(set_solver))) as Hr;
    destruct (segment_spec i (Hn i ltac:(set_solver))) as (v & c & s & Hv & Hc & Hs & Hsr & _ & _).
  - cbn. rewrite Hs. cbn. unfold of_vertex in *. rewrite Hv in *. rewrite Hsr. cbn in Hl. rewrite Hv in Hl.
    unfold source_ok in Hl. rewrite Hc in Hl. rewrite !andb_true_iff, Z.eqb_eq in Hl. lia.
  - destruct Hl as [Hik Hl]. rewrite reverse_cons, omap_app.
    eapply covers_app; [apply (IH k Hl); set_solver|]. cbn. rewrite Hs. cbn.
    unfold of_vertex in *. rewrite Hv in *. rewrite Hsr. lia.
Qed.

Lemma ends_last i : (i < length vs)%nat -> ends i = true -> (range i).2 = num_layers.
Proof.
  intros (v & c & _ & Hv & Hc & _)%segment_spec. unfold of_vertex. rewrite Hv. unfold is_sink. rewrite Hc.
  rewrite !andb_true_iff, Z.eqb_eq. tauto.
Qed.

Lemma covers_contiguous a segments : covers a num_layers segments -> contiguous_from num_layers a segments = Ok tt.
Proof.
  revert a. induction segments as [|s segments IH]; cbn; intros a.
  - intros ->. by rewrite Z.eqb_refl.
  - intros (-> & _ & ?). rewrite Z.eqb_refl. auto.
Qed.

Lemma runs_of_segments path :
  (forall j, j ∈ path -> (j < length vs)%nat) ->
  local_runs_of local_node_id (omap segment (reverse path)) = runs_on range local_vertex path.
Proof.
  unfold local_runs_of. induction path as [|i path IH]; intros Hn; [done|]. rewrite reverse_cons, omap_app, list.filter_app.
  rewrite map_app, fold_left_app, IH by set_solver.
  destruct (segment_spec i (Hn i ltac:(left))) as (v & c & s & Hv & Hc & Hs & Hsr & (_ & Hnode & _) & _).
  cbn [omap list_omap runs_on]. rewrite Hs. unfold of_vertex. rewrite Hv, Hc. unfold is_local, is_node. cbn.
  rewrite Hnode. destruct (decide _); [rewrite bool_decide_true by done|rewrite bool_decide_false by done]; cbn; congruence.
Qed.

Lemma local_added_nonneg c r :
  local_candidate candidates local_node_id = Some c -> 0 <= local_added candidates local_node_id r.
Proof.
  unfold local_added. intros ->. unfold layers_charged, layers_it_would_add, layers_added_by, u32_saturating_sub.
  repeat case_match; lia.
Qed.

(** Sums that stay below the width of a [u32] did not saturate. *)
Lemma saturated_sum (f : Z * Z -> Z) l a cap :
  (forall r, 0 <= f r) -> 0 <= a -> cap < u32_max ->
  fold_left (fun acc r => u32_saturating_add acc (f r)) l (Z.min u32_max a) <= cap -> fold_left Z.add (map f l) a <= cap.
Proof.
  intros Hf Ha Hcap. revert a Ha. induction l as [|r l IH]; cbn; intros a Ha; [lia|]. intros Hle.
  apply IH; [specialize (Hf r); lia|]. replace (Z.min u32_max (a + f r)) with (u32_saturating_add (Z.min u32_max a) (f r)); [done|].
  unfold u32_saturating_add. specialize (Hf r). lia.
Qed.

(** The share the pass carried is the one the last check adds up. *)
Lemma chain_share_ok trust led i path cell :
  (forall k, local_cap candidates local_node_id capacity = Some k -> k < u32_max) ->
  chain_of trust led (i :: path) cell -> (forall j, j ∈ i :: path -> (j < length vs)%nat) ->
  local_share_ok candidates local_node_id capacity (omap segment (reverse (i :: path))) = Ok tt.
Proof.
  intros Hcap Hch Hn. apply (chain_share _ (length vs)) in Hch as [Hshare Hfit]; [|apply vertex_ranges|done].
  unfold local_share_ok. rewrite (runs_of_segments (i :: path) Hn). destruct (binds_local capacity) eqn:Hb; [|done].
  destruct (c ← local_candidate candidates local_node_id; nc_max_hostable_layers c) as [k|] eqn:Hk; [|done].
  assert (Hlc : local_cap candidates local_node_id capacity = Some (Z.max k 1)).
  { unfold local_cap. rewrite Hb. apply bind_Some in Hk as (c & -> & Hk). cbn. by rewrite Hk. }
  apply bind_Some in Hk as (c & Hc & _).
  destruct (share_within _ _ _ _ _ _ _ _ Hshare Hfit Hlc) as [Hle|(a & b & w & -> & -> & Hw)].
  - apply (saturated_sum _ _ 0) in Hle; [|by eauto using local_added_nonneg|done|by apply Hcap].
    destruct (Z.ltb_spec (Z.max k 1) (fold_left Z.add (map (local_added candidates local_node_id)
      (runs_on range local_vertex (i :: path))) 0)); [lia|done].
  - by rewrite (proj2 (Z.leb_le _ _) Hw), andb_false_r.
Qed.

(** ** What the search decides *)

Local Abbreviation routed :=
  (route_over num_layers candidates local_node_id encrypted_pipeline partial_ranges capacity prompt_tokens meet_held).

(** The search with the prompt-trust bar, and without it when that finds nothing. *)
Definition chosen : option (list (option nat) * nat * spec_float) :=
  match searched true with Some found => Some found | None => searched false end.

Lemma linked_source {st : nat -> bool} path : linked range st path -> exists j rest, reverse path = j :: rest /\ st j = true.
Proof.
  induction path as [|i [|k path] IH]; [done|by exists i, []|]. intros [_ (j & rest & Hr & Hj)%IH].
  exists j, (rest ++ [i]). by rewrite reverse_cons, Hr.
Qed.

Lemma source_ok_untrusted v trust :
  source_ok candidates local_node_id encrypted_pipeline v trust = true ->
  source_ok candidates local_node_id encrypted_pipeline v false = true.
Proof. unfold source_ok. case_match; [|done]. destruct trust; [|done]. cbn. by intros [-> _]%andb_true_iff. Qed.

Lemma chosen_chain parents i cost :
  chosen = Some (parents, i, cost) ->
  exists trust led path cell, chain_of trust led (i :: path) cell /\ ends i = true /\
    (forall j, j ∈ i :: path -> (j < length vs)%nat) /\ (trust = false -> searched true = None) /\
    walk_back (S (length vs)) parents (Some i) [] = Some (reverse (i :: path)).
Proof.
  unfold chosen. destruct (searched true) as [[[ps i'] cost']|] eqn:Ht.
  - intros [= -> -> ->]. apply search_sound in Ht as (led & path & cell & ? & ? & ? & ?). by exists true, led, path, cell.
  - intros (led & path & cell & ? & ? & ? & ?)%search_sound. by exists false, led, path, cell.
Qed.

(** A chain found passes every check after it and is what the search returns. *)
Lemma route_over_chosen parents i cost :
  (forall k, local_cap candidates local_node_id capacity = Some k -> k < u32_max) ->
  chosen = Some (parents, i, cost) ->
  exists trust led path cell, chain_of trust led (i :: path) cell /\ ends i = true /\
    (forall j, j ∈ i :: path -> (j < length vs)%nat) /\ (trust = false -> searched true = None) /\
    routed = Ok (omap segment (reverse (i :: path))).
Proof.
  intros Hcap Hfound. pose proof (chosen_chain _ _ _ Hfound) as (trust & led & path & cell & Hch & Hend & Hn & Htr & Hwalk).
  exists trust, led, path, cell. split_and!; try done.
  pose proof (chain_linked _ _ _ _ _ _ _ _ _ _ _ _ _ Hch) as Hl. pose proof (linked_covers _ _ _ Hl Hn) as Hcov.
  destruct (segment_spec i (Hn i ltac:(left))) as (v & c & sg & Hv & Hc & _ & _ & _ & _).
  rewrite (ends_last i (Hn i ltac:(left)) Hend) in Hcov.
  assert (Hsink : is_sink num_layers candidates local_node_id encrypted_pipeline v = true)
    by (unfold of_vertex in Hend; by rewrite Hv in Hend).
  destruct (linked_source _ Hl) as (j & rest & Hrev & Hj).
  assert (Hjin : j ∈ i :: path) by (rewrite <- elem_of_reverse, Hrev; left).
  destruct (lookup_lt_is_Some_2 _ _ (Hn j Hjin)) as [vj Hvj]. unfold of_vertex in Hj. rewrite Hvj in Hj.
  unfold route_over. cbn zeta. destruct (Z.eqb_spec num_layers 0) as [Hz|_].
  { destruct (segment_spec j (Hn j Hjin)) as (v' & c' & s' & Hv' & Hc' & _ & _ & _ & Hle). pose proof (vertex_ranges j (Hn j Hjin)) as Hr.
    unfold of_vertex in Hr. rewrite Hv' in Hr. unfold source_ok in Hj. simplify_eq. rewrite Hc' in Hj.
    rewrite !andb_true_iff, Z.eqb_eq in Hj. lia. }
  rewrite bool_decide_false by (intros Hnil; rewrite Hnil in Hv; done).
  rewrite (proj2 (existsb_exists _ _)) by (exists vj; split; [by eapply list_elem_of_In, list_elem_of_lookup_2|by eapply source_ok_untrusted]).
  rewrite (proj2 (existsb_exists _ _)) by (exists v; split; [by eapply list_elem_of_In, list_elem_of_lookup_2|done]).
  cbn [negb]. unfold chosen in Hfound. rewrite Hfound, Hwalk.
  rewrite (chain_share_ok _ _ _ _ _ Hcap Hch Hn). cbn [mbind outcome_bind]. by rewrite (covers_contiguous _ _ Hcov).
Qed.

Lemma route_over_none : chosen = None -> exists m, routed = Err (PipelineError m).
Proof. unfold chosen, route_over. cbn zeta. intros ->. repeat case_match; eauto. Qed.

(** Without the bound on this node's figure: what comes back is still the chain. *)
Lemma route_over_ok segments :
  routed = Ok segments ->
  exists trust led i path cell, chain_of trust led (i :: path) cell /\ ends i = true /\
    (forall j, j ∈ i :: path -> (j < length vs)%nat) /\ (trust = false -> searched true = None) /\
    segments = omap segment (reverse (i :: path)).
Proof.
  unfold route_over. cbn zeta. destruct (num_layers =? 0); [done|]. destruct (bool_decide _); [done|].
  destruct (negb _); [done|]. destruct (negb _); [done|]. fold chosen.
  destruct chosen as [[[parents i] cost]|] eqn:Hch; [|done].
  apply chosen_chain in Hch as (trust & led & path & cell & ? & ? & ? & ? & Hwalk). rewrite Hwalk.
  destruct (local_share_ok _ _ _ _); try done. cbn. destruct (contiguous_from _ _ _); try done. cbn. intros [= <-]. eauto 10.
Qed.

Lemma route_covers segments :
  routed = Ok segments -> covers 0 num_layers segments /\ forall s, s ∈ segments -> exists c, serves c s.
Proof.
  intros (trust & led & i & path & cell & Hch & Hend & Hn & _ & ->)%route_over_ok. split.
  - pose proof (linked_covers _ _ _ (chain_linked _ _ _ _ _ _ _ _ _ _ _ _ _ Hch) Hn) as Hcov.
    by rewrite (ends_last i (Hn i ltac:(left)) Hend) in Hcov.
  - intros s (j & Hj & Hs)%list_elem_of_omap. rewrite elem_of_reverse in Hj.
    destruct (segment_spec j (Hn j Hj)) as (v & c & s' & _ & _ & Hs' & _ & ? & _). simplify_eq. eauto.
Qed.

(** No capped peer has two vertices of a chain. *)
Lemma chain_capped_once trust led path cell a b i j :
  (length (capped_peers candidates local_node_id capacity) <= 64)%nat -> chain_of trust led path cell -> path !! a = Some i -> path !! b = Some j -> a <> b ->
  forall v w, vs !! i = Some v -> vs !! j = Some w -> of_capped_peer candidates local_node_id capacity v = true ->
  v_cand_idx v <> v_cand_idx w.
Proof.
  intros H64 Hch Ha Hb Hne v w Hv Hw Hcap Heq. apply chain_bits in Hch. specialize (Hch a b i j Ha Hb Hne).
  unfold of_vertex in Hch. rewrite Hv, Hw in Hch. unfold bit_of in Hch. rewrite <- Heq, Z.land_diag in Hch.
  by apply (capped_bit _ _ _ vs v H64 (list_elem_of_lookup_2 _ _ _ Hv) Hcap).
Qed.

Lemma segments_lookup path : 
  (forall j, j ∈ path -> (j < length vs)%nat) -> Forall2 (fun i s => segment i = Some s) path (omap segment path).
Proof.
  induction path as [|i path IH]; intros Hn; [constructor|]. cbn.
  destruct (segment_spec i (Hn i ltac:(left))) as (v & c & s & _ & _ & Hs & _). rewrite Hs. constructor; [done|].
  apply IH. intros j ?. apply Hn. by right.
Qed.

(** Machines with their own bound appear once in the segments. *)
Lemma route_capped_once segments a b s t :
  (length (capped_peers candidates local_node_id capacity) <= 64)%nat -> routed = Ok segments -> segments !! a = Some s -> segments !! b = Some t -> a <> b ->
  exists c d i j, candidates !! i = Some c /\ candidates !! j = Some d /\ nc_node_id c = seg_node_id s /\
    nc_node_id d = seg_node_id t /\ (seg_node_id s <> local_node_id -> is_Some (peer_cap capacity c) -> i <> j).
Proof.
  intros H64 (trust & led & i & path & cell & Hch & Hend & Hn & _ & ->)%route_over_ok Hs Ht Hne.
  assert (Hn' : forall j, j ∈ reverse (i :: path) -> (j < length vs)%nat) by (intros j; rewrite elem_of_reverse; auto).
  pose proof (segments_lookup _ Hn') as Hf2.
  destruct (Forall2_lookup_r _ _ _ _ _ Hf2 Hs) as (x & Hx & Hsx). destruct (Forall2_lookup_r _ _ _ _ _ Hf2 Ht) as (y & Hy & Hty).
  destruct (segment_spec x (Hn' x ltac:(by eapply list_elem_of_lookup_2))) as (v & c & s' & Hv & Hc & Hs' & _ & (_ & Hnc & _) & _).
  destruct (segment_spec y (Hn' y ltac:(by eapply list_elem_of_lookup_2))) as (w & d & t' & Hw & Hd & Ht' & _ & (_ & Hnd & _) & _).
  simplify_eq. exists c, d, (v_cand_idx v), (v_cand_idx w). split_and!; [done..|]. intros Hrem Hcap.
  pose proof (lookup_lt_Some _ _ _ Hx) as Hlx. pose proof (lookup_lt_Some _ _ _ Hy) as Hly. rewrite length_reverse in Hlx, Hly.
  rewrite reverse_lookup in Hx, Hy by done.
  eapply (chain_capped_once _ _ _ _ _ _ x y); [done|exact Hch|exact Hx|exact Hy|lia|done|done|].
  unfold of_capped_peer. rewrite Hc. unfold is_local, is_node. rewrite bool_decide_false by congruence. cbn.
  by rewrite bool_decide_true.
Qed.
End route.
