(* ===== verification/RouteGuarantees.v ===== *)
(** * What a route promises

    The contract of [route_shortest_path] with the pipeline built from it: every layer
    served once by a machine that holds it and has room, the prompt and the answer on
    this node when the pipeline is encrypted, a distrusted head only when no trusted
    one serves, an error only when the search found no chain; and what
    [merge_contiguous] keeps of it. *)
From Stdlib Require Import Floats.SpecFloat Sorted.
From stdpp Require Import sorting.
From S2P Require Import Prelude Bytes ForwardTypes Floats RangeWeights KvSessions Candidate RouteCost RoutePass RouteSearch RouteTheorems.
#[local] Open Scope Z_scope.

(** The segments that serve a layer. *)
Definition servers (l : Z) (segments : list PipelineSegment) : list PipelineSegment :=
  filter (fun s => (seg_layer_range s).1 <= l < (seg_layer_range s).2) segments.

Lemma covers_bounds a b segments : covers a b segments -> a <= b.
Proof. revert a. induction segments as [|s segments IH]; cbn; intros a; [lia|]. intros (? & ? & Hc%IH). lia. Qed.

Lemma covers_none a b segments l : covers a b segments -> l < a -> servers l segments = [].
Proof.
  revert a. unfold servers. induction segments as [|s segments IH]; cbn; intros a Hc Hl; [done|].
  destruct Hc as (Hs & ? & Hc). destruct (decide _) as [Hin|]; [lia|]. apply (IH _ Hc). lia.
Qed.

Lemma covers_once a b segments l : covers a b segments -> a <= l < b -> length (servers l segments) = 1%nat.
Proof.
  revert a. unfold servers. induction segments as [|s segments IH]; cbn; intros a Hc Hl; [lia|].
  destruct Hc as (Hs & ? & Hc). destruct (decide _) as [Hin|Hout].
  - cbn. f_equal. change (length (servers l segments) = 0%nat). by rewrite (covers_none _ _ _ _ Hc) by lia.
  - apply (IH _ Hc). lia.
Qed.

Section route.
Context (num_layers : Z) (candidates : list NodeCandidate) (local_node_id : NodeId)
  (encrypted_pipeline partial_ranges : bool) (capacity : CapacityBound) (prompt_tokens : option Z).

Local Abbreviation vs := (vertices num_layers candidates local_node_id encrypted_pipeline partial_ranges capacity prompt_tokens).
Local Abbreviation routed := (route_over num_layers candidates local_node_id encrypted_pipeline partial_ranges capacity prompt_tokens).
Local Abbreviation route :=
  (route_shortest_path num_layers candidates local_node_id encrypted_pipeline partial_ranges capacity prompt_tokens).
Local Abbreviation searched meet_held trust :=
  (search num_layers candidates local_node_id encrypted_pipeline capacity prompt_tokens (vs meet_held) trust).
Local Abbreviation served_by := (serves candidates local_node_id capacity).
Local Abbreviation segment meet_held := (segment_at candidates (vs meet_held)).

Lemma route_is_a_pass segments : route = Ok segments -> exists meet_held, routed meet_held = Ok segments.
Proof.
  unfold route_shortest_path. cbn zeta. destruct (routed false) as [r|e|] eqn:Hf; [by intros [= <-]; exists false| |done].
  destruct (_ && _); [|done]. destruct (routed true) as [r|e'|] eqn:Ht; [|done..]. intros [= <-]. by exists true.
Qed.

(** The first and the last segment of a chain, and who serves them. *)
Lemma route_ends meet_held segments :
  routed meet_held = Ok segments ->
  (exists s c v trust, segments !! O = Some s /\ cand_of candidates v = Some c /\ served_by c s /\
     source_ok candidates local_node_id encrypted_pipeline v trust = true /\
     (trust = false -> searched meet_held true = None)) /\
  (exists s c v, segments !! pred (length segments) = Some s /\ cand_of candidates v = Some c /\ served_by c s /\
     is_sink num_layers candidates local_node_id encrypted_pipeline v = true).
Proof.
  intros (trust & led & i & path & cell & Hch & Hend & Hn & Htr & ->)%route_over_ok. split.
  - destruct (linked_source _ _ _ _ _ _ _ _ _ (chain_linked _ _ _ _ _ _ _ _ _ _ _ _ _ Hch)) as (j & rest & Hrev & Hj).
    assert (Hjin : j ∈ i :: path) by (rewrite <- elem_of_reverse, Hrev; left).
    destruct (segment_spec _ _ _ _ _ _ _ _ j (Hn j Hjin)) as (v & c & s & Hv & Hc & Hs & _ & Hserve & _).
    rewrite Hrev. cbn. rewrite Hs. unfold of_vertex in Hj. rewrite Hv in Hj. by exists s, c, v, trust.
  - destruct (segment_spec _ _ _ _ _ _ _ _ i (Hn i ltac:(left))) as (v & c & s & Hv & Hc & Hs & _ & Hserve & _).
    rewrite reverse_cons, omap_app. cbn [omap list_omap]. rewrite Hs, length_app, Nat.add_1_r, list_lookup_middle by done. unfold of_vertex in Hend. rewrite Hv in Hend.
    by exists s, c, v.
Qed.

(** C4: Every layer of the model is served once, by a machine that holds it and has
    room for its segment; the first segment's machine can embed the prompt and the
    last one's can decode. *)
Theorem route_is_a_pipeline segments :
  route_shortest_path num_layers candidates local_node_id encrypted_pipeline partial_ranges capacity prompt_tokens = Ok segments ->
  covers 0 num_layers segments /\
  (forall l, 0 <= l < num_layers -> length (servers l segments) = 1%nat) /\
  (forall s, s ∈ segments -> exists c, served_by c s) /\
  (exists s c, segments !! O = Some s /\ served_by c s /\ nc_can_be_first c = true) /\
  (exists s c, segments !! pred (length segments) = Some s /\ served_by c s /\ nc_can_be_last c = true).
Proof.
  intros (meet_held & Hr)%route_is_a_pass. pose proof (route_ends _ _ Hr) as [Hfirst Hlast].
  pose proof (route_covers _ _ _ _ _ _ _ _ _ Hr) as [Hcov Hserve]. split_and!; [done|by intros; eapply covers_once|done|..].
  - destruct Hfirst as (s & c & v & trust & ? & Hc & ? & Hok & _). unfold source_ok in Hok. rewrite Hc in Hok.
    rewrite !andb_true_iff in Hok. exists s, c. tauto.
  - destruct Hlast as (s & c & v & ? & Hc & ? & Hok). unfold is_sink in Hok. rewrite Hc in Hok.
    rewrite !andb_true_iff in Hok. exists s, c. tauto.
Qed.

(** In an encrypted pipeline the prompt enters and the answer leaves on this node. *)
Theorem encrypted_ends_are_local segments :
  encrypted_pipeline = true ->
  route_shortest_path num_layers candidates local_node_id encrypted_pipeline partial_ranges capacity prompt_tokens = Ok segments ->
  (exists s, segments !! O = Some s /\ seg_node_id s = local_node_id) /\
  (exists s, segments !! pred (length segments) = Some s /\ seg_node_id s = local_node_id).
Proof.
  intros Henc (meet_held & Hr)%route_is_a_pass. apply route_ends in Hr as [Hfirst Hlast]. split.
  - destruct Hfirst as (s & c & v & trust & ? & Hc & (_ & Hnode & _) & Hok & _). unfold source_ok in Hok.
    rewrite Hc, Henc in Hok. cbn [andb] in Hok. rewrite !andb_true_iff, !negb_involutive in Hok. destruct Hok as [[_ Hl%bool_decide_eq_true] _].
    exists s. by rewrite Hnode.
  - destruct Hlast as (s & c & v & ? & Hc & (_ & Hnode & _) & Hok). unfold is_sink in Hok.
    rewrite Hc, Henc in Hok. cbn [andb] in Hok. rewrite !andb_true_iff, !negb_involutive in Hok. destruct Hok as [_ Hl%bool_decide_eq_true].
    exists s. by rewrite Hnode.
Qed.

(** The first machine reads the prompt: it is this node or trusted with it, unless
    no chain begins at a trusted one. *)
Theorem prompt_goes_to_a_trusted_head meet_held segments :
  routed meet_held = Ok segments ->
  exists s c, segments !! O = Some s /\ served_by c s /\
    (trusted_with_the_plaintext_prompt c local_node_id = true \/ searched meet_held true = None).
Proof.
  intros [(s & c & v & trust & ? & Hc & ? & Hok & Htr) _]%route_ends. exists s, c. split_and!; [done..|].
  destruct trust; [left|auto]. unfold source_ok in Hok. rewrite Hc in Hok. apply andb_true_iff in Hok as [_ Hok].
  cbn in Hok. by apply negb_true_iff, negb_false_iff in Hok.
Qed.

(** C19: The search ends with the chain it found or with the reason there is none: the
    checks after it refuse no chain, the reconstruction never loops or panics. *)
Theorem route_over_decides meet_held :
  (forall k, local_cap candidates local_node_id capacity = Some k -> k < u32_max) ->
  match chosen num_layers candidates local_node_id encrypted_pipeline partial_ranges capacity prompt_tokens meet_held with
  | Some _ => exists segments, routed meet_held = Ok segments
  | None => exists reason, routed meet_held = Err (PipelineError reason)
  end.
Proof.
  intros Hcap. destruct (chosen _ _ _ _ _ _ _ _) as [[[parents i] cost]|] eqn:Hch.
  - apply (route_over_chosen _ _ _ _ _ _ _ _ _ _ _ Hcap) in Hch as (? & ? & ? & ? & _ & _ & _ & _ & ?). eauto.
  - by apply route_over_none.
Qed.





End route.

(** ** Merging *)

(** The machine that serves a layer. *)
Definition node_at (l : Z) (segments : list PipelineSegment) : option NodeId := seg_node_id <$> servers l segments !! O.

Lemma servers_app l s1 s2 : servers l (s1 ++ s2) = servers l s1 ++ servers l s2.
Proof. apply list.filter_app. Qed.

Lemma covers_app_inv a b l1 l2 : covers a b (l1 ++ l2) -> exists m, covers a m l1 /\ covers m b l2.
Proof.
  revert a. induction l1 as [|s l1 IH]; cbn; intros a Hc; [by exists a|].
  destruct Hc as (? & ? & (m & ? & ?)%IH). by exists m.
Qed.

(** No two neighbours on one machine. *)
Definition apart (nodes : list NodeId) : Prop :=
  forall i a b, nodes !! i = Some a -> nodes !! S i = Some b -> a <> b.

Lemma apart_snoc nodes x y : apart (nodes ++ [x]) -> x <> y -> apart ((nodes ++ [x]) ++ [y]).
Proof.
  intros Ha Hxy i a b Hi Hb. pose proof (lookup_lt_Some _ _ _ Hb) as Hlt. rewrite length_app in Hlt. cbn in Hlt.
  rewrite lookup_app_l in Hi by lia. destruct (decide (S i < length (nodes ++ [x]))%nat) as [Hin|Hout].
  - rewrite lookup_app_l in Hb by done. by eapply Ha.
  - rewrite list_lookup_middle in Hb by lia. rewrite length_app in Hlt, Hout. cbn in Hlt, Hout.
    rewrite list_lookup_middle in Hi by lia. congruence.
Qed.

Lemma node_at_app l s1 s2 s3 : node_at l s2 = node_at l s3 -> node_at l (s1 ++ s2) = node_at l (s1 ++ s3).
Proof. unfold node_at. rewrite !servers_app. by destruct (servers l s1). Qed.

Lemma merge_one_spec a b merged s :
  covers a b merged -> (seg_layer_range s).1 = b -> b < (seg_layer_range s).2 -> apart (map seg_node_id merged) ->
  covers a (seg_layer_range s).2 (merge_one merged s) /\ apart (map seg_node_id (merge_one merged s)) /\
  forall l, node_at l (merge_one merged s) = node_at l (merged ++ [s]).
Proof.
  intros Hc Hs Hlt Ha. unfold merge_one. destruct merged as [|t merged _] using rev_ind.
  - cbn in *. split_and!; [lia..| |done]. by intros [|[|]].
  - rewrite reverse_snoc, reverse_involutive. apply covers_app_inv in Hc as (m & Hc & Ht1 & Ht2 & Ht3).
    destruct (bool_decide _ && _) eqn:Hjoin.
    + apply andb_true_iff in Hjoin as [Hn%bool_decide_eq_true _]. split_and!.
      * eapply covers_app; [done|]. cbn in *. lia.
      * by rewrite map_app in *.
      * intros l. rewrite <- (assoc (++)). apply node_at_app. unfold node_at, servers. cbn in *.
        repeat case_decide; cbn in *; try lia; congruence.
    + cbn in Ht3. apply andb_false_iff in Hjoin as [Hn%bool_decide_eq_false|Hn%Z.eqb_neq]; [|lia]. split_and!; [| |done].
      * eapply covers_app; [by eapply covers_app|]. cbn. lia.
      * rewrite !map_app in *. by apply apart_snoc.
Qed.

Lemma merge_from a b c merged segments :
  covers a b merged -> covers b c segments -> apart (map seg_node_id merged) ->
  covers a c (fold_left merge_one segments merged) /\ apart (map seg_node_id (fold_left merge_one segments merged)) /\
  forall l, node_at l (fold_left merge_one segments merged) = node_at l (merged ++ segments).
Proof.
  revert b merged. induction segments as [|s segments IH]; intros b merged Hm Hs Ha.
  - cbn in *. subst b. by rewrite app_nil_r.
  - destruct Hs as (Hs1 & Hs2 & Hs). destruct (merge_one_spec a b merged s Hm Hs1 Hs2 Ha) as (Hm' & Ha' & Hn).
    destruct (IH _ _ Hm' Hs Ha') as (? & ? & Hl). split_and!; [done..|]. intros l. cbn [fold_left]. rewrite Hl.
    rewrite cons_middle, (assoc (++)). specialize (Hn l). revert Hn. unfold node_at. rewrite !servers_app.
    destruct (servers l (merge_one merged s)), (servers l merged ++ servers l [s]); cbn; congruence.
Qed.

(** Joining the neighbours of one machine moves no layer to another, and leaves none
    to join. *)
Theorem merging_keeps_the_assignment a b segments :
  covers a b segments ->
  covers a b (merge_contiguous segments) /\ apart (map seg_node_id (merge_contiguous segments)) /\
  forall l, node_at l (merge_contiguous segments) = node_at l segments.
Proof. intros Hc. apply (merge_from a a); [done|done|by intros [|]]. Qed.

(** ** On concrete machines *)

(** A machine with a range, a round trip and what it may do; nothing else measured. *)
Definition machine (byte : Z) (range : Z * Z) (latency : Z) (first last : bool) (hostable : option Z) : NodeCandidate := {|
  nc_node_id := replicate 32 byte; nc_shard_id := {| sh_model_id := []; sh_index := 0 |}; nc_available_ranges := [range];
  nc_reach := DirectMeasured; nc_latency_ms := latency; nc_load := F32v.zero; nc_trust_score := F32v.of_Z 1;
  nc_can_be_first := first; nc_can_be_last := last; nc_region_score := F32v.of_Z 1; nc_est_tokens_per_sec := F32v.zero;
  nc_layer_work := F32v.of_Z 1; nc_stated_ms_per_layer := None; nc_observed_latency_ms_per_layer := None;
  nc_observed_delegated_ms_per_layer := None; nc_observed_fixed_ms_per_visit := None; nc_expected_attempts := F32v.of_Z 1;
  nc_goodput_bytes_per_sec := None; nc_is_pool_member := false; nc_gpu_vram_available_mb := None;
  nc_max_hostable_layers := hostable; nc_max_hostable_layers_at_face_value := None; nc_max_hostable_layers_at_ceiling := None;
  nc_observed_prefill_ms_per_layer_byte := None; nc_has_gpu := false; nc_held_ranges := []; nc_published_room := None;
  nc_cached_prefix_tokens := 0; nc_split_openings := []; nc_cold_load_ms_per_layer := F32v.zero;
  nc_reply_tokens_at_most := None; nc_reply_tokens_expected := None; nc_split_tokens_per_round := None;
  nc_fresh_run_layers := None; nc_card_layers := None; nc_processor_tokens_per_sec := F32v.zero;
  nc_prompt_memory_refused := false; nc_prompt_fit_counts_caches := false; nc_memory_refused_this_request := false;
  nc_ring := {| request_may_be_led := false; coord := None; leads_splits := false; chains_forwards := false |};
  nc_range_weights := None |}.
Definition here : NodeId := replicate 32 1.
Definition part (byte a b : Z) : PipelineSegment := {|
  seg_node_id := replicate 32 byte; seg_shard_id := {| sh_model_id := []; sh_index := 0 |}; seg_layer_range := (a, b) |}.

(** The near of two peers takes the layers this node lacks. *)
Definition near_and_far : list NodeCandidate :=
  [machine 1 (0, 8) 0 true false None; machine 2 (8, 32) 200 false true None; machine 3 (8, 32) 10 false true None].
(** Two machines with all layers and room for 20 and for 16. *)
Definition tight : list NodeCandidate := [machine 1 (0, 32) 0 true true (Some 20); machine 2 (0, 32) 5 true true (Some 16)].
(** This node holds both ends. *)
Definition both_ends : list NodeCandidate :=
  [machine 1 (0, 3) 0 true false None; machine 1 (21, 28) 0 false true None; machine 2 (0, 28) 5 true true None].

Lemma route_is_a_pipeline_witness :
  covers 0 32 [part 1 0 8; part 3 8 32] /\ length (servers 9 [part 1 0 8; part 3 8 32]) = 1%nat.
Proof.
  destruct (route_is_a_pipeline 32 near_and_far here false false Everyone None [part 1 0 8; part 3 8 32]) as (H1 & H2 & _).
  - vm_compute; reflexivity.
  - split; [exact H1|apply (H2 9); lia].
Defined.

Lemma encrypted_ends_are_local_witness :
  exists s, [part 1 0 3; part 2 3 21; part 1 21 28] !! O = Some s /\ seg_node_id s = here.
Proof.
  apply (encrypted_ends_are_local 28 both_ends here true true Everyone None [part 1 0 3; part 2 3 21; part 1 21 28]).
  - reflexivity.
  - vm_compute; reflexivity.
Defined.

Lemma prompt_goes_to_a_trusted_head_witness :
  exists s c, [part 1 0 8; part 3 8 32] !! O = Some s /\ serves near_and_far here Everyone c s /\
    (trusted_with_the_plaintext_prompt c here = true \/
     search 32 near_and_far here false Everyone None (vertices 32 near_and_far here false false Everyone None false) true = None).
Proof.
  apply (prompt_goes_to_a_trusted_head 32 near_and_far here false false Everyone None false). vm_compute; reflexivity.
Defined.

Lemma route_over_decides_witness :
  match chosen 32 tight here false false Everyone None false with
  | Some _ => exists segments, route_over 32 tight here false false Everyone None false = Ok segments
  | None => exists reason, route_over 32 tight here false false Everyone None false = Err (PipelineError reason)
  end.
Proof. apply (route_over_decides 32 tight here false false Everyone None false). intros k [= <-]. reflexivity. Defined.


Lemma merging_keeps_the_assignment_witness :
  covers 0 9 (merge_contiguous [part 1 0 3; part 1 3 5; part 2 5 9]) /\
  node_at 4 (merge_contiguous [part 1 0 3; part 1 3 5; part 2 5 9]) = Some here.
Proof.
  destruct (merging_keeps_the_assignment 0 9 [part 1 0 3; part 1 3 5; part 2 5 9]) as (Hc & _ & Hn).
  - cbn. lia.
  - split; [exact Hc|]. rewrite Hn. reflexivity.
Defined.
