(* ===== verification/FlowNetwork.v ===== *)
(** * The flow network ([FlowNetwork] of [src/inference/scheduler/mod.rs])

    A network with whole-number capacities, solved by shortest augmenting paths.  Edges
    are stored in pairs, [e] and [twin e]; [room] is what can still be sent over each.
    A read outside a vector panics, and so does u32 arithmetic that leaves its range;
    a search that ran out of its rounds would panic as well, so a result [Ok] rules out
    all three.

    The specification is that of flows on paper: a flow gives every edge a number
    between zero and its capacity and keeps what enters each inner node equal to what
    leaves it ([is_flow]).  [max_flow] returns the largest value any flow has. *)
From S2P Require Import Prelude.
#[local] Open Scope Z_scope.

(** ** The code *)

Record FlowNetwork : Type := { adjacent : list (list nat); to : list nat; room : list Z }.

Definition network_new (nodes : nat) : FlowNetwork := {| adjacent := replicate nodes []; to := []; room := [] |}.

Definition add_node (net : FlowNetwork) : nat * FlowNetwork :=
  (length (adjacent net), {| adjacent := adjacent net ++ [[]]; to := to net; room := room net |}).

Definition add_half (a b : nat) (c : Z) (net : FlowNetwork) : outcome FlowNetwork :=
  es ← index (adjacent net) a;
  Ok {| adjacent := <[a := es ++ [length (to net)]]> (adjacent net); to := to net ++ [b]; room := room net ++ [c] |}.

Definition add_edge (from to : nat) (capacity : Z) (net : FlowNetwork) : outcome FlowNetwork :=
  net ← add_half from to capacity net; add_half to from 0 net.

(** [e ^ 1]: the other edge of the pair. *)
Definition twin (e : nat) : nat := Nat.lxor e 1.

Section max_flow.
Context (source sink : nat).

(** The body of [for &e in &self.adjacent[node]]. *)
Definition bfs_edge (net : FlowNetwork) (e : nat) (st : list (option nat) * list nat)
  : outcome (list (option nat) * list nat) :=
  let '(via, queue) := st in
  next ← index (to net) e;
  r ← index (room net) e;
  if (0 <? r) && negb (next =? source)%nat then
    v ← index via next;
    match v with
    | None => Ok (<[next := Some e]> via, queue ++ [next])
    | Some _ => Ok (via, queue)
    end
  else Ok (via, queue).

Fixpoint bfs_edges (net : FlowNetwork) (es : list nat) (st : list (option nat) * list nat)
  : outcome (list (option nat) * list nat) :=
  match es with
  | [] => Ok st
  | e :: es => st ← bfs_edge net e st; bfs_edges net es st
  end.

(** [while let Some(node) = queue.pop_front()]. *)
Fixpoint bfs (fuel : nat) (net : FlowNetwork) (via : list (option nat)) (queue : list nat)
  : outcome (list (option nat)) :=
  match queue with
  | [] => Ok via
  | node :: queue =>
      if (node =? sink)%nat then Ok via
      else match fuel with
           | O => Panic
           | S fuel =>
               es ← index (adjacent net) node;
               st ← bfs_edges net es (via, queue);
               bfs fuel net st.1 st.2
           end
  end.

(** The least room on the path found, from the sink back. *)
Fixpoint narrowest (fuel : nat) (net : FlowNetwork) (via : list (option nat)) (push : Z) (node : nat) : outcome Z :=
  v ← index via node;
  match v, fuel with
  | None, _ => Ok push
  | Some _, O => Panic
  | Some e, S fuel =>
      r ← index (room net) e;
      node ← index (to net) (twin e);
      narrowest fuel net via (Z.min push r) node
  end.

(** [push] sent along the path. *)
Fixpoint augment (fuel : nat) (net : FlowNetwork) (via : list (option nat)) (push : Z) (node : nat)
  : outcome FlowNetwork :=
  v ← index via node;
  match v, fuel with
  | None, _ => Ok net
  | Some _, O => Panic
  | Some e, S fuel =>
      r ← index (room net) e;
      r ← u32_sub r push;
      let rooms := <[e := r]> (room net) in
      b ← index rooms (twin e);
      b ← u32_add b push;
      node ← index (to net) (twin e);
      augment fuel {| adjacent := adjacent net; to := to net; room := <[twin e := b]> rooms |} via push node
  end.

(** One turn of the outer loop: the network and the total after it, or the total to
    return. *)
Definition flow_turn (st : FlowNetwork * Z) : outcome ((FlowNetwork * Z) + Z) :=
  let '(net, total) := st in
  let nodes := length (adjacent net) in
  via ← bfs (S nodes) net (replicate nodes None) [source];
  v ← index via sink;
  match v with
  | None => Ok (inr total)
  | Some _ =>
      push ← narrowest nodes net via u32_max sink;
      net ← augment nodes net via push sink;
      Ok (inl (net, u32_saturating_add total push))
  end.

Definition flow_round (st : FlowNetwork * Z) : (FlowNetwork * Z) + outcome (Z * FlowNetwork) :=
  match flow_turn st with
  | Ok (inl st') => inl st'
  | Ok (inr total) => inr (Ok (total, st.1))
  | Err e => inr (Err e)
  | Panic => inr Panic
  end.

(** Every turn sends at least one more out of the source, so no more turns are made
    than all the rooms together. *)
Definition max_flow (net : FlowNetwork) : outcome (Z * FlowNetwork) :=
  match iter_until (Z.to_pos (1 + sum_list (room net))) flow_round (net, 0) with
  | inl _ => Panic
  | inr r => r
  end.
End max_flow.

(** ** Flows on paper *)

(** From, to and capacity. *)
Abbreviation edge := (nat * nat * Z)%type.

(** What edge [ed], carrying [f], adds to what leaves node [v] less what enters it. *)
Definition edge_out (v : nat) (ed : edge) (f : Z) : Z :=
  (if decide (ed.1.1 = v) then f else 0) - (if decide (ed.1.2 = v) then f else 0).
Fixpoint net_out (l : list edge) (φ : list Z) (v : nat) : Z :=
  match l, φ with
  | ed :: l, f :: φ => edge_out v ed f + net_out l φ v
  | _, _ => 0
  end.

Definition within (ed : edge) (f : Z) : Prop := 0 <= f <= ed.2.
Record is_flow (l : list edge) (s t : nat) (φ : list Z) : Prop := {
  fl_within : Forall2 within l φ;
  fl_kept : forall v, v <> s -> v <> t -> net_out l φ v = 0 }.

(** The networks the operations build, with their number of nodes and their edges. *)
Inductive made : FlowNetwork -> nat -> list edge -> Prop :=
| made_new n : made (network_new n) n []
| made_node net n l : made net n l -> made (add_node net).2 (S n) l
| made_edge net n l a b c net' : made net n l -> add_edge a b c net = Ok net' -> is_u32 c ->
    made net' n (l ++ [(a, b, c)]).

(** ** Pairs of edges *)

Lemma twin_even k : twin (2 * k) = S (2 * k).
Proof.
  unfold twin. rewrite <- Nat.add_nocarry_lxor; [lia|].
  change 1%nat with (Nat.ones 1). rewrite Nat.land_ones.
  rewrite Nat.mul_comm. apply Nat.Div0.mod_mul.
Qed.
Lemma twin_twin e : twin (twin e) = e.
Proof. unfold twin. by rewrite Nat.lxor_assoc, Nat.lxor_nilpotent, Nat.lxor_0_r. Qed.
Lemma twin_odd k : twin (S (2 * k)) = (2 * k)%nat.
Proof. by rewrite <- twin_even, twin_twin. Qed.

Lemma edge_parity e : (exists k, e = 2 * k)%nat \/ (exists k, e = S (2 * k))%nat.
Proof. destruct (Nat.Even_or_Odd e) as [[k ->]|[k ->]]; [left|right]; exists k; lia. Qed.

Lemma half_even k : Nat.div2 (2 * k) = k.
Proof. apply Nat.div2_double. Qed.
Lemma half_odd k : Nat.div2 (S (2 * k)) = k.
Proof. apply Nat.div2_succ_double. Qed.
Lemma even_even k : Nat.even (2 * k) = true.
Proof. apply Nat.even_spec. by exists k. Qed.
Lemma even_odd k : Nat.even (S (2 * k)) = false.
Proof. by rewrite Nat.even_succ, <- Nat.negb_even, even_even. Qed.
Create HintDb pairs.
#[local] Hint Rewrite twin_even twin_odd half_even half_odd even_even even_odd : pairs.

Lemma twin_neq e : twin e <> e.
Proof. destruct (edge_parity e) as [[k ->]|[k ->]]; autorewrite with pairs; lia. Qed.
Lemma twin_half e : Nat.div2 (twin e) = Nat.div2 e.
Proof. destruct (edge_parity e) as [[k ->]|[k ->]]; by autorewrite with pairs. Qed.
Lemma same_half e e' : Nat.div2 e = Nat.div2 e' -> e = e' \/ e = twin e'.
Proof.
  destruct (edge_parity e) as [[k ->]|[k ->]], (edge_parity e') as [[k' ->]|[k' ->]];
    autorewrite with pairs; intros ->; auto.
Qed.

(** The edge at a place of the vectors: from, to and the room a flow leaves on it. *)
Definition residual (l : list edge) (φ : list Z) (e : nat) : option (nat * nat * Z) :=
  match l !! Nat.div2 e, φ !! Nat.div2 e with
  | Some (a, b, c), Some f => Some (if Nat.even e then (a, b, c - f) else (b, a, f))
  | _, _ => None
  end.

Lemma residual_pair l φ k : residual l φ (2 * k) = 
  (match l !! k, φ !! k with Some (a, b, c), Some f => Some (a, b, c - f) | _, _ => None end) /\
  residual l φ (S (2 * k)) =
  (match l !! k, φ !! k with Some (a, b, c), Some f => Some (b, a, f) | _, _ => None end).
Proof.
  unfold residual. rewrite half_even, half_odd, even_even, even_odd.
  by destruct (l !! k) as [[[??]?]|], (φ !! k).
Qed.

Lemma residual_twin l φ e u w r : residual l φ e = Some (u, w, r) ->
  exists r' ed, residual l φ (twin e) = Some (w, u, r') /\ l !! Nat.div2 e = Some ed /\ r + r' = ed.2.
Proof.
  unfold residual. rewrite twin_half. destruct (l !! Nat.div2 e) as [[[a b] c]|] eqn:El; [|done].
  destruct (φ !! Nat.div2 e) as [f|]; [|done]. intros H.
  exists (if Nat.even e then f else c - f), (a, b, c).
  destruct (edge_parity e) as [[k ->]|[k ->]]; autorewrite with pairs in *; simplify_eq; cbn [snd]; split_and!; done || lia.
Qed.

Lemma residual_within l φ e u w r : Forall2 within l φ -> residual l φ e = Some (u, w, r) -> 0 <= r.
Proof.
  intros Hw. unfold residual. destruct (l !! Nat.div2 e) as [[[a b] c]|] eqn:El; [|done].
  destruct (φ !! Nat.div2 e) as [f|] eqn:Ef; [|done]. pose proof (Forall2_lookup_lr _ _ _ _ _ _ Hw El Ef) as [? ?].
  cbn in *. destruct (Nat.even e); intros; simplify_eq; lia.
Qed.

(** ** Sending along an edge *)

Definition send (φ : list Z) (e : nat) (p : Z) : list Z :=
  alter (fun f => if Nat.even e then f + p else f - p) (Nat.div2 e) φ.

Lemma net_out_alter l φ g k ed f v : l !! k = Some ed -> φ !! k = Some f ->
  net_out l (alter g k φ) v = net_out l φ v - edge_out v ed f + edge_out v ed (g f).
Proof.
  revert φ k. induction l as [|ed' l IH]; intros [|f' φ] [|k] Hl Hf; try done; cbn in *; simplify_eq.
  - lia.
  - rewrite (IH φ k) by done. lia.
Qed.

Lemma send_net_out l φ e p u w r v : residual l φ e = Some (u, w, r) ->
  net_out l (send φ e p) v = net_out l φ v + (if decide (u = v) then p else 0) - (if decide (w = v) then p else 0).
Proof.
  unfold residual, send. destruct (l !! Nat.div2 e) as [[[a b] c]|] eqn:El; [|done].
  destruct (φ !! Nat.div2 e) as [f|] eqn:Ef; [|done]. intros H. rewrite (net_out_alter _ _ _ _ _ _ _ El Ef).
  revert H. unfold edge_out. cbn. destruct (Nat.even e); intros; simplify_eq; repeat case_decide; lia.
Qed.

Lemma send_residual_same l φ e p u w r : residual l φ e = Some (u, w, r) ->
  residual l (send φ e p) e = Some (u, w, r - p).
Proof.
  unfold residual, send. destruct (l !! Nat.div2 e) as [[[a b] c]|] eqn:El; [|done].
  destruct (φ !! Nat.div2 e) as [f|] eqn:Ef; [|done]. rewrite (list_lookup_alter_eq _ φ), Ef. cbn.
  destruct (Nat.even e); intros; simplify_eq; do 2 f_equal; lia.
Qed.

Lemma send_residual_twin l φ e p w u r : residual l φ (twin e) = Some (w, u, r) ->
  residual l (send φ e p) (twin e) = Some (w, u, r + p).
Proof.
  unfold residual, send. rewrite twin_half. destruct (l !! Nat.div2 e) as [[[a b] c]|] eqn:El; [|done].
  destruct (φ !! Nat.div2 e) as [f|] eqn:Ef; [|done]. rewrite (list_lookup_alter_eq _ φ), Ef. cbn.
  destruct (edge_parity e) as [[k ->]|[k ->]]; autorewrite with pairs; intros; simplify_eq; do 2 f_equal; lia.
Qed.

Lemma send_residual_other l φ e p e' : e' <> e -> e' <> twin e -> residual l (send φ e p) e' = residual l φ e'.
Proof.
  intros H1 H2. unfold residual, send. rewrite list_lookup_alter_ne; [done|].
  intros Hh. symmetry in Hh. destruct (same_half _ _ Hh); done.
Qed.

Lemma send_shape l φ e p e' : option_map fst (residual l (send φ e p) e') = option_map fst (residual l φ e').
Proof.
  unfold residual, send. destruct (decide (Nat.div2 e = Nat.div2 e')) as [<-|Hne].
  - rewrite (list_lookup_alter_eq _ φ). destruct (l !! Nat.div2 e) as [[[??]?]|], (φ !! Nat.div2 e); cbn; try done. by destruct (Nat.even e').
  - by rewrite list_lookup_alter_ne.
Qed.

Lemma send_within l φ e p u w r : Forall2 within l φ -> residual l φ e = Some (u, w, r) -> 0 <= p <= r ->
  Forall2 within l (send φ e p).
Proof.
  unfold residual, send. intros Hw He Hp. destruct (l !! Nat.div2 e) as [[[a b] c]|] eqn:El; [|done].
  destruct (φ !! Nat.div2 e) as [f|] eqn:Ef; [|done]. apply Forall2_same_length_lookup in Hw as [Hlen Hw].
  apply Forall2_same_length_lookup. split; [by rewrite length_alter|]. intros i ed g Hi.
  destruct (decide (Nat.div2 e = i)) as [<-|Hne]; [|rewrite list_lookup_alter_ne by done; by apply Hw].
  rewrite (list_lookup_alter_eq _ φ), Ef. cbn. pose proof (Hw _ _ _ Hi Ef) as [? ?].
  revert He. unfold within in *. rewrite El in Hi. destruct (Nat.even e); intros; simplify_eq; cbn in *; lia.
Qed.

(** ** The vectors hold a network and a flow over it *)

Record represents (net : FlowNetwork) (n : nat) (l : list edge) (φ : list Z) : Prop := {
  rp_nodes : length (adjacent net) = n;
  rp_ends : forall e ed, l !! e = Some ed -> (ed.1.1 < n)%nat /\ (ed.1.2 < n)%nat /\ ed.2 <= u32_max;
  rp_within : Forall2 within l φ;
  rp_adjacent : forall v es, adjacent net !! v = Some es ->
    forall e, e ∈ es <-> exists w r, residual l φ e = Some (v, w, r);
  rp_reads : forall e u w r, residual l φ e = Some (u, w, r) ->
    to net !! e = Some w /\ room net !! e = Some r;
  rp_size : length (to net) = (2 * length l)%nat /\ length (room net) = (2 * length l)%nat }.

Lemma residual_lt l φ e x : residual l φ e = Some x -> (e < 2 * length l)%nat.
Proof.
  unfold residual. destruct (l !! Nat.div2 e) as [ed|] eqn:El; [|done]. intros _. apply lookup_lt_Some in El.
  destruct (edge_parity e) as [[k ->]|[k ->]]; autorewrite with pairs in El; lia.
Qed.

Lemma residual_ends net n l φ e u w r : represents net n l φ -> residual l φ e = Some (u, w, r) ->
  (u < n)%nat /\ (w < n)%nat.
Proof.
  intros [_ Hb _ _ _]. unfold residual. destruct (l !! Nat.div2 e) as [[[a b] c]|] eqn:El; [|done].
  destruct (φ !! Nat.div2 e); [|done]. pose proof (Hb _ _ El) as (? & ? & _). cbn in *.
  destruct (Nat.even e); intros; by simplify_eq.
Qed.

Lemma residual_u32 net n l φ e u w r : represents net n l φ -> residual l φ e = Some (u, w, r) -> 0 <= r <= u32_max.
Proof.
  intros Hr He. destruct (residual_twin _ _ _ _ _ _ He) as (r' & ed & Ht & Hed & Hsum).
  pose proof (residual_within _ _ _ _ _ _ (rp_within _ _ _ _ Hr) He).
  pose proof (residual_within _ _ _ _ _ _ (rp_within _ _ _ _ Hr) Ht).
  pose proof (rp_ends _ _ _ _ Hr _ _ Hed) as (_ & _ & ?). lia.
Qed.

(** Taking [p] off an edge's room and adding it to its twin's is sending [p] along it. *)
Lemma represents_send net n l φ e u w r r' p : represents net n l φ ->
  residual l φ e = Some (u, w, r) -> residual l φ (twin e) = Some (w, u, r') -> 0 <= p <= r ->
  represents {| adjacent := adjacent net; to := to net; room := <[twin e := r' + p]> (<[e := r - p]> (room net)) |}
    n l (send φ e p).
Proof.
  intros Hr He Ht Hp. pose proof (rp_size _ _ _ _ Hr) as [Hst Hsr].
  split; cbn; [by apply Hr|by apply Hr|by eapply send_within; [apply Hr|..]| | |].
  - intros v es Hv e'. rewrite (rp_adjacent _ _ _ _ Hr v es Hv e').
    pose proof (send_shape l φ e p e') as Hsh.
    split; intros (w' & x & Hx); rewrite Hx in Hsh; cbn in Hsh.
    + destruct (residual l (send φ e p) e') as [[[??]?]|]; cbn in *; simplify_eq; eauto.
    + destruct (residual l φ e') as [[[??]?]|]; cbn in *; simplify_eq; eauto.
  - intros e' u' w' x Hx. destruct (decide (e' = e)) as [->|H1]; [|destruct (decide (e' = twin e)) as [->|H2]].
    + rewrite (send_residual_same _ _ _ _ _ _ _ He) in Hx. simplify_eq.
      rewrite list_lookup_insert_ne by apply twin_neq. rewrite list_lookup_insert_eq; [by split; [eapply Hr|]|].
      apply residual_lt in He. lia.
    + rewrite (send_residual_twin _ _ _ _ _ _ _ Ht) in Hx. simplify_eq.
      rewrite list_lookup_insert_eq; [by split; [eapply Hr|]|]. rewrite length_insert. apply residual_lt in Ht. lia.
    + rewrite send_residual_other in Hx by done. rewrite !list_lookup_insert_ne by congruence. by eapply Hr.
  - rewrite !length_insert. lia.
Qed.

(** *** The network the operations build carries no flow yet *)

Lemma residual_app l a b c φ e : length φ = length l ->
  residual (l ++ [(a, b, c)]) (φ ++ [0]) e =
  if decide (e = 2 * length l)%nat then Some (a, b, c)
  else if decide (e = S (2 * length l)) then Some (b, a, 0) else residual l φ e.
Proof.
  intros Hlen. unfold residual.
  destruct (edge_parity e) as [[k ->]|[k ->]]; autorewrite with pairs.
  - case_decide as H1.
    + assert (k = length l) as -> by lia. rewrite !list_lookup_middle by done. do 2 f_equal. lia.
    + case_decide; [lia|]. destruct (decide (k < length l)%nat).
      * rewrite !lookup_app_l by lia. done.
      * rewrite (proj2 (lookup_ge_None (l ++ _) k)) by (rewrite length_app; cbn; lia).
        by rewrite (proj2 (lookup_ge_None l k)) by lia.
  - case_decide as H1; [lia|]. case_decide as H2.
    + assert (k = length l) as -> by lia. by rewrite !list_lookup_middle.
    + destruct (decide (k < length l)%nat).
      * rewrite !lookup_app_l by lia. done.
      * rewrite (proj2 (lookup_ge_None (l ++ _) k)) by (rewrite length_app; cbn; lia).
        by rewrite (proj2 (lookup_ge_None l k)) by lia.
Qed.

Lemma network_new_represents n : represents (network_new n) n [] [].
Proof.
  assert (H0 : forall e, residual [] [] e = None) by (intros e; unfold residual; by rewrite lookup_nil).
  split; cbn; try done; [by rewrite length_replicate|].
  intros v es Hv e. apply lookup_replicate in Hv as [-> _]. split; [by intros ?%elem_of_nil|].
  intros (w & r & Hr). by rewrite H0 in Hr.
Qed.

Lemma represents_add_node net n l φ : represents net n l φ -> represents (add_node net).2 (S n) l φ.
Proof.
  intros IH. split; cbn; try apply IH.
  - rewrite length_app, (rp_nodes _ _ _ _ IH). cbn. lia.
  - intros e ed He. pose proof (rp_ends _ _ _ _ IH _ _ He). lia.
  - intros v es [Hv|[Hv Hes]]%lookup_app_Some; [by apply IH|]. apply list_lookup_singleton_Some in Hes as [Hv' <-].
    intros e. split; [by intros ?%elem_of_nil|]. intros (w & r & Hr).
    pose proof (residual_ends _ _ _ _ _ _ _ _ IH Hr). rewrite (rp_nodes _ _ _ _ IH) in *. lia.
Qed.

(** What [add_half] does to the lists of edges. *)
Lemma add_half_adjacent a b c net net' : add_half a b c net = Ok net' ->
  (a < length (adjacent net))%nat /\ length (adjacent net') = length (adjacent net) /\
  to net' = to net ++ [b] /\ room net' = room net ++ [c] /\
  forall v es', adjacent net' !! v = Some es' -> exists es, adjacent net !! v = Some es /\
    forall e, e ∈ es' <-> e ∈ es \/ v = a /\ e = length (to net).
Proof.
  unfold add_half, index. destruct (adjacent net !! a) as [ea|] eqn:Ea; [|done]. cbn. intros [= <-]. cbn.
  pose proof (lookup_lt_Some _ _ _ Ea). split_and!; try done; [apply length_insert|].
  intros v es'. destruct (decide (v = a)) as [->|Hv].
  - rewrite list_lookup_insert_eq by done. intros [= <-]. exists ea. split; [done|]. intros e.
    rewrite elem_of_app, list_elem_of_singleton. naive_solver.
  - rewrite list_lookup_insert_ne by congruence. intros Hes. exists es'. split; [done|]. naive_solver.
Qed.

Lemma represents_add_edge net n l φ a b c net' : represents net n l φ -> add_edge a b c net = Ok net' -> is_u32 c ->
  represents net' n (l ++ [(a, b, c)]) (φ ++ [0]).
Proof.
  intros IH Hadd Hc. unfold add_edge in Hadd. inv_bind Hadd. rename a0 into mid.
  apply add_half_adjacent in E as (Ha & Ln1 & T1 & R1 & A1).
  apply add_half_adjacent in Hadd as (Hb & Ln2 & T2 & R2 & A2).
  pose proof (rp_size _ _ _ _ IH) as [Hst Hsr]. pose proof (rp_nodes _ _ _ _ IH) as Hn.
  pose proof (Forall2_length (rp_within _ _ _ _ IH)) as Hlen. symmetry in Hlen.
  split.
  - congruence.
  - intros e ed [He|[_ He]]%lookup_app_Some; [by apply IH in He|].
    apply list_lookup_singleton_Some in He as [_ <-]. cbn. unfold is_u32 in Hc. lia.
  - apply Forall2_app; [apply IH|]. constructor; [|constructor]. unfold within, is_u32 in *. cbn. lia.
  - intros v es2 (es1 & (es0 & H0 & E1)%A1 & E2)%A2 e. rewrite E2, E1, (rp_adjacent _ _ _ _ IH v es0 H0 e).
    rewrite (residual_app l a b c _ e Hlen), T1, length_app, Hst. cbn [length].
    replace (2 * length l + 1)%nat with (S (2 * length l)) by lia.
    split.
    + intros [[(w & r & Hr)|[-> ->]]|[-> ->]]; [|rewrite decide_True by done; eauto|].
      * pose proof (residual_lt _ _ _ _ Hr). rewrite !decide_False by lia. eauto.
      * rewrite decide_False by lia. rewrite decide_True by done. eauto.
    + intros (w & r & Hr). repeat case_decide; simplify_eq; eauto 6.
  - intros e u w r. rewrite (residual_app l a b c _ e Hlen), T2, R2, T1, R1.
    repeat case_decide; intros Hr; simplify_eq.
    + rewrite !(lookup_app_l (_ ++ _)) by (rewrite length_app; cbn; lia). by rewrite !list_lookup_middle by lia.
    + by rewrite !list_lookup_middle by (rewrite length_app; cbn; lia).
    + pose proof (residual_lt _ _ _ _ Hr). rewrite !lookup_app_l by (rewrite ?length_app; cbn; lia). by eapply IH.
  - rewrite T2, R2, T1, R1, !length_app. cbn. lia.
Qed.

Lemma made_represents net n l : made net n l -> represents net n l (replicate (length l) 0).
Proof.
  induction 1 as [n|net n l Hm IH|net n l a b c net' Hm IH Hadd Hc].
  - apply network_new_represents.
  - by apply represents_add_node.
  - rewrite length_app, replicate_add. by eapply represents_add_edge.
Qed.

(** An edge between nodes of the network can always be added. *)
Lemma add_edge_returns net n a b c : length (adjacent net) = n -> (a < n)%nat -> (b < n)%nat ->
  exists net', add_edge a b c net = Ok net'.
Proof.
  intros Hn Ha Hb. unfold add_edge, add_half, index.
  destruct (lookup_lt_is_Some_2 (adjacent net) a ltac:(lia)) as [ea ->]. cbn.
  destruct (lookup_lt_is_Some_2 (<[a := ea ++ [length (to net)]]> (adjacent net)) b) as [eb ->].
  { rewrite length_insert. lia. }
  cbn. eauto.
Qed.

(** ** The breadth-first search *)

Section search.
Context (net : FlowNetwork) (n : nat) (l : list edge) (φ : list Z) (s t : nat).
Hypothesis (Hnet : represents net n l φ) (Hs : (s < n)%nat) (Ht : (t < n)%nat) (Hst : s <> t).

(** The edges from a node back to the source, as [via] records them. *)
Inductive via_path (via : list (option nat)) : nat -> list nat -> Prop :=
| vp_source : via !! s = Some None -> via_path via s []
| vp_back u e w r p : via !! u = Some (Some e) -> residual l φ e = Some (w, u, r) -> 0 < r ->
    via_path via w p -> via_path via u (e :: p).

Definition reached (via : list (option nat)) (v : nat) : Prop := v = s \/ exists e, via !! v = Some (Some e).
Definition extends (via via' : list (option nat)) : Prop :=
  forall v e, via !! v = Some (Some e) -> via' !! v = Some (Some e).
Definition unreached (via : list (option nat)) : nat := length (filter (fun o => o = None) via).

Record searching (via : list (option nat)) : Prop := {
  se_length : length via = n;
  se_source : via !! s = Some None;
  se_paths : forall v, reached via v -> exists p, via_path via v p }.

Lemma via_path_extends via via' v p : extends via via' -> via' !! s = Some None -> via_path via v p -> via_path via' v p.
Proof. clear Hnet Hs Ht Hst. intros He Hs'. induction 1; [by constructor|]. econstructor; eauto. Qed.

Lemma reached_extends via via' v : extends via via' -> reached via v -> reached via' v.
Proof. clear Hnet Hs Ht Hst. intros He [->|[e ?]]; [by left|right; eauto]. Qed.

Lemma unreached_insert via v e : via !! v = Some None -> unreached via = S (unreached (<[v := Some e]> via)).
Proof. clear Hnet Hs Ht Hst.
  unfold unreached. revert v. induction via as [|o via IH]; intros [|v] Hv; try done; cbn in Hv.
  - simplify_eq. cbn [insert list_insert]. rewrite filter_cons_True by done. by rewrite filter_cons_False.
  - change (<[S v := Some e]> (o :: via)) with (o :: <[v := Some e]> via). rewrite !filter_cons. case_decide; cbn; by rewrite (IH v Hv).
Qed.

Lemma searching_insert via v e next r : searching via -> reached via v -> residual l φ e = Some (v, next, r) -> 0 < r ->
  next <> s -> via !! next = Some None ->
  extends via (<[next := Some e]> via) /\ searching (<[next := Some e]> via) /\ reached (<[next := Some e]> via) next /\
  forall x, reached (<[next := Some e]> via) x -> reached via x \/ x = next.
Proof.
  intros Hse Hv He Hr Hne Hn. pose proof (lookup_lt_Some _ _ _ Hn) as Hlt.
  assert (Hext : extends via (<[next := Some e]> via)).
  { intros x e' Hx. rewrite list_lookup_insert_ne; [done|]. congruence. }
  assert (Hnew : <[next := Some e]> via !! next = Some (Some e)) by by apply list_lookup_insert_eq.
  assert (Hsrc : <[next := Some e]> via !! s = Some None) by (rewrite list_lookup_insert_ne by done; apply Hse).
  assert (Hback : forall x, reached (<[next := Some e]> via) x -> reached via x \/ x = next).
  { intros x [->|[e' Hx]]; [by left; left|]. destruct (decide (x = next)) as [|Hx']; [by right|left; right].
    rewrite list_lookup_insert_ne in Hx by congruence. eauto. }
  split_and!; [done| |right; eauto|done].
  split; [rewrite length_insert; apply Hse|done|].
  intros x [Hx| ->]%Hback.
  - destruct (se_paths _ Hse x Hx) as [p Hp]. exists p. by eapply via_path_extends.
  - destruct (se_paths _ Hse v Hv) as [p Hp]. exists (e :: p). econstructor; eauto. by eapply via_path_extends.
Qed.

(** Looking at some edges of a node reaches what they lead to. *)
Lemma bfs_edges_spec es v via queue : searching via -> reached via v ->
  Forall (fun e => exists w r, residual l φ e = Some (v, w, r)) es ->
  exists via' found, bfs_edges s net es (via, queue) = Ok (via', queue ++ found) /\
    extends via via' /\ searching via' /\ Forall (reached via') found /\
    (forall x, reached via' x -> reached via x \/ x ∈ found) /\
    (forall e w r, e ∈ es -> residual l φ e = Some (v, w, r) -> 0 < r -> reached via' w) /\
    (length found + unreached via' = unreached via)%nat.
Proof.
  intros Hse Hv Hes. revert via queue Hse Hv. induction Hes as [|e es (w & r & He) Hes IH]; intros via queue Hse Hv.
  - exists via, []. rewrite app_nil_r. split_and!; try done; [by intros ??|by left|by intros ??? ?%elem_of_nil].
  - cbn [bfs_edges]. unfold bfs_edge.
    destruct (rp_reads _ _ _ _ Hnet _ _ _ _ He) as [Hto Hroom]. rewrite (index_ok _ _ _ Hto), (index_ok _ _ _ Hroom).
    cbn [mbind outcome_bind].
    pose proof (residual_ends _ _ _ _ _ _ _ _ Hnet He) as [_ Hwn].
    assert (Hskip : (0 < r -> reached via w) -> exists via' found,
      bfs_edges s net es (via, queue) = Ok (via', queue ++ found) /\
      extends via via' /\ searching via' /\ Forall (reached via') found /\
      (forall x, reached via' x -> reached via x \/ x ∈ found) /\
      (forall e' w r, e' ∈ e :: es -> residual l φ e' = Some (v, w, r) -> 0 < r -> reached via' w) /\
      (length found + unreached via' = unreached via)%nat).
    { intros Hw. destruct (IH via queue Hse Hv) as (via' & found & E & Hx & Hse' & Hf & Hb & Hc & Hm).
      exists via', found. split_and!; try done. intros e' w' r' [->|Hin]%elem_of_cons He' Hr'; [|by eapply Hc].
      rewrite He in He'. simplify_eq. eapply reached_extends; eauto. }
    destruct ((0 <? r) && negb (w =? s)%nat) eqn:Hcond.
    + apply andb_true_iff in Hcond as [Hr Hws]. apply Z.ltb_lt in Hr. apply negb_true_iff, Nat.eqb_neq in Hws.
      destruct (lookup_lt_is_Some_2 via w) as [o Ho]; [rewrite (se_length _ Hse); done|].
      rewrite (index_ok _ _ _ Ho). cbn [mbind outcome_bind].
      destruct o as [e'|]; [apply Hskip; intros _; right; eauto|].
      destruct (searching_insert via v e w r Hse Hv He Hr Hws Ho) as (Hx1 & Hse1 & Hrw & Hb1).
      destruct (IH _ (queue ++ [w]) Hse1 (reached_extends _ _ _ Hx1 Hv)) as (via' & found & E & Hx & Hse' & Hf & Hb & Hc & Hm).
      exists via', (w :: found). cbn [mbind outcome_bind]. rewrite E, <- app_assoc. split_and!; try done.
      * intros x e' Hx'. by apply Hx, Hx1.
      * constructor; [by eapply reached_extends|done].
      * intros x [[?| ->]%Hb1|?]%Hb; [by left|right; left|right; right; done].
      * intros e' w' r' [->|Hin]%elem_of_cons He' Hr'; [|by eapply Hc]. rewrite He in He'. simplify_eq.
        by eapply reached_extends.
      * rewrite (unreached_insert _ _ e Ho). cbn. lia.
    + apply Hskip. intros Hr. apply andb_false_iff in Hcond as [Hr'|Hws]; [apply Z.ltb_ge in Hr'; lia|].
      apply negb_false_iff, Nat.eqb_eq in Hws. by left.
Qed.

(** What has been taken off the queue leads nowhere that is not reached. *)
Definition closed_but (via : list (option nat)) (queue : list nat) : Prop :=
  forall v e w r, reached via v -> v ∉ queue -> residual l φ e = Some (v, w, r) -> 0 < r -> reached via w.

Lemma bfs_spec fuel via queue : searching via -> Forall (reached via) queue -> closed_but via queue ->
  (length queue + unreached via <= fuel)%nat ->
  exists via', bfs s t fuel net via queue = Ok via' /\ searching via' /\
    (via' !! t = Some None -> closed_but via' []).
Proof.
  revert via queue. induction fuel as [|fuel IH]; intros via [|v queue] Hse Hq Hc Hf; cbn [bfs].
  - by exists via.
  - cbn in Hf. lia.
  - by exists via.
  - apply Forall_cons_1 in Hq as [Hv Hq]. destruct (Nat.eqb_spec v t) as [->|Hvt].
    + exists via. split_and!; try done. intros Hn. destruct Hv as [|[e Hv]]; [done|]. by rewrite Hv in Hn.
    + assert (Hvn : (v < n)%nat).
      { destruct Hv as [->|[e Hv]]; [done|]. rewrite <- (se_length _ Hse). by eapply lookup_lt_Some. }
      destruct (lookup_lt_is_Some_2 (adjacent net) v) as [es Hes]; [by rewrite (rp_nodes _ _ _ _ Hnet)|].
      rewrite (index_ok _ _ _ Hes). cbn [mbind outcome_bind].
      pose proof (rp_adjacent _ _ _ _ Hnet v es Hes) as Hadj.
      destruct (bfs_edges_spec es v via queue Hse Hv) as (via' & found & E & Hx & Hse' & Hfo & Hb & Hcl & Hm).
      { apply list.Forall_forall. intros e. by rewrite Hadj. }
      rewrite E. cbn [mbind outcome_bind fst snd]. apply IH; try done.
      * apply Forall_app. split; [|done]. eapply list.Forall_impl; [exact Hq|]. intros x. by apply reached_extends.
      * intros x e w r Hx' Hnq He Hr. rewrite not_elem_of_app in Hnq. destruct Hnq as [Hnq Hnf].
        destruct (decide (x = v)) as [->|Hxv]; [eapply Hcl; eauto; apply Hadj; eauto|].
        apply Hb in Hx' as [Hx'|]; [|done]. eapply reached_extends; [done|]. eapply Hc; eauto.
        by intros [->|?]%elem_of_cons.
      * rewrite length_app. cbn in Hf. lia.
Qed.

Lemma bfs_start : exists via, bfs s t (S n) net (replicate n None) [s] = Ok via /\ searching via /\
  (via !! t = Some None -> closed_but via []).
Proof.
  assert (Hnone : forall v o, replicate n (None : option nat) !! v = Some o -> o = None) by (intros v o [? _]%lookup_replicate; done).
  assert (Hsrc : replicate n (None : option nat) !! s = Some None) by by apply lookup_replicate.
  apply bfs_spec.
  - split; [apply length_replicate|done|]. intros v [->|[e Hv]]; [exists []; by constructor|]. by apply Hnone in Hv.
  - repeat constructor.
  - intros v e w r [->|[e' Hv]] Hq; [set_solver|]. by apply Hnone in Hv.
  - unfold unreached. cbn. pose proof (length_filter (fun o : option nat => o = None) (replicate n None)) as H.
    rewrite length_replicate in H. lia.
Qed.

(** ** The path found *)

Lemma via_path_functional via v p p' : via_path via v p -> via_path via v p' -> p = p'.
Proof. clear Hnet Hs Ht Hst.
  intros H. revert p'. induction H as [Hn|u e w r p Hu He Hr Hp IH]; intros p' H'; inversion H'; simplify_eq; [done|].
  f_equal. by apply IH.
Qed.

Lemma via_path_edge via v p e : via_path via v p -> e ∈ p ->
  exists u w r before after, p = before ++ e :: after /\ via_path via u (e :: after) /\
    via !! u = Some (Some e) /\ residual l φ e = Some (w, u, r).
Proof. clear Hnet Hs Ht Hst.
  induction 1 as [|u e' w r p Hu He Hr Hp IH]; [by intros ?%elem_of_nil|].
  intros [->|(u' & w' & r' & b & a & -> & H1 & H2 & H3)%IH]%elem_of_cons.
  - exists u, w, r, [], p. split_and!; try done. econstructor; eauto.
  - exists u', w', r', (e' :: b), a. done.
Qed.

Lemma via_path_nodup via v p : via_path via v p -> NoDup p.
Proof.
  clear Hnet Hs Ht Hst.
  induction 1 as [|u e w r p Hu He Hr Hp IH]; constructor; [|done]. intros Hin.
  destruct (via_path_edge _ _ _ _ Hp Hin) as (u' & w' & r' & b & a & -> & H1 & H2 & H3).
  rewrite He in H3. simplify_eq.
  assert (H4 : via_path via u' (e :: b ++ e :: a)) by (econstructor; eauto).
  pose proof (via_path_functional _ _ _ _ H1 H4) as H5. apply (f_equal length) in H5. cbn in H5. rewrite length_app in H5. cbn in H5. lia.
Qed.

Lemma via_path_length via v p : length via = n -> via_path via v p -> (length p <= n)%nat.
Proof.
  clear Hnet Hs Ht Hst.
  intros Hlen Hp. rewrite <- Hlen, <- (length_fmap Some p). apply submseteq_length, NoDup_submseteq.
  - apply (NoDup_fmap_2 Some), (via_path_nodup _ _ _ Hp).
  - intros o (e & -> & He)%list_elem_of_fmap. destruct (via_path_edge _ _ _ _ Hp He) as (u & ? & ? & ? & ? & _ & _ & Hu & _).
    by eapply list_elem_of_lookup_2.
Qed.

Lemma narrowest_spec fuel via v p push : via_path via v p -> (length p <= fuel)%nat -> 0 < push ->
  exists q, narrowest fuel net via push v = Ok q /\ 0 < q <= push /\
    forall e u w r, e ∈ p -> residual l φ e = Some (u, w, r) -> q <= r.
Proof.
  intros Hp. revert fuel push. induction Hp as [Hn|u e w r p Hu He Hr Hp IH]; intros fuel push Hf Hpush.
  - exists push. split_and!; try lia; [|by intros ???? ?%elem_of_nil]. destruct fuel; cbn; by rewrite (index_ok _ _ _ Hn).
  - destruct fuel as [|fuel]; cbn in Hf; [lia|].
    destruct (IH fuel (Z.min push r)) as (q & E & Hq & Hle); [lia..|].
    destruct (residual_twin _ _ _ _ _ _ He) as (r' & _ & Htw & _).
    exists q. cbn. rewrite (index_ok _ _ _ Hu). cbn [mbind outcome_bind].
    rewrite (index_ok _ _ _ (proj2 (rp_reads _ _ _ _ Hnet _ _ _ _ He))). cbn [mbind outcome_bind].
    rewrite (index_ok _ _ _ (proj1 (rp_reads _ _ _ _ Hnet _ _ _ _ Htw))). cbn [mbind outcome_bind].
    split_and!; [done|lia..|]. intros e' u' w' r'' [->|Hin]%elem_of_cons He'; [|by eapply Hle].
    rewrite He in He'. simplify_eq. lia.
Qed.

Definition path_room (φ' : list Z) (push : Z) (p : list nat) : Prop :=
  forall e u w r, e ∈ p -> residual l φ e = Some (u, w, r) -> exists r', residual l φ' e = Some (u, w, r') /\ push <= r'.

Lemma path_room_send φ' push e p u w r : path_room φ' push (e :: p) -> e ∉ p -> residual l φ e = Some (u, w, r) ->
  0 <= push -> path_room (send φ' e push) push p.
Proof.
  intros Hpr Hne He Hpush e' u' w' r' Hin He'.
  destruct (Hpr e' u' w' r' ltac:(by right) He') as (x & Hx & Hle).
  destruct (decide (e' = e)) as [->|H1]; [done|].
  destruct (decide (e' = twin e)) as [->|H2].
  - exists (x + push). split; [by apply send_residual_twin|lia].
  - exists x. by rewrite send_residual_other.
Qed.

(** Pushing along the path sends that much more out of the source and into its end. *)
Lemma augment_spec fuel via v p push net' φ' : via_path via v p -> (length p <= fuel)%nat -> NoDup p -> 0 <= push ->
  represents net' n l φ' -> path_room φ' push p ->
  exists net'' φ'', augment fuel net' via push v = Ok net'' /\ represents net'' n l φ'' /\
    forall x, net_out l φ'' x = net_out l φ' x + (if decide (s = x) then push else 0) - (if decide (v = x) then push else 0).
Proof.
  intros Hp. revert fuel net' φ'. induction Hp as [Hn|u e w r p Hu He Hr Hp IH]; intros fuel net' φ' Hf Hnd Hpush Hrep Hpr.
  - exists net', φ'. split_and!; [destruct fuel; cbn; by rewrite (index_ok _ _ _ Hn)|done|]. intros x. lia.
  - destruct fuel as [|fuel]; cbn in Hf; [lia|]. apply list.NoDup_cons in Hnd as [Hne Hnd].
    destruct (Hpr e w u r ltac:(by left) He) as (x & Hx & Hle).
    destruct (residual_twin _ _ _ _ _ _ Hx) as (y & ed & Hy & Hed & Hsum).
    pose proof (represents_send _ _ _ _ _ _ _ _ _ push Hrep Hx Hy ltac:(lia)) as Hrep'.
    pose proof (residual_within _ _ _ _ _ _ (rp_within _ _ _ _ Hrep) Hy) as Hy0.
    pose proof (rp_ends _ _ _ _ Hrep _ _ Hed) as (_ & _ & Hcap).
    destruct (IH fuel _ _ ltac:(lia) Hnd Hpush Hrep' (path_room_send _ _ _ _ _ _ _ Hpr Hne He Hpush))
      as (net'' & φ'' & E & Hrep'' & Hout).
    exists net'', φ''. split_and!; [|done|].
    + cbn. rewrite (index_ok _ _ _ Hu). cbn [mbind outcome_bind].
      rewrite (index_ok _ _ _ (proj2 (rp_reads _ _ _ _ Hrep _ _ _ _ Hx))). cbn [mbind outcome_bind].
      rewrite u32_sub_ok by lia. cbn [mbind outcome_bind].
      rewrite (index_ok _ (twin e) y).
      2: { rewrite list_lookup_insert_ne by (intros Hc; by apply (twin_neq e)). apply (rp_reads _ _ _ _ Hrep _ _ _ _ Hy). }
      cbn [mbind outcome_bind]. rewrite u32_add_ok by lia. cbn [mbind outcome_bind].
      rewrite (index_ok _ _ _ (proj1 (rp_reads _ _ _ _ Hrep _ _ _ _ Hy))). cbn [mbind outcome_bind]. done.
    + intros z. rewrite Hout, (send_net_out _ _ _ _ _ _ _ _ Hx). repeat case_decide; lia.
Qed.
End search.

(** ** Cuts *)

Section cut.
Context (side : nat -> bool).

Definition across (ed : edge) (f : Z) : Z := (if side ed.1.1 then f else 0) - (if side ed.1.2 then f else 0).
Definition cut_edge (ed : edge) : Z := if side ed.1.1 && negb (side ed.1.2) then ed.2 else 0.

Fixpoint crossing (l : list edge) (φ : list Z) : Z :=
  match l, φ with ed :: l, f :: φ => across ed f + crossing l φ | _, _ => 0 end.
Definition cut (l : list edge) : Z := sum_list (map cut_edge l).

Lemma sum_net_out n l φ : Forall (fun ed : edge => (ed.1.1 < n)%nat /\ (ed.1.2 < n)%nat) l ->
  sum_list (map (net_out l φ) (filter (fun v => side v = true) (seq 0 n))) = crossing l φ.
Proof.
  intros Hl. revert φ. induction Hl as [|ed l [Ha Hb] Hl IH]; intros φ; [by apply sum_map_zero|].
  destruct φ as [|f φ]; [by apply sum_map_zero|]. cbn [crossing]. rewrite <- IH. unfold net_out; fold net_out.
  rewrite sum_map_add. f_equal. unfold edge_out. rewrite sum_map_sub.
  assert (Hnd : NoDup (filter (fun v => side v = true) (seq 0 n))) by apply list.NoDup_filter, NoDup_seq.
  rewrite !sum_map_at by done. unfold across.
  assert (Hin : forall a, (a < n)%nat -> a ∈ filter (fun v => side v = true) (seq 0 n) <-> side a = true).
  { intros a Ha'. rewrite list_elem_of_filter, elem_of_seq. intuition lia. }
  f_equal.
  - destruct (side ed.1.1) eqn:E; case_decide as H; rewrite Hin in H by done; congruence.
  - destruct (side ed.1.2) eqn:E; case_decide as H; rewrite Hin in H by done; congruence.
Qed.

(** What a flow sends out of the source crosses every cut. *)
Lemma value_crosses n l s t φ : Forall (fun ed : edge => (ed.1.1 < n)%nat /\ (ed.1.2 < n)%nat) l -> (s < n)%nat ->
  (forall v, v <> s -> v <> t -> net_out l φ v = 0) -> side s = true -> side t = false ->
  net_out l φ s = crossing l φ.
Proof.
  intros Hl Hs Hk Hss Hst. rewrite <- (sum_net_out n l φ Hl).
  rewrite (sum_map_ext _ (fun v => if decide (s = v) then net_out l φ s else 0)).
  - rewrite sum_map_at by apply list.NoDup_filter, NoDup_seq. rewrite decide_True; [done|].
    rewrite list_elem_of_filter, elem_of_seq. lia.
  - intros v [Hv _]%list_elem_of_filter. case_decide; [by subst|]. apply Hk; congruence.
Qed.

Lemma crossing_le_cut l φ : Forall2 within l φ -> crossing l φ <= cut l.
Proof.
  unfold cut. induction 1 as [|ed f l φ [? ?] _ IH]; cbn in *; [lia|].
  unfold across, cut_edge in *. destruct (side ed.1.1), (side ed.1.2); cbn; lia.
Qed.

Lemma crossing_is_cut l φ : Forall2 (fun ed f => across ed f = cut_edge ed) l φ -> crossing l φ = cut l.
Proof. unfold cut. induction 1 as [|ed f l φ He _ IH]; cbn; [done|]. rewrite He, IH. done. Qed.
End cut.

(** ** The loop *)

Section loop.
Context (n : nat) (l : list edge) (s t : nat).
Hypothesis (Hs : (s < n)%nat) (Ht : (t < n)%nat) (Hst : s <> t).

(** The flow the vectors hold: what has been sent over an edge is its twin's room. *)
Definition flow_of (net : FlowNetwork) : list Z := map (fun k => default 0 (room net !! S (2 * k))) (seq 0 (length l)).

Lemma represents_flow_of net φ : represents net n l φ -> flow_of net = φ.
Proof.
  intros Hr. pose proof (Forall2_length (rp_within _ _ _ _ Hr)) as Hlen. unfold flow_of.
  apply list_eq. intros k. change (map ?f ?x) with (f <$> x). rewrite list_lookup_fmap.
  destruct (decide (k < length l)%nat) as [Hk|Hk].
  - rewrite lookup_seq_lt by done. cbn [fmap option_fmap option_map].
    destruct (lookup_lt_is_Some_2 l k Hk) as [[[a b] c] Hl]. destruct (lookup_lt_is_Some_2 φ k ltac:(lia)) as [f Hf].
    pose proof (proj2 (residual_pair l φ k)) as Hres. rewrite Hl, Hf in Hres.
    apply (rp_reads _ _ _ _ Hr) in Hres as [_ Hres]. rewrite Hf. cbn. cbn in Hres. by rewrite Hres.
  - rewrite lookup_seq_ge by lia. symmetry. apply lookup_ge_None. lia.
Qed.

Record flowing (net : FlowNetwork) : Prop := {
  fw_represents : represents net n l (flow_of net);
  fw_kept : forall v, v <> s -> v <> t -> net_out l (flow_of net) v = 0 }.

Definition value (net : FlowNetwork) : Z := net_out l (flow_of net) s.

Lemma flowing_ends net : flowing net -> Forall (fun ed : edge => (ed.1.1 < n)%nat /\ (ed.1.2 < n)%nat) l.
Proof.
  intros [Hr _]. apply list.Forall_forall. intros ed [i Hi]%list_elem_of_lookup. apply (rp_ends _ _ _ _ Hr) in Hi. tauto.
Qed.

Definition reached_side (via : list (option nat)) (v : nat) : bool :=
  bool_decide (v = s) || match via !! v with Some (Some _) => true | _ => false end.
Lemma reached_side_spec via v : reached_side via v = true <-> reached s via v.
Proof.
  unfold reached_side, reached. rewrite orb_true_iff, bool_decide_eq_true.
  destruct (via !! v) as [[e|]|]; naive_solver.
Qed.

(** Where the sink is not reached the flow fills the cut around what is. *)
Lemma stopped_is_cut net via : flowing net -> via !! t = Some None -> closed_but l (flow_of net) s via [] ->
  value net = cut (reached_side via) l.
Proof.
  intros Hf Hn Hc. pose proof (fw_represents _ Hf) as Hr.
  unfold value. rewrite (value_crosses (reached_side via) n l s t).
  - apply crossing_is_cut. apply Forall2_same_length_lookup. pose proof (rp_within _ _ _ _ Hr) as Hw.
    split; [by eapply Forall2_length|]. intros k [[a b] c] f Hk Hfk.
    pose proof (Forall2_lookup_lr _ _ _ _ _ _ Hw Hk Hfk) as [? ?]. cbn in *.
    destruct (residual_pair l (flow_of net) k) as [R0 R1]. rewrite Hk, Hfk in R0, R1.
    unfold across, cut_edge. cbn [fst snd].
    destruct (reached_side via a) eqn:Ea, (reached_side via b) eqn:Eb; cbn; try lia.
    + enough (~ 0 < c - f) by lia. intros Hpos. apply not_true_iff_false in Eb. apply Eb. apply reached_side_spec.
      apply reached_side_spec in Ea. eapply Hc; [exact Ea|apply not_elem_of_nil|exact R0|done].
    + enough (~ 0 < f) by lia. intros Hpos. apply not_true_iff_false in Ea. apply Ea. apply reached_side_spec.
      apply reached_side_spec in Eb. eapply Hc; [exact Eb|apply not_elem_of_nil|exact R1|done].
  - by eapply flowing_ends.
  - done.
  - apply Hf.
  - unfold reached_side. by rewrite bool_decide_eq_true_2.
  - apply not_true_iff_false. rewrite reached_side_spec. intros [?|[e He]]; [congruence|]. by rewrite Hn in He.
Qed.

Lemma cut_bounds_flows side ψ net : flowing net -> side s = true -> side t = false -> is_flow l s t ψ ->
  net_out l ψ s <= cut side l.
Proof.
  intros Hf H1 H2 [Hw Hk]. rewrite (value_crosses side n l s t); [by apply crossing_le_cut|by eapply flowing_ends|done..].
Qed.

(** One turn: the flow is the largest, or it grows. *)
Lemma flow_turn_spec net total : flowing net ->
  (flow_turn s t (net, total) = Ok (inr total) /\ forall ψ, is_flow l s t ψ -> net_out l ψ s <= value net) \/
  (exists net' push, flow_turn s t (net, total) = Ok (inl (net', u32_saturating_add total push)) /\
     flowing net' /\ 0 < push /\ value net' = value net + push).
Proof.
  intros Hf. pose proof (fw_represents _ Hf) as Hr. unfold flow_turn. rewrite (rp_nodes _ _ _ _ Hr).
  destruct (bfs_start net n l (flow_of net) s t Hr Hs Ht Hst) as (via & E & Hse & Hcl). rewrite E. cbn [mbind outcome_bind].
  destruct (lookup_lt_is_Some_2 via t) as [o Ho]; [by rewrite (se_length _ _ _ _ _ Hse)|].
  rewrite (index_ok _ _ _ Ho). cbn [mbind outcome_bind]. destruct o as [e|].
  - right. destruct (se_paths _ _ _ _ _ Hse t ltac:(right; eauto)) as [p Hp].
    pose proof (via_path_length _ _ _ _ _ _ _ (se_length _ _ _ _ _ Hse) Hp) as Hlen.
    destruct (narrowest_spec net n l (flow_of net) s t Hr Hs Ht Hst n via t p u32_max Hp Hlen ltac:(done)) as (q & E1 & Hq & Hle).
    rewrite E1. cbn [mbind outcome_bind].
    destruct (augment_spec n l (flow_of net) s t Hs Ht Hst n via t p q net (flow_of net) Hp Hlen (via_path_nodup _ _ _ _ _ _ Hp) ltac:(lia) Hr)
      as (net' & φ' & E2 & Hr' & Hout).
    { intros e' u w r Hin He'. exists r. split; [done|by eapply Hle]. }
    rewrite E2. cbn [mbind outcome_bind].
    pose proof (represents_flow_of _ _ Hr') as Hφ. exists net', q. split_and!; [done| |lia|].
    + split; rewrite Hφ; [done|]. intros v Hv1 Hv2. rewrite Hout, (fw_kept _ Hf v Hv1 Hv2). rewrite !decide_False by congruence. lia.
    + unfold value. rewrite Hφ, Hout. rewrite decide_True by done. rewrite decide_False by congruence. lia.
  - left. split; [done|]. intros ψ Hψ. rewrite (stopped_is_cut net via Hf Ho (Hcl Ho)).
    eapply cut_bounds_flows; [done| | |done].
    + unfold reached_side. by rewrite bool_decide_eq_true_2.
    + apply not_true_iff_false. rewrite reached_side_spec. intros [?|[e He]]; [congruence|]. by rewrite Ho in He.
Qed.

Definition capacity_sum : Z := sum_list (map snd l).
Lemma net_out_le φ v : Forall2 within l φ -> net_out l φ v <= capacity_sum.
Proof.
  unfold capacity_sum. induction 1 as [|ed f l' φ' [? ?] _ IH]; cbn in *; [lia|].
  unfold edge_out. repeat case_decide; lia.
Qed.

Lemma max_flow_loop net : flowing net -> value net = 0 -> capacity_sum <= sum_list (room net) ->
  exists net', max_flow s t net = Ok (Z.min u32_max (value net'), net') /\ flowing net' /\
    forall ψ, is_flow l s t ψ -> net_out l ψ s <= value net'.
Proof.
  intros Hf H0 Hc. unfold max_flow.
  pose (I := fun st : FlowNetwork * Z => flowing st.1 /\ st.2 = Z.min u32_max (value st.1) /\ 0 <= value st.1).
  pose (mu := fun st : FlowNetwork * Z => capacity_sum - value st.1).
  assert (Hmu : forall st, I st -> 0 <= mu st).
  { intros st (Hst' & _ & _). unfold mu, value. pose proof (net_out_le _ s (rp_within _ _ _ _ (fw_represents _ Hst'))). lia. }
  destruct (iter_until_returns (flow_round s t) I mu) with (p := Z.to_pos (1 + sum_list (room net))) (s := (net, 0))
    as (r & [net' total] & E & (Hf' & Htot & _) & Er).
  - intros [net1 total1] st' (Hf1 & Ht1 & Hv1) Estep. unfold flow_round in Estep.
    destruct (flow_turn_spec net1 total1 Hf1) as [[E _]|(net2 & q & E & Hf2 & Hq & Hv2)]; rewrite E in Estep; [done|].
    simplify_eq. unfold I, mu. cbn in *. split_and!; [done| |lia|lia]. unfold u32_saturating_add, clamp. ints.
  - done.
  - unfold I. cbn. rewrite H0. split_and!; [done|done|lia].
  - unfold mu. cbn. rewrite H0. pose proof (Hmu (net, 0)). unfold mu in *. cbn in *. lia.
  - rewrite E. cbn in *. unfold flow_round in Er. exists net'.
    destruct (flow_turn_spec net' total Hf') as [[E' Hmax]|(net2 & q & E' & _)]; rewrite E' in Er; [|done].
    simplify_eq. by split_and!.
Qed.
End loop.

Lemma made_capacities net n l : made net n l -> sum_list (room net) = capacity_sum l.
Proof.
  unfold capacity_sum. induction 1 as [n|net n l Hm IH|net n l a b c net' Hm IH Hadd Hc]; [done|done|].
  unfold add_edge in Hadd. inv_bind Hadd. apply add_half_adjacent in E as (_ & _ & _ & R1 & _).
  apply add_half_adjacent in Hadd as (_ & _ & _ & R2 & _). rewrite R2, R1, !sum_list_app, IH, map_app, sum_list_app. cbn. lia.
Qed.

Lemma net_out_zero l k v : net_out l (replicate k 0) v = 0.
Proof. revert k. induction l as [|ed l IH]; intros [|k]; cbn; try done. rewrite IH. unfold edge_out. repeat case_decide; lia. Qed.

Lemma max_flow_solves net n l s t : made net n l -> (s < n)%nat -> (t < n)%nat -> s <> t ->
  exists φ net', max_flow s t net = Ok (Z.min u32_max (net_out l φ s), net') /\ is_flow l s t φ /\
    forall ψ, is_flow l s t ψ -> net_out l ψ s <= net_out l φ s.
Proof.
  intros Hm Hs Ht Hst. pose proof (made_represents _ _ _ Hm) as Hr. pose proof (represents_flow_of n l s t Hs Ht Hst _ _ Hr) as Hφ.
  destruct (max_flow_loop n l s t Hs Ht Hst net) as (net' & E & Hf & Hmax).
  - split; rewrite Hφ; [done|]. intros. apply net_out_zero.
  - unfold value. rewrite Hφ. apply net_out_zero.
  - rewrite (made_capacities _ _ _ Hm). lia.
  - exists (flow_of l net'), net'. split_and!; [done| |done]. split; apply Hf.
Qed.

(** C27: on any network the operations build, [max_flow] ends, panics nowhere, and
    returns the value of a flow that no other flow exceeds (u32::MAX where that value is
    larger). *)
Theorem max_flow_is_maximum net n l s t : made net n l -> (s < n)%nat -> (t < n)%nat -> s <> t ->
  exists φ net', max_flow s t net = Ok (Z.min u32_max (net_out l φ s), net') /\ is_flow l s t φ /\
    forall ψ, is_flow l s t ψ -> net_out l ψ s <= net_out l φ s.
Proof. apply max_flow_solves. Qed.

(** A network of four nodes whose shortest paths alone do not give the largest flow. *)
Definition diamond : outcome FlowNetwork :=
  net ← add_edge 0 2 1 (network_new 4); net ← add_edge 0 3 1 net; net ← add_edge 2 3 1 net;
  net ← add_edge 2 1 1 net; add_edge 3 1 1 net.
Definition diamond_edges : list edge := map (fun ab : nat * nat => (ab.1, ab.2, 1)) [(0, 2); (0, 3); (2, 3); (2, 1); (3, 1)]%nat.

Lemma max_flow_is_maximum_witness : exists net φ net', diamond = Ok net /\
  max_flow 0 1 net = Ok (Z.min u32_max (net_out diamond_edges φ 0), net') /\ is_flow diamond_edges 0 1 φ /\
  forall ψ, is_flow diamond_edges 0 1 ψ -> net_out diamond_edges ψ 0 <= net_out diamond_edges φ 0.
Proof.
  destruct diamond as [net| |] eqn:E; [|vm_compute in E; discriminate..]. exists net.
  destruct (max_flow_is_maximum net 4 diamond_edges 0 1) as (φ & net' & ? & ? & ?); [|lia..|].
  - unfold diamond in E. do 4 (inv_bind E). change diamond_edges with
      ((((([] ++ [(0%nat, 2%nat, 1)]) ++ [(0%nat, 3%nat, 1)]) ++ [(2%nat, 3%nat, 1)]) ++ [(2%nat, 1%nat, 1)]) ++ [(3%nat, 1%nat, 1)]).
    repeat (eapply made_edge; [| |ints]); eauto using made_new.
  - exists φ, net'. auto.
Defined.
