(* ===== verification/LayersCarried.v ===== *)
(** * How many layers a set of computers could carry ([layers_carried] of
    [src/inference/scheduler/mod.rs])

    The arithmetic behind the room figures users see: the layers several ranges cover
    ([layers_in]), the ranges joined ([merged_ranges]), and the most layers that can
    each be given to one computer holding it, none given more than it could take, as a
    maximum flow over [FlowNetwork].

    Layer numbers and rooms are u32 values; subtractions and sums that left u32 would
    panic.  The ranges already merged are kept last first. *)
From Stdlib Require Import Sorted.
From stdpp Require Import sorting.
From S2P Require Import Prelude Bytes ForwardTypes Floats RangeWeights KvSessions Candidate RouteCost RoutePass RouteSearch RouteTheorems FlowNetwork.
#[local] Open Scope Z_scope.

(** ** The code *)

Abbreviation layer_range := (Z * Z)%type.

(** The order of pairs, as [sort_unstable] compares them. *)
Definition range_le (x y : layer_range) : Prop := x.1 < y.1 \/ x.1 = y.1 /\ x.2 <= y.2.
#[global] Instance range_le_dec x y : Decision (range_le x y).
Proof. unfold range_le. apply _. Defined.
Definition sort_ranges (l : list layer_range) : list layer_range := merge_sort range_le l.

Fixpoint layers_in_loop (sorted : list layer_range) (count reached : Z) : outcome Z :=
  match sorted with
  | [] => Ok count
  | (from, to) :: rest =>
      let from := Z.max from reached in
      if from <? to then
        d ← u32_sub to from; count ← u32_add count d; layers_in_loop rest count to
      else layers_in_loop rest count reached
  end.
Definition layers_in (ranges : list layer_range) : outcome Z := layers_in_loop (sort_ranges ranges) 0 0.

Fixpoint merge_loop (ranges merged : list layer_range) : list layer_range :=
  match ranges with
  | [] => reverse merged
  | (a, b) :: rest =>
      match merged with
      | (a', b') :: before => if a <=? b' then merge_loop rest ((a', Z.max b' b) :: before)
                              else merge_loop rest ((a, b) :: merged)
      | [] => merge_loop rest [(a, b)]
      end
  end.
Definition merged_ranges (ranges : list layer_range) : list layer_range :=
  merge_loop (sort_ranges (filter (fun r : layer_range => r.1 < r.2) ranges)) [].

(** What a computer holds, and how many layers it could take. *)
Abbreviation holding := (list layer_range * Z)%type.

Definition carrying_holders (holdings : list holding) : list holding :=
  filter (fun h : holding => 0 < h.2 /\ h.1 <> []) (map (fun h : holding => (merged_ranges h.1, h.2)) holdings).

Definition holder_ends (holders : list holding) : list Z :=
  sort_dedup (flat_map (fun h : holding => flat_map (fun r : layer_range => [r.1; r.2]) h.1) holders).

(** [ranges.iter().map(|(a, b)| b - a).sum()]. *)
Fixpoint held_sum (ranges : list layer_range) (sum : Z) : outcome Z :=
  match ranges with
  | [] => Ok sum
  | (a, b) :: rest => d ← u32_sub b a; sum ← u32_add sum d; held_sum rest sum
  end.

Fixpoint add_holders (h : nat) (holders : list holding) (net : FlowNetwork) : outcome FlowNetwork :=
  match holders with
  | [] => Ok net
  | (ranges, could_take) :: rest =>
      held ← held_sum ranges 0;
      net ← add_edge (2 + h) 1 (Z.min held could_take) net;
      add_holders (S h) rest net
  end.

(** The holders of the whole stretch between two neighbouring ends. *)
Definition holding_stretch (holders : list holding) (a b : Z) : list nat :=
  map fst (filter (fun x : nat * holding => existsb (fun r : layer_range => (r.1 <=? a) && (b <=? r.2)) x.2.1 = true)
    (indexed holders)).

Fixpoint add_stretch_edges (stretch : nat) (len : Z) (hs : list nat) (net : FlowNetwork) : outcome FlowNetwork :=
  match hs with
  | [] => Ok net
  | h :: hs => net ← add_edge stretch (2 + h) len net; add_stretch_edges stretch len hs net
  end.

Definition add_stretch (a b : Z) (hs : list nat) (net : FlowNetwork) : outcome FlowNetwork :=
  match hs with
  | [] => Ok net
  | _ =>
      let '(stretch, net) := add_node net in
      d ← u32_sub b a;
      net ← add_edge 0 stretch d net;
      add_stretch_edges stretch d hs net
  end.

(** [for pair in ends.windows(2)]. *)
Fixpoint add_stretches (holders : list holding) (ends : list Z) (net : FlowNetwork) : outcome FlowNetwork :=
  match ends with
  | a :: ((b :: _) as rest) =>
      net ← add_stretch a b (holding_stretch holders a b) net;
      add_stretches holders rest net
  | _ => Ok net
  end.

Definition layers_carried (holdings : list holding) : outcome Z :=
  let holders := carrying_holders holdings in
  net ← add_holders 0 holders (network_new (2 + length holders));
  net ← add_stretches holders (holder_ends holders) net;
  r ← max_flow 0 1 net;
  Ok r.1.

(** ** What it computes *)

Definition held (ranges : list layer_range) (x : Z) : Prop := Exists (fun r : layer_range => r.1 <= x < r.2) ranges.

(** Layers handed out, a set for each computer: only layers it holds, no more than it
    could take, and no layer twice. *)
Definition given (h : holding) (g : gset Z) : Prop := (forall x, x ∈ g -> held h.1 x) /\ Z.of_nat (size g) <= h.2.
Definition handed_out (holdings : list holding) (gs : list (gset Z)) : Prop :=
  Forall2 given holdings gs /\ ForallOrdPairs (##) gs.
Definition layers_given (gs : list (gset Z)) : Z := sum_list (map (fun g => Z.of_nat (size g)) gs).

Definition u32_range (r : layer_range) : Prop := is_u32 r.1 /\ is_u32 r.2.
Definition u32_holding (h : holding) : Prop := Forall u32_range h.1 /\ is_u32 h.2.

(** The cases of the test [a_layer_held_by_several_computers_is_carried_once]. *)
Example same_ten : layers_carried (replicate 3 ([(0, 10)], 10) ++ [([(10, 28)], 10)]) = Ok 20.
Proof. vm_compute. reflexivity. Qed.
Example seventy_b : layers_carried
  [([(0, 13); (43, 44); (73, 80)], 23); ([(0, 17)], 22); ([(13, 73)], 35); ([(17, 43); (44, 80)], 7)] = Ok 67.
Proof. vm_compute. reflexivity. Qed.
Example room_where_nobody_else_serves : layers_carried [([(0, 20)], 10); ([(10, 20)], 10)] = Ok 20.
Proof. vm_compute. reflexivity. Qed.

(** ** Sets of consecutive layers *)

Definition interval (a n : Z) : gset Z := list_to_set (seqZ a n).

Lemma interval_elem a n x : x ∈ interval a n <-> a <= x < a + n.
Proof. unfold interval. rewrite elem_of_list_to_set, elem_of_seqZ. lia. Qed.
Lemma interval_size a n : 0 <= n -> Z.of_nat (size (interval a n)) = n.
Proof. intros Hn. unfold interval. rewrite size_list_to_set by apply NoDup_seqZ. rewrite length_seqZ. lia. Qed.

Lemma size_disjoint (X Y : gset Z) : X ## Y -> Z.of_nat (size (X ∪ Y)) = Z.of_nat (size X) + Z.of_nat (size Y).
Proof. intros. rewrite size_union by done. lia. Qed.

(** A set is what it has below a bound and the rest. *)
Lemma size_split (P : Z -> Prop) `{!forall x, Decision (P x)} (X : gset Z) :
  Z.of_nat (size X) = Z.of_nat (size (filter P X)) + Z.of_nat (size (filter (fun x => ~ P x) X)).
Proof. rewrite <- size_disjoint; [|set_solver]. do 2 f_equal. apply set_eq. intros x. destruct (decide (P x)); set_solver. Qed.

Lemma held_cons r rs x : held (r :: rs) x <-> r.1 <= x < r.2 \/ held rs x.
Proof. unfold held. by rewrite Exists_cons. Qed.
Lemma held_nil x : ~ held [] x.
Proof. unfold held. intros H. inversion H. Qed.
Lemma held_permutation rs rs' x : rs ≡ₚ rs' -> held rs x <-> held rs' x.
Proof. intros H. unfold held. rewrite !list.Exists_exists. by setoid_rewrite H. Qed.

(** ** Sorting *)

#[local] Instance range_le_trans : Transitive range_le.
Proof. intros [] [] []. unfold range_le. cbn. lia. Qed.
#[local] Instance range_le_total : Total range_le.
Proof. intros [] []. unfold range_le. cbn. lia. Qed.

Definition by_start (rs : list layer_range) : Prop := StronglySorted (fun x y => x.1 <= y.1) rs.

Lemma sort_ranges_sorted rs : by_start (sort_ranges rs).
Proof.
  eapply sorted_impl, (StronglySorted_merge_sort range_le). unfold range_le. intros [] [] _ _. cbn. lia.
Qed.
Lemma sort_ranges_perm rs : sort_ranges rs ≡ₚ rs.
Proof. apply merge_sort_Permutation. Qed.

(** ** [layers_in] counts every layer once *)

Lemma layers_in_loop_counts rs count reached : by_start rs -> Forall u32_range rs -> 0 <= count <= reached ->
  reached <= u32_max ->
  exists L : gset Z, (forall x, x ∈ L <-> reached <= x /\ held rs x) /\
    layers_in_loop rs count reached = Ok (count + Z.of_nat (size L)).
Proof.
  intros Hs Hu. revert count reached. induction Hs as [|[from to] rs Hs IH Hle]; intros count reached Hc Hr.
  { exists ∅. split; [|cbn; rewrite size_empty; f_equal; lia]. intros x. pose proof (held_nil x). set_solver. }
  apply Forall_cons_1 in Hu as [[Hf Ht] Hu]. cbn in Hf, Ht. cbn [layers_in_loop].
  assert (Hstart : forall x, held rs x -> from <= x).
  { intros x ([a b] & Hin & Hx)%list.Exists_exists. rewrite list.Forall_forall in Hle. specialize (Hle _ Hin). cbn in *. lia. }
  destruct (Z.ltb_spec (Z.max from reached) to) as [Hlt|Hge].
  - rewrite u32_sub_ok by lia. cbn [mbind outcome_bind]. unfold is_u32 in *. rewrite u32_add_ok by lia. cbn [mbind outcome_bind].
    destruct (IH Hu (count + (to - Z.max from reached)) to) as (L & HL & E); [lia..|].
    exists (interval (Z.max from reached) (to - Z.max from reached) ∪ L). split.
    + intros x. rewrite elem_of_union, interval_elem, HL, held_cons. cbn. specialize (Hstart x).
      split; [intros [?|[? ?]]; split; auto; lia|]. intros [Hx [Hx'|Hx']]; [lia|].
      specialize (Hstart Hx'). destruct (Z.lt_ge_cases x to); [left; lia|right; done].
    + rewrite E. rewrite size_disjoint. { rewrite interval_size by lia. f_equal. lia. }
      intros x. rewrite interval_elem, HL. lia.
  - destruct (IH Hu count reached Hc Hr) as (L & HL & E). exists L. split; [|done].
    intros x. rewrite HL, held_cons. cbn. split; [tauto|]. intros [Hx [?|?]]; [lia|done].
Qed.

Lemma layers_in_spec ranges : Forall u32_range ranges ->
  exists L : gset Z, (forall x, x ∈ L <-> held ranges x) /\ layers_in ranges = Ok (Z.of_nat (size L)).
Proof.
  intros Hu. unfold layers_in.
  assert (Hu' : Forall u32_range (sort_ranges ranges)) by by rewrite sort_ranges_perm.
  destruct (layers_in_loop_counts (sort_ranges ranges) 0 0) as (L & HL & E); [apply sort_ranges_sorted|done|ints|ints|].
  exists L. split; [|done]. intros x. rewrite HL, (held_permutation _ _ _ (sort_ranges_perm ranges)).
  split; [tauto|]. intros Hx. split; [|done]. apply list.Exists_exists in Hx as (r & Hin & Hx).
  rewrite list.Forall_forall in Hu. destruct (Hu r Hin) as [? _]. ints.
Qed.

(** ** [merged_ranges] keeps the layers, in ranges that do not touch *)

Definition ladder (rs : list layer_range) : Prop :=
  Forall (fun r : layer_range => r.1 < r.2) rs /\ StronglySorted (fun x y => x.2 < y.1) rs.

Lemma held_app rs rs' x : held (rs ++ rs') x <-> held rs x \/ held rs' x.
Proof. unfold held. apply Exists_app. Qed.
Lemma held_reverse rs x : held (reverse rs) x <-> held rs x.
Proof. apply held_permutation, reverse_Permutation. Qed.

Lemma sorted_reverse {A} (R : A -> A -> Prop) (xs : list A) :
  StronglySorted (fun x y => R y x) xs -> StronglySorted R (reverse xs).
Proof.
  induction 1 as [|x xs Hs IH Hx]; [constructor|]. rewrite reverse_cons. apply StronglySorted_app_2; [|done|repeat constructor].
  intros y z Hy Hz. apply list_elem_of_singleton in Hz as ->. rewrite elem_of_reverse in Hy.
  rewrite list.Forall_forall in Hx. auto.
Qed.

Lemma merge_loop_spec rs merged : by_start rs -> Forall (fun r : layer_range => r.1 < r.2) rs ->
  Forall (fun r : layer_range => r.1 < r.2) merged -> StronglySorted (fun x y => y.2 < x.1) merged ->
  (forall r m, r ∈ rs -> head merged = Some m -> m.1 <= r.1) ->
  Forall u32_range rs -> Forall u32_range merged ->
  ladder (merge_loop rs merged) /\ Forall u32_range (merge_loop rs merged) /\
  forall x, held (merge_loop rs merged) x <-> held merged x \/ held rs x.
Proof.
  intros Hs. revert merged. induction Hs as [|[a b] rs Hs IH Hle]; intros merged Hrs Hm Hd Hh Hu Hum; cbn [merge_loop].
  { split_and!; [split|..].
    - by rewrite reverse_Permutation.
    - by apply sorted_reverse.
    - by rewrite reverse_Permutation.
    - intros x. rewrite held_reverse. pose proof (held_nil x). tauto. }
  apply Forall_cons_1 in Hrs as [Hab Hrs]. apply Forall_cons_1 in Hu as [[Ha Hb] Hu]. cbn in Hab, Ha, Hb.
  assert (Hle' : forall r, r ∈ rs -> a <= r.1) by (intros r Hr; rewrite list.Forall_forall in Hle; apply (Hle _ Hr)).
  destruct merged as [|[a' b'] before].
  - destruct (IH [(a, b)]) as (Hl & Hu' & Hx); try done.
    + by apply Forall_singleton.
    + repeat constructor.
    + intros r m Hr [= <-]. by apply Hle'.
    + apply Forall_singleton. by split.
    + split_and!; try done. intros x. rewrite Hx, !held_cons. pose proof (held_nil x). tauto.
  - pose proof Hm as Hm0. apply Forall_cons_1 in Hm as [Hab' Hm]. cbn in Hab'.
    pose proof Hum as [[Ha' Hb'] Hum']%Forall_cons_1. cbn in Ha', Hb'.
    pose proof (Hh (a, b) (a', b') ltac:(left) eq_refl) as Haa. cbn in Haa.
    destruct (Z.leb_spec a b') as [Hj|Hj].
    + apply StronglySorted_inv in Hd as [Hd Hdx].
      destruct (IH ((a', Z.max b' b) :: before)) as (Hl & Hu' & Hx); try done.
      * constructor; [cbn; lia|done].
      * constructor; [done|]. done.
      * intros r m Hr [= <-]. cbn. specialize (Hle' r Hr). lia.
      * constructor; [|done]. split; cbn; [done|]. unfold is_u32 in *. lia.
      * split_and!; try done. intros x. rewrite Hx, !held_cons. cbn. pose proof (held_nil x).
        assert (a' <= x < Z.max b' b <-> a' <= x < b' \/ a <= x < b) by lia. tauto.
    + destruct (IH ((a, b) :: (a', b') :: before)) as (Hl & Hu' & Hx); try done.
      * by constructor.
      * constructor; [done|]. constructor; [done|]. apply StronglySorted_inv in Hd as [_ Hdx].
        eapply list.Forall_impl; [exact Hdx|]. cbn. intros. lia.
      * intros r m Hr [= <-]. by apply Hle'.
      * constructor; [by split|done].
      * split_and!; try done. intros x. rewrite Hx, (held_cons (a, b)), (held_cons (a, b) rs). tauto.
Qed.

Lemma merged_ranges_spec ranges : Forall u32_range ranges ->
  ladder (merged_ranges ranges) /\ Forall u32_range (merged_ranges ranges) /\
  forall x, held (merged_ranges ranges) x <-> held ranges x.
Proof.
  intros Hu. unfold merged_ranges. set (rs := filter _ ranges).
  assert (Hrs : Forall (fun r : layer_range => r.1 < r.2) rs).
  { apply list.Forall_forall. intros r. unfold rs. rewrite list_elem_of_filter. tauto. }
  assert (Hur : Forall u32_range rs).
  { apply list.Forall_forall. intros r. unfold rs. rewrite list_elem_of_filter. rewrite list.Forall_forall in Hu. intros [_ ?]; auto. }
  destruct (merge_loop_spec (sort_ranges rs) []) as (Hl & Hu' & Hx); try done.
  - apply sort_ranges_sorted.
  - by rewrite sort_ranges_perm.
  - constructor.
  - by rewrite sort_ranges_perm.
  - split_and!; try done. intros x. rewrite Hx, (held_permutation _ _ _ (sort_ranges_perm rs)). pose proof (held_nil x).
    unfold held, rs. rewrite !list.Exists_exists. setoid_rewrite list_elem_of_filter. split.
    + intros [(? & ?%elem_of_nil & _)|(r & [_ ?] & ?)]; [done|eauto].
    + intros (r & ? & ?). right. exists r. split_and!; try done; lia.
Qed.

(** ** What a computer holds bounds what it is given *)

Definition range_sum (rs : list layer_range) : Z := sum_list (map (fun r : layer_range => r.2 - r.1) rs).

Lemma held_sum_ladder rs sum lo : ladder rs -> Forall u32_range rs -> 0 <= sum <= lo ->
  (forall r, r ∈ rs -> lo <= r.1) -> held_sum rs sum = Ok (sum + range_sum rs) /\ 0 <= range_sum rs /\
  (rs = [] \/ sum + range_sum rs <= u32_max).
Proof.
  intros [Hab Hs] Hu. revert sum lo. induction Hs as [|[a b] rs Hs IH Hlt]; intros sum lo Hsum Hlo.
  { unfold range_sum. cbn. split_and!; [f_equal; lia|lia|by left]. }
  apply Forall_cons_1 in Hab as [Hab Hab']. apply Forall_cons_1 in Hu as [[Ha Hb] Hu]. cbn in Hab, Ha, Hb.
  pose proof (Hlo (a, b) ltac:(left)) as Hlo1. cbn in Hlo1.
  destruct (IH Hab' Hu (sum + (b - a)) b) as (E & H0 & Hmax); [lia| |].
  { intros r Hr. rewrite list.Forall_forall in Hlt. specialize (Hlt r Hr). cbn in Hlt. lia. }
  unfold range_sum in *. cbn [held_sum map sum_list fst snd]. rewrite u32_sub_ok by lia. cbn [mbind outcome_bind].
  unfold is_u32 in *. rewrite u32_add_ok by lia. cbn [mbind outcome_bind]. rewrite E. split_and!; [f_equal; lia|lia|right].
  destruct Hmax as [->|?]; cbn; lia.
Qed.

Lemma held_sum_merged ranges : Forall u32_range ranges ->
  held_sum (merged_ranges ranges) 0 = Ok (range_sum (merged_ranges ranges)) /\ is_u32 (range_sum (merged_ranges ranges)).
Proof.
  intros Hu. destruct (merged_ranges_spec ranges Hu) as (Hl & Hu' & _).
  destruct (held_sum_ladder (merged_ranges ranges) 0 0 Hl Hu') as (E & H0 & Hm); [lia| |].
  { intros r Hr. rewrite list.Forall_forall in Hu'. destruct (Hu' r Hr) as [? _]. ints. }
  split; [done|]. destruct Hm as [Hm|Hm]; [|ints]. rewrite Hm. unfold range_sum. cbn. ints.
Qed.

Lemma held_size rs (g : gset Z) : Forall (fun r : layer_range => r.1 < r.2) rs -> (forall x, x ∈ g -> held rs x) ->
  Z.of_nat (size g) <= range_sum rs.
Proof.
  intros Hab. revert g. induction Hab as [|[a b] rs Hr Hab IH]; intros g Hg; unfold range_sum in *; cbn in *.
  - assert (g = ∅) as ->; [|rewrite size_empty; lia]. apply set_eq. intros x. split; [|set_solver].
    intros Hx%Hg. by apply held_nil in Hx.
  - rewrite (size_split (fun x => a <= x < b) g).
    assert (H1 : Z.of_nat (size (filter (fun x => a <= x < b) g)) <= b - a).
    { rewrite <- (interval_size a (b - a)) by lia. apply inj_le, subseteq_size. intros x. rewrite elem_of_filter, interval_elem. lia. }
    assert (H2 : Z.of_nat (size (filter (fun x => ~ (a <= x < b)) g)) <= sum_list (map (fun r : layer_range => r.2 - r.1) rs)).
    { apply IH. intros x. rewrite elem_of_filter. intros [Hn Hx]. apply Hg, held_cons in Hx. cbn in Hx. tauto. }
    lia.
Qed.

(** ** The stretches between neighbouring ends *)

Fixpoint windows (es : list Z) : list layer_range :=
  match es with a :: ((b :: _) as rest) => (a, b) :: windows rest | _ => [] end.

Lemma windows_spec es a b : StronglySorted Z.lt es -> (a, b) ∈ windows es ->
  a ∈ es /\ b ∈ es /\ a < b /\ forall e, e ∈ es -> e <= a \/ b <= e.
Proof.
  induction es as [|y [|z es] IH]; [by intros _ ?%elem_of_nil..|]. intros [Hs Hy]%StronglySorted_inv.
  rewrite list.Forall_forall in Hy. change (windows (y :: z :: es)) with ((y, z) :: windows (z :: es)).
  pose proof Hs as [_ Hz]%StronglySorted_inv. rewrite list.Forall_forall in Hz.
  intros [[= -> ->]|(Ha & Hb & Hlt & He)%IH]%elem_of_cons; [| |done].
  - pose proof (Hy z ltac:(left)). split_and!; [left|right; left|done|].
    intros e [->|[->|Hin]%elem_of_cons]%elem_of_cons; [lia|lia|]. specialize (Hz e Hin). lia.
  - split_and!; [by right|by right|done|]. intros e [->|Hin]%elem_of_cons; [|by apply He].
    pose proof (Hy a Ha). lia.
Qed.

Lemma windows_cover es s e x : StronglySorted Z.lt es -> s ∈ es -> e ∈ es -> s <= x < e ->
  exists a b, (a, b) ∈ windows es /\ a <= x < b.
Proof.
  revert s. induction es as [|y [|z es] IH]; intros s Hs Hin1 Hin2 Hx.
  - by apply elem_of_nil in Hin1.
  - apply list_elem_of_singleton in Hin1, Hin2. lia.
  - change (windows (y :: z :: es)) with ((y, z) :: windows (z :: es)).
    apply StronglySorted_inv in Hs as [Hs Hy]. rewrite list.Forall_forall in Hy.
    assert (He : e ∈ z :: es \/ e = y) by (apply elem_of_cons in Hin2; tauto).
    assert (Hys : y <= s) by (apply elem_of_cons in Hin1 as [->|Hin1]; [lia|]; specialize (Hy s Hin1); lia).
    destruct He as [He| ->]; [|lia].
    destruct (Z.lt_ge_cases x z) as [Hlt|Hge].
    + exists y, z. split; [left|lia].
    + destruct (IH z Hs ltac:(left) He ltac:(lia)) as (a & b & Hab & Hx'). exists a, b. split; [by right|done].
Qed.

Lemma indexed_from_elem {A} (l : list A) k i a : (i, a) ∈ zip (seq k (length l)) l <-> (k <= i)%nat /\ l !! (i - k)%nat = Some a.
Proof.
  revert k. induction l as [|x l IH]; intros k; cbn [length seq zip zip_with].
  - rewrite lookup_nil. split; [by intros ?%elem_of_nil|by intros [_ ?]].
  - rewrite elem_of_cons, IH. split.
    + intros [[= -> ->]|[? ?]]; [by rewrite Nat.sub_diag|]. split; [lia|]. by replace (i - k)%nat with (S (i - S k)) by lia.
    + intros [Hk Hl]. destruct (decide (i = k)) as [->|Hne]; [rewrite Nat.sub_diag in Hl; left; by injection Hl as ->|].
      right. split; [lia|]. by replace (i - k)%nat with (S (i - S k)) in Hl by lia.
Qed.
Lemma indexed_elem {A} (l : list A) i a : (i, a) ∈ indexed l <-> l !! i = Some a.
Proof. unfold indexed. rewrite indexed_from_elem, Nat.sub_0_r. split; [tauto|]. intros ?. split; [lia|done]. Qed.
Lemma indexed_fst {A} (l : list A) : map fst (indexed l) = seq 0 (length l).
Proof. unfold indexed. apply fst_zip. by rewrite length_seq. Qed.

Lemma holding_stretch_elem H a b h : h ∈ holding_stretch H a b <->
  exists hd, H !! h = Some hd /\ Exists (fun r : layer_range => r.1 <= a /\ b <= r.2) hd.1.
Proof.
  unfold holding_stretch. rewrite list_elem_of_fmap. split.
  - intros ([i hd] & -> & [Hex Hin]%list_elem_of_filter). exists hd. apply indexed_elem in Hin. split; [done|].
    cbn in Hex. apply existsb_exists in Hex as (r & Hr & Hb). apply list.Exists_exists. exists r. rewrite list_elem_of_In.
    split; [done|]. lia.
  - intros (hd & Hl & (r & Hr & Hb)%list.Exists_exists). exists (h, hd). split; [done|]. apply list_elem_of_filter.
    split; [|by apply indexed_elem]. cbn. apply existsb_exists. exists r. rewrite <- list_elem_of_In. split; [done|]. lia.
Qed.

Lemma holding_stretch_nodup H a b : NoDup (holding_stretch H a b).
Proof. apply nodup_fst_filter. rewrite indexed_fst. apply NoDup_seq. Qed.

(** The stretches somebody holds, with their holders. *)
Abbreviation block := (Z * Z * list nat)%type.
Definition kept_of (H : list holding) (w : layer_range) : list block :=
  match holding_stretch H w.1 w.2 with [] => [] | hs => [(w.1, w.2, hs)] end.
Definition kept (H : list holding) (es : list Z) : list block := flat_map (kept_of H) (windows es).

Lemma kept_elem H es a b hs : (a, b, hs) ∈ kept H es <->
  (a, b) ∈ windows es /\ hs = holding_stretch H a b /\ hs <> [].
Proof.
  unfold kept. rewrite list_elem_of_In, in_flat_map. unfold kept_of. split.
  - intros ([a' b'] & Hin & Hb). cbn in Hb. destruct (holding_stretch H a' b') eqn:E; [done|].
    destruct Hb as [[= -> -> <-]|[]]. rewrite list_elem_of_In. by rewrite E.
  - intros (Hin & -> & Hne). exists (a, b). rewrite <- list_elem_of_In. split; [done|]. cbn.
    destruct (holding_stretch H a b); [done|by left].
Qed.

Definition inside (bl : block) (x : Z) : Prop := bl.1.1 <= x < bl.1.2.
#[local] Instance inside_dec bl x : Decision (inside bl x).
Proof. unfold inside. apply _. Defined.

(** A stretch ends where the next begins or before it. *)
Definition in_order (bs : list block) : Prop := StronglySorted (fun x y : block => x.1.2 <= y.1.1) bs.

Lemma kept_in_order H es : StronglySorted Z.lt es -> in_order (kept H es).
Proof.
  induction es as [|y [|z es] IH]; [constructor..|]. intros [Hs Hy]%StronglySorted_inv.
  unfold kept. change (windows (y :: z :: es)) with ((y, z) :: windows (z :: es)). cbn [flat_map].
  fold (kept H (z :: es)). unfold kept_of. cbn [fst snd]. destruct (holding_stretch H y z); [by apply IH|].
  constructor; [by apply IH|]. apply list.Forall_forall. intros [[a b] hs] (Hin & _)%kept_elem. cbn.
  destruct (windows_spec _ _ _ Hs Hin) as (Ha & _). apply elem_of_cons in Ha as [->|Ha]; [lia|].
  apply StronglySorted_inv in Hs as [_ Hz]. rewrite list.Forall_forall in Hz. specialize (Hz a Ha). lia.
Qed.

(** ** The network of a set of holders *)

Fixpoint holder_edges (k : nat) (H : list holding) : list edge :=
  match H with
  | [] => []
  | hd :: H => ((2 + k)%nat, 1%nat, Z.min (range_sum hd.1) hd.2) :: holder_edges (S k) H
  end.
Definition block_edges1 (node : nat) (bl : block) : list edge :=
  (0%nat, node, bl.1.2 - bl.1.1) :: map (fun h => (node, (2 + h)%nat, bl.1.2 - bl.1.1)) bl.2.
Fixpoint block_edges (node : nat) (bs : list block) : list edge :=
  match bs with [] => [] | bl :: bs => block_edges1 node bl ++ block_edges (S node) bs end.

Record sound_holder (hd : holding) : Prop := {
  sh_ranges : Forall (fun r : layer_range => r.1 < r.2 /\ u32_range r) hd.1;
  sh_take : 0 < hd.2 <= u32_max;
  sh_sum : held_sum hd.1 0 = Ok (range_sum hd.1);
  sh_u32 : is_u32 (range_sum hd.1) }.

Lemma made_nodes net n l : made net n l -> length (adjacent net) = n.
Proof. intros H. apply (rp_nodes _ _ _ _ (made_represents _ _ _ H)). Qed.

Lemma made_add_edge net n l a b c : made net n l -> (a < n)%nat -> (b < n)%nat -> is_u32 c ->
  exists net', add_edge a b c net = Ok net' /\ made net' n (l ++ [(a, b, c)]).
Proof.
  intros Hm Ha Hb Hc. destruct (add_edge_returns net n a b c (made_nodes _ _ _ Hm) Ha Hb) as [net' E].
  exists net'. split; [done|]. by eapply made_edge.
Qed.

Lemma add_holders_made k H net n l : made net n l -> Forall sound_holder H -> (2 + k + length H <= n)%nat ->
  exists net', add_holders k H net = Ok net' /\ made net' n (l ++ holder_edges k H).
Proof.
  intros Hm HH. revert k net l Hm. induction HH as [|[rs take] H Hh HH IH]; intros k net l Hm Hn; cbn [add_holders holder_edges].
  - exists net. by rewrite app_nil_r.
  - cbn [length] in Hn. destruct Hh as [Hr Ht Hsum Hu]. cbn [fst snd] in *. rewrite Hsum. cbn [mbind outcome_bind].
    destruct (made_add_edge net n l (2 + k) 1 (Z.min (range_sum rs) take) Hm) as (net1 & E & Hm1); [lia..|ints|].
    rewrite E. cbn [mbind outcome_bind]. destruct (IH (S k) net1 _ Hm1) as (net2 & E2 & Hm2); [lia|].
    exists net2. split; [done|]. by rewrite <- app_assoc in Hm2.
Qed.

Lemma add_stretch_edges_made node len hs net n l : made net n l -> is_u32 len -> (node < n)%nat ->
  Forall (fun h => (2 + h < n)%nat) hs ->
  exists net', add_stretch_edges node len hs net = Ok net' /\ made net' n (l ++ map (fun h => (node, (2 + h)%nat, len)) hs).
Proof.
  intros Hm Hlen Hn Hhs. revert net l Hm. induction Hhs as [|h hs Hh Hhs IH]; intros net l Hm; cbn [add_stretch_edges map].
  - exists net. by rewrite app_nil_r.
  - destruct (made_add_edge net n l node (2 + h) len Hm) as (net1 & E & Hm1); [done..|]. rewrite E. cbn [mbind outcome_bind].
    destruct (IH net1 _ Hm1) as (net2 & E2 & Hm2). exists net2. split; [done|]. by rewrite <- app_assoc in Hm2.
Qed.

Lemma add_stretches_made H es net n l : made net n l -> (2 + length H <= n)%nat ->
  StronglySorted Z.lt es -> Forall is_u32 es ->
  exists net', add_stretches H es net = Ok net' /\
    made net' (n + length (kept H es)) (l ++ block_edges n (kept H es)).
Proof.
  intros Hm Hn Hs Hu. revert net n l Hm Hn. induction es as [|a [|b es] IH]; intros net n l Hm Hn.
  - exists net. cbn. by rewrite app_nil_r, Nat.add_0_r.
  - exists net. cbn. by rewrite app_nil_r, Nat.add_0_r.
  - apply StronglySorted_inv in Hs as [Hs Ha]. apply Forall_cons_1 in Hu as [Hua Hu].
    pose proof Hu as [Hub _]%Forall_cons_1. apply Forall_cons_1 in Ha as [Hab _].
    change (kept H (a :: b :: es)) with (kept_of H (a, b) ++ kept H (b :: es)). unfold kept_of. cbn [fst snd].
    change (add_stretches H (a :: b :: es) net) with
      (add_stretch a b (holding_stretch H a b) net ≫= fun net => add_stretches H (b :: es) net).
    destruct (holding_stretch H a b) as [|h hs] eqn:Ehs; cbn [app add_stretch].
    + cbn [mbind outcome_bind]. by apply IH.
    + assert (Hin : Forall (fun h => (2 + h < S n)%nat) (h :: hs)).
      { apply list.Forall_forall. intros h' Hh'. rewrite <- Ehs in Hh'. apply holding_stretch_elem in Hh' as (hd & Hhd & _).
        apply lookup_lt_Some in Hhd. lia. }
      assert (Hlen : is_u32 (b - a)) by (unfold is_u32 in *; lia).
      unfold add_node. rewrite u32_sub_ok by lia. cbn [mbind outcome_bind].
      destruct (made_add_edge _ (S n) l 0 n (b - a) (made_node _ _ _ Hm)) as (net1 & E & Hm1); [lia..|done|].
      rewrite (made_nodes _ _ _ Hm). cbn in E. rewrite E. cbn [mbind outcome_bind].
      destruct (add_stretch_edges_made n (b - a) (h :: hs) net1 (S n) _ Hm1) as (net2 & E2 & Hm2); [done|lia|done|].
      rewrite E2. cbn [mbind outcome_bind].
      destruct (IH Hs Hu net2 (S n) _ Hm2) as (net3 & E3 & Hm3); [lia|]. exists net3. split; [done|].
      cbn [length block_edges]. rewrite <- !app_assoc in Hm3. by replace (n + S (length (kept H (b :: es))))%nat
        with (S n + length (kept H (b :: es)))%nat by lia.
Qed.

Definition flow_edges (H : list holding) (bs : list block) : list edge :=
  holder_edges 0 H ++ block_edges (2 + length H) bs.

Lemma holder_ends_u32 H : Forall sound_holder H -> Forall is_u32 (holder_ends H).
Proof.
  intros HH. apply list.Forall_forall. intros e He. unfold holder_ends, sort_dedup in He.
  rewrite dedup_elem, merge_sort_Permutation in He. apply list_elem_of_In, in_flat_map in He as (hd & Hin & He).
  apply in_flat_map in He as (r & Hr & He). rewrite list.Forall_forall in HH.
  pose proof (sh_ranges _ (HH hd ltac:(by apply list_elem_of_In))) as Hrs. rewrite list.Forall_forall in Hrs.
  destruct (Hrs r ltac:(by apply list_elem_of_In)) as [_ [? ?]]. destruct He as [<-|[<-|[]]]; done.
Qed.

Lemma holder_ends_elem H hd r : hd ∈ H -> r ∈ hd.1 -> r.1 ∈ holder_ends H /\ r.2 ∈ holder_ends H.
Proof.
  intros Hh Hr. unfold holder_ends, sort_dedup. rewrite !dedup_elem, !merge_sort_Permutation, !list_elem_of_In, !in_flat_map.
  split; exists hd; (split; [by apply list_elem_of_In|]); apply in_flat_map; exists r;
    (split; [by apply list_elem_of_In|]); cbn; auto.
Qed.

(** The figure the network gives: the largest flow from the layers to the holders. *)
Lemma network_solved H : Forall sound_holder H -> exists φ net',
  (net ← add_holders 0 H (network_new (2 + length H)); net ← add_stretches H (holder_ends H) net; max_flow 0 1 net)
    = Ok (Z.min u32_max (net_out (flow_edges H (kept H (holder_ends H))) φ 0), net') /\
  is_flow (flow_edges H (kept H (holder_ends H))) 0 1 φ /\
  forall ψ, is_flow (flow_edges H (kept H (holder_ends H))) 0 1 ψ ->
    net_out (flow_edges H (kept H (holder_ends H))) ψ 0 <= net_out (flow_edges H (kept H (holder_ends H))) φ 0.
Proof.
  intros HH. destruct (add_holders_made 0 H _ _ _ (made_new (2 + length H)) HH) as (net1 & E1 & Hm1); [lia|].
  rewrite E1. cbn [mbind outcome_bind].
  destruct (add_stretches_made H (holder_ends H) net1 _ _ Hm1) as (net2 & E2 & Hm2);
    [lia|apply sort_dedup_sorted|by apply holder_ends_u32|].
  rewrite E2. cbn [mbind outcome_bind].
  destruct (max_flow_solves net2 _ _ 0 1 Hm2) as (φ & net' & E & Hf & Hmax); [lia..|done|].
  exists φ, net'. rewrite E. done.
Qed.

(** ** Flows over the network, by holder and by stretch *)

Lemma net_out_app l1 l2 φ1 φ2 v : length l1 = length φ1 ->
  net_out (l1 ++ l2) (φ1 ++ φ2) v = net_out l1 φ1 v + net_out l2 φ2 v.
Proof.
  revert φ1. induction l1 as [|ed l1 IH]; intros [|f φ1]; cbn; try done. intros [= Hl]. rewrite IH by done. lia.
Qed.

Lemma net_out_holders k H φ v : length H = length φ -> v <> 1%nat ->
  net_out (holder_edges k H) φ v = if decide (2 + k <= v)%nat then default 0 (φ !! (v - (2 + k))%nat) else 0.
Proof.
  intros Hl Hv. revert k φ Hl. induction H as [|hd H IH]; intros k [|f φ] Hl; try done.
  { cbn. by case_decide. }
  injection Hl as Hl. cbn [holder_edges net_out]. rewrite (IH (S k) φ Hl). unfold edge_out. cbn [fst snd].
  rewrite (decide_False (P := 1%nat = v)) by done.
  destruct (decide ((2 + k)%nat = v)) as [<-|Hne].
  - rewrite Nat.sub_diag. rewrite decide_False by lia. rewrite decide_True by lia. cbn. lia.
  - destruct (decide (2 + S k <= v)%nat) as [Hle|Hle].
    + rewrite decide_True by lia. replace (v - (2 + k))%nat with (S (v - (2 + S k))) by lia. change ((f :: φ) !! S ?i) with (φ !! i). lia.
    + rewrite decide_False by lia. lia.
Qed.

(** What a stretch's flows give to holder [h]. *)
Fixpoint share (hs : list nat) (fs : list Z) (h : nat) : Z :=
  match hs, fs with h' :: hs, f :: fs => (if decide (h' = h) then f else 0) + share hs fs h | _, _ => 0 end.

Lemma net_out_stretch node len hs fs v : length hs = length fs ->
  net_out (map (fun h => (node, (2 + h)%nat, len)) hs) fs v =
  (if decide (node = v) then sum_list fs else 0) - (if decide (2 <= v)%nat then share hs fs (v - 2) else 0).
Proof.
  revert fs. induction hs as [|h hs IH]; intros [|f fs] Hl; try done; cbn [map net_out sum_list share].
  { repeat case_decide; lia. }
  injection Hl as Hl. rewrite (IH fs Hl). unfold edge_out. cbn [fst snd].
  assert (Hh : (if decide ((2 + h)%nat = v) then f else 0) = if decide (2 <= v)%nat then if decide (h = (v - 2)%nat) then f else 0 else 0).
  { repeat case_decide; try lia. }
  rewrite Hh. repeat case_decide; lia.
Qed.

(** The flows of a stretch: what enters it, and what it gives each of its holders. *)
Abbreviation stretch_flow := (Z * list Z)%type.
Definition fits_stretch (bl : block) (bf : stretch_flow) : Prop :=
  0 <= bf.1 <= bl.1.2 - bl.1.1 /\ Forall2 (fun _ f => 0 <= f <= bl.1.2 - bl.1.1) bl.2 bf.2.
Definition flat (bfs : list stretch_flow) : list Z := flat_map (fun bf : stretch_flow => bf.1 :: bf.2) bfs.

Lemma block_flows node bs φ : Forall2 within (block_edges node bs) φ <-> exists bfs, φ = flat bfs /\ Forall2 fits_stretch bs bfs.
Proof.
  revert node φ. induction bs as [|bl bs IH]; intros node φ; cbn [block_edges].
  - split; [intros ->%Forall2_nil_inv_l; by exists []|]. intros (bfs & -> & ->%Forall2_nil_inv_l). constructor.
  - split.
    + intros (φ1 & φ2 & H1 & (bfs & -> & Hb)%IH & ->)%Forall2_app_inv_l.
      unfold block_edges1 in H1. apply Forall2_cons_inv_l in H1 as (f0 & fs & H0 & H1 & ->).
      exists ((f0, fs) :: bfs). split; [done|]. constructor; [|done]. split; [done|]. cbn [snd].
      apply (proj1 (Forall2_fmap_l _ within bl.2 fs)) in H1. eapply list.Forall2_impl; [exact H1|].
      unfold within. cbn. auto.
    + intros (bfs & -> & ([f0 fs] & bfs' & [H0 H1] & Hb & ->)%Forall2_cons_inv_l).
      unfold flat. cbn [flat_map fst snd]. fold (flat bfs'). apply Forall2_app; [|apply IH; eauto].
      constructor; [done|]. apply (proj2 (Forall2_fmap_l _ within bl.2 fs)). eapply list.Forall2_impl; [exact H1|].
      unfold within. cbn. auto.
Qed.

Lemma fits_length bl bf : fits_stretch bl bf -> length bl.2 = length bf.2.
Proof. intros [_ H]. by eapply Forall2_length. Qed.

Definition to_holder (bs : list block) (bfs : list stretch_flow) (h : nat) : Z :=
  sum_list (zip_with (fun (bl : block) (bf : stretch_flow) => share bl.2 bf.2 h) bs bfs).
Definition below (m : nat) (bs : list block) : Prop := Forall (fun bl : block => Forall (fun h => (h < m)%nat) bl.2) bs.

Lemma share_absent hs fs h : h ∉ hs -> share hs fs h = 0.
Proof.
  revert fs. induction hs as [|h' hs IH]; intros [|f fs] Hn; cbn; try done.
  rewrite decide_False by (intros ->; apply Hn; left). rewrite IH; [done|]. intros Hin. apply Hn. by right.
Qed.

Lemma net_out_block node bl bf v : fits_stretch bl bf ->
  net_out (block_edges1 node bl) (bf.1 :: bf.2) v =
  (if decide (0%nat = v) then bf.1 else 0) + (if decide (node = v) then sum_list bf.2 - bf.1 else 0)
  - (if decide (2 <= v)%nat then share bl.2 bf.2 (v - 2) else 0).
Proof.
  intros Hf. unfold block_edges1. cbn [net_out]. rewrite net_out_stretch by by apply fits_length.
  unfold edge_out. cbn [fst snd]. repeat case_decide; lia.
Qed.

Lemma net_out_blocks m node bs bfs v : Forall2 fits_stretch bs bfs -> below m bs -> (2 + m <= node)%nat ->
  net_out (block_edges node bs) (flat bfs) v =
  (if decide (0%nat = v) then sum_list (map fst bfs) else 0)
  + (if decide (node <= v)%nat then default 0 ((fun bf : stretch_flow => sum_list bf.2 - bf.1) <$> bfs !! (v - node)%nat) else 0)
  - (if decide (2 <= v)%nat then to_holder bs bfs (v - 2) else 0).
Proof.
  intros Hf. revert node. induction Hf as [|bl bf bs bfs Hb Hf IH]; intros node Hm Hn.
  { rewrite lookup_nil. unfold to_holder. cbn. repeat case_decide; lia. }
  apply Forall_cons_1 in Hm as [Hm1 Hm]. cbn [block_edges]. unfold flat. cbn [flat_map]. fold (flat bfs).
  change ((bf.1 :: bf.2) ++ flat bfs) with ((bf.1 :: bf.2) ++ flat bfs). rewrite net_out_app.
  2: { unfold block_edges1. cbn. rewrite length_map. f_equal. by apply fits_length. }
  rewrite net_out_block by done. rewrite (IH (S node) Hm) by lia. unfold to_holder. cbn [zip_with sum_list map].
  assert (Hnode : (if decide (node = v) then sum_list bf.2 - bf.1 else 0)
    + (if decide (S node <= v)%nat then default 0 ((fun bf : stretch_flow => sum_list bf.2 - bf.1) <$> bfs !! (v - S node)%nat) else 0)
    = if decide (node <= v)%nat
      then default 0 ((fun bf : stretch_flow => sum_list bf.2 - bf.1) <$> (bf :: bfs) !! (v - node)%nat) else 0).
  { destruct (decide (node = v)) as [<-|Hne].
    - rewrite Nat.sub_diag, decide_False by lia. rewrite decide_True by lia. cbn. lia.
    - destruct (decide (S node <= v)%nat) as [Hle|Hle].
      + rewrite decide_True by lia. by replace (v - node)%nat with (S (v - S node)) by lia.
      + rewrite decide_False by lia. lia. }
  rewrite <- Hnode. repeat case_decide; lia.
Qed.

Definition takes (hd : holding) (f : Z) : Prop := 0 <= f <= Z.min (range_sum hd.1) hd.2.
Lemma holder_flows k H φ : Forall2 within (holder_edges k H) φ <-> Forall2 takes H φ.
Proof.
  revert k φ. induction H as [|hd H IH]; intros k φ; cbn [holder_edges].
  - split; intros ->%Forall2_nil_inv_l; constructor.
  - split; intros (f & φ' & H1 & H2 & ->)%Forall2_cons_inv_l; constructor; try done; by eapply IH.
Qed.

Record balanced (H : list holding) (bs : list block) (φ : list Z) (bfs : list stretch_flow) : Prop := {
  ba_takes : Forall2 takes H φ;
  ba_fits : Forall2 fits_stretch bs bfs;
  ba_stretch : Forall (fun bf : stretch_flow => sum_list bf.2 = bf.1) bfs;
  ba_holder : forall h f, φ !! h = Some f -> f = to_holder bs bfs h }.

Lemma to_holder_absent m bs bfs h : below m bs -> (m <= h)%nat -> to_holder bs bfs h = 0.
Proof.
  intros Hb Hh. unfold to_holder. revert bfs. induction Hb as [|bl bs Hbl Hb IH]; intros [|bf bfs]; cbn; try done.
  rewrite IH, share_absent; [done|]. intros Hin. rewrite list.Forall_forall in Hbl. specialize (Hbl h Hin). lia.
Qed.

Section balance.
Context (H : list holding) (bs : list block) (Hb : below (length H) bs).

Lemma flow_edges_out φ bfs v : Forall2 takes H φ -> Forall2 fits_stretch bs bfs -> v <> 1%nat ->
  net_out (flow_edges H bs) (φ ++ flat bfs) v =
  (if decide (2 <= v)%nat then default 0 (φ !! (v - 2)%nat) else 0)
  + ((if decide (0%nat = v) then sum_list (map fst bfs) else 0)
  + (if decide (2 + length H <= v)%nat
     then default 0 ((fun bf : stretch_flow => sum_list bf.2 - bf.1) <$> bfs !! (v - (2 + length H))%nat) else 0)
  - (if decide (2 <= v)%nat then to_holder bs bfs (v - 2) else 0)).
Proof.
  intros Ht Hf Hv. unfold flow_edges. pose proof (Forall2_length Ht) as Hl. rewrite net_out_app.
  2: { apply (holder_flows 0) in Ht. by eapply Forall2_length. }
  rewrite net_out_holders by done. rewrite (net_out_blocks (length H)) by done. done.
Qed.

Lemma balanced_flow φ bfs : balanced H bs φ bfs -> is_flow (flow_edges H bs) 0 1 (φ ++ flat bfs).
Proof.
  intros [Ht Hf Hs Hh]. split.
  { unfold flow_edges. apply Forall2_app; [by apply holder_flows|]. apply block_flows. eauto. }
  intros v Hv0 Hv1. rewrite flow_edges_out by done. rewrite (decide_False (P := 0%nat = v)) by congruence.
  assert (Hstretch : default 0 ((fun bf : stretch_flow => sum_list bf.2 - bf.1) <$> bfs !! (v - (2 + length H))%nat) = 0).
  { destruct (bfs !! _) as [bf|] eqn:E; [|done]. cbn. apply list_elem_of_lookup_2 in E.
    rewrite list.Forall_forall in Hs. specialize (Hs _ E). lia. }
  rewrite Hstretch. rewrite (decide_True (P := (2 <= v)%nat)) by lia.
  assert (Hhold : default 0 (φ !! (v - 2)%nat) = to_holder bs bfs (v - 2)).
  { destruct (φ !! (v - 2)%nat) as [f|] eqn:E; [by apply Hh|]. cbn. symmetry. apply (to_holder_absent (length H)); [done|].
    apply lookup_ge_None in E. by rewrite (Forall2_length Ht). }
  rewrite Hhold. repeat case_decide; lia.
Qed.

Lemma flow_balanced φ : is_flow (flow_edges H bs) 0 1 φ -> exists φH bfs, φ = φH ++ flat bfs /\ balanced H bs φH bfs.
Proof.
  intros [Hw Hk]. unfold flow_edges in Hw. apply Forall2_app_inv_l in Hw as (φH & φB & Ht & Hf & ->).
  apply holder_flows in Ht. apply block_flows in Hf as (bfs & -> & Hf). exists φH, bfs. split; [done|].
  pose proof (Forall2_length Ht) as Hl.
  split; try done.
  - apply list.Forall_forall. intros bf [j Hj]%list_elem_of_lookup.
    specialize (Hk (2 + length H + j)%nat ltac:(lia) ltac:(lia)). rewrite flow_edges_out in Hk by (done || lia).
    rewrite (decide_False (P := 0%nat = _)) in Hk by lia. rewrite !(decide_True (P := (_ <= _)%nat)) in Hk by lia.
    replace (2 + length H + j - (2 + length H))%nat with j in Hk by lia. rewrite Hj in Hk. cbn [fmap option_fmap option_map default from_option Datatypes.id] in Hk.
    rewrite (proj2 (lookup_ge_None φH _)) in Hk by lia. rewrite (to_holder_absent (length H)) in Hk by (done || lia). cbn in Hk. lia.
  - intros h f Hh. pose proof (lookup_lt_Some _ _ _ Hh) as Hlt.
    specialize (Hk (2 + h)%nat ltac:(lia) ltac:(lia)). rewrite flow_edges_out in Hk by (done || lia).
    rewrite (decide_False (P := 0%nat = _)) in Hk by lia. rewrite (decide_True (P := (2 <= _)%nat)) in Hk by lia.
    rewrite (decide_False (P := (2 + length H <= _)%nat)) in Hk by lia. replace (2 + h - 2)%nat with h in Hk by lia.
    rewrite Hh in Hk. cbn [default from_option Datatypes.id] in Hk. repeat case_decide; lia.
Qed.

Lemma share_total hs fs m : Forall (fun h => (h < m)%nat) hs -> length hs = length fs ->
  sum_list (map (share hs fs) (seq 0 m)) = sum_list fs.
Proof.
  intros Hm. revert fs. induction Hm as [|h hs Hh Hm IH]; intros [|f fs] Hl; try done.
  { by apply sum_map_zero. }
  injection Hl as Hl. cbn [share sum_list]. rewrite sum_map_add, (IH fs Hl). f_equal.
  rewrite sum_map_at by apply NoDup_seq. rewrite decide_True; [done|]. apply elem_of_seq. lia.
Qed.

Lemma to_holder_total bfs : Forall2 fits_stretch bs bfs ->
  sum_list (map (to_holder bs bfs) (seq 0 (length H))) = sum_list (map (fun bf : stretch_flow => sum_list bf.2) bfs).
Proof.
  intros Hf. clear -Hf Hb. revert Hb. generalize (length H) as m. intros m.
  induction Hf as [|bl bf bs bfs H1 Hf IH]; intros Hb; [by apply sum_map_zero|].
  apply Forall_cons_1 in Hb as [Hbl Hb]. cbn [map sum_list]. rewrite <- (IH Hb).
  rewrite <- (share_total bl.2 bf.2 m Hbl (fits_length _ _ H1)), <- sum_map_add. by apply sum_map_ext.
Qed.

(** What leaves the source is what the holders are given. *)
Lemma balanced_value φ bfs : balanced H bs φ bfs -> net_out (flow_edges H bs) (φ ++ flat bfs) 0 = sum_list φ.
Proof.
  intros [Ht Hf Hs Hh]. rewrite flow_edges_out by done. rewrite !(decide_False (P := (_ <= 0)%nat)) by lia.
  rewrite decide_True by done.
  assert (Hφ : φ = map (to_holder bs bfs) (seq 0 (length H))).
  { apply list_eq. intros h. change (map ?f ?x) with (f <$> x). rewrite list_lookup_fmap.
    destruct (φ !! h) as [f|] eqn:E.
    - pose proof (lookup_lt_Some _ _ _ E). rewrite lookup_seq_lt by (rewrite (Forall2_length Ht); lia). cbn. f_equal. by apply Hh.
    - apply lookup_ge_None in E. rewrite lookup_seq_ge; [done|]. rewrite (Forall2_length Ht). lia. }
  rewrite Hφ at 1. rewrite to_holder_total by done. 
  rewrite (sum_map_ext (fun bf : stretch_flow => sum_list bf.2) fst); [lia|].
  intros bf Hin. rewrite list.Forall_forall in Hs. by apply Hs.
Qed.
End balance.

(** ** From a flow to layers handed out

    A stretch's layers go to its holders in order, as many to each as the flow says. *)

Fixpoint segments (a : Z) (hs : list nat) (fs : list Z) (h : nat) : gset Z :=
  match hs, fs with
  | h' :: hs, f :: fs => (if decide (h' = h) then interval a f else ∅) ∪ segments (a + f) hs fs h
  | _, _ => ∅
  end.

Lemma segments_elem a hs fs h x : Forall (fun f => 0 <= f) fs -> x ∈ segments a hs fs h ->
  a <= x < a + sum_list fs /\ h ∈ hs.
Proof.
  revert a fs. induction hs as [|h' hs IH]; intros a [|f fs] Hp; cbn; try set_solver.
  apply Forall_cons_1 in Hp as [Hf Hp]. assert (0 <= sum_list fs) by (clear -Hp; induction Hp; cbn; lia).
  intros [Hx|(? & ?)%(IH _ _ Hp)]%elem_of_union; [|split; [lia|by right]].
  destruct (decide (h' = h)) as [->|]; [|set_solver]. apply interval_elem in Hx. split; [lia|left].
Qed.

Lemma segments_apart a hs fs h h' x : Forall (fun f => 0 <= f) fs ->
  x ∈ segments a hs fs h -> x ∈ segments a hs fs h' -> h = h'.
Proof.
  revert a fs. induction hs as [|k hs IH]; intros a [|f fs] Hp; cbn; try set_solver.
  apply Forall_cons_1 in Hp as [Hf Hp]. intros [Hx|Hx]%elem_of_union [Hx'|Hx']%elem_of_union.
  - repeat case_decide; set_solver.
  - destruct (segments_elem _ _ _ _ _ Hp Hx'). case_decide; [apply interval_elem in Hx; lia|set_solver].
  - destruct (segments_elem _ _ _ _ _ Hp Hx). case_decide; [apply interval_elem in Hx'; lia|set_solver].
  - by eapply IH.
Qed.

Lemma segments_size a hs fs h : Forall (fun f => 0 <= f) fs -> Z.of_nat (size (segments a hs fs h)) = share hs fs h.
Proof.
  revert a fs. induction hs as [|k hs IH]; intros a [|f fs] Hp; cbn [segments share]; try (by rewrite size_empty).
  apply Forall_cons_1 in Hp as [Hf Hp]. rewrite size_disjoint, IH by done || (
    intros x Hx Hx'; destruct (segments_elem _ _ _ _ _ Hp Hx'); case_decide; [apply interval_elem in Hx; lia|set_solver]).
  case_decide; [rewrite interval_size by done; lia|rewrite size_empty; lia].
Qed.

Fixpoint layers_of (bs : list block) (bfs : list stretch_flow) (h : nat) : gset Z :=
  match bs, bfs with
  | bl :: bs, bf :: bfs => segments bl.1.1 bl.2 bf.2 h ∪ layers_of bs bfs h
  | _, _ => ∅
  end.

Lemma fits_positive bl bf : fits_stretch bl bf -> Forall (fun f => 0 <= f) bf.2.
Proof. intros [_ Hf]. induction Hf as [|? f ? fs [? ?] _ IH]; by constructor. Qed.

Section layers_of.
Context (bs : list block) (bfs : list stretch_flow).
Hypothesis (Hf : Forall2 fits_stretch bs bfs) (Hsum : Forall (fun bf : stretch_flow => sum_list bf.2 = bf.1) bfs)
  (Hord : in_order bs).

Lemma layers_of_elem h x : x ∈ layers_of bs bfs h -> exists bl, bl ∈ bs /\ inside bl x /\ h ∈ bl.2.
Proof.
  clear Hord. revert Hsum. induction Hf as [|bl bf bs' bfs' H1 H2 IH]; intros Hs; cbn; [set_solver|].
  apply Forall_cons_1 in Hs as [Hs1 Hs]. intros [Hx|Hx]%elem_of_union.
  - destruct (segments_elem _ _ _ _ _ (fits_positive _ _ H1) Hx) as [? ?]. exists bl. destruct H1 as [H1 _].
    split; [left|]. split; [unfold inside; lia|done].
  - destruct (IH H2 Hs Hx) as (bl' & ? & ? & ?). exists bl'. split_and!; try done. by right.
Qed.
End layers_of.

Lemma segments_before bl bf bs bfs h x h' : fits_stretch bl bf -> sum_list bf.2 = bf.1 -> Forall2 fits_stretch bs bfs ->
  Forall (fun bf : stretch_flow => sum_list bf.2 = bf.1) bfs ->
  Forall (fun bl' : block => bl.1.2 <= bl'.1.1) bs ->
  x ∈ segments bl.1.1 bl.2 bf.2 h -> x ∈ layers_of bs bfs h' -> False.
Proof.
  intros H1 Hs1 Hf Hs Hle Hx Hx'. destruct (segments_elem _ _ _ _ _ (fits_positive _ _ H1) Hx) as [? _].
  destruct (layers_of_elem _ _ Hf Hs _ _ Hx') as (bl' & Hin & Hi & _). rewrite list.Forall_forall in Hle.
  specialize (Hle _ Hin). unfold inside in Hi. destruct H1 as [H1 _]. lia.
Qed.

Lemma layers_of_apart bs bfs h h' x : Forall2 fits_stretch bs bfs -> Forall (fun bf : stretch_flow => sum_list bf.2 = bf.1) bfs ->
  in_order bs -> x ∈ layers_of bs bfs h -> x ∈ layers_of bs bfs h' -> h = h'.
Proof.
  intros Hf. induction Hf as [|bl bf bs bfs H1 Hf IH]; intros Hs Ho; cbn; [set_solver|].
  apply Forall_cons_1 in Hs as [Hs1 Hs]. apply StronglySorted_inv in Ho as [Ho Hle].
  intros [Hx|Hx]%elem_of_union [Hx'|Hx']%elem_of_union.
  - by eapply segments_apart; [eapply fits_positive|..].
  - exfalso. by eapply segments_before.
  - exfalso. by eapply segments_before.
  - by apply IH.
Qed.

Lemma layers_of_size bs bfs h : Forall2 fits_stretch bs bfs -> Forall (fun bf : stretch_flow => sum_list bf.2 = bf.1) bfs ->
  in_order bs -> Z.of_nat (size (layers_of bs bfs h)) = to_holder bs bfs h.
Proof.
  intros Hf. unfold to_holder. induction Hf as [|bl bf bs bfs H1 Hf IH]; intros Hs Ho; cbn; [by rewrite size_empty|].
  apply Forall_cons_1 in Hs as [Hs1 Hs]. apply StronglySorted_inv in Ho as [Ho Hle].
  rewrite size_disjoint by (intros x ??; by eapply segments_before).
  rewrite segments_size by by eapply fits_positive. by rewrite IH.
Qed.

(** ** Stretches and holders *)

Section holders.
Context (H : list holding) (HH : Forall sound_holder H).

Lemma stretch_holders a b hs x h : (a, b, hs) ∈ kept H (holder_ends H) -> a <= x < b ->
  h ∈ hs <-> exists hd, H !! h = Some hd /\ held hd.1 x.
Proof.
  intros (Hw & -> & _)%kept_elem Hx. rewrite holding_stretch_elem.
  destruct (windows_spec _ _ _ (sort_dedup_sorted _) Hw) as (_ & _ & _ & Hgap).
  split; intros (hd & Hh & He); exists hd; (split; [done|]); apply list.Exists_exists in He as (r & Hr & Hle);
    apply list.Exists_exists; exists r; (split; [done|]); [lia|].
  destruct (holder_ends_elem H hd r (list_elem_of_lookup_2 _ _ _ Hh) Hr) as [H1 H2].
  destruct (Hgap _ H1), (Hgap _ H2); lia.
Qed.

Lemma stretch_cover h hd x : H !! h = Some hd -> held hd.1 x -> exists bl, bl ∈ kept H (holder_ends H) /\ inside bl x.
Proof.
  intros Hh Hx. pose proof Hx as (r & Hr & Hrx)%list.Exists_exists.
  destruct (holder_ends_elem H hd r (list_elem_of_lookup_2 _ _ _ Hh) Hr) as [H1 H2].
  destruct (windows_cover (holder_ends H) r.1 r.2 x (sort_dedup_sorted _) H1 H2 Hrx) as (a & b & Hab & Hx').
  exists (a, b, holding_stretch H a b). split; [|done]. apply kept_elem. split_and!; try done.
  destruct (windows_spec _ _ _ (sort_dedup_sorted _) Hab) as (_ & _ & _ & Hgap).
  enough (Hin : h ∈ holding_stretch H a b) by (intros E; rewrite E in Hin; by apply elem_of_nil in Hin).
  apply holding_stretch_elem. exists hd. split; [done|]. apply list.Exists_exists. exists r. split; [done|].
  destruct (Hgap _ H1), (Hgap _ H2); lia.
Qed.

Lemma kept_below es : below (length H) (kept H es).
Proof.
  apply list.Forall_forall. intros [[a b] hs] (_ & -> & _)%kept_elem. apply list.Forall_forall. cbn.
  intros h (hd & Hh & _)%holding_stretch_elem. by eapply lookup_lt_Some.
Qed.

Lemma kept_sound bl : bl ∈ kept H (holder_ends H) -> bl.1.1 < bl.1.2 /\ NoDup bl.2.
Proof.
  destruct bl as [[a b] hs]. intros (Hw & -> & _)%kept_elem.
  destruct (windows_spec _ _ _ (sort_dedup_sorted _) Hw) as (_ & _ & ? & _). split; [done|apply holding_stretch_nodup].
Qed.

Lemma apart_map {A} (f : A -> gset Z) xs : NoDup xs -> (forall x y, x <> y -> f x ## f y) -> ForallOrdPairs (##) (map f xs).
Proof.
  intros Hnd Hd. induction Hnd as [|x xs Hx Hnd IH]; cbn; constructor; [|done].
  apply list.Forall_forall. intros y (z & -> & Hz)%list_elem_of_fmap. apply Hd. intros ->. done.
Qed.

Lemma flow_hands_out φ bfs : balanced H (kept H (holder_ends H)) φ bfs ->
  exists gs, handed_out H gs /\ layers_given gs = sum_list φ.
Proof.
  intros [Ht Hf Hs Hh]. set (bs := kept H (holder_ends H)) in *.
  assert (Ho : in_order bs) by apply kept_in_order, sort_dedup_sorted.
  assert (Hsz : forall h f, φ !! h = Some f -> Z.of_nat (size (layers_of bs bfs h)) = f).
  { intros h f Hφ. rewrite layers_of_size by done. symmetry. by apply Hh. }
  exists (map (layers_of bs bfs) (seq 0 (length H))). split; [split|].
  - apply Forall2_same_length_lookup. split; [by rewrite length_map, length_seq|]. intros h hd g Hhd Hg.
    change (map ?f ?x) with (f <$> x) in Hg. apply list_lookup_fmap_Some in Hg as (h' & -> & [-> _]%lookup_seq). cbn [Nat.add].
    split.
    + intros x Hx. destruct (layers_of_elem _ _ Hf Hs _ _ Hx) as ([[a b] hs] & Hin & Hi & Hhs).
      apply (stretch_holders _ _ _ _ _ Hin Hi) in Hhs as (hd' & Hhd' & ?). cbn in *. by simplify_eq.
    + destruct (lookup_lt_is_Some_2 φ h) as [f Hφ]. { rewrite <- (Forall2_length Ht). by eapply lookup_lt_Some. }
      rewrite (Hsz h f Hφ). destruct (Forall2_lookup_lr _ _ _ _ _ _ Ht Hhd Hφ) as [? ?]. lia.
  - apply apart_map; [apply NoDup_seq|]. intros h h' Hne x Hx Hx'. apply Hne. by eapply layers_of_apart.
  - unfold layers_given. f_equal. rewrite map_map. apply list_eq. intros h. change (map ?f ?x) with (f <$> x).
    rewrite list_lookup_fmap. destruct (φ !! h) as [f|] eqn:E.
    + pose proof (lookup_lt_Some _ _ _ E). rewrite lookup_seq_lt by (rewrite (Forall2_length Ht); lia). cbn. f_equal. by apply Hsz.
    + apply lookup_ge_None in E. rewrite lookup_seq_ge; [done|]. rewrite (Forall2_length Ht). lia.
Qed.

(** ** From layers handed out to a flow *)

Lemma size_by_stretch bs (g : gset Z) : in_order bs -> (forall x, x ∈ g -> exists bl, bl ∈ bs /\ inside bl x) ->
  sum_list (map (fun bl => Z.of_nat (size (filter (inside bl) g))) bs) = Z.of_nat (size g).
Proof.
  intros Ho. revert g. induction Ho as [|bl bs Ho IH Hle]; intros g Hg; cbn [map sum_list].
  - assert (g = ∅) as ->; [|by rewrite size_empty]. apply set_eq. intros x. split; [|set_solver].
    intros (? & ?%elem_of_nil & _)%Hg. done.
  - rewrite (size_split (inside bl) g), <- (IH (filter (fun x => ~ inside bl x) g)).
    + f_equal. apply sum_map_ext. intros bl' Hbl'. do 2 f_equal. apply set_eq. intros x. rewrite !elem_of_filter.
      rewrite list.Forall_forall in Hle. specialize (Hle bl' Hbl'). unfold inside. intuition lia.
    + intros x [Hn Hx]%elem_of_filter. destruct (Hg x Hx) as (bl' & [->|Hin]%elem_of_cons & Hi); [done|eauto].
Qed.

Lemma size_by_holder (g : nat -> gset Z) hs (P : Z -> Prop) `{!forall x, Decision (P x)} :
  NoDup hs -> (forall h h', h <> h' -> g h ## g h') ->
  exists U : gset Z, (forall x, x ∈ U -> P x) /\ (forall h x, x ∈ U -> x ∈ g h -> h ∈ hs) /\
    sum_list (map (fun h => Z.of_nat (size (filter P (g h)))) hs) = Z.of_nat (size U).
Proof.
  intros Hnd Hd. induction Hnd as [|h hs Hh Hnd (U & HP & Hin & E)].
  - exists ∅. rewrite size_empty. set_solver.
  - exists (filter P (g h) ∪ U). split_and!.
    + intros x [[? _]%elem_of_filter|?]%elem_of_union; auto.
    + intros h' x [[_ Hx]%elem_of_filter|Hx]%elem_of_union Hx'; [|right; by eapply Hin].
      destruct (decide (h' = h)) as [->|Hne]; [left|]. by destruct (Hd h' h Hne x Hx' Hx).
    + cbn [map sum_list]. rewrite E, size_disjoint; [done|]. intros x [_ Hx]%elem_of_filter HU. apply Hh. by eapply Hin.
Qed.

Lemma share_map (c : nat -> Z) hs h : NoDup hs -> share hs (map c hs) h = if decide (h ∈ hs) then c h else 0.
Proof.
  induction 1 as [|k hs Hk Hnd IH]; [done|]. cbn [map share]. rewrite IH. destruct (decide (k = h)) as [->|Hne].
  - rewrite (decide_False (P := h ∈ hs)) by done. rewrite decide_True; [lia|left].
  - destruct (decide (h ∈ hs)); [rewrite decide_True; [lia|by right]|].
    rewrite decide_False; [lia|]. intros [->|?]%elem_of_cons; done.
Qed.

Lemma apart_lookup (gs : list (gset Z)) i j gi gj : ForallOrdPairs (##) gs -> i <> j ->
  gs !! i = Some gi -> gs !! j = Some gj -> gi ## gj.
Proof.
  intros Hp. revert i j. induction Hp as [|g gs Hg Hp IH]; intros [|i] [|j] Hne Hi Hj; try done; cbn in *; simplify_eq.
  - rewrite list.Forall_forall in Hg. eapply Hg, list_elem_of_lookup_2, Hj.
  - rewrite list.Forall_forall in Hg. symmetry. eapply Hg, list_elem_of_lookup_2, Hi.
  - eapply (IH i j); [congruence|exact Hi|exact Hj].
Qed.

Lemma handed_out_flows gs : handed_out H gs ->
  exists φ bfs, balanced H (kept H (holder_ends H)) φ bfs /\ sum_list φ = layers_given gs.
Proof.
  intros [Hg Hd]. set (bs := kept H (holder_ends H)). set (g := fun h => default ∅ (gs !! h)).
  assert (Hgd : forall h h', h <> h' -> g h ## g h').
  { intros h h' Hne. unfold g. destruct (gs !! h) as [gh|] eqn:E1, (gs !! h') as [gh'|] eqn:E2; cbn; try set_solver.
    by apply (apart_lookup gs h h'). }
  assert (Hgh : forall h x, x ∈ g h -> exists hd, H !! h = Some hd /\ held hd.1 x).
  { intros h x. unfold g. destruct (gs !! h) as [gh|] eqn:E; cbn; [|set_solver]. intros Hx.
    destruct (lookup_lt_is_Some_2 H h) as [hd Hh]. { rewrite (Forall2_length Hg). by eapply lookup_lt_Some. }
    exists hd. split; [done|]. by apply (Forall2_lookup_lr _ _ _ _ _ _ Hg Hh E). }
  set (fs := fun bl : block => map (fun h => Z.of_nat (size (filter (inside bl) (g h)))) bl.2).
  assert (Hfit : forall bl, bl ∈ bs -> sum_list (fs bl) <= bl.1.2 - bl.1.1).
  { intros bl Hbl. destruct (kept_sound bl Hbl) as [Hlt Hnd].
    destruct (size_by_holder g bl.2 (inside bl) Hnd Hgd) as (U & HP & _ & E). unfold fs. rewrite E.
    rewrite <- (interval_size bl.1.1 (bl.1.2 - bl.1.1)) by lia. apply inj_le, subseteq_size. intros x Hx%HP.
    apply interval_elem. unfold inside in Hx. lia. }
  assert (Hpos : forall bl, 0 <= sum_list (fs bl)).
  { intros bl. unfold fs. generalize bl.2. intros hs. induction hs; cbn; lia. }
  exists (map (fun g => Z.of_nat (size g)) gs), (map (fun bl => (sum_list (fs bl), fs bl)) bs). split; [|done]. split.
  - apply Forall2_same_length_lookup. split; [by rewrite length_map, (Forall2_length Hg)|]. intros h hd f Hh Hf.
    change (map ?f ?x) with (f <$> x) in Hf. apply list_lookup_fmap_Some in Hf as (gh & -> & Hgh').
    destruct (Forall2_lookup_lr _ _ _ _ _ _ Hg Hh Hgh') as [Hheld Hsz]. split; [lia|]. apply Z.min_glb; [|done].
    apply held_size; [|done]. rewrite list.Forall_forall in HH. pose proof (HH hd (list_elem_of_lookup_2 _ _ _ Hh)) as [Hr _ _ _].
    eapply list.Forall_impl; [exact Hr|]. intros r [? _]. done.
  - apply (proj2 (Forall2_fmap_r _ _ _ _)), Forall_Forall2_diag, list.Forall_forall. intros bl Hbl. split; cbn.
    + specialize (Hfit bl Hbl). specialize (Hpos bl). lia.
    + apply (proj2 (Forall2_fmap_r _ _ _ _)), Forall_Forall2_diag, list.Forall_forall. intros h Hh. split; [lia|].
      destruct (kept_sound bl Hbl) as [Hlt _].
      rewrite <- (interval_size bl.1.1 (bl.1.2 - bl.1.1)) by lia. apply inj_le, subseteq_size.
      intros x [Hx _]%elem_of_filter. apply interval_elem. unfold inside in Hx. lia.
  - apply list.Forall_forall. intros bf (bl & -> & _)%list_elem_of_fmap. done.
  - intros h f Hf. change (map ?f ?x) with (f <$> x) in Hf. apply list_lookup_fmap_Some in Hf as (gh & -> & Hgh').
    assert (gh = g h) as -> by (unfold g; by rewrite Hgh').
    rewrite <- (size_by_stretch bs (g h)); [|apply kept_in_order, sort_dedup_sorted|].
    + unfold to_holder. change (map ?f ?x) with (f <$> x). rewrite zip_with_fmap_r, zip_with_diag. cbn.
      apply sum_map_ext. intros [[a b] hs] Hbl. destruct (kept_sound _ Hbl) as [_ Hnd]. cbn in Hnd. unfold fs. cbn [snd].
      rewrite share_map by done. case_decide as Hin; [done|].
      assert (filter (inside (a, b, hs)) (g h) = ∅) as ->; [|by rewrite size_empty]. apply set_eq. intros x.
      split; [|set_solver]. intros [Hi Hx]%elem_of_filter. destruct Hin. apply (stretch_holders a b hs x h Hbl Hi). by apply Hgh.
    + intros x (hd & Hh & Hx)%Hgh. by eapply stretch_cover.
Qed.
End holders.

(** ** Holders that carry nothing change nothing *)

Lemma carrying_sound holdings : Forall u32_holding holdings -> Forall sound_holder (carrying_holders holdings).
Proof.
  intros Hu. apply list.Forall_forall. unfold carrying_holders. intros hd [[Ht _] (h & -> & Hh)%list_elem_of_fmap]%list_elem_of_filter.
  rewrite list.Forall_forall in Hu. destruct (Hu h Hh) as [Hr Htake]. destruct (merged_ranges_spec h.1 Hr) as ([Hab _] & Hu' & _).
  destruct (held_sum_merged h.1 Hr) as [E Hs]. split; cbn in *; [|ints|done|done].
  by apply list.Forall_and.
Qed.

Lemma given_merged h g : Forall u32_range h.1 -> given (merged_ranges h.1, h.2) g <-> given h g.
Proof. intros Hu. destruct (merged_ranges_spec h.1 Hu) as (_ & _ & Hx). unfold given. cbn. by setoid_rewrite Hx. Qed.

Lemma given_nothing h g : given (merged_ranges h.1, h.2) g -> ~ (0 < h.2 /\ merged_ranges h.1 <> []) -> g = ∅.
Proof.
  intros [Hx Hs] Hn. cbn in *. destruct (Z.lt_ge_cases 0 h.2) as [Hpos|Hneg].
  - destruct (merged_ranges h.1) eqn:E; [|by destruct Hn]. apply set_eq. intros x. split; [|set_solver].
    intros []%Hx%held_nil.
  - apply leibniz_equiv, size_empty_inv. lia.
Qed.

Lemma handed_out_carrying holdings gs : Forall u32_holding holdings -> handed_out holdings gs ->
  exists gs', handed_out (carrying_holders holdings) gs' /\ layers_given gs' = layers_given gs.
Proof.
  intros Hu [Hg Hd]. enough (exists gs', (forall g, g ∈ gs' -> g ∈ gs) /\ handed_out (carrying_holders holdings) gs' /\
    layers_given gs' = layers_given gs) by naive_solver.
  unfold handed_out, layers_given, carrying_holders. revert Hu Hd.
  induction Hg as [|h g holdings gs H1 Hg IH]; intros Hu Hd; [exists []; split_and!; by repeat constructor|].
  apply Forall_cons_1 in Hu as [[Hr Ht] Hu]. inversion Hd as [|? ? Hdg Hd' E]; subst.
  destruct (IH Hu Hd') as (gs' & Hsub & [Hg' Hp'] & E). cbn [map sum_list]. rewrite <- E.
  apply (given_merged h g Hr) in H1. rewrite filter_cons. cbn [fst snd]. case_decide as Hc.
  - exists (g :: gs'). split_and!; [|by constructor| |done].
    + intros x [->|?%Hsub]%elem_of_cons; [left|by right].
    + constructor; [|done]. apply list.Forall_forall. intros y ?%Hsub. rewrite list.Forall_forall in Hdg. auto.
  - exists gs'. rewrite (given_nothing h g H1 Hc), size_empty. split_and!; try done. intros x ?%Hsub. by right.
Qed.

Lemma handed_out_all holdings gs' : Forall u32_holding holdings -> handed_out (carrying_holders holdings) gs' ->
  exists gs, handed_out holdings gs /\ layers_given gs = layers_given gs'.
Proof.
  intros Hu [Hg Hd]. enough (exists gs, (forall g, g ∈ gs -> g ∈ gs' \/ g = ∅) /\ handed_out holdings gs /\
    layers_given gs = layers_given gs') by naive_solver.
  unfold handed_out, layers_given, carrying_holders in *. revert gs' Hg Hd.
  induction Hu as [|h holdings [Hr Ht] Hu IH]; intros gs' Hg Hd.
  { cbn in Hg. apply Forall2_nil_inv_l in Hg as ->. exists []. split_and!; repeat constructor. set_solver. }
  cbn [map] in Hg. rewrite filter_cons in Hg. cbn [fst snd] in Hg. case_decide as Hc.
  - apply Forall2_cons_inv_l in Hg as (g & gs'' & H1 & Hg & ->). inversion Hd as [|? ? Hdg Hd' E]; subst.
    destruct (IH gs'' Hg Hd') as (gs & Hsub & [Hg' Hp'] & E). exists (g :: gs). cbn. rewrite E. split_and!; try done.
    + intros x [->|[?|?]%Hsub]%elem_of_cons; [left; left|left; by right|by right].
    + constructor; [by apply (given_merged h g Hr)|done].
    + constructor; [|done]. apply list.Forall_forall. intros y [Hy|Hy]%Hsub; [|set_solver].
      rewrite list.Forall_forall in Hdg. auto.
  - destruct (IH gs' Hg Hd) as (gs & Hsub & [Hg' Hp'] & E). exists (∅ :: gs). cbn. rewrite E, size_empty. split_and!; try done.
    + intros x [->|?%Hsub]%elem_of_cons; [by right|done].
    + constructor; [|done]. split; [set_solver|]. rewrite size_empty. unfold is_u32 in Ht. lia.
    + constructor; [|done]. apply list.Forall_forall. set_solver.
Qed.

(** Layers handed out are u32 numbers below the largest, each once. *)
Lemma handed_out_u32 holdings gs : Forall u32_holding holdings -> handed_out holdings gs -> 0 <= layers_given gs <= u32_max.
Proof.
  intros Hu [Hg Hd]. assert (Hall : forall g x, g ∈ gs -> x ∈ g -> 0 <= x < u32_max).
  { intros g x [i Hi]%list_elem_of_lookup Hx. destruct (lookup_lt_is_Some_2 holdings i) as [h Hh].
    { rewrite (Forall2_length Hg). by eapply lookup_lt_Some. }
    destruct (Forall2_lookup_lr _ _ _ _ _ _ Hg Hh Hi) as [Hheld _].
    pose proof (Hheld _ Hx) as (r & Hr & Hrx)%list.Exists_exists.
    rewrite list.Forall_forall in Hu. destruct (Hu h (list_elem_of_lookup_2 _ _ _ Hh)) as [Hrs _].
    rewrite list.Forall_forall in Hrs. destruct (Hrs r Hr). unfold is_u32 in *. lia. }
  assert (Hun : exists U : gset Z, (forall x, x ∈ U <-> exists g, g ∈ gs /\ x ∈ g) /\ layers_given gs = Z.of_nat (size U)).
  { clear Hg Hall. unfold layers_given. induction Hd as [|g gs Hdg Hd (U & HU & E)].
    - exists ∅. rewrite size_empty. split; [|done]. intros x. split; [set_solver|]. intros (g & ?%elem_of_nil & _). done.
    - exists (g ∪ U). cbn. rewrite E, size_disjoint. 
      + split; [|done]. intros x. rewrite elem_of_union, HU. setoid_rewrite elem_of_cons. naive_solver.
      + intros x Hx (g' & Hg' & Hx')%HU. rewrite list.Forall_forall in Hdg. by apply (Hdg g' Hg' x). }
  destruct Hun as (U & HU & ->). split; [lia|].
  rewrite <- (interval_size 0 u32_max) by done. apply inj_le, subseteq_size. intros x (g & Hin & Hx)%HU.
  apply interval_elem. specialize (Hall g x Hin Hx). lia.
Qed.

(** C12: [layers_carried] returns, without overflow, the most layers that can each be
    given to one computer holding it with none given more than it could take: that many
    can be handed out, and no way of handing layers out gives more. *)
Theorem layers_carried_is_the_most holdings : Forall u32_holding holdings ->
  exists n gs, layers_carried holdings = Ok n /\ handed_out holdings gs /\ layers_given gs = n /\
    forall gs', handed_out holdings gs' -> layers_given gs' <= n.
Proof.
  intros Hu. pose proof (carrying_sound _ Hu) as HH. set (H := carrying_holders holdings) in *.
  destruct (network_solved H HH) as (φ & net' & E & Hf & Hmax).
  destruct (flow_balanced H _ (kept_below H _) _ Hf) as (φH & bfs & -> & Hb).
  destruct (flow_hands_out H _ _ Hb) as (gs1 & Hg1 & E1). destruct (handed_out_all _ _ Hu Hg1) as (gs & Hg & E2).
  rewrite (balanced_value H _ (kept_below H _) _ _ Hb) in E, Hmax. rewrite E1 in E2.
  pose proof (handed_out_u32 _ _ Hu Hg) as Hbound. rewrite E2 in Hbound. rewrite Z.min_r in E by lia.
  exists (sum_list φH), gs. split_and!; try done.
  - unfold layers_carried. fold H. revert E. destruct (add_holders _ _ _) as [net1| |]; cbn [mbind outcome_bind]; try done.
    destruct (add_stretches _ _ _) as [net2| |]; cbn [mbind outcome_bind]; try done. intros ->. done.
  - intros gs' Hgs'. destruct (handed_out_carrying _ _ Hu Hgs') as (gs2 & Hg2 & E3). rewrite <- E3.
    destruct (handed_out_flows H HH gs2 Hg2) as (ψ & bfs' & Hb' & <-).
    rewrite <- (balanced_value H _ (kept_below H _) _ _ Hb'). apply Hmax. by apply balanced_flow; [apply kept_below|].
Qed.

(** The holders of the 70B model: 67 of its layers can be handed out, no more. *)
Lemma layers_carried_is_the_most_witness :
  let holdings := [([(0, 13); (43, 44); (73, 80)], 23); ([(0, 17)], 22); ([(13, 73)], 35); ([(17, 43); (44, 80)], 7)] in
  exists n gs, layers_carried holdings = Ok n /\ handed_out holdings gs /\ layers_given gs = n /\
    forall gs', handed_out holdings gs' -> layers_given gs' <= n.
Proof.
  intros holdings. apply (layers_carried_is_the_most holdings).
  repeat constructor; cbn; unfold is_u32, u32_max; lia.
Defined.

(** [layers_in] returns, without overflow, how many distinct layers the ranges
    cover, in whatever order and however they overlap. *)
Theorem layers_in_counts_each_once ranges : Forall u32_range ranges ->
  exists L : gset Z, (forall x, x ∈ L <-> held ranges x) /\ layers_in ranges = Ok (Z.of_nat (size L)).
Proof. apply layers_in_spec. Qed.

Lemma layers_in_counts_each_once_witness :
  exists L : gset Z, (forall x, x ∈ L <-> held [(10, 20); (0, 12); (15, 15)] x) /\
    layers_in [(10, 20); (0, 12); (15, 15)] = Ok (Z.of_nat (size L)).
Proof. apply (layers_in_counts_each_once [(10, 20); (0, 12); (15, 15)]). repeat constructor; cbn; unfold is_u32, u32_max; lia. Defined.
