(* ===== verification/SeqCache.v ===== *)
(** * One layer's cache of keys and values ([src/inference/split/kv_cache.rs])

    A [SeqCache] is a buffer of positions that grows by a quantum, drops positions off
    its end by moving a length, and - for a sliding-window layer - drops its oldest
    positions instead of growing.  A [KvPair] is two of them, a [LayerKv] a pair with
    an optional f16 mirror for the card's attention kernel.

    Tensors are the candle crate's, seen along the axis of positions: a dtype, a
    device, how many elements a position has, and one opaque row per position.  The
    class [Candle] names what the code uses of the crate; two tensors may share their
    rows without the model showing it, and no definition here writes into rows another
    cache reads.  Every candle call may fail: [answers] says which, one answer per
    fallible call in the order the code makes them, and calls past its end succeed.
    Counts of positions are natural numbers: they index memory a process holds, so
    their sums stay far below 2^64.  The process-wide counters of growth steps and
    slides are statistics and left out. *)
From S2P Require Import Prelude.
#[local] Open Scope Z_scope.

(** ** What is used of candle *)

Class Candle : Type := {
  Row : Type;
  DType : Type;
  dtype_eq_dec :: EqDecision DType;
  F16 : DType;
  F32 : DType;
  f16_not_f32 : F16 <> F32;
  size_in_bytes : DType -> Z;
  to_row_dtype : DType -> Row -> Row;
  zero_row : DType -> Row;
  Device : Type;
  is_cuda : Device -> bool }.

Record Tensor `{Candle} : Type := { t_dtype : DType; t_device : Device; t_elems : Z; t_rows : list Row }.
Arguments Build_Tensor {_} _ _ _ _.

Section tensors.
Context `{Candle}.

Definition t_len (t : Tensor) : nat := length (t_rows t).
Definition elem_count (t : Tensor) : Z := t_elems t * Z.of_nat (t_len t).
Definition t_bytes (t : Tensor) : Z := elem_count t * size_in_bytes (t_dtype t).

(** [to_dtype]: the same tensor where the dtype is already that. *)
Definition to_dtype (d : DType) (t : Tensor) : Tensor :=
  if decide (t_dtype t = d) then t
  else {| t_dtype := d; t_device := t_device t; t_elems := t_elems t; t_rows := to_row_dtype d <$> t_rows t |}.

(** [zeros] of the shape of [src] with [n] positions. *)
Definition zeros_like (src : Tensor) (d : DType) (n : nat) : Tensor :=
  {| t_dtype := d; t_device := t_device src; t_elems := t_elems src; t_rows := replicate n (zero_row d) |}.

(** [narrow] fails outside the tensor. *)
Definition narrow (t : Tensor) (from len : nat) : option Tensor :=
  if (from + len <=? t_len t)%nat
  then Some {| t_dtype := t_dtype t; t_device := t_device t; t_elems := t_elems t; t_rows := take len (drop from (t_rows t)) |}
  else None.

Definition cat (a b : Tensor) : Tensor :=
  {| t_dtype := t_dtype a; t_device := t_device a; t_elems := t_elems a; t_rows := t_rows a ++ t_rows b |}.

(** [kv_write::write_into]: [src] over the rows of [buffer] from [offset] on, in the
    buffer's dtype; fails where it does not fit. *)
Definition write_into (buffer src : Tensor) (offset : nat) : option Tensor :=
  if (offset + t_len src <=? t_len buffer)%nat
  then Some {| t_dtype := t_dtype buffer; t_device := t_device buffer; t_elems := t_elems buffer;
               t_rows := take offset (t_rows buffer) ++ t_rows (to_dtype (t_dtype buffer) src)
                         ++ drop (offset + t_len src) (t_rows buffer) |}
  else None.
End tensors.

(** The next call's answer. *)
Definition ask (answers : list bool) : bool * list bool :=
  match answers with [] => (true, []) | b :: answers => (b, answers) end.

(** ** [SeqCache] *)

Record SeqCache `{Candle} : Type := {
  sc_all_data : option Tensor;
  sc_dim : nat;
  sc_current_seq_len : nat;
  sc_grow_by : nat;
  sc_max_seq_len : nat;
  sc_store_dtype : option DType;
  sc_start : nat;
  sc_keep : option nat }.
Arguments Build_SeqCache {_} _ _ _ _ _ _ _ _.

Section seq_cache.
Context `{Candle}.

Definition seq_with_capacity (dim initial grow_by : nat) : SeqCache :=
  {| sc_all_data := None; sc_dim := dim; sc_current_seq_len := 0; sc_grow_by := Nat.max grow_by 1;
     sc_max_seq_len := Nat.max initial 1; sc_store_dtype := None; sc_start := 0; sc_keep := None |}.

Definition sc_held_from (c : SeqCache) : nat := sc_start c.
Definition sc_held (c : SeqCache) : nat := (sc_current_seq_len c - sc_start c)%nat.
Definition sc_reach (c : SeqCache) : nat := (sc_start c + sc_max_seq_len c)%nat.

(** The record with another buffer, length, size, dtype or start. *)
Definition sc_with (c : SeqCache) (all_data : option Tensor) (current_seq_len max_seq_len start : nat) : SeqCache :=
  {| sc_all_data := all_data; sc_dim := sc_dim c; sc_current_seq_len := current_seq_len; sc_grow_by := sc_grow_by c;
     sc_max_seq_len := max_seq_len; sc_store_dtype := sc_store_dtype c; sc_start := start; sc_keep := sc_keep c |}.

Definition sc_slide_beyond (keep : option nat) (c : SeqCache) : SeqCache :=
  {| sc_all_data := sc_all_data c; sc_dim := sc_dim c; sc_current_seq_len := sc_current_seq_len c;
     sc_grow_by := sc_grow_by c; sc_max_seq_len := sc_max_seq_len c; sc_store_dtype := sc_store_dtype c;
     sc_start := sc_start c; sc_keep := keep |}.

Definition sc_set_store_dtype (d : option DType) (c : SeqCache) : SeqCache :=
  {| sc_all_data := sc_all_data c; sc_dim := sc_dim c; sc_current_seq_len := sc_current_seq_len c;
     sc_grow_by := sc_grow_by c; sc_max_seq_len := sc_max_seq_len c; sc_store_dtype := d;
     sc_start := sc_start c; sc_keep := sc_keep c |}.

Definition sc_begin_at (position : nat) (c : SeqCache) : SeqCache :=
  if (sc_current_seq_len c =? sc_start c)%nat
  then sc_with c (sc_all_data c) position (sc_max_seq_len c) position else c.

Definition sc_cap_first_allocation (positions : nat) (c : SeqCache) : SeqCache :=
  match sc_all_data c with
  | None => sc_with c None (sc_current_seq_len c) (Nat.max (Nat.min (sc_max_seq_len c) positions) 1) (sc_start c)
  | Some _ => c
  end.

Definition sc_dtype (c : SeqCache) : option DType :=
  match sc_all_data c with Some t => Some (t_dtype t) | None => sc_store_dtype c end.

(** The positions held, as a view; [None] before the first append. *)
Definition sc_current_data (c : SeqCache) : option (option Tensor) :=
  match sc_all_data c with
  | None => Some None
  | Some d => Some <$> narrow d 0 (sc_held c)
  end.

Definition sc_reset (c : SeqCache) : SeqCache := sc_with c None 0 (sc_max_seq_len c) 0.

Definition sc_truncate (len : nat) (c : SeqCache) : SeqCache :=
  sc_with c (sc_all_data c) (Nat.max (Nat.min (sc_current_seq_len c) len) (sc_start c)) (sc_max_seq_len c) (sc_start c).

Definition growth_step (keep : option nat) (grow_by buffer needed : nat) : nat :=
  match keep with
  | Some keep => Nat.min grow_by (Nat.max (keep + grow_by) needed - buffer)
  | None => grow_by
  end.

(** The buffer an append begins with: the one held, or a first one. *)
Definition first_buffer (c : SeqCache) (src : Tensor) (answers : list bool) : bool * SeqCache * list bool :=
  match sc_all_data c with
  | Some _ => (true, c, answers)
  | None =>
      let '(ok, answers) := ask answers in
      if ok then
        let dtype := default (t_dtype src) (sc_dtype c) in
        (true, sc_with c (Some (zeros_like src dtype (sc_max_seq_len c))) (sc_current_seq_len c) (sc_max_seq_len c) (sc_start c),
         answers)
      else (false, c, answers)
  end.

(** A full windowed buffer moves its newest positions to the front. *)
Definition slide (c : SeqCache) (seq_len : nat) (answers : list bool) : bool * SeqCache * list bool :=
  match sc_keep c, sc_all_data c with
  | Some keep, Some ad =>
      let held := sc_held c in
      if (sc_max_seq_len c <? held + seq_len)%nat && (keep <? held)%nat then
        let '(ok, answers) := ask answers in
        match (if ok then narrow ad (held - keep) keep else None) with
        | None => (false, c, answers)
        | Some newest =>
            let '(ok, answers) := ask answers in
            match (if ok then write_into ad newest 0 else None) with
            | None => (false, c, answers)
            | Some ad => (true, sc_with c (Some ad) (sc_current_seq_len c) (sc_max_seq_len c) (sc_current_seq_len c - keep), answers)
            end
        end
      else (true, c, answers)
  | _, _ => (true, c, answers)
  end.

(** [while needed > self.max_seq_len]: each step makes and joins a further buffer. *)
Fixpoint grow (fuel needed : nat) (src : Tensor) (dtype : DType) (c : SeqCache) (answers : list bool)
  : bool * SeqCache * list bool :=
  if (needed <=? sc_max_seq_len c)%nat then (true, c, answers)
  else match fuel, sc_all_data c with
       | S fuel, Some ad =>
           let step := growth_step (sc_keep c) (sc_grow_by c) (sc_max_seq_len c) needed in
           let '(ok, answers) := ask answers in
           if ok then
             let '(ok, answers) := ask answers in
             if ok then
               grow fuel needed src dtype
                 (sc_with c (Some (cat ad (zeros_like src dtype step))) (sc_current_seq_len c) (sc_max_seq_len c + step) (sc_start c))
                 answers
             else (false, c, answers)
           else (false, c, answers)
       | _, _ => (false, c, answers)
       end.

Definition sc_append (src : Tensor) (c : SeqCache) (answers : list bool) : bool * SeqCache * list bool :=
  let seq_len := t_len src in
  let dtype := default (t_dtype src) (sc_dtype c) in
  let '(ok, c, answers) := first_buffer c src answers in
  if negb ok then (false, c, answers) else
  let '(ok, c, answers) := slide c seq_len answers in
  if negb ok then (false, c, answers) else
  let needed := (sc_held c + seq_len)%nat in
  let '(ok, c, answers) := grow needed needed src dtype c answers in
  if negb ok then (false, c, answers) else
  let '(ok, answers) := ask answers in
  if negb ok then (false, c, answers) else
  let '(ok, answers) := ask answers in
  match sc_all_data c with
  | Some ad =>
      match (if ok then write_into ad src (sc_held c) else None) with
      | Some ad => (true, sc_with c (Some ad) (sc_current_seq_len c + seq_len) (sc_max_seq_len c) (sc_start c), answers)
      | None => (false, c, answers)
      end
  | None => (false, c, answers)
  end.

Fixpoint grown_buffer (fuel : nat) (keep : option nat) (grow_by needed buffer : nat) : nat :=
  if (needed <=? buffer)%nat then buffer
  else match fuel with
       | S fuel => grown_buffer fuel keep grow_by needed (buffer + growth_step keep grow_by buffer needed)
       | O => buffer
       end.

Definition positions_added_holding (c : SeqCache) (held seq_len : nat) : nat :=
  let needed := match sc_keep c with
    | Some keep => if (sc_max_seq_len c <? held + seq_len)%nat && (keep <? held)%nat then (keep + seq_len)%nat else (held + seq_len)%nat
    | None => (held + seq_len)%nat
    end in
  let buffer := grown_buffer needed (sc_keep c) (sc_grow_by c) needed (sc_max_seq_len c) in
  let first := match sc_all_data c with None => sc_max_seq_len c | Some _ => 0%nat end in
  (first + buffer - sc_max_seq_len c)%nat.

Definition positions_added_by (c : SeqCache) (index_pos seq_len : nat) : nat :=
  let held := if (index_pos =? 0)%nat then 0%nat else sc_held c in
  positions_added_holding c held seq_len.
End seq_cache.

(** ** Windows *)

Definition WINDOW_REWIND_POSITIONS : nat := 64.
Definition positions_kept_for_window (window : nat) : nat := (window - 1 + WINDOW_REWIND_POSITIONS)%nat.
Definition most_positions_a_window_holds (window quantum widest_forward : nat) : nat :=
  (positions_kept_for_window window + Nat.max (Nat.max quantum widest_forward) 1)%nat.

Inductive KvStorage : Type := StoreF32 | F32Mirrored | StoreF16.
#[global] Instance kv_storage_eq_dec : EqDecision KvStorage.
Proof. solve_decision. Defined.

Definition bytes_per_element (s : KvStorage) : Z :=
  match s with StoreF32 => 4 | F32Mirrored => 6 | StoreF16 => 2 end.

(** [windowed] is the process's [SWARMLLM_KV_WINDOW_SLIDE]. *)
Definition caches_slide (windowed mirrored : bool) : bool := windowed && negb mirrored.
Definition window_kept (windowed : bool) (window : option nat) (storage : KvStorage) : option nat :=
  match window with Some w => if caches_slide windowed (bool_decide (storage = F32Mirrored)) then Some w else None | None => None end.
Definition window_kept_where (window : option nat) (storage : KvStorage) (slides : bool) : option nat :=
  match window with Some w => if slides && negb (bool_decide (storage = F32Mirrored)) then Some w else None | None => None end.
Record CacheLayout : Type := { cl_storage : KvStorage; cl_window : option nat }.

(** ** What the buffer holds *)

Section seq_cache_facts.
Context `{Candle}.

Record sc_ok (c : SeqCache) : Prop := {
  ok_grow : (1 <= sc_grow_by c)%nat;
  ok_start : (sc_start c <= sc_current_seq_len c)%nat;
  ok_buffer : match sc_all_data c with
    | None => sc_current_seq_len c = sc_start c
    | Some ad => t_len ad = sc_max_seq_len c /\ (sc_held c <= sc_max_seq_len c)%nat
    end }.

(** The rows of the positions held. *)
Definition sc_view (c : SeqCache) : list Row :=
  match sc_all_data c with None => [] | Some ad => take (sc_held c) (t_rows ad) end.

Lemma sc_view_length c : sc_ok c -> length (sc_view c) = sc_held c.
Proof.
  intros [_ Hs Hb]. unfold sc_view. destruct (sc_all_data c) as [ad|].
  - destruct Hb as [Hl Hh]. unfold t_len in Hl. rewrite length_take. lia.
  - unfold sc_held. cbn. lia.
Qed.

Lemma sc_current_data_view c : sc_ok c ->
  match sc_current_data c with
  | Some None => sc_all_data c = None
  | Some (Some t) => t_rows t = sc_view c /\ exists ad, sc_all_data c = Some ad /\ t_dtype t = t_dtype ad
  | None => False
  end.
Proof.
  intros [_ Hs Hb]. unfold sc_current_data, sc_view. destruct (sc_all_data c) as [ad|]; [|done].
  destruct Hb as [Hl Hh]. unfold narrow. rewrite (proj2 (Nat.leb_le _ _)) by lia. cbn. eauto.
Qed.

Lemma seq_with_capacity_ok dim initial grow_by : sc_ok (seq_with_capacity dim initial grow_by).
Proof. split; cbn; lia. Qed.
Lemma sc_slide_beyond_ok keep c : sc_ok c -> sc_ok (sc_slide_beyond keep c).
Proof. by intros [? ? ?]; split. Qed.
Lemma sc_set_store_dtype_ok d c : sc_ok c -> sc_ok (sc_set_store_dtype d c).
Proof. by intros [? ? ?]; split. Qed.
Lemma sc_reset_ok c : sc_ok c -> sc_ok (sc_reset c).
Proof. intros [? ? ?]; split; cbn; lia. Qed.
Lemma sc_begin_at_ok p c : sc_ok c -> sc_ok (sc_begin_at p c).
Proof.
  intros [Hg Hs Hb]. unfold sc_begin_at. destruct (Nat.eqb_spec (sc_current_seq_len c) (sc_start c)); [|done].
  split; cbn; [done|lia|]. destruct (sc_all_data c); [|done]. unfold sc_held. cbn. lia.
Qed.
Lemma sc_cap_first_allocation_ok n c : sc_ok c -> sc_ok (sc_cap_first_allocation n c).
Proof.
  intros [Hg Hs Hb]. unfold sc_cap_first_allocation. destruct (sc_all_data c) eqn:E; [split; try done; by rewrite E|].
  split; cbn; try done.
Qed.

Lemma sc_truncate_ok len c : sc_ok c -> sc_ok (sc_truncate len c).
Proof.
  intros [Hg Hs Hb]. split; cbn; [done|lia|]. destruct (sc_all_data c); unfold sc_held in *; cbn in *; [|lia].
  destruct Hb. split; [done|lia].
Qed.

Lemma sc_truncate_view len c : sc_ok c -> sc_view (sc_truncate len c) = take (len - sc_start c) (sc_view c).
Proof.
  intros [Hg Hs Hb]. unfold sc_view, sc_truncate. cbn. destruct (sc_all_data c); [|by rewrite take_nil].
  rewrite take_take. f_equal. unfold sc_held. cbn. lia.
Qed.

(** *** The parts of an append *)

Lemma first_buffer_spec c src answers : sc_ok c ->
  let '(ok, c', answers') := first_buffer c src answers in
  sc_ok c' /\ sc_view c' = sc_view c /\ sc_current_seq_len c' = sc_current_seq_len c /\ sc_start c' = sc_start c /\
  sc_keep c' = sc_keep c /\ sc_grow_by c' = sc_grow_by c /\ sc_max_seq_len c' = sc_max_seq_len c /\
  if ok then exists ad, sc_all_data c' = Some ad /\ t_dtype ad = default (t_dtype src) (sc_dtype c) else c' = c.
Proof.
  intros Hok. unfold first_buffer. destruct (sc_all_data c) as [ad|] eqn:Ed.
  - split_and!; try done. exists ad. unfold sc_dtype. by rewrite Ed.
  - destruct (ask answers) as [[|] answers']; [|done]. destruct Hok as [Hg Hs Hb]. rewrite Ed in Hb.
    unfold sc_with, sc_view, sc_held. cbn. rewrite Ed. split_and!; try done.
    + split; cbn; try done. unfold t_len, sc_held. cbn. rewrite length_replicate. lia.
    + rewrite Hb, Nat.sub_diag. done.
    + eexists. split; [done|]. cbn. unfold sc_dtype. by rewrite Ed.
Qed.

Lemma write_into_rows buffer src offset : (offset + t_len src <= t_len buffer)%nat ->
  exists t, write_into buffer src offset = Some t /\ t_dtype t = t_dtype buffer /\ t_len t = t_len buffer /\
    take (offset + t_len src) (t_rows t) = take offset (t_rows buffer) ++ t_rows (to_dtype (t_dtype buffer) src).
Proof.
  intros Hle. unfold write_into. rewrite (proj2 (Nat.leb_le _ _)) by done. eexists. split; [done|]. cbn.
  assert (Hlen : length (t_rows (to_dtype (t_dtype buffer) src)) = t_len src).
  { unfold to_dtype. case_decide; [done|]. cbn. by rewrite length_fmap. }
  unfold t_len in *. cbn. rewrite !length_app, length_take, length_drop, Hlen. split_and!; [done|lia|].
  rewrite app_assoc, take_app_le by (rewrite length_app, length_take, Hlen; lia).
  rewrite take_ge; [done|]. rewrite length_app, length_take, Hlen. lia.
Qed.

Lemma to_dtype_id t : to_dtype (t_dtype t) t = t.
Proof. unfold to_dtype. by rewrite decide_True. Qed.

Lemma slide_spec c seq_len answers ad : sc_ok c -> sc_all_data c = Some ad ->
  let '(ok, c', answers') := slide c seq_len answers in
  sc_ok c' /\ sc_current_seq_len c' = sc_current_seq_len c /\ sc_keep c' = sc_keep c /\ sc_grow_by c' = sc_grow_by c /\
  sc_max_seq_len c' = sc_max_seq_len c /\ (exists ad', sc_all_data c' = Some ad' /\ t_dtype ad' = t_dtype ad) /\
  exists d, sc_view c' = drop d (sc_view c) /\ sc_start c' = (sc_start c + d)%nat /\
    (d = 0%nat \/ exists keep, sc_keep c = Some keep /\ d = (sc_held c - keep)%nat /\ (keep < sc_held c)%nat) /\
    (ok = true -> sc_held c' = match sc_keep c with
       | Some keep => if (sc_max_seq_len c <? sc_held c + seq_len)%nat && (keep <? sc_held c)%nat then keep else sc_held c
       | None => sc_held c end).
Proof.
  intros Hok Ed.
  assert (Hsame : sc_ok c /\ sc_current_seq_len c = sc_current_seq_len c /\ sc_keep c = sc_keep c /\ sc_grow_by c = sc_grow_by c /\
    sc_max_seq_len c = sc_max_seq_len c /\ (exists ad', sc_all_data c = Some ad' /\ t_dtype ad' = t_dtype ad) /\
    exists d, sc_view c = drop d (sc_view c) /\ sc_start c = (sc_start c + d)%nat /\
    (d = 0%nat \/ exists keep, sc_keep c = Some keep /\ d = (sc_held c - keep)%nat /\ (keep < sc_held c)%nat)).
  { split_and!; try done; [eauto|]. exists 0%nat. split_and!; [done|lia|by left]. }
  unfold slide. rewrite Ed. destruct (sc_keep c) as [keep|] eqn:Ek.
  2: { destruct Hsame as (? & ? & ? & ? & ? & ? & d & ? & ? & ?). split_and!; try done. by exists d. }
  destruct ((_ <? _)%nat && (_ <? _)%nat) eqn:Hc.
  2: { destruct Hsame as (? & ? & ? & ? & ? & ? & d & ? & ? & ?). split_and!; try done. by exists d. }
  apply andb_true_iff in Hc as [H1%Nat.ltb_lt H2%Nat.ltb_lt].
  pose proof Hok as [Hg Hs Hb]. rewrite Ed in Hb. destruct Hb as [Hl Hh].
  destruct (ask answers) as [ok1 answers1].
  destruct (if ok1 then narrow ad (sc_held c - keep) keep else None) as [newest|] eqn:En.
  2: { destruct Hsame as (? & ? & ? & ? & ? & ? & d & ? & ? & ?). split_and!; try done. exists d. by split_and!. }
  destruct ok1; [|done]. unfold narrow in En. rewrite (proj2 (Nat.leb_le _ _)) in En by lia. injection En as <-.
  set (newest := {| t_dtype := _; t_device := _; t_elems := _; t_rows := _ |}).
  assert (Hnl : t_len newest = keep).
  { unfold t_len, newest. cbn. unfold t_len in Hl. rewrite length_take, length_drop. lia. }
  destruct (ask answers1) as [ok2 answers2].
  destruct (write_into_rows ad newest 0) as (ad' & Ew & Edt & Elen & Erows); [lia|].
  destruct ok2; cbn.
  2: { destruct Hsame as (? & ? & ? & ? & ? & ? & d & ? & ? & ?). split_and!; try done. exists d. by split_and!. }
  rewrite Ew. split_and!; try done; cbn.
  - split; unfold sc_held in *; cbn; [done|lia|]. lia.
  - eauto.
  - exists (sc_held c - keep)%nat. unfold sc_held in *. cbn. split_and!; [|lia|right; eauto|intros _; lia].
    unfold sc_view, sc_held. cbn. rewrite Ed.
    replace (sc_current_seq_len c - (sc_current_seq_len c - keep))%nat with keep by lia.
    rewrite Hnl in Erows. cbn in Erows. rewrite Erows. change (t_dtype ad) with (t_dtype newest). rewrite to_dtype_id.
    unfold newest. cbn [t_rows]. rewrite skipn_firstn_comm. rewrite take_0, app_nil_l. f_equal. unfold sc_held in H2. lia.
Qed.

Lemma growth_step_pos keep grow_by buffer needed : (1 <= grow_by)%nat -> (buffer < needed)%nat ->
  (1 <= growth_step keep grow_by buffer needed)%nat.
Proof. intros. unfold growth_step. destruct keep; lia. Qed.

Lemma grow_spec fuel needed src dtype c answers ad : sc_ok c -> sc_all_data c = Some ad ->
  (needed - sc_max_seq_len c <= fuel)%nat ->
  let '(ok, c', answers') := grow fuel needed src dtype c answers in
  sc_ok c' /\ sc_view c' = sc_view c /\ sc_current_seq_len c' = sc_current_seq_len c /\ sc_start c' = sc_start c /\
  sc_keep c' = sc_keep c /\ sc_grow_by c' = sc_grow_by c /\ (exists ad', sc_all_data c' = Some ad' /\ t_dtype ad' = t_dtype ad) /\
  (sc_max_seq_len c <= sc_max_seq_len c' <= grown_buffer fuel (sc_keep c) (sc_grow_by c) needed (sc_max_seq_len c))%nat /\
  (ok = true -> (needed <= sc_max_seq_len c')%nat /\
    sc_max_seq_len c' = grown_buffer fuel (sc_keep c) (sc_grow_by c) needed (sc_max_seq_len c)).
Proof.
  revert c answers ad. induction fuel as [|fuel IH]; intros c answers ad Hok Ed Hf; cbn [grow grown_buffer].
  - rewrite (proj2 (Nat.leb_le _ _)) by lia. split_and!; try (done || lia); eauto.
  - destruct (Nat.leb_spec needed (sc_max_seq_len c)) as [Hle|Hlt]; [split_and!; try (done || lia); eauto|].
    rewrite Ed. set (step := growth_step _ _ _ _).
    assert (Hstep : (1 <= step)%nat) by (apply growth_step_pos; [apply Hok|done]).
    set (c1 := sc_with c _ _ _ _).
    assert (Hmono : forall b, (b <= grown_buffer fuel (sc_keep c) (sc_grow_by c) needed b)%nat).
    { clear. induction fuel; intros b; cbn; destruct (needed <=? b)%nat; try lia. specialize (IHfuel (b + growth_step (sc_keep c) (sc_grow_by c) b needed)%nat). lia. }
    assert (Hfail : sc_ok c /\ sc_view c = sc_view c /\ sc_current_seq_len c = sc_current_seq_len c /\ sc_start c = sc_start c /\
      sc_keep c = sc_keep c /\ sc_grow_by c = sc_grow_by c /\ (exists ad', sc_all_data c = Some ad' /\ t_dtype ad' = t_dtype ad) /\
      (sc_max_seq_len c <= sc_max_seq_len c <= grown_buffer fuel (sc_keep c) (sc_grow_by c) needed (sc_max_seq_len c + step))%nat).
    { specialize (Hmono (sc_max_seq_len c + step)%nat). split_and!; try done; [eauto|lia]. }
    destruct (ask answers) as [[|] answers1]; [|split_and!; try apply Hfail; done].
    destruct (ask answers1) as [[|] answers2]; [|split_and!; try apply Hfail; done].
    destruct Hok as [Hg Hs Hb]. rewrite Ed in Hb. destruct Hb as [Hl Hh].
    assert (Hok1 : sc_ok c1).
    { split; unfold c1, sc_with, sc_held in *; cbn; [done|lia|]. unfold t_len, cat in *. cbn. rewrite length_app, length_replicate. lia. }
    specialize (IH c1 answers2 (cat ad (zeros_like src dtype step)) Hok1 eq_refl).
    destruct (grow fuel needed src dtype c1 answers2) as [[ok c'] answers'].
    destruct IH as (? & Hv & ? & ? & ? & ? & (ad' & Ea & Et) & [Hm1 Hm2] & Hfin); [unfold c1; cbn; lia|].
    unfold c1 in *. cbn in *. split_and!; try done; [|exists ad'; by rewrite Et|lia].
    rewrite Hv. unfold sc_view, sc_held. cbn. rewrite Ed. unfold sc_held, t_len in *.
    rewrite take_app_le by lia. done.
Qed.
Lemma grow_store fuel needed src dtype c answers :
  sc_store_dtype (grow fuel needed src dtype c answers).1.2 = sc_store_dtype c.
Proof.
  revert c answers. induction fuel as [|fuel IH]; intros c answers; cbn; destruct (needed <=? sc_max_seq_len c)%nat; try done.
  destruct (sc_all_data c); [|done]. destruct (ask answers) as [[|] a1]; [|done]. destruct (ask a1) as [[|] a2]; [|done].
  by rewrite IH.
Qed.

(** An append leaves the dtype of a fresh buffer as it was told. *)
Lemma sc_append_store src c answers ok c' answers' : sc_append src c answers = (ok, c', answers') ->
  sc_store_dtype c' = sc_store_dtype c.
Proof.
  unfold sc_append. intros E.
  assert (H1 : sc_store_dtype (first_buffer c src answers).1.2 = sc_store_dtype c).
  { unfold first_buffer. destruct (sc_all_data c); [done|]. by destruct (ask answers) as [[|] ?]. }
  destruct (first_buffer c src answers) as [[[|] c1] a1]; cbn [fst snd negb] in *; [|congruence].
  assert (H2 : sc_store_dtype (slide c1 (t_len src) a1).1.2 = sc_store_dtype c1).
  { unfold slide. destruct (sc_keep c1), (sc_all_data c1); try done. repeat case_match; done. }
  destruct (slide c1 (t_len src) a1) as [[[|] c2] a2]; cbn [fst snd negb] in *; [|congruence].
  pose proof (grow_store (sc_held c2 + t_len src) (sc_held c2 + t_len src) src (default (t_dtype src) (sc_dtype c)) c2 a2) as H3.
  destruct (grow _ _ _ _ c2 a2) as [[[|] c3] a3]; cbn [fst snd negb] in *; [|congruence].
  destruct (ask a3) as [[|] a4]; cbn [negb] in E; [|congruence]. destruct (ask a4) as [ok5 a5].
  destruct (sc_all_data c3); [|congruence]. destruct (if ok5 then _ else _); simplify_eq; cbn; congruence.
Qed.

Lemma grow_grow_by fuel needed src dtype c answers : sc_grow_by (grow fuel needed src dtype c answers).1.2 = sc_grow_by c.
Proof.
  revert c answers. induction fuel as [|fuel IH]; intros c answers; cbn; destruct (needed <=? sc_max_seq_len c)%nat; try done.
  destruct (sc_all_data c); [|done]. destruct (ask answers) as [[|] a1]; [|done]. destruct (ask a1) as [[|] a2]; [|done]. by rewrite IH.
Qed.

(** Nor does it change the quantum it grows by. *)
Lemma sc_append_grow_by src c answers ok c' answers' : sc_append src c answers = (ok, c', answers') -> sc_grow_by c' = sc_grow_by c.
Proof.
  unfold sc_append. intros E.
  assert (H1 : sc_grow_by (first_buffer c src answers).1.2 = sc_grow_by c) by (unfold first_buffer; destruct (sc_all_data c); [done|]; by destruct (ask answers) as [[|] ?]).
  destruct (first_buffer c src answers) as [[[|] c1] a1]; cbn [fst snd negb] in *; [|congruence].
  assert (H2 : sc_grow_by (slide c1 (t_len src) a1).1.2 = sc_grow_by c1) by (unfold slide; destruct (sc_keep c1), (sc_all_data c1); try done; repeat case_match; done).
  destruct (slide c1 (t_len src) a1) as [[[|] c2] a2]; cbn [fst snd negb] in *; [|congruence].
  pose proof (grow_grow_by (sc_held c2 + t_len src) (sc_held c2 + t_len src) src (default (t_dtype src) (sc_dtype c)) c2 a2) as H3.
  destruct (grow _ _ _ _ c2 a2) as [[[|] c3] a3]; cbn [fst snd negb] in *; [|congruence].
  destruct (ask a3) as [[|] a4]; cbn [negb] in E; [|congruence]. destruct (ask a4) as [ok5 a5].
  destruct (sc_all_data c3); [|congruence]. destruct (if ok5 then _ else _); simplify_eq; cbn; congruence.
Qed.

(** Positions allocated: the whole buffer, once there is one. *)
Definition sc_allocated (c : SeqCache) : nat := match sc_all_data c with None => 0%nat | Some _ => sc_max_seq_len c end.

(** How many of the oldest positions a full windowed buffer lets go of. *)
Definition slid_by (c : SeqCache) (seq_len : nat) : nat :=
  match sc_keep c with
  | Some keep => if (sc_max_seq_len c <? sc_held c + seq_len)%nat && (keep <? sc_held c)%nat then (sc_held c - keep)%nat else 0%nat
  | None => 0%nat
  end.

(** What an append leaves: the rows held, fewer of the oldest if the buffer slid, and
    then the new ones; without the new ones where a call failed. *)
Record appended (src : Tensor) (c : SeqCache) (ok : bool) (c' : SeqCache) (d : nat) : Prop := {
  ap_ok : sc_ok c';
  ap_keep : sc_keep c' = sc_keep c;
  ap_start : sc_start c' = (sc_start c + d)%nat;
  ap_slid : d = 0%nat \/ exists keep, sc_keep c = Some keep /\ d = (sc_held c - keep)%nat /\ (keep < sc_held c)%nat;
  ap_len : sc_current_seq_len c' = (sc_current_seq_len c + if ok then t_len src else 0)%nat;
  ap_view : sc_view c' = drop d (sc_view c) ++
    if ok then t_rows (to_dtype (default (t_dtype src) (sc_dtype c)) src) else [];
  ap_size : (sc_max_seq_len c <= sc_max_seq_len c' <=
    sc_max_seq_len c + positions_added_holding c (sc_held c) (t_len src) - match sc_all_data c with None => sc_max_seq_len c | Some _ => 0 end)%nat;
  ap_done : ok = true -> d = slid_by c (t_len src) /\ sc_grow_by c' = sc_grow_by c /\
    (exists ad, sc_all_data c' = Some ad /\ t_dtype ad = default (t_dtype src) (sc_dtype c)) /\
    sc_allocated c' = (sc_allocated c + positions_added_holding c (sc_held c) (t_len src))%nat }.

Lemma grown_buffer_mono fuel keep grow_by needed b : (b <= grown_buffer fuel keep grow_by needed b)%nat.
Proof.
  revert b. induction fuel as [|fuel IH]; intros b; cbn; destruct (needed <=? b)%nat; try lia.
  specialize (IH (b + growth_step keep grow_by b needed)%nat). lia.
Qed.

Lemma sc_append_spec src c answers : sc_ok c ->
  let '(ok, c', answers') := sc_append src c answers in exists d, appended src c ok c' d.
Proof.
  intros Hok. unfold sc_append.
  assert (Hfirst : (match sc_all_data c with None => sc_max_seq_len c | Some _ => 0 end <= positions_added_holding c (sc_held c) (t_len src))%nat).
  { unfold positions_added_holding. match goal with |- context [grown_buffer ?n ?k ?g ?m ?b] => pose proof (grown_buffer_mono n k g m b) end. destruct (sc_all_data c); lia. }
  pose proof (first_buffer_spec c src answers Hok) as H1. destruct (first_buffer c src answers) as [[ok1 c1] a1].
  destruct H1 as (Hok1 & Hv1 & Hl1 & Hs1 & Hk1 & Hg1 & Hm1 & Hr1).
  assert (Hh1 : sc_held c1 = sc_held c) by (unfold sc_held; by rewrite Hl1, Hs1).
  destruct ok1; cbn [negb].
  2: { subst c1. exists 0%nat. split; try (done || lia || by left). by rewrite app_nil_r. }
  destruct Hr1 as (ad1 & Ed1 & Et1).
  pose proof (slide_spec c1 (t_len src) a1 ad1 Hok1 Ed1) as H2. destruct (slide c1 (t_len src) a1) as [[ok2 c2] a2].
  destruct H2 as (Hok2 & Hl2 & Hk2 & Hg2 & Hm2 & (ad2 & Ed2 & Et2) & d & Hv2 & Hs2 & Hd & Hh2).
  rewrite Hv1 in Hv2. rewrite Hk1, Hh1 in Hd.
  assert (Hfail : forall c', sc_ok c' -> sc_keep c' = sc_keep c2 -> sc_start c' = sc_start c2 ->
    sc_current_seq_len c' = sc_current_seq_len c2 -> sc_view c' = sc_view c2 ->
    (sc_max_seq_len c <= sc_max_seq_len c' <= sc_max_seq_len c + positions_added_holding c (sc_held c) (t_len src) - match sc_all_data c with None => sc_max_seq_len c | Some _ => 0 end)%nat ->
    exists d, appended src c false c' d).
  { intros c' ? Hk Hs Hl Hv Hm. exists d. split; try (done || lia || congruence). by rewrite Hv, Hv2, app_nil_r. }
  destruct ok2; cbn [negb]; [|apply Hfail; try done; lia].
  specialize (Hh2 eq_refl). rewrite Hk1, Hm1, Hh1 in Hh2.
  set (needed := (sc_held c2 + t_len src)%nat).
  pose proof (grow_spec needed needed src (default (t_dtype src) (sc_dtype c)) c2 a2 ad2 Hok2 Ed2 ltac:(lia)) as H3.
  destruct (grow needed needed src _ c2 a2) as [[ok3 c3] a3].
  destruct H3 as (Hok3 & Hv3 & Hl3 & Hs3 & Hk3 & Hg3 & (ad3 & Ed3 & Et3) & Hmm & Hfin).
  assert (Hadd : (grown_buffer needed (sc_keep c2) (sc_grow_by c2) needed (sc_max_seq_len c2) =
    sc_max_seq_len c + positions_added_holding c (sc_held c) (t_len src)
    - match sc_all_data c with None => sc_max_seq_len c | Some _ => 0 end)%nat).
  { unfold positions_added_holding. rewrite Hk2, Hg2, Hm2, Hk1, Hg1, Hm1.
    assert (Hneed : needed = match sc_keep c with
      | Some keep => if (sc_max_seq_len c <? sc_held c + t_len src)%nat && (keep <? sc_held c)%nat
                     then (keep + t_len src)%nat else (sc_held c + t_len src)%nat
      | None => (sc_held c + t_len src)%nat end).
    { unfold needed. rewrite Hh2. destruct (sc_keep c) as [k|]; [|done]. by destruct (_ && _). }
    rewrite <- Hneed. pose proof (grown_buffer_mono needed (sc_keep c) (sc_grow_by c) needed (sc_max_seq_len c)).
    destruct (sc_all_data c); lia. }
  destruct ok3; cbn [negb]; [|apply Hfail; try done; destruct (sc_all_data c); lia].
  destruct (Hfin eq_refl) as [Hle Hmax].
  destruct (ask a3) as [[|] a4]; cbn [negb]; [|apply Hfail; try done; destruct (sc_all_data c); lia].
  destruct (ask a4) as [ok5 a5]. rewrite Ed3.
  assert (Hlen3 : t_len ad3 = sc_max_seq_len c3) by (destruct Hok3 as [_ _ Hb]; rewrite Ed3 in Hb; apply Hb).
  assert (Hh3 : sc_held c3 = sc_held c2) by (unfold sc_held; by rewrite Hl3, Hs3).
  destruct (write_into_rows ad3 src (sc_held c3)) as (ad4 & Ew & Et4 & Elen4 & Erows); [unfold needed in *; lia|].
  destruct ok5; [|apply Hfail; try done; destruct (sc_all_data c); lia]. rewrite Ew. exists d.
  assert (Edt : t_dtype ad3 = default (t_dtype src) (sc_dtype c)) by congruence.
  split.
  - destruct Hok3 as [Hg3' Hs3' _]. split; unfold sc_held; cbn; [done|lia|].
    split; [lia|]. unfold needed in Hle. rewrite <- Hh3 in Hle. unfold sc_held in Hle. lia.
  - cbn. congruence.
  - cbn. lia.
  - done.
  - cbn. lia.
  - unfold sc_view at 1. unfold sc_held. cbn.
    replace (sc_current_seq_len c3 + t_len src - sc_start c3)%nat with (sc_held c3 + t_len src)%nat.
    2: { unfold sc_held. destruct Hok3 as [_ ? _]. lia. }
    rewrite Erows, Edt, <- Hv2, <- Hv3. unfold sc_view at 1. by rewrite Ed3.
  - cbn. destruct (sc_all_data c); lia.
  - intros _. split_and!; [|cbn; congruence|exists ad4; by rewrite Et4|].
    + unfold slid_by. unfold sc_held in Hh2 |- *. rewrite Hl2, Hs2, Hl1, Hs1 in Hh2.
      pose proof (ok_start _ Hok2) as Hso. rewrite Hl2, Hs2, Hl1, Hs1 in Hso.
      destruct (sc_keep c) as [keep|]; [|lia]. destruct ((_ <? _)%nat && (_ <? _)%nat) eqn:Ec; [|lia].
      apply andb_true_iff in Ec as [_ ?%Nat.ltb_lt]. lia.
    + unfold sc_allocated at 1. cbn. rewrite Hmax, Hadd. unfold sc_allocated. destruct (sc_all_data c); lia.
Qed.

(** Whether or not it succeeds, an append keeps the dtype of a buffer there is. *)
Lemma sc_append_data src c answers ok c' answers' ad : sc_ok c -> sc_all_data c = Some ad -> sc_append src c answers = (ok, c', answers') ->
  exists ad', sc_all_data c' = Some ad' /\ t_dtype ad' = t_dtype ad.
Proof.
  intros Hok Hd E. unfold sc_append in E. unfold first_buffer in E. rewrite Hd in E. cbn [negb] in E.
  pose proof (slide_spec c (t_len src) answers ad Hok Hd) as H2. destruct (slide c (t_len src) answers) as [[ok2 c2] a2].
  destruct H2 as (Hok2 & _ & _ & _ & _ & (ad2 & Ed2 & Et2) & _).
  destruct ok2; cbn [negb] in E; [|simplify_eq; eauto].
  pose proof (grow_spec (sc_held c2 + t_len src) (sc_held c2 + t_len src) src (default (t_dtype src) (sc_dtype c)) c2 a2 ad2 Hok2 Ed2 ltac:(lia)) as H3.
  destruct (grow _ _ _ _ c2 a2) as [[ok3 c3] a3]. destruct H3 as (_ & _ & _ & _ & _ & _ & (ad3 & Ed3 & Et3) & _).
  assert (Hsame : exists ad', sc_all_data c3 = Some ad' /\ t_dtype ad' = t_dtype ad) by (exists ad3; split; congruence).
  destruct ok3; cbn [negb] in E; [|by simplify_eq]. destruct (ask a3) as [[|] a4]; cbn [negb] in E; [|by simplify_eq].
  destruct (ask a4) as [ok5 a5]. rewrite Ed3 in E. destruct (if ok5 then _ else _) as [ad4|] eqn:Ew; [|by simplify_eq]. simplify_eq. cbn. exists ad4. split; [done|]. destruct ok5; [|done]. unfold write_into in Ew. destruct (_ <=? _)%nat; [|done]. simplify_eq. cbn. congruence.
Qed.
End seq_cache_facts.

(** ** [KvPair] *)

Record KvPair `{Candle} : Type := { kp_k : SeqCache; kp_v : SeqCache }.
Arguments Build_KvPair {_} _ _.

Section kv_pair.
Context `{Candle}.

Definition pair_with_capacity (dim initial grow_by : nat) : KvPair :=
  {| kp_k := seq_with_capacity dim initial grow_by; kp_v := seq_with_capacity dim initial grow_by |}.
Definition pair_with_capacity_in (dim initial grow_by : nat) (dtype : option DType) : KvPair :=
  let pair := pair_with_capacity dim initial grow_by in
  {| kp_k := sc_set_store_dtype dtype (kp_k pair); kp_v := sc_set_store_dtype dtype (kp_v pair) |}.

(** What [append] answers with for one of the two: the view, or no positions. *)
Definition answer_with (c : SeqCache) (src : Tensor) (answers : list bool) : option Tensor * list bool :=
  match sc_current_data c with
  | None => (None, answers)
  | Some (Some t) => (Some t, answers)
  | Some None => let '(ok, answers) := ask answers in
                 (if ok then Some (zeros_like src (t_dtype src) 0) else None, answers)
  end.

Definition pair_append (k v : Tensor) (p : KvPair) (answers : list bool)
  : option (Tensor * Tensor) * KvPair * list bool :=
  let '(ok, ck, answers) := sc_append k (kp_k p) answers in
  if negb ok then (None, {| kp_k := ck; kp_v := kp_v p |}, answers) else
  let '(ok, cv, answers) := sc_append v (kp_v p) answers in
  let p := {| kp_k := ck; kp_v := cv |} in
  if negb ok then (None, p, answers) else
  let '(out_k, answers) := answer_with ck k answers in
  match out_k with
  | None => (None, p, answers)
  | Some out_k =>
      let '(out_v, answers) := answer_with cv v answers in
      match out_v with None => (None, p, answers) | Some out_v => (Some (out_k, out_v), p, answers) end
  end.

Definition pair_current_seq_len (p : KvPair) : nat := sc_current_seq_len (kp_k p).
Definition pair_map (f : SeqCache -> SeqCache) (p : KvPair) : KvPair := {| kp_k := f (kp_k p); kp_v := f (kp_v p) |}.
Definition pair_reset : KvPair -> KvPair := pair_map sc_reset.
Definition pair_truncate (len : nat) : KvPair -> KvPair := pair_map (sc_truncate len).
Definition pair_slide_beyond (keep : option nat) : KvPair -> KvPair := pair_map (sc_slide_beyond keep).
Definition pair_begin_at (position : nat) : KvPair -> KvPair := pair_map (sc_begin_at position).
Definition pair_cap_first_allocation (positions : nat) : KvPair -> KvPair := pair_map (sc_cap_first_allocation positions).
End kv_pair.

(** ** [LayerKv] *)

Record LayerKv `{Candle} : Type := {
  lk_main : KvPair;
  lk_shadow : option KvPair;
  lk_growth : nat;
  lk_initial : nat;
  lk_mirrorable : bool;
  lk_window : option nat }.
Arguments Build_LayerKv {_} _ _ _ _ _ _.

Section layer_kv.
Context `{Candle}.
(** The process's switches: do windowed caches slide, does a one-position append leave
    the mirror behind, and is a mirror kept for tensors on this device. *)
Context (windowed mirror_is_lazy : bool) (wants_shadow : Tensor -> bool).

Definition layer_with_capacity (dim initial growth : nat) : LayerKv :=
  {| lk_main := pair_with_capacity dim initial growth; lk_shadow := None; lk_growth := growth; lk_initial := initial;
     lk_mirrorable := (dim =? 2)%nat; lk_window := None |}.

Definition layer_with_storage (dim initial growth : nat) (storage : KvStorage) : LayerKv :=
  let '(dtype, mirrorable) := match storage with
    | StoreF16 => (F16, false) | StoreF32 => (F32, false) | F32Mirrored => (F32, (dim =? 2)%nat) end in
  {| lk_main := pair_with_capacity_in dim initial growth (Some dtype); lk_shadow := None; lk_growth := growth;
     lk_initial := initial; lk_mirrorable := mirrorable; lk_window := None |}.

Definition lk_with (l : LayerKv) (main : KvPair) (shadow : option KvPair) : LayerKv :=
  {| lk_main := main; lk_shadow := shadow; lk_growth := lk_growth l; lk_initial := lk_initial l;
     lk_mirrorable := lk_mirrorable l; lk_window := lk_window l |}.

Definition lk_slide_beyond (window : option nat) (l : LayerKv) : LayerKv :=
  let window := match window with Some w => if caches_slide windowed (lk_mirrorable l) then Some w else None | None => None end in
  let keep := positions_kept_for_window <$> window in
  let main := pair_slide_beyond keep (lk_main l) in
  match keep with
  | Some keep =>
      let born := (keep + lk_growth l)%nat in
      {| lk_main := pair_cap_first_allocation born main; lk_shadow := lk_shadow l; lk_growth := lk_growth l;
         lk_initial := Nat.min (lk_initial l) born; lk_mirrorable := lk_mirrorable l; lk_window := window |}
  | None =>
      {| lk_main := main; lk_shadow := lk_shadow l; lk_growth := lk_growth l; lk_initial := lk_initial l;
         lk_mirrorable := lk_mirrorable l; lk_window := window |}
  end.

Definition lk_held_from (l : LayerKv) : nat := sc_held_from (kp_k (lk_main l)).
Definition lk_current_seq_len (l : LayerKv) : nat := pair_current_seq_len (lk_main l).

Definition lk_serves_from (l : LayerKv) : nat :=
  match lk_held_from l, lk_window l with
  | O, _ => 0%nat
  | from, Some window => (from + window - 1)%nat
  | from, None => from
  end.
Definition can_truncate_to (l : LayerKv) (len : nat) : bool :=
  (lk_current_seq_len l <=? len)%nat || (lk_serves_from l <=? len)%nat.

Definition lk_begin_at (position : nat) (l : LayerKv) : LayerKv :=
  lk_with l (pair_begin_at position (lk_main l)) (lk_shadow l).

Definition holds_half (l : LayerKv) : bool := bool_decide (sc_dtype (kp_k (lk_main l)) = Some F16).

Definition convert_main (dtype : DType) (l : LayerKv) (answers : list bool) : bool * LayerKv * list bool :=
  let kc := kp_k (lk_main l) in
  let fresh := pair_with_capacity_in (sc_dim kc) (sc_max_seq_len kc) (lk_growth l) (Some dtype) in
  match sc_all_data kc with
  | None => (true, lk_with l fresh (lk_shadow l), answers)
  | Some _ =>
      if bool_decide (sc_dtype kc = Some dtype)
      then (true, lk_with l (pair_map (sc_set_store_dtype (Some dtype)) (lk_main l)) (lk_shadow l), answers)
      else
        match sc_current_data kc, sc_current_data (kp_v (lk_main l)) with
        | Some k, Some v =>
            let converted := pair_slide_beyond (positions_kept_for_window <$> lk_window l) (pair_begin_at (lk_held_from l) fresh) in
            match k, v with
            | Some k, Some v =>
                if (0 <? t_len k)%nat then
                  let '(out, converted, answers) := pair_append k v converted answers in
                  match out with
                  | Some _ => (true, lk_with l converted (lk_shadow l), answers)
                  | None => (false, l, answers)
                  end
                else (true, lk_with l converted (lk_shadow l), answers)
            | _, _ => (true, lk_with l converted (lk_shadow l), answers)
            end
        | _, _ => (false, l, answers)
        end
  end.

Definition lk_unmirrored (l : LayerKv) : LayerKv :=
  {| lk_main := lk_main l; lk_shadow := None; lk_growth := lk_growth l; lk_initial := lk_initial l;
     lk_mirrorable := false; lk_window := lk_window l |}.
Definition conform_to (storage : KvStorage) (l : LayerKv) (answers : list bool) : bool * LayerKv * list bool :=
  match storage with
  | StoreF16 => convert_main F16 (lk_unmirrored l) answers
  | StoreF32 => convert_main F32 (lk_unmirrored l) answers
  | F32Mirrored => convert_main F32 l answers
  end.

(** [shadow.append(&to_bshd_f16(k)?, &to_bshd_f16(v)?)?]. *)
Definition mirror_rows (k v : Tensor) (shadow : KvPair) (answers : list bool) : bool * KvPair * list bool :=
  let '(ok, answers) := ask answers in
  if negb ok then (false, shadow, answers) else
  let '(ok, answers) := ask answers in
  if negb ok then (false, shadow, answers) else
  let '(out, shadow, answers) := pair_append (to_dtype F16 k) (to_dtype F16 v) shadow answers in
  (if out then true else false, shadow, answers).

(** The closure of [append] that brings the mirror level and adds the new positions. *)
Definition mirror_append (before : nat) (out : Tensor * Tensor) (k v : Tensor) (shadow : KvPair) (answers : list bool)
  : bool * KvPair * list bool :=
  let have := pair_current_seq_len shadow in
  if (have <? before)%nat then
    match narrow out.1 have (before - have), narrow out.2 have (before - have) with
    | Some k_lag, Some v_lag =>
        let '(ok, shadow, answers) := mirror_rows k_lag v_lag shadow answers in
        if ok then mirror_rows k v shadow answers else (false, shadow, answers)
    | _, _ => (false, shadow, answers)
    end
  else if (before <? have)%nat then mirror_rows k v (pair_truncate before shadow) answers
  else mirror_rows k v shadow answers.

Definition lk_append (k v : Tensor) (l : LayerKv) (answers : list bool) : option (Tensor * Tensor) * LayerKv * list bool :=
  let before := pair_current_seq_len (lk_main l) in
  let '(out, main, answers) := pair_append k v (lk_main l) answers in
  let l := lk_with l main (lk_shadow l) in
  match out with
  | None => (None, l, answers)
  | Some out =>
      if holds_half l then (Some out, l, answers)
      else if (pair_current_seq_len main =? before + 1)%nat && mirror_is_lazy then (Some out, l, answers)
      else
        let shadow := match lk_shadow l with
          | Some sh => Some sh
          | None => if lk_mirrorable l && (lk_held_from l =? 0)%nat && wants_shadow k
                    then Some (pair_with_capacity 1 (lk_initial l) (lk_growth l)) else None
          end in
        match shadow with
        | None => (Some out, l, answers)
        | Some sh =>
            let '(ok, sh, answers) := mirror_append before out k v sh answers in
            (Some out, lk_with l main (if ok then Some sh else None), answers)
        end
  end.

Definition catch_up_mirror (l : LayerKv) (answers : list bool) : LayerKv * list bool :=
  match lk_shadow l with
  | None => (l, answers)
  | Some shadow =>
      let have := pair_current_seq_len shadow in
      let len := pair_current_seq_len (lk_main l) in
      if (len <=? have)%nat then (l, answers)
      else
        match sc_current_data (kp_k (lk_main l)), sc_current_data (kp_v (lk_main l)) with
        | Some (Some k), Some (Some v) =>
            match narrow k have (len - have), narrow v have (len - have) with
            | Some k_lag, Some v_lag =>
                let '(ok, sh, answers) := mirror_rows k_lag v_lag shadow answers in
                (lk_with l (lk_main l) (if ok then Some sh else None), answers)
            | _, _ => (lk_with l (lk_main l) None, answers)
            end
        | Some _, Some _ => (l, answers)
        | _, _ => (lk_with l (lk_main l) None, answers)
        end
  end.

Definition lk_reset (l : LayerKv) : LayerKv := lk_with l (pair_reset (lk_main l)) (pair_reset <$> lk_shadow l).
Definition lk_truncate (len : nat) (l : LayerKv) : LayerKv :=
  lk_with l (pair_truncate len (lk_main l)) (pair_truncate len <$> lk_shadow l).

Definition all_caches (l : LayerKv) : list SeqCache :=
  [kp_k (lk_main l); kp_v (lk_main l)] ++ match lk_shadow l with Some sh => [kp_k sh; kp_v sh] | None => [] end.

Definition mirror_positions_added_by (l : LayerKv) (index_pos seq_len : nat) (k : Tensor) : nat :=
  if holds_half l || (seq_len =? 1)%nat && mirror_is_lazy then 0%nat
  else
    let held := if (index_pos =? 0)%nat then 0%nat else pair_current_seq_len (lk_main l) in
    match lk_shadow l with
    | Some shadow => positions_added_holding (kp_k shadow) held seq_len
    | None => if lk_mirrorable l && (lk_held_from l =? 0)%nat && wants_shadow k
              then positions_added_holding (seq_with_capacity 1 (lk_initial l) (lk_growth l)) held seq_len else 0%nat
    end.

(** The mirror for the flash kernel, or nothing where it is not level with the cache. *)
Definition flash_operands (l : LayerKv) : option (Tensor * Tensor) :=
  match lk_shadow l with
  | None => None
  | Some shadow =>
      if (pair_current_seq_len shadow <? pair_current_seq_len (lk_main l))%nat && mirror_is_lazy then None
      else if negb (pair_current_seq_len shadow =? pair_current_seq_len (lk_main l))%nat then None
      else match sc_current_data (kp_k shadow), sc_current_data (kp_v shadow) with
           | Some (Some k), Some (Some v) => Some (k, v)
           | _, _ => None
           end
  end.
End layer_kv.
