(* ===== verification/LayerCache.v ===== *)
(** * What a layer's cache answers with

    [layer_at]: what it is for a [LayerKv] to stand for rows of keys and values - each
    side holds the end of them, from one position, a windowed one never less than its
    window; the f16 mirror an opening of them, rounded.  [layer_run]: the histories a
    cache goes through - appends, failed ones put back where they began or started over,
    cuts that [can_truncate_to] allows, resets, mirror catch-ups, the conforming every
    append begins with, being told its window - every one of which keeps it so.  An
    append that fails on a windowed layer after its keys have slid or grown and before
    its values have is outside [layer_run]: it parts the two sides, as the theorem on it
    says. *)
From S2P Require Import Prelude SeqCache.
#[local] Open Scope Z_scope.

Section layer_at.
Context `{Candle}.
(** Are the two buffers of one size even where nothing is ever let go of? *)
Context {strict : bool}.
Context (windowed mirror_is_lazy : bool) (wants_shadow : Tensor -> bool).
Context (w : option nat) (widest : nat).

Abbreviation lk_append' := (lk_append mirror_is_lazy wants_shadow).
Abbreviation stored c t := (t_rows (to_dtype (default (t_dtype t) (sc_dtype c)) t)).

(** ** The invariant *)

Definition rounded (rows : list Row) : list Row := to_row_dtype F16 <$> rows.

(** One side of the mirror holds the opening of the history, rounded. *)
Record mirrors (sh : SeqCache) (hist : list Row) : Prop := {
  mi_ok : sc_ok sh;
  mi_start : sc_start sh = 0%nat;
  mi_keep : sc_keep sh = None;
  mi_le : (sc_current_seq_len sh <= length hist)%nat;
  mi_store : sc_store_dtype sh = None;
  mi_dtype : sc_dtype sh = None \/ sc_dtype sh = Some F16;
  mi_view : sc_view sh = rounded (take (sc_current_seq_len sh) hist) }.

(** One side of the cache holds the end of the history. *)
Record keeps (c : SeqCache) (keep : option nat) (hist : list Row) : Prop := {
  ke_ok : sc_ok c;
  ke_keep : sc_keep c = keep;
  ke_len : sc_current_seq_len c = length hist;
  ke_view : sc_view c = drop (sc_start c) hist }.

(** The two sides move together. *)
Record in_step (k v : SeqCache) : Prop := {
  is_start : sc_start k = sc_start v;
  is_max : strict = true \/ sc_keep k <> None -> sc_max_seq_len k = sc_max_seq_len v;
  is_grow : sc_grow_by k = sc_grow_by v;
  is_data : (exists a b, sc_all_data k = Some a /\ sc_all_data v = Some b) \/ (sc_all_data k = None /\ sc_all_data v = None) }.

(** Both sides hold, and are told to hold, the same of the two dtypes or the source's. *)
Record stores_one_of (k v : SeqCache) : Prop := {
  so_store : sc_store_dtype k = sc_store_dtype v;
  so_store_or : forall d, sc_store_dtype k = Some d -> d = F16 \/ d = F32;
  so_agree : forall d, sc_store_dtype k = Some d -> sc_dtype k = Some d;
  so_dtype : sc_dtype k = sc_dtype v;
  so_dtype_or : forall d, sc_dtype k = Some d -> d = F16 \/ d = F32 }.

Record layer_at (l : LayerKv) (hk hv : list Row) : Prop := {
  lo_window : lk_window l = match w with Some w => if caches_slide windowed (lk_mirrorable l) then Some w else None | None => None end;
  lo_keys : keeps (kp_k (lk_main l)) (positions_kept_for_window <$> lk_window l) hk;
  lo_values : keeps (kp_v (lk_main l)) (positions_kept_for_window <$> lk_window l) hv;
  lo_step : in_step (kp_k (lk_main l)) (kp_v (lk_main l));
  lo_kv : length hk = length hv;
  lo_serves : lk_held_from l = 0%nat \/ exists win, lk_window l = Some win /\ (lk_held_from l + win - 1 <= length hk)%nat;
  lo_dtype : stores_one_of (kp_k (lk_main l)) (kp_v (lk_main l));
  lo_shadow : forall sh, lk_shadow l = Some sh -> lk_mirrorable l = true /\ holds_half l = false /\
    mirrors (kp_k sh) hk /\ mirrors (kp_v sh) hv /\ sc_current_seq_len (kp_k sh) = sc_current_seq_len (kp_v sh) }.

Hypothesis Hw : forall win, w = Some win -> (1 <= win)%nat.

(** ** Appending to one side *)

Lemma keeps_append c keep hist src answers c' answers' : keeps c keep hist ->
  sc_append src c answers = (true, c', answers') ->
  keeps c' keep (hist ++ stored c src) /\ sc_start c' = (sc_start c + slid_by c (t_len src))%nat /\
  sc_grow_by c' = sc_grow_by c /\ (exists ad, sc_all_data c' = Some ad) /\
  sc_dtype c' = Some (default (t_dtype src) (sc_dtype c)) /\
  sc_max_seq_len c' = (sc_allocated c + positions_added_holding c (sc_held c) (t_len src))%nat.
Proof.
  intros [Hok Hk Hl Hv] E. pose proof (sc_append_spec src c answers Hok) as Ha. rewrite E in Ha.
  destruct Ha as [d [Hok' Hk' Hs' Hsl Hl' Hv' _ Hd]]. destruct (Hd eq_refl) as (-> & Hg & (ad & Ead & Edt) & Hal).
  assert (Hrows : length (stored c src) = t_len src).
  { unfold to_dtype. case_decide; [done|]. cbn. by rewrite length_fmap. }
  assert (Hstart : (sc_start c + slid_by c (t_len src) <= length hist)%nat).
  { pose proof (ok_start _ Hok). rewrite <- Hl. destruct Hsl as [->|(k & _ & -> & ?)]; unfold sc_held in *; lia. }
  split_and!; try done.
  - split; [done|congruence|rewrite length_app, Hrows; lia|].
    rewrite Hv', Hv, drop_drop, Hs'. by rewrite drop_app_le.
  - eauto.
  - unfold sc_dtype at 1. by rewrite Ead, Edt.
  - unfold sc_allocated at 1 in Hal. by rewrite Ead in Hal.
Qed.

Lemma in_step_append k v src src' k' v' keep hk hv a1 a2 b1 b2 : in_step k v -> t_len src = t_len src' ->
  keeps k keep hk -> keeps v keep hv -> length hk = length hv ->
  sc_append src k a1 = (true, k', a2) -> sc_append src' v b1 = (true, v', b2) -> in_step k' v'.
Proof.
  intros [Hs Hm Hg Hd] Hlen Hk Hv Hl E1 E2.
  destruct (keeps_append _ _ _ _ _ _ _ Hk E1) as (_ & S1 & G1 & D1 & _ & M1).
  destruct (keeps_append _ _ _ _ _ _ _ Hv E2) as (_ & S2 & G2 & D2 & _ & M2).
  assert (Hheld : sc_held k = sc_held v) by (unfold sc_held; rewrite (ke_len _ _ _ Hk), (ke_len _ _ _ Hv); lia).
  assert (Hkeep : sc_keep k = sc_keep v) by (rewrite (ke_keep _ _ _ Hk), (ke_keep _ _ _ Hv); done).
  split.
  - rewrite S1, S2, Hs, Hlen. unfold slid_by. rewrite Hheld, Hkeep. destruct (sc_keep v) eqn:Ekv; [|done]. rewrite Hm; [done|right; congruence].
  - intros Hst. assert (Hmax : sc_max_seq_len k = sc_max_seq_len v).
    { apply Hm. destruct Hst as [->|Hne]; [by left|right]. pose proof (ke_keep _ _ _ Hk). destruct (keeps_append _ _ _ _ _ _ _ Hk E1) as (K1 & _). pose proof (ke_keep _ _ _ K1). congruence. }
    rewrite M1, M2, Hlen. unfold sc_allocated, positions_added_holding. rewrite Hheld, Hkeep, Hmax, Hg.
    destruct Hd as [(a & b & -> & ->)|[-> ->]]; done.
  - congruence.
  - left. destruct D1 as [a ?], D2 as [b ?]. eauto.
Qed.

Lemma answer_with_view c src answers t answers' : sc_ok c -> (exists ad, sc_all_data c = Some ad) ->
  answer_with c src answers = (Some t, answers') -> t_rows t = sc_view c /\ Some (t_dtype t) = sc_dtype c.
Proof.
  intros Hok [ad Ead] E. pose proof (sc_current_data_view c Hok) as Hc. unfold answer_with in E.
  destruct (sc_current_data c) as [[t'|]|]; [simplify_eq|congruence|done].
  destruct Hc as (? & ad' & Ead' & Et). split; [done|]. unfold sc_dtype. by rewrite Ead', Et.
Qed.

Lemma pair_append_parts k v p answers out p' answers' : pair_append k v p answers = (Some out, p', answers') ->
  exists a1 a2 a3 a4 a5, sc_append k (kp_k p) answers = (true, kp_k p', a1) /\ sc_append v (kp_v p) a1 = (true, kp_v p', a2) /\
    answer_with (kp_k p') k a2 = (Some out.1, a3) /\ answer_with (kp_v p') v a4 = (Some out.2, a5).
Proof.
  unfold pair_append. destruct (sc_append k (kp_k p) answers) as [[[|] ck] a1]; [|done]. cbn [negb].
  destruct (sc_append v (kp_v p) a1) as [[[|] cv] a2] eqn:Ev; [|done]. cbn [negb].
  destruct (answer_with ck k a2) as [[ok|] a3] eqn:Ek; [|done].
  destruct (answer_with cv v a3) as [[ov|] a4] eqn:Eo; [|done]. intros. simplify_eq. cbn. eauto 10.
Qed.

(** ** The mirror *)

Lemma mirrors_append sh hist more rows src answers sh' answers' : mirrors sh hist -> t_dtype src = F16 ->
  sc_append src sh answers = (true, sh', answers') -> t_rows src = rounded rows ->
  take (length rows) (drop (sc_current_seq_len sh) (hist ++ more)) = rows ->
  (sc_current_seq_len sh + length rows <= length (hist ++ more))%nat ->
  mirrors sh' (hist ++ more) /\ sc_current_seq_len sh' = (sc_current_seq_len sh + length rows)%nat.
Proof.
  intros [Hok Hs Hk Hle Hst Hdt Hv] Hsd E Hrows Htake Hlen.
  pose proof (sc_append_spec src sh answers Hok) as Ha. rewrite E in Ha.
  destruct Ha as [d [Hok' Hk' Hs' Hsl Hl' Hv' _ Hd]]. destruct (Hd eq_refl) as (Hd0 & _ & (ad & Ead & Edt) & _).
  assert (d = 0%nat) as -> by (rewrite Hd0; unfold slid_by; by rewrite Hk).
  assert (Hdef : default (t_dtype src) (sc_dtype sh) = F16) by (destruct Hdt as [-> | ->]; done).
  assert (Htl : t_len src = length rows) by (unfold t_len; rewrite Hrows; unfold rounded; by rewrite length_fmap).
  split; [|rewrite Hl'; lia]. split; try done.
  - lia.
  - congruence.
  - rewrite Hl', Htl. done.
  - by rewrite (sc_append_store _ _ _ _ _ _ E).
  - right. unfold sc_dtype. by rewrite Ead, Edt, Hdef.
  - rewrite Hv', Hdef, <- Hsd, to_dtype_id, Hrows, Hv, drop_0, Hl', Htl. unfold rounded. rewrite <- fmap_app. f_equal.
    rewrite <- Htake at 1. rewrite <- (take_app_le hist more) by lia. apply take_take_drop.
Qed.

Lemma to_f16_rows t : t_dtype t = F32 -> t_rows (to_dtype F16 t) = rounded (t_rows t) /\ t_dtype (to_dtype F16 t) = F16.
Proof.
  intros Ht. unfold to_dtype. rewrite decide_False; [done|]. rewrite Ht. intros Heq. symmetry in Heq. by apply f16_not_f32.
Qed.

Definition mirrors_pair (sh : KvPair) (hk hv : list Row) : Prop :=
  mirrors (kp_k sh) hk /\ mirrors (kp_v sh) hv /\ sc_current_seq_len (kp_k sh) = sc_current_seq_len (kp_v sh).

Lemma mirror_rows_spec sh hk hv k v answers sh' answers' mk mv : mirrors_pair sh hk hv ->
  t_dtype k = F32 -> t_dtype v = F32 -> t_len k = t_len v ->
  mirror_rows k v sh answers = (true, sh', answers') ->
  take (t_len k) (drop (pair_current_seq_len sh) (hk ++ mk)) = t_rows k ->
  take (t_len v) (drop (pair_current_seq_len sh) (hv ++ mv)) = t_rows v ->
  (pair_current_seq_len sh + t_len k <= length (hk ++ mk))%nat -> length (hk ++ mk) = length (hv ++ mv) ->
  mirrors_pair sh' (hk ++ mk) (hv ++ mv) /\ pair_current_seq_len sh' = (pair_current_seq_len sh + t_len k)%nat.
Proof.
  intros (Mk & Mv & Hlen) Dk Dv Hkv E Tk Tv Hle Hll. unfold mirror_rows in E.
  destruct (ask answers) as [[|] a1]; [|done]. cbn [negb] in E. destruct (ask a1) as [[|] a2]; [|done]. cbn [negb] in E.
  destruct (pair_append (to_dtype F16 k) (to_dtype F16 v) sh a2) as [[[out|] sh1] a3] eqn:Ep; [|done]. simplify_eq.
  apply pair_append_parts in Ep as (b1 & b2 & b3 & b4 & b5 & Ek & Ev & _ & _).
  destruct (to_f16_rows k Dk) as [Rk Fk]. destruct (to_f16_rows v Dv) as [Rv Fv]. unfold pair_current_seq_len in *.
  destruct (mirrors_append _ hk mk (t_rows k) _ _ _ _ Mk Fk Ek Rk Tk Hle) as [Mk' Lk'].
  rewrite Hlen in Tv.
  destruct (mirrors_append _ hv mv (t_rows v) _ _ _ _ Mv Fv Ev Rv Tv) as [Mv' Lv']; [unfold t_len in *; lia|].
  split; [|done]. split_and!; try done. unfold t_len in *. lia.
Qed.

Lemma mirrors_truncate sh hist len : mirrors sh hist -> mirrors (sc_truncate len sh) (take len hist).
Proof.
  intros [Hok Hs Hk Hle Hst Hdt Hv]. split; try done.
  - by apply sc_truncate_ok.
  - cbn. rewrite length_take. lia.
  - rewrite sc_truncate_view by done. cbn. rewrite Hv, Hs, Nat.sub_0_r, Nat.max_0_r. unfold rounded. rewrite <- fmap_take.
    f_equal. rewrite !take_take. f_equal. lia.
Qed.

Lemma mirrors_fresh dim initial growth hist : mirrors (seq_with_capacity dim initial growth) hist.
Proof. split; try done; [apply seq_with_capacity_ok|cbn; lia|by left]. Qed.

Lemma narrow_rows t from len t' : narrow t from len = Some t' ->
  t_rows t' = take len (drop from (t_rows t)) /\ t_dtype t' = t_dtype t /\ t_len t' = len.
Proof.
  unfold narrow. destruct (Nat.leb_spec (from + len) (t_len t)) as [Hle|]; [|done]. intros [= <-]. cbn. split_and!; try done.
  unfold t_len in *. cbn. rewrite length_take, length_drop. lia.
Qed.

Lemma mirror_append_spec sh hk hv k v out answers sh' answers' : mirrors_pair sh hk hv -> length hk = length hv ->
  t_dtype k = F32 -> t_dtype v = F32 -> t_len k = t_len v -> t_dtype out.1 = F32 -> t_dtype out.2 = F32 ->
  t_rows out.1 = hk ++ t_rows k -> t_rows out.2 = hv ++ t_rows v ->
  mirror_append (length hk) out k v sh answers = (true, sh', answers') ->
  mirrors_pair sh' (hk ++ t_rows k) (hv ++ t_rows v).
Proof.
  intros HM Hkv Dk Dv Hlen Do1 Do2 R1 R2 E. unfold mirror_append in E. pose proof HM as (Mk & Mv & Hc).
  pose proof (mi_le _ _ Mk) as Hle. unfold pair_current_seq_len in E.
  assert (Hnew : forall hk' hv' sh1 a1 a2, mirrors_pair sh1 hk hv -> sc_current_seq_len (kp_k sh1) = length hk ->
    mirror_rows k v sh1 a1 = (true, hk', a2) -> hk' = hv' -> mirrors_pair hv' (hk ++ t_rows k) (hv ++ t_rows v)).
  { intros sh2 ? sh1 a1 a2 M1 L1 Er <-.
    destruct (mirror_rows_spec sh1 hk hv k v a1 sh2 a2 (t_rows k) (t_rows v) M1 Dk Dv Hlen Er) as [HR _];
      try (rewrite !length_app; unfold pair_current_seq_len, t_len in *; lia); try done.
    - unfold pair_current_seq_len. rewrite L1, drop_app_length. by apply take_ge.
    - unfold pair_current_seq_len. rewrite L1, Hkv, drop_app_length. by apply take_ge. }
  destruct (Nat.ltb_spec (sc_current_seq_len (kp_k sh)) (length hk)) as [Hlt|Hge].
  2: { destruct (Nat.ltb_spec (length hk) (sc_current_seq_len (kp_k sh))); [lia|]. eapply Hnew; eauto. lia. }
  set (have := sc_current_seq_len (kp_k sh)) in *.
  destruct (narrow out.1 have (length hk - have)) as [kl|] eqn:Nk; [|done].
  destruct (narrow out.2 have (length hk - have)) as [vl|] eqn:Nv; [|done].
  destruct (mirror_rows kl vl sh answers) as [[[|] sh1] a1] eqn:Er; [|done].
  apply narrow_rows in Nk as (Rkl & Dkl & Lkl). apply narrow_rows in Nv as (Rvl & Dvl & Lvl).
  destruct (mirror_rows_spec sh hk hv kl vl answers sh1 a1 [] [] HM) as [M1 L1]; rewrite ?app_nil_r; try congruence; try done.
  - unfold pair_current_seq_len. fold have. rewrite Rkl, Lkl, R1. rewrite drop_app_le by lia.
    rewrite take_app_le by (rewrite length_drop; lia). done.
  - unfold pair_current_seq_len. fold have. rewrite Rvl, Lvl, R2. rewrite drop_app_le by lia.
    rewrite take_app_le by (rewrite length_drop; lia). done.
  - unfold pair_current_seq_len. fold have. lia.
  - rewrite !app_nil_r in M1. eapply Hnew; [exact M1| |exact E|done]. unfold pair_current_seq_len in L1. fold have in L1. lia.
Qed.

(** ** Every step keeps the invariant *)

Lemma keeps_truncate c keep hist len : keeps c keep hist -> (sc_start c <= len)%nat ->
  keeps (sc_truncate len c) keep (take len hist).
Proof.
  intros [Hok Hk Hl Hv] Hle. pose proof (ok_start _ Hok). split; try done.
  - by apply sc_truncate_ok.
  - cbn. rewrite length_take. lia.
  - rewrite sc_truncate_view by done. cbn. rewrite Hv, <- skipn_firstn_comm. done.
Qed.

Lemma keeps_reset c keep hist : keeps c keep hist -> keeps (sc_reset c) keep [].
Proof. intros [Hok Hk Hl Hv]. split; try done. by apply sc_reset_ok. Qed.

Lemma keeps_window c keep keep' hist born : keeps c keep hist ->
  keeps (sc_cap_first_allocation born (sc_slide_beyond keep' c)) keep' hist.
Proof.
  intros [Hok Hk Hl Hv]. unfold sc_cap_first_allocation. cbn. destruct (sc_all_data c) eqn:E.
  - split; try done. by apply sc_slide_beyond_ok.
  - split; try done.
    + destruct Hok as [? ? Hb]. rewrite E in Hb. split; cbn; try done.
    + unfold sc_view in *. rewrite E in Hv. cbn. done.
Qed.

Lemma window_in_step k v keep born : in_step k v -> sc_max_seq_len k = sc_max_seq_len v \/ sc_keep k = keep ->
  in_step (sc_cap_first_allocation born (sc_slide_beyond keep k)) (sc_cap_first_allocation born (sc_slide_beyond keep v)).
Proof.
  intros [Hs Hm Hg Hd] Hsame. assert (Hmax : strict = true \/ keep <> None -> sc_max_seq_len k = sc_max_seq_len v) by (destruct Hsame as [|<-]; auto).
  unfold sc_cap_first_allocation. cbn.
  destruct Hd as [(a & b & Ea & Eb)|[Ea Eb]]; rewrite Ea, Eb; split; cbn; rewrite ?Ea, ?Eb; eauto 6; intros Hst; by rewrite Hmax.
Qed.

Lemma truncate_start l hk hv len : layer_at l hk hv -> can_truncate_to l len = true -> (lk_held_from l <= len)%nat.
Proof.
  intros HL Hc. unfold can_truncate_to in Hc. apply orb_true_iff in Hc as [Hc%Nat.leb_le|Hc%Nat.leb_le].
  - unfold lk_current_seq_len, pair_current_seq_len in Hc. pose proof (ok_start _ (ke_ok _ _ _ (lo_keys _ _ _ HL))).
    unfold lk_held_from, sc_held_from. lia.
  - unfold lk_serves_from in Hc. destruct (lo_serves _ _ _ HL) as [E|(win & Ew & Hle)].
    + rewrite E. lia.
    + rewrite Ew in Hc. destruct (lk_held_from l) as [|n]; [lia|].
      assert (1 <= win)%nat; [|lia]. rewrite (lo_window _ _ _ HL) in Ew. destruct w as [w'|]; [|done].
      destruct (caches_slide _ _); [|done]. simplify_eq. by apply Hw.
Qed.

Lemma layer_ok_truncate l hk hv len : layer_at l hk hv -> can_truncate_to l len = true ->
  layer_at (lk_truncate len l) (take len hk) (take len hv).
Proof.
  intros HL Hc. pose proof (truncate_start _ _ _ _ HL Hc) as Hle. unfold lk_held_from, sc_held_from in Hle.
  destruct HL as [Hwin Hkk Hvv Hst Hkv Hse Hdt Hsh]. split; cbn; try done.
  - by apply keeps_truncate.
  - apply keeps_truncate; [done|]. by rewrite <- (is_start _ _ Hst).
  - destruct Hst as [? ? ? Hd]. split; cbn; try done.
  - rewrite !length_take. lia.
  - unfold lk_held_from, sc_held_from in *. cbn. destruct (sc_start (kp_k (lk_main l))) as [|n] eqn:E; [by left|].
    destruct Hse as [|(win & Ew & Hs)]; [done|right]. exists win. split; [done|]. rewrite length_take.
    apply orb_true_iff in Hc as [Hc%Nat.leb_le|Hc%Nat.leb_le].
    + unfold lk_current_seq_len, pair_current_seq_len in Hc. rewrite (ke_len _ _ _ Hkk) in Hc. lia.
    + unfold lk_serves_from, lk_held_from, sc_held_from in Hc. rewrite Ew, E in Hc. lia.
  - by destruct Hdt as [? ? ? ? ?]; split.
  - intros sh Hs. destruct (lk_shadow l) as [sh0|] eqn:E; [|done]. cbn in Hs. simplify_eq.
    destruct (Hsh sh0 eq_refl) as (Hm & Hh & Mk & Mv & Hlen). cbn. split_and!; [done|done|by apply mirrors_truncate..|].
    rewrite Hlen, (mi_start _ _ Mk), (mi_start _ _ Mv). done.
Qed.

Lemma mirrors_reset sh hist : mirrors sh hist -> mirrors (sc_reset sh) [].
Proof.
  intros [Hok Hs Hk Hle Hst Hdt Hv]. split; try done; [by apply sc_reset_ok|]. left. unfold sc_dtype. done.
Qed.

Lemma layer_ok_reset l hk hv : layer_at l hk hv -> layer_at (lk_reset l) [] [].
Proof.
  intros [Hwin Hkk Hvv Hst Hkv Hse Hdt Hsh]. split; cbn; try done.
  - by eapply keeps_reset.
  - by eapply keeps_reset.
  - destruct Hst as [? ? ? ?]. split; cbn; try done. by right.
  - by left.
  - by destruct Hdt as [? ? ? ? ?]; split.
  - intros sh Hs. destruct (lk_shadow l) as [sh0|]; [|done]. cbn in Hs. simplify_eq.
    destruct (Hsh sh0 eq_refl) as (Hm & Hh & Mk & Mv & Hlen). split_and!; try done; try by eapply mirrors_reset.
    unfold holds_half in *. apply bool_decide_eq_false in Hh. apply bool_decide_eq_false. cbn. intros Hd. apply Hh.
    by apply (so_agree _ _ Hdt).
Qed.

Lemma layer_ok_window l hk hv : layer_at l hk hv -> layer_at (lk_slide_beyond windowed w l) hk hv.
Proof.
  intros [Hwin Hkk Hvv Hst Hkv Hse Hdt Hsh]. unfold lk_slide_beyond. rewrite <- Hwin.
  assert (Hslid : forall c keep, keeps c keep hk -> sc_slide_beyond keep c = c).
  { intros c keep [_ Hk _ _]. destruct c; cbn in *. by rewrite Hk. }
  destruct (lk_window l) as [win|] eqn:Ew; cbn [fmap option_fmap option_map].
  - split; cbn; try done.
    + by eapply keeps_window.
    + by eapply keeps_window.
    + apply window_in_step; [done|]. right. by rewrite (ke_keep _ _ _ Hkk).
    + unfold lk_held_from, sc_held_from in *. cbn. unfold sc_cap_first_allocation. cbn.
      destruct (sc_all_data (kp_k (lk_main l))); exact Hse.
    + unfold sc_cap_first_allocation. cbn. destruct Hst as [_ _ _ [(a & b & Ea & Eb)|[Ea Eb]]]; rewrite Ea, Eb.
      * by destruct Hdt as [? ? ? ? ?]; split.
      * destruct Hdt as [? ? ? Hd ?]. split; cbn; try done; unfold sc_dtype in *; cbn; by rewrite ?Ea, ?Eb in *.
    + intros sh Hs. destruct (Hsh sh Hs) as (Hm & _). exfalso. destruct w; [|done]. unfold caches_slide in Hwin.
      rewrite Hm, andb_false_r in Hwin. done.
  - split; cbn; try done.
    + destruct Hkk as [? ? ? ?]. split; try done. by apply sc_slide_beyond_ok.
    + destruct Hvv as [? ? ? ?]. split; try done. by apply sc_slide_beyond_ok.
    + destruct Hst as [? Hm ? ?]; split; try done. intros [->|?]; [by apply Hm; left|done].
    + by destruct Hdt as [? ? ? ? ?]; split.
Qed.

Lemma mirrored_from_start l hk hv : layer_at l hk hv -> lk_mirrorable l = true -> lk_window l = None /\ lk_held_from l = 0%nat.
Proof.
  intros HL Hm. assert (Hn : lk_window l = None).
  { rewrite (lo_window _ _ _ HL). destruct w; [|done]. unfold caches_slide. rewrite Hm. by rewrite andb_false_r. }
  split; [done|]. destruct (lo_serves _ _ _ HL) as [|(? & ? & _)]; [done|congruence].
Qed.

Lemma not_half_f32 l hk hv d : layer_at l hk hv -> holds_half l = false -> sc_dtype (kp_k (lk_main l)) = Some d -> d = F32.
Proof.
  intros HL Hh Hd. apply bool_decide_eq_false in Hh. destruct (so_dtype_or _ _ (lo_dtype _ _ _ HL) d Hd) as [->|]; done.
Qed.

Lemma layer_ok_catch_up l hk hv answers : layer_at l hk hv -> layer_at (catch_up_mirror l answers).1 hk hv.
Proof.
  intros HL. unfold catch_up_mirror. destruct (lk_shadow l) as [sh|] eqn:Esh; [|done].
  destruct (lo_shadow _ _ _ HL sh Esh) as (Hm & Hh & HM). destruct (mirrored_from_start _ _ _ HL Hm) as [Hwn Hfrom].
  assert (Hdrop : layer_at (lk_with l (lk_main l) None) hk hv) by (destruct HL; by split).
  destruct (Nat.leb_spec (pair_current_seq_len (lk_main l)) (pair_current_seq_len sh)) as [|Hlt]; [done|].
  pose proof (sc_current_data_view _ (ke_ok _ _ _ (lo_keys _ _ _ HL))) as Ck.
  pose proof (sc_current_data_view _ (ke_ok _ _ _ (lo_values _ _ _ HL))) as Cv.
  destruct (sc_current_data (kp_k (lk_main l))) as [[k|]|]; [|by destruct (sc_current_data (kp_v (lk_main l)))|done].
  destruct (sc_current_data (kp_v (lk_main l))) as [[v|]|]; [|done|done].
  destruct (narrow k _ _) as [kl|] eqn:Nk; [|done]. destruct (narrow v _ _) as [vl|] eqn:Nv; [|done].
  destruct (mirror_rows kl vl sh answers) as [[[|] sh1] a1] eqn:Er; [|done]. cbn [fst].
  unfold pair_current_seq_len in *. destruct Ck as (Rk & adk & Eadk & Dk). destruct Cv as (Rv & adv & Eadv & Dv).
  rewrite (ke_view _ _ _ (lo_keys _ _ _ HL)) in Rk. rewrite (ke_view _ _ _ (lo_values _ _ _ HL)) in Rv.
  rewrite <- (is_start _ _ (lo_step _ _ _ HL)) in Rv. unfold lk_held_from, sc_held_from in Hfrom. rewrite Hfrom, drop_0 in Rk, Rv.
  rewrite (ke_len _ _ _ (lo_keys _ _ _ HL)) in *.
  assert (F1 : t_dtype k = F32).
  { rewrite Dk. apply (not_half_f32 l hk hv); [done|done|]. unfold sc_dtype. by rewrite Eadk. }
  assert (F2 : t_dtype v = F32).
  { rewrite Dv. apply (not_half_f32 l hk hv); [done|done|]. rewrite (so_dtype _ _ (lo_dtype _ _ _ HL)). unfold sc_dtype. by rewrite Eadv. }
  pose proof (lo_kv _ _ _ HL) as Hkv.
  apply narrow_rows in Nk as (Rkl & Dkl & Lkl). apply narrow_rows in Nv as (Rvl & Dvl & Lvl).
  destruct (mirror_rows_spec sh hk hv kl vl answers sh1 a1 [] [] HM) as [M1 L1]; rewrite ?app_nil_r; try congruence; try done.
  - unfold pair_current_seq_len. rewrite Rkl, Lkl, Rk. done.
  - unfold pair_current_seq_len. rewrite Rvl, Lvl, Rv. done.
  - unfold pair_current_seq_len. lia.
  - rewrite !app_nil_r in M1. destruct HL. split; try done. cbn. intros sh' [= <-]. done.
Qed.

Lemma mirrors_more sh hist more : mirrors sh hist -> mirrors sh (hist ++ more).
Proof.
  intros [Hok Hs Hk Hle Hst Hdt Hv]. split; try done; [rewrite length_app; lia|]. by rewrite take_app_le.
Qed.

Lemma stored_length c t : length (stored c t) = t_len t.
Proof. unfold to_dtype. case_decide; [done|]. cbn. by rewrite length_fmap. Qed.

(** What an append needs to find: an invariant without the window's reach, which the
    rows appended may bring. *)
Record can_append (l : LayerKv) (hk hv : list Row) : Prop := {
  ca_window : lk_window l = match w with Some w => if caches_slide windowed (lk_mirrorable l) then Some w else None | None => None end;
  ca_keys : keeps (kp_k (lk_main l)) (positions_kept_for_window <$> lk_window l) hk;
  ca_values : keeps (kp_v (lk_main l)) (positions_kept_for_window <$> lk_window l) hv;
  ca_step : in_step (kp_k (lk_main l)) (kp_v (lk_main l));
  ca_kv : length hk = length hv;
  ca_dtype : stores_one_of (kp_k (lk_main l)) (kp_v (lk_main l)) }.

Lemma layer_ok_can_append l hk hv : layer_at l hk hv -> can_append l hk hv.
Proof. by intros []. Qed.

Lemma append_main_ok l hk hv k v main a1 a2 a3 : can_append l hk hv -> t_len k = t_len v ->
  t_dtype k = t_dtype v -> t_dtype k = F16 \/ t_dtype k = F32 ->
  sc_append k (kp_k (lk_main l)) a1 = (true, kp_k main, a2) -> sc_append v (kp_v (lk_main l)) a2 = (true, kp_v main, a3) ->
  (sc_start (kp_k main) = 0%nat \/ exists win, lk_window l = Some win /\ (sc_start (kp_k main) + win - 1 <= length hk + t_len k)%nat) ->
  layer_at (lk_with l main None) (hk ++ stored (kp_k (lk_main l)) k) (hv ++ stored (kp_v (lk_main l)) v).
Proof.
  intros [Hwin Hk Hv Hst Hkv [S1 S2 S3 S4 S5]] Hlen Hd Hone Ek Ev Hs.
  destruct (keeps_append _ _ _ _ _ _ _ Hk Ek) as (Kk & Sk & _ & Bk & Tk & _).
  destruct (keeps_append _ _ _ _ _ _ _ Hv Ev) as (Kv & Sv & _ & Bv & Tv & _).
  pose proof (in_step_append _ _ _ _ _ _ _ _ _ _ _ _ _ Hst Hlen Hk Hv Hkv Ek Ev) as Hstep. split; cbn; try done.
  - rewrite !length_app, !stored_length. lia.
  - by rewrite length_app, stored_length.
  - pose proof (sc_append_store _ _ _ _ _ _ Ek) as P1. pose proof (sc_append_store _ _ _ _ _ _ Ev) as P2.
    split; rewrite ?P1, ?P2, ?Tk, ?Tv; try done.
    + intros d Hd'. by rewrite (S3 d Hd').
    + by rewrite S4, Hd.
    + intros d [= <-]. destruct (sc_dtype (kp_k (lk_main l))) as [d|] eqn:Ed; cbn; [by apply S5|done].
Qed.

(** The cache without its mirror. *)
Lemma layer_ok_append_main l hk hv k v main a1 a2 a3 : layer_at l hk hv -> t_len k = t_len v ->
  t_dtype k = F32 -> t_dtype v = F32 ->
  sc_append k (kp_k (lk_main l)) a1 = (true, kp_k main, a2) -> sc_append v (kp_v (lk_main l)) a2 = (true, kp_v main, a3) ->
  layer_at (lk_with l main None) (hk ++ stored (kp_k (lk_main l)) k) (hv ++ stored (kp_v (lk_main l)) v).
Proof.
  intros HL Hlen Dk Dv Ek Ev. eapply append_main_ok; [by apply layer_ok_can_append|done|congruence|by right|done|done|].
  destruct (keeps_append _ _ _ _ _ _ _ (lo_keys _ _ _ HL) Ek) as (_ & Sk & _). rewrite Sk. unfold slid_by.
  pose proof (ke_keep _ _ _ (lo_keys _ _ _ HL)) as Hkeep. pose proof (ke_len _ _ _ (lo_keys _ _ _ HL)) as Hl.
  destruct (lo_serves _ _ _ HL) as [H0|(win & Ew & Hs)].
  - unfold lk_held_from, sc_held_from in H0. destruct (lk_window l) as [win|]; rewrite Hkeep; [|left; cbn; lia].
    cbn [fmap option_fmap option_map]. destruct ((_ <? _)%nat && (_ <? _)%nat) eqn:Ec; [|left; lia].
    right. exists win. split; [done|]. apply andb_true_iff in Ec as [_ Ec%Nat.ltb_lt].
    unfold sc_held, positions_kept_for_window, WINDOW_REWIND_POSITIONS in *. lia.
  - right. exists win. split; [done|]. rewrite Hkeep, Ew. cbn [fmap option_fmap option_map].
    unfold lk_held_from, sc_held_from in Hs. destruct ((_ <? _)%nat && (_ <? _)%nat) eqn:Ec; [|lia].
    apply andb_true_iff in Ec as [_ Ec%Nat.ltb_lt].
    unfold sc_held, positions_kept_for_window, WINDOW_REWIND_POSITIONS in *. lia.
Qed.

Lemma layer_ok_append l hk hv k v answers out l' answers' : layer_at l hk hv -> t_len k = t_len v ->
  t_dtype k = F32 -> t_dtype v = F32 -> lk_append' k v l answers = (Some out, l', answers') ->
  layer_at l' (hk ++ stored (kp_k (lk_main l)) k) (hv ++ stored (kp_v (lk_main l)) v).
Proof.
  intros HL Hlen Dk Dv E. unfold lk_append in E.
  destruct (pair_append k v (lk_main l) answers) as [[[out0|] main] a1] eqn:Ep; [|done].
  apply pair_append_parts in Ep as (b1 & b2 & b3 & b4 & b5 & Ek & Ev & Ok & Ov).
  pose proof (layer_ok_append_main _ _ _ _ _ _ _ _ _ HL Hlen Dk Dv Ek Ev) as Hbase.
  destruct (keeps_append _ _ _ _ _ _ _ (lo_keys _ _ _ HL) Ek) as (Kk & Sk & _ & Bk & Tk & _).
  destruct (keeps_append _ _ _ _ _ _ _ (lo_values _ _ _ HL) Ev) as (Kv & Sv & _ & Bv & Tv & _).
  rewrite Dk in Tk. rewrite Dv, <- (so_dtype _ _ (lo_dtype _ _ _ HL)) in Tv.
  assert (Hadd : forall sh, lk_mirrorable l = true -> holds_half (lk_with l main None) = false ->
    mirrors_pair sh (hk ++ stored (kp_k (lk_main l)) k) (hv ++ stored (kp_v (lk_main l)) v) ->
    layer_at (lk_with l main (Some sh)) (hk ++ stored (kp_k (lk_main l)) k) (hv ++ stored (kp_v (lk_main l)) v)).
  { intros sh Hm Hh HM. destruct Hbase. split; try done. cbn. intros sh' [= <-]. done. }
  assert (Hlag : holds_half (lk_with l main (lk_shadow l)) = false ->
    layer_at (lk_with l main (lk_shadow l)) (hk ++ stored (kp_k (lk_main l)) k) (hv ++ stored (kp_v (lk_main l)) v)).
  { intros Hh. destruct (lk_shadow l) as [sh|] eqn:Esh; [|done]. destruct (lo_shadow _ _ _ HL sh Esh) as (Hm & _ & Mk & Mv & Hc).
    apply Hadd; [done|done|]. split_and!; [by apply mirrors_more..|done]. }
  destruct (holds_half (lk_with l main (lk_shadow l))) eqn:Ehalf.
  { simplify_eq. destruct (lk_shadow l) as [sh|] eqn:Esh; [|done]. exfalso.
    destruct (lo_shadow _ _ _ HL sh Esh) as (_ & Hh & _). unfold holds_half in *. cbn in Ehalf.
    apply bool_decide_eq_true in Ehalf. apply bool_decide_eq_false in Hh. rewrite Tk in Ehalf.
    destruct (sc_dtype (kp_k (lk_main l))); cbn in Ehalf; [by apply Hh|]. injection Ehalf as Ehalf. by apply f16_not_f32. }
  specialize (Hlag eq_refl). destruct (_ && mirror_is_lazy); [by simplify_eq|]. cbn [lk_with lk_shadow lk_mirrorable] in E.
  assert (Hf32 : default F32 (sc_dtype (kp_k (lk_main l))) = F32).
  { assert (Hh : holds_half (lk_with l main None) = false) by exact Ehalf.
    apply (not_half_f32 _ _ _ _ Hbase Hh). cbn. by rewrite Tk. }
  assert (Hst : forall c t, sc_dtype c = sc_dtype (kp_k (lk_main l)) -> t_dtype t = F32 -> stored c t = t_rows t).
  { intros c t Hc Ht. rewrite Hc, Ht, Hf32, <- Ht. by rewrite to_dtype_id. }
  assert (Hmirror : forall sh ok sh' a2, lk_mirrorable l = true -> mirrors_pair sh hk hv ->
    mirror_append (pair_current_seq_len (lk_main l)) out0 k v sh a1 = (ok, sh', a2) ->
    layer_at (lk_with l main (if ok then Some sh' else None))
      (hk ++ stored (kp_k (lk_main l)) k) (hv ++ stored (kp_v (lk_main l)) v)).
  { intros sh [|] sh' a2 Hm HM Em; [|done]. apply Hadd; [done|done|].
    destruct (mirrored_from_start _ _ _ Hbase Hm) as [_ Hfrom]. unfold lk_held_from, sc_held_from in Hfrom. cbn in Hfrom.
    destruct (answer_with_view _ _ _ _ _ (ke_ok _ _ _ Kk) Bk Ok) as [Rk Tk'].
    destruct (answer_with_view _ _ _ _ _ (ke_ok _ _ _ Kv) Bv Ov) as [Rv Tv'].
    rewrite (ke_view _ _ _ Kk), Hfrom, drop_0 in Rk.
    pose proof (is_start _ _ (lo_step _ _ _ Hbase)) as Hsame. cbn in Hsame.
    rewrite (ke_view _ _ _ Kv), <- Hsame, Hfrom, drop_0 in Rv.
    rewrite Hst in Rk by done. rewrite Hst in Rv by (done || by rewrite <- (so_dtype _ _ (lo_dtype _ _ _ HL))).
    rewrite !Hst by (done || by rewrite <- (so_dtype _ _ (lo_dtype _ _ _ HL))).
    unfold pair_current_seq_len in Em. rewrite (ke_len _ _ _ (lo_keys _ _ _ HL)) in Em.
    eapply mirror_append_spec; try done; [apply HL|congruence|congruence]. }
  destruct (lk_shadow l) as [sh|] eqn:Esh.
  - destruct (lo_shadow _ _ _ HL sh Esh) as (Hm & _ & HM).
    destruct (mirror_append _ _ _ _ sh a1) as [[ok sh'] a2] eqn:Em. simplify_eq. by eapply Hmirror.
  - destruct (lk_mirrorable l && _ && _) eqn:Ec; [|by simplify_eq].
    apply andb_true_iff in Ec as [[Hm _]%andb_true_iff _].
    destruct (mirror_append _ _ _ _ _ a1) as [[ok sh'] a2] eqn:Em. simplify_eq. eapply Hmirror; [done| |exact Em].
    split_and!; [apply mirrors_fresh..|done].
Qed.

Lemma fresh_layer_ok main growth initial mirrorable window : (forall c, c = kp_k main \/ c = kp_v main ->
    sc_ok c /\ sc_keep c = None /\ sc_current_seq_len c = 0%nat /\ sc_start c = 0%nat /\ sc_all_data c = None) ->
  sc_max_seq_len (kp_k main) = sc_max_seq_len (kp_v main) -> sc_grow_by (kp_k main) = sc_grow_by (kp_v main) ->
  sc_store_dtype (kp_k main) = sc_store_dtype (kp_v main) ->
  (forall d, sc_store_dtype (kp_k main) = Some d -> d = F16 \/ d = F32) ->
  layer_at (lk_slide_beyond windowed w {| lk_main := main; lk_shadow := None; lk_growth := growth; lk_initial := initial;
    lk_mirrorable := mirrorable; lk_window := window |}) [] [].
Proof.
  intros Hc Hm Hg Hs Hd. destruct (Hc (kp_k main) ltac:(by left)) as (Ok1 & K1 & L1 & S1 & A1).
  destruct (Hc (kp_v main) ltac:(by right)) as (Ok2 & K2 & L2 & S2 & A2).
  assert (Kk : forall keep, keeps (sc_slide_beyond keep (kp_k main)) keep []).
  { intros keep. split; try done; [by apply sc_slide_beyond_ok|]. unfold sc_view. cbn. by rewrite A1, drop_nil. }
  assert (Kv : forall keep, keeps (sc_slide_beyond keep (kp_v main)) keep []).
  { intros keep. split; try done; [by apply sc_slide_beyond_ok|]. unfold sc_view. cbn. by rewrite A2, drop_nil. }
  assert (Hst : in_step (kp_k main) (kp_v main)) by (split; [congruence|done|done|by right]).
  assert (Hone : stores_one_of (kp_k main) (kp_v main)).
  { split; try done; unfold sc_dtype; rewrite ?A1, ?A2; done. }
  unfold lk_slide_beyond. destruct w as [win|] eqn:Ew; [destruct (caches_slide windowed mirrorable) eqn:Ecs|];
    unfold fmap, option_fmap, option_map; cbn [lk_mirrorable]; rewrite ?Ecs; split; cbn; rewrite ?Ew, ?Ecs; try done.
  - apply (keeps_window _ None). split; try done. unfold sc_view. by rewrite A1, drop_nil.
  - apply (keeps_window _ None). split; try done. unfold sc_view. by rewrite A2, drop_nil.
  - apply window_in_step; [done|by left].
  - left. unfold lk_held_from, sc_held_from. cbn. unfold sc_cap_first_allocation. cbn. by destruct (sc_all_data (kp_k main)).
  - destruct Hone as [? ? ? ? ?]. unfold sc_cap_first_allocation. cbn. rewrite A1, A2.
    split; cbn; try done; unfold sc_dtype in *; cbn; by rewrite ?A1, ?A2 in *.
  - destruct Hst as [? ? ? ?]; by split.
  - by left.
  - by destruct Hone as [? ? ? ? ?]; split.
  - destruct Hst as [? ? ? ?]; by split.
  - by left.
  - by destruct Hone as [? ? ? ? ?]; split.
Qed.

End layer_at.
Abbreviation layer_ok := (@layer_at _ true).

Section layer_run.
Context `{Candle}.
Context (windowed mirror_is_lazy : bool) (wants_shadow : Tensor -> bool).
Context (w : option nat) (widest : nat).

Abbreviation lk_append' := (lk_append mirror_is_lazy wants_shadow).
Abbreviation stored c t := (t_rows (to_dtype (default (t_dtype t) (sc_dtype c)) t)).
Abbreviation stands := (layer_at (strict := false) windowed w).

(** ** How large the buffer grows *)

Lemma grown_buffer_window fuel keep g needed b :
  (grown_buffer fuel (Some keep) g needed b <= Nat.max b (Nat.max (keep + g) needed))%nat.
Proof.
  revert b. induction fuel as [|fuel IH]; intros b; cbn; destruct (Nat.leb_spec needed b); try lia.
  etransitivity; [apply IH|]. lia.
Qed.

Lemma window_append_size c keep n : sc_keep c = Some keep -> (1 <= sc_grow_by c)%nat ->
  (sc_allocated c + positions_added_holding c (sc_held c) n <=
   Nat.max (sc_max_seq_len c) (keep + Nat.max (sc_grow_by c) n))%nat.
Proof.
  intros Hk Hg. unfold positions_added_holding, sc_allocated. rewrite Hk.
  set (needed := if _ && _ then _ else _).
  pose proof (grown_buffer_window needed keep (sc_grow_by c) needed (sc_max_seq_len c)) as Hb.
  pose proof (grown_buffer_mono needed (Some keep) (sc_grow_by c) needed (sc_max_seq_len c)) as Hm.
  assert (Hn : (needed <= sc_max_seq_len c \/ needed <= keep + n)%nat).
  { unfold needed. destruct (Nat.ltb_spec (sc_max_seq_len c) (sc_held c + n)); cbn [andb]; [|lia].
    destruct (Nat.ltb_spec keep (sc_held c)); lia. }
  assert (Hfit : (needed <= sc_max_seq_len c)%nat -> grown_buffer needed (Some keep) (sc_grow_by c) needed (sc_max_seq_len c) = sc_max_seq_len c).
  { intros Hle. destruct needed as [|m]; cbn [grown_buffer]; [done|]. by rewrite (proj2 (Nat.leb_le _ _)). }
  destruct (decide (needed <= sc_max_seq_len c)%nat) as [Hle|Hgt]; [rewrite (Hfit Hle)|]; destruct (sc_all_data c); lia.
Qed.

Record sized (l : LayerKv) : Prop := {
  sz_grow : sc_grow_by (kp_k (lk_main l)) = Nat.max (lk_growth l) 1;
  sz_max : forall win, lk_window l = Some win ->
    (sc_max_seq_len (kp_k (lk_main l)) <= most_positions_a_window_holds win (lk_growth l) widest)%nat }.

Lemma sized_window strict l hk hv : sized l -> layer_at (strict := strict) windowed w l hk hv -> sized (lk_slide_beyond windowed w l).
Proof.
  intros [Hg Hm] HL. pose proof (lo_window _ _ _ _ _ HL) as Hwin. unfold lk_slide_beyond. rewrite <- Hwin. destruct (lk_window l) as [win|] eqn:Ew; cbn [fmap option_fmap option_map].
  - split; cbn.
    + unfold sc_cap_first_allocation. cbn. by destruct (sc_all_data _).
    + intros win' [= <-]. specialize (Hm win eq_refl). unfold sc_cap_first_allocation, most_positions_a_window_holds in *. cbn.
      destruct (sc_all_data _); cbn; lia.
  - split; cbn; [done|]. done.
Qed.

Lemma sized_fresh main shadow growth initial mirrorable window : sc_grow_by (kp_k main) = Nat.max growth 1 -> sc_all_data (kp_k main) = None ->
  sized (lk_slide_beyond windowed w {| lk_main := main; lk_shadow := shadow; lk_growth := growth; lk_initial := initial;
    lk_mirrorable := mirrorable; lk_window := window |}).
Proof.
  intros Hg Hd. unfold lk_slide_beyond. cbn [lk_mirrorable].
  destruct (match w with Some w => if caches_slide windowed mirrorable then Some w else None | None => None end) as [win|];
    cbn [fmap option_fmap option_map]; split; cbn; try done.
  - unfold sc_cap_first_allocation. cbn. by rewrite Hd.
  - intros win' [= <-]. unfold sc_cap_first_allocation, most_positions_a_window_holds. cbn. rewrite Hd. cbn. lia.
Qed.

(** ** The histories *)

(** The cache is stored this way already. *)
Definition holds_storage (s : KvStorage) (l : LayerKv) : Prop :=
  sc_dtype (kp_k (lk_main l)) = Some (match s with StoreF16 => F16 | _ => F32 end) /\ (s = F32Mirrored \/ lk_mirrorable l = false).

(** What an append that failed part-way left of keys and values: nothing is ever let go
    of, or they begin at one position in buffers of one size. *)
Definition still_in_step (l : LayerKv) : Prop :=
  lk_window l = None \/ sc_start (kp_k (lk_main l)) = sc_start (kp_v (lk_main l)) /\ sc_max_seq_len (kp_k (lk_main l)) = sc_max_seq_len (kp_v (lk_main l)).

(** A cache reached, with all the rows of keys and of values it was given, no forward
    wider than [widest]. *)
Inductive layer_run : LayerKv -> list Row -> list Row -> Prop :=
| lr_storage dim initial growth storage :
    layer_run (lk_slide_beyond windowed w (layer_with_storage dim initial growth storage)) [] []
| lr_capacity dim initial growth :
    layer_run (lk_slide_beyond windowed w (layer_with_capacity dim initial growth)) [] []
| lr_restored l hk hv : stands l hk hv -> sized l -> (sc_all_data (kp_k (lk_main l)) = None -> hk = []) -> layer_run l hk hv
| lr_append l hk hv k v answers out l' answers' :
    layer_run l hk hv -> t_len k = t_len v -> (t_len k <= widest)%nat -> t_dtype k = F32 -> t_dtype v = F32 ->
    lk_append' k v l answers = (Some out, l', answers') ->
    layer_run l' (hk ++ stored (kp_k (lk_main l)) k) (hv ++ stored (kp_v (lk_main l)) v)
| lr_put_back l hk hv k v answers l' answers' :
    layer_run l hk hv -> hk <> [] -> (t_len k <= widest)%nat -> lk_append' k v l answers = (None, l', answers') -> still_in_step l' ->
    layer_run (lk_truncate (length hk) l') hk hv
| lr_start_over l hk hv k v answers l' answers' :
    layer_run l hk hv -> (t_len k <= widest)%nat -> lk_append' k v l answers = (None, l', answers') -> still_in_step l' ->
    layer_run (lk_reset l') [] []
| lr_truncate l hk hv len :
    layer_run l hk hv -> can_truncate_to l len = true -> layer_run (lk_truncate len l) (take len hk) (take len hv)
| lr_reset l hk hv : layer_run l hk hv -> layer_run (lk_reset l) [] []
| lr_catch_up l hk hv answers : layer_run l hk hv -> layer_run (catch_up_mirror l answers).1 hk hv
| lr_conform l hk hv storage answers l' answers' :
    layer_run l hk hv -> holds_storage storage l -> conform_to storage l answers = (true, l', answers') ->
    layer_run (lk_slide_beyond windowed w l') hk hv
| lr_window l hk hv : layer_run l hk hv -> layer_run (lk_slide_beyond windowed w l) hk hv.

Hypothesis Hw : forall win, w = Some win -> (1 <= win)%nat.

(** ** An append that failed *)

Lemma pair_append_failed k v p answers p' answers' : pair_append k v p answers = (None, p', answers') ->
  exists ok a1, sc_append k (kp_k p) answers = (ok, kp_k p', a1) /\
    (kp_v p' = kp_v p \/ exists ok' a2, sc_append v (kp_v p) a1 = (ok', kp_v p', a2)).
Proof.
  unfold pair_append. destruct (sc_append k (kp_k p) answers) as [[[|] ck] a1]; cbn [negb].
  2: { intros. simplify_eq. cbn. eauto. }
  destruct (sc_append v (kp_v p) a1) as [[[|] cv] a2] eqn:Ev; cbn [negb].
  2: { intros. simplify_eq. cbn. eauto 10. }
  destruct (answer_with ck k a2) as [[ok|] a3]; [destruct (answer_with cv v a3) as [[ov|] a4]; [done|]|];
    intros; simplify_eq; cbn; eauto 10.
Qed.

Lemma lk_append_failed k v l answers l' answers' : lk_append' k v l answers = (None, l', answers') ->
  exists p a1, pair_append k v (lk_main l) answers = (None, p, a1) /\ l' = lk_with l p (lk_shadow l).
Proof.
  unfold lk_append. destruct (pair_append k v (lk_main l) answers) as [[[out|] p] a1]; [|intros; simplify_eq; eauto].
  intros E. exfalso. revert E. repeat case_match; done.
Qed.

(** What an append, whether or not it succeeded, leaves of one side: what was there, with
    none or some of the new rows, some of the oldest perhaps let go of. *)
Record attempted (keep : option nat) (hist : list Row) (c c' : SeqCache) : Prop := {
  at_keeps : exists more, keeps c' keep (hist ++ more);
  at_start : sc_start c' = sc_start c \/ exists kept, keep = Some kept /\ (sc_start c + kept < length hist)%nat /\ sc_start c' = (length hist - kept)%nat;
  at_store : sc_store_dtype c' = sc_store_dtype c;
  at_grow : sc_grow_by c' = sc_grow_by c;
  at_data : forall ad, sc_all_data c = Some ad -> exists ad', sc_all_data c' = Some ad' /\ t_dtype ad' = t_dtype ad }.

Lemma attempted_not c keep hist : keeps c keep hist -> attempted keep hist c c.
Proof. intros Hk. split; [exists []; by rewrite app_nil_r|by left|done|done|eauto]. Qed.

Lemma attempted_append c keep hist src answers ok c' answers' : keeps c keep hist -> sc_append src c answers = (ok, c', answers') ->
  attempted keep hist c c'.
Proof.
  intros [Hok Hk Hl Hv] E. pose proof (sc_append_spec src c answers Hok) as Ha. rewrite E in Ha. destruct Ha as [d Ha].
  pose proof (ok_start _ Hok) as Hs. split.
  - exists (if ok then stored c src else []).
    assert (Hd : (sc_start c + d <= length hist)%nat) by (destruct (ap_slid _ _ _ _ _ Ha) as [->|(? & _ & -> & _)]; unfold sc_held in *; lia).
    split; [apply Ha|by rewrite (ap_keep _ _ _ _ _ Ha)|..].
    + rewrite (ap_len _ _ _ _ _ Ha), length_app, Hl. destruct ok; [by rewrite stored_length|done].
    + rewrite (ap_view _ _ _ _ _ Ha), Hv, drop_drop, (ap_start _ _ _ _ _ Ha), drop_app_le by done. by destruct ok.
  - rewrite (ap_start _ _ _ _ _ Ha). destruct (ap_slid _ _ _ _ _ Ha) as [->|(kept & Hkept & -> & Hlt)]; [left; lia|right].
    exists kept. unfold sc_held in *. split_and!; [congruence|lia|lia].
  - by eapply sc_append_store.
  - by eapply sc_append_grow_by.
  - intros ad Had. by eapply sc_append_data.
Qed.

Lemma attempted_back c keep hist c' : keeps c keep hist -> attempted keep hist c c' -> keeps (sc_truncate (length hist) c') keep hist.
Proof.
  intros Hk [(more & Hm) Hs _ _ _]. rewrite <- (take_app_length hist more) at 2. apply keeps_truncate; [done|].
  pose proof (ok_start _ (ke_ok _ _ _ Hk)). rewrite (ke_len _ _ _ Hk) in *. destruct Hs as [->|(? & _ & _ & ->)]; lia.
Qed.

(** Without a window nothing is let go of; with one, never what it still needs. *)
Definition holds_window (window : option nat) (hist : list Row) (c : SeqCache) : Prop :=
  sc_start c = 0%nat \/ exists win, window = Some win /\ (sc_start c + win - 1 <= length hist)%nat.

Lemma attempted_window window hist c c' : holds_window window hist c -> attempted (positions_kept_for_window <$> window) hist c c' -> holds_window window hist c'.
Proof.
  intros Hh [_ Hs _ _ _]. destruct Hs as [Hs|(kept & Hk & Hlt & Hs)]; [unfold holds_window; by rewrite Hs|]. right.
  destruct window as [win|]; [|done]. injection Hk as <-. exists win. split; [done|]. unfold positions_kept_for_window, WINDOW_REWIND_POSITIONS in *. lia.
Qed.

Lemma failed_sides l hk hv k v answers l' answers' : let keep := positions_kept_for_window <$> lk_window l in
  keeps (kp_k (lk_main l)) keep hk -> keeps (kp_v (lk_main l)) keep hv -> lk_append' k v l answers = (None, l', answers') ->
  l' = lk_with l (lk_main l') (lk_shadow l) /\
  attempted keep hk (kp_k (lk_main l)) (kp_k (lk_main l')) /\ attempted keep hv (kp_v (lk_main l)) (kp_v (lk_main l')).
Proof.
  intros keep Hk Hv E. apply lk_append_failed in E as (p & a1 & Ep & ->). cbn [lk_with lk_main]. split; [done|].
  apply pair_append_failed in Ep as (ok & a2 & Ek & Hor). split; [by eapply attempted_append|].
  destruct Hor as [->|(ok' & a3 & Ev)]; [by apply attempted_not|by eapply attempted_append].
Qed.

Lemma stands_put_back l hk hv k v answers l' answers' ad : stands l hk hv -> sc_all_data (kp_k (lk_main l)) = Some ad ->
  lk_append' k v l answers = (None, l', answers') -> still_in_step l' -> stands (lk_truncate (length hk) l') hk hv.
Proof.
  intros HL Had E Hin. destruct (failed_sides _ _ _ _ _ _ _ _ (lo_keys _ _ _ _ _ HL) (lo_values _ _ _ _ _ HL) E) as (El & Ak & Av).
  destruct HL as [Hwin Hkk Hvv Hst Hkv Hse Hdt Hsh]. rewrite El. set (p := lk_main l') in *.
  assert (Hadv : exists adv, sc_all_data (kp_v (lk_main l)) = Some adv) by (destruct (is_data _ _ Hst) as [(? & ? & _ & ?)|[? _]]; [eauto|congruence]).
  destruct Hadv as [adv Hadv]. destruct (at_data _ _ _ _ Ak ad Had) as (ad' & Had' & Tk). destruct (at_data _ _ _ _ Av adv Hadv) as (adv' & Hadv' & Tv).
  assert (Hdk : sc_dtype (kp_k p) = sc_dtype (kp_k (lk_main l))) by (unfold sc_dtype; rewrite Had, Had', Tk; done).
  assert (Hdv : sc_dtype (kp_v p) = sc_dtype (kp_v (lk_main l))) by (unfold sc_dtype; rewrite Hadv, Hadv', Tv; done).
  pose proof (attempted_window _ _ _ _ Hse Ak) as Hserve.
  assert (Hwk : lk_window l' = lk_window l) by (rewrite El; done).
  assert (Hstart : sc_start (kp_k p) = sc_start (kp_v p)).
  { destruct Hin as [Hn|[Hs _]]; [|done]. rewrite Hwk in Hn. rewrite Hn in Ak, Av. destruct (at_start _ _ _ _ Ak) as [->|(? & ? & _)]; [|done].
    destruct (at_start _ _ _ _ Av) as [->|(? & ? & _)]; [|done]. apply Hst. }
  split; cbn; try done.
  - by apply (attempted_back (kp_k (lk_main l))).
  - rewrite Hkv. by apply (attempted_back (kp_v (lk_main l))).
  - split; cbn; [done| |by rewrite (at_grow _ _ _ _ Ak), (at_grow _ _ _ _ Av), (is_grow _ _ Hst)|left; eauto].
    intros [?|Hk]; [done|]. destruct Hin as [Hn|[_ Hm]]; [|done]. destruct (at_keeps _ _ _ _ Ak) as [more Hm]. rewrite (ke_keep _ _ _ Hm), <- Hwk, Hn in Hk. done.
  - destruct Hdt as [S1 S2 S3 S4 S5]. unfold sc_dtype in Hdk, Hdv. split; cbn; rewrite ?(at_store _ _ _ _ Ak), ?(at_store _ _ _ _ Av); try done; unfold sc_dtype in *; cbn; rewrite ?Hdk, ?Hdv; done.
  - intros sh Hs. destruct (lk_shadow l) as [sh0|] eqn:Es; [|done]. cbn in Hs. simplify_eq. destruct (Hsh sh0 eq_refl) as (Hm & Hh & Mk & Mv & Hlen).
    split; [done|]. split; [unfold holds_half in *; cbn; unfold sc_dtype in *; cbn; by rewrite Hdk|]. split_and!.
    + cbn. rewrite <- (take_ge hk (length hk)) at 2 by done. by apply mirrors_truncate.
    + cbn. rewrite <- (take_ge hv (length hk)) by lia. by apply mirrors_truncate.
    + cbn. by rewrite Hlen, (mi_start _ _ Mk), (mi_start _ _ Mv).
Qed.

Lemma stands_start_over l hk hv k v answers l' answers' : stands l hk hv -> lk_append' k v l answers = (None, l', answers') -> still_in_step l' ->
  stands (lk_reset l') [] [].
Proof.
  intros HL E Hin. destruct (failed_sides _ _ _ _ _ _ _ _ (lo_keys _ _ _ _ _ HL) (lo_values _ _ _ _ _ HL) E) as (El & Ak & Av).
  pose proof (layer_ok_reset _ _ _ _ _ HL) as [Hwin Hkk Hvv Hst Hkv Hse Hdt Hsh]. rewrite El. set (p := lk_main l') in *.
  assert (Hwk : lk_window l' = lk_window l) by (rewrite El; done). destruct (at_keeps _ _ _ _ Ak) as [mk Kk]. destruct (at_keeps _ _ _ _ Av) as [mv Kv].
  split; cbn in *; try done.
  - by eapply keeps_reset.
  - by eapply keeps_reset.
  - split; cbn; [done| |by rewrite (at_grow _ _ _ _ Ak), (at_grow _ _ _ _ Av), (is_grow _ _ (lo_step _ _ _ _ _ HL))|by right].
    intros [?|Hk]; [done|]. destruct Hin as [Hn|[_ Hm]]; [|done]. rewrite (ke_keep _ _ _ Kk), <- Hwk, Hn in Hk. done.
  - destruct Hdt as [S1 S2 S3 S4 S5]. cbn in *. unfold sc_dtype in *. cbn in *. split; unfold sc_dtype; cbn; rewrite ?(at_store _ _ _ _ Ak), ?(at_store _ _ _ _ Av); done.
  - intros sh Hs. destruct (Hsh sh Hs) as (? & Hh & HM). split; [done|]. split; [|done]. unfold holds_half in *. cbn in *. unfold sc_dtype in *. cbn in *. by rewrite (at_store _ _ _ _ Ak).
Qed.

(** What a layer reads after a failed step is put back, its two sides taken apart: each
    holds the end of its rows, and never less than the window. *)
Record layer_reads (l : LayerKv) (hk hv : list Row) : Prop := {
  rd_keys : keeps (kp_k (lk_main l)) (positions_kept_for_window <$> lk_window l) hk;
  rd_values : keeps (kp_v (lk_main l)) (positions_kept_for_window <$> lk_window l) hv;
  rd_keys_window : holds_window (lk_window l) hk (kp_k (lk_main l));
  rd_values_window : holds_window (lk_window l) hv (kp_v (lk_main l));
  rd_mirror : forall sh, lk_shadow l = Some sh -> mirrors (kp_k sh) hk /\ mirrors (kp_v sh) hv }.

Lemma stands_values_window l hk hv : stands l hk hv -> holds_window (lk_window l) hv (kp_v (lk_main l)).
Proof.
  intros HL. unfold holds_window. rewrite <- (is_start _ _ (lo_step _ _ _ _ _ HL)), <- (lo_kv _ _ _ _ _ HL). apply HL.
Qed.

Lemma stands_reads l hk hv : stands l hk hv -> layer_reads l hk hv.
Proof.
  intros HL. pose proof (stands_values_window _ _ _ HL) as Hv. destruct HL as [Hwin Hkk Hvv Hst Hkv Hse Hdt Hsh]. split; try done.
  intros sh Hs. by destruct (Hsh sh Hs) as (_ & _ & ? & ? & _).
Qed.

Lemma put_back_reads l hk hv k v answers l' answers' : stands l hk hv -> lk_append' k v l answers = (None, l', answers') ->
  layer_reads (lk_truncate (length hk) l') hk hv.
Proof.
  intros HL E. destruct (failed_sides _ _ _ _ _ _ _ _ (lo_keys _ _ _ _ _ HL) (lo_values _ _ _ _ _ HL) E) as (El & Ak & Av).
  pose proof (stands_values_window _ _ _ HL) as Hvw. destruct HL as [Hwin Hkk Hvv Hst Hkv Hse Hdt Hsh]. rewrite El. set (p := lk_main l') in *. split; cbn.
  - by apply (attempted_back (kp_k (lk_main l))).
  - rewrite Hkv. by apply (attempted_back (kp_v (lk_main l))).
  - exact (attempted_window _ _ _ _ Hse Ak).
  - exact (attempted_window _ _ _ _ Hvw Av).
  - intros sh Hs. destruct (lk_shadow l) as [sh0|]; [|done]. cbn in Hs. simplify_eq. destruct (Hsh sh0 eq_refl) as (_ & _ & Mk & Mv & _). split; cbn.
    + rewrite <- (take_ge hk (length hk)) at 2 by done. by apply mirrors_truncate.
    + rewrite <- (take_ge hv (length hk)) by lia. by apply mirrors_truncate.
Qed.

(** ** A cache stored as asked already *)

Lemma stands_conform l hk hv storage answers l' answers' : stands l hk hv -> (sc_all_data (kp_k (lk_main l)) = None -> hk = []) ->
  holds_storage storage l -> conform_to storage l answers = (true, l', answers') ->
  stands (lk_slide_beyond windowed w l') hk hv /\ (sized l -> sized (lk_slide_beyond windowed w l')) /\
  (sc_all_data (kp_k (lk_main l')) = None -> hk = []).
Proof.
  intros HL Hnil [Hd Hm] E.
  assert (Hconv : exists d, convert_main d l answers = (true, l', answers') /\ sc_dtype (kp_k (lk_main l)) = Some d /\ (d = F16 \/ d = F32)).
  { assert (Hun : lk_mirrorable l = false -> lk_unmirrored l = l).
    { intros Hf. destruct (lk_shadow l) as [sh|] eqn:Es; [destruct (lo_shadow _ _ _ _ _ HL sh Es); congruence|]. destruct l; cbn in *. by subst. }
    destruct storage; cbn in E, Hd; [destruct Hm as [|Hm]; [done|rewrite Hun in E by done; eauto]|eauto|destruct Hm as [|Hm]; [done|rewrite Hun in E by done; eauto]]. }
  destruct Hconv as (d & Ec & Hdt & Hone). unfold convert_main in Ec. destruct (sc_all_data (kp_k (lk_main l))) as [ad|] eqn:Ead.
  - rewrite bool_decide_eq_true_2 in Ec by done. injection Ec as <- <-. set (l1 := lk_with l _ _).
    assert (H1 : stands l1 hk hv).
    { destruct HL as [Hwin Hkk Hvv Hst Hkv Hse [S1 S2 S3 S4 S5] Hsh]. split; cbn; try done.
      - destruct Hkk as [? ? ? ?]. split; try done. by apply sc_set_store_dtype_ok.
      - destruct Hvv as [? ? ? ?]. split; try done. by apply sc_set_store_dtype_ok.
      - by destruct Hst as [? ? ? ?]; split.
      - assert (Hdk : sc_dtype (sc_set_store_dtype (Some d) (kp_k (lk_main l))) = Some d) by (unfold sc_dtype in *; cbn; by rewrite Ead in *).
        assert (Hdv : sc_dtype (sc_set_store_dtype (Some d) (kp_v (lk_main l))) = Some d).
        { unfold sc_dtype in *. cbn. destruct (is_data _ _ Hst) as [(a & b & Ea & Eb)|[? _]]; [|congruence]. rewrite Eb in *. congruence. }
        split; rewrite ?Hdk, ?Hdv; cbn; try done; by intros ? [= <-].
      - intros sh Hs. destruct (Hsh sh Hs) as (? & Hh & HM). split; [done|]. split; [|done]. unfold holds_half in *. cbn. unfold sc_dtype in *. cbn. by rewrite Ead in *. }
    split_and!; [by apply layer_ok_window|intros Hsz; eapply sized_window; [destruct Hsz; by split|exact H1]|cbn; by rewrite Ead].
  - injection Ec as <- <-. specialize (Hnil eq_refl). subst hk. assert (hv = []) as -> by (apply length_zero_iff_nil; by rewrite <- (lo_kv _ _ _ _ _ HL)).
    set (fresh := pair_with_capacity_in _ _ _ _) in *. split_and!; [|intros Hsz; by apply sized_fresh|done].
    pose proof (fresh_layer_ok (strict := false) windowed w Hw fresh (lk_growth l) (lk_initial l) (lk_mirrorable l) (lk_window l)) as Hf.
    destruct Hf as [Hwin Hkk Hvv Hst Hkv Hse Hdt' Hsh]; try done.
    { intros c [-> | ->]; (split_and!; try done); apply sc_set_store_dtype_ok, seq_with_capacity_ok. }
    { intros d' [= <-]. done. }
    unfold lk_slide_beyond in *. cbn [lk_with lk_mirrorable lk_main lk_growth lk_initial lk_shadow] in *.
    destruct (match w with Some w => if caches_slide windowed (lk_mirrorable l) then Some w else None | None => None end) as [win|];
      cbn [fmap option_fmap option_map] in *; split; cbn; try done; intros sh Hs; destruct (lo_shadow _ _ _ _ _ HL sh Hs) as (? & Hh & HM); (split; [done|]); (split; [|done]);
      unfold holds_half in *; cbn; unfold sc_dtype in *; cbn; rewrite Ead in Hh, Hdt; by rewrite <- Hdt.
Qed.

(** ** Every history keeps the invariant *)

Lemma layer_run_stands l hk hv : layer_run l hk hv -> stands l hk hv /\ (sc_all_data (kp_k (lk_main l)) = None -> hk = []).
Proof.
  induction 1 as [dim initial growth storage|dim initial growth|l hk hv HL Hsz Hnil|l hk hv k v answers out l' answers' _ [IH _] Hlen Hwide Dk Dv E
    |l hk hv k v answers l' answers' _ [IH Hn] Hne Hwide E Hin|l hk hv k v answers l' answers' _ [IH _] Hwide E Hin
    |l hk hv len _ [IH Hn] Hc|l hk hv _ [IH _]|l hk hv answers _ [IH Hn]|l hk hv storage answers l' answers' _ [IH Hn] Hst E|l hk hv _ [IH Hn]].
  - split; [|done]. unfold layer_with_storage. destruct storage; apply fresh_layer_ok; cbn; try done;
      try (intros d [= <-]; auto); intros c [-> | ->]; (split_and!; try done); apply sc_set_store_dtype_ok, seq_with_capacity_ok.
  - split; [|done]. apply fresh_layer_ok; cbn; try done. intros c [-> | ->]; (split_and!; try done); apply seq_with_capacity_ok.
  - done.
  - split; [by eapply layer_ok_append|]. unfold lk_append in E. destruct (pair_append k v (lk_main l) answers) as [[[out0|] main] a1] eqn:Ep; [|done].
    apply pair_append_parts in Ep as (b1 & b2 & b3 & b4 & b5 & Ek & _). destruct (keeps_append _ _ _ _ _ _ _ (lo_keys _ _ _ _ _ IH) Ek) as (_ & _ & _ & [ad Had] & _).
    assert (Hmain : lk_main l' = main) by (revert E; repeat case_match; intros; by simplify_eq). rewrite Hmain. congruence.
  - destruct (sc_all_data (kp_k (lk_main l))) as [ad|] eqn:Had; [|by rewrite Hn in Hne]. split; [by eapply stands_put_back|].
    destruct (failed_sides _ _ _ _ _ _ _ _ (lo_keys _ _ _ _ _ IH) (lo_values _ _ _ _ _ IH) E) as (_ & Ak & _). destruct (at_data _ _ _ _ Ak ad Had) as (ad' & Had' & _).
    cbn. congruence.
  - split; [by eapply stands_start_over|done].
  - split; [by apply layer_ok_truncate|]. cbn. intros Hd. rewrite (Hn Hd). by rewrite take_nil.
  - split; [by eapply layer_ok_reset|done].
  - split; [by apply layer_ok_catch_up|]. unfold catch_up_mirror. by repeat case_match.
  - destruct (stands_conform _ _ _ _ _ _ _ IH Hn Hst E) as (H1 & _ & H2). split; [done|]. unfold lk_slide_beyond, sc_cap_first_allocation. cbn.
    destruct (positions_kept_for_window <$> _); cbn; [|done]. unfold sc_cap_first_allocation. cbn. by destruct (sc_all_data (kp_k (lk_main l'))) eqn:Ed; cbn; [rewrite Ed|auto].
  - split; [by apply layer_ok_window|]. unfold lk_slide_beyond. destruct (positions_kept_for_window <$> _); cbn; [|done]. unfold sc_cap_first_allocation. cbn.
    by destruct (sc_all_data (kp_k (lk_main l))) eqn:Ed; cbn; [rewrite Ed|auto].
Qed.

Lemma layer_run_ok l hk hv : layer_run l hk hv -> stands l hk hv.
Proof. intros Hr. by apply layer_run_stands. Qed.

Lemma attempt_sized l hk hv k v answers out l' answers' : stands l hk hv -> sized l -> (t_len k <= widest)%nat ->
  lk_append' k v l answers = (out, l', answers') -> sized l'.
Proof.
  intros HL [Hg Hm] Hwide E.
  assert (Hside : exists ok a1, sc_append k (kp_k (lk_main l)) answers = (ok, kp_k (lk_main l'), a1) /\ lk_growth l' = lk_growth l /\ lk_window l' = lk_window l).
  { destruct out as [out|].
    - unfold lk_append in E. destruct (pair_append k v (lk_main l) answers) as [[[out0|] main] a1] eqn:Ep; [|done].
      apply pair_append_parts in Ep as (b1 & b2 & b3 & b4 & b5 & Ek & _). exists true, b1. assert (Hl' : exists sh, l' = lk_with l main sh) by (revert E; repeat case_match; intros; simplify_eq; eauto).
      by destruct Hl' as [sh ->].
    - apply lk_append_failed in E as (p & a1 & Ep & ->). apply pair_append_failed in Ep as (ok & a2 & Ek & _). by exists ok, a2. }
  destruct Hside as (ok & a1 & Ek & Hgl & Hwl). split; rewrite ?Hgl, ?Hwl; [by rewrite (sc_append_grow_by _ _ _ _ _ _ Ek)|]. intros win Ew. specialize (Hm win Ew).
  pose proof (sc_append_spec k (kp_k (lk_main l)) answers (ke_ok _ _ _ (lo_keys _ _ _ _ _ HL))) as Ha. rewrite Ek in Ha. destruct Ha as [d Ha].
  pose proof (ap_size _ _ _ _ _ Ha) as Hsz. pose proof (window_append_size (kp_k (lk_main l)) (positions_kept_for_window win) (t_len k)) as Hs.
  rewrite (ke_keep _ _ _ (lo_keys _ _ _ _ _ HL)), Ew, Hg in Hs. specialize (Hs eq_refl ltac:(lia)). unfold sc_allocated, most_positions_a_window_holds in *.
  destruct (sc_all_data (kp_k (lk_main l))); lia.
Qed.

Lemma layer_run_sized l hk hv : layer_run l hk hv -> sized l.
Proof.
  intros Hr. induction Hr as [dim initial growth storage|dim initial growth|l hk hv HL Hsz _|l hk hv k v answers out l' answers' Hr IH Hlen Hwide Dk Dv E
    |l hk hv k v answers l' answers' Hr IH Hne Hwide E Hin|l hk hv k v answers l' answers' Hr IH Hwide E Hin
    |l hk hv len Hr IH Hc|l hk hv Hr IH|l hk hv answers Hr IH|l hk hv storage answers l' answers' Hr IH Hst E|l hk hv Hr IH].
  - unfold layer_with_storage. destruct storage; by apply sized_fresh.
  - by apply sized_fresh.
  - done.
  - eapply attempt_sized; eauto using layer_run_ok.
  - assert (Hz : sized l') by (eapply attempt_sized; eauto using layer_run_ok). destruct Hz. by split.
  - assert (Hz : sized l') by (eapply attempt_sized; eauto using layer_run_ok). destruct Hz. by split.
  - destruct IH as [Hg Hm]. by split.
  - destruct IH as [Hg Hm]. by split.
  - unfold catch_up_mirror. destruct IH as [Hg Hm]. repeat case_match; by split.
  - destruct (layer_run_stands _ _ _ Hr) as [HL Hn]. by destruct (stands_conform _ _ _ _ _ _ _ HL Hn Hst E) as (_ & Hz & _); apply Hz.
  - eapply sized_window; [done|by apply layer_run_ok].
Qed.
End layer_run.

(** ** What every reachable cache answers with *)

Section answers.
Context `{Candle} (windowed mirror_is_lazy : bool) (wants_shadow : Tensor -> bool) (w : option nat) (widest : nat).

(** C7: a layer's cache reads the newest rows of the keys and values it was given: all of
    them, or - for a layer with a window - at least the window before the next position,
    from a buffer never larger than what its cost estimate charges.  This after any
    sequence, from a fresh cache or one that stands for rows already (a restored one), of
    appends; appends that failed, cut back to where they began or started over, where the
    layer has no window or its keys and values were left at one position in buffers of
    one size; cuts that [can_truncate_to] allows; resets; mirror catch-ups; and being
    conformed to the storage it has and told its window. *)
Theorem cache_reads_the_newest_rows l hk hv : (forall win, w = Some win -> (1 <= win)%nat) ->
  layer_run windowed mirror_is_lazy wants_shadow w widest l hk hv ->
  lk_current_seq_len l = length hk /\
  sc_view (kp_k (lk_main l)) = drop (lk_held_from l) hk /\ sc_view (kp_v (lk_main l)) = drop (lk_held_from l) hv /\
  match lk_window l with
  | None => lk_held_from l = 0%nat
  | Some win => (Nat.min (win - 1) (length hk) <= length (sc_view (kp_k (lk_main l))))%nat /\
      (sc_max_seq_len (kp_k (lk_main l)) <= most_positions_a_window_holds win (lk_growth l) widest)%nat
  end.
Proof.
  intros Hw Hr. pose proof (layer_run_ok _ _ _ _ _ Hw _ _ _ Hr) as HL.
  pose proof (ke_view _ _ _ (lo_keys _ _ _ _ _ HL)) as Hk. pose proof (ke_view _ _ _ (lo_values _ _ _ _ _ HL)) as Hv.
  rewrite <- (is_start _ _ (lo_step _ _ _ _ _ HL)) in Hv. split_and!; [apply (ke_len _ _ _ (lo_keys _ _ _ _ _ HL))|done|done|].
  destruct (lk_window l) as [win|] eqn:Ew.
  - split; [|by apply (sz_max _ _ (layer_run_sized _ _ _ _ _ Hw _ _ _ Hr))].
    rewrite Hk, length_drop. unfold lk_held_from, sc_held_from in *.
    pose proof (lo_serves _ _ _ _ _ HL) as Hs. unfold lk_held_from, sc_held_from in Hs.
    destruct Hs as [->|(win' & Ew' & Hs)]; [lia|]. rewrite Ew in Ew'. simplify_eq. lia.
  - destruct (lo_serves _ _ _ _ _ HL) as [|(? & ? & _)]; [done|congruence].
Qed.

(** C26: a failed append parts the keys of a sliding-window layer from its values: when the
    keys have slid and the values' own slide then fails, cutting both back to where the
    step began leaves the keys beginning later than the values, and the next append that
    fits answers with fewer rows of keys than of values. *)
Theorem failed_slide_parts_keys_and_values l hk hv k v answers l' answers' k2 v2 answers2 out l2 answers2' :
  (forall win, w = Some win -> (1 <= win)%nat) ->
  layer_run windowed mirror_is_lazy wants_shadow w widest l hk hv ->
  lk_append mirror_is_lazy wants_shadow k v l answers = (None, l', answers') ->
  sc_start (kp_k (lk_main l')) <> sc_start (kp_k (lk_main l)) -> sc_start (kp_v (lk_main l')) = sc_start (kp_v (lk_main l)) ->
  let back := lk_truncate (length hk) l' in
  t_len k2 = t_len v2 -> (sc_held (kp_v (lk_main back)) + t_len k2 <= sc_max_seq_len (kp_v (lk_main back)))%nat ->
  (sc_max_seq_len (kp_v (lk_main back)) <= sc_max_seq_len (kp_k (lk_main back)))%nat ->
  lk_append mirror_is_lazy wants_shadow k2 v2 back answers2 = (Some out, l2, answers2') ->
  lk_current_seq_len back = length hk /\ (sc_start (kp_v (lk_main back)) < sc_start (kp_k (lk_main back)))%nat /\
  sc_view (kp_k (lk_main back)) = drop (sc_start (kp_k (lk_main back))) hk /\ sc_view (kp_v (lk_main back)) = drop (sc_start (kp_v (lk_main back))) hv /\
  (t_len out.1 < t_len out.2)%nat.
Proof.
  intros Hw Hr E Hslid Hleft back Hlen Hfit Hmax E2. pose proof (layer_run_ok _ _ _ _ _ Hw _ _ _ Hr) as HL.
  pose proof (lo_keys _ _ _ _ _ HL) as Hk. pose proof (lo_values _ _ _ _ _ HL) as Hv. pose proof (lo_kv _ _ _ _ _ HL) as Hkv.
  destruct (failed_sides _ _ _ _ _ _ _ _ _ _ Hk Hv E) as (_ & Ak & Av). pose proof (attempted_back _ _ _ _ Hk Ak) as Bk. pose proof (attempted_back _ _ _ _ Hv Av) as Bv.
  rewrite <- Hkv in Bv. assert (Hlt : (sc_start (kp_v (lk_main back)) < sc_start (kp_k (lk_main back)))%nat).
  { unfold back. cbn. rewrite Hleft, <- (is_start _ _ (lo_step _ _ _ _ _ HL)). destruct (at_start _ _ _ _ Ak) as [|(kept & _ & Hlt & Hs)]; [done|lia]. }
  split_and!; [apply (ke_len _ _ _ Bk)|done|apply (ke_view _ _ _ Bk)|apply (ke_view _ _ _ Bv)|].
  assert (Hout : exists main a1, pair_append k2 v2 (lk_main back) answers2 = (Some out, main, a1)).
  { unfold lk_append in E2. destruct (pair_append k2 v2 (lk_main back) answers2) as [[[out0|] main] a1]; [|done]. exists main, a1. repeat case_match; by simplify_eq. }
  destruct Hout as (main & a1 & Ep). apply pair_append_parts in Ep as (b1 & b2 & b3 & b4 & b5 & Ek & Ev & Ok & Ov).
  destruct (keeps_append _ _ _ _ _ _ _ Bk Ek) as (Kk & Sk & _ & Dk & _). destruct (keeps_append _ _ _ _ _ _ _ Bv Ev) as (Kv & Sv & _ & Dv & _).
  destruct (answer_with_view _ _ _ _ _ (ke_ok _ _ _ Kk) Dk Ok) as [Rk _]. destruct (answer_with_view _ _ _ _ _ (ke_ok _ _ _ Kv) Dv Ov) as [Rv _].
  assert (Hheld : (sc_held (kp_k (lk_main back)) <= sc_held (kp_v (lk_main back)))%nat).
  { unfold sc_held. pose proof (ke_len _ _ _ Bk) as H1. pose proof (ke_len _ _ _ Bv) as H2. unfold back in *. cbn in *. lia. }
  assert (Hstay : forall c n, (sc_held c + n <= sc_max_seq_len c)%nat -> slid_by c n = 0%nat).
  { intros c n Hc. unfold slid_by. destruct (sc_keep c); [|done]. by rewrite (proj2 (Nat.ltb_ge _ _)) by lia. }
  unfold t_len in *. rewrite Rk, Rv, (ke_view _ _ _ Kk), (ke_view _ _ _ Kv), !length_drop, Sk, Sv, !length_app, !stored_length, !Hstay by (unfold back in *; cbn in *; lia).
  pose proof (ok_start _ (ke_ok _ _ _ Bk)) as Hs. rewrite (ke_len _ _ _ Bk) in Hs. unfold t_len, back in *. cbn in *. lia.
Qed.

(** C32: what the flash kernel is given is the whole history in f16, keys and values;
    a mirror left behind or broken is never handed out. *)
Theorem flash_reads_the_whole_history l hk hv k v : (forall win, w = Some win -> (1 <= win)%nat) ->
  layer_run windowed mirror_is_lazy wants_shadow w widest l hk hv ->
  flash_operands mirror_is_lazy l = Some (k, v) -> t_rows k = rounded hk /\ t_rows v = rounded hv.
Proof.
  intros Hw Hr Hf. pose proof (layer_run_ok _ _ _ _ _ Hw _ _ _ Hr) as HL. unfold flash_operands in Hf.
  destruct (lk_shadow l) as [sh|] eqn:Esh; [|done]. destruct (lo_shadow _ _ _ _ _ HL sh Esh) as (_ & _ & Mk & Mv & Hlen).
  destruct (_ && mirror_is_lazy); [done|].
  destruct (Nat.eqb_spec (pair_current_seq_len sh) (pair_current_seq_len (lk_main l))) as [Heq|]; [|done]. cbn [negb] in Hf.
  pose proof (sc_current_data_view _ (mi_ok _ _ Mk)) as Ck. pose proof (sc_current_data_view _ (mi_ok _ _ Mv)) as Cv.
  destruct (sc_current_data (kp_k sh)) as [[k'|]|], (sc_current_data (kp_v sh)) as [[v'|]|]; try done. simplify_eq.
  destruct Ck as (-> & _). destruct Cv as (-> & _). rewrite (mi_view _ _ Mk), (mi_view _ _ Mv), <- Hlen.
  unfold pair_current_seq_len in Heq. rewrite Heq, (ke_len _ _ _ (lo_keys _ _ _ _ _ HL)).
  rewrite !take_ge; [done| |done]. by rewrite (lo_kv _ _ _ _ _ HL).
Qed.
End answers.

(** what the head-room guard charges for a forward is exactly what its append
    allocates: the new buffer's positions, the old ones kept when a forward starts the
    cache over. *)
Theorem claim_is_what_append_allocates `{Candle} c index_pos src answers c' answers' : sc_ok c ->
  sc_append src (if (index_pos =? 0)%nat then sc_reset c else c) answers = (true, c', answers') ->
  sc_allocated c' = (sc_allocated c + positions_added_by c index_pos (t_len src))%nat.
Proof.
  intros Hok E. unfold positions_added_by. destruct (Nat.eqb_spec index_pos 0) as [->|Hne].
  - pose proof (sc_append_spec src (sc_reset c) answers (sc_reset_ok _ Hok)) as Ha. rewrite E in Ha.
    destruct Ha as [d Ha]. destruct (ap_done _ _ _ _ _ Ha eq_refl) as (_ & _ & _ & ->).
    unfold sc_allocated at 1, positions_added_holding, sc_held. cbn.
    match goal with |- context [grown_buffer ?n ?k ?g ?n ?b] => pose proof (grown_buffer_mono n k g n b) end.
    unfold sc_allocated. destruct (sc_all_data c); lia.
  - pose proof (sc_append_spec src c answers Hok) as Ha. rewrite E in Ha. destruct Ha as [d Ha].
    by destruct (ap_done _ _ _ _ _ Ha eq_refl) as (_ & _ & _ & ->).
Qed.

(** ** A worked example

    Rows are numbers, f16 rounds them to even numbers; the device is a card. *)

Definition toy : Candle := {|
  Row := Z; DType := bool; dtype_eq_dec := _; F16 := true; F32 := false; f16_not_f32 := ltac:(done);
  size_in_bytes d := if d then 2 else 4; to_row_dtype d r := if d then r / 2 * 2 else r; zero_row _ := 0;
  Device := bool; is_cuda d := d |}.

Definition toy_tensor (from : Z) (n : nat) : @Tensor toy :=
  Build_Tensor (H := toy) false true 1 (seqZ from (Z.of_nat n)).

Definition toy_appended (k v : @Tensor toy) (l : @LayerKv toy) := lk_append (H := toy) true (fun _ => true) k v l [].

Lemma toy_append w widest l hk hv k v hk' hv' : layer_run (H := toy) true true (fun _ => true) w widest l hk hv ->
  t_len (H := toy) k = t_len (H := toy) v -> (t_len (H := toy) k <=? widest)%nat = true -> t_dtype (H := toy) k = false ->
  t_dtype (H := toy) v = false -> match (toy_appended k v l).1.1 with Some _ => true | None => false end = true ->
  hk' = hk ++ t_rows (to_dtype (default (t_dtype k) (sc_dtype (kp_k (lk_main l)))) k) ->
  hv' = hv ++ t_rows (to_dtype (default (t_dtype v) (sc_dtype (kp_v (lk_main l)))) v) ->
  layer_run (H := toy) true true (fun _ => true) w widest (toy_appended k v l).1.2 hk' hv'.
Proof.
  intros Hr Hl Hw%Nat.leb_le Dk Dv Ho -> ->. destruct (toy_appended k v l) as [[[out|] l'] a] eqn:E; [|done].
  exact (lr_append (H := toy) _ _ _ _ _ _ _ _ _ _ _ _ _ _ Hr Hl Hw Dk Dv E).
Qed.

(** A window of three positions over a cache of f32 rows: seventy positions, then ten
    more, which make it slide. *)
Definition windowed_start : @LayerKv toy := lk_slide_beyond true (Some 3%nat) (layer_with_storage (H := toy) 2 4 4 StoreF32).
Definition after_prompt : @LayerKv toy := (toy_appended (toy_tensor 0 70) (toy_tensor 100 70) windowed_start).1.2.
Definition after_more : @LayerKv toy := (toy_appended (toy_tensor 70 10) (toy_tensor 170 10) after_prompt).1.2.

Lemma windowed_run : layer_run (H := toy) true true (fun _ => true) (Some 3%nat) 70 after_more (seqZ 0 80) (seqZ 100 80).
Proof.
  assert (H2 : layer_run (H := toy) true true (fun _ => true) (Some 3%nat) 70 after_prompt (seqZ 0 70) (seqZ 100 70)).
  { eapply (toy_append (Some 3%nat) 70 windowed_start [] [] (toy_tensor 0 70) (toy_tensor 100 70)); [apply lr_storage|..];
      vm_compute; reflexivity. }
  eapply (toy_append _ _ _ _ _ (toy_tensor 70 10) (toy_tensor 170 10) _ _ H2); vm_compute; reflexivity.
Qed.

(** It slid to position 4 and still reads 76 rows. *)
Lemma cache_reads_the_newest_rows_witness :
  lk_held_from (H := toy) after_more = 4%nat /\ lk_window (H := toy) after_more = Some 3%nat /\
  sc_view (H := toy) (kp_k (lk_main after_more)) = drop (lk_held_from after_more) (seqZ 0 80).
Proof.
  split_and!; [vm_compute; reflexivity..|].
  destruct (cache_reads_the_newest_rows (H := toy) true true (fun _ => true) (Some 3%nat) 70 after_more (seqZ 0 80) (seqZ 100 80))
    as (_ & Hv & _); [intros win [= <-]; lia|exact windowed_run|exact Hv].
Defined.

(** Sixty-eight positions in a buffer of seventy, a step of five whose keys slide and whose
    values fail to: put back, the keys begin at position 2 and the values at 0, and the
    next position is answered with 67 rows of keys and 69 of values. *)
Definition parted_start : @LayerKv toy := lk_slide_beyond true (Some 3%nat) (layer_with_storage (H := toy) 2 70 4 StoreF32).
Definition before_parting : @LayerKv toy := (toy_appended (toy_tensor 0 68) (toy_tensor 100 68) parted_start).1.2.
Definition parting := lk_append (H := toy) true (fun _ => true) (toy_tensor 68 5) (toy_tensor 168 5) before_parting [true; true; true; true; false].
Definition parted : @LayerKv toy := lk_truncate (H := toy) 68 parting.1.2.
Definition answered_apart := lk_append (H := toy) true (fun _ => true) (toy_tensor 68 1) (toy_tensor 168 1) parted [].

Lemma failed_slide_parts_keys_and_values_witness : can_truncate_to (H := toy) parting.1.2 68 = true /\
  sc_view (H := toy) (kp_k (lk_main parted)) = seqZ 2 66 /\ sc_view (H := toy) (kp_v (lk_main parted)) = seqZ 100 68 /\
  exists out, answered_apart.1.1 = Some out /\ (t_len (H := toy) out.1 < t_len (H := toy) out.2)%nat.
Proof.
  assert (Hr : layer_run (H := toy) true true (fun _ => true) (Some 3%nat) 70 before_parting (seqZ 0 68) (seqZ 100 68)).
  { eapply (toy_append (Some 3%nat) 70 parted_start [] [] (toy_tensor 0 68) (toy_tensor 100 68)); [apply lr_storage|..]; vm_compute; reflexivity. }
  do 3 (split; [vm_compute; reflexivity|]).
  assert (Hs : bool_decide (is_Some answered_apart.1.1) = true) by (vm_compute; reflexivity). apply bool_decide_eq_true in Hs as [out Hout]. exists out. split; [exact Hout|].
  assert (Ep : lk_append (H := toy) true (fun _ => true) (toy_tensor 68 5) (toy_tensor 168 5) before_parting [true; true; true; true; false] = (None, parting.1.2, parting.2))
    by (vm_compute; reflexivity).
  assert (Ea : lk_append (H := toy) true (fun _ => true) (toy_tensor 68 1) (toy_tensor 168 1) (lk_truncate (length (seqZ 0 68)) parting.1.2) [] = (Some out, answered_apart.1.2, answered_apart.2)).
  { rewrite <- Hout. vm_compute. reflexivity. }
  pose proof (failed_slide_parts_keys_and_values (H := toy) true true (fun _ => true) (Some 3%nat) 70 before_parting (seqZ 0 68) (seqZ 100 68)
    (toy_tensor 68 5) (toy_tensor 168 5) [true; true; true; true; false] parting.1.2 parting.2 (toy_tensor 68 1) (toy_tensor 168 1) [] out answered_apart.1.2 answered_apart.2) as HT.
  apply HT; [intros win [= <-]; lia|exact Hr|exact Ep|vm_compute; congruence|vm_compute; reflexivity|reflexivity|apply Nat.leb_le; vm_compute; reflexivity|apply Nat.leb_le; vm_compute; reflexivity|exact Ea].
Defined.

(** A mirrored cache: a prompt of three positions, a step that leaves the mirror
    behind, and two positions more, which bring it level. *)
Definition mirrored_start : @LayerKv toy := lk_slide_beyond true None (layer_with_storage (H := toy) 2 4 4 F32Mirrored).
Definition mirrored_1 : @LayerKv toy := (toy_appended (toy_tensor 0 3) (toy_tensor 10 3) mirrored_start).1.2.
Definition mirrored_2 : @LayerKv toy := (toy_appended (toy_tensor 3 1) (toy_tensor 13 1) mirrored_1).1.2.
Definition mirrored_3 : @LayerKv toy := (toy_appended (toy_tensor 4 2) (toy_tensor 14 2) mirrored_2).1.2.

Lemma mirrored_run : layer_run (H := toy) true true (fun _ => true) None 3 mirrored_3 (seqZ 0 6) (seqZ 10 6).
Proof.
  assert (H1 : layer_run (H := toy) true true (fun _ => true) None 3 mirrored_1 (seqZ 0 3) (seqZ 10 3)).
  { eapply (toy_append None 3 mirrored_start [] [] (toy_tensor 0 3) (toy_tensor 10 3)); [apply lr_storage|..]; vm_compute; reflexivity. }
  assert (H2 : layer_run (H := toy) true true (fun _ => true) None 3 mirrored_2 (seqZ 0 4) (seqZ 10 4)).
  { eapply (toy_append _ _ _ _ _ (toy_tensor 3 1) (toy_tensor 13 1) _ _ H1); vm_compute; reflexivity. }
  eapply (toy_append _ _ _ _ _ (toy_tensor 4 2) (toy_tensor 14 2) _ _ H2); vm_compute; reflexivity.
Qed.

Lemma flash_reads_the_whole_history_witness :
  flash_operands (H := toy) true mirrored_2 = None /\
  exists k v, flash_operands (H := toy) true mirrored_3 = Some (k, v) /\
    t_rows (H := toy) k = rounded (H := toy) (seqZ 0 6) /\ t_rows (H := toy) v = rounded (H := toy) (seqZ 10 6).
Proof.
  split; [vm_compute; reflexivity|].
  destruct (flash_operands (H := toy) true mirrored_3) as [[k v]|] eqn:E; [|vm_compute in E; discriminate].
  exists k, v. split; [done|].
  apply (flash_reads_the_whole_history (H := toy) true true (fun _ => true) None 3 mirrored_3 (seqZ 0 6) (seqZ 10 6) k v);
    [done|exact mirrored_run|exact E].
Defined.

Lemma claim_is_what_append_allocates_witness :
  let c := kp_k (lk_main after_prompt) in
  exists c' answers', sc_append (H := toy) (toy_tensor 0 80) (sc_reset c) [] = (true, c', answers') /\
    sc_allocated (H := toy) c' = (sc_allocated (H := toy) c + positions_added_by (H := toy) c 0 80)%nat.
Proof.
  intros c. assert (Hok : (sc_append (H := toy) (toy_tensor 0 80) (sc_reset c) []).1.1 = true) by (vm_compute; reflexivity).
  destruct (sc_append (H := toy) (toy_tensor 0 80) (sc_reset c) []) as [[ok c'] answers'] eqn:E. cbn [fst] in Hok. subst ok.
  exists c', answers'. split; [done|].
  refine (claim_is_what_append_allocates (H := toy) c 0 (toy_tensor 0 80) [] c' answers' _ E).
  split; vm_compute; repeat constructor.
Defined.
