(* ===== verification/KvBudget.v ===== *)
(** * What conversations cost, and what is let in

    [src/inference/split/kv_budget.rs] with the figures it reads of
    [layers/mod.rs] (how a layer keeps its cache), [prefill_pacer.rs] (how wide a
    forward of a prompt may be) and [decode_attn.rs]: what a conversation's caches cost
    as it grows, whether a prompt is let in, and how much of a finished prompt is kept.
    Bytes and positions are u64 values in Z, sums and products saturating as the code's;
    the window, quantum and width that shape a cache are naturals, as in [SeqCache].
    The process's switches (environment variables, build features) are arguments. *)
From S2P Require Import Prelude SeqCache.
#[local] Open Scope Z_scope.

(** ** How a layer keeps its cache *)

Inductive KvAttention : Type := Standard | Mla.
#[global] Instance kv_attention_eq_dec : EqDecision KvAttention.
Proof. solve_decision. Defined.

Definition CUDA_MAX_REP : nat := 16.
Definition CUDA_MAX_D : nat := 256.
Definition card_kernel_geometry (n_head n_kv_head head_dim : nat) : bool :=
  (0 <? n_kv_head)%nat && (n_head mod n_kv_head =? 0)%nat && (n_head / n_kv_head <=? CUDA_MAX_REP)%nat &&
  (0 <? head_dim)%nat && (head_dim mod 32 =? 0)%nat && (head_dim <=? CUDA_MAX_D)%nat.

Record Switches : Type := {
  sw_flash_attn : bool;
  sw_half_on_card : bool;
  sw_decode_kernel : bool;
  sw_mirror : option bool;
  sw_windows_slide : bool }.

Definition f32_cache_wants_mirror (sw : Switches) (n_head n_kv_head : nat) : bool :=
  match sw_mirror sw with Some b => b | None => negb (n_head =? n_kv_head)%nat end.

Definition kv_half_on_card_enabled (sw : Switches) : bool := sw_flash_attn sw && sw_decode_kernel sw && sw_half_on_card sw.

Definition card_kernel_covers (sw : Switches) (n_head n_kv_head head_dim : nat) : bool :=
  sw_decode_kernel sw && card_kernel_geometry n_head n_kv_head head_dim.

Definition kv_storage (sw : Switches) (on_card : bool) (attention : KvAttention) (n_head n_kv_head head_dim : nat) : KvStorage :=
  if negb on_card || negb (sw_flash_attn sw) || bool_decide (attention = Mla) then StoreF32
  else if kv_half_on_card_enabled sw && card_kernel_covers sw n_head n_kv_head head_dim then StoreF16
  else if f32_cache_wants_mirror sw n_head n_kv_head then F32Mirrored
  else StoreF32.

Definition kv_storage_as_advertised (sw : Switches) (on_card keeps_half : bool) (attention : KvAttention)
    (n_head n_kv_head head_dim : nat) : KvStorage :=
  if negb on_card || bool_decide (attention = Mla) then StoreF32
  else if keeps_half && card_kernel_geometry n_head n_kv_head head_dim then StoreF16
  else if f32_cache_wants_mirror sw n_head n_kv_head then F32Mirrored
  else StoreF32.

Definition kv_bytes_per_token (layers k_elems v_elems : Z) (storage : KvStorage) : Z :=
  u64_saturating_mul (u64_saturating_mul layers (u64_saturating_add k_elems v_elems)) (bytes_per_element storage).

Definition standard_kv_elems (head_count_kv head_dim : Z) : Z * Z :=
  let per := u64_saturating_mul head_count_kv head_dim in (per, per).

Definition mla_kv_elems (head_count key_length value_length : Z) : Z * Z :=
  (u64_saturating_mul head_count key_length, u64_saturating_mul head_count value_length).

Definition KV_CACHE_GROWTH_TOKENS : nat := 512.
Definition kv_growth_quantum (max_seq_len : nat) : nat := Nat.min KV_CACHE_GROWTH_TOKENS (Nat.max max_seq_len 1).
Definition kv_cache_reservation (positions : nat) : nat :=
  ((Nat.max positions 1 + KV_CACHE_GROWTH_TOKENS - 1) / KV_CACHE_GROWTH_TOKENS * KV_CACHE_GROWTH_TOKENS)%nat.

(** ** How wide a forward of a prompt may be *)

Definition CARD_CHUNK_TOKENS : nat := 512.
Definition COPIED_CHUNK_MAX_TOKENS : nat := 4096.
Inductive PromptReader : Type := Processor | Card | CardCopyingWeights (room_tokens : nat).

Definition prompt_chunk_ceiling (configured : nat) (reader : PromptReader) : nat :=
  match reader with
  | Processor => configured
  | Card => Nat.max configured CARD_CHUNK_TOKENS
  | CardCopyingWeights room => Nat.max configured (Nat.min (Nat.max room CARD_CHUNK_TOKENS) COPIED_CHUNK_MAX_TOKENS)
  end.

Definition widest_prompt_forward (configured : nat) (reader : PromptReader) (context : nat) : nat :=
  match configured with O => context | _ => prompt_chunk_ceiling configured reader end.

(** ** [KvGrowth]: what a conversation costs as it grows *)

Record KvGrowth : Type := {
  every_position : Z;
  windowed : Z;
  g_window : nat;
  g_quantum : nat;
  g_widest_forward : nat }.

Definition with_window (every windowed : Z) (window quantum : nat) : KvGrowth :=
  {| every_position := every; windowed := windowed; g_window := window; g_quantum := quantum; g_widest_forward := 0 |}.

Definition has_window (g : KvGrowth) : bool := 0 <? windowed g.

Definition widened_to (positions : nat) (g : KvGrowth) : KvGrowth :=
  {| every_position := every_position g; windowed := windowed g; g_window := g_window g; g_quantum := g_quantum g;
     g_widest_forward := Nat.max (g_widest_forward g) positions |}.

Definition per_position (g : KvGrowth) : Z := u64_saturating_add (every_position g) (windowed g).

Definition window_cap (g : KvGrowth) : Z :=
  Z.of_nat (most_positions_a_window_holds (g_window g) (g_quantum g) (g_widest_forward g)).

Definition bytes_for (g : KvGrowth) (positions : Z) : Z :=
  let windowed_positions := if has_window g then Z.min positions (window_cap g) else 0 in
  u64_saturating_add (u64_saturating_mul (every_position g) positions) (u64_saturating_mul (windowed g) windowed_positions).

Definition bytes_between (g : KvGrowth) (from to : Z) : Z := u64_saturating_sub (bytes_for g to) (bytes_for g from).

Definition positions_within (g : KvGrowth) (bytes : Z) : Z :=
  if per_position g =? 0 then usize_max
  else
    let cap := if has_window g then window_cap g else u64_max in
    let while_every_cache_grows := bytes / per_position g in
    if while_every_cache_grows <? cap then while_every_cache_grows
    else if every_position g =? 0 then usize_max
    else u64_saturating_sub bytes (u64_saturating_mul (windowed g) cap) / every_position g.

Definition plus (a b : KvGrowth) : KvGrowth :=
  {| every_position := u64_saturating_add (every_position a) (every_position b);
     windowed := u64_saturating_add (windowed a) (windowed b);
     g_window := Nat.max (g_window a) (g_window b); g_quantum := Nat.max (g_quantum a) (g_quantum b);
     g_widest_forward := Nat.max (g_widest_forward a) (g_widest_forward b) |}.

Definition growth_share (part whole : Z) (g : KvGrowth) : KvGrowth :=
  let whole := Z.max whole 1 in
  {| every_position := u64_saturating_mul (every_position g) part / whole;
     windowed := u64_saturating_mul (windowed g) part / whole;
     g_window := g_window g; g_quantum := g_quantum g; g_widest_forward := g_widest_forward g |}.

(** ** [KvLayout]: every layer of a model *)

Record LayerKvShape : Type := {
  sh_k_elems : Z; sh_v_elems : Z; sh_n_kv_head : nat; sh_head_dim : nat; sh_window : option nat }.

Record KvLayout : Type := {
  kl_layers : list (option LayerKvShape);
  kl_attention : KvAttention;
  kl_head_count : nat;
  kl_window : nat;
  kl_windows_here : bool;
  kl_quantum : nat }.

Definition shape_bytes (storage_of : LayerKvShape -> KvStorage) (shape : LayerKvShape) : Z :=
  kv_bytes_per_token 1 (sh_k_elems shape) (sh_v_elems shape) (storage_of shape).

Definition shape_slides (slides : bool) (storage_of : LayerKvShape -> KvStorage) (shape : LayerKvShape) : bool :=
  bool_decide (is_Some (window_kept_where (sh_window shape) (storage_of shape) slides)).

(** The shapes of the layers that keep a cache, in [layers[from.min(to)..to]]. *)
Definition shapes_in (l : KvLayout) (from to : nat) : list LayerKvShape :=
  let to := Nat.min to (length (kl_layers l)) in
  let from := Nat.min from to in
  omap id (take (to - from) (drop from (kl_layers l))).

Definition growth_by (l : KvLayout) (from to : nat) (slides : bool) (storage_of : LayerKvShape -> KvStorage) : KvGrowth :=
  let add acc shape :=
    let bytes := shape_bytes storage_of shape in
    if shape_slides slides storage_of shape then (acc.1, u64_saturating_add acc.2 bytes)
    else (u64_saturating_add acc.1 bytes, acc.2) in
  let acc := fold_left add (shapes_in l from to) (0, 0) in
  with_window acc.1 acc.2 (kl_window l) (kl_quantum l).

Definition growth (sw : Switches) (l : KvLayout) (from to : nat) (on_card : bool) : KvGrowth :=
  growth_by l from to (kl_windows_here l && sw_windows_slide sw)
    (fun shape => kv_storage sw on_card (kl_attention l) (kl_head_count l) (sh_n_kv_head shape) (sh_head_dim shape)).

Definition growth_on_peer (sw : Switches) (l : KvLayout) (layers : nat) (on_card keeps_half slides : bool) : KvGrowth :=
  widened_to COPIED_CHUNK_MAX_TOKENS (growth_by l 0 layers slides
    (fun shape => kv_storage_as_advertised sw on_card keeps_half (kl_attention l) (kl_head_count l)
       (sh_n_kv_head shape) (sh_head_dim shape))).

Record KvPrice : Type := { kp_card : KvGrowth; kp_processor : KvGrowth; kp_prompt_chunk : nat }.

Definition price (sw : Switches) (l : KvLayout) (from to prompt_chunk : nat) : KvPrice :=
  {| kp_card := growth sw l from to true; kp_processor := growth sw l from to false; kp_prompt_chunk := prompt_chunk |}.

Definition reading (p : KvPrice) (reader : PromptReader) (context : nat) : KvGrowth :=
  widened_to (widest_prompt_forward (kp_prompt_chunk p) reader context)
    (match reader with Processor => kp_processor p | _ => kp_card p end).

Definition price_share (part whole : Z) (p : KvPrice) : KvPrice :=
  {| kp_card := growth_share part whole (kp_card p); kp_processor := growth_share part whole (kp_processor p);
     kp_prompt_chunk := kp_prompt_chunk p |}.

Definition windows_advertised (sw : Switches) (windows_attended : bool) (prefill_chunk_tokens : nat) : bool :=
  windows_attended && sw_windows_slide sw && (1 <=? prefill_chunk_tokens)%nat &&
  (prefill_chunk_tokens <=? COPIED_CHUNK_MAX_TOKENS)%nat.

(** ** Budgets *)

Definition VRAM_HEADROOM_PCT : Z := 85.
Definition DEVICE_FREE_MARGIN_PCT : Z := 5.
Definition DEVICE_FREE_MARGIN_MIN_BYTES : Z := Z.shiftl 256 20.
Definition HOST_SNAPSHOT_RESERVE_DIVISOR : Z := 4.

Definition weights_and_caches_room (free_vram_bytes : Z) : Z := free_vram_bytes / 100 * VRAM_HEADROOM_PCT.
Definition kv_headroom_bytes (weight_bytes free_vram_bytes : Z) : Z :=
  u64_saturating_sub (weights_and_caches_room free_vram_bytes) weight_bytes.
Definition device_free_margin_bytes (total_bytes : Z) : Z :=
  Z.max (total_bytes / 100 * DEVICE_FREE_MARGIN_PCT) DEVICE_FREE_MARGIN_MIN_BYTES.

Definition budget_reconciled_with_device (budget live cached free_now total : Z) : Z :=
  Z.min budget (u64_saturating_sub (u64_saturating_add (u64_saturating_add live cached) free_now) (device_free_margin_bytes total)).

Definition host_snapshot_budget (available total held : Z) : Z :=
  u64_saturating_sub (u64_saturating_add available held) (total / HOST_SNAPSHOT_RESERVE_DIVISOR).

Definition positions_to_allocate (allocated reserved total_seq quantum : Z) : Z :=
  let q := Z.max quantum 1 in
  let round_up n := u64_saturating_mul ((n + q - 1) / q) q in
  if allocated =? 0 then Z.max (round_up total_seq) reserved
  else if allocated <? total_seq then round_up (total_seq - allocated)
  else 0.

Definition claim_exceeds_headroom (budget_bytes in_use_bytes claim : Z) : bool :=
  budget_bytes <? u64_saturating_add in_use_bytes claim.

Inductive PromptAdmission : Type := Fits | EvictBytes (bytes : Z) | Refuse (short_by : Z).

Definition admit_prompt (budget live cached claim : Z) : PromptAdmission :=
  let total := u64_saturating_add (u64_saturating_add live cached) claim in
  if total <=? budget then Fits
  else
    let excess := total - budget in
    if excess <=? cached then EvictBytes excess else Refuse (excess - cached).

Record SnapshotPlan : Type := { sp_evict_bytes : Z; sp_positions : Z }.

Definition plan_snapshot (budget live cached : Z) (g : KvGrowth) (prompt_positions : Z) : SnapshotPlan :=
  if per_position g =? 0 then {| sp_evict_bytes := 0; sp_positions := prompt_positions |}
  else
    let needed := bytes_for g prompt_positions in
    let room := u64_saturating_sub budget (u64_saturating_add live cached) in
    if needed <=? room then {| sp_evict_bytes := 0; sp_positions := prompt_positions |}
    else
      let evict_bytes := Z.min (needed - room) cached in
      {| sp_evict_bytes := evict_bytes;
         sp_positions := Z.min (positions_within g (u64_saturating_add room evict_bytes)) prompt_positions |}.

(** ** What growing costs *)

(** The figures of a growth are u64 and usize values. *)
Record growth_ok (g : KvGrowth) : Prop := {
  go_every : is_u64 (every_position g);
  go_windowed : is_u64 (windowed g);
  go_cap : window_cap g <= u64_max }.

(** The cost before it saturates. *)
Definition cost (g : KvGrowth) (p : Z) : Z := every_position g * p + windowed g * Z.min p (window_cap g).

Lemma window_cap_pos g : 1 <= window_cap g.
Proof. unfold window_cap, most_positions_a_window_holds. lia. Qed.

Lemma sat_mul_add a b c d : 0 <= a * b -> 0 <= c * d ->
  u64_saturating_add (u64_saturating_mul a b) (u64_saturating_mul c d) = Z.min u64_max (a * b + c * d).
Proof. unfold u64_saturating_add, u64_saturating_mul, clamp. ints. Qed.

Lemma bytes_for_cost g p : growth_ok g -> 0 <= p -> bytes_for g p = Z.min u64_max (cost g p).
Proof.
  intros [He Hw _] Hp. pose proof (window_cap_pos g). unfold bytes_for, cost, has_window, is_u64 in *.
  destruct (Z.ltb_spec 0 (windowed g)).
  - apply sat_mul_add; nia.
  - assert (windowed g = 0) as -> by lia. rewrite sat_mul_add by nia. done.
Qed.

Lemma le_div_iff d b p : 0 < d -> p <= b / d <-> d * p <= b.
Proof.
  intros Hd. split; intros H; [|by apply Z.div_le_lower_bound].
  etrans; [apply Z.mul_le_mono_nonneg_l; [lia|exact H]|]. by apply Z.mul_div_le.
Qed.

Lemma cost_mono g p q : growth_ok g -> p <= q -> cost g p <= cost g q.
Proof. intros [He Hw _] Hpq. unfold cost, is_u64 in *. nia. Qed.

Lemma cost_below_cap g p : p <= window_cap g -> cost g p = (every_position g + windowed g) * p.
Proof. intros. unfold cost. rewrite Z.min_l by done. lia. Qed.

Lemma positions_within_cost g bytes p : growth_ok g -> 0 <= bytes < u64_max -> 0 <= p <= usize_max ->
  p <= positions_within g bytes <-> cost g p <= bytes.
Proof.
  intros Hg Hb Hp. pose proof Hg as [He Hw Hc]. pose proof (window_cap_pos g) as Hcap. unfold positions_within.
  assert (Hper : per_position g = Z.min u64_max (every_position g + windowed g)).
  { unfold per_position, u64_saturating_add, clamp, is_u64 in *. ints. }
  unfold has_window, is_u64 in *.
  destruct (Z.eqb_spec (per_position g) 0) as [E0|E0].
  { rewrite Hper in E0. assert (every_position g = 0 /\ windowed g = 0) as [Ee Ew] by (unfold u64_max in *; lia).
    unfold cost. rewrite Ee, Ew. unfold usize_max in *. lia. }
  assert (Hper0 : 0 < per_position g) by (unfold u64_max in *; lia).
  destruct (Z.ltb_spec 0 (windowed g)) as [Hwin|Hno].
  - destruct (Z.ltb_spec (bytes / per_position g) (window_cap g)) as [Hlt|Hge].
    + rewrite le_div_iff by done. destruct (decide (p <= window_cap g)) as [Hle|Hgt].
      * rewrite cost_below_cap by done. rewrite Hper. destruct (decide (p = 0)); nia.
      * assert (~ per_position g * window_cap g <= bytes) as Hn by (rewrite <- le_div_iff by done; lia).
        assert (per_position g * window_cap g <= per_position g * p) by nia.
        pose proof (cost_mono g (window_cap g) p Hg ltac:(lia)). rewrite cost_below_cap in * by lia. nia.
    + rewrite le_div_iff in Hge by done. assert (Hunsat : per_position g = every_position g + windowed g) by nia.
      destruct (Z.eqb_spec (every_position g) 0) as [Ee|Ee].
      { unfold cost. rewrite Ee. unfold usize_max in *. nia. }
      assert (Hs : u64_saturating_sub bytes (u64_saturating_mul (windowed g) (window_cap g)) = bytes - windowed g * window_cap g).
      { unfold u64_saturating_sub, u64_saturating_mul, clamp. assert (0 <= windowed g * window_cap g <= bytes) by nia. ints. }
      rewrite Hs, le_div_iff by lia. unfold cost. destruct (decide (p <= window_cap g)); nia.
  - assert (Ew : windowed g = 0) by lia. rewrite Ew, Z.add_0_r in Hper.
    assert (bytes / per_position g < u64_max) as Hlt%Z.ltb_lt.
    { apply Z.div_lt_upper_bound; [done|]. nia. }
    rewrite Hlt, le_div_iff by done. unfold cost. rewrite Ew. nia.
Qed.

Lemma positions_within_bytes g bytes p : growth_ok g -> 0 <= bytes < u64_max -> 0 <= p <= usize_max ->
  p <= positions_within g bytes <-> bytes_for g p <= bytes.
Proof. intros Hg Hb Hp. rewrite positions_within_cost, bytes_for_cost by (done || lia). lia. Qed.

(** the longest conversation a number of bytes holds is exactly the inverse of what
    conversations cost, before and after the windows are full and whether or not the
    figures saturate: a conversation costs no more than the bytes exactly when it is no
    longer than that. *)
Theorem positions_within_inverts_bytes_for g bytes p : growth_ok g -> 0 <= bytes < u64_max -> 0 <= p <= usize_max ->
  p <= positions_within g bytes <-> bytes_for g p <= bytes.
Proof. apply positions_within_bytes. Qed.

(** A model whose window layers are full after a few tokens. *)
Definition small_growth : KvGrowth := widened_to 8 (with_window 10 6 4 16).

Lemma positions_within_inverts_bytes_for_witness :
  bytes_for small_growth 1000 = 10498 /\ positions_within small_growth 10498 = 1000 /\ 1000 <= positions_within small_growth 10498.
Proof.
  split_and!; [done|done|]. refine (proj2 (positions_within_inverts_bytes_for small_growth 10498 1000 _ _ _) _); try (vm_compute; intuition congruence).
  by split; vm_compute; intuition congruence.
Defined.

(** ** Letting prompts in, keeping them *)

(** a prompt is let in exactly when it fits beside the live caches once saved
    prompts make room: as it is, after evicting exactly the bytes that are over, or
    refused with what is missing even with every saved prompt gone. *)
Theorem admit_prompt_decides budget live cached claim :
  0 <= budget -> 0 <= live -> 0 <= cached -> 0 <= claim -> live + cached + claim <= u64_max ->
  match admit_prompt budget live cached claim with
  | Fits => live + cached + claim <= budget
  | EvictBytes bytes => 0 < bytes <= cached /\ live + (cached - bytes) + claim = budget
  | Refuse short_by => 0 < short_by /\ live + claim = budget + short_by
  end.
Proof.
  intros. unfold admit_prompt. rewrite !u64_saturating_add_exact by (rewrite ?u64_saturating_add_exact; unfold is_u64; lia).
  destruct (Z.leb_spec (live + cached + claim) budget); [done|].
  destruct (Z.leb_spec (live + cached + claim - budget) cached); lia.
Qed.

Lemma admit_prompt_decides_witness : admit_prompt 1000 400 500 300 = EvictBytes 200 /\ 0 < 200 <= 500 /\ 400 + (500 - 200) + 300 = 1000.
Proof. split; [done|]. exact (admit_prompt_decides 1000 400 500 300 ltac:(done) ltac:(done) ltac:(done) ltac:(done) ltac:(done)). Defined.

(** What is held once a plan is carried out. *)
Definition held_after (live cached : Z) (g : KvGrowth) (plan : SnapshotPlan) : Z :=
  live + (cached - sp_evict_bytes plan) + bytes_for g (sp_positions plan).

Lemma plan_snapshot_cut budget live cached g prompt : growth_ok g -> per_position g <> 0 -> 0 <= budget < u64_max ->
  0 <= live -> 0 <= cached -> live + cached < u64_max -> 0 <= prompt <= usize_max ->
  let plan := plan_snapshot budget live cached g prompt in
  let room := Z.max 0 (budget - (live + cached)) in
  0 <= sp_evict_bytes plan <= cached /\ 0 <= sp_positions plan <= prompt /\
  bytes_for g (sp_positions plan) <= room + sp_evict_bytes plan /\
  (0 < sp_evict_bytes plan -> room + sp_evict_bytes plan <= bytes_for g prompt) /\
  forall p, sp_positions plan < p <= prompt -> room + cached < bytes_for g p.
Proof.
  intros Hg H0 Hb Hl Hc Hlc Hp plan room. unfold plan, plan_snapshot. rewrite (proj2 (Z.eqb_neq _ _)) by done.
  assert (Hr : u64_saturating_sub budget (u64_saturating_add live cached) = room).
  { rewrite u64_saturating_add_exact by (unfold is_u64; lia). unfold room, u64_saturating_sub, clamp. lia. }
  assert (Hroom : 0 <= room /\ room + cached <= Z.max budget (live + cached)) by (unfold room; lia).
  rewrite Hr. clearbody room. pose proof (bytes_for_cost g prompt Hg ltac:(lia)) as Hn. set (needed := bytes_for g prompt) in *.
  assert (0 <= needed <= u64_max).
  { pose proof (go_every g Hg). pose proof (go_windowed g Hg). pose proof (window_cap_pos g).
    rewrite Hn. unfold cost, is_u64 in *. assert (0 <= u64_max) by done. nia. }
  destruct (Z.leb_spec needed room); cbn [sp_evict_bytes sp_positions].
  { fold needed. split_and!; try lia. }
  set (evict := Z.min (needed - room) cached). assert (0 <= evict <= cached /\ room + evict <= needed /\ 
    (evict = cached \/ room + evict = needed)) as (? & ? & ?) by lia.
  clearbody evict.
  rewrite u64_saturating_add_exact by (unfold is_u64; lia).
  assert (Hin : forall p, 0 <= p <= usize_max -> p <= positions_within g (room + evict) <-> bytes_for g p <= room + evict).
  { intros p Hp'. apply positions_within_bytes; [done|lia|done]. }
  assert (Hpos : 0 <= positions_within g (room + evict)).
  { apply Hin; [unfold usize_max, u64_max; lia|]. rewrite bytes_for_cost by (done || lia).
    rewrite cost_below_cap by (pose proof (window_cap_pos g); lia). lia. }
  split_and!; try lia.
  - apply Hin; lia.
  - intros p Hp'. destruct (Z.le_gt_cases p (positions_within g (room + evict))); [lia|].
    assert (~ bytes_for g p <= room + evict) by (rewrite <- Hin by lia; lia).
    assert (bytes_for g p <= needed) by (unfold needed; rewrite !bytes_for_cost by (done || lia); pose proof (cost_mono g p prompt Hg); lia).
    lia.
Qed.

(** while a worker is within its budget, the part of a finished prompt it keeps fits
    beside the live caches once the planned bytes of older saved prompts are gone; no
    more of those go than the whole prompt would need; and no longer part would fit even
    with all of them gone. *)
Theorem snapshot_fits_beside budget live cached g prompt : growth_ok g -> per_position g <> 0 -> budget < u64_max ->
  0 <= live -> 0 <= cached -> live + cached <= budget -> 0 <= prompt <= usize_max ->
  let plan := plan_snapshot budget live cached g prompt in
  0 <= sp_evict_bytes plan <= cached /\ 0 <= sp_positions plan <= prompt /\
  held_after live cached g plan <= budget /\
  (0 < sp_evict_bytes plan -> budget <= live + (cached - sp_evict_bytes plan) + bytes_for g prompt) /\
  forall p, sp_positions plan < p <= prompt -> budget < live + bytes_for g p.
Proof.
  intros Hg H0 Hb Hl Hc Hlc Hp plan.
  destruct (plan_snapshot_cut budget live cached g prompt) as (He & Hq & Hf & Hm & Hmax); try (done || lia).
  fold plan in He, Hq, Hf, Hm, Hmax. unfold held_after. rewrite Z.max_r in Hf, Hm, Hmax by lia.
  split_and!; try lia. intros p Hp'. specialize (Hmax p Hp'). lia.
Qed.

Lemma snapshot_fits_beside_witness :
  plan_snapshot 1000 600 300 small_growth 100 = {| sp_evict_bytes := 300; sp_positions := 25 |} /\
  held_after 600 300 small_growth (plan_snapshot 1000 600 300 small_growth 100) <= 1000.
Proof.
  split; [done|]. refine (proj1 (proj2 (proj2 (snapshot_fits_beside 1000 600 300 small_growth 100 _ _ _ _ _ _ _)))).
  { split; vm_compute; intuition congruence. }
  all: vm_compute; intuition congruence.
Defined.

(** Over its budget (a reconciled budget shrinks as the device fills) the plan counts
    the bytes it evicts as room, although the budget is still overdrawn: the snapshot
    kept is not beside the live caches within the budget.  It never makes it worse. *)
Lemma snapshot_over_budget_adds_nothing budget live cached g prompt : growth_ok g -> per_position g <> 0 -> 0 <= budget < u64_max ->
  0 <= live -> 0 <= cached -> live + cached < u64_max -> budget < live + cached -> 0 <= prompt <= usize_max ->
  held_after live cached g (plan_snapshot budget live cached g prompt) <= live + cached.
Proof.
  intros Hg H0 Hb Hl Hc Hlc Hov Hp. destruct (plan_snapshot_cut budget live cached g prompt) as (He & Hq & Hf & _); try (done || lia).
  unfold held_after. lia.
Qed.

Example snapshot_kept_over_budget : let plan := plan_snapshot 1000 1000 500 (with_window 10 0 0 1) 40 in
  sp_positions plan = 40 /\ held_after 1000 500 (with_window 10 0 0 1) plan = 1500.
Proof. done. Qed.

(** The cases [kv_budget]'s own tests try. *)
Example plan_snapshot_tests :
  plan_snapshot 1000 400 0 (with_window 10 0 0 1) 40 = {| sp_evict_bytes := 0; sp_positions := 40 |} /\
  plan_snapshot 1000 400 500 (with_window 10 0 0 1) 40 = {| sp_evict_bytes := 300; sp_positions := 40 |} /\
  plan_snapshot 1000 800 100 (with_window 10 0 0 1) 40 = {| sp_evict_bytes := 100; sp_positions := 20 |} /\
  plan_snapshot 1000 1000 0 (with_window 10 0 0 1) 40 = {| sp_evict_bytes := 0; sp_positions := 0 |}.
Proof. done. Qed.

(** ** A model's layers *)

(** Bytes one layer's cache costs a conversation, its window no further than the most
    positions such a cache is allocated. *)
Definition layer_cost (slides : bool) (storage_of : LayerKvShape -> KvStorage) (cap p : Z) (shape : LayerKvShape) : Z :=
  shape_bytes storage_of shape * if shape_slides slides storage_of shape then Z.min p cap else p.

Lemma shape_bytes_u64 storage_of shape : is_u64 (shape_bytes storage_of shape).
Proof. unfold shape_bytes, kv_bytes_per_token, u64_saturating_mul, clamp, is_u64. ints. Qed.

Lemma growth_fold_sums slides storage_of shapes a b : 0 <= a -> 0 <= b ->
  a + b + sum_list (map (shape_bytes storage_of) shapes) <= u64_max ->
  exists da db, fold_left (fun acc shape => if shape_slides slides storage_of shape
      then (acc.1, u64_saturating_add acc.2 (shape_bytes storage_of shape))
      else (u64_saturating_add acc.1 (shape_bytes storage_of shape), acc.2)) shapes (a, b) = (a + da, b + db) /\
    0 <= da /\ 0 <= db /\ da + db = sum_list (map (shape_bytes storage_of) shapes) /\
    forall cap p, da * p + db * Z.min p cap = sum_list (map (layer_cost slides storage_of cap p) shapes).
Proof.
  revert a b. induction shapes as [|s shapes IH]; intros a b Ha Hb Hs.
  - exists 0, 0. cbn. split_and!; try lia; try done. by rewrite !Z.add_0_r.
  - cbn [map sum_list] in Hs. pose proof (shape_bytes_u64 storage_of s) as [Hs0 _].
    assert (Hrest : 0 <= sum_list (map (shape_bytes storage_of) shapes)).
    { clear. induction shapes as [|x l IHl]; cbn; [lia|]. pose proof (shape_bytes_u64 storage_of x) as [? _]. lia. }
    cbn [fold_left map sum_list fst snd]. unfold layer_cost at 1. destruct (shape_slides slides storage_of s).
    + rewrite u64_saturating_add_exact by (unfold is_u64; lia).
      destruct (IH a (b + shape_bytes storage_of s)) as (da & db & -> & ? & ? & ? & Hc); [lia..|].
      exists da, (shape_bytes storage_of s + db). split_and!; try lia; [f_equal; lia|]. intros cap p. rewrite <- Hc. nia.
    + rewrite u64_saturating_add_exact by (unfold is_u64; lia).
      destruct (IH (a + shape_bytes storage_of s) b) as (da & db & -> & ? & ? & ? & Hc); [lia..|].
      exists (shape_bytes storage_of s + da), db. split_and!; try lia; [f_equal; lia|]. intros cap p. rewrite <- Hc. nia.
Qed.

(** what a conversation is charged over a range of layers is the sum of what each of
    them keeps - every position, or for a layer whose cache slides no more than its
    buffer ever holds - until the sum leaves u64, where it stays at the largest. *)
Theorem growth_charges_every_layer l from to slides storage_of widest p : let shapes := shapes_in l from to in
  let g := widened_to widest (growth_by l from to slides storage_of) in
  sum_list (map (shape_bytes storage_of) shapes) <= u64_max -> window_cap g <= u64_max -> 0 <= p ->
  growth_ok g /\ bytes_for g p = Z.min u64_max (sum_list (map (layer_cost slides storage_of (window_cap g) p) shapes)).
Proof.
  intros shapes g Hs Hc Hp. destruct (growth_fold_sums slides storage_of shapes 0 0) as (da & db & E & Ha & Hb & Hab & Hcost); [lia..|].
  assert (Ee : every_position g = da /\ windowed g = db).
  { unfold g, growth_by. fold shapes. cbn [every_position windowed widened_to with_window].
    match goal with |- context [fold_left ?f shapes (0, 0)] => replace (fold_left f shapes (0, 0)) with (0 + da, 0 + db) by (symmetry; exact E) end.
    cbn. lia. }
  destruct Ee as [Ee Ew]. assert (Hg : growth_ok g) by (split; unfold is_u64; rewrite ?Ee, ?Ew; (lia || done)).
  split; [done|]. rewrite (bytes_for_cost g p Hg Hp). unfold cost. rewrite Ee, Ew. by rewrite Hcost.
Qed.

(** A model of three layers: one keeps every position, one slides, one has no cache. *)
Definition small_layout : KvLayout :=
  {| kl_layers := [Some {| sh_k_elems := 4; sh_v_elems := 4; sh_n_kv_head := 1; sh_head_dim := 4; sh_window := None |};
                   Some {| sh_k_elems := 4; sh_v_elems := 4; sh_n_kv_head := 1; sh_head_dim := 4; sh_window := Some 8%nat |};
                   None];
     kl_attention := Standard; kl_head_count := 1; kl_window := 8; kl_windows_here := true; kl_quantum := 16 |}.

Lemma growth_charges_every_layer_witness :
  bytes_for (widened_to 8 (growth_by small_layout 0 9 true (fun _ => StoreF32))) 1000 = 32 * 1000 + 32 * 87 /\
  bytes_for (widened_to 8 (growth_by small_layout 0 9 true (fun _ => StoreF32))) 1000 = Z.min u64_max (sum_list (map
    (layer_cost true (fun _ => StoreF32) 87 1000) (shapes_in small_layout 0 9))).
Proof.
  split; [done|]. exact (proj2 (growth_charges_every_layer small_layout 0 9 true (fun _ => StoreF32) 8 1000
    ltac:(vm_compute; congruence) ltac:(vm_compute; congruence) ltac:(done))).
Defined.
