(* ===== verification/RecurrentState.v ===== *)
(** * The recurrent state of a DeltaNet layer

    [SsmState] of [src/inference/layers/mod.rs] and the steps that move it
    ([forward_deltanet_into], [causal_conv], [written_into] and [replay_rows] of
    [layers/qwen35.rs]).  A layer of this kind keeps no cache of its positions, only a
    running summary: a window of convolution inputs and a matrix the delta rule folds
    every row into.  To take a step back it keeps the pair it read, and the rows of a
    short step.

    What the layer computes of one row is arithmetic on tensors, given by the class
    [DeltaNet]; how rows are cut into steps, replayed, written and forgotten is modelled
    as the code has it.  A pair of buffers is a place in a store, because a card writes
    a step's state over the pair the step before read; a call that can fail asks
    [answers]. *)
From S2P Require Import Prelude SeqCache.
#[local] Open Scope nat_scope.

(** One row's arithmetic: the projections of a token, the features of the delta rule
    from the window ending in its input, and the delta rule's update. *)
Class DeltaNet : Type := {
  Token : Type;
  Input : Type;
  Features : Type;
  Memory : Type;
  zero_input : Input;
  zero_features : Features;
  zero_memory : Memory;
  conv_kernel : nat;
  wqkv : Token -> Input;
  features : list Input -> Token -> Features;
  delta : Memory -> Features -> Memory }.

Record SsmSlot `{DeltaNet} : Type := { conv_state : list Input; recurrent_state : Memory }.
Arguments Build_SsmSlot {_} _ _.
Record SsmRow `{DeltaNet} : Type := { row_mixed : Input; row_features : Features }.
Arguments Build_SsmRow {_} _ _.

(** [previous_at], [rows] and [rows_held] are the fields the code has; a pair of buffers
    is the place it has in the store. *)
Record SsmState : Type := {
  st_current : nat;
  st_at : nat;
  st_previous : option nat;
  st_previous_at : option nat;
  st_rows_held : nat }.

Section ssm.
Context `{DeltaNet}.

(** A layer's state with the store its buffers are in and the rows it keeps. *)
Record Held : Type := { store : list SsmSlot; rows : option (list SsmRow); state : SsmState }.

Definition MOST_ROWS_KEPT : nat := 32.
Definition MAX_POSITIONS : nat := 8.

Definition zero_slot : SsmSlot := {| conv_state := replicate (conv_kernel - 1) zero_input; recurrent_state := zero_memory |}.

(** [SsmState::new] over fresh buffers. *)
Definition ssm_new (heap : list SsmSlot) (slot : SsmSlot) (positions : nat) : Held :=
  {| store := heap ++ [slot]; rows := None;
     state := {| st_current := length heap; st_at := positions; st_previous := None; st_previous_at := None; st_rows_held := 0 |} |}.

Definition slot_at (h : Held) (l : nat) : SsmSlot := default zero_slot (store h !! l).
Definition current (h : Held) : SsmSlot := slot_at h (st_current (state h)).
Definition positions (h : Held) : nat := st_at (state h).

Definition capacity_of (r : option (list SsmRow)) : nat := match r with Some r => length r | None => 0 end.

Definition holds_a_step_to (h : Held) (p : nat) : bool :=
  let n := p - st_at (state h) in
  bool_decide (is_Some (st_previous (state h))) &&
  ((n <? 2) || (bool_decide (is_Some (rows h)) && (n <=? capacity_of (rows h)))).

Definition take_spare (h : Held) : option nat * Held :=
  (st_previous (state h),
   {| store := store h; rows := rows h;
      state := {| st_current := st_current (state h); st_at := st_at (state h); st_previous := None; st_previous_at := None;
                  st_rows_held := 0 |} |}).

Definition with_rows (h : Held) (r : option (list SsmRow)) (n : nat) : Held :=
  {| store := store h; rows := r;
     state := {| st_current := st_current (state h); st_at := st_at (state h); st_previous := st_previous (state h);
                 st_previous_at := st_previous_at (state h); st_rows_held := n |} |}.

(** [keep_rows]: the rows of a step of two to [MOST_ROWS_KEPT] positions; on a card
    written over the buffers kept, which are gone if a call fails. *)
Definition keep_step_rows (step : list SsmRow) (in_place : bool) (h : Held) (answers : list bool) : bool * Held * list bool :=
  let h := with_rows h (rows h) 0 in
  let n := length step in
  if negb ((2 <=? n) && (n <=? MOST_ROWS_KEPT)) then (true, h, answers)
  else if negb in_place then (true, with_rows h (Some step) n, answers)
  else
    let '(made, buffers, answers) :=
      match rows h with
      | Some kept => if n <=? length kept then (true, kept, answers)
                     else let '(ok, answers) := ask answers in (ok, replicate (Nat.max n MAX_POSITIONS) {| row_mixed := zero_input; row_features := zero_features |}, answers)
      | None => let '(ok, answers) := ask answers in (ok, replicate (Nat.max n MAX_POSITIONS) {| row_mixed := zero_input; row_features := zero_features |}, answers)
      end in
    if negb made then (false, with_rows h None 0, answers)
    else
      let '(written, answers) := ask answers in
      if negb written then (false, with_rows h None 0, answers)
      else (true, with_rows h (Some (step ++ drop n buffers)) n, answers).

Definition advance (next p : nat) (h : Held) : Held :=
  {| store := store h; rows := rows h;
     state := {| st_current := next; st_at := p; st_previous := Some (st_current (state h));
                 st_previous_at := Some (st_at (state h)); st_rows_held := st_rows_held (state h) |} |}.

Definition rows_to_replay (h : Held) (p : nat) : option nat :=
  match st_previous_at (state h) with
  | Some from =>
      if from <=? p then
        let n := p - from in
        if (0 <? n) && (p <? st_at (state h)) && (n <=? st_rows_held (state h)) && bool_decide (is_Some (rows h))
        then Some n else None
      else None
  | None => None
  end.

Definition can_rewind_to (h : Held) (p : nat) : bool :=
  (st_at (state h) =? p) || bool_decide (st_previous_at (state h) = Some p) || bool_decide (is_Some (rows_to_replay h p)).

(** [causal_conv]: the window each position reads, and the inputs the next step reads
    on from. *)
Definition causal_conv (x prev : list Input) : list (list Input) * list Input :=
  let padded := prev ++ x in
  (map (fun t => take conv_kernel (drop t padded)) (seq 0 (length x)), take (conv_kernel - 1) (drop (length x) padded)).

Definition delta_rule (m : Memory) (fs : list Features) : Memory := fold_left delta fs m.

Definition set_slot (l : nat) (s : SsmSlot) (h : Held) : Held :=
  {| store := <[l := s]> (store h); rows := rows h; state := state h |}.

(** [written_into]: over the buffers of [target], the memory there already where the
    card's kernel [written] it; or in buffers of its own. *)
Definition written_into (target : option nat) (conv : list Input) (m : Memory) (written : bool) (h : Held) (answers : list bool)
  : option nat * Held * list bool :=
  match target with
  | Some l =>
      let '(ok, answers) := ask answers in
      if negb ok then (None, h, answers)
      else
        let h := set_slot l {| conv_state := conv; recurrent_state := recurrent_state (slot_at h l) |} h in
        if written then (Some l, h, answers)
        else
          let '(ok, answers) := ask answers in
          if negb ok then (None, h, answers)
          else (Some l, set_slot l {| conv_state := conv; recurrent_state := m |} h, answers)
  | None => (Some (length (store h)), {| store := store h ++ [{| conv_state := conv; recurrent_state := m |}]; rows := rows h; state := state h |}, answers)
  end.

(** The delta rule's memory: where the card's kernel runs it is in the target's buffer
    at once. *)
Definition delta_rule_into (kernel : bool) (target : option nat) (m : Memory) (fs : list Features) (h : Held) : Memory * bool * Held :=
  let new := delta_rule m fs in
  match target with
  | Some l => if kernel then (new, true, set_slot l {| conv_state := conv_state (slot_at h l); recurrent_state := new |} h) else (new, false, h)
  | None => (new, false, h)
  end.

(** [replay_rows]: the state after the first [n] rows of a step, from the pair it read. *)
Definition replay_rows (kernel : bool) (read : SsmSlot) (kept : list SsmRow) (n : nat) (into : option nat) (h : Held) (answers : list bool)
  : option nat * Held * list bool :=
  let first := take n kept in
  let '(ok, answers) := ask answers in
  if negb ok then (None, h, answers)
  else
    let conv := take (length (conv_state read)) (drop n (conv_state read ++ map row_mixed first)) in
    let '(m, written, h) := delta_rule_into kernel into (recurrent_state read) (map row_features first) h in
    written_into into conv m written h answers.

Inductive Rewound : Type := Done (moved : bool) | Failed.

(** [rewind_to]; [on_card] is where the state's tensors are, [kernel] whether the card's
    delta-rule kernel takes this layer. *)
Definition rewind_to (on_card kernel : bool) (p : nat) (h : Held) (answers : list bool) : Rewound * Held * list bool :=
  if st_at (state h) =? p then (Done true, h, answers)
  else
    match rows_to_replay h p with
    | Some n =>
        match st_previous (state h), rows h with
        | Some read, Some kept =>
            let into := if on_card then Some (st_current (state h)) else None in
            let '(next, h, answers) := replay_rows kernel (slot_at h read) kept n into h answers in
            match next with
            | Some next =>
                (Done true, {| store := store h; rows := rows h;
                               state := {| st_current := next; st_at := p; st_previous := st_previous (state h);
                                           st_previous_at := st_previous_at (state h); st_rows_held := st_rows_held (state h) |} |},
                 answers)
            | None => (Failed, h, answers)
            end
        | _, _ => (Done false, h, answers)
        end
    | None =>
        if negb (bool_decide (st_previous_at (state h) = Some p)) then (Done false, h, answers)
        else
          match st_previous (state h) with
          | None => (Done false, h, answers)
          | Some read =>
              (Done true, {| store := store h; rows := rows h;
                             state := {| st_current := read; st_at := p; st_previous := Some (st_current (state h));
                                         st_previous_at := None; st_rows_held := 0 |} |}, answers)
          end
    end.

(** Where a step ended: before the state was readied, cut short, or with the state
    moved on - and then with an answer or not. *)
Inductive Stepped : Type := NotBegun | CutShort | Advanced (answered : bool).

(** The rows a step gives its convolution and delta rule. *)
Definition step_rows (read : SsmSlot) (xs : list Token) : list SsmRow * list Input :=
  let mixed := map wqkv xs in
  let '(windows, new_conv) := causal_conv mixed (conv_state read) in
  (zip_with (fun x w => {| row_mixed := wqkv x; row_features := features w x |}) xs windows, new_conv).

(** The step from the state readied, [forward_deltanet_into] after its check. *)
Definition step_from (into_spare kernel : bool) (xs : list Token) (h : Held) (answers : list bool) : Stepped * Held * list bool :=
  let '(ready, target, h, answers) :=
    if into_spare then
      let '(spare, h) := take_spare h in
      match spare with
      | Some l => (true, Some l, h, answers)
      | None =>
          let '(ok, answers) := ask answers in
          (ok, Some (length (store h)),
           if ok then {| store := store h ++ [zero_slot]; rows := rows h; state := state h |} else h, answers)
      end
    else (true, None, h, answers) in
  if negb ready then (CutShort, h, answers)
  else
    let read := current h in
    let '(ok, answers) := ask answers in
    if negb ok then (CutShort, h, answers)
    else
      let '(step, new_conv) := step_rows read xs in
      let '(m, written, h) := delta_rule_into kernel target (recurrent_state read) (map row_features step) h in
      let '(ok, answers) := ask answers in
      if negb ok then (CutShort, h, answers)
      else
        let '(next, h, answers) := written_into target new_conv m written h answers in
        match next with
        | None => (CutShort, h, answers)
        | Some next =>
            let '(ok, answers) := ask answers in
            if negb ok then (CutShort, h, answers)
            else
              let '(kept, h, answers) := keep_step_rows step (bool_decide (is_Some target)) h answers in
              if negb kept then (CutShort, h, answers)
              else
                let h := advance next (st_at (state h) + length xs) h in
                let '(ok, answers) := ask answers in
                (Advanced ok, h, answers)
        end.

Definition forward_deltanet_into (into_spare kernel : bool) (xs : list Token) (index_pos : nat) (o : option Held) (answers : list bool)
  : Stepped * option Held * list bool :=
  let '(ok, answers) := ask answers in
  if negb ok then (NotBegun, o, answers)
  else
    match o with
    | Some h =>
        if st_at (state h) =? index_pos then
          let '(s, h, answers) := step_from into_spare kernel xs h answers in (s, Some h, answers)
        else if index_pos =? 0 then
          let '(ok, answers) := ask answers in
          if negb ok then (NotBegun, o, answers)
          else let '(s, h, answers) := step_from into_spare kernel xs (ssm_new (store h) zero_slot 0) answers in (s, Some h, answers)
        else (NotBegun, o, answers)
    | None =>
        if index_pos =? 0 then
          let '(ok, answers) := ask answers in
          if negb ok then (NotBegun, o, answers)
          else let '(s, h, answers) := step_from into_spare kernel xs (ssm_new [] zero_slot 0) answers in (s, Some h, answers)
        else (NotBegun, o, answers)
    end.

(** ** What the state stands for *)

Definition row_of (s : SsmSlot) (x : Token) : SsmRow :=
  {| row_mixed := wqkv x; row_features := features (conv_state s ++ [wqkv x]) x |}.
Definition apply_row (s : SsmSlot) (r : SsmRow) : SsmSlot :=
  {| conv_state := drop 1 (conv_state s ++ [row_mixed r]); recurrent_state := delta (recurrent_state s) (row_features r) |}.
Definition run_token (s : SsmSlot) (x : Token) : SsmSlot := apply_row s (row_of s x).

(** The state after reading tokens one at a time from the start. *)
Definition slot_after (ts : list Token) : SsmSlot := fold_left run_token ts zero_slot.

Fixpoint rows_of (s : SsmSlot) (ts : list Token) : list SsmRow :=
  match ts with [] => [] | x :: ts => row_of s x :: rows_of (run_token s x) ts end.

(** The layer's history: what it was given, less what was taken back. *)
Inductive ssm_run : option Held -> list Token -> Prop :=
| sr_none : ssm_run None []
| sr_step o hist xs index_pos into_spare kernel answers s o' answers' : ssm_run o hist ->
    forward_deltanet_into into_spare kernel xs index_pos o answers = (s, o', answers') ->
    let base := match o with Some h => if st_at (state h) =? index_pos then hist else [] | None => [] end in
    ssm_run o' (match s with NotBegun => hist | CutShort => base | Advanced _ => base ++ xs end)
| sr_rewind h hist on_card kernel p answers moved h' answers' : ssm_run (Some h) hist ->
    rewind_to on_card kernel p h answers = (Done moved, h', answers') ->
    ssm_run (Some h') (if moved then take p hist else hist)
| sr_lost h hist kernel p answers h' answers' : ssm_run (Some h) hist ->
    rewind_to false kernel p h answers = (Failed, h', answers') -> ssm_run (Some h') hist.
End ssm.

(** ** Steps are row by row *)

Section rows.
Context `{DeltaNet} (Hkernel : 1 <= conv_kernel).

Definition slot_ok (s : SsmSlot) : Prop := length (conv_state s) = conv_kernel - 1.

Lemma apply_row_ok s r : slot_ok s -> slot_ok (apply_row s r).
Proof using Hkernel. unfold slot_ok. cbn. intros. rewrite length_drop, length_app. cbn. lia. Qed.

Lemma zero_slot_ok : slot_ok zero_slot.
Proof. unfold slot_ok. cbn. apply length_replicate. Qed.

Lemma fold_run_ok ts s : slot_ok s -> slot_ok (fold_left run_token ts s).
Proof using Hkernel. revert s. induction ts; cbn; [done|]. intros s Hs. by apply IHts, apply_row_ok. Qed.

Lemma slot_after_ok ts : slot_ok (slot_after ts).
Proof using Hkernel. apply fold_run_ok, zero_slot_ok. Qed.

Lemma slot_after_app a b : slot_after (a ++ b) = fold_left run_token b (slot_after a).
Proof. apply fold_left_app. Qed.

Lemma rows_of_length s ts : length (rows_of s ts) = length ts.
Proof. revert s. induction ts; cbn; auto. Qed.

Lemma rows_of_mixed s ts : map row_mixed (rows_of s ts) = map wqkv ts.
Proof. revert s. induction ts; cbn; [done|]. intros. by f_equal. Qed.

Lemma rows_of_take n s ts : take n (rows_of s ts) = rows_of s (take n ts).
Proof. revert n s. induction ts; intros [|n] s; cbn; [done..|]. by f_equal. Qed.

Lemma apply_rows_of s ts : fold_left apply_row (rows_of s ts) s = fold_left run_token ts s.
Proof. revert s. induction ts; cbn; [done|]. intros. apply IHts. Qed.

(** Rows applied one by one, as the code computes them at once. *)
Lemma apply_rows_at_once rs s : slot_ok s ->
  fold_left apply_row rs s =
  {| conv_state := take (conv_kernel - 1) (drop (length rs) (conv_state s ++ map row_mixed rs));
     recurrent_state := delta_rule (recurrent_state s) (map row_features rs) |}.
Proof using Hkernel.
  revert s. induction rs as [|r rs IH]; intros s Hs.
  - cbn. rewrite app_nil_r, drop_0, take_ge by (unfold slot_ok in Hs; lia). by destruct s.
  - cbn [fold_left]. rewrite (IH _ (apply_row_ok s r Hs)). f_equal. cbn [map length conv_state apply_row]. f_equal.
    change (S (length rs)) with (1 + length rs). rewrite <- drop_drop. f_equal.
    change (row_mixed r :: map row_mixed rs) with ([row_mixed r] ++ map row_mixed rs). rewrite app_assoc.
    rewrite (drop_app_le (conv_state s ++ [row_mixed r])); [done|]. rewrite length_app. cbn. lia.
Qed.

Lemma step_rows_conv read xs :
  (step_rows read xs).2 = take (conv_kernel - 1) (drop (length xs) (conv_state read ++ map wqkv xs)).
Proof. unfold step_rows, causal_conv. cbn. by rewrite length_map. Qed.

Lemma step_rows_are_rows read xs : slot_ok read -> (step_rows read xs).1 = rows_of read xs.
Proof using Hkernel.
  unfold step_rows, causal_conv. cbn [fst]. rewrite length_map. revert read. induction xs as [|x xs IH]; intros read Hr; [done|].
  cbn [length seq map zip_with rows_of]. f_equal.
  - unfold row_of. f_equal. f_equal. rewrite drop_0. change (wqkv x :: map wqkv xs) with ([wqkv x] ++ map wqkv xs).
    rewrite app_assoc, take_app_le; rewrite ?length_app; cbn; [|unfold slot_ok in Hr; lia].
    apply take_ge. rewrite length_app. cbn. unfold slot_ok in Hr. lia.
  - rewrite <- (IH (run_token read x)) by by apply apply_row_ok. f_equal. rewrite <- seq_shift, map_map. apply map_ext.
    intros t. f_equal. cbn [conv_state run_token apply_row row_of row_mixed].
    change (S t) with (1 + t). rewrite <- drop_drop. f_equal.
    change (wqkv x :: map wqkv xs) with ([wqkv x] ++ map wqkv xs). rewrite app_assoc.
    rewrite (drop_app_le (conv_state read ++ [wqkv x])); [done|]. rewrite length_app. cbn. lia.
Qed.

(** A step of any width leaves what reading its tokens one by one would. *)
Lemma step_is_token_by_token read xs : slot_ok read ->
  {| conv_state := (step_rows read xs).2; recurrent_state := delta_rule (recurrent_state read) (map row_features (step_rows read xs).1) |}
  = fold_left run_token xs read.
Proof using Hkernel.
  intros Hr. rewrite step_rows_conv, step_rows_are_rows by done. rewrite <- apply_rows_of, apply_rows_at_once by done.
  by rewrite rows_of_length, rows_of_mixed.
Qed.

(** ** What is written where *)

(** Every buffer but the target's is as it was. *)
Definition away (target : option nat) (st st' : list SsmSlot) : Prop :=
  length st <= length st' /\ forall k, k < length st -> target <> Some k -> st' !! k = st !! k.

Lemma away_refl target st : away target st st.
Proof. by split. Qed.
Lemma away_trans target a b c : away target a b -> away target b c -> away target a c.
Proof. intros [H1 H2] [H3 H4]. split; [lia|]. intros k Hk Hn. rewrite H4, H2 by (done || lia). done. Qed.
Lemma away_insert l s st : away (Some l) st (<[l := s]> st).
Proof. split; [by rewrite length_insert|]. intros k _ Hn. apply list_lookup_insert_ne. congruence. Qed.
Lemma away_app target st x : away target st (st ++ x).
Proof. split; [rewrite length_app; lia|]. intros. by apply lookup_app_l. Qed.

Definition target_in (target : option nat) (h : Held) : Prop := forall l, target = Some l -> l < length (store h).

Lemma slot_at_lookup h l s : store h !! l = Some s -> slot_at h l = s.
Proof. unfold slot_at. by intros ->. Qed.

Lemma delta_rule_into_spec kernel target m fs h : target_in target h ->
  let '(m', written, h') := delta_rule_into kernel target m fs h in
  m' = delta_rule m fs /\ rows h' = rows h /\ state h' = state h /\ away target (store h) (store h') /\ length (store h') = length (store h) /\ target_in target h' /\
  (written = true -> exists l, target = Some l /\ recurrent_state (slot_at h' l) = m').
Proof.
  intros Ht. unfold delta_rule_into. destruct target as [l|]; [destruct kernel|]; split_and!; try done; try by apply away_refl.
  - apply away_insert.
  - cbn. by rewrite length_insert.
  - intros l' [= <-]. cbn. rewrite length_insert. by apply Ht.
  - intros _. exists l. split; [done|]. erewrite slot_at_lookup; [|cbn; apply list_lookup_insert_eq; by apply Ht]. done.
Qed.

Lemma written_into_spec target conv m written h answers : target_in target h ->
  (written = true -> exists l, target = Some l /\ recurrent_state (slot_at h l) = m) ->
  let '(next, h', answers') := written_into target conv m written h answers in
  rows h' = rows h /\ state h' = state h /\ away target (store h) (store h') /\
  (forall n, next = Some n -> store h' !! n = Some {| conv_state := conv; recurrent_state := m |} /\ n = default (length (store h)) target).
Proof.
  intros Ht Hw. unfold written_into. destruct target as [l|].
  - assert (Hl : l < length (store h)) by by apply Ht.
    destruct (ask answers) as [[|] a]; cbn [negb]; [|split_and!; (done || apply away_refl)].
    set (h1 := set_slot l _ h). assert (H1 : away (Some l) (store h) (store h1)) by apply away_insert.
    destruct written.
    + destruct (Hw eq_refl) as (l' & [= <-] & Hm). split_and!; [done..|]. intros n [= <-]. split; [|done].
      unfold h1. cbn. rewrite list_lookup_insert_eq by done. by rewrite Hm.
    + destruct (ask a) as [[|] a']; cbn [negb]; [|split_and!; done].
      split_and!; [done|done|by eapply away_trans, away_insert|]. intros n [= <-]. split; [|done].
      cbn. apply list_lookup_insert_eq. by rewrite length_insert.
  - split_and!; [done|done|apply away_app|]. intros n [= <-]. split; [|done]. cbn. by rewrite lookup_app_r, Nat.sub_diag by done.
Qed.

(** ** The invariant *)

Record ssm_ok (h : Held) (hist : list Token) : Prop := {
  so_at : st_at (state h) = length hist;
  so_current : store h !! st_current (state h) = Some (slot_after hist);
  so_previous : forall l, st_previous (state h) = Some l -> l <> st_current (state h) /\ l < length (store h);
  so_previous_at : forall q, st_previous_at (state h) = Some q ->
    q <= length hist /\ exists l, st_previous (state h) = Some l /\ store h !! l = Some (slot_after (take q hist));
  so_rows : forall q, st_previous_at (state h) = Some q -> 0 < st_rows_held (state h) ->
    exists kept, rows h = Some kept /\ st_rows_held (state h) <= length kept /\
      forall n, n <= st_rows_held (state h) -> q + n <= length hist ->
      fold_left apply_row (take n kept) (slot_after (take q hist)) = slot_after (take (q + n) hist) }.

Lemma ssm_ok_away target h h' hist : ssm_ok h hist -> away target (store h) (store h') -> state h' = state h -> rows h' = rows h ->
  (forall l, target = Some l -> l <> st_current (state h) /\ st_previous (state h) = None) -> ssm_ok h' hist.
Proof.
  intros [Hat Hcur Hprev Hpat Hrows] [Hlen Haway] Es Er Ht. pose proof (lookup_lt_Some _ _ _ Hcur) as Hlt. split; rewrite ?Es, ?Er; try done.
  - rewrite Haway; [done|done|]. intros ->. by destruct (Ht _ eq_refl).
  - intros l Hl. destruct (Hprev l Hl). split; [done|lia].
  - intros q Hq. destruct (Hpat q Hq) as (Hle & l & Hl & Hs). split; [done|]. exists l. split; [done|].
    rewrite Haway; [done|by apply (lookup_lt_Some _ _ _ Hs)|]. intros ->. destruct (Ht _ eq_refl). congruence.
Qed.

Lemma keep_rows_spec step in_place h answers :
  let '(kept, h', answers') := keep_step_rows step in_place h answers in
  store h' = store h /\
  (exists r n, h' = with_rows h r n /\ (kept = false -> n = 0) /\
    (n = 0 \/ n = length step /\ exists R, r = Some R /\ take n R = step)).
Proof.
  unfold keep_step_rows. destruct (_ && _); cbn [negb].
  2: { split; [done|]. exists (rows h), 0. split_and!; [done|done|by left]. }
  destruct in_place; cbn [negb].
  2: { split; [done|]. exists (Some step), (length step). split_and!; [done|done|]. right. split; [done|]. exists step.
       split; [done|]. by rewrite take_ge. }
  set (made := match rows (with_rows h (rows h) 0) with Some _ => _ | None => _ end).
  destruct made as [[[|] buffers] a1]; cbn [negb].
  2: { split; [done|]. exists None, 0. split_and!; [done|done|by left]. }
  destruct (ask a1) as [[|] a2]; cbn [negb].
  2: { split; [done|]. exists None, 0. split_and!; [done|done|by left]. }
  split; [done|]. exists (Some (step ++ drop (length step) buffers)), (length step). split_and!; [done|done|]. right.
  split; [done|]. exists (step ++ drop (length step) buffers). split; [done|]. by rewrite take_app_length.
Qed.

Lemma ssm_ok_rows h hist r : ssm_ok h hist -> ssm_ok (with_rows h r 0) hist.
Proof. intros [Hat Hcur Hprev Hpat Hrows]. split; try done. cbn. lia. Qed.

(** Moving on to [next], where the step's state was written. *)
Lemma ssm_ok_advance h hist xs next r n : ssm_ok h hist -> next <> st_current (state h) ->
  store h !! next = Some (slot_after (hist ++ xs)) ->
  (n = 0 \/ n = length xs /\ exists R, r = Some R /\ take n R = rows_of (slot_after hist) xs) ->
  ssm_ok (advance next (st_at (state h) + length xs) (with_rows h r n)) (hist ++ xs).
Proof.
  intros [Hat Hcur Hprev Hpat Hrows] Hne Hnext Hr. split; cbn.
  - rewrite length_app. lia.
  - done.
  - intros l [= <-]. split; [done|]. by apply (lookup_lt_Some _ _ _ Hcur).
  - intros q [= <-]. rewrite Hat, take_app_length, length_app. split; [lia|]. eauto.
  - intros q [= <-] Hn. destruct Hr as [->|(-> & R & -> & HR)]; [lia|]. exists R. split; [done|].
    split; [apply (f_equal length) in HR; rewrite length_take, rows_of_length in HR; lia|]. intros m Hm _.
    rewrite Hat, take_app_length, take_app_add. rewrite slot_after_app, <- apply_rows_of, <- rows_of_take, <- HR, take_take, Nat.min_l by done.
    done.
Qed.

(** What a step writes into: nothing of what the state needs. *)
Lemma step_from_ok into_spare kernel xs h answers hist : ssm_ok h hist ->
  let '(s, h', answers') := step_from into_spare kernel xs h answers in
  s <> NotBegun /\ ssm_ok h' (match s with Advanced _ => hist ++ xs | _ => hist end).
Proof using Hkernel.
  intros Hok. unfold step_from.
  set (sel := if into_spare then _ else _).
  assert (Hsel : exists ready target h1 a1, sel = (ready, target, h1, a1) /\ ssm_ok h1 hist /\
    (ready = true -> target_in target h1 /\ forall l, target = Some l -> l <> st_current (state h1) /\ st_previous (state h1) = None)).
  { unfold sel. destruct into_spare; [|exists true, None, h, answers; split_and!; done].
    assert (Hs : ssm_ok (take_spare h).2 hist) by (destruct Hok; split; cbn; (done || lia)).
    cbn. destruct (st_previous (state h)) as [l|] eqn:Ep.
    - eexists true, (Some l), _, answers. split_and!; [done|exact Hs|]. intros _. destruct (so_previous _ _ Hok l Ep) as [H1 H2].
      split; [|by intros l' [= <-]]. by intros l' [= <-].
    - destruct (ask answers) as [[|] a1]; eexists _, _, _, _; (split_and!; [done| |]); [|intros _; split|exact Hs|done].
      + apply (ssm_ok_away None _ _ _ Hs); (done || apply away_app).
      + intros l [= <-]. cbn. rewrite length_app. cbn. lia.
      + intros l [= <-]. split; [|done]. cbn. pose proof (lookup_lt_Some _ _ _ (so_current _ _ Hok)). lia. }
  destruct Hsel as (ready & target & h1 & a1 & -> & Hok1 & Ht). destruct ready; cbn [negb]; [|done].
  destruct (Ht eq_refl) as [Hin Hsep]. clear Ht.
  destruct (ask a1) as [[|] a2]; cbn [negb]; [|done].
  assert (Hread : current h1 = slot_after hist) by (apply slot_at_lookup, Hok1).
  rewrite Hread. pose proof (slot_after_ok hist) as Hslot. pose proof (step_is_token_by_token (slot_after hist) xs Hslot) as Htok.
  pose proof (step_rows_are_rows (slot_after hist) xs Hslot) as Hrows. destruct (step_rows (slot_after hist) xs) as [step new_conv].
  cbn [fst snd] in Hrows, Htok. subst step. rewrite <- slot_after_app in Htok.
  pose proof (delta_rule_into_spec kernel target (recurrent_state (slot_after hist)) (map row_features (rows_of (slot_after hist) xs)) h1 Hin) as Hd.
  destruct (delta_rule_into _ _ _ _ h1) as [[m written] h2]. destruct Hd as (-> & Er2 & Es2 & Haw2 & _ & Hin2 & Hw2).
  assert (Hok2 : ssm_ok h2 hist) by by eapply ssm_ok_away.
  destruct (ask a2) as [[|] a3]; cbn [negb]; [|done].
  pose proof (written_into_spec target new_conv _ written h2 a3 Hin2 Hw2) as Hwr.
  destruct (written_into _ _ _ _ h2 a3) as [[[next|] h3] a4]; destruct Hwr as (Er3 & Es3 & Haw3 & Hnext);
    (assert (Hok3 : ssm_ok h3 hist) by (eapply ssm_ok_away; try done; rewrite Es2; exact Hsep)); [|done].
  destruct (Hnext next eq_refl) as [Hl3 Hn3]. rewrite Htok in Hl3.
  destruct (ask a4) as [[|] a5]; cbn [negb]; [|done].
  pose proof (keep_rows_spec (rows_of (slot_after hist) xs) (bool_decide (is_Some target)) h3 a5) as Hk.
  destruct (keep_step_rows _ _ h3 a5) as [[kept h4] a6]. destruct Hk as (_ & r & n & -> & Hz & Hn).
  destruct kept; cbn [negb]; [|specialize (Hz eq_refl) as ->; split; [done|by apply ssm_ok_rows]].
  destruct (ask a6) as [ok a7]. split; [done|]. apply (ssm_ok_advance h3 hist xs next r n); try done.
  - rewrite Hn3, Es3, Es2. destruct target as [l|]; cbn; [by apply Hsep|].
    pose proof (lookup_lt_Some _ _ _ (so_current _ _ Hok2)). rewrite Es2 in *. lia.
  - rewrite rows_of_length in Hn. exact Hn.
Qed.

Lemma replay_rows_spec kernel read kept n into h answers : slot_ok read -> n <= length kept -> target_in into h ->
  let '(next, h', answers') := replay_rows kernel read kept n into h answers in
  rows h' = rows h /\ state h' = state h /\ away into (store h) (store h') /\
  (forall l, next = Some l -> store h' !! l = Some (fold_left apply_row (take n kept) read) /\ l = default (length (store h)) into).
Proof using Hkernel.
  intros Hr Hn Hin. unfold replay_rows. destruct (ask answers) as [[|] a]; cbn [negb]; [|split_and!; (done || apply away_refl)].
  pose proof (delta_rule_into_spec kernel into (recurrent_state read) (map row_features (take n kept)) h Hin) as Hd.
  destruct (delta_rule_into _ _ _ _ h) as [[m written] h1]. destruct Hd as (-> & Er & Es & Haw & Hlen & Hin1 & Hw).
  set (conv := take _ _).
  pose proof (written_into_spec into conv _ written h1 a Hin1 Hw) as Hwr.
  destruct (written_into _ _ _ _ h1 a) as [[next h2] a2]. destruct Hwr as (Er2 & Es2 & Haw2 & Hnext).
  split_and!; [congruence|congruence|by eapply away_trans|]. intros l Hl. destruct (Hnext l Hl) as [Hs ->].
  split; [|by rewrite Hlen]. rewrite Hs. f_equal. rewrite apply_rows_at_once by done. unfold conv. do 2 f_equal.
  - by rewrite Hr.
  - by rewrite length_take, Nat.min_l.
Qed.

Lemma rows_to_replay_some h p n : rows_to_replay h p = Some n ->
  exists q, st_previous_at (state h) = Some q /\ p = q + n /\ 0 < n /\ p < st_at (state h) /\ n <= st_rows_held (state h).
Proof.
  unfold rows_to_replay. destruct (st_previous_at (state h)) as [q|]; [|done]. destruct (Nat.leb_spec q p); [|done].
  destruct (Nat.ltb_spec 0 (p - q)), (Nat.ltb_spec p (st_at (state h))), (Nat.leb_spec (p - q) (st_rows_held (state h)));
    cbn [andb]; try done. destruct (bool_decide _); [|done]. intros [= <-]. exists q. split_and!; (done || lia).
Qed.

(** Every answer of a rewind: where it says it moved, the state is the one the kept
    tokens lead to; where it does not, nothing changed; where a call failed off the
    card, nothing that matters did. *)
Lemma rewind_to_ok on_card kernel p h answers hist : ssm_ok h hist ->
  let '(r, h', answers') := rewind_to on_card kernel p h answers in
  match r with
  | Done true => can_rewind_to h p = true /\ p <= length hist /\ st_at (state h') = p /\ ssm_ok h' (take p hist)
  | Done false => can_rewind_to h p = false /\ h' = h
  | Failed => can_rewind_to h p = true /\ (on_card = false -> ssm_ok h' hist)
  end.
Proof using Hkernel.
  intros Hok. unfold rewind_to, can_rewind_to. destruct (Nat.eqb_spec (st_at (state h)) p) as [<-|Hne]; cbn [orb].
  { rewrite (so_at _ _ Hok), take_ge by done. split_and!; (done || lia). }
  destruct (rows_to_replay h p) as [n|] eqn:En.
  - rewrite (bool_decide_eq_true_2 (is_Some (Some n))), orb_true_r by eauto.
    destruct (rows_to_replay_some _ _ _ En) as (q & Eq & -> & Hn0 & Hp & Hn).
    destruct (so_previous_at _ _ Hok q Eq) as (Hq & l & El & Hl). destruct (so_rows _ _ Hok q Eq ltac:(lia)) as (kept & Ek & Hcap & Hkept).
    rewrite El, Ek. rewrite (so_at _ _ Hok) in Hp.
    set (into := if on_card then Some _ else None).
    assert (Hin : target_in into h).
    { unfold into. destruct on_card; [|done]. intros k [= <-]. by apply (lookup_lt_Some _ _ _ (so_current _ _ Hok)). }
    pose proof (replay_rows_spec kernel (slot_at h l) kept n into h answers) as Hrep. rewrite (slot_at_lookup _ _ _ Hl) in *.
    specialize (Hrep (slot_after_ok _) ltac:(lia) Hin).
    destruct (replay_rows _ _ _ _ _ h answers) as [[[next|] h'] a]; destruct Hrep as (Er & Es & Haw & Hnext).
    + destruct (Hnext next eq_refl) as [Hs Hd]. rewrite Hkept in Hs by lia. split_and!; [done|lia|done|].
      destruct Haw as [Hl1 Haw]. pose proof (lookup_lt_Some _ _ _ (so_current _ _ Hok)) as Hcl.
      destruct (so_previous _ _ Hok l El) as [Hlc Hll].
      assert (Hprev : store h' !! l = Some (slot_after (take q (take (q + n) hist)))).
      { rewrite take_take, Nat.min_l by lia. rewrite Haw; [done|done|]. unfold into. destruct on_card; congruence. }
      split; cbn.
      * rewrite length_take. lia.
      * done.
      * rewrite Es. intros l' Hl'. assert (l' = l) as -> by congruence. split; [|lia]. rewrite Hd. unfold into. destruct on_card; cbn; lia.
      * rewrite Es. intros q' Hq'. assert (q' = q) as -> by congruence. rewrite length_take. split; [lia|]. eauto.
      * rewrite Es, Er. intros q' Hq' _. assert (q' = q) as -> by congruence. exists kept. split_and!; [done|done|]. intros m Hm Hlm.
        rewrite length_take in Hlm. rewrite !take_take, !Nat.min_l by lia. apply Hkept; lia.
    + split; [done|]. intros ->. apply (ssm_ok_away None h h' hist Hok); done.
  - rewrite (bool_decide_eq_false_2 (is_Some None)) by (by intros [? ?]). rewrite orb_false_r.
    destruct (bool_decide_reflect (st_previous_at (state h) = Some p)) as [Ep|Ep]; cbn [negb]; [|done].
    destruct (so_previous_at _ _ Hok p Ep) as (Hp & l & El & Hl). rewrite El.
    destruct (so_previous _ _ Hok l El) as [Hlc Hll]. split_and!; [done|done|done|]. split; cbn.
    + rewrite length_take. lia.
    + done.
    + intros l' [= <-]. split; [done|]. by apply (lookup_lt_Some _ _ _ (so_current _ _ Hok)).
    + done.
    + done.
Qed.

Lemma ssm_new_ok heap : ssm_ok (ssm_new heap zero_slot 0) [].
Proof. split; cbn; try done. by rewrite lookup_app_r, Nat.sub_diag by done. Qed.

Definition state_ok (o : option Held) (hist : list Token) : Prop :=
  match o with Some h => ssm_ok h hist | None => hist = [] end.

Lemma ssm_run_ok o hist : ssm_run o hist -> state_ok o hist.
Proof using Hkernel.
  induction 1 as [|o hist xs index_pos into_spare kernel answers s o' answers' Hr IH E base
    |h hist on_card kernel p answers moved h' answers' Hr IH E|h hist kernel p answers h' answers' Hr IH E]; [done| | |].
  - unfold forward_deltanet_into in E. destruct (ask answers) as [[|] a1]; cbn [negb] in E; [|by simplify_eq].
    assert (Hfresh : forall heap s0 h0 a a', step_from into_spare kernel xs (ssm_new heap zero_slot 0) a = (s0, h0, a') ->
      s0 <> NotBegun /\ ssm_ok h0 (match s0 with Advanced _ => xs | _ => [] end)).
    { intros heap s0 h0 a a' Es. pose proof (step_from_ok into_spare kernel xs _ a [] (ssm_new_ok heap)) as Hs. by rewrite Es in Hs. }
    destruct o as [h|].
    + cbn in IH. unfold base. destruct (st_at (state h) =? index_pos).
      * pose proof (step_from_ok into_spare kernel xs h a1 hist IH) as Hs. destruct (step_from _ _ _ h a1) as [[s0 h0] a0].
        simplify_eq. destruct Hs as [Hs Ho]. by destruct s.
      * destruct (index_pos =? 0); [|by simplify_eq]. destruct (ask a1) as [[|] a2]; cbn [negb] in E; [|by simplify_eq].
        destruct (step_from _ _ _ _ a2) as [[s0 h0] a0] eqn:Es. simplify_eq. destruct (Hfresh _ _ _ _ _ Es) as [Hs Ho]. by destruct s.
    + unfold base. cbn in IH. subst hist. destruct (index_pos =? 0); [|by simplify_eq].
      destruct (ask a1) as [[|] a2]; cbn [negb] in E; [|by simplify_eq].
      destruct (step_from _ _ _ _ a2) as [[s0 h0] a0] eqn:Es. simplify_eq. destruct (Hfresh _ _ _ _ _ Es) as [Hs Ho]. by destruct s.
  - pose proof (rewind_to_ok on_card kernel p h answers hist IH) as Hw. rewrite E in Hw. destruct moved; [apply Hw|].
    destruct Hw as [_ ->]. done.
  - pose proof (rewind_to_ok false kernel p h answers hist IH) as Hw. rewrite E in Hw. by apply Hw.
Qed.

(** C6: whatever steps a layer took - of any width, into the buffers of a card or into
    its own, failing at any call - and whatever was taken back, its state is the one
    that reading the tokens of its history one at a time from the start leads to, and
    its position is their number. *)
Theorem recurrent_state_is_its_history h hist : ssm_run (Some h) hist ->
  positions h = length hist /\ current h = slot_after hist.
Proof using Hkernel.
  intros Hr. pose proof (ssm_run_ok _ _ Hr) as Hok. cbn in Hok. split; [apply Hok|]. apply slot_at_lookup, Hok.
Qed.

Lemma ask_false l a : ask l = (false, a) -> false ∈ l.
Proof. destruct l as [|b l]; cbn; [done|]. intros [= -> ->]. by left. Qed.
Lemma ask_later l b a x : ask l = (b, a) -> x ∈ a -> x ∈ l.
Proof. destruct l as [|c l]; cbn; intros [= <- <-]; [done|by right]. Qed.

Lemma written_into_none target conv m written h answers h' answers' :
  written_into target conv m written h answers = (None, h', answers') -> false ∈ answers.
Proof.
  unfold written_into. destruct target; [|done]. destruct (ask answers) as [[|] a1] eqn:E1; cbn [negb]; [|intros _; by eapply ask_false].
  destruct written; [done|]. destruct (ask a1) as [[|] a2] eqn:E2; cbn [negb]; [done|]. intros _. eapply ask_later, ask_false; done.
Qed.

Lemma rewind_failed on_card kernel p h answers h' answers' :
  rewind_to on_card kernel p h answers = (Failed, h', answers') -> false ∈ answers.
Proof.
  unfold rewind_to. destruct (_ =? _); [done|]. destruct (rows_to_replay h p); [|repeat case_match; done].
  destruct (st_previous (state h)), (rows h); try done. unfold replay_rows.
  destruct (ask answers) as [[|] a1] eqn:E1; cbn [negb]; [|intros _; by eapply ask_false].
  destruct (delta_rule_into _ _ _ _ _) as [[m w] h1]. destruct (written_into _ _ _ _ _ _) as [[[|] h2] a2] eqn:Ew; [done|].
  intros _. eapply ask_later; [done|]. by eapply written_into_none.
Qed.

(** The answers left over were among those given. *)
Lemma written_into_later target conv m written h answers next h' answers' x :
  written_into target conv m written h answers = (next, h', answers') -> x ∈ answers' -> x ∈ answers.
Proof.
  unfold written_into. destruct target; [|by intros [= <- <- <-]]. destruct (ask answers) as [[|] a1] eqn:E1; cbn [negb].
  2: { intros [= <- <- <-]. by eapply ask_later. }
  destruct written; [intros [= <- <- <-]; by eapply ask_later|]. destruct (ask a1) as [[|] a2] eqn:E2; cbn [negb]; intros [= <- <- <-] Hx;
    eapply ask_later; try done; by eapply ask_later.
Qed.

Lemma rewind_later on_card kernel p h answers r h' answers' x :
  rewind_to on_card kernel p h answers = (r, h', answers') -> x ∈ answers' -> x ∈ answers.
Proof.
  unfold rewind_to. destruct (_ =? _); [by intros [= <- <- <-]|]. destruct (rows_to_replay h p).
  2: { repeat case_match; intros; by simplify_eq. }
  destruct (st_previous (state h)), (rows h); try (by intros [= <- <- <-]). unfold replay_rows.
  destruct (ask answers) as [[|] a1] eqn:E1; cbn [negb]; [|intros [= <- <- <-]; by eapply ask_later].
  destruct (delta_rule_into _ _ _ _ _) as [[m w] h1]. destruct (written_into _ _ _ _ _ _) as [[[|] h2] a2] eqn:Ew;
    intros [= <- <- <-] Hx; (eapply ask_later; [done|]); by eapply written_into_later.
Qed.

(** a state says it can be taken back to a position exactly when it is: it then
    stands for the opening of its history and no call but a failed one can refuse it;
    otherwise nothing changes.  No history is needed further back than the last step. *)
Theorem rewind_is_exact h hist on_card kernel p answers r h' answers' : ssm_run (Some h) hist ->
  rewind_to on_card kernel p h answers = (r, h', answers') ->
  match r with
  | Done true => can_rewind_to h p = true /\ p <= length hist /\ positions h' = p /\ current h' = slot_after (take p hist)
  | Done false => can_rewind_to h p = false /\ h' = h
  | Failed => can_rewind_to h p = true /\ false ∈ answers
  end.
Proof using Hkernel.
  intros Hr E. pose proof (ssm_run_ok _ _ Hr) as Hok. pose proof (rewind_to_ok on_card kernel p h answers hist Hok) as Hw.
  rewrite E in Hw. destruct r as [[|]|].
  - destruct Hw as (Hc & Hp & Ha & Ho). split_and!; [done..|]. apply slot_at_lookup, Ho.
  - done.
  - destruct Hw as [Hc _]. split; [done|]. by eapply rewind_failed.
Qed.
End rows.

(** ** A worked example

    Tokens are numbers; a token's features are its window's, and the memory is a
    polynomial of them, so that every token and its place show. *)

Definition toy_net : DeltaNet := {|
  Token := Z; Input := Z; Features := Z; Memory := Z; zero_input := 0%Z; zero_features := 0%Z; zero_memory := 0%Z;
  conv_kernel := 3; wqkv := fun t => (2 * t)%Z; features := fun w t => (fold_left Z.add w t)%Z;
  delta := fun m f => (10 * m + f)%Z |}.

Definition toks (l : list Z) : list (@Token toy_net) := l.

(** On a card: a prompt of four tokens, a check of three, taken back into its middle, a
    step that fails after the kernel ran, and the step again. *)
Definition card_step (xs : list (@Token toy_net)) (at_ : nat) (o : option (@Held toy_net)) (answers : list bool) :=
  forward_deltanet_into true true xs at_ o answers.
Definition prompted : @Held toy_net := Eval vm_compute in default (ssm_new [] zero_slot 0) (card_step (toks [1; 2; 3; 4]%Z) 0 None []).1.2.
Definition checked : @Held toy_net := Eval vm_compute in default prompted (card_step (toks [5; 6; 7]%Z) 4 (Some prompted) []).1.2.
Definition taken_back : @Held toy_net := Eval vm_compute in (rewind_to true true 5 checked []).1.2.
Definition cut_short : @Held toy_net := Eval vm_compute in default prompted (card_step (toks [8; 9]%Z) 5 (Some taken_back) [true; true; true; false]).1.2.
Definition stepped_again : @Held toy_net := Eval vm_compute in default prompted (card_step (toks [8; 9]%Z) 5 (Some cut_short) []).1.2.

Lemma checked_run : ssm_run (Some checked) (toks [1; 2; 3; 4; 5; 6; 7]%Z).
Proof.
  refine (sr_step (Some prompted) (toks [1; 2; 3; 4]%Z) (toks [5; 6; 7]%Z) 4 true true [] (Advanced true) (Some checked) [] _ _); [|by vm_compute].
  refine (sr_step None [] (toks [1; 2; 3; 4]%Z) 0 true true [] (Advanced true) (Some prompted) [] sr_none _). by vm_compute.
Qed.

Lemma stepped_again_run : ssm_run (Some stepped_again) (toks [1; 2; 3; 4; 5; 8; 9]%Z).
Proof.
  refine (sr_step (Some cut_short) (toks [1; 2; 3; 4; 5]%Z) (toks [8; 9]%Z) 5 true true [] (Advanced true) (Some stepped_again) [] _ _); [|by vm_compute].
  refine (sr_step (Some taken_back) (toks [1; 2; 3; 4; 5]%Z) (toks [8; 9]%Z) 5 true true [true; true; true; false] CutShort (Some cut_short) [] _ _); [|by vm_compute].
  refine (sr_rewind checked (toks [1; 2; 3; 4; 5; 6; 7]%Z) true true 5 [] true taken_back [] checked_run _). by vm_compute.
Qed.

Lemma recurrent_state_is_its_history_witness : positions stepped_again = 7 /\ current stepped_again = slot_after (toks [1; 2; 3; 4; 5; 8; 9]%Z).
Proof. refine (recurrent_state_is_its_history _ stepped_again (toks [1; 2; 3; 4; 5; 8; 9]%Z) stepped_again_run). cbn. lia. Defined.

Lemma rewind_is_exact_witness : can_rewind_to checked 5 = true /\ 5 <= 7 /\ positions taken_back = 5 /\ current taken_back = slot_after (toks [1; 2; 3; 4; 5]%Z).
Proof.
  refine (rewind_is_exact _ checked (toks [1; 2; 3; 4; 5; 6; 7]%Z) true true 5 [] (Done true) taken_back [] checked_run _); [cbn; lia|by vm_compute].
Defined.

(** A replay that fails on a card after its kernel ran leaves the layer at its position
    with another state: a forward there would read a history the layer never had. *)
Example failed_replay_spoils_the_state : let '(r, h, _) := rewind_to true true 5 checked [true; false] in
  r = Failed /\ positions h = 7 /\ current h <> slot_after (toks [1; 2; 3; 4; 5; 6; 7]%Z) /\
  (card_step (toks [8]%Z) 7 (Some h) []).1.1 = Advanced true.
Proof. vm_compute. split_and!; congruence. Qed.
