(* ===== verification/KvStore.v ===== *)
(** * The store of conversations' caches ([src/inference/split/kv_cache.rs])

    [KvCacheEntry], the caches one request has for one part of a model, and
    [KvCacheStore], every request's on this worker: what they hold, taking a
    conversation back to a position, the room a growing one may claim, and letting go of
    those that are over.

    A string is its bytes.  Clocks are arguments, in nanoseconds.  The prefix cache's
    evictor is a function of the store's record, as the code installs one.  Sums of
    bytes held are sums in Z: they are of memory the process has. *)
From S2P Require Import Prelude Bytes SeqCache LayerCache RecurrentState KvBudget.
#[local] Open Scope Z_scope.

(** ** Homes and occupancy *)

Inductive KvHome : Type := HomeCard | HomeHost.
#[global] Instance kv_home_eq_dec : EqDecision KvHome.
Proof. solve_decision. Defined.

Record KvOccupancy : Type := {
  oc_entries : Z;
  oc_allocated_bytes : Z;
  oc_host_bytes : Z;
  oc_used_bytes : Z;
  oc_tokens : Z;
  oc_external_bytes : Z }.

Definition allocated_in (home : KvHome) (o : KvOccupancy) : Z :=
  match home with
  | HomeCard => u64_saturating_sub (oc_allocated_bytes o) (oc_host_bytes o)
  | HomeHost => oc_host_bytes o
  end.

Record ClaimRefused : Type := {
  cr_in_use_bytes : Z;
  cr_live_bytes : Z;
  cr_external_bytes : Z;
  cr_entries : Z }.

Inductive TruncateMode : Type := InPlace | CopyMode.

(** What the tensors of a recurrent layer weigh, and where they are: the crate's. *)
Class SsmTensors `{DeltaNet} : Type := {
  slot_tensors : SsmSlot -> list (Z * KvHome);
  rows_tensors : list SsmRow -> list (Z * KvHome) }.

(** ** [KvCacheEntry] *)

Record KvCacheEntry `{Candle, DeltaNet} : Type := {
  layers : list (option LayerKv);
  ssm_states : list (option Held);
  last_accessed : Z }.
Arguments Build_KvCacheEntry {_ _} _ _ _.

Section entry.
Context `{Candle, DeltaNet, !SsmTensors}.
Context (mirror_is_lazy : bool) (wants_shadow : Tensor -> bool).

Definition home_of (d : Device) : KvHome := if is_cuda d then HomeCard else HomeHost.

Definition entry_fresh (num_layers : nat) (now : Z) : KvCacheEntry :=
  {| layers := replicate num_layers None; ssm_states := replicate num_layers None; last_accessed := now |}.

Definition holds_every_layer (e : KvCacheEntry) (num_layers : nat) : bool :=
  (num_layers <=? length (layers e))%nat && (num_layers <=? length (ssm_states e))%nat.

Definition holds_state (e : KvCacheEntry) : bool :=
  existsb (fun kv => (0 <? lk_current_seq_len kv)%nat) (omap id (layers e)) ||
  existsb (fun s => bool_decide (is_Some s)) (ssm_states e).

(** One buffer in the figures: its bytes, and those of the positions held. *)
Definition add_cache (o : KvOccupancy) (c : SeqCache) : KvOccupancy :=
  match sc_all_data c with
  | None => o
  | Some data =>
      let total := elem_count data * size_in_bytes (t_dtype data) in
      {| oc_entries := oc_entries o; oc_allocated_bytes := oc_allocated_bytes o + total;
         oc_host_bytes := oc_host_bytes o + (if bool_decide (home_of (t_device data) = HomeHost) then total else 0);
         oc_used_bytes := oc_used_bytes o + total / Z.max (Z.of_nat (sc_max_seq_len c)) 1 * Z.of_nat (sc_held c);
         oc_tokens := oc_tokens o; oc_external_bytes := oc_external_bytes o |}
  end.

Definition add_layer_kv (o : KvOccupancy) (kv : LayerKv) : KvOccupancy :=
  let o := fold_left add_cache (all_caches kv) o in
  {| oc_entries := oc_entries o; oc_allocated_bytes := oc_allocated_bytes o; oc_host_bytes := oc_host_bytes o;
     oc_used_bytes := oc_used_bytes o; oc_tokens := oc_tokens o + Z.of_nat (sc_held (kp_k (lk_main kv)));
     oc_external_bytes := oc_external_bytes o |}.

(** [SsmState::tensors]. *)
Definition ssm_tensors (h : Held) : list (Z * KvHome) :=
  slot_tensors (current h) ++
  match st_previous (state h) with Some l => slot_tensors (slot_at h l) | None => [] end ++
  match rows h with Some r => rows_tensors r | None => [] end.

Definition add_ssm_tensor (o : KvOccupancy) (t : Z * KvHome) : KvOccupancy :=
  {| oc_entries := oc_entries o; oc_allocated_bytes := oc_allocated_bytes o + t.1;
     oc_host_bytes := oc_host_bytes o + (if bool_decide (t.2 = HomeHost) then t.1 else 0);
     oc_used_bytes := oc_used_bytes o + t.1; oc_tokens := oc_tokens o; oc_external_bytes := oc_external_bytes o |}.

Definition nothing_held (entries : Z) : KvOccupancy :=
  {| oc_entries := entries; oc_allocated_bytes := 0; oc_host_bytes := 0; oc_used_bytes := 0; oc_tokens := 0; oc_external_bytes := 0 |}.

Definition entry_occupancy (e : KvCacheEntry) : KvOccupancy :=
  fold_left (fun o s => fold_left add_ssm_tensor (ssm_tensors s) o) (omap id (ssm_states e))
    (fold_left add_layer_kv (omap id (layers e)) (nothing_held 1)).

(** [LayerKv::bytes_added_by] *)
Definition per_position_of (c : SeqCache) (data : Tensor) : Z := elem_count data / Z.max (Z.of_nat (sc_max_seq_len c)) 1.

Definition layer_bytes_added_by (kv : LayerKv) (index_pos seq_len : nat) : option (Z * KvHome) :=
  let k := kp_k (lk_main kv) in
  let v := kp_v (lk_main kv) in
  match sc_all_data k, sc_all_data v with
  | Some k_data, Some v_data =>
      let elems := per_position_of k k_data + per_position_of v v_data in
      let added := Z.of_nat (positions_added_by k index_pos seq_len) in
      let mirrored := Z.of_nat (mirror_positions_added_by mirror_is_lazy wants_shadow kv index_pos seq_len k_data) in
      Some (u64_saturating_add (u64_saturating_mul (u64_saturating_mul added elems) (size_in_bytes (t_dtype k_data)))
              (u64_saturating_mul (u64_saturating_mul mirrored elems) (size_in_bytes F16)),
            home_of (t_device k_data))
  | _, _ => None
  end.

Definition entry_bytes_a_forward_adds (e : KvCacheEntry) (index_pos seq_len : nat) (home : KvHome) : option Z :=
  fold_left (fun added kv =>
    match layer_bytes_added_by kv index_pos seq_len with
    | Some (bytes, layer_home) =>
        let total := default 0 added in
        Some (if bool_decide (layer_home = home) then u64_saturating_add total bytes else total)
    | None => added
    end) (omap id (layers e)) None.

Definition entry_catch_up_mirrors (e : KvCacheEntry) (answers : list bool) : KvCacheEntry * list bool :=
  let '(ls, answers) := fold_left (fun acc l =>
    match l with
    | Some kv => let '(kv, answers) := catch_up_mirror kv acc.2 in (acc.1 ++ [Some kv], answers)
    | None => (acc.1 ++ [None], acc.2)
    end) (layers e) ([], answers) in
  ({| layers := ls; ssm_states := ssm_states e; last_accessed := last_accessed e |}, answers).

(** ** Taking a conversation back *)

(** Every state rewound, in order; the first that fails stops it there. *)
Fixpoint rewind_all (on_card kernel : bool) (p : nat) (ss : list (option Held)) (answers : list bool)
  : bool * list (option Held) * list bool :=
  match ss with
  | [] => (true, [], answers)
  | None :: ss => let '(ok, ss, answers) := rewind_all on_card kernel p ss answers in (ok, None :: ss, answers)
  | Some s :: ss =>
      let '(r, s, answers) := rewind_to on_card kernel p s answers in
      match r with
      | Failed => (false, Some s :: ss, answers)
      | Done _ => let '(ok, ss, answers) := rewind_all on_card kernel p ss answers in (ok, Some s :: ss, answers)
      end
  end.

(** One layer of [truncate_by_copy]: the kept rows copied out and appended to the cache
    started over; fails where a call does, leaving the layer as it is then. *)
Definition copy_layer (target_len : nat) (kv : LayerKv) (answers : list bool) : bool * LayerKv * list bool :=
  if (lk_current_seq_len kv <=? target_len)%nat then (true, kv, answers)
  else
    let from := lk_held_from kv in
    match sc_current_data (kp_k (lk_main kv)), sc_current_data (kp_v (lk_main kv)) with
    | Some (Some k), Some (Some v) =>
        match narrow k 0 (target_len - from), narrow v 0 (target_len - from) with
        | Some k_snap, Some v_snap =>
            let '(out, kv, answers) := lk_append mirror_is_lazy wants_shadow k_snap v_snap (lk_begin_at from (lk_reset kv)) answers in
            (bool_decide (is_Some out), kv, answers)
        | _, _ => (false, kv, answers)
        end
    | _, _ => (false, kv, answers)
    end.

Fixpoint truncate_by_copy (target_len : nat) (ls : list (option LayerKv)) (answers : list bool)
  : bool * list (option LayerKv) * list bool :=
  match ls with
  | [] => (true, [], answers)
  | None :: ls => let '(ok, ls, answers) := truncate_by_copy target_len ls answers in (ok, None :: ls, answers)
  | Some kv :: ls =>
      let '(ok, kv, answers) := copy_layer target_len kv answers in
      if ok then let '(ok, ls, answers) := truncate_by_copy target_len ls answers in (ok, Some kv :: ls, answers)
      else (false, Some kv :: ls, answers)
  end.

(** Why a conversation was not taken back: refused before anything was touched, or a
    call failed. *)
Inductive Truncated : Type := Cut | RecurrentRefused | WindowRefused (held_from : nat) | CallFailed.

Definition truncate_to_with (on_card kernel : bool) (mode : TruncateMode) (target_len : nat) (e : KvCacheEntry) (answers : list bool)
  : Truncated * KvCacheEntry * list bool :=
  if negb (forallb (fun s => can_rewind_to s target_len) (omap id (ssm_states e))) then (RecurrentRefused, e, answers)
  else
    match list_find (fun kv => can_truncate_to kv target_len = false) (omap id (layers e)) with
    | Some (_, kv) => (WindowRefused (lk_held_from kv), e, answers)
    | None =>
        let '(ok, ss, answers) := rewind_all on_card kernel target_len (ssm_states e) answers in
        let e := {| layers := layers e; ssm_states := ss; last_accessed := last_accessed e |} in
        if negb ok then (CallFailed, e, answers)
        else
          match mode with
          | InPlace => (Cut, {| layers := map (fmap (lk_truncate target_len)) (layers e); ssm_states := ss; last_accessed := last_accessed e |}, answers)
          | CopyMode =>
              let '(ok, ls, answers) := truncate_by_copy target_len (layers e) answers in
              (if ok then Cut else CallFailed, {| layers := ls; ssm_states := ss; last_accessed := last_accessed e |}, answers)
          end
    end.
End entry.

(** ** A conversation taken back, whole *)

Section taken_back.
Context `{Candle, DeltaNet}.
Context (windowed mirror_is_lazy : bool) (wants_shadow : Tensor -> bool) (on_card kernel : bool).
Context (Hkernel : (1 <= conv_kernel)%nat).

(** What a layer was given: its window, and the rows of its keys and values. *)
Record Given : Type := { gv_window : option nat; gv_keys : list Row; gv_values : list Row }.

Definition layer_stands (o : option LayerKv) (g : Given) : Prop :=
  match o with
  | Some kv => (forall win, gv_window g = Some win -> (1 <= win)%nat) /\ layer_at (strict := false) windowed (gv_window g) kv (gv_keys g) (gv_values g)
  | None => True
  end.
Definition state_stands (o : option Held) (hist : list Token) : Prop :=
  match o with Some h => ssm_ok h hist | None => True end.

(** Every layer of an entry holds what it was given: its rows of keys and values, or the
    state after its tokens. *)
Definition entry_stands (e : KvCacheEntry) (gs : list Given) (hists : list (list Token)) : Prop :=
  Forall2 layer_stands (layers e) gs /\ Forall2 state_stands (ssm_states e) hists.

Definition opening (p : nat) (g : Given) : Given :=
  {| gv_window := gv_window g; gv_keys := take p (gv_keys g); gv_values := take p (gv_values g) |}.

Lemma rewind_all_stands p ss answers hists : Forall2 state_stands ss hists ->
  forallb (fun s => can_rewind_to s p) (omap id ss) = true ->
  let '(ok, ss', answers') := rewind_all on_card kernel p ss answers in
  if ok then Forall2 state_stands ss' (map (take p) hists) else false ∈ answers.
Proof using Hkernel.
  intros HF. revert answers. induction HF as [|o hist ss hists Ho HF IH]; intros answers Hc; cbn; [constructor|].
  destruct o as [h|].
  - cbn in Hc. apply andb_true_iff in Hc as [Hh Hc]. pose proof (rewind_to_ok Hkernel on_card kernel p h answers hist) as Hw.
    destruct (rewind_to on_card kernel p h answers) as [[[[|]|] h'] a1] eqn:Er.
    + specialize (IH a1 Hc). assert (Hlater : forall x, x ∈ a1 -> x ∈ answers) by (intros x; by eapply rewind_later).
      destruct (rewind_all on_card kernel p ss a1) as [[[|] ss'] a2]; [|by apply Hlater].
      cbn. constructor; [|done]. by apply Hw.
    + destruct (Hw Ho) as [? _]. congruence.
    + by eapply rewind_failed.
  - specialize (IH answers Hc). destruct (rewind_all on_card kernel p ss answers) as [[[|] ss'] a2]; [|done]. cbn. by constructor.
Qed.

Lemma truncate_stands p ls gs : Forall2 layer_stands ls gs ->
  (forall kv, kv ∈ omap id ls -> can_truncate_to kv p = true) ->
  Forall2 layer_stands (map (fmap (lk_truncate p)) ls) (map (opening p) gs).
Proof.
  intros HF. induction HF as [|o g ls gs Ho HF IH]; intros Hc; cbn; constructor.
  - destruct o as [kv|]; [|done]. destruct Ho as [Hw Hr]. split; [done|]. apply layer_ok_truncate; [done..|]. apply Hc. cbn. left.
  - apply IH. intros kv Hkv. apply Hc. destruct o; cbn; [by right|done].
Qed.

(** C13: taking a conversation back is whole or refused: after it every layer holds the
    first positions of what it was given and no more - keys and values at that length, a
    windowed one never less than its window, the mirror an opening of them, the recurrent
    state the one after those tokens; a refusal touches nothing; and only a call that failed leaves it between the
    two, with every cache of keys and values as it was. *)
Theorem truncation_is_whole e p answers gs hists r e' answers' : entry_stands e gs hists ->
  truncate_to_with mirror_is_lazy wants_shadow on_card kernel InPlace p e answers = (r, e', answers') ->
  match r with
  | Cut => entry_stands e' (map (opening p) gs) (map (take p) hists)
  | RecurrentRefused | WindowRefused _ => e' = e
  | CallFailed => layers e' = layers e /\ false ∈ answers
  end.
Proof using Hkernel.
  intros [HL HS]. unfold truncate_to_with. destruct (forallb _ _) eqn:Ef; cbn [negb]; [|by intros [= <- <- <-]].
  destruct (list_find _ (omap id (layers e))) as [[i kv]|] eqn:El; [by intros [= <- <- <-]|].
  pose proof (rewind_all_stands p (ssm_states e) answers hists HS Ef) as Hr.
  destruct (rewind_all on_card kernel p (ssm_states e) answers) as [[[|] ss] a1]; cbn [negb]; intros [= <- <- <-]; [|done].
  split; [|done]. apply truncate_stands; [done|]. intros kv Hkv. apply list_find_None in El.
  rewrite list.Forall_forall in El. specialize (El kv Hkv). by destruct (can_truncate_to kv p).
Qed.
End taken_back.

(** ** The copying truncation reads the same *)

Section copying.
Context `{Candle}.

Lemma sc_append_copied c ad src p answers c' answers' : sc_ok c -> sc_all_data c = Some ad ->
  (forall d, sc_store_dtype c = Some d -> sc_dtype c = Some d) -> (sc_start c <= p <= sc_current_seq_len c)%nat ->
  t_rows src = take (p - sc_start c) (sc_view c) -> t_dtype src = t_dtype ad ->
  sc_append src (sc_begin_at (sc_start c) (sc_reset c)) answers = (true, c', answers') ->
  sc_start c' = sc_start c /\ sc_current_seq_len c' = p /\ sc_view c' = take (p - sc_start c) (sc_view c).
Proof.
  intros Hok Hd Hdt Hp Hrows Hty E. set (c0 := sc_begin_at (sc_start c) (sc_reset c)) in *.
  assert (Hok0 : sc_ok c0) by by apply sc_begin_at_ok, sc_reset_ok.
  pose proof (sc_append_spec src c0 answers Hok0) as Ha. rewrite E in Ha. destruct Ha as [d Ha].
  destruct (ap_done _ _ _ _ _ Ha eq_refl) as (Ed & _ & _ & _).
  assert (Hd0 : d = 0%nat).
  { rewrite Ed. unfold slid_by, c0, sc_held. cbn. destruct (sc_keep c); [|done]. by rewrite Nat.sub_diag, andb_false_r. }
  subst d. assert (Hlen : t_len src = (p - sc_start c)%nat).
  { unfold t_len. rewrite Hrows, length_take, sc_view_length by done. unfold sc_held. lia. }
  split_and!.
  - rewrite (ap_start _ _ _ _ _ Ha), Hd0. unfold c0. cbn. lia.
  - rewrite (ap_len _ _ _ _ _ Ha), Hlen. unfold c0. cbn. lia.
  - rewrite (ap_view _ _ _ _ _ Ha), Hd0.
    assert (Hv0 : sc_view c0 = []) by done. rewrite Hv0. cbn [drop app].
    assert (Hto : to_dtype (default (t_dtype src) (sc_dtype c0)) src = src).
    { unfold to_dtype. rewrite decide_True; [done|]. unfold sc_dtype, c0. cbn. destruct (sc_store_dtype c) as [d|] eqn:Es; [|done].
      specialize (Hdt d eq_refl). unfold sc_dtype in Hdt. rewrite Hd in Hdt. cbn. congruence. }
    by rewrite Hto.
Qed.

(** the truncation that moves a length and the copying one it replaced leave every
    layer the same: the same positions, from the same first one, and the same rows of
    keys and of values. *)
Theorem copying_agrees_with_moving windowed mirror_is_lazy wants_shadow w widest kv hk hv p answers kv' answers' :
  (forall win, w = Some win -> (1 <= win)%nat) ->
  layer_run windowed mirror_is_lazy wants_shadow w widest kv hk hv -> can_truncate_to kv p = true ->
  copy_layer mirror_is_lazy wants_shadow p kv answers = (true, kv', answers') ->
  let moved := lk_truncate p kv in
  lk_current_seq_len kv' = lk_current_seq_len moved /\ lk_held_from kv' = lk_held_from moved /\
  sc_view (kp_k (lk_main kv')) = sc_view (kp_k (lk_main moved)) /\ sc_view (kp_v (lk_main kv')) = sc_view (kp_v (lk_main moved)).
Proof.
  intros Hw Hr Hc E moved. pose proof (layer_run_ok _ _ _ _ _ Hw _ _ _ Hr) as HL.
  pose proof (truncate_start _ _ Hw _ _ _ _ HL Hc) as Hfrom. unfold lk_held_from, sc_held_from in Hfrom.
  pose proof (ke_ok _ _ _ (lo_keys _ _ _ _ _ HL)) as Hok. pose proof (ke_ok _ _ _ (lo_values _ _ _ _ _ HL)) as Hokv.
  pose proof (lo_step _ _ _ _ _ HL) as Hst. pose proof (lo_dtype _ _ _ _ _ HL) as Hdt.
  assert (Hlen : sc_current_seq_len (kp_v (lk_main kv)) = sc_current_seq_len (kp_k (lk_main kv))).
  { rewrite (ke_len _ _ _ (lo_keys _ _ _ _ _ HL)), (ke_len _ _ _ (lo_values _ _ _ _ _ HL)). symmetry. apply HL. }
  pose proof (sc_truncate_view p _ Hok) as Vk. pose proof (sc_truncate_view p _ Hokv) as Vv.
  unfold moved, lk_current_seq_len, pair_current_seq_len, lk_held_from, sc_held_from, lk_truncate, pair_truncate, pair_map, lk_with.
  cbn [lk_main kp_k kp_v]. rewrite Vk, Vv. pose proof (ok_start _ Hok). pose proof (ok_start _ Hokv). rewrite <- (is_start _ _ Hst).
  unfold copy_layer in E. unfold lk_current_seq_len, pair_current_seq_len in E.
  destruct (Nat.leb_spec (sc_current_seq_len (kp_k (lk_main kv))) p) as [Hle|Hgt].
  { simplify_eq. cbn. split_and!; [lia|done|..]; rewrite take_ge; try done; rewrite sc_view_length by done; unfold sc_held; pose proof (is_start _ _ Hst); lia. }
  pose proof (sc_current_data_view _ Hok) as Ck. pose proof (sc_current_data_view _ Hokv) as Cv.
  destruct (sc_current_data (kp_k (lk_main kv))) as [[k|]|]; [|done..].
  destruct (sc_current_data (kp_v (lk_main kv))) as [[v|]|]; [|done..].
  destruct Ck as (Rk & adk & Dk & Tk). destruct Cv as (Rv & adv & Dv & Tv).
  unfold lk_held_from, sc_held_from in E.
  destruct (narrow k 0 _) as [k_snap|] eqn:Nk; [|done]. destruct (narrow v 0 _) as [v_snap|] eqn:Nv; [|done].
  unfold narrow in Nk, Nv. destruct (_ <=? t_len k)%nat; [|done]. destruct (_ <=? t_len v)%nat; [|done]. simplify_eq.
  match type of E with context [lk_append _ _ ?a ?b ?c ?d] => destruct (lk_append mirror_is_lazy wants_shadow a b c d) as [[out kv1] a1] eqn:Ea end.
  destruct out as [out|]; [|rewrite bool_decide_eq_false_2 in E by (by intros [? ?]); done].
  rewrite bool_decide_eq_true_2 in E by eauto. simplify_eq.
  unfold lk_append in Ea. destruct (pair_append _ _ _ answers) as [[[out0|] main] a2] eqn:Ep; [|done].
  apply pair_append_parts in Ep as (b1 & b2 & b3 & b4 & b5 & Ek & Ev & _ & _). cbn [lk_main lk_begin_at lk_reset lk_with pair_begin_at pair_reset pair_map kp_k kp_v] in Ek, Ev.
  assert (Hmain : lk_main kv' = main) by (repeat case_match; by simplify_eq).
  apply (sc_append_copied _ adk _ p) in Ek as (Sk & Lk & Wk); try done; [|apply Hdt|lia|by cbn; rewrite drop_0, Rk].
  rewrite (is_start _ _ Hst) in Ev. pose proof (is_start _ _ Hst) as Hss.
  apply (sc_append_copied _ adv _ p) in Ev as (Sv & Lv & Wv); try done;
    [|rewrite <- (so_store _ _ Hdt), <- (so_dtype _ _ Hdt); apply Hdt|lia|cbn; rewrite drop_0, Rv; done || by rewrite Hss].
  rewrite Hmain, Sk, Lk, Wk, Wv, (is_start _ _ Hst). cbn. split_and!; (done || lia).
Qed.
End copying.

(** ** Keys *)

Definition NUL : Z := 0.
Definition cache_key (model_key request_id : bytes) : bytes := model_key ++ NUL :: request_id.

(** [key.split('\0')] *)
Fixpoint split_nul (key : bytes) : list bytes :=
  match key with
  | [] => [[]]
  | b :: key =>
      if b =? NUL then [] :: split_nul key
      else match split_nul key with piece :: pieces => (b :: piece) :: pieces | [] => [[b]] end
  end.
Definition request_of_key (key : bytes) : bytes := default [] (split_nul key !! 1%nat).

Definition ends_with (key suffix : bytes) : bool := bool_decide (suffix `suffix_of` key).
Fixpoint contains (needle hay : bytes) : bool :=
  bool_decide (needle `prefix_of` hay) || match hay with [] => false | _ :: hay => contains needle hay end.

(** ** [KvCacheStore] *)

Definition CONVERSATION_GAP_SECS : Z := 120.
Definition FINISHED_CONVERSATION_AFTER : Z := CONVERSATION_GAP_SECS * 1000000000.

(** The evictor answers with what it freed and what is then held; the oracle of
    cancelled requests is asked between layers. *)
Record KvCacheStore `{Candle, DeltaNet} : Type := {
  caches : gmap bytes KvCacheEntry;
  kv_ttl : Z;
  external_reserved : Z;
  external_evictor : option (Z -> Z * Z);
  cancel_oracle : option (bytes -> bool);
  admitted_claims : gmap bytes (Z * Z * Z);
  reserved_positions : gmap bytes (nat * Z);
  owner_requests : gmap bytes Z;
  ranges_admitted : gmap bytes (list (Z * Z) * Z) }.
Arguments Build_KvCacheStore {_ _} _ _ _ _ _ _ _ _ _.

Section store.
Context `{Candle, DeltaNet, !SsmTensors}.
Context (mirror_is_lazy : bool) (wants_shadow : Tensor -> bool) (kv_reserve_enabled on_card kernel : bool) (mode : TruncateMode).

Definition store_new (ttl : Z) : KvCacheStore :=
  {| caches := ∅; kv_ttl := ttl; external_reserved := 0; external_evictor := None; cancel_oracle := None;
     admitted_claims := ∅; reserved_positions := ∅; owner_requests := ∅; ranges_admitted := ∅ |}.

Definition with_caches (m : gmap bytes KvCacheEntry) (st : KvCacheStore) : KvCacheStore :=
  {| caches := m; kv_ttl := kv_ttl st; external_reserved := external_reserved st; external_evictor := external_evictor st;
     cancel_oracle := cancel_oracle st; admitted_claims := admitted_claims st; reserved_positions := reserved_positions st;
     owner_requests := owner_requests st; ranges_admitted := ranges_admitted st |}.
Definition set_external_reserved (bytes : Z) (st : KvCacheStore) : KvCacheStore :=
  {| caches := caches st; kv_ttl := kv_ttl st; external_reserved := bytes; external_evictor := external_evictor st;
     cancel_oracle := cancel_oracle st; admitted_claims := admitted_claims st; reserved_positions := reserved_positions st;
     owner_requests := owner_requests st; ranges_admitted := ranges_admitted st |}.
Definition set_external_evictor (f : Z -> Z * Z) (st : KvCacheStore) : KvCacheStore :=
  {| caches := caches st; kv_ttl := kv_ttl st; external_reserved := external_reserved st; external_evictor := Some f;
     cancel_oracle := cancel_oracle st; admitted_claims := admitted_claims st; reserved_positions := reserved_positions st;
     owner_requests := owner_requests st; ranges_admitted := ranges_admitted st |}.
Definition set_cancel_oracle (f : bytes -> bool) (st : KvCacheStore) : KvCacheStore :=
  {| caches := caches st; kv_ttl := kv_ttl st; external_reserved := external_reserved st; external_evictor := external_evictor st;
     cancel_oracle := Some f; admitted_claims := admitted_claims st; reserved_positions := reserved_positions st;
     owner_requests := owner_requests st; ranges_admitted := ranges_admitted st |}.
(** The four records kept per request. *)
Definition with_books (claims : gmap bytes (Z * Z * Z)) (reserved : gmap bytes (nat * Z)) (owners : gmap bytes Z)
    (ranges : gmap bytes (list (Z * Z) * Z)) (st : KvCacheStore) : KvCacheStore :=
  {| caches := caches st; kv_ttl := kv_ttl st; external_reserved := external_reserved st; external_evictor := external_evictor st;
     cancel_oracle := cancel_oracle st; admitted_claims := claims; reserved_positions := reserved; owner_requests := owners;
     ranges_admitted := ranges |}.

Definition request_cancelled (st : KvCacheStore) (request : bytes) : bool :=
  match cancel_oracle st with Some f => f request | None => false end.

(** *** What is recorded of a request *)

Definition set_reserved_positions (request : bytes) (positions : nat) (now : Z) (st : KvCacheStore) : KvCacheStore :=
  with_books (admitted_claims st)
    (if (positions =? 0)%nat || negb kv_reserve_enabled then delete request (reserved_positions st)
     else <[request := (positions, now)]> (reserved_positions st))
    (owner_requests st) (ranges_admitted st) st.
Definition reserved_for (st : KvCacheStore) (request : bytes) : nat :=
  match reserved_positions st !! request with Some r => r.1 | None => 0%nat end.

Definition mark_owner_request (request : bytes) (now : Z) (st : KvCacheStore) : KvCacheStore :=
  with_books (admitted_claims st) (reserved_positions st) (<[request := now]> (owner_requests st)) (ranges_admitted st) st.
Definition serves_the_owner (st : KvCacheStore) (request : bytes) : bool := bool_decide (is_Some (owner_requests st !! request)).

Definition claim_in (home : KvHome) (claim : Z * Z) : Z := match home with HomeCard => claim.1 | HomeHost => claim.2 end.
Definition record_prompt_admission (request : bytes) (home : KvHome) (bytes now : Z) (st : KvCacheStore) : KvCacheStore :=
  let claim := match admitted_claims st !! request with Some c => c.1 | None => (0, 0) end in
  let claim := match home with HomeCard => (bytes, claim.2) | HomeHost => (claim.1, bytes) end in
  with_books (if bool_decide (claim = (0, 0)) then delete request (admitted_claims st)
              else <[request := (claim, now)]> (admitted_claims st))
    (reserved_positions st) (owner_requests st) (ranges_admitted st) st.

Definition record_ranges_admitted (request : bytes) (ranges : list (Z * Z)) (now : Z) (st : KvCacheStore) : KvCacheStore :=
  with_books (admitted_claims st) (reserved_positions st) (owner_requests st) (<[request := (ranges, now)]> (ranges_admitted st)) st.
Definition admitted_up_front (st : KvCacheStore) (request : bytes) (range : Z * Z) : bool :=
  match ranges_admitted st !! request with
  | Some r => existsb (fun ab : Z * Z => (ab.1 <=? range.1) && (range.2 <=? ab.2)) r.1
  | None => false
  end.

Definition forget_request_bookkeeping (request : bytes) (st : KvCacheStore) : KvCacheStore :=
  with_books (delete request (admitted_claims st)) (delete request (reserved_positions st))
    (delete request (owner_requests st)) (delete request (ranges_admitted st)) st.

(** *** What the caches hold *)

Definition add_entry (o one : KvOccupancy) : KvOccupancy :=
  {| oc_entries := oc_entries o + 1; oc_allocated_bytes := oc_allocated_bytes o + oc_allocated_bytes one;
     oc_host_bytes := oc_host_bytes o + oc_host_bytes one; oc_used_bytes := oc_used_bytes o + oc_used_bytes one;
     oc_tokens := oc_tokens o + oc_tokens one; oc_external_bytes := oc_external_bytes o |}.

Definition occupancy (st : KvCacheStore) : KvOccupancy :=
  let o := fold_left add_entry (map entry_occupancy (snd <$> map_to_list (caches st))) (nothing_held 0) in
  {| oc_entries := oc_entries o; oc_allocated_bytes := oc_allocated_bytes o; oc_host_bytes := oc_host_bytes o;
     oc_used_bytes := oc_used_bytes o; oc_tokens := oc_tokens o; oc_external_bytes := external_reserved st |}.

Definition min_of (l : list nat) : option nat :=
  match l with [] => None | x :: l => Some (fold_left Nat.min l x) end.

Definition allocated_positions (st : KvCacheStore) (key : bytes) : nat :=
  match caches st !! key with
  | Some e => default 0%nat (min_of (map (fun kv => sc_reach (kp_k (lk_main kv)))
                (filter (fun kv => is_Some (sc_all_data (kp_k (lk_main kv)))) (omap id (layers e)))))
  | None => 0%nat
  end.

Definition every_cache_holds (st : KvCacheStore) (key : bytes) (positions : nat) (keeps_no_cache : nat -> bool) : bool :=
  match caches st !! key with
  | None => false
  | Some e =>
      negb (bool_decide (layers e = [])) &&
      forallb (fun il : nat * option LayerKv =>
        match il.2 with
        | Some kv => forallb (fun c => bool_decide (is_Some (sc_all_data c)) && (positions <=? sc_reach c)%nat) (all_caches kv)
        | None => keeps_no_cache il.1 ||
                  match ssm_states e !! il.1 with Some (Some s) => holds_a_step_to s positions | _ => false end
        end) (zip (seq 0 (length (layers e))) (layers e))
  end.

Definition bytes_a_forward_adds (st : KvCacheStore) (key : bytes) (index_pos seq_len : nat) (home : KvHome) : option Z :=
  match caches st !! key with
  | Some e => entry_bytes_a_forward_adds mirror_is_lazy wants_shadow e index_pos seq_len home
  | None => None
  end.
Definition allocated_bytes_of (st : KvCacheStore) (key : bytes) (home : KvHome) : Z :=
  match caches st !! key with Some e => allocated_in home (entry_occupancy e) | None => 0 end.

Definition positions_of (e : KvCacheEntry) : nat := default 0%nat (min_of (map lk_current_seq_len (omap id (layers e)))).
Definition request_holds_state (st : KvCacheStore) (model request : bytes) : bool :=
  match caches st !! cache_key model request with Some e => holds_state e | None => false end.
Definition request_positions (st : KvCacheStore) (model request : bytes) : nat :=
  match caches st !! cache_key model request with Some e => positions_of e | None => 0%nat end.
Definition positions_in_place (st : KvCacheStore) (model request : bytes) (num_layers : nat) : option nat :=
  match caches st !! cache_key model request with
  | None => Some 0%nat
  | Some e => if holds_every_layer e num_layers then Some (positions_of e) else None
  end.

Definition get_or_create_keyed (key : bytes) (num_layers : nat) (now : Z) (st : KvCacheStore) : KvCacheEntry * KvCacheStore :=
  match caches st !! key with
  | Some e => (e, st)
  | None => let e := entry_fresh num_layers now in (e, with_caches (<[key := e]> (caches st)) st)
  end.

Definition truncate_request_to (model request : bytes) (target_len : nat) (st : KvCacheStore) (answers : list bool)
  : Truncated * KvCacheStore * list bool :=
  let key := cache_key model request in
  match caches st !! key with
  | None => (Cut, st, answers)
  | Some e =>
      let '(r, e, answers) := truncate_to_with mirror_is_lazy wants_shadow on_card kernel mode target_len e answers in
      (r, with_caches (<[key := e]> (caches st)) st, answers)
  end.

Definition store_catch_up_mirrors (model request : bytes) (st : KvCacheStore) (answers : list bool) : KvCacheStore * list bool :=
  let key := cache_key model request in
  match caches st !! key with
  | None => (st, answers)
  | Some e => let '(e, answers) := entry_catch_up_mirrors e answers in (with_caches (<[key := e]> (caches st)) st, answers)
  end.

(** *** Promises *)

(** Bytes the caches of one request hold in [home], over every key that names it. *)
Definition written_by (st : KvCacheStore) (home : KvHome) (request : bytes) : Z :=
  sum_list (map (fun ke : bytes * KvCacheEntry => allocated_in home (entry_occupancy ke.2))
    (filter (fun ke : bytes * KvCacheEntry => split_nul ke.1 !! 1%nat = Some request) (map_to_list (caches st)))).

Definition outstanding_admission_bytes (st : KvCacheStore) (home : KvHome) : Z :=
  sum_list (map (fun rc : bytes * (Z * Z * Z) => u64_saturating_sub (claim_in home rc.2.1) (written_by st home rc.1))
    (map_to_list (admitted_claims st))).

(** *** Letting go *)

Definition since (now at_ : Z) : Z := Z.max 0 (now - at_).

Definition clear_request_caches (model request : bytes) (st : KvCacheStore) : KvCacheStore :=
  with_caches (filter (fun ke : bytes * KvCacheEntry => ends_with ke.1 (NUL :: request) && contains model ke.1 = false)
    (delete (cache_key model request) (caches st))) st.
Definition clear_request (model request : bytes) (st : KvCacheStore) : KvCacheStore :=
  clear_request_caches model request (forget_request_bookkeeping request st).
Definition cleanup_request_id (request : bytes) (st : KvCacheStore) : KvCacheStore :=
  let st := forget_request_bookkeeping request st in
  with_caches (filter (fun ke : bytes * KvCacheEntry => ends_with ke.1 (NUL :: request) = false) (caches st)) st.

Definition cleanup_expired_caches (now : Z) (st : KvCacheStore) : nat * KvCacheStore :=
  let fresh_at at_ := since now at_ <= kv_ttl st in
  let st' := with_books (filter (fun rc : bytes * (Z * Z * Z) => fresh_at rc.2.2) (admitted_claims st))
    (filter (fun rc : bytes * (nat * Z) => fresh_at rc.2.2) (reserved_positions st))
    (filter (fun rc : bytes * Z => fresh_at rc.2) (owner_requests st))
    (filter (fun rc : bytes * (list (Z * Z) * Z) => fresh_at rc.2.2) (ranges_admitted st)) st in
  let kept := filter (fun ke : bytes * KvCacheEntry => fresh_at (last_accessed ke.2)) (caches st) in
  ((size (caches st) - size kept)%nat, with_caches kept st').

Definition conversation_has_ended (key : bytes) (e : KvCacheEntry) (idle now : Z) (keep : bytes) : bool :=
  negb (bool_decide (request_of_key key = keep)) && (idle <=? since now (last_accessed e)).

(** The bookkeeping of a request with no cache left. *)
Definition forget_if_gone (st : KvCacheStore) (request : bytes) : KvCacheStore :=
  if existsb (fun ke : bytes * KvCacheEntry => ends_with ke.1 (NUL :: request)) (map_to_list (caches st)) then st
  else forget_request_bookkeeping request st.

Definition release_finished_conversations (idle now : Z) (keep : bytes) (st : KvCacheStore) : Z * KvCacheStore :=
  let ended (ke : bytes * KvCacheEntry) := conversation_has_ended ke.1 ke.2 idle now keep in
  let over := filter (fun ke => ended ke = true) (map_to_list (caches st)) in
  let freed := fold_left (fun acc (ke : bytes * KvCacheEntry) => u64_saturating_add acc (oc_allocated_bytes (entry_occupancy ke.2))) over 0 in
  let finished := remove_dups (map (fun ke : bytes * KvCacheEntry => request_of_key ke.1) over) in
  (freed, fold_left forget_if_gone finished (with_caches (filter (fun ke => ended ke = false) (caches st)) st)).

Definition finished_conversations_bytes_in (st : KvCacheStore) (home : KvHome) (idle now : Z) (keep : bytes) : Z :=
  fold_left (fun acc (ke : bytes * KvCacheEntry) => u64_saturating_add acc (allocated_in home (entry_occupancy ke.2)))
    (filter (fun ke : bytes * KvCacheEntry => conversation_has_ended ke.1 ke.2 idle now keep = true) (map_to_list (caches st))) 0.

(** *** Claiming room *)

Definition in_use (home : KvHome) (o : KvOccupancy) : Z := u64_saturating_add (allocated_in home o) (oc_external_bytes o).

Definition refusal (home : KvHome) (o : KvOccupancy) : ClaimRefused :=
  {| cr_in_use_bytes := in_use home o; cr_live_bytes := allocated_in home o; cr_external_bytes := oc_external_bytes o;
     cr_entries := oc_entries o |}.

Definition evict_external (excess : Z) (st : KvCacheStore) : Z * KvCacheStore :=
  match external_evictor st with
  | Some f => let '(freed, reserved) := f excess in (freed, set_external_reserved reserved st)
  | None => (0, st)
  end.

Definition claim_room (home : KvHome) (budget_bytes claim : Z) (claimant : bytes) (now : Z) (st : KvCacheStore)
  : call ClaimRefused unit * KvCacheStore :=
  let exceeds st := claim_exceeds_headroom budget_bytes (in_use home (occupancy st)) claim in
  if negb (exceeds st) then (Ok tt, st)
  else
    let '(freed, st) := release_finished_conversations FINISHED_CONVERSATION_AFTER now claimant st in
    if (0 <? freed) && negb (exceeds st) then (Ok tt, st)
    else
      let occ := occupancy st in
      let total := u64_saturating_add (in_use home occ) claim in
      if total <? budget_bytes then (Panic, st)
      else if 0 <? oc_external_bytes occ then
        let '(freed, st) := evict_external (total - budget_bytes) st in
        if 0 <? freed then
          if negb (exceeds st) then (Ok tt, st) else (Err (refusal home (occupancy st)), st)
        else (Err (refusal home occ), st)
      else (Err (refusal home occ), st).

Definition let_saved_prompts_go (st : KvCacheStore) : Z * KvCacheStore :=
  if external_reserved st =? 0 then (0, st) else evict_external u64_max st.

(** [executor::put_back_where_the_step_began]: the caches a failed step took out, cut to
    where it began and put back, or nothing put back where one of them cannot be. *)
Definition put_back_where_the_step_began (key : bytes) (num_layers : nat) (kvs : list (option LayerKv)) (ss : list (option Held))
    (kv_offset index_pos : nat) (now : Z) (st : KvCacheStore) (answers : list bool) : bool * KvCacheStore * list bool :=
  let back_to := if existsb (fun kv => bool_decide (is_Some kv)) kvs then kv_offset else index_pos in
  if negb (forallb (fun s => can_rewind_to s back_to) (omap id ss) && forallb (fun kv => can_truncate_to kv kv_offset) (omap id kvs))
  then (true, st, answers)
  else
    let '(ok, ss, answers) := rewind_all on_card kernel back_to ss answers in
    if negb ok then (false, st, answers)
    else
      let '(e, st) := get_or_create_keyed key num_layers now st in
      (true, with_caches (<[key := {| layers := map (fmap (lk_truncate kv_offset)) kvs; ssm_states := ss;
                                      last_accessed := last_accessed e |}]> (caches st)) st, answers).
End store.

(** ** Keys name their request *)

Definition nul_free (b : bytes) : Prop := NUL ∉ b.
Definition key_ok (k : bytes) : Prop := exists m r, k = cache_key m r /\ nul_free m /\ nul_free r.

Lemma split_nul_free b : nul_free b -> split_nul b = [b].
Proof.
  induction b as [|x b IH]; [done|]. intros Hn. cbn. destruct (Z.eqb_spec x NUL) as [->|Hx]; [destruct Hn; by left|].
  rewrite IH; [done|]. intros ?. apply Hn. by right.
Qed.

Lemma split_cache_key m r : nul_free m -> nul_free r -> split_nul (cache_key m r) = [m; r].
Proof.
  intros Hm Hr. unfold cache_key. induction m as [|x m IH]; cbn; [by rewrite split_nul_free|].
  destruct (Z.eqb_spec x NUL) as [->|Hx]; [destruct Hm; by left|]. rewrite IH; [done|]. intros ?. apply Hm. by right.
Qed.

Lemma request_of_cache_key m r : nul_free m -> nul_free r -> request_of_key (cache_key m r) = r.
Proof. intros. unfold request_of_key. by rewrite split_cache_key. Qed.

Lemma last_separator (a b c d : bytes) : nul_free b -> nul_free d -> a ++ NUL :: b = c ++ NUL :: d -> b = d.
Proof.
  intros Hb Hd E. apply app_eq_inv in E as [(k & -> & E)|(k & -> & E)]; destruct k as [|x k]; cbn in E; simplify_eq; try done.
  - destruct Hd. rewrite elem_of_app. right. by left.
  - destruct Hb. rewrite elem_of_app. right. by left.
Qed.

Lemma ends_with_request k r : key_ok k -> nul_free r -> ends_with k (NUL :: r) = true <-> request_of_key k = r.
Proof.
  intros (m & q & -> & Hm & Hq) Hr. rewrite request_of_cache_key by done. unfold ends_with. rewrite bool_decide_eq_true. split.
  - intros [a E]. by eapply last_separator.
  - intros ->. by exists m.
Qed.

Lemma request_of_key_free k : key_ok k -> nul_free (request_of_key k).
Proof. intros (m & q & -> & Hm & Hq). by rewrite request_of_cache_key. Qed.

(** ** Sums over the store *)

Lemma sum_list_perm l k : l ≡ₚ k -> sum_list l = sum_list k.
Proof. induction 1; cbn; lia. Qed.

Section sums.
Context `{Candle, DeltaNet, !SsmTensors}.

Definition over_caches (f : KvOccupancy -> Z) (m : gmap bytes KvCacheEntry) : Z :=
  sum_list (map (fun ke : bytes * KvCacheEntry => f (entry_occupancy ke.2)) (map_to_list m)).

Lemma over_caches_insert f m k e : m !! k = None -> over_caches f (<[k := e]> m) = f (entry_occupancy e) + over_caches f m.
Proof.
  intros Hk. unfold over_caches. erewrite sum_list_perm by (apply Permutation_map, map_to_list_insert; exact Hk). done.
Qed.

Lemma over_caches_filter (P : bytes * KvCacheEntry -> Prop) `{!forall x, Decision (P x)} f m :
  (forall k e, m !! k = Some e -> 0 <= f (entry_occupancy e)) -> 0 <= over_caches f (filter P m) <= over_caches f m.
Proof.
  induction m as [|k e m Hk IH] using map_ind; intros Hf; [rewrite map_filter_empty; unfold over_caches; rewrite map_to_list_empty; cbn; lia|].
  assert (He : 0 <= f (entry_occupancy e)) by (apply (Hf k); by rewrite lookup_insert_eq).
  assert (Hm : forall k' e', m !! k' = Some e' -> 0 <= f (entry_occupancy e')).
  { intros k' e' Hl. apply (Hf k'). rewrite lookup_insert_ne; [done|]. congruence. }
  specialize (IH Hm). rewrite (over_caches_insert f m k e Hk), map_filter_insert. case_decide.
  - rewrite over_caches_insert by (apply map_lookup_filter_None; by left). lia.
  - rewrite delete_id by done. lia.
Qed.

Lemma fold_entries l o : let o' := fold_left add_entry l o in
  oc_allocated_bytes o' = oc_allocated_bytes o + sum_list (map oc_allocated_bytes l) /\
  oc_host_bytes o' = oc_host_bytes o + sum_list (map oc_host_bytes l) /\
  oc_entries o' = oc_entries o + Z.of_nat (length l) /\ oc_external_bytes o' = oc_external_bytes o.
Proof.
  revert o. induction l as [|x l IH]; intros o; cbn [fold_left map sum_list length]; [lia|].
  destruct (IH (add_entry o x)) as (-> & -> & -> & ->). cbn. lia.
Qed.

Lemma occupancy_sums st : oc_allocated_bytes (occupancy st) = over_caches oc_allocated_bytes (caches st) /\
  oc_host_bytes (occupancy st) = over_caches oc_host_bytes (caches st) /\
  oc_entries (occupancy st) = Z.of_nat (size (caches st)) /\ oc_external_bytes (occupancy st) = external_reserved st.
Proof.
  unfold occupancy, over_caches. cbn.
  destruct (fold_entries (map entry_occupancy (snd <$> map_to_list (caches st))) (nothing_held 0)) as (-> & -> & -> & _).
  cbn. rewrite length_map, length_fmap, length_map_to_list.
  change (snd <$> map_to_list (caches st)) with (map snd (map_to_list (caches st))). rewrite !map_map. split_and!; (done || lia).
Qed.
End sums.

(** ** Conversations that are over *)

Section over.
Context `{Candle, DeltaNet, !SsmTensors}.

Definition store_keyed (st : KvCacheStore) : Prop := map_Forall (fun k _ => key_ok k) (caches st).

(** What is recorded of a request. *)
Definition booked (st : KvCacheStore) (r : bytes) :=
  (admitted_claims st !! r, reserved_positions st !! r, owner_requests st !! r, ranges_admitted st !! r).
Definition unbooked (st : KvCacheStore) (r : bytes) : Prop := booked st r = (None, None, None, None).

Definition has_cache (st : KvCacheStore) (r : bytes) : Prop := exists k e, caches st !! k = Some e /\ request_of_key k = r.

Lemma forget_booked st r q : booked (forget_request_bookkeeping r st) q = if decide (q = r) then (None, None, None, None) else booked st q.
Proof.
  unfold booked. cbn. case_decide as Hq; [subst; by rewrite !lookup_delete_eq|]. by rewrite !lookup_delete_ne by congruence.
Qed.

Lemma existsb_has_cache st r : store_keyed st -> nul_free r ->
  existsb (fun ke : bytes * KvCacheEntry => ends_with ke.1 (NUL :: r)) (map_to_list (caches st)) = true <-> has_cache st r.
Proof.
  intros Hk Hr. rewrite existsb_exists. split.
  - intros ([k e] & Hin%list_elem_of_In%elem_of_map_to_list & He). cbn in He. exists k, e. split; [done|].
    apply ends_with_request; [by apply (Hk k e)|done|done].
  - intros (k & e & Hl & He). exists (k, e). split; [by apply list_elem_of_In, elem_of_map_to_list|].
    apply ends_with_request; [by apply (Hk k e)|done|done].
Qed.

Lemma forget_fold rs st : store_keyed st -> Forall nul_free rs -> let st' := fold_left forget_if_gone rs st in
  caches st' = caches st /\ external_reserved st' = external_reserved st /\ external_evictor st' = external_evictor st /\
  (forall r, r ∈ rs -> ~ has_cache st r -> unbooked st' r) /\
  (forall r, has_cache st r \/ r ∉ rs -> booked st' r = booked st r).
Proof.
  revert st. induction rs as [|q rs IH]; intros st Hk HF; cbn [fold_left].
  { split_and!; try done. intros r Hr. by apply not_elem_of_nil in Hr. }
  inversion_clear HF as [|? ? Hq HF']. 
  change (forget_if_gone st q) with (if existsb (fun ke : bytes * KvCacheEntry => ends_with ke.1 (NUL :: q)) (map_to_list (caches st))
    then st else forget_request_bookkeeping q st).
  pose proof (existsb_has_cache st q Hk Hq) as Hex. destruct (existsb _ _).
  - destruct (IH st Hk HF') as (-> & -> & -> & Hg & Hb). split_and!; try done.
    + intros r [->|Hr]%elem_of_cons Hn; [|by apply Hg]. destruct Hn. by apply Hex.
    + intros r [Hr|Hr]; apply Hb; [by left|right]. intros ?. apply Hr. by right.
  - destruct (IH (forget_request_bookkeeping q st) Hk HF') as (-> & -> & -> & Hg & Hb). split_and!; try done.
    + intros r Hr Hn. destruct (decide (r ∈ rs)) as [Hin|Hni]; [by apply Hg|]. apply elem_of_cons in Hr as [->|Hr]; [|done].
      unfold unbooked. rewrite Hb by by right. rewrite forget_booked. by rewrite decide_True.
    + intros r Hr. rewrite Hb, forget_booked.
      * rewrite decide_False; [done|]. intros ->. destruct Hr as [Hr|Hr]; [by apply Hex in Hr|apply Hr; by left].
      * destruct Hr as [Hr|Hr]; [by left|right]. intros ?. apply Hr. by right.
Qed.

Lemma release_spec idle now keep st freed st' : store_keyed st ->
  release_finished_conversations idle now keep st = (freed, st') ->
  caches st' = filter (fun ke : bytes * KvCacheEntry => conversation_has_ended ke.1 ke.2 idle now keep = false) (caches st) /\
  external_reserved st' = external_reserved st /\ external_evictor st' = external_evictor st /\
  (forall r, has_cache st r -> ~ has_cache st' r -> unbooked st' r) /\
  (forall r, has_cache st' r \/ ~ has_cache st r -> booked st' r = booked st r).
Proof.
  intros Hk [= <- <-]. set (kept := filter _ (caches st)). set (over := filter _ (map_to_list (caches st))).
  assert (Hk' : store_keyed (with_caches kept st)) by (intros k e [? _]%map_lookup_filter_Some; by apply (Hk k e)).
  assert (Hfree : Forall nul_free (remove_dups (map (fun ke : bytes * KvCacheEntry => request_of_key ke.1) over))).
  { apply list.Forall_forall. intros r Hr. apply elem_of_remove_dups, list_elem_of_fmap in Hr as ([k e] & -> & [_ Hin]%list_elem_of_filter).
    apply request_of_key_free. apply elem_of_map_to_list in Hin. by apply (Hk k e). }
  destruct (forget_fold _ _ Hk' Hfree) as (Ec & -> & -> & Hg & Hb). rewrite Ec. split_and!; try done.
  - intros r (k & e & Hl & Hr) Hn. apply Hg.
    + apply elem_of_remove_dups, list_elem_of_fmap. exists (k, e). split; [done|]. apply list_elem_of_filter.
      split; [|by apply elem_of_map_to_list]. cbn. destruct (conversation_has_ended k e idle now keep) eqn:Ee; [done|].
      destruct Hn. exists k, e. rewrite Ec. split; [by apply map_lookup_filter_Some|done].
    + intros (k' & e' & Hl' & Hr'). apply Hn. exists k', e'. by rewrite Ec.
  - intros r Hr. apply Hb. destruct Hr as [(k & e & Hl & Hr)|Hr].
    + left. exists k, e. rewrite Ec in Hl. done.
    + right. intros Hin. apply Hr. apply elem_of_remove_dups, list_elem_of_fmap in Hin as ([k e] & -> & [_ Hin]%list_elem_of_filter).
      exists k, e. by apply elem_of_map_to_list in Hin.
Qed.

Lemma not_ended k e idle now keep :
  conversation_has_ended k e idle now keep = false <-> request_of_key k = keep \/ since now (last_accessed e) < idle.
Proof.
  unfold conversation_has_ended. destruct (bool_decide_reflect (request_of_key k = keep)); cbn [negb andb]; [tauto|].
  rewrite Z.leb_gt. intuition.
Qed.

(** making room ends exactly the conversations that have been silent long enough and
    are not the claimant's; the books of a request are closed together, exactly when its
    last cache goes, and no other request's are touched. *)
Theorem release_ends_what_is_over idle now keep st freed st' : store_keyed st ->
  release_finished_conversations idle now keep st = (freed, st') ->
  (forall k e, caches st' !! k = Some e <-> caches st !! k = Some e /\ (request_of_key k = keep \/ since now (last_accessed e) < idle)) /\
  (forall r, has_cache st r -> ~ has_cache st' r -> unbooked st' r) /\
  (forall r, has_cache st' r \/ ~ has_cache st r -> booked st' r = booked st r).
Proof.
  intros Hk E. destruct (release_spec _ _ _ _ _ _ Hk E) as (Ec & _ & _ & Hg & Hb). split_and!; try done.
  intros k e. rewrite Ec, map_lookup_filter_Some. cbn. by rewrite not_ended.
Qed.
End over.

(** ** Claims *)

(** What the store relies on of the evictor installed ([ExternalEvictor]): it frees at
    least what it is asked if it can, says what it freed, and keeps the figure of what
    saved prompts hold current. *)
Definition evictor_keeps_books `{Candle, DeltaNet} (st : KvCacheStore) : Prop :=
  match external_evictor st with
  | Some f => forall asked, 0 <= asked -> let '(freed, reserved) := f asked in
      0 <= reserved /\ reserved + freed = external_reserved st /\ Z.min asked (external_reserved st) <= freed
  | None => external_reserved st = 0
  end.

Section claims.
Context `{Candle, DeltaNet, !SsmTensors}.

Lemma within_budget budget home o claim : budget < u64_max -> 0 <= claim ->
  claim_exceeds_headroom budget (in_use home o) claim = false -> allocated_in home o + oc_external_bytes o + claim <= budget.
Proof. unfold claim_exceeds_headroom, in_use, u64_saturating_add, clamp. rewrite Z.ltb_ge. lia. Qed.

(** What [claim_room] does besides answering. *)
Record claim_kept (claimant : bytes) (now : Z) (st st' : KvCacheStore) : Prop := {
  ck_fewer : caches st' ⊆ caches st;
  ck_alive : forall k e, caches st !! k = Some e ->
    request_of_key k = claimant \/ since now (last_accessed e) < FINISHED_CONVERSATION_AFTER -> caches st' !! k = Some e;
  ck_books : forall r, has_cache st' r -> booked st' r = booked st r }.

Lemma claim_kept_refl claimant now st : claim_kept claimant now st st.
Proof. by split. Qed.

Lemma release_claim_kept claimant now st freed st' : store_keyed st ->
  release_finished_conversations FINISHED_CONVERSATION_AFTER now claimant st = (freed, st') -> claim_kept claimant now st st'.
Proof.
  intros Hk E. destruct (release_spec _ _ _ _ _ _ Hk E) as (Ec & _ & _ & _ & Hb). split.
  - rewrite Ec. apply map_filter_subseteq.
  - intros k e Hl Ha. rewrite Ec. apply map_lookup_filter_Some. split; [done|]. by apply not_ended.
  - intros r Hr. apply Hb. by left.
Qed.

Lemma claim_kept_reserved claimant now st st' bytes : claim_kept claimant now st st' ->
  claim_kept claimant now st (set_external_reserved bytes st').
Proof. intros [Hf Ha Hb]. split; [done|done|]. exact Hb. Qed.

(** Every entry's figures are of memory. *)
Definition entry_sized (e : KvCacheEntry) : Prop := 0 <= oc_host_bytes (entry_occupancy e) <= oc_allocated_bytes (entry_occupancy e).
Definition store_sized (st : KvCacheStore) : Prop := map_Forall (fun _ => entry_sized) (caches st).

Lemma sat_fold_le {A} (f : A -> Z) l a : (forall x, x ∈ l -> 0 <= f x) -> 0 <= a -> a <= fold_left (fun acc x => u64_saturating_add acc (f x)) l a \/ u64_max <= fold_left (fun acc x => u64_saturating_add acc (f x)) l a.
Proof.
  revert a. induction l as [|x l IH]; intros a Hf Ha; cbn; [by left; lia|].
  assert (0 <= f x) by (apply Hf; by left).
  assert (Hs : a <= u64_saturating_add a (f x) \/ u64_saturating_add a (f x) = u64_max) by (unfold u64_saturating_add, clamp; unfold u64_max; lia).
  destruct (IH (u64_saturating_add a (f x))) as [?|?]; [intros; apply Hf; by right|unfold u64_saturating_add, clamp, u64_max; lia| |by right].
  destruct Hs as [?|E]; [left; lia|]. rewrite E in *. by right.
Qed.

Lemma sat_fold_zero {A} (f : A -> Z) l : (forall x, x ∈ l -> 0 <= f x) ->
  fold_left (fun acc x => u64_saturating_add acc (f x)) l 0 <= 0 -> forall x, x ∈ l -> f x = 0.
Proof.
  induction l as [|y l IH]; intros Hf Hz x Hx; [by apply not_elem_of_nil in Hx|]. cbn in Hz.
  assert (Hy : 0 <= f y) by (apply Hf; by left).
  assert (Hl : forall x, x ∈ l -> 0 <= f x) by (intros; apply Hf; by right).
  assert (Hs : 0 <= u64_saturating_add 0 (f y)) by (unfold u64_saturating_add, clamp, u64_max; lia).
  assert (Hy0 : f y = 0).
  { destruct (sat_fold_le f l _ Hl Hs) as [?|?]; [|unfold u64_max in *; lia]. unfold u64_saturating_add, clamp, u64_max in *. lia. }
  apply elem_of_cons in Hx as [->|Hx]; [done|]. apply IH; try done. by rewrite Hy0 in Hz.
Qed.

(** Letting go of nothing that is counted changes no figure. *)
Lemma release_freed_nothing idle now keep st freed st' home : store_keyed st -> store_sized st ->
  release_finished_conversations idle now keep st = (freed, st') -> freed <= 0 ->
  allocated_in home (occupancy st') = allocated_in home (occupancy st).
Proof.
  intros Hk Hs E Hf. pose proof (release_spec _ _ _ _ _ _ Hk E) as (Ec & _). unfold release_finished_conversations in E. injection E as Efreed _.
  rewrite <- Efreed in Hf.
  pose proof (sat_fold_zero (fun ke : bytes * KvCacheEntry => oc_allocated_bytes (entry_occupancy ke.2)) _
    ltac:(intros [k e] [_ Hin%elem_of_map_to_list]%list_elem_of_filter; specialize (Hs k e Hin); unfold entry_sized in Hs; cbn; lia) Hf) as Hzero.
  assert (Hz : forall k e, caches st !! k = Some e -> conversation_has_ended k e idle now keep = true -> oc_allocated_bytes (entry_occupancy e) = 0).
  { intros k e Hl He. apply (Hzero (k, e)). apply list_elem_of_filter. split; [done|by apply elem_of_map_to_list]. }
  assert (Hsame : forall f, (f = oc_allocated_bytes \/ f = oc_host_bytes) -> over_caches f (caches st') = over_caches f (caches st)).
  { intros f Hff. rewrite Ec. unfold store_sized in Hs. clear Ec Efreed Hf Hk Hzero. revert Hs Hz. generalize (caches st) as m. clear st.
    induction m as [|k e m Hm IH] using map_ind; intros Hs Hz; [by rewrite map_filter_empty|].
    apply map_Forall_insert in Hs as [He Hs]; [|done]. rewrite over_caches_insert by done. rewrite map_filter_insert.
    specialize (IH Hs ltac:(intros k' e' Hl; apply (Hz k'); rewrite lookup_insert_ne by congruence; done)). case_decide as Hd.
    - rewrite over_caches_insert by (apply map_lookup_filter_None; by left). by rewrite IH.
    - rewrite delete_id, IH by done. assert (f (entry_occupancy e) = 0); [|lia].
      specialize (Hz k e ltac:(by rewrite lookup_insert_eq) ltac:(cbn in Hd; destruct (conversation_has_ended k e idle now keep); done)).
      unfold entry_sized in He. destruct Hff as [->| ->]; lia. }
  destruct (occupancy_sums st) as (A1 & A2 & _). destruct (occupancy_sums st') as (B1 & B2 & _).
  unfold allocated_in. rewrite A1, A2, B1, B2, !Hsame by tauto. done.
Qed.

(** The answer, by the store it is given on. *)
Lemma claim_room_cases home budget claim claimant now st r st' : store_keyed st -> store_sized st ->
  claim_room home budget claim claimant now st = (r, st') ->
  claim_kept claimant now st st' /\
  match r with
  | Ok _ => claim_exceeds_headroom budget (in_use home (occupancy st')) claim = false
  | Err x => exists st1 freed1, release_finished_conversations FINISHED_CONVERSATION_AFTER now claimant st = (freed1, st1) /\
      claim_exceeds_headroom budget (in_use home (occupancy st1)) claim = true /\
      ((st' = st1 /\ x = refusal home (occupancy st1) /\ external_reserved st1 <= 0) \/
       (exists freed, evict_external (u64_saturating_add (in_use home (occupancy st1)) claim - budget) st1 = (freed, st') /\
          ((freed <= 0 /\ x = refusal home (occupancy st1)) \/
           (0 < freed /\ x = refusal home (occupancy st') /\ claim_exceeds_headroom budget (in_use home (occupancy st')) claim = true))))
  | Panic => False
  end.
Proof.
  intros Hk Hs. unfold claim_room. destruct (claim_exceeds_headroom budget (in_use home (occupancy st)) claim) eqn:E0; cbn [negb].
  2: { intros [= <- <-]. split; [apply claim_kept_refl|done]. }
  destruct (release_finished_conversations _ now claimant st) as [freed1 st1] eqn:Er.
  pose proof (release_claim_kept _ _ _ _ _ Hk Er) as Hck. destruct (release_spec _ _ _ _ _ _ Hk Er) as (_ & Hext1 & _).
  destruct ((0 <? freed1) && negb (claim_exceeds_headroom budget (in_use home (occupancy st1)) claim)) eqn:Ea.
  { apply andb_true_iff in Ea as [_ Ea%negb_true_iff]. by intros [= <- <-]. }
  assert (E1 : claim_exceeds_headroom budget (in_use home (occupancy st1)) claim = true).
  { apply andb_false_iff in Ea as [Ea%Z.ltb_ge|Ea]; [|by apply negb_false_iff].
    pose proof (release_freed_nothing _ _ _ _ _ _ home Hk Hs Er Ea) as Hsame. destruct (occupancy_sums st) as (_ & _ & _ & X1).
    destruct (occupancy_sums st1) as (_ & _ & _ & X2). unfold in_use in *. by rewrite Hsame, X2, Hext1, <- X1. }
  destruct (Z.ltb_spec (u64_saturating_add (in_use home (occupancy st1)) claim) budget) as [Hlt|_].
  { unfold claim_exceeds_headroom in E1. lia. }
  destruct (occupancy_sums st1) as (_ & _ & _ & Hext). rewrite Hext.
  destruct (Z.ltb_spec 0 (external_reserved st1)) as [Hpos|Hz].
  2: { intros [= <- <-]. split; [done|]. eauto 10. }
  destruct (evict_external _ st1) as [freed st2] eqn:Ee.
  assert (Hck2 : claim_kept claimant now st st2).
  { unfold evict_external in Ee. destruct (external_evictor st1) as [f|]; [|by simplify_eq]. destruct (f _). simplify_eq. by apply claim_kept_reserved. }
  destruct (Z.ltb_spec 0 freed) as [Hf|Hf].
  - destruct (claim_exceeds_headroom budget (in_use home (occupancy st2)) claim) eqn:E2; cbn [negb]; intros [= <- <-]; [|done].
    split; [done|]. eauto 15.
  - intros [= <- <-]. split; [done|]. eauto 15.
Qed.

(** a growing conversation is given room only within the budget - live caches, saved
    prompts and the claim together; asking never ends the claimant's own conversation or
    one still going on, and never panics. *)
Theorem claim_room_keeps_the_budget home budget claim claimant now st r st' : store_keyed st -> store_sized st ->
  0 <= budget < u64_max -> 0 <= claim -> claim_room home budget claim claimant now st = (r, st') ->
  r <> Panic /\ claim_kept claimant now st st' /\
  (r = Ok tt -> allocated_in home (occupancy st') + external_reserved st' + claim <= budget).
Proof.
  intros Hk Hs Hb Hc E. destruct (claim_room_cases _ _ _ _ _ _ _ _ Hk Hs E) as [Hck Hr]. split_and!; [by destruct r|done|].
  intros ->. destruct (occupancy_sums st') as (_ & _ & _ & Hext). rewrite <- Hext. apply within_budget; [lia|done|done].
Qed.

Lemma allocated_in_nonneg home st : store_sized st -> 0 <= allocated_in home (occupancy st).
Proof.
  intros Hs. destruct (occupancy_sums st) as (_ & A2 & _). unfold allocated_in. destruct home; [unfold u64_saturating_sub, clamp, u64_max; lia|].
  rewrite A2. pose proof (over_caches_filter (fun _ => True) oc_host_bytes (caches st)) as Hp.
  specialize (Hp ltac:(intros k e Hl; apply (Hs k e Hl))). rewrite map_filter_id in Hp by done. lia.
Qed.

Lemma store_sized_caches st st' : caches st' = caches st -> store_sized st -> store_sized st'.
Proof. unfold store_sized. by intros ->. Qed.

(** A refusal with no saved prompt left: the live caches and the claim are over. *)
Lemma refusal_when_full home budget claim st : store_sized st -> 0 <= budget -> 0 <= claim -> external_reserved st = 0 ->
  claim_exceeds_headroom budget (in_use home (occupancy st)) claim = true ->
  allocated_in home (occupancy st) + claim <= u64_max ->
  budget < allocated_in home (occupancy st) + claim /\
  refusal home (occupancy st) = {| cr_in_use_bytes := allocated_in home (occupancy st); cr_live_bytes := allocated_in home (occupancy st);
    cr_external_bytes := 0; cr_entries := Z.of_nat (size (caches st)) |}.
Proof.
  intros Hs Hb Hc Hx E Hm. destruct (occupancy_sums st) as (_ & _ & Hn & Hxx). unfold refusal, in_use in *. rewrite Hxx, Hn, Hx in *.
  pose proof (allocated_in_nonneg home st Hs). unfold claim_exceeds_headroom in E. apply Z.ltb_lt in E.
  rewrite (u64_saturating_add_exact (allocated_in home (occupancy st)) 0) in * by (unfold is_u64; lia).
  rewrite Z.add_0_r in *. rewrite u64_saturating_add_exact in E by (unfold is_u64; lia). split; [lia|done].
Qed.

(** C24: a claim is refused only when it cannot be met: every conversation left is the
    claimant's or still going on, every saved prompt is gone, the live caches alone
    leave no room - and the refusal says exactly what they hold. *)
Theorem claim_refused_only_when_full home budget claim claimant now st x st' : store_keyed st -> store_sized st ->
  0 <= budget -> 0 <= claim -> 0 <= external_reserved st -> evictor_keeps_books st ->
  allocated_in home (occupancy st') + external_reserved st + claim <= u64_max ->
  claim_room home budget claim claimant now st = (Err x, st') ->
  (forall k e, caches st' !! k = Some e -> request_of_key k = claimant \/ since now (last_accessed e) < FINISHED_CONVERSATION_AFTER) /\
  external_reserved st' = 0 /\ budget < allocated_in home (occupancy st') + claim /\
  x = {| cr_in_use_bytes := allocated_in home (occupancy st'); cr_live_bytes := allocated_in home (occupancy st'); cr_external_bytes := 0;
         cr_entries := Z.of_nat (size (caches st')) |}.
Proof.
  intros Hk Hs Hb Hc Hx Hev Hsat E. destruct (claim_room_cases _ _ _ _ _ _ _ _ Hk Hs E) as [Hck (st1 & freed1 & Er & E1 & Hr)].
  destruct (release_spec _ _ _ _ _ _ Hk Er) as (Ec1 & Hext1 & Hev1 & _).
  assert (Hs1 : store_sized st1) by (unfold store_sized; rewrite Ec1; intros k e [Hl _]%map_lookup_filter_Some; by apply (Hs k e)).
  assert (Hlive : forall k e, caches st1 !! k = Some e -> request_of_key k = claimant \/ since now (last_accessed e) < FINISHED_CONVERSATION_AFTER).
  { intros k e. rewrite Ec1, map_lookup_filter_Some. intros [_ Hn]. by apply not_ended in Hn. }
  pose proof (allocated_in_nonneg home st1 Hs1) as Hnn.
  pose proof (fun st2 Hc => refusal_when_full home budget claim st2 (store_sized_caches st1 st2 Hc Hs1)) as Hfull.
  destruct Hr as [(-> & -> & Hz)|(freed & Ee & Hr)].
  { destruct (Hfull st1 eq_refl Hb Hc ltac:(lia) E1 ltac:(lia)) as [? ?]. split_and!; (done || lia). }
  unfold evict_external in Ee. unfold evictor_keeps_books in Hev. rewrite Hev1 in Ee.
  destruct (external_evictor st) as [f|].
  2: { simplify_eq. assert (Hz : external_reserved st' = 0) by lia. destruct Hr as [[_ ->]|[? _]]; [|lia].
       destruct (Hfull st' eq_refl Hb Hc Hz E1 ltac:(lia)) as [? ?]. split_and!; (done || lia). }
  set (asked := u64_saturating_add (in_use home (occupancy st1)) claim - budget) in *.
  assert (Hasked : asked = allocated_in home (occupancy st1) + external_reserved st1 + claim - budget).
  { unfold asked, in_use. destruct (occupancy_sums st1) as (_ & _ & _ & ->).
    destruct (f asked) as [fr rs]. simplify_eq.
    assert (allocated_in home (occupancy (set_external_reserved rs st1)) = allocated_in home (occupancy st1)) as Hal by done. rewrite Hal in Hsat.
    rewrite !u64_saturating_add_exact by (unfold is_u64; rewrite ?u64_saturating_add_exact by (unfold is_u64; lia); lia). lia. }
  assert (Hpos : 0 < asked) by (unfold asked; unfold claim_exceeds_headroom in E1; lia).
  specialize (Hev asked ltac:(lia)). destruct (f asked) as [fr rs]. destruct Hev as (Hrs & Hbook & Hmin). injection Ee as Efr Est. subst fr st'.
  assert (Hal : allocated_in home (occupancy (set_external_reserved rs st1)) = allocated_in home (occupancy st1)) by done. rewrite Hal in *.
  destruct Hr as [[Hf ->]|(Hf & -> & E2)].
  - assert (rs = 0) as -> by lia. assert (Hx1 : external_reserved st1 = 0) by lia.
    destruct (Hfull st1 eq_refl Hb Hc Hx1 E1 ltac:(lia)) as [? ?]. split_and!; (done || lia).
  - assert (rs = 0) as ->.
    { destruct (Z.le_gt_cases asked freed) as [Hle|]; [|lia]. exfalso. unfold claim_exceeds_headroom in E2. apply Z.ltb_lt in E2.
      unfold in_use in E2. destruct (occupancy_sums (set_external_reserved rs st1)) as (_ & _ & _ & X2). rewrite Hal, X2 in E2. cbn in E2.
      rewrite !u64_saturating_add_exact in E2 by (unfold is_u64; rewrite ?u64_saturating_add_exact by (unfold is_u64; lia); lia). lia. }
    destruct (Hfull (set_external_reserved 0 st1) eq_refl Hb Hc eq_refl E2 ltac:(rewrite Hal; lia)) as [? Href]. rewrite Hal in *. split_and!; try (done || lia).
Qed.
End claims.

(** ** A step that failed *)

Section put_back.
Context `{Candle, DeltaNet, !SsmTensors}.
Context (windowed mirror_is_lazy : bool) (wants_shadow : Tensor -> bool) (on_card kernel : bool).
Context (Hkernel : (1 <= conv_kernel)%nat).

(** What a step that failed took out of a layer, [g] being what the layer was given before
    the step: nothing; its cache, not reached by the step or with the step's rows in it;
    or its cache as an append that failed part-way left it. *)
Definition step_left (kv_offset : nat) (o : option LayerKv) (g : Given) : Prop :=
  match o with
  | None => True
  | Some kv => (forall win, gv_window g = Some win -> (1 <= win)%nat) /\ length (gv_keys g) = kv_offset /\ length (gv_values g) = kv_offset /\
      ((exists more more', layer_at (strict := false) windowed (gv_window g) kv (gv_keys g ++ more) (gv_values g ++ more')) \/
       exists kv0 k v answers answers', layer_at (strict := false) windowed (gv_window g) kv0 (gv_keys g) (gv_values g) /\
         lk_append mirror_is_lazy wants_shadow k v kv0 answers = (None, kv, answers'))
  end.
Definition layer_back (o : option LayerKv) (g : Given) : Prop :=
  match o with Some kv => layer_reads kv (gv_keys g) (gv_values g) | None => True end.

Lemma step_taken_back p ls gs : Forall2 (step_left p) ls gs -> (forall kv, kv ∈ omap id ls -> can_truncate_to kv p = true) ->
  Forall2 layer_back (map (fmap (lk_truncate p)) ls) gs.
Proof.
  intros HF. induction HF as [|o g ls gs Ho HF IH]; intros Hc; cbn; constructor.
  - destruct o as [kv|]; [|done]. destruct Ho as (Hw & <- & Hlv & [(more & more' & HL)|(kv0 & k & v & a & a' & HL & E)]); cbn; [|by eapply put_back_reads].
    assert (Hct : can_truncate_to kv (length (gv_keys g)) = true) by (apply Hc; cbn; left). pose proof (layer_ok_truncate _ _ Hw _ _ _ _ HL Hct) as Ht.
    rewrite take_app_length in Ht. rewrite <- Hlv, take_app_length in Ht. rewrite Hlv in Ht. by apply (stands_reads windowed (gv_window g)).
  - apply IH. intros kv Hkv. apply Hc. destruct o; cbn; [by right|done].
Qed.

(** C25: after a failed step a conversation is put back whole or not at all.  Either the
    store stays as the step left it, or every layer is put back where the step began, the
    one whose append failed part-way included, and nothing else in the store changes:
    keys and values each hold the rows given before the step, from the start or from no
    later than the window needs, the mirror an opening of them, the recurrent state the
    one after the tokens before the step.  On a windowed layer whose append failed
    part-way the keys may begin later than the values; where no append failed the layers
    are put back as one.  Before the step every cache taken out stood for its rows, as many
    as the step's offset, and every recurrent state for its tokens. *)
Theorem failed_step_is_put_back_whole key num_layers kvs ss kv_offset index_pos now st answers gs hists ok st' answers' :
  Forall2 (step_left kv_offset) kvs gs -> Forall2 state_stands ss hists ->
  put_back_where_the_step_began on_card kernel key num_layers kvs ss kv_offset index_pos now st answers = (ok, st', answers') ->
  st' = st \/
  exists e back_to, caches st' = <[key := e]> (caches st) /\ (forall r, booked st' r = booked st r) /\
    back_to = (if existsb (fun kv => bool_decide (is_Some kv)) kvs then kv_offset else index_pos) /\
    Forall2 layer_back (layers e) gs /\ Forall2 state_stands (ssm_states e) (map (take back_to) hists) /\
    (forall gs', Forall2 (layer_stands windowed) kvs gs' -> entry_stands windowed e (map (opening kv_offset) gs') (map (take back_to) hists)).
Proof using Hkernel.
  intros HL HS. unfold put_back_where_the_step_began. set (back_to := if existsb _ kvs then _ else _).
  destruct (forallb _ (omap id ss)) eqn:Ef; cbn [andb negb]; [|intros [= <- <- <-]; by left].
  destruct (forallb _ (omap id kvs)) eqn:El; cbn [negb]; [|intros [= <- <- <-]; by left].
  pose proof (rewind_all_stands on_card kernel Hkernel back_to ss answers hists HS Ef) as Hr.
  destruct (rewind_all on_card kernel back_to ss answers) as [[[|] ss'] a1]; cbn [negb]; [|intros [= <- <- <-]; by left].
  assert (Hcan : forall kv, kv ∈ omap id kvs -> can_truncate_to kv kv_offset = true) by (intros kv Hkv; rewrite forallb_forall in El; by apply El, list_elem_of_In).
  pose proof (step_taken_back kv_offset kvs gs HL Hcan) as Hback.
  unfold get_or_create_keyed. destruct (caches st !! key) as [e|]; intros [= <- <- <-]; right; eexists _, back_to;
    (split; [cbn; rewrite ?insert_insert_eq; reflexivity|]); (split; [done|]); (split; [done|]); (split; [exact Hback|]); (split; [exact Hr|]);
    intros gs' HL'; (split; [by apply truncate_stands|exact Hr]).
Qed.
End put_back.

(** ** Ending a request *)

Section ending.
Context `{Candle, DeltaNet, !SsmTensors}.

(** ending a request removes every cache of it, whatever model it is of, and closes
    all its books at once - a promise never outlives the caches that draw it down - and
    leaves every other request's caches and books as they were. *)
Theorem cleanup_ends_one_request st r : store_keyed st -> nul_free r -> let st' := cleanup_request_id r st in
  unbooked st' r /\ ~ has_cache st' r /\
  (forall q, q <> r -> booked st' q = booked st q) /\
  (forall k e, request_of_key k <> r -> caches st' !! k = Some e <-> caches st !! k = Some e).
Proof.
  intros Hk Hr st'. assert (Hbook : forall q, booked st' q = booked (forget_request_bookkeeping r st) q) by done.
  assert (Hl : forall k e, caches st' !! k = Some e <-> caches st !! k = Some e /\ request_of_key k <> r).
  { intros k e. unfold st', cleanup_request_id. cbn. rewrite map_lookup_filter_Some. cbn. split; intros [Hl Hn]; split; try done.
    - intros E. apply ends_with_request in E; [congruence|by apply (Hk k e)|done].
    - destruct (ends_with k (NUL :: r)) eqn:Ew; [|done]. destruct Hn. apply ends_with_request; [by apply (Hk k e)|done|done]. }
  split_and!.
  - unfold unbooked. rewrite Hbook, forget_booked. by rewrite decide_True.
  - intros (k & e & Hke & E). apply Hl in Hke as [_ Hn]. done.
  - intros q Hq. rewrite Hbook, forget_booked. by rewrite decide_False.
  - intros k e Hn. rewrite Hl. tauto.
Qed.

(** ** Figures of memory *)

Definition cache_sized (c : SeqCache) : Prop := match sc_all_data c with Some t => 0 <= t_elems t | None => True end.

Lemma add_cache_sized o c : (forall d, 0 <= size_in_bytes d) -> cache_sized c -> 0 <= oc_host_bytes o <= oc_allocated_bytes o ->
  0 <= oc_host_bytes (add_cache o c) <= oc_allocated_bytes (add_cache o c).
Proof.
  intros Hd Hc Ho. unfold add_cache, cache_sized in *. destruct (sc_all_data c) as [t|]; [|done]. cbn.
  assert (0 <= elem_count t * size_in_bytes (t_dtype t)) by (unfold elem_count; specialize (Hd (t_dtype t)); nia).
  case_bool_decide; lia.
Qed.

(** An entry of real tensors has real figures. *)
Lemma tensors_are_sized e : (forall d, 0 <= size_in_bytes d) ->
  (forall kv c, kv ∈ omap id (layers e) -> c ∈ all_caches kv -> cache_sized c) ->
  (forall s t, s ∈ omap id (ssm_states e) -> t ∈ ssm_tensors s -> 0 <= t.1) -> entry_sized e.
Proof.
  intros Hd Hc Ht. unfold entry_sized, entry_occupancy.
  assert (Hfold : forall (A : Type) (f : KvOccupancy -> A -> KvOccupancy) l o, 0 <= oc_host_bytes o <= oc_allocated_bytes o ->
    (forall o x, x ∈ l -> 0 <= oc_host_bytes o <= oc_allocated_bytes o -> 0 <= oc_host_bytes (f o x) <= oc_allocated_bytes (f o x)) ->
    0 <= oc_host_bytes (fold_left f l o) <= oc_allocated_bytes (fold_left f l o)).
  { intros A f l. induction l as [|x l IH]; intros o Ho Hf; [done|]. cbn [fold_left]. apply IH; [by apply Hf; [left|]|].
    intros o' y Hy Ho'. by apply Hf; [right|]. }
  apply Hfold.
  - apply Hfold; [cbn; lia|]. intros o kv Hkv Ho. unfold add_layer_kv. cbn [oc_host_bytes oc_allocated_bytes]. apply Hfold; [done|]. intros o' c Hin Ho'. apply add_cache_sized; eauto.
  - intros o s Hs Ho. apply Hfold; [done|]. intros o' t Hin Ho'. specialize (Ht s t Hs Hin). cbn. case_bool_decide; lia.
Qed.
End ending.

(** ** A worked example

    The toy card of [LayerCache] and the toy layer of [RecurrentState]: a conversation
    of seven tokens over one attention layer and one recurrent layer. *)

#[local] Existing Instances toy toy_net.
#[local] Instance toy_tensors : SsmTensors := {| slot_tensors _ := [(4, HomeCard)]; rows_tensors r := [(Z.of_nat (length r), HomeCard)] |}.

Definition kept_layer : LayerKv :=
  (lk_append true (fun _ => false) (toy_tensor 0 7) (toy_tensor 10 7) (lk_slide_beyond true None (layer_with_storage 2 8 8 StoreF32)) []).1.2.

Lemma kept_layer_run : layer_run true true (fun _ => false) None 7 kept_layer (seqZ 0 7) (seqZ 10 7).
Proof.
  pose proof (lr_append true true (fun _ => false) None 7 (lk_slide_beyond true None (layer_with_storage 2 8 8 StoreF32)) [] []
    (toy_tensor 0 7) (toy_tensor 10 7) [] _ _ _ (lr_storage _ _ _ _ _ _ _ _ _) eq_refl ltac:(apply Nat.leb_le; reflexivity) eq_refl eq_refl
    ltac:(vm_compute; reflexivity)) as Hr.
  vm_compute in Hr |- *. exact Hr.
Qed.

Definition talk : KvCacheEntry := {| layers := [Some kept_layer; None]; ssm_states := [None; Some checked]; last_accessed := 0 |}.
Definition talk_given : list Given := [{| gv_window := None; gv_keys := seqZ 0 7; gv_values := seqZ 10 7 |}; {| gv_window := None; gv_keys := []; gv_values := [] |}].

Lemma talk_stands : entry_stands true talk talk_given [[]; toks [1; 2; 3; 4; 5; 6; 7]].
Proof.
  split; (constructor; [|constructor; [|constructor]]); try done.
  - split; [done|]. by apply (layer_run_ok true true (fun _ => false) None 7 ltac:(done) _ _ _ kept_layer_run).
  - refine (ssm_run_ok _ (Some checked) _ checked_run). cbn. lia.
Qed.

Lemma truncation_is_whole_witness : let '(r, e, _) := truncate_to_with true (fun _ => false) true true InPlace 5 talk [] in
  r = Cut /\ entry_stands true e (map (opening 5) talk_given) [[]; toks [1; 2; 3; 4; 5]].
Proof.
  assert (Hr : (truncate_to_with true (fun _ => false) true true InPlace 5 talk []).1.1 = Cut) by (vm_compute; reflexivity).
  destruct (truncate_to_with true (fun _ => false) true true InPlace 5 talk []) as [[r e] a] eqn:E. cbn [fst] in Hr. subst r. split; [done|].
  refine (truncation_is_whole true true (fun _ => false) true true _ talk 5 [] talk_given [[]; toks [1; 2; 3; 4; 5; 6; 7]] Cut e a talk_stands E).
  cbn. lia.
Defined.

Lemma copying_agrees_with_moving_witness : let '(ok, kv, _) := copy_layer true (fun _ => false) 5 kept_layer [] in
  ok = true /\ sc_view (kp_k (lk_main kv)) = sc_view (kp_k (lk_main (lk_truncate 5 kept_layer))).
Proof.
  assert (Hr : (copy_layer true (fun _ => false) 5 kept_layer []).1.1 = true) by (vm_compute; reflexivity).
  destruct (copy_layer true (fun _ => false) 5 kept_layer []) as [[ok kv] a] eqn:E. cbn [fst] in Hr. subst ok. split; [done|].
  refine (proj1 (proj2 (proj2 (copying_agrees_with_moving true true (fun _ => false) None 7 kept_layer (seqZ 0 7) (seqZ 10 7) 5 [] kv a _ kept_layer_run _ E)))); done.
Defined.

(** The attention layer's step of two tokens fails after its keys are written; the
    recurrent layer had not been reached. *)
Definition failing := lk_append true (fun _ => false) (toy_tensor 7 2) (toy_tensor 17 2) kept_layer [true; true; true; true; false].
Definition put_back_talk := put_back_where_the_step_began true true [77; 0; 65] 2 [Some failing.1.2; None] [None; Some checked] 7 7 0 (store_new 1) [].

Lemma failed_step_is_put_back_whole_witness : lk_current_seq_len failing.1.2 = 9%nat /\
  exists e kv, caches put_back_talk.1.2 !! [77; 0; 65] = Some e /\ layers e !! 0%nat = Some (Some kv) /\ layer_reads kv (seqZ 0 7) (seqZ 10 7) /\
    Forall2 state_stands (ssm_states e) [[]; toks [1; 2; 3; 4; 5; 6; 7]].
Proof.
  split; [vm_compute; reflexivity|].
  assert (Hsome : match caches put_back_talk.1.2 !! [77; 0; 65] with Some e => match layers e with Some _ :: _ => true | _ => false end | None => false end = true) by (vm_compute; reflexivity).
  destruct put_back_talk as [[ok st'] a] eqn:E. cbn [fst snd] in *. destruct (caches st' !! [77; 0; 65]) as [e|] eqn:He; [|done].
  assert (Hk : (1 <= @conv_kernel toy_net)%nat) by (cbn; lia).
  assert (Hleft : Forall2 (step_left true true (fun _ => false) 7) [Some failing.1.2; None] talk_given).
  { constructor; [|by repeat constructor]. split; [done|]. split; [done|]. split; [done|]. right. exists kept_layer, (toy_tensor 7 2), (toy_tensor 17 2), [true; true; true; true; false], failing.2.
    split; [apply (layer_run_ok true true (fun _ => false) None 7 ltac:(done) _ _ _ kept_layer_run)|vm_compute; reflexivity]. }
  destruct (failed_step_is_put_back_whole true true (fun _ => false) true true Hk [77; 0; 65] 2 [Some failing.1.2; None] [None; Some checked] 7 7 0 (store_new 1) []
    talk_given [[]; toks [1; 2; 3; 4; 5; 6; 7]] ok st' a Hleft (proj2 talk_stands) E) as [->|(e' & b & Ec & _ & -> & HL & HS & _)]; [done|].
  rewrite Ec, lookup_insert_eq in He. injection He as ->. apply Forall2_cons_inv_r in HL as (o & rest & Ho & _ & El). rewrite El in Hsome. destruct o as [kv|]; [|done].
  exists e, kv. rewrite El. split_and!; [done|done|exact Ho|exact HS].
Defined.

(** Two requests of one model: one silent for long, one asking; saved prompts hold 10
    bytes, which the evictor can free. *)
Definition model : bytes := [77].
Definition old_request : bytes := [65].
Definition asking : bytes := [66].
Definition two_minutes : Z := FINISHED_CONVERSATION_AFTER.
Definition live_talk : KvCacheEntry := {| layers := [Some kept_layer]; ssm_states := [None]; last_accessed := two_minutes |}.
Definition busy : KvCacheStore :=
  set_external_evictor (fun asked => (10, 0)) (set_external_reserved 10
    (record_prompt_admission old_request HomeCard 5 0 (mark_owner_request asking 0
      (with_caches {[cache_key model old_request := talk; cache_key model asking := live_talk]} (store_new 1000))))).

Lemma busy_entries k e : caches busy !! k = Some e -> (k = cache_key model asking /\ e = live_talk) \/ (k = cache_key model old_request /\ e = talk).
Proof.
  intros Hl. change (caches busy) with ({[cache_key model old_request := talk; cache_key model asking := live_talk]} : gmap bytes KvCacheEntry) in Hl.
  apply lookup_insert_Some in Hl as [[<- <-]|[_ Hl]]; [by right|]. apply lookup_singleton_Some in Hl as [<- <-]. by left.
Qed.

Lemma busy_keyed : store_keyed busy.
Proof. intros k e Hl. destruct (busy_entries k e Hl) as [[-> _]|[-> _]]; eexists _, _; (split; [done|]); split; apply (bool_decide_unpack _); by vm_compute. Qed.

Lemma busy_sized : store_sized busy.
Proof. intros k e Hl. destruct (busy_entries k e Hl) as [[_ ->]|[_ ->]]; vm_compute; split; congruence. Qed.

Lemma release_ends_what_is_over_witness :
  ~ has_cache (release_finished_conversations two_minutes two_minutes asking busy).2 old_request /\
  unbooked (release_finished_conversations two_minutes two_minutes asking busy).2 old_request.
Proof.
  destruct (release_finished_conversations two_minutes two_minutes asking busy) as [freed st'] eqn:E.
  destruct (release_ends_what_is_over two_minutes two_minutes asking busy freed st' busy_keyed E) as (Hc & Hg & _).
  assert (Hn : ~ has_cache st' old_request).
  { intros (k & e & Hl & Hr). apply Hc in Hl as [Hl Ha]. destruct (busy_entries k e Hl) as [[-> ->]|[-> ->]]; [by vm_compute in Hr|].
    destruct Ha as [Ha|Ha]; by vm_compute in Ha. }
  split; [done|]. apply Hg; [|done]. exists (cache_key model old_request), talk. split; by vm_compute.
Defined.

Lemma claim_room_keeps_the_budget_witness : let '(r, st') := claim_room HomeCard 100 20 asking two_minutes busy in
  r = Ok tt /\ allocated_in HomeCard (occupancy st') + external_reserved st' + 20 <= 100.
Proof.
  assert (Hr : (claim_room HomeCard 100 20 asking two_minutes busy).1 = Ok tt) by (vm_compute; reflexivity).
  destruct (claim_room HomeCard 100 20 asking two_minutes busy) as [r st'] eqn:E. cbn [fst] in Hr. subst r. split; [done|]. refine (proj2 (proj2 (claim_room_keeps_the_budget HomeCard 100 20 asking two_minutes busy (Ok tt) st' busy_keyed busy_sized _ _ E)) eq_refl);
    [split; by vm_compute|done].
Defined.

Lemma claim_refused_only_when_full_witness : let '(r, st') := claim_room HomeCard 70 20 asking two_minutes busy in
  exists x, r = Err x /\ external_reserved st' = 0 /\ 70 < allocated_in HomeCard (occupancy st') + 20.
Proof.
  assert (Hr : exists x, (claim_room HomeCard 70 20 asking two_minutes busy).1 = Err x) by (eexists; vm_compute; reflexivity).
  assert (Hm : (allocated_in HomeCard (occupancy (claim_room HomeCard 70 20 asking two_minutes busy).2) + 10 + 20 <=? u64_max) = true)
    by (vm_compute; reflexivity).
  destruct (claim_room HomeCard 70 20 asking two_minutes busy) as [r st'] eqn:E. cbn [fst snd] in Hr, Hm. apply Z.leb_le in Hm.
  destruct Hr as [x ->]. exists x. split; [done|].
  assert (Hev : evictor_keeps_books busy) by (intros asked Ha; change (external_reserved busy) with 10; lia).
  pose proof (claim_refused_only_when_full HomeCard 70 20 asking two_minutes busy x st' busy_keyed busy_sized ltac:(lia) ltac:(lia)
    ltac:(change (external_reserved busy) with 10; lia) Hev Hm E) as (_ & Hx & Hl & _).
  split; [exact Hx|exact Hl].
Defined.

Lemma cleanup_ends_one_request_witness : unbooked (cleanup_request_id old_request busy) old_request.
Proof. refine (proj1 (cleanup_ends_one_request busy old_request busy_keyed _)). apply (bool_decide_unpack _). by vm_compute. Defined.
