(* ===== verification/PrefixSnapshot.v ===== *)
(** * Saved prompts: taking, narrowing and restoring one

    [KvSnapshot] and the functions of [src/inference/split/prefix_cache.rs] that make one
    from a request's caches ([snapshot_at]), cut one to a shorter prompt
    ([narrow_snapshot]) and seed another request's caches from one
    ([hydrate_request_from_snapshot]), with what a snapshot costs and where it is kept.

    A tensor is its rows along the sequence, as in [SeqCache]; moving one between
    devices changes where it is and nothing else, or fails.  Which device a recurrent
    layer's state is on is an argument, by layer.  A call of candle that can fail asks
    [answers], as in [SeqCache]. *)
From S2P Require Import Prelude Bytes SeqCache LayerCache RecurrentState KvBudget KvStore.
#[local] Open Scope Z_scope.

(** What else is used of candle: the processor's memory is a device. *)
Class Devices `{Candle} : Type := { cpu : Device; is_cpu : Device -> bool }.

Inductive SnapshotHome : Type := BesideLive | HostRam.
#[global] Instance snapshot_home_eq_dec : EqDecision SnapshotHome.
Proof. solve_decision. Defined.

(** [SnapshotHome::choose]. *)
Definition choose_home (on_card through_wsl : bool) (forced : option SnapshotHome) : SnapshotHome :=
  match forced with
  | Some home => if on_card then home else BesideLive
  | None => if on_card && through_wsl then HostRam else BesideLive
  end.
Definition may_leave_the_card (on_cuda : bool) (home_override : option SnapshotHome) : bool :=
  on_cuda && bool_decide (home_override <> Some BesideLive).

Definition RECURRENT_SAVE_BEFORE_END : nat := 16.
Definition save_point (prompt_tokens : nat) (recurrent : bool) : nat :=
  if recurrent then (prompt_tokens - RECURRENT_SAVE_BEFORE_END)%nat else prompt_tokens.

Record KvSnapshot `{Candle, DeltaNet} : Type := {
  sn_token_count : nat;
  sn_layers : list (option (Tensor * Tensor));
  sn_dim : nat;
  sn_max_seq_len : nat;
  sn_restore_to : list (option Device);
  sn_held_from : list nat;
  sn_serves_from : nat;
  sn_ssm : list (option SsmSlot) }.
Arguments Build_KvSnapshot {_ _} _ _ _ _ _ _ _ _.

Record SnapshotCost : Type := { co_per_position : Z; co_slid_away : Z }.

Definition bytes_at (c : SnapshotCost) (pos : nat) : Z :=
  u64_saturating_sub (u64_saturating_mul (co_per_position c) (Z.of_nat pos)) (co_slid_away c).

Section snapshot.
Context `{Candle, DeltaNet, !SsmTensors, !Devices}.
Context (windowed mirror_is_lazy : bool) (wants_shadow : Tensor -> bool).

Definition carries_recurrent_state (s : KvSnapshot) : bool := existsb (fun o => bool_decide (is_Some o)) (sn_ssm s).
Definition layer_held_from (s : KvSnapshot) (i : nat) : nat := default 0%nat (sn_held_from s !! i).
Definition holds_every_position (s : KvSnapshot) : bool := forallb (fun from => (from =? 0)%nat) (sn_held_from s).
Definition snapshot_bytes (s : KvSnapshot) : Z :=
  sum_list (map (fun kv : Tensor * Tensor => t_bytes kv.1 + t_bytes kv.2) (omap id (sn_layers s))) +
  sum_list (map (fun slot => sum_list (map fst (slot_tensors slot))) (omap id (sn_ssm s))).
Definition restored_to (s : KvSnapshot) (i : nat) : option Device := mjoin (sn_restore_to s !! i).
Definition snapshot_home (s : KvSnapshot) : SnapshotHome :=
  if existsb (fun d => bool_decide (is_Some d)) (sn_restore_to s) then HostRam else BesideLive.
Definition snapshot_bytes_in (s : KvSnapshot) (home : SnapshotHome) : Z :=
  if decide (snapshot_home s = home) then snapshot_bytes s else 0.

(** ** What a snapshot costs *)

Definition tensor_per_position (c : SeqCache) (positions : nat) : Z :=
  match sc_current_data c with Some (Some t) => t_bytes t / Z.of_nat positions | _ => 0 end.

Definition cost_add (acc : SnapshotCost) (kv : LayerKv) : SnapshotCost :=
  let positions := (lk_current_seq_len kv - lk_held_from kv)%nat in
  if (positions =? 0)%nat then acc
  else
    let bytes := tensor_per_position (kp_k (lk_main kv)) positions + tensor_per_position (kp_v (lk_main kv)) positions in
    {| co_per_position := u64_saturating_add (co_per_position acc) bytes;
       co_slid_away := u64_saturating_add (co_slid_away acc) (u64_saturating_mul bytes (Z.of_nat (lk_held_from kv))) |}.
Definition snapshot_cost (ls : list (option LayerKv)) : SnapshotCost :=
  fold_left cost_add (omap id ls) {| co_per_position := 0; co_slid_away := 0 |}.

(** ** Devices *)

Definition to_device (d : Device) (t : Tensor) : Tensor :=
  {| t_dtype := t_dtype t; t_device := d; t_elems := t_elems t; t_rows := t_rows t |}.

(** A loop over layers whose body may fail with [?]. *)
Fixpoint each_layer {A B} (body : nat -> A -> list bool -> option B * list bool) (i : nat) (l : list A) (answers : list bool)
  : option (list B) * list bool :=
  match l with
  | [] => (Some [], answers)
  | x :: l =>
      let '(y, answers) := body i x answers in
      match y with
      | None => (None, answers)
      | Some y => let '(ys, answers) := each_layer body (S i) l answers in ((y ::.) <$> ys, answers)
      end
  end.

(** ** [snapshot_at] *)

(** [layers.iter().flatten().map(LayerKv::serves_from).max().unwrap_or(0)] *)
Definition serves_from (ls : list (option LayerKv)) : nat := max_list (lk_serves_from <$> omap id ls).

(** What one layer adds to the snapshot being built. *)
Record SavedLayer : Type := {
  sl_kv : option (Tensor * Tensor);
  sl_card : option Device;
  sl_from : nat;
  sl_state : option SsmSlot }.

(** [force_contiguous] of [pos - from] rows, and the move to host memory. *)
Definition copied_rows (t : Tensor) (pos from : nat) (answers : list bool) : option Tensor * list bool :=
  if (from <=? pos)%nat then
    match narrow t 0 (pos - from) with
    | Some t => let '(ok, answers) := ask answers in (if ok then Some t else None, answers)
    | None => (None, answers)
    end
  else (None, answers).

Definition save_attention (home : SnapshotHome) (pos : nat) (kv : LayerKv) (answers : list bool) : option SavedLayer * list bool :=
  if (lk_current_seq_len kv <? pos)%nat then (None, answers)
  else
    let from := lk_held_from kv in
    match sc_current_data (kp_k (lk_main kv)), sc_current_data (kp_v (lk_main kv)) with
    | Some (Some k_src), Some (Some v_src) =>
        let '(k_snap, answers) := copied_rows k_src pos from answers in
        let '(v_snap, answers) := match k_snap with Some _ => copied_rows v_src pos from answers | None => (None, answers) end in
        match k_snap, v_snap with
        | Some k_snap, Some v_snap =>
            let card := t_device k_snap in
            if bool_decide (home = HostRam) && negb (is_cpu card) then
              let '(k_ok, answers) := ask answers in
              let '(v_ok, answers) := if k_ok then ask answers else (false, answers) in
              (if v_ok then Some {| sl_kv := Some (to_device cpu k_snap, to_device cpu v_snap); sl_card := Some card; sl_from := from; sl_state := None |}
               else None, answers)
            else (Some {| sl_kv := Some (k_snap, v_snap); sl_card := None; sl_from := from; sl_state := None |}, answers)
        | _, _ => (None, answers)
        end
    | _, _ => (None, answers)
    end.

(** [keep]: a copy, moved to host memory where [home] asks. *)
Definition kept_copy (moved : bool) (answers : list bool) : bool * list bool :=
  let '(ok, answers) := ask answers in if ok && moved then ask answers else (ok, answers).

Definition save_state (home : SnapshotHome) (pos : nat) (card : Device) (state : Held) (answers : list bool) : option SavedLayer * list bool :=
  if negb (positions state =? pos)%nat then (None, answers)
  else
    let moved := bool_decide (home = HostRam) && negb (is_cpu card) in
    let '(conv_ok, answers) := kept_copy moved answers in
    let '(rec_ok, answers) := if conv_ok then kept_copy moved answers else (false, answers) in
    (if rec_ok then Some {| sl_kv := None; sl_card := if moved then Some card else None; sl_from := 0; sl_state := Some (current state) |}
     else None, answers).

Definition save_layer (home : SnapshotHome) (pos : nat) (ssm_device : nat -> Device) (states : list (option Held)) (i : nat)
    (kv_opt : option LayerKv) (answers : list bool) : option SavedLayer * list bool :=
  match kv_opt with
  | Some kv => save_attention home pos kv answers
  | None =>
      match mjoin (states !! i) with
      | Some state => save_state home pos (ssm_device i) state answers
      | None => (Some {| sl_kv := None; sl_card := None; sl_from := 0; sl_state := None |}, answers)
      end
  end.

(** [ssm.resize_with(i, || None); ssm.push(Some(..))], at each recurrent layer. *)
Definition push_state (ssm : list (option SsmSlot)) (i : nat) (s : option SsmSlot) : list (option SsmSlot) :=
  match s with Some slot => resize i None ssm ++ [Some slot] | None => ssm end.
Fixpoint states_saved (ssm : list (option SsmSlot)) (i : nat) (saved : list SavedLayer) : list (option SsmSlot) :=
  match saved with [] => ssm | x :: saved => states_saved (push_state ssm i (sl_state x)) (S i) saved end.

Definition snapshot_at (ls : list (option LayerKv)) (states : list (option Held)) (ssm_device : nat -> Device) (pos dim max_seq_len : nat)
    (home : SnapshotHome) (answers : list bool) : option KvSnapshot * list bool :=
  let serves := serves_from ls in
  if (pos <? serves)%nat then (None, answers)
  else
    let '(saved, answers) := each_layer (save_layer home pos ssm_device states) 0 ls answers in
    ((fun saved =>
        {| sn_token_count := pos; sn_layers := map sl_kv saved; sn_dim := dim; sn_max_seq_len := max_seq_len;
           sn_restore_to := map sl_card saved; sn_held_from := map sl_from saved;
           sn_serves_from := if existsb (fun s => bool_decide (is_Some (sl_state s))) saved then pos else serves;
           sn_ssm := states_saved [] 0 saved |}) <$> saved, answers).

(** ** [narrow_snapshot] *)

(** A layer kept in host memory stays a view; any other is copied. *)
Definition narrow_tensor (is_view : bool) (held : nat) (t : Tensor) (answers : list bool) : option Tensor * list bool :=
  match narrow t 0 held with
  | Some t => if is_view then (Some t, answers) else let '(ok, answers) := ask answers in (if ok then Some t else None, answers)
  | None => (None, answers)
  end.

Definition narrow_layer (s : KvSnapshot) (target : nat) (i : nat) (kv_opt : option (Tensor * Tensor)) (answers : list bool)
  : option (option (Tensor * Tensor)) * list bool :=
  match kv_opt with
  | None => (Some None, answers)
  | Some (k, v) =>
      let is_view := bool_decide (is_Some (restored_to s i)) in
      if (layer_held_from s i <=? target)%nat then
        let held := (target - layer_held_from s i)%nat in
        let '(k, answers) := narrow_tensor is_view held k answers in
        match k with
        | None => (None, answers)
        | Some k => let '(v, answers) := narrow_tensor is_view held v answers in ((fun v => Some (k, v)) <$> v, answers)
        end
      else (None, answers)
  end.

Definition narrow_snapshot (s : KvSnapshot) (target : nat) (answers : list bool) : option KvSnapshot * list bool :=
  if (sn_token_count s <? target)%nat then (None, answers)
  else if (target <? sn_serves_from s)%nat then (None, answers)
  else if (target =? sn_token_count s)%nat then (Some s, answers)
  else if carries_recurrent_state s then (None, answers)
  else
    let '(out, answers) := each_layer (narrow_layer s target) 0 (sn_layers s) answers in
    ((fun out =>
        {| sn_token_count := target; sn_layers := out; sn_dim := sn_dim s; sn_max_seq_len := sn_max_seq_len s;
           sn_restore_to := sn_restore_to s; sn_held_from := sn_held_from s; sn_serves_from := sn_serves_from s; sn_ssm := [] |}) <$> out,
     answers).

(** ** [hydrate_request_from_snapshot] *)

(** A layer kept in host memory, back on its card. *)
Definition back_on_card (card : option Device) (k v : Tensor) (answers : list bool) : option (Tensor * Tensor) * list bool :=
  match card with
  | None => (Some (k, v), answers)
  | Some card =>
      let '(k_ok, answers) := ask answers in
      let '(v_ok, answers) := if k_ok then ask answers else (false, answers) in
      (if v_ok then Some (to_device card k, to_device card v) else None, answers)
  end.

(** What a windowed layer keeps of its copy: its newest positions. *)
Definition newest_kept (window : option nat) (from : nat) (k v : Tensor) : option (nat * Tensor * Tensor) :=
  match window with
  | Some window =>
      let keep := positions_kept_for_window window in
      if (keep <? t_len k)%nat then
        let skip := (t_len k - keep)%nat in
        match narrow k skip keep, narrow v skip keep with
        | Some k, Some v => Some ((from + skip)%nat, k, v)
        | _, _ => None
        end
      else Some (from, k, v)
  | None => Some (from, k, v)
  end.

Definition restored_capacity (token_count reserved from : nat) : nat :=
  Nat.max (Nat.max (kv_cache_reservation token_count) reserved - from) 1.

Definition hydrate_layer (s : KvSnapshot) (reserved : nat) (layouts : list (option CacheLayout)) (i : nat) (kv : Tensor * Tensor)
    (answers : list bool) : option LayerKv * list bool :=
  let '(moved, answers) := back_on_card (restored_to s i) kv.1 kv.2 answers in
  match moved with
  | None => (None, answers)
  | Some (k_src, v_src) =>
      let layout := mjoin (layouts !! i) in
      match newest_kept (layout ≫= cl_window) (layer_held_from s i) k_src v_src with
      | None => (None, answers)
      | Some (from, k_src, v_src) =>
          let l := layer_with_capacity (sn_dim s) (restored_capacity (sn_token_count s) reserved from) KV_CACHE_GROWTH_TOKENS in
          let '(ok, l, answers) := match layout with Some layout => conform_to (cl_storage layout) l answers | None => (true, l, answers) end in
          if negb ok then (None, answers)
          else
            let l := lk_begin_at from l in
            let l := match layout with Some layout => lk_slide_beyond windowed (cl_window layout) l | None => l end in
            let '(out, l, answers) := lk_append mirror_is_lazy wants_shadow k_src v_src l answers in
            (match out with Some _ => Some l | None => None end, answers)
      end
  end.

Definition set_layer (i : nat) (kv : LayerKv) (e : KvCacheEntry) : KvCacheEntry :=
  {| layers := <[i := Some kv]> (layers e); ssm_states := ssm_states e; last_accessed := last_accessed e |}.
Definition set_state (i : nat) (h : Held) (e : KvCacheEntry) : KvCacheEntry :=
  {| layers := layers e; ssm_states := <[i := Some h]> (ssm_states e); last_accessed := last_accessed e |}.

(** The caches of the layers restored so far stay in the entry when a later one fails. *)
Fixpoint hydrate_layers (s : KvSnapshot) (reserved : nat) (layouts : list (option CacheLayout)) (i : nat)
    (ls : list (option (Tensor * Tensor))) (e : KvCacheEntry) (answers : list bool) : call unit unit * KvCacheEntry * list bool :=
  match ls with
  | [] => (Ok tt, e, answers)
  | None :: ls => hydrate_layers s reserved layouts (S i) ls e answers
  | Some kv :: ls =>
      let moved := back_on_card (restored_to s i) kv.1 kv.2 answers in
      if bool_decide (is_Some moved.1) && negb (i <? length (layers e))%nat then (Panic, e, moved.2)
      else
        let '(l, answers) := hydrate_layer s reserved layouts i kv answers in
        match l with
        | None => (Err tt, e, answers)
        | Some l => hydrate_layers s reserved layouts (S i) ls (set_layer i l e) answers
        end
  end.

(** Each recurrent layer's own copy. *)
Fixpoint hydrate_states (token_count i : nat) (ss : list (option SsmSlot)) (e : KvCacheEntry) (answers : list bool)
  : call unit unit * KvCacheEntry * list bool :=
  match ss with
  | [] => (Ok tt, e, answers)
  | None :: ss => hydrate_states token_count (S i) ss e answers
  | Some slot :: ss =>
      let '(conv_ok, answers) := ask answers in
      let '(rec_ok, answers) := if conv_ok then ask answers else (false, answers) in
      if negb (rec_ok && (i <? length (ssm_states e))%nat) then (Err tt, e, answers)
      else hydrate_states token_count (S i) ss (set_state i (ssm_new [] slot token_count) e) answers
  end.

Definition hydrate_request_from_snapshot (model_key request_id : bytes) (s : KvSnapshot) (layouts : list (option CacheLayout)) (now : Z)
    (st : KvCacheStore) (answers : list bool) : call unit nat * KvCacheStore * list bool :=
  let key := cache_key model_key request_id in
  let '(e, st) := get_or_create_keyed key (length (sn_layers s)) now st in
  let put e := with_caches (<[key := e]> (caches st)) st in
  let '(r, e, answers) := hydrate_layers s (reserved_for st request_id) layouts 0 (sn_layers s) e answers in
  match r with
  | Ok _ =>
      let '(r, e, answers) := hydrate_states (sn_token_count s) 0 (sn_ssm s) e answers in
      match r with
      | Ok _ => (Ok (sn_token_count s), put {| layers := layers e; ssm_states := ssm_states e; last_accessed := now |}, answers)
      | Err x => (Err x, put e, answers)
      | Panic => (Panic, put e, answers)
      end
  | Err x => (Err x, put e, answers)
  | Panic => (Panic, put e, answers)
  end.

(** [model_worker::reconcile_hydrated_prefix]: the caches of the request cut to what its
    prompt leaves to compute, or dropped where they cannot be. *)
Definition reconcile_hydrated_prefix (on_card kernel : bool) (mode : TruncateMode) (model_key request_id : bytes)
    (hydrated prompt_tokens : nat) (st : KvCacheStore) (answers : list bool) : nat * KvCacheStore * list bool :=
  let clamped := Nat.min hydrated (prompt_tokens - 1) in
  if (clamped <? hydrated)%nat then
    let '(r, st, answers) := truncate_request_to mirror_is_lazy wants_shadow on_card kernel mode model_key request_id clamped st answers in
    match r with
    | Cut => (clamped, st, answers)
    | _ => (0%nat, clear_request model_key request_id st, answers)
    end
  else (clamped, st, answers).
End snapshot.

(** ** A restored layer *)

Section restored.
Context `{Candle, DeltaNet, !SsmTensors, !Devices}.
Context (windowed mirror_is_lazy : bool) (wants_shadow : Tensor -> bool).

Abbreviation stored c t := (t_rows (to_dtype (default (t_dtype t) (sc_dtype c)) t)).

(** Rows appended to a layer that starts past the opening: no mirror is begun there, nor
    beside a half cache. *)
Lemma append_past_the_start w l hk hv k v answers out l' answers' : (forall win, w = Some win -> (1 <= win)%nat) ->
  can_append (strict := true) windowed w l hk hv -> lk_shadow l = None -> t_len k = t_len v -> t_dtype k = t_dtype v ->
  t_dtype k = F32 \/ t_dtype k = F16 /\ default F16 (sc_dtype (kp_k (lk_main l))) = F16 ->
  lk_append mirror_is_lazy wants_shadow k v l answers = (Some out, l', answers') ->
  (lk_held_from l' = 0%nat \/ exists win, lk_window l = Some win /\ (lk_held_from l' + win - 1 <= length hk + t_len k)%nat) ->
  layer_ok windowed w l' (hk ++ stored (kp_k (lk_main l)) k) (hv ++ stored (kp_v (lk_main l)) v).
Proof.
  intros Hw Hca Hsh Hlen Hd Hty E Hs.
  destruct (decide (t_dtype k = F32 /\ lk_held_from l = 0%nat)) as [[D32 Hz]|Hne].
  { eapply layer_ok_append; [done| |done|done|congruence|exact E]. destruct Hca. split; try done; [by left|]. by rewrite Hsh. }
  assert (Hfin : exists main a1 a2 a3, sc_append k (kp_k (lk_main l)) a1 = (true, kp_k main, a2) /\
    sc_append v (kp_v (lk_main l)) a2 = (true, kp_v main, a3) /\ l' = lk_with l main None).
  { unfold lk_append in E. destruct (pair_append k v (lk_main l) answers) as [[[out0|] main] a1] eqn:Ep; [|done].
    apply pair_append_parts in Ep as (b1 & b2 & b3 & b4 & b5 & Ek & Ev & _). exists main, answers, b1, b2. split_and!; [done..|].
    destruct (keeps_append _ _ _ _ _ _ _ (ca_keys _ _ _ _ _ Hca) Ek) as (_ & Sk & _ & _ & Tk & _).
    rewrite Hsh in E. destruct (holds_half _) eqn:Eh; [by simplify_eq|]. destruct (_ && mirror_is_lazy); [by simplify_eq|].
    cbn [lk_with lk_shadow lk_mirrorable] in E. destruct (lk_mirrorable l && _ && _) eqn:Ec; [|by simplify_eq].
    exfalso. apply Hne. apply andb_true_iff in Ec as [[_ Ec%Nat.eqb_eq]%andb_true_iff _]. unfold lk_held_from, sc_held_from in *. cbn in Ec.
    split; [|lia]. destruct Hty as [|[H16 Hst]]; [done|]. exfalso. apply bool_decide_eq_false in Eh. apply Eh. cbn. rewrite Tk, H16. by rewrite Hst. }
  destruct Hfin as (main & a1 & a2 & a3 & Ek & Ev & ->). eapply append_main_ok; try done.
  destruct Hty as [|[? _]]; auto.
Qed.

(** The rows a windowed layer is given, and where they start. *)
Lemma newest_kept_spec window from k v from' k' v' hk hv : newest_kept window from k v = Some (from', k', v') ->
  t_rows k = drop from hk -> t_rows v = drop from hv -> length hk = length hv -> (from <= length hk)%nat ->
  t_rows k' = drop from' hk /\ t_rows v' = drop from' hv /\ (from' <= length hk)%nat /\
  t_dtype k' = t_dtype k /\ t_dtype v' = t_dtype v /\
  (from' = from \/ exists win, window = Some win /\ (from' + win - 1 <= length hk)%nat).
Proof.
  intros E Hk Hv Hl Hf. unfold newest_kept in E. destruct window as [win|]; [|simplify_eq; auto 10].
  destruct (Nat.ltb_spec (positions_kept_for_window win) (t_len k)) as [Hlt|]; [|simplify_eq; auto 10].
  set (keep := positions_kept_for_window win) in *.
  destruct (narrow k _ keep) as [k1|] eqn:Nk; [|done]. destruct (narrow v _ keep) as [v1|] eqn:Nv; [|done]. simplify_eq.
  apply narrow_rows in Nk as (Rk & Dk & _). apply narrow_rows in Nv as (Rv & Dv & _).
  assert (Hlen : t_len k = (length hk - from)%nat) by (unfold t_len; rewrite Hk, length_drop; done).
  rewrite Rk, Rv, Hk, Hv, !drop_drop, !take_ge by (rewrite length_drop; lia). split_and!; try (done || lia).
  right. exists win. split; [done|]. unfold keep, positions_kept_for_window, WINDOW_REWIND_POSITIONS in *. lia.
Qed.

Definition layout_dtype (layout : option CacheLayout) (d : DType) : Prop :=
  match layout with
  | Some layout => d = match cl_storage layout with StoreF16 => F16 | _ => F32 end
  | None => d = F16 \/ d = F32
  end.

(** A layer as [hydrate_layer] builds it before its rows are appended. *)
Definition built (dim initial from : nat) (layout : option CacheLayout) : LayerKv :=
  let l := layer_with_capacity dim initial KV_CACHE_GROWTH_TOKENS in
  let l := match layout with Some layout => (conform_to (cl_storage layout) l []).1.2 | None => l end in
  let l := lk_begin_at from l in
  match layout with Some layout => lk_slide_beyond windowed (cl_window layout) l | None => l end.

Lemma conform_fresh storage dim initial growth answers :
  conform_to storage (layer_with_capacity dim initial growth) answers =
  (true, (conform_to storage (layer_with_capacity dim initial growth) []).1.2, answers).
Proof. by destruct storage. Qed.

(** Two empty sides alike. *)
Lemma empty_can_append w l c from hk hv : kp_k (lk_main l) = c -> kp_v (lk_main l) = c -> sc_all_data c = None ->
  sc_current_seq_len c = from -> sc_start c = from -> (1 <= sc_grow_by c)%nat -> sc_keep c = (positions_kept_for_window <$> lk_window l) ->
  (forall d, sc_store_dtype c = Some d -> d = F16 \/ d = F32) ->
  lk_window l = (match w with Some w => if caches_slide windowed (lk_mirrorable l) then Some w else None | None => None end) ->
  length hk = from -> length hv = from -> can_append (strict := true) windowed w l hk hv.
Proof.
  intros Ek Ev Hd Hc Hs Hg Hkeep Hst Hwin Lk Lv.
  assert (Hkeeps : forall hist, length hist = from -> keeps c (positions_kept_for_window <$> lk_window l) hist).
  { intros hist Hl. split; try done; [split; [done|lia|rewrite Hd; congruence]|congruence|].
    unfold sc_view. rewrite Hd, drop_ge by lia. done. }
  split; rewrite ?Ek, ?Ev; auto; [split; auto|congruence|].
  split; auto; unfold sc_dtype; by rewrite Hd.
Qed.

Lemma built_can_append dim initial from layout hk hv : length hk = from -> length hv = from ->
  let l := built dim initial from layout in
  can_append (strict := true) windowed (layout ≫= cl_window) l hk hv /\ lk_shadow l = None /\ lk_held_from l = from /\
  sc_dtype (kp_k (lk_main l)) = (fun layout => match cl_storage layout with StoreF16 => F16 | _ => F32 end) <$> layout.
Proof.
  intros Hk Hv. assert (1 <= Nat.max KV_CACHE_GROWTH_TOKENS 1)%nat as Hg by lia.
  destruct layout as [[storage window]|].
  2: { split_and!; try done. by eapply (empty_can_append _ _ _ from); try exact Hg. }
  destruct storage, window as [win|]; unfold built, lk_slide_beyond; cbn [cl_window cl_storage mbind option_bind];
    try match goal with |- context [caches_slide windowed ?b] => destruct (caches_slide windowed b) eqn:Ec end;
    (split_and!; [eapply (empty_can_append _ _ _ from); try exact Hg; try done|done..]);
    first [by intros d [= <-]; auto | cbn in Ec |- *; by rewrite Ec].
Qed.
(** The layout of a layer, as [cache_layouts] gives it: the window its storage keeps. *)
Definition layout_ok (layout : CacheLayout) : Prop := exists window, (forall win, window = Some win -> (1 <= win)%nat) /\
  cl_window layout = window_kept windowed window (cl_storage layout).

Lemma built_window dim initial from layout win : layout_ok layout -> cl_window layout = Some win ->
  lk_window (built dim initial from (Some layout)) = Some win.
Proof.
  intros (window & _ & E) Ew. unfold built, lk_slide_beyond. rewrite Ew in E |- *. unfold window_kept in E.
  destruct window as [w|]; [|done]. destruct (cl_storage layout); cbn in E |- *; unfold caches_slide in *;
    destruct windowed; by simplify_eq.
Qed.

Lemma lk_append_keys k v l answers out l' answers' : lk_append mirror_is_lazy wants_shadow k v l answers = (Some out, l', answers') ->
  exists a, sc_append k (kp_k (lk_main l)) answers = (true, kp_k (lk_main l'), a).
Proof.
  unfold lk_append. destruct (pair_append k v (lk_main l) answers) as [[[out0|] main] a1] eqn:Ep; [|done].
  apply pair_append_parts in Ep as (b1 & b2 & b3 & b4 & b5 & Ek & _). intros E.
  assert (lk_main l' = main) as -> by (repeat case_match; by simplify_eq). eauto.
Qed.

(** A layer restored from rows that are the end of what a run was given stands for all of it. *)
Lemma hydrate_layer_ok s reserved layouts i k v answers l answers' hk hv : let layout := mjoin (layouts !! i) in
  hydrate_layer windowed mirror_is_lazy wants_shadow s reserved layouts i (k, v) answers = (Some l, answers') ->
  (forall layout', layout = Some layout' -> layout_ok layout') -> layout_dtype layout (t_dtype k) -> t_dtype k = t_dtype v ->
  t_rows k = drop (layer_held_from s i) hk -> t_rows v = drop (layer_held_from s i) hv -> length hk = length hv ->
  (layer_held_from s i = 0%nat \/ exists win, layout ≫= cl_window = Some win /\ (layer_held_from s i + win - 1 <= length hk)%nat) ->
  layer_ok windowed (layout ≫= cl_window) l hk hv.
Proof.
  intros layout E Hlay Hty Hd Rk Rv Hlen Hserve.
  assert (Hw : forall win, layout ≫= cl_window = Some win -> (1 <= win)%nat).
  { destruct layout as [layout'|]; [|done]. destruct (Hlay _ eq_refl) as (window & Hpos & Ew). cbn. intros win. rewrite Ew. unfold window_kept.
    destruct window; [|done]. destruct (caches_slide _ _); [|done]. intros [= <-]. by apply Hpos. }
  assert (Hle : (layer_held_from s i <= length hk)%nat).
  { destruct Hserve as [->|(win & Ew & ?)]; [lia|]. specialize (Hw _ Ew). lia. }
  unfold hydrate_layer in E. fold layout in E. cbn [fst snd] in E.
  destruct (back_on_card _ k v answers) as [[[k1 v1]|] a1] eqn:Eb; [|done].
  assert (t_rows k1 = t_rows k /\ t_rows v1 = t_rows v /\ t_dtype k1 = t_dtype k /\ t_dtype v1 = t_dtype v) as (Rk1 & Rv1 & Dk1 & Dv1).
  { unfold back_on_card in Eb. destruct (restored_to s i); [|by simplify_eq]. repeat case_match; by simplify_eq. }
  destruct (newest_kept _ _ k1 v1) as [[[from k2] v2]|] eqn:En; [|done].
  apply newest_kept_spec with (hk := hk) (hv := hv) in En as (Rk2 & Rv2 & Hfrom & Dk2 & Dv2 & Hnew); [|congruence..|done].
  set (initial := restored_capacity (sn_token_count s) reserved from) in *.
  pose proof (built_can_append (sn_dim s) initial from layout (take from hk) (take from hv)
    ltac:(rewrite length_take; lia) ltac:(rewrite length_take; lia)) as (Hca & Hsh & Hfm & Hdt).
  assert (Hap : exists out a2, lk_append mirror_is_lazy wants_shadow k2 v2 (built (sn_dim s) initial from layout) a1 = (Some out, l, a2)).
  { unfold built. destruct layout as [layout'|].
    - rewrite conform_fresh in E. cbn [negb] in E. destruct (lk_append _ _ k2 v2 _ a1) as [[[out|] l1] a2]; [|done]. simplify_eq. eauto.
    - cbn [negb] in E. destruct (lk_append _ _ k2 v2 _ a1) as [[[out|] l1] a2]; [|done]. simplify_eq. eauto. }
  destruct Hap as (out & a2 & Ea).
  assert (Hst : forall c t, t_dtype t = t_dtype k -> sc_dtype c = sc_dtype (kp_k (lk_main (built (sn_dim s) initial from layout))) ->
    stored c t = t_rows t).
  { intros c t Ht Hc. rewrite Hc, Hdt. destruct layout as [layout'|]; cbn; [|by rewrite to_dtype_id].
    cbn in Hty. rewrite <- Hty, <- Ht, to_dtype_id. done. }
  assert (Hlen2 : t_len k2 = t_len v2) by (unfold t_len; rewrite Rk2, Rv2, !length_drop; lia).
  pose proof (lk_append_keys _ _ _ _ _ _ _ Ea) as [a3 Ek].
  destruct (keeps_append _ _ _ _ _ _ _ (ca_keys _ _ _ _ _ Hca) Ek) as (_ & Sk & _).
  assert (Hl0 : lk_held_from l = from).
  { unfold lk_held_from, sc_held_from in *. rewrite Sk, Hfm. unfold slid_by, sc_held. rewrite Hfm.
    rewrite (ke_len _ _ _ (ca_keys _ _ _ _ _ Hca)), length_take_le, Nat.sub_diag by lia.
    destruct (sc_keep _); [|lia]. rewrite andb_false_r. lia. }
  assert (Hd2 : t_dtype k2 = t_dtype v2) by congruence.
  pose proof (append_past_the_start (layout ≫= cl_window) _ _ _ k2 v2 a1 out l a2 Hw Hca Hsh Hlen2 Hd2) as Hok.
  specialize (Hok ltac:(rewrite Hdt, Dk2, Dk1; destruct layout as [[[] ?]|]; cbn in *; auto; destruct Hty; auto) Ea).
  rewrite !Hst in Hok by (congruence || by rewrite (so_dtype _ _ (ca_dtype _ _ _ _ _ Hca))).
  rewrite Rk2, Rv2, !take_drop in Hok. apply Hok. rewrite Hl0, length_take_le by lia.
  unfold t_len. rewrite Rk2, length_drop.
  destruct Hnew as [->|(win & Ew & Hle')].
  - destruct Hserve as [?|(win & Ew & Hle')]; [by left|right]. destruct layout as [layout'|]; [|done].
    exists win. split; [apply built_window; [by apply Hlay|done]|lia].
  - right. destruct layout as [layout'|]; [|done]. exists win. split; [apply built_window; [by apply Hlay|done]|lia].
Qed.
End restored.

(** ** What a snapshot stands for *)

Lemma each_layer_spec {A B} (body : nat -> A -> list bool -> option B * list bool) i l answers ys answers' :
  each_layer body i l answers = (Some ys, answers') ->
  length ys = length l /\ forall j x, l !! j = Some x -> exists y a a', ys !! j = Some y /\ body (i + j)%nat x a = (Some y, a').
Proof.
  revert i answers ys. induction l as [|x l IH]; intros i answers ys E; cbn in E; [by simplify_eq|].
  destruct (body i x answers) as [[y|] a1] eqn:Eb; [|done]. destruct (each_layer body (S i) l a1) as [[ys'|] a2] eqn:Er; [|done].
  cbn in E. simplify_eq. destruct (IH _ _ _ Er) as [Hl Hall]. split; [cbn; lia|]. intros [|j] x' Hx; cbn in Hx; simplify_eq.
  - exists y, answers, a1. rewrite Nat.add_0_r. done.
  - destruct (Hall j x' Hx) as (y' & b & b' & ? & ?). exists y', b, b'. split; [done|]. by replace (i + S j)%nat with (S i + j)%nat by lia.
Qed.

Section stands_for.
Context `{Candle, DeltaNet, !SsmTensors, !Devices}.
Context (windowed mirror_is_lazy : bool) (wants_shadow : Tensor -> bool).

(** The rows of layer [i] a snapshot holds are those of a request given [g], and serve
    from [sn_serves_from] on; a state is that after the tokens it counts. *)
Record snapshot_of (wins : nat -> option nat) (dts : nat -> DType) (s : KvSnapshot) (gs : list Given) (hists : list (list Token)) : Prop := {
  sf_layers : forall i k v, sn_layers s !! i = Some (Some (k, v)) -> exists g, gs !! i = Some g /\
    (sn_token_count s <= length (gv_keys g))%nat /\ length (gv_keys g) = length (gv_values g) /\
    t_rows k = drop (layer_held_from s i) (take (sn_token_count s) (gv_keys g)) /\
    t_rows v = drop (layer_held_from s i) (take (sn_token_count s) (gv_values g)) /\ t_dtype k = dts i /\ t_dtype v = dts i /\
    (layer_held_from s i = 0%nat \/ exists win, wins i = Some win /\ (1 <= win)%nat /\ (layer_held_from s i + win - 1 <= sn_serves_from s)%nat);
  sf_states : forall i slot, sn_ssm s !! i = Some (Some slot) -> exists hist, hists !! i = Some hist /\
    (sn_token_count s <= length hist)%nat /\ slot = slot_after (take (sn_token_count s) hist);
  sf_whole : carries_recurrent_state s = true -> sn_serves_from s = sn_token_count s;
  sf_serves : (sn_serves_from s <= sn_token_count s)%nat }.

Lemma states_saved_lookup saved ssm i j slot : (length ssm <= i)%nat ->
  states_saved ssm i saved !! j = Some (Some slot) <->
  ssm !! j = Some (Some slot) \/ exists x, (i <= j)%nat /\ saved !! (j - i)%nat = Some x /\ sl_state x = Some slot.
Proof.
  revert ssm i. induction saved as [|x saved IH]; intros ssm i Hl; cbn.
  { split; [auto|]. intros [?|(x & _ & Hx & _)]; done. }
  assert (Hpush : (length (push_state ssm i (sl_state x)) <= S i)%nat).
  { unfold push_state. destruct (sl_state x); [|lia]. rewrite length_app, length_resize. cbn. lia. }
  assert (Hat : push_state ssm i (sl_state x) !! j = Some (Some slot) <-> ssm !! j = Some (Some slot) \/ j = i /\ sl_state x = Some slot).
  { unfold push_state. destruct (sl_state x) as [s|]; [|split; [auto|intros [?|[_ ?]]; done]].
    destruct (decide (j < i)%nat) as [Hj|Hj].
    - rewrite lookup_app_l by (rewrite length_resize; lia). destruct (decide (j < length ssm)%nat).
      + rewrite lookup_resize by lia. split; [auto|]. intros [?|[-> _]]; [done|lia].
      + rewrite lookup_resize_new by lia. rewrite (lookup_ge_None_2 ssm j) by lia. split; [done|]. intros [?|[-> _]]; [done|lia].
    - rewrite lookup_app_r, length_resize by (rewrite length_resize; lia). rewrite (lookup_ge_None_2 ssm j) by lia. destruct (decide (j = i)) as [->|Hne].
      + rewrite Nat.sub_diag. cbn. split; [intros; simplify_eq; auto|]. intros [?|[_ ?]]; [done|by simplify_eq].
      + rewrite (lookup_ge_None_2 [Some s]) by (cbn; lia). split; [done|]. intros [?|[? _]]; done. }
  rewrite IH by done. rewrite Hat. split.
  - intros [[?|[-> ?]]|(y & Hy & Hl' & Hs)]; [by left|right; exists x; rewrite Nat.sub_diag; auto|].
    right. exists y. split_and!; [lia| |done]. by replace (j - i)%nat with (S (j - S i))%nat by lia.
  - intros [?|(y & Hy & Hl' & Hs)]; [auto|]. destruct (decide (j = i)) as [->|].
    + rewrite Nat.sub_diag in Hl'. cbn in Hl'. simplify_eq. auto.
    + right. exists y. split_and!; [lia| |done]. by replace (j - i)%nat with (S (j - S i))%nat in Hl' by lia.
Qed.

Lemma serves_from_le ls i kv : ls !! i = Some (Some kv) -> (lk_serves_from kv <= serves_from ls)%nat.
Proof.
  intros Hi. unfold serves_from. apply max_list_elem_of_le, list_elem_of_fmap_2. apply list_elem_of_omap. exists (Some kv). split; [|done]. by eapply list_elem_of_lookup_2.
Qed.
Lemma copied_rows_spec t pos from answers t' answers' rows : copied_rows t pos from answers = (Some t', answers') -> t_rows t = drop from rows ->
  t_rows t' = drop from (take pos rows) /\ t_dtype t' = t_dtype t /\ (from <= pos)%nat.
Proof.
  unfold copied_rows. destruct (Nat.leb_spec from pos); [|done]. destruct (narrow t 0 (pos - from)) as [n|] eqn:En; [|done].
  destruct (ask answers) as [[|] a]; [|done]. intros [= -> ->] Ht. apply narrow_rows in En as (-> & -> & _).
  rewrite drop_0, Ht, skipn_firstn_comm. done.
Qed.

Lemma save_attention_spec w home pos kv answers x answers' hk hv : layer_at (strict := false) windowed w kv hk hv ->
  save_attention home pos kv answers = (Some x, answers') -> exists k v, sl_kv x = Some (k, v) /\ sl_state x = None /\
    sl_from x = lk_held_from kv /\ (pos <= length hk)%nat /\
    t_rows k = drop (sl_from x) (take pos hk) /\ t_rows v = drop (sl_from x) (take pos hv) /\
    sc_dtype (kp_k (lk_main kv)) = Some (t_dtype k) /\ t_dtype v = t_dtype k.
Proof.
  intros HL E. unfold save_attention in E. pose proof (ke_len _ _ _ (lo_keys _ _ _ _ _ HL)) as Hlen.
  unfold lk_current_seq_len, pair_current_seq_len in E. rewrite Hlen in E.
  destruct (Nat.ltb_spec (length hk) pos); [done|].
  pose proof (sc_current_data_view _ (ke_ok _ _ _ (lo_keys _ _ _ _ _ HL))) as Ck.
  pose proof (sc_current_data_view _ (ke_ok _ _ _ (lo_values _ _ _ _ _ HL))) as Cv.
  destruct (sc_current_data (kp_k (lk_main kv))) as [[k_src|]|]; [|done..].
  destruct (sc_current_data (kp_v (lk_main kv))) as [[v_src|]|]; [|done..].
  destruct Ck as (Rk & adk & Dk & Tk). destruct Cv as (Rv & adv & Dv & Tv).
  rewrite (ke_view _ _ _ (lo_keys _ _ _ _ _ HL)) in Rk. rewrite (ke_view _ _ _ (lo_values _ _ _ _ _ HL)), <- (is_start _ _ (lo_step _ _ _ _ _ HL)) in Rv.
  destruct (copied_rows k_src pos _ answers) as [[k|] a1] eqn:Ek; [|done]. destruct (copied_rows v_src pos _ a1) as [[v|] a2] eqn:Ev; [|done].
  eapply copied_rows_spec in Ek as (Hk & Tk' & _); [|done]. eapply copied_rows_spec in Ev as (Hv & Tv' & _); [|done].
  assert (Hd : sc_dtype (kp_k (lk_main kv)) = Some (t_dtype k)) by (unfold sc_dtype; rewrite Dk; congruence).
  assert (Hdv : t_dtype v = t_dtype k).
  { pose proof (so_dtype _ _ (lo_dtype _ _ _ _ _ HL)) as Hs. unfold sc_dtype in Hs. rewrite Dk, Dv in Hs. congruence. }
  repeat case_match; simplify_eq; eexists _, _; split_and!; try done; cbn; congruence.
Qed.

Lemma snapshot_states saved i slot : states_saved [] 0 saved !! i = Some (Some slot) ->
  exists x, saved !! i = Some x /\ sl_state x = Some slot.
Proof. intros [?|(x & _ & Hx & Hs)]%states_saved_lookup; [done| |cbn; lia]. rewrite Nat.sub_0_r in Hx. eauto. Qed.

Lemma save_state_spec home pos card st answers x answers' : save_state home pos card st answers = (Some x, answers') ->
  positions st = pos /\ sl_kv x = None /\ sl_state x = Some (current st) /\ sl_from x = 0%nat.
Proof.
  unfold save_state. destruct (Nat.eqb_spec (positions st) pos) as [Hp|]; [|done]. cbn [negb].
  destruct (kept_copy _ answers) as [[|] a]; [|done]. destruct (kept_copy _ a) as [[|] b]; [|done]. intros [= <- <-]. done.
Qed.

Context (Hkernel : (1 <= conv_kernel)%nat).

(** Everything a layer holds is in the snapshot. *)
Record holds_all (s : KvSnapshot) (e : KvCacheEntry) : Prop := {
  ha_length : length (sn_layers s) = length (layers e);
  ha_kv : forall i, (exists kv, sn_layers s !! i = Some (Some kv)) <-> (exists kv, layers e !! i = Some (Some kv));
  ha_state : forall i h, layers e !! i = Some None -> ssm_states e !! i = Some (Some h) -> exists slot, sn_ssm s !! i = Some (Some slot) }.

Lemma snapshot_at_of e gs hists wins dts ssm_device pos dim max_seq_len home answers s answers' :
  entry_stands windowed e gs hists ->
  (forall i kv, layers e !! i = Some (Some kv) -> wins i = lk_window kv /\ sc_dtype (kp_k (lk_main kv)) = Some (dts i)) ->
  snapshot_at (layers e) (ssm_states e) ssm_device pos dim max_seq_len home answers = (Some s, answers') ->
  snapshot_of wins dts s gs hists /\ holds_all s e /\ sn_token_count s = pos.
Proof using Hkernel.
  intros [HL HS] Hwd E. unfold snapshot_at in E. destruct (Nat.ltb_spec pos (serves_from (layers e))) as [|Hpos]; [done|].
  destruct (each_layer _ 0 (layers e) answers) as [[saved|] a1] eqn:Ee; [|done]. cbn in E. simplify_eq.
  apply each_layer_spec in Ee as [Hlen Hall]. cbn [Nat.add] in Hall.
  set (any := existsb _ saved).
  assert (Hserve : (serves_from (layers e) <= (if any then pos else serves_from (layers e)))%nat) by (destruct any; lia).
  assert (Hof : forall i x, saved !! i = Some x -> exists o a a', layers e !! i = Some o /\
    save_layer home pos ssm_device (ssm_states e) i o a = (Some x, a')).
  { intros i x Hx. destruct (lookup_lt_is_Some_2 (layers e) i) as [o Ho]; [rewrite <- Hlen; by eapply lookup_lt_Some|].
    destruct (Hall i o Ho) as (y & a & a' & Hy & Eb). simplify_eq. eauto. }
  split_and!; [split|split|done]; cbn [sn_layers sn_token_count sn_ssm sn_serves_from sn_held_from layer_held_from].
  - intros i k v Hi. apply list_lookup_fmap_Some in Hi as (x & Hkv & Hx).
    destruct (Hof i x Hx) as (o & a & a' & Ho & Eb). destruct o as [kv|]; cbn in Eb.
    2: { destruct (mjoin _) as [st|]; [apply save_state_spec in Eb as (_ & ? & _); congruence|simplify_eq; done]. }
    destruct (Forall2_lookup_l _ _ _ _ _ HL Ho) as (g & Hg & Hw & Hr). pose proof Hr as Hok.
    destruct (Hwd i kv Ho) as [Ew Ed]. exists g. split; [done|].
    destruct (save_attention_spec _ _ _ _ _ _ _ _ _ Hok Eb) as (k' & v' & Hkv' & _ & Hfrom & Hp & Rk & Rv & Dk & Dv). rewrite Hkv' in Hkv. simplify_eq.
    assert (Hf : layer_held_from {| sn_token_count := pos; sn_layers := map sl_kv saved; sn_dim := dim; sn_max_seq_len := max_seq_len;
      sn_restore_to := map sl_card saved; sn_held_from := map sl_from saved; sn_serves_from := if any then pos else serves_from (layers e);
      sn_ssm := states_saved [] 0 saved |} i = sl_from x).
    { unfold layer_held_from. cbn. change (map sl_from saved) with (sl_from <$> saved). by rewrite list_lookup_fmap, Hx. }
    rewrite Hf. split_and!; try done; [by apply Hok|congruence..|]. rewrite Hfrom.
    destruct (lo_serves _ _ _ _ _ Hok) as [?|(win & Ewin & Hle)]; [by left|].
    destruct (decide (lk_held_from kv = 0%nat)); [by left|right]. exists win. rewrite Ew. split_and!; [done| |].
    + pose proof (lo_window _ _ _ _ _ Hok) as Hlw. rewrite Ewin in Hlw. destruct (gv_window g) as [w|] eqn:Egw; [|done].
      destruct (caches_slide _ _); [|done]. simplify_eq. by apply Hw.
    + etransitivity; [|exact Hserve]. etransitivity; [|by eapply serves_from_le]. unfold lk_serves_from. rewrite Ewin.
      destruct (lk_held_from kv); [done|lia].
  - intros i slot Hi. apply snapshot_states in Hi as (x & Hx & Hs). destruct (Hof i x Hx) as (o & a & a' & Ho & Eb).
    destruct o as [kv|]; cbn in Eb.
    { destruct (Forall2_lookup_l _ _ _ _ _ HL Ho) as (g & Hg & Hw & Hr).
      destruct (save_attention_spec _ _ _ _ _ _ _ _ _ Hr Eb) as (? & ? & _ & ? & _). congruence. }
    destruct (ssm_states e !! i) as [[st|]|] eqn:Est; cbn in Eb; [|by simplify_eq..].
    apply save_state_spec in Eb as (Hp & _ & Hcur & _). rewrite Hcur in Hs. simplify_eq.
    destruct (Forall2_lookup_l _ _ _ _ _ HS Est) as (hist & Hh & Hst). exists hist. split; [done|].
    pose proof Hst as Hok. cbn in Hok. unfold positions. rewrite (so_at _ _ Hok). split; [done|].
    rewrite take_ge by done. apply slot_at_lookup, Hok.
  - intros Hc. unfold carries_recurrent_state in Hc. cbn in Hc. destruct any eqn:Ea; [done|]. exfalso.
    apply existsb_exists in Hc as ([slot|] & Hin & Hb); [|done]. apply list_elem_of_In, list_elem_of_lookup in Hin as [i Hi].
    apply snapshot_states in Hi as (x & Hx & Hs). assert (any = true); [|congruence]. apply existsb_exists. exists x.
    split; [by apply list_elem_of_In; eapply list_elem_of_lookup_2|]. rewrite Hs. by apply bool_decide_eq_true_2.
  - destruct any; lia.
  - by rewrite length_map.
  - intros i. split.
    + intros [kv Hi]. apply list_lookup_fmap_Some in Hi as (x & Hkv & Hx). destruct (Hof i x Hx) as (o & a & a' & Ho & Eb).
      destruct o as [kv'|]; [eauto|]. cbn in Eb. destruct (mjoin _) as [st|]; [apply save_state_spec in Eb as (_ & ? & _); congruence|simplify_eq; done].
    + intros [kv Ho]. destruct (Hall i _ Ho) as (x & a & a' & Hx & Eb). destruct (Forall2_lookup_l _ _ _ _ _ HL Ho) as (g & Hg & Hw & Hr).
      destruct (save_attention_spec _ _ _ _ _ _ _ _ _ Hr Eb) as (k & v & Hkv & _).
      exists (k, v). change (map sl_kv saved) with (sl_kv <$> saved). by rewrite list_lookup_fmap, Hx, <- Hkv.
  - intros i h Ho Est. destruct (Hall i _ Ho) as (x & a & a' & Hx & Eb). cbn in Eb. rewrite Est in Eb. cbn in Eb.
    apply save_state_spec in Eb as (_ & _ & Hcur & _). exists (current h). apply states_saved_lookup; [cbn; lia|]. right.
    exists x. rewrite Nat.sub_0_r. split_and!; [lia|done|done].
Qed.

Lemma narrow_tensor_spec view held t answers t' answers' : narrow_tensor view held t answers = (Some t', answers') ->
  t_rows t' = take held (t_rows t) /\ t_dtype t' = t_dtype t.
Proof.
  unfold narrow_tensor. destruct (narrow t 0 held) as [n|] eqn:En; [|done]. apply narrow_rows in En as (Hr & Hd & _). rewrite drop_0 in Hr.
  destruct view; [by intros [= <- <-]|]. destruct (ask answers) as [[|] a]; [|done]. by intros [= <- <-].
Qed.

Lemma narrow_of wins dts s gs hists p answers s' answers' : snapshot_of wins dts s gs hists -> narrow_snapshot s p answers = (Some s', answers') ->
  snapshot_of wins dts s' gs hists /\ sn_token_count s' = p /\ length (sn_layers s') = length (sn_layers s) /\
  (forall i, (exists kv, sn_layers s' !! i = Some (Some kv)) <-> (exists kv, sn_layers s !! i = Some (Some kv))) /\
  (forall i slot, sn_ssm s !! i = Some (Some slot) -> sn_ssm s' !! i = Some (Some slot)).
Proof.
  intros Hs E. unfold narrow_snapshot in E. destruct (Nat.ltb_spec (sn_token_count s) p) as [|Hp]; [done|].
  destruct (Nat.ltb_spec p (sn_serves_from s)) as [|Hsv]; [done|]. destruct (Nat.eqb_spec p (sn_token_count s)) as [->|Hne]; [by simplify_eq|].
  destruct (carries_recurrent_state s) eqn:Ec; [done|]. destruct (each_layer _ 0 (sn_layers s) answers) as [[out|] a1] eqn:Ee; [|done].
  cbn in E. simplify_eq. apply each_layer_spec in Ee as [Hlen Hall]. cbn [Nat.add] in Hall.
  assert (Hlay : forall i kv, out !! i = Some (Some kv) -> exists kv0 a a', sn_layers s !! i = Some (Some kv0) /\
    narrow_layer s p i (Some kv0) a = (Some (Some kv), a')).
  { intros i kv Hi. destruct (lookup_lt_is_Some_2 (sn_layers s) i) as [o Ho]; [rewrite <- Hlen; by eapply lookup_lt_Some|].
    destruct (Hall i o Ho) as (y & a & a' & Hy & Eb). simplify_eq. destruct o as [kv0|]; [eauto 10|done]. }
  split_and!; try done.
  - split; cbn; try done.
    intros i k v Hi. destruct (Hlay i (k, v) Hi) as ([k0 v0] & a & a' & Hi0 & Eb).
    destruct (sf_layers _ _ _ _ _ Hs i k0 v0 Hi0) as (g & Hg & Hc & Hl & Rk & Rv & Dk & Dv & Hsrv). exists g.
    cbn in Eb. destruct (Nat.leb_spec (layer_held_from s i) p) as [Hf|]; [|done].
    destruct (narrow_tensor _ _ k0 a) as [[k1|] a2] eqn:Ek; [|done]. destruct (narrow_tensor _ _ v0 a2) as [[v1|] a3] eqn:Ev; [|done].
    cbn in Eb. simplify_eq. apply narrow_tensor_spec in Ek as [Rk1 Dk1]. apply narrow_tensor_spec in Ev as [Rv1 Dv1].
    unfold layer_held_from in *. cbn. rewrite Rk1, Rv1, Rk, Rv.
    assert (Hcut : forall (rows : list Row), take (p - default 0 (sn_held_from s !! i))%nat (drop (default 0%nat (sn_held_from s !! i)) (take (sn_token_count s) rows))
      = drop (default 0%nat (sn_held_from s !! i)) (take p rows)).
    { intros rows. rewrite <- skipn_firstn_comm, take_take. by replace (p `min` sn_token_count s)%nat with p by lia. }
    rewrite !Hcut. split_and!; try done; [lia|congruence..].
  - intros i. split.
    + intros [kv Hi]. destruct (Hlay i kv Hi) as (kv0 & _ & _ & ? & _). eauto.
    + intros [[k v] Hi]. destruct (Hall i _ Hi) as (y & a & a' & Hy & Eb). cbn [sn_layers]. rewrite Hy. cbn in Eb.
      destruct (_ <=? p)%nat; [|done]. destruct (narrow_tensor _ _ k a) as [[k1|] a2]; [|done]. destruct (narrow_tensor _ _ v a2) as [[v1|] a3]; [|done].
      cbn in Eb. simplify_eq. eauto.
  - intros i slot Hi. exfalso. apply not_true_iff_false in Ec. apply Ec. apply existsb_exists. exists (Some slot).
    split; [apply list_elem_of_In; by eapply list_elem_of_lookup_2|by apply bool_decide_eq_true_2].
Qed.
Lemma hydrate_layers_spec s reserved layouts ls i e answers e' answers' :
  hydrate_layers windowed mirror_is_lazy wants_shadow s reserved layouts i ls e answers = (Ok tt, e', answers') ->
  ssm_states e' = ssm_states e /\ length (layers e') = length (layers e) /\
  (forall j, (j < i)%nat \/ ls !! (j - i)%nat = Some None \/ (i + length ls <= j)%nat -> layers e' !! j = layers e !! j) /\
  forall j kv, ls !! j = Some (Some kv) -> exists l a a', layers e' !! (i + j)%nat = Some (Some l) /\
    hydrate_layer windowed mirror_is_lazy wants_shadow s reserved layouts (i + j) kv a = (Some l, a').
Proof.
  revert i e answers. induction ls as [|o ls IH]; intros i e answers E; cbn [hydrate_layers] in E; [simplify_eq; split_and!; try done; intros j kv Hk; by rewrite lookup_nil in Hk|].
  destruct o as [kv|].
  - destruct (_ && _) eqn:Ep; [done|]. destruct (hydrate_layer _ _ _ s reserved layouts i kv answers) as [[l|] a1] eqn:Eh; [|done].
    assert (Hi : (i < length (layers e))%nat).
    { unfold hydrate_layer in Eh. destruct (back_on_card _ _ _ answers) as [[[k v]|] a]; [|done]. cbn in Ep. by apply negb_false_iff, Nat.ltb_lt in Ep. }
    destruct (IH _ _ _ E) as (Hss & Hlen & Hout & Hin). cbn in Hss, Hlen. rewrite length_insert in Hlen. split_and!; try done.
    + intros j Hj. rewrite Hout; cbn.
      * rewrite list_lookup_insert_ne; [done|]. intros ->. rewrite Nat.sub_diag in Hj. cbn in Hj. destruct Hj as [?|[?|?]]; [lia|done|lia].
      * destruct Hj as [?|[Hj|?]]; [left; lia| |right; right; cbn in *; lia]. destruct (decide (j <= i)%nat); [left; lia|right; left].
        by replace (j - i)%nat with (S (j - S i)) in Hj by lia.
    + intros [|j] kv' Hk; cbn in Hk; simplify_eq.
      * rewrite Nat.add_0_r. exists l, answers, a1. split; [|done]. rewrite Hout by (left; lia). cbn. by rewrite list_lookup_insert_eq.
      * destruct (Hin j kv' Hk) as (l' & b & b' & ? & ?). replace (i + S j)%nat with (S i + j)%nat by lia. eauto.
  - destruct (IH _ _ _ E) as (Hss & Hlen & Hout & Hin). split_and!; try done.
    + intros j Hj. apply Hout. destruct (decide (j = i)) as [->|Hne]; [left; lia|]. destruct Hj as [?|[Hj|?]]; [left; lia| |right; right; cbn in *; lia].
      destruct (decide (j <= i)%nat); [left; lia|right; left]. by replace (j - i)%nat with (S (j - S i)) in Hj by lia.
    + intros [|j] kv' Hk; cbn in Hk; simplify_eq. destruct (Hin j kv' Hk) as (l' & b & b' & ? & ?). replace (i + S j)%nat with (S i + j)%nat by lia. eauto.
Qed.

Lemma hydrate_states_spec tc ss i e answers e' answers' : hydrate_states tc i ss e answers = (Ok tt, e', answers') ->
  layers e' = layers e /\ (forall j, (j < i)%nat -> ssm_states e' !! j = ssm_states e !! j) /\
  forall j slot, ss !! j = Some (Some slot) -> ssm_states e' !! (i + j)%nat = Some (Some (ssm_new [] slot tc)).
Proof.
  revert i e answers. induction ss as [|o ss IH]; intros i e answers E; cbn [hydrate_states] in E; [simplify_eq; split_and!; try done; intros j kv Hk; by rewrite lookup_nil in Hk|]. destruct o as [slot|].
  - destruct (ask answers) as [[|] a1]; [|done]. destruct (ask a1) as [[|] a2]; [|done]. cbn [andb] in E.
    destruct (Nat.ltb_spec i (length (ssm_states e))) as [Hi|]; [|done]. cbn [negb] in E.
    destruct (IH _ _ _ E) as (Hl & Hlow & Hin). cbn in Hl. split_and!; [done| |].
    + intros j Hj. rewrite Hlow by lia. cbn. by rewrite list_lookup_insert_ne by lia.
    + intros [|j] slot' Hk; cbn in Hk; simplify_eq.
      * rewrite Nat.add_0_r, Hlow by lia. cbn. by rewrite list_lookup_insert_eq.
      * replace (i + S j)%nat with (S i + j)%nat by lia. by apply Hin.
  - destruct (IH _ _ _ E) as (Hl & Hlow & Hin). split_and!; [done|intros j Hj; apply Hlow; lia|].
    intros [|j] slot' Hk; cbn in Hk; simplify_eq. replace (i + S j)%nat with (S i + j)%nat by lia. by apply Hin.
Qed.

(** The layouts describe how the layers of [e] keep their caches. *)
Definition layouts_fit (layouts : list (option CacheLayout)) (wins : nat -> option nat) (dts : nat -> DType) : Prop :=
  forall i, let layout := mjoin (layouts !! i) in
    (forall layout', layout = Some layout' -> layout_ok windowed layout') /\ wins i = (layout ≫= cl_window) /\ layout_dtype layout (dts i).

(** A request seeded from a snapshot, layer by layer. *)
Lemma hydrate_of wins dts s gs hists layouts model request now st answers n st' answers' :
  snapshot_of wins dts s gs hists -> layouts_fit layouts wins dts -> caches st !! cache_key model request = None ->
  hydrate_request_from_snapshot windowed mirror_is_lazy wants_shadow model request s layouts now st answers = (Ok n, st', answers') ->
  n = sn_token_count s /\ exists e', caches st' = <[cache_key model request := e']> (caches st) /\ length (layers e') = length (sn_layers s) /\
    (forall i kv, sn_layers s !! i = Some (Some kv) -> exists g l, gs !! i = Some g /\ layers e' !! i = Some (Some l) /\
      layer_ok windowed (wins i) l (take n (gv_keys g)) (take n (gv_values g))) /\
    (forall i, sn_layers s !! i = Some None -> layers e' !! i = Some None) /\
    (forall i slot, sn_ssm s !! i = Some (Some slot) -> exists hist h, hists !! i = Some hist /\ ssm_states e' !! i = Some (Some h) /\
      positions h = n /\ current h = slot_after (take n hist)).
Proof.
  intros Hs Hfit Hnone E. unfold hydrate_request_from_snapshot, get_or_create_keyed in E. rewrite Hnone in E.
  destruct (hydrate_layers _ _ _ s _ layouts 0 _ _ answers) as [[[[]|[]|] e1] a1] eqn:El; [|done..].
  destruct (hydrate_states _ 0 _ e1 a1) as [[[[]|[]|] e2] a2] eqn:Es; [|done..]. simplify_eq. split; [done|].
  apply hydrate_layers_spec in El as (_ & Hlen & Hout & Hin). apply hydrate_states_spec in Es as (Hl & _ & Hst).
  cbn in Hlen, Hout. rewrite length_replicate in Hlen. eexists. split; [cbn; by rewrite insert_insert_eq|]. cbn [layers ssm_states]. rewrite Hl.
  split_and!; [done|..].
  - intros i [k v] Hi. destruct (Hin i _ Hi) as (l & a & a' & Hl' & Eh). cbn [Nat.add] in Hl', Eh.
    destruct (sf_layers _ _ _ _ _ Hs i k v Hi) as (g & Hg & Hc & Hkv & Rk & Rv & Dk & Dv & Hserve).
    destruct (Hfit i) as (Hlay & Hwin & Hdt). exists g, l. split_and!; [done|done|]. rewrite Hwin.
    eapply hydrate_layer_ok; [exact Eh|done|congruence|congruence|done|done|rewrite !length_take; lia|].
    rewrite length_take_le by lia. destruct Hserve as [?|(win & Ew & Hpos & Hle)]; [by left|right]. exists win. split; [congruence|].
    pose proof (sf_serves _ _ _ _ _ Hs). lia.
  - intros i Hi. rewrite Hout by (right; left; by rewrite Nat.sub_0_r). apply lookup_replicate_2. by eapply lookup_lt_Some.
  - intros i slot Hi. destruct (sf_states _ _ _ _ _ Hs i slot Hi) as (hist & Hh & Hc & ->). exists hist, (ssm_new [] (slot_after (take (sn_token_count s) hist)) (sn_token_count s)).
    split_and!; [done|by apply (Hst i)|done|done].
Qed.

(** a request restored from a saved prompt is where reading that prompt would have
    left it: whatever the source request went through, every layer's cache meets, for the
    opening kept, the invariant of a cache that read it - its keys and values, its window,
    its mirror - and every recurrent state is the one after exactly those tokens. *)
Theorem restored_request_is_where_reading_leaves_it e gs hists layouts wins dts ssm_device pos dim max_seq_len home p
    model request now st answers s answers1 s' answers2 n st' answers3 :
  entry_stands windowed e gs hists ->
  (forall i kv, layers e !! i = Some (Some kv) -> wins i = lk_window kv /\ sc_dtype (kp_k (lk_main kv)) = Some (dts i)) ->
  layouts_fit layouts wins dts ->
  snapshot_at (layers e) (ssm_states e) ssm_device pos dim max_seq_len home answers = (Some s, answers1) ->
  narrow_snapshot s p answers1 = (Some s', answers2) -> caches st !! cache_key model request = None ->
  hydrate_request_from_snapshot windowed mirror_is_lazy wants_shadow model request s' layouts now st answers2 = (Ok n, st', answers3) ->
  n = p /\ exists e', caches st' = <[cache_key model request := e']> (caches st) /\ length (layers e') = length (layers e) /\
    (forall i kv, layers e !! i = Some (Some kv) -> exists g l, gs !! i = Some g /\ layers e' !! i = Some (Some l) /\
      layer_ok windowed (wins i) l (take p (gv_keys g)) (take p (gv_values g))) /\
    (forall i, layers e !! i = Some None -> layers e' !! i = Some None) /\
    (forall i h, layers e !! i = Some None -> ssm_states e !! i = Some (Some h) -> exists hist h', hists !! i = Some hist /\
      ssm_states e' !! i = Some (Some h') /\ positions h' = p /\ current h' = slot_after (take p hist)).
Proof using Hkernel.
  intros He Hwd Hfit Es En Hnone Eh. destruct (snapshot_at_of _ _ _ _ _ _ _ _ _ _ _ _ _ He Hwd Es) as (Hs & Hall & _).
  destruct (narrow_of _ _ _ _ _ _ _ _ _ Hs En) as (Hs' & <- & Hlen & Hkv & Hssm).
  destruct (hydrate_of _ _ _ _ _ _ _ _ _ _ _ _ _ _ Hs' Hfit Hnone Eh) as (-> & e' & Hc & Hl & Hlay & Hno & Hst). split; [done|].
  exists e'. split_and!; [done|by rewrite Hl, Hlen, (ha_length _ _ Hall)|..].
  - intros i kv Hi. destruct (proj2 (Hkv i)) as [kv' Hi']; [apply Hall; eauto|]. by apply (Hlay i kv').
  - intros i Hi. apply Hno. destruct (lookup_lt_is_Some_2 (sn_layers s') i) as [[kv|] Ho]; [|..|done].
    + rewrite Hlen, (ha_length _ _ Hall). by eapply lookup_lt_Some.
    + destruct (proj1 (Hkv i)) as [kv' Hi']; [eauto|]. destruct (proj1 (ha_kv _ _ Hall i)) as [? ?]; [eauto|]. congruence.
  - intros i h Hi Hh. destruct (ha_state _ _ Hall i h Hi Hh) as [slot Hslot]. by apply (Hst i slot), Hssm.
Qed.
End stands_for.

(** ** What a snapshot costs *)

Section costs.
Context `{Candle, DeltaNet, !SsmTensors, !Devices}.
Context (windowed : bool).

(** Bytes a position of one layer takes, as [cost_add] reads them. *)
Definition layer_weight (kv : LayerKv) : Z :=
  let positions := (lk_current_seq_len kv - lk_held_from kv)%nat in
  if (positions =? 0)%nat then 0
  else tensor_per_position (kp_k (lk_main kv)) positions + tensor_per_position (kp_v (lk_main kv)) positions.
Definition weight_of (ls : list (option LayerKv)) : Z := sum_list (map layer_weight (omap id ls)).
Definition slid_weight_of (ls : list (option LayerKv)) : Z :=
  sum_list (map (fun kv => layer_weight kv * Z.of_nat (lk_held_from kv)) (omap id ls)).

Definition weights_ok (ls : list (option LayerKv)) : Prop := forall kv, kv ∈ omap id ls -> 0 <= layer_weight kv.

Lemma sum_list_nonneg {A} (f : A -> Z) l : (forall x, x ∈ l -> 0 <= f x) -> 0 <= sum_list (map f l).
Proof.
  induction l as [|x l IH]; cbn; [done|]. intros Hf. assert (0 <= f x) by (apply Hf; left). specialize (IH ltac:(intros; apply Hf; by right)). lia.
Qed.

Lemma cost_add_weight acc kv : cost_add acc kv =
  if (lk_current_seq_len kv - lk_held_from kv =? 0)%nat then acc
  else {| co_per_position := u64_saturating_add (co_per_position acc) (layer_weight kv);
          co_slid_away := u64_saturating_add (co_slid_away acc) (u64_saturating_mul (layer_weight kv) (Z.of_nat (lk_held_from kv))) |}.
Proof. unfold cost_add, layer_weight. by destruct (_ =? 0)%nat. Qed.

Lemma cost_fold ls acc : (forall kv, kv ∈ ls -> 0 <= layer_weight kv) -> 0 <= co_per_position acc -> 0 <= co_slid_away acc ->
  co_per_position acc + sum_list (map layer_weight ls) <= u64_max ->
  co_slid_away acc + sum_list (map (fun kv => layer_weight kv * Z.of_nat (lk_held_from kv)) ls) <= u64_max ->
  fold_left cost_add ls acc = {| co_per_position := co_per_position acc + sum_list (map layer_weight ls);
    co_slid_away := co_slid_away acc + sum_list (map (fun kv => layer_weight kv * Z.of_nat (lk_held_from kv)) ls) |}.
Proof.
  revert acc. induction ls as [|kv ls IH]; intros acc Hw Ha Hb H1' H2'; cbn [fold_left map sum_list] in *.
  { rewrite !Z.add_0_r. by destruct acc. }
  assert (Hkv : 0 <= layer_weight kv) by (apply Hw; left).
  pose proof (sum_list_nonneg layer_weight ls ltac:(intros; apply Hw; by right)).
  pose proof (sum_list_nonneg (fun kv => layer_weight kv * Z.of_nat (lk_held_from kv)) ls
    ltac:(intros x Hx; apply Z.mul_nonneg_nonneg; [apply Hw; by right|lia])).
  assert (E : cost_add acc kv = {| co_per_position := co_per_position acc + layer_weight kv;
    co_slid_away := co_slid_away acc + layer_weight kv * Z.of_nat (lk_held_from kv) |}).
  { rewrite cost_add_weight. destruct (_ =? 0)%nat eqn:Ez.
    - assert (layer_weight kv = 0) as -> by (unfold layer_weight; by rewrite Ez). rewrite Z.mul_0_l, !Z.add_0_r. by destruct acc.
    - assert (Hm : 0 <= layer_weight kv * Z.of_nat (lk_held_from kv)) by nia. unfold u64_saturating_add, u64_saturating_mul, clamp. f_equal; lia. }
  assert (0 <= layer_weight kv * Z.of_nat (lk_held_from kv)) by nia.
  rewrite E, IH; cbn; [f_equal; lia|intros; apply Hw; by right|lia..].
Qed.

Lemma snapshot_cost_exact ls : weights_ok ls -> weight_of ls <= u64_max -> slid_weight_of ls <= u64_max ->
  snapshot_cost ls = {| co_per_position := weight_of ls; co_slid_away := slid_weight_of ls |}.
Proof. intros Hw Ha Hb. unfold snapshot_cost. rewrite cost_fold; cbn; try done. Qed.

Lemma copied_rows_elems t pos from answers t' answers' : copied_rows t pos from answers = (Some t', answers') ->
  t_bytes t' = t_elems t * size_in_bytes (t_dtype t) * (Z.of_nat pos - Z.of_nat from) /\ (from <= pos)%nat.
Proof.
  unfold copied_rows. destruct (Nat.leb_spec from pos); [|done]. destruct (narrow t 0 (pos - from)) as [n|] eqn:En; [|done].
  destruct (ask answers) as [[|] a]; [|done]. intros [= -> ->]. unfold narrow in En. destruct (Nat.leb_spec (0 + (pos - from)) (t_len t)); [|done].
  simplify_eq. unfold t_bytes, elem_count, t_len in *. cbn. rewrite length_take, length_drop. split; [|done].
  replace (Z.of_nat ((pos - from) `min` (length (t_rows t) - 0))) with (Z.of_nat pos - Z.of_nat from) by lia. lia.
Qed.

Lemma to_device_bytes d t : t_bytes (to_device d t) = t_bytes t.
Proof. done. Qed.

Lemma tensor_weight c hist keep t : keeps c keep hist -> sc_current_data c = Some (Some t) -> (sc_current_seq_len c - sc_start c)%nat <> 0%nat ->
  tensor_per_position c (sc_current_seq_len c - sc_start c) = t_elems t * size_in_bytes (t_dtype t).
Proof.
  intros Hk E Hne. unfold tensor_per_position. rewrite E. pose proof (sc_current_data_view _ (ke_ok _ _ _ Hk)) as Hv. rewrite E in Hv. destruct Hv as (Hr & _).
  pose proof (sc_view_length _ (ke_ok _ _ _ Hk)) as Hl. unfold sc_held in Hl. unfold t_bytes, elem_count, t_len. rewrite Hr, Hl.
  rewrite Z.mul_shuffle0. apply Z.div_mul. lia.
Qed.

Lemma save_attention_bytes w home pos kv answers x answers' hk hv : layer_at (strict := false) windowed w kv hk hv ->
  save_attention home pos kv answers = (Some x, answers') -> exists k v, sl_kv x = Some (k, v) /\
    t_bytes k + t_bytes v = layer_weight kv * (Z.of_nat pos - Z.of_nat (lk_held_from kv)) /\ (lk_held_from kv <= pos)%nat.
Proof.
  intros HL E. unfold save_attention in E. destruct (Nat.ltb_spec (lk_current_seq_len kv) pos) as [|Hpos]; [done|].
  destruct (sc_current_data (kp_k (lk_main kv))) as [[k_src|]|] eqn:Ck; [|done..].
  destruct (sc_current_data (kp_v (lk_main kv))) as [[v_src|]|] eqn:Cv; [|done..].
  destruct (copied_rows k_src pos _ answers) as [[k|] a1] eqn:Ek; [|done]. destruct (copied_rows v_src pos _ a1) as [[v|] a2] eqn:Ev; [|done].
  apply copied_rows_elems in Ek as [Bk Hf]. apply copied_rows_elems in Ev as [Bv _].
  assert (Hb : t_bytes k + t_bytes v = layer_weight kv * (Z.of_nat pos - Z.of_nat (lk_held_from kv))).
  { rewrite Bk, Bv. unfold layer_weight. destruct (Nat.eqb_spec (lk_current_seq_len kv - lk_held_from kv) 0) as [Hz|Hnz].
    - assert (pos = lk_held_from kv) as -> by lia. rewrite Z.sub_diag. lia.
    - unfold lk_current_seq_len, pair_current_seq_len, lk_held_from, sc_held_from in *.
      rewrite (tensor_weight _ _ _ _ (lo_keys _ _ _ _ _ HL) Ck Hnz).
      replace (sc_current_seq_len (kp_k (lk_main kv)) - sc_start (kp_k (lk_main kv)))%nat
        with (sc_current_seq_len (kp_v (lk_main kv)) - sc_start (kp_v (lk_main kv)))%nat in *
        by (rewrite (ke_len _ _ _ (lo_keys _ _ _ _ _ HL)), (ke_len _ _ _ (lo_values _ _ _ _ _ HL)), (is_start _ _ (lo_step _ _ _ _ _ HL)), (lo_kv _ _ _ _ _ HL); done).
      rewrite (tensor_weight _ _ _ _ (lo_values _ _ _ _ _ HL) Cv Hnz). lia. }
  repeat case_match; simplify_eq; eexists _, _; split_and!; (done || by rewrite ?to_device_bytes).
Qed.

Lemma saved_bytes home pos ssm_device states ls gs i answers saved answers' :
  Forall2 (layer_stands windowed) ls gs ->
  each_layer (save_layer home pos ssm_device states) i ls answers = (Some saved, answers') ->
  sum_list (map (fun kv : Tensor * Tensor => t_bytes kv.1 + t_bytes kv.2) (omap id (map sl_kv saved))) =
  weight_of ls * Z.of_nat pos - slid_weight_of ls /\ (weights_ok ls -> slid_weight_of ls <= weight_of ls * Z.of_nat pos).
Proof.
  intros HF. revert i answers saved. induction HF as [|o g ls gs Ho HF IH]; intros i answers saved E; cbn in E; [by simplify_eq|].
  destruct (save_layer home pos ssm_device states i o answers) as [[x|] a1] eqn:Ex; [|done].
  destruct (each_layer _ (S i) ls a1) as [[saved'|] a2] eqn:Er; [|done]. cbn in E. simplify_eq. specialize (IH _ _ _ Er).
  unfold weight_of, slid_weight_of in *. destruct IH as [IH Hle]. destruct o as [kv|]; cbn [save_layer] in Ex.
  - destruct Ho as [Hw Hr]. destruct (save_attention_bytes _ _ _ _ _ _ _ _ _ Hr Ex) as (k & v & Hkv & Hb & Hf).
    cbn [map omap list_omap id]. rewrite Hkv. cbn [omap list_omap id map sum_list fst snd]. rewrite IH. split; [lia|].
    intros Hw'. assert (0 <= layer_weight kv) by (apply Hw'; left). specialize (Hle ltac:(intros y Hy; apply Hw'; by right)). nia.
  - assert (sl_kv x = None) as Hx.
    { destruct (mjoin _) as [st|]; [by apply save_state_spec in Ex as (_ & ? & _)|by simplify_eq]. }
    cbn [map omap list_omap id]. rewrite Hx. cbn [omap list_omap id]. split; [exact IH|]. intros Hw'. by apply Hle.
Qed.

(** what a snapshot is priced at before it is copied is what its keys and values hold,
    to the byte, at any length, windowed layers that dropped their opening included; a
    recurrent model's states come on top, and the price leaves them out. *)
Theorem snapshot_costs_what_it_holds e gs hists ssm_device pos dim max_seq_len home answers s answers' :
  entry_stands windowed e gs hists ->
  weights_ok (layers e) -> weight_of (layers e) <= u64_max -> weight_of (layers e) * Z.of_nat pos <= u64_max -> slid_weight_of (layers e) <= u64_max ->
  snapshot_at (layers e) (ssm_states e) ssm_device pos dim max_seq_len home answers = (Some s, answers') ->
  snapshot_bytes s = bytes_at (snapshot_cost (layers e)) pos + sum_list (map (fun slot => sum_list (map fst (slot_tensors slot))) (omap id (sn_ssm s))).
Proof.
  intros [HL _] Hw Hw1 Hw2 Hw3 E. unfold snapshot_at in E. destruct (pos <? _)%nat; [done|].
  destruct (each_layer _ 0 (layers e) answers) as [[saved|] a1] eqn:Ee; [|done]. cbn in E. simplify_eq.
  destruct (saved_bytes _ _ _ _ _ _ _ _ _ _ HL Ee) as [Hb Hle]. specialize (Hle Hw).
  unfold snapshot_bytes. cbn [sn_layers sn_ssm]. rewrite Hb, snapshot_cost_exact by done.
  f_equal. unfold bytes_at, u64_saturating_sub, u64_saturating_mul, clamp. cbn.
  assert (0 <= slid_weight_of (layers e)); [|lia]. apply sum_list_nonneg. intros kv Hkv. specialize (Hw kv Hkv). nia.
Qed.
End costs.

(** ** A worked example

    The conversation of [KvStore]'s example, one attention layer and one recurrent layer
    on a card, saved to host memory and restored for another request. *)

#[local] Existing Instances toy toy_net toy_tensors.
#[local] Instance toy_devices : Devices := {| cpu := false; is_cpu d := negb d |}.

Definition talk_layouts : list (option CacheLayout) := [Some {| cl_storage := StoreF32; cl_window := None |}; None].
Definition no_window : nat -> option nat := fun _ => None.
Definition all_f32 : nat -> @DType toy := fun _ => F32.

Lemma talk_layouts_fit : layouts_fit true talk_layouts no_window all_f32.
Proof.
  intros [|[|i]]; cbn; (split_and!; [|done|]); try (by right); try done.
  intros layout' [= <-]. by exists None.
Qed.

Lemma talk_layers i kv : layers talk !! i = Some (Some kv) ->
  no_window i = lk_window kv /\ sc_dtype (kp_k (lk_main kv)) = Some (all_f32 i).
Proof. destruct i as [|[|i]]; cbn; intros [= <-]. done. Qed.

Definition talk_saved := snapshot_at (layers talk) (ssm_states talk) (fun _ => true) 7 2 8 HostRam [].

Lemma restored_request_is_where_reading_leaves_it_witness :
  exists s st', talk_saved = (Some s, []) /\ snapshot_home s = HostRam /\
    hydrate_request_from_snapshot true true (fun _ => false) model asking s talk_layouts 0 (store_new 1000) [] = (Ok 7%nat, st', []) /\
    exists e', caches st' !! cache_key model asking = Some e' /\
      exists l, layers e' !! 0%nat = Some (Some l) /\ layer_ok true None l (seqZ 0 7) (seqZ 10 7).
Proof.
  assert (H1 : bool_decide (is_Some talk_saved.1) = true) by (vm_compute; reflexivity).
  assert (H2 : talk_saved.2 = []) by (vm_compute; reflexivity).
  destruct talk_saved as [[s|] a] eqn:Es; [|done]. cbn [snd] in H2. subst a. exists s.
  assert (Hs : Some s = talk_saved.1) by (by rewrite Es).
  assert (H3 : match talk_saved.1 with Some s => snapshot_home s = HostRam /\
    (hydrate_request_from_snapshot true true (fun _ => false) model asking s talk_layouts 0 (store_new 1000) []).1.1 = Ok 7%nat /\
    (hydrate_request_from_snapshot true true (fun _ => false) model asking s talk_layouts 0 (store_new 1000) []).2 = [] /\
    sn_token_count s = 7%nat /\ sn_serves_from s = 7%nat | None => False end) by (vm_compute; done).
  rewrite <- Hs in H3. destruct H3 as (Hh & Hr & Ha & Htc & Hsv).
  assert (En : narrow_snapshot s 7 [] = (Some s, [])) by (unfold narrow_snapshot; by rewrite Htc, Hsv).
  destruct (hydrate_request_from_snapshot true true (fun _ => false) model asking s talk_layouts 0 (store_new 1000) []) as [[r st'] a] eqn:Eh.
  cbn [fst snd] in Hr, Ha. subst r a. exists st'. split_and!; [done|done|done|].
  assert (Hk : (1 <= @conv_kernel toy_net)%nat) by (cbn; lia).
  destruct (restored_request_is_where_reading_leaves_it true true (fun _ => false) Hk talk talk_given [[]; toks [1; 2; 3; 4; 5; 6; 7]]
    talk_layouts no_window all_f32 (fun _ => true) 7 2 8 HostRam 7 model asking 0 (store_new 1000) [] s [] s [] 7 st' []
    talk_stands talk_layers talk_layouts_fit Es En (lookup_empty _) Eh) as (_ & e' & Hc & _ & Hl & _).
  exists e'. split; [rewrite Hc; apply lookup_insert_eq|].
  destruct (Hl 0%nat kept_layer eq_refl) as (g & l & Hg & Hl' & Hok). exists l. split; [done|]. cbn in Hg. injection Hg as <-. exact Hok.
Defined.

Lemma snapshot_costs_what_it_holds_witness : exists s, talk_saved = (Some s, []) /\ snapshot_bytes s = bytes_at (snapshot_cost (layers talk)) 7 + 4.
Proof.
  assert (H1 : bool_decide (is_Some talk_saved.1) = true) by (vm_compute; reflexivity).
  assert (H2 : talk_saved.2 = []) by (vm_compute; reflexivity).
  assert (H3 : (fun s => sum_list (map (fun slot => sum_list (map fst (slot_tensors slot))) (omap id (sn_ssm s)))) <$> talk_saved.1 = Some 4) by (vm_compute; reflexivity).
  destruct talk_saved as [[s|] a] eqn:Es; [|done]. cbn [fst snd fmap option_fmap option_map] in H2, H3. subst a. exists s. split; [done|].
  injection H3 as <-.
  refine (snapshot_costs_what_it_holds true talk talk_given [[]; toks [1; 2; 3; 4; 5; 6; 7]] (fun _ => true) 7 2 8 HostRam [] s []
    talk_stands _ _ _ _ Es); [|vm_compute; congruence..].
  intros kv Hkv. apply list_elem_of_singleton in Hkv as ->. vm_compute. congruence.
Defined.

(** A restore that fails part way reports nothing restored, and leaves the layers it did
    restore in the request's caches: seven positions, until the prompt pass that follows,
    from position 0, starts each layer over. *)
Example failed_restore_leaves_positions :
  match talk_saved.1 with
  | Some s =>
      let s := {| sn_token_count := 7; sn_layers := sn_layers s ++ sn_layers s; sn_dim := 2; sn_max_seq_len := 8; sn_restore_to := [];
                  sn_held_from := []; sn_serves_from := 0; sn_ssm := [] |} in
      let '(r, st, _) := hydrate_request_from_snapshot true true (fun _ => false) model asking s [] 0 (store_new 1000)
        [true; true; true; true; true; true; false] in
      let '(n, st, _) := reconcile_hydrated_prefix true (fun _ => false) true true InPlace model asking 0 20 st [] in
      r = Err tt /\ n = 0%nat /\ request_positions st model asking = 7%nat
  | None => False
  end.
Proof. vm_compute. done. Qed.
