(* ===== verification/SnapshotWire.v ===== *)
(** * Saved prompts on the wire

    The parts of [src/inference/split/prefix_cache.rs] that name a prompt by a chain of
    block hashes, write a [KvSnapshot] as bytes and read one from a peer's, and
    [verify_fetched_snapshot] of [src/daemon/background.rs], which decides whether a
    fetched one is used.

    [blake3] and [serde_json] are parameters, as is what candle makes of a tensor's
    values ([f32_of], [from_vec]); their laws are hypotheses where they are used.  An
    error's text is cut before a figure it quotes.  [usize] is 64 bits wide. *)
From S2P Require Import Prelude Bytes ForwardTypes SeqCache RecurrentState KvStore PrefixSnapshot.
#[local] Open Scope Z_scope.

(** ** Block hashes *)

Record PrefixBlockEntry : Type := { pb_block_hash : bytes; pb_token_count : Z }.

Definition token_bytes (tokens : list Z) : bytes := concat (map (le_bytes 4) tokens).

Section hashes.
Context (blake3 : bytes -> bytes).

(** The loop over block [i] on, [n] blocks of [block_size] tokens. *)
Fixpoint hash_blocks (n i : nat) (prev : option bytes) (tokens : list Z) (block_size : nat) : list PrefixBlockEntry :=
  match n with
  | O => []
  | S n =>
      let h := blake3 (default [] prev ++ token_bytes (take block_size (drop (i * block_size) tokens))) in
      {| pb_block_hash := h; pb_token_count := Z.of_nat ((i + 1) * block_size) mod 2 ^ 32 |} ::
      hash_blocks n (S i) (Some h) tokens block_size
  end.

Definition compute_block_hashes (tokens : list Z) (block_size : nat) : list PrefixBlockEntry :=
  if (block_size =? 0)%nat then [] else hash_blocks (length tokens / block_size) 0 None tokens block_size.

Definition verify_token_hash_chain (tokens : list Z) (block_size expected_token_count : nat) (expected_hash : bytes) : bool :=
  if (block_size =? 0)%nat || (expected_token_count =? 0)%nat || (length tokens <? expected_token_count)%nat then false
  else if negb (expected_token_count mod block_size =? 0)%nat then false
  else
    match list.last (compute_block_hashes (take expected_token_count tokens) block_size) with
    | Some l => (pb_token_count l =? Z.of_nat expected_token_count) && bool_decide (pb_block_hash l = expected_hash)
    | None => false
    end.

(** ** The chain, from its definition *)

(** The hash after [k] blocks. *)
Fixpoint chain_hash (tokens : list Z) (block_size k : nat) : option bytes :=
  match k with
  | O => None
  | S k => Some (blake3 (default [] (chain_hash tokens block_size k) ++ token_bytes (take block_size (drop (k * block_size) tokens))))
  end.

Lemma hash_blocks_lookup n i tokens bs k : (k < n)%nat ->
  hash_blocks n i (chain_hash tokens bs i) tokens bs !! k =
  Some {| pb_block_hash := default [] (chain_hash tokens bs (S (i + k))); pb_token_count := Z.of_nat ((i + k + 1) * bs) mod 2 ^ 32 |}.
Proof.
  revert i k. induction n as [|n IH]; intros i k Hk; [lia|]. cbn [hash_blocks].
  change (Some (blake3 _)) with (chain_hash tokens bs (S i)). destruct k as [|k]; [by rewrite Nat.add_0_r|].
  cbn [lookup list_lookup]. rewrite IH by lia. by replace (S i + k)%nat with (i + S k)%nat by lia.
Qed.

Lemma hash_blocks_length n i prev tokens bs : length (hash_blocks n i prev tokens bs) = n.
Proof. revert i prev. induction n as [|n IH]; intros i prev; [done|]. cbn. by rewrite IH. Qed.

Lemma compute_block_hashes_length tokens bs : length (compute_block_hashes tokens bs) = if (bs =? 0)%nat then 0%nat else (length tokens / bs)%nat.
Proof. unfold compute_block_hashes. destruct (bs =? 0)%nat; [done|apply hash_blocks_length]. Qed.

Lemma compute_block_hashes_lookup tokens bs k b : compute_block_hashes tokens bs !! k = Some b ->
  (0 < bs)%nat /\ ((k + 1) * bs <= length tokens)%nat /\
  b = {| pb_block_hash := default [] (chain_hash tokens bs (S k)); pb_token_count := Z.of_nat ((k + 1) * bs) mod 2 ^ 32 |}.
Proof.
  unfold compute_block_hashes. destruct (Nat.eqb_spec bs 0) as [|Hbs]; [done|]. intros Hl.
  assert (Hk : (k < length tokens / bs)%nat) by (apply lookup_lt_Some in Hl; by rewrite hash_blocks_length in Hl).
  change None with (chain_hash tokens bs 0) in Hl. rewrite (hash_blocks_lookup _ 0 tokens bs k Hk) in Hl. simplify_eq. cbn [Nat.add]. split_and!; [lia| |done].
  pose proof (Nat.Div0.mul_div_le (length tokens) bs). nia.
Qed.

Lemma chain_hash_take tokens bs k n : (k * bs <= n)%nat -> chain_hash (take n tokens) bs k = chain_hash tokens bs k.
Proof.
  induction k as [|k IH]; intros Hn; [done|]. cbn [chain_hash]. rewrite IH by lia. do 4 f_equal.
  rewrite skipn_firstn_comm, take_take. f_equal. lia.
Qed.

(** The prefix property: block [k] is named by the first [k] blocks alone. *)
Lemma verify_iff tokens bs n h : verify_token_hash_chain tokens bs n h = true <->
  exists k, (0 < bs)%nat /\ n = ((k + 1) * bs)%nat /\ (n <= length tokens)%nat /\ Z.of_nat n < 2 ^ 32 /\ chain_hash tokens bs (S k) = Some h.
Proof.
  unfold verify_token_hash_chain. destruct (Nat.eqb_spec bs 0) as [->|Hbs]; [split; [done|intros (k & ? & _); lia]|].
  destruct (Nat.eqb_spec n 0) as [->|Hn]; [split; [done|intros (k & ? & ? & _); nia]|].
  destruct (Nat.ltb_spec (length tokens) n) as [|Hle]; [split; [done|intros (k & ? & ? & ? & _); lia]|]. cbn [orb].
  destruct (Nat.eqb_spec (n mod bs) 0) as [Hm|Hm]; cbn [negb].
  2: { split; [done|]. intros (k & _ & -> & _). destruct Hm. apply Nat.Div0.mod_mul. }
  apply Nat.Div0.mod_divides in Hm as [c ->]. destruct c as [|c]; [lia|].
  assert (Hlast : list.last (compute_block_hashes (take (bs * S c) tokens) bs) =
    Some {| pb_block_hash := default [] (chain_hash tokens bs (S c)); pb_token_count := Z.of_nat (bs * S c) mod 2 ^ 32 |}).
  { assert (Hdiv : (length (take (bs * S c) tokens) / bs)%nat = S c) by (rewrite length_take_le by lia; rewrite Nat.mul_comm; apply Nat.div_mul; lia).
    rewrite last_lookup, compute_block_hashes_length, (proj2 (Nat.eqb_neq _ _)), Hdiv by lia.
    unfold compute_block_hashes. rewrite (proj2 (Nat.eqb_neq _ _)), Hdiv by lia. cbn [Nat.pred].
    change None with (chain_hash (take (bs * S c) tokens) bs 0). rewrite (hash_blocks_lookup _ 0 (take (bs * S c) tokens) bs c) by lia. cbn [Nat.add]. rewrite chain_hash_take by lia.
    by replace ((c + 1) * bs)%nat with (bs * S c)%nat by lia. }
  rewrite Hlast. cbn [pb_token_count pb_block_hash]. rewrite andb_true_iff, Z.eqb_eq, bool_decide_eq_true. split.
  - intros [Hmod <-]. exists c. split_and!; [lia|lia|done| |done]. rewrite <- Hmod. apply Z.mod_pos_bound. lia.
  - intros (k & _ & Hk & _ & Hlt & Hc). assert (k = c) as -> by nia. split; [apply Z.mod_small; lia|]. by rewrite Hc.
Qed.
(** ** What a hash binds *)

Definition collision : Prop := exists a b, a <> b /\ blake3 a = blake3 b.
Hypothesis digest_length : forall x, length (blake3 x) = 32%nat.

Lemma token_bytes_length tokens : length (token_bytes tokens) = (length tokens * 4)%nat.
Proof. apply length_concat_le_bytes. Qed.

Lemma token_bytes_inj a b : Forall is_u32 a -> Forall is_u32 b -> token_bytes a = token_bytes b -> a = b.
Proof.
  intros Ha. revert b. induction Ha as [|x a Hx Ha IH]; intros b Hb E.
  - apply (f_equal length) in E. rewrite !token_bytes_length in E. by destruct b.
  - destruct Hb as [|y b Hy Hb]; [apply (f_equal length) in E; rewrite !token_bytes_length in E; cbn in E; lia|].
    unfold token_bytes in E. cbn [map concat] in E. apply app_inj_1 in E as [E1 E2]; [|by rewrite !length_le_bytes].
    f_equal; [|by apply IH]. unfold is_u32, u32_max in *. eapply (le_bytes_inj 4); [lia|lia|done].
Qed.

Lemma take_block bs k (tokens : list Z) : take (S k * bs) tokens = take (k * bs) tokens ++ take bs (drop (k * bs) tokens).
Proof. rewrite take_take_drop. f_equal. lia. Qed.

Lemma chain_hash_length t bs k : length (default [] (chain_hash t bs k)) = if (k =? 0)%nat then 0%nat else 32%nat.
Proof using digest_length. destruct k; cbn; [done|]. apply digest_length. Qed.

Lemma block_length t bs k : (S k * bs <= length t)%nat -> length (token_bytes (take bs (drop (k * bs) t))) = (bs * 4)%nat.
Proof. intros Hk. rewrite token_bytes_length, length_take, length_drop. lia. Qed.

(** One step: equal hashes are of equal blocks after equal chains. *)
Lemma chain_step t t' bs j k : (0 < bs)%nat -> Forall is_u32 t -> Forall is_u32 t' -> (S j * bs <= length t)%nat -> (S k * bs <= length t')%nat ->
  chain_hash t bs (S j) = chain_hash t' bs (S k) ->
  (chain_hash t bs j = chain_hash t' bs k /\ take bs (drop (j * bs) t) = take bs (drop (k * bs) t')) \/ collision.
Proof using digest_length.
  intros Hbs Ht Ht' Hj Hk E. cbn [chain_hash] in E. injection E as E.
  destruct (decide (default [] (chain_hash t bs j) ++ token_bytes (take bs (drop (j * bs) t)) =
      default [] (chain_hash t' bs k) ++ token_bytes (take bs (drop (k * bs) t')))) as [Ei|]; [left|by right; eexists _, _].
  pose proof (f_equal length Ei) as El. rewrite !length_app, !block_length, !chain_hash_length in El by done.
  apply app_inj_1 in Ei as [E1 E2]; [|rewrite !chain_hash_length; lia].
  apply token_bytes_inj in E2; [|by apply Forall_take, Forall_drop..]. split; [|done].
  destruct j as [|j], k as [|k]; cbn [Nat.eqb] in El; [done|lia|lia|]. cbn [chain_hash default] in *. by f_equal.
Qed.

Lemma chain_binds t t' bs j k : (0 < bs)%nat -> Forall is_u32 t -> Forall is_u32 t' -> (S j * bs <= length t)%nat -> (S k * bs <= length t')%nat ->
  chain_hash t bs (S j) = chain_hash t' bs (S k) -> (j = k /\ take (S k * bs) t = take (S k * bs) t') \/ collision.
Proof using digest_length.
  intros Hbs Ht Ht'. revert k. induction j as [|j IH]; intros k Hj Hk E;
    destruct (chain_step _ _ _ _ _ Hbs Ht Ht' Hj Hk E) as [[Ec Eb]|]; try (by right).
  - destruct k as [|k]; [|done]. left. split; [done|]. by rewrite !take_block, Eb.
  - destruct k as [|k]; [done|]. destruct (IH k ltac:(lia) ltac:(lia) Ec) as [[-> Et]|]; [left|by right]. split; [done|].
    by rewrite (take_block bs (S k) t), (take_block bs (S k) t'), Et, Eb.
Qed.

(** C16: a hash names its prompt: tokens a peer sends that verify, at this node's block
    size, against a block of this node's own prompt are that prompt's opening, as many of
    them as the block ends at - or two inputs with the same BLAKE3 digest are known. *)
Theorem verified_tokens_are_the_prompt prompt tokens bs n b : Forall is_u32 prompt -> Forall is_u32 tokens ->
  Z.of_nat (length prompt) < 2 ^ 32 -> b ∈ compute_block_hashes prompt bs ->
  verify_token_hash_chain tokens bs n (pb_block_hash b) = true ->
  (Z.of_nat n = pb_token_count b /\ take n tokens = take n prompt) \/ collision.
Proof using digest_length.
  intros Hp Ht Hlen Hb Hv. apply list_elem_of_lookup in Hb as [j Hb]. apply compute_block_hashes_lookup in Hb as (Hbs & Hj & ->).
  apply verify_iff in Hv as (k & _ & -> & Hn & Hlt & Hc). cbn [pb_block_hash pb_token_count] in *.
  assert (E : chain_hash tokens bs (S k) = chain_hash prompt bs (S j)) by (rewrite Hc; by cbn).
  destruct (chain_binds tokens prompt bs k j Hbs Ht Hp ltac:(lia) ltac:(lia) E) as [[-> Et]|]; [left|by right].
  split; [symmetry; apply Z.mod_small; lia|]. by replace ((j + 1) * bs)%nat with (S j * bs)%nat by lia.
Qed.

(** ** What it leaves open *)

(** A digest read as eight tokens. *)
Fixpoint words (n : nat) (d : bytes) : list Z := match n with O => [] | S n => le_val (take 4 d) :: words n (drop 4 d) end.

Lemma words_bytes n d : is_bytes d -> length d = (n * 4)%nat -> token_bytes (words n d) = d /\ length (words n d) = n /\ Forall is_u32 (words n d).
Proof.
  revert d. induction n as [|n IH]; intros d Hd Hl; [by destruct d|]. cbn [words].
  destruct (IH (drop 4 d)) as (IH1 & IH2 & IH3); [by apply Forall_drop|rewrite length_drop; lia|].
  assert (Ht : is_bytes (take 4 d)) by by apply Forall_take. assert (Hl4 : length (take 4 d) = 4%nat) by (rewrite length_take; lia). split_and!.
  - unfold token_bytes in *. cbn [map concat]. rewrite IH1. rewrite <- Hl4 at 1. rewrite (le_bytes_le_val _ Ht). apply take_drop.
  - cbn. by rewrite IH2.
  - constructor; [|done]. pose proof (le_val_range _ Ht). unfold blen in *. rewrite Hl4 in *. unfold is_u32, u32_max. lia.
Qed.

Hypothesis digest_bytes : forall x, is_bytes (blake3 x).

(** The hash of a block after the first is also the hash of one block eight tokens
    longer: the digest before it read as tokens, and its own tokens. *)
Definition stand_in (prompt : list Z) (bs k : nat) : list Z :=
  words 8 (default [] (chain_hash prompt bs k)) ++ take bs (drop (k * bs) prompt).

Lemma stand_in_verifies prompt bs k b : Forall is_u32 prompt -> (8 < bs)%nat -> Z.of_nat bs + 8 < 2 ^ 32 ->
  compute_block_hashes prompt bs !! S k = Some b ->
  let tokens := stand_in prompt bs (S k) in
  verify_token_hash_chain tokens (bs + 8) (bs + 8) (pb_block_hash b) = true /\ length tokens = (bs + 8)%nat /\
  Forall is_u32 tokens /\ (bs + 8 <> (S k + 1) * bs)%nat.
Proof using digest_length digest_bytes.
  intros Hp Hbs Hlt Hb tokens. apply compute_block_hashes_lookup in Hb as (_ & Hk & ->). cbn [pb_block_hash].
  destruct (words_bytes 8 (default [] (chain_hash prompt bs (S k)))) as (Hw & Hl & Hu); [apply digest_bytes|apply digest_length|].
  assert (Hlen : length tokens = (bs + 8)%nat) by (unfold tokens, stand_in; rewrite length_app, Hl, length_take, length_drop; lia).
  assert (Hall : Forall is_u32 tokens) by (apply Forall_app; split; [done|by apply Forall_take, Forall_drop]).
  split_and!; [|done|done|lia]. apply verify_iff. exists 0%nat. split_and!; [lia|lia|lia|lia|].
  assert (E : token_bytes tokens = default [] (chain_hash prompt bs (S k)) ++ token_bytes (take bs (drop (S k * bs) prompt))).
  { unfold tokens, stand_in. rewrite <- Hw at 2. unfold token_bytes. by rewrite map_app, concat_app. }
  cbn [chain_hash default]. rewrite Nat.mul_0_l, drop_0, take_ge by lia. cbn [app]. rewrite E. done.
Qed.
End hashes.

(** ** The wire format *)

(** What candle makes of a tensor's values: its shape and its f32s in order
    ([to_dtype(F32)], [contiguous], [flatten_all], [to_vec1]), and a tensor of both
    ([Tensor::from_vec]). *)
Class WireTensors `{Candle} : Type := {
  f32_of : Tensor -> option (list Z * list Z);
  from_vec : list Z -> list Z -> Device -> option Tensor }.

Record SnapshotLayerMeta : Type := { lm_k_shape : list Z; lm_v_shape : list Z; lm_k_count : Z }.
Record SnapshotHeader : Type := {
  sh_token_count : nat;
  sh_tokens : list Z;
  sh_dim : nat;
  sh_max_seq_len : nat;
  sh_block_size : option nat;
  sh_layers : list (option SnapshotLayerMeta) }.

Definition KV_SNAPSHOT_MAGIC : bytes := [83; 75; 86; 88].
Definition KV_SNAPSHOT_VERSION : Z := 1.

Definition checked_add (a b : Z) : option Z := if a + b <=? usize_max then Some (a + b) else None.
Definition checked_mul (a b : Z) : option Z := if a * b <=? usize_max then Some (a * b) else None.

(** [dims.iter().try_fold(1usize, |n, &d| n.checked_mul(d))] *)
Definition product (dims : list Z) : option Z := fold_left (fun n d => n ≫= fun n => checked_mul n d) dims (Some 1).

(** The bytes of a layer's keys and values, where they lie within the body. *)
Definition layer_sizes (meta : SnapshotLayerMeta) (cursor body_len : Z) : option (Z * Z * Z) :=
  v_count ← product (lm_v_shape meta);
  if decide (product (lm_k_shape meta) = Some (lm_k_count meta)) then
    k_bytes ← checked_mul (lm_k_count meta) 4;
    v_bytes ← checked_mul v_count 4;
    k_end ← checked_add cursor k_bytes;
    v_end ← checked_add k_end v_bytes;
    if v_end <=? body_len then Some (v_count, k_bytes, v_bytes) else None
  else None.

Section wire.
Context `{Candle, DeltaNet, !WireTensors}.
Context (to_json : SnapshotHeader -> option bytes) (from_json : bytes -> option SnapshotHeader).

(** One layer's part of the body, and what the header says of it. *)
Definition serialize_layer (kv_opt : option (Tensor * Tensor)) : outcome (option SnapshotLayerMeta * bytes) :=
  match kv_opt with
  | None => Ok (None, [])
  | Some (k, v) =>
      '(k_shape, k_vec) ← ok_or (f32_of k) (Internal "serialize_snapshot k");
      '(v_shape, v_vec) ← ok_or (f32_of v) (Internal "serialize_snapshot v");
      Ok (Some {| lm_k_shape := k_shape; lm_v_shape := v_shape; lm_k_count := blen k_vec |}, token_bytes k_vec ++ token_bytes v_vec)
  end.

Fixpoint serialize_layers (ls : list (option (Tensor * Tensor))) : outcome (list (option SnapshotLayerMeta) * bytes) :=
  match ls with
  | [] => Ok ([], [])
  | kv :: ls =>
      '(meta, body) ← serialize_layer kv;
      '(metas, rest) ← serialize_layers ls;
      Ok (meta :: metas, body ++ rest)
  end.

Definition serialize_snapshot_with_block_size (snap : KvSnapshot) (tokens : list Z) (block_size : option nat) : outcome bytes :=
  if (length tokens <? sn_token_count snap)%nat then Err (Internal "serialize_snapshot: tokens.len() < token_count")
  else if negb (holds_every_position snap)
  then Err (Internal "serialize_snapshot: a sliding-window layer of this snapshot no longer holds the prompt's opening")
  else if carries_recurrent_state snap
  then Err (Internal "serialize_snapshot: this snapshot carries a recurrent state, which the wire format does not")
  else
    '(metas, body) ← serialize_layers (sn_layers snap);
    header ← ok_or (to_json {| sh_token_count := sn_token_count snap; sh_tokens := take (sn_token_count snap) tokens; sh_dim := sn_dim snap;
                               sh_max_seq_len := sn_max_seq_len snap; sh_block_size := block_size; sh_layers := metas |}) (Internal "header: ");
    Ok (KV_SNAPSHOT_MAGIC ++ le_bytes 4 KV_SNAPSHOT_VERSION ++ le_bytes 8 (blen header) ++ header ++ body).

(** The layers, read from [cursor] on. *)
Fixpoint read_snapshot_layers (metas : list (option SnapshotLayerMeta)) (body : bytes) (cursor : Z) (device : Device)
  : outcome (list (option (Tensor * Tensor))) :=
  match metas with
  | [] => Ok []
  | None :: metas => ls ← read_snapshot_layers metas body cursor device; Ok (None :: ls)
  | Some meta :: metas =>
      '(v_count, k_bytes, v_bytes) ← ok_or (layer_sizes meta cursor (blen body)) (Internal "snapshot: body too short at layer");
      k_vec ← read_les 4 (Z.to_nat (lm_k_count meta)) (drop (Z.to_nat cursor) body);
      v_vec ← read_les 4 (Z.to_nat v_count) (drop (Z.to_nat (cursor + k_bytes)) body);
      k ← ok_or (from_vec k_vec (lm_k_shape meta) device) (Internal "snapshot k rebuild: ");
      v ← ok_or (from_vec v_vec (lm_v_shape meta) device) (Internal "snapshot v rebuild: ");
      ls ← read_snapshot_layers metas body (cursor + k_bytes + v_bytes) device;
      Ok (Some (k, v) :: ls)
  end.

Definition deserialize_snapshot_full (data : bytes) (device : Device) : outcome (KvSnapshot * list Z * option nat) :=
  if blen data <? 16 then Err (Internal "snapshot: frame too short")
  else
    magic ← slice data 0 4;
    if bool_decide (magic <> KV_SNAPSHOT_MAGIC) then Err (Internal "snapshot: magic mismatch")
    else
      version ← u32_at data 4;
      if negb (version =? KV_SNAPSHOT_VERSION) then Err (Internal "snapshot: unsupported version")
      else
        len ← u64_at data 8;
        header_end ← ok_or (stop ← checked_add len 16; if stop <=? blen data then Some stop else None) (Internal "snapshot: truncated header");
        text ← slice data 16 (Z.to_nat (header_end - 16));
        header ← ok_or (from_json text) (Internal "snapshot header decode: ");
        ls ← read_snapshot_layers (sh_layers header) (drop (Z.to_nat header_end) data) 0 device;
        Ok ({| sn_token_count := sh_token_count header; sn_layers := ls; sn_dim := sh_dim header; sn_max_seq_len := sh_max_seq_len header;
               sn_restore_to := []; sn_held_from := []; sn_serves_from := 0; sn_ssm := [] |}, sh_tokens header, sh_block_size header).

Definition deserialize_snapshot (data : bytes) (device : Device) : outcome (KvSnapshot * list Z) :=
  '(s, t, _) ← deserialize_snapshot_full data device; Ok (s, t).

Definition tensor_is_finite (t : Tensor) : bool :=
  match f32_of t with Some (_, vals) => forallb F32.is_finite vals | None => false end.
Definition snapshot_is_finite (s : KvSnapshot) : bool :=
  forallb (fun kv : Tensor * Tensor => tensor_is_finite kv.1 && tensor_is_finite kv.2) (omap id (sn_layers s)).

(** ** [verify_fetched_snapshot] *)

Inductive SnapshotVerdict : Type := VerdictOk | Reject (reason : string).

Context (blake3 : bytes -> bytes).
Definition verify_fetched_snapshot (cpu_device : Device) (data requested_hash : bytes) : call unit SnapshotVerdict :=
  match deserialize_snapshot_full data cpu_device with
  | Panic => Panic
  | Err _ => Ok (Reject "deserialize_failed")
  | Ok (snap, tokens, block_size_opt) =>
      let matched := match block_size_opt with
        | Some bs => verify_token_hash_chain blake3 tokens bs (sn_token_count snap) requested_hash
        | None => existsb (fun bs => verify_token_hash_chain blake3 tokens bs (sn_token_count snap) requested_hash) [32; 64; 128]%nat
        end in
      Ok (if negb matched then Reject "hash_chain_mismatch"
          else if negb (snapshot_is_finite snap) then Reject "non_finite_tensors"
          else VerdictOk)
  end.
End wire.

(** ** Reading any bytes *)

Lemma product_from_nonneg dims n p : Forall (Z.le 0) dims -> 0 <= n -> fold_left (fun n d => n ≫= fun n => checked_mul n d) dims (Some n) = Some p -> 0 <= p.
Proof.
  intros Hd. revert n. induction Hd as [|d dims Hx Hd IH]; intros n Hn E; cbn in E; [by simplify_eq|].
  unfold checked_mul at 2 in E. destruct (_ <=? _); [apply (IH (n * d)); [lia|done]|].
  exfalso. clear -E. induction dims; by auto.
Qed.

Lemma layer_sizes_spec meta cursor body_len v_count k_bytes v_bytes : Forall (Z.le 0) (lm_v_shape meta) -> 0 <= lm_k_count meta ->
  layer_sizes meta cursor body_len = Some (v_count, k_bytes, v_bytes) ->
  0 <= v_count /\ k_bytes = 4 * lm_k_count meta /\ v_bytes = 4 * v_count /\ cursor + k_bytes + v_bytes <= body_len /\
  product (lm_k_shape meta) = Some (lm_k_count meta) /\ product (lm_v_shape meta) = Some v_count.
Proof.
  intros Hv Hk. unfold layer_sizes, checked_mul, checked_add. destruct (product (lm_v_shape meta)) as [vc|] eqn:Ev; [|done]. cbn.
  pose proof (product_from_nonneg _ 1 vc Hv ltac:(lia) Ev). case_decide; [|done].
  destruct (Z.leb_spec (lm_k_count meta * 4) usize_max); cbn; [|done]. destruct (Z.leb_spec (vc * 4) usize_max); cbn; [|done].
  destruct (Z.leb_spec (cursor + lm_k_count meta * 4) usize_max); cbn; [|done]. destruct (Z.leb_spec (cursor + lm_k_count meta * 4 + vc * 4) usize_max); cbn; [|done].
  destruct (Z.leb_spec (cursor + lm_k_count meta * 4 + vc * 4) body_len); [|done]. intros [= <- <- <-]. split_and!; (done || lia).
Qed.

(** The sizes a header declares are [usize]s, as [serde] reads them. *)
Definition header_sized (h : SnapshotHeader) : Prop :=
  Forall (fun o => match o with Some m => Forall (Z.le 0) (lm_v_shape m) /\ 0 <= lm_k_count m | None => True end) (sh_layers h).

Lemma safe_ok_or {E A} (o : option A) (e : E) : safe (ok_or o e).
Proof. by destruct o. Qed.

Section reading.
Context `{Candle, DeltaNet, !WireTensors}.
Context (to_json : SnapshotHeader -> option bytes) (from_json : bytes -> option SnapshotHeader) (blake3 : bytes -> bytes).

Lemma read_layers_safe metas body cursor device :
  Forall (fun o => match o with Some m => Forall (Z.le 0) (lm_v_shape m) /\ 0 <= lm_k_count m | None => True end) metas ->
  0 <= cursor <= blen body -> safe (read_snapshot_layers metas body cursor device).
Proof.
  intros HF. revert cursor. induction HF as [|[meta|] metas Hm HF IH]; intros cursor Hc; cbn [read_snapshot_layers]; [done|..].
  2: { apply safe_bind; [by apply IH|by intros]. }
  destruct Hm as [Hv Hk]. apply safe_bind; [apply safe_ok_or|]. intros [[vc kb] vb] E.
  destruct (layer_sizes meta cursor (blen body)) as [x|] eqn:Es; [|done]. injection E as ->.
  apply layer_sizes_spec in Es as (Hvc & -> & -> & Hle & _); [|done..].
  apply safe_bind; [apply read_les_safe; rewrite blen_drop; lia|intros k_vec _].
  apply safe_bind; [apply read_les_safe; rewrite blen_drop; lia|intros v_vec _].
  apply safe_bind; [apply safe_ok_or|intros k _]. apply safe_bind; [apply safe_ok_or|intros v _].
  apply safe_bind; [apply IH; lia|by intros].
Qed.

Lemma deserialize_safe data device : (forall b h, from_json b = Some h -> header_sized h) -> is_bytes data ->
  safe (deserialize_snapshot_full from_json data device).
Proof.
  intros Hj Hd. unfold deserialize_snapshot_full. destruct (Z.ltb_spec (blen data) 16) as [|Hlen]; [done|].
  apply safe_bind; [apply slice_safe; lia|intros magic _]. case_bool_decide; [done|].
  apply safe_bind; [apply le_at_safe; lia|intros version _]. destruct (negb _); [done|].
  apply safe_bind; [apply le_at_safe; lia|intros len El].
  assert (Hl : 0 <= len).
  { unfold le_at in El. destruct (slice data 8 8) as [s| |] eqn:Es; cbn in El; simplify_eq. unfold slice in Es. destruct (_ <=? _)%nat; [|done]. simplify_eq.
    apply le_val_range. by apply Forall_take, Forall_drop. }
  apply safe_bind; [apply safe_ok_or|]. intros stop Hs. unfold checked_add in Hs. destruct (_ <=? usize_max); cbn in Hs; [|done].
  destruct (Z.leb_spec (len + 16) (blen data)); cbn in Hs; [|done]. simplify_eq.
  apply safe_bind; [apply slice_safe; lia|intros text _]. apply safe_bind; [apply safe_ok_or|intros h Hh].
  destruct (from_json text) as [h'|] eqn:Ej; cbn in Hh; simplify_eq.
  apply safe_bind; [|by intros]. apply read_layers_safe; [by eapply Hj|]. pose proof (blen_nonneg (drop (Z.to_nat (len + 16)) data)). lia.
Qed.

(** C39: no bytes a peer sends in place of a snapshot make its check panic: whatever sizes
    the header declares, every read is within the frame, and the answer is a verdict. *)
Theorem fetched_snapshot_never_panics device data hash : (forall b h, from_json b = Some h -> header_sized h) -> is_bytes data ->
  exists verdict, verify_fetched_snapshot from_json blake3 device data hash = Ok verdict.
Proof.
  intros Hj Hd. pose proof (deserialize_safe data device Hj Hd) as Hs. unfold verify_fetched_snapshot.
  destruct (deserialize_snapshot_full from_json data device) as [[[s t] b]|e|]; [by eexists|by eexists|done].
Qed.
End reading.

(** ** What is written is read back *)

Section roundtrip.
Context `{Candle, DeltaNet, !WireTensors}.
Context (to_json : SnapshotHeader -> option bytes) (from_json : bytes -> option SnapshotHeader) (blake3 : bytes -> bytes).

(** What is relied on of the crates: a tensor has as many f32s as its shape says, and is
    built from exactly those; a header is read as it was written. *)
Record wire_lawful : Prop := {
  wl_values : forall t shape vals, f32_of t = Some (shape, vals) -> product shape = Some (blen vals) /\ Forall is_u32 vals;
  wl_from_vec : forall vals shape d, product shape = Some (blen vals) -> Forall is_u32 vals -> exists t, from_vec vals shape d = Some t /\ f32_of t = Some (shape, vals);
  wl_json : forall h j, to_json h = Some j -> from_json j = Some h /\ is_bytes j }.
Hypothesis lawful : wire_lawful.

(** The same values, in f32. *)
Definition same_layer (a b : option (Tensor * Tensor)) : Prop :=
  match a, b with
  | None, None => True
  | Some (k, v), Some (k', v') => f32_of k = f32_of k' /\ f32_of v = f32_of v' /\ is_Some (f32_of k) /\ is_Some (f32_of v)
  | _, _ => False
  end.

Lemma token_bytes_blen vals : blen (token_bytes vals) = 4 * blen vals.
Proof. unfold blen. rewrite token_bytes_length. lia. Qed.

Lemma read_vec pre vals post : Forall is_u32 vals ->
  read_les 4 (Z.to_nat (blen vals)) (drop (Z.to_nat (blen pre)) (pre ++ token_bytes vals ++ post)) = Ok vals.
Proof.
  intros Hv. unfold blen. rewrite !Nat2Z.id, drop_app_length. apply read_les_encode.
  eapply list.Forall_impl; [exact Hv|]. unfold is_u32, u32_max. intros x Hx. cbn. lia.
Qed.

Lemma read_serialized ls metas body pre post d : serialize_layers ls = Ok (metas, body) -> blen (pre ++ body ++ post) <= usize_max ->
  exists ls', read_snapshot_layers metas (pre ++ body ++ post) (blen pre) d = Ok ls' /\ Forall2 same_layer ls ls'.
Proof using lawful.
  revert metas body pre. induction ls as [|kv ls IH]; intros metas body pre E Hb; cbn in E; [simplify_eq; by exists []|].
  destruct (serialize_layer kv) as [[meta part]| |] eqn:Ek; [|done..]. cbn in E.
  destruct (serialize_layers ls) as [[metas' rest]| |] eqn:El; [|done..]. cbn in E. simplify_eq.
  destruct kv as [[k v]|]; cbn in Ek.
  2: { simplify_eq. destruct (IH _ _ pre eq_refl Hb) as (ls' & Er & HF). exists (None :: ls'). cbn [app read_snapshot_layers]. by rewrite Er; split; [|constructor]. }
  destruct (f32_of k) as [[ks kvals]|] eqn:Fk; [|done]. destruct (f32_of v) as [[vs vvals]|] eqn:Fv; [|done]. cbn in Ek. simplify_eq.
  destruct (wl_values lawful _ _ _ Fk) as [Pk Uk]. destruct (wl_values lawful _ _ _ Fv) as [Pv Uv].
  destruct (wl_from_vec lawful kvals ks d Pk Uk) as (k' & Gk & Fk'). destruct (wl_from_vec lawful vvals vs d Pv Uv) as (v' & Gv & Fv').
  set (whole := pre ++ ((token_bytes kvals ++ token_bytes vvals) ++ rest) ++ post) in *.
  assert (Hlen : blen whole = blen pre + 4 * blen kvals + 4 * blen vvals + blen rest + blen post).
  { unfold whole. rewrite !blen_app, !token_bytes_blen. lia. }
  pose proof (blen_nonneg pre). pose proof (blen_nonneg kvals). pose proof (blen_nonneg vvals). pose proof (blen_nonneg rest). pose proof (blen_nonneg post).
  assert (Hs : layer_sizes {| lm_k_shape := ks; lm_v_shape := vs; lm_k_count := blen kvals |} (blen pre) (blen whole) =
    Some (blen vvals, 4 * blen kvals, 4 * blen vvals)).
  { unfold layer_sizes, checked_mul, checked_add. cbn [lm_v_shape lm_k_shape lm_k_count]. rewrite Pv. cbn. rewrite decide_True by done.
    rewrite (proj2 (Z.leb_le (blen kvals * 4) _)) by lia. cbn. rewrite (proj2 (Z.leb_le (blen vvals * 4) _)) by lia. cbn.
    rewrite (proj2 (Z.leb_le (blen pre + blen kvals * 4) _)) by lia. cbn. rewrite (proj2 (Z.leb_le (blen pre + blen kvals * 4 + blen vvals * 4) usize_max)) by lia. cbn.
    rewrite (proj2 (Z.leb_le _ (blen whole))) by lia. do 2 f_equal; [f_equal|]; lia. }
  cbn [read_snapshot_layers]. rewrite Hs. cbn [ok_or mbind outcome_bind lm_k_count lm_k_shape lm_v_shape].
  assert (Ek : whole = pre ++ token_bytes kvals ++ (token_bytes vvals ++ rest ++ post)) by (unfold whole; by rewrite <- !app_assoc).
  rewrite Ek, read_vec by done. cbn [mbind outcome_bind].
  replace (blen pre + 4 * blen kvals) with (blen (pre ++ token_bytes kvals)) by (rewrite blen_app, token_bytes_blen; lia).
  rewrite (app_assoc pre), read_vec by done. cbn [mbind outcome_bind]. rewrite Gk. cbn. rewrite Gv. cbn.
  replace (blen (pre ++ token_bytes kvals) + 4 * blen vvals) with (blen ((pre ++ token_bytes kvals) ++ token_bytes vvals))
    by (rewrite blen_app, token_bytes_blen; lia).
  destruct (IH _ _ ((pre ++ token_bytes kvals) ++ token_bytes vvals) eq_refl) as (ls' & Er & HF).
  { rewrite !blen_app, !token_bytes_blen. lia. }
  rewrite <- app_assoc in Er at 1. rewrite (app_assoc (pre ++ token_bytes kvals) (token_bytes vvals)) in Er |- *.
  rewrite <- !app_assoc in *. rewrite Er. cbn. eexists. split; [done|]. constructor; [|done]. cbn. rewrite Fk, Fv, Fk', Fv'. eauto.
Qed.
Lemma deserialize_framed h header body d ls : from_json header = Some h -> blen header + blen body + 16 <= usize_max ->
  read_snapshot_layers (sh_layers h) body 0 d = Ok ls ->
  deserialize_snapshot_full from_json (KV_SNAPSHOT_MAGIC ++ le_bytes 4 KV_SNAPSHOT_VERSION ++ le_bytes 8 (blen header) ++ header ++ body) d =
  Ok ({| sn_token_count := sh_token_count h; sn_layers := ls; sn_dim := sh_dim h; sn_max_seq_len := sh_max_seq_len h;
         sn_restore_to := []; sn_held_from := []; sn_serves_from := 0; sn_ssm := [] |}, sh_tokens h, sh_block_size h).
Proof.
  intros Hj Hlen Hr. pose proof (blen_nonneg header). pose proof (blen_nonneg body).
  set (data := KV_SNAPSHOT_MAGIC ++ _).
  assert (Hd : blen data = 16 + blen header + blen body).
  { unfold data. rewrite !blen_app. unfold blen at 1 2 3. rewrite !length_le_bytes. cbn. lia. }
  unfold deserialize_snapshot_full. destruct (Z.ltb_spec (blen data) 16); [lia|].
  assert (Hm : slice data 0 4 = Ok KV_SNAPSHOT_MAGIC) by (apply (slice_prefix KV_SNAPSHOT_MAGIC)).
  rewrite Hm. cbn [mbind outcome_bind]. rewrite bool_decide_eq_false_2 by (intros Hn; by apply Hn).
  assert (Hv : u32_at data 4 = Ok KV_SNAPSHOT_VERSION).
  { unfold data. etransitivity; [exact (le_at_skip 4 KV_SNAPSHOT_MAGIC _ 0)|]. apply le_at_head. cbn. unfold KV_SNAPSHOT_VERSION. lia. }
  rewrite Hv. cbn [mbind outcome_bind]. rewrite Z.eqb_refl. cbn [negb].
  assert (Hl : u64_at data 8 = Ok (blen header)).
  { unfold data. rewrite (app_assoc KV_SNAPSHOT_MAGIC).
    etransitivity; [exact (le_at_skip 8 (KV_SNAPSHOT_MAGIC ++ le_bytes 4 KV_SNAPSHOT_VERSION) _ 0)|]. apply le_at_head.
    unfold usize_max, u64_max in *. cbn. lia. }
  rewrite Hl. cbn [mbind outcome_bind]. unfold checked_add. rewrite (proj2 (Z.leb_le (blen header + 16) usize_max)) by lia. cbn [mbind option_bind].
  rewrite (proj2 (Z.leb_le (blen header + 16) (blen data))) by lia. cbn [ok_or mbind outcome_bind].
  assert (Hpre : data = (KV_SNAPSHOT_MAGIC ++ le_bytes 4 KV_SNAPSHOT_VERSION ++ le_bytes 8 (blen header)) ++ header ++ body) by (unfold data; by rewrite <- !app_assoc).
  assert (Ht : slice data 16 (Z.to_nat (blen header + 16 - 16)) = Ok header).
  { replace (Z.to_nat (blen header + 16 - 16)) with (length header) by (unfold blen; lia). rewrite Hpre.
    etransitivity; [exact (slice_skip (KV_SNAPSHOT_MAGIC ++ le_bytes 4 KV_SNAPSHOT_VERSION ++ le_bytes 8 (blen header)) _ 0 _)|]. apply slice_prefix. }
  rewrite Ht. cbn [mbind outcome_bind]. rewrite Hj. cbn [ok_or mbind outcome_bind].
  assert (Hb : drop (Z.to_nat (blen header + 16)) data = body).
  { rewrite Hpre, app_assoc. apply drop_app_length'. rewrite length_app. unfold blen. cbn. lia. }
  rewrite Hb, Hr. done.
Qed.

Lemma deserialize_serialized snap tokens bs data d :
  serialize_snapshot_with_block_size to_json snap tokens bs = Ok data -> blen data <= usize_max ->
  exists snap', deserialize_snapshot_full from_json data d = Ok (snap', take (sn_token_count snap) tokens, bs) /\
    sn_token_count snap' = sn_token_count snap /\ sn_dim snap' = sn_dim snap /\ sn_serves_from snap' = 0%nat /\
    Forall2 same_layer (sn_layers snap) (sn_layers snap').
Proof using lawful.
  unfold serialize_snapshot_with_block_size. destruct (_ <? _)%nat; [done|]. destruct (negb _); [done|]. destruct (carries_recurrent_state snap); [done|].
  destruct (serialize_layers (sn_layers snap)) as [[metas body]| |] eqn:El; [|done..]. cbn [mbind outcome_bind].
  destruct (to_json _) as [header|] eqn:Ej; [|done]. cbn [ok_or mbind outcome_bind]. intros E Hlen.
  assert (data = KV_SNAPSHOT_MAGIC ++ le_bytes 4 KV_SNAPSHOT_VERSION ++ le_bytes 8 (blen header) ++ header ++ body) as -> by congruence. clear E.
  rewrite !blen_app in Hlen. unfold blen in Hlen at 1 2 3. rewrite !length_le_bytes in Hlen. cbn [length KV_SNAPSHOT_MAGIC] in Hlen.
  destruct (wl_json lawful _ _ Ej) as [Hj _]. pose proof (blen_nonneg header).
  destruct (read_serialized _ _ _ [] [] d El) as (ls' & Er & HF); [cbn; rewrite app_nil_r; lia|]. cbn in Er. rewrite app_nil_r in Er.
  assert (Hfit : blen header + blen body + 16 <= usize_max) by lia. rewrite (deserialize_framed _ _ _ _ _ Hj Hfit Er). eexists. split; [done|]. done.
Qed.

Lemma same_layer_finite ls ls' : Forall2 same_layer ls ls' ->
  forallb (fun kv : Tensor * Tensor => tensor_is_finite kv.1 && tensor_is_finite kv.2) (omap id ls') =
  forallb (fun kv : Tensor * Tensor => tensor_is_finite kv.1 && tensor_is_finite kv.2) (omap id ls).
Proof.
  induction 1 as [|[[k v]|] [[k' v']|] ls ls' Hs _ IH]; try done. destruct Hs as (Hk & Hv & _).
  change (omap id (Some (k, v) :: ls)) with ((k, v) :: omap id ls). change (omap id (Some (k', v') :: ls')) with ((k', v') :: omap id ls').
  cbn [forallb fst snd]. rewrite IH. unfold tensor_is_finite. by rewrite Hk, Hv.
Qed.

Lemma verify_opening tokens bs n h : verify_token_hash_chain blake3 (take n tokens) bs n h = verify_token_hash_chain blake3 tokens bs n h.
Proof.
  apply eq_true_iff_eq. rewrite !verify_iff. rewrite length_take.
  split; intros (k & Hbs & Hn & Hl & Hlt & Hc); exists k; (rewrite chain_hash_take in * by lia); split_and!; (done || lia).
Qed.

(** A well-formed snapshot of the tokens asked for is accepted. *)
Lemma sent_snapshot_is_accepted snap tokens bs data d h :
  serialize_snapshot_with_block_size to_json snap tokens (Some bs) = Ok data -> blen data <= usize_max ->
  verify_token_hash_chain blake3 tokens bs (sn_token_count snap) h = true -> snapshot_is_finite snap = true ->
  verify_fetched_snapshot from_json blake3 d data h = Ok VerdictOk.
Proof using lawful.
  intros E Hlen Hv Hf. destruct (deserialize_serialized _ _ _ _ d E Hlen) as (snap' & Ed & Htc & _ & _ & HF).
  unfold verify_fetched_snapshot. rewrite Ed, Htc, verify_opening, Hv. cbn [negb]. unfold snapshot_is_finite in *.
  by rewrite (same_layer_finite _ _ HF), Hf.
Qed.

(** C17: a snapshot sent to a peer arrives: its layers with the same f32 values and shapes,
    its tokens and its block size, ready to be restored at any shorter length; and the
    peer's check accepts it for the block its tokens end at, where its values are finite. *)
Theorem snapshot_survives_the_wire snap tokens bs data d h :
  serialize_snapshot_with_block_size to_json snap tokens (Some bs) = Ok data -> blen data <= usize_max ->
  (exists snap', deserialize_snapshot_full from_json data d = Ok (snap', take (sn_token_count snap) tokens, Some bs) /\
    sn_token_count snap' = sn_token_count snap /\ sn_dim snap' = sn_dim snap /\ sn_serves_from snap' = 0%nat /\
    Forall2 same_layer (sn_layers snap) (sn_layers snap')) /\
  (verify_token_hash_chain blake3 tokens bs (sn_token_count snap) h = true -> snapshot_is_finite snap = true ->
   verify_fetched_snapshot from_json blake3 d data h = Ok VerdictOk).
Proof using lawful.
  intros E Hlen. split; [by apply deserialize_serialized|]. intros. by eapply sent_snapshot_is_accepted.
Qed.

(** C40: the check of a fetched snapshot hashes at the block size its sender names, which
    the hash does not bind: for every block of every prompt after the first, a snapshot
    of anything, of another length, is accepted as that block's when it is sent with the
    digest before the block, read as eight tokens, and the block's own tokens, named one
    block of eight tokens more - with no collision of BLAKE3. *)
Theorem stand_in_is_accepted prompt bs k b snap data d : (forall x, length (blake3 x) = 32%nat) -> (forall x, is_bytes (blake3 x)) ->
  Forall is_u32 prompt -> (8 < bs)%nat -> Z.of_nat bs + 8 < 2 ^ 32 -> compute_block_hashes blake3 prompt bs !! S k = Some b ->
  sn_token_count snap = (bs + 8)%nat -> snapshot_is_finite snap = true ->
  serialize_snapshot_with_block_size to_json snap (stand_in blake3 prompt bs (S k)) (Some (bs + 8)%nat) = Ok data -> blen data <= usize_max ->
  verify_fetched_snapshot from_json blake3 d data (pb_block_hash b) = Ok VerdictOk.
Proof using lawful.
  intros Hl Hb Hp Hbs Hlt Hk Htc Hf E Hlen. eapply sent_snapshot_is_accepted; try done. rewrite Htc.
  by apply (stand_in_verifies blake3 Hl Hb prompt bs k b).
Qed.
End roundtrip.

(** ** A worked example

    Tensors that keep their shape and values, a checksum for a digest, and a header
    written as one byte. *)

#[global] Instance layer_meta_eq_dec : EqDecision SnapshotLayerMeta.
Proof. solve_decision. Defined.
#[global] Instance header_eq_dec : EqDecision SnapshotHeader.
Proof. solve_decision. Defined.

Definition wire_candle : Candle := {|
  Row := list Z * list Z; DType := bool; dtype_eq_dec := _; F16 := true; F32 := false; f16_not_f32 := ltac:(done);
  size_in_bytes d := if d then 2 else 4; to_row_dtype _ r := r; zero_row _ := ([], []); Device := unit; is_cuda _ := false |}.
#[local] Existing Instances wire_candle toy_net.

Definition wire_tensor (shape vals : list Z) : Tensor := {| t_dtype := F32; t_device := tt; t_elems := 1; t_rows := [(shape, vals)] |}.
#[local] Instance wire_tensors : WireTensors := {|
  f32_of t := match t_rows t with
    | [(shape, vals)] => if decide (product shape = Some (blen vals) /\ Forall is_u32 vals) then Some (shape, vals) else None
    | _ => None end;
  from_vec vals shape _ := if decide (product shape = Some (blen vals)) then Some (wire_tensor shape vals) else None |}.

Definition checksum (x : bytes) : bytes := replicate 32 (sum_list x mod 256).
Lemma checksum_length x : length (checksum x) = 32%nat.
Proof. apply length_replicate. Qed.
Lemma checksum_bytes x : is_bytes (checksum x).
Proof. apply Forall_replicate. unfold is_byte. apply Z.mod_pos_bound. lia. Qed.

Definition to_one_byte (h0 h : SnapshotHeader) : option bytes := if decide (h = h0) then Some [1] else None.
Definition from_one_byte (h0 : SnapshotHeader) (b : bytes) : option SnapshotHeader := if decide (b = [1]) then Some h0 else None.

Definition wire_cpu : @Device wire_candle := tt.
Definition sent_prompt : list Z := seqZ 0 18.
Definition sent_layer : option (Tensor * Tensor) := Some (wire_tensor [1; 2] [7; 8], wire_tensor [2] [9; 10]).
Definition sent_snapshot (n : nat) : KvSnapshot :=
  {| sn_token_count := n; sn_layers := [sent_layer; None]; sn_dim := 2; sn_max_seq_len := 64; sn_restore_to := []; sn_held_from := [0%nat; 0%nat];
     sn_serves_from := 0; sn_ssm := [] |}.
Definition sent_header (n bs : nat) (tokens : list Z) : SnapshotHeader :=
  {| sh_token_count := n; sh_tokens := take n tokens; sh_dim := 2; sh_max_seq_len := 64; sh_block_size := Some bs;
     sh_layers := [Some {| lm_k_shape := [1; 2]; lm_v_shape := [2]; lm_k_count := 2 |}; None] |}.
Definition sent (n bs : nat) (tokens : list Z) : outcome bytes :=
  serialize_snapshot_with_block_size (to_one_byte (sent_header n bs tokens)) (sent_snapshot n) tokens (Some bs).

Lemma one_byte_lawful h0 : wire_lawful (to_one_byte h0) (from_one_byte h0).
Proof.
  split.
  - intros t shape vals. cbn. destruct (t_rows t) as [|[sh vs] [|]]; [done| |done]. case_decide as Hd; [|done]. by intros [= <- <-].
  - intros vals shape d Hp Hu. cbn. rewrite decide_True by done. eexists. split; [done|]. cbn. by rewrite decide_True.
  - intros h j. unfold to_one_byte, from_one_byte. case_decide as Hd; [|done]. intros [= <-]. subst. rewrite decide_True by done. split; [done|].
    by repeat constructor.
Qed.

Lemma words_range (l : list Z) : forallb (fun x => (0 <=? x) && (x <=? u32_max)) l = true -> Forall is_u32 l.
Proof.
  intros Hl. apply list.Forall_forall. intros x Hx. apply list_elem_of_In in Hx. rewrite forallb_forall in Hl. specialize (Hl x Hx).
  apply andb_true_iff in Hl as [H1%Z.leb_le H2%Z.leb_le]. done.
Qed.

Lemma verified_tokens_are_the_prompt_witness : exists b, compute_block_hashes checksum sent_prompt 9 !! 1%nat = Some b /\
  ((Z.of_nat 18 = pb_token_count b /\ take 18 sent_prompt = take 18 sent_prompt) \/ collision checksum).
Proof.
  eexists. split; [vm_compute; reflexivity|]. apply (verified_tokens_are_the_prompt checksum checksum_length sent_prompt sent_prompt 9 18).
  - by apply words_range.
  - by apply words_range.
  - by vm_compute.
  - apply list_elem_of_lookup. exists 1%nat. by vm_compute.
  - by vm_compute.
Defined.

Lemma fetched_snapshot_never_panics_witness :
  verify_fetched_snapshot (from_one_byte (sent_header 18 9 sent_prompt)) checksum wire_cpu (KV_SNAPSHOT_MAGIC ++ [1; 0; 0; 0; 1; 0; 0; 0; 0; 0; 0; 0; 1; 5]) []
  = Ok (Reject "deserialize_failed").
Proof.
  destruct (fetched_snapshot_never_panics (from_one_byte (sent_header 18 9 sent_prompt)) checksum wire_cpu
    (KV_SNAPSHOT_MAGIC ++ [1; 0; 0; 0; 1; 0; 0; 0; 0; 0; 0; 0; 1; 5]) []) as [v Hv].
  - intros b h. unfold from_one_byte. case_decide; [|done]. intros [= <-]. repeat constructor; cbn; lia.
  - repeat constructor; lia.
  - rewrite Hv. vm_compute in Hv. by rewrite <- Hv.
Defined.

Lemma snapshot_survives_the_wire_witness : exists data, sent 18 9 sent_prompt = Ok data /\
  verify_fetched_snapshot (from_one_byte (sent_header 18 9 sent_prompt)) checksum wire_cpu data (checksum (checksum (token_bytes (seqZ 0 9)) ++ token_bytes (seqZ 9 9))) = Ok VerdictOk.
Proof.
  assert (Hs : exists data, sent 18 9 sent_prompt = Ok data) by (eexists; vm_compute; reflexivity). destruct Hs as [data Hs]. exists data. split; [done|].
  assert (Hlen : match sent 18 9 sent_prompt with Ok data => (blen data <=? usize_max) = true | _ => False end) by (vm_compute; reflexivity).
  rewrite Hs in Hlen. apply Z.leb_le in Hlen.
  refine (proj2 (snapshot_survives_the_wire _ _ checksum (one_byte_lawful (sent_header 18 9 sent_prompt)) (sent_snapshot 18) sent_prompt 9 data wire_cpu _ Hs Hlen) _ _);
    vm_compute; reflexivity.
Defined.

Lemma stand_in_is_accepted_witness : exists b data, compute_block_hashes checksum sent_prompt 9 !! 1%nat = Some b /\
  pb_token_count b = 18 /\ sent 17 17 (stand_in checksum sent_prompt 9 1) = Ok data /\
  verify_fetched_snapshot (from_one_byte (sent_header 17 17 (stand_in checksum sent_prompt 9 1))) checksum wire_cpu data (pb_block_hash b) = Ok VerdictOk.
Proof.
  assert (Hs : exists data, sent 17 17 (stand_in checksum sent_prompt 9 1) = Ok data) by (eexists; vm_compute; reflexivity). destruct Hs as [data Hs].
  assert (Hlen : match sent 17 17 (stand_in checksum sent_prompt 9 1) with Ok data => (blen data <=? usize_max) = true | _ => False end) by (vm_compute; reflexivity).
  rewrite Hs in Hlen. apply Z.leb_le in Hlen.
  assert (Hb : exists b, compute_block_hashes checksum sent_prompt 9 !! 1%nat = Some b) by (eexists; vm_compute; reflexivity). destruct Hb as [b Hb].
  exists b, data. split_and!; [done| |done|].
  - apply compute_block_hashes_lookup in Hb as (_ & _ & ->). done.
  - refine (stand_in_is_accepted _ _ checksum (one_byte_lawful _) sent_prompt 9 0 b (sent_snapshot 17) data wire_cpu checksum_length checksum_bytes _ _ _ Hb _ _ Hs Hlen);
      [by apply words_range|lia|lia|done|by vm_compute].
Defined.
