(* ===== verification/PrefixCache.v ===== *)
(** * The prefix cache ([src/inference/split/prefix_cache.rs])

    [PrefixCache], the saved prompts of a worker: finding the longest opening of a new
    prompt that is saved, saving a prompt once it is read, letting go of what a save
    replaces and of what the caps or another memory's budget ask for, serving a block to
    a peer, and the entries of a split's segment, which are keyed by the coordinator's
    block keys instead of tokens.

    One call runs at a time: each takes the lock for its own sections and the passes that
    catch an entry that raced in are kept.  No lock is poisoned.  The clock counts in Z.
    Ticks are drawn once, so the order in which a [HashMap] is walked decides nothing.
    What a save asks of the worker's planner is an argument, [room], as is the old order
    of eviction ([after_copy], an environment variable). *)
From Stdlib Require Import Sorting.Sorted.
From S2P Require Import Prelude Bytes SeqCache LayerCache RecurrentState KvBudget KvStore PrefixSnapshot SnapshotWire.
#[local] Open Scope Z_scope.

(** ** Rooms and entries *)

Record SnapshotRoom : Type := { sr_home : SnapshotHome; sr_max_positions : Z; sr_evict_bytes : Z }.
Record LetGo : Type := { lg_beside_live : Z; lg_host_ram : Z }.
Definition in_home (l : LetGo) (home : SnapshotHome) : Z := match home with BesideLive => lg_beside_live l | HostRam => lg_host_ram l end.

Inductive KeepAsked : Type := Unasked | OnThisComputer.
#[global] Instance keep_asked_eq_dec : EqDecision KeepAsked.
Proof. solve_decision. Defined.

Record Entry `{Candle, DeltaNet} : Type := {
  en_tokens : list Z;
  en_chain : list bytes;
  en_chain_block : Z;
  en_snapshot : KvSnapshot;
  en_last_hit : Z;
  en_kept_here : bool }.
Arguments Build_Entry {_ _} _ _ _ _ _ _.

Record RoomMade : Type := { rm_replaced : nat; rm_evicted : nat; rm_replaced_kept_here : bool }.

Record PrefixCache `{Candle, DeltaNet} : Type := {
  per_model : gmap bytes (list Entry);
  pc_clock : Z;
  pc_max_entries : nat;
  pc_max_bytes : Z;
  pc_min_tokens : nat;
  pc_max_prompt_tokens : nat;
  pc_block_tokens : nat;
  pc_enabled : bool }.
Arguments Build_PrefixCache {_ _} _ _ _ _ _ _ _ _.

Definition is_prefix {A} `{EqDecision A} (short long : list A) : bool := bool_decide (short `prefix_of` long).

Section entries.
Context `{Candle, DeltaNet, !SsmTensors, !Devices}.
Context (blake3 : bytes -> bytes).

Definition let_go_of (entries : list Entry) : LetGo :=
  fold_left (fun sum e =>
    {| lg_beside_live := lg_beside_live sum + snapshot_bytes_in (en_snapshot e) BesideLive;
       lg_host_ram := lg_host_ram sum + snapshot_bytes_in (en_snapshot e) HostRam |}) entries {| lg_beside_live := 0; lg_host_ram := 0 |}.

Definition covers_tokens (tokens : list Z) (at_ : nat) (e : Entry) : bool :=
  is_prefix tokens (en_tokens e) && (sn_serves_from (en_snapshot e) <=? at_)%nat.
Definition replaced_by_tokens (tokens : list Z) (serves : nat) (e : Entry) : bool :=
  bool_decide (en_chain e = []) && is_prefix (en_tokens e) tokens && (serves <=? length (en_tokens e))%nat.
Definition covers_chain (chain : list bytes) (block_tokens : Z) (positions : nat) (e : Entry) : bool :=
  (en_chain_block e =? block_tokens) && is_prefix chain (en_chain e) &&
  (positions <=? sn_token_count (en_snapshot e))%nat && (sn_serves_from (en_snapshot e) <=? positions)%nat.
Definition replaced_by_chain (chain : list bytes) (block_tokens : Z) (serves : nat) (e : Entry) : bool :=
  bool_decide (en_chain e <> []) && (en_chain_block e =? block_tokens) && is_prefix (en_chain e) chain &&
  (serves <=? sn_token_count (en_snapshot e))%nat.

Definition manifest (block_size : nat) (e : Entry) : list PrefixBlockEntry :=
  if en_kept_here e || negb (holds_every_position (en_snapshot e)) || carries_recurrent_state (en_snapshot e) then []
  else compute_block_hashes blake3 (en_tokens e) block_size.

(** The union of the entries' blocks, each once. *)
Definition manifest_add (out : list PrefixBlockEntry) (b : PrefixBlockEntry) : list PrefixBlockEntry :=
  if existsb (fun b' => bool_decide (pb_block_hash b' = pb_block_hash b)) out then out else out ++ [b].
Definition enumerate_manifest_locked (bucket : list Entry) (block_size : nat) : list PrefixBlockEntry :=
  if (block_size =? 0)%nat || bool_decide (bucket = []) then []
  else fold_left manifest_add (flat_map (manifest block_size) bucket) [].

(** ** The cache *)

Definition prefix_cache_new (enabled : bool) (max_entries block_tokens min_tokens max_prompt_tokens : nat) (max_bytes : Z) : PrefixCache :=
  {| per_model := ∅; pc_clock := 0; pc_max_entries := max_entries; pc_max_bytes := max_bytes; pc_min_tokens := min_tokens;
     pc_max_prompt_tokens := max_prompt_tokens; pc_block_tokens := block_tokens; pc_enabled := enabled |}.

Definition with_models (m : gmap bytes (list Entry)) (clock : Z) (c : PrefixCache) : PrefixCache :=
  {| per_model := m; pc_clock := clock; pc_max_entries := pc_max_entries c; pc_max_bytes := pc_max_bytes c; pc_min_tokens := pc_min_tokens c;
     pc_max_prompt_tokens := pc_max_prompt_tokens c; pc_block_tokens := pc_block_tokens c; pc_enabled := pc_enabled c |}.

Definition bucket_of (c : PrefixCache) (model_key : bytes) : list Entry := default [] (per_model c !! model_key).

(** [winner.last_hit.store(self.next_tick())]. *)
Definition hit_entry (tick : Z) (e : Entry) : Entry :=
  {| en_tokens := en_tokens e; en_chain := en_chain e; en_chain_block := en_chain_block e; en_snapshot := en_snapshot e;
     en_last_hit := tick; en_kept_here := en_kept_here e |}.
Definition mark_hit (model_key : bytes) (i : nat) (c : PrefixCache) : PrefixCache :=
  let tick := pc_clock c + 1 in
  with_models (alter (alter (hit_entry tick) i) model_key (per_model c)) tick c.

Definition positions_ceiling (c : PrefixCache) (cost : SnapshotCost) : Z :=
  let by_tokens := if (pc_max_prompt_tokens c =? 0)%nat then usize_max else Z.of_nat (pc_max_prompt_tokens c) in
  let by_bytes := if (pc_max_bytes c =? 0) || (co_per_position cost =? 0) then usize_max
                  else u64_saturating_add (pc_max_bytes c) (co_slid_away cost) / co_per_position cost in
  Z.min by_tokens by_bytes.

(** A count of positions under a ceiling that may be [usize::MAX]. *)
Definition at_most (n : nat) (ceiling : Z) : nat := Z.to_nat (Z.min (Z.of_nat n) ceiling).

(** ** [lookup] *)

Fixpoint shared_tokens (a b : list Z) : nat :=
  match a, b with
  | x :: a, y :: b => if x =? y then S (shared_tokens a b) else 0%nat
  | _, _ => 0%nat
  end.

Definition usable_prefix (input : list Z) (e : Entry) : nat := Nat.min (shared_tokens (en_tokens e) input) (length input - 1).

(** The entry, by its place, and how much of it is used. *)
Definition better_entry (min_tokens : nat) (input : list Z) (best : option (nat * nat)) (ie : nat * Entry) : option (nat * nat) :=
  let usable := usable_prefix input ie.2 in
  if (usable <? min_tokens)%nat || (usable <? sn_serves_from (en_snapshot ie.2))%nat then best
  else match best with
       | None => Some (ie.1, usable)
       | Some (_, cur) => if (cur <? usable)%nat then Some (ie.1, usable) else best
       end.
Definition best_entry (min_tokens : nat) (input : list Z) (bucket : list Entry) : option (nat * nat) :=
  fold_left (better_entry min_tokens input) (zip (seq 0 (length bucket)) bucket) None.

Definition lookup_prefix (model_key : bytes) (input : list Z) (c : PrefixCache) (answers : list bool)
  : option KvSnapshot * PrefixCache * list bool :=
  if negb (pc_enabled c) || (length input <? pc_min_tokens c)%nat then (None, c, answers)
  else
    let bucket := bucket_of c model_key in
    match best_entry (pc_min_tokens c) input bucket with
    | None => (None, c, answers)
    | Some (i, usable) =>
        match bucket !! i with
        | None => (None, c, answers)
        | Some winner =>
            let c := mark_hit model_key i c in
            let full := en_snapshot winner in
            if (usable =? sn_token_count full)%nat then (Some full, c, answers)
            else let '(s, answers) := narrow_snapshot full usable answers in (s, c, answers)
        end
    end.

Definition lookup_chain (model_key : bytes) (block_tokens : Z) (keys : list bytes) (want : nat) (c : PrefixCache) (answers : list bool)
  : option KvSnapshot * PrefixCache * list bool :=
  let bt := Z.to_nat block_tokens in
  if negb (pc_enabled c) || (bt =? 0)%nat || (want =? 0)%nat || negb (want mod bt =? 0)%nat then (None, c, answers)
  else if (length keys <? want / bt)%nat then (None, c, answers)
  else
    let wanted := take (want / bt) keys in
    match list_find (fun e => covers_chain wanted block_tokens want e = true) (bucket_of c model_key) with
    | None => (None, c, answers)
    | Some (i, winner) =>
        let c := mark_hit model_key i c in
        let full := en_snapshot winner in
        if (sn_token_count full =? want)%nat then (Some full, c, answers)
        else let '(s, answers) := narrow_snapshot full want answers in (s, c, answers)
    end.

(** ** What a request's cache holds *)

Record HeldCache : Type := {
  hc_dim : nat;
  hc_max_seq_len : nat;
  hc_positions : nat;
  hc_cost : SnapshotCost;
  hc_serves : nat;
  hc_recurrent_at : list nat }.

Definition held_positions (ls : list (option LayerKv)) : nat :=
  match omap id ls with kv :: _ => lk_current_seq_len kv | [] => 0%nat end.

Definition held_read (st : KvCacheStore) (key : bytes) : option HeldCache :=
  match caches st !! key with
  | None => None
  | Some e =>
      match omap id (layers e) with
      | [] => None
      | first_kv :: _ =>
          Some {| hc_dim := sc_dim (kp_k (lk_main first_kv)); hc_max_seq_len := sc_max_seq_len (kp_k (lk_main first_kv));
                  hc_positions := lk_current_seq_len first_kv; hc_cost := snapshot_cost (layers e); hc_serves := serves_from (layers e);
                  hc_recurrent_at := map positions (omap id (ssm_states e)) |}
      end
  end.

Definition serves_once_saved (h : HeldCache) (at_ : nat) : nat := if decide (hc_recurrent_at h = []) then hc_serves h else at_.

(** ** Covered, let go *)

Definition covered_by_tokens (model_key : bytes) (tokens : list Z) (at_ : nat) (c : PrefixCache) : option (list PrefixBlockEntry * PrefixCache) :=
  match list_find (fun e => covers_tokens tokens at_ e = true) (bucket_of c model_key) with
  | None => None
  | Some (i, _) =>
      let c := mark_hit model_key i c in
      Some (enumerate_manifest_locked (bucket_of c model_key) (pc_block_tokens c), c)
  end.

Definition covered_by_chain (model_key : bytes) (chain : list bytes) (block_tokens : Z) (positions : nat) (c : PrefixCache)
  : option (Z * PrefixCache) :=
  match list_find (fun e => covers_chain chain block_tokens positions e = true) (bucket_of c model_key) with
  | None => None
  | Some (i, _) => Some (blen chain, mark_hit model_key i c)
  end.

Definition let_go (model_key : bytes) (replaced : Entry -> bool) (c : PrefixCache) : LetGo :=
  let_go_of (List.filter replaced (bucket_of c model_key)).

(** ** Eviction *)

(** [sort_by_key(last_hit)], a stable sort. *)
Fixpoint insert_by_hit (e : Entry) (l : list Entry) : list Entry :=
  match l with
  | [] => [e]
  | x :: l => if en_last_hit e <=? en_last_hit x then e :: x :: l else x :: insert_by_hit e l
  end.
Definition sort_by_last_hit (l : list Entry) : list Entry := fold_right insert_by_hit [] l.

Definition entries_bytes (l : list Entry) : Z := sum_list (map (fun e => snapshot_bytes (en_snapshot e)) l).
Definition entries_bytes_in (home : SnapshotHome) (l : list Entry) : Z := sum_list (map (fun e => snapshot_bytes_in (en_snapshot e) home) l).

(** The oldest of a sorted bucket, until one of [incoming] bytes fits both caps. *)
Fixpoint evict_for (c : PrefixCache) (incoming total : Z) (bucket : list Entry) : list Entry * list Entry :=
  match bucket with
  | [] => ([], [])
  | oldest :: rest =>
      if (pc_max_entries c <=? length bucket)%nat || ((0 <? pc_max_bytes c) && (pc_max_bytes c <? u64_saturating_add total incoming))
      then let '(gone, kept) := evict_for c incoming (u64_saturating_sub total (snapshot_bytes (en_snapshot oldest))) rest in (oldest :: gone, kept)
      else ([], bucket)
  end.

(** The oldest of a sorted bucket while its bytes are over the cap; never the last. *)
Fixpoint evict_bytes_over (max_bytes total : Z) (bucket : list Entry) : list Entry :=
  match bucket with
  | oldest :: ((_ :: _) as rest) =>
      if max_bytes <? total then evict_bytes_over max_bytes (u64_saturating_sub total (snapshot_bytes (en_snapshot oldest))) rest else bucket
  | _ => bucket
  end.

Definition evict_over_caps (c : PrefixCache) (bucket : list Entry) : list Entry :=
  let bucket := if (pc_max_entries c <? length bucket)%nat
                then drop (length bucket - pc_max_entries c) (sort_by_last_hit bucket) else bucket in
  if 0 <? pc_max_bytes c then
    let total := entries_bytes bucket in
    if pc_max_bytes c <? total then evict_bytes_over (pc_max_bytes c) total (sort_by_last_hit bucket) else bucket
  else bucket.

(** Where the least recently hit entry kept in [home] is, over every model. *)
Definition in_memory (home : SnapshotHome) (key : bytes) (bucket : list Entry) : list (Z * bytes * nat) :=
  omap (fun ie : nat * Entry => if decide (snapshot_home (en_snapshot ie.2) = home) then Some (en_last_hit ie.2, key, ie.1) else None)
    (zip (seq 0 (length bucket)) bucket).
Definition oldest_of (l : list (Z * bytes * nat)) : option (Z * bytes * nat) :=
  fold_left (fun best x => match best with Some b => if x.1.1 <? b.1.1 then Some x else best | None => Some x end) l None.
Definition oldest_in (home : SnapshotHome) (m : gmap bytes (list Entry)) : option (Z * bytes * nat) :=
  oldest_of (flat_map (fun kb : bytes * list Entry => in_memory home kb.1 kb.2) (map_to_list m)).

Definition remove_entry (key : bytes) (i : nat) (m : gmap bytes (list Entry)) : option (Entry * gmap bytes (list Entry)) :=
  bucket ← m !! key;
  removed ← bucket !! i;
  let rest := delete i bucket in
  Some (removed, if decide (rest = []) then delete key m else <[key := rest]> m).

(** Run with as much fuel as there are entries: each round removes one. *)
Fixpoint take_least_recently_hit (fuel : nat) (needed freed : Z) (home : SnapshotHome) (m : gmap bytes (list Entry))
  : list Entry * gmap bytes (list Entry) :=
  match fuel with
  | O => ([], m)
  | S fuel =>
      if freed <? needed then
        match oldest_in home m with
        | None => ([], m)
        | Some (_, key, i) =>
            match remove_entry key i m with
            | None => ([], m)
            | Some (removed, m) =>
                let '(gone, m) := take_least_recently_hit fuel needed (u64_saturating_add freed (snapshot_bytes (en_snapshot removed))) home m in
                (removed :: gone, m)
            end
        end
      else ([], m)
  end.

Definition entry_total (m : gmap bytes (list Entry)) : nat := length (flat_map snd (map_to_list m)).

Definition make_room (after_copy : bool) (model_key : bytes) (superseded : Entry -> bool) (incoming_bytes : Z) (room : SnapshotRoom) (c : PrefixCache)
  : RoomMade * PrefixCache :=
  let m := per_model c in
  let '(gone, evicted, m) :=
    match m !! model_key with
    | Some bucket =>
        if after_copy then ([], [], m)
        else
          let gone := List.filter superseded bucket in
          let bucket := sort_by_last_hit (List.filter (fun e => negb (superseded e)) bucket) in
          let '(evicted, bucket) := evict_for c incoming_bytes (entries_bytes bucket) bucket in
          (gone, evicted, if decide (bucket = []) then delete model_key m else <[model_key := bucket]> m)
    | None => ([], [], m)
    end in
  let freed_in_home := entries_bytes_in (sr_home room) evicted in
  let '(more, m) :=
    if freed_in_home <? sr_evict_bytes room
    then take_least_recently_hit (entry_total m) (sr_evict_bytes room - freed_in_home) 0 (sr_home room) m else ([], m) in
  ({| rm_replaced := length gone; rm_evicted := length evicted + length more; rm_replaced_kept_here := existsb en_kept_here gone |},
   with_models m (pc_clock c) c).

Definition bytes_in (home : SnapshotHome) (c : PrefixCache) : Z := entries_bytes_in home (flat_map snd (map_to_list (per_model c))).

Definition release_saved (needed : Z) (home : SnapshotHome) (c : PrefixCache) : Z * PrefixCache :=
  let '(gone, m) := take_least_recently_hit (entry_total (per_model c)) needed 0 home (per_model c) in
  (entries_bytes gone, with_models m (pc_clock c) c).

(** ** Saving *)

(** The write section that ends a save: what the new entry replaces goes, it is added
    with a fresh tick, and the caps are applied. *)
Definition add_entry_to (model_key : bytes) (replaced : Entry -> bool) (entry : Z -> Entry) (c : PrefixCache) : PrefixCache :=
  let bucket := bucket_of c model_key in
  let tick := pc_clock c + 1 in
  let bucket := List.filter (fun e => negb (replaced e)) bucket ++ [entry tick] in
  with_models (<[model_key := evict_over_caps c bucket]> (per_model c)) tick c.

(** Did the room's cut keep an entry the plan counted as let go? *)
Definition cut_keeps_more (planned now : LetGo) (home : SnapshotHome) : bool := in_home now home <? in_home planned home.

(** The copy, once it is certain: room, copy, entry.  The request's cache is read again:
    it may have changed while its room was planned. *)
Definition save_tokens (after_copy : bool) (ssm_device : nat -> Device) (model_key : bytes) (st : KvCacheStore) (key : bytes)
    (held : HeldCache) (snap_tokens : list Z) (room : SnapshotRoom) (keep : KeepAsked) (c : PrefixCache) (answers : list bool)
  : list PrefixBlockEntry * PrefixCache * list bool :=
  let available := length snap_tokens in
  let serves := serves_once_saved held available in
  match caches st !! key with
  | None => ([], c, answers)
  | Some e =>
      if (held_positions (layers e) <? available)%nat then ([], c, answers)
      else
        let '(made, c) := make_room after_copy model_key (replaced_by_tokens snap_tokens serves) (bytes_at (hc_cost held) available) room c in
        let '(snap, answers) := snapshot_at (layers e) (ssm_states e) ssm_device available (hc_dim held) (hc_max_seq_len held) (sr_home room) answers in
        match snap with
        | None => ([], c, answers)
        | Some snap =>
            let replaced := replaced_by_tokens snap_tokens (sn_serves_from snap) in
            let kept_here := bool_decide (keep = OnThisComputer) || rm_replaced_kept_here made ||
              existsb (fun e => replaced e && en_kept_here e) (bucket_of c model_key) in
            let c := add_entry_to model_key replaced (fun tick =>
              {| en_tokens := snap_tokens; en_chain := []; en_chain_block := 0; en_snapshot := snap; en_last_hit := tick; en_kept_here := kept_here |}) c in
            (enumerate_manifest_locked (bucket_of c model_key) (pc_block_tokens c), c, answers)
        end
  end.

Definition insert_from_kv (after_copy : bool) (ssm_device : nat -> Device) (model_key request_id : bytes) (st : KvCacheStore)
    (prompt_tokens : list Z) (room : LetGo -> SnapshotRoom) (keep : KeepAsked) (c : PrefixCache) (answers : list bool)
  : list PrefixBlockEntry * PrefixCache * list bool :=
  if negb (pc_enabled c) || (length prompt_tokens <? pc_min_tokens c)%nat then ([], c, answers)
  else
    let key := cache_key model_key request_id in
    match held_read st key with
    | None => ([], c, answers)
    | Some held =>
        let whole := at_most (Nat.min (hc_positions held) (length prompt_tokens)) (positions_ceiling c (hc_cost held)) in
        if (whole <? pc_min_tokens c)%nat then ([], c, answers)
        else
          match covered_by_tokens model_key (take whole prompt_tokens) whole c with
          | Some (m, c) => (m, c, answers)
          | None =>
              let planned := let_go model_key (replaced_by_tokens (take whole prompt_tokens) (serves_once_saved held whole)) c in
              let room := room planned in
              if sr_max_positions room =? 0 then ([], c, answers)
              else
                let available := at_most whole (sr_max_positions room) in
                if (available <? pc_min_tokens c)%nat || (available <? hc_serves held)%nat ||
                   existsb (fun at_ => negb (at_ =? available)%nat) (hc_recurrent_at held) then ([], c, answers)
                else
                  let snap_tokens := take available prompt_tokens in
                  let go c := save_tokens after_copy ssm_device model_key st key held snap_tokens room keep c answers in
                  if (available <? whole)%nat then
                    match covered_by_tokens model_key snap_tokens available c with
                    | Some (m, c) => (m, c, answers)
                    | None =>
                        if cut_keeps_more planned (let_go model_key (replaced_by_tokens snap_tokens (serves_once_saved held available)) c) (sr_home room)
                        then ([], c, answers) else go c
                    end
                  else go c
          end
    end.

(** ** A split's segment *)

Definition save_chain (after_copy : bool) (ssm_device : nat -> Device) (model_key : bytes) (st : KvCacheStore) (key : bytes)
    (held : HeldCache) (chain : list bytes) (block_tokens : Z) (positions : nat) (room : SnapshotRoom) (c : PrefixCache) (answers : list bool)
  : Z * PrefixCache * list bool :=
  match caches st !! key with
  | None => (0, c, answers)
  | Some e =>
      if (held_positions (layers e) <? positions)%nat then (0, c, answers)
      else
        let '(made, c) := make_room after_copy model_key (replaced_by_chain chain block_tokens (hc_serves held)) (bytes_at (hc_cost held) positions) room c in
        let '(snap, answers) := snapshot_at (layers e) [] ssm_device positions (hc_dim held) (hc_max_seq_len held) (sr_home room) answers in
        match snap with
        | None => (0, c, answers)
        | Some snap =>
            let c := add_entry_to model_key (replaced_by_chain chain block_tokens (sn_serves_from snap)) (fun tick =>
              {| en_tokens := []; en_chain := chain; en_chain_block := block_tokens; en_snapshot := snap; en_last_hit := tick; en_kept_here := false |}) c in
            let kept := existsb (fun e => (en_chain_block e =? block_tokens) && bool_decide (en_chain e = chain)) (bucket_of c model_key) in
            (if kept then blen chain else 0, c, answers)
        end
  end.

Definition insert_chain_from_kv (after_copy : bool) (ssm_device : nat -> Device) (model_key request_id : bytes) (st : KvCacheStore)
    (block_tokens : Z) (keys : list bytes) (room : LetGo -> SnapshotRoom) (c : PrefixCache) (answers : list bool) : Z * PrefixCache * list bool :=
  let bt := Z.to_nat block_tokens in
  if negb (pc_enabled c) || (bt =? 0)%nat || bool_decide (keys = []) then (0, c, answers)
  else
    let key := cache_key model_key request_id in
    match held_read st key with
    | None => (0, c, answers)
    | Some held =>
        if negb (bool_decide (hc_recurrent_at held = [])) then (0, c, answers)
        else
          let whole := (at_most (Nat.min (hc_positions held) (length keys * bt)) (positions_ceiling c (hc_cost held)) / bt * bt)%nat in
          if (whole =? 0)%nat || (whole <? pc_min_tokens c)%nat then (0, c, answers)
          else
            match covered_by_chain model_key (take (whole / bt) keys) block_tokens whole c with
            | Some (blocks, c) => (blocks, c, answers)
            | None =>
                let planned := let_go model_key (replaced_by_chain (take (whole / bt) keys) block_tokens (hc_serves held)) c in
                let room := room planned in
                let positions := (at_most whole (sr_max_positions room) / bt * bt)%nat in
                let blocks := (positions / bt)%nat in
                if (blocks =? 0)%nat || (positions <? pc_min_tokens c)%nat || (positions <? hc_serves held)%nat then (0, c, answers)
                else
                  let chain := take blocks keys in
                  let go c := save_chain after_copy ssm_device model_key st key held chain block_tokens positions room c answers in
                  if (positions <? whole)%nat then
                    match covered_by_chain model_key chain block_tokens positions c with
                    | Some (blocks, c) => (blocks, c, answers)
                    | None =>
                        if cut_keeps_more planned (let_go model_key (replaced_by_chain chain block_tokens (hc_serves held)) c) (sr_home room)
                        then (0, c, answers) else go c
                    end
                  else go c
            end
    end.

(** ** Serving a peer, and being served *)

Context `{!WireTensors} (to_json : SnapshotHeader -> option bytes) (from_json : bytes -> option SnapshotHeader).

(** The first entry with the block, cut to where the block ends; a failure ends the search. *)
Fixpoint export_from (block_size : nat) (block_hash : bytes) (bucket : list Entry) (answers : list bool) : option bytes * list bool :=
  match bucket with
  | [] => (None, answers)
  | e :: bucket =>
      match list_find (fun b => pb_block_hash b = block_hash) (manifest block_size e) with
      | Some (_, b) =>
          let target := Z.to_nat (pb_token_count b) in
          let '(narrowed, answers) := narrow_snapshot (en_snapshot e) target answers in
          match narrowed with
          | None => (None, answers)
          | Some s =>
              (match serialize_snapshot_with_block_size to_json s (take target (en_tokens e)) (Some block_size) with Ok data => Some data | _ => None end, answers)
          end
      | None => export_from block_size block_hash bucket answers
      end
  end.

Definition export_snapshot_bytes (model_key block_hash : bytes) (c : PrefixCache) (answers : list bool) : option bytes * list bool :=
  if (pc_block_tokens c =? 0)%nat then (None, answers) else export_from (pc_block_tokens c) block_hash (bucket_of c model_key) answers.

Definition hydrate_request_from_bytes (windowed mirror_is_lazy : bool) (wants_shadow : Tensor -> bool) (model_key request_id data : bytes) (device : Device)
    (layouts : list (option CacheLayout)) (now : Z) (st : KvCacheStore) (answers : list bool) : call unit nat * KvCacheStore * list bool :=
  match deserialize_snapshot from_json data device with
  | Ok (snap, _) => hydrate_request_from_snapshot windowed mirror_is_lazy wants_shadow model_key request_id snap layouts now st answers
  | Err _ => (Err tt, st, answers)
  | Panic => (Panic, st, answers)
  end.
End entries.

(** ** Reading, and agreeing on an opening *)

Lemma shared_tokens_spec a b : let n := shared_tokens a b in take n a = take n b /\ (n <= length a)%nat /\ (n <= length b)%nat.
Proof.
  revert b. induction a as [|x a IH]; intros [|y b]; cbn; try (split_and!; try done; lia).
  destruct (Z.eqb_spec x y) as [->|]; cbn; [|split_and!; try done; lia]. destruct (IH b) as (-> & ? & ?). split_and!; [done|lia..].
Qed.

Lemma is_prefix_take {A} `{EqDecision A} (a b : list A) : is_prefix a b = true -> a = take (length a) b.
Proof. unfold is_prefix. intros [k ->]%bool_decide_eq_true. by rewrite take_app_length. Qed.

Section agreement.
Context `{Candle, DeltaNet, !SsmTensors, !Devices}.

(** Two runs give every layer the same first [n] rows, every recurrent layer the same first [n] tokens. *)
Definition agree (n : nat) (gs gs' : list Given) : Prop :=
  forall i g, gs !! i = Some g -> (n <= length (gv_keys g))%nat -> length (gv_keys g) = length (gv_values g) ->
  exists g', gs' !! i = Some g' /\ (n <= length (gv_keys g'))%nat /\ length (gv_keys g') = length (gv_values g') /\
    take n (gv_keys g) = take n (gv_keys g') /\ take n (gv_values g) = take n (gv_values g').
Definition agree_hists (n : nat) (hs hs' : list (list Token)) : Prop :=
  forall i h, hs !! i = Some h -> (n <= length h)%nat -> exists h', hs' !! i = Some h' /\ (n <= length h')%nat /\ take n h = take n h'.

Lemma snapshot_of_agree wins dts s gs gs' hs hs' : snapshot_of wins dts s gs hs ->
  agree (sn_token_count s) gs gs' -> agree_hists (sn_token_count s) hs hs' -> snapshot_of wins dts s gs' hs'.
Proof.
  intros [Hl Hs Hw Hsv] Hg Hh. split; try done.
  - intros i k v Hi. destruct (Hl i k v Hi) as (g & Hgi & Hc & Hkv & Rk & Rv & Hrest). destruct (Hg i g Hgi Hc Hkv) as (g' & ? & ? & ? & Ek & Ev).
    exists g'. rewrite <- Ek, <- Ev. split_and!; try done; apply Hrest.
  - intros i slot Hi. destruct (Hs i slot Hi) as (h & Hhi & Hc & ->). destruct (Hh i h Hhi Hc) as (h' & ? & ? & ->). eauto.
Qed.

Lemma each_layer_total {A B} (body : nat -> A -> list bool -> option B * list bool) i l answers : false ∉ answers ->
  (forall j x a, l !! j = Some x -> false ∉ a -> exists y a', body (i + j)%nat x a = (Some y, a') /\ false ∉ a') ->
  exists ys answers', each_layer body i l answers = (Some ys, answers') /\ false ∉ answers'.
Proof.
  revert i answers. induction l as [|x l IH]; intros i answers Ha Hb; cbn; [eauto|].
  destruct (Hb 0%nat x answers eq_refl Ha) as (y & a & E & Ha'). rewrite Nat.add_0_r in E. rewrite E.
  destruct (IH (S i) a Ha') as (ys & a2 & -> & ?); [|cbn; eauto].
  intros j x' b Hx Hf. destruct (Hb (S j) x' b Hx Hf) as (y' & b' & E' & ?). exists y', b'. by replace (S i + j)%nat with (i + S j)%nat by lia.
Qed.

Lemma narrow_tensor_total view held t answers : false ∉ answers -> (held <= t_len t)%nat ->
  exists t' answers', narrow_tensor view held t answers = (Some t', answers') /\ false ∉ answers'.
Proof.
  intros Ha Hl. unfold narrow_tensor, narrow. rewrite (proj2 (Nat.leb_le (0 + held) (t_len t))) by lia.
  destruct view; [eauto|]. destruct answers as [|[] a]; cbn; [eauto|rewrite not_elem_of_cons in Ha; destruct Ha; eauto|].
  exfalso. apply Ha. left.
Qed.

(** A cut to a point it serves fails only where a copy does. *)
Lemma narrow_total wins dts s gs hs p answers : snapshot_of wins dts s gs hs -> false ∉ answers ->
  (sn_serves_from s <= p)%nat -> (p <= sn_token_count s)%nat -> exists s' answers', narrow_snapshot s p answers = (Some s', answers').
Proof.
  intros Hs Ha Hsv Hp. unfold narrow_snapshot. rewrite (proj2 (Nat.ltb_ge _ _) Hp), (proj2 (Nat.ltb_ge _ _) Hsv).
  destruct (Nat.eqb_spec p (sn_token_count s)); [eauto|]. destruct (carries_recurrent_state s) eqn:Ec.
  { pose proof (sf_whole _ _ _ _ _ Hs Ec). lia. }
  destruct (each_layer_total (narrow_layer s p) 0 (sn_layers s) answers Ha) as (ys & a & -> & _); [|cbn; eauto].
  intros j [[k v]|] a Hj Hf; cbn; [|eauto].
  destruct (sf_layers _ _ _ _ _ Hs j k v Hj) as (g & _ & Hc & Hkv & Rk & Rv & _ & _ & Hsrv).
  assert (Hle : (layer_held_from s j <= p)%nat) by (destruct Hsrv as [->|(win & _ & ? & ?)]; lia).
  rewrite (proj2 (Nat.leb_le _ _) Hle).
  destruct (narrow_tensor_total (bool_decide (is_Some (restored_to s j))) (p - layer_held_from s j) k a Hf) as (k' & a1 & -> & Hf1).
  { unfold t_len. rewrite Rk, length_drop, length_take. lia. }
  destruct (narrow_tensor_total (bool_decide (is_Some (restored_to s j))) (p - layer_held_from s j) v a1 Hf1) as (v' & a2 & -> & Hf2).
  { unfold t_len. rewrite Rv, length_drop, length_take. lia. }
  cbn. eauto.
Qed.

(** ** The entry a prompt is answered from *)

Lemma elem_of_snoc {A} (l : list A) x y : y ∈ l ++ [x] -> y ∈ l \/ y = x.
Proof. rewrite elem_of_app, list_elem_of_singleton. done. Qed.

Lemma zip_seq_snoc {A} (l : list A) x : zip (seq 0 (length (l ++ [x]))) (l ++ [x]) = zip (seq 0 (length l)) l ++ [(length l, x)].
Proof. rewrite length_app, seq_app. cbn. rewrite zip_with_app by (by rewrite length_seq). done. Qed.

Definition usable_from (min_tokens : nat) (input : list Z) (e : Entry) : Prop :=
  (min_tokens <= usable_prefix input e)%nat /\ (sn_serves_from (en_snapshot e) <= usable_prefix input e)%nat.

Lemma best_entry_spec min_tokens input bucket :
  match best_entry min_tokens input bucket with
  | Some (i, usable) => exists e, bucket !! i = Some e /\ usable = usable_prefix input e /\ usable_from min_tokens input e /\
      forall e', e' ∈ bucket -> usable_from min_tokens input e' -> (usable_prefix input e' <= usable)%nat
  | None => forall e', e' ∈ bucket -> ~ usable_from min_tokens input e'
  end.
Proof.
  unfold best_entry. induction bucket as [|x l IH] using rev_ind; [by intros e' He'%elem_of_nil|].
  rewrite zip_seq_snoc, fold_left_app. cbn [fold_left]. unfold better_entry at 1. cbn [fst snd].
  destruct ((usable_prefix input x <? min_tokens)%nat || (usable_prefix input x <? sn_serves_from (en_snapshot x))%nat) eqn:Eu.
  - assert (Hx : ~ usable_from min_tokens input x).
    { intros [? ?]. apply orb_true_iff in Eu as [Eu%Nat.ltb_lt|Eu%Nat.ltb_lt]; lia. }
    destruct (fold_left _ _ None) as [[i u]|].
    + destruct IH as (e & Hi & Hu & Hf & Hmax). exists e. split_and!; try done; [by apply lookup_app_l_Some|]. intros e' [?| ->]%elem_of_snoc; auto. done.
    + intros e' [?| ->]%elem_of_snoc; auto.
  - assert (Hx : usable_from min_tokens input x).
    { apply orb_false_iff in Eu as [?%Nat.ltb_ge ?%Nat.ltb_ge]. done. }
    assert (Hlast : (l ++ [x]) !! length l = Some x) by (rewrite lookup_app_r, Nat.sub_diag by done; done).
    destruct (fold_left _ _ None) as [[i u]|].
    + destruct IH as (e & Hi & Hu & Hf & Hmax). destruct (Nat.ltb_spec u (usable_prefix input x)) as [Hlt|Hge].
      * exists x. split_and!; try done. intros e' [He| ->]%elem_of_snoc Hf'; [specialize (Hmax e' He Hf'); lia|done].
      * exists e. split_and!; try done; [by apply lookup_app_l_Some|]. intros e' [?| ->]%elem_of_snoc; auto.
    + exists x. split_and!; try done. intros e' [He| ->]%elem_of_snoc Hf'; [by destruct (IH e' He)|done].
Qed.
End agreement.

(** ** What the operations leave of the entries *)

Section shrinking.
Context `{Candle, DeltaNet, !SsmTensors, !Devices}.

Definition bucket_in (m : gmap bytes (list Entry)) (key : bytes) : list Entry := default [] (m !! key).
Definition all_entries (m : gmap bytes (list Entry)) : list Entry := flat_map snd (map_to_list m).

Lemma all_entries_perm m l : map_to_list m ≡ₚ l -> all_entries m ≡ₚ flat_map snd l.
Proof. intros Hp. unfold all_entries. by apply Permutation_flat_map. Qed.

(** The settings stay, ticks only grow, and every entry left was there, at most hit since. *)
Record shrinks (c c' : PrefixCache) : Prop := {
  sh_settings : c' = with_models (per_model c') (pc_clock c') c;
  sh_clock : pc_clock c <= pc_clock c';
  sh_entries : forall m e', e' ∈ bucket_of c' m -> exists e, e ∈ bucket_of c m /\ (e' = e \/ exists t, t <= pc_clock c' /\ e' = hit_entry t e) }.

#[export] Instance shrinks_preorder : PreOrder shrinks.
Proof.
  split.
  - intros c. split; [by destruct c|lia|eauto].
  - intros a b c [Ha1 Ha2 Ha3] [Hb1 Hb2 Hb3]. split; [rewrite Hb1, Ha1; done|lia|].
    intros m e'' He. destruct (Hb3 m e'' He) as (e' & He' & Hb). destruct (Ha3 m e' He') as (e & Hin & Ha). exists e. split; [done|].
    destruct Hb as [->|(t & Ht & ->)]; [|right; exists t; split; [done|by destruct Ha as [->|(t' & _ & ->)]]].
    destruct Ha as [->|(t' & Ht' & ->)]; [by left|right; exists t'; split; [lia|done]].
Qed.

Lemma bucket_of_insert m key b t c key' : bucket_of (with_models (<[key := b]> m) t c) key' = if decide (key = key') then b else bucket_in m key'.
Proof. unfold bucket_of, bucket_in. cbn. case_decide as Hk; [subst; by rewrite lookup_insert_eq|by rewrite lookup_insert_ne]. Qed.

Lemma with_models_shrinks m c : (forall key e, e ∈ bucket_in m key -> e ∈ bucket_of c key) -> shrinks c (with_models m (pc_clock c) c).
Proof. intros Hm. split; [done|cbn; lia|]. intros key e He. exists e. split; [by apply Hm|by left]. Qed.

Lemma mark_hit_shrinks key i c : shrinks c (mark_hit key i c).
Proof.
  split; [done|cbn; lia|]. intros m e'. unfold mark_hit, bucket_of. cbn. destruct (decide (key = m)) as [->|Hne].
  - rewrite lookup_alter_eq. destruct (per_model c !! m) as [b|]; cbn; [|by intros ?%elem_of_nil].
    intros [j Hj]%list_elem_of_lookup. destruct (decide (i = j)) as [->|Hij].
    + rewrite list_lookup_alter_eq in Hj. destruct (b !! j) as [e|] eqn:Ej; [|done]. cbn in Hj. simplify_eq.
      exists e. split; [by eapply list_elem_of_lookup_2|]. right. exists (pc_clock c + 1). split; [lia|done].
    + rewrite list_lookup_alter_ne in Hj by done. exists e'. split; [by eapply list_elem_of_lookup_2|by left].
  - rewrite lookup_alter_ne by done. intros He. exists e'. split; [done|by left].
Qed.

Lemma insert_by_hit_perm e l : insert_by_hit e l ≡ₚ e :: l.
Proof. induction l as [|x l IH]; cbn; [done|]. destruct (_ <=? _); [done|]. rewrite IH. constructor. Qed.
Lemma sort_perm l : sort_by_last_hit l ≡ₚ l.
Proof. induction l as [|x l IH]; cbn; [done|]. by rewrite insert_by_hit_perm, IH. Qed.

Lemma evict_for_app c incoming total b gone kept : evict_for c incoming total b = (gone, kept) -> b = gone ++ kept.
Proof.
  revert total gone. induction b as [|x b IH]; intros total gone E; cbn [evict_for] in E; [by simplify_eq|].
  destruct (_ || _); [|by simplify_eq]. destruct (evict_for c incoming _ b) as [g k] eqn:Er. simplify_eq. cbn. f_equal. by eapply IH.
Qed.
Lemma evict_bytes_suffix max_bytes b total : evict_bytes_over max_bytes total b `suffix_of` b.
Proof.
  revert total. induction b as [|x [|y b] IH]; intros total; cbn [evict_bytes_over]; try done. destruct (_ <? _); [|done].
  etransitivity; [apply IH|by exists [x]].
Qed.

Lemma evict_over_caps_elem c b e : e ∈ evict_over_caps c b -> e ∈ b.
Proof.
  assert (Hsuf : forall l l' : list Entry, l `suffix_of` l' -> e ∈ l -> e ∈ l') by (intros l l' [k ->]; rewrite elem_of_app; auto).
  unfold evict_over_caps. set (b' := if (_ <? _)%nat then drop _ (sort_by_last_hit b) else b). assert (Hb' : e ∈ b' -> e ∈ b).
  { unfold b'. destruct (_ <? _)%nat; [|done]. intros He. rewrite <- (sort_perm b). eapply Hsuf; [apply suffix_drop|done]. }
  destruct (0 <? _); [|done]. destruct (_ <? _); [|done]. intros He. apply Hb'. rewrite <- (sort_perm b'). eapply Hsuf; [apply evict_bytes_suffix|done].
Qed.

Lemma remove_entry_in key i m x m' : remove_entry key i m = Some (x, m') ->
  all_entries m ≡ₚ x :: all_entries m' /\ x ∈ bucket_in m key /\ forall k e, e ∈ bucket_in m' k -> e ∈ bucket_in m k.
Proof.
  unfold remove_entry. destruct (m !! key) as [b|] eqn:Eb; [|done]. cbn. destruct (b !! i) as [y|] eqn:Ey; [|done]. cbn. intros [= -> <-].
  pose proof (delete_Permutation _ _ _ Ey) as Hp. unfold bucket_in. rewrite Eb. cbn. split_and!; [|by eapply list_elem_of_lookup_2|].
  - rewrite (all_entries_perm m ((key, b) :: map_to_list (delete key m))) by (symmetry; by apply map_to_list_delete). cbn [flat_map snd].
    etransitivity; [apply Permutation_app_tail, Hp|]. cbn. constructor.
    case_decide as Hd; [by rewrite Hd|]. rewrite <- insert_delete_eq.
    rewrite (all_entries_perm (<[key := _]> _) ((key, delete i b) :: map_to_list (delete key m))); [done|].
    apply map_to_list_insert, lookup_delete_eq.
  - intros k e. case_decide as Hd; (destruct (decide (k = key)) as [->|Hk]).
    + rewrite lookup_delete_eq. by intros ?%elem_of_nil.
    + by rewrite lookup_delete_ne.
    + rewrite lookup_insert_eq, Eb. cbn. intros He. eapply elem_of_Permutation_proper; [exact Hp|by right].
    + by rewrite lookup_insert_ne.
Qed.

Lemma take_lrh_in fuel needed freed home m gone m' : take_least_recently_hit fuel needed freed home m = (gone, m') ->
  all_entries m ≡ₚ gone ++ all_entries m' /\ forall k e, e ∈ bucket_in m' k -> e ∈ bucket_in m k.
Proof.
  revert freed m gone. induction fuel as [|fuel IH]; intros freed m gone E; cbn in E; [by simplify_eq|].
  destruct (_ <? _); [|by simplify_eq]. destruct (oldest_in home m) as [[[t key] i]|]; [|by simplify_eq].
  destruct (remove_entry key i m) as [[x m1]|] eqn:Er; [|by simplify_eq].
  destruct (take_least_recently_hit fuel _ _ home m1) as [g m2] eqn:Et. simplify_eq.
  apply remove_entry_in in Er as (Hp & _ & Hin). destruct (IH _ _ _ Et) as [Hp' Hin']. split; [cbn; by rewrite Hp, Hp'|auto].
Qed.

Lemma make_room_shrinks after_copy key superseded incoming room c made c' : make_room after_copy key superseded incoming room c = (made, c') -> shrinks c c'.
Proof.
  unfold make_room. destruct (match per_model c !! key with Some _ => _ | None => _ end) as [[gone evicted] m] eqn:Em.
  assert (Hm : forall k e, e ∈ bucket_in m k -> e ∈ bucket_of c k).
  { destruct (per_model c !! key) as [b|] eqn:Eb; [|by simplify_eq]. destruct after_copy; [by simplify_eq|].
    destruct (evict_for c incoming _ _) as [g k] eqn:Ev. apply evict_for_app in Ev. simplify_eq. intros k' e.
    assert (Hk : e ∈ k -> e ∈ b).
    { intros He. assert (He' : e ∈ evicted ++ k) by (apply elem_of_app; auto). rewrite <- Ev, sort_perm in He'.
      rewrite list_elem_of_In, filter_In in He'. apply list_elem_of_In, He'. }
    unfold bucket_in, bucket_of. case_decide as Hd; (destruct (decide (key = k')) as [<-|Hne]);
      rewrite ?lookup_delete_eq, ?lookup_delete_ne, ?lookup_insert_eq, ?lookup_insert_ne, ?Eb by done; cbn; auto. by intros ?%elem_of_nil. }
  destruct (_ <? _); [|intros [= <- <-]; by apply with_models_shrinks].
  destruct (take_least_recently_hit _ _ _ _ m) as [more m'] eqn:Et. intros [= <- <-]. apply take_lrh_in in Et as [_ Hin].
  apply with_models_shrinks. auto.
Qed.

Lemma release_saved_shrinks needed home c freed c' : release_saved needed home c = (freed, c') -> shrinks c c'.
Proof.
  unfold release_saved. destruct (take_least_recently_hit _ _ _ _ _) as [gone m] eqn:Et. intros [= <- <-].
  apply with_models_shrinks. by apply take_lrh_in in Et as [_ Hin].
Qed.

Lemma add_entry_elem key replaced entry c m e' : e' ∈ bucket_of (add_entry_to key replaced entry c) m ->
  e' ∈ bucket_of c m \/ m = key /\ e' = entry (pc_clock c + 1).
Proof.
  unfold add_entry_to. rewrite bucket_of_insert. case_decide as Hk; [|by left]. subst m.
  intros [He| ->]%evict_over_caps_elem%elem_of_snoc; [left|by right].
  rewrite list_elem_of_In, filter_In in He. apply list_elem_of_In, He.
Qed.
End shrinking.

(** ** What a save comes to *)

Section saving.
Context `{Candle, DeltaNet, !SsmTensors, !Devices}.
Context (blake3 : bytes -> bytes).

Lemma at_most_le n z : (at_most n z <= n)%nat.
Proof. unfold at_most. lia. Qed.

Lemma covered_by_tokens_shrinks m tokens at_ c out c' : covered_by_tokens blake3 m tokens at_ c = Some (out, c') -> shrinks c c'.
Proof. unfold covered_by_tokens. destruct (list_find _ _) as [[i e]|]; [|done]. intros [= <- <-]. apply mark_hit_shrinks. Qed.
Lemma covered_by_chain_shrinks m chain bt n c out c' : covered_by_chain m chain bt n c = Some (out, c') -> shrinks c c'.
Proof. unfold covered_by_chain. destruct (list_find _ _) as [[i e]|]; [|done]. intros [= <- <-]. apply mark_hit_shrinks. Qed.

Lemma not_covered m tokens at_ c : covered_by_tokens blake3 m tokens at_ c = None -> forall e, e ∈ bucket_of c m -> covers_tokens tokens at_ e = false.
Proof.
  unfold covered_by_tokens. destruct (list_find _ _) as [[i e]|] eqn:Ef; [done|]. intros _ e He. apply list_find_None in Ef.
  rewrite list.Forall_forall in Ef. specialize (Ef e He). by destruct (covers_tokens tokens at_ e).
Qed.

(** A save changes nothing but a hit, or copies the first [n] tokens, which no entry covers. *)
Lemma insert_from_kv_cases after_copy dev m request st prompt room keep c answers out c' answers' :
  insert_from_kv blake3 after_copy dev m request st prompt room keep c answers = (out, c', answers') ->
  shrinks c c' \/ exists held n planned, held_read st (cache_key m request) = Some held /\ (n <= length prompt)%nat /\ (pc_min_tokens c <= n)%nat /\
    (forall e, e ∈ bucket_of c m -> covers_tokens (take n prompt) n e = false) /\
    save_tokens blake3 after_copy dev m st (cache_key m request) held (take n prompt) (room planned) keep c answers = (out, c', answers').
Proof.
  intros E. unfold insert_from_kv in E. destruct (_ || _); [left; by simplify_eq|]. destruct (held_read _ _) as [held|]; [|left; by simplify_eq].
  pose proof (at_most_le (hc_positions held `min` length prompt) (positions_ceiling c (hc_cost held))) as Hle. set (whole := at_most _ _) in *.
  destruct (_ <? _)%nat; [left; by simplify_eq|]. destruct (covered_by_tokens _ m (take whole prompt) _ c) as [[o c1]|] eqn:Ec.
  { left. simplify_eq. by eapply covered_by_tokens_shrinks. }
  set (r := room _) in *. destruct (_ =? 0); [left; by simplify_eq|]. pose proof (at_most_le whole (sr_max_positions r)) as Hle2. set (n := at_most whole _) in *.
  destruct (_ || existsb _ _) eqn:Eg; [left; by simplify_eq|].
  assert (Hmin : (pc_min_tokens c <= n)%nat).
  { apply orb_false_iff in Eg as [Eg _]. apply orb_false_iff in Eg as [Eg _]. by apply Nat.ltb_ge in Eg. }
  clear Eg. destruct (Nat.ltb_spec n whole) as [Hlt|Hge].
  - destruct (covered_by_tokens _ m (take n prompt) _ c) as [[o c1]|] eqn:Ec2.
    { left. simplify_eq. by eapply covered_by_tokens_shrinks. }
    destruct (cut_keeps_more _ _ _); [left; by simplify_eq|]. right. eexists held, n, _. split_and!; [done|lia|done|by apply not_covered|exact E].
  - right. assert (n = whole) as Hn by lia. eexists held, n, _. split_and!; [done|lia|done|rewrite Hn; by apply not_covered|exact E].
Qed.

Lemma insert_chain_from_kv_cases after_copy dev m request st bt keys room c answers out c' answers' :
  insert_chain_from_kv after_copy dev m request st bt keys room c answers = (out, c', answers') ->
  shrinks c c' \/ exists held blocks r, (blocks <= length keys)%nat /\ (0 < blocks)%nat /\
    save_chain after_copy dev m st (cache_key m request) held (take blocks keys) bt (blocks * Z.to_nat bt) r c answers = (out, c', answers').
Proof.
  intros E. unfold insert_chain_from_kv in E. destruct (_ || _) eqn:Eg; [left; by simplify_eq|].
  assert (Hbt : Z.to_nat bt <> 0%nat).
  { apply orb_false_iff in Eg as [Eg _]. apply orb_false_iff in Eg as [_ Eg]. by apply Nat.eqb_neq in Eg. }
  destruct (held_read _ _) as [held|]; [|left; by simplify_eq]. destruct (negb (bool_decide (hc_recurrent_at held = []))); [left; by simplify_eq|].
  pose proof (at_most_le (hc_positions held `min` (length keys * Z.to_nat bt)) (positions_ceiling c (hc_cost held))) as Hle. set (w := at_most _ _) in E, Hle.
  assert (Hw : (w / Z.to_nat bt <= length keys)%nat) by (apply Nat.Div0.div_le_upper_bound; lia).
  rewrite Nat.div_mul in E by done. destruct ((w / Z.to_nat bt * Z.to_nat bt =? 0)%nat || _); [left; by simplify_eq|].
  destruct (covered_by_chain m _ _ _ c) as [[o c1]|] eqn:Ec.
  { left. simplify_eq. by eapply covered_by_chain_shrinks. }
  set (r := room _) in *. pose proof (at_most_le (w / Z.to_nat bt * Z.to_nat bt) (sr_max_positions r)) as Hle2. set (w2 := at_most (_ * _) _) in *.
  rewrite Nat.div_mul in E by done. destruct (_ || (_ <? hc_serves held)%nat) eqn:Eb; [left; by simplify_eq|].
  assert (Hb0 : (0 < w2 / Z.to_nat bt)%nat).
  { apply orb_false_iff in Eb as [Eb _]. apply orb_false_iff in Eb as [Eb _]. apply Nat.eqb_neq in Eb. lia. }
  assert (Hb : (w2 / Z.to_nat bt <= length keys)%nat) by (etransitivity; [|exact Hw]; apply Nat.Div0.div_le_upper_bound; lia).
  clear Eb Ec. destruct (_ <? _ * _)%nat; [|right; by exists held, (w2 / Z.to_nat bt)%nat, r].
  destruct (covered_by_chain m _ _ _ c) as [[o c1]|] eqn:Ec2.
  { left. simplify_eq. by eapply covered_by_chain_shrinks. }
  destruct (cut_keeps_more _ _ _); [left; by simplify_eq|]. right. by exists held, (w2 / Z.to_nat bt)%nat, r.
Qed.
End saving.

(** ** A worker's cache over time *)

Section steps.
Context `{Candle, DeltaNet, !SsmTensors, !Devices}.
Context (blake3 : bytes -> bytes).

(** What is known of the caches a prompt, or a chain, is saved from. *)
Context (read : bytes -> list Z -> KvCacheEntry -> Prop) (read_chain : bytes -> Z -> list bytes -> KvCacheEntry -> Prop).

(** One call at a time. *)
Inductive cache_step (c : PrefixCache) : PrefixCache -> Prop :=
| StepLookup m input answers o c' answers' : lookup_prefix m input c answers = (o, c', answers') -> cache_step c c'
| StepLookupChain m bt keys want answers o c' answers' : lookup_chain m bt keys want c answers = (o, c', answers') -> cache_step c c'
| StepInsert after_copy dev m request st prompt room keep answers out c' answers' :
    (forall e, caches st !! cache_key m request = Some e -> read m prompt e) ->
    insert_from_kv blake3 after_copy dev m request st prompt room keep c answers = (out, c', answers') -> cache_step c c'
| StepInsertChain after_copy dev m request st bt keys room answers out c' answers' :
    (forall e, caches st !! cache_key m request = Some e -> read_chain m bt keys e) ->
    insert_chain_from_kv after_copy dev m request st bt keys room c answers = (out, c', answers') -> cache_step c c'
| StepRelease needed home freed c' : release_saved needed home c = (freed, c') -> cache_step c c'.

Definition cache_runs (c : PrefixCache) : Prop := exists enabled max_entries block_tokens min_tokens max_prompt_tokens max_bytes,
  (1 <= min_tokens)%nat /\ rtc cache_step (prefix_cache_new enabled max_entries block_tokens min_tokens max_prompt_tokens max_bytes) c.

Lemma cache_runs_ind (P : PrefixCache -> Prop) :
  (forall enabled max_entries block_tokens min_tokens max_prompt_tokens max_bytes, (1 <= min_tokens)%nat ->
    P (prefix_cache_new enabled max_entries block_tokens min_tokens max_prompt_tokens max_bytes)) ->
  (forall c c', cache_step c c' -> P c -> P c') -> forall c, cache_runs c -> P c.
Proof. intros Hnew Hstep c (en & me & bt & mt & mp & mb & Hmt & Hr). specialize (Hnew en me bt mt mp mb Hmt). induction Hr; eauto. Qed.
End steps.

(** ** A prompt is served its own opening *)

Section serving.
Context `{Candle, DeltaNet, !SsmTensors, !Devices}.
Context (windowed mirror_is_lazy : bool) (wants_shadow : Tensor -> bool) (blake3 : bytes -> bytes).
Context (Hkernel : (1 <= conv_kernel)%nat).

(** What reading tokens, or the tokens behind a chain of keys, gives each layer of a
    model: its rows, or what its recurrence consumes; which layers a node runs, and how
    they keep their caches. *)
Context (rows : bytes -> list Z -> list Given) (hists : bytes -> list Z -> list (list Token)) (chain_rows : bytes -> Z -> list bytes -> list Given).
Context (attends recurs : bytes -> nat -> bool) (wins : bytes -> nat -> option nat) (dts : bytes -> nat -> DType).

(** Reading is causal: what a layer is given at a position depends on the tokens up to it. *)
Record causal : Prop := {
  cs_tokens : forall m n ts ts', (n <= length ts)%nat -> (n <= length ts')%nat -> take n ts = take n ts' ->
    agree n (rows m ts) (rows m ts') /\ agree_hists n (hists m ts) (hists m ts');
  cs_chain : forall m bt n ks ks', (n <= length ks)%nat -> (n <= length ks')%nat -> take n ks = take n ks' ->
    agree (n * Z.to_nat bt) (chain_rows m bt ks) (chain_rows m bt ks');
  cs_length : forall m ts i g, rows m ts !! i = Some g -> (length (gv_keys g) <= length ts)%nat }.
Context (Hcausal : causal).

Definition snapshot_whole (m : bytes) (states : bool) (s : KvSnapshot) : Prop :=
  (forall i, attends m i = true -> exists kv, sn_layers s !! i = Some (Some kv)) /\
  (states = true -> forall i, recurs m i = true -> exists slot, sn_ssm s !! i = Some (Some slot)).

Definition entry_ok (m : bytes) (e : Entry) : Prop :=
  match en_chain e with
  | [] => snapshot_of (wins m) (dts m) (en_snapshot e) (rows m (en_tokens e)) (hists m (en_tokens e)) /\
      sn_token_count (en_snapshot e) = length (en_tokens e) /\ snapshot_whole m true (en_snapshot e)
  | chain => en_tokens e = [] /\ snapshot_of (wins m) (dts m) (en_snapshot e) (chain_rows m (en_chain_block e) chain) [] /\
      sn_token_count (en_snapshot e) = (length chain * Z.to_nat (en_chain_block e))%nat /\ snapshot_whole m false (en_snapshot e)
  end.

Definition cache_ok (c : PrefixCache) : Prop := (1 <= pc_min_tokens c)%nat /\ forall m e, e ∈ bucket_of c m -> entry_ok m e.

Lemma cache_ok_shrinks c c' : shrinks c c' -> cache_ok c -> cache_ok c'.
Proof.
  intros [Hset _ Hent] [Hmin Hok]. split; [by rewrite Hset|]. intros m e' He. destruct (Hent m e' He) as (e & Hin & [->|(t & _ & ->)]); [auto|].
  by apply (Hok m e).
Qed.

(** A request's caches hold what reading [ts] gives, as far as [ts] went. *)
Record holds_reading (m : bytes) (states : bool) (gs : list Given) (hs : list (list Token)) (e : KvCacheEntry) : Prop := {
  hr_stands : entry_stands windowed e gs hs;
  hr_kept : forall i kv, layers e !! i = Some (Some kv) -> wins m i = lk_window kv /\ sc_dtype (kp_k (lk_main kv)) = Some (dts m i);
  hr_attends : forall i, attends m i = true -> exists kv, layers e !! i = Some (Some kv);
  hr_recurs : states = true -> forall i, recurs m i = true -> layers e !! i = Some None /\ exists h, ssm_states e !! i = Some (Some h) }.

Definition read_so_far (m : bytes) (prompt : list Z) (e : KvCacheEntry) : Prop :=
  exists ts, holds_reading m true (rows m ts) (hists m ts) e /\ (prompt `prefix_of` ts \/ ts `prefix_of` prompt).
Definition chain_so_far (m : bytes) (bt : Z) (keys : list bytes) (e : KvCacheEntry) : Prop :=
  exists gs hs, holds_reading m false gs hs e /\
    forall n, (n <= held_positions (layers e))%nat -> (n <= length keys * Z.to_nat bt)%nat -> agree n gs (chain_rows m bt keys).

Lemma saved_of m states gs hs e dev pos dim max_seq_len home answers s answers' : holds_reading m states gs hs e ->
  snapshot_at (layers e) (if states then ssm_states e else []) dev pos dim max_seq_len home answers = (Some s, answers') ->
  snapshot_of (wins m) (dts m) s gs (if states then hs else []) /\ snapshot_whole m states s /\ sn_token_count s = pos.
Proof using Hkernel.
  intros Hh E.
  set (e' := {| layers := layers e; ssm_states := if states then ssm_states e else []; last_accessed := last_accessed e |}).
  assert (He' : entry_stands windowed e' gs (if states then hs else [])).
  { destruct (hr_stands _ _ _ _ _ Hh) as [HL HS]. split; [done|]. cbn. destruct states; [done|constructor]. }
  destruct (snapshot_at_of _ Hkernel e' _ _ (wins m) (dts m) _ _ _ _ _ _ _ _ He' (hr_kept _ _ _ _ _ Hh) E) as (Hs & Hall & Hc).
  split_and!; [done| |done]. split.
  - intros i Hi. apply Hall. by apply (hr_attends _ _ _ _ _ Hh).
  - intros -> i Hi. destruct (hr_recurs _ _ _ _ _ Hh eq_refl i Hi) as (Hn & h & Hst). by eapply (ha_state _ _ Hall).
Qed.

Lemma held_positions_le m ts e states : holds_reading m states (rows m ts) (hists m ts) e -> (held_positions (layers e) <= length ts)%nat.
Proof using Hkernel Hcausal.
  intros Hh. unfold held_positions. destruct (omap id (layers e)) as [|kv l] eqn:El; [lia|].
  assert (Hin : kv ∈ omap id (layers e)) by (rewrite El; left). apply list_elem_of_omap in Hin as ([kv'|] & Hin & E); [|done]. cbn in E. simplify_eq.
  apply list_elem_of_lookup in Hin as [i Hi]. destruct (hr_stands _ _ _ _ _ Hh) as [HL _]. destruct (Forall2_lookup_l _ _ _ _ _ HL Hi) as (g & Hg & Hw & Hr).
  pose proof Hr as Hok. pose proof (ke_len _ _ _ (lo_keys _ _ _ _ _ Hok)) as Hlen.
  unfold lk_current_seq_len, pair_current_seq_len. rewrite Hlen. by eapply cs_length.
Qed.

Lemma add_entry_ok key replaced entry c : cache_ok c -> entry_ok key (entry (pc_clock c + 1)) -> cache_ok (add_entry_to key replaced entry c).
Proof. intros [Hmin Hok] He. split; [done|]. intros m e' [?|[-> ->]]%add_entry_elem; auto. Qed.

Lemma take_prefixes (n : nat) (prompt ts : list Z) : prompt `prefix_of` ts \/ ts `prefix_of` prompt -> (n <= length prompt)%nat -> (n <= length ts)%nat ->
  take n ts = take n prompt.
Proof. intros [[k ->]|[k ->]] ? ?; by rewrite take_app_le. Qed.

Lemma save_tokens_ok after_copy dev m st key held prompt n room keep c answers out c' answers' : cache_ok c ->
  (forall e, caches st !! key = Some e -> read_so_far m prompt e) -> (n <= length prompt)%nat ->
  save_tokens blake3 after_copy dev m st key held (take n prompt) room keep c answers = (out, c', answers') -> cache_ok c'.
Proof using Hkernel Hcausal.
  intros Hc Hread Hn E. unfold save_tokens in E. rewrite length_take_le in E by done. destruct (caches st !! key) as [e|]; [|by simplify_eq].
  destruct (Nat.ltb_spec (held_positions (layers e)) n) as [|Hh]; [by simplify_eq|].
  destruct (make_room _ _ _ _ _ c) as [made c1] eqn:Em. apply make_room_shrinks in Em. pose proof (cache_ok_shrinks _ _ Em Hc) as Hc1.
  destruct (snapshot_at _ _ _ _ _ _ _ answers) as [[s|] a1] eqn:Es; [|by simplify_eq]. simplify_eq. apply add_entry_ok; [done|].
  destruct (Hread e eq_refl) as (ts & Hr & Hpre). destruct (saved_of _ _ _ _ _ _ _ _ _ _ _ _ _ Hr Es) as (Hs & Hw & Htc).
  unfold entry_ok. cbn [en_chain en_tokens en_snapshot]. rewrite length_take_le by done. split_and!; [|done|done].
  pose proof (held_positions_le _ _ _ _ Hr). destruct (cs_tokens Hcausal m n ts (take n prompt)) as [Hg Hhs]; [lia|rewrite length_take; lia| |].
  { rewrite take_take, Nat.min_id. apply take_prefixes; [done|done|lia]. }
  eapply snapshot_of_agree; [exact Hs|by rewrite Htc..].
Qed.

Lemma insert_from_kv_ok after_copy dev m request st prompt room keep c answers out c' answers' : cache_ok c ->
  (forall e, caches st !! cache_key m request = Some e -> read_so_far m prompt e) ->
  insert_from_kv blake3 after_copy dev m request st prompt room keep c answers = (out, c', answers') -> cache_ok c'.
Proof using Hkernel Hcausal.
  intros Hc Hread E. destruct (insert_from_kv_cases _ _ _ _ _ _ _ _ _ _ _ _ _ _ E) as [Hs|(held & n & r & _ & Hn & _ & _ & Es)].
  - by eapply cache_ok_shrinks.
  - by eapply save_tokens_ok.
Qed.

Lemma agree_trans n a b c : agree n a b -> agree n b c -> agree n a c.
Proof.
  intros Hab Hbc i g Hg Hn Hkv. destruct (Hab i g Hg Hn Hkv) as (g' & Hg' & Hn' & Hkv' & -> & ->). apply (Hbc i g' Hg' Hn' Hkv').
Qed.

Lemma save_chain_ok after_copy dev m st key held keys blocks bt room c answers out c' answers' : cache_ok c ->
  (forall e, caches st !! key = Some e -> chain_so_far m bt keys e) -> (blocks <= length keys)%nat -> (0 < blocks)%nat ->
  save_chain after_copy dev m st key held (take blocks keys) bt (blocks * Z.to_nat bt) room c answers = (out, c', answers') -> cache_ok c'.
Proof using Hkernel Hcausal.
  intros Hc Hread Hb Hb0 E. unfold save_chain in E. destruct (caches st !! key) as [e|]; [|by simplify_eq].
  destruct (Nat.ltb_spec (held_positions (layers e)) (blocks * Z.to_nat bt)) as [|Hh]; [by simplify_eq|].
  destruct (make_room _ _ _ _ _ c) as [made c1] eqn:Em. apply make_room_shrinks in Em. pose proof (cache_ok_shrinks _ _ Em Hc) as Hc1.
  destruct (snapshot_at _ _ _ _ _ _ _ answers) as [[s|] a1] eqn:Es; [|by simplify_eq]. simplify_eq. apply add_entry_ok; [done|].
  destruct (Hread e eq_refl) as (gs & hs & Hr & Hagree). destruct (saved_of _ false _ _ _ _ _ _ _ _ _ _ _ Hr Es) as (Hs & Hw & Htc).
  assert (Hl : length (take blocks keys) = blocks) by (by rewrite length_take_le).
  assert (Hof : snapshot_of (wins m) (dts m) s (chain_rows m bt (take blocks keys)) []).
  { eapply snapshot_of_agree; [exact Hs| |by intros ? ? ?]. rewrite Htc. eapply agree_trans; [apply Hagree; [done|nia]|].
    apply (cs_chain Hcausal); [done|lia|]. by rewrite take_take, Nat.min_id. }
  unfold entry_ok. cbn [en_chain en_tokens en_snapshot en_chain_block]. destruct (take blocks keys) as [|k ks] eqn:Ek; [cbn in Hl; lia|].
  split_and!; try done. rewrite Htc. f_equal. by rewrite <- Hl.
Qed.

Lemma insert_chain_from_kv_ok after_copy dev m request st bt keys room c answers out c' answers' : cache_ok c ->
  (forall e, caches st !! cache_key m request = Some e -> chain_so_far m bt keys e) ->
  insert_chain_from_kv after_copy dev m request st bt keys room c answers = (out, c', answers') -> cache_ok c'.
Proof using Hkernel Hcausal.
  intros Hc Hread E. destruct (insert_chain_from_kv_cases _ _ _ _ _ _ _ _ _ _ _ _ _ E) as [Hs|(held & blocks & r & Hb & Hb0 & Es)].
  - by eapply cache_ok_shrinks.
  - by eapply save_chain_ok.
Qed.

Lemma lookup_prefix_shrinks m input c answers o c' answers' : lookup_prefix m input c answers = (o, c', answers') -> shrinks c c'.
Proof.
  unfold lookup_prefix. intros E. repeat case_match; simplify_eq; (done || apply mark_hit_shrinks).
Qed.
Lemma lookup_chain_shrinks m bt keys want c answers o c' answers' : lookup_chain m bt keys want c answers = (o, c', answers') -> shrinks c c'.
Proof.
  unfold lookup_chain. intros E. repeat case_match; simplify_eq; (done || apply mark_hit_shrinks).
Qed.

Abbreviation reading_step := (cache_step blake3 read_so_far chain_so_far).
Abbreviation reading_runs := (cache_runs blake3 read_so_far chain_so_far).

Lemma cache_step_ok c c' : reading_step c c' -> cache_ok c -> cache_ok c'.
Proof using Hkernel Hcausal.
  intros Hstep Hc. destruct Hstep.
  - eapply cache_ok_shrinks; [by eapply lookup_prefix_shrinks|done].
  - eapply cache_ok_shrinks; [by eapply lookup_chain_shrinks|done].
  - by eapply insert_from_kv_ok.
  - by eapply insert_chain_from_kv_ok.
  - eapply cache_ok_shrinks; [by eapply release_saved_shrinks|done].
Qed.
Lemma cache_runs_ok c : reading_runs c -> cache_ok c.
Proof using Hkernel Hcausal.
  revert c. apply cache_runs_ind; [|apply cache_step_ok]. intros en me bt mt mp mb Hmt. split; [done|intros m e He; by apply elem_of_nil in He].
Qed.

(** The winner of a lookup, and that what it saved serves the prompt. *)
Lemma usable_entry c m input e : cache_ok c -> e ∈ bucket_of c m -> usable_from (pc_min_tokens c) input e ->
  let n := usable_prefix input e in
  (pc_min_tokens c <= n < length input)%nat /\ (n <= sn_token_count (en_snapshot e))%nat /\ snapshot_whole m true (en_snapshot e) /\
  take n (en_tokens e) = take n input /\ (n <= length (en_tokens e))%nat /\
  snapshot_of (wins m) (dts m) (en_snapshot e) (rows m (en_tokens e)) (hists m (en_tokens e)).
Proof.
  intros [Hmin Hok] Hin [Hu Hs] n. subst n. unfold usable_prefix in *. destruct (shared_tokens_spec (en_tokens e) input) as (Ht & Hla & Hlb).
  specialize (Hok m e Hin). unfold entry_ok in Hok. destruct (en_chain e) as [|k ks].
  - destruct Hok as (Hof & Htc & Hw). split_and!; [lia|lia|lia|done| |lia|done].
    set (n := (shared_tokens (en_tokens e) input `min` _)%nat). replace n with (n `min` shared_tokens (en_tokens e) input)%nat by lia.
    by rewrite <- !take_take, Ht.
  - destruct Hok as (Hnil & _). exfalso. rewrite Hnil in Hu. cbn in Hu. lia.
Qed.

Lemma narrowed m s n answers s' answers' gs hs : snapshot_of (wins m) (dts m) s gs hs -> snapshot_whole m true s ->
  (if (n =? sn_token_count s)%nat then (Some s, answers) else narrow_snapshot s n answers) = (Some s', answers') ->
  snapshot_of (wins m) (dts m) s' gs hs /\ snapshot_whole m true s' /\ sn_token_count s' = n.
Proof.
  intros Hof Hw E. destruct (Nat.eqb_spec n (sn_token_count s)) as [->|]; [by simplify_eq|].
  destruct (narrow_of Hkernel _ _ _ _ _ _ _ _ _ Hof E) as (Hof' & Htc & _ & Hkv & Hst). split_and!; [done| |done]. destruct Hw as [Ha Hr]. split.
  - intros i Hi. apply Hkv. auto.
  - intros Ht i Hi. destruct (Hr Ht i Hi) as [slot Hs]. eauto.
Qed.

Lemma lookup_prefix_of c m input answers s c' answers' : cache_ok c -> lookup_prefix m input c answers = (Some s, c', answers') ->
  snapshot_of (wins m) (dts m) s (rows m input) (hists m input) /\ snapshot_whole m true s /\
  (pc_min_tokens c <= sn_token_count s < length input)%nat /\
  (exists e, e ∈ bucket_of c m /\ usable_from (pc_min_tokens c) input e /\ sn_token_count s = usable_prefix input e) /\
  forall e, e ∈ bucket_of c m -> usable_from (pc_min_tokens c) input e -> (usable_prefix input e <= sn_token_count s)%nat.
Proof using Hkernel Hcausal.
  intros Hc E. unfold lookup_prefix in E. destruct (_ || _); [done|].
  pose proof (best_entry_spec (pc_min_tokens c) input (bucket_of c m)) as Hbest. destruct (best_entry _ _ _) as [[i u]|]; [|done].
  destruct Hbest as (e & Hi & -> & Hu & Hmax). rewrite Hi in E. pose proof (list_elem_of_lookup_2 _ _ _ Hi) as Hin.
  destruct (usable_entry _ _ _ _ Hc Hin Hu) as (Hn & Htc & Hw & Ht & Hl & Hof). set (n := usable_prefix input e) in *.
  assert (E' : (if (n =? sn_token_count (en_snapshot e))%nat then (Some (en_snapshot e), answers) else narrow_snapshot (en_snapshot e) n answers) = (Some s, answers')).
  { destruct (_ =? _)%nat; [by simplify_eq|]. destruct (narrow_snapshot _ _ _) as [o a]. by simplify_eq. }
  destruct (narrowed _ _ _ _ _ _ _ _ Hof Hw E') as (Hof' & Hw' & Hc'). rewrite Hc'. split_and!; [|done|lia|lia|by exists e|done].
  destruct (cs_tokens Hcausal m n (en_tokens e) input) as [Hg Hh]; [done|lia|done|]. eapply snapshot_of_agree; [exact Hof'|by rewrite Hc'..].
Qed.

Lemma lookup_prefix_none c m input answers c' answers' : cache_ok c -> false ∉ answers -> pc_enabled c = true -> (pc_min_tokens c <= length input)%nat ->
  lookup_prefix m input c answers = (None, c', answers') -> forall e, e ∈ bucket_of c m -> ~ usable_from (pc_min_tokens c) input e.
Proof.
  intros Hc Ha Hen Hlen E. unfold lookup_prefix in E. rewrite Hen, (proj2 (Nat.ltb_ge _ _) Hlen) in E. cbn [negb orb] in E.
  pose proof (best_entry_spec (pc_min_tokens c) input (bucket_of c m)) as Hbest. destruct (best_entry _ _ _) as [[i u]|]; [|done].
  destruct Hbest as (e & Hi & -> & Hu & Hmax). rewrite Hi in E. pose proof (list_elem_of_lookup_2 _ _ _ Hi) as Hin.
  destruct (usable_entry _ _ _ _ Hc Hin Hu) as (Hn & Htc & Hw & Ht & Hl & Hof). destruct (_ =? _)%nat; [done|].
  destruct (narrow_total _ _ _ _ _ (usable_prefix input e) answers Hof Ha) as (s' & a' & En); [apply Hu|done|]. by rewrite En in E.
Qed.

(** C8: in whatever order a worker's prompts were looked up, saved, evicted and released,
    a request that the prefix cache serves is where reading its own prompt would have left
    it: the count it resumes at is below the prompt's length, every attention layer holds
    the keys and values of exactly that opening of this prompt, and every recurrent layer
    the state after exactly those tokens.  Every save was made from caches that held a
    reading of the prompt saved; the request has no caches of its own yet. *)
Theorem served_request_is_where_reading_leaves_it c m input answers s c' answers1 request layouts now st n st' answers2 :
  reading_runs c -> lookup_prefix m input c answers = (Some s, c', answers1) ->
  layouts_fit windowed layouts (wins m) (dts m) -> caches st !! cache_key m request = None ->
  hydrate_request_from_snapshot windowed mirror_is_lazy wants_shadow m request s layouts now st answers1 = (Ok n, st', answers2) ->
  (pc_min_tokens c <= n < length input)%nat /\ exists e', caches st' = <[cache_key m request := e']> (caches st) /\
    (forall i, attends m i = true -> exists g l, rows m input !! i = Some g /\ layers e' !! i = Some (Some l) /\
      layer_ok windowed (wins m i) l (take n (gv_keys g)) (take n (gv_values g))) /\
    (forall i, recurs m i = true -> exists hist h, hists m input !! i = Some hist /\ ssm_states e' !! i = Some (Some h) /\
      positions h = n /\ current h = slot_after (take n hist)).
Proof using Hkernel Hcausal.
  intros Hc El Hfit Hnone Eh. destruct (lookup_prefix_of _ _ _ _ _ _ _ (cache_runs_ok _ Hc) El) as (Hof & [Ha Hr] & Hn & _).
  destruct (hydrate_of windowed mirror_is_lazy wants_shadow Hkernel _ _ _ _ _ _ _ _ _ _ _ _ _ _ Hof Hfit Hnone Eh) as (-> & e' & Hst & _ & Hlay & _ & Hss).
  split; [done|]. exists e'. split_and!; [done|..].
  - intros i Hi. destruct (Ha i Hi) as [kv Hkv]. by eapply Hlay.
  - intros i Hi. destruct (Hr eq_refl i Hi) as [slot Hs]. by eapply Hss.
Qed.

(** C14: where no copy fails, a lookup answers with the longest opening of the prompt that
    any saved entry can serve, and with nothing only where none can serve the least a hit
    may be worth. *)
Theorem lookup_takes_the_longest c m input answers : reading_runs c -> false ∉ answers -> pc_enabled c = true -> (pc_min_tokens c <= length input)%nat ->
  match (lookup_prefix m input c answers).1.1 with
  | Some s => (exists e, e ∈ bucket_of c m /\ usable_from (pc_min_tokens c) input e /\ sn_token_count s = usable_prefix input e) /\
      forall e, e ∈ bucket_of c m -> usable_from (pc_min_tokens c) input e -> (usable_prefix input e <= sn_token_count s)%nat
  | None => forall e, e ∈ bucket_of c m -> ~ usable_from (pc_min_tokens c) input e
  end.
Proof using Hkernel Hcausal.
  intros Hc Ha Hen Hl. apply cache_runs_ok in Hc. destruct (lookup_prefix m input c answers) as [[[s|] c'] a'] eqn:E; cbn.
  - by destruct (lookup_prefix_of _ _ _ _ _ _ _ Hc E) as (_ & _ & _ & He & Hmax).
  - by eapply lookup_prefix_none.
Qed.

(** A split's segment asked for the first [want] positions of a chain is served rows
    of those positions of that chain and no others. *)
Theorem segment_is_served_its_own_opening c m bt keys want answers s c' answers' : reading_runs c ->
  lookup_chain m bt keys want c answers = (Some s, c', answers') ->
  snapshot_of (wins m) (dts m) s (chain_rows m bt keys) [] /\ snapshot_whole m false s /\ sn_token_count s = want.
Proof using Hkernel Hcausal.
  intros Hc E. apply cache_runs_ok in Hc. unfold lookup_chain in E. destruct (_ || _) eqn:Eg; [done|].
  apply orb_false_iff in Eg as [Eg Hmod%negb_false_iff%Nat.eqb_eq]. apply orb_false_iff in Eg as [Eg Hw0%Nat.eqb_neq].
  apply orb_false_iff in Eg as [_ Hbt%Nat.eqb_neq]. set (b := Z.to_nat bt) in *.
  destruct (Nat.ltb_spec (length keys) (want / b)) as [|Hlen]; [done|].
  assert (Hwant : want = (want / b * b)%nat) by (pose proof (Nat.div_mod_eq want b); lia).
  destruct (list_find _ _) as [[i e]|] eqn:Ef; [|done]. apply list_find_Some in Ef as (Hi & Hcov & _).
  unfold covers_chain in Hcov. apply andb_true_iff in Hcov as [Hcov Hsv%Nat.leb_le]. apply andb_true_iff in Hcov as [Hcov Htc%Nat.leb_le].
  apply andb_true_iff in Hcov as [Hblk%Z.eqb_eq Hpre]. pose proof (is_prefix_take _ _ Hpre) as Ht. unfold is_prefix in Hpre.
  apply bool_decide_eq_true, prefix_length in Hpre. rewrite length_take_le in Ht, Hpre by done.
  pose proof (proj2 Hc m e (list_elem_of_lookup_2 _ _ _ Hi)) as Hok. unfold entry_ok in Hok.
  destruct (en_chain e) as [|k ks] eqn:Ech; [cbn in Hpre; lia|]. rewrite Hblk in Hok. destruct Hok as (_ & Hof & Hcnt & Hwh).
  assert (E' : narrow_snapshot (en_snapshot e) want answers = (Some s, answers')).
  { destruct (Nat.eqb_spec (sn_token_count (en_snapshot e)) want) as [Heq|].
    - simplify_eq. unfold narrow_snapshot. by rewrite Nat.ltb_irrefl, (proj2 (Nat.ltb_ge _ _) Hsv), Nat.eqb_refl.
    - destruct (narrow_snapshot _ _ _) as [o a]. by simplify_eq. }
  destruct (narrow_of Hkernel _ _ _ _ _ _ _ _ _ Hof E') as (Hof' & Hc' & _ & Hkv & _). split_and!; [| |done].
  - eapply snapshot_of_agree; [exact Hof'| |by intros ? ? ?]. rewrite Hc', Hwant. apply (cs_chain Hcausal); [done|done|by rewrite <- Ht].
  - split; [|done]. intros j Hj. apply Hkv. by apply Hwh.
Qed.
End serving.

(** ** Eviction takes the least recently hit *)

(** The evictor a worker installs in its conversation store ([model_worker.rs]): what it
    frees, and what is then held. *)
Definition worker_evictor `{Candle, DeltaNet, !SsmTensors, !Devices} (c : PrefixCache) (needed : Z) : Z * Z :=
  let '(freed, c) := release_saved needed BesideLive c in (freed, bytes_in BesideLive c).

Section eviction.
Context `{Candle, DeltaNet, !SsmTensors, !Devices}.

Definition older (a b : Entry) : Prop := en_last_hit a <= en_last_hit b.
Definition weighed (l : list Entry) : Prop := Forall (fun e => 0 <= snapshot_bytes (en_snapshot e)) l.
Definition homed (home : SnapshotHome) (e : Entry) : Prop := snapshot_home (en_snapshot e) = home.

Lemma entries_bytes_app a b : entries_bytes (a ++ b) = entries_bytes a + entries_bytes b.
Proof. unfold entries_bytes. rewrite map_app. induction a as [|x a IH]; cbn; [done|]. cbn in IH. lia. Qed.
Lemma entries_bytes_in_app home a b : entries_bytes_in home (a ++ b) = entries_bytes_in home a + entries_bytes_in home b.
Proof. unfold entries_bytes_in. rewrite map_app. induction a as [|x a IH]; cbn; [done|]. cbn in IH. lia. Qed.
Lemma entries_bytes_perm a b : a ≡ₚ b -> entries_bytes a = entries_bytes b.
Proof. induction 1; unfold entries_bytes in *; cbn in *; lia. Qed.
Lemma entries_bytes_in_perm home a b : a ≡ₚ b -> entries_bytes_in home a = entries_bytes_in home b.
Proof. induction 1; unfold entries_bytes_in in *; cbn in *; lia. Qed.
Lemma entries_bytes_nonneg l : weighed l -> 0 <= entries_bytes l.
Proof. induction 1 as [|x l Hx Hl IH]; unfold entries_bytes in *; cbn in *; lia. Qed.
Lemma weighed_perm a b : a ≡ₚ b -> weighed a -> weighed b.
Proof. unfold weighed. intros Hp. by rewrite Hp. Qed.

Lemma entries_bytes_homed home home' l : Forall (homed home) l -> entries_bytes_in home' l = if decide (home = home') then entries_bytes l else 0.
Proof.
  induction 1 as [|x l Hx Hl IH]; unfold entries_bytes_in, entries_bytes in *; cbn in *; [by case_decide|].
  rewrite IH. unfold snapshot_bytes_in. rewrite Hx. case_decide; lia.
Qed.

(** *** Over every model *)

Lemma elem_of_all m e : e ∈ all_entries m <-> exists key, e ∈ bucket_in m key.
Proof.
  unfold all_entries, bucket_in. rewrite list_elem_of_In, in_flat_map. split.
  - intros ([key b] & Hin & He). exists key. apply list_elem_of_In, elem_of_map_to_list in Hin. rewrite Hin. by apply list_elem_of_In.
  - intros [key He]. destruct (m !! key) as [b|] eqn:Eb; cbn in He; [|by apply elem_of_nil in He].
    exists (key, b). split; [by apply list_elem_of_In, elem_of_map_to_list|by apply list_elem_of_In].
Qed.

Lemma oldest_of_spec l : match oldest_of l with Some x => x ∈ l /\ forall y, y ∈ l -> x.1.1 <= y.1.1 | None => l = [] end.
Proof.
  unfold oldest_of. induction l as [|x l IH] using rev_ind; [done|]. rewrite fold_left_app. cbn. destruct (fold_left _ l None) as [b|].
  - destruct IH as [Hin Hmin]. destruct (Z.ltb_spec x.1.1 b.1.1); (split; [apply elem_of_app; (by left) || (right; left)|]);
      intros y [Hy| ->]%elem_of_snoc; try specialize (Hmin y Hy); lia.
  - subst l. split; [left|]. by intros y ->%list_elem_of_singleton.
Qed.

Lemma in_memory_elem home key b x : x ∈ in_memory home key b <-> exists i e, b !! i = Some e /\ homed home e /\ x = (en_last_hit e, key, i).
Proof.
  unfold in_memory. rewrite list_elem_of_omap. split.
  - intros ([i e] & Hin & E). apply list_elem_of_lookup in Hin as [j Hj]. apply lookup_zip_with_Some in Hj as (i' & e' & [= <- <-] & Hs & Hb).
    apply lookup_seq in Hs as [-> _]. cbn in E. case_decide as Hd; [|done]. simplify_eq. exists j, e. split_and!; done.
  - intros (i & e & Hi & Hh & ->). exists (i, e). cbn. rewrite decide_True by done. split; [|done]. apply list_elem_of_lookup. exists i.
    apply lookup_zip_with_Some. exists i, e. split_and!; [done| |done]. apply lookup_seq. split; [done|by eapply lookup_lt_Some].
Qed.

Lemma oldest_in_spec home m :
  match oldest_in home m with
  | Some (t, key, i) => exists e, bucket_in m key !! i = Some e /\ homed home e /\ forall e', e' ∈ all_entries m -> homed home e' -> older e e'
  | None => forall e, e ∈ all_entries m -> ~ homed home e
  end.
Proof.
  unfold oldest_in. set (l := flat_map _ _).
  assert (Hl : forall x, x ∈ l <-> exists key i e, bucket_in m key !! i = Some e /\ homed home e /\ x = (en_last_hit e, key, i)).
  { intros x. unfold l. rewrite list_elem_of_In, in_flat_map. split.
    - intros ([key b] & Hin & Hx). apply list_elem_of_In, elem_of_map_to_list in Hin. apply list_elem_of_In, in_memory_elem in Hx as (i & e & Hi & Hh & ->).
      exists key, i, e. unfold bucket_in. by rewrite Hin.
    - intros (key & i & e & Hi & Hh & ->). unfold bucket_in in Hi. destruct (m !! key) as [b|] eqn:Eb; [|done].
      exists (key, b). split; [by apply list_elem_of_In, elem_of_map_to_list|]. apply list_elem_of_In, in_memory_elem. eauto. }
  assert (Hall : forall e, e ∈ all_entries m -> homed home e -> exists key i, (en_last_hit e, key, i) ∈ l).
  { intros e [key [i Hi]%list_elem_of_lookup]%elem_of_all Hh. exists key, i. apply Hl. by exists key, i, e. }
  pose proof (oldest_of_spec l) as Ho. destruct (oldest_of l) as [[[t key] i]|].
  - destruct Ho as [Hin Hmin]. apply Hl in Hin as (key' & i' & e & Hi & Hh & [= -> -> ->]). exists e. split_and!; [done|done|].
    intros e' He' Hh'. destruct (Hall e' He' Hh') as (key2 & i2 & Hx). apply (Hmin _ Hx).
  - intros e He Hh. destruct (Hall e He Hh) as (key & i & Hx). rewrite Ho in Hx. by apply elem_of_nil in Hx.
Qed.

Lemma remove_entry_total key i m e : bucket_in m key !! i = Some e -> exists m', remove_entry key i m = Some (e, m').
Proof. unfold remove_entry, bucket_in. destruct (m !! key) as [b|]; cbn; [|done]. intros ->. cbn. eauto. Qed.

(** What a release takes, of the entries there were. *)
Record took (needed : Z) (home : SnapshotHome) (all gone left_ : list Entry) : Prop := {
  tk_split : all ≡ₚ gone ++ left_;
  tk_home : Forall (homed home) gone;
  tk_oldest : forall e e', e ∈ gone -> e' ∈ left_ -> homed home e' -> older e e';
  tk_enough : needed <= entries_bytes gone \/ forall e, e ∈ left_ -> ~ homed home e;
  tk_least : gone = [] \/ exists init e, gone = init ++ [e] /\ entries_bytes init < needed }.

Lemma take_lrh_took fuel needed freed home m gone m' : weighed (all_entries m) -> 0 <= freed ->
  freed + entries_bytes (all_entries m) <= u64_max -> (length (all_entries m) <= fuel)%nat ->
  take_least_recently_hit fuel needed freed home m = (gone, m') -> took (needed - freed) home (all_entries m) gone (all_entries m').
Proof.
  revert freed m gone. induction fuel as [|fuel IH]; intros freed m gone Hw Hf Hmax Hfuel E; cbn in E.
  { destruct (all_entries m) as [|x l] eqn:Ea; [|cbn in Hfuel; lia]. simplify_eq.
    rewrite Ea. split; try done; [by intros ? ? ?%elem_of_nil|right; by intros ? ?%elem_of_nil|by left]. }
  destruct (Z.ltb_spec freed needed) as [Hlt|Hge].
  2: { simplify_eq. split; [done|constructor|by intros ? ? ?%elem_of_nil|left; cbn; lia|by left]. }
  pose proof (oldest_in_spec home m) as Ho. destruct (oldest_in home m) as [[[t key] i]|].
  2: { simplify_eq. split; [done|constructor|by intros ? ? ?%elem_of_nil|by right|by left]. }
  destruct Ho as (e & Hi & Hh & Hold). destruct (remove_entry_total _ _ _ _ Hi) as [m1 Er]. rewrite Er in E.
  destruct (take_least_recently_hit fuel _ _ home m1) as [g m2] eqn:Et. simplify_eq. apply remove_entry_in in Er as (Hp & _ & _).
  pose proof (weighed_perm _ _ Hp Hw) as Hw'. apply Forall_cons_1 in Hw' as [He Hw1]. pose proof (entries_bytes_nonneg _ Hw1) as Hn1.
  pose proof (entries_bytes_perm _ _ Hp) as Hb. change (e :: all_entries m1) with ([e] ++ all_entries m1) in Hb. rewrite entries_bytes_app in Hb.
  assert (He1 : entries_bytes [e] = snapshot_bytes (en_snapshot e)) by (unfold entries_bytes; cbn; lia).
  assert (Hs : u64_saturating_add freed (snapshot_bytes (en_snapshot e)) = freed + snapshot_bytes (en_snapshot e)) by (apply u64_saturating_add_exact; unfold is_u64; lia).
  rewrite Hs in Et. apply IH in Et as [Hsp Hho Hol Hen Hle]; [|done|lia|lia|rewrite Hp in Hfuel; cbn in Hfuel; lia].
  assert (Hcons : forall l, entries_bytes (e :: l) = snapshot_bytes (en_snapshot e) + entries_bytes l) by done.
  split; [cbn; by rewrite Hp, Hsp|by constructor| | |].
  - intros x x' [->|Hx]%elem_of_cons Hx' Hh'; [|by eapply Hol]. apply Hold; [|done]. rewrite Hp, Hsp. right. apply elem_of_app. by right.
  - destruct Hen as [?|?]; [left; rewrite Hcons; lia|by right].
  - right. destruct Hle as [->|(init & x & -> & Hlt')]; [exists [], e; split; [done|cbn; lia]|]. exists (e :: init), x. split; [done|rewrite Hcons; lia].
Qed.

(** releasing saved prompts of one memory frees what is asked or leaves none there:
    oldest hit first, no more of them than were needed, none of the other memory's, and
    what it reports freed is what is no longer held. *)
Theorem release_takes_the_oldest needed home c freed c' : weighed (all_entries (per_model c)) -> entries_bytes (all_entries (per_model c)) <= u64_max ->
  release_saved needed home c = (freed, c') ->
  exists gone, took needed home (all_entries (per_model c)) gone (all_entries (per_model c')) /\ freed = entries_bytes gone /\
    forall home', bytes_in home' c' = bytes_in home' c - (if decide (home = home') then freed else 0).
Proof.
  intros Hw Hb E. unfold release_saved in E. destruct (take_least_recently_hit _ _ _ _ _) as [gone m] eqn:Et. simplify_eq.
  apply take_lrh_took in Et; [|done|lia|lia|done]. rewrite Z.sub_0_r in Et. exists gone. split_and!; [done|done|]. intros home'.
  unfold bytes_in. cbn [per_model with_models]. fold (all_entries (per_model c)) (all_entries m).
  rewrite (entries_bytes_in_perm home' _ _ (tk_split _ _ _ _ _ Et)), entries_bytes_in_app, (entries_bytes_homed home home' _ (tk_home _ _ _ _ _ Et)). lia.
Qed.

Lemma entries_bytes_elsewhere home l : (forall e, e ∈ l -> ~ homed home e) -> entries_bytes_in home l = 0.
Proof.
  induction l as [|x l IH]; intros Hl; unfold entries_bytes_in in *; cbn; [done|]. rewrite IH by (intros e He; apply Hl; by right).
  unfold snapshot_bytes_in. rewrite decide_False; [done|]. apply (Hl x). left.
Qed.
Lemma entries_bytes_in_nonneg home l : weighed l -> 0 <= entries_bytes_in home l.
Proof.
  induction 1 as [|x l Hx Hl IH]; unfold entries_bytes_in in *; cbn in *; [done|]. unfold snapshot_bytes_in at 1. case_decide; lia.
Qed.

(** C15: the evictor a worker installs in its conversation store keeps the promise the
    store's claims rely on: asked for room it frees that much or every saved prompt beside
    the live caches, reports exactly what it freed, and leaves the store's figure of what
    saved prompts hold exact. *)
Theorem worker_evictor_keeps_books c st : weighed (all_entries (per_model c)) -> entries_bytes (all_entries (per_model c)) <= u64_max ->
  external_reserved st = bytes_in BesideLive c -> evictor_keeps_books (set_external_evictor (worker_evictor c) st).
Proof.
  intros Hw Hb Hr. unfold evictor_keeps_books. cbn. intros asked Ha. unfold worker_evictor. destruct (release_saved asked BesideLive c) as [freed c'] eqn:E.
  rewrite Hr. clear Hr. unfold release_saved in E. destruct (take_least_recently_hit _ _ _ _ _) as [gone m] eqn:Et. simplify_eq.
  apply take_lrh_took in Et as [Hsp Hho _ Hen _]; [|done|lia|lia|done]. rewrite Z.sub_0_r in Hen.
  unfold bytes_in. cbn [per_model with_models]. fold (all_entries (per_model c)) (all_entries m).
  pose proof (weighed_perm _ _ Hsp Hw) as [Hwg Hwl]%Forall_app.
  rewrite (entries_bytes_in_perm BesideLive _ _ Hsp), entries_bytes_in_app, (entries_bytes_homed BesideLive BesideLive _ Hho), decide_True by done.
  pose proof (entries_bytes_in_nonneg BesideLive _ Hwl). split_and!; [done|lia|].
  destruct Hen as [?|Hnone]; [lia|]. rewrite (entries_bytes_elsewhere _ _ Hnone). lia.
Qed.

(** *** Under a model's caps *)

Lemma insert_by_hit_snoc e l x : older e x -> insert_by_hit e (l ++ [x]) = insert_by_hit e l ++ [x].
Proof.
  intros Ho. induction l as [|y l IH]; cbn; [by rewrite (proj2 (Z.leb_le _ _) Ho)|]. destruct (_ <=? _); [done|]. by rewrite IH.
Qed.
Lemma sort_snoc l x : (forall e, e ∈ l -> older e x) -> sort_by_last_hit (l ++ [x]) = sort_by_last_hit l ++ [x].
Proof.
  unfold sort_by_last_hit. induction l as [|y l IH]; intros Ho; [done|]. cbn [app fold_right]. rewrite IH by (intros e He; apply Ho; by right). apply insert_by_hit_snoc, Ho. left.
Qed.

Lemma insert_by_hit_sorted e l : StronglySorted older l -> StronglySorted older (insert_by_hit e l).
Proof.
  induction 1 as [|x l Hl IH Hx]; cbn; [by repeat constructor|]. destruct (Z.leb_spec (en_last_hit e) (en_last_hit x)) as [Hle|Hlt].
  - constructor; [by constructor|]. constructor; [done|]. eapply list.Forall_impl; [exact Hx|]. unfold older. intros y Hy. cbn in Hy. lia.
  - constructor; [done|]. rewrite insert_by_hit_perm. constructor; [unfold older; lia|done].
Qed.
Lemma sort_sorted l : StronglySorted older (sort_by_last_hit l).
Proof. induction l; cbn; [constructor|by apply insert_by_hit_sorted]. Qed.

(** What goes is older than all that stays. *)
Definition drops_oldest (b b' : list Entry) : Prop := exists gone, b ≡ₚ gone ++ b' /\ forall e e', e ∈ gone -> e' ∈ b' -> older e e'.

Lemma sorted_split (a b : list Entry) : StronglySorted older (a ++ b) -> forall e e', e ∈ a -> e' ∈ b -> older e e'.
Proof.
  induction a as [|x a IH]; intros Hs e e' He He'; [by apply elem_of_nil in He|]. cbn in Hs. apply StronglySorted_inv in Hs as [Hs Hx].
  apply elem_of_cons in He as [->|He]; [|by eapply IH]. rewrite list.Forall_forall in Hx. apply Hx, elem_of_app. by right.
Qed.
Lemma suffix_of_sort b b' : b' `suffix_of` sort_by_last_hit b -> drops_oldest b b'.
Proof.
  intros [gone E]. exists gone. split; [by rewrite <- E, sort_perm|]. apply sorted_split. rewrite <- E. apply sort_sorted.
Qed.
Lemma drops_oldest_refl b : drops_oldest b b.
Proof. exists []. split; [done|]. by intros ? ? ?%elem_of_nil. Qed.
Lemma drops_oldest_trans a b c : drops_oldest a b -> drops_oldest b c -> drops_oldest a c.
Proof.
  intros (g1 & P1 & O1) (g2 & P2 & O2). exists (g1 ++ g2). split; [by rewrite P1, P2, (assoc_L (++))|].
  intros e e' [He|He]%elem_of_app He'; [|by apply O2]. apply O1; [done|]. rewrite P2. apply elem_of_app. by right.
Qed.

Lemma evict_bytes_over_spec max_bytes b total : weighed b -> total = entries_bytes b -> entries_bytes b <= u64_max ->
  let b' := evict_bytes_over max_bytes total b in list.last b' = list.last b /\ (entries_bytes b' <= max_bytes \/ (length b' <= 1)%nat).
Proof.
  revert total. induction b as [|x [|y b] IH]; intros total Hw Ht Hm; cbn [evict_bytes_over]; [split; [done|right; cbn; lia]..|].
  destruct (Z.ltb_spec max_bytes total) as [Hlt|Hge]; [|split; [done|left; lia]].
  apply Forall_cons_1 in Hw as [Hx Hw]. pose proof (entries_bytes_nonneg _ Hw).
  assert (Hc : entries_bytes (x :: y :: b) = snapshot_bytes (en_snapshot x) + entries_bytes (y :: b)) by done.
  destruct (IH (u64_saturating_sub total (snapshot_bytes (en_snapshot x)))) as [Hlast Hcap]; [done|unfold u64_saturating_sub, clamp; lia|lia|].
  split; [exact Hlast|exact Hcap].
Qed.

Lemma evict_over_caps_spec c b x : (1 <= pc_max_entries c)%nat -> (forall e, e ∈ b -> older e x) -> weighed (b ++ [x]) -> entries_bytes (b ++ [x]) <= u64_max ->
  let b' := evict_over_caps c (b ++ [x]) in
  list.last b' = Some x /\ (length b' <= pc_max_entries c)%nat /\ (0 < pc_max_bytes c -> entries_bytes b' <= pc_max_bytes c \/ b' = [x]) /\
  drops_oldest (b ++ [x]) b'.
Proof.
  intros Hmax Ho Hw Hb. unfold evict_over_caps.
  assert (Hfirst : exists b1, (if (pc_max_entries c <? length (b ++ [x]))%nat
      then drop (length (b ++ [x]) - pc_max_entries c) (sort_by_last_hit (b ++ [x])) else b ++ [x]) = b1 ++ [x] /\
    (length (b1 ++ [x]) <= pc_max_entries c)%nat /\ drops_oldest (b ++ [x]) (b1 ++ [x]) /\ forall e, e ∈ b1 -> older e x).
  { pose proof (Permutation_length (sort_perm b)) as Hlen. destruct (Nat.ltb_spec (pc_max_entries c) (length (b ++ [x]))) as [Hlt|Hge].
    - rewrite length_app in *. cbn [length] in *. exists (drop (length b + 1 - pc_max_entries c) (sort_by_last_hit b)).
      assert (E : drop (length b + 1 - pc_max_entries c) (sort_by_last_hit (b ++ [x])) = drop (length b + 1 - pc_max_entries c) (sort_by_last_hit b) ++ [x]).
      { rewrite sort_snoc by done. rewrite drop_app_le by lia. done. }
      split_and!; [exact E|rewrite length_app, length_drop; cbn; lia|rewrite <- E; apply suffix_of_sort, suffix_drop|].
      intros e He. apply Ho. rewrite <- (sort_perm b). eapply elem_of_submseteq; [done|apply submseteq_drop].
    - exists b. split_and!; [done|done|apply drops_oldest_refl|done]. }
  destruct Hfirst as (b1 & -> & Hl1 & Hd1 & Ho1).
  assert (Hw1 : weighed (b1 ++ [x])) by (destruct Hd1 as (g & P & _); pose proof (weighed_perm _ _ P Hw) as Hg; by apply Forall_app in Hg as [_ ?]).
  assert (Hb1 : entries_bytes (b1 ++ [x]) <= u64_max).
  { destruct Hd1 as (g & P & _). pose proof (weighed_perm _ _ P Hw) as [Hg _]%Forall_app. rewrite (entries_bytes_perm _ _ P), entries_bytes_app in Hb.
    pose proof (entries_bytes_nonneg _ Hg). lia. }
  assert (Hlast1 : list.last (b1 ++ [x]) = Some x) by apply last_snoc.
  destruct (Z.ltb_spec 0 (pc_max_bytes c)) as [Hp|Hn]; [|split_and!; [done|done|lia|done]].
  destruct (Z.ltb_spec (pc_max_bytes c) (entries_bytes (b1 ++ [x]))) as [Hov|Hin]; [|split_and!; [done|done|by left|done]].
  pose proof (evict_bytes_suffix (pc_max_bytes c) (sort_by_last_hit (b1 ++ [x])) (entries_bytes (b1 ++ [x]))) as Hsuf.
  destruct (evict_bytes_over_spec (pc_max_bytes c) (sort_by_last_hit (b1 ++ [x])) (entries_bytes (b1 ++ [x]))) as [Hlast Hcap];
    [by eapply weighed_perm; [symmetry; apply sort_perm|]|by apply entries_bytes_perm; rewrite sort_perm|by rewrite (entries_bytes_perm _ _ (sort_perm _))|].
  rewrite sort_snoc in Hlast at 2 by done. rewrite last_snoc in Hlast. split_and!; [done| | |].
  - apply suffix_length in Hsuf. rewrite (Permutation_length (sort_perm _)) in Hsuf. lia.
  - intros _. destruct Hcap as [?|Hlen]; [by left|right]. destruct (evict_bytes_over _ _ _) as [|y [|z l]]; cbn in *; [done|by simplify_eq|lia].
  - eapply drops_oldest_trans; [done|]. by apply suffix_of_sort.
Qed.

(** the save of a prompt leaves its model's entries within both caps: never more than
    the most entries, and no more bytes than the cap unless the new entry alone exceeds
    it; the new entry is never the one evicted, and whatever is evicted was hit no later
    than anything kept. *)
Theorem save_keeps_the_caps key replaced entry c : (1 <= pc_max_entries c)%nat ->
  (forall e, e ∈ bucket_of c key -> en_last_hit e <= pc_clock c) -> (forall t, en_last_hit (entry t) = t) ->
  weighed (bucket_of c key ++ [entry (pc_clock c + 1)]) -> entries_bytes (bucket_of c key ++ [entry (pc_clock c + 1)]) <= u64_max ->
  let b' := bucket_of (add_entry_to key replaced entry c) key in
  entry (pc_clock c + 1) ∈ b' /\ (length b' <= pc_max_entries c)%nat /\
  (0 < pc_max_bytes c -> entries_bytes b' <= pc_max_bytes c \/ b' = [entry (pc_clock c + 1)]) /\
  drops_oldest (List.filter (fun e => negb (replaced e)) (bucket_of c key) ++ [entry (pc_clock c + 1)]) b'.
Proof.
  intros Hmax Hhit Hent Hw Hb. unfold add_entry_to. rewrite bucket_of_insert, decide_True by done.
  set (x := entry _) in *. set (kept := List.filter _ _).
  assert (Hsub : exists gone, bucket_of c key ≡ₚ gone ++ kept).
  { exists (List.filter replaced (bucket_of c key)). unfold kept. clear. induction (bucket_of c key) as [|y l IH]; cbn; [done|].
    destruct (replaced y); cbn; [by rewrite <- IH|]. rewrite <- Permutation_middle. by rewrite <- IH. }
  destruct Hsub as [gone P].
  assert (Hp : bucket_of c key ++ [x] ≡ₚ gone ++ (kept ++ [x])) by (by rewrite (assoc_L (++)), P).
  pose proof (weighed_perm _ _ Hp Hw) as [Hwg Hwk]%Forall_app. rewrite (entries_bytes_perm _ _ Hp), entries_bytes_app in Hb.
  pose proof (entries_bytes_nonneg _ Hwg).
  destruct (evict_over_caps_spec c kept x Hmax) as (Hlast & Hlen & Hby & Hdr); [|done|lia|].
  - intros e He. unfold older, x. rewrite Hent. assert (e ∈ bucket_of c key) as Hin by (rewrite P; apply elem_of_app; by right).
    specialize (Hhit e Hin). lia.
  - split_and!; [by apply last_Some_elem_of|done|done|done].
Qed.
End eviction.

(** ** A kept prompt stays here *)

Section keeping.
Context `{Candle, DeltaNet, !SsmTensors, !Devices}.
Context (blake3 : bytes -> bytes).

(** A recurrent layer's state is at a layer with no attention cache. *)
Definition states_apart (e : KvCacheEntry) : Prop := forall i h, ssm_states e !! i = Some (Some h) -> layers e !! i = Some None.

(** Nothing of it can be announced or exported. *)
Definition hidden (s : KvSnapshot) : Prop := holds_every_position s = false \/ carries_recurrent_state s = true.
Definition quiet (e : Entry) : Prop := en_kept_here e = true \/ hidden (en_snapshot e).

Lemma quiet_manifest bs e : quiet e -> manifest blake3 bs e = [].
Proof. unfold manifest. intros [->|[->| ->]]; [done|..]; by rewrite ?orb_true_r. Qed.
Lemma manifest_shown bs e b : b ∈ manifest blake3 bs e -> ~ quiet e /\ b ∈ compute_block_hashes blake3 (en_tokens e) bs.
Proof.
  intros Hb. split; [intros Hq; rewrite quiet_manifest in Hb by done; by apply elem_of_nil in Hb|].
  unfold manifest in Hb. destruct (_ || _); [by apply elem_of_nil in Hb|done].
Qed.

Lemma saved_from_hidden s i from : sn_held_from s !! i = Some from -> from <> 0%nat -> hidden s.
Proof.
  intros Hi Hn. left. apply not_true_iff_false. unfold holds_every_position. rewrite forallb_forall. intros Hf.
  specialize (Hf from ltac:(apply list_elem_of_In; by eapply list_elem_of_lookup_2)). by apply Nat.eqb_eq in Hf.
Qed.
Lemma saved_state_hidden s i slot : sn_ssm s !! i = Some (Some slot) -> hidden s.
Proof.
  intros Hi. right. apply existsb_exists. exists (Some slot). split; [apply list_elem_of_In; by eapply list_elem_of_lookup_2|by apply bool_decide_eq_true_2].
Qed.

(** A snapshot that does not serve from the start is hidden, by what made it so. *)
Lemma snapshot_at_hidden ls states dev pos dim max_seq_len home answers s answers' :
  snapshot_at ls states dev pos dim max_seq_len home answers = (Some s, answers') ->
  ((0 < sn_serves_from s)%nat -> hidden s) /\ ((0 < serves_from ls)%nat -> hidden s) /\
  (forall i h, ls !! i = Some None -> states !! i = Some (Some h) -> hidden s).
Proof.
  unfold snapshot_at. destruct (_ <? _)%nat; [done|]. destruct (each_layer _ 0 ls answers) as [[saved|] a1] eqn:Ee; [|done]. cbn. intros [= <- <-].
  set (s := Build_KvSnapshot _ _ _ _ _ _ _ _). apply each_layer_spec in Ee as [Hlen Hall]. cbn [Nat.add] in Hall.
  assert (Hslid : (0 < serves_from ls)%nat -> hidden s).
  { intros Hpos. unfold serves_from in Hpos. assert (Hex : exists kv, kv ∈ omap id ls /\ lk_serves_from kv <> 0%nat).
    { revert Hpos. induction (omap id ls) as [|kv l IH]; cbn; [lia|]. intros Hpos. destruct (decide (lk_serves_from kv = 0%nat)) as [E|]; [|by exists kv; split; [left|]].
      destruct IH as (kv' & ? & ?); [lia|]. exists kv'. split; [by right|done]. }
    destruct Hex as (kv & Hin & Hkv). apply list_elem_of_omap in Hin as ([kv'|] & Hin & E); [|done]. cbn in E. simplify_eq.
    apply list_elem_of_lookup in Hin as [i Hi]. destruct (Hall i _ Hi) as (x & a & a' & Hx & Eb). cbn in Eb.
    apply (saved_from_hidden _ i (sl_from x)); [cbn; change (map sl_from saved) with (sl_from <$> saved); by rewrite list_lookup_fmap, Hx|].
    assert (sl_from x = lk_held_from kv) as ->.
    { unfold save_attention in Eb. repeat case_match; by simplify_eq. }
    intros Hz. apply Hkv. unfold lk_serves_from. rewrite Hz. by destruct (lk_window kv). }
  assert (Hst : forall i x slot, saved !! i = Some x -> sl_state x = Some slot -> hidden s).
  { intros i x slot Hx Hs. apply (saved_state_hidden _ i slot). cbn. apply states_saved_lookup; [cbn; lia|]. right. exists x. rewrite Nat.sub_0_r. split_and!; [lia|done|done]. }
  split_and!; [|done|].
  - cbn. destruct (existsb _ saved) eqn:Ex; [|done]. intros _. apply existsb_exists in Ex as (x & Hin & Hs). apply list_elem_of_In, list_elem_of_lookup in Hin as [i Hi].
    apply bool_decide_eq_true in Hs as [slot Hs]. eauto.
  - intros i h Hi Hh. destruct (Hall i _ Hi) as (x & a & a' & Hx & Eb). cbn in Eb. rewrite Hh in Eb. cbn in Eb.
    apply save_state_spec in Eb as (_ & _ & Hs & _). eauto.
Qed.

(** What a request's caches were read as says whether its snapshot serves from the start. *)
Lemma held_serves_hidden st key held e dev pos dim max_seq_len home answers s answers' : held_read st key = Some held -> caches st !! key = Some e -> states_apart e ->
  snapshot_at (layers e) (ssm_states e) dev pos dim max_seq_len home answers = (Some s, answers') -> (0 < serves_once_saved held pos)%nat -> hidden s.
Proof.
  intros Hh Hc Hap Es Hpos. unfold held_read in Hh. rewrite Hc in Hh. destruct (omap id (layers e)) as [|kv l]; [done|]. injection Hh as <-.
  destruct (snapshot_at_hidden _ _ _ _ _ _ _ _ _ _ Es) as (_ & Hslid & Hst). unfold serves_once_saved in Hpos. cbn in Hpos. case_decide as Hd; [by apply Hslid|].
  destruct (omap id (ssm_states e)) as [|h ss] eqn:Eo; [done|]. assert (Hin : h ∈ omap id (ssm_states e)) by (rewrite Eo; left).
  apply list_elem_of_omap in Hin as ([h'|] & Hin & E); [|done]. cbn in E. simplify_eq. apply list_elem_of_lookup in Hin as [i Hi]. eauto.
Qed.

(** Whatever extends a kept prompt is quiet while its entry is there. *)
Record keeps_apart (c : PrefixCache) : Prop := {
  kp_min : (1 <= pc_min_tokens c)%nat;
  kp_tokens : forall m e, e ∈ bucket_of c m -> en_kept_here e = true -> en_chain e = [] /\ en_tokens e <> [];
  kp_hidden : forall m e, e ∈ bucket_of c m -> (0 < sn_serves_from (en_snapshot e))%nat -> hidden (en_snapshot e);
  kp_apart : forall m e0 e, e0 ∈ bucket_of c m -> e ∈ bucket_of c m -> en_kept_here e0 = true -> en_tokens e0 `prefix_of` en_tokens e -> quiet e }.

Lemma hit_same t e : en_tokens (hit_entry t e) = en_tokens e /\ en_chain (hit_entry t e) = en_chain e /\ en_snapshot (hit_entry t e) = en_snapshot e /\
  en_kept_here (hit_entry t e) = en_kept_here e.
Proof. done. Qed.

(** The entries left of a cache are those of it, but for when they were hit. *)
Lemma shrinks_same c c' m e' : shrinks c c' -> e' ∈ bucket_of c' m -> exists e, e ∈ bucket_of c m /\ en_tokens e' = en_tokens e /\ en_chain e' = en_chain e /\
  en_snapshot e' = en_snapshot e /\ en_kept_here e' = en_kept_here e.
Proof. intros Hs He. destruct (sh_entries _ _ Hs m e' He) as (e & Hin & [->|(t & _ & ->)]); exists e; split_and!; done. Qed.

Lemma keeps_apart_shrinks c c' : shrinks c c' -> keeps_apart c -> keeps_apart c'.
Proof.
  intros Hs [Hmin Htok Hhid Hap]. pose proof (fun m e => shrinks_same c c' m e Hs) as Hsame. split.
  - by rewrite (sh_settings _ _ Hs).
  - intros m e' (e & Hin & -> & -> & _ & ->)%Hsame. by apply Htok with m.
  - intros m e' (e & Hin & _ & _ & -> & _)%Hsame. by apply Hhid with m.
  - intros m e0' e' (e0 & Hin0 & Ht0 & _ & _ & Hk0)%Hsame (e & Hin & Ht & _ & Hs' & Hk)%Hsame. rewrite Hk0, Ht0, Ht. unfold quiet. rewrite Hk, Hs'. by apply Hap with m.
Qed.

Lemma add_entry_keeps key replaced entry c : keeps_apart c -> let x := entry (pc_clock c + 1) in
  (en_kept_here x = true -> en_chain x = [] /\ en_tokens x <> []) -> ((0 < sn_serves_from (en_snapshot x))%nat -> hidden (en_snapshot x)) ->
  (forall e0, e0 ∈ bucket_of c key -> en_kept_here e0 = true -> en_tokens e0 `prefix_of` en_tokens x -> quiet x) ->
  (en_kept_here x = true -> forall e, e ∈ bucket_of c key -> en_tokens x `prefix_of` en_tokens e -> quiet e) ->
  keeps_apart (add_entry_to key replaced entry c).
Proof.
  intros [Hmin Htok Hhid Hap] x Hx1 Hx2 Hx3 Hx4. split; [done|..].
  - intros m e [He|[-> ->]]%add_entry_elem; [by apply Htok with m|done].
  - intros m e [He|[-> ->]]%add_entry_elem; [by apply Hhid with m|done].
  - intros m e0 e [He0|[-> ->]]%add_entry_elem [He|[Hm ->]]%add_entry_elem Hk Hp; subst.
    + by apply Hap with m e0.
    + by eapply Hx3.
    + by apply Hx4.
    + by left.
Qed.

(** [lost]: entries may have been evicted before the save looked for what it replaces. *)
Definition save_facts (lost : bool) (keep : KeepAsked) (m : bytes) (snap_tokens : list Z) (c c' : PrefixCache) : Prop :=
  shrinks c c' \/ exists c1 x replaced entry, shrinks c c1 /\ c' = add_entry_to m replaced entry c1 /\ x = entry (pc_clock c1 + 1) /\
    en_tokens x = snap_tokens /\ en_chain x = [] /\ (keep = OnThisComputer -> en_kept_here x = true) /\
    ((0 < sn_serves_from (en_snapshot x))%nat -> hidden (en_snapshot x)) /\
    (forall e0, e0 ∈ bucket_of (if lost then c1 else c) m -> en_kept_here e0 = true -> en_chain e0 = [] -> en_tokens e0 <> [] ->
      en_tokens e0 `prefix_of` snap_tokens -> quiet x).

Lemma make_room_passes key superseded incoming room c made c' e0 : make_room false key superseded incoming room c = (made, c') ->
  e0 ∈ bucket_of c key -> superseded e0 = true -> en_kept_here e0 = true -> rm_replaced_kept_here made = true.
Proof.
  intros E He Hs Hk. unfold make_room in E. unfold bucket_of in He. destruct (per_model c !! key) as [b|]; [|by apply elem_of_nil in He]. cbn in He.
  destruct (evict_for c incoming _ _) as [ev kept]. destruct (if _ <? _ then _ else _) as [more m]. simplify_eq. cbn.
  apply existsb_exists. exists e0. split; [|done]. apply filter_In. split; [by apply list_elem_of_In|done].
Qed.

Lemma make_room_after_copy key superseded incoming room c made c' m : make_room true key superseded incoming room c = (made, c') -> sr_evict_bytes room <= 0 -> bucket_of c' m = bucket_of c m.
Proof.
  intros E Hz. unfold make_room in E. assert (Hno : (entries_bytes_in (sr_home room) [] <? sr_evict_bytes room) = false) by (apply Z.ltb_ge; exact Hz).
  destruct (per_model c !! key); rewrite Hno in E; by simplify_eq.
Qed.

Lemma save_tokens_facts after_copy dev m st key held snap_tokens room keep c answers out c' answers' : held_read st key = Some held ->
  (forall e, caches st !! key = Some e -> states_apart e) ->
  save_tokens blake3 after_copy dev m st key held snap_tokens room keep c answers = (out, c', answers') -> save_facts (after_copy && (0 <? sr_evict_bytes room)) keep m snap_tokens c c'.
Proof.
  intros Hheld Hap E. unfold save_tokens in E. destruct (caches st !! key) as [e|] eqn:Ec; [|left; by simplify_eq].
  destruct (_ <? _)%nat; [left; by simplify_eq|]. destruct (make_room _ _ _ _ _ c) as [made c1] eqn:Em.
  pose proof (make_room_shrinks _ _ _ _ _ _ _ _ Em) as Hsh. destruct (snapshot_at _ _ _ _ _ _ _ answers) as [[s|] a1] eqn:Es; [|left; by simplify_eq].
  simplify_eq. right. eexists c1, _, _, _. split_and!; [done|done|done|done|done|by intros ->|by apply (snapshot_at_hidden _ _ _ _ _ _ _ _ _ _ Es)|].
  intros e0 He0 Hk Hch Hne Hpre. unfold quiet. cbn [en_kept_here en_snapshot].
  assert (Hlen : (0 < length (en_tokens e0))%nat) by (destruct (en_tokens e0); [done|cbn; lia]).
  assert (Hrep : forall serves, (serves <= length (en_tokens e0))%nat -> replaced_by_tokens snap_tokens serves e0 = true).
  { intros serves Hle. unfold replaced_by_tokens, is_prefix. rewrite !bool_decide_eq_true_2 by done. by apply Nat.leb_le. }
  destruct after_copy; cbn [andb] in He0.
  - assert (He1 : e0 ∈ bucket_of c1 m).
    { destruct (Z.ltb_spec 0 (sr_evict_bytes room)) as [_|Hz]; [exact He0|]. by rewrite (make_room_after_copy _ _ _ _ _ _ _ m Em Hz). }
    destruct (decide (sn_serves_from s <= length (en_tokens e0))%nat) as [Hle|Hgt].
    + left. apply orb_true_iff. right. apply existsb_exists. exists e0. split; [by apply list_elem_of_In|]. by rewrite Hrep, Hk.
    + right. destruct (snapshot_at_hidden _ _ _ _ _ _ _ _ _ _ Es) as [Hserves _]. apply Hserves. lia.
  - destruct (decide (serves_once_saved held (length snap_tokens) <= length (en_tokens e0))%nat) as [Hle|Hgt].
    + left. rewrite (make_room_passes _ _ _ _ _ _ _ _ Em He0 (Hrep _ Hle) Hk). by rewrite orb_true_r.
    + right. eapply held_serves_hidden; [exact Hheld|exact Ec|by apply Hap|exact Es|lia].
Qed.

Lemma save_facts_keep lost keep m n prompt c c' : keeps_apart c -> (n <= length prompt)%nat -> (pc_min_tokens c <= n)%nat ->
  (forall e, e ∈ bucket_of c m -> covers_tokens (take n prompt) n e = false) -> save_facts lost keep m (take n prompt) c c' -> keeps_apart c'.
Proof.
  intros Hc Hn Hmin Hcov [Hs|(c1 & x & replaced & entry & Hs & -> & -> & Ht & Hch & _ & Hhid & Hq)]; [by eapply keeps_apart_shrinks|].
  pose proof (kp_min _ Hc) as Hm1. assert (Hne : take n prompt <> []) by (intros Hz; apply (f_equal length) in Hz; rewrite length_take_le in Hz by done; cbn in Hz; lia).
  apply add_entry_keeps; [by eapply keeps_apart_shrinks|by rewrite Ht|done|..]; rewrite Ht.
  - intros e0 He0 Hk Hp. pose proof (keeps_apart_shrinks _ _ Hs Hc) as Hc1. destruct (kp_tokens _ Hc1 m e0 He0 Hk) as [Hch0 Hne0]. destruct lost.
    + by apply (Hq e0).
    + destruct (shrinks_same _ _ _ _ Hs He0) as (e & He & E1 & E2 & _ & E4). apply (Hq e); [done|by rewrite <- E4|by rewrite <- E2|by rewrite <- E1..].
  - intros Hk e He Hp. destruct (shrinks_same _ _ _ _ Hs He) as (e' & He' & E1 & _ & E3 & _). right. rewrite E3. apply (kp_hidden _ Hc m e' He').
    specialize (Hcov e' He'). unfold covers_tokens, is_prefix in Hcov. rewrite <- E1, bool_decide_eq_true_2 in Hcov by done. cbn in Hcov. apply Nat.leb_gt in Hcov. lia.
Qed.

Lemma save_chain_keep after_copy dev m st key held chain bt n room c answers out c' answers' : keeps_apart c ->
  save_chain after_copy dev m st key held chain bt n room c answers = (out, c', answers') -> keeps_apart c'.
Proof.
  intros Hc E. unfold save_chain in E. destruct (caches st !! key) as [e|]; [|by simplify_eq]. destruct (_ <? _)%nat; [by simplify_eq|].
  destruct (make_room _ _ _ _ _ c) as [made c1] eqn:Em. pose proof (keeps_apart_shrinks _ _ (make_room_shrinks _ _ _ _ _ _ _ _ Em) Hc) as Hc1.
  destruct (snapshot_at _ _ _ _ _ _ _ answers) as [[s|] a1] eqn:Es; [|by simplify_eq]. simplify_eq.
  apply add_entry_keeps; [done|done|by apply (snapshot_at_hidden _ _ _ _ _ _ _ _ _ _ Es)| |done].
  cbn. intros e0 He0 Hk Hnil%prefix_nil_inv. by destruct (kp_tokens _ Hc1 m e0 He0 Hk).
Qed.

Abbreviation apart_runs := (cache_runs blake3 (fun _ _ => states_apart) (fun _ _ _ => states_apart)).

Lemma runs_keep_apart c : apart_runs c -> keeps_apart c.
Proof.
  revert c. apply cache_runs_ind.
  - intros en me bt mt mp mb Hmt. split; [done|intros m e He|intros m e He|intros m e0 e He]; by apply elem_of_nil in He.
  - intros c c' [m input answers o c2 a E|m bt keys want answers o c2 a E|ac dev m request st prompt room keep answers out c2 a Hap E
      |ac dev m request st bt keys room answers out c2 a _ E|needed home freed c2 E] Hc.
    + eapply keeps_apart_shrinks; [by eapply lookup_prefix_shrinks|done].
    + eapply keeps_apart_shrinks; [by eapply lookup_chain_shrinks|done].
    + destruct (insert_from_kv_cases _ _ _ _ _ _ _ _ _ _ _ _ _ _ E) as [?|(held & n & r & Hh & Hn & Hmin & Hcov & Es)]; [by eapply keeps_apart_shrinks|].
      eapply save_facts_keep; [done|done|done|done|]. by eapply save_tokens_facts.
    + destruct (insert_chain_from_kv_cases _ _ _ _ _ _ _ _ _ _ _ _ _ E) as [?|(held & n & r & _ & _ & Es)]; [by eapply keeps_apart_shrinks|].
      by eapply save_chain_keep.
    + eapply keeps_apart_shrinks; [by eapply release_saved_shrinks|done].
Qed.

(** C9: a prompt kept on this computer stays here as its conversation grows: whatever is
    saved while its entry is held, no entry that extends it is announced or exported, its
    own replacement included, whether or not the later requests asked; and what is saved
    for a request that asked is itself never announced.  Room is made before the copy, or,
    under the older order (after the copy), the save's plan asks for no eviction:
    [evicted_before_the_copy] is the run of that order in which the plan's eviction takes
    the kept entry first and its extension is announced. *)
Theorem kept_prompt_is_never_announced after_copy c dev m request st prompt room keep answers out c' answers' bs : apart_runs c ->
  (forall e, caches st !! cache_key m request = Some e -> states_apart e) ->
  insert_from_kv blake3 after_copy dev m request st prompt room keep c answers = (out, c', answers') ->
  ((after_copy = true -> forall planned, sr_evict_bytes (room planned) <= 0) ->
   forall e0 e', e0 ∈ bucket_of c m -> en_kept_here e0 = true -> e' ∈ bucket_of c' m -> en_tokens e0 `prefix_of` en_tokens e' -> manifest blake3 bs e' = []) /\
  (keep = OnThisComputer -> forall e', e' ∈ bucket_of c' m ->
    (exists e, e ∈ bucket_of c m /\ en_tokens e = en_tokens e' /\ en_snapshot e = en_snapshot e' /\ en_kept_here e = en_kept_here e') \/
    manifest blake3 bs e' = []).
Proof.
  intros Hc%runs_keep_apart Hap E.
  assert (Hold : forall c1 e', shrinks c c1 -> e' ∈ bucket_of c1 m -> exists e, e ∈ bucket_of c m /\ en_tokens e = en_tokens e' /\ en_snapshot e = en_snapshot e' /\ en_kept_here e = en_kept_here e').
  { intros c1 e' Hs He. destruct (shrinks_same _ _ _ _ Hs He) as (e & ? & ? & _ & ? & ?). by exists e. }
  assert (Hext : forall c1 e0 e', shrinks c c1 -> e0 ∈ bucket_of c m -> en_kept_here e0 = true -> e' ∈ bucket_of c1 m -> en_tokens e0 `prefix_of` en_tokens e' -> quiet e').
  { intros c1 e0 e' Hs He0 Hk He Hp. destruct (Hold c1 e' Hs He) as (e & Hin & Et & Es & Ek). unfold quiet. rewrite <- Es, <- Ek.
    apply (kp_apart _ Hc m e0 e He0 Hin Hk). by rewrite Et. }
  assert (Hfacts : exists n planned, save_facts (after_copy && (0 <? sr_evict_bytes (room planned))) keep m (take n prompt) c c').
  { destruct (insert_from_kv_cases _ _ _ _ _ _ _ _ _ _ _ _ _ _ E) as [Hs|(held & n & r & Hh & Hn & Hmin & Hcov & Es)]; [exists 0%nat, {| lg_beside_live := 0; lg_host_ram := 0 |}; by left|].
    exists n, r. by eapply save_tokens_facts. }
  destruct Hfacts as (n & planned & [Hs|(c1 & x & replaced & entry & Hs & -> & -> & Ht & _ & Hk' & _ & Hq)]).
  - split; [intros _ *; intros; apply quiet_manifest; by eapply Hext|]. intros _ e' He'. left. by eapply Hold.
  - split.
    + intros Horder e0 e' He0 Hk [He'|[_ ->]]%add_entry_elem Hp; apply quiet_manifest; [by eapply Hext|].
      assert (Hno : after_copy && (0 <? sr_evict_bytes (room planned)) = false) by (destruct after_copy; [apply Z.ltb_ge; by apply Horder|done]).
      destruct (kp_tokens _ Hc m e0 He0 Hk). rewrite Ht in Hp. rewrite Hno in Hq. by eapply Hq.
    + intros Hkeep e' [He'|[_ ->]]%add_entry_elem; [left; by eapply Hold|right]. apply quiet_manifest. left. auto.
Qed.
End keeping.

(** ** What a peer is sent *)

Section sharing.
Context `{Candle, DeltaNet, !SsmTensors, !Devices, !WireTensors}.
Context (blake3 : bytes -> bytes) (to_json : SnapshotHeader -> option bytes) (from_json : bytes -> option SnapshotHeader).

Lemma narrow_count s n answers s' answers' : narrow_snapshot s n answers = (Some s', answers') -> sn_token_count s' = n.
Proof.
  unfold narrow_snapshot. destruct (_ <? _)%nat; [done|]. destruct (_ <? _)%nat; [done|]. destruct (Nat.eqb_spec n (sn_token_count s)) as [->|]; [congruence|].
  destruct (carries_recurrent_state s); [done|]. destruct (each_layer _ _ _ _) as [[out|] a]; cbn; [|done]. by intros [= <- <-].
Qed.

Lemma export_from_some bs hash bucket answers data answers' : export_from blake3 to_json bs hash bucket answers = (Some data, answers') ->
  exists e b s, e ∈ bucket /\ b ∈ manifest blake3 bs e /\ pb_block_hash b = hash /\ sn_token_count s = Z.to_nat (pb_token_count b) /\
    (narrow_snapshot (en_snapshot e) (Z.to_nat (pb_token_count b)) answers).1 = Some s /\
    serialize_snapshot_with_block_size to_json s (take (Z.to_nat (pb_token_count b)) (en_tokens e)) (Some bs) = Ok data.
Proof.
  induction bucket as [|e bucket IH]; cbn; [done|]. destruct (list_find _ _) as [[i b]|] eqn:Ef.
  - apply list_find_Some in Ef as (Hi & Hh & _). destruct (narrow_snapshot _ _ _) as [[s|] a] eqn:En; [|done].
    destruct (serialize_snapshot_with_block_size _ _ _ _) as [d| |] eqn:Es; [|done..]. intros E. simplify_eq.
    exists e, b, s. rewrite En. split_and!; [left|by eapply list_elem_of_lookup_2|done|by eapply narrow_count|done|done].
  - intros E. destruct (IH E) as (e' & b & s & ? & ?). exists e', b, s. split; [by right|done].
Qed.

(** C18: what a peer is sent for a block comes from an entry that is not kept on this
    computer and holds every position of every layer: its tokens are the opening of that
    entry's prompt up to the block's end, and the peer's check accepts it for the hash it
    asked for where every value in it is finite. *)
Theorem exported_block_is_accepted m hash c answers data answers' d : wire_lawful to_json from_json ->
  (forall e, e ∈ bucket_of c m -> Z.of_nat (length (en_tokens e)) < 2 ^ 32) ->
  export_snapshot_bytes blake3 to_json m hash c answers = (Some data, answers') -> blen data <= usize_max ->
  exists e n s, e ∈ bucket_of c m /\ en_kept_here e = false /\ holds_every_position (en_snapshot e) = true /\ carries_recurrent_state (en_snapshot e) = false /\
    (narrow_snapshot (en_snapshot e) n answers).1 = Some s /\
    (exists s', deserialize_snapshot_full from_json data d = Ok (s', take n (en_tokens e), Some (pc_block_tokens c)) /\
      Forall2 same_layer (sn_layers s) (sn_layers s')) /\
    (snapshot_is_finite s = true -> verify_fetched_snapshot from_json blake3 d data hash = Ok VerdictOk).
Proof.
  intros Hlaw Hlen E Hd. unfold export_snapshot_bytes in E. destruct (_ =? 0)%nat; [done|].
  apply export_from_some in E as (e & b & s & He & Hb & <- & Hn & En & Es). apply manifest_shown in Hb as [Hq Hb].
  apply list_elem_of_lookup in Hb as [k Hk]. apply compute_block_hashes_lookup in Hk as (Hbs & Hle & ->). cbn [pb_token_count pb_block_hash] in *.
  specialize (Hlen e He). rewrite Z.mod_small, Nat2Z.id in * by lia. set (n := ((k + 1) * pc_block_tokens c)%nat) in *.
  exists e, n, s. split_and!; [done|..|done| |].
  - apply not_true_iff_false. intros Hk. apply Hq. by left.
  - apply not_false_iff_true. intros Hk. apply Hq. right. by left.
  - apply not_true_iff_false. intros Hk. apply Hq. right. by right.
  - destruct (deserialize_serialized _ _ Hlaw _ _ _ _ d Es Hd) as (s' & Hs' & _ & _ & _ & HF). exists s'. rewrite Hn, take_take, Nat.min_id in Hs'. done.
  - intros Hf. eapply sent_snapshot_is_accepted; [done|exact Es|done| |done]. rewrite Hn, verify_opening. apply verify_iff. exists k.
    split_and!; [done|done|lia|lia|]. done.
Qed.
End sharing.

(** ** Worked examples

    The conversation of [KvStore]'s example: its prompt saved, and a longer one served
    from it; an attention-only prompt kept on this computer, and its next turn; a block
    served to a peer. *)

Lemma map_singleton {A B} (f : A -> B) l y : map f l = [y] -> exists x, l = [x] /\ f x = y.
Proof. destruct l as [|x [|]]; intros [= <-]. by exists x. Qed.
Lemma answered {A B} (P : A -> Prop) (r : option A * B) : match r.1 with Some x => P x | None => False end -> exists x b, r = (Some x, b) /\ P x.
Proof. destruct r as [[x|] b]; [by exists x, b|done]. Qed.

Section examples.
#[local] Existing Instances toy toy_net toy_tensors toy_devices.

Definition said : list Z := [1; 2; 3; 4; 5; 6; 7].
Definition asking_again : bytes := [9].
Definition talk_rows (_ : bytes) (ts : list Z) : list Given :=
  [{| gv_window := None; gv_keys := (fun t => t - 1) <$> ts : list (@Row toy); gv_values := (fun t => t + 9) <$> ts : list (@Row toy) |};
   {| gv_window := None; gv_keys := []; gv_values := [] |}].
Definition talk_hists (_ : bytes) (ts : list Z) : list (list (@Token toy_net)) := [[]; toks ts].
Definition no_chain (_ : bytes) (_ : Z) (_ : list bytes) : list (@Given toy) := [].
Definition first_layer (_ : bytes) (i : nat) : bool := (i =? 0)%nat.
Definition second_layer (_ : bytes) (i : nat) : bool := (i =? 1)%nat.

Lemma talk_causal : causal talk_rows talk_hists no_chain.
Proof.
  split.
  - intros m n ts ts' Hn Hn' Ht. split.
    + intros [|[|i]] g [= <-] Hl _; cbn in Hl; eexists; (split; [done|]); cbn; [|done].
      by rewrite !length_fmap, <- !fmap_take, Ht.
    + intros [|[|i]] h [= <-] Hl; eexists; (split; [done|]); done.
  - intros m bt n ks ks' _ _ _ i g Hi. done.
  - intros m ts [|[|i]] g [= <-]; cbn; [by rewrite length_fmap|lia].
Qed.

Definition talk_store (e : KvCacheEntry) : KvCacheStore := with_caches {[cache_key model asking := e]} (store_new 1000).
Definition fresh_cache : PrefixCache := prefix_cache_new true 4 2 2 0 0.
Definition roomy (_ : LetGo) : SnapshotRoom := {| sr_home := HostRam; sr_max_positions := usize_max; sr_evict_bytes := 0 |}.
Definition on_the_card (_ : nat) : @Device toy := true.

Definition talk_save (tokens : list Z) (keep : KeepAsked) (e : KvCacheEntry) (c : PrefixCache) :=
  insert_from_kv checksum false on_the_card model asking (talk_store e) tokens roomy keep c [].
Definition talk_cache : PrefixCache := (talk_save said Unasked talk fresh_cache).1.2.

Lemma talk_store_entry e e' : caches (talk_store e) !! cache_key model asking = Some e' -> e' = e.
Proof. unfold talk_store, with_caches. cbn [caches]. rewrite lookup_singleton_eq. congruence. Qed.

Lemma talk_read : read_so_far true talk_rows talk_hists first_layer second_layer (fun _ => no_window) (fun _ => all_f32) model said talk.
Proof.
  exists said. split; [|by left]. split.
  - exact talk_stands.
  - exact talk_layers.
  - intros [|i]; [|done]. intros _. by exists kept_layer.
  - intros _ [|[|i]]; [done| |done]. intros _. split; [done|]. by exists checked.
Qed.

Abbreviation talk_runs := (cache_runs checksum (read_so_far true talk_rows talk_hists first_layer second_layer (fun _ => no_window) (fun _ => all_f32))
  (chain_so_far true no_chain first_layer second_layer (fun _ => no_window) (fun _ => all_f32))).

Lemma talk_cache_runs : talk_runs talk_cache.
Proof.
  exists true, 4%nat, 2%nat, 2%nat, 0%nat, 0. split; [lia|]. apply rtc_once.
  apply (StepInsert _ _ _ _ false on_the_card model asking (talk_store talk) said roomy Unasked [] (talk_save said Unasked talk fresh_cache).1.1 talk_cache
    (talk_save said Unasked talk fresh_cache).2).
  - intros e ->%talk_store_entry. apply talk_read.
  - unfold talk_cache, talk_save. by destruct (insert_from_kv _ _ _ _ _ _ _ _ _ _ _) as [[? ?] ?].
Qed.

Definition talk_found := lookup_prefix model (said ++ [8; 9]) talk_cache [].

Lemma served_request_is_where_reading_leaves_it_witness : exists s c' st', talk_found = (Some s, c', []) /\
  hydrate_request_from_snapshot true true (fun _ => false) model asking_again s talk_layouts 0 (store_new 1000) [] = (Ok 7%nat, st', []) /\
  exists e', caches st' !! cache_key model asking_again = Some e' /\
    exists l h, layers e' !! 0%nat = Some (Some l) /\ layer_ok true None l (seqZ 0 7) (seqZ 10 7) /\
      ssm_states e' !! 1%nat = Some (Some h) /\ current h = slot_after (toks said).
Proof.
  assert (H1 : match talk_found.1.1 with Some s =>
    (hydrate_request_from_snapshot true true (fun _ => false) model asking_again s talk_layouts 0 (store_new 1000) []).1.1 = Ok 7%nat /\
    (hydrate_request_from_snapshot true true (fun _ => false) model asking_again s talk_layouts 0 (store_new 1000) []).2 = [] | None => False end)
    by (vm_compute; done).
  assert (H2 : talk_found.2 = []) by (vm_compute; reflexivity).
  destruct talk_found as [[[s|] c'] a] eqn:Ef; cbn [fst snd] in H1, H2; [|done]. subst a. destruct H1 as [Hr Ha].
  destruct (hydrate_request_from_snapshot true true (fun _ => false) model asking_again s talk_layouts 0 (store_new 1000) []) as [[r st'] a] eqn:Eh.
  cbn [fst snd] in Hr, Ha. subst r a. exists s, c', st'. split_and!; [done|done|].
  assert (Hk : (1 <= @conv_kernel toy_net)%nat) by (cbn; lia).
  destruct (served_request_is_where_reading_leaves_it true true (fun _ => false) checksum Hk talk_rows talk_hists no_chain first_layer second_layer
    (fun _ => no_window) (fun _ => all_f32) talk_causal talk_cache model (said ++ [8; 9]) [] s c' [] asking_again talk_layouts 0 (store_new 1000) 7 st' []
    talk_cache_runs Ef talk_layouts_fit (lookup_empty _) Eh) as (_ & e' & Hc & Hlay & Hst).
  exists e'. split; [rewrite Hc; apply lookup_insert_eq|].
  destruct (Hlay 0%nat eq_refl) as (g & l & Hg & Hl & Hok). destruct (Hst 1%nat eq_refl) as (hist & h & Hh & Hs & _ & Hcur).
  exists l, h. cbn in Hg, Hh. injection Hg as <-. injection Hh as <-. split_and!; [done|exact Hok|done|exact Hcur].
Defined.

Lemma lookup_takes_the_longest_witness : exists s, talk_found.1.1 = Some s /\
  exists e, e ∈ bucket_of talk_cache model /\ sn_token_count s = usable_prefix (said ++ [8; 9]) e.
Proof.
  assert (Hk : (1 <= @conv_kernel toy_net)%nat) by (cbn; lia).
  pose proof (lookup_takes_the_longest true checksum Hk talk_rows talk_hists no_chain first_layer second_layer
    (fun _ => no_window) (fun _ => all_f32) talk_causal talk_cache model (said ++ [8; 9]) [] talk_cache_runs ltac:(by intros ?%elem_of_nil)
    ltac:(vm_compute; reflexivity) ltac:(apply Nat.leb_le; vm_compute; reflexivity)) as Hl. fold talk_found in Hl.
  assert (Hf : bool_decide (is_Some talk_found.1.1) = true) by (vm_compute; reflexivity). apply bool_decide_eq_true in Hf as [s Hs]. rewrite Hs in Hl |- *.
  exists s. split; [done|]. destruct Hl as [(e & He & _ & Hn) _]. by exists e.
Defined.

(** One attention layer: its first five tokens kept here, then all seven. *)
Definition plain_talk : KvCacheEntry := {| layers := [Some kept_layer]; ssm_states := []; last_accessed := 0 |}.
Definition kept_cache : PrefixCache := (talk_save (take 5 said) OnThisComputer plain_talk fresh_cache).1.2.
Definition next_turn := talk_save said Unasked plain_talk kept_cache.

Lemma plain_apart e : caches (talk_store plain_talk) !! cache_key model asking = Some e -> states_apart e.
Proof. intros ->%talk_store_entry [|i] h Hi; done. Qed.

Lemma kept_cache_runs : cache_runs checksum (fun _ _ => states_apart) (fun _ _ _ => states_apart) kept_cache.
Proof.
  exists true, 4%nat, 2%nat, 2%nat, 0%nat, 0. split; [lia|]. apply rtc_once.
  apply (StepInsert _ _ _ _ false on_the_card model asking (talk_store plain_talk) (take 5 said) roomy OnThisComputer []
    (talk_save (take 5 said) OnThisComputer plain_talk fresh_cache).1.1 kept_cache (talk_save (take 5 said) OnThisComputer plain_talk fresh_cache).2).
  - apply plain_apart.
  - unfold kept_cache, talk_save. by destruct (insert_from_kv _ _ _ _ _ _ _ _ _ _ _) as [[? ?] ?].
Qed.

Lemma kept_prompt_is_never_announced_witness : exists e0 e', bucket_of kept_cache model = [e0] /\ en_tokens e0 = take 5 said /\ en_kept_here e0 = true /\
  bucket_of next_turn.1.2 model = [e'] /\ en_tokens e' = said /\ manifest checksum 2 e' = [].
Proof.
  assert (H1 : map (fun e => (en_tokens e, en_kept_here e)) (bucket_of kept_cache model) = [(take 5 said, true)]) by (vm_compute; reflexivity).
  assert (H2 : map en_tokens (bucket_of next_turn.1.2 model) = [said]) by (vm_compute; reflexivity).
  apply map_singleton in H1 as (e0 & E0 & [= Ht Hk]). apply map_singleton in H2 as (e' & E' & Ht'). exists e0, e'.
  split; [exact E0|]. split; [exact Ht|]. split; [exact Hk|]. split; [exact E'|]. split; [exact Ht'|].
  refine (proj1 (kept_prompt_is_never_announced checksum false kept_cache on_the_card model asking (talk_store plain_talk) said roomy Unasked [] next_turn.1.1 next_turn.1.2
    next_turn.2 2 kept_cache_runs plain_apart _) _ e0 e' _ Hk _ _).
  - unfold next_turn, talk_save. generalize (insert_from_kv checksum false on_the_card model asking (talk_store plain_talk) said roomy Unasked kept_cache []). by intros [[? ?] ?].
  - done.
  - rewrite E0. left.
  - rewrite E'. left.
  - rewrite Ht, Ht'. by exists [6; 7].
Defined.

(** Room made after the copy (SWARMLLM_SNAPSHOT_ROOM=after-copy), and a plan that must
    evict: its eviction still comes before the copy and takes the kept entry, the save
    finds nothing it replaces, and the longer prompt is saved as any other and announced. *)
Definition crowded (_ : LetGo) : SnapshotRoom := {| sr_home := HostRam; sr_max_positions := usize_max; sr_evict_bytes := 1 |}.
Example evicted_before_the_copy :
  let saved after_copy := insert_from_kv checksum after_copy on_the_card model asking (talk_store plain_talk) said crowded Unasked kept_cache [] in
  let shown '(announced, c', _) := (map en_kept_here (bucket_of c' model), map pb_token_count announced) in
  shown (saved false) = ([true], []) /\ shown (saved true) = ([false], [2; 4; 6]).
Proof. vm_compute. done. Qed.

(** A request that asks to stay and whose prompt an entry already covers leaves that entry
    to be announced. *)
Example covered_prompt_is_announced :
  let c := (talk_save said Unasked plain_talk fresh_cache).1.2 in
  let '(announced, c', _) := talk_save said OnThisComputer plain_talk c in
  map en_kept_here (bucket_of c' model) = [false] /\ map pb_token_count announced = [2; 4; 6].
Proof. vm_compute. done. Qed.

Lemma weighed_all (l : list Entry) : forallb (fun e => 0 <=? snapshot_bytes (en_snapshot e)) l = true -> weighed l.
Proof. intros Hl. apply list.Forall_forall. intros e He. apply list_elem_of_In in He. rewrite forallb_forall in Hl. by apply Z.leb_le, Hl. Qed.

(** The same prompt saved for two models: 60 bytes each, in host memory. *)
Definition other_model : bytes := [5].
Definition two_models : PrefixCache :=
  with_models (<[other_model := map (hit_entry 5) (bucket_of talk_cache model)]> (per_model talk_cache)) 5 talk_cache.

Lemma release_takes_the_oldest_witness : exists c', release_saved 10 HostRam two_models = (60, c') /\
  map en_last_hit (all_entries (per_model c')) = [5] /\ bytes_in HostRam c' = 60.
Proof.
  assert (H1 : (release_saved 10 HostRam two_models).1 = 60) by (vm_compute; reflexivity).
  assert (H2 : map en_last_hit (all_entries (per_model (release_saved 10 HostRam two_models).2)) = [5]) by (vm_compute; reflexivity).
  assert (H3 : bytes_in HostRam two_models = 120) by (vm_compute; reflexivity).
  destruct (release_saved 10 HostRam two_models) as [freed c'] eqn:E. cbn [fst snd] in H1, H2. subst freed. exists c'. split_and!; [done|done|].
  destruct (release_takes_the_oldest 10 HostRam two_models 60 c') as (gone & _ & _ & Hb); [apply weighed_all; vm_compute; reflexivity|vm_compute; congruence|done|].
  rewrite Hb, H3. done.
Defined.

(** One prompt saved beside the live caches, the other in host memory. *)
Definition beside (_ : LetGo) : SnapshotRoom := {| sr_home := BesideLive; sr_max_positions := usize_max; sr_evict_bytes := 0 |}.
Definition beside_cache : PrefixCache := (insert_from_kv checksum false on_the_card model asking (talk_store talk) said beside Unasked fresh_cache []).1.2.
Definition both_homes : PrefixCache := with_models (<[other_model := map (hit_entry 5) (bucket_of talk_cache model)]> (per_model beside_cache)) 5 beside_cache.

Lemma worker_evictor_keeps_books_witness : exists st, external_reserved st = bytes_in BesideLive both_homes /\ 0 < bytes_in BesideLive both_homes < bytes_in BesideLive both_homes + bytes_in HostRam both_homes /\
  evictor_keeps_books (set_external_evictor (worker_evictor both_homes) st).
Proof.
  exists (set_external_reserved (bytes_in BesideLive both_homes) (talk_store talk)). split; [done|]. split; [vm_compute; done|].
  apply worker_evictor_keeps_books; [apply weighed_all; vm_compute; reflexivity|vm_compute; congruence|done].
Defined.

Definition saved_entry (e : Entry) (tick : Z) : Entry := hit_entry tick e.

Lemma save_keeps_the_caps_witness : exists e, bucket_of talk_cache model = [e] /\
  hit_entry 2 e ∈ bucket_of (add_entry_to model (fun _ => false) (saved_entry e) (with_models (per_model talk_cache) 1 talk_cache)) model.
Proof.
  assert (H1 : map en_last_hit (bucket_of talk_cache model) = [1]) by (vm_compute; reflexivity).
  assert (H2 : forallb (fun e => 0 <=? snapshot_bytes (en_snapshot e)) (bucket_of talk_cache model ++ bucket_of talk_cache model) = true) by (vm_compute; reflexivity).
  assert (H3 : entries_bytes (bucket_of talk_cache model ++ bucket_of talk_cache model) = 120) by (vm_compute; reflexivity).
  apply map_singleton in H1 as (e & Eb & Hhit). rewrite Eb in H2, H3. exists e. split; [exact Eb|].
  destruct (save_keeps_the_caps model (fun _ => false) (saved_entry e) (with_models (per_model talk_cache) 1 talk_cache)) as [Hin _]; [| | | | |exact Hin];
    change (bucket_of (with_models (per_model talk_cache) 1 talk_cache) model) with (bucket_of talk_cache model); rewrite ?Eb.
  - apply Nat.leb_le. vm_compute. reflexivity.
  - intros e' ->%list_elem_of_singleton. rewrite Hhit. done.
  - done.
  - by apply weighed_all.
  - change (entries_bytes ([e] ++ [e]) <= u64_max). rewrite H3. done.
Defined.
End examples.

Section sent_example.
#[local] Existing Instances wire_candle toy_net wire_tensors.

Definition wire_entry : Entry :=
  {| en_tokens := sent_prompt; en_chain := []; en_chain_block := 0; en_snapshot := sent_snapshot 18; en_last_hit := 1; en_kept_here := false |}.
Definition wire_cache : PrefixCache := with_models {[model := [wire_entry]]} 1 (prefix_cache_new true 4 9 2 0 0).
Definition wire_hash : bytes := checksum (checksum (token_bytes (seqZ 0 9)) ++ token_bytes (seqZ 9 9)).
Definition wire_to := to_one_byte (sent_header 18 9 sent_prompt).
Definition wire_from := from_one_byte (sent_header 18 9 sent_prompt).

Lemma exported_block_is_accepted_witness : exists data, (export_snapshot_bytes checksum wire_to model wire_hash wire_cache []).1 = Some data /\
  verify_fetched_snapshot wire_from checksum wire_cpu data wire_hash = Ok VerdictOk.
Proof.
  assert (H1 : match (export_snapshot_bytes checksum wire_to model wire_hash wire_cache []).1 with Some data => (blen data <=? usize_max) = true | None => False end)
    by (vm_compute; reflexivity).
  apply (answered (fun data => (blen data <=? usize_max) = true)) in H1 as (data & a & E & Hlen). exists data. split; [by rewrite E|].
  assert (Hb : bucket_of wire_cache model = [wire_entry]) by (vm_compute; reflexivity).
  destruct (exported_block_is_accepted checksum wire_to wire_from model wire_hash wire_cache [] data a wire_cpu (one_byte_lawful _)) as
    (e & n & s & He & _ & _ & _ & En & (s' & Hs' & _) & Hok); [|exact E|by apply Z.leb_le|].
  - rewrite Hb. intros e ->%list_elem_of_singleton. vm_compute. done.
  - apply Hok. rewrite Hb in He. apply list_elem_of_singleton in He as ->.
    assert (Hn : n = 18%nat).
    { assert (Ht : match deserialize_snapshot_full wire_from data wire_cpu with Ok (_, ts, _) => length ts = 18%nat | _ => False end).
      { assert (match (export_snapshot_bytes checksum wire_to model wire_hash wire_cache []).1 with Some data =>
          match deserialize_snapshot_full wire_from data wire_cpu with Ok (_, ts, _) => length ts = 18%nat | _ => False end | None => False end) as Hd by (vm_compute; reflexivity).
        by rewrite E in Hd. }
      rewrite Hs' in Ht. rewrite length_take in Ht. cbn in Ht.
      unfold narrow_snapshot in En. cbn [wire_entry en_snapshot sn_token_count sent_snapshot] in En. destruct (Nat.ltb_spec 18 n); [done|]. lia. }
    subst n. cbn in En. injection En as <-. vm_compute. reflexivity.
Defined.
End sent_example.
