(* ===== verification/RelaySeal.v ===== *)
(** * Relayed bodies ([src/crypto/relay_seal.rs], [src/network/manager/relay.rs])

    A node that cannot reach another seals what it sends for it and hands the envelope to
    a relay.  The seal hides the body; the origin's signature inside it proves who made
    it; the target's memory of what it took stops a relay delivering it twice.  The
    envelopes of messages and of tensors, the frame of the latter, the signed body, the
    replay guard, and what a node does with an envelope that reaches it.

    The curve, the key derivation, the cipher, Ed25519 and BLAKE3 are parameters, as are
    the messages, with the JSON they travel as.  The clock is an argument, in milliseconds
    where the code asks [SystemTime] and in nanoseconds where it asks [Instant]. *)
From Stdlib Require Import Sorting.Sorted.
From S2P Require Import Prelude Bytes ForwardTypes ForwardCodec ForwardFrames ForwardSafety ForwardTheorems ResultCodec ChunkTransport Session.
#[local] Open Scope Z_scope.

Definition Uuid : Type := bytes.

Definition MAX_RELAY_INNER_BYTES : Z := 256 * 1024.
Definition SIGNED_MAGIC : bytes := [83; 82; 83; 49].
Definition SIGNED_HEADER_LEN : Z := 4 + 8 + 64.
Definition RELAYED_MAX_AGE_MS : Z := 5 * 60 * 1000.
Definition RELAYED_SKEW_MS : Z := 60 * 1000.
Definition MAX_RELAYED_REMEMBERED : nat := 262144.
Definition MAX_RELAYED_REMEMBERED_PER_ORIGIN : nat := 16384.
Definition MAX_RELAYED_REMEMBERED_PER_NETWORK : nat := 32768.
Definition SWEEP_EVERY_MS : Z := 10000.
Definition MAX_RELAY_TENSOR_BYTES : Z := 32 * 1024 * 1024.

Inductive RelayedKind : Type := KMessage | KForward | KResult.
#[global] Instance relayed_kind_eq_dec : EqDecision RelayedKind.
Proof. solve_decision. Defined.

(** [kind as u8] *)
Definition kind_code (k : RelayedKind) : Z := match k with KMessage => 0 | KForward => 1 | KResult => 2 end.
Definition of_tensor (is_result : bool) : RelayedKind := if is_result then KResult else KForward.

Inductive Opened (T : Type) : Type :=
| Proven (inner : T) (sent_at_ms : Z) (digest : bytes)
| Unsigned.
Arguments Proven {T} _ _ _.
Arguments Unsigned {T}.

Record RelayedEnvelope : Type := {
  ev_relay_to : NodeId; ev_origin : NodeId; ev_request_id : Uuid; ev_ephemeral_pub : bytes; ev_sealed : bytes }.
Record RelayedTensor : Type := {
  rt_relay_to : NodeId; rt_origin : NodeId; rt_request_id : Uuid; rt_is_result : bool; rt_ephemeral_pub : bytes; rt_sealed : bytes }.

(** ** The frame of a relayed tensor *)

Definition RELAYED_TENSOR_HEADER_LEN : Z := 32 + 32 + 16 + 1 + 32.

Definition encode_relayed_tensor (rt : RelayedTensor) : bytes :=
  rt_relay_to rt ++ rt_origin rt ++ rt_request_id rt ++ [if rt_is_result rt then 1 else 0] ++ rt_ephemeral_pub rt ++ rt_sealed rt.

Definition decode_relayed_tensor (buf : bytes) : call string RelayedTensor :=
  if blen buf <? RELAYED_TENSOR_HEADER_LEN then Err "RelayedTensor frame too short"
  else
    Ok {| rt_relay_to := take 32 buf; rt_origin := take 32 (drop 32 buf); rt_request_id := take 16 (drop 64 buf);
          rt_is_result := negb (le_val (take 1 (drop 80 buf)) =? 0); rt_ephemeral_pub := take 32 (drop 81 buf);
          rt_sealed := drop (Z.to_nat RELAYED_TENSOR_HEADER_LEN) buf |}.

(** ** The signed body *)

Definition relay_aad (origin relay_to : NodeId) (request_id : Uuid) : bytes := origin ++ relay_to ++ request_id.

(** What the hasher is fed, in order. *)
Definition digest_input (kind : RelayedKind) (origin relay_to : NodeId) (request_id : Uuid) (sent_at_ms : Z) (inner : bytes) : bytes :=
  [kind_code kind] ++ origin ++ relay_to ++ request_id ++ le_bytes 8 sent_at_ms ++ inner.

Section sealing.
Context {Secret : Type}.
Context (dh : Secret -> PublicKey -> bytes) (public_of : Secret -> PublicKey) (hkdf : bytes -> bytes -> Key).
Context (aead_encrypt aead_decrypt : Key -> bytes -> bytes -> bytes -> option bytes).
(** [ed25519_pubkey_to_x25519]; BLAKE3 under [SIGNED_CONTEXT], and plain. *)
Context (to_x25519 : NodeId -> option PublicKey) (derived_hash blake3 : bytes -> bytes).
(** Ed25519: an identity's node id and signatures, verifying keys, and the check. *)
Context {Identity : Type} (node_id : Identity -> NodeId) (sign : Identity -> bytes -> bytes).
Context (valid_key : NodeId -> bool) (verify_sig : bytes -> bytes -> NodeId -> bool).
Context {Message : Type} (to_json : Message -> option bytes) (from_json : bytes -> option Message).

Definition origin_digest (kind : RelayedKind) (origin relay_to : NodeId) (request_id : Uuid) (sent_at_ms : Z) (inner : bytes) : bytes :=
  derived_hash (digest_input kind origin relay_to request_id sent_at_ms inner).

Definition signed_body (origin : Identity) (kind : RelayedKind) (relay_to : NodeId) (request_id : Uuid) (inner : bytes) (now_ms : Z) : bytes :=
  let digest := origin_digest kind (node_id origin) relay_to request_id now_ms inner in
  SIGNED_MAGIC ++ le_bytes 8 now_ms ++ sign origin digest ++ inner.

Definition verify_ed25519_sig (sig payload : bytes) (key : NodeId) : outcome unit :=
  if negb (blen sig =? 64) then Err InvalidSignature
  else if verify_sig sig payload key then Ok tt else Err InvalidSignature.

Definition prove_origin (kind : RelayedKind) (origin relay_to : NodeId) (request_id : Uuid) (body : bytes) : outcome (Opened bytes) :=
  if (blen body <? SIGNED_HEADER_LEN) || negb (bool_decide (take 4 body = SIGNED_MAGIC)) then Ok Unsigned
  else
    sent ← slice body 4 8;
    let sent_at_ms := le_val sent in
    let inner := drop (Z.to_nat SIGNED_HEADER_LEN) body in
    let digest := origin_digest kind origin relay_to request_id sent_at_ms inner in
    if negb (valid_key origin) then Err InvalidSignature
    else
      sig ← slice body 12 64;
      _ ← verify_ed25519_sig sig digest origin;
      Ok (Proven inner sent_at_ms digest).

(** ** Sealing and opening *)

Definition seal_relayed_message (ephemeral : Secret) (origin : Identity) (relay_to : NodeId) (request_id : Uuid) (inner : Message) (now_ms : Z)
  : outcome RelayedEnvelope :=
  target_x ← ok_or (to_x25519 relay_to) (Encryption "relay target key not convertible");
  plaintext ← ok_or (to_json inner) (Encryption "serialize relayed inner: ");
  if MAX_RELAY_INNER_BYTES <? blen plaintext
  then Err (Encryption ("relayed inner too large: " +:+ pretty (blen plaintext) +:+ " bytes (max " +:+ pretty MAX_RELAY_INNER_BYTES +:+ ")"))
  else
    let body := signed_body origin KMessage relay_to request_id plaintext now_ms in
    sealed ← ephemeral_seal dh public_of hkdf aead_encrypt ephemeral target_x body (relay_aad (node_id origin) relay_to request_id);
    Ok {| ev_relay_to := relay_to; ev_origin := node_id origin; ev_request_id := request_id; ev_ephemeral_pub := sealed.1; ev_sealed := sealed.2 |}.

Definition open_relayed_message (local_secret : Secret) (env : RelayedEnvelope) : outcome (Opened Message) :=
  if MAX_RELAY_INNER_BYTES + SIGNED_HEADER_LEN + 64 <? blen (ev_sealed env) then Err (Encryption "relayed envelope too large")
  else
    body ← ephemeral_open dh public_of hkdf aead_decrypt local_secret (ev_ephemeral_pub env) (ev_sealed env)
      (relay_aad (ev_origin env) (ev_relay_to env) (ev_request_id env));
    opened ← prove_origin KMessage (ev_origin env) (ev_relay_to env) (ev_request_id env) body;
    match opened with
    | Proven inner sent_at_ms digest =>
        inner ← ok_or (from_json inner) (Encryption "deserialize relayed inner: ");
        Ok (Proven inner sent_at_ms digest)
    | Unsigned => Ok Unsigned
    end.

Definition seal_relayed_tensor (ephemeral : Secret) (origin : Identity) (relay_to : NodeId) (request_id : Uuid) (kind : RelayedKind) (plaintext : bytes) (now_ms : Z)
  : outcome (bytes * bytes) :=
  if MAX_RELAY_TENSOR_BYTES <? blen plaintext
  then Err (Encryption ("relayed tensor too large: " +:+ pretty (blen plaintext) +:+ " bytes (max " +:+ pretty MAX_RELAY_TENSOR_BYTES +:+ ")"))
  else
    target_x ← ok_or (to_x25519 relay_to) (Encryption "relay target key not convertible");
    let body := signed_body origin kind relay_to request_id plaintext now_ms in
    ephemeral_seal dh public_of hkdf aead_encrypt ephemeral target_x body (relay_aad (node_id origin) relay_to request_id).

Definition open_relayed_tensor (local_secret : Secret) (origin relay_to : NodeId) (request_id : Uuid) (kind : RelayedKind) (ephemeral_pub sealed : bytes)
  : outcome (Opened bytes) :=
  if MAX_RELAY_TENSOR_BYTES + SIGNED_HEADER_LEN + 64 <? blen sealed then Err (Encryption "relayed tensor too large")
  else
    body ← ephemeral_open dh public_of hkdf aead_decrypt local_secret ephemeral_pub sealed (relay_aad origin relay_to request_id);
    prove_origin kind origin relay_to request_id body.

(** ** The replay guard *)

Inductive Refused : Type :=
| DatedAhead (by_ms : Z)
| TooOld (by_ms : Z)
| Replay
| MemoryFull
| OriginShareFull
| NetworkShareFull.

Record Taken : Type := { ta_sent_at_ms : Z; ta_origin : Z; ta_network : Z }.
Record Limits : Type := { li_total : nat; li_per_origin : nat; li_per_network : nat }.
Record RelayReplayGuard : Type := {
  rg_taken : gmap bytes Taken;
  rg_per_origin : gmap Z nat;
  rg_per_network : gmap Z nat;
  rg_swept_at_ms : Z;
  rg_limits : Limits }.

Definition default_limits : Limits :=
  {| li_total := MAX_RELAYED_REMEMBERED; li_per_origin := MAX_RELAYED_REMEMBERED_PER_ORIGIN; li_per_network := MAX_RELAYED_REMEMBERED_PER_NETWORK |}.
Definition guard_new (limits : Limits) : RelayReplayGuard :=
  {| rg_taken := ∅; rg_per_origin := ∅; rg_per_network := ∅; rg_swept_at_ms := 0; rg_limits := limits |}.

Definition short_key (b : bytes) : Z := le_val (take 8 (blake3 b)).

Definition count_at (m : gmap Z nat) (key : Z) : nat := default 0%nat (m !! key).

(** [if let Some(count) = counts.get_mut(&key) { *count = count.saturating_sub(1) }] *)
Definition uncount (key : Z) (m : gmap Z nat) : gmap Z nat := alter Nat.pred key m.
Definition drop_zeros (m : gmap Z nat) : gmap Z nat := filter (fun kv : Z * nat => (0 < kv.2)%nat) m.

Definition within_age (now_ms : Z) (t : Taken) : bool := u64_saturating_sub now_ms (ta_sent_at_ms t) <=? RELAYED_MAX_AGE_MS.

Definition guard_sweep (now_ms : Z) (g : RelayReplayGuard) : RelayReplayGuard :=
  let gone := map snd (map_to_list (filter (fun dt : bytes * Taken => within_age now_ms dt.2 = false) (rg_taken g))) in
  {| rg_taken := filter (fun dt : bytes * Taken => within_age now_ms dt.2 = true) (rg_taken g);
     rg_per_origin := drop_zeros (foldr (fun t => uncount (ta_origin t)) (rg_per_origin g) gone);
     rg_per_network := drop_zeros (foldr (fun t => uncount (ta_network t)) (rg_per_network g) gone);
     rg_swept_at_ms := now_ms; rg_limits := rg_limits g |}.

Definition guard_take (digest : bytes) (t : Taken) (g : RelayReplayGuard) : RelayReplayGuard :=
  {| rg_taken := <[digest := t]> (rg_taken g);
     rg_per_origin := <[ta_origin t := S (count_at (rg_per_origin g) (ta_origin t))]> (rg_per_origin g);
     rg_per_network := <[ta_network t := S (count_at (rg_per_network g) (ta_network t))]> (rg_per_network g);
     rg_swept_at_ms := rg_swept_at_ms g; rg_limits := rg_limits g |}.

Definition admit_body (origin : NodeId) (network digest : bytes) (sent_at_ms now_ms : Z) (g : RelayReplayGuard) : call Refused unit * RelayReplayGuard :=
  if u64_saturating_add now_ms RELAYED_SKEW_MS <? sent_at_ms then (Err (DatedAhead (sent_at_ms - now_ms)), g)
  else if RELAYED_MAX_AGE_MS <? u64_saturating_sub now_ms sent_at_ms then (Err (TooOld (now_ms - sent_at_ms)), g)
  else if bool_decide (is_Some (rg_taken g !! digest)) then (Err Replay, g)
  else
    let g := if SWEEP_EVERY_MS <=? u64_saturating_sub now_ms (rg_swept_at_ms g) then guard_sweep now_ms g else g in
    if (li_total (rg_limits g) <=? size (rg_taken g))%nat then (Err MemoryFull, g)
    else
      let origin := short_key origin in
      let network := short_key network in
      if (li_per_origin (rg_limits g) <=? count_at (rg_per_origin g) origin)%nat then (Err OriginShareFull, g)
      else if (li_per_network (rg_limits g) <=? count_at (rg_per_network g) network)%nat then (Err NetworkShareFull, g)
      else (Ok tt, guard_take digest {| ta_sent_at_ms := sent_at_ms; ta_origin := origin; ta_network := network |} g).

(** ** An envelope arrives *)

(** The parser of the log probabilities in a result frame. *)
Context (entries_from_json : bytes -> option (list TokenLogProbEntry)).

(** Which variant of [SwarmMessage] a message is, as far as relaying asks. *)
Inductive Variant : Type := RemoteGenerateRequest | StreamingToken | CancelInference | ResendTokens | RequesterGuesses | OtherVariant.
Context (variant_of : Message -> Variant).

Definition is_relay_eligible (m : Message) : bool :=
  match variant_of m with
  | RemoteGenerateRequest | StreamingToken | CancelInference | ResendTokens | RequesterGuesses => true
  | OtherVariant => false
  end.

(** What the node knows when an envelope arrives: itself, whether it relays, the origins
    it cut off, the transport's id of a node and its connections; and of the delivery, the
    peer, its network, the node the transport authenticated it as, and the two clocks. *)
Record NodeView : Type := {
  nv_local : NodeId; nv_secret : Secret; nv_relay_enabled : bool; nv_cut_off : NodeId -> bool;
  nv_peer_of : NodeId -> option bytes; nv_connected : bytes -> bool }.
Record Delivery : Type := { dl_peer : bytes; dl_network : bytes; dl_sender_node : option NodeId; dl_now_ms : Z; dl_now : Z }.

Record RelayForwardCounter : Type := { fc_count : Z; fc_window_start : Z }.
(** [features]. *)
Definition RELAY : Z := 1.
Definition TENSOR_RELAY : Z := 2.
Definition RELAY_SIGNED : Z := Z.shiftl 1 24.

Definition RELAY_FORWARD_WINDOW_SECS : Z := 10.
Definition RELAY_FORWARD_MAX_PER_WINDOW : Z := 2000.

Record RelayState : Type := {
  rs_guard : RelayReplayGuard;
  rs_counters : gmap bytes RelayForwardCounter;
  rs_relay_bytes : Z;
  rs_learned : list (NodeId * bytes * Z) }.

Definition relay_forward_allowed (now : Z) (peer : bytes) (m : gmap bytes RelayForwardCounter) : bool * gmap bytes RelayForwardCounter :=
  let entry := default {| fc_count := 0; fc_window_start := now |} (m !! peer) in
  let entry := if seconds RELAY_FORWARD_WINDOW_SECS <? now - fc_window_start entry then {| fc_count := 0; fc_window_start := now |} else entry in
  if RELAY_FORWARD_MAX_PER_WINDOW <=? fc_count entry then (false, <[peer := entry]> m)
  else (true, <[peer := {| fc_count := fc_count entry + 1; fc_window_start := fc_window_start entry |}]> m).

Inductive RelayRefusal : Type :=
| WhyUnsigned
| DidNotOpen (e : SwarmError)
| NotRelayed
| CutOff
| GuardRefused (r : Refused).

Inductive RelayAction : Type :=
| DispatchMessage (origin : NodeId) (inner : Message)
| DispatchForward (origin : NodeId) (f : LayerForward)
| DispatchResult (origin : NodeId) (r : LayerResult)
| Undecodable (e : SwarmError)
| ForwardEnvelope (to_peer : bytes) (env : RelayedEnvelope)
| ForwardTensor (to_peer : bytes) (rt : RelayedTensor)
| RefusedRelayed (why : RelayRefusal)
| NotForwarded
| Panicked.

Definition with_guard (g : RelayReplayGuard) (st : RelayState) : RelayState :=
  {| rs_guard := g; rs_counters := rs_counters st; rs_relay_bytes := rs_relay_bytes st; rs_learned := rs_learned st |}.

Definition admit_relayed (d : Delivery) (origin : NodeId) (digest : bytes) (sent_at_ms : Z) (st : RelayState) : call Refused unit * RelayState :=
  let '(r, g) := admit_body origin (dl_network d) digest sent_at_ms (dl_now_ms d) (rs_guard st) in (r, with_guard g st).

(** What is learned of an origin: reachable through the delivering peer, speaking the
    relay of that kind of body. *)
Definition take_proven_relayed_origin (origin : NodeId) (d : Delivery) (relay_feature : Z) (st : RelayState) : RelayState :=
  {| rs_guard := rs_guard st; rs_counters := rs_counters st; rs_relay_bytes := rs_relay_bytes st;
     rs_learned := rs_learned st ++ [(origin, dl_peer d, Z.lor relay_feature RELAY_SIGNED)] |}.

(** The relay's part: one hop, from the origin itself, within its rate, to a peer it is
    connected to. *)
Definition relay_onward (v : NodeView) (d : Delivery) (origin relay_to : NodeId) (sealed : bytes) (act : bytes -> RelayAction) (st : RelayState)
  : RelayAction * RelayState :=
  if negb (nv_relay_enabled v) then (NotForwarded, st)
  else match dl_sender_node d with
  | None => (NotForwarded, st)
  | Some sender =>
      if negb (bool_decide (sender = origin)) then (NotForwarded, st)
      else
        let '(ok, counters) := relay_forward_allowed (dl_now d) (dl_peer d) (rs_counters st) in
        let st := {| rs_guard := rs_guard st; rs_counters := counters; rs_relay_bytes := rs_relay_bytes st; rs_learned := rs_learned st |} in
        if negb ok then (NotForwarded, st)
        else match nv_peer_of v relay_to with
        | None => (NotForwarded, st)
        | Some target =>
            if negb (nv_connected v target) then (NotForwarded, st)
            else (act target, {| rs_guard := rs_guard st; rs_counters := rs_counters st; rs_relay_bytes := (rs_relay_bytes st + blen sealed) mod 2 ^ 64;
                                 rs_learned := rs_learned st |})
        end
  end.

Definition handle_relayed_envelope (v : NodeView) (d : Delivery) (env : RelayedEnvelope) (st : RelayState) : RelayAction * RelayState :=
  if bool_decide (ev_relay_to env = nv_local v) then
    match open_relayed_message (nv_secret v) env with
    | Ok (Proven inner sent_at_ms digest) =>
        if negb (is_relay_eligible inner) then (RefusedRelayed NotRelayed, st)
        else if nv_cut_off v (ev_origin env) then (RefusedRelayed CutOff, st)
        else
          let '(r, st) := admit_relayed d (ev_origin env) digest sent_at_ms st in
          match r with
          | Ok _ => (DispatchMessage (ev_origin env) inner, take_proven_relayed_origin (ev_origin env) d RELAY st)
          | Err why => (RefusedRelayed (GuardRefused why), st)
          | Panic => (Panicked, st)
          end
    | Ok Unsigned => (RefusedRelayed WhyUnsigned, st)
    | Err e => (RefusedRelayed (DidNotOpen e), st)
    | Panic => (Panicked, st)
    end
  else relay_onward v d (ev_origin env) (ev_relay_to env) (ev_sealed env) (fun p => ForwardEnvelope p env) st.

(** [f.sender_peer_bytes = Some(pid.to_bytes())] *)
Definition stamped (peer : option bytes) (f : LayerForward) : LayerForward :=
  match peer with Some pid => with_transport f (lf_activations f) (lf_chunk_meta f) (Some pid) | None => f end.

Definition dispatch_tensor (v : NodeView) (origin : NodeId) (is_result : bool) (plaintext : bytes) : RelayAction :=
  if is_result then
    match decode_layer_result entries_from_json plaintext with
    | Ok r => DispatchResult origin r
    | Err e => Undecodable e
    | Panic => Panicked
    end
  else
    match decode_layer_forward plaintext with
    | Ok f => DispatchForward origin (stamped (nv_peer_of v origin) f)
    | Err e => Undecodable e
    | Panic => Panicked
    end.

Definition handle_relayed_tensor (v : NodeView) (d : Delivery) (rt : RelayedTensor) (st : RelayState) : RelayAction * RelayState :=
  if bool_decide (rt_relay_to rt = nv_local v) then
    match open_relayed_tensor (nv_secret v) (rt_origin rt) (rt_relay_to rt) (rt_request_id rt) (of_tensor (rt_is_result rt)) (rt_ephemeral_pub rt) (rt_sealed rt) with
    | Ok (Proven plaintext sent_at_ms digest) =>
        if nv_cut_off v (rt_origin rt) then (RefusedRelayed CutOff, st)
        else
          let '(r, st) := admit_relayed d (rt_origin rt) digest sent_at_ms st in
          match r with
          | Ok _ => (dispatch_tensor v (rt_origin rt) (rt_is_result rt) plaintext, take_proven_relayed_origin (rt_origin rt) d TENSOR_RELAY st)
          | Err why => (RefusedRelayed (GuardRefused why), st)
          | Panic => (Panicked, st)
          end
    | Ok Unsigned => (RefusedRelayed WhyUnsigned, st)
    | Err e => (RefusedRelayed (DidNotOpen e), st)
    | Panic => (Panicked, st)
    end
  else relay_onward v d (rt_origin rt) (rt_relay_to rt) (rt_sealed rt) (fun p => ForwardTensor p rt) st.
End sealing.

(** ** The frame *)

(** A relayed tensor survives its frame, and bytes that decode are the frame of what they decode to. *)
Lemma relayed_frame_roundtrip rt : length (rt_relay_to rt) = 32%nat -> length (rt_origin rt) = 32%nat -> length (rt_request_id rt) = 16%nat ->
  length (rt_ephemeral_pub rt) = 32%nat -> decode_relayed_tensor (encode_relayed_tensor rt) = Ok rt.
Proof.
  destruct rt as [a b c r e s]. cbn [rt_relay_to rt_origin rt_request_id rt_is_result rt_ephemeral_pub rt_sealed]. intros Ha Hb Hc He. unfold decode_relayed_tensor, encode_relayed_tensor. cbn [rt_relay_to rt_origin rt_request_id rt_is_result rt_ephemeral_pub rt_sealed].
  assert (Hlen : RELAYED_TENSOR_HEADER_LEN <= blen (a ++ b ++ c ++ [if r then 1 else 0] ++ e ++ s)).
  { rewrite !blen_app. unfold blen. rewrite Ha, Hb, Hc, He. unfold RELAYED_TENSOR_HEADER_LEN. cbn. lia. }
  rewrite (proj2 (Z.ltb_ge _ _) Hlen). f_equal.
  assert (D1 : drop 32 (a ++ b ++ c ++ [if r then 1 else 0] ++ e ++ s) = b ++ c ++ [if r then 1 else 0] ++ e ++ s) by (by apply drop_app_length').
  assert (D2 : drop 64 (a ++ b ++ c ++ [if r then 1 else 0] ++ e ++ s) = c ++ [if r then 1 else 0] ++ e ++ s).
  { change 64%nat with (32 + 32)%nat. rewrite <- drop_drop, D1. by apply drop_app_length'. }
  assert (D3 : drop 80 (a ++ b ++ c ++ [if r then 1 else 0] ++ e ++ s) = [if r then 1 else 0] ++ e ++ s).
  { change 80%nat with (64 + 16)%nat. rewrite <- drop_drop, D2. by apply drop_app_length'. }
  assert (D4 : drop 81 (a ++ b ++ c ++ [if r then 1 else 0] ++ e ++ s) = e ++ s).
  { change 81%nat with (80 + 1)%nat. by rewrite <- drop_drop, D3. }
  assert (D5 : drop (Z.to_nat RELAYED_TENSOR_HEADER_LEN) (a ++ b ++ c ++ [if r then 1 else 0] ++ e ++ s) = s).
  { change (Z.to_nat RELAYED_TENSOR_HEADER_LEN) with (81 + 32)%nat. rewrite <- drop_drop, D4. by apply drop_app_length'. }
  rewrite D1, D2, D3, D4, D5. rewrite !take_app_length' by done. by destruct r.
Qed.

(** ** What a digest covers *)

Section digests.
Context (derived_hash : bytes -> bytes).

Definition hash_collision : Prop := exists a b, a <> b /\ derived_hash a = derived_hash b.

(** The input of the digest determines every field: they have fixed widths but the last. *)
Lemma digest_input_inj k k' o o' r r' q q' t t' i i' : length o = 32%nat -> length o' = 32%nat -> length r = 32%nat -> length r' = 32%nat ->
  length q = 16%nat -> length q' = 16%nat -> is_u64 t -> is_u64 t' -> digest_input k o r q t i = digest_input k' o' r' q' t' i' ->
  k = k' /\ o = o' /\ r = r' /\ q = q' /\ t = t' /\ i = i'.
Proof.
  intros Ho Ho' Hr Hr' Hq Hq' Ht Ht' E. unfold digest_input in E.
  apply app_inj_1 in E as [Ek E]; [|done]. apply app_inj_1 in E as [Eo E]; [|congruence]. apply app_inj_1 in E as [Er E]; [|congruence].
  apply app_inj_1 in E as [Eq E]; [|congruence]. apply app_inj_1 in E as [Et Ei]; [|by rewrite !length_le_bytes].
  split_and!; try done; [by destruct k, k'; cbn in Ek|]. apply (le_bytes_inj 8); [..|done]; change (256 ^ Z.of_nat 8) with (u64_max + 1); unfold is_u64 in *; lia.
Qed.
End digests.

(** ** Sealed and opened *)

Section opening.
Context {Secret : Type}.
Context (dh : Secret -> PublicKey -> bytes) (public_of : Secret -> PublicKey) (hkdf : bytes -> bytes -> Key).
Context (aead_encrypt aead_decrypt : Key -> bytes -> bytes -> bytes -> option bytes).
Context (to_x25519 : NodeId -> option PublicKey) (derived_hash blake3 : bytes -> bytes).
Context {Identity : Type} (node_id : Identity -> NodeId) (sign : Identity -> bytes -> bytes).
Context (valid_key : NodeId -> bool) (verify_sig : bytes -> bytes -> NodeId -> bool).
Context {Message : Type} (to_json : Message -> option bytes) (from_json : bytes -> option Message).

(** What the crates document: Diffie-Hellman commutes, what was sealed opens and is at
    most a tag longer, signatures are 64 bytes and verify, JSON is read back. *)
Record relay_lawful : Prop := {
  rl_dh : forall a b, dh a (public_of b) = dh b (public_of a);
  rl_aead : forall k n a m c, aead_encrypt k n a m = Some c -> aead_decrypt k n a c = Some m /\ blen c <= blen m + 64;
  rl_sig : forall i d, valid_key (node_id i) = true /\ length (sign i d) = 64%nat /\ verify_sig (sign i d) d (node_id i) = true;
  rl_json : forall m j, to_json m = Some j -> from_json j = Some m }.
Context (lawful : relay_lawful).

Abbreviation proving := (prove_origin derived_hash valid_key verify_sig).
Abbreviation digest_of := (origin_digest derived_hash).

Lemma signed_body_length i kind relay_to q inner now : blen (signed_body derived_hash node_id sign i kind relay_to q inner now) = SIGNED_HEADER_LEN + blen inner.
Proof using lawful.
  unfold signed_body, blen. rewrite !length_app, length_le_bytes. destruct (rl_sig lawful i (digest_of kind (node_id i) relay_to q now inner)) as (_ & -> & _).
  change (length SIGNED_MAGIC) with 4%nat. unfold SIGNED_HEADER_LEN. lia.
Qed.

(** The proof of a body its origin signed. *)
Lemma signed_body_proves i kind relay_to q inner now : is_u64 now ->
  proving kind (node_id i) relay_to q (signed_body derived_hash node_id sign i kind relay_to q inner now) =
  Ok (Proven inner now (digest_of kind (node_id i) relay_to q now inner)).
Proof using lawful.
  intros Hnow. set (dg := digest_of kind (node_id i) relay_to q now inner). destruct (rl_sig lawful i dg) as (Hv & Hl & Hs).
  unfold prove_origin. rewrite signed_body_length. pose proof (blen_nonneg inner). rewrite (proj2 (Z.ltb_ge _ _)) by lia.
  unfold signed_body. fold dg. set (sig := sign i dg) in *.
  assert (Ht : take 4 (SIGNED_MAGIC ++ le_bytes 8 now ++ sig ++ inner) = SIGNED_MAGIC) by (by apply take_app_length').
  rewrite Ht, bool_decide_eq_true_2 by done. cbn [negb orb].
  assert (S1 : slice (SIGNED_MAGIC ++ le_bytes 8 now ++ sig ++ inner) 4 8 = Ok (le_bytes 8 now)).
  { change 4%nat with (length SIGNED_MAGIC + 0)%nat. rewrite slice_skip. by apply slice_prefix'. }
  assert (S2 : slice (SIGNED_MAGIC ++ le_bytes 8 now ++ sig ++ inner) 12 64 = Ok sig).
  { rewrite app_assoc. change 12%nat with (length (SIGNED_MAGIC ++ le_bytes 8 now) + 0)%nat. rewrite slice_skip. by apply slice_prefix'. }
  assert (D : drop (Z.to_nat SIGNED_HEADER_LEN) (SIGNED_MAGIC ++ le_bytes 8 now ++ sig ++ inner) = inner).
  { rewrite !app_assoc. apply drop_app_length'. rewrite !length_app, length_le_bytes, Hl. done. }
  rewrite S1. cbn [mbind outcome_bind]. rewrite D, le_val_le_bytes by (change (256 ^ Z.of_nat 8) with (u64_max + 1); unfold is_u64 in Hnow; lia).
  rewrite Hv. cbn [negb]. rewrite S2. cbn [mbind outcome_bind]. fold dg. unfold verify_ed25519_sig, blen. rewrite Hl, Hs. done.
Qed.

(** No body makes the proof panic. *)
Lemma prove_origin_safe kind origin relay_to q body : safe (proving kind origin relay_to q body).
Proof.
  unfold prove_origin. destruct (Z.ltb_spec (blen body) SIGNED_HEADER_LEN) as [|Hl]; [done|]. cbn [orb]. destruct (negb _); [done|].
  unfold SIGNED_HEADER_LEN in Hl. apply safe_bind; [apply slice_safe; lia|]. intros sent _. destruct (negb _); [done|].
  apply safe_bind; [apply slice_safe; lia|]. intros sig _. apply safe_bind; [|done]. unfold verify_ed25519_sig. by repeat case_match.
Qed.

(** What is proven was signed under the origin's key, over exactly these fields. *)
Lemma proven_is_signed kind origin relay_to q body inner sent dg : proving kind origin relay_to q body = Ok (Proven inner sent dg) ->
  dg = digest_of kind origin relay_to q sent inner /\ exists sig, verify_sig sig dg origin = true.
Proof.
  unfold prove_origin. destruct (_ || _); [done|]. destruct (slice body 4 8) as [s| |]; [|done..]. cbn [mbind outcome_bind].
  destruct (negb _); [done|]. destruct (slice body 12 64) as [sig| |]; [|done..]. cbn [mbind outcome_bind]. unfold verify_ed25519_sig.
  destruct (negb _); [done|]. destruct (verify_sig _ _ _) eqn:E; [|done]. cbn. intros [= <- <- <-]. split; [done|]. by exists sig.
Qed.

Lemma ephemeral_roundtrip ephemeral target body aad sealed : ephemeral_seal dh public_of hkdf aead_encrypt ephemeral (public_of target) body aad = Ok sealed ->
  ephemeral_open dh public_of hkdf aead_decrypt target sealed.1 sealed.2 aad = Ok body /\ blen sealed.2 <= blen body + 64.
Proof using lawful.
  unfold ephemeral_seal, ephemeral_open. destruct (aead_encrypt _ _ _ _) as [c|] eqn:E; [|done]. intros [= <-]. cbn [fst snd].
  rewrite (rl_dh lawful target ephemeral). apply (rl_aead lawful) in E as [-> ?]. done.
Qed.

(** A message or a tensor sealed for a node opens there, proven to come from its
    origin at the time it was sealed, byte for byte what was sealed: sealing's limits are
    within opening's. *)
Lemma relayed_body_roundtrip ephemeral target origin relay_to q now : to_x25519 relay_to = Some (public_of target) -> is_u64 now ->
  (forall kind plaintext eph sealed,
    seal_relayed_tensor dh public_of hkdf aead_encrypt to_x25519 derived_hash node_id sign ephemeral origin relay_to q kind plaintext now = Ok (eph, sealed) ->
    open_relayed_tensor dh public_of hkdf aead_decrypt derived_hash valid_key verify_sig target (node_id origin) relay_to q kind eph sealed =
      Ok (Proven plaintext now (digest_of kind (node_id origin) relay_to q now plaintext))) /\
  (forall inner env,
    seal_relayed_message dh public_of hkdf aead_encrypt to_x25519 derived_hash node_id sign to_json ephemeral origin relay_to q inner now = Ok env ->
    exists j, to_json inner = Some j /\ open_relayed_message dh public_of hkdf aead_decrypt derived_hash valid_key verify_sig from_json target env =
      Ok (Proven inner now (digest_of KMessage (node_id origin) relay_to q now j))).
Proof using lawful.
  intros Hx Hnow. split.
  - intros kind plaintext eph sealed E. unfold seal_relayed_tensor in E. destruct (Z.ltb_spec MAX_RELAY_TENSOR_BYTES (blen plaintext)) as [|Hl]; [done|].
    rewrite Hx in E. cbn [ok_or mbind outcome_bind] in E. apply ephemeral_roundtrip in E as [Eo Hs]. cbn [fst snd] in Eo, Hs. rewrite signed_body_length in Hs.
    unfold open_relayed_tensor. rewrite (proj2 (Z.ltb_ge _ _)) by lia. rewrite Eo. cbn [mbind outcome_bind]. by apply signed_body_proves.
  - intros inner env E. unfold seal_relayed_message in E. rewrite Hx in E. cbn [ok_or mbind outcome_bind] in E.
    destruct (to_json inner) as [j|] eqn:Ej; [|done]. cbn [ok_or mbind outcome_bind] in E. exists j. split; [done|].
    destruct (Z.ltb_spec MAX_RELAY_INNER_BYTES (blen j)) as [|Hl]; [done|]. destruct (ephemeral_seal _ _ _ _ _ _ _ _) as [sealed| |] eqn:Es; [|done..].
    cbn [mbind outcome_bind] in E. injection E as <-. apply ephemeral_roundtrip in Es as [Eo Hs]. rewrite signed_body_length in Hs.
    unfold open_relayed_message. cbn [ev_sealed ev_origin ev_relay_to ev_request_id ev_ephemeral_pub]. rewrite (proj2 (Z.ltb_ge _ _)) by lia.
    rewrite Eo. cbn [mbind outcome_bind]. rewrite signed_body_proves by done. cbn [mbind outcome_bind]. by rewrite (rl_json lawful _ _ Ej).
Qed.
End opening.

(** ** No body is taken twice *)

Section guarding.
Context (blake3 : bytes -> bytes).
Abbreviation admits := (admit_body blake3).

(** How many of the bodies held have [key] as [f]. *)
Definition held_of (f : Taken -> Z) (key : Z) (m : gmap bytes Taken) : nat := length (filter (fun t => f t = key) (map snd (map_to_list m))).

Lemma held_of_perm f key m l : map_to_list m ≡ₚ l -> held_of f key m = length (filter (fun t => f t = key) (map snd l)).
Proof. intros Hp. unfold held_of. by rewrite Hp. Qed.

Lemma held_of_insert f key d t m : m !! d = None -> held_of f key (<[d := t]> m) = (held_of f key m + if decide (f t = key) then 1 else 0)%nat.
Proof.
  intros Hd. rewrite (held_of_perm f key _ _ (map_to_list_insert m d t Hd)). unfold held_of. cbn [map snd]. rewrite filter_cons. case_decide; cbn; lia.
Qed.

Lemma kept_and_gone (w : Taken -> bool) (m : gmap bytes Taken) :
  map snd (map_to_list m) ≡ₚ map snd (map_to_list (filter (fun dt : bytes * Taken => w dt.2 = true) m)) ++
    map snd (map_to_list (filter (fun dt : bytes * Taken => w dt.2 = false) m)).
Proof.
  induction m as [|d t m Hd IH] using map_ind; [done|].
  assert (Hp : map snd (map_to_list (<[d := t]> m)) ≡ₚ t :: map snd (map_to_list m)) by (by rewrite (map_to_list_insert m d t Hd)).
  rewrite Hp, IH. destruct (w t) eqn:Ew.
  - rewrite map_filter_insert_True by done. rewrite (map_filter_insert_not' (fun dt : bytes * Taken => w dt.2 = false)) by (cbn; congruence).
    assert (Hn : filter (fun dt : bytes * Taken => w dt.2 = true) m !! d = None) by (apply map_lookup_filter_None; by left).
    rewrite (map_to_list_insert _ d t Hn). done.
  - rewrite (map_filter_insert_not' (fun dt : bytes * Taken => w dt.2 = true)) by (cbn; congruence).
    rewrite (map_filter_insert_True (fun dt : bytes * Taken => w dt.2 = false)) by done.
    assert (Hn : filter (fun dt : bytes * Taken => w dt.2 = false) m !! d = None) by (apply map_lookup_filter_None; by left).
    rewrite (map_to_list_insert _ d t Hn). cbn. by rewrite <- Permutation_middle.
Qed.

Lemma uncount_all (f : Taken -> Z) (m : gmap Z nat) gone key :
  count_at (foldr (fun t => uncount (f t)) m gone) key = (count_at m key - length (filter (fun t => f t = key) gone))%nat.
Proof.
  induction gone as [|t gone IH]; cbn [foldr]; [cbn; lia|]. rewrite filter_cons. unfold uncount at 1. unfold count_at at 1. case_decide as Hk.
  - subst key. rewrite lookup_alter_eq. fold (count_at (foldr (fun t => uncount (f t)) m gone) (f t)) in IH. unfold count_at at 1 in IH. cbn [length].
    destruct (_ !! f t) as [n|]; cbn in *; lia.
  - rewrite lookup_alter_ne by done. exact IH.
Qed.

Lemma drop_zeros_count m key : count_at (drop_zeros m) key = count_at m key.
Proof.
  unfold count_at, drop_zeros. destruct (m !! key) as [n|] eqn:E.
  - destruct (decide (0 < n)%nat) as [Hn|Hn].
    + by rewrite (proj2 (map_lookup_filter_Some _ m key n)).
    + rewrite (proj2 (map_lookup_filter_None _ m key)); [cbn; lia|]. right. intros n' E'. cbn. congruence.
  - by rewrite (proj2 (map_lookup_filter_None _ m key)) by (by left).
Qed.

(** The counts are the counts, and within the limits. *)
Record guard_ok (g : RelayReplayGuard) : Prop := {
  go_origins : forall key, count_at (rg_per_origin g) key = held_of ta_origin key (rg_taken g);
  go_networks : forall key, count_at (rg_per_network g) key = held_of ta_network key (rg_taken g);
  go_total : (size (rg_taken g) <= li_total (rg_limits g))%nat;
  go_share : forall key, (held_of ta_origin key (rg_taken g) <= li_per_origin (rg_limits g))%nat;
  go_network_share : forall key, (held_of ta_network key (rg_taken g) <= li_per_network (rg_limits g))%nat }.

Lemma guard_sweep_ok now g : guard_ok g -> guard_ok (guard_sweep now g).
Proof.
  intros [Ho Hn Ht Hs Hns].
  assert (Hsplit : forall f key, held_of f key (rg_taken g) = (held_of f key (filter (fun dt : bytes * Taken => within_age now dt.2 = true) (rg_taken g)) +
    length (filter (fun t => f t = key) (map snd (map_to_list (filter (fun dt : bytes * Taken => within_age now dt.2 = false) (rg_taken g))))))%nat).
  { intros f key. unfold held_of. by rewrite (kept_and_gone (within_age now)), list.filter_app, length_app. }
  split; cbn [guard_sweep rg_per_origin rg_per_network rg_taken rg_limits].
  - intros key. rewrite drop_zeros_count, uncount_all, Ho, Hsplit. lia.
  - intros key. rewrite drop_zeros_count, uncount_all, Hn, Hsplit. lia.
  - etransitivity; [apply map_size_filter|done].
  - intros key. specialize (Hs key). rewrite Hsplit in Hs. lia.
  - intros key. specialize (Hns key). rewrite Hsplit in Hns. lia.
Qed.

Lemma guard_take_ok digest t g : guard_ok g -> rg_taken g !! digest = None -> (size (rg_taken g) < li_total (rg_limits g))%nat ->
  (count_at (rg_per_origin g) (ta_origin t) < li_per_origin (rg_limits g))%nat ->
  (count_at (rg_per_network g) (ta_network t) < li_per_network (rg_limits g))%nat -> guard_ok (guard_take digest t g).
Proof.
  intros [Ho Hn Ht Hs Hns] Hd Htot Hor Hne.
  assert (Hcount : forall m f key, (forall k, count_at m k = held_of f k (rg_taken g)) ->
    count_at (<[f t := S (count_at m (f t))]> m) key = held_of f key (<[digest := t]> (rg_taken g))).
  { intros m f key Hm. rewrite held_of_insert by done. unfold count_at at 1. case_decide as Hk.
    - subst key. rewrite lookup_insert_eq. cbn. rewrite Hm. lia.
    - rewrite lookup_insert_ne by done. fold (count_at m key). rewrite Hm. lia. }
  split; cbn [guard_take rg_per_origin rg_per_network rg_taken rg_limits].
  - intros key. by apply Hcount.
  - intros key. by apply Hcount.
  - rewrite map_size_insert_None by done. lia.
  - intros key. rewrite held_of_insert by done. specialize (Hs key). case_decide as Hk; [subst key; rewrite Ho in Hor; lia|lia].
  - intros key. rewrite held_of_insert by done. specialize (Hns key). case_decide as Hk; [subst key; rewrite Hn in Hne; lia|lia].
Qed.

(** The memory an admission counts in: swept, when it is due. *)
Definition maybe_swept (now : Z) (g : RelayReplayGuard) : RelayReplayGuard :=
  if SWEEP_EVERY_MS <=? u64_saturating_sub now (rg_swept_at_ms g) then guard_sweep now g else g.

Lemma maybe_swept_forgets now g d : rg_taken g !! d = None -> rg_taken (maybe_swept now g) !! d = None.
Proof. intros. unfold maybe_swept. destruct (_ <=? _); [|done]. apply map_lookup_filter_None. by left. Qed.

(** An admission swept or not, and took the body or did not. *)
Lemma admit_cases origin network digest sent now g r g' : admits origin network digest sent now g = (r, g') ->
  let g1 := maybe_swept now g in
  (exists x, r = Err x) /\ (g' = g \/ g' = g1) \/
  r = Ok tt /\ g' = guard_take digest {| ta_sent_at_ms := sent; ta_origin := short_key blake3 origin; ta_network := short_key blake3 network |} g1 /\
    u64_saturating_sub now sent <= RELAYED_MAX_AGE_MS /\ sent <= u64_saturating_add now RELAYED_SKEW_MS /\ rg_taken g !! digest = None /\
    (size (rg_taken g1) < li_total (rg_limits g1))%nat /\ (count_at (rg_per_origin g1) (short_key blake3 origin) < li_per_origin (rg_limits g1))%nat /\
    (count_at (rg_per_network g1) (short_key blake3 network) < li_per_network (rg_limits g1))%nat.
Proof.
  intros E g1. unfold admit_body in E. fold (maybe_swept now g) in E. fold g1 in E. destruct (Z.ltb_spec (u64_saturating_add now RELAYED_SKEW_MS) sent); [left; simplify_eq; eauto|].
  destruct (Z.ltb_spec RELAYED_MAX_AGE_MS (u64_saturating_sub now sent)); [left; simplify_eq; eauto|].
  case_bool_decide as Hd; [left; simplify_eq; eauto|]. destruct (Nat.leb_spec (li_total (rg_limits g1)) (size (rg_taken g1))); [left; simplify_eq; eauto|].
  destruct (Nat.leb_spec (li_per_origin (rg_limits g1)) (count_at (rg_per_origin g1) (short_key blake3 origin))); [left; simplify_eq; eauto|].
  destruct (Nat.leb_spec (li_per_network (rg_limits g1)) (count_at (rg_per_network g1) (short_key blake3 network))); [left; simplify_eq; eauto|].
  right. simplify_eq. split_and!; try done. by apply eq_None_not_Some.
Qed.

(** The bodies taken so far, newest first, under a clock that does not step back. *)
Inductive guard_run (limits : Limits) : list (bytes * Z) -> Z -> RelayReplayGuard -> Prop :=
| gr_new : guard_run limits [] 0 (guard_new limits)
| gr_admit h t g origin network digest sent now r g' : guard_run limits h t g -> t <= now <= u64_max ->
    admits origin network digest sent now g = (r, g') ->
    guard_run limits (match r with Ok _ => (digest, sent) :: h | _ => h end) now g'.

Lemma guard_run_ok limits h t g : guard_run limits h t g -> guard_ok g.
Proof.
  induction 1 as [|h t g origin network digest sent now r g' _ IH _ E].
  { split; cbn [guard_new rg_per_origin rg_per_network rg_taken rg_limits]; intros; unfold count_at, held_of;
      rewrite ?lookup_empty, ?map_size_empty, ?map_to_list_empty; cbn; lia. }
  apply admit_cases in E. assert (Hg1 : guard_ok (maybe_swept now g)) by (unfold maybe_swept; destruct (_ <=? _); [by apply guard_sweep_ok|done]).
  destruct E as [[_ [-> | ->]]|(_ & -> & _ & _ & Hd & H1 & H2 & H3)]; [done|done|]. apply guard_take_ok; try done.
  by apply maybe_swept_forgets.
Qed.

Lemma guard_run_limits limits h t g : guard_run limits h t g -> rg_limits g = limits.
Proof.
  induction 1 as [|h t g origin network digest sent now r g' _ IH _ E]; [done|]. apply admit_cases in E.
  assert (Hs : rg_limits (maybe_swept now g) = limits) by (unfold maybe_swept; by destruct (_ <=? _)).
  by destruct E as [[_ [-> | ->]]|(_ & -> & _)].
Qed.

(** Every body taken is still held, or too old for the clock ever to admit again. *)
Definition remembers (h : list (bytes * Z)) (t : Z) (g : RelayReplayGuard) : Prop :=
  forall d s, (d, s) ∈ h -> (exists x, rg_taken g !! d = Some x /\ ta_sent_at_ms x = s) \/ RELAYED_MAX_AGE_MS < t - s.

Lemma sweep_remembers h t now g : t <= now <= u64_max -> 0 <= t -> remembers h t g -> remembers h now (guard_sweep now g).
Proof.
  intros Hle Ht Hr d s Hin. destruct (Hr d s Hin) as [(x & Hx & Hs)|?]; [|right; lia]. destruct (within_age now x) eqn:Ew.
  - left. exists x. split; [|done]. cbn. apply map_lookup_filter_Some. done.
  - right. unfold within_age in Ew. apply Z.leb_gt in Ew. unfold u64_saturating_sub, clamp in Ew. subst s. unfold RELAYED_MAX_AGE_MS in *. lia.
Qed.

Lemma guard_run_remembers limits h t g : guard_run limits h t g -> 0 <= t /\ remembers h t g /\ NoDup h.
Proof.
  induction 1 as [|h t g origin network digest sent now r g' _ (Ht & Hr & Hnd) Hle E]; [split_and!; [done|by intros ? ? ?%elem_of_nil|constructor]|].
  assert (Hkeep : remembers h now g) by (intros d s Hin; destruct (Hr d s Hin); [by left|right; lia]).
  apply admit_cases in E.
  assert (Hg1 : remembers h now (maybe_swept now g)) by (unfold maybe_swept; destruct (_ <=? _); [by eapply sweep_remembers|done]).
  destruct E as [[[x ->] Hg]|(-> & -> & Hage & Hskew & Hd & _)]; [split_and!; [lia|by destruct Hg as [-> | ->]|done]|].
  assert (Hfresh : (digest, sent) ∉ h).
  { intros Hin. destruct (Hr _ _ Hin) as [(x & Hx & _)|Hold]; [congruence|]. unfold RELAYED_MAX_AGE_MS in *. ints. }
  split_and!; [lia| |by constructor]. intros d s [[= -> ->]|Hin]%elem_of_cons.
  - left. cbn. rewrite lookup_insert_eq. eauto.
  - destruct (decide (d = digest)) as [->|Hne].
    + right. destruct (Hg1 _ _ Hin) as [(x & Hx & _)|?]; [|done]. exfalso. by rewrite maybe_swept_forgets in Hx.
    + destruct (Hg1 _ _ Hin) as [(x & Hx & Hs)|?]; [left|by right]. exists x. cbn. by rewrite lookup_insert_ne.
Qed.
End guarding.

(** ** What a node does with what arrives *)

Section arriving.
Context {Secret : Type}.
Context (dh : Secret -> PublicKey -> bytes) (public_of : Secret -> PublicKey) (hkdf : bytes -> bytes -> Key).
Context (aead_decrypt : Key -> bytes -> bytes -> bytes -> option bytes).
Context (derived_hash blake3 : bytes -> bytes).
Context (valid_key : NodeId -> bool) (verify_sig : bytes -> bytes -> NodeId -> bool).
Context {Message : Type} (from_json : bytes -> option Message) (entries_from_json : bytes -> option (list TokenLogProbEntry)) (variant_of : Message -> Variant).

Abbreviation proving := (prove_origin derived_hash valid_key verify_sig).
Abbreviation digest_of := (origin_digest derived_hash).
Abbreviation on_envelope := (handle_relayed_envelope dh public_of hkdf aead_decrypt derived_hash blake3 valid_key verify_sig from_json variant_of).
Abbreviation on_tensor := (handle_relayed_tensor (Message := Message) dh public_of hkdf aead_decrypt derived_hash blake3 valid_key verify_sig entries_from_json).

Inductive Arrival : Type := ArriveEnvelope (env : RelayedEnvelope) | ArriveTensor (rt : RelayedTensor).

Definition arrive (v : NodeView) (d : Delivery) (a : Arrival) (st : RelayState) : RelayAction * RelayState :=
  match a with ArriveEnvelope env => on_envelope v d env st | ArriveTensor rt => on_tensor v d rt st end.

(** What a signature covers, less the node it is for. *)
Record Body : Type := { bo_kind : RelayedKind; bo_origin : NodeId; bo_request : Uuid; bo_sent_at_ms : Z; bo_inner : bytes }.

Definition body_within (secret : Secret) (kind : RelayedKind) (origin relay_to : NodeId) (q : Uuid) (eph sealed : bytes) : option Body :=
  match ephemeral_open dh public_of hkdf aead_decrypt secret eph sealed (relay_aad origin relay_to q) with
  | Ok body => match proving kind origin relay_to q body with
      | Ok (Proven inner sent _) => Some {| bo_kind := kind; bo_origin := origin; bo_request := q; bo_sent_at_ms := sent; bo_inner := inner |}
      | _ => None
      end
  | _ => None
  end.
Definition body_of (secret : Secret) (a : Arrival) : option Body :=
  match a with
  | ArriveEnvelope e => body_within secret KMessage (ev_origin e) (ev_relay_to e) (ev_request_id e) (ev_ephemeral_pub e) (ev_sealed e)
  | ArriveTensor t => body_within secret (of_tensor (rt_is_result t)) (rt_origin t) (rt_relay_to t) (rt_request_id t) (rt_ephemeral_pub t) (rt_sealed t)
  end.

(** The body was taken: it is dispatched, or does not decode as what it says it is. *)
Definition takes (act : RelayAction (Message := Message)) : bool :=
  match act with DispatchMessage _ _ | DispatchForward _ _ | DispatchResult _ _ | Undecodable _ => true | _ => false end.

(** What was taken, in order. *)
Fixpoint arrivals (l : list (NodeView * Delivery * Arrival)) (st : RelayState) : list Body * RelayState :=
  match l with
  | [] => ([], st)
  | (v, d, a) :: l =>
      let '(act, st) := arrive v d a st in
      let '(bodies, st) := arrivals l st in
      ((if takes act then option_list (body_of (nv_secret v) a) else []) ++ bodies, st)
  end.

Definition key_of (me : NodeId) (b : Body) : bytes * Z := (digest_of (bo_kind b) (bo_origin b) me (bo_request b) (bo_sent_at_ms b) (bo_inner b), bo_sent_at_ms b).
Definition signed_for (me : NodeId) (b : Body) : Prop := exists sig, verify_sig sig (key_of me b).1 (bo_origin b) = true.

Lemma body_within_signed secret kind origin me q eph sealed b : body_within secret kind origin me q eph sealed = Some b ->
  signed_for me b /\ bo_kind b = kind /\ bo_origin b = origin /\ bo_request b = q.
Proof.
  unfold body_within. destruct (ephemeral_open _ _ _ _ _ _ _ _) as [body| |]; [|done..]. destruct (proving _ _ _ _ _) as [[inner sent dg|]| |] eqn:E; [|done..].
  intros [= <-]. apply proven_is_signed in E as (-> & sig & Hs). split; [by exists sig|done].
Qed.

Lemma relay_onward_keeps (v : NodeView (Secret := Secret)) d o r s act st act' st' : (forall p, takes (act p) = false /\ act p <> Panicked) ->
  relay_onward v d o r s act st = (act', st') -> takes act' = false /\ act' <> Panicked /\ rs_guard st' = rs_guard st.
Proof.
  intros Ha. unfold relay_onward. destruct (relay_forward_allowed _ _ _) as [ok counters]. repeat case_match; intros [= <- <-]; try done.
  split_and!; [apply Ha..|done].
Qed.

(** What one arrival does to the guard: nothing, a refusal, or the taking of a signed body. *)
Definition step_of (v : NodeView (Secret := Secret)) (d : Delivery) (found : option Body) (act : RelayAction (Message := Message)) (st st' : RelayState) : Prop :=
  act <> Panicked /\
  (takes act = false /\ (rs_guard st' = rs_guard st \/
     exists o n dg s x, admit_body blake3 o n dg s (dl_now_ms d) (rs_guard st) = (Err x, rs_guard st')) \/
   exists b, takes act = true /\ found = Some b /\ signed_for (nv_local v) b /\
     admit_body blake3 (bo_origin b) (dl_network d) (key_of (nv_local v) b).1 (key_of (nv_local v) b).2 (dl_now_ms d) (rs_guard st) = (Ok tt, rs_guard st')).

Lemma step_stays v d found act st : takes act = false -> act <> Panicked -> step_of v d found act st st.
Proof. intros. split; [done|]. left. eauto. Qed.
#[local] Hint Resolve step_stays : core.

(** The admission both kinds of body go through. *)
Lemma admission_step v d kind origin q body inner sent dg taking feature st act st' : takes taking = true -> taking <> Panicked ->
  proving kind origin (nv_local v) q body = Ok (Proven inner sent dg) ->
  (let '(r, st) := admit_relayed blake3 d origin dg sent st in
   match r with
   | Ok _ => (taking, take_proven_relayed_origin origin d feature st)
   | Err why => (RefusedRelayed (GuardRefused why), st)
   | Panic => (Panicked, st)
   end) = (act, st') ->
  step_of v d (Some {| bo_kind := kind; bo_origin := origin; bo_request := q; bo_sent_at_ms := sent; bo_inner := inner |}) act st st'.
Proof.
  intros Ht Hp Ep. apply proven_is_signed in Ep as (-> & sig & Hs). unfold admit_relayed.
  destruct (admit_body _ _ _ _ _ _ _) as [r g] eqn:Eg. pose proof (admit_cases _ _ _ _ _ _ _ _ _ Eg) as Hr.
  destruct r as [[]|x|]; [| |by destruct Hr as [[[? ?] _]|[? _]]]; intros [= <- <-]; (split; [done|]).
  - right. eexists. split_and!; [done..|by exists sig|exact Eg].
  - left. split; [done|]. right. eauto 10.
Qed.

Lemma dispatch_takes (v : NodeView (Secret := Secret)) o r p : takes (dispatch_tensor entries_from_json v o r p) = true /\ dispatch_tensor (Message := Message) entries_from_json v o r p <> Panicked.
Proof.
  unfold dispatch_tensor. pose proof (decode_safe p) as Hf. pose proof (result_decoder_never_panics entries_from_json p) as Hr.
  destruct r; [by destruct (decode_layer_result _ _)|by destruct (decode_layer_forward _)].
Qed.

Lemma arrive_step v d a st act st' : arrive v d a st = (act, st') -> step_of v d (body_of (nv_secret v) a) act st st'.
Proof.
  assert (Hopen : forall s eph ct aad, ephemeral_open dh public_of hkdf aead_decrypt s eph ct aad <> Panic) by (intros; unfold ephemeral_open, ok_or; by case_match).
  assert (Honward : forall o r s f, (forall p, takes (f p) = false /\ f p <> Panicked) -> relay_onward v d o r s f st = (act, st') ->
    step_of v d (body_of (nv_secret v) a) act st st').
  { intros o r s f Hf E. apply relay_onward_keeps in E as (? & ? & ?); [|done]. split; [done|]. left. eauto. }
  destruct a as [e|t]; cbn [arrive body_of] in *.
  - unfold handle_relayed_envelope. case_bool_decide as Hme; [|by apply Honward].
    unfold open_relayed_message, body_within. destruct (_ <? _); [intros [= <- <-]; auto|]. rewrite Hme.
    destruct (ephemeral_open _ _ _ _ _ _ _ _) as [body|err|] eqn:Eo; cbn [mbind outcome_bind]; [|intros [= <- <-]; auto|by destruct (Hopen _ _ _ _ Eo)].
    pose proof (prove_origin_safe derived_hash valid_key verify_sig KMessage (ev_origin e) (nv_local v) (ev_request_id e) body) as Hsafe.
    destruct (proving _ _ _ _ _) as [[inner sent dg|]|err|] eqn:Ep; cbn [mbind outcome_bind]; [|intros [= <- <-]; auto..|done].
    destruct (from_json inner) as [m|]; cbn [ok_or mbind outcome_bind]; [|intros [= <- <-]; auto]. destruct (negb _); [intros [= <- <-]; auto|].
    destruct (nv_cut_off _ _); [intros [= <- <-]; auto|]. by eapply admission_step.
  - unfold handle_relayed_tensor. case_bool_decide as Hme; [|by apply Honward].
    unfold open_relayed_tensor, body_within. destruct (_ <? _); [intros [= <- <-]; auto|]. rewrite Hme.
    destruct (ephemeral_open _ _ _ _ _ _ _ _) as [body|err|] eqn:Eo; cbn [mbind outcome_bind]; [|intros [= <- <-]; auto|by destruct (Hopen _ _ _ _ Eo)].
    pose proof (prove_origin_safe derived_hash valid_key verify_sig (of_tensor (rt_is_result t)) (rt_origin t) (nv_local v) (rt_request_id t) body) as Hsafe.
    destruct (proving _ _ _ _ _) as [[inner sent dg|]|err|] eqn:Ep; cbn [mbind outcome_bind]; [|intros [= <- <-]; auto..|done].
    destruct (nv_cut_off _ _); [intros [= <- <-]; auto|]. eapply admission_step; [apply dispatch_takes..|done].
Qed.

(** A run of arrivals is a run of the guard over what it dispatched. *)
Lemma arrivals_guarded limits me l : forall h t st bodies st', guard_run blake3 limits h t (rs_guard st) -> Forall (fun x => nv_local x.1.1 = me) l ->
  Sorted Z.le (t :: map (fun x => dl_now_ms x.1.2) l) -> Forall (fun x => is_u64 (dl_now_ms x.1.2)) l -> arrivals l st = (bodies, st') ->
  Forall (signed_for me) bodies /\ exists t', guard_run blake3 limits (reverse (map (key_of me) bodies) ++ h) t' (rs_guard st').
Proof.
  induction l as [|[[v d] a] l IH]; intros h t st bodies st' Hg Hme Hs Hu; cbn [arrivals].
  { intros [= <- <-]. eauto. }
  destruct (arrive v d a st) as [act st1] eqn:Ea. destruct (arrivals l st1) as [rest st2] eqn:El. intros [= <- <-].
  apply Forall_cons_1 in Hme as [Hv Hme]. apply Forall_cons_1 in Hu as [Hu Hus]. cbn [fst snd map] in *.
  apply Sorted_inv in Hs as [Hs Hle]. apply HdRel_inv in Hle.
  assert (Hs' : forall t0, t0 <= dl_now_ms d -> Sorted Z.le (t0 :: map (fun x => dl_now_ms x.1.2) l)).
  { intros t0 Ht0. apply Sorted_inv in Hs as [Hs Hh]. constructor; [done|]. destruct Hh; constructor. lia. }
  assert (Hnow : t <= dl_now_ms d <= u64_max) by (split; [done|apply Hu]).
  apply arrive_step in Ea as [_ [[Hd Hst]|(b & Hd & Hb & Hsig & Hadm)]]; rewrite Hd.
  - assert (Hg1 : exists t1, t1 <= dl_now_ms d /\ guard_run blake3 limits h t1 (rs_guard st1)).
    { destruct Hst as [->|(o & n & dg & s & x & E)]; [eauto|]. exists (dl_now_ms d). split; [done|]. by apply (gr_admit blake3 limits h t _ _ _ _ _ _ _ _ Hg Hnow E). }
    destruct Hg1 as (t1 & Ht1 & Hg1). apply (IH h t1 st1); auto.
  - rewrite Hb. change (option_list (Some b) ++ rest) with (b :: rest). cbn [map]. rewrite Hv in *. pose proof (gr_admit blake3 limits h t _ _ _ _ _ _ _ _ Hg Hnow Hadm) as Hg1.
    destruct (IH _ _ st1 rest st2 Hg1 Hme (Hs' _ (Z.le_refl _)) Hus El) as (Hf & t' & Hg2). split; [by constructor|]. exists t'.
    rewrite reverse_cons, <- app_assoc. cbn [app]. by destruct (key_of me b).
Qed.

(** C10: whatever relays deliver to a node, in whatever order, under a clock that does not
    step back, what it takes to dispatch was signed for it by its origin, over exactly the
    kind, the request, the time and the bytes; nothing it takes was taken before; and its
    memory stays within the limits, whole and by network. *)
Theorem relayed_body_dispatched_once limits me l st bodies st' : rs_guard st = guard_new limits -> Forall (fun x => nv_local x.1.1 = me) l ->
  Sorted Z.le (map (fun x => dl_now_ms x.1.2) l) -> Forall (fun x => is_u64 (dl_now_ms x.1.2)) l -> arrivals l st = (bodies, st') ->
  NoDup bodies /\ Forall (signed_for me) bodies /\ (size (rg_taken (rs_guard st')) <= li_total limits)%nat /\
  forall network, (held_of ta_network (short_key blake3 network) (rg_taken (rs_guard st')) <= li_per_network limits)%nat.
Proof.
  intros Hnew Hme Hs Hu E. destruct (arrivals_guarded limits me l [] 0 st bodies st') as (Hsig & t & Hg); try done.
  { rewrite Hnew. constructor. }
  { constructor; [done|]. destruct l as [|x l]; constructor. apply Forall_cons_1 in Hu as [[? _] _]. done. }
  rewrite app_nil_r in Hg. pose proof (guard_run_ok _ _ _ _ _ Hg) as Hok. rewrite <- (guard_run_limits _ _ _ _ _ Hg).
  split_and!; [|done|apply Hok|intros; apply Hok].
  apply guard_run_remembers in Hg as (_ & _ & Hnd). rewrite reverse_Permutation in Hnd. by apply NoDup_fmap_1 in Hnd.
Qed.
End arriving.

(** ** From the origin, through a relay, to the target *)

Section delivering.
Context {Secret : Type}.
Context (dh : Secret -> PublicKey -> bytes) (public_of : Secret -> PublicKey) (hkdf : bytes -> bytes -> Key).
Context (aead_encrypt aead_decrypt : Key -> bytes -> bytes -> bytes -> option bytes).
Context (to_x25519 : NodeId -> option PublicKey) (derived_hash blake3 : bytes -> bytes).
Context {Identity : Type} (node_id : Identity -> NodeId) (sign : Identity -> bytes -> bytes).
Context (valid_key : NodeId -> bool) (verify_sig : bytes -> bytes -> NodeId -> bool).
Context {Message : Type} (to_json : Message -> option bytes) (from_json : bytes -> option Message).
Context (entries_from_json : bytes -> option (list TokenLogProbEntry)).

Abbreviation on_tensor := (handle_relayed_tensor (Message := Message) dh public_of hkdf aead_decrypt derived_hash blake3 valid_key verify_sig entries_from_json).

(** The memory has room for a body of [origin] delivered from [network]. *)
Definition has_room (g : RelayReplayGuard) (origin : NodeId) (network : bytes) : Prop :=
  (size (rg_taken g) < li_total (rg_limits g))%nat /\ (count_at (rg_per_origin g) (short_key blake3 origin) < li_per_origin (rg_limits g))%nat /\
  (count_at (rg_per_network g) (short_key blake3 network) < li_per_network (rg_limits g))%nat.

Lemma admit_fresh origin network digest sent now g : sent <= u64_saturating_add now RELAYED_SKEW_MS -> u64_saturating_sub now sent <= RELAYED_MAX_AGE_MS ->
  rg_taken g !! digest = None -> has_room (maybe_swept now g) origin network ->
  exists g', admit_body blake3 origin network digest sent now g = (Ok tt, g') /\ is_Some (rg_taken g' !! digest).
Proof.
  intros H1 H2 H3 (H4 & H5 & H6). eexists. unfold admit_body. rewrite (proj2 (Z.ltb_ge _ _) H1), (proj2 (Z.ltb_ge _ _) H2).
  rewrite bool_decide_eq_false_2 by (rewrite H3; by intros []). fold (maybe_swept now g).
  rewrite (proj2 (Nat.leb_gt _ _) H4), (proj2 (Nat.leb_gt _ _) H5), (proj2 (Nat.leb_gt _ _) H6). split; [done|]. cbn. rewrite lookup_insert_eq. eauto.
Qed.

Lemma admit_again origin network digest sent now g : is_Some (rg_taken g !! digest) -> exists x, admit_body blake3 origin network digest sent now g = (Err x, g).
Proof. intros H. unfold admit_body. rewrite (bool_decide_eq_true_2 _ H). repeat case_match; eauto. Qed.

(** C11: a tensor an origin seals for a node it cannot reach, handed to a relay connected
    to it, is passed on unchanged and decodes from its frame as it was; the node it is for,
    when it has room for it, has not seen it, has not cut the origin off and the two clocks
    agree within the window (relaying enabled and within its rate on the way), dispatches what the bytes sealed decode to, in the origin's name: a forward within the wire's limits with
    every field that travels, stamped with the peer to answer; and handed the same tensor
    again, by anyone at any time, it refuses it. *)
Theorem relayed_tensor_is_delivered ephemeral origin q is_result plaintext sent eph sealed (rv tv : NodeView (Secret := Secret)) (rd td : Delivery) (peer : bytes) (rst tst : RelayState) :
  relay_lawful dh public_of aead_encrypt aead_decrypt node_id sign valid_key verify_sig to_json from_json ->
  (length (node_id origin) = 32 /\ length (nv_local tv) = 32 /\ length q = 16 /\ length (public_of ephemeral) = 32)%nat -> is_u64 sent ->
  to_x25519 (nv_local tv) = Some (public_of (nv_secret tv)) ->
  seal_relayed_tensor dh public_of hkdf aead_encrypt to_x25519 derived_hash node_id sign ephemeral origin (nv_local tv) q (of_tensor is_result) plaintext sent = Ok (eph, sealed) ->
  nv_local rv <> nv_local tv -> nv_relay_enabled rv = true -> dl_sender_node rd = Some (node_id origin) ->
  (relay_forward_allowed (dl_now rd) (dl_peer rd) (rs_counters rst)).1 = true -> nv_peer_of rv (nv_local tv) = Some peer -> nv_connected rv peer = true ->
  nv_cut_off tv (node_id origin) = false -> sent <= u64_saturating_add (dl_now_ms td) RELAYED_SKEW_MS -> u64_saturating_sub (dl_now_ms td) sent <= RELAYED_MAX_AGE_MS ->
  rg_taken (rs_guard tst) !! origin_digest derived_hash (of_tensor is_result) (node_id origin) (nv_local tv) q sent plaintext = None ->
  has_room (maybe_swept (dl_now_ms td) (rs_guard tst)) (node_id origin) (dl_network td) ->
  let rt := {| rt_relay_to := nv_local tv; rt_origin := node_id origin; rt_request_id := q; rt_is_result := is_result; rt_ephemeral_pub := eph; rt_sealed := sealed |} in
  fst (on_tensor rv rd rt rst) = ForwardTensor peer rt /\ decode_relayed_tensor (encode_relayed_tensor rt) = Ok rt /\
  exists tst', on_tensor tv td rt tst = (dispatch_tensor entries_from_json tv (node_id origin) is_result plaintext, tst') /\
    (forall f, is_result = false -> typed_forward f -> within_limits f -> blen (lf_activations f) <= MAX_ACTIVATION_SIZE -> encode_layer_forward f = Ok plaintext ->
      fst (on_tensor tv td rt tst) = DispatchForward (node_id origin) (stamped (nv_peer_of tv (node_id origin)) (received f))) /\
    forall d, exists why, fst (on_tensor tv d rt tst') = RefusedRelayed (GuardRefused why).
Proof.
  intros law (Ho & Hl & Hq & Hp) Hu Hx Hseal Hne Hen Hsend Hrate Hpeer Hconn Hcut Hahead Hold Hnew Hroom rt.
  pose proof (proj1 (relayed_body_roundtrip dh public_of hkdf aead_encrypt aead_decrypt to_x25519 derived_hash node_id sign valid_key verify_sig to_json from_json law
    ephemeral (nv_secret tv) origin (nv_local tv) q sent Hx Hu) _ _ _ _ Hseal) as Hopen.
  assert (Heph : eph = public_of ephemeral).
  { unfold seal_relayed_tensor, ephemeral_seal in Hseal. destruct (_ <? _); [done|]. rewrite Hx in Hseal. cbn [ok_or mbind outcome_bind] in Hseal.
    destruct (aead_encrypt _ _ _ _); [|done]. by injection Hseal. }
  split_and!.
  - unfold handle_relayed_tensor. cbn [rt rt_relay_to rt_origin rt_sealed]. rewrite bool_decide_eq_false_2 by done. unfold relay_onward. rewrite Hen, Hsend. cbn [negb].
    rewrite bool_decide_eq_true_2 by done. destruct (relay_forward_allowed _ _ _) as [ok counters]. cbn [fst] in Hrate. rewrite Hrate. cbn [negb].
    by rewrite Hpeer, Hconn.
  - apply relayed_frame_roundtrip; cbn; congruence.
  - destruct (admit_fresh (node_id origin) (dl_network td) _ sent (dl_now_ms td) (rs_guard tst) Hahead Hold Hnew Hroom) as (g' & Hadm & Htaken).
    eexists. unfold handle_relayed_tensor. cbn [rt rt_relay_to rt_origin rt_sealed rt_request_id rt_is_result rt_ephemeral_pub].
    rewrite bool_decide_eq_true_2 by done. rewrite Hopen, Hcut. unfold admit_relayed. rewrite Hadm. split; [done|]. split.
    { intros f -> Hty Hli Ha He. pose proof (decode_frame f Hty Hli Ha) as Hd. rewrite He in Hd. cbn [mbind outcome_bind] in Hd. cbn [fst]. unfold dispatch_tensor. by rewrite Hd. }
    intros d.
    cbn [take_proven_relayed_origin with_guard rs_guard]. destruct (admit_again (node_id origin) (dl_network d) _ sent (dl_now_ms d) g' Htaken) as [x Hx']. rewrite Hx'. by exists x.
Qed.
End delivering.

(** ** Instances *)

Module RelayToy.
Definition public (s : Z) : PublicKey := s :: replicate 31 0.
Definition dh (s : Z) (p : PublicKey) : bytes := match p with b :: _ => [s * b] | [] => [] end.
Definition hkdf (shared salt : bytes) : Key := shared ++ salt.
(** A tag of sixteen bytes of the key and the data it is bound to. *)
Definition tag (k n a : bytes) : bytes := take 16 (drop 60 (k ++ a) ++ replicate 16 0).
Definition encrypt (k n a m : bytes) : option bytes := Some (tag k n a ++ m).
Definition decrypt (k n a c : bytes) : option bytes := if decide (take 16 c = tag k n a) then Some (drop 16 c) else None.
Definition hash (b : bytes) : bytes := b.
Definition node (i : Z) : NodeId := public i.
Definition sign (i : Z) (d : bytes) : bytes := take 64 (i :: d ++ replicate 64 0).
Definition verify (sig d : bytes) (key : NodeId) : bool := match key with i :: _ => bool_decide (sig = sign i d) | [] => false end.
Definition valid (key : NodeId) : bool := true.
Definition to_json (m : Z) : option bytes := Some [123; m; 125].
Definition from_json (j : bytes) : option Z := match j with [123; m; 125] => Some m | _ => None end.

Lemma tag_length k n a : length (tag k n a) = 16%nat.
Proof. unfold tag. rewrite length_take, length_app, length_replicate. lia. Qed.

Lemma lawful : relay_lawful dh public encrypt decrypt node sign valid verify to_json from_json.
Proof.
  split.
  - intros a b. cbn. by rewrite Z.mul_comm.
  - intros k n a m c [= <-]. split.
    + unfold decrypt. rewrite take_app_length', decide_True by (done || by rewrite tag_length). by rewrite drop_app_length' by (by rewrite tag_length).
    + rewrite blen_app. unfold blen at 1. rewrite tag_length. lia.
  - intros i d. split_and!; [done| |by apply bool_decide_eq_true_2]. unfold sign. rewrite length_take. cbn [length]. rewrite length_app, length_replicate. lia.
  - intros m j [= <-]. done.
Qed.

(** Node 5 sends to node 7 through node 6. *)
Definition view (i : Z) : NodeView (Secret := Z) :=
  {| nv_local := node i; nv_secret := i; nv_relay_enabled := true; nv_cut_off := fun _ => false; nv_peer_of := fun n => Some (take 1 n); nv_connected := fun _ => true |}.
Definition from (i now : Z) : Delivery := {| dl_peer := [i]; dl_network := [10; i]; dl_sender_node := Some (node i); dl_now_ms := now; dl_now := now |}.
Definition limits : Limits := {| li_total := 4; li_per_origin := 3; li_per_network := 3 |}.
Definition start : RelayState := {| rs_guard := guard_new limits; rs_counters := ∅; rs_relay_bytes := 0; rs_learned := [] |}.
Definition request : Uuid := replicate 16 9.
Definition frame : bytes := match encode_layer_forward busy_forward with Ok b => b | _ => [] end.
Definition sealed_at (now : Z) : bytes :=
  match seal_relayed_tensor dh public hkdf encrypt Some hash node sign 11 5 (node 7) request KForward frame now with Ok (_, s) => s | _ => [] end.
Definition tensor_at (now : Z) : RelayedTensor :=
  {| rt_relay_to := node 7; rt_origin := node 5; rt_request_id := request; rt_is_result := false; rt_ephemeral_pub := public 11; rt_sealed := sealed_at now |}.
Definition envelope_at (now : Z) : option RelayedEnvelope :=
  match seal_relayed_message dh public hkdf encrypt Some hash node sign to_json 12 5 (node 7) request 42 now with Ok e => Some e | _ => None end.
Definition variant (m : Z) : Variant := if m =? 42 then StreamingToken else OtherVariant.

(** A tensor, the same again, a token, and one too old. *)
Definition history : list (NodeView (Secret := Z) * Delivery * Arrival) :=
  (view 7, from 6 1000000, ArriveTensor (tensor_at 999000)) :: (view 7, from 8 1000500, ArriveTensor (tensor_at 999000)) ::
  map (fun e => (view 7, from 6 1001000, ArriveEnvelope e)) (option_list (envelope_at 1000900)) ++ [(view 7, from 6 1001000, ArriveTensor (tensor_at 100))].

Abbreviation arriving := (arrivals dh public hkdf decrypt hash hash valid verify from_json (fun _ => None) variant).

(** The tensor and the token are dispatched, once each. *)
Example history_dispatches : map (fun b => (bo_kind b, bo_sent_at_ms b, bo_inner b)) (fst (arriving history start)) =
  [(KForward, 999000, frame); (KMessage, 1000900, [123; 42; 125])].
Proof. by vm_compute. Qed.

End RelayToy.
Import RelayToy.

Lemma relayed_body_dispatched_once_witness : NoDup (fst (arriving history start)).
Proof.
  destruct (arriving history start) as [bodies st'] eqn:E.
  destruct (relayed_body_dispatched_once dh public hkdf decrypt hash hash valid verify from_json (fun _ => None) variant limits (node 7) history start bodies st') as (Hnd & _); [..|exact Hnd].
  - done.
  - by repeat constructor.
  - unfold history. cbn. repeat constructor; cbn; lia.
  - repeat constructor; by vm_compute.
  - exact E.
Defined.

Lemma relayed_tensor_is_delivered_witness : fst (handle_relayed_tensor (Message := Z) dh public hkdf decrypt hash hash valid verify (fun _ => None) (view 7) (from 6 1000000) (tensor_at 999000) start) =
  DispatchForward (node 5) (stamped (Some [5]) (received busy_forward)).
Proof.
  destruct (relayed_tensor_is_delivered (Message := Z) dh public hkdf encrypt decrypt Some hash hash node sign valid verify to_json from_json (fun _ => None)
    11 5 request false frame 999000 (public 11) (sealed_at 999000) (view 6) (view 7) (from 5 999500) (from 6 1000000) [7] start start) as (_ & _ & st' & _ & E & _);
    [exact lawful|by vm_compute..| |].
  { split_and!; vm_compute; lia. }
  apply (E busy_forward); [done|apply busy_typed|apply busy_within|by vm_compute..].
Defined.

(** A clock that steps back readmits what a sweep forgot: the same tensor is dispatched twice. *)
Example clock_stepping_back_readmits : map bo_sent_at_ms (fst (arriving [(view 7, from 6 1000000, ArriveTensor (tensor_at 999000)); (view 7, from 6 1400000, ArriveTensor (tensor_at 1399000));
  (view 7, from 6 1000000, ArriveTensor (tensor_at 999000))] start)) = [999000; 1399000; 999000].
Proof. by vm_compute. Qed.
