(* ===== verification/HopForwards.v ===== *)
(** * What a chain hop owes its coordinator ([src/network/manager/hop_forwards.rs])

    A node that hands a forward on for another coordinator remembers it, so that a
    failure that reaches it - the forward could not be delivered, or the next hop refused
    it - reaches the node that waits.  The records, and where the network loop writes one
    ([handle_send_tensor], [tensors.rs]) and spends one ([dispatch_layer_result],
    [mod.rs]).

    The order in which a [HashMap] is walked is a parameter, some permutation of its
    entries.  [Instant]s are nanoseconds in Z. *)
From S2P Require Import Prelude Bytes ForwardTypes Session KvSessions ForwardStreams PipelineStream.
#[local] Open Scope Z_scope.

Definition RR_REQUEST_TIMEOUT_SECS : Z := 600.
Definition MAX_TENSOR_FORWARD_SECS : Z := RR_REQUEST_TIMEOUT_SECS.
Definition HOP_FORWARD_KEEP : Z := seconds MAX_TENSOR_FORWARD_SECS.
Definition MAX_HOP_FORWARDS : nat := 1024.
Definition MAX_STREAM_RECORDS : nat := Z.to_nat MAX_STREAM_CHUNKS_HERE.

#[global] Instance result_step_eq_dec : EqDecision ResultStep.
Proof. solve_decision. Defined.

(** The request, and the check's number in its stream. *)
Abbreviation HopKey := (bytes * option Z)%type.

Record HopForward : Type := { hf_coordinator : NodeId; hf_onward : NodeId; hf_step : ResultStep; hf_sent_at : Z }.
#[global] Instance hop_forward_eq_dec : EqDecision HopForward.
Proof. solve_decision. Defined.

Abbreviation HopForwards := (gmap HopKey HopForward).

(** [LayerResult::error] with a reason that is already bytes. *)
Definition error_result (request_id reason : bytes) : LayerResult := {|
  lr_request_id := request_id; lr_token_ids := []; lr_finish_reason := Some (FinishError reason);
  lr_activations := []; lr_sealed_token_ids := None; lr_spec_logits := []; lr_matched_stop_sequence := None;
  lr_token_logprobs := []; lr_locally_constructed := true; lr_refusal := None; lr_answers_step := None;
  lr_prompt_blocks_stored := None; lr_served_us := None |}.

Definition hop_key (request_id : bytes) (hop : HopForward) : HopKey := (request_id, st_stream_seq (hf_step hop)).

Section hops.
Context (iter : HopForwards -> list (HopKey * HopForward)).

Definition forget_oldest (among : HopKey -> bool) (m : HopForwards) : HopForwards :=
  match min_by_key (fun kh : HopKey * HopForward => Some (hf_sent_at kh.2)) (filter (fun kh => among kh.1 = true) (iter m)) with
  | Some (k, _) => delete k m
  | None => m
  end.

(** The keys of a request's streamed checks. *)
Definition streamed_of (request_id : bytes) (m : HopForwards) : list HopKey :=
  filter (fun k => k.1 = request_id /\ is_Some k.2) (map fst (iter m)).

(** Room among the checks of its stream, and room among all. *)
Definition stream_room (request_id : bytes) (hop : HopForward) (m : HopForwards) : HopForwards :=
  if bool_decide (is_Some (st_stream_seq (hf_step hop))) && negb (bool_decide (is_Some (m !! hop_key request_id hop))) then
    let streamed := streamed_of request_id m in
    if (MAX_STREAM_RECORDS <=? length streamed)%nat then forget_oldest (fun k => bool_decide (k ∈ streamed)) m else m
  else m.
Definition total_room (key : HopKey) (m : HopForwards) : HopForwards :=
  if negb (bool_decide (is_Some (m !! key))) && (MAX_HOP_FORWARDS <=? size m)%nat then forget_oldest (fun _ => true) m else m.

Definition record_hop (request_id : bytes) (hop : HopForward) (m : HopForwards) : HopForwards :=
  let key := hop_key request_id hop in <[key := hop]> (total_room key (stream_room request_id hop m)).

Definition take_onward_failure (sender : option NodeId) (result : LayerResult) (m : HopForwards) : option (HopForward * LayerResult) * HopForwards :=
  match lr_finish_reason result with
  | Some (FinishError reason) =>
      let key := (lr_request_id result, lr_answers_step result ≫= st_stream_seq) in
      match m !! key with
      | None => (None, m)
      | Some hop =>
          if negb (bool_decide (sender = Some (hf_onward hop))) then (None, m)
          else if match lr_answers_step result with Some s => negb (bool_decide (s = hf_step hop)) | None => false end then (None, m)
          else (Some (hop, answering_step (hf_step hop) (error_result (lr_request_id result) reason)), delete key m)
      end
  | _ => (None, m)
  end.

Definition expire_hops (now : Z) (m : HopForwards) : nat * HopForwards :=
  let kept := filter (fun kh : HopKey * HopForward => elapsed now (hf_sent_at kh.2) < HOP_FORWARD_KEEP) m in ((size m - size kept)%nat, kept).

(** A forward is sent: one that another coordinator waits on is recorded. *)
Definition hand_on (local : NodeId) (onward : option NodeId) (f : LayerForward) (now : Z) (m : HopForwards) : HopForwards :=
  match lf_requester_node_id f with
  | Some coordinator =>
      if bool_decide (coordinator = local) then m
      else match onward with
      | Some onward => record_hop (lf_request_id f) {| hf_coordinator := coordinator; hf_onward := onward; hf_step := step f; hf_sent_at := now |} m
      | None => m
      end
  | None => m
  end.

(** A result arrives: what is sent to a coordinator, if it can be reached, and the
    result handed to whoever waits here. *)
Definition dispatch_layer_result (resolve : NodeId -> option bytes) (sender : option NodeId) (result : LayerResult) (m : HopForwards)
  : option (bytes * LayerResult) * LayerResult * HopForwards :=
  match take_onward_failure sender result m with
  | (Some (hop, report), m) => (option_map (fun b => (b, report)) (resolve (hf_coordinator hop)), result, m)
  | (None, m) => (None, result, m)
  end.
End hops.

(** ** Histories *)

Inductive HopEvent : Type :=
| HandedOn (request_id : bytes) (hop : HopForward)
| Answered (sender : option NodeId) (result : LayerResult)
| Expired (now : Z).

Record Report : Type := { rp_sender : option NodeId; rp_result : LayerResult; rp_hop : HopForward; rp_report : LayerResult }.

Section theorems.
Context (iter : HopForwards -> list (HopKey * HopForward)).
Context (iter_perm : forall m, iter m ≡ₚ map_to_list m).

Definition hop_event (e : HopEvent) (m : HopForwards) : option Report * HopForwards :=
  match e with
  | HandedOn q hop => (None, record_hop iter q hop m)
  | Answered sender result =>
      let '(out, m) := take_onward_failure sender result m in
      (option_map (fun hr => {| rp_sender := sender; rp_result := result; rp_hop := hr.1; rp_report := hr.2 |}) out, m)
  | Expired now => (None, snd (expire_hops now m))
  end.

Fixpoint hop_run (l : list HopEvent) (m : HopForwards) : list Report * HopForwards :=
  match l with
  | [] => ([], m)
  | e :: l => let '(out, m) := hop_event e m in let '(reports, m) := hop_run l m in (option_list out ++ reports, m)
  end.

(** What was handed on, and what a report is about. *)
Definition handed (l : list HopEvent) : list (bytes * HopForward) := omap (fun e => match e with HandedOn q h => Some (q, h) | _ => None end) l.
Definition about (r : Report) : bytes * HopForward := (lr_request_id (rp_result r), rp_hop r).
Definition held (m : HopForwards) : list (bytes * HopForward) := map (fun kh : HopKey * HopForward => (kh.1.1, kh.2)) (map_to_list m).

(** A report is of a failure, from the node handed to, about the step handed on; it
    carries the failure's reason and nothing else of it. *)
Definition honest (r : Report) : Prop :=
  rp_sender r = Some (hf_onward (rp_hop r)) /\
  (lr_answers_step (rp_result r) = None \/ lr_answers_step (rp_result r) = Some (hf_step (rp_hop r))) /\
  exists reason, lr_finish_reason (rp_result r) = Some (FinishError reason) /\
    rp_report r = answering_step (hf_step (rp_hop r)) (error_result (lr_request_id (rp_result r)) reason).

(** *** Maps that lose entries *)

Lemma held_subset m m' : m ⊆ m' -> held m ⊆+ held m'.
Proof. intros Hs. unfold held. apply fmap_submseteq. by apply map_to_list_submseteq. Qed.

Lemma held_insert_sub k h m : held (<[k := h]> m) ⊆+ (k.1, h) :: held m.
Proof.
  rewrite <- insert_delete_eq. unfold held. rewrite map_to_list_insert by apply lookup_delete_eq. cbn [map fst snd]. apply submseteq_skip.
  apply held_subset, delete_subseteq.
Qed.

Lemma held_delete k h m : m !! k = Some h -> held m ≡ₚ (k.1, h) :: held (delete k m).
Proof. intros Hk. unfold held. by rewrite <- (map_to_list_delete m k h Hk). Qed.

Lemma forget_oldest_sub among m : forget_oldest iter among m ⊆ m.
Proof. unfold forget_oldest. destruct (min_by_key _ _) as [[k h]|]; [apply delete_subseteq|done]. Qed.

(** A record is written over a map that lost at most its oldest. *)
Lemma stream_room_sub q hop m : stream_room iter q hop m ⊆ m.
Proof. unfold stream_room. repeat case_match; try done. apply forget_oldest_sub. Qed.
Lemma total_room_sub k m : total_room iter k m ⊆ m.
Proof. unfold total_room. case_match; [apply forget_oldest_sub|done]. Qed.

Lemma record_hop_over q hop m : exists m', m' ⊆ m /\ record_hop iter q hop m = <[hop_key q hop := hop]> m'.
Proof. eexists. split; [|done]. etransitivity; [apply total_room_sub|apply stream_room_sub]. Qed.

(** *** Once *)

Lemma hop_event_books e m out m' : hop_event e m = (out, m') -> map about (option_list out) ++ held m' ⊆+ handed [e] ++ held m /\ Forall honest (option_list out).
Proof.
  destruct e as [q hop|sender result|now]; cbn [hop_event].
  - intros [= <- <-]. split; [|done]. destruct (record_hop_over q hop m) as (m0 & Hs & ->). cbn. rewrite held_insert_sub. cbn. apply submseteq_skip, held_subset, Hs.
  - unfold take_onward_failure. destruct (lr_finish_reason result) as [[| |reason]|] eqn:Ef; try (intros [= <- <-]; done).
    destruct (m !! _) as [hop|] eqn:Ek; [|intros [= <- <-]; done]. destruct (bool_decide _) eqn:Eo; [|intros [= <- <-]; done]. cbn [negb].
    apply bool_decide_eq_true in Eo. destruct (match lr_answers_step result with Some _ => _ | None => _ end) eqn:Es; intros [= <- <-]; [done|]. split.
    + cbn. rewrite (held_delete _ _ _ Ek). done.
    + constructor; [|done]. split_and!; [done| |by exists reason]. cbn. destruct (lr_answers_step result) as [s|]; [|by left]. right.
      apply negb_false_iff, bool_decide_eq_true in Es. by subst.
  - intros [= <- <-]. split; [|done]. cbn. apply held_subset, map_filter_subseteq.
Qed.

Lemma hop_run_books l : forall m reports m', hop_run l m = (reports, m') -> map about reports ++ held m' ⊆+ handed l ++ held m /\ Forall honest reports.
Proof.
  induction l as [|e l IH]; intros m reports m'; cbn [hop_run]; [intros [= <- <-]; done|].
  destruct (hop_event e m) as [out m1] eqn:Ee. destruct (hop_run l m1) as [rest m2] eqn:El. intros [= <- <-].
  apply hop_event_books in Ee as [He Hh]. apply IH in El as [Hl Hhl]. split; [|by apply Forall_app].
  assert (Hc : handed (e :: l) = handed [e] ++ handed l) by (unfold handed; cbn; by destruct e).
  rewrite map_app, <- app_assoc, Hc, <- app_assoc. etransitivity; [apply submseteq_app; [reflexivity|exact Hl]|].
  rewrite Permutation_app_swap_app, (Permutation_app_swap_app (handed [e])). by apply submseteq_app.
Qed.

(** *** Counting entries *)

Abbreviation Entry := (HopKey * HopForward)%type.
Definition count (P : Entry -> bool) (m : HopForwards) : nat := size (filter (fun kh => P kh = true) m).

Lemma count_mono P m m' : m ⊆ m' -> (count P m <= count P m')%nat.
Proof. intros Hs. by apply map_subseteq_size, map_filter_subseteq_mono. Qed.

Lemma count_impl (P Q : Entry -> bool) m : (forall k h, m !! k = Some h -> P (k, h) = true -> Q (k, h) = true) -> (count P m <= count Q m)%nat.
Proof. intros H. apply map_subseteq_size, map_filter_subseteq_ext. intros k h Hk. by apply H. Qed.

Lemma count_delete P m k h : m !! k = Some h -> P (k, h) = true -> count P m = S (count P (delete k m)).
Proof.
  intros Hk HP. unfold count. assert (Hl : filter (fun kh => P kh = true) m !! k = Some h) by (by apply map_lookup_filter_Some).
  rewrite map_filter_delete, map_size_delete_Some by done. enough (0 < size (filter (fun kh => P kh = true) m))%nat by lia.
  apply Nat.neq_0_lt_0. rewrite map_size_non_empty_iff. intros E. by rewrite E, lookup_empty in Hl.
Qed.

Lemma count_insert_le P m k h : (count P (<[k := h]> m) <= S (count P m))%nat.
Proof.
  unfold count. destruct (P (k, h)) eqn:E.
  - rewrite map_filter_insert_True by done. rewrite map_size_insert. destruct (_ !! k); cbn; lia.
  - rewrite map_filter_insert_False by (cbn; congruence). apply Nat.le_le_succ_r. apply (count_mono P). apply delete_subseteq.
Qed.

Lemma count_insert_out P m k h : P (k, h) = false -> (count P (<[k := h]> m) <= count P m)%nat.
Proof. intros E. unfold count. rewrite map_filter_insert_False by (cbn; congruence). apply (count_mono P), delete_subseteq. Qed.

Lemma count_all m : count (fun _ => true) m = size m.
Proof. unfold count. by rewrite map_filter_id by done. Qed.

(** *** The oldest *)

Lemma min_by_key_least {A} (f : A -> Z) l x : min_by_key (fun y => Some (f y)) l = Some x -> x ∈ l /\ forall y, y ∈ l -> f x <= f y.
Proof.
  revert x. induction l as [|a l IH]; intros x; cbn; [done|]. destruct (min_by_key _ l) as [z|] eqn:E.
  - destruct (IH z eq_refl) as [Hz Hle]. destruct (Z.ltb_spec (f z) (f a)); intros [= <-].
    + split; [by right|]. intros y [->|Hy]%elem_of_cons; [lia|by apply Hle].
    + split; [by left|]. intros y [->|Hy]%elem_of_cons; [lia|]. specialize (Hle y Hy). lia.
  - intros [= <-]. split; [by left|]. intros y [->|Hy]%elem_of_cons; [lia|]. destruct l as [|b l]; [by apply elem_of_nil in Hy|].
    destruct (min_by_key_in (fun y => Some (f y)) (b :: l)) as (? & ? & _); [done|congruence].
Qed.

Lemma in_iter m k h : (k, h) ∈ iter m <-> m !! k = Some h.
Proof using iter_perm. by rewrite iter_perm, elem_of_map_to_list. Qed.

Lemma forget_oldest_cases among m : forget_oldest iter among m = m /\ (forall k h, m !! k = Some h -> among k = false) \/
  exists k h, forget_oldest iter among m = delete k m /\ m !! k = Some h /\ among k = true /\
    forall k' h', m !! k' = Some h' -> among k' = true -> hf_sent_at h <= hf_sent_at h'.
Proof using iter_perm.
  unfold forget_oldest. set (l := filter _ _).
  assert (Hin : forall k h, m !! k = Some h -> among k = true -> (k, h) ∈ l) by (intros; apply list_elem_of_filter; split; [done|by apply in_iter]).
  destruct (min_by_key _ l) as [[k h]|] eqn:E.
  - right. apply (min_by_key_least (fun kh : Entry => hf_sent_at kh.2)) in E as [Hk Hle]. apply list_elem_of_filter in Hk as [Hk Hi]. apply in_iter in Hi.
    exists k, h. split_and!; [done..|]. intros k' h' Hk' Ha'. by apply (Hle (k', h')), Hin.
  - left. split; [done|]. intros k h Hk. destruct (among k) eqn:Ea; [|done]. specialize (Hin k h Hk Ea).
    destruct (min_by_key_in (fun kh : Entry => Some (hf_sent_at kh.2)) l) as (? & ? & _); [by intros El; rewrite El in Hin; apply elem_of_nil in Hin|congruence].
Qed.

Definition streams (q : bytes) (k : HopKey) : bool := bool_decide (k.1 = q /\ is_Some k.2).

Lemma in_streamed q m k h : m !! k = Some h -> bool_decide (k ∈ streamed_of iter q m) = streams q k.
Proof using iter_perm.
  intros Hk. apply bool_decide_ext. unfold streamed_of. rewrite list_elem_of_filter. split; [by intros [? _]|]. intros Hs. split; [done|].
  apply list_elem_of_fmap. exists (k, h). split; [done|by apply in_iter].
Qed.

Lemma streamed_count q m : length (streamed_of iter q m) = count (fun kh => streams q kh.1) m.
Proof using iter_perm.
  assert (Hg : forall l : list Entry, length (filter (fun k : HopKey => k.1 = q /\ is_Some k.2) (map fst l)) = length (filter (fun kh : Entry => streams q kh.1 = true) l)).
  { induction l as [|[k h] l IH]; [done|]. cbn [map fst]. rewrite !filter_cons. cbn [fst].
    assert (Hs : streams q k = true <-> k.1 = q /\ is_Some k.2) by apply bool_decide_eq_true.
    destruct (decide (k.1 = q /\ is_Some k.2)), (decide (streams q k = true)); cbn [length]; [by f_equal|tauto..|done]. }
  unfold streamed_of, count. rewrite Hg, iter_perm. rewrite <- length_map_to_list. apply Permutation_length.
  apply NoDup_Permutation; [apply (list.NoDup_filter (fun kh : Entry => streams q kh.1 = true)), NoDup_map_to_list|apply NoDup_map_to_list|]. intros [k h].
  rewrite list_elem_of_filter, !elem_of_map_to_list, map_lookup_filter_Some. naive_solver.
Qed.

(** *** The bounds *)

Definition bounded (m : HopForwards) : Prop := (size m <= MAX_HOP_FORWARDS)%nat /\ forall q, (count (fun kh => streams q kh.1) m <= MAX_STREAM_RECORDS)%nat.

Lemma bounded_sub m m' : m ⊆ m' -> bounded m' -> bounded m.
Proof. intros Hs [Ht Hq]. split; [etransitivity; [by apply map_subseteq_size|done]|]. intros q. etransitivity; [by apply count_mono|done]. Qed.

(** Over the bound, one of those counted goes. *)
Lemma forget_oldest_counts (P : HopKey -> bool) among m : (forall k h, m !! k = Some h -> among k = P k) -> (0 < count (fun kh => P kh.1) m)%nat ->
  S (count (fun kh => P kh.1) (forget_oldest iter among m)) = count (fun kh => P kh.1) m.
Proof using iter_perm.
  intros Hag Hc. unfold count in Hc. destruct (map_choose (filter (fun kh : Entry => P kh.1 = true) m)) as (k0 & h0 & H0).
  { apply map_size_non_empty_iff. lia. }
  apply map_lookup_filter_Some in H0 as [H0 HP]. destruct (forget_oldest_cases among m) as [[_ Hn]|(k & h & -> & Hk & Ha & _)]; [specialize (Hn _ _ H0); rewrite (Hag _ _ H0) in Hn; cbn in HP; congruence|].
  symmetry. apply (count_delete (fun kh => P kh.1) m k h Hk). cbn. by rewrite <- (Hag _ _ Hk).
Qed.

Lemma stream_room_leaves q hop m : is_Some (st_stream_seq (hf_step hop)) -> m !! hop_key q hop = None -> bounded m ->
  (count (fun kh => streams q kh.1) (stream_room iter q hop m) < MAX_STREAM_RECORDS)%nat.
Proof using iter_perm.
  intros Hs Hk [_ Hq]. unfold stream_room. rewrite bool_decide_eq_true_2, bool_decide_eq_false_2 by (done || (rewrite Hk; by intros [])). cbn [andb negb].
  rewrite streamed_count. destruct (Nat.leb_spec MAX_STREAM_RECORDS (count (fun kh => streams q kh.1) m)) as [Hle|]; [|done].
  pose proof (forget_oldest_counts (streams q) (fun k => bool_decide (k ∈ streamed_of iter q m)) m) as Hc. specialize (Hq q).
  rewrite <- Hc in Hq; [lia|intros ? ?; apply in_streamed|]. unfold MAX_STREAM_RECORDS, MAX_STREAM_CHUNKS_HERE, MAX_STREAM_WINDOW in Hle. lia.
Qed.

Lemma total_room_leaves k m : m !! k = None -> bounded m -> (size (total_room iter k m) < MAX_HOP_FORWARDS)%nat.
Proof using iter_perm.
  intros Hk [Hb _]. unfold total_room. rewrite bool_decide_eq_false_2 by (rewrite Hk; by intros []). cbn [negb andb].
  destruct (Nat.leb_spec MAX_HOP_FORWARDS (size m)) as [Hle|]; [|done]. rewrite <- count_all in Hle, Hb |- *.
  rewrite <- (forget_oldest_counts (fun _ => true) (fun _ => true)) in Hb; [lia|done|]. unfold MAX_HOP_FORWARDS in Hle. lia.
Qed.

Lemma record_hop_bounded q hop m : bounded m -> bounded (record_hop iter q hop m).
Proof using iter_perm.
  intros Hb. unfold record_hop. set (key := hop_key q hop). set (m1 := stream_room iter q hop m). set (m2 := total_room iter key m1).
  assert (Hs1 : m1 ⊆ m) by apply stream_room_sub. assert (Hs2 : m2 ⊆ m1) by apply total_room_sub.
  assert (Hb1 : bounded m1) by (by eapply bounded_sub). assert (Hb2 : bounded m2) by (by eapply bounded_sub). split.
  - rewrite map_size_insert. destruct (m2 !! key) as [h|] eqn:E; [apply Hb2|]. destruct (m1 !! key) as [h|] eqn:E1.
    + exfalso. assert (Hm2 : m2 = m1) by (unfold m2, total_room; by rewrite (bool_decide_eq_true_2 (is_Some (m1 !! key))) by (rewrite E1; eauto)). congruence.
    + apply (total_room_leaves key m1 E1) in Hb1. fold m2 in Hb1. lia.
  - intros q'. destruct (streams q' key) eqn:Es; [|rewrite count_insert_out by done; apply Hb2].
    unfold streams in Es. apply bool_decide_eq_true in Es as [<- Hst]. cbn in Hst. change (fst key) with q. destruct (m !! key) as [h|] eqn:Em.
    + assert (Hm1 : m1 = m) by (unfold m1, stream_room; fold key; rewrite (bool_decide_eq_true_2 (is_Some (m !! key))) by (rewrite Em; eauto); cbn; by rewrite andb_false_r).
      assert (Hm2 : m2 = m) by (unfold m2, total_room; rewrite Hm1; by rewrite (bool_decide_eq_true_2 (is_Some (m !! key))) by (rewrite Em; eauto)).
      rewrite Hm2. destruct Hb as [_ Hb]. etransitivity; [|apply (Hb q)]. rewrite <- insert_delete_eq. etransitivity; [apply count_insert_le|].
      rewrite <- (count_delete (fun kh => streams q kh.1) m key h Em); [done|]. by apply bool_decide_eq_true_2.
    + etransitivity; [apply count_insert_le|]. pose proof (stream_room_leaves q hop m Hst Em Hb) as Hl. fold m1 in Hl.
      pose proof (count_mono (fun kh => streams q kh.1) _ _ Hs2). lia.
Qed.

Lemma hop_run_bounded l : forall m reports m', bounded m -> hop_run l m = (reports, m') -> bounded m'.
Proof using iter_perm.
  induction l as [|e l IH]; intros m reports m' Hb; cbn [hop_run]; [by intros [= _ <-]|]. destruct (hop_event e m) as [out m1] eqn:Ee.
  destruct (hop_run l m1) as [rest m2] eqn:El. intros [= _ <-]. apply (IH m1 rest m2); [|done]. destruct e as [q hop|sender result|now]; cbn [hop_event] in Ee.
  - injection Ee as <- <-. by apply record_hop_bounded.
  - destruct (take_onward_failure sender result m) as [o m0] eqn:Et. injection Ee as <- <-. eapply bounded_sub, Hb.
    unfold take_onward_failure in Et. repeat case_match; simplify_eq; done || apply delete_subseteq.
  - injection Ee as <- <-. eapply bounded_sub, Hb. apply map_filter_subseteq.
Qed.

(** C22: over any history of forwards handed on, answers from anyone and expiries, every
    failure passed on is one the node handed to reported, about the step handed on, and
    reaches the coordinator recorded with its reason and nothing else of it; no forward
    handed on has its failure passed on twice; and the records stay within their bounds,
    whatever request ids the peers choose. *)
Theorem hop_failures_passed_on_once l reports m : hop_run l ∅ = (reports, m) ->
  map about reports ⊆+ handed l /\ Forall honest reports /\ (size m <= MAX_HOP_FORWARDS)%nat /\
  forall q, (length (streamed_of iter q m) <= MAX_STREAM_RECORDS)%nat.
Proof using iter_perm.
  intros E. destruct (hop_run_books l ∅ reports m E) as [Hs Hh]. destruct (hop_run_bounded l ∅ reports m) as [Ht Hq]; [split; [rewrite map_size_empty; lia|intros; unfold count; rewrite map_filter_empty, map_size_empty; lia]|done|].
  split_and!; [|done|done|intros; by rewrite streamed_count]. unfold held in Hs at 2. rewrite map_to_list_empty, app_nil_r in Hs.
  etransitivity; [|exact Hs]. by apply submseteq_inserts_r.
Qed.

(** *** A record lasts *)

Section lasting.
Context (q0 : bytes) (hop0 : HopForward).
Abbreviation key0 := (hop_key q0 hop0).

(** The other entries no older than this one. *)
Definition later (P : HopKey -> bool) (kh : Entry) : bool := negb (bool_decide (kh.1 = key0)) && (hf_sent_at hop0 <=? hf_sent_at kh.2) && P kh.1.

Lemma lasts_forgetting (P among : HopKey -> bool) m : m !! key0 = Some hop0 -> (forall k h, m !! k = Some h -> among k = P k) ->
  (P key0 = true -> (S (count (later P) m) < count (fun kh => P kh.1) m)%nat) -> forget_oldest iter among m !! key0 = Some hop0.
Proof using iter_perm.
  intros Hk Hag Hc. destruct (forget_oldest_cases among m) as [[-> _]|(k & h & -> & Hm & Ha & Hle)]; [done|].
  destruct (decide (k = key0)) as [->|Hne]; [|by rewrite lookup_delete_ne]. exfalso. rewrite (Hag _ _ Hm) in Ha. specialize (Hc Ha).
  assert (h = hop0) as -> by congruence. rewrite (count_delete (fun kh => P kh.1) m key0 hop0 Hk Ha) in Hc.
  pose proof (count_impl (fun kh => P kh.1) (later P) (delete key0 m)) as Hi. pose proof (count_mono (later P) _ _ (delete_subseteq m key0)) as Hd.
  enough (count (fun kh => P kh.1) (delete key0 m) <= count (later P) (delete key0 m))%nat by lia. apply Hi. intros k' h' Hk' HP. cbn in HP.
  apply lookup_delete_Some in Hk' as [Hn Hk']. unfold later. cbn [fst snd]. rewrite bool_decide_eq_false_2, HP by done. cbn [negb andb]. rewrite andb_true_r.
  apply Z.leb_le. apply (Hle k' h' Hk'). by rewrite (Hag _ _ Hk').
Qed.

Definition lasts (n ns : nat) (m : HopForwards) : Prop :=
  m !! key0 = Some hop0 /\ (count (later (fun _ => true)) m <= n)%nat /\ (count (later (streams q0)) m <= ns)%nat.

Lemma lasts_sub n ns m m' : m' ⊆ m -> m' !! key0 = Some hop0 -> lasts n ns m -> lasts n ns m'.
Proof. intros Hs Hk (_ & H1 & H2). split_and!; [done|..]; (etransitivity; [by apply count_mono|done]). Qed.

Lemma stream_room_lasts n ns q h m : lasts n ns m -> (streams q0 (hop_key q h) = true -> S ns < MAX_STREAM_RECORDS)%nat -> lasts n ns (stream_room iter q h m).
Proof using iter_perm.
  intros Hl Hroom. apply (lasts_sub n ns m); [apply stream_room_sub| |done]. destruct Hl as (Hk & _ & Hs). unfold stream_room.
  destruct (bool_decide (is_Some (st_stream_seq _))) eqn:Est; [|done]. apply bool_decide_eq_true in Est. destruct (negb _); [|done]. cbn [andb].
  destruct (Nat.leb_spec MAX_STREAM_RECORDS (length (streamed_of iter q m))) as [Hfull|]; [|done]. rewrite streamed_count in Hfull.
  apply (lasts_forgetting (streams q)); [done|intros ? ?; apply in_streamed|]. intros Hq. assert (q = q0) as -> by (apply bool_decide_eq_true in Hq as [? _]; done).
  specialize (Hroom (bool_decide_eq_true_2 _ (conj eq_refl Est))). lia.
Qed.

Lemma total_room_lasts n ns k m : lasts n ns m -> (S n < MAX_HOP_FORWARDS)%nat -> lasts n ns (total_room iter k m).
Proof using iter_perm.
  intros Hl Hroom. apply (lasts_sub n ns m); [apply total_room_sub| |done]. destruct Hl as (Hk & Hn & _). unfold total_room.
  destruct (negb _); [|done]. cbn [andb]. destruct (Nat.leb_spec MAX_HOP_FORWARDS (size m)) as [Hfull|]; [|done].
  apply (lasts_forgetting (fun _ => true)); [done|done|]. intros _. rewrite count_all. lia.
Qed.

(** What a history may do while the record lasts, and how much of it hands on more. *)
Definition leaves_be (e : HopEvent) : Prop :=
  match e with
  | HandedOn q h => hop_key q h <> key0 /\ hf_sent_at hop0 <= hf_sent_at h
  | Answered _ _ => True
  | Expired now => now - hf_sent_at hop0 < HOP_FORWARD_KEEP
  end.
Definition in_stream (l : list HopEvent) : list (bytes * HopForward) := filter (fun qh => streams q0 (hop_key qh.1 qh.2) = true) (handed l).

Lemma hop_event_lasts n ns e m out m' : lasts n ns m -> leaves_be e -> (n + length (handed [e]) < MAX_HOP_FORWARDS)%nat ->
  (ns + length (in_stream [e]) < MAX_STREAM_RECORDS)%nat -> hop_event e m = (out, m') -> (q0, hop0) ∉ map about (option_list out) ->
  lasts (n + length (handed [e])) (ns + length (in_stream [e])) m'.
Proof using iter_perm.
  intros Hl He Hn Hs E Hr. destruct e as [q h|sender result|now]; cbn [hop_event] in E.
  - destruct He as [Hne Hnew]. injection E as <- <-. unfold in_stream in *. change (handed [HandedOn q h]) with [(q, h)] in *. rewrite filter_cons in *. cbn [length fst snd] in *.
    assert (Hl2 : lasts n ns (total_room iter (hop_key q h) (stream_room iter q h m))).
    { apply total_room_lasts; [|lia]. apply stream_room_lasts; [done|]. intros Hq. rewrite decide_True in Hs by done. cbn [length] in Hs. lia. }
    unfold record_hop. destruct Hl2 as (Hk & H1 & H2). split_and!; [by rewrite lookup_insert_ne| |].
    + etransitivity; [apply count_insert_le|]. lia.
    + case_decide as Hq; cbn [length filter list_filter].
      * etransitivity; [apply count_insert_le|]. lia.
      * rewrite count_insert_out; [lia|]. unfold later. cbn [fst]. destruct (streams q0 (hop_key q h)); [done|]. by rewrite andb_false_r.
  - change (handed [Answered sender result]) with (@nil (bytes * HopForward)) in *. unfold in_stream in *. change (handed [Answered sender result]) with (@nil (bytes * HopForward)) in *.
    cbn [length filter list_filter] in *. rewrite !Nat.add_0_r. destruct (take_onward_failure sender result m) as [o m0] eqn:Et. injection E as <- <-.
    unfold take_onward_failure in Et. destruct (lr_finish_reason result) as [[| |reason]|]; try (by injection Et as <- <-).
    destruct (m !! _) as [hop|] eqn:Ek; [|by injection Et as <- <-]. destruct (negb _); [by injection Et as <- <-|]. destruct (match lr_answers_step result with Some _ => _ | None => _ end); [by injection Et as <- <-|].
    injection Et as <- <-. apply (lasts_sub n ns m); [apply delete_subseteq| |done]. destruct Hl as (Hk & _). rewrite lookup_delete_ne; [done|]. intros Heq. apply Hr.
    rewrite Heq, Hk in Ek. injection Ek as <-. unfold hop_key in Heq. injection Heq as Heq _. unfold about. cbn. rewrite Heq. left.
  - injection E as <- <-. change (handed [Expired now]) with (@nil (bytes * HopForward)) in *. unfold in_stream. change (handed [Expired now]) with (@nil (bytes * HopForward)).
    cbn [length filter list_filter]. rewrite !Nat.add_0_r. apply (lasts_sub n ns m); [apply map_filter_subseteq| |done]. destruct Hl as (Hk & _). cbn in He.
    apply map_lookup_filter_Some. split; [done|]. cbn. unfold elapsed. assert (0 < HOP_FORWARD_KEEP) by (by vm_compute). lia.
Qed.

Lemma hop_run_lasts l : forall n ns m reports m', lasts n ns m -> Forall leaves_be l -> (n + length (handed l) < MAX_HOP_FORWARDS)%nat ->
  (ns + length (in_stream l) < MAX_STREAM_RECORDS)%nat -> hop_run l m = (reports, m') -> (q0, hop0) ∉ map about reports -> m' !! key0 = Some hop0.
Proof using iter_perm.
  induction l as [|e l IH]; intros n ns m reports m' Hl Hf Hn Hs; cbn [hop_run]; [intros [= _ <-] _; apply Hl|].
  destruct (hop_event e m) as [out m1] eqn:Ee. destruct (hop_run l m1) as [rest m2] eqn:El. intros [= <- <-] Hr. apply Forall_cons_1 in Hf as [He Hf].
  assert (Hc : handed (e :: l) = handed [e] ++ handed l) by (unfold handed; cbn; by destruct e).
  assert (Hcs : in_stream (e :: l) = in_stream [e] ++ in_stream l) by (unfold in_stream; by rewrite Hc, list.filter_app).
  rewrite Hc, length_app in Hn. rewrite Hcs, length_app in Hs. rewrite map_app, not_elem_of_app in Hr. destruct Hr as [Hr1 Hr2].
  eapply (IH (n + length (handed [e]))%nat (ns + length (in_stream [e]))%nat m1 rest m2); [|done|lia..|done|done]. apply (hop_event_lasts n ns e m out m1); try done; lia.
Qed.

(** C21: a forward handed on has its failure passed on when it comes: after any history
    that hands on fewer than [MAX_HOP_FORWARDS] others, fewer than [MAX_STREAM_RECORDS] of
    its own stream, none over it, and does not outlast [HOP_FORWARD_KEEP], unless its
    failure was passed on already, the next hop's refusal or delivery failure is reported
    to the coordinator it names, its reason as the answer to the step that waits. *)
Theorem hop_failure_is_passed_on l m reports m' reason result : (forall k h, m !! k = Some h -> hf_sent_at h < hf_sent_at hop0) ->
  Forall leaves_be l -> (length (handed l) < MAX_HOP_FORWARDS)%nat -> (length (in_stream l) < MAX_STREAM_RECORDS)%nat ->
  hop_run l (record_hop iter q0 hop0 m) = (reports, m') -> (q0, hop0) ∉ map about reports ->
  lr_request_id result = q0 -> lr_finish_reason result = Some (FinishError reason) -> lr_answers_step result = Some (hf_step hop0) ->
  fst (take_onward_failure (Some (hf_onward hop0)) result m') = Some (hop0, answering_step (hf_step hop0) (error_result q0 reason)).
Proof using iter_perm.
  intros Hold Hf Hn Hs E Hr Hq Hfin Hst.
  assert (Hl : lasts 0 0 (record_hop iter q0 hop0 m)).
  { destruct (record_hop_over q0 hop0 m) as (m0 & Hsub & ->). split; [by rewrite lookup_insert_eq|].
    assert (Hz : forall P, count (later P) (<[key0 := hop0]> m0) = 0%nat).
    { intros P. apply map_size_empty_iff, map_empty. intros k. apply map_lookup_filter_None. right. intros h Hk. unfold later. cbn [fst snd].
      destruct (decide (k = key0)) as [->|Hne]; [by rewrite bool_decide_eq_true_2|]. rewrite lookup_insert_ne in Hk by done.
      specialize (Hold k h (lookup_weaken _ _ _ _ Hk Hsub)). rewrite (proj2 (Z.leb_gt _ _)) by lia. by rewrite andb_false_r. }
    by rewrite !Hz. }
  pose proof (hop_run_lasts l 0 0 _ _ _ Hl Hf Hn Hs E Hr) as Hk. unfold take_onward_failure. rewrite Hfin, Hst, Hq. cbn [mbind option_bind].
  change (q0, st_stream_seq (hf_step hop0)) with key0. rewrite Hk, !bool_decide_eq_true_2 by done. done.
Qed.
End lasting.
End theorems.

(** What a next hop that cannot open a forward answers is such a failure, of the step it
    was handed, whether or not its type of refusal is read. *)
Lemma refusal_is_a_failure f typed r : refusal_for_undecryptable f typed = Some r ->
  lr_request_id r = lf_request_id f /\ lr_finish_reason r = Some (FinishError (bytes_of_string "Could not decrypt forward")) /\ lr_answers_step r = Some (step f).
Proof. unfold refusal_for_undecryptable. destruct (match lf_chunk_meta f with Some _ => _ | None => _ end); [done|]. intros [= <-]. by destruct typed. Qed.

(** ** Instances *)

Module HopToy.
Definition walk (m : HopForwards) : list (HopKey * HopForward) := map_to_list m.
Definition at_step (pos : Z) (seq : option Z) : ResultStep := {| st_index_pos := pos; st_layer_range := (14, 28); st_stream_seq := seq |}.
Definition hop (pos : Z) (seq : option Z) (at_ : Z) : HopForward := {| hf_coordinator := [1]; hf_onward := [3]; hf_step := at_step pos seq; hf_sent_at := at_ |}.
Definition failure (pos : Z) (seq : option Z) : LayerResult := answering_step (at_step pos seq) (error_result [9] [120]).

(** Three checks of one stream; the first is refused, by a stranger, by the next hop, and
    again; then the records are swept. *)
Definition story : list HopEvent :=
  [HandedOn [9] (hop 40 (Some 0) 10); HandedOn [9] (hop 43 (Some 1) 20); HandedOn [9] (hop 46 (Some 2) 30);
   Answered (Some [7]) (failure 40 (Some 0)); Answered (Some [3]) (failure 40 (Some 0)); Answered (Some [3]) (failure 40 (Some 0)); Expired 1000].

Example story_reports : map about (fst (hop_run walk story ∅)) = [([9], hop 40 (Some 0) 10)].
Proof. by vm_compute. Qed.
End HopToy.
Import HopToy.

Lemma hop_failures_passed_on_once_witness : map about (fst (hop_run walk story ∅)) ⊆+ handed story.
Proof.
  destruct (hop_run walk story ∅) as [reports m] eqn:E.
  destruct (hop_failures_passed_on_once walk (fun _ => reflexivity _) story reports m E) as (H & _). exact H.
Defined.

Lemma hop_failure_is_passed_on_witness :
  fst (take_onward_failure (Some [3]) (failure 40 (Some 0)) (snd (hop_run walk (take 2 (drop 1 story) ++ [Expired 1000]) (record_hop walk [9] (hop 40 (Some 0) 10) ∅)))) =
  Some (hop 40 (Some 0) 10, answering_step (at_step 40 (Some 0)) (error_result [9] [120])).
Proof.
  destruct (hop_run walk (take 2 (drop 1 story) ++ [Expired 1000]) (record_hop walk [9] (hop 40 (Some 0) 10) ∅)) as [reports m] eqn:E.
  apply (hop_failure_is_passed_on walk (fun _ => reflexivity _) [9] (hop 40 (Some 0) 10) (take 2 (drop 1 story) ++ [Expired 1000]) ∅ reports m [120]).
  - intros k h Hk. by rewrite lookup_empty in Hk.
  - repeat constructor; cbn; try congruence; vm_compute; congruence.
  - unfold MAX_HOP_FORWARDS. vm_compute. lia.
  - vm_compute. lia.
  - exact E.
  - assert (Hr : reports = []) by (apply (f_equal fst) in E; vm_compute in E; by rewrite <- E). rewrite Hr. by apply not_elem_of_nil.
  - reflexivity.
  - reflexivity.
  - reflexivity.
Defined.
