(* ===== verification/UploadPacer.v ===== *)
(** * One upload limit for every part served ([src/network/manager/upload_pacer.rs])

    Every answer that carries a part books its share of the upload limit on one timeline
    and is released when its share ends; past what a downloader waits for, or past the
    share of the network it asks from, it is answered busy, with a wait.

    Instants and durations are nanoseconds in Z.  A network is its key.  How long an
    answer holds the limit is a division in f64 rounded to nanoseconds ([hold_ns]); the
    theorems take it as an argument, [hold_of], and use of it that a quotient of at most
    four rounds to at most four seconds, and not below zero, and that it is within a
    nanosecond of the quotient. *)
From Stdlib Require Import Sorting.Sorted.
From Stdlib Require Import Floats.SpecFloat.
From S2P Require Import Prelude Bytes Floats Session.
#[local] Open Scope Z_scope.

Definition SHARD_STALL_SECS : Z := 30.
Definition SHARD_CHUNK_SIZE : Z := 8 * 1024 * 1024.
Definition DEFAULT_MAX_CONCURRENT_DOWNLOADS : Z := 3.
Definition ANSWER_HOLDS_AT_MOST : Z := seconds 4.
Definition RELEASED_WITHIN : Z := seconds (SHARD_STALL_SECS * 2 / 3).
Definition NETWORK_HOLDS_AT_MOST : Z := seconds (4 * DEFAULT_MAX_CONCURRENT_DOWNLOADS).
Definition BUSY_WAIT_LEAST : Z := seconds 1.

Definition bytes_to_book (part_len offset asked : Z) : Z := Z.min (Z.min asked SHARD_CHUNK_SIZE) (u64_saturating_sub part_len offset).

Inductive Grant : Type :=
| Serve (bytes release : Z)
| Busy (retry_after : Z) (network_share : bool).

Record Booked : Type := { bk_from : option bytes; bk_release : Z; bk_hold : Z }.
Record UploadPacer : Type := { up_next_free : option Z; up_booked : list Booked }.
Definition pacer_new : UploadPacer := {| up_next_free := None; up_booked := [] |}.

(** [saturating_duration_since]. *)
Definition until (release now : Z) : Z := Z.max 0 (release - now).
Definition share_left (now : Z) (b : Booked) : Z := Z.min (bk_hold b) (until (bk_release b) now).

Fixpoint drop_released (now : Z) (l : list Booked) : list Booked :=
  match l with b :: rest => if bk_release b <=? now then drop_released now rest else l | [] => [] end.

Definition its (from : bytes) (l : list Booked) : list Booked := filter (fun b => bk_from b = Some from) l.
Fixpoint held_now (now : Z) (l : list Booked) : Z := match l with [] => 0 | b :: l => share_left now b + held_now now l end.

(** The end of the first share that leaves enough room. *)
Fixpoint first_end (now over : Z) (l : list Booked) : Z :=
  match l with
  | [] => BUSY_WAIT_LEAST
  | share :: rest => let left := share_left now share in if over <=? left then until (bk_release share) now else first_end now (over - left) rest
  end.

Definition network_waits (now : Z) (from : bytes) (hold : Z) (l : list Booked) : option Z :=
  let held := held_now now (its from l) in
  if held + hold <? NETWORK_HOLDS_AT_MOST then None
  else
    let over := held + hold - NETWORK_HOLDS_AT_MOST in
    if over =? 0 then None else Some (first_end now over (its from l)).

(** [Option]'s order: [None] below every [Some]. *)
Definition opt_max (a b : option Z) : option Z :=
  match a, b with Some x, Some y => Some (Z.max x y) | Some x, None => Some x | None, b => b end.

(** [Duration::from_secs_f64(bytes as f64 / bytes_per_sec as f64)]: the quotient in f64,
    to the nearest nanosecond, a tie to the even one. *)
Definition hold_ns (bytes bytes_per_sec : Z) : Z :=
  let '(m, e) := F64.frac (F64.div (F64.of_Z bytes) (F64.of_Z bytes_per_sec)) in
  let num := m * 2 ^ Z.max 0 e in
  let den := 2 ^ Z.max 0 (- e) in
  let whole := num * 1000000000 / den in
  let rest := num * 1000000000 mod den in
  if (2 * rest <? den) || ((2 * rest =? den) && Z.even whole) then whole else whole + 1.

Section pacing.
Context (hold_of : Z -> Z -> Z).

Definition rate (mbps : Z) : Z := u64_saturating_mul mbps 125000.
Definition bytes_served (asked mbps : Z) : Z := Z.min asked (u64_saturating_mul (rate mbps) 4).
Definition start_of (now : Z) (p : UploadPacer) : Z := match up_next_free p with Some t => if now <? t then t else now | None => now end.

Definition reserve (now asked mbps : Z) (from : option bytes) (p : UploadPacer) : Grant * UploadPacer :=
  if (mbps =? 0) || (asked =? 0) then (Serve asked now, p)
  else
    let p := {| up_next_free := up_next_free p; up_booked := drop_released now (up_booked p) |} in
    let bytes := bytes_served asked mbps in
    let hold := hold_of bytes (rate mbps) in
    let release := start_of now p + hold in
    let waits := until release now in
    let queue_waits := if RELEASED_WITHIN <? waits then Some (waits - RELEASED_WITHIN) else None in
    let network_waits := from ≫= fun from => network_waits now from hold (up_booked p) in
    match opt_max queue_waits network_waits with
    | Some wait =>
        (Busy (Z.max wait BUSY_WAIT_LEAST)
              (match network_waits with Some w => match queue_waits with Some q => q <=? w | None => true end | None => false end), p)
    | None =>
        (Serve bytes release,
         {| up_next_free := Some release; up_booked := up_booked p ++ [{| bk_from := from; bk_release := release; bk_hold := hold |}] |})
    end.
End pacing.

Ltac pacer_consts := unfold BUSY_WAIT_LEAST, RELEASED_WITHIN, NETWORK_HOLDS_AT_MOST, ANSWER_HOLDS_AT_MOST, SHARD_STALL_SECS, DEFAULT_MAX_CONCURRENT_DOWNLOADS, seconds in *;
  change (30 * 2 / 3) with 20 in *.

(** ** The timeline *)

(** Shares that follow one another without a gap, from [s] to [e]. *)
Fixpoint contiguous (s : Z) (l : list Booked) (e : Z) : Prop :=
  match l with
  | [] => s = e
  | b :: l => bk_release b = s + bk_hold b /\ 0 <= bk_hold b <= ANSWER_HOLDS_AT_MOST /\ contiguous (bk_release b) l e
  end.

Lemma contiguous_le s l e : contiguous s l e -> s <= e.
Proof. revert s. induction l as [|b l IH]; intros s; cbn; [lia|]. intros (-> & ? & ?%IH). lia. Qed.

Lemma contiguous_snoc s l e b : contiguous s l e -> bk_release b = e + bk_hold b -> 0 <= bk_hold b <= ANSWER_HOLDS_AT_MOST -> contiguous s (l ++ [b]) (bk_release b).
Proof. revert s. induction l as [|a l IH]; intros s; cbn; [by intros -> ? ?|]. intros (? & ? & ?) ? ?. split_and!; try done; try lia. by apply IH. Qed.

Lemma drop_released_contiguous now s l e : s <= now -> contiguous s l e ->
  exists s', s' <= now /\ contiguous s' (drop_released now l) e /\ (drop_released now l = [] -> e <= now) /\ (drop_released now l <> [] -> now < e).
Proof.
  revert s. induction l as [|b l IH]; intros s Hs Hc; cbn in *; [exists s; split_and!; (done || lia)|].
  destruct (Z.leb_spec (bk_release b) now) as [Hle|Hgt]; [by apply (IH (bk_release b)), Hc|]. exists s. split_and!; [done|done|done|].
  destruct Hc as (_ & _ & Hc%contiguous_le). lia.
Qed.

Lemma share_left_range now b : 0 <= bk_hold b -> 0 <= share_left now b <= bk_hold b.
Proof. unfold share_left, until. lia. Qed.
Lemma share_left_mono now now' b : now <= now' -> share_left now' b <= share_left now b.
Proof. unfold share_left, until. lia. Qed.
Lemma share_left_over now b : 0 <= bk_hold b -> bk_release b <= now -> share_left now b = 0.
Proof. unfold share_left, until. lia. Qed.

Definition holds_ok (l : list Booked) : Prop := Forall (fun b => 0 <= bk_hold b <= ANSWER_HOLDS_AT_MOST) l.

Lemma contiguous_holds s l e : contiguous s l e -> holds_ok l.
Proof. revert s. induction l as [|b l IH]; intros s; [constructor|]. intros (? & ? & ?). constructor; [done|by eapply IH]. Qed.
Lemma its_holds n l : holds_ok l -> holds_ok (its n l).
Proof. induction 1 as [|b l Hb _ IH]; [constructor|]. unfold its. rewrite filter_cons. case_decide; [by constructor|done]. Qed.

Lemma held_now_app now l l' : held_now now (l ++ l') = held_now now l + held_now now l'.
Proof. induction l as [|b l IH]; cbn; [lia|]. rewrite IH. lia. Qed.
Lemma held_mono now now' l : now <= now' -> held_now now' l <= held_now now l.
Proof. intros Hle. induction l as [|b l IH]; cbn; [lia|]. pose proof (share_left_mono now now' b Hle). lia. Qed.
Lemma held_nonneg now l : holds_ok l -> 0 <= held_now now l.
Proof. induction 1 as [|b l Hb _ IH]; cbn; [lia|]. pose proof (share_left_range now b). lia. Qed.

(** What has been released holds nothing. *)
Lemma held_drop_released now l : holds_ok l -> held_now now (drop_released now l) = held_now now l.
Proof.
  induction 1 as [|b l Hb _ IH]; [done|]. cbn [drop_released]. destruct (Z.leb_spec (bk_release b) now) as [Hle|]; [|done].
  cbn [held_now]. rewrite (share_left_over now b) by lia. exact IH.
Qed.
Lemma held_its_drop now n l : holds_ok l -> held_now now (its n (drop_released now l)) = held_now now (its n l).
Proof.
  induction 1 as [|b l Hb _ IH]; [done|]. cbn [drop_released]. destruct (Z.leb_spec (bk_release b) now) as [Hle|]; [|done]. rewrite IH.
  unfold its. rewrite filter_cons. case_decide; [|done]. cbn [held_now]. rewrite (share_left_over now b) by lia. done.
Qed.

(** The time to the end of the timeline is what is left of the shares on it. *)
Lemma held_ahead now s l e : now <= s -> contiguous s l e -> held_now now l = e - s.
Proof.
  revert s. induction l as [|b l IH]; intros s Hs; cbn; [lia|]. intros (Hr & Hh & Hc). rewrite (IH (bk_release b)) by (done || lia).
  unfold share_left, until. lia.
Qed.
Lemma held_is_the_wait now s l e : s <= now -> contiguous s l e -> held_now now l = until e now.
Proof.
  revert s. induction l as [|b l IH]; intros s Hs; cbn; [unfold until; lia|]. intros (Hr & Hh & Hc). pose proof (contiguous_le _ _ _ Hc).
  destruct (Z.le_gt_cases (bk_release b) now) as [Hle|Hgt].
  - rewrite (IH (bk_release b) Hle Hc), share_left_over by lia. lia.
  - rewrite (held_ahead now (bk_release b) l e) by (done || lia). unfold share_left, until. lia.
Qed.

(** One network holds no more than everyone. *)
Lemma held_its_le now n l : holds_ok l -> held_now now (its n l) <= held_now now l.
Proof.
  induction 1 as [|b l Hb _ IH]; [done|]. unfold its. rewrite filter_cons. pose proof (share_left_range now b). unfold its in IH. case_decide; cbn in *; lia.
Qed.

(** ** The wait a network is named *)

(** Releases that do not go back, from [r] on. *)
Fixpoint sorted_from (r : Z) (l : list Booked) : Prop := match l with [] => True | b :: l => r <= bk_release b /\ sorted_from (bk_release b) l end.

Lemma sorted_from_weaken r r' l : r' <= r -> sorted_from r l -> sorted_from r' l.
Proof. destruct l as [|b l]; cbn; [done|]. intros ? [? ?]. split; [lia|done]. Qed.
Lemma contiguous_sorted s l e : contiguous s l e -> sorted_from s l.
Proof. revert s. induction l as [|b l IH]; intros s; cbn; [done|]. intros (? & ? & ?%IH). split; [lia|done]. Qed.
Lemma its_sorted n r l : sorted_from r l -> sorted_from r (its n l).
Proof.
  revert r. induction l as [|b l IH]; intros r; [done|]. intros [? Hs]. unfold its. rewrite filter_cons. case_decide; [by split; [done|apply IH]|].
  apply (sorted_from_weaken (bk_release b)); [done|by apply IH].
Qed.

Lemma first_end_later now over r l : sorted_from r l -> holds_ok l -> over <= held_now now l -> 0 < over -> until r now <= first_end now over l.
Proof.
  revert r over. induction l as [|b l IH]; intros r over Hs Hh Ho Hp; cbn in *; [lia|]. destruct Hs as [Hr Hs]. apply Forall_cons_1 in Hh as [Hb Hh].
  destruct (Z.leb_spec over (share_left now b)) as [Hle|Hgt]; [unfold until; lia|]. etransitivity; [|apply (IH (bk_release b)); [done|done|lia|lia]]. unfold until. lia.
Qed.

(** By the end named, enough of the network's shares is over. *)
Lemma first_end_frees now now' over r l : sorted_from r l -> holds_ok l -> 0 < over <= held_now now l -> now + first_end now over l <= now' ->
  held_now now' l <= held_now now l - over.
Proof.
  revert r over. induction l as [|b l IH]; intros r over Hs Hh Ho Hw; cbn in *; [lia|]. destruct Hs as [Hr Hs]. apply Forall_cons_1 in Hh as [Hb Hh].
  destruct (Z.leb_spec over (share_left now b)) as [Hle|Hgt].
  - assert (Hn : now <= now') by (unfold until in Hw; lia). pose proof (held_mono now now' l Hn). rewrite (share_left_over now' b) by (unfold until in Hw; lia). lia.
  - pose proof (first_end_later now (over - share_left now b) (bk_release b) l Hs Hh) as Hl. specialize (IH (bk_release b) (over - share_left now b) Hs Hh).
    rewrite (share_left_over now' b) by (unfold until in Hl; lia). lia.
Qed.

Lemma network_waits_none now n hold l : network_waits now n hold l = None <-> held_now now (its n l) + hold <= NETWORK_HOLDS_AT_MOST.
Proof.
  unfold network_waits. destruct (Z.ltb_spec (held_now now (its n l) + hold) NETWORK_HOLDS_AT_MOST); [split; [lia|done]|].
  destruct (Z.eqb_spec (held_now now (its n l) + hold - NETWORK_HOLDS_AT_MOST) 0); (split; [|]); (done || lia).
Qed.

Lemma network_waits_enough now now' n hold r l w : sorted_from r l -> holds_ok l -> 0 <= hold <= ANSWER_HOLDS_AT_MOST -> network_waits now n hold l = Some w -> now + w <= now' ->
  0 <= w /\ held_now now' (its n l) + hold <= NETWORK_HOLDS_AT_MOST.
Proof.
  intros Hs Hh Hhold E Hw. unfold network_waits in E. destruct (Z.ltb_spec (held_now now (its n l) + hold) NETWORK_HOLDS_AT_MOST); [done|].
  destruct (Z.eqb_spec (held_now now (its n l) + hold - NETWORK_HOLDS_AT_MOST) 0) as [|Hne]; [done|]. injection E as <-.
  assert (Hover : 0 < held_now now (its n l) + hold - NETWORK_HOLDS_AT_MOST <= held_now now (its n l)) by (pacer_consts; lia).
  pose proof (first_end_later now _ r (its n l) (its_sorted n r l Hs) (its_holds n l Hh) (proj2 Hover) (proj1 Hover)) as Hl.
  pose proof (first_end_frees now now' _ r (its n l) (its_sorted n r l Hs) (its_holds n l Hh) Hover Hw). unfold until in Hl. lia.
Qed.

(** ** The pacer *)

Section pacer.
Context (hold_of : Z -> Z -> Z).
Context (hold_range : forall bytes per_sec, 0 < bytes <= 4 * per_sec -> 0 <= hold_of bytes per_sec <= ANSWER_HOLDS_AT_MOST).

Context (hold_near : forall bytes per_sec, 0 < bytes <= 4 * per_sec -> bytes * 1000000000 <= (hold_of bytes per_sec + 1) * per_sec).

Record Call : Type := { ca_now : Z; ca_asked : Z; ca_mbps : Z; ca_from : option bytes }.
Definition call_ok (c : Call) : Prop := is_u64 (ca_asked c) /\ is_u64 (ca_mbps c).
Definition metered (c : Call) : bool := negb ((ca_mbps c =? 0) || (ca_asked c =? 0)).
Definition hold_for (c : Call) : Z := hold_of (bytes_served (ca_asked c) (ca_mbps c)) (rate (ca_mbps c)).
Definition answer (c : Call) (p : UploadPacer) : Grant * UploadPacer := reserve hold_of (ca_now c) (ca_asked c) (ca_mbps c) (ca_from c) p.

Record pacer_ok (t : Z) (p : UploadPacer) : Prop := {
  po_line : exists s e, s <= t /\ contiguous s (up_booked p) e /\ (up_next_free p = Some e \/ up_next_free p = None /\ up_booked p = []);
  po_shares : forall n, held_now t (its n (up_booked p)) <= NETWORK_HOLDS_AT_MOST }.

Lemma pacer_ok_later t t' p : t <= t' -> pacer_ok t p -> pacer_ok t' p.
Proof.
  intros Ht [(s & e & Hs & Hc & Hn) Hsh]. split; [exists s, e; split_and!; [lia|done|done]|]. intros n. pose proof (held_mono t t' (its n (up_booked p)) Ht). specialize (Hsh n). lia.
Qed.

Lemma hold_for_range c : call_ok c -> metered c = true -> 0 <= hold_for c <= ANSWER_HOLDS_AT_MOST.
Proof using hold_range.
  intros [Ha Hm] Hmet. unfold metered in Hmet. apply negb_true_iff, orb_false_iff in Hmet as [H1 H2]. apply Z.eqb_neq in H1, H2. apply hold_range.
  unfold bytes_served, rate, u64_saturating_mul. ints.
Qed.

(** The admission: when the timeline and the network's share both have room. *)
Definition admissible (c : Call) (p : UploadPacer) : Prop :=
  held_now (ca_now c) (up_booked p) + hold_for c <= RELEASED_WITHIN /\
  (forall n, ca_from c = Some n -> held_now (ca_now c) (its n (up_booked p)) + hold_for c <= NETWORK_HOLDS_AT_MOST).

Definition swept (c : Call) (p : UploadPacer) : UploadPacer := {| up_next_free := up_next_free p; up_booked := drop_released (ca_now c) (up_booked p) |}.

Lemma start_is_the_backlog c p : pacer_ok (ca_now c) p -> start_of (ca_now c) (swept c p) = ca_now c + held_now (ca_now c) (up_booked p).
Proof.
  intros [(s & e & Hs & Hc & Hn) _]. rewrite (held_is_the_wait _ _ _ _ Hs Hc). unfold start_of, swept. cbn. destruct Hn as [-> | [-> Hb]].
  - unfold until. destruct (Z.ltb_spec (ca_now c) e); lia.
  - rewrite Hb in Hc. cbn in Hc. unfold until. lia.
Qed.

Lemma swept_ok c p : pacer_ok (ca_now c) p -> pacer_ok (ca_now c) (swept c p).
Proof.
  intros [(s & e & Hs & Hc & Hn) Hsh]. pose proof (contiguous_holds _ _ _ Hc) as Hh. destruct (drop_released_contiguous _ _ _ _ Hs Hc) as (s' & Hs' & Hc' & _ & _). split; cbn [swept up_booked up_next_free].
  - exists s', e. split_and!; [done|done|]. destruct Hn as [?|[? ->]]; [by left|by right].
  - intros n. by rewrite held_its_drop.
Qed.

(** The reference: what an answer is given. *)
Lemma reserve_spec c p : call_ok c -> metered c = true -> pacer_ok (ca_now c) p ->
  let release := ca_now c + held_now (ca_now c) (up_booked p) + hold_for c in
  admissible c p /\ answer c p = (Serve (bytes_served (ca_asked c) (ca_mbps c)) release,
    {| up_next_free := Some release; up_booked := up_booked (swept c p) ++ [{| bk_from := ca_from c; bk_release := release; bk_hold := hold_for c |}] |}) \/
  ~ admissible c p /\ exists w share, answer c p = (Busy w share, swept c p) /\ BUSY_WAIT_LEAST <= w /\
    held_now (ca_now c) (up_booked p) + hold_for c - RELEASED_WITHIN <= w /\
    forall n v, ca_from c = Some n -> network_waits (ca_now c) n (hold_for c) (up_booked (swept c p)) = Some v -> v <= w.
Proof using hold_range.
  intros Hc Hm Hp release. pose proof (hold_for_range c Hc Hm) as Hhold. pose proof (start_is_the_backlog c p Hp) as Hstart. unfold metered in Hm. apply negb_true_iff in Hm.
  destruct Hp as [(s & e & Hs & Hcon & _) _]. pose proof (contiguous_holds _ _ _ Hcon) as Hh. pose proof (held_nonneg (ca_now c) (up_booked p) Hh) as Hpos.
  unfold answer, reserve. rewrite Hm. fold (hold_for c) (swept c p). rewrite Hstart. fold release. assert (Hw : until release (ca_now c) = held_now (ca_now c) (up_booked p) + hold_for c) by (unfold until, release; lia).
  rewrite Hw. set (nw := ca_from c ≫= _).
  assert (Hnw : nw = None <-> forall n, ca_from c = Some n -> held_now (ca_now c) (its n (up_booked p)) + hold_for c <= NETWORK_HOLDS_AT_MOST).
  { unfold nw. destruct (ca_from c) as [n|]; cbn [mbind option_bind]; [|done]. rewrite network_waits_none. cbn [swept up_booked]. rewrite held_its_drop by done. split; [by intros ? ? [= <-]|auto]. }
  assert (Hv : forall n v, ca_from c = Some n -> network_waits (ca_now c) n (hold_for c) (up_booked (swept c p)) = Some v -> nw = Some v) by (unfold nw; by intros ? ? -> ?).
  unfold admissible. destruct (Z.ltb_spec RELEASED_WITHIN (held_now (ca_now c) (up_booked p) + hold_for c)) as [Hq|Hq]; destruct nw as [v|] eqn:En; cbn [opt_max].
  - right. split; [lia|]. do 2 eexists. split; [done|]. split_and!; [lia|lia|]. intros n u Hn Hu. injection (Hv n u Hn Hu) as ->. lia.
  - right. split; [lia|]. do 2 eexists. split; [done|]. split_and!; [lia|lia|]. intros n u Hn Hu. by specialize (Hv n u Hn Hu).
  - right. split; [intros [_ Hf]; by apply Hnw in Hf|]. do 2 eexists. split; [done|]. split_and!; [lia|pacer_consts; lia|]. intros n u Hn Hu. injection (Hv n u Hn Hu) as ->. lia.
  - left. split; [split; [done|by apply Hnw]|done].
Qed.

Lemma answer_ok c p g p' : call_ok c -> pacer_ok (ca_now c) p -> answer c p = (g, p') -> pacer_ok (ca_now c) p'.
Proof using hold_range.
  intros Hc Hp E. destruct (metered c) eqn:Hm.
  2: { unfold answer, reserve in E. unfold metered in Hm. apply negb_false_iff in Hm. rewrite Hm in E. injection E as _ <-. exact Hp. }
  destruct (reserve_spec c p Hc Hm Hp) as [[[_ Hnet] Ha]|(_ & w & share & Ha & _)]; rewrite Ha in E; injection E as _ <-; [|by apply swept_ok].
  pose proof (hold_for_range c Hc Hm) as Hhold. destruct Hp as [(s & e & Hs & Hcon & _) Hsh]. pose proof (contiguous_holds _ _ _ Hcon) as Hh.
  pose proof (held_is_the_wait _ _ _ _ Hs Hcon) as Hwait. destruct (drop_released_contiguous _ _ _ _ Hs Hcon) as (s' & Hs' & Hcon' & Hnil & Hcons).
  set (release := ca_now c + held_now (ca_now c) (up_booked p) + hold_for c) in *. split; cbn [up_booked up_next_free swept].
  - destruct (drop_released (ca_now c) (up_booked p)) as [|b l].
    + exists (ca_now c), release. specialize (Hnil eq_refl). split_and!; [done| |by left]. cbn. unfold release, until in *. split_and!; lia.
    + exists s', release. specialize (Hcons ltac:(done)). split_and!; [done| |by left].
      apply (contiguous_snoc s' _ e {| bk_from := ca_from c; bk_release := release; bk_hold := hold_for c |}); [done| |done]. cbn. unfold release, until in *. lia.
  - intros n. unfold its. rewrite list.filter_app, held_now_app. fold (its n (drop_released (ca_now c) (up_booked p))). rewrite held_its_drop by done. rewrite filter_cons. cbn [bk_from].
    case_decide as Hn; cbn [held_now filter list_filter]; [|specialize (Hsh n); lia]. specialize (Hnet n Hn). pose proof (share_left_range (ca_now c) {| bk_from := ca_from c; bk_release := release; bk_hold := hold_for c |}). cbn [bk_hold] in *. lia.
Qed.

(** ** Histories *)

Fixpoint pacer_run (l : list Call) (p : UploadPacer) : list (Call * Grant) * UploadPacer :=
  match l with
  | [] => ([], p)
  | c :: l => let '(g, p) := answer c p in let '(out, p) := pacer_run l p in ((c, g) :: out, p)
  end.

(** Calls under a clock that does not step back, from [t] on. *)
Definition clocked (t : Z) (l : list Call) : Prop := Sorted Z.le (t :: map ca_now l) /\ Forall call_ok l.

(** The share of the limit an answer was given. *)
Definition share_of (cg : Call * Grant) : option Booked :=
  match cg.2 with
  | Serve _ release => if metered cg.1 then Some {| bk_from := ca_from cg.1; bk_release := release; bk_hold := hold_for cg.1 |} else None
  | Busy _ _ => None
  end.
Definition begins_after (r : Z) (b : Booked) : Prop := r <= bk_release b - bk_hold b.
Definition apart (a b : Booked) : Prop := begins_after (bk_release a) b.

Definition kept_promise (cg : Call * Grant) : Prop :=
  match cg.2 with
  | Serve bytes release => bytes <= ca_asked cg.1 /\ ca_now cg.1 <= release <= ca_now cg.1 + RELEASED_WITHIN
  | Busy wait _ => BUSY_WAIT_LEAST <= wait
  end.

Lemma clocked_cons t c l : clocked t (c :: l) -> t <= ca_now c /\ call_ok c /\ clocked (ca_now c) l.
Proof.
  intros [Hs Hf]. cbn [map] in Hs. apply Sorted_inv in Hs as [Hs Hh]. apply HdRel_inv in Hh. apply Forall_cons_1 in Hf as [? ?]. done.
Qed.

(** What one answer is given, against the end of the timeline before and after it. *)
Lemma answer_step t c p g p' : t <= ca_now c -> call_ok c -> pacer_ok t p -> answer c p = (g, p') ->
  pacer_ok (ca_now c) p' /\ kept_promise (c, g) /\ (forall r, (exists e, up_next_free p = Some e /\ r <= e) -> exists e, up_next_free p' = Some e /\ r <= e) /\
  match share_of (c, g) with
  | Some b => (forall e, up_next_free p = Some e -> begins_after e b) /\ up_next_free p' = Some (bk_release b)
  | None => True
  end.
Proof using hold_range.
  intros Ht Hc Hp E. apply (pacer_ok_later _ _ _ Ht) in Hp. split; [by eapply answer_ok|]. unfold share_of. cbn [fst snd]. destruct (metered c) eqn:Hm.
  2: { unfold answer, reserve in E. unfold metered in Hm. apply negb_false_iff in Hm. rewrite Hm in E. injection E as <- <-. split_and!; [|auto|done]. unfold kept_promise. cbn. pacer_consts. lia. }
  pose proof (hold_for_range c Hc Hm) as Hhold. pose proof Hp as [(s & e & Hs & Hcon & Hn) _]. pose proof (held_nonneg (ca_now c) _ (contiguous_holds _ _ _ Hcon)) as Hpos.
  pose proof (held_is_the_wait _ _ _ _ Hs Hcon) as Hwait. unfold until in Hwait.
  destruct (reserve_spec c p Hc Hm Hp) as [[[Hfit _] Ha]|(_ & w & share & Ha & Hw & _)]; rewrite Ha in E; injection E as <- <-; [|split_and!; [done|auto|done]].
  split_and!; [|cbn [up_next_free]|intros e' He'|done].
  - unfold kept_promise. cbn [fst snd]. split; [unfold bytes_served; lia|lia].
  - intros r (e' & He' & Hr). eexists. split; [done|]. destruct Hn as [Hn|[Hn _]]; [|congruence]. assert (e' = e) as -> by congruence. lia.
  - unfold begins_after. cbn. destruct Hn as [Hn|[Hn _]]; [|congruence]. assert (e' = e) as -> by congruence. lia.
Qed.

Lemma pacer_run_ok l : forall t p out p', clocked t l -> pacer_ok t p -> pacer_run l p = (out, p') ->
  Forall kept_promise out /\ StronglySorted apart (omap share_of out) /\ (forall r, (exists e, up_next_free p = Some e /\ r <= e) -> Forall (begins_after r) (omap share_of out)) /\
  forall t', (forall c, c ∈ l -> ca_now c <= t') -> t <= t' -> pacer_ok t' p'.
Proof using hold_range.
  induction l as [|c l IH]; intros t p out p' Hcl Hp; cbn [pacer_run].
  { intros [= <- <-]. split_and!; [constructor|constructor|intros; constructor|]. intros t' _ Ht'. by eapply pacer_ok_later. }
  apply clocked_cons in Hcl as (Ht & Hc & Hcl). destruct (answer c p) as [g p1] eqn:Ea. destruct (pacer_run l p1) as [rest p2] eqn:El. intros [= <- <-].
  destruct (answer_step t c p g p1 Ht Hc Hp Ea) as (Hp1 & Hk & Hmono & Hsh). destruct (IH _ _ _ _ Hcl Hp1 El) as (Hks & Hss & Hafter & Hend).
  split_and!; [by constructor|..].
  - cbn [omap list_omap]. destruct (share_of (c, g)) as [b|]; [|done]. destruct Hsh as [_ Hb]. constructor; [done|]. apply Hafter. eauto using Z.le_refl.
  - intros r Hr. cbn [omap list_omap]. destruct (share_of (c, g)) as [b|]; [|apply Hafter; auto]. constructor; [|by apply Hafter, Hmono].
    destruct Hr as (e & He & Hre), Hsh as [Hb _]. specialize (Hb e He). unfold begins_after in *. lia.
  - intros t' Hl Ht'. apply Hend; [intros c' Hc'; apply Hl; by right|apply Hl; by left].
Qed.

Lemma pacer_new_ok t : pacer_ok t pacer_new.
Proof. split; [exists t, t; split_and!; [done|done|by right]|]. intros n. cbn. by pacer_consts. Qed.

(** What is served is what the share was measured for: at the limit's rate its bytes take
    no longer than the share, to within a nanosecond. *)
Definition long_enough (cg : Call * Grant) : Prop :=
  match cg.2, share_of cg with
  | Serve bytes _, Some share => bytes * 1000000000 <= (bk_hold share + 1) * rate (ca_mbps cg.1)
  | _, _ => True
  end.

Lemma answer_long_enough c p : call_ok c -> long_enough (c, fst (answer c p)).
Proof using hold_near.
  intros [Ha Hm]. unfold long_enough, share_of. cbn [fst snd]. destruct (fst (answer c p)) as [bytes release|] eqn:E; [|done]. destruct (metered c) eqn:Hmet; [|done]. cbn [bk_hold].
  unfold metered in Hmet. apply negb_true_iff in Hmet. unfold answer, reserve in E. rewrite Hmet in E. destruct (opt_max _ _) in E; [done|]. cbn [fst] in E. injection E as <- _.
  apply orb_false_iff in Hmet as [H1 H2]. apply Z.eqb_neq in H1, H2. apply hold_near. unfold bytes_served, rate, u64_saturating_mul. ints.
Qed.

Lemma run_long_enough l : forall p out p', Forall call_ok l -> pacer_run l p = (out, p') -> Forall long_enough out.
Proof using hold_near.
  induction l as [|c l IH]; intros p out p' Hl; cbn [pacer_run]; [by intros [= <- _]|]. apply Forall_cons_1 in Hl as [Hc Hl]. pose proof (answer_long_enough c p Hc) as Hlong.
  destruct (answer c p) as [g p1]. destruct (pacer_run l p1) as [rest p2] eqn:El. intros [= <- _]. constructor; [exact Hlong|by eapply IH].
Qed.

(** C29: whoever asks for parts, in whatever order, no two answers are sent at once: each
    has its stretch of the limit to itself, as long as its bytes take at the limit's rate
    (to within the nanosecond a share is rounded to); none carries more than was asked or
    is released later than [RELEASED_WITHIN] after its request; and no network holds more
    than [NETWORK_HOLDS_AT_MOST] of the time ahead.  The clock does not step back; an
    answer without a limit or without bytes takes no share. *)
Theorem uploads_share_one_limit t l out p : clocked t l -> pacer_run l pacer_new = (out, p) ->
  StronglySorted apart (omap share_of out) /\ Forall long_enough out /\ Forall kept_promise out /\
  forall n t', (forall c, c ∈ l -> ca_now c <= t') -> t <= t' -> held_now t' (its n (up_booked p)) <= NETWORK_HOLDS_AT_MOST.
Proof using hold_range hold_near.
  intros Hcl E. destruct (pacer_run_ok l t _ _ _ Hcl (pacer_new_ok t) E) as (Hk & Hs & _ & Hend). split_and!; [done|by eapply run_long_enough, E; apply Hcl|done|]. intros n t' Hl Ht'. by apply (Hend t' Hl Ht').
Qed.

Lemma clocked_snoc t l c : clocked t (l ++ [c]) -> clocked t l /\ call_ok c /\ (forall x, x ∈ l -> ca_now x <= ca_now c) /\ t <= ca_now c.
Proof.
  revert t. induction l as [|x l IH]; intros t Hcl.
  { apply clocked_cons in Hcl as (? & ? & _). split_and!; [by repeat constructor|done|by intros ? ?%elem_of_nil|done]. }
  cbn [app] in Hcl. apply clocked_cons in Hcl as (Ht & Hx & Hcl). destruct (IH _ Hcl) as ([Hs Hf] & Hc & Hle & Hx'). split_and!; [|done| |lia].
  - split; [|by constructor]. cbn [map]. constructor; [done|]. by constructor.
  - intros y [->|Hy]%elem_of_cons; [done|by apply Hle].
Qed.

(** After a history, before the next call. *)
Lemma pacer_before t l c out p : clocked t (l ++ [c]) -> pacer_run l pacer_new = (out, p) -> call_ok c /\ pacer_ok (ca_now c) p.
Proof using hold_range.
  intros Hcl E. apply clocked_snoc in Hcl as (Hcl & Hc & Hle & Ht). split; [done|].
  destruct (pacer_run_ok l t _ _ _ Hcl (pacer_new_ok t) E) as (_ & _ & _ & Hend). by apply Hend.
Qed.

Lemma swept_admissible c c' p wait : call_ok c -> metered c = true -> pacer_ok (ca_now c) p -> hold_for c' = hold_for c -> ca_from c' = ca_from c -> ca_now c + wait <= ca_now c' -> 0 <= wait ->
  held_now (ca_now c) (up_booked p) + hold_for c - RELEASED_WITHIN <= wait ->
  (forall n v, ca_from c = Some n -> network_waits (ca_now c) n (hold_for c) (up_booked (swept c p)) = Some v -> v <= wait) -> admissible c' (swept c p).
Proof using hold_range.
  intros Hc Hm Hp Hh Hfrom Hlater H0 Hq Hn. pose proof (hold_for_range c Hc Hm) as Hhold. pose proof Hp as [(s & e & Hs & Hcon & _) _].
  rewrite <- (held_drop_released _ _ (contiguous_holds _ _ _ Hcon)) in Hq. destruct (swept_ok c p Hp) as [(s' & e' & Hs' & Hcon' & _) _]. unfold admissible. rewrite Hh, Hfrom. split.
  - pose proof (held_is_the_wait _ _ _ _ Hs' Hcon') as Hw. cbn [swept up_booked] in *. rewrite (held_is_the_wait (ca_now c') s' _ e') by (done || lia).
    rewrite Hw in Hq. unfold until in *. pacer_consts. lia.
  - intros n Hf. destruct (network_waits (ca_now c) n (hold_for c) (up_booked (swept c p))) as [v|] eqn:Ev.
    + specialize (Hn n v Hf Ev). apply (network_waits_enough (ca_now c) (ca_now c') n (hold_for c) s' _ v); try done; [by apply contiguous_sorted in Hcon'|by apply contiguous_holds in Hcon'|lia].
    + apply network_waits_none in Ev. pose proof (held_mono (ca_now c) (ca_now c') (its n (up_booked (swept c p)))). lia.
Qed.

(** C30: a wait named is a wait that is enough: the same request, made again once it is
    over with nothing booked in between, is served. *)
Theorem busy_wait_is_enough t l out p c wait share p' c' : clocked t (l ++ [c]) -> pacer_run l pacer_new = (out, p) -> answer c p = (Busy wait share, p') ->
  ca_asked c' = ca_asked c -> ca_mbps c' = ca_mbps c -> ca_from c' = ca_from c -> ca_now c + wait <= ca_now c' ->
  exists bytes release, fst (answer c' p') = Serve bytes release.
Proof using hold_range.
  intros Hcl E Ea Ha Hb Hf Hlater. destruct (pacer_before t l c out p Hcl E) as [Hc Hp]. destruct (metered c) eqn:Hm.
  2: { unfold answer, reserve in Ea. unfold metered in Hm. apply negb_false_iff in Hm. by rewrite Hm in Ea. }
  destruct (reserve_spec c p Hc Hm Hp) as [[_ Es]|(_ & w & sh & Es & Hw & Hq & Hn)]; rewrite Es in Ea; [done|]. injection Ea as -> _ <-.
  assert (Hh : hold_for c' = hold_for c) by (unfold hold_for; by rewrite Ha, Hb). assert (Hm' : metered c' = true) by (unfold metered in *; by rewrite Ha, Hb).
  assert (Hc' : call_ok c') by (unfold call_ok in *; by rewrite Ha, Hb). assert (H0 : 0 <= wait) by (pacer_consts; lia).
  assert (Hp' : pacer_ok (ca_now c') (swept c p)) by (apply (pacer_ok_later (ca_now c)); [lia|by apply swept_ok]).
  destruct (reserve_spec c' (swept c p) Hc' Hm' Hp') as [[_ Es']|[Hnot _]]; [rewrite Es'; eauto|]. exfalso. apply Hnot. by apply (swept_admissible c c' p wait).
Qed.

Definition all_from (n : bytes) (p : UploadPacer) : Prop := Forall (fun b => bk_from b = Some n) (up_booked p).

Lemma drop_released_all (P : Booked -> Prop) now l : Forall P l -> Forall P (drop_released now l).
Proof. induction 1 as [|b l Hb Hl IH]; cbn; [constructor|]. case_match; [done|by constructor]. Qed.

Lemma pacer_run_all n l : forall p out p', all_from n p -> Forall (fun x => ca_from x = Some n) l -> pacer_run l p = (out, p') -> all_from n p'.
Proof.
  induction l as [|c l IH]; intros p out p' Hp Hf; cbn [pacer_run]; [by intros [= _ <-]|]. destruct (answer c p) as [g p1] eqn:Ea. destruct (pacer_run l p1) as [rest p2] eqn:El.
  intros [= _ <-]. apply Forall_cons_1 in Hf as [Hc Hf]. apply (IH p1 rest p2); [|done|done]. unfold answer, reserve in Ea. destruct (_ || _); [by injection Ea as _ <-|].
  destruct (opt_max _ _); injection Ea as _ <-; unfold all_from; cbn [up_booked]; [by apply drop_released_all|]. apply Forall_app. split; [by apply drop_released_all|by repeat constructor].
Qed.

Lemma its_all n l : Forall (fun b => bk_from b = Some n) l -> its n l = l.
Proof. induction 1 as [|b l Hb _ IH]; [done|]. unfold its. rewrite filter_cons, decide_True by done. f_equal. exact IH. Qed.
Lemma its_none m n l : m <> n -> Forall (fun b => bk_from b = Some n) l -> its m l = [].
Proof. intros Hne. induction 1 as [|b l Hb _ IH]; [done|]. unfold its. rewrite filter_cons, decide_False by congruence. exact IH. Qed.

(** C31: while one network alone has asked, another that asks is served, twice over:
    what one network may hold leaves room for two answers. *)
Theorem others_find_room t l out p n m c : clocked t (l ++ [c]) -> Forall (fun x => ca_from x = Some n) l -> pacer_run l pacer_new = (out, p) ->
  ca_from c = Some m -> m <> n -> metered c = true ->
  exists bytes release p', answer c p = (Serve bytes release, p') /\ exists bytes' release', fst (answer c p') = Serve bytes' release'.
Proof using hold_range.
  intros Hcl Hl E Hf Hne Hm. destruct (pacer_before t l c out p Hcl E) as [Hc Hp]. pose proof (hold_for_range c Hc Hm) as Hhold.
  assert (Hall : all_from n p) by (eapply pacer_run_all; [|exact Hl|exact E]; constructor). pose proof Hp as [(s & e & Hs & Hcon & _) Hsh].
  pose proof (contiguous_holds _ _ _ Hcon) as Hh. specialize (Hsh n). rewrite (its_all n) in Hsh by done.
  destruct (reserve_spec c p Hc Hm Hp) as [[_ Es]|[Hnot _]].
  2: { exfalso. apply Hnot. split; [pacer_consts; lia|]. intros m' Hm'. assert (m' = m) as -> by congruence. rewrite (its_none m n) by done. cbn. pacer_consts. lia. }
  do 3 eexists. split; [exact Es|]. set (p1 := {| up_next_free := _ |}) in *. assert (Hp1 : pacer_ok (ca_now c) p1) by (by eapply answer_ok).
  destruct (reserve_spec c p1 Hc Hm Hp1) as [[_ Es1]|[Hnot _]]; [rewrite Es1; eauto|]. exfalso. apply Hnot. unfold admissible, p1, swept. cbn [up_booked].
  set (b := {| bk_from := _ |}). pose proof (share_left_range (ca_now c) b) as Hb. cbn [b bk_hold] in Hb. split.
  - rewrite held_now_app, held_drop_released by done. cbn [held_now]. fold b in Hb. pacer_consts. lia.
  - intros m' Hm'. assert (m' = m) as -> by congruence. unfold its. rewrite list.filter_app. fold (its m (drop_released (ca_now c) (up_booked p))).
    rewrite (its_none m n) by (done || by apply drop_released_all). rewrite filter_cons, decide_True by done. cbn [app held_now filter list_filter]. fold b in Hb. pacer_consts. lia.
Qed.
End pacer.

(** ** Instances *)

Module PacerToy.
(** The quotient itself, to the nearest nanosecond. *)
Definition nearest (b r : Z) : Z := (b * 1000000000 + r / 2) / r.

Lemma nearest_range b r : 0 < b <= 4 * r -> 0 <= nearest b r <= ANSWER_HOLDS_AT_MOST.
Proof.
  intros Hb. unfold nearest. assert (0 < r) by lia. assert (0 <= r / 2 < r) by (split; [apply Z.div_pos; lia|apply Z.div_lt; lia]). pacer_consts. split.
  - apply Z.div_pos; lia.
  - apply Z.lt_succ_r, Z.div_lt_upper_bound; lia.
Qed.

Lemma nearest_near b r : 0 < b <= 4 * r -> b * 1000000000 <= (nearest b r + 1) * r.
Proof. intros Hb. unfold nearest. assert (0 < r) by lia. pose proof (Z.mod_pos_bound (b * 1000000000 + r / 2) r) as Hm. pose proof (Z.div_mod (b * 1000000000 + r / 2) r) as Hd. assert (0 <= r / 2) by (apply Z.div_pos; lia). lia. Qed.

(** Whole chunks asked of ten megabits a second. *)
Definition asks (now : Z) (from : Z) : Call := {| ca_now := seconds now; ca_asked := SHARD_CHUNK_SIZE; ca_mbps := 10; ca_from := Some [from] |}.
Definition crowd : list Call := [asks 0 1; asks 0 1; asks 1 1; asks 1 1; asks 2 1].

Lemma clocked_crowd c : ca_now (asks 2 1) <= ca_now c -> call_ok c -> clocked 0 (crowd ++ [c]).
Proof. intros Hc Hok. split; [unfold crowd; cbn; repeat constructor; cbn in *; unfold seconds in *; lia|]. unfold crowd. cbn [app]. repeat constructor; try apply Hok; vm_compute; congruence. Qed.
End PacerToy.
Import PacerToy.

(** At ten megabits an answer carries five megabytes and holds four seconds; the third of
    three from one network ends twelve seconds on, and the fourth waits. *)
Example crowd_grants : map snd (fst (pacer_run hold_ns crowd pacer_new)) =
  [Serve 5000000 (seconds 4); Serve 5000000 (seconds 8); Serve 5000000 (seconds 12); Busy (seconds 3) true; Busy (seconds 2) true].
Proof. by vm_compute. Qed.

Lemma uploads_share_one_limit_witness : StronglySorted apart (omap (share_of nearest) (fst (pacer_run nearest crowd pacer_new))) /\ Forall (long_enough nearest) (fst (pacer_run nearest crowd pacer_new)).
Proof.
  destruct (pacer_run nearest crowd pacer_new) as [out p] eqn:E.
  destruct (uploads_share_one_limit nearest nearest_range nearest_near 0 crowd out p) as (H & H' & _); [|exact E|exact (conj H H')].
  apply (clocked_snoc 0 crowd (asks 3 2)), clocked_crowd; [by vm_compute|]. split; split; vm_compute; congruence.
Defined.

Lemma busy_wait_is_enough_witness : exists bytes release, fst (answer nearest (asks 5 1) (snd (answer nearest (asks 2 1) (snd (pacer_run nearest crowd pacer_new))))) = Serve bytes release.
Proof.
  destruct (pacer_run nearest crowd pacer_new) as [out p] eqn:E. cbn [snd]. destruct (answer nearest (asks 2 1) p) as [g p'] eqn:Ea.
  assert (Hg : g = Busy (seconds 2) true).
  { assert (Hp : p = snd (pacer_run nearest crowd pacer_new)) by (by rewrite E). subst p. change g with (fst (g, p')). rewrite <- Ea. by vm_compute. }
  subst g. cbn [snd]. apply (busy_wait_is_enough nearest nearest_range 0 crowd out p (asks 2 1) (seconds 2) true p'); [|exact E|exact Ea|done..|by vm_compute].
  apply clocked_crowd; [by vm_compute|]. split; split; vm_compute; congruence.
Defined.

Lemma others_find_room_witness : exists bytes release p', answer nearest (asks 2 2) (snd (pacer_run nearest crowd pacer_new)) = (Serve bytes release, p').
Proof.
  destruct (pacer_run nearest crowd pacer_new) as [out p] eqn:E.
  destruct (others_find_room nearest nearest_range 0 crowd out p [1] [2] (asks 2 2)) as (b & r & p' & H & _); [|by repeat constructor|exact E|done|done|done|by exists b, r, p'].
  apply clocked_crowd; [by vm_compute|]. split; split; vm_compute; congruence.
Defined.
